(* ===== verification/_CoqProject ===== *)
-Q . S2P
Prelude.v
RustStr.v
FloatTime.v
Bitmap.v
Kernel.v
Overlay.v
TemplateClient.v
TemplateSession.v
Uffd.v
RestoreBackend.v
RestoreSource.v
RestoreHandler.v
RestoreSession.v
ServiceWire.v
MemoryRanges.v
MigrationWire.v
Precopy.v
MigrationReceiver.v
MigrationSender.v
SendWorkers.v
MigrationSim.v
ReceiveWorkers.v
SnapshotStore.v
SnapshotDriver.v
Allocators.v
RateLimiter.v
SerialBuffer.v
OptionParser.v
NetAddr.v
VmConfig.v
VmConfigParse.v
VmConfigCheck.v
MigrationConfig.v
RemoteController.v
CProg.v
UffdCow.v
UblkServer.v
CowDemo.v
DeviceBus.v
Msix.v
MsiRoutes.v
VsockPacket.v
VsockConn.v
