(* ===== verification/Prelude.v ===== *)
(** * Verification of the template-memory and migration code

    The repository holds several programs about snapshots of virtual-machine memory.
    Under [src/uffd-cow-gpt/] this library models the template-memory library and its
    service ([src/lib.rs], [src/main.rs]), the parts of the vendored Cloud Hypervisor
    that restore a VM from a template and migrate a running VM ([cloud-hypervisor/vmm],
    [cloud-hypervisor/vm-migration]), those that make a VM's configuration from the
    command line and hand out its resources, its device bus, its message-signalled
    interrupts and its vsock connections, and the C demonstration of copy-on-write pages
    ([demo/main.c]); paths below are relative to this directory, those of the VMM to its
    [cloud-hypervisor/].  Under [src/conch-driver/]: the tools that split a snapshot into a
    page table and a file of pages, and the kernel driver that maps such snapshots; their
    paths start with [driver/] or [tools/].  Three further programs stand alone:
    [src/uffd-cow/], an earlier C version of the template memory, the block device server
    of [src/ublk-mmap-demo/], and the sandbox controller of [src/remote-controller/].

    ** How the program works

    A template is a stack of layer files, each with a bitmap of the pages it holds.
    A [TemplateService] maps a [memfd] that its clients share; a [Client] maps the
    same [memfd], registers it with a userfaultfd and runs a handler thread.  A
    missing-page fault loads the page from the topmost layer; a write fault replaces
    the page by a private, anonymous copy and marks it dirty; a [Checkpoint] exports
    the dirty pages.  Cloud Hypervisor's restore path does the same for the memory of
    a VM, in chunks, and reads the pages from a snapshot file or over a Unix socket
    from the service of [main.rs].  A live migration sends the configuration, the
    memory (repeatedly, driven by dirty bitmaps, until the rest is small), the state
    and a completion over a socket, and possibly the memory over further connections.

    The configuration of a VM is a record of options, parsed one string per option and
    then checked as a whole; a restore is checked against it and devices are removed from
    it.  Its rate limits are token buckets with a timer, its devices get addresses and
    interrupts from allocators, and its serial port writes through a bounded buffer.  An
    access of the guest is routed to its device by the bus; a device's interrupts go
    through its MSI-X table, whose changes become routes and irqfds of KVM; a vsock
    connection passes bytes between the guest's queues and a stream of the host, with
    credit for the room in its ring buffer.

    [split_snapshot] stores each page of a snapshot under a hash of its bytes, in a
    file of slots with open addressing, and writes a table from addresses to hashes.
    The driver keeps a list of templates, each a page table and such a file, and one
    pool of loaded pages; mapping a template takes a reference to it, a fault looks
    its page up in the pool or probes the file, and closing the mapping gives the
    pages and the reference back.

    ** Conventions

    The embedding is shallow.  A function of the source is a Rocq function of the same
    name; [Result] is [res] ([Ok], [Err], [Panic], [Hang]), code with effects is [M S E A
    := S → res E A * S] on an explicit state, and an integer is an element of [Z] whose
    operations panic where the Rust operation overflows, as they do in the dev profile; a
    release build wraps around instead.  A loop that is not structural takes fuel and
    gives [Hang] when it runs out; the theorems name the fuel that is enough and conclude
    that a result is returned, or, for a loop that really does not end, that it hangs for
    every fuel.  The kernel, the libraries and the parts of the VMM that the modelled code
    only calls are type classes; their documented behaviour is a class of laws, and every
    class of laws has an instance that is an executable simulation, on which the witnesses
    are evaluated.  The driver's pointers are numbers into finite maps, so that a use
    after [kfree] is a lookup that fails and gives [Panic]; the answers of the kernel (an
    allocation or an insertion that succeeds or fails) are a list of booleans in its
    state.  The C programs of [UffdCow], [UblkServer] and [CowDemo] are trees of system
    calls ([CProg]), run on an arbitrary environment that gives each call its answer;
    their theorems are about the trace of calls.

    ** Files

    - [Prelude]: [res], the state monad, checked arithmetic, indexing from [Z], byte
      encodings, the tactics [eval_result] and [eval_state].
    - [RustStr], [FloatTime]: strings, [f64], [Duration] and [Instant] of the standard
      library, as far as the code uses them.
    - [Bitmap]: page bitmaps ([src/lib.rs], [bitmap_*]).
    - [Kernel]: the class [Kernel] (userfaultfd ioctls, [mmap], [munmap], [pread],
      loads and stores), its laws [KernelOk], the simulation [Sim].
    - [Overlay]: [OverlayBackend], [Layer], [pread_exact] ([src/lib.rs]).
    - [TemplateClient], [TemplateSession]: [TemplateService], [Client], the fault
      handlers, [Checkpoint] ([src/lib.rs]), and the theorems on whole sessions.
    - [Uffd]: ioctl numbers and wrappers ([vmm/src/userfaultfd.rs], [vmm/src/uffd.rs]).
    - [RestoreBackend], [RestoreSource], [RestoreHandler], [RestoreSession]: the page
      layout, the page sources, the fault handler of a restore and the theorems on a
      restore session ([vmm/src/template_memory.rs]).
    - [ServiceWire]: the service's connections and metrics ([src/main.rs]) and the wire
      between them and the restore's client.
    - [MemoryRanges]: dirty bitmaps as range tables, partition into chunks
      ([vm-migration/src/bitpos_iterator.rs], [vm-migration/src/protocol.rs]).
    - [MigrationWire]: the messages of a migration and the transfer of memory
      ([vm-migration/src/protocol.rs], [vmm/src/migration_transport.rs]).
    - [Precopy]: the iterations of a memory migration and their metrics
      ([vmm/src/lib.rs], [vmm/src/memory_manager.rs], [vm-migration/src/context.rs]).
    - [MigrationReceiver], [MigrationSender]: the two ends ([vmm/src/lib.rs]).
    - [SendWorkers]: several connections ([SendAdditionalConnections] in
      [vmm/src/migration_transport.rs], [Gate] in [vmm/src/sync_utils.rs]) as a
      transition system.
    - [MigrationSim]: the executable sender and receiver.
    - [ReceiveWorkers]: [ReceiveAdditionalConnections] ([vmm/src/migration_transport.rs]),
      the code of a worker and the threads as a transition system.
    - [SnapshotStore]: the snapshot files ([tools/split_snapshot.c],
      [tools/query_snapshot.c]).
    - [SnapshotDriver]: the driver ([driver/snapshot_pool.c],
      [driver/snapshot_template.c], [driver/snapshot_mmap.c],
      [driver/snapshot_ioctl.c], [driver/snapshot_main.c]).
    - [Allocators]: addresses, interrupts and memory slots ([vm-allocator/src/]).
    - [RateLimiter]: token buckets, the limiter and its groups ([rate_limiter/src/]).
    - [SerialBuffer]: the output of the serial port ([serial_buffer/src/lib.rs]).
    - [OptionParser]: options and the types of their values
      ([option_parser/src/lib.rs]).
    - [NetAddr]: MAC addresses ([net_util/src/mac.rs]) and the standard library's IP
      addresses.
    - [VmConfig], [VmConfigParse], [VmConfigCheck]: the configuration, what parsing it
      gives, and its validation ([vmm/src/config.rs], [vmm/src/vm_config.rs]).
    - [MigrationConfig]: the parameters of a migration ([vmm/src/api/mod.rs]).
    - [RemoteController]: the handlers of the sandbox controller as steps between their
      locks, and the specification they refine ([src/remote-controller/main.go]).
    - [CProg]: programs of system calls, their runs, a program logic for them and the
      ledger of the resources a run holds.
    - [UffdCow] ([src/uffd-cow/]), [UblkServer]
      ([src/ublk-mmap-demo/ublksrv/ublk_loop_srv.c]), [CowDemo] ([demo/main.c]): the
      three C programs on [CProg].
    - [DeviceBus]: the bus of a VM's devices ([vm-device/src/bus.rs]).
    - [Msix]: the MSI-X configuration of a device and the interrupts of a virtio device
      ([pci/src/msix.rs], [virtio-devices/src/transport/pci_device.rs]).
    - [MsiRoutes]: interrupt groups and the routing table they share
      ([vmm/src/interrupt.rs], [hypervisor/src/kvm/mod.rs]), and MSI ([pci/src/msi.rs]).
    - [VsockPacket], [VsockConn]: packets ([virtio-devices/src/vsock/packet.rs]), and the
      ring buffer and the connection ([virtio-devices/src/vsock/csm/]).

    ** What the theorems show

    Bitmaps and layers: a bitmap is the set of its pages, and a page is read from the
    topmost layer that has it, whatever short or interrupted reads the kernel makes.
    Sessions: each fault handler returns and does exactly its part, every interleaving of
    handler rounds and guest stores keeps a client's pages missing, clean and protected,
    or private and dirty, and a checkpoint over the template gives back the guest's
    memory.  Restore: the same for a VM, with chunks, and no byte the guest has seen
    changes; pages read through the service are the template's bytes.  Migration: tables
    cover exactly the dirty pages, the messages are read back from their bytes, the
    iterations end once the timeout has passed, and what a successful sender puts on the
    connection makes the receiver resume a VM on the memory of the paused source; over
    several connections, a call that returns has all its chunks acknowledged, and can
    return as long as no worker failed; at the receiver, a worker stores and acknowledges
    exactly what its connection carries, and [cleanup] returns, with the first error, once
    the requests that were begun are answered.  Snapshots: a page of a split snapshot is
    found again by its address, and a fault of the driver maps the bytes the page table
    names.  Configuration: every parser returns on every string, unless a list of integers
    is longer than a vector can be; what it returns is in the machine types of its fields,
    quoted values are read back; one that is accepted has different identifiers, devices
    on segments and slots that exist, queues for its processors and shared memory where it
    is needed; the check returns wherever its sums and products fit.  Resources: allocated
    ranges are free, aligned and disjoint, a bucket grants no more than its size, its
    burst and its rate and what it reports as overdrawn, a limiter that is blocked wakes
    up, and a serial buffer delivers what it keeps in order.  Devices: the bus routes each
    address to the one device whose range has it; an interrupt that a virtio device raised
    and did not send is pending; an irqfd of an MSI-X device is assigned only while its
    number is routed; a vsock connection delivers both streams in order, and a guest that
    keeps to its credit loses nothing and is told of new room.  Programs: on every path,
    whichever call fails, [src/uffd-cow/] and the block device server use only what they
    hold and give it back, up to the exceptions that are stated; the demonstration's
    faults load a page and isolate it, and its two processes come to their end in every
    interleaving; the runs of the controller without [Shutdown] are linearizable.  A last
    group states what the code does where it does not do what it means to: a failed load
    blocks later faults, a connection lost in the middle of a transfer makes the receiver
    spin, a sender that fails after the completion leaves both VMs running, [cleanup] that
    finds the channel of the workers full waits forever for those that are alive, a
    template that was mapped can never be deleted, a refused mapping frees its template, a
    forked mapping is used after it is freed, a limiter whose debt is less than a
    millisecond stays blocked, retries at a low rate are never served, a configuration of
    no memory makes its check panic, a write fault of [src/uffd-cow/] loses its page, a
    sandbox started after it was stopped never stops, two ranges inserted into the bus at
    once may overlap, setting the pending bit of a vector whose number modulo 64 is 32 or
    more panics, MSI assigns irqfds that are not routed, and a guest can make the vsock
    device panic.

    ** Bounds

    Fuel is the number of iterations of one loop: reads return at least one byte or end,
    so the length of a buffer plus the number of interruptions is enough for
    [pread_exact]; a table needs its size over the chunk size plus two for [partition];
    the precopy iterations need no more rounds than the clock is read until the timeout
    has passed.  [SendWorkers] has no fuel: its runs are sequences of steps.  The probes
    of [SnapshotStore] and [SnapshotDriver] are the source's own bound of 64.  Euclid's
    algorithm in [RateLimiter] takes 130 turns at most on 64-bit numbers; a worker of
    [ReceiveWorkers] takes a turn per message, and within it one per byte of the longest
    range and one per interruption of [poll].  [flush_to] of [VsockConn] calls itself at
    most twice ([ring_flush_spec]).  The loops of the C programs that wait for events end
    when they are told to, so their theorems hold for every fuel; the loops of [CowDemo]
    on its pipes need one turn more than there are interruptions.

    ** Not modelled

    Of [src/lib.rs] and [src/main.rs]: printing, logging, the demonstration program
    with its child process, the parsing of command lines.  Of Cloud Hypervisor: device
    models other than those above and disk formats, the hypervisor bindings, the API server,
    the set-up of the guest's memory regions, which drive hardware, KVM or files; groups of
    legacy interrupts; the muxer and the device around the vsock connections; the opening
    of sockets; of
    the configuration, the collection of the arguments by [clap], the (de)serialization
    by [serde], the rules for Landlock, and the features that are not built by default
    ([fw_cfg], [igvm], [ivshmem], [sev_snp], [tdx], [guest_debug], [pvmemcontrol]); the
    loop around [epoll] of a rate limiter group.  Of [conch-driver]: the
    tests, the printed messages and statistics, faults and ioctls that run at the same
    time.  Thread scheduling is modelled where the code depends on it: other clients
    of a template are an arbitrary environment step in [TemplateClient], guest stores
    are steps of a session, between the rounds of the handler and not within one, and
    [SendWorkers] and [ReceiveWorkers] interleave all
    threads; relaxed memory orders are not.  Of [demo/main.c]: the layout of the dump it
    prints; of [src/ublk-mmap-demo/]: the test program; of
    [src/remote-controller/]: [main], which registers the service and waits for signals. *)

From stdpp Require Export base tactics numbers list list_numbers gmap strings pretty.
From Stdlib Require Import Lia.

(** Machine integers are elements of [Z]; [Z] literals are the default. *)
Global Open Scope Z_scope.

(** ** Outcomes of a Rust computation

    [Ok] and [Err] are the two constructors of [Result]; [Panic] is an
    unwinding panic (failed assertion, out-of-range index, arithmetic overflow);
    [Hang] is a loop that did not leave within the fuel it was given. *)
Inductive res (E A : Type) : Type :=
| Ok (a : A)
| Err (e : E)
| Panic
| Hang.
Arguments Ok {E A} a.
Arguments Err {E A} e.
Arguments Panic {E A}.
Arguments Hang {E A}.

Global Instance res_ret {E} : MRet (res E) := λ A a, Ok a.
Global Instance res_bind {E} : MBind (res E) := λ A B f m,
  match m with
  | Ok a => f a
  | Err e => Err e
  | Panic => Panic
  | Hang => Hang
  end.
Global Instance res_fmap {E} : FMap (res E) := λ A B f m,
  match m with
  | Ok a => Ok (f a)
  | Err e => Err e
  | Panic => Panic
  | Hang => Hang
  end.

Definition map_err {E F A} (f : E → F) (m : res E A) : res F A :=
  match m with
  | Ok a => Ok a
  | Err e => Err (f e)
  | Panic => Panic
  | Hang => Hang
  end.

Definition ok_or {E A} (o : option A) (e : E) : res E A :=
  match o with Some a => Ok a | None => Err e end.

(** An [Option] that the source unwraps. *)
Definition unwrap {E A} (o : option A) : res E A :=
  match o with Some a => Ok a | None => Panic end.

(** [assert!] and, in the profile the Makefile builds, [debug_assert!]. *)
Definition assert {E} (b : bool) : res E unit := if b then Ok tt else Panic.

(** ** Stateful computations: the state survives an error *)
Definition M (S E A : Type) : Type := S → res E A * S.

Global Instance M_ret {S E} : MRet (M S E) := λ A a s, (Ok a, s).
Global Instance M_bind {S E} : MBind (M S E) := λ A B f m s,
  match m s with
  | (Ok a, s') => f a s'
  | (Err e, s') => (Err e, s')
  | (Panic, s') => (Panic, s')
  | (Hang, s') => (Hang, s')
  end.

Definition lift {S E A} (r : res E A) : M S E A := λ s, (r, s).
Definition fail {S E A} (e : E) : M S E A := λ s, (Err e, s).
Definition get {S E} : M S E S := λ s, (Ok s, s).
Definition gets {S E A} (f : S → A) : M S E A := λ s, (Ok (f s), s).
Definition modify {S E} (f : S → S) : M S E unit := λ s, (Ok tt, f s).
Definition hang {S E A} : M S E A := λ s, (Hang, s).

(** The [?] operator with a [From] conversion of the error. *)
Definition m_map_err {S E F A} (f : E → F) (m : M S E A) : M S F A :=
  λ s, let '(r, s') := m s in (map_err f r, s').

(** A call whose [Result] the caller inspects instead of propagating. *)
Definition try_ {S E F A} (m : M S E A) : M S F (E + A) := λ s,
  match m s with
  | (Ok a, s') => (Ok (inr a), s')
  | (Err e, s') => (Ok (inl e), s')
  | (Panic, s') => (Panic, s')
  | (Hang, s') => (Hang, s')
  end.

(** Rust's [for x in l { body }]. *)
Fixpoint for_ {S E A} (l : list A) (body : A → M S E unit) : M S E unit :=
  match l with
  | [] => mret tt
  | x :: l' => body x ≫= λ _, for_ l' body
  end.

(** The same loop over a pure accumulator. *)
Fixpoint foldM {E A B} (f : A → B → res E A) (a : A) (l : list B) : res E A :=
  match l with
  | [] => Ok a
  | x :: l' => a' ← f a x; foldM f a' l'
  end.

(** ** Machine integers

    [usize] is 64 bits wide on the targets the code supports.  Additions,
    subtractions and multiplications panic when they leave the type, which is
    what the development profile built by the Makefile does. *)
Definition U8_MAX : Z := 2 ^ 8 - 1.
Definition U32_MAX : Z := 2 ^ 32 - 1.
Definition U64_MAX : Z := 2 ^ 64 - 1.

Definition is_u8 (x : Z) : Prop := 0 ≤ x < 2 ^ 8.
Definition is_u32 (x : Z) : Prop := 0 ≤ x < 2 ^ 32.
Definition is_u64 (x : Z) : Prop := 0 ≤ x < 2 ^ 64.

Definition in_u64 (x : Z) : bool := (0 <=? x) && (x <? 2 ^ 64).

Definition uadd {E} (x y : Z) : res E Z := if in_u64 (x + y) then Ok (x + y) else Panic.
Definition usub {E} (x y : Z) : res E Z := if in_u64 (x - y) then Ok (x - y) else Panic.
Definition umul {E} (x y : Z) : res E Z := if in_u64 (x * y) then Ok (x * y) else Panic.
Definition udiv {E} (x y : Z) : res E Z := if y =? 0 then Panic else Ok (x / y).
Definition urem {E} (x y : Z) : res E Z := if y =? 0 then Panic else Ok (x mod y).

Definition checked_add (x y : Z) : option Z := if in_u64 (x + y) then Some (x + y) else None.
Definition checked_mul (x y : Z) : option Z := if in_u64 (x * y) then Some (x * y) else None.
Definition saturating_sub (x y : Z) : Z := Z.max 0 (x - y).

(** [a.div_ceil(b)], which panics on a zero divisor. *)
Definition ceil_div (a b : Z) : Z := if a mod b =? 0 then a / b else a / b + 1.
Definition div_ceil {E} (a b : Z) : res E Z := if b =? 0 then Panic else Ok (ceil_div a b).

(** Bitwise complement of a [u64]. *)
Definition unot (x : Z) : Z := U64_MAX - x.

(** ** Vectors: indexing panics out of range *)
Definition zlen {A} (l : list A) : Z := Z.of_nat (length l).
Definition znth {A} (l : list A) (i : Z) : option A := if i <? 0 then None else l !! Z.to_nat i.
Definition zset {A} (l : list A) (i : Z) (x : A) : list A := <[Z.to_nat i := x]> l.
Definition vget {E A} (l : list A) (i : Z) : res E A := unwrap (znth l i).
Definition vset {E A} (l : list A) (i : Z) (x : A) : res E (list A) :=
  if (0 <=? i) && (i <? zlen l) then Ok (zset l i x) else Panic.

(** The bytes [off .. off + len) of a byte sequence, fewer at its end. *)
Definition slice {A} (l : list A) (off len : Z) : list A :=
  take (Z.to_nat len) (drop (Z.to_nat off) l).

(** [Vec] filled with one value, [vec![x; n]]. *)
Definition zreplicate {A} (n : Z) (x : A) : list A := replicate (Z.to_nat n) x.

(** The integer range [a..b]. *)
Definition zrange (a b : Z) : list Z := seqZ a (b - a).

(** ** Little-endian integers *)
Fixpoint le_bytes (n : nat) (x : Z) : list Z :=
  match n with
  | O => []
  | S n' => x mod 256 :: le_bytes n' (x / 256)
  end.

Fixpoint of_le_bytes (l : list Z) : Z :=
  match l with
  | [] => 0
  | b :: l' => b + 256 * of_le_bytes l'
  end.

(** ** Hexadecimal output *)
Definition hex_digit (d : Z) : Ascii.ascii :=
  Ascii.ascii_of_nat (Z.to_nat (if d <? 10 then 48 + d else 87 + d)).

(** [n] digits, most significant first: [{:0nx}] for a value of at most [n]
    digits. *)
Fixpoint hex_fixed (n : nat) (w : Z) : string :=
  match n with
  | O => EmptyString
  | S n' => hex_fixed n' (w / 16) +:+ String (hex_digit (w mod 16)) EmptyString
  end.

(** As many digits as a [u64] needs: [{:#x}]. *)
Definition hex (w : Z) : string :=
  "0x" +:+ hex_fixed (S (Z.to_nat (Z.log2 (Z.max 1 w) / 4))) w.

(** ** Tactics *)

(** Case analysis on the boolean comparisons of the goal and the context. *)
Ltac zcases :=
  repeat match goal with
  | H : context [Z.eqb ?a ?b] |- _ => destruct (Z.eqb_spec a b)
  | H : context [Z.ltb ?a ?b] |- _ => destruct (Z.ltb_spec a b)
  | H : context [Z.leb ?a ?b] |- _ => destruct (Z.leb_spec a b)
  | |- context [Z.eqb ?a ?b] => destruct (Z.eqb_spec a b)
  | |- context [Z.ltb ?a ?b] => destruct (Z.ltb_spec a b)
  | |- context [Z.leb ?a ?b] => destruct (Z.leb_spec a b)
  end; simpl in *.

(** Case analysis on every [match] left in a hypothesis. *)
Ltac break_match_in H :=
  match type of H with
  | context [match ?x with _ => _ end] =>
      lazymatch x with
      | context [match _ with _ => _ end] => fail
      | _ => destruct x eqn:?
      end
  end.

(** From [H : run = (r, s)] with [run] closed: compute the result [r]. *)
Ltac eval_result H :=
  match type of H with ?t = (?r, _) =>
    let v := eval vm_compute in t.1 in
    let E := fresh "E" in
    assert (r = v) as E by (transitivity t.1; [by rewrite H|vm_compute; reflexivity]);
    subst r
  end.

(** A goal about [s], with [H : run = (r, s)] and [run] closed, by computation. *)
Ltac eval_state H :=
  match type of H with ?t = (_, ?s) =>
    let E := fresh "E" in
    assert (s = t.2) as E by (by rewrite H); rewrite E; vm_compute; reflexivity
  end.

Ltac break_match :=
  match goal with
  | |- context [match ?x with _ => _ end] =>
      lazymatch x with
      | context [match _ with _ => _ end] => fail
      | _ => destruct x eqn:?
      end
  end.

Create HintDb tmpl.
Create HintDb tmpl_rw.

(** ** Outcome and state lemmas *)
Section outcomes.
Context {S E A B : Type}.
Implicit Types (m : M S E A) (f : A → M S E B) (r : res E A).

Lemma bind_ok r (g : A → res E B) b :
  r ≫= g = Ok b ↔ ∃ a, r = Ok a ∧ g a = Ok b.
Proof. destruct r; simpl; naive_solver. Qed.

Lemma run_snd {T1 T2} (t : T1 * T2) (r : T1) : t.1 = r → t = (r, t.2).
Proof. destruct t. by intros <-. Qed.

Lemma m_bind_run m f s a s' : m s = (Ok a, s') → (m ≫= f) s = f a s'.
Proof. unfold mbind, M_bind. by intros ->. Qed.

Lemma m_bind_err m f s e s' : m s = (Err e, s') → (m ≫= f) s = (Err e, s').
Proof. unfold mbind, M_bind. by intros ->. Qed.

Lemma m_bind_assoc {C} m f (g : B → M S E C) s : ((m ≫= f) ≫= g) s = (m ≫= λ x, f x ≫= g) s.
Proof. unfold mbind, M_bind. by destruct (m s) as [[] ?]. Qed.

Lemma m_bind_ok m f s b s'' :
  (m ≫= f) s = (Ok b, s'') ↔ ∃ a s', m s = (Ok a, s') ∧ f a s' = (Ok b, s'').
Proof. unfold mbind, M_bind. destruct (m s) as [[] ?]; naive_solver. Qed.

Lemma for_nil (body : A → M S E unit) s : for_ [] body s = (Ok tt, s).
Proof. done. Qed.

Lemma for_app (l1 l2 : list A) (body : A → M S E unit) s s' :
  for_ l1 body s = (Ok tt, s') → for_ (l1 ++ l2) body s = for_ l2 body s'.
Proof.
  revert s. induction l1 as [|x l1 IH]; intros s; simpl.
  - by intros [= ->].
  - unfold mbind, M_bind. destruct (body x s) as [[] s1]; naive_solver.
Qed.
End outcomes.

Section loops.
Context {E A B : Type} (f : A → B → res E A).

Lemma foldM_app a l1 l2 : foldM f a (l1 ++ l2) = foldM f a l1 ≫= λ a', foldM f a' l2.
Proof.
  revert a. induction l1 as [|x l1 IH]; intros a; simpl; [done|].
  destruct (f a x); simpl; [apply IH|done..].
Qed.

(** A loop whose body succeeds under an invariant indexed by the elements
    already visited. *)
Lemma foldM_ok_inv (P : list B → A → Prop) a l r :
  P [] a →
  (∀ done x b b', P done b → f b x = Ok b' → P (done ++ [x]) b') →
  foldM f a l = Ok r → P l r.
Proof.
  intros H0 Hstep. revert r. induction l as [|x l IH] using rev_ind; intros r; [by intros [= <-]|].
  rewrite foldM_app. intros (b & Hb & Hr)%bind_ok. simpl in Hr.
  destruct (f b x) eqn:Hf; simpl in Hr; [|done..]. injection Hr as <-. eauto.
Qed.

Lemma foldM_inv (P : list B → A → Prop) a l :
  P [] a →
  (∀ done x a, P done a → (∃ rest, l = done ++ x :: rest) →
     ∃ a', f a x = Ok a' ∧ P (done ++ [x]) a') →
  ∃ a', foldM f a l = Ok a' ∧ P l a'.
Proof.
  intros H0 Hstep. induction l as [|x l IH] using rev_ind; [by exists a|].
  destruct IH as (a1 & E1 & P1).
  - intros done y b Hb (rest & ->). apply Hstep; [done|].
    exists (rest ++ [x]). by rewrite <-app_assoc.
  - destruct (Hstep l x a1 P1) as (a2 & E2 & P2); [by exists []|].
    exists a2. rewrite foldM_app, E1. simpl. rewrite E2. done.
Qed.
End loops.

(** ** Arithmetic lemmas *)
Section arithmetic.
Lemma in_u64_spec x : in_u64 x = true ↔ is_u64 x.
Proof. unfold in_u64, is_u64. rewrite andb_true_iff, Z.leb_le, Z.ltb_lt. done. Qed.

Lemma in_u64_true x : is_u64 x → in_u64 x = true.
Proof. apply in_u64_spec. Qed.

Lemma uadd_ok {E} x y : is_u64 (x + y) → @uadd E x y = Ok (x + y).
Proof. intros H. unfold uadd. by rewrite in_u64_true. Qed.

Lemma usub_ok {E} x y : is_u64 (x - y) → @usub E x y = Ok (x - y).
Proof. intros H. unfold usub. by rewrite in_u64_true. Qed.

Lemma umul_ok {E} x y : is_u64 (x * y) → @umul E x y = Ok (x * y).
Proof. intros H. unfold umul. by rewrite in_u64_true. Qed.

Lemma udiv_ok {E} x y : y ≠ 0 → @udiv E x y = Ok (x / y).
Proof. intros H. unfold udiv. by destruct (Z.eqb_spec y 0). Qed.

Lemma uadd_Ok {E} x y z : @uadd E x y = Ok z ↔ z = x + y ∧ is_u64 (x + y).
Proof. unfold uadd. rewrite <-in_u64_spec. destruct (in_u64 _); naive_solver. Qed.

Lemma usub_Ok {E} x y z : @usub E x y = Ok z ↔ z = x - y ∧ is_u64 (x - y).
Proof. unfold usub. rewrite <-in_u64_spec. destruct (in_u64 _); naive_solver. Qed.

Lemma umul_Ok {E} x y z : @umul E x y = Ok z ↔ z = x * y ∧ is_u64 (x * y).
Proof. unfold umul. rewrite <-in_u64_spec. destruct (in_u64 _); naive_solver. Qed.

Lemma ceil_div_alt a b : 0 < b → ceil_div a b = (a + b - 1) / b.
Proof.
  intros Hb. unfold ceil_div.
  pose proof (Z.div_mod a b ltac:(lia)) as Hd. pose proof (Z.mod_pos_bound a b Hb).
  destruct (Z.eqb_spec (a mod b) 0).
  - apply (Z.div_unique _ _ _ (b - 1)); lia.
  - apply (Z.div_unique _ _ _ (a mod b - 1)); lia.
Qed.

(** The quotient rounded up is the least number of [b]-sized pieces that
    cover [a]. *)
Lemma ceil_div_spec a b n : 0 < b → ceil_div a b ≤ n ↔ a ≤ n * b.
Proof.
  intros Hb. rewrite ceil_div_alt by done. split; intros H.
  - pose proof (Z.div_mod (a + b - 1) b ltac:(lia)).
    pose proof (Z.mod_pos_bound (a + b - 1) b Hb). nia.
  - apply Z.lt_succ_r, Z.div_lt_upper_bound; lia.
Qed.

Lemma ceil_div_nonneg a b : 0 ≤ a → 0 < b → 0 ≤ ceil_div a b.
Proof.
  intros. rewrite ceil_div_alt by done. apply Z.div_pos; lia.
Qed.

Lemma ceil_div_lt a b i : 0 < b → i < ceil_div a b ↔ i * b < a.
Proof. intros Hb. pose proof (ceil_div_spec a b i Hb). lia. Qed.

Lemma ceil_div_exact n b : 0 < b → ceil_div (n * b) b = n.
Proof.
  intros Hb. unfold ceil_div. rewrite Z.mod_mul, Z.div_mul by lia. done.
Qed.

(** The page mask [a & !(p - 1)] rounds down to a multiple of a power of
    two. *)
Lemma land_unot_pow2 a k :
  0 ≤ k ≤ 64 → is_u64 a → Z.land a (unot (2 ^ k - 1)) = a - a mod 2 ^ k.
Proof.
  intros Hk [Ha0 Ha]. unfold unot, U64_MAX.
  assert (2 ^ 64 - 1 - (2 ^ k - 1) = Z.ldiff (Z.ones 64) (Z.ones k)) as ->.
  { rewrite Z.ldiff_ones_r by lia. rewrite Z.shiftl_mul_pow2, Z.shiftr_div_pow2 by lia.
    rewrite Z.ones_equiv.
    assert (2 ^ 64 = 2 ^ k * 2 ^ (64 - k)) as ->
      by (rewrite <-Z.pow_add_r by lia; f_equal; lia).
    assert (0 < 2 ^ k) by (apply Z.pow_pos_nonneg; lia).
    assert (0 < 2 ^ (64 - k)) by (apply Z.pow_pos_nonneg; lia).
    assert (Z.pred (2 ^ k * 2 ^ (64 - k)) / 2 ^ k = 2 ^ (64 - k) - 1) as ->.
    { symmetry. apply (Z.div_unique _ _ _ (2 ^ k - 1)); lia. }
    lia. }
  assert (Z.land a (Z.ldiff (Z.ones 64) (Z.ones k)) = Z.ldiff a (Z.ones k)) as ->.
  { rewrite !Z.ldiff_land, Z.land_assoc, Z.land_ones, Z.mod_small by lia. done. }
  rewrite Z.ldiff_ones_r by lia. rewrite Z.shiftl_mul_pow2, Z.shiftr_div_pow2 by lia.
  assert (0 < 2 ^ k) by (apply Z.pow_pos_nonneg; lia).
  pose proof (Z.div_mod a (2 ^ k) ltac:(lia)). lia.
Qed.
End arithmetic.

(** ** Vector lemmas *)
Section vectors.
Context {A : Type}.
Implicit Types (l : list A) (i j : Z) (x : A).

Lemma zlen_nonneg l : 0 ≤ zlen l.
Proof. unfold zlen. lia. Qed.

Lemma zlen_app l1 l2 : zlen (l1 ++ l2) = zlen l1 + zlen l2.
Proof. unfold zlen. rewrite length_app. lia. Qed.

Lemma zlen_cons x l : zlen (x :: l) = 1 + zlen l.
Proof. unfold zlen. simpl. lia. Qed.

Lemma zlen_zset l i x : zlen (zset l i x) = zlen l.
Proof. unfold zlen, zset. by rewrite length_insert. Qed.

Lemma zlen_zreplicate n x : 0 ≤ n → zlen (zreplicate n x) = n.
Proof. unfold zlen, zreplicate. rewrite length_replicate. lia. Qed.

Lemma zlen_nil_inv l : zlen l = 0 → l = [].
Proof. destruct l; [done|]. rewrite zlen_cons. pose proof (zlen_nonneg l). lia. Qed.

Lemma znth_Some_lt l i x : znth l i = Some x → 0 ≤ i < zlen l.
Proof.
  unfold znth, zlen. destruct (Z.ltb_spec i 0); [done|].
  intros Hx%lookup_lt_Some. lia.
Qed.

Lemma znth_is_Some l i : 0 ≤ i < zlen l → is_Some (znth l i).
Proof.
  unfold znth, zlen. intros Hi. destruct (Z.ltb_spec i 0); [lia|].
  apply lookup_lt_is_Some. lia.
Qed.

Lemma znth_None l i : ¬ (0 ≤ i < zlen l) → znth l i = None.
Proof.
  unfold znth, zlen. intros Hi. destruct (Z.ltb_spec i 0); [done|].
  apply lookup_ge_None. lia.
Qed.

Lemma znth_zset l i j x :
  0 ≤ i < zlen l → znth (zset l i x) j = if i =? j then Some x else znth l j.
Proof.
  unfold znth, zset, zlen. intros Hi.
  destruct (Z.ltb_spec j 0), (Z.eqb_spec i j); subst; try lia; try done.
  - rewrite list_lookup_insert_eq; [done|lia].
  - rewrite list_lookup_insert_ne; [done|lia].
Qed.

Lemma znth_app l1 l2 i :
  0 ≤ i → znth (l1 ++ l2) i = if i <? zlen l1 then znth l1 i else znth l2 (i - zlen l1).
Proof.
  unfold znth, zlen. intros Hi.
  destruct (Z.ltb_spec i 0), (Z.ltb_spec i (Z.of_nat (length l1))); try lia.
  - rewrite lookup_app_l; [done|lia].
  - destruct (Z.ltb_spec (i - Z.of_nat (length l1)) 0); [lia|].
    rewrite lookup_app_r by lia. f_equal. lia.
Qed.

Lemma znth_cons x l i : 0 ≤ i → znth (x :: l) (i + 1) = znth l i.
Proof.
  intros Hi. unfold znth. destruct (Z.ltb_spec (i + 1) 0), (Z.ltb_spec i 0); try lia.
  by replace (Z.to_nat (i + 1)) with (S (Z.to_nat i)) by lia.
Qed.

Lemma znth_zreplicate n x i : 0 ≤ i < n → znth (zreplicate n x) i = Some x.
Proof.
  intros Hi. unfold znth, zreplicate. destruct (Z.ltb_spec i 0); [lia|].
  apply lookup_replicate. split; [done|lia].
Qed.

Lemma znth_ext l1 l2 :
  zlen l1 = zlen l2 → (∀ i, 0 ≤ i < zlen l1 → znth l1 i = znth l2 i) → l1 = l2.
Proof.
  intros Hlen Hi. unfold zlen in *. apply list_eq. intros i.
  destruct (decide (i < length l1)%nat) as [Hl|Hl].
  - specialize (Hi (Z.of_nat i) ltac:(lia)). unfold znth in Hi.
    destruct (Z.ltb_spec (Z.of_nat i) 0); [lia|]. by rewrite Nat2Z.id in Hi.
  - rewrite !lookup_ge_None_2 by lia. done.
Qed.

Lemma zset_zset l i x y : zset (zset l i x) i y = zset l i y.
Proof. unfold zset. apply list_insert_insert_eq. Qed.

Lemma vget_Ok {E} l i x : @vget E A l i = Ok x ↔ znth l i = Some x.
Proof. unfold vget. destruct (znth l i); simpl; naive_solver. Qed.

Lemma vset_ok {E} l i x : 0 ≤ i < zlen l → @vset E A l i x = Ok (zset l i x).
Proof.
  intros Hi. unfold vset. destruct (Z.leb_spec 0 i), (Z.ltb_spec i (zlen l)); simpl; try lia; done.
Qed.

Lemma zlen_slice l off len :
  0 ≤ off → 0 ≤ len → off + len ≤ zlen l → zlen (slice l off len) = len.
Proof.
  unfold zlen, slice. intros. rewrite length_take, length_drop. lia.
Qed.

Lemma znth_slice l off len i :
  0 ≤ off → 0 ≤ i < len → znth (slice l off len) i = znth l (off + i).
Proof.
  intros Ho Hi. unfold znth, slice.
  destruct (Z.ltb_spec i 0), (Z.ltb_spec (off + i) 0); try lia.
  rewrite lookup_take_lt by lia. rewrite lookup_drop. f_equal. lia.
Qed.

Lemma slice_split l off m n :
  0 ≤ off → 0 ≤ m ≤ n → slice l off m ++ slice l (off + m) (n - m) = slice l off n.
Proof.
  intros Ho Hm. unfold slice.
  replace (Z.to_nat n) with (Z.to_nat m + Z.to_nat (n - m))%nat by lia.
  replace (Z.to_nat (off + m)) with (Z.to_nat off + Z.to_nat m)%nat by lia.
  rewrite <-drop_drop. apply take_take_drop.
Qed.

Lemma slice_app_l l1 l2 len : zlen l1 = len → slice (l1 ++ l2) 0 len = l1.
Proof. unfold slice, zlen. intros <-. rewrite Nat2Z.id, drop_0. apply take_app_length. Qed.

Lemma drop_zlen_app l1 l2 : drop (Z.to_nat (zlen l1)) (l1 ++ l2) = l2.
Proof. unfold zlen. rewrite Nat2Z.id. apply drop_app_length. Qed.
End vectors.

Lemma zlen_fmap {A B} (f : A → B) l : zlen (f <$> l) = zlen l.
Proof. unfold zlen. by rewrite length_fmap. Qed.

Lemma znth_fmap {A B} (f : A → B) l i : znth (f <$> l) i = f <$> znth l i.
Proof. unfold znth. destruct (i <? 0); [done|]. apply list_lookup_fmap. Qed.

Lemma zlen_seqZ a n : 0 ≤ n → zlen (seqZ a n) = n.
Proof. unfold zlen. rewrite length_seqZ. lia. Qed.

Lemma znth_seqZ a n i : 0 ≤ i < n → znth (seqZ a n) i = Some (a + i).
Proof.
  intros Hi. unfold znth. destruct (Z.ltb_spec i 0); [lia|].
  apply lookup_seqZ. lia.
Qed.

#[export] Hint Rewrite @zlen_app @zlen_cons @zlen_zset @zlen_fmap : tmpl_rw.
#[export] Hint Resolve zlen_nonneg : tmpl.

(** ** Little-endian lemmas *)
Section little_endian.
Lemma zlen_le_bytes n x : zlen (le_bytes n x) = Z.of_nat n.
Proof.
  revert x. induction n as [|n IH]; intros x; [done|].
  cbn [le_bytes]. rewrite zlen_cons, IH. lia.
Qed.

Lemma of_le_bytes_le_bytes n x : 0 ≤ x < 256 ^ Z.of_nat n → of_le_bytes (le_bytes n x) = x.
Proof.
  revert x. induction n as [|n IH]; intros x Hx.
  - simpl in *. lia.
  - cbn [le_bytes of_le_bytes]. rewrite IH.
    + pose proof (Z.div_mod x 256 ltac:(lia)). lia.
    + rewrite Nat2Z.inj_succ, Z.pow_succ_r in Hx by lia. split.
      * apply Z.div_pos; lia.
      * apply Z.div_lt_upper_bound; lia.
Qed.

Lemma le_bytes_u8 n x : Forall is_u8 (le_bytes n x).
Proof.
  revert x. induction n as [|n IH]; intros x; constructor; [|apply IH].
  unfold is_u8. pose proof (Z.mod_pos_bound x 256). lia.
Qed.
End little_endian.
