(* ===== verification/RustStr.v ===== *)
(** * Strings of the standard library

    What the option parser and the configuration use of [str]: a string is the list of
    its characters, by their Unicode numbers.  Trimming, splitting, the decimal form of
    an integer and the parsing of one, with the lemmas that the parsers share. *)

From Stdlib Require Import Ascii String.
From S2P Require Import Prelude.

Notation str := (list Z).

(** A literal. *)
Definition lit (s : string) : str := (λ c, Z.of_N (N_of_ascii c)) <$> list_ascii_of_string s.

Definition DQUOTE : Z := 34.
Definition COMMA : Z := 44.

(** ** Operations *)

(** [char::is_whitespace] *)
Definition is_whitespace (c : Z) : bool :=
  ((9 <=? c) && (c <=? 13)) || (c =? 32) || (c =? 0x85) || (c =? 0xa0) || (c =? 0x1680)
  || ((0x2000 <=? c) && (c <=? 0x200a)) || (c =? 0x2028) || (c =? 0x2029) || (c =? 0x202f) || (c =? 0x205f) || (c =? 0x3000).

Fixpoint trim_start_matches (p : Z → bool) (s : str) : str :=
  match s with
  | [] => []
  | c :: s' => if p c then trim_start_matches p s' else s
  end.
Definition trim_end_matches (p : Z → bool) (s : str) : str := reverse (trim_start_matches p (reverse s)).
Definition trim_matches (p : Z → bool) (s : str) : str := trim_end_matches p (trim_start_matches p s).
Definition trim (s : str) : str := trim_matches is_whitespace s.

(** [split] on a character: at least one piece. *)
Fixpoint split (sep : Z) (s : str) : list str :=
  match s with
  | [] => [[]]
  | c :: s' =>
      if c =? sep then [] :: split sep s'
      else match split sep s' with p :: ps => (c :: p) :: ps | [] => [[c]] end
  end.

(** [splitn(2, sep)]: what comes before the first separator, and what comes after it. *)
Fixpoint splitn2 (sep : Z) (s : str) : str * option str :=
  match s with
  | [] => ([], None)
  | c :: s' => if c =? sep then ([], Some s') else let '(a, b) := splitn2 sep s' in (c :: a, b)
  end.

Fixpoint join (sep : Z) (l : list str) : str :=
  match l with
  | [] => []
  | [p] => p
  | p :: l' => p ++ sep :: join sep l'
  end.

Definition ends_with (c : Z) (s : str) : bool := bool_decide (last s = Some c).

(** [to_lowercase] on what is compared with words of ASCII letters. *)
Definition to_lowercase (s : str) : str := (λ c, if (65 <=? c) && (c <=? 90) then c + 32 else c) <$> s.

(** [IntErrorKind] *)
Inductive ParseIntError := Empty | InvalidDigit | PosOverflow.

Fixpoint parse_digits (max acc : Z) (s : str) : res ParseIntError Z :=
  match s with
  | [] => Ok acc
  | c :: s' =>
      if (48 <=? c) && (c <=? 57) then
        if max <? acc * 10 then Err PosOverflow
        else if max <? acc * 10 + (c - 48) then Err PosOverflow
        else parse_digits max (acc * 10 + (c - 48)) s'
      else Err InvalidDigit
  end.

(** [parse] of an unsigned integer: decimal digits, after an optional plus sign. *)
Definition parse_uint (max : Z) (s : str) : res ParseIntError Z :=
  match s with
  | [] => Err Empty
  | [c] => if (c =? 43) || (c =? 45) then Err InvalidDigit else parse_digits max 0 s
  | c :: s' => parse_digits max 0 (if c =? 43 then s' else s)
  end.

(** The decimal form; twenty digits are enough for 64 bits. *)
Fixpoint show_loop (fuel : nat) (n : Z) : str :=
  match fuel with
  | O => []
  | S fuel' => if n <? 10 then [48 + n] else show_loop fuel' (n / 10) ++ [48 + n mod 10]
  end.
Definition show_u64 (n : Z) : str := show_loop 20 n.

(** ** Lemmas *)

Lemma trim_start_matches_id p s : (∀ c, head s = Some c → p c = false) → trim_start_matches p s = s.
Proof. destruct s as [|c s]; simpl; [done|]. intros H. by rewrite H. Qed.

Lemma trim_matches_id p s :
  (∀ c, head s = Some c → p c = false) → (∀ c, last s = Some c → p c = false) → trim_matches p s = s.
Proof.
  intros Hh Hl. unfold trim_matches, trim_end_matches. rewrite (trim_start_matches_id p s Hh).
  rewrite trim_start_matches_id, reverse_involutive; [done|]. intros c. rewrite head_reverse. apply Hl.
Qed.

Lemma trim_start_matches_app p r t : Forall (λ c, p c = true) r → trim_start_matches p (r ++ t) = trim_start_matches p t.
Proof. induction 1 as [|c r Hc _ IH]; simpl; [done|]. by rewrite Hc. Qed.

Lemma trim_end_matches_app p r t :
  Forall (λ c, p c = true) r → (∀ c, last t = Some c → p c = false) → trim_end_matches p (t ++ r) = t.
Proof.
  intros Hr Ht. unfold trim_end_matches. rewrite reverse_app, trim_start_matches_app by (by apply Forall_reverse).
  rewrite trim_start_matches_id, reverse_involutive; [done|]. intros c. rewrite head_reverse. apply Ht.
Qed.

(** What trimming takes away. *)
Lemma trim_start_matches_split p s : ∃ a, s = a ++ trim_start_matches p s ∧ Forall (λ c, p c = true) a.
Proof.
  induction s as [|c s (a & Hs & Ha)]; simpl; [by exists []|]. destruct (p c) eqn:Hc; [|by exists []].
  exists (c :: a). split; [simpl; by f_equal|by constructor].
Qed.

Lemma trim_matches_split p s :
  ∃ a b, s = a ++ trim_matches p s ++ b ∧ Forall (λ c, p c = true) a ∧ Forall (λ c, p c = true) b.
Proof.
  destruct (trim_start_matches_split p s) as (a & Hs & Ha). destruct (trim_start_matches_split p (reverse (trim_start_matches p s))) as (b & Hb & Hpb).
  exists a, (reverse b). unfold trim_matches, trim_end_matches. rewrite <-reverse_app, <-Hb, reverse_involutive.
  split; [done|]. split; [done|]. by apply Forall_reverse.
Qed.

Lemma split_nosep sep s : sep ∉ s → split sep s = [s].
Proof.
  induction s as [|c s IH]; simpl; [done|]. intros [Hc Hs]%not_elem_of_cons. destruct (Z.eqb_spec c sep); [congruence|]. by rewrite IH.
Qed.

Lemma split_app sep p s : sep ∉ p → split sep (p ++ sep :: s) = p :: split sep s.
Proof.
  induction p as [|c p IH]; simpl; [by rewrite Z.eqb_refl|]. intros [Hc Hs]%not_elem_of_cons.
  destruct (Z.eqb_spec c sep); [congruence|]. by rewrite IH.
Qed.

Lemma split_join sep l : l ≠ [] → Forall (λ p, sep ∉ p) l → split sep (join sep l) = l.
Proof.
  intros Hne. induction l as [|p [|q l] IH]; [done| |]; intros Hl; apply Forall_cons in Hl as [Hp Hl].
  - by apply split_nosep.
  - change (join sep (p :: q :: l)) with (p ++ sep :: join sep (q :: l)). rewrite split_app by done. by rewrite IH.
Qed.

Lemma splitn2_app sep k v : sep ∉ k → splitn2 sep (k ++ sep :: v) = (k, Some v).
Proof.
  induction k as [|c k IH]; simpl; [by rewrite Z.eqb_refl|]. intros [Hc Hs]%not_elem_of_cons.
  destruct (Z.eqb_spec c sep); [congruence|]. by rewrite IH.
Qed.

Lemma splitn2_spec sep s k v : splitn2 sep s = (k, v) → s = k ++ match v with Some v => sep :: v | None => [] end.
Proof.
  revert k v. induction s as [|c s IH]; simpl; intros k v; [by intros [= <- <-]|].
  destruct (Z.eqb_spec c sep) as [->|]; [by intros [= <- <-]|]. destruct (splitn2 sep s) as [a b]. intros [= <- <-].
  simpl. f_equal. by apply IH.
Qed.

(** ** Decimal numbers *)

Definition is_digit (c : Z) : Prop := 48 ≤ c ≤ 57.

Lemma parse_digits_app max acc a b : parse_digits max acc (a ++ b) = x ← parse_digits max acc a; parse_digits max x b.
Proof. revert acc. induction a as [|c a IH]; intros acc; simpl; [done|]. repeat case_match; (done || apply IH). Qed.

Lemma parse_digits_digit max acc d :
  0 ≤ d < 10 → 0 ≤ acc → acc * 10 + d ≤ max → parse_digits max acc [48 + d] = Ok (acc * 10 + d).
Proof.
  intros Hd Ha Hm. simpl. destruct (Z.leb_spec 48 (48 + d)), (Z.leb_spec (48 + d) 57); try lia. cbn [andb].
  destruct (Z.ltb_spec max (acc * 10)); [lia|]. destruct (Z.ltb_spec max (acc * 10 + (48 + d - 48))); [lia|]. f_equal. lia.
Qed.

Lemma show_loop_digits fuel n : 0 ≤ n → Forall is_digit (show_loop fuel n).
Proof.
  revert n. induction fuel as [|fuel IH]; intros n Hn; simpl; [done|]. unfold is_digit. destruct (Z.ltb_spec n 10); [constructor; [lia|done]|].
  apply Forall_app. split; [apply IH; apply Z.div_pos; lia|]. constructor; [|done]. pose proof (Z.mod_pos_bound n 10). lia.
Qed.

Lemma parse_show_loop max fuel n :
  fuel ≠ 0%nat → 0 ≤ n < 10 ^ Z.of_nat fuel → n ≤ max → parse_digits max 0 (show_loop fuel n) = Ok n ∧ show_loop fuel n ≠ [].
Proof.
  revert n. induction fuel as [|fuel IH]; intros n H0 Hn Hm; [done|]. cbn [show_loop].
  destruct (Z.ltb_spec n 10); [split; [|done]; rewrite parse_digits_digit by lia; f_equal; lia|].
  pose proof (Z.mod_pos_bound n 10 ltac:(lia)). pose proof (Z.div_mod n 10 ltac:(lia)).
  assert (0 ≤ n / 10 < 10 ^ Z.of_nat fuel) as Hd.
  { split; [apply Z.div_pos; lia|]. apply Z.div_lt_upper_bound; [lia|]. rewrite Nat2Z.inj_succ, Z.pow_succ_r in Hn; lia. }
  assert (fuel ≠ 0%nat) by (intros ->; simpl in Hd; lia).
  destruct (IH (n / 10) ltac:(done) Hd ltac:(lia)) as [Hp _]. split; [|by destruct (show_loop fuel (n / 10))].
  rewrite parse_digits_app, Hp. cbn [mbind res_bind]. rewrite parse_digits_digit by lia. f_equal. lia.
Qed.

Lemma parse_uint_digits max s : s ≠ [] → Forall is_digit s → parse_uint max s = parse_digits max 0 s.
Proof.
  intros Hne Hd. destruct s as [|c [|c' s]]; [done|..]; apply Forall_cons in Hd as [Hc _]; unfold is_digit in Hc; unfold parse_uint.
  - destruct (Z.eqb_spec c 43), (Z.eqb_spec c 45); (lia || done).
  - destruct (Z.eqb_spec c 43); (lia || done).
Qed.

Lemma show_u64_digits n : 0 ≤ n → Forall is_digit (show_u64 n).
Proof. apply show_loop_digits. Qed.

Lemma show_u64_ne n : 0 ≤ n < 2 ^ 64 → show_u64 n ≠ [].
Proof. intros Hn. apply (parse_show_loop n 20 n); [done|lia..]. Qed.

(** Reading back what was printed. *)
Lemma parse_show max n : 0 ≤ n < 2 ^ 64 → n ≤ max → parse_uint max (show_u64 n) = Ok n.
Proof.
  intros Hn Hm. rewrite parse_uint_digits; [|by apply show_u64_ne|apply show_u64_digits; lia].
  apply (parse_show_loop max 20 n); [done|lia..].
Qed.

Lemma parse_digits_bound max acc s n : 0 ≤ acc ≤ max → parse_digits max acc s = Ok n → 0 ≤ n ≤ max.
Proof.
  revert acc. induction s as [|c s IH]; intros acc Ha; simpl; [intros [= <-]; lia|].
  destruct (Z.leb_spec 48 c), (Z.leb_spec c 57); cbn [andb]; try done.
  destruct (Z.ltb_spec max (acc * 10)); [done|]. destruct (Z.ltb_spec max (acc * 10 + (c - 48))); [done|]. apply IH. lia.
Qed.

Lemma parse_uint_bound max s n : 0 ≤ max → parse_uint max s = Ok n → 0 ≤ n ≤ max.
Proof.
  intros Hm. unfold parse_uint. destruct s as [|c [|c' s]]; [done|..]; [case_match; [done|]|];
    intros Hp; (eapply parse_digits_bound; [|exact Hp]; lia).
Qed.

Lemma parse_uint_result max s : match parse_uint max s with Ok _ | Err _ => True | _ => False end.
Proof.
  assert (∀ t acc, match parse_digits max acc t with Ok _ | Err _ => True | _ => False end) as H.
  { intros t. induction t as [|c t IH]; intros acc; simpl; [done|].
    destruct (_ && _); [|done]. destruct (_ <? _); [done|]. destruct (_ <? _); [done|]. apply IH. }
  unfold parse_uint. destruct s as [|c [|c' s]]; [done|destruct (_ || _); [done|]; apply H|apply H].
Qed.
