(* ===== verification/FloatTime.v ===== *)
(** * Floating point numbers and durations

    [f64] is IEEE binary64 with the operations of [SpecFloat]; a [Duration] and an
    [Instant] are nanoseconds. *)

From Stdlib Require Import SpecFloat.
From S2P Require Import Prelude.

Definition f64_of_Z (n : Z) : spec_float := binary_normalize 53 1024 n 0 false.
Definition f64_zero : spec_float := S754_zero false.
Definition f64_div (x y : spec_float) : spec_float := SFdiv 53 1024 x y.
Definition f64_mul (x y : spec_float) : spec_float := SFmul 53 1024 x y.

(** [x as u64] truncates and saturates. *)
Definition f64_as_u64 (x : spec_float) : Z :=
  match x with
  | S754_finite false m e =>
      Z.min U64_MAX (if 0 <=? e then Zpos m * 2 ^ e else Zpos m / 2 ^ (- e))
  | S754_infinity false => U64_MAX
  | _ => 0
  end.

Definition as_secs_f64 (d : Z) : spec_float :=
  SFadd 53 1024 (f64_of_Z (d / 10 ^ 9)) (f64_div (f64_of_Z (d mod 10 ^ 9)) (f64_of_Z (10 ^ 9))).

(** Division rounded to nearest, ties to even. *)
Definition round_half_even (n d : Z) : Z :=
  let q := n / d in
  let r := n mod d in
  if 2 * r <? d then q else if d <? 2 * r then q + 1 else if Z.even q then q else q + 1.

(** [Duration::from_secs_f64], which panics on what is not a duration. *)
Definition from_secs_f64 {E} (x : spec_float) : res E Z :=
  match x with
  | S754_zero _ => Ok 0
  | S754_finite false m e =>
      let ns := if 0 <=? e then Zpos m * 2 ^ e * 10 ^ 9 else round_half_even (Zpos m * 10 ^ 9) (2 ^ (- e)) in
      if ns <? 2 ^ 64 * 10 ^ 9 then Ok ns else Panic
  | _ => Panic
  end.

(** [Instant::elapsed] saturates. *)
Definition duration_since (now begin : Z) : Z := saturating_sub now begin.

Lemma f64_as_u64_nonneg x : 0 ≤ f64_as_u64 x.
Proof.
  destruct x as [| [] | | [] m e]; simpl; try (unfold U64_MAX; lia). apply Z.min_glb; [unfold U64_MAX; lia|].
  destruct (Z.leb_spec 0 e); [apply Z.mul_nonneg_nonneg; [lia|apply Z.pow_nonneg; lia]|].
  apply Z.div_pos; [lia|]. apply Z.pow_pos_nonneg; lia.
Qed.
