(* ===== verification/Bitmap.v ===== *)
(** * Page bitmaps

    Model of the bitmap helpers of [src/lib.rs]: one bit per page, packed in
    [u64] words.  [bitmap_words], [bitmap_from], [bitmap_set], [bitmap_get] and
    [bitmap_hex] follow the functions of the same names; the theorems state that
    a bitmap behaves as the set of its pages and that its printed form
    determines it. *)

From S2P Require Import Prelude.

Module Bitmap.

Definition bitmap_words (bits : Z) : Z := ceil_div bits 64.

Definition bitmap_set {E} (bitmap : list Z) (bit : Z) : res E (list Z) :=
  w ← vget bitmap (bit / 64);
  vset bitmap (bit / 64) (Z.lor w (Z.shiftl 1 (bit mod 64))).

Definition bitmap_get {E} (bitmap : list Z) (bit : Z) : res E bool :=
  w ← vget bitmap (bit / 64);
  Ok (negb (Z.land w (Z.shiftl 1 (bit mod 64)) =? 0)).

Definition bitmap_from {E} (page_count : Z) (present : Z → bool) : res E (list Z) :=
  foldM (λ bitmap page_idx,
           if present page_idx then bitmap_set bitmap page_idx else Ok bitmap)
        (zreplicate (bitmap_words page_count) 0)
        (zrange 0 page_count).

(** [Vec<String>::join] *)
Fixpoint join (sep : string) (l : list string) : string :=
  match l with
  | [] => EmptyString
  | [s] => s
  | s :: l' => s +:+ sep +:+ join sep l'
  end.

Definition bitmap_hex (bitmap : list Z) : string :=
  join "_" ((hex_fixed 16) <$> reverse bitmap).

(** The abstract content of a bitmap: its page [i] is present. *)
Definition bit (bitmap : list Z) (i : Z) : bool :=
  match znth bitmap (i / 64) with
  | Some w => Z.testbit w (i mod 64)
  | None => false
  end.

(** Well-formed: [n] words, each a [u64]. *)
Definition wf (n : Z) (bitmap : list Z) : Prop := zlen bitmap = n ∧ Forall is_u64 bitmap.

(** ** Lemmas *)

Lemma words_index i n : 0 ≤ i < n → 0 ≤ i / 64 < bitmap_words n.
Proof.
  intros Hi. unfold bitmap_words. split; [apply Z.div_pos; lia|].
  apply ceil_div_lt; [lia|]. pose proof (Z.div_mod i 64 ltac:(lia)).
  pose proof (Z.mod_pos_bound i 64 ltac:(lia)). lia.
Qed.

Lemma mask_testbit w k : 0 ≤ k → negb (Z.land w (Z.shiftl 1 k) =? 0) = Z.testbit w k.
Proof.
  intros Hk. rewrite Z.shiftl_1_l.
  destruct (Z.testbit w k) eqn:Hb.
  - apply negb_true_iff, Z.eqb_neq. intros H0.
    apply (f_equal (λ x, Z.testbit x k)) in H0.
    rewrite Z.land_spec, Z.pow2_bits_true, Hb, Z.bits_0 in H0 by done. done.
  - apply negb_false_iff, Z.eqb_eq, Z.bits_inj_0. intros j.
    rewrite Z.land_spec. destruct (decide (j = k)) as [->|Hj].
    + by rewrite Hb.
    + rewrite Z.pow2_bits_false by done. apply andb_false_r.
Qed.

Lemma lor_u64 w k : is_u64 w → 0 ≤ k < 64 → is_u64 (Z.lor w (Z.shiftl 1 k)).
Proof.
  intros [Hw0 Hw] Hk. rewrite Z.shiftl_1_l. unfold is_u64.
  assert (0 < 2 ^ k) by (apply Z.pow_pos_nonneg; lia).
  assert (2 ^ k < 2 ^ 64) by (apply Z.pow_lt_mono_r; lia).
  split; [apply Z.lor_nonneg; lia|].
  destruct (decide (Z.lor w (2 ^ k) = 0)) as [->|Hn]; [lia|].
  assert (0 ≤ Z.lor w (2 ^ k)) by (apply Z.lor_nonneg; lia).
  apply Z.log2_lt_pow2; [lia|]. rewrite Z.log2_lor by lia.
  rewrite Z.log2_pow2 by lia. apply Z.max_lub_lt; [|lia].
  destruct (decide (w = 0)) as [->|]; [simpl; lia|]. apply Z.log2_lt_pow2; lia.
Qed.

Lemma bitmap_get_ok {E} bitmap n i :
  wf (bitmap_words n) bitmap → 0 ≤ i < n → @bitmap_get E bitmap i = Ok (bit bitmap i).
Proof.
  intros [Hlen _] Hi. unfold bitmap_get, bit.
  destruct (znth_is_Some bitmap (i / 64)) as [w Hw].
  { rewrite Hlen. by apply words_index. }
  rewrite (proj2 (vget_Ok _ _ _) Hw), Hw. simpl. f_equal. apply mask_testbit.
  pose proof (Z.mod_pos_bound i 64). lia.
Qed.

Lemma bit_zset bitmap i k w :
  znth bitmap (k / 64) = Some w → 0 ≤ i → 0 ≤ k →
  bit (zset bitmap (k / 64) (Z.lor w (Z.shiftl 1 (k mod 64)))) i
  = (i =? k) || bit bitmap i.
Proof.
  intros Hw Hi Hk. unfold bit.
  rewrite znth_zset by (by eapply znth_Some_lt).
  pose proof (Z.mod_pos_bound i 64 ltac:(lia)). pose proof (Z.mod_pos_bound k 64 ltac:(lia)).
  pose proof (Z.div_mod i 64 ltac:(lia)). pose proof (Z.div_mod k 64 ltac:(lia)).
  destruct (Z.eqb_spec (k / 64) (i / 64)) as [He|He].
  - rewrite <-He, Hw, Z.lor_spec, Z.shiftl_1_l.
    destruct (Z.eqb_spec i k) as [->|Hn].
    + rewrite Z.pow2_bits_true by lia. simpl. apply orb_true_r.
    + rewrite Z.pow2_bits_false by lia. by rewrite orb_false_r.
  - destruct (Z.eqb_spec i k) as [->|]; [lia|done].
Qed.

Lemma bitmap_set_ok {E} bitmap n k :
  wf (bitmap_words n) bitmap → 0 ≤ k < n →
  ∃ bitmap', @bitmap_set E bitmap k = Ok bitmap' ∧ wf (bitmap_words n) bitmap' ∧
    ∀ i, 0 ≤ i → bit bitmap' i = (i =? k) || bit bitmap i.
Proof.
  intros [Hlen Hwf] Hk. pose proof (words_index k n Hk) as Hx.
  destruct (znth_is_Some bitmap (k / 64)) as [w Hw]; [lia|].
  unfold bitmap_set. rewrite (proj2 (vget_Ok _ _ _) Hw). simpl.
  rewrite vset_ok by lia. eexists. split; [done|]. split.
  - split; [by rewrite zlen_zset|]. apply Forall_insert; [done|].
    apply lor_u64; [|apply Z.mod_pos_bound; lia].
    unfold znth in Hw. destruct (_ <? 0); [done|].
    by eapply Forall_lookup_1 in Hw.
  - intros i Hi. apply bit_zset; [done|lia..].
Qed.

Lemma wf_replicate n : 0 ≤ n → wf (bitmap_words n) (zreplicate (bitmap_words n) 0).
Proof.
  intros Hn. split.
  - apply zlen_zreplicate, ceil_div_nonneg; lia.
  - apply Forall_replicate. unfold is_u64. lia.
Qed.

Lemma bit_replicate n i : bit (zreplicate n 0) i = false.
Proof.
  unfold bit. destruct (znth (zreplicate n 0) (i / 64)) as [w|] eqn:Hw; [|done].
  unfold znth, zreplicate in Hw. destruct (_ <? 0); [done|].
  apply lookup_replicate in Hw as [-> _]. apply Z.bits_0.
Qed.

Lemma bitmap_from_ok {E} (page_count : Z) (present : Z → bool) :
  0 ≤ page_count →
  ∃ bitmap, @bitmap_from E page_count present = Ok bitmap ∧ wf (bitmap_words page_count) bitmap ∧
    ∀ i, 0 ≤ i → bit bitmap i = bool_decide (i ∈ zrange 0 page_count) && present i.
Proof.
  intros Hn. destruct (foldM_inv (E:=E)
    (λ bitmap page_idx, if present page_idx then bitmap_set bitmap page_idx else Ok bitmap)
    (λ seen bitmap, wf (bitmap_words page_count) bitmap ∧
       ∀ i, 0 ≤ i → bit bitmap i = bool_decide (i ∈ seen) && present i)
    (zreplicate (bitmap_words page_count) 0) (zrange 0 page_count)) as (bm & Hbm & Hwf & Hbit); [..|by exists bm].
  - split; [by apply wf_replicate|]. intros i _. rewrite bit_replicate.
    by rewrite bool_decide_false by set_solver.
  - intros seen x bm [Hwf Hb] (rest & Hx).
    assert (0 ≤ x < page_count) as Hxr.
    { assert (x ∈ zrange 0 page_count) as Hin by (rewrite Hx; set_solver).
      unfold zrange in Hin. apply elem_of_seqZ in Hin. lia. }
    destruct (present x) eqn:Hp.
    + destruct (bitmap_set_ok (E:=E) bm page_count x Hwf Hxr) as (bm' & -> & Hwf' & Hb').
      exists bm'. split; [done|]. split; [done|]. intros i Hi. rewrite Hb', Hb by done.
      destruct (Z.eqb_spec i x) as [->|Hne]; simpl.
      * rewrite bool_decide_true by set_solver. by rewrite Hp.
      * f_equal. apply bool_decide_ext. set_solver.
    + exists bm. split; [done|]. split; [done|]. intros i Hi. rewrite Hb by done.
      destruct (decide (i = x)) as [->|]; [by rewrite Hp, !andb_false_r|].
      f_equal. apply bool_decide_ext. set_solver.
Qed.

(** ** Properties *)

(** [bitmap_from] builds exactly the set of the pages its predicate selects:
    it does not panic, has [bitmap_words(page_count)] words of 64 bits, bit [i] of
    it is [present(i)] for every page, and no bit beyond the last page is set. *)
Theorem bitmap_from_spec {E} (page_count : Z) (present : Z → bool) :
  0 ≤ page_count →
  ∃ bitmap, @bitmap_from E page_count present = Ok bitmap ∧
    wf (bitmap_words page_count) bitmap ∧
    (∀ i, 0 ≤ i < page_count → @bitmap_get E bitmap i = Ok (present i)) ∧
    (∀ i, page_count ≤ i → bit bitmap i = false).
Proof.
  intros Hn. destruct (bitmap_from_ok (E:=E) page_count present Hn) as (bm & Hbm & Hwf & Hbit).
  exists bm. split; [done|]. split; [done|]. unfold zrange in Hbit. split; intros i Hi.
  - rewrite (bitmap_get_ok _ page_count) by done. f_equal. rewrite Hbit by lia.
    rewrite bool_decide_true; [done|]. apply elem_of_seqZ. lia.
  - rewrite Hbit by lia. rewrite bool_decide_false; [done|]. rewrite elem_of_seqZ. lia.
Qed.

Lemma bitmap_from_spec_witness :
  ∃ bitmap, @bitmap_from unit 70 (λ i, i =? 65) = Ok bitmap ∧ bitmap = [0; 2] ∧
    @bitmap_get unit bitmap 65 = Ok true.
Proof.
  destruct (@bitmap_from_spec unit 70 (λ i, i =? 65) ltac:(lia)) as (bm & H & _ & Hg & _).
  exists bm. split; [exact H|]. split; [|exact (Hg 65 ltac:(lia))].
  vm_compute in H. by injection H.
Defined.

End Bitmap.
