(* ===== verification/Kernel.v ===== *)
(** * The operating system as the code sees it

    The template memory code calls the kernel through [ioctl] on a userfaultfd,
    [mmap], [munmap], [pread] and ordinary loads and stores.  None of that is code
    of the repository, so it is a parameter here: the class [Kernel] has the calls,
    on an abstract kernel state [kst], and the class [KernelOk] states what their
    manual pages document.  [AddrSpace] is what a process can observe of its address
    space; [as_equiv] is equality of observations.  The module [Sim] is an
    executable kernel that satisfies [KernelOk], used to evaluate the code on
    concrete inputs. *)

From S2P Require Import Prelude.

(** ** Errors *)

(** [std::io::ErrorKind], the kinds the code constructs or tests. *)
Inductive io_kind :=
| UnexpectedEof | InvalidInputKind | InvalidData | Interrupted | WouldBlock
| ConnectionReset | BrokenPipe | PermissionDenied | OtherKind.

(** [std::io::Error]: an OS error carries its [errno]. *)
Inductive io_error :=
| Os (errno : Z)
| Custom (kind : io_kind) (msg : string).

Global Instance io_kind_eq_dec : EqDecision io_kind.
Proof. solve_decision. Defined.

Definition raw_os_error (e : io_error) : option Z :=
  match e with Os n => Some n | Custom _ _ => None end.

Definition EINTR : Z := 4.
Definition EBADF : Z := 9.
Definition EAGAIN : Z := 11.
Definition EEXIST : Z := 17.

(** ** Constants of the user ABI used by [src/lib.rs] *)
Definition PROT_READ : Z := 1.
Definition PROT_WRITE : Z := 2.
Definition MAP_SHARED : Z := 1.
Definition MAP_PRIVATE : Z := 2.
Definition MAP_FIXED : Z := 16.
Definition MAP_ANONYMOUS : Z := 32.

Definition UFFD_API : Z := 0xAA.
Definition UFFDIO_API : Z := 0xc018aa3f.
Definition UFFDIO_REGISTER : Z := 0xc020aa00.
Definition UFFDIO_COPY : Z := 0xc028aa03.
Definition UFFDIO_WAKE : Z := 0x8010aa02.
Definition UFFDIO_WRITEPROTECT : Z := 0xc018aa06.

Definition UFFDIO_REGISTER_MODE_MISSING : Z := 1.
Definition UFFDIO_REGISTER_MODE_WP : Z := 2.
Definition UFFDIO_COPY_MODE_WP : Z := 2.
Definition UFFDIO_WRITEPROTECT_MODE_DONTWAKE : Z := 2.
Definition UFFD_EVENT_PAGEFAULT : Z := 0x12.
Definition UFFD_PAGEFAULT_FLAG_WP : Z := 2.
Definition UFFD_FEATURE_PAGEFAULT_FLAG_WP : Z := 1.
Definition UFFD_FEATURE_MISSING_SHMEM : Z := 32.
Definition UFFD_FEATURE_WP_HUGETLBFS_SHMEM : Z := 4096.

Definition UFFDIO_COPY_BIT : Z := 3.
Definition UFFDIO_WAKE_BIT : Z := 2.
Definition UFFDIO_WRITEPROTECT_BIT : Z := 6.

(** ** The arguments of the userfaultfd ioctls

    A pointer argument is the bytes it points at. *)
Record UffdioApi := { api : Z; api_features : Z; api_ioctls : Z }.
Record UffdioRange := { ur_start : Z; ur_len : Z }.
Record UffdioRegister := { reg_range : UffdioRange; reg_mode : Z; reg_ioctls : Z }.
Record UffdioCopy := { uc_dst : Z; uc_src : list Z; uc_len : Z; uc_mode : Z; uc_copy : Z }.
Record UffdioWriteProtect := { wp_range : UffdioRange; wp_mode : Z }.

(** [struct uffd_msg], the fields of a page fault. *)
Record UffdMsg := { msg_event : Z; pf_flags : Z; pf_address : Z }.

Definition POLLIN : Z := 1.
Definition SYS_MEMFD_CREATE : Z := 319.
Definition SYS_USERFAULTFD : Z := 323.
Definition MFD_CLOEXEC : Z := 1.
Definition O_CLOEXEC : Z := 524288.
Definition O_NONBLOCK : Z := 2048.
Definition UFFD_USER_MODE_ONLY : Z := 1.

Inductive ioctl_arg :=
| ArgApi (a : UffdioApi)
| ArgRegister (r : UffdioRegister)
| ArgCopy (c : UffdioCopy)
| ArgRange (r : UffdioRange)
| ArgWriteProtect (w : UffdioWriteProtect).

(** ** Observations of an address space *)

(** [as_mem a] is the byte at [a] when its page is present; [as_mapped] says the
    address belongs to a mapping, [as_wp] that userfaultfd write protection is
    set on it, [as_private] that its page is private and anonymous. *)
Record AddrSpace := {
  as_mem : Z → option Z;
  as_wp : Z → bool;
  as_private : Z → bool;
  as_mapped : Z → bool }.

(** Two observations agree at an address; equivalent ones agree everywhere. *)
Definition agree_at (v1 v2 : AddrSpace) (a : Z) : Prop :=
  as_mem v1 a = as_mem v2 a ∧ as_wp v1 a = as_wp v2 a ∧
  as_private v1 a = as_private v2 a ∧ as_mapped v1 a = as_mapped v2 a.
Definition as_equiv (v1 v2 : AddrSpace) : Prop := ∀ a, agree_at v1 v2 a.
Global Instance as_equiv_inst : Equiv AddrSpace := as_equiv.

Global Instance as_equivalence : Equivalence (≡@{AddrSpace}).
Proof.
  split.
  - by intros v a.
  - intros v1 v2 H a. destruct (H a) as (?&?&?&?). done.
  - intros v1 v2 v3 H1 H2 a. destruct (H1 a) as (?&?&?&?), (H2 a) as (?&?&?&?).
    repeat split; congruence.
Qed.

(** [a] lies in [base .. base + n). *)
Definition within (base n a : Z) : bool := (base <=? a) && (a <? base + n).

Definition fill_view (base n : Z) (f : Z → option Z) (w p m : bool) (v : AddrSpace) : AddrSpace :=
  {| as_mem a := if within base n a then f a else as_mem v a;
     as_wp a := if within base n a then w else as_wp v a;
     as_private a := if within base n a then p else as_private v a;
     as_mapped a := if within base n a then m else as_mapped v a |}.

(** The page cache filled at [base] with the first [n] bytes of [bs]. *)
Definition copy_view (base : Z) (bs : list Z) (n : Z) (w : bool) (v : AddrSpace) : AddrSpace :=
  {| as_mem a := if within base n a then znth bs (a - base) else as_mem v a;
     as_wp a := if within base n a then w else as_wp v a;
     as_private := as_private v;
     as_mapped := as_mapped v |}.

Definition store_view (base : Z) (bs : list Z) (v : AddrSpace) : AddrSpace :=
  {| as_mem a := if within base (zlen bs) a then znth bs (a - base) else as_mem v a;
     as_wp := as_wp v;
     as_private := as_private v;
     as_mapped := as_mapped v |}.

Definition wp_view (base n : Z) (w : bool) (v : AddrSpace) : AddrSpace :=
  {| as_mem := as_mem v;
     as_wp a := if within base n a then w else as_wp v a;
     as_private := as_private v;
     as_mapped := as_mapped v |}.

(** A range replaced by private anonymous memory holding [bs]. *)
Definition cow_view (base n : Z) (bs : list Z) (v : AddrSpace) : AddrSpace :=
  store_view base bs (fill_view base n (λ _, Some 0) false true true v).

(** A load of [n] bytes: [None] when a page of it is missing, in which case the
    accessing thread blocks in the fault. *)
Definition load_bytes (v : AddrSpace) (a n : Z) : option (list Z) :=
  mapM (as_mem v) (zrange a (a + n)).

(** A store of [n] bytes goes through when every page of it is present and not
    write-protected. *)
Definition writable (v : AddrSpace) (a n : Z) : bool :=
  forallb (λ x, bool_decide (is_Some (as_mem v x)) && negb (as_wp v x)) (zrange a (a + n)).

(** [offset as i64] *)
Definition as_i64 (x : Z) : Z := if x <? 2 ^ 63 then x else x - 2 ^ 64.

(** ** The system calls *)
Class Kernel := {
  kst : Type;
  (** what the process observes *)
  k_view : kst → AddrSpace;
  (** the content of the file open on a descriptor; the code only reads it *)
  k_file : Z → list Z;
  strerror : Z → string;
  k_store : Z → list Z → kst → kst;
  k_pread : Z → Z → Z → kst → (Z + list Z) * kst;
  k_ioctl : Z → Z → ioctl_arg → kst → (Z + ioctl_arg) * kst;
  k_mmap : Z → Z → Z → Z → Z → Z → kst → (Z + Z) * kst;
  k_munmap : Z → Z → kst → (Z + unit) * kst;
  (** the value of a configuration variable, with [errno] *)
  k_sysconf : Z → Z * Z;
  (** [syscall(num, args)], used to create descriptors *)
  k_syscall : Z → list Z → kst → (Z + Z) * kst;
  k_ftruncate : Z → Z → kst → (Z + unit) * kst;
  (** the number of ready descriptors and the returned events *)
  k_poll : Z → Z → Z → kst → (Z + Z * Z) * kst;
  (** a read from a userfaultfd: the number of bytes and the message *)
  k_read_msg : Z → Z → kst → (Z + Z * UffdMsg) * kst;
  (** the [epoll] calls: create, add a descriptor with its events and token, wait *)
  k_epoll_create : kst → (Z + Z) * kst;
  k_epoll_ctl : Z → Z → Z → Z → kst → (Z + unit) * kst;
  k_epoll_wait : Z → Z → kst → (Z + list (Z * Z)) * kst;
  (** a read of an eventfd, its result unused *)
  k_eventfd_read : Z → kst → kst;
  (** transient failures (EINTR, EAGAIN) the kernel may still report *)
  k_intr : kst → nat }.

(** What the manual pages say of them. *)
Class KernelOk (K : Kernel) : Prop := {
  (** a store to writable memory *)
  k_store_ok a bs k : writable (k_view k) a (zlen bs) = true →
    k_view (k_store a bs k) ≡ store_view a bs (k_view k);
  (** pread(2): a prefix of what was asked for, empty only at the end of file *)
  k_pread_ok fd n off k bs k' : 0 ≤ n → k_pread fd n off k = (inr bs, k') →
    k_view k' ≡ k_view k ∧ (k_intr k' ≤ k_intr k)%nat ∧
    ∃ m, 0 ≤ m ≤ n ∧ bs = slice (k_file fd) off m ∧ off + m ≤ Z.max off (zlen (k_file fd)) ∧
      (0 < n → 0 ≤ off < zlen (k_file fd) → 0 < m);
  k_pread_err fd n off k e k' : k_pread fd n off k = (inl e, k') →
    k_view k' ≡ k_view k ∧ (k_intr k' ≤ k_intr k)%nat ∧ (e = EINTR → (k_intr k' < k_intr k)%nat);
  (** UFFDIO_COPY fills a missing page, EEXIST reports one that is present *)
  k_copy_ok fd c k a k' : k_ioctl fd UFFDIO_COPY (ArgCopy c) k = (inr a, k') →
    as_mem (k_view k) (uc_dst c) = None ∧
    k_view k' ≡ copy_view (uc_dst c) (uc_src c) (uc_len c) (Z.testbit (uc_mode c) 1) (k_view k);
  k_copy_err fd c k e k' : k_ioctl fd UFFDIO_COPY (ArgCopy c) k = (inl e, k') →
    k_view k' ≡ k_view k ∧ (e = EEXIST → is_Some (as_mem (k_view k) (uc_dst c)));
  (** UFFDIO_WAKE only wakes *)
  k_wake_view fd r k o k' : k_ioctl fd UFFDIO_WAKE (ArgRange r) k = (o, k') →
    k_view k' ≡ k_view k;
  (** UFFDIO_WRITEPROTECT sets or clears the protection (mode bit 0) *)
  k_wp_ok fd w k a k' : k_ioctl fd UFFDIO_WRITEPROTECT (ArgWriteProtect w) k = (inr a, k') →
    k_view k' ≡ wp_view (ur_start (wp_range w)) (ur_len (wp_range w)) (Z.testbit (wp_mode w) 0)
                  (k_view k);
  k_wp_err fd w k e k' : k_ioctl fd UFFDIO_WRITEPROTECT (ArgWriteProtect w) k = (inl e, k') →
    k_view k' ≡ k_view k;
  (** anonymous private mmap(2): zero-filled, at a free place of the kernel's
      choice or, with MAP_FIXED, exactly at the address given *)
  k_mmap_anon_ok n prot off k p k' :
    k_mmap 0 n prot (Z.lor MAP_PRIVATE MAP_ANONYMOUS) (-1) off k = (inr p, k') →
    (∀ a, within p n a = true → as_mapped (k_view k) a = false) ∧
    k_view k' ≡ fill_view p n (λ _, Some 0) false true true (k_view k);
  k_mmap_fixed_ok addr n prot off k p k' :
    k_mmap addr n prot (Z.lor (Z.lor MAP_PRIVATE MAP_ANONYMOUS) MAP_FIXED) (-1) off k = (inr p, k') →
    p = addr ∧ k_view k' ≡ fill_view p n (λ _, Some 0) false true true (k_view k);
  k_mmap_err addr n prot flags fd off k e k' :
    k_mmap addr n prot flags fd off k = (inl e, k') → k_view k' ≡ k_view k;
  (** munmap(2) *)
  k_munmap_ok p n k k' : k_munmap p n k = (inr tt, k') →
    k_view k' ≡ fill_view p n (λ _, None) false false false (k_view k);
  k_munmap_err p n k e k' : k_munmap p n k = (inl e, k') → k_view k' ≡ k_view k;
  (** the other calls do not change the address space *)
  k_poll_view fd ev t k o k' : k_poll fd ev t k = (o, k') →
    k_view k' ≡ k_view k ∧ (k_intr k' ≤ k_intr k)%nat;
  k_read_msg_view fd n k o k' : k_read_msg fd n k = (o, k') →
    k_view k' ≡ k_view k ∧ (k_intr k' ≤ k_intr k)%nat;
  k_epoll_create_view k o k' : k_epoll_create k = (o, k') → k_view k' ≡ k_view k;
  k_epoll_ctl_view ep fd ev t k o k' : k_epoll_ctl ep fd ev t k = (o, k') → k_view k' ≡ k_view k;
  k_epoll_wait_view ep n k o k' : k_epoll_wait ep n k = (o, k') →
    k_view k' ≡ k_view k ∧ (k_intr k' ≤ k_intr k)%nat;
  k_eventfd_read_view fd k : k_view (k_eventfd_read fd k) ≡ k_view k;
  (** transient failures run out *)
  k_ioctl_intr fd req arg k o k' : k_ioctl fd req arg k = (o, k') → (k_intr k' ≤ k_intr k)%nat;
  k_copy_again fd c k k' : k_ioctl fd UFFDIO_COPY (ArgCopy c) k = (inl EAGAIN, k') →
    (k_intr k' < k_intr k)%nat;
  (** a write-protect fault is reported for a page that is present *)
  k_read_msg_wp fd n k m msg k' : k_read_msg fd n k = (inr (m, msg), k') →
    msg_event msg = UFFD_EVENT_PAGEFAULT → Z.land (pf_flags msg) UFFD_PAGEFAULT_FLAG_WP ≠ 0 →
    is_Some (as_mem (k_view k) (pf_address msg));
  (** the address field has 64 bits *)
  k_read_msg_u64 fd n k m msg k' : k_read_msg fd n k = (inr (m, msg), k') →
    is_u64 (pf_address msg) }.

(** ** Lemmas on observations *)

Lemma within_spec base n a : within base n a = true ↔ base ≤ a < base + n.
Proof. unfold within. rewrite andb_true_iff, Z.leb_le, Z.ltb_lt. lia. Qed.

Lemma within_false base n a : within base n a = false ↔ ¬ (base ≤ a < base + n).
Proof. rewrite <-within_spec. by destruct (within base n a). Qed.

Lemma load_bytes_Some v a n bs :
  0 ≤ n →
  load_bytes v a n = Some bs ↔
  zlen bs = n ∧ ∀ i, 0 ≤ i < n → ∃ b, as_mem v (a + i) = Some b ∧ znth bs i = Some b.
Proof.
  intros Hn. unfold load_bytes, zrange. replace (a + n - a) with n by lia.
  rewrite mapM_Some. split.
  - intros H. pose proof (Forall2_length _ _ _ H) as Hl. rewrite length_seqZ in Hl.
    split; [unfold zlen; lia|]. intros i Hi.
    assert (seqZ a n !! Z.to_nat i = Some (a + i)) as Hs.
    { apply lookup_seqZ. lia. }
    destruct (Forall2_lookup_l _ _ _ _ _ H Hs) as (b & Hb & Hm).
    exists b. split; [done|]. unfold znth. by destruct (Z.ltb_spec i 0); [lia|].
  - intros [Hl Hb]. apply Forall2_same_length_lookup_2.
    { rewrite length_seqZ. unfold zlen in Hl. lia. }
    intros i x y Hx Hy. apply lookup_seqZ in Hx as [-> Hi].
    destruct (Hb (Z.of_nat i) ltac:(lia)) as (b & Hm & Hz).
    unfold znth in Hz. destruct (Z.ltb_spec (Z.of_nat i) 0); [lia|].
    rewrite Nat2Z.id in Hz. congruence.
Qed.

Lemma agree_at_trans v1 v2 v3 a : agree_at v1 v2 a → agree_at v2 v3 a → agree_at v1 v3 a.
Proof. intros (?&?&?&?) (?&?&?&?). repeat split; congruence. Qed.

Global Instance load_bytes_proper : Proper ((≡) ==> (=) ==> (=) ==> (=)) load_bytes.
Proof.
  intros v1 v2 Hv ? a -> ? n ->. unfold load_bytes.
  induction (zrange a (a + n)) as [|x l IH]; [done|]. simpl.
  destruct (Hv x) as (-> & _). by rewrite IH.
Qed.

Global Instance writable_proper : Proper ((≡) ==> (=) ==> (=) ==> (=)) writable.
Proof.
  intros v1 v2 Hv ? a -> ? n ->. unfold writable.
  induction (zrange a (a + n)) as [|x l IH]; [done|]. simpl. rewrite IH.
  destruct (Hv x) as (-> & -> & _). done.
Qed.

Global Instance store_view_proper a bs : Proper ((≡) ==> (≡)) (store_view a bs).
Proof. intros v1 v2 Hv x. destruct (Hv x) as (?&?&?&?). unfold agree_at. simpl. by case_match. Qed.

Global Instance wp_view_proper a n w : Proper ((≡) ==> (≡)) (wp_view a n w).
Proof. intros v1 v2 Hv x. destruct (Hv x) as (?&?&?&?). unfold agree_at. simpl. by case_match. Qed.

Global Instance copy_view_proper a bs n w : Proper ((≡) ==> (≡)) (copy_view a bs n w).
Proof. intros v1 v2 Hv x. destruct (Hv x) as (?&?&?&?). unfold agree_at. simpl. by case_match. Qed.

Global Instance fill_view_proper a n f w p m : Proper ((≡) ==> (≡)) (fill_view a n f w p m).
Proof. intros v1 v2 Hv x. destruct (Hv x) as (?&?&?&?). unfold agree_at. simpl. by case_match. Qed.

(** Decide a membership the context determines. *)
Ltac within_solve :=
  repeat match goal with
  | |- context [within ?b ?n ?a] =>
      first [ rewrite (proj2 (within_spec b n a)) by lia
            | rewrite (proj2 (within_false b n a)) by lia ]
  end.

Lemma load_store_view v a bs n :
  zlen bs = n → load_bytes (store_view a bs v) a n = Some bs.
Proof.
  intros <-. apply load_bytes_Some; [apply zlen_nonneg|]. split; [done|]. intros i Hi.
  destruct (znth_is_Some bs i Hi) as [b Hb]. exists b. split; [|done]. simpl.
  rewrite (proj2 (within_spec _ _ _)) by lia. replace (a + i - a) with i by lia. done.
Qed.

(** Two observations that agree on a range give the same bytes. *)
Lemma load_bytes_agree v1 v2 a n :
  (∀ x, a ≤ x < a + n → as_mem v1 x = as_mem v2 x) → load_bytes v1 a n = load_bytes v2 a n.
Proof.
  intros H. unfold load_bytes. assert (∀ x, x ∈ zrange a (a + n) → as_mem v1 x = as_mem v2 x) as H'.
  { intros x Hx. apply H. unfold zrange in Hx. apply elem_of_seqZ in Hx. lia. }
  clear H. induction (zrange a (a + n)) as [|x l IH]; [done|]. simpl.
  rewrite H' by set_solver. rewrite IH; [done|]. set_solver.
Qed.

Lemma load_bytes_is_Some v a n :
  (∀ x, a ≤ x < a + n → is_Some (as_mem v x)) → is_Some (load_bytes v a n).
Proof.
  intros H. unfold load_bytes. apply mapM_is_Some_2, Forall_forall. intros x Hx.
  apply H. unfold zrange in Hx. apply elem_of_seqZ in Hx. lia.
Qed.

Lemma writable_elim v a n x :
  writable v a n = true → a ≤ x < a + n → is_Some (as_mem v x) ∧ as_wp v x = false.
Proof.
  unfold writable. rewrite forallb_forall. intros H Hx.
  specialize (H x). rewrite <-list_elem_of_In in H. unfold zrange in H.
  rewrite elem_of_seqZ in H. specialize (H ltac:(lia)).
  apply andb_true_iff in H as [H1%bool_decide_eq_true H2%negb_true_iff]. done.
Qed.

Lemma writable_intro v a n :
  (∀ x, a ≤ x < a + n → is_Some (as_mem v x) ∧ as_wp v x = false) → writable v a n = true.
Proof.
  intros H. unfold writable. apply Is_true_eq_true, forallb_True, Forall_forall. intros x Hx.
  unfold zrange in Hx. apply elem_of_seqZ in Hx.
  destruct (H x ltac:(lia)) as [Hs Hw]. rewrite bool_decide_true, Hw by done. done.
Qed.

(** ** An executable kernel *)
Module Sim.

(** [plan] has one entry per system call to come: [Some e] makes it fail with
    [errno] [e].  [chunk] bounds what one [pread] returns. *)
Record state := {
  view : AddrSpace;
  plan : list (option Z);
  next_free : Z;
  events : list UffdMsg }.

Definition pop (k : state) : option Z * state :=
  match plan k with
  | [] => (None, k)
  | e :: p => (e, {| view := view k; plan := p; next_free := next_free k; events := events k |})
  end.

Definition with_view (k : state) (v : AddrSpace) : state :=
  {| view := v; plan := plan k; next_free := next_free k; events := events k |}.

Section sim.
Context (files : Z → list Z) (chunk : positive).

Definition pread (fd n off : Z) (k : state) : (Z + list Z) * state :=
  match pop k with
  | (Some e, k') => (inl e, k')
  | (None, k') =>
      if off <? 0 then (inl 22, k')
      else (inr (slice (files fd) off
                   (Z.min (Z.max 0 n) (Z.min (Zpos chunk) (Z.max 0 (zlen (files fd) - off))))), k')
  end.

Definition ioctl (fd req : Z) (arg : ioctl_arg) (k : state) : (Z + ioctl_arg) * state :=
  match pop k with
  | (Some e, k') =>
      (* EEXIST is never injected: it is reported exactly for present pages *)
      (inl (if e =? EEXIST then EAGAIN else e), k')
  | (None, k') =>
      match arg with
      | ArgCopy c =>
          if bool_decide (is_Some (as_mem (view k') (uc_dst c))) then (inl EEXIST, k')
          else (inr arg, with_view k' (copy_view (uc_dst c) (uc_src c) (uc_len c)
                                         (Z.testbit (uc_mode c) 1) (view k')))
      | ArgWriteProtect w =>
          (inr arg, with_view k' (wp_view (ur_start (wp_range w)) (ur_len (wp_range w))
                                    (Z.testbit (wp_mode w) 0) (view k')))
      | ArgApi a => (inr (ArgApi {| api := api a; api_features := 0x1fff; api_ioctls := 0x1ff |}), k')
      | ArgRegister r =>
          (inr (ArgRegister {| reg_range := reg_range r; reg_mode := reg_mode r;
                               reg_ioctls := 0x1ff |}), k')
      | ArgRange _ => (inr arg, k')
      end
  end.

Definition free_range (v : AddrSpace) (p n : Z) : bool :=
  forallb (λ a, negb (as_mapped v a)) (zrange p (p + n)).

Definition mmap (addr n prot flags fd off : Z) (k : state) : (Z + Z) * state :=
  match pop k with
  | (Some e, k') => (inl e, k')
  | (None, k') =>
      let fixed := Z.testbit flags 4 in
      let p := if fixed then addr else next_free k' in
      if fixed || free_range (view k') p n
      then (inr p, {| view := fill_view p n (λ _, Some 0) false true true (view k');
                      plan := plan k';
                      next_free := if fixed then next_free k' else p + n;
                      events := events k' |})
      else (inl 12, k')
  end.

Definition munmap (p n : Z) (k : state) : (Z + unit) * state :=
  match pop k with
  | (Some e, k') => (inl e, k')
  | (None, k') => (inr tt, with_view k' (fill_view p n (λ _, None) false false false (view k')))
  end.

Definition syscall (num : Z) (args : list Z) (k : state) : (Z + Z) * state :=
  match pop k with
  | (Some e, k') => (inl e, k')
  | (None, k') => (inr num, k')
  end.

Definition ftruncate (fd n : Z) (k : state) : (Z + unit) * state :=
  match pop k with
  | (Some e, k') => (inl e, k')
  | (None, k') => (inr tt, k')
  end.

Definition poll (fd ev timeout : Z) (k : state) : (Z + Z * Z) * state :=
  match pop k with
  | (Some e, k') => (inl e, k')
  | (None, k') => (inr (if decide (events k' = []) then (0, 0) else (1, POLLIN)), k')
  end.

Definition read_msg (fd n : Z) (k : state) : (Z + Z * UffdMsg) * state :=
  match pop k with
  | (Some e, k') => (inl e, k')
  | (None, k') =>
      match events k' with
      | [] => (inl EAGAIN, k')
      | m0 :: ms =>
          let m := {| msg_event := msg_event m0; pf_flags := pf_flags m0;
                      pf_address := pf_address m0 mod 2 ^ 64 |} in
          let k'' := {| view := view k'; plan := plan k'; next_free := next_free k'; events := ms |} in
          if negb (Z.land (pf_flags m) UFFD_PAGEFAULT_FLAG_WP =? 0)
             && negb (bool_decide (is_Some (as_mem (view k') (pf_address m))))
          then (inl EAGAIN, k'')
          else (inr (32, m), k'')
      end
  end.

Definition epoll_create (k : state) : (Z + Z) * state :=
  match pop k with
  | (Some e, k') => (inl e, k')
  | (None, k') => (inr 5, k')
  end.

Definition epoll_ctl (ep fd ev token : Z) (k : state) : (Z + unit) * state :=
  match pop k with
  | (Some e, k') => (inl e, k')
  | (None, k') => (inr tt, k')
  end.

(** The userfaultfd (token 1) is readable while messages are queued; otherwise the
    stop event (token 0) is. *)
Definition epoll_wait (ep n : Z) (k : state) : (Z + list (Z * Z)) * state :=
  match pop k with
  | (Some e, k') => (inl e, k')
  | (None, k') => (inr [if decide (events k' = []) then (0, POLLIN) else (1, POLLIN)], k')
  end.

Definition kernel : Kernel := {|
  kst := state;
  k_view := view;
  k_file := files;
  strerror _ := "os error";
  k_store a bs k := with_view k (store_view a bs (view k));
  k_pread := pread;
  k_ioctl := ioctl;
  k_mmap := mmap;
  k_munmap := munmap;
  k_sysconf _ := (4, 0);
  k_syscall := syscall;
  k_ftruncate := ftruncate;
  k_poll := poll;
  k_read_msg := read_msg;
  k_epoll_create := epoll_create;
  k_epoll_ctl := epoll_ctl;
  k_epoll_wait := epoll_wait;
  k_eventfd_read _ k := k;
  k_intr k := length (plan k) |}.

Lemma pop_view k o k' : pop k = (o, k') → view k' = view k ∧
  (length (plan k') ≤ length (plan k))%nat ∧ (is_Some o → (length (plan k') < length (plan k))%nat).
Proof.
  unfold pop. destruct (plan k) as [|e p] eqn:Hp; intros [= <- <-]; simpl; rewrite ?Hp; simpl.
  - split; [done|]. split; [lia|]. by intros [? ?].
  - split; [done|]. split; [lia|]. intros _. lia.
Qed.

(** Open one call of the simulated kernel. *)
Ltac call H :=
  simpl in H; unfold pread, ioctl, mmap, munmap, poll, read_msg, epoll_create, epoll_ctl, epoll_wait,
    with_view in H;
  match type of H with context [pop ?k] =>
    let o := fresh "o" in let k1 := fresh "k1" in let Hp := fresh "Hp" in
    let Hv := fresh "Hv" in
    destruct (pop k) as [o k1] eqn:Hp; apply pop_view in Hp as (Hv & ? & ?);
    rewrite <-?Hv; clear Hv
  end.

Lemma kernel_ok : KernelOk kernel.
Proof.
  split; simpl.
  - done.
  - intros fd n off k bs k' Hn H. call H. destruct o; [done|].
    destruct (Z.ltb_spec off 0); [done|]. injection H as <- <-.
    split; [done|]. split; [done|]. eexists. split; [|split; [done|]]; lia.
  - intros fd n off k e k' H. call H. destruct o as [e'|].
    + injection H as <- <-. split; [done|]. split; [done|]. intros _.
      naive_solver.
    + destruct (Z.ltb_spec off 0); [|done]. injection H as <- <-.
      split; [done|]. split; [done|]. by unfold EINTR.
  - intros fd c k a k' H. call H. destruct o; [done|].
    case_bool_decide as Hn; [done|]. injection H as <- <-. split; [|done].
    by apply eq_None_not_Some.
  - intros fd c k e k' H. call H. destruct o as [e'|].
    + injection H as <- <-. split; [done|]. by destruct (Z.eqb_spec e' EEXIST).
    + case_bool_decide; [|done]. by injection H as <- <-.
  - intros fd r k o' k' H. call H. destruct o; by injection H as <- <-.
  - intros fd w k a k' H. call H. destruct o; [done|]. by injection H as <- <-.
  - intros fd w k e k' H. call H. destruct o; [|done]. by injection H as <- <-.
  - intros n prot off k p k' H. call H. destruct o; [done|]. simpl in H.
    destruct (free_range _ _ _) eqn:Hf; [|done]. injection H as <- <-. split; [|done].
    intros a Ha%within_spec. unfold free_range in Hf. rewrite forallb_forall in Hf.
    apply negb_true_iff, Hf, list_elem_of_In. unfold zrange. apply elem_of_seqZ. lia.
  - intros addr n prot off k p k' H. call H. destruct o; [done|]. simpl in H.
    by injection H as <- <-.
  - intros addr n prot flags fd off k e k' H. call H. destruct o.
    + by injection H as <- <-.
    + destruct (_ || _); [done|]. by injection H as <- <-.
  - intros p n k k' H. call H. destruct o; [done|]. by injection H as <-.
  - intros p n k e k' H. call H. destruct o; [|done]. by injection H as <- <-.
  - intros fd ev t k o' k' H. call H. destruct o; by injection H as <- <-.
  - intros fd n k o' k' H. call H. destruct o; [by injection H as <- <-|].
    destruct (events k1); [by injection H as <- <-|]. case_match; by injection H as <- <-.
  - intros k o' k' H. call H. destruct o; by injection H as <- <-.
  - intros ep fd ev t k o' k' H. call H. destruct o; by injection H as <- <-.
  - intros ep n k o' k' H. call H. destruct o; by injection H as <- <-.
  - done.
  - intros fd req arg k o' k' H. call H. destruct o; [by injection H as <- <-|].
    destruct arg; simpl in H; repeat case_match; by injection H as <- <-.
  - intros fd c k k' H. call H. destruct o as [e|].
    + injection H as _ <-. naive_solver.
    + case_bool_decide; by injection H as H _.
  - intros fd n k m' msg k' H _ Hf. call H. destruct o; [done|].
    destruct (events k1) as [|m ms]; [done|]. cbv zeta in H. cbn [pf_flags pf_address] in H.
    destruct (_ && _) eqn:Hb; [done|]. injection H as <- <- <-. cbn [pf_flags] in Hf.
    apply Z.eqb_neq in Hf. rewrite Hf in Hb. simpl in Hb.
    apply negb_false_iff, bool_decide_eq_true in Hb. done.
  - intros fd n k m' msg k' H. call H. destruct o; [done|].
    destruct (events k1) as [|m ms]; [done|]. cbv zeta in H.
    destruct (_ && _); [done|]. injection H as <- <- <-. unfold is_u64. cbn [pf_address].
    apply Z.mod_pos_bound. lia.
Qed.
End sim.
End Sim.
