(* ===== verification/Overlay.v ===== *)
(** * The layered read-only backend

    Model of [Error], [Layer], [PageLocation] and [OverlayBackend] of
    [src/lib.rs], with the file reads [pread_some] and [pread_exact] they end in.
    A backend is a stack of layers, each a file and the bitmap of the pages it
    holds; a page is read from the topmost layer that has it.  [top_layer] is that
    contract; the theorems show that the bitmaps merge to the union of the layers,
    that [locate] and [read_page] implement [top_layer], and that the reads return
    whatever short or interrupted reads the kernel produces. *)

From S2P Require Import Prelude Bitmap Kernel.
Import Bitmap.

Module Overlay.

Inductive Error :=
| Io (e : io_error)
| InvalidInput (msg : string)
| KernelErr (msg : string)
| Thread (msg : string).

Record Layer := { name : string; file : Z; bitmap : list Z }.

Record PageLocation := { layer_name : string; offset : Z }.

Record OverlayBackend := {
  page_size : Z;
  page_count : Z;
  layers : list Layer;
  merged_bitmap : list Z }.

Definition or_word (merged : list Z) (iw : nat * Z) : res Error (list Z) :=
  let '(idx, word) := iw in
  m ← vget merged (Z.of_nat idx);
  vset merged (Z.of_nat idx) (Z.lor m word).

(** [layer.bitmap.iter().enumerate()] *)
Definition enumerate {A} (l : list A) : list (nat * A) := imap pair l.

Definition or_layer (merged : list Z) (layer : Layer) : res Error (list Z) :=
  foldM or_word merged (enumerate (bitmap layer)).

Definition rebuild_merged_bitmap (b : OverlayBackend) : res Error OverlayBackend :=
  let zeroed := (λ _, 0) <$> merged_bitmap b in
  merged ← foldM or_layer zeroed (layers b);
  Ok {| page_size := page_size b; page_count := page_count b;
        layers := layers b; merged_bitmap := merged |}.

Definition check_layer (words : Z) (layer : Layer) : res Error unit :=
  if zlen (bitmap layer) =? words then Ok tt
  else Err (InvalidInput ("layer '" +:+ name layer +:+ "' bitmap has "
                          +:+ pretty (zlen (bitmap layer)) +:+ " words, expected " +:+ pretty words)).

Definition new (page_size page_count : Z) (layers : list Layer) : res Error OverlayBackend :=
  if (page_size =? 0) || (page_count =? 0)
  then Err (InvalidInput "page_size and page_count must be non-zero")
  else if bool_decide (layers = [])
  then Err (InvalidInput "overlay backend requires at least one layer")
  else
    let words := bitmap_words page_count in
    _ ← foldM (λ _ layer, check_layer words layer) tt layers;
    rebuild_merged_bitmap
      {| page_size := page_size; page_count := page_count;
         layers := layers; merged_bitmap := zreplicate words 0 |}.

Definition no_layer (page_idx : Z) : Error :=
  InvalidInput ("page " +:+ pretty page_idx +:+ " has no backend layer").

Definition out_of_range (page_idx : Z) : Error :=
  InvalidInput ("page index out of range: " +:+ pretty page_idx).

(** The loop over [self.layers.iter().rev()], which has the reversed list. *)
Fixpoint locate_in (page_size page_idx : Z) (rev_layers : list Layer) : res Error PageLocation :=
  match rev_layers with
  | [] => Err (no_layer page_idx)
  | layer :: rest =>
      present ← bitmap_get (bitmap layer) page_idx;
      if (present : bool) then
        off ← umul page_idx page_size;
        Ok {| layer_name := name layer; offset := off |}
      else locate_in page_size page_idx rest
  end.

Definition locate (b : OverlayBackend) (page_idx : Z) : res Error PageLocation :=
  if page_count b <=? page_idx then Err (out_of_range page_idx)
  else locate_in (page_size b) page_idx (reverse (layers b)).

(** ** File reads *)
Section reads.
Context `{K : Kernel}.

(** One [pread] that is retried while it is interrupted. *)
Fixpoint pread_some (fuel : nat) (fd n offset : Z) : M kst Error (list Z) :=
  match fuel with
  | O => hang
  | S fuel' => λ k,
      match k_pread fd n (as_i64 offset) k with
      | (inl e, k') =>
          if e =? EINTR then pread_some fuel' fd n offset k' else (Err (Io (Os e)), k')
      | (inr bs, k') => (Ok bs, k')
      end
  end.

(** [n] is the length of what is left of [dst]; the result is its content. *)
Fixpoint pread_exact (fuel : nat) (fd n offset : Z) : M kst Error (list Z) :=
  if n =? 0 then mret []
  else
    match fuel with
    | O => hang
    | S fuel' =>
        bs ← pread_some fuel fd n offset;
        if zlen bs =? 0
        then fail (Io (Custom UnexpectedEof "unexpected EOF while reading backend"))
        else
          offset' ← lift (uadd offset (zlen bs));
          n' ← lift (usub n (zlen bs));
          rest ← pread_exact fuel' fd n' offset';
          mret (bs ++ rest)
    end.

Fixpoint read_in (fuel : nat) (page_size page_idx : Z) (rev_layers : list Layer)
    : M kst Error (PageLocation * list Z) :=
  match rev_layers with
  | [] => fail (no_layer page_idx)
  | layer :: rest =>
      present ← lift (bitmap_get (bitmap layer) page_idx);
      if (present : bool) then
        off ← lift (umul page_idx page_size);
        dst ← pread_exact fuel (file layer) page_size off;
        mret ({| layer_name := name layer; offset := off |}, dst)
      else read_in fuel page_size page_idx rest
  end.

(** [dst_len] is the length of the destination; its content is returned. *)
Definition read_page (fuel : nat) (b : OverlayBackend) (page_idx dst_len : Z)
    : M kst Error (PageLocation * list Z) :=
  if negb (dst_len =? page_size b)
  then fail (InvalidInput "backend read buffer must be one page")
  else if page_count b <=? page_idx then fail (out_of_range page_idx)
  else read_in fuel (page_size b) page_idx (reverse (layers b)).
End reads.

(** ** The contract *)

(** The topmost layer that holds a page. *)
Definition top_layer (ls : list Layer) (page_idx : Z) : option Layer :=
  last (filter (λ l, bit (bitmap l) page_idx = true) ls).

Record wf (b : OverlayBackend) : Prop := {
  wf_size : 0 < page_size b;
  wf_count : 0 < page_count b;
  wf_layers : Forall (λ l, Bitmap.wf (bitmap_words (page_count b)) (bitmap l)) (layers b);
  wf_offsets : page_size b * page_count b < 2 ^ 63;
  wf_merged_len : zlen (merged_bitmap b) = bitmap_words (page_count b);
  wf_merged : ∀ i, 0 ≤ i →
    bit (merged_bitmap b) i = existsb (λ l, bit (bitmap l) i) (layers b) }.

(** ** Merging *)

Lemma enumerate_app {A} (l : list A) x : enumerate (l ++ [x]) = enumerate l ++ [(length l, x)].
Proof. unfold enumerate. rewrite imap_app. simpl. by rewrite Nat.add_0_r. Qed.

Lemma or_words_ok (ws merged : list Z) :
  (length ws ≤ length merged)%nat →
  ∃ merged', foldM or_word merged (enumerate ws) = Ok merged' ∧ length merged' = length merged ∧
    ∀ j, merged' !! j = (λ m, Z.lor m (default 0 (ws !! j))) <$> (merged !! j).
Proof.
  revert merged. induction ws as [|w ws IH] using rev_ind; intros merged Hl.
  { exists merged. split; [done|]. split; [done|]. intros j.
    destruct (merged !! j); simpl; [|done]. by rewrite Z.lor_0_r. }
  rewrite length_app in Hl. simpl in Hl.
  destruct (IH merged ltac:(lia)) as (m1 & Hf & Hlen & Hm1).
  rewrite enumerate_app, foldM_app, Hf. simpl. unfold or_word, vget, znth.
  destruct (Z.ltb_spec (Z.of_nat (length ws)) 0); [lia|]. rewrite Nat2Z.id.
  destruct (lookup_lt_is_Some_2 m1 (length ws)) as [m Hm]; [lia|].
  rewrite Hm. simpl. rewrite vset_ok by (unfold zlen; lia). simpl.
  eexists. split; [done|]. unfold zset. rewrite Nat2Z.id, length_insert. split; [done|].
  intros j. destruct (decide (j = length ws)) as [->|Hj].
  - rewrite list_lookup_insert_eq by lia. rewrite lookup_app_r, Nat.sub_diag by lia. simpl.
    rewrite Hm1 in Hm. destruct (merged !! length ws); simpl in *; [|done].
    rewrite (lookup_ge_None_2 ws) in Hm by lia. simpl in Hm. rewrite Z.lor_0_r in Hm. congruence.
  - rewrite list_lookup_insert_ne by done. rewrite Hm1. destruct (merged !! j) as [x|]; simpl; [|done]. do 3 f_equal.
    destruct (decide (j < length ws)%nat).
    + by rewrite lookup_app_l by done.
    + rewrite (lookup_ge_None_2 ws), (lookup_ge_None_2 (ws ++ [w])); [done| |lia].
      rewrite length_app. simpl. lia.
Qed.

Lemma or_layer_ok words merged layer :
  zlen merged = words → zlen (bitmap layer) = words →
  ∃ merged', or_layer merged layer = Ok merged' ∧ zlen merged' = words ∧
    ∀ i, 0 ≤ i → bit merged' i = bit merged i || bit (bitmap layer) i.
Proof.
  unfold zlen. intros Hm Hl.
  destruct (or_words_ok (bitmap layer) merged ltac:(lia)) as (m' & Hf & Hlen & Hj).
  exists m'. split; [done|]. split; [lia|]. intros i Hi. unfold bit, znth.
  destruct (Z.ltb_spec (i / 64) 0); [pose proof (Z.div_pos i 64); lia|].
  rewrite Hj. destruct (decide (Z.to_nat (i / 64) < length merged)%nat).
  - destruct (lookup_lt_is_Some_2 merged (Z.to_nat (i / 64))) as [x Hx]; [done|].
    destruct (lookup_lt_is_Some_2 (bitmap layer) (Z.to_nat (i / 64))) as [y Hy]; [lia|].
    rewrite Hx, Hy. simpl. apply Z.lor_spec.
  - rewrite !lookup_ge_None_2 by lia. done.
Qed.

Lemma merge_ok words ls merged :
  zlen merged = words → Forall (λ l, zlen (bitmap l) = words) ls →
  ∃ merged', foldM or_layer merged ls = Ok merged' ∧ zlen merged' = words ∧
    ∀ i, 0 ≤ i → bit merged' i = bit merged i || existsb (λ l, bit (bitmap l) i) ls.
Proof.
  intros Hm Hls. revert merged Hm. induction Hls as [|l ls Hl Hls IH]; intros merged Hm.
  { exists merged. split; [done|]. split; [done|]. intros i _. by rewrite orb_false_r. }
  destruct (or_layer_ok words merged l Hm Hl) as (m1 & H1 & Hl1 & Hb1).
  destruct (IH m1 Hl1) as (m2 & H2 & Hl2 & Hb2).
  exists m2. simpl. rewrite H1. simpl. split; [done|]. split; [done|].
  intros i Hi. rewrite Hb2, Hb1 by done. by rewrite orb_assoc.
Qed.

Lemma check_layers_ok words ls :
  Forall (λ l, zlen (bitmap l) = words) ls →
  foldM (λ _ layer, check_layer words layer) tt ls = Ok tt.
Proof.
  induction 1 as [|l ls Hl Hls IH]; [done|]. simpl.
  assert (check_layer words l = Ok tt) as -> by (unfold check_layer; by rewrite Hl, Z.eqb_refl).
  done.
Qed.

Lemma check_layers_err words ls :
  ¬ Forall (λ l, zlen (bitmap l) = words) ls →
  ∃ msg, foldM (λ _ layer, check_layer words layer) tt ls = Err (InvalidInput msg).
Proof.
  induction ls as [|l ls IH]; intros H; [by destruct H|].
  simpl. destruct (check_layer words l) as [[]|e| |] eqn:Hc;
    unfold check_layer in Hc; destruct (Z.eqb_spec (zlen (bitmap l)) words); simplify_eq; simpl.
  - apply IH. intros Hls. apply H. by constructor.
  - eauto.
Qed.

(** [OverlayBackend::new] accepts exactly the configurations with a non-zero
    geometry, at least one layer and a bitmap of the right size in every layer;
    what it builds keeps the geometry and the layers, and a page is in its merged
    bitmap exactly when some layer has it.  Any other configuration is an
    [InvalidInput] error, never a panic. *)
Theorem new_spec ps pc ls :
  0 ≤ ps → 0 ≤ pc →
  (if decide (0 < ps ∧ 0 < pc ∧ ls ≠ [] ∧ Forall (λ l, zlen (bitmap l) = bitmap_words pc) ls)
   then ∃ b, new ps pc ls = Ok b ∧ page_size b = ps ∧ page_count b = pc ∧ layers b = ls ∧
          ∀ i, 0 ≤ i → bit (merged_bitmap b) i = existsb (λ l, bit (bitmap l) i) ls
   else ∃ msg, new ps pc ls = Err (InvalidInput msg)).
Proof.
  intros Hps Hpc. unfold new. case_decide as Hd.
  - destruct Hd as (H1 & H2 & H3 & H4).
    destruct (Z.eqb_spec ps 0), (Z.eqb_spec pc 0); simpl; try lia.
    rewrite bool_decide_false, check_layers_ok by done. simpl.
    unfold rebuild_merged_bitmap. simpl.
    destruct (merge_ok (bitmap_words pc) ls ((λ _, 0) <$> zreplicate (bitmap_words pc) 0))
      as (m & Hm & _ & Hb); [|done|].
    { rewrite zlen_fmap. apply zlen_zreplicate, ceil_div_nonneg; lia. }
    rewrite Hm. simpl. eexists. split; [done|]. simpl. split_and!; [done..|].
    intros i Hi. rewrite Hb by done. unfold zreplicate. rewrite fmap_replicate.
    by rewrite (bit_replicate (bitmap_words pc)).
  - destruct (Z.eqb_spec ps 0), (Z.eqb_spec pc 0); simpl; eauto.
    case_bool_decide; eauto.
    destruct (check_layers_err (bitmap_words pc) ls) as [msg Hmsg].
    + intros HF. apply Hd. split_and!; [lia|lia|done|done].
    + rewrite Hmsg. simpl. eauto.
Qed.

Lemma new_spec_witness :
  ∃ b, new 4 3 [{| name := "base"; file := 3; bitmap := [5] |};
                {| name := "delta"; file := 4; bitmap := [2] |}] = Ok b ∧
    bit (merged_bitmap b) 1 = true ∧ bit (merged_bitmap b) 3 = false.
Proof.
  pose proof (new_spec 4 3 [{| name := "base"; file := 3; bitmap := [5] |};
                {| name := "delta"; file := 4; bitmap := [2] |}] ltac:(lia) ltac:(lia)) as H.
  rewrite decide_True in H.
  - destruct H as (b & Hb & _ & _ & _ & Hm). exists b. rewrite !Hm by lia. done.
  - split_and!; [lia|lia|done|]. repeat constructor.
Defined.

(** ** Lookup *)

Lemma top_layer_snoc ls l i :
  top_layer (ls ++ [l]) i = if bit (bitmap l) i then Some l else top_layer ls i.
Proof.
  unfold top_layer. rewrite filter_app, filter_cons, filter_nil.
  destruct (bit (bitmap l) i) eqn:Hb.
  - rewrite decide_True by done. by rewrite last_snoc.
  - rewrite decide_False by done. by rewrite app_nil_r.
Qed.

Lemma top_layer_merged b i :
  wf b → 0 ≤ i → bit (merged_bitmap b) i = bool_decide (is_Some (top_layer (layers b) i)).
Proof.
  intros Hwf Hi. rewrite (wf_merged b Hwf) by done. clear Hwf.
  induction (layers b) as [|l ls IH] using rev_ind; [done|].
  rewrite existsb_app. simpl. rewrite orb_false_r, top_layer_snoc, IH.
  destruct (bit (bitmap l) i).
  - rewrite orb_true_r. symmetry. apply bool_decide_eq_true. eauto.
  - by rewrite orb_false_r.
Qed.

Lemma top_layer_elem ls i l : top_layer ls i = Some l → l ∈ ls ∧ bit (bitmap l) i = true.
Proof.
  intros H%last_Some_elem_of. apply list_elem_of_filter in H. naive_solver.
Qed.

Lemma locate_in_spec ps pc i ls :
  0 ≤ i < pc → is_u64 (i * ps) →
  Forall (λ l, Bitmap.wf (bitmap_words pc) (bitmap l)) ls →
  locate_in ps i (reverse ls) =
    match top_layer ls i with
    | Some l => Ok {| layer_name := name l; offset := i * ps |}
    | None => Err (no_layer i)
    end.
Proof.
  intros Hi Ho. induction ls as [|l ls IH] using rev_ind; intros HF; [done|].
  apply Forall_app in HF as [HF [Hl _]%Forall_cons].
  rewrite reverse_app, top_layer_snoc. simpl.
  rewrite (bitmap_get_ok _ pc) by done. simpl.
  destruct (bit (bitmap l) i); [|by apply IH]. by rewrite umul_ok.
Qed.

Lemma locate_eq b i :
  wf b → 0 ≤ i →
  locate b i =
    if page_count b <=? i then Err (out_of_range i)
    else match top_layer (layers b) i with
         | Some l => Ok {| layer_name := name l; offset := i * page_size b |}
         | None => Err (no_layer i)
         end.
Proof.
  intros Hwf Hi. unfold locate. destruct (Z.leb_spec (page_count b) i); [done|].
  apply (locate_in_spec _ (page_count b)); [lia| |apply Hwf].
  pose proof (wf_offsets b Hwf). pose proof (wf_size b Hwf). unfold is_u64. nia.
Qed.

(** [locate] implements the overlay contract: a page beyond the region is
    rejected, a page no layer holds is rejected, and otherwise the answer is the
    topmost layer that holds the page with offset [page_idx * page_size]; it is
    found exactly for the pages of the merged bitmap. *)
Theorem locate_spec b i :
  wf b → 0 ≤ i →
  locate b i =
    (if page_count b <=? i then Err (out_of_range i)
     else match top_layer (layers b) i with
          | Some l => Ok {| layer_name := name l; offset := i * page_size b |}
          | None => Err (no_layer i)
          end) ∧
  (i < page_count b →
   bit (merged_bitmap b) i = true ↔ ∃ loc, locate b i = Ok loc).
Proof.
  intros Hwf Hi. split; [by apply locate_eq|]. intros Hlt.
  rewrite locate_eq, top_layer_merged by done.
  destruct (Z.leb_spec (page_count b) i); [lia|]. rewrite bool_decide_eq_true.
  destruct (top_layer (layers b) i); naive_solver.
Qed.

Definition demo_backend : OverlayBackend :=
  {| page_size := 4; page_count := 3;
     layers := [{| name := "base"; file := 3; bitmap := [5] |};
                {| name := "delta"; file := 4; bitmap := [4] |}];
     merged_bitmap := [5] |}.

Lemma demo_backend_wf : wf demo_backend.
Proof.
  split; [done|done| |done|done|].
  - repeat constructor; done.
  - intros i Hi. unfold demo_backend, bit. cbn [layers merged_bitmap existsb bitmap].
    destruct (decide (i / 64 = 0)) as [->|Hn].
    + change (znth [5] 0) with (Some 5). change (znth [4] 0) with (Some 4).
      rewrite orb_false_r. by rewrite <-Z.lor_spec.
    + assert (0 ≤ i / 64) by (apply Z.div_pos; lia).
      rewrite !znth_None; [done|unfold zlen; simpl; lia..].
Qed.

Lemma locate_spec_witness :
  wf demo_backend ∧ locate demo_backend 2 = Ok {| layer_name := "delta"; offset := 8 |} ∧
  locate demo_backend 1 = Err (no_layer 1).
Proof.
  split; [exact demo_backend_wf|].
  rewrite (proj1 (locate_spec demo_backend 2 demo_backend_wf ltac:(lia))).
  rewrite (proj1 (locate_spec demo_backend 1 demo_backend_wf ltac:(lia))).
  vm_compute. done.
Defined.

(** ** Reads *)

Definition eof : Error := Io (Custom UnexpectedEof "unexpected EOF while reading backend").

(** What a read of [n] bytes at [off] may answer: the bytes of the file, the
    end-of-file error when the file is too short, or an error of the device. *)
Definition read_answer (f : list Z) (off n : Z) (r : res Error (list Z)) : Prop :=
  (r = Ok (slice f off n) ∧ off + n ≤ zlen f) ∨
  (r = Err eof ∧ zlen f < off + n) ∨
  (∃ e, e ≠ EINTR ∧ r = Err (Io (Os e))).

Section read_lemmas.
Context `{K : Kernel, !KernelOk K}.

Lemma pread_some_total fuel fd n off k :
  (k_intr k < fuel)%nat → 0 < n → 0 ≤ off < 2 ^ 63 →
  ∃ r k', pread_some fuel fd n off k = (r, k') ∧ k_view k' ≡ k_view k ∧
    (k_intr k' ≤ k_intr k)%nat ∧
    ((∃ e, e ≠ EINTR ∧ r = Err (Io (Os e))) ∨
     ∃ m, r = Ok (slice (k_file fd) off m) ∧ 0 ≤ m ≤ n ∧
       off + m ≤ Z.max off (zlen (k_file fd)) ∧ (off < zlen (k_file fd) → 0 < m)).
Proof.
  revert k. induction fuel as [|fuel IH]; intros k Hf Hn Ho; [lia|]. simpl.
  assert (as_i64 off = off) as -> by (unfold as_i64; destruct (Z.ltb_spec off (2 ^ 63)); lia).
  destruct (k_pread fd n off k) as [[e|bs] k'] eqn:Hp.
  - apply k_pread_err in Hp as (Hv & Hi & He).
    destruct (Z.eqb_spec e EINTR) as [->|Hne].
    + destruct (IH k') as (r & k'' & -> & Hv' & Hi' & Hr); [naive_solver lia|done..|].
      exists r, k''. split; [done|]. rewrite Hv', Hv. split; [done|]. split; [lia|done].
    + eexists _, k'. split; [done|]. split; [done|]. split; [done|]. eauto.
  - apply k_pread_ok in Hp as (Hv & Hi & m & Hm & -> & Hle & Hpos); [|lia].
    eexists _, k'. split; [done|]. split; [done|]. split; [done|]. right.
    exists m. split; [done|]. split; [lia|]. split; [done|]. intros ?. apply Hpos; lia.
Qed.

(** [n + k_intr k] rounds are enough: every round but the last reads at least
    one byte, and a round retries at most once per interruption left. *)
Lemma pread_exact_total fuel fd n off k :
  (Z.to_nat n + k_intr k ≤ fuel)%nat → 0 < n → 0 ≤ off → off + n < 2 ^ 63 →
  ∃ r k', pread_exact fuel fd n off k = (r, k') ∧ k_view k' ≡ k_view k ∧
    read_answer (k_file fd) off n r.
Proof.
  revert n off k. induction fuel as [|fuel IH]; intros n off k Hf Hn Ho Hb; [lia|].
  cbn [pread_exact]. destruct (Z.eqb_spec n 0); [lia|].
  destruct (pread_some_total (S fuel) fd n off k) as (r & k1 & Hr & Hv & Hi & Hc); [lia..|].
  unfold mbind, M_bind. rewrite Hr.
  destruct Hc as [(e & He & ->) | (m & -> & Hm & Hle & Hpos)].
  { eexists _, k1. split; [done|]. split; [done|]. right. right. eauto. }
  assert (0 ≤ m ∧ off + m ≤ zlen (k_file fd) ∧ 0 < m ∨ m = 0 ∧ zlen (k_file fd) ≤ off) as Hcase.
  { destruct (decide (off < zlen (k_file fd))); lia. }
  destruct Hcase as [(Hm0 & Hin & Hmp) | [-> Heof]].
  - assert (zlen (slice (k_file fd) off m) = m) as Hlen by (apply zlen_slice; lia).
    rewrite Hlen. destruct (Z.eqb_spec m 0); [lia|].
    rewrite uadd_ok, usub_ok by (unfold is_u64; lia). unfold lift. cbv beta iota.
    destruct (decide (n = m)) as [->|Hnm].
    + rewrite Z.sub_diag. exists (Ok (slice (k_file fd) off m)), k1.
      destruct fuel; simpl; rewrite app_nil_r; split; try done;
        (split; [done|]); left; split; [done|lia| done|lia].
    + destruct (IH (n - m) (off + m) k1) as (r2 & k2 & -> & Hv2 & Hans); [lia..|].
      rewrite Hv in Hv2. destruct Hans as [[-> ?]|[[-> ?]|(e & ? & ->)]].
      * eexists _, k2. split; [done|]. split; [done|]. left.
        rewrite slice_split by lia. split; [done|lia].
      * eexists _, k2. split; [done|]. split; [done|]. right. left. split; [done|lia].
      * eexists _, k2. split; [done|]. split; [done|]. right. right. eauto.
  - assert (slice (k_file fd) off 0 = []) as -> by done. simpl.
    eexists _, k1. split; [done|]. split; [done|]. right. left. split; [done|lia].
Qed.

Lemma read_in_spec fuel ps pc i ls k :
  (Z.to_nat ps + k_intr k ≤ fuel)%nat → 0 < ps → 0 ≤ i < pc → ps * pc < 2 ^ 63 →
  Forall (λ l, Bitmap.wf (bitmap_words pc) (bitmap l)) ls →
  ∃ r k', read_in fuel ps i (reverse ls) k = (r, k') ∧ k_view k' ≡ k_view k ∧
    match top_layer ls i with
    | None => r = Err (no_layer i)
    | Some l => ∃ r', read_answer (k_file (file l)) (i * ps) ps r' ∧
        r = (pair {| layer_name := name l; offset := i * ps |}) <$> r'
    end.
Proof.
  intros Hf Hps Hi Hb. induction ls as [|l ls IH] using rev_ind; intros HF.
  { eexists _, k. split; [done|]. done. }
  apply Forall_app in HF as [HF [Hl _]%Forall_cons].
  rewrite reverse_app, top_layer_snoc. simpl.
  unfold mbind, M_bind, lift. rewrite (bitmap_get_ok _ pc) by done.
  destruct (bit (bitmap l) i); [|by apply IH].
  rewrite umul_ok by (unfold is_u64; nia).
  destruct (pread_exact_total fuel (file l) ps (i * ps) k) as (r & k' & -> & Hv & Ha); [nia..|].
  destruct r; (eexists _, k'; split; [done|]; split; [done|]; eexists; split; [exact Ha|done]).
Qed.
End read_lemmas.

Lemma read_page_total `{K : Kernel, !KernelOk K} fuel b i dst_len k :
  wf b → 0 ≤ i → (Z.to_nat (page_size b) + k_intr k ≤ fuel)%nat →
  ∃ r k', read_page fuel b i dst_len k = (r, k') ∧ k_view k' ≡ k_view k ∧
    if negb (dst_len =? page_size b)
    then r = Err (InvalidInput "backend read buffer must be one page")
    else if page_count b <=? i then r = Err (out_of_range i)
    else match top_layer (layers b) i with
         | None => r = Err (no_layer i)
         | Some l => ∃ r', read_answer (k_file (file l)) (i * page_size b) (page_size b) r' ∧
             r = (pair {| layer_name := name l; offset := i * page_size b |}) <$> r'
         end.
Proof.
  intros Hwf Hi Hf. unfold read_page.
  destruct (negb (dst_len =? page_size b)); [by eexists _, k|].
  destruct (Z.leb_spec (page_count b) i); [by eexists _, k|].
  apply read_in_spec with (pc := page_count b); try apply Hwf; [done|lia].
Qed.

(** C13 [read_page] returns, whatever short reads and interruptions the kernel
    produces, once it has [page_size + k_intr k] rounds: a destination that is not
    one page, a page out of range and a page no layer holds are rejected; otherwise
    the destination holds bytes [page_idx * page_size ..] of the topmost layer's
    file, or the error of the device or the end-of-file error of a file that is
    too short is reported.  The address space is not touched. *)
Theorem read_page_spec `{K : Kernel, !KernelOk K} fuel b i dst_len k :
  wf b → 0 ≤ i → (Z.to_nat (page_size b) + k_intr k ≤ fuel)%nat →
  ∃ r k', read_page fuel b i dst_len k = (r, k') ∧ k_view k' ≡ k_view k ∧
    if negb (dst_len =? page_size b)
    then r = Err (InvalidInput "backend read buffer must be one page")
    else if page_count b <=? i then r = Err (out_of_range i)
    else match top_layer (layers b) i with
         | None => r = Err (no_layer i)
         | Some l => ∃ r', read_answer (k_file (file l)) (i * page_size b) (page_size b) r' ∧
             r = (pair {| layer_name := name l; offset := i * page_size b |}) <$> r'
         end.
Proof. apply read_page_total. Qed.

Definition demo_files (fd : Z) : list Z := if fd =? 3 then zrange 0 12 else zrange 100 110.

Lemma read_page_spec_witness :
  ∃ r k', @read_page (Sim.kernel demo_files 3) 10 demo_backend 0 4
            {| Sim.view := {| as_mem _ := None; as_wp _ := false; as_private _ := false;
                              as_mapped _ := false |};
               Sim.plan := [None; Some EINTR]; Sim.next_free := 0; Sim.events := [] |} = (r, k') ∧
    r = Ok ({| layer_name := "base"; offset := 0 |}, [0; 1; 2; 3]).
Proof.
  destruct (@read_page_spec (Sim.kernel demo_files 3) (Sim.kernel_ok demo_files 3) 10
    demo_backend 0 4
    {| Sim.view := {| as_mem _ := None; as_wp _ := false; as_private _ := false;
                      as_mapped _ := false |};
       Sim.plan := [None; Some EINTR]; Sim.next_free := 0; Sim.events := [] |} demo_backend_wf)
    as (r & k' & H & _); [lia|simpl; lia|].
  exists r, k'. split; [exact H|]. vm_compute in H. by injection H as <- _.
Defined.

End Overlay.
