(* ===== verification/TemplateClient.v ===== *)
(** * The template service and its clients

    Model of [src/lib.rs] from [TemplatePageState] to [handle_wp_fault]: the shared
    page metadata, [TemplateService], [Client] with its fault handler thread, the
    two fault handlers and [Checkpoint].  The state [World] of a client has the
    kernel, the metadata shared with the other clients, and the private page flags;
    [env] stands for what other threads and processes do to it while this thread
    yields or blocks. *)

From S2P Require Import Prelude Bitmap Kernel Overlay.
Import Bitmap.
Import Overlay (Error, Io, InvalidInput, KernelErr, Thread, OverlayBackend).

Module TemplateClient.

(** ** Shared page metadata *)

Definition STATE_UNLOADED : Z := 0.
Definition STATE_LOADING : Z := 1.
Definition STATE_SHARED_READY : Z := 2.

Inductive TemplatePageState :=
| Unloaded
| Loading
| SharedReady
| Unknown (raw : Z).

Definition from_raw (raw : Z) : TemplatePageState :=
  if raw =? STATE_UNLOADED then Unloaded
  else if raw =? STATE_LOADING then Loading
  else if raw =? STATE_SHARED_READY then SharedReady
  else Unknown raw.

Record TemplatePageMeta := { state : Z; backend_offset : Z }.

Definition META_SIZE : Z := 16.

Record ProcPageMeta := { is_private : bool; dirty : bool }.

Definition proc_new : ProcPageMeta := {| is_private := false; dirty := false |}.

Section code.
Context `{K : Kernel}.

(** [last_os_error(what)] *)
Definition os_err (what : string) (e : Z) : Error :=
  KernelErr (what +:+ ": " +:+ strerror e).

(** A system call whose failure is [last_os_error(what)]. *)
Definition sys {A} (what : string) (call : kst → (Z + A) * kst) : M kst Error A := λ k,
  match call k with
  | (inl e, k') => (Err (os_err what e), k')
  | (inr a, k') => (Ok a, k')
  end.

Definition page_size_ : M kst Error Z :=
  let '(value, errno) := k_sysconf 30 in
  if value <=? 0 then fail (os_err "sysconf(_SC_PAGESIZE)" errno) else mret value.

Definition memfd_create : M kst Error Z :=
  sys "memfd_create" (k_syscall SYS_MEMFD_CREATE [MFD_CLOEXEC]).

Definition ftruncate_fd (fd len : Z) : M kst Error unit := sys "ftruncate" (k_ftruncate fd len).

(** [SharedMetaMapping::new]: the mapped array of page metadata *)
Definition meta_new (page_count page_size : Z) : M kst Error (list TemplatePageMeta) :=
  bytes ← lift (ok_or (checked_mul page_count META_SIZE)
                  (InvalidInput "metadata mapping size overflow"));
  _ ← sys "mmap shared metadata"
        (k_mmap 0 bytes (Z.lor PROT_READ PROT_WRITE) (Z.lor MAP_SHARED MAP_ANONYMOUS) (-1) 0);
  lift (foldM (λ metas idx,
                 off ← umul idx page_size;
                 Ok (metas ++ [{| state := STATE_UNLOADED; backend_offset := off |}]))
          [] (zrange 0 page_count)).

(** ** The service *)

Record TemplateService := {
  ts_page_size : Z;
  ts_page_count : Z;
  ts_region_size : Z;
  memfd : Z;
  ts_meta : list TemplatePageMeta;
  ts_backend : OverlayBackend }.

Definition service_new (region_size : Z) (backend : OverlayBackend) : M kst Error TemplateService :=
  page_size ← page_size_;
  if negb (region_size mod page_size =? 0)
  then fail (InvalidInput "region size must be page aligned")
  else
    let page_count := region_size / page_size in
    if negb (Overlay.page_size backend =? page_size) || negb (Overlay.page_count backend =? page_count)
    then fail (InvalidInput ("backend geometry mismatch: backend="
                 +:+ pretty (Overlay.page_count backend) +:+ "x" +:+ pretty (Overlay.page_size backend)
                 +:+ ", region=" +:+ pretty page_count +:+ "x" +:+ pretty page_size))
    else
      fd ← memfd_create;
      _ ← ftruncate_fd fd region_size;
      meta ← meta_new page_count page_size;
      mret {| ts_page_size := page_size; ts_page_count := page_count;
              ts_region_size := region_size; memfd := fd; ts_meta := meta;
              ts_backend := backend |}.

(** [SharedMetaView::get] asserts the index. *)
Definition meta_get {E} (metas : list TemplatePageMeta) (page_idx : Z) : res E TemplatePageMeta :=
  vget metas page_idx.

Definition page_state (s : TemplateService) (page_idx : Z) : res Error TemplatePageState :=
  m ← meta_get (ts_meta s) page_idx;
  Ok (from_raw (state m)).

Definition map_client_region (s : TemplateService) : M kst Error (Z * Z) :=
  ptr ← sys "mmap template memfd"
          (k_mmap 0 (ts_region_size s) (Z.lor PROT_READ PROT_WRITE) MAP_SHARED (memfd s) 0);
  mret (ptr, ts_region_size s).

(** ** userfaultfd calls *)

Definition ioctl_io (fd request : Z) (arg : ioctl_arg) : M kst io_error ioctl_arg := λ k,
  match k_ioctl fd request arg k with
  | (inl e, k') => (Err (Os e), k')
  | (inr a, k') => (Ok a, k')
  end.

Definition io_display (e : io_error) : string :=
  match e with Os n => strerror n | Custom _ msg => msg end.

Definition ioctl_checked (fd request : Z) (arg : ioctl_arg) (name : string)
    : M kst Error ioctl_arg :=
  m_map_err (λ err, KernelErr (name +:+ ": " +:+ io_display err)) (ioctl_io fd request arg).

Definition required_features : Z :=
  Z.lor (Z.lor UFFD_FEATURE_PAGEFAULT_FLAG_WP UFFD_FEATURE_MISSING_SHMEM)
    UFFD_FEATURE_WP_HUGETLBFS_SHMEM.

Definition create_userfaultfd : M kst Error Z :=
  fd ← sys "userfaultfd"
         (k_syscall SYS_USERFAULTFD [Z.lor (Z.lor O_CLOEXEC O_NONBLOCK) UFFD_USER_MODE_ONLY]);
  a ← ioctl_checked fd UFFDIO_API
        (ArgApi {| api := UFFD_API; api_features := 0; api_ioctls := 0 |}) "UFFDIO_API";
  let features := match a with ArgApi a' => api_features a' | _ => 0 end in
  if negb (Z.land features required_features =? required_features)
  then fail (KernelErr ("kernel lacks required userfaultfd features: have=" +:+ hex features
                        +:+ " required=" +:+ hex required_features))
  else mret fd.

Definition register_uffd (fd addr len mode : Z) : M kst Error Z :=
  a ← ioctl_checked fd UFFDIO_REGISTER
        (ArgRegister {| reg_range := {| ur_start := addr; ur_len := len |};
                        reg_mode := mode; reg_ioctls := 0 |}) "UFFDIO_REGISTER";
  mret (match a with ArgRegister r => reg_ioctls r | _ => 0 end).

Definition ensure_ioctl (ioctls bit : Z) (name : string) : res Error unit :=
  if Z.land ioctls (Z.shiftl 1 bit) =? 0
  then Err (KernelErr ("registered range does not support " +:+ name))
  else Ok tt.

Definition uffdio_copy (fd dst : Z) (src : list Z) (len mode : Z) : M kst io_error unit :=
  _ ← ioctl_io fd UFFDIO_COPY
        (ArgCopy {| uc_dst := dst; uc_src := src; uc_len := len; uc_mode := mode; uc_copy := 0 |});
  mret tt.

Definition uffdio_wake (fd start len : Z) : M kst io_error unit :=
  _ ← ioctl_io fd UFFDIO_WAKE (ArgRange {| ur_start := start; ur_len := len |});
  mret tt.

Definition uffdio_writeprotect (fd start len mode : Z) : M kst io_error unit :=
  _ ← ioctl_io fd UFFDIO_WRITEPROTECT
        (ArgWriteProtect {| wp_range := {| ur_start := start; ur_len := len |}; wp_mode := mode |});
  mret tt.

(** ** The client *)

Record ClientInner := {
  uffd : Z;
  base_addr : Z;
  region_size : Z;
  page_size : Z;
  page_count : Z;
  backend : OverlayBackend }.

Record World := {
  kern : kst;
  meta : list TemplatePageMeta;
  proc_meta : list ProcPageMeta;
  stop : bool }.

Definition set_kern (k : kst) (w : World) : World :=
  {| kern := k; meta := meta w; proc_meta := proc_meta w; stop := stop w |}.
Definition set_meta (m : list TemplatePageMeta) (w : World) : World :=
  {| kern := kern w; meta := m; proc_meta := proc_meta w; stop := stop w |}.
Definition set_proc (p : list ProcPageMeta) (w : World) : World :=
  {| kern := kern w; meta := meta w; proc_meta := p; stop := stop w |}.

(** A computation on the kernel, run in the world. *)
Definition on_kern {E A} (m : M kst E A) : M World E A := λ w,
  let '(r, k) := m (kern w) in (r, set_kern k w).

(** [Client::new]: the client and its initial private flags *)
Definition client_new (s : TemplateService) (base : Z) : M kst Error (ClientInner * list ProcPageMeta) :=
  fd ← create_userfaultfd;
  ioctls ← register_uffd fd base (ts_region_size s)
             (Z.lor UFFDIO_REGISTER_MODE_MISSING UFFDIO_REGISTER_MODE_WP);
  _ ← lift (ensure_ioctl ioctls UFFDIO_COPY_BIT "UFFDIO_COPY");
  _ ← lift (ensure_ioctl ioctls UFFDIO_WAKE_BIT "UFFDIO_WAKE");
  _ ← lift (ensure_ioctl ioctls UFFDIO_WRITEPROTECT_BIT "UFFDIO_WRITEPROTECT");
  mret ({| uffd := fd; base_addr := base; region_size := ts_region_size s;
           page_size := ts_page_size s; page_count := ts_page_count s;
           backend := ts_backend s |},
        (λ _, proc_new) <$> zrange 0 (ts_page_count s)).

Definition page_index_from_addr (c : ClientInner) (fault_addr : Z) : res Error Z :=
  let outside := InvalidInput ("fault outside client range: " +:+ hex fault_addr) in
  if fault_addr <? base_addr c then Err outside
  else
    limit ← uadd (base_addr c) (region_size c);
    if limit <=? fault_addr then Err outside
    else udiv (fault_addr - base_addr c) (page_size c).

Definition page_start (c : ClientInner) (addr : Z) : res Error Z :=
  m ← usub (page_size c) 1;
  Ok (Z.land addr (unot m)).

Definition mark_private_dirty (page_idx : Z) : M World Error unit := λ w,
  match vset (E:=Error) (proc_meta w) page_idx {| is_private := true; dirty := true |} with
  | Ok p => (Ok tt, set_proc p w)
  | _ => (Panic, w)
  end.

(** [state.load] and [state.store] of one page, and the [compare_exchange] the
    handlers use: [inr] is the old value of a success, [inl] the value that made
    it fail. *)
Definition state_load (page_idx : Z) : M World Error Z := λ w,
  match vget (E:=Error) (meta w) page_idx with
  | Ok m => (Ok (state m), w)
  | _ => (Panic, w)
  end.

Definition state_store (page_idx v : Z) : M World Error unit := λ w,
  match znth (meta w) page_idx with
  | Some m =>
      (Ok tt, set_meta (zset (meta w) page_idx
                          {| state := v; backend_offset := backend_offset m |}) w)
  | None => (Panic, w)
  end.

Definition compare_exchange (page_idx current new : Z) : M World Error (Z + Z) :=
  v ← state_load page_idx;
  if v =? current then _ ← state_store page_idx new; mret (inr v) else mret (inl v).

Context (env : World → World).

(** [while state != SHARED_READY { yield_now() }] *)
Fixpoint wait_ready (fuel : nat) (page_idx : Z) : M World Error unit :=
  match fuel with
  | O => hang
  | S fuel' =>
      v ← state_load page_idx;
      if v =? STATE_SHARED_READY then mret tt
      else _ ← modify env; wait_ready fuel' page_idx
  end.

Definition wake_page (c : ClientInner) (aligned : Z) : M World Error unit :=
  on_kern (m_map_err Io (uffdio_wake (uffd c) aligned (page_size c))).

Definition handle_missing_fault (fuel : nat) (c : ClientInner) (fault_addr : Z)
    : M World Error unit :=
  page_idx ← lift (page_index_from_addr c fault_addr);
  aligned ← lift (page_start c fault_addr);
  r ← compare_exchange page_idx STATE_UNLOADED STATE_LOADING;
  match r with
  | inr _ =>
      '(_, page) ← on_kern (Overlay.read_page fuel (backend c) page_idx (page_size c));
      copied ← try_ (on_kern (uffdio_copy (uffd c) aligned page (page_size c) UFFDIO_COPY_MODE_WP));
      _ ← match copied with
          | inr _ => mret tt
          | inl err =>
              if bool_decide (raw_os_error err = Some EEXIST) then wake_page c aligned
              else fail (Io err)
          end;
      state_store page_idx STATE_SHARED_READY
  | inl observed =>
      if observed =? STATE_LOADING then
        _ ← wait_ready fuel page_idx;
        wake_page c aligned
      else if observed =? STATE_SHARED_READY then wake_page c aligned
      else fail (KernelErr ("unexpected template page state " +:+ pretty observed
                            +:+ " for page " +:+ pretty page_idx))
  end.

(** [ptr::copy_nonoverlapping]: a load from a missing page, or a store to a page
    that is missing or write-protected, blocks the handler on its own fault. *)
Definition copy_from (addr n : Z) : M World Error (list Z) := λ w,
  match load_bytes (k_view (kern w)) addr n with
  | Some bs => (Ok bs, w)
  | None => (Hang, w)
  end.

Definition copy_to (addr : Z) (bs : list Z) : M World Error unit := λ w,
  if writable (k_view (kern w)) addr (zlen bs)
  then (Ok tt, set_kern (k_store addr bs (kern w)) w)
  else (Hang, w).

(** [let _ = munmap(..)] *)
Definition munmap_ignore (p n : Z) : M World Error (option Z) := λ w,
  match k_munmap p n (kern w) with
  | (inl e, k) => (Ok (Some e), set_kern k w)
  | (inr _, k) => (Ok None, set_kern k w)
  end.

Definition PROT_RW : Z := Z.lor PROT_READ PROT_WRITE.
Definition MAP_PRIVATE_ANON : Z := Z.lor MAP_PRIVATE MAP_ANONYMOUS.

Definition handle_wp_fault (c : ClientInner) (fault_addr : Z) : M World Error unit :=
  page_idx ← lift (page_index_from_addr c fault_addr);
  aligned ← lift (page_start c fault_addr);
  snapshot ← on_kern (sys "mmap snapshot page"
                        (k_mmap 0 (page_size c) PROT_RW MAP_PRIVATE_ANON (-1) 0));
  bs ← copy_from aligned (page_size c);
  _ ← copy_to snapshot bs;
  _ ← on_kern (m_map_err Io (uffdio_writeprotect (uffd c) aligned (page_size c)
                               UFFDIO_WRITEPROTECT_MODE_DONTWAKE));
  mapped ← try_ (on_kern (λ k, match k_mmap aligned (page_size c) PROT_RW
                                       (Z.lor MAP_PRIVATE_ANON MAP_FIXED) (-1) 0 k with
                               | (inl e, k') => (Err e, k')
                               | (inr p, k') => (Ok p, k')
                               end));
  match mapped with
  | inl errno =>
      un ← munmap_ignore snapshot (page_size c);
      fail (os_err "mmap private page over shared mapping" (default errno un))
  | inr private_page =>
      bs' ← copy_from snapshot (page_size c);
      _ ← copy_to private_page bs';
      _ ← munmap_ignore snapshot (page_size c);
      _ ← mark_private_dirty page_idx;
      wake_page c aligned
  end.

(** The part of a round after [poll] has reported a message. *)
Definition read_and_handle (fuel : nat) (c : ClientInner) : M World Error (option unit) :=
  got ← try_ (on_kern (λ k, match k_read_msg (uffd c) 32 k with
                            | (inl e, k') => (Err e, k')
                            | (inr x, k') => (Ok x, k')
                            end));
  match got with
  | inl errno =>
      if (errno =? EAGAIN) || (errno =? EINTR) then mret None
      else
        stopped' ← gets stop;
        if (errno =? EBADF) && stopped' then mret (Some tt) else fail (Io (Os errno))
  | inr (nread, msg) =>
      if negb (nread =? 32)
      then fail (KernelErr ("short read from userfaultfd: " +:+ pretty nread))
      else if negb (msg_event msg =? UFFD_EVENT_PAGEFAULT) then mret None
      else
        _ ← (if negb (Z.land (pf_flags msg) UFFD_PAGEFAULT_FLAG_WP =? 0)
             then handle_wp_fault c (pf_address msg)
             else handle_missing_fault fuel c (pf_address msg));
        mret None
  end.

(** One round of the loop of [fault_handler_main]: [Some r] leaves the loop. *)
Definition handler_round (fuel : nat) (c : ClientInner) : M World Error (option unit) :=
  stopped ← gets stop;
  if (stopped : bool) then mret (Some tt)
  else
    polled ← try_ (on_kern (λ k, match k_poll (uffd c) POLLIN 100 k with
                                 | (inl e, k') => (Err e, k')
                                 | (inr x, k') => (Ok x, k')
                                 end));
    _ ← modify env;
    match polled with
    | inl errno =>
        if errno =? EINTR then mret None
        else
          stopped' ← gets stop;
          if (errno =? EBADF) && stopped' then mret (Some tt) else fail (Io (Os errno))
    | inr (ready, revents) =>
        if (ready =? 0) || (Z.land revents POLLIN =? 0) then mret None
        else read_and_handle fuel c
    end.

Fixpoint fault_handler_main (rounds fuel : nat) (c : ClientInner) : M World Error unit :=
  match rounds with
  | O => hang
  | S rounds' =>
      out ← handler_round fuel c;
      match out with
      | Some _ => mret tt
      | None => fault_handler_main rounds' fuel c
      end
  end.

(** ** Checkpoints *)

Record DirtyPage := { page_idx : Z; data : list Z }.

Record Checkpoint := {
  dirty_pages : list DirtyPage;
  private_bitmap : list Z;
  merged_backend_bitmap : list Z }.

Definition dirty_bitmap (c : ClientInner) (w : World) : res Error (list Z) :=
  foldM (λ bitmap i,
           p ← vget (proc_meta w) i;
           if dirty p then bitmap_set bitmap i else Ok bitmap)
    (zreplicate (bitmap_words (page_count c)) 0) (zrange 0 (page_count c)).

Definition export_page (c : ClientInner) (w : World) (acc : list DirtyPage * list Z) (i : Z)
    : res Error (list DirtyPage * list Z) :=
  let '(pages, bitmap) := acc in
  p ← vget (proc_meta w) i;
  if negb (dirty p) then Ok (pages, bitmap)
  else
    bitmap' ← bitmap_set bitmap i;
    off ← umul i (page_size c);
    page_addr ← uadd (base_addr c) off;
    match load_bytes (k_view (kern w)) page_addr (page_size c) with
    | None => Hang
    | Some bs => Ok (pages ++ [{| page_idx := i; data := bs |}], bitmap')
    end.

Definition export (c : ClientInner) (w : World) : res Error Checkpoint :=
  '(pages, bitmap) ←
    foldM (export_page c w) ([], zreplicate (bitmap_words (page_count c)) 0)
      (zrange 0 (page_count c));
  Ok {| dirty_pages := pages; private_bitmap := bitmap;
        merged_backend_bitmap := Overlay.merged_bitmap (backend c) |}.

End code.

(** ** Geometry of a client *)

Record geom (c : ClientInner) : Prop := {
  g_pow : ∃ k, 0 ≤ k < 64 ∧ page_size c = 2 ^ k;
  g_count : 0 < page_count c;
  g_region : region_size c = page_size c * page_count c;
  g_base : (page_size c | base_addr c);
  g_base0 : 0 ≤ base_addr c;
  g_top : base_addr c + region_size c < 2 ^ 64;
  g_backend : Overlay.wf (backend c);
  g_backend_size : Overlay.page_size (backend c) = page_size c;
  g_backend_count : Overlay.page_count (backend c) = page_count c }.

(** The address of page [i], and the addresses of the whole region. *)
Definition page_addr (c : ClientInner) (i : Z) : Z := base_addr c + i * page_size c.
Definition in_page (c : ClientInner) (i a : Z) : Prop :=
  page_addr c i ≤ a < page_addr c i + page_size c.
Definition in_region (c : ClientInner) (a : Z) : Prop :=
  base_addr c ≤ a < base_addr c + region_size c.

Section geometry.
Context (c : ClientInner) (G : geom c).

Lemma g_size_pos : 0 < page_size c.
Proof. destruct (g_pow c G) as (k & Hk & ->). apply Z.pow_pos_nonneg; lia. Qed.

Lemma in_page_region i a : 0 ≤ i < page_count c → in_page c i a → in_region c a.
Proof.
  pose proof g_size_pos. unfold in_page, in_region, page_addr. rewrite (g_region c G). nia.
Qed.

Lemma in_page_index i a : in_page c i a ↔ (a - base_addr c) / page_size c = i.
Proof.
  pose proof g_size_pos. unfold in_page, page_addr. split.
  - intros Ha. symmetry. apply (Z.div_unique _ _ _ (a - base_addr c - i * page_size c)); lia.
  - intros <-. pose proof (Z.div_mod (a - base_addr c) (page_size c) ltac:(lia)).
    pose proof (Z.mod_pos_bound (a - base_addr c) (page_size c) ltac:(lia)). lia.
Qed.

Lemma in_region_index a :
  in_region c a → 0 ≤ (a - base_addr c) / page_size c < page_count c.
Proof.
  pose proof g_size_pos. unfold in_region. rewrite (g_region c G). intros Ha. split.
  - apply Z.div_pos; lia.
  - apply Z.div_lt_upper_bound; lia.
Qed.

Lemma page_addr_u64 i :
  0 ≤ i < page_count c →
  is_u64 (i * page_size c) ∧ is_u64 (base_addr c + i * page_size c).
Proof.
  intros Hi. pose proof g_size_pos. destruct G. unfold is_u64, U64_MAX in *. nia.
Qed.

Lemma page_index_ok a :
  in_region c a → page_index_from_addr c a = Ok ((a - base_addr c) / page_size c).
Proof.
  intros Ha. pose proof g_size_pos. pose proof (g_top c G). pose proof (g_base0 c G).
  unfold in_region in Ha. unfold page_index_from_addr.
  destruct (Z.ltb_spec a (base_addr c)); [lia|].
  rewrite uadd_ok by (unfold is_u64; lia). simpl.
  destruct (Z.leb_spec (base_addr c + region_size c) a); [lia|].
  apply udiv_ok. lia.
Qed.

Lemma page_index_outside a :
  ¬ in_region c a → ∃ msg, page_index_from_addr c a = Err (InvalidInput msg).
Proof.
  intros Ha. pose proof (g_top c G). pose proof (g_base0 c G). pose proof g_size_pos.
  pose proof (g_count c G). pose proof (g_region c G).
  unfold in_region in Ha. unfold page_index_from_addr.
  destruct (Z.ltb_spec a (base_addr c)); [eauto|].
  rewrite uadd_ok by (unfold is_u64; nia). simpl.
  destruct (Z.leb_spec (base_addr c + region_size c) a); [eauto|lia].
Qed.

Lemma page_start_ok a :
  in_region c a → page_start c a = Ok (page_addr c ((a - base_addr c) / page_size c)).
Proof.
  intros Ha. pose proof g_size_pos. pose proof (g_top c G). pose proof (g_base0 c G).
  unfold in_region in Ha. unfold page_start, page_addr.
  destruct (g_pow c G) as (k & Hk & Hp).
  assert (2 ^ k < 2 ^ 64) by (apply Z.pow_lt_mono_r; lia).
  rewrite usub_ok by (unfold is_u64; lia). simpl. f_equal.
  rewrite Hp, land_unot_pow2 by (unfold is_u64; lia). rewrite <-Hp.
  destruct (g_base c G) as [q Hq]. rewrite Hq.
  replace a with ((a - q * page_size c) + q * page_size c) at 2 by lia.
  rewrite Z_mod_plus_full. pose proof (Z.div_mod (a - q * page_size c) (page_size c)). lia.
Qed.

(** A fault address is resolved to the page that contains it: inside the region
    [page_index_from_addr] gives the index of the page whose address [page_start]
    computes by masking, the page contains the address and is one of the region's;
    outside it, the fault is an [InvalidInput] error.  Neither panics. *)
Theorem fault_page_spec a :
  if decide (in_region c a) then
    ∃ i, page_index_from_addr c a = Ok i ∧ page_start c a = Ok (page_addr c i) ∧
      0 ≤ i < page_count c ∧ in_page c i a
  else ∃ msg, page_index_from_addr c a = Err (InvalidInput msg).
Proof.
  case_decide as Ha; [|by apply page_index_outside].
  eexists. split; [by apply page_index_ok|]. split; [by apply page_start_ok|].
  split; [by apply in_region_index|]. by apply in_page_index.
Qed.
End geometry.

Definition demo_client : ClientInner :=
  {| uffd := 9; base_addr := 64; region_size := 12; page_size := 4; page_count := 3;
     backend := Overlay.demo_backend |}.

Lemma demo_client_geom : geom demo_client.
Proof.
  split; try done.
  - exists 2. done.
  - exists 16. done.
  - apply Overlay.demo_backend_wf.
Qed.

Lemma fault_page_spec_witness :
  page_index_from_addr demo_client 74 = Ok 2 ∧ page_start demo_client 74 = Ok 72.
Proof.
  pose proof (fault_page_spec demo_client demo_client_geom 74) as H.
  rewrite decide_True in H by (unfold in_region; simpl; lia).
  destruct H as (i & Hi & Hs & Hr & Hp). vm_compute in Hi. injection Hi as <-.
  split; [reflexivity|exact Hs].
Defined.

(** ** Running the operations *)

(** [world_eq]: same metadata, flags and stop flag, and an equivalent address
    space. *)
Record world_eq `{K : Kernel} (w w' : World) : Prop := {
  we_view : k_view (kern w') ≡ k_view (kern w);
  we_meta : meta w' = meta w;
  we_proc : proc_meta w' = proc_meta w;
  we_stop : stop w' = stop w }.

Section ops.
Context `{K : Kernel, !KernelOk K} (env : World → World).
Implicit Types w : World.

Lemma state_load_run w i m : znth (meta w) i = Some m → state_load i w = (Ok (state m), w).
Proof. intros Hm. unfold state_load. by rewrite (proj2 (vget_Ok _ _ _) Hm). Qed.

Lemma state_store_run w i v m :
  znth (meta w) i = Some m →
  state_store i v w =
    (Ok tt, set_meta (zset (meta w) i {| state := v; backend_offset := backend_offset m |}) w).
Proof. intros Hm. unfold state_store. by rewrite Hm. Qed.

Lemma cas_run w i cur new m :
  znth (meta w) i = Some m →
  compare_exchange i cur new w =
    if state m =? cur
    then (Ok (inr (state m)),
          set_meta (zset (meta w) i {| state := new; backend_offset := backend_offset m |}) w)
    else (Ok (inl (state m)), w).
Proof.
  intros Hm. unfold compare_exchange. rewrite (m_bind_run _ _ _ _ _ (state_load_run w i m Hm)).
  destruct (state m =? cur); [|done].
  by rewrite (m_bind_run _ _ _ _ _ (state_store_run w i new m Hm)).
Qed.

Lemma wake_page_kern c a w :
  ∃ r k', wake_page c a w = (r, set_kern k' w) ∧ k_view k' ≡ k_view (kern w) ∧
    (r = Ok tt ∨ ∃ e, r = Err (Io (Os e))).
Proof.
  unfold wake_page, on_kern, m_map_err, uffdio_wake, mbind, M_bind, ioctl_io.
  destruct (k_ioctl _ _ _ _) as [[e|x] k] eqn:Hk; simpl;
    apply k_wake_view in Hk; (eexists _, _; split; [done|]; split; [done|]); eauto.
Qed.

Lemma wake_page_run c a w :
  ∃ r w', wake_page c a w = (r, w') ∧ world_eq w w' ∧ (r = Ok tt ∨ ∃ e, r = Err (Io (Os e))).
Proof. destruct (wake_page_kern c a w) as (r & k & H & Hv & Hr). eexists _, _. by split. Qed.

Lemma uffdio_copy_run fd a bs n m k :
  ∃ r k', uffdio_copy fd a bs n m k = (r, k') ∧
    ((r = Ok tt ∧ as_mem (k_view k) a = None ∧
      k_view k' ≡ copy_view a bs n (Z.testbit m 1) (k_view k)) ∨
     (∃ e, r = Err (Os e) ∧ k_view k' ≡ k_view k ∧
        (e = EEXIST → is_Some (as_mem (k_view k) a)))).
Proof.
  unfold uffdio_copy, mbind, M_bind, ioctl_io.
  destruct (k_ioctl _ _ _ _) as [[e|x] k'] eqn:Hk; simpl.
  - apply k_copy_err in Hk as [Hv He]. eexists _, _. split; [done|]. right. eauto.
  - apply k_copy_ok in Hk as [Hn Hv]. eexists _, _. split; [done|]. left. done.
Qed.

(** The content the template has for page [i]: that page of the topmost layer. *)
Definition backend_page (c : ClientInner) (i : Z) (bs : list Z) : Prop :=
  ∃ l, Overlay.top_layer (Overlay.layers (backend c)) i = Some l ∧
    bs = slice (k_file (Overlay.file l)) (i * page_size c) (page_size c) ∧
    i * page_size c + page_size c ≤ zlen (k_file (Overlay.file l)).

Lemma read_page_run fuel c i k :
  geom c → 0 ≤ i < page_count c → (Z.to_nat (page_size c) + k_intr k ≤ fuel)%nat →
  ∃ r k', Overlay.read_page fuel (backend c) i (page_size c) k = (r, k') ∧
    k_view k' ≡ k_view k ∧
    ((∃ loc bs, r = Ok (loc, bs) ∧ backend_page c i bs) ∨ ∃ e, r = Err e).
Proof.
  intros G Hi Hf.
  destruct (Overlay.read_page_total fuel (backend c) i (page_size c) k) as (r & k' & Hr & Hv & Hc).
  { apply G. } { lia. } { by rewrite (g_backend_size c G). }
  exists r, k'. split; [done|]. split; [done|].
  rewrite (g_backend_size c G), Z.eqb_refl, (g_backend_count c G) in Hc. simpl in Hc.
  destruct (Z.leb_spec (page_count c) i); [lia|].
  destruct (Overlay.top_layer _ _) as [l|] eqn:Hl; [|eauto].
  destruct Hc as (r' & [[-> Hle]|[[-> _]|(e & _ & ->)]] & ->); simpl; eauto.
  left. eexists _, _. split; [done|]. by exists l.
Qed.

(** What resolving a missing page as its loader leaves behind. *)
Definition loader_result (c : ClientInner) (i : Z) (m : TemplatePageMeta) (w : World)
    (r : res Error unit) (w' : World) : Prop :=
  proc_meta w' = proc_meta w ∧ stop w' = stop w ∧
  match r with
  | Ok _ =>
      meta w' = zset (meta w) i {| state := STATE_SHARED_READY; backend_offset := backend_offset m |} ∧
      ((as_mem (k_view (kern w)) (page_addr c i) = None ∧
        ∃ bs, backend_page c i bs ∧
          k_view (kern w') ≡ copy_view (page_addr c i) bs (page_size c) true (k_view (kern w))) ∨
       (is_Some (as_mem (k_view (kern w)) (page_addr c i)) ∧
        k_view (kern w') ≡ k_view (kern w)))
  | Err _ =>
      meta w' = zset (meta w) i {| state := STATE_LOADING; backend_offset := backend_offset m |} ∧
      k_view (kern w') ≡ k_view (kern w)
  | _ => False
  end.

Lemma loader_run fuel c a w m :
  geom c → in_region c a →
  let i := (a - base_addr c) / page_size c in
  znth (meta w) i = Some m → state m = STATE_UNLOADED →
  (Z.to_nat (page_size c) + k_intr (kern w) ≤ fuel)%nat →
  ∃ r w', handle_missing_fault env fuel c a w = (r, w') ∧ loader_result c i m w r w'.
Proof.
  intros G Ha i Hm Hs Hf. pose proof (in_region_index c G a Ha) as Hi. fold i in Hi.
  unfold handle_missing_fault.
  rewrite (m_bind_run _ _ w i w) by (unfold lift; by rewrite page_index_ok).
  rewrite (m_bind_run _ _ w (page_addr c i) w) by (unfold lift; by rewrite page_start_ok).
  pose proof (cas_run w i STATE_UNLOADED STATE_LOADING m Hm) as Hcas.
  rewrite Hs, Z.eqb_refl in Hcas. rewrite (m_bind_run _ _ _ _ _ Hcas). clear Hcas.
  set (w1 := set_meta _ w).
  assert (znth (meta w1) i = Some {| state := STATE_LOADING; backend_offset := backend_offset m |}) as Hm1.
  { simpl. rewrite znth_zset by (by eapply znth_Some_lt). by rewrite Z.eqb_refl. }
  destruct (read_page_run fuel c i (kern w1) G Hi Hf) as (r & k1 & Hr & Hv1 & Hc).
  assert (on_kern (Overlay.read_page fuel (backend c) i (page_size c)) w1 = (r, set_kern k1 w1)) as Hok
    by (unfold on_kern; by rewrite Hr).
  destruct Hc as [(loc & bs & -> & Hb) | [e ->]].
  2: { rewrite (m_bind_err _ _ _ _ _ Hok). eexists _, _. split; [done|]. done. }
  rewrite (m_bind_run _ _ _ _ _ Hok). clear Hok Hr. set (w2 := set_kern k1 w1).
  destruct (uffdio_copy_run (uffd c) (page_addr c i) bs (page_size c) UFFDIO_COPY_MODE_WP k1)
    as (r2 & k2 & Hr2 & Hc2).
  unfold try_, on_kern at 1. unfold mbind at 1, M_bind at 1. change (kern w2) with k1. rewrite Hr2.
  destruct Hc2 as [(-> & Hn & Hv2) | (e & -> & Hv2 & He)].
  - cbv beta iota. simpl mret. unfold mbind, M_bind, mret, M_ret.
    rewrite (state_store_run (set_kern k2 w2) i _ _ Hm1). eexists _, _. split; [done|].
    split; [done|]. split; [done|]. simpl. rewrite zset_zset. split; [done|]. left.
    destruct (Hv1 (page_addr c i)) as (Hx & _). rewrite Hx in Hn. split; [done|].
    exists bs. split; [done|]. by rewrite Hv2, Hv1.
  - cbv beta iota. case_bool_decide as Hex.
    + simpl in Hex. injection Hex as ->.
      destruct (wake_page_run c (page_addr c i) (set_kern k2 w2)) as (r3 & w3 & Hr3 & Hw3 & Hc3).
      unfold mbind, M_bind. rewrite Hr3. destruct Hw3 as [V1 V2 V3 V4]. simpl in V1, V2, V3, V4.
      rewrite Hv2, Hv1 in V1.
      destruct Hc3 as [->|[e ->]].
      * rewrite (state_store_run _ i _ {| state := STATE_LOADING; backend_offset := backend_offset m |})
          by (by rewrite V2).
        eexists _, _. split; [done|]. split; [done|]. split; [done|]. simpl.
        rewrite V2, zset_zset. split; [done|]. right.
        destruct (Hv1 (page_addr c i)) as (Hx & _). specialize (He eq_refl). rewrite Hx in He. done.
      * eexists _, _. split; [done|]. done.
    + unfold mbind, M_bind, fail. eexists _, _. split; [done|]. split; [done|]. split; [done|]. simpl.
      split; [done|]. by rewrite Hv2, Hv1.
Qed.

(** ** Waiting for another loader *)

Definition st (w : World) (i : Z) : option Z := state <$> znth (meta w) i.

Lemma wait_ready_run n fuel i w :
  (n < fuel)%nat →
  st (Nat.iter n env w) i = Some STATE_SHARED_READY →
  (∀ j, (j < n)%nat → ∃ v, st (Nat.iter j env w) i = Some v ∧ v ≠ STATE_SHARED_READY) →
  wait_ready env fuel i w = (Ok tt, Nat.iter n env w).
Proof.
  revert w fuel. induction n as [|n IH]; intros w fuel Hf Hr Hw.
  - destruct fuel as [|fuel]; [lia|]. simpl. unfold st in Hr. simpl in Hr.
    destruct (znth (meta w) i) as [m|] eqn:Hm; [|done]. injection Hr as Hr.
    rewrite (m_bind_run _ _ _ _ _ (state_load_run w i m Hm)), Hr, Z.eqb_refl. done.
  - destruct fuel as [|fuel]; [lia|]. cbn [wait_ready].
    destruct (Hw 0%nat ltac:(lia)) as (v & Hv & Hne). unfold st in Hv. simpl in Hv.
    destruct (znth (meta w) i) as [m|] eqn:Hm; [|done]. injection Hv as Hv.
    rewrite (m_bind_run _ _ _ _ _ (state_load_run w i m Hm)), Hv.
    destruct (Z.eqb_spec v STATE_SHARED_READY); [done|].
    rewrite (m_bind_run _ _ w tt (env w)) by done.
    rewrite Nat.iter_succ_r. apply IH; [lia| |].
    + by rewrite <-Nat.iter_succ_r.
    + intros j Hj. rewrite <-Nat.iter_succ_r. apply Hw. lia.
Qed.

Lemma wait_ready_hang fuel i w :
  (∀ j, ∃ v, st (Nat.iter j env w) i = Some v ∧ v ≠ STATE_SHARED_READY) →
  ∃ w', wait_ready env fuel i w = (Hang, w').
Proof.
  revert w. induction fuel as [|fuel IH]; intros w Hw; [by eexists|]. cbn [wait_ready].
  destruct (Hw 0%nat) as (v & Hv & Hne). unfold st in Hv. simpl in Hv.
  destruct (znth (meta w) i) as [m|] eqn:Hm; [|done]. injection Hv as Hv.
  rewrite (m_bind_run _ _ _ _ _ (state_load_run w i m Hm)), Hv.
  destruct (Z.eqb_spec v STATE_SHARED_READY); [done|].
  rewrite (m_bind_run _ _ w tt (env w)) by done. apply IH.
  intros j. rewrite <-Nat.iter_succ_r. apply Hw.
Qed.

(** The handler up to its compare-exchange, for a page that is not UNLOADED. *)
Lemma missing_cas_failed fuel c a w m :
  geom c → in_region c a →
  let i := (a - base_addr c) / page_size c in
  znth (meta w) i = Some m → state m ≠ STATE_UNLOADED →
  handle_missing_fault env fuel c a w =
    (if state m =? STATE_LOADING then
       (_ ← wait_ready env fuel i; wake_page c (page_addr c i)) w
     else if state m =? STATE_SHARED_READY then wake_page c (page_addr c i) w
     else (Err (KernelErr ("unexpected template page state " +:+ pretty (state m)
                           +:+ " for page " +:+ pretty i)), w)).
Proof.
  intros G Ha i Hm Hs. unfold handle_missing_fault.
  rewrite (m_bind_run _ _ w i w) by (unfold lift; by rewrite page_index_ok).
  rewrite (m_bind_run _ _ w (page_addr c i) w) by (unfold lift; by rewrite page_start_ok).
  pose proof (cas_run w i STATE_UNLOADED STATE_LOADING m Hm) as Hcas.
  destruct (Z.eqb_spec (state m) STATE_UNLOADED); [done|].
  rewrite (m_bind_run _ _ _ _ _ Hcas).
  destruct (state m =? STATE_LOADING); [done|]. by destruct (state m =? STATE_SHARED_READY).
Qed.

End ops.

(** ** Copy on write *)
Section cow.
Context `{K : Kernel, !KernelOk K}.

(** The effect of a completed copy on write of page [i] as the client sees it:
    contents unchanged everywhere, the page private and no longer protected. *)
Definition cow_done (c : ClientInner) (i : Z) (v v' : AddrSpace) : Prop :=
  ∀ x, in_region c x →
    as_mem v' x = as_mem v x ∧ as_mapped v' x = true ∧
    as_private v' x = (if within (page_addr c i) (page_size c) x then true else as_private v x) ∧
    as_wp v' x = (if within (page_addr c i) (page_size c) x then false else as_wp v x).

(** An abandoned copy on write: contents and privacy unchanged, and only the
    protection of page [i] may be gone. *)
Definition cow_abandoned (c : ClientInner) (i : Z) (v v' : AddrSpace) : Prop :=
  ∀ x, in_region c x →
    as_mem v' x = as_mem v x ∧ as_mapped v' x = true ∧ as_private v' x = as_private v x ∧
    (¬ in_page c i x → as_wp v' x = as_wp v x).

Lemma copy_from_run w a n bs :
  load_bytes (k_view (kern w)) a n = Some bs → copy_from a n w = (Ok bs, w).
Proof. intros H. unfold copy_from. by rewrite H. Qed.

Lemma copy_to_run w a bs :
  writable (k_view (kern w)) a (zlen bs) = true →
  copy_to a bs w = (Ok tt, set_kern (k_store a bs (kern w)) w) ∧
  k_view (k_store a bs (kern w)) ≡ store_view a bs (k_view (kern w)).
Proof. intros H. unfold copy_to. rewrite H. split; [done|]. by apply k_store_ok. Qed.

(** Unmapping the snapshot leaves the client's region as it is. *)
Lemma munmap_ignore_run p n w :
  ∃ r k', munmap_ignore p n w = (Ok r, set_kern k' w) ∧
    ∀ x, within p n x = false → agree_at (k_view k') (k_view (kern w)) x.
Proof.
  unfold munmap_ignore. destruct (k_munmap p n (kern w)) as [[e|[]] k'] eqn:Hu.
  - do 2 eexists. split; [done|]. intros x _. apply (k_munmap_err _ _ _ _ _ Hu).
  - do 2 eexists. split; [done|]. intros x Hx.
    apply (agree_at_trans _ _ _ _ (k_munmap_ok _ _ _ _ Hu x)). unfold agree_at. simpl. by rewrite Hx.
Qed.

Lemma mark_private_dirty_run w i :
  0 ≤ i < zlen (proc_meta w) →
  mark_private_dirty i w =
    (Ok tt, set_proc (zset (proc_meta w) i {| is_private := true; dirty := true |}) w).
Proof.
  intros Hi. unfold mark_private_dirty. by rewrite vset_ok.
Qed.

(** The region of the client is mapped, and its bookkeeping has one entry per page. *)
Definition laid_out (c : ClientInner) (w : World) : Prop :=
  zlen (meta w) = page_count c ∧ zlen (proc_meta w) = page_count c ∧
  ∀ x, in_region c x → as_mapped (k_view (kern w)) x = true.

(** The part of [handle_wp_fault] after the protection is cleared. *)
Definition cow_replace (c : ClientInner) (i aligned snapshot : Z) : M World Error unit :=
  mapped ← try_ (on_kern (λ k, match k_mmap aligned (page_size c) PROT_RW
                                       (Z.lor MAP_PRIVATE_ANON MAP_FIXED) (-1) 0 k with
                               | (inl e, k') => (Err e, k')
                               | (inr p, k') => (Ok p, k')
                               end));
  match mapped with
  | inl errno =>
      un ← munmap_ignore snapshot (page_size c);
      fail (os_err "mmap private page over shared mapping" (default errno un))
  | inr private_page =>
      bs' ← copy_from snapshot (page_size c);
      _ ← copy_to private_page bs';
      _ ← munmap_ignore snapshot (page_size c);
      _ ← mark_private_dirty i;
      wake_page c aligned
  end.

(** Outcome of [cow_replace] from a world [w] whose snapshot at [p] holds [bs]. *)
Lemma cow_replace_run c i p bs w :
  geom c → 0 ≤ i < page_count c → zlen (proc_meta w) = page_count c →
  load_bytes (k_view (kern w)) p (page_size c) = Some bs →
  (∀ x, in_region c x → within p (page_size c) x = false) →
  (∃ e k', cow_replace c i (page_addr c i) p w = (Err e, set_kern k' w) ∧
     ∀ x, in_region c x → agree_at (k_view k') (k_view (kern w)) x) ∨
  (∃ r k', cow_replace c i (page_addr c i) p w =
       (r, set_kern k' (set_proc (zset (proc_meta w) i {| is_private := true; dirty := true |}) w)) ∧
     (r = Ok tt ∨ ∃ e, r = Err (Io e)) ∧
     ∀ x, in_region c x →
       agree_at (k_view k') (cow_view (page_addr c i) (page_size c) bs (k_view (kern w))) x).
Proof.
  intros G Hi Hp Hbs Hdis. unfold cow_replace.
  set (a := page_addr c i). set (n := page_size c).
  destruct (k_mmap a n PROT_RW (Z.lor MAP_PRIVATE_ANON MAP_FIXED) (-1) 0 (kern w))
    as [[e|q] k1] eqn:Hmm.
  { left. pose proof (k_mmap_err _ _ _ _ _ _ _ _ _ Hmm) as Hv.
    rewrite (m_bind_run _ _ w (inl e) (set_kern k1 w)) by (unfold try_, on_kern; by rewrite Hmm).
    destruct (munmap_ignore_run p n (set_kern k1 w)) as (r & k2 & Hu & Hv2).
    rewrite (m_bind_run _ _ _ _ _ Hu). do 2 eexists. split; [done|]. intros x Hx.
    apply (agree_at_trans _ _ _ _ (Hv2 x (Hdis x Hx)) (Hv x)). }
  right. apply k_mmap_fixed_ok in Hmm as Hmm'. destruct Hmm' as [-> Hv].
  rewrite (m_bind_run _ _ w (inr a) (set_kern k1 w)) by (unfold try_, on_kern; by rewrite Hmm).
  pose proof (g_size_pos c G) as Hn. fold n in Hn.
  assert (∀ x, within a n x = true → in_region c x) as Hreg.
  { intros x Hx. apply within_spec in Hx. apply (in_page_region c G i x Hi). exact Hx. }
  destruct (proj1 (load_bytes_Some _ _ _ _ (Z.lt_le_incl _ _ Hn)) Hbs) as [Hbl _].
  rewrite (m_bind_run _ _ (set_kern k1 w) bs (set_kern k1 w)).
  2: { apply copy_from_run. rewrite <-Hbs. apply load_bytes_agree. simpl. intros x Hx.
       destruct (Hv x) as (->&_). simpl. destruct (within a n x) eqn:Hw; [|done].
       specialize (Hdis x (Hreg x Hw)). apply within_false in Hdis. fold n in Hdis. lia. }
  destruct (copy_to_run (set_kern k1 w) a bs) as [Hc Hv2].
  { apply writable_intro. simpl. intros x Hx. destruct (Hv x) as (->&->&_). simpl.
    rewrite (proj2 (within_spec a n x)) by lia. done. }
  rewrite (m_bind_run _ _ _ _ _ Hc). set (k2 := k_store a bs _) in *.
  destruct (munmap_ignore_run p n (set_kern k2 (set_kern k1 w))) as (r & k3 & Hu & Hv3).
  rewrite (m_bind_run _ _ _ _ _ Hu). set (w3 := set_kern k3 _).
  rewrite (m_bind_run _ _ _ _ _ (mark_private_dirty_run w3 i ltac:(simpl; lia))).
  match goal with |- context [wake_page c a ?w'] =>
    destruct (wake_page_kern c a w') as (r' & k4 & Hw & Hv4 & Hr) end.
  exists r', k4. split; [exact Hw|]. split; [naive_solver|]. intros x Hx.
  apply (agree_at_trans _ _ _ _ (Hv4 x)), (agree_at_trans _ _ _ _ (Hv3 x (Hdis x Hx))).
  apply (agree_at_trans _ _ _ _ (Hv2 x)). unfold cow_view. fold a n. simpl.
  by apply (store_view_proper a bs _ _ Hv).
Qed.

(** The outcome of a write fault on a present page. *)
Definition cow_result (c : ClientInner) (i : Z) (w : World) (r : res Error unit) (w' : World) : Prop :=
  meta w' = meta w ∧ stop w' = stop w ∧
  ((proc_meta w' = zset (proc_meta w) i {| is_private := true; dirty := true |} ∧
    (r = Ok tt ∨ ∃ e, r = Err (Io e)) ∧ cow_done c i (k_view (kern w)) (k_view (kern w'))) ∨
   (proc_meta w' = proc_meta w ∧ (∃ e, r = Err e) ∧
    cow_abandoned c i (k_view (kern w)) (k_view (kern w')))).

Lemma uffdio_writeprotect_run fd a n m k :
  ∃ r k', uffdio_writeprotect fd a n m k = (r, k') ∧
    ((r = Ok tt ∧ k_view k' ≡ wp_view a n (Z.testbit m 0) (k_view k)) ∨
     (∃ e, r = Err e) ∧ k_view k' ≡ k_view k).
Proof.
  unfold uffdio_writeprotect, mbind, M_bind, ioctl_io.
  destruct (k_ioctl _ _ _ _) as [[e|x] k'] eqn:Hk; simpl.
  - apply k_wp_err in Hk. eexists _, _. split; [done|]. right. eauto.
  - apply k_wp_ok in Hk. eexists _, _. split; [done|]. left. done.
Qed.

(** The snapshot: the page's bytes copied to a fresh page outside the region. *)
Lemma snapshot_run c i w bs p k1 :
  geom c → 0 ≤ i < page_count c → laid_out c w →
  load_bytes (k_view (kern w)) (page_addr c i) (page_size c) = Some bs →
  k_mmap 0 (page_size c) PROT_RW MAP_PRIVATE_ANON (-1) 0 (kern w) = (inr p, k1) →
  (∀ x, in_region c x → within p (page_size c) x = false) ∧
  copy_from (page_addr c i) (page_size c) (set_kern k1 w) = (Ok bs, set_kern k1 w) ∧
  ∃ k2, copy_to p bs (set_kern k1 w) = (Ok tt, set_kern k2 (set_kern k1 w)) ∧
    load_bytes (k_view k2) p (page_size c) = Some bs ∧
    ∀ x, in_region c x → agree_at (k_view k2) (k_view (kern w)) x.
Proof.
  intros G Hi (_ & _ & Hmap) Hbs Hmm. pose proof (g_size_pos c G) as Hn.
  apply k_mmap_anon_ok in Hmm as [Hfree Hv].
  assert (∀ x, in_region c x → within p (page_size c) x = false) as Hdis.
  { intros x Hx. destruct (within p (page_size c) x) eqn:Hw; [|done].
    apply Hfree in Hw. rewrite Hmap in Hw by done. done. }
  assert (∀ x, in_region c x → agree_at (k_view k1) (k_view (kern w)) x) as Hag.
  { intros x Hx. apply (agree_at_trans _ _ _ _ (Hv x)). unfold agree_at. simpl. by rewrite Hdis. }
  destruct (proj1 (load_bytes_Some _ _ _ _ (Z.lt_le_incl _ _ Hn)) Hbs) as [Hbl _].
  split; [done|]. split.
  { apply copy_from_run. rewrite <-Hbs. apply load_bytes_agree. intros x Hx.
    apply (Hag x). apply (in_page_region c G i x Hi). exact Hx. }
  destruct (copy_to_run (set_kern k1 w) p bs) as [Hc Hv2].
  { apply writable_intro. simpl. intros x Hx. destruct (Hv x) as (->&->&_). simpl.
    rewrite (proj2 (within_spec p _ x)) by lia. done. }
  eexists. split; [exact Hc|]. split.
  - rewrite Hv2. by apply load_store_view.
  - intros x Hx. apply (agree_at_trans _ _ _ _ (Hv2 x)). refine (agree_at_trans _ _ _ _ _ (Hag x Hx)).
    unfold agree_at. simpl. by rewrite Hbl, Hdis.
Qed.

(** [cow_view] of the bytes already there is a completed copy on write. *)
Lemma cow_view_done c i w bs v v' v0 :
  geom c → 0 ≤ i < page_count c → laid_out c w →
  v0 = k_view (kern w) →
  load_bytes v0 (page_addr c i) (page_size c) = Some bs →
  (∀ x, in_region c x → agree_at v (wp_view (page_addr c i) (page_size c) false v0) x) →
  (∀ x, in_region c x → agree_at v' (cow_view (page_addr c i) (page_size c) bs v) x) →
  cow_done c i v0 v'.
Proof.
  intros G Hi (_ & _ & Hmap) -> Hbs Hv Hv' x Hx. pose proof (g_size_pos c G) as Hn.
  apply load_bytes_Some in Hbs as [Hbl Hb]; [|lia].
  destruct (Hv' x Hx) as (->&->&->&->), (Hv x Hx) as (Hm&Hw&Hp&Hmp). simpl in *. rewrite Hbl.
  rewrite Hm, Hw, Hp, Hmp, (Hmap x Hx).
  destruct (within (page_addr c i) (page_size c) x) eqn:Hin; [|done].
  apply within_spec in Hin. destruct (Hb (x - page_addr c i)) as (b & Hb1 & Hb2); [lia|].
  replace (page_addr c i + (x - page_addr c i)) with x in Hb1 by lia. by rewrite Hb1, Hb2.
Qed.

Lemma wp_run c a w bs :
  geom c → in_region c a → laid_out c w →
  let i := (a - base_addr c) / page_size c in
  load_bytes (k_view (kern w)) (page_addr c i) (page_size c) = Some bs →
  ∃ r w', handle_wp_fault c a w = (r, w') ∧ cow_result c i w r w'.
Proof.
  intros G Ha L i Hbs. pose proof (in_region_index c G a Ha) as Hi. fold i in Hi.
  pose proof L as (_ & Hpl & Hmap). unfold handle_wp_fault.
  rewrite (m_bind_run _ _ w i w) by (unfold lift; by rewrite page_index_ok).
  rewrite (m_bind_run _ _ w (page_addr c i) w) by (unfold lift; by rewrite page_start_ok).
  destruct (k_mmap 0 (page_size c) PROT_RW MAP_PRIVATE_ANON (-1) 0 (kern w)) as [[e|p] k1] eqn:Hmm.
  { pose proof (k_mmap_err _ _ _ _ _ _ _ _ _ Hmm) as Hv.
    erewrite m_bind_err by (unfold on_kern, sys; by rewrite Hmm).
    eexists _, _. split; [done|]. split; [done|]. split; [done|]. right. split; [done|].
    split; [eauto|]. intros x Hx. destruct (Hv x) as (?&?&?&?). simpl. rewrite <-(Hmap x Hx). naive_solver. }
  rewrite (m_bind_run _ _ w p (set_kern k1 w)) by (unfold on_kern, sys; by rewrite Hmm).
  destruct (snapshot_run c i w bs p k1 G Hi L Hbs Hmm) as (Hdis & Hcf & k2 & Hct & Hl2 & Hag2).
  rewrite (m_bind_run _ _ _ _ _ Hcf), (m_bind_run _ _ _ _ _ Hct). set (w2 := set_kern k2 _).
  destruct (uffdio_writeprotect_run (uffd c) (page_addr c i) (page_size c)
              UFFDIO_WRITEPROTECT_MODE_DONTWAKE k2) as (r & k3 & Hwp & [[-> Hv3]|[[e ->] Hv3]]).
  2: { erewrite m_bind_err by (unfold on_kern, m_map_err; change (kern w2) with k2; by rewrite Hwp).
       eexists _, _. split; [done|]. split; [done|]. split; [done|]. right. split; [done|].
       split; [eauto|]. intros x Hx. simpl. rewrite <-(Hmap x Hx).
       destruct (agree_at_trans _ _ _ _ (Hv3 x) (Hag2 x Hx)) as (?&?&?&?). naive_solver. }
  rewrite (m_bind_run _ _ w2 tt (set_kern k3 w2))
    by (unfold on_kern, m_map_err; change (kern w2) with k2; by rewrite Hwp).
  set (w3 := set_kern k3 w2).
  assert (∀ x, in_region c x →
    agree_at (k_view k3) (wp_view (page_addr c i) (page_size c) false (k_view (kern w))) x) as Hag3.
  { intros x Hx. apply (agree_at_trans _ _ _ _ (Hv3 x)). destruct (Hag2 x Hx) as (?&?&?&?).
    unfold agree_at. simpl. by case_match. }
  destruct (cow_replace_run c i p bs w3 G Hi Hpl) as [(e & k4 & Hrun & Hag4)|(r & k4 & Hrun & Hr & Hag4)];
    [by rewrite <-Hl2; apply load_bytes_agree; intros x _; apply (Hv3 x)|done| |];
    (eexists _, _; split; [exact Hrun|]; split; [done|]; split; [done|]).
  - right. split; [done|]. split; [eauto|]. intros x Hx. rewrite <-(Hmap x Hx). simpl.
    destruct (agree_at_trans _ _ _ _ (Hag4 x Hx) (Hag3 x Hx)) as (->&->&->&->). simpl.
    split; [done|]. split; [done|]. split; [done|]. intros Hnp.
    rewrite (proj2 (within_false _ _ x)); [done|]. exact Hnp.
  - left. split; [done|]. split; [done|].
    exact (cow_view_done c i w bs _ _ _ G Hi L eq_refl Hbs Hag3 Hag4).
Qed.

End cow.

End TemplateClient.
