(* ===== verification/TemplateSession.v ===== *)
(** * A client session: faults, guest stores and checkpoints

    Theorems about [TemplateClient]: what one fault does to the client's pages,
    the invariant a whole session keeps while the handler thread and the guest
    take turns, and what a checkpoint of such a session contains.  The session
    is the one of a client that is alone on its template region; what other clients
    of the same [memfd] do to the shared metadata enters only the theorem on waiting
    for a page that is loaded elsewhere.  The guest stores between two rounds of the
    handler: stores of other threads between the clearing of the protection and the
    remapping of a page, which would be lost, are not runs of the session. *)

From S2P Require Import Prelude Bitmap Kernel Overlay TemplateClient.

Module TemplateSession.
Import Bitmap TemplateClient.
Import Overlay (Error, Io, InvalidInput, KernelErr, Thread, OverlayBackend).

(** ** Definitions *)
Section defs.
Context `{K : Kernel}.

(** A page of the region, with its shared state and its per-process record. *)
Inductive page_ok (c : ClientInner) (v : AddrSpace) (i : Z) : Z → ProcPageMeta → Prop :=
  | page_missing :
      (∀ x, in_page c i x → as_mem v x = None ∧ as_private v x = false) →
      page_ok c v i STATE_UNLOADED {| is_private := false; dirty := false |}
  | page_clean bs :
      backend_page c i bs →
      (∀ x, in_page c i x →
         as_mem v x = znth bs (x - page_addr c i) ∧ as_private v x = false ∧ as_wp v x = true) →
      page_ok c v i STATE_SHARED_READY {| is_private := false; dirty := false |}
  | page_dirty :
      (∀ x, in_page c i x → is_Some (as_mem v x) ∧ as_private v x = true ∧ as_wp v x = false) →
      page_ok c v i STATE_SHARED_READY {| is_private := true; dirty := true |}.

Definition inv (c : ClientInner) (w : World) : Prop :=
  laid_out c w ∧
  ∀ i, 0 ≤ i < page_count c → ∃ m p,
    znth (meta w) i = Some m ∧ znth (proc_meta w) i = Some p ∧
    page_ok c (k_view (kern w)) i (state m) p.

(** What still holds once the handler has given up: no page shows anything but
    what the template or the guest put there. *)
Definition contents_ok (c : ClientInner) (w : World) : Prop :=
  ∀ i p, 0 ≤ i < page_count c → znth (proc_meta w) i = Some p →
    dirty p = false →
    (∀ x, in_page c i x → as_mem (k_view (kern w)) x = None) ∨
    ∃ bs, backend_page c i bs ∧
      ∀ x, in_page c i x → as_mem (k_view (kern w)) x = znth bs (x - page_addr c i).

(** The guest and the handler taking turns. *)
Inductive session_step (env : World → World) (c : ClientInner) : World → World → Prop :=
  | step_round fuel o w w' :
      (Z.to_nat (page_size c) + k_intr (kern w) ≤ fuel)%nat →
      handler_round env fuel c w = (Ok o, w') →
      session_step env c w w'
  | step_store a bs w :
      (∀ x, a ≤ x < a + zlen bs → in_region c x) →
      writable (k_view (kern w)) a (zlen bs) = true →
      session_step env c w (set_kern (k_store a bs (kern w)) w)
  | step_stop w :
      session_step env c w {| kern := kern w; meta := meta w; proc_meta := proc_meta w; stop := true |}.

(** The content of page [i] as a restore from the checkpoint over the template
    would put it back. *)
Definition restored_page (c : ClientInner) (ck : Checkpoint) (i : Z) (bs : list Z) : Prop :=
  match list_find (λ p, page_idx p = i) (dirty_pages ck) with
  | Some (_, p) => bs = data p
  | None => backend_page c i bs
  end.

End defs.

(** ** Lemmas *)
Section lemmas.
Context `{K : Kernel, !KernelOk K}.
Implicit Types (c : ClientInner) (w : World) (v : AddrSpace).

Lemma in_page_disjoint c i j x : geom c → in_page c i x → in_page c j x → i = j.
Proof. intros G Hi Hj. apply (in_page_index c G) in Hi, Hj. congruence. Qed.

(** [page_ok] only looks at its own page. *)
Lemma page_ok_agree c v v' i s p :
  (∀ x, in_page c i x → agree_at v' v x) → page_ok c v i s p → page_ok c v' i s p.
Proof.
  intros Hag [Hx|bs Hb Hx|Hx]; [apply page_missing|apply (page_clean _ _ _ bs Hb)|apply page_dirty];
    intros x Hin; destruct (Hag x Hin) as (?&?&?&_); specialize (Hx x Hin); intuition congruence.
Qed.

Lemma backend_page_len c i bs : geom c → 0 ≤ i → backend_page c i bs → zlen bs = page_size c.
Proof.
  intros G Hi (l & _ & -> & Hl). pose proof (g_size_pos c G). apply zlen_slice; nia.
Qed.

(** A page is present as a whole or not at all, and then its state is READY. *)
Lemma page_ok_present c v i s p a :
  geom c → 0 ≤ i → page_ok c v i s p → in_page c i a → is_Some (as_mem v a) →
  s = STATE_SHARED_READY ∧ ∃ bs, load_bytes v (page_addr c i) (page_size c) = Some bs.
Proof.
  intros G Hi Hp Ha Hs.
  assert (s = STATE_SHARED_READY ∧ ∀ x, in_page c i x → is_Some (as_mem v x)) as [-> Hall].
  { destruct Hp as [Hx|bs Hb Hx|Hx].
    - destruct (Hx a Ha) as [He _]. rewrite He in Hs. by destruct Hs.
    - split; [done|]. intros x Hin. destruct (Hx x Hin) as [-> _].
      apply znth_is_Some. rewrite (backend_page_len c i bs G Hi Hb). unfold in_page in *. lia.
    - split; [done|]. intros x Hin. apply Hx, Hin. }
  split; [done|]. destruct (load_bytes_is_Some v (page_addr c i) (page_size c)) as [bs ?]; eauto.
Qed.

Lemma inv_agree c w w' :
  (∀ x, in_region c x → agree_at (k_view (kern w')) (k_view (kern w)) x) →
  meta w' = meta w → proc_meta w' = proc_meta w → geom c → inv c w → inv c w'.
Proof.
  intros Hag Hm Hp G [(L1 & L2 & L3) H]. split.
  - unfold laid_out. rewrite Hm, Hp. split; [done|]. split; [done|]. intros x Hx.
    destruct (Hag x Hx) as (_&_&_&->). by apply L3.
  - intros i Hi. destruct (H i Hi) as (m & p & H1 & H2 & H3). exists m, p. rewrite Hm, Hp.
    split; [done|]. split; [done|]. eapply page_ok_agree; [|exact H3].
    intros x Hx. by apply Hag, (in_page_region c G i).
Qed.

(** Changing one page's records and memory. *)
Lemma inv_update c w w' i m' p' :
  geom c → 0 ≤ i < page_count c → inv c w →
  znth (meta w') i = Some m' → znth (proc_meta w') i = Some p' →
  (∀ j, j ≠ i → znth (meta w') j = znth (meta w) j ∧ znth (proc_meta w') j = znth (proc_meta w) j) →
  laid_out c w' →
  (∀ x, in_region c x → ¬ in_page c i x → agree_at (k_view (kern w')) (k_view (kern w)) x) →
  page_ok c (k_view (kern w')) i (state m') p' → inv c w'.
Proof.
  intros G Hi [_ H] Hm Hp Ho L Hag Hok. split; [done|]. intros j Hj.
  destruct (decide (j = i)) as [->|Hne]; [by exists m', p'|].
  destruct (H j Hj) as (m & p & H1 & H2 & H3). destruct (Ho j Hne) as [-> ->].
  exists m, p. split; [done|]. split; [done|]. eapply page_ok_agree; [|exact H3].
  intros x Hx. apply Hag; [by apply (in_page_region c G j)|]. intros Hx'.
  by apply Hne, (in_page_disjoint c j i x).
Qed.

Lemma inv_contents c w : inv c w → contents_ok c w.
Proof.
  intros [_ H] i p Hi Hp Hd. destruct (H i Hi) as (m & p' & _ & Hp' & Hok).
  rewrite Hp in Hp'. injection Hp' as <-. destruct Hok as [Hx|bs Hb Hx|Hx].
  - left. intros x Hin. apply Hx, Hin.
  - right. exists bs. split; [done|]. intros x Hin. apply Hx, Hin.
  - done.
Qed.

Lemma contents_agree c w w' :
  (∀ x, in_region c x → as_mem (k_view (kern w')) x = as_mem (k_view (kern w)) x) →
  proc_meta w' = proc_meta w → geom c → contents_ok c w → contents_ok c w'.
Proof.
  intros Hag Hp G H i p Hi Hz Hd. rewrite Hp in Hz.
  destruct (H i p Hi Hz Hd) as [Hx|(bs & Hb & Hx)]; [left|right; exists bs; split; [done|]];
    intros x Hin; (rewrite Hag by (by apply (in_page_region c G i))); by apply Hx.
Qed.

(** What a handler call may leave behind. *)
Definition outcome {A : Type} c (r : res Error A) w' : Prop :=
  match r with Ok _ => inv c w' | Err _ => contents_ok c w' | _ => False end.

Lemma outcome_wake c w r w' :
  geom c → inv c w → world_eq w w' → (r = Ok tt ∨ ∃ e, r = Err (Io (Os e))) → outcome c r w'.
Proof.
  intros G I [V M P _] Hr. assert (inv c w') as I'.
  { eapply inv_agree; [|exact M|exact P|exact G|exact I]. intros x _. apply V. }
  destruct Hr as [->|[e ->]]; simpl; [done|]. by apply inv_contents.
Qed.

Lemma loader_inv c i w r w' m :
  geom c → 0 ≤ i < page_count c → inv c w → znth (meta w) i = Some m → state m = STATE_UNLOADED →
  loader_result c i m w r w' → outcome c r w'.
Proof.
  intros G Hi I Hm Hs (Hp & _ & H). pose proof (g_size_pos c G) as Hn.
  pose proof I as [(L1 & L2 & L3) I2]. destruct r as [[]|e| |]; simpl; [|..|done|done].
  2: { destruct H as [_ Hv]. eapply contents_agree; [|exact Hp|exact G|by apply inv_contents].
       intros x _. apply Hv. }
  destruct (I2 i Hi) as (m' & p & Hm' & Hp' & Hok). rewrite Hm in Hm'. injection Hm' as <-.
  destruct H as [Hmw [(Hnone & bs & Hb & Hv)|[Hsome Hv]]].
  2: { destruct (page_ok_present c _ i _ _ (page_addr c i) G (proj1 Hi) Hok) as [Hr _];
         [unfold in_page; lia|done|]. by rewrite Hs in Hr. }
  rewrite Hs in Hok. inversion Hok as [Hx Hs' Hp2| |]; subst p.
  eapply (inv_update c w w' i); [done..| | | | | |].
  - rewrite Hmw. rewrite znth_zset by lia. by rewrite Z.eqb_refl.
  - rewrite Hp. exact Hp'.
  - intros j Hj. rewrite Hmw, Hp, znth_zset by lia. split; [|done].
    by destruct (Z.eqb_spec i j).
  - unfold laid_out. rewrite Hmw, Hp, zlen_zset. split; [done|]. split; [done|].
    intros x Hx'. destruct (Hv x) as (_&_&_&->). simpl. by apply L3.
  - intros x _ Hout. apply (agree_at_trans _ _ _ _ (Hv x)). unfold agree_at. simpl.
    by rewrite (proj2 (within_false _ _ x)) by exact Hout.
  - apply (page_clean _ _ _ bs Hb). intros x Hin. destruct (Hv x) as (->&->&->&_). simpl.
    rewrite (proj2 (within_spec _ _ x)) by exact Hin. split; [done|]. split; [|done]. by apply Hx.
Qed.

Lemma missing_inv env fuel c a w :
  geom c → inv c w → (Z.to_nat (page_size c) + k_intr (kern w) ≤ fuel)%nat →
  ∃ r w', handle_missing_fault env fuel c a w = (r, w') ∧ outcome c r w'.
Proof.
  intros G I Hf. destruct (decide (in_region c a)) as [Ha|Ha].
  2: { destruct (page_index_outside c G a Ha) as [msg Hmsg]. eexists _, _. split.
       - unfold handle_missing_fault. apply m_bind_err. unfold lift. by rewrite Hmsg.
       - by apply inv_contents. }
  pose proof (in_region_index c G a Ha) as Hi. set (i := (a - base_addr c) / page_size c) in *.
  pose proof I as [_ I2]. destruct (I2 i Hi) as (m & p & Hm & _ & Hok).
  destruct (decide (state m = STATE_UNLOADED)) as [Hs|Hs].
  - destruct (loader_run env fuel c a w m G Ha Hm Hs Hf) as (r & w' & Hrun & Hres).
    exists r, w'. split; [done|]. by apply (loader_inv c i w r w' m).
  - rewrite (missing_cas_failed env fuel c a w m G Ha Hm Hs).
    assert (state m = STATE_SHARED_READY) as -> by (inversion Hok; congruence).
    cbn [Z.eqb STATE_SHARED_READY STATE_LOADING].
    destruct (wake_page_run c (page_addr c i) w) as (r & w' & Hw & He & Hr).
    exists r, w'. split; [exact Hw|]. by apply (outcome_wake c w).
Qed.

Lemma cow_inv c i w r w' a :
  geom c → 0 ≤ i < page_count c → inv c w → in_page c i a →
  is_Some (as_mem (k_view (kern w)) a) → cow_result c i w r w' → outcome c r w'.
Proof.
  intros G Hi I Ha Hs (Hm & _ & H). pose proof I as [(L1 & L2 & L3) I2].
  destruct H as [(Hp & Hr & Hd)|(Hp & [e ->] & Hab)]; simpl.
  2: { eapply contents_agree; [|exact Hp|exact G|by apply inv_contents]. intros x Hx. by apply Hab. }
  assert (inv c w') as I'.
  { destruct (I2 i Hi) as (m & p & Hm1 & _ & Hok).
    destruct (page_ok_present c _ i _ _ a G (proj1 Hi) Hok Ha Hs) as [Hst (bs & Hbs)].
    apply load_bytes_Some in Hbs as [_ Hbs]; [|pose proof (g_size_pos c G); lia].
    eapply (inv_update c w w' i m {| is_private := true; dirty := true |}); [done..| | | | | |].
    - by rewrite Hm.
    - rewrite Hp, znth_zset by lia. by rewrite Z.eqb_refl.
    - intros j Hj. rewrite Hm, Hp, znth_zset by lia. split; [done|]. by destruct (Z.eqb_spec i j).
    - unfold laid_out. rewrite Hm, Hp, zlen_zset. split; [done|]. split; [done|].
      intros x Hx. by apply Hd.
    - intros x Hx Hout. destruct (Hd x Hx) as (H1&H2&H3&H4).
      rewrite (proj2 (within_false _ _ x) Hout) in H3, H4. unfold agree_at. rewrite L3 by done. done.
    - rewrite Hst. apply page_dirty. intros x Hin.
      destruct (Hd x (in_page_region c G i x Hi Hin)) as (H1&_&H3&H4).
      rewrite (proj2 (within_spec _ _ x) Hin) in H3, H4. split; [|done]. rewrite H1.
      unfold in_page in Hin. destruct (Hbs (x - page_addr c i)) as (b & Hb & _); [lia|].
      replace (page_addr c i + (x - page_addr c i)) with x in Hb by lia. by rewrite Hb. }
  destruct Hr as [->|[e ->]]; simpl; [done|]. by apply inv_contents.
Qed.

Lemma wp_inv c a w :
  geom c → inv c w → is_Some (as_mem (k_view (kern w)) a) →
  ∃ r w', handle_wp_fault c a w = (r, w') ∧ outcome c r w'.
Proof.
  intros G I Hs. destruct (decide (in_region c a)) as [Ha|Ha].
  2: { destruct (page_index_outside c G a Ha) as [msg Hmsg]. eexists _, _. split.
       - unfold handle_wp_fault. apply m_bind_err. unfold lift. by rewrite Hmsg.
       - by apply inv_contents. }
  pose proof (in_region_index c G a Ha) as Hi. set (i := (a - base_addr c) / page_size c) in *.
  assert (in_page c i a) as Hin by (by apply (in_page_index c G)).
  pose proof I as [L I2]. destruct (I2 i Hi) as (m & p & _ & _ & Hok).
  destruct (page_ok_present c _ i _ _ a G (proj1 Hi) Hok Hin Hs) as [_ [bs Hbs]].
  destruct (wp_run c a w bs G Ha L Hbs) as (r & w' & Hrun & Hres).
  exists r, w'. split; [done|]. by apply (cow_inv c i w r w' a).
Qed.

(** A guest store that the protection lets through hits only dirty pages. *)
Lemma store_inv c a bs w :
  geom c → inv c w → (∀ x, a ≤ x < a + zlen bs → in_region c x) →
  writable (k_view (kern w)) a (zlen bs) = true →
  inv c (set_kern (k_store a bs (kern w)) w).
Proof.
  intros G [(L1 & L2 & L3) I2] Hreg Hwr. pose proof (k_store_ok a bs (kern w) Hwr) as Hv. split.
  - split; [done|]. split; [done|]. intros x Hx. simpl. destruct (Hv x) as (_&_&_&->). simpl. by apply L3.
  - intros i Hi. destruct (I2 i Hi) as (m & p & Hm & Hp & Hok). exists m, p.
    split; [done|]. split; [done|]. simpl. set (v' := k_view (k_store a bs (kern w))) in *.
    assert (∀ x, within a (zlen bs) x = false → agree_at v' (k_view (kern w)) x) as Hout.
    { intros x Hx. apply (agree_at_trans _ _ _ _ (Hv x)). unfold agree_at. simpl. by rewrite Hx. }
    assert (∀ x, within a (zlen bs) x = true →
              is_Some (as_mem (k_view (kern w)) x) ∧ as_wp (k_view (kern w)) x = false) as Hin.
    { intros x Hx%within_spec. by apply (writable_elim _ a (zlen bs)). }
    destruct Hok as [Hx|bs' Hb Hx|Hx].
    + apply (page_ok_agree _ (k_view (kern w))); [|by apply page_missing]. intros x Hpx. apply Hout.
      apply not_true_iff_false. intros Hw. destruct (Hin x Hw) as [Hs _].
      destruct (Hx x Hpx) as [He _]. rewrite He in Hs. by destruct Hs.
    + apply (page_ok_agree _ (k_view (kern w))); [|by apply (page_clean _ _ _ bs')].
      intros x Hpx. apply Hout. apply not_true_iff_false. intros Hw.
      destruct (Hin x Hw) as [_ Hwp]. destruct (Hx x Hpx) as (_&_&Ht). by rewrite Ht in Hwp.
    + apply page_dirty. intros x Hpx. destruct (Hx x Hpx) as (H1&H2&H3).
      destruct (Hv x) as (->&->&->&_). simpl. split; [|done].
      destruct (within a (zlen bs) x) eqn:Hw; [|done]. apply within_spec in Hw.
      apply znth_is_Some. lia.
Qed.

Lemma outcome_bind {A B : Type} c (m : M World Error A) (b : B) r w w' :
  m w = (r, w') → outcome c r w' →
  ∃ r' w'', (_ ← m; mret b) w = (r', w'') ∧ outcome c r' w''.
Proof.
  intros H Ho. destruct r as [a|e| |]; [| |done|done].
  - rewrite (m_bind_run _ _ _ _ _ H). by eexists _, _.
  - rewrite (m_bind_err _ _ _ _ _ H). by eexists _, _.
Qed.

Section round.
Context (env : World → World) (c : ClientInner) (G : geom c).
Context (env_inv : ∀ w, inv c w → inv c (env w)).
Context (env_intr : ∀ w, (k_intr (kern (env w)) ≤ k_intr (kern w))%nat).

(** The part of a round from the read of the message on. *)
Lemma round_read_inv fuel w :
  inv c w → (Z.to_nat (page_size c) + k_intr (kern w) ≤ fuel)%nat →
  ∃ r w', read_and_handle env fuel c w = (r, w') ∧ outcome c r w'.
Proof.
  intros I Hf. unfold read_and_handle.
  destruct (k_read_msg (uffd c) 32 (kern w)) as [o k1] eqn:Hread.
  pose proof (k_read_msg_view _ _ _ _ _ Hread) as [Hv1 Hi1].
  set (w1 := set_kern k1 w).
  assert (inv c w1) as I1 by (eapply inv_agree; [intros x _; apply Hv1|done..]).
  assert (contents_ok c w1) as C1 by (by apply inv_contents).
  rewrite (m_bind_run _ _ w o w1) by (unfold try_, on_kern; rewrite Hread; by destruct o).
  destruct o as [e|[nread msg]].
  { destruct (_ || _); [by eexists _, _|]. rewrite (m_bind_run _ _ w1 (stop w1) w1) by done.
    destruct (_ && _); by eexists _, _. }
  destruct (negb (nread =? 32)); [by eexists _, _|].
  destruct (Z.eqb_spec (msg_event msg) UFFD_EVENT_PAGEFAULT) as [Hev|]; [|by eexists _, _].
  cbn [negb]. destruct (Z.eqb_spec (Z.land (pf_flags msg) UFFD_PAGEFAULT_FLAG_WP) 0) as [|Hwp]; cbn [negb].
  - destruct (missing_inv env fuel c (pf_address msg) w1 G I1) as (r & w2 & Hrun & Hout);
      [simpl; lia|]. exact (outcome_bind _ _ _ _ _ _ Hrun Hout).
  - destruct (wp_inv c (pf_address msg) w1 G I1) as (r & w2 & Hrun & Hout).
    { simpl. destruct (Hv1 (pf_address msg)) as (->&_). by eapply k_read_msg_wp. }
    exact (outcome_bind _ _ _ _ _ _ Hrun Hout).
Qed.

Lemma round_inv fuel w :
  inv c w → (Z.to_nat (page_size c) + k_intr (kern w) ≤ fuel)%nat →
  ∃ r w', handler_round env fuel c w = (r, w') ∧ outcome c r w'.
Proof.
  intros I Hf. unfold handler_round. rewrite (m_bind_run _ _ w (stop w) w) by done.
  destruct (stop w); [by eexists _, _|].
  destruct (k_poll (uffd c) POLLIN 100 (kern w)) as [o k1] eqn:Hpoll.
  pose proof (k_poll_view _ _ _ _ _ _ Hpoll) as [Hv1 Hi1].
  assert (inv c (env (set_kern k1 w))) as I1.
  { apply env_inv, (inv_agree c w); [|done..]. intros x _. apply Hv1. }
  pose proof (env_intr (set_kern k1 w)) as Hi2. simpl in Hi2.
  rewrite (m_bind_run _ _ w o (set_kern k1 w))
    by (unfold try_, on_kern; rewrite Hpoll; by destruct o).
  rewrite (m_bind_run _ _ (set_kern k1 w) tt (env (set_kern k1 w))) by done.
  set (w1 := env (set_kern k1 w)) in *.
  assert (contents_ok c w1) as C1 by (by apply inv_contents).
  assert ((Z.to_nat (page_size c) + k_intr (kern w1) ≤ fuel)%nat) as Hf1 by lia.
  destruct o as [e|[ready revents]].
  { destruct (e =? EINTR); [by eexists _, _|]. rewrite (m_bind_run _ _ w1 (stop w1) w1) by done.
    destruct (_ && _); by eexists _, _. }
  destruct (_ || _); [by eexists _, _|]. by apply round_read_inv.
Qed.

Lemma session_step_inv w w' : session_step env c w w' → inv c w → inv c w'.
Proof.
  intros [fuel o w0 w1 Hf Hrun|a bs w0 Hreg Hwr|w0] I.
  - destruct (round_inv fuel w0 I Hf) as (r & w2 & Hr & Ho). rewrite Hrun in Hr.
    by injection Hr as <- <-.
  - by apply store_inv.
  - exact I.
Qed.

Lemma session_reach w w' : rtc (session_step env c) w w' → inv c w → inv c w'.
Proof. induction 1; eauto using session_step_inv. Qed.

End round.

(** ** Checkpoints *)
Section checkpoint.
Context (c : ClientInner) (G : geom c).

Definition is_dirty (w : World) (i : Z) : bool := from_option dirty false (znth (proc_meta w) i).

(** The checkpoint record of page [i]. *)
Definition page_record (w : World) (i : Z) : DirtyPage :=
  {| page_idx := i;
     data := default [] (load_bytes (k_view (kern w)) (page_addr c i) (page_size c)) |}.

Lemma inv_dirty_loads w i :
  inv c w → 0 ≤ i < page_count c → is_dirty w i = true →
  is_Some (load_bytes (k_view (kern w)) (page_addr c i) (page_size c)).
Proof.
  intros [_ I] Hi Hd. destruct (I i Hi) as (m & p & _ & Hp & Hok).
  unfold is_dirty in Hd. rewrite Hp in Hd. simpl in Hd.
  destruct Hok as [| |Hx]; [done..|]. apply load_bytes_is_Some. intros x Hin. by apply Hx.
Qed.

Lemma export_page_step w pages bm i :
  inv c w → 0 ≤ i < page_count c → wf (bitmap_words (page_count c)) bm →
  ∃ bm', export_page c w (pages, bm) i =
      Ok (if is_dirty w i then pages ++ [page_record w i] else pages, bm') ∧
    wf (bitmap_words (page_count c)) bm' ∧
    ∀ j, 0 ≤ j → bit bm' j = (is_dirty w i && (j =? i)) || bit bm j.
Proof.
  intros I Hi Hwf. pose proof I as [(_ & L2 & _) _]. unfold export_page.
  destruct (znth_is_Some (proc_meta w) i ltac:(lia)) as [p Hp].
  rewrite (proj2 (vget_Ok _ _ _) Hp). simpl.
  pose proof (inv_dirty_loads w i I Hi) as Hl. unfold is_dirty in *. rewrite Hp in *. simpl in *.
  destruct (dirty p); simpl; [|by exists bm].
  destruct (bitmap_set_ok (E:=Error) bm (page_count c) i Hwf Hi) as (bm' & -> & Hwf' & Hb). simpl.
  destruct (page_addr_u64 c G i Hi) as [H1 H2].
  rewrite umul_ok by done. simpl. rewrite uadd_ok by done. simpl.
  unfold page_record. fold (page_addr c i). destruct (Hl eq_refl) as [bs ->]. eauto.
Qed.

(** The whole export: the records of the dirty pages in order, and their bitmap. *)
Lemma export_run w :
  inv c w →
  ∃ bm, export c w = Ok {| dirty_pages := page_record w <$> filter (is_dirty w) (zrange 0 (page_count c));
                           private_bitmap := bm;
                           merged_backend_bitmap := Overlay.merged_bitmap (backend c) |} ∧
    wf (bitmap_words (page_count c)) bm ∧
    ∀ i, 0 ≤ i < page_count c → bit bm i = is_dirty w i.
Proof.
  intros I. pose proof (g_count c G) as Hc. unfold export.
  destruct (foldM_inv (E:=Error) (export_page c w)
    (λ seen acc, acc.1 = page_record w <$> filter (is_dirty w) seen ∧
       wf (bitmap_words (page_count c)) acc.2 ∧
       ∀ i, 0 ≤ i → bit acc.2 i = bool_decide (i ∈ seen) && is_dirty w i)
    ([], zreplicate (bitmap_words (page_count c)) 0) (zrange 0 (page_count c)))
    as ([pages bm] & Hf & Hp & Hwf & Hb).
  - split; [done|]. split; [apply wf_replicate; lia|]. intros i _. cbn [snd]. rewrite bit_replicate.
    by rewrite bool_decide_false by set_solver.
  - intros seen x [pages bm] (Hpg & Hwf & Hb) (rest & Hx). cbn [fst snd] in *. subst pages.
    assert (x ∈ zrange 0 (page_count c)) as Hin by (rewrite Hx; set_solver).
    unfold zrange in Hin. apply elem_of_seqZ in Hin.
    destruct (export_page_step w (page_record w <$> filter (is_dirty w) seen) bm x I ltac:(lia) Hwf)
      as (bm' & -> & Hwf' & Hb').
    eexists. split; [done|]. cbn [fst snd]. split; [|split; [done|]].
    + rewrite filter_app, fmap_app, filter_cons, filter_nil.
      destruct (is_dirty w x); simpl; [done|by rewrite app_nil_r].
    + intros i Hi. rewrite Hb', Hb by done. destruct (Z.eqb_spec i x) as [->|Hne].
      * rewrite (bool_decide_true (x ∈ seen ++ [x])) by set_solver. by destruct (is_dirty w x), (bool_decide _).
      * rewrite andb_false_r. simpl. f_equal. apply bool_decide_ext. set_solver.
  - rewrite Hf. cbn [fst snd] in *. exists bm. subst pages. split; [done|]. split; [done|]. intros i Hi.
    rewrite Hb by lia. rewrite bool_decide_true; [done|]. unfold zrange. apply elem_of_seqZ. lia.
Qed.

Lemma restored_export w ck i bs :
  inv c w → 0 ≤ i < page_count c →
  dirty_pages ck = page_record w <$> filter (is_dirty w) (zrange 0 (page_count c)) →
  load_bytes (k_view (kern w)) (page_addr c i) (page_size c) = Some bs →
  restored_page c ck i bs.
Proof.
  intros [_ I] Hi Hd Hbs. unfold restored_page. rewrite Hd.
  destruct (list_find _ _) as [[k p]|] eqn:Hf.
  - apply list_find_Some in Hf as (Hk & Hp & _). apply list_lookup_fmap_Some in Hk as (j & -> & _).
    simpl in Hp. subst j. simpl. by rewrite Hbs.
  - apply list_find_None in Hf. rewrite Forall_forall in Hf.
    destruct (I i Hi) as (m & p & _ & Hp & Hok). apply load_bytes_Some in Hbs as [Hl Hbs].
    2: { pose proof (g_size_pos c G). lia. }
    destruct Hok as [Hx|bs' Hb Hx|_].
    + destruct (Hbs 0) as (b & Hb & _); [pose proof (g_size_pos c G); lia|].
      destruct (Hx (page_addr c i + 0)) as [He _]; [|by rewrite He in Hb].
      unfold in_page. pose proof (g_size_pos c G). lia.
    + assert (bs = bs') as ->; [|done].
      apply znth_ext; [by rewrite Hl, (backend_page_len c i bs' G (proj1 Hi) Hb)|].
      intros k Hk. destruct (Hbs k ltac:(lia)) as (b & Hb1 & ->).
      destruct (Hx (page_addr c i + k)) as [He _]; [unfold in_page; lia|].
      rewrite Hb1 in He. rewrite He. f_equal. lia.
    + destruct (Hf (page_record w i)); [|done]. apply list_elem_of_fmap. exists i. split; [done|].
      apply list_elem_of_filter. unfold is_dirty. rewrite Hp. split; [done|]. unfold zrange. apply elem_of_seqZ. lia.
Qed.

Lemma export_dirty_bitmap w ck :
  export c w = Ok ck → dirty_bitmap c w = Ok (private_bitmap ck).
Proof.
  unfold export, dirty_bitmap. generalize (@nil DirtyPage) (zreplicate (bitmap_words (page_count c)) 0).
  induction (zrange 0 (page_count c)) as [|i l IH]; intros pages bm; simpl; [by intros [= <-]|].
  destruct (vget (proc_meta w) i) as [p| | |]; simpl; [|done..].
  destruct (dirty p); simpl; [|apply IH].
  destruct (bitmap_set bm i) as [bm'| | |]; simpl; [|done..].
  destruct (umul i (page_size c)) as [off| | |]; simpl; [|done..].
  destruct (uadd (base_addr c) off) as [a| | |]; simpl; [|done..].
  destruct (load_bytes _ _ _); [apply IH|done].
Qed.

End checkpoint.
(** ** The start of a session *)

Lemma meta_new_ok n ps k ms k' :
  meta_new n ps k = (Ok ms, k') → 0 ≤ n →
  zlen ms = n ∧ ∀ i, 0 ≤ i < n →
    znth ms i = Some {| state := STATE_UNLOADED; backend_offset := i * ps |}.
Proof.
  unfold meta_new. intros (bytes & k1 & _ & H)%m_bind_ok Hn.
  apply m_bind_ok in H as (p & k2 & _ & H). unfold lift in H. injection H as H _.
  assert (ms = (λ i, {| state := STATE_UNLOADED; backend_offset := i * ps |}) <$> zrange 0 n) as ->.
  { refine (foldM_ok_inv _ (λ l ms, ms = (λ i, {| state := STATE_UNLOADED;
      backend_offset := i * ps |}) <$> l) [] (zrange 0 n) ms eq_refl _ H).
    intros l i b b' -> Hb. apply bind_ok in Hb as (off & Hoff & Hb).
    apply umul_Ok in Hoff as [-> _]. injection Hb as <-. by rewrite fmap_app. }
  unfold zrange. rewrite zlen_fmap, zlen_seqZ by lia. split; [lia|]. intros i Hi.
  rewrite znth_fmap, znth_seqZ by lia. done.
Qed.

Lemma service_new_ok size b k s k' :
  service_new size b k = (Ok s, k') → 0 ≤ size →
  0 < ts_page_size s ∧ ts_region_size s = size ∧ size = ts_page_size s * ts_page_count s ∧
  ts_backend s = b ∧ Overlay.page_size b = ts_page_size s ∧ Overlay.page_count b = ts_page_count s ∧
  zlen (ts_meta s) = ts_page_count s ∧
  ∀ i, 0 ≤ i < ts_page_count s →
    znth (ts_meta s) i = Some {| state := STATE_UNLOADED; backend_offset := i * ts_page_size s |}.
Proof.
  unfold service_new. intros (ps & k1 & Hps & H)%m_bind_ok Hsz.
  unfold page_size_ in Hps. destruct (k_sysconf 30) as [v e].
  destruct (Z.leb_spec v 0); [done|]. injection Hps as -> ->.
  destruct (Z.eqb_spec (size mod ps) 0) as [Hmod|]; [|done]. simpl in H.
  destruct (Z.eqb_spec (Overlay.page_size b) ps) as [Hbs|]; [|done].
  destruct (Z.eqb_spec (Overlay.page_count b) (size / ps)) as [Hbc|]; [|done]. simpl in H.
  apply m_bind_ok in H as (fd & k2 & _ & H). apply m_bind_ok in H as ([] & k3 & _ & H).
  apply m_bind_ok in H as (ms & k4 & Hms & H). injection H as <- _. simpl.
  apply meta_new_ok in Hms as [Hl Hm]; [|by apply Z.div_pos].
  split; [done|]. split; [done|]. split; [by apply Z_div_exact_full_2; lia|]. done.
Qed.

Lemma client_new_ok s base k c p k' :
  client_new s base k = (Ok (c, p), k') →
  base_addr c = base ∧ region_size c = ts_region_size s ∧ page_size c = ts_page_size s ∧
  page_count c = ts_page_count s ∧ backend c = ts_backend s ∧
  p = (λ _, proc_new) <$> zrange 0 (ts_page_count s).
Proof.
  unfold client_new. intros (fd & k1 & _ & H)%m_bind_ok. apply m_bind_ok in H as (io & k2 & _ & H).
  do 3 (apply m_bind_ok in H as (? & ? & _ & H)). injection H as <- <- _. done.
Qed.

Lemma start_inv size b k s k1 base k2 c p k3 :
  service_new size b k = (Ok s, k1) → client_new s base k2 = (Ok (c, p), k3) →
  Overlay.wf b → 0 ≤ size → (∃ n, 0 ≤ n < 64 ∧ ts_page_size s = 2 ^ n) →
  (ts_page_size s | base) → 0 ≤ base → base + size < 2 ^ 64 →
  (∀ x, base ≤ x < base + size → as_mapped (k_view k3) x = true ∧
     as_mem (k_view k3) x = None ∧ as_private (k_view k3) x = false) →
  geom c ∧ inv c {| kern := k3; meta := ts_meta s; proc_meta := p; stop := false |}.
Proof.
  intros Hs Hc Hwf Hsz Hpow Hal Hb0 Htop Hfresh.
  apply service_new_ok in Hs as (Hps & Hrs & Hsize & Hb & Hbs & Hbc & Hml & Hm); [|done].
  apply client_new_ok in Hc as (C1 & C2 & C3 & C4 & C5 & ->).
  assert (geom c) as G.
  { pose proof (Overlay.wf_count _ Hwf). split; rewrite ?C1, ?C2, ?C3, ?C4, ?C5; try congruence; lia. }
  split; [done|]. split.
  - split; simpl; [congruence|]. split.
    + rewrite zlen_fmap. unfold zrange. rewrite zlen_seqZ; [lia|]. pose proof (g_count c G). lia.
    + intros x Hx. apply Hfresh. unfold in_region in Hx. rewrite C1, C2, Hrs in Hx. done.
  - intros i Hi. rewrite C4 in Hi. do 2 eexists. split; [by apply Hm|]. split.
    + simpl. unfold zrange. rewrite znth_fmap, znth_seqZ by lia. done.
    + simpl. apply page_missing. intros x Hx.
      apply (in_page_region c G i x) in Hx; [|by rewrite C4].
      unfold in_region in Hx. rewrite C1, C2, Hrs in Hx. by destruct (Hfresh x Hx) as (_&?&?).
Qed.

End lemmas.

(** ** Properties *)

(** A small client over the simulated kernel: three pages of four bytes at 64. *)
Definition demo_view : AddrSpace :=
  {| as_mem _ := None; as_wp _ := false; as_private _ := false; as_mapped := within 64 12 |}.

Definition demo_kernel : Kernel := Sim.kernel Overlay.demo_files 3.

Definition demo_kst (plan : list (option Z)) (events : list UffdMsg) : @kst demo_kernel :=
  {| Sim.view := demo_view; Sim.plan := plan; Sim.next_free := 4096; Sim.events := events |}.

Definition demo_world (plan : list (option Z)) (events : list UffdMsg) : @World demo_kernel :=
  {| kern := demo_kst plan events;
     meta := (λ i, {| state := STATE_UNLOADED; backend_offset := i * 4 |}) <$> [0; 1; 2];
     proc_meta := (λ _, proc_new) <$> [0; 1; 2]; stop := false |}.

Definition demo_ok : KernelOk demo_kernel := Sim.kernel_ok Overlay.demo_files 3.
#[local] Existing Instance demo_ok.

Definition missing_at (a : Z) : UffdMsg :=
  {| msg_event := UFFD_EVENT_PAGEFAULT; pf_flags := 0; pf_address := a |}.
Definition write_at (a : Z) : UffdMsg :=
  {| msg_event := UFFD_EVENT_PAGEFAULT; pf_flags := UFFD_PAGEFAULT_FLAG_WP; pf_address := a |}.

Lemma demo_inv plan events : @inv demo_kernel demo_client (demo_world plan events).
Proof.
  split.
  - split; [done|]. split; [done|]. intros x Hx. apply within_spec. exact Hx.
  - intros i Hi. unfold demo_client in Hi. simpl in Hi.
    assert (i = 0 ∨ i = 1 ∨ i = 2) as [-> | [-> | ->]] by lia;
      (do 2 eexists; split; [done|]; split; [done|]; by apply page_missing).
Qed.

(** C12: a missing-page fault on an UNLOADED page, given fuel for the reads,
    returns.  On success the page is SHARED_READY and holds, write-protected,
    exactly the bytes of the topmost layer that has it (or another thread had
    already put it there); on failure memory is unchanged.  No per-process flag
    changes either way. *)
Theorem missing_fault_loads `{K : Kernel, !KernelOk K} env fuel c a w m :
  geom c → in_region c a →
  let i := (a - base_addr c) / page_size c in
  znth (meta w) i = Some m → state m = STATE_UNLOADED →
  (Z.to_nat (page_size c) + k_intr (kern w) ≤ fuel)%nat →
  ∃ r w', handle_missing_fault env fuel c a w = (r, w') ∧ loader_result c i m w r w'.
Proof. apply loader_run. Qed.

Lemma missing_fault_loads_witness :
  ∃ w', @handle_missing_fault demo_kernel id 10 demo_client 65 (demo_world [Some EINTR] []) = (Ok tt, w') ∧
    as_mem (k_view (kern w')) 65 = Some 1 ∧ as_wp (k_view (kern w')) 65 = true ∧
    ∃ bs, @backend_page demo_kernel demo_client 0 bs ∧ bs = [0; 1; 2; 3].
Proof.
  destruct (@missing_fault_loads demo_kernel demo_ok id 10 demo_client 65
    (demo_world [Some EINTR] []) {| state := 0; backend_offset := 0 |} demo_client_geom)
    as (r & w' & H & Hres); [split; simpl; lia|done|done|simpl; lia|].
  eval_result H. exists w'. split; [exact H|]. split; [eval_state H|]. split; [eval_state H|].
  destruct Hres as (_ & _ & _ & [(_ & bs & Hb & _)|[[b Hs] _]]); [|discriminate Hs].
  exists bs. split; [exact Hb|]. destruct Hb as (l & Hl & -> & _).
  vm_compute in Hl. injection Hl as <-. vm_compute. reflexivity.
Defined.

(** A fault on a page that another loader holds waits for it: if the other
    side publishes SHARED_READY at its [n]-th turn and not before, the handler
    yields exactly [n] times and then only wakes the faulting thread. *)
Theorem missing_fault_waits `{K : Kernel, !KernelOk K} env fuel c a w n :
  geom c → in_region c a →
  let i := (a - base_addr c) / page_size c in
  st w i = Some STATE_LOADING →
  st (Nat.iter n env w) i = Some STATE_SHARED_READY →
  (∀ j, (j < n)%nat → ∃ v, st (Nat.iter j env w) i = Some v ∧ v ≠ STATE_SHARED_READY) →
  (n < fuel)%nat →
  ∃ r w', handle_missing_fault env fuel c a w = (r, w') ∧ world_eq (Nat.iter n env w) w' ∧
    (r = Ok tt ∨ ∃ e, r = Err (Io (Os e))).
Proof.
  intros G Ha i Hl Hr Hn Hf. unfold st in Hl.
  destruct (znth (meta w) i) as [m|] eqn:Hm; [|done]. injection Hl as Hl.
  rewrite (missing_cas_failed env fuel c a w m G Ha Hm) by (by rewrite Hl). rewrite Hl, Z.eqb_refl.
  rewrite (m_bind_run _ _ _ _ _ (wait_ready_run env n fuel i w Hf Hr Hn)).
  destruct (wake_page_run c (page_addr c i) (Nat.iter n env w)) as (r & w' & H1 & H2 & H3). eauto.
Qed.

(** The other loader of the witness: at its second turn it publishes page 0. *)
Definition demo_publish (w : @World demo_kernel) : @World demo_kernel :=
  if stop w then set_meta (zset (meta w) 0 {| state := STATE_SHARED_READY; backend_offset := 0 |}) w
  else {| kern := kern w; meta := meta w; proc_meta := proc_meta w; stop := true |}.

Definition demo_loading : @World demo_kernel :=
  set_meta (zset (meta (demo_world [] [])) 0 {| state := STATE_LOADING; backend_offset := 0 |})
    (demo_world [] []).

Lemma missing_fault_waits_witness :
  ∃ w', handle_missing_fault demo_publish 10 demo_client 64 demo_loading = (Ok tt, w') ∧
    st w' 0 = Some STATE_SHARED_READY.
Proof.
  destruct (@missing_fault_waits demo_kernel demo_ok demo_publish 10 demo_client 64 demo_loading 2
    demo_client_geom) as (r & w' & H & _); [split; simpl; lia|done|done| |lia|].
  { intros j Hj. destruct j as [|[|]]; [by eexists..|lia]. }
  eval_result H. exists w'. split; [exact H|]. eval_state H.
Defined.

(** A load that fails leaves its page LOADING, and from then on every fault on
    that page, by any client and with any fuel, spins without returning unless
    somebody else rewrites the state: the error path has no way back to UNLOADED. *)
Theorem failed_load_blocks `{K : Kernel, !KernelOk K} env env' fuel fuel' c c' a a' w m e w1 :
  geom c → in_region c a →
  let i := (a - base_addr c) / page_size c in
  znth (meta w) i = Some m → state m = STATE_UNLOADED →
  (Z.to_nat (page_size c) + k_intr (kern w) ≤ fuel)%nat →
  handle_missing_fault env fuel c a w = (Err e, w1) →
  geom c' → in_region c' a' → (a' - base_addr c') / page_size c' = i →
  (∀ u, st (env' u) i = st u i) →
  ∃ w2, handle_missing_fault env' fuel' c' a' w1 = (Hang, w2).
Proof.
  intros G Ha i Hm Hs Hf Hrun G' Ha' Hi' Henv.
  destruct (loader_run env fuel c a w m G Ha Hm Hs Hf) as (r & w' & Hrun' & Hres).
  rewrite Hrun in Hrun'. injection Hrun' as <- <-. destruct Hres as (_ & _ & Hmw & _). fold i in Hmw.
  assert (znth (meta w1) i = Some {| state := STATE_LOADING; backend_offset := backend_offset m |}) as Hm1.
  { rewrite Hmw, znth_zset by (by eapply znth_Some_lt). by rewrite Z.eqb_refl. }
  assert (∀ j, st (Nat.iter j env' w1) i = Some STATE_LOADING) as Hst.
  { induction j as [|j IH]; simpl; [unfold st; by rewrite Hm1|]. by rewrite Henv. }
  destruct (wait_ready_hang env' fuel' i w1) as [w2 Hw2].
  { intros j. exists STATE_LOADING. split; [apply Hst|done]. }
  rewrite <-Hi' in Hm1, Hw2.
  rewrite (missing_cas_failed env' fuel' c' a' w1 _ G' Ha' Hm1) by done. simpl.
  exists w2. unfold mbind, M_bind. by rewrite Hw2.
Qed.

(** The second layer of the demo backend is two bytes short: page 2 cannot be read. *)
Lemma failed_load_blocks_witness :
  ∃ e w1 w2, @handle_missing_fault demo_kernel id 10 demo_client 73 (demo_world [] []) = (Err e, w1) ∧
    @handle_missing_fault demo_kernel id 100 demo_client 72 w1 = (Hang, w2).
Proof.
  destruct (@handle_missing_fault demo_kernel id 10 demo_client 73 (demo_world [] [])) as [r w1] eqn:H.
  eval_result H.
  match type of H with _ = (Err ?e, _) => exists e end. exists w1.
  destruct (@failed_load_blocks demo_kernel demo_ok id id 10 100 demo_client demo_client 73 72
    (demo_world [] []) {| state := 0; backend_offset := 8 |} _ w1 demo_client_geom
    ltac:(split; simpl; lia) eq_refl eq_refl ltac:(simpl; lia) H demo_client_geom
    ltac:(split; simpl; lia) eq_refl ltac:(done)) as [w2 H2].
  exists w2. split; [reflexivity|exact H2].
Defined.

(** C11: a write fault on a present page is copied on write.  When the handler
    succeeds (or only the final wake-up fails) the guest sees the same bytes, the
    page is private, writable and flagged private and dirty, and every other page
    keeps its contents, protection and mapping.  When it fails earlier, all
    contents, mappings and flags are as before. *)
Theorem write_fault_copies `{K : Kernel, !KernelOk K} c a w bs :
  geom c → in_region c a → laid_out c w →
  let i := (a - base_addr c) / page_size c in
  load_bytes (k_view (kern w)) (page_addr c i) (page_size c) = Some bs →
  ∃ r w', handle_wp_fault c a w = (r, w') ∧ cow_result c i w r w'.
Proof. apply wp_run. Qed.

Definition demo_loaded : @World demo_kernel :=
  (@handle_missing_fault demo_kernel id 10 demo_client 65 (demo_world [] [])).2.

Lemma demo_loaded_laid_out : laid_out demo_client demo_loaded.
Proof.
  destruct (missing_inv id 10 demo_client 65 (demo_world [] []) demo_client_geom (demo_inv [] []))
    as (r & w' & H & Ho); [simpl; lia|].
  eval_result H. unfold demo_loaded. rewrite H. apply Ho.
Qed.

Lemma write_fault_copies_witness :
  ∃ w', handle_wp_fault demo_client 66 demo_loaded = (Ok tt, w') ∧
    load_bytes (k_view (kern w')) 64 4 = Some [0; 1; 2; 3] ∧
    writable (k_view (kern w')) 64 4 = true ∧ as_private (k_view (kern w')) 66 = true ∧
    znth (proc_meta w') 0 = Some {| is_private := true; dirty := true |}.
Proof.
  destruct (@write_fault_copies demo_kernel demo_ok demo_client 66 demo_loaded [0; 1; 2; 3]
    demo_client_geom) as (r & w' & H & Hres);
    [split; simpl; lia|exact demo_loaded_laid_out|vm_compute; reflexivity|].
  eval_result H. exists w'. split; [exact H|].
  split; [eval_state H|]. split; [eval_state H|]. split; [eval_state H|]. eval_state H.
Defined.

(** C1: a session keeps its invariant.  From a state in which every page is
    missing, or clean with the template's bytes under write protection, or dirty
    and private, any sequence of handler rounds and guest stores leads to such a
    state again, provided the rest of the process keeps it too.  And from every
    such state a handler round returns: with the invariant, or with an error after
    which no page shows anything but the template's bytes or the guest's. *)
Theorem session_invariant `{K : Kernel, !KernelOk K} env c w w' :
  geom c → (∀ u, inv c u → inv c (env u)) →
  (∀ u, (k_intr (kern (env u)) ≤ k_intr (kern u))%nat) →
  inv c w → rtc (session_step env c) w w' →
  inv c w' ∧
  ∀ fuel, (Z.to_nat (page_size c) + k_intr (kern w') ≤ fuel)%nat →
    ∃ r w'', handler_round env fuel c w' = (r, w'') ∧
      match r with Ok _ => inv c w'' | Err _ => contents_ok c w'' | _ => False end.
Proof.
  intros G He Hk I H. pose proof (session_reach env c G He Hk _ _ H I) as I'.
  split; [done|]. intros fuel Hf. exact (round_inv env c G He Hk fuel w' I' Hf).
Qed.

(** A read fault, a write fault and a store to page 0. *)
Definition demo_rounds : @World demo_kernel :=
  let w0 := demo_world [] [missing_at 65; write_at 66] in
  let w1 := (handler_round id 10 demo_client w0).2 in
  (handler_round id 10 demo_client w1).2.

Definition demo_stored : @World demo_kernel :=
  set_kern (@k_store demo_kernel 66 [77] (kern demo_rounds)) demo_rounds.

Lemma demo_reach :
  rtc (session_step id demo_client) (demo_world [] [missing_at 65; write_at 66]) demo_stored.
Proof.
  eapply rtc_l; [refine (step_round id demo_client 10 None _ _ _ (run_snd _ _ _)); [simpl; lia|vm_compute; reflexivity]|].
  eapply rtc_l; [refine (step_round id demo_client 10 None _ _ _ (run_snd _ _ _)); [vm_compute; lia|vm_compute; reflexivity]|].
  eapply rtc_l; [|apply rtc_refl].
  unfold demo_stored, demo_rounds. cbv zeta. apply (step_store id demo_client 66 [77]).
  - intros x Hx. unfold in_region, zlen in *. simpl in *. lia.
  - vm_compute. reflexivity.
Qed.

Lemma session_invariant_witness :
  inv demo_client demo_stored ∧ load_bytes (k_view (kern demo_stored)) 64 4 = Some [0; 1; 77; 3].
Proof.
  split; [|vm_compute; reflexivity].
  exact (proj1 (@session_invariant demo_kernel demo_ok id demo_client _ demo_stored demo_client_geom
    (λ u H, H) (λ u, le_n _) (demo_inv _ _) demo_reach)).
Defined.

(** C8: a checkpoint of such a state is exact.  [export] returns; it lists the
    dirty pages, each once and in order; its bitmap has exactly their bits and is
    the one [dirty_bitmap] returns; and putting the listed pages back over the
    template gives, for every page that is present, the bytes the guest sees. *)
Theorem checkpoint_spec `{K : Kernel, !KernelOk K} c w :
  geom c → inv c w →
  ∃ ck, export c w = Ok ck ∧ dirty_bitmap c w = Ok (private_bitmap ck) ∧
    page_idx <$> dirty_pages ck = filter (is_dirty w) (zrange 0 (page_count c)) ∧
    (∀ i, 0 ≤ i < page_count c → bit (private_bitmap ck) i = is_dirty w i) ∧
    merged_backend_bitmap ck = Overlay.merged_bitmap (backend c) ∧
    ∀ i bs, 0 ≤ i < page_count c →
      load_bytes (k_view (kern w)) (page_addr c i) (page_size c) = Some bs →
      restored_page c ck i bs.
Proof.
  intros G I. destruct (export_run c G w I) as (bm & He & _ & Hb). eexists. split; [exact He|].
  split; [by rewrite (export_dirty_bitmap c w _ He)|]. simpl. split; [|split; [done|split; [done|]]].
  - rewrite <-list_fmap_compose. by apply list_fmap_id.
  - intros i bs Hi Hbs. by apply (restored_export c G w).
Qed.

Lemma demo_stored_inv : inv demo_client demo_stored.
Proof.
  exact (session_reach id demo_client demo_client_geom (λ u H, H) (λ u, le_n _) _ _ demo_reach
    (demo_inv _ _)).
Qed.

Lemma checkpoint_spec_witness :
  ∃ ck, export demo_client demo_stored = Ok ck ∧
    dirty_pages ck = [{| page_idx := 0; data := [0; 1; 77; 3] |}] ∧ private_bitmap ck = [1] ∧
    @restored_page demo_kernel demo_client ck 0 [0; 1; 77; 3].
Proof.
  destruct (@checkpoint_spec demo_kernel demo_ok demo_client demo_stored demo_client_geom
    demo_stored_inv) as (ck & He & _ & _ & _ & _ & Hr).
  exists ck. split; [exact He|].
  assert (Ok ck = export demo_client demo_stored) as E by (symmetry; exact He).
  vm_compute in E. injection E as E. split; [by rewrite E|]. split; [by rewrite E|].
  apply Hr; [simpl; lia|]. vm_compute. reflexivity.
Defined.

(** The service and the client constructors start a session: once
    [TemplateService::new] and [Client::new] succeed on a freshly mapped region,
    the client's geometry is sound, there is one UNLOADED record per page, and the
    session invariant holds. *)
Theorem session_start `{K : Kernel, !KernelOk K} size b k s k1 base k2 c p k3 :
  service_new size b k = (Ok s, k1) → client_new s base k2 = (Ok (c, p), k3) →
  Overlay.wf b → 0 ≤ size → (∃ n, 0 ≤ n < 64 ∧ ts_page_size s = 2 ^ n) →
  (ts_page_size s | base) → 0 ≤ base → base + size < 2 ^ 64 →
  (∀ x, base ≤ x < base + size → as_mapped (k_view k3) x = true ∧
     as_mem (k_view k3) x = None ∧ as_private (k_view k3) x = false) →
  geom c ∧ inv c {| kern := k3; meta := ts_meta s; proc_meta := p; stop := false |}.
Proof. apply start_inv. Qed.

Lemma session_start_witness :
  ∃ s k1 c p k3,
    @service_new demo_kernel 12 Overlay.demo_backend (demo_kst [] []) = (Ok s, k1) ∧
    @client_new demo_kernel s 64 (demo_kst [] []) = (Ok (c, p), k3) ∧
    inv c {| kern := k3; meta := ts_meta s; proc_meta := p; stop := false |}.
Proof.
  destruct (@service_new demo_kernel 12 Overlay.demo_backend (demo_kst [] [])) as [rs k1] eqn:Hs.
  eval_result Hs. match type of Hs with _ = (Ok ?s, _) => exists s; set (sv := s) in * end. exists k1.
  destruct (@client_new demo_kernel sv 64 (demo_kst [] [])) as [rc k3] eqn:Hc.
  assert (k3 = demo_kst [] []) as Hk3.
  { assert (k3 = (@client_new demo_kernel sv 64 (demo_kst [] [])).2) as -> by (by rewrite Hc). reflexivity. }
  eval_result Hc. match type of Hc with _ = (Ok (?c, ?p), _) => exists c, p end. exists k3.
  split; [reflexivity|]. split; [reflexivity|].
  apply (@session_start demo_kernel demo_ok 12 Overlay.demo_backend (demo_kst [] []) sv k1 64
           (demo_kst [] []) _ _ k3 Hs Hc Overlay.demo_backend_wf ltac:(lia)
           ltac:(exists 2; done) ltac:(exists 16; done) ltac:(lia) ltac:(lia)).
  intros x Hx. rewrite Hk3. split; [|done]. apply within_spec. exact Hx.
Defined.

End TemplateSession.
