(* ===== verification/Uffd.v ===== *)
(** * The userfaultfd bindings of the VMM

    Model of [cloud-hypervisor/vmm/src/userfaultfd.rs] (the ioctl numbers and their
    compile-time encoding check) and [vmm/src/uffd.rs] (the wrappers the restore
    path calls). *)

From S2P Require Import Prelude Kernel.

Module Uffd.

(** ** Ioctl numbers *)
Definition ioctl_ioc (dir typ nr size : Z) : Z :=
  Z.lor (Z.lor (Z.lor (Z.shiftl dir 30) (Z.shiftl size 16)) (Z.shiftl typ 8)) nr.
Definition IOC_READ : Z := 2.
Definition IOC_READWRITE : Z := 3.

(** The [const _: () = assert!(..)] lines, with the size of the argument struct. *)
Definition encoded_requests : list (Z * Z) :=
  [ (UFFDIO_API, ioctl_ioc IOC_READWRITE 0xAA 0x3F 24);
    (UFFDIO_REGISTER, ioctl_ioc IOC_READWRITE 0xAA 0x00 32);
    (UFFDIO_COPY, ioctl_ioc IOC_READWRITE 0xAA 0x03 40);
    (UFFDIO_WAKE, ioctl_ioc IOC_READ 0xAA 0x02 16);
    (UFFDIO_WRITEPROTECT, ioctl_ioc IOC_READWRITE 0xAA 0x06 24) ].

Definition UFFD_PAGEFAULT_FLAG_WRITE : Z := 1.
Definition UFFD_PAGEFAULT_FLAG_MINOR : Z := 4.
Definition UFFD_FEATURE_MISSING_HUGETLBFS : Z := 16.
Definition UFFD_API_RANGE_IOCTLS_BASIC : Z :=
  Z.lor (Z.lor (Z.shiftl 1 0x02) (Z.shiftl 1 0x03)) (Z.shiftl 1 0x06).

(** The fields of a request number, as the kernel's [_IOC_*] macros take them out. *)
Definition ioc_dir (x : Z) : Z := Z.land (Z.shiftr x 30) 3.
Definition ioc_size (x : Z) : Z := Z.land (Z.shiftr x 16) (2 ^ 14 - 1).
Definition ioc_type (x : Z) : Z := Z.land (Z.shiftr x 8) (2 ^ 8 - 1).
Definition ioc_nr (x : Z) : Z := Z.land x (2 ^ 8 - 1).

(** ** Wrappers *)
Section code.
Context `{K : Kernel}.

Definition EPERM : Z := 1.
Definition EACCES : Z := 13.

(** [ErrorKind::PermissionDenied] is what [std] makes of EPERM and EACCES. *)
Definition permission_denied (e : Z) : bool := (e =? EPERM) || (e =? EACCES).

Definition ioctl (fd request : Z) (arg : ioctl_arg) : M kst io_error ioctl_arg := λ k,
  match k_ioctl fd request arg k with
  | (inl e, k') => (Err (Os e), k')
  | (inr a, k') => (Ok a, k')
  end.

Definition create (required_features : Z) : M kst io_error Z := λ k,
  match k_syscall SYS_USERFAULTFD [Z.lor O_CLOEXEC O_NONBLOCK] k with
  | (inl e, k') =>
      (Err (if permission_denied e
            then Custom PermissionDenied
                   (strerror e +:+ "; on-demand restore requires userfaultfd permissions that can handle KVM/kernel-originated faults. Enable vm.unprivileged_userfaultfd=1 or run cloud-hypervisor with CAP_SYS_PTRACE")
            else Os e), k')
  | (inr fd, k') =>
      (_ ← ioctl fd UFFDIO_API
             (ArgApi {| api := UFFD_API; api_features := required_features; api_ioctls := 0 |});
       mret fd) k'
  end.

(** The ioctls the kernel reports for the range; an answer of another shape
    cannot happen and counts as zero. *)
Definition register (fd addr len : Z) : M kst io_error Z :=
  a ← ioctl fd UFFDIO_REGISTER
        (ArgRegister {| reg_range := {| ur_start := addr; ur_len := len |};
                        reg_mode := Z.lor UFFDIO_REGISTER_MODE_MISSING UFFDIO_REGISTER_MODE_WP;
                        reg_ioctls := 0 |});
  mret (match a with ArgRegister r => reg_ioctls r | _ => 0 end).

Definition copy_with_mode (fd dst : Z) (src : list Z) (len mode : Z) : M kst io_error unit :=
  _ ← ioctl fd UFFDIO_COPY
        (ArgCopy {| uc_dst := dst; uc_src := src; uc_len := len; uc_mode := mode; uc_copy := 0 |});
  mret tt.

Definition copy_wp (fd dst : Z) (src : list Z) (len : Z) : M kst io_error unit :=
  copy_with_mode fd dst src len UFFDIO_COPY_MODE_WP.

Definition wake (fd addr len : Z) : M kst io_error unit :=
  _ ← ioctl fd UFFDIO_WAKE (ArgRange {| ur_start := addr; ur_len := len |});
  mret tt.

Definition writeprotect_dontwake (fd addr len : Z) : M kst io_error unit :=
  _ ← ioctl fd UFFDIO_WRITEPROTECT
        (ArgWriteProtect {| wp_range := {| ur_start := addr; ur_len := len |};
                            wp_mode := UFFDIO_WRITEPROTECT_MODE_DONTWAKE |});
  mret tt.

End code.

(** ** Lemmas *)
Section lemmas.
Context `{K : Kernel, !KernelOk K}.

Lemma copy_wp_run fd a bs n k :
  ∃ r k', copy_wp fd a bs n k = (r, k') ∧ (k_intr k' ≤ k_intr k)%nat ∧
    ((r = Ok tt ∧ as_mem (k_view k) a = None ∧ k_view k' ≡ copy_view a bs n true (k_view k)) ∨
     (∃ e, r = Err (Os e) ∧ k_view k' ≡ k_view k ∧
        (e = EEXIST → is_Some (as_mem (k_view k) a)) ∧ (e = EAGAIN → (k_intr k' < k_intr k)%nat))).
Proof.
  unfold copy_wp, copy_with_mode, mbind, M_bind, ioctl.
  destruct (k_ioctl _ _ _ _) as [[e|x] k'] eqn:Hk; (eexists _, _; split; [done|]);
    (split; [by eapply k_ioctl_intr|]).
  - right. exists e. apply k_copy_err in Hk as Hk'. destruct Hk' as [Hv He]. split; [done|].
    split; [done|]. split; [done|]. intros ->. by eapply k_copy_again.
  - left. by apply k_copy_ok in Hk as [Hn Hv].
Qed.

Lemma wake_run fd a n k :
  ∃ r k', wake fd a n k = (r, k') ∧ (k_intr k' ≤ k_intr k)%nat ∧ k_view k' ≡ k_view k ∧
    (r = Ok tt ∨ ∃ e, r = Err (Os e)).
Proof.
  unfold wake, mbind, M_bind, ioctl.
  destruct (k_ioctl _ _ _ _) as [[e|x] k'] eqn:Hk; (eexists _, _; split; [done|]);
    (split; [by eapply k_ioctl_intr|]); (split; [by eapply k_wake_view|]); eauto.
Qed.

Lemma writeprotect_run fd a n k :
  ∃ r k', writeprotect_dontwake fd a n k = (r, k') ∧ (k_intr k' ≤ k_intr k)%nat ∧
    ((r = Ok tt ∧ k_view k' ≡ wp_view a n false (k_view k)) ∨
     ((∃ e, r = Err (Os e)) ∧ k_view k' ≡ k_view k)).
Proof.
  unfold writeprotect_dontwake, mbind, M_bind, ioctl.
  destruct (k_ioctl _ _ _ _) as [[e|x] k'] eqn:Hk; (eexists _, _; split; [done|]);
    (split; [by eapply k_ioctl_intr|]).
  - right. split; [eauto|]. by eapply k_wp_err.
  - left. split; [done|]. exact (k_wp_ok _ _ _ _ _ Hk).
Qed.

End lemmas.

Lemma testbit_small a i n : 0 ≤ a < 2 ^ n → n ≤ i → Z.testbit a i = false.
Proof.
  intros Ha Hi. destruct (decide (a = 0)) as [->|Hne]; [by apply Z.bits_0|].
  apply Z.bits_above_log2; [lia|]. assert (Z.log2 a < n) by (apply Z.log2_lt_pow2; lia). lia.
Qed.

Lemma lor_shiftl_add a b n : 0 ≤ n → 0 ≤ b < 2 ^ n → Z.lor (Z.shiftl a n) b = a * 2 ^ n + b.
Proof.
  intros Hn Hb. rewrite <-Z.shiftl_mul_pow2 by done.
  rewrite (Z.add_nocarry_lxor (Z.shiftl a n) b), Z.lxor_lor; [done|..];
    apply Z.bits_inj'; intros i Hi; rewrite Z.land_spec, Z.bits_0;
    (destruct (decide (i < n)); [by rewrite Z.shiftl_spec_low|]);
    (rewrite (testbit_small b i n) by lia; apply andb_false_r).
Qed.

(** The bit-or of [ioctl_ioc] is positional notation. *)
Lemma ioctl_ioc_sum dir typ nr size :
  0 ≤ typ < 2 ^ 8 → 0 ≤ nr < 2 ^ 8 → 0 ≤ size < 2 ^ 14 →
  ioctl_ioc dir typ nr size = ((dir * 2 ^ 14 + size) * 2 ^ 8 + typ) * 2 ^ 8 + nr.
Proof.
  intros Ht Hn Hs. unfold ioctl_ioc.
  replace 30 with (14 + 8 + 8) by done. replace 16 with (8 + 8) by done.
  rewrite <-!Z.shiftl_shiftl, <-!Z.shiftl_lor, !lor_shiftl_add by lia. done.
Qed.

Lemma field_of x a b n : x = a * 2 ^ n + b → 0 ≤ n → 0 ≤ b < 2 ^ n → Z.shiftr x n = a.
Proof. intros -> Hn Hb. rewrite Z.shiftr_div_pow2 by done. rewrite Z.div_add_l by lia. rewrite Z.div_small; lia. Qed.

Lemma field_low a b n : 0 ≤ n → 0 ≤ b < 2 ^ n → Z.land (a * 2 ^ n + b) (2 ^ n - 1) = b.
Proof.
  intros Hn Hb. rewrite Z.sub_1_r, <-Z.ones_equiv, Z.land_ones by done.
  rewrite Z.add_comm, Z.mod_add by lia. by apply Z.mod_small.
Qed.

(** An ioctl number keeps its four fields apart: direction, argument size, type
    and number are read back unchanged and the number fits the 32 bits that the
    seccomp filter compares; and the five numbers the code uses are the encodings
    of their argument sizes. *)
Theorem ioctl_ioc_fields dir typ nr size :
  0 ≤ dir < 4 → 0 ≤ typ < 2 ^ 8 → 0 ≤ nr < 2 ^ 8 → 0 ≤ size < 2 ^ 14 →
  let x := ioctl_ioc dir typ nr size in
  ioc_dir x = dir ∧ ioc_type x = typ ∧ ioc_nr x = nr ∧ ioc_size x = size ∧ is_u32 x ∧
  Forall (λ '(request, encoded), request = encoded) encoded_requests.
Proof.
  intros Hd Ht Hn Hs x. pose proof (ioctl_ioc_sum dir typ nr size Ht Hn Hs) as Hx. fold x in Hx.
  unfold ioc_dir, ioc_type, ioc_nr, ioc_size.
  rewrite (field_of x dir (size * 2 ^ 16 + typ * 2 ^ 8 + nr) 30),
    (field_of x (((dir * 2 ^ 14) + size) * 2 ^ 8 + typ) nr 8),
    (field_of x (dir * 2 ^ 14 + size) (typ * 2 ^ 8 + nr) 16) by lia.
  split; [exact (field_low 0 dir 2 ltac:(lia) ltac:(lia))|]. split; [by apply field_low|].
  split; [by rewrite Hx; apply field_low|]. split; [by apply field_low|].
  split; [unfold is_u32; lia|]. by repeat constructor.
Qed.

Lemma ioctl_ioc_fields_witness :
  ioc_size (ioctl_ioc 3 0xAA 3 40) = 40 ∧ ioc_dir UFFDIO_COPY = 3.
Proof.
  destruct (ioctl_ioc_fields 3 0xAA 3 40 ltac:(lia) ltac:(lia) ltac:(lia) ltac:(lia))
    as (_ & _ & _ & H & _). split; [exact H|reflexivity].
Defined.

End Uffd.
