(* ===== verification/RestoreBackend.v ===== *)
(** * The page layout of a template restore

    Model of the first part of [cloud-hypervisor/vmm/src/template_memory.rs]:
    [TemplateRange], the table of pages [TemplateRestoreBackend::new] lays out over
    the ranges, the translation of a fault address to a page, and the copy-on-write
    chunk around a page.  All arithmetic is on [u64] and panics on overflow. *)

From S2P Require Import Prelude.

Module RestoreBackend.

(** ** Definitions *)

Definition STATE_UNLOADED : Z := 0.
Definition STATE_LOADING : Z := 1.
Definition STATE_SHARED_READY : Z := 2.
Definition STATE_PRIVATE_DIRTY : Z := 3.
Definition DEFAULT_COW_CHUNK_SIZE : Z := 1024 * 1024.

Record TemplateRange := {
  host_addr : Z; length : Z; file_offset : Z; page_size : Z; first_page_index : Z }.

Record TemplateFault := {
  f_page_addr : Z; f_page_size : Z; f_page_index : Z; f_backend_offset : Z }.

Record TemplateCowChunk := {
  start_addr : Z; len : Z; c_first_page_index : Z; c_page_count : Z; c_page_size : Z }.

Record TemplatePageMeta := { state : Z; backend_offset : Z }.

Definition meta_new (off : Z) : TemplatePageMeta :=
  {| state := STATE_UNLOADED; backend_offset := off |}.

Section code.
Context {E : Type}.

Definition range_new (host len off ps : Z) : TemplateRange :=
  {| host_addr := host; length := len; file_offset := off; page_size := ps; first_page_index := 0 |}.

Definition page_count (r : TemplateRange) : res E Z := div_ceil (length r) (page_size r).

Definition locate (r : TemplateRange) (fault_addr : Z) : res E (option TemplateFault) :=
  mask ← usub (page_size r) 1;
  let page_addr := Z.land fault_addr (unot mask) in
  if page_addr <? host_addr r then Ok None
  else
    top ← uadd (host_addr r) (length r);
    if top <=? page_addr then Ok None
    else
      offset_in_range ← usub page_addr (host_addr r);
      q ← udiv offset_in_range (page_size r);
      index ← uadd (first_page_index r) q;
      off ← uadd (file_offset r) offset_in_range;
      Ok (Some {| f_page_addr := page_addr; f_page_size := page_size r;
                  f_page_index := index; f_backend_offset := off |}).

Definition set_first (r : TemplateRange) (i : Z) : TemplateRange :=
  {| host_addr := host_addr r; length := length r; file_offset := file_offset r;
     page_size := page_size r; first_page_index := i |}.

(** One turn of the outer loop of [TemplateRestoreBackend::new]; the accumulator has
    the ranges done, the pages pushed and [first_page_index]. *)
Definition lay_out_range (acc : list TemplateRange * list TemplatePageMeta * Z) (r : TemplateRange)
    : res E (list TemplateRange * list TemplatePageMeta * Z) :=
  let '(ranges, pages, first) := acc in
  n ← page_count r;
  pages' ← foldM (λ ps page,
                    d ← umul page (page_size r);
                    off ← uadd (file_offset r) d;
                    Ok (ps ++ [meta_new off])) pages (zrange 0 n);
  first' ← uadd first n;
  Ok (ranges ++ [set_first r first], pages', first').

Definition lay_out (ranges : list TemplateRange)
    : res E (list TemplateRange * list TemplatePageMeta) :=
  '(rs, ps, _) ← foldM lay_out_range ([], [], 0) ranges;
  Ok (rs, ps).

Definition total_pages (pages : list TemplatePageMeta) : Z := zlen pages.

(** [Iterator::max] over the page sizes. *)
Definition max_page_size (ranges : list TemplateRange) (default_page_size : Z) : Z :=
  match ranges with
  | [] => default_page_size
  | r :: rs => foldr (λ r' m, Z.max (page_size r') m) (page_size r) rs
  end.

(** [Iterator::find_map] *)
Fixpoint locate_fault (ranges : list TemplateRange) (fault_addr : Z) : res E (option TemplateFault) :=
  match ranges with
  | [] => Ok None
  | r :: rs =>
      o ← locate r fault_addr;
      match o with
      | Some f => Ok (Some f)
      | None => locate_fault rs fault_addr
      end
  end.

(** The closure of [cow_chunk_for_fault], with its short-circuit. *)
Definition holds_page (index : Z) (r : TemplateRange) : res E bool :=
  if first_page_index r <=? index then
    n ← page_count r;
    e ← uadd (first_page_index r) n;
    Ok (index <? e)
  else Ok false.

Fixpoint find_range (ranges : list TemplateRange) (index : Z) : res E (option TemplateRange) :=
  match ranges with
  | [] => Ok None
  | r :: rs =>
      b ← holds_page index r;
      if (b : bool) then Ok (Some r) else find_range rs index
  end.

Definition cow_chunk_size (page_size : Z) : Z :=
  if DEFAULT_COW_CHUNK_SIZE <=? page_size then page_size else DEFAULT_COW_CHUNK_SIZE.

Definition cow_chunk_for_fault (ranges : list TemplateRange) (fault : TemplateFault)
    : res E (option TemplateCowChunk) :=
  o ← find_range ranges (f_page_index fault);
  match o with
  | None => Ok None
  | Some range =>
      d ← usub (f_page_index fault) (first_page_index range);
      offset_in_range ← umul d (page_size range);
      let chunk_size := cow_chunk_size (page_size range) in
      q ← udiv offset_in_range chunk_size;
      chunk_offset ← umul q chunk_size;
      rest ← usub (length range) chunk_offset;
      let len := Z.min chunk_size rest in
      start ← uadd (host_addr range) chunk_offset;
      pages ← udiv chunk_offset (page_size range);
      first ← uadd (first_page_index range) pages;
      n ← div_ceil len (page_size range);
      Ok (Some {| start_addr := start; len := len; c_first_page_index := first;
                  c_page_count := n; c_page_size := page_size range |})
  end.

End code.

(** ** Specification *)

(** A range as the restore path registers it: whole pages of a power-of-two size,
    aligned in the address space. *)
Record range_ok (r : TemplateRange) : Prop := {
  r_pow : ∃ k, 0 ≤ k < 64 ∧ page_size r = 2 ^ k;
  r_align : (page_size r | host_addr r);
  r_whole : (page_size r | length r);
  r_len : 0 < length r;
  r_host : 0 ≤ host_addr r;
  r_top : host_addr r + length r < 2 ^ 64;
  r_off : 0 ≤ file_offset r;
  r_end : file_offset r + length r < 2 ^ 64 }.

Definition pages_of (r : TemplateRange) : Z := length r / page_size r.

(** The pages of the ranges laid out one after the other. *)
Fixpoint placed (first : Z) (ranges : list TemplateRange) : list TemplateRange :=
  match ranges with
  | [] => []
  | r :: rs => set_first r first :: placed (first + pages_of r) rs
  end.

Definition page_metas (r : TemplateRange) : list TemplatePageMeta :=
  (λ i, meta_new (file_offset r + i * page_size r)) <$> zrange 0 (pages_of r).

Fixpoint total (ranges : list TemplateRange) : Z :=
  match ranges with [] => 0 | r :: rs => pages_of r + total rs end.

Definition in_range (r : TemplateRange) (a : Z) : Prop := host_addr r ≤ a < host_addr r + length r.

(** Disjoint ranges, as distinct parts of the guest memory are. *)
Definition disjoint (rs : list TemplateRange) : Prop :=
  ∀ i j r r' a, rs !! i = Some r → rs !! j = Some r' → in_range r a → in_range r' a → i = j.

(** The fault for page [k] of a range, and its chunk number [q]. *)
Definition fault_at (r : TemplateRange) (k : Z) : TemplateFault :=
  {| f_page_addr := host_addr r + k * page_size r; f_page_size := page_size r;
     f_page_index := first_page_index r + k;
     f_backend_offset := file_offset r + k * page_size r |}.

Definition chunk_pages (r : TemplateRange) : Z := cow_chunk_size (page_size r) / page_size r.

Definition chunk_at (r : TemplateRange) (q : Z) : TemplateCowChunk :=
  let n := Z.min (chunk_pages r) (pages_of r - q * chunk_pages r) in
  {| start_addr := host_addr r + q * chunk_pages r * page_size r; len := n * page_size r;
     c_first_page_index := first_page_index r + q * chunk_pages r;
     c_page_count := n; c_page_size := page_size r |}.

(** Ranges whose pages are numbered one range after the other. *)
Fixpoint numbered (first : Z) (rs : list TemplateRange) : Prop :=
  match rs with
  | [] => True
  | r :: rs' => first_page_index r = first ∧ numbered (first + pages_of r) rs'
  end.

Record layout_ok (rs : list TemplateRange) : Prop := {
  l_ranges : Forall range_ok rs;
  l_numbered : numbered 0 rs;
  l_total : total rs < 2 ^ 64;
  l_disjoint : disjoint rs }.

(** ** Lemmas *)
Section lemmas.
Context {E : Type}.
Implicit Types (r : TemplateRange) (rs : list TemplateRange).

Lemma r_size_pos r : range_ok r → 0 < page_size r.
Proof. intros [(k & Hk & ->) _ _ _ _ _ _ _]. apply Z.pow_pos_nonneg; lia. Qed.

Lemma r_length r : range_ok r → length r = pages_of r * page_size r.
Proof.
  intros H. pose proof (r_size_pos r H). destruct (r_whole r H) as [n Hn]. unfold pages_of.
  rewrite Hn, Z.div_mul by lia. done.
Qed.

Lemma pages_pos r : range_ok r → 0 < pages_of r.
Proof. intros H. pose proof (r_size_pos r H). pose proof (r_length r H). pose proof (r_len r H). nia. Qed.

Lemma page_count_ok r : range_ok r → page_count (E:=E) r = Ok (pages_of r).
Proof.
  intros H. pose proof (r_size_pos r H). unfold page_count, div_ceil.
  destruct (Z.eqb_spec (page_size r) 0); [lia|]. rewrite (r_length r H) at 1.
  by rewrite ceil_div_exact by lia.
Qed.

Lemma range_ok_set_first r i : range_ok r → range_ok (set_first r i).
Proof. by intros []. Qed.

Lemma lay_out_range_ok rs ps first r :
  range_ok r → 0 ≤ first → first + pages_of r < 2 ^ 64 →
  lay_out_range (E:=E) (rs, ps, first) r =
    Ok (rs ++ [set_first r first], ps ++ page_metas r, first + pages_of r).
Proof.
  intros H Hf Ht. pose proof (r_size_pos r H). pose proof (pages_pos r H). pose proof (r_length r H).
  pose proof (r_off r H) as Ho. pose proof (r_end r H) as He. unfold lay_out_range. rewrite page_count_ok by done. simpl.
  match goal with |- context [foldM ?f ps ?l] =>
    destruct (foldM_inv (E:=E) f (λ seen acc, acc = ps ++ ((λ i, meta_new (file_offset r + i * page_size r)) <$> seen))
      ps l) as (ps' & -> & ->) end.
  - by rewrite app_nil_r.
  - intros seen x acc -> (rest & Hx).
    assert (x ∈ zrange 0 (pages_of r)) as Hin by (rewrite Hx; set_solver).
    unfold zrange in Hin. apply elem_of_seqZ in Hin.
    rewrite umul_ok by (unfold is_u64; nia). simpl. rewrite uadd_ok by (unfold is_u64; nia). simpl.
    eexists. split; [done|]. by rewrite fmap_app, app_assoc.
  - simpl. rewrite uadd_ok by (unfold is_u64; lia). done.
Qed.

Lemma total_nonneg rs : Forall range_ok rs → 0 ≤ total rs.
Proof. induction 1 as [|r rs H _ IH]; simpl; [lia|]. pose proof (pages_pos r H). lia. Qed.

Lemma lay_out_fold rs : ∀ acc ps first,
  Forall range_ok rs → 0 ≤ first → first + total rs < 2 ^ 64 →
  foldM (lay_out_range (E:=E)) (acc, ps, first) rs =
    Ok (acc ++ placed first rs, ps ++ mjoin (page_metas <$> rs), first + total rs).
Proof.
  induction rs as [|r rs IH]; intros acc ps first Hok Hf Ht; cbn [foldM placed total].
  - simpl. by rewrite !app_nil_r, Z.add_0_r.
  - apply Forall_cons in Hok as [Hr Hok]. cbn [total] in Ht.
    pose proof (total_nonneg rs Hok). pose proof (pages_pos r Hr).
    rewrite lay_out_range_ok by (done || lia). cbn [mbind res_bind].
    rewrite IH by (done || lia). rewrite <-!app_assoc, <-Z.add_assoc. done.
Qed.

Lemma numbered_placed first rs : numbered first (placed first rs).
Proof. revert first. induction rs as [|r rs IH]; intros first; simpl; [done|]. split; [done|]. apply IH. Qed.

Lemma total_placed first rs : total (placed first rs) = total rs.
Proof. revert first. induction rs as [|r rs IH]; intros first; simpl; [done|]. by rewrite IH. Qed.

Lemma placed_ok first rs : Forall range_ok rs → Forall range_ok (placed first rs).
Proof.
  intros H. revert first. induction H; intros first; simpl; constructor; [by apply range_ok_set_first|done].
Qed.

Lemma page_metas_placed first rs : page_metas <$> placed first rs = page_metas <$> rs.
Proof. revert first. induction rs as [|r rs IH]; intros first; simpl; [done|]. by rewrite IH. Qed.

Lemma placed_in_range first rs i r :
  placed first rs !! i = Some r → ∃ r0, rs !! i = Some r0 ∧ ∀ a, in_range r a ↔ in_range r0 a.
Proof.
  revert first i. induction rs as [|r0 rs IH]; intros first [|i] H; simpl in *; try done.
  - injection H as <-. by exists r0.
  - by eapply IH.
Qed.

Lemma zlen_page_metas r : range_ok r → zlen (page_metas r) = pages_of r.
Proof.
  intros H. pose proof (pages_pos r H). unfold page_metas, zrange.
  rewrite zlen_fmap, zlen_seqZ by lia. lia.
Qed.

(** The numbers of the pages of a numbered list lie in [first .. first + total). *)
Lemma numbered_bounds first rs i r :
  Forall range_ok rs → numbered first rs → rs !! i = Some r →
  first ≤ first_page_index r ∧ first_page_index r + pages_of r ≤ first + total rs.
Proof.
  revert first i. induction rs as [|r0 rs IH]; intros first [|i] Hok Hnum Hi; simpl in *; try done;
    destruct Hnum as [Hf Hn]; apply Forall_cons in Hok as [H0 Hok]; pose proof (total_nonneg rs Hok); pose proof (pages_pos r0 H0).
  - injection Hi as ->. lia.
  - destruct (IH _ _ Hok Hn Hi). lia.
Qed.

(** The page table: page [k] of a range is at its number, with its file offset. *)
Lemma page_table first rs i r k :
  Forall range_ok rs → numbered first rs → rs !! i = Some r → 0 ≤ k < pages_of r →
  znth (mjoin (page_metas <$> rs)) (first_page_index r - first + k) =
    Some (meta_new (file_offset r + k * page_size r)).
Proof.
  revert first i. induction rs as [|r0 rs IH]; intros first i Hok Hnum Hi Hk; [done|].
  pose proof (numbered_bounds first _ i r Hok Hnum Hi) as [Hb0 _]. destruct Hnum as [Hf Hn].
  apply Forall_cons in Hok as [H0 Hok]. cbn [fmap list_fmap mjoin list_join].
  rewrite znth_app, (zlen_page_metas r0 H0) by lia. destruct i as [|i]; simpl in Hi.
  - injection Hi as ->. rewrite Hf. replace (first - first + k) with k by lia.
    destruct (Z.ltb_spec k (pages_of r)); [|lia].
    unfold page_metas, zrange. rewrite znth_fmap, znth_seqZ by lia. simpl. by rewrite Z.add_0_l.
  - destruct (numbered_bounds _ _ _ _ Hok Hn Hi) as [Hb _].
    destruct (Z.ltb_spec (first_page_index r - first + k) (pages_of r0)); [lia|].
    replace (first_page_index r - first + k - pages_of r0)
      with (first_page_index r - (first + pages_of r0) + k) by lia.
    exact (IH _ i Hok Hn Hi Hk).
Qed.

(** ** Fault addresses *)

Lemma range_page r a :
  range_ok r → in_range r a → 0 ≤ (a - host_addr r) / page_size r < pages_of r ∧
    a - a mod page_size r = host_addr r + (a - host_addr r) / page_size r * page_size r.
Proof.
  intros H Ha. pose proof (r_size_pos r H) as Hp. pose proof (r_length r H) as Hl. unfold in_range in Ha.
  split.
  - split; [apply Z.div_pos; lia|]. apply Z.div_lt_upper_bound; lia.
  - destruct (r_align r H) as [m Hm].
    rewrite (Z.mod_eq a) by lia. assert (a / page_size r = m + (a - host_addr r) / page_size r) as ->; [|lia].
    replace a with (m * page_size r + (a - host_addr r)) at 1 by lia. by rewrite Z.div_add_l by lia.
Qed.

Lemma page_addr_in_range r a :
  range_ok r → 0 ≤ a → in_range r (a - a mod page_size r) ↔ in_range r a.
Proof.
  intros H Ha0. pose proof (r_size_pos r H) as Hp. pose proof (r_length r H) as Hl.
  pose proof (Z.mod_pos_bound a _ Hp) as Hm. split; intros Ha.
  - destruct (range_page r _ H Ha) as [[_ Hk] _]. unfold in_range in *. split; [lia|].
    destruct (r_align r H) as [m Hm']. pose proof (Z.div_mod a (page_size r) ltac:(lia)) as Hd.
    assert (a / page_size r < m + pages_of r); [|nia].
    apply Z.lt_nge. intros Hge. nia.
  - destruct (range_page r a H Ha) as [[Hk0 Hk] ->]. unfold in_range. nia.
Qed.

Lemma locate_ok r a :
  range_ok r → is_u64 a → 0 ≤ first_page_index r → first_page_index r + pages_of r < 2 ^ 64 →
  (in_range r a → locate (E:=E) r a = Ok (Some (fault_at r ((a - host_addr r) / page_size r)))) ∧
  (¬ in_range r a → locate (E:=E) r a = Ok None).
Proof.
  intros H Ha Hf Ht. pose proof (r_size_pos r H) as Hp. pose proof (r_top r H) as Htop.
  pose proof (r_host r H) as Hh. pose proof (r_len r H) as Hlen. unfold locate.
  destruct (r_pow r H) as (p & Hp64 & Hpow).
  assert (page_size r < 2 ^ 64) by (rewrite Hpow; apply Z.pow_lt_mono_r; lia).
  rewrite usub_ok by (unfold is_u64; lia). simpl.
  assert (Z.land a (unot (page_size r - 1)) = a - a mod page_size r) as ->
    by (rewrite Hpow; apply land_unot_pow2; [lia|done]).
  pose proof (page_addr_in_range r a H ltac:(unfold is_u64 in Ha; lia)) as Hiff.
  unfold in_range in Hiff at 1. split; intros Hin.
  - destruct (range_page r a H Hin) as [Hk Heq]. apply Hiff in Hin as Hin'.
    destruct (Z.ltb_spec (a - a mod page_size r) (host_addr r)); [lia|].
    rewrite uadd_ok by (unfold is_u64; lia). simpl.
    destruct (Z.leb_spec (host_addr r + length r) (a - a mod page_size r)); [lia|].
    rewrite Heq. set (k := (a - host_addr r) / page_size r) in *.
    pose proof (r_off r H). pose proof (r_end r H). pose proof (r_length r H).
    rewrite usub_ok by (unfold is_u64; nia). simpl.
    replace (host_addr r + k * page_size r - host_addr r) with (k * page_size r) by lia.
    rewrite udiv_ok by lia. simpl. rewrite Z.div_mul by lia.
    rewrite uadd_ok by (unfold is_u64; lia). simpl.
    rewrite uadd_ok by (unfold is_u64; nia). simpl. done.
  - destruct (Z.ltb_spec (a - a mod page_size r) (host_addr r)); [done|].
    rewrite uadd_ok by (unfold is_u64; lia). simpl.
    destruct (Z.leb_spec (host_addr r + length r) (a - a mod page_size r)); [done|].
    exfalso. apply Hin, Hiff. lia.
Qed.

Lemma layout_range rs i r :
  layout_ok rs → rs !! i = Some r →
  range_ok r ∧ 0 ≤ first_page_index r ∧ first_page_index r + pages_of r < 2 ^ 64.
Proof.
  intros [H1 H2 H3 _] Hi. destruct (numbered_bounds _ _ _ _ H1 H2 Hi).
  split; [by eapply Forall_lookup_1|]. lia.
Qed.

Lemma locate_fault_in rs i r a :
  layout_ok rs → rs !! i = Some r → is_u64 a → in_range r a →
  locate_fault (E:=E) rs a = Ok (Some (fault_at r ((a - host_addr r) / page_size r))).
Proof.
  intros L Hi Ha Hin.
  assert (∀ j r', rs !! j = Some r' → range_ok r' ∧ 0 ≤ first_page_index r' ∧
            first_page_index r' + pages_of r' < 2 ^ 64 ∧ (in_range r' a → j = i)) as Hall.
  { intros j r' Hj. destruct (layout_range rs j r' L Hj) as (?&?&?). split; [done|]. split; [done|].
    split; [done|]. intros Hin'. by apply (l_disjoint rs L j i r' r a). }
  clear L. revert i Hi Hall. induction rs as [|r0 rs IH]; intros i Hi Hall; [done|].
  cbn [locate_fault]. destruct (Hall 0%nat r0 eq_refl) as (H0 & Hf & Ht & Hd).
  destruct (locate_ok r0 a H0 Ha Hf Ht) as [Hyes Hno]. destruct i as [|i]; simpl in Hi.
  - injection Hi as ->. by rewrite (Hyes Hin).
  - rewrite Hno by (intros Hin0; by specialize (Hd Hin0)). simpl.
    apply (IH i Hi). intros j r' Hj. destruct (Hall (S j) r' Hj) as (?&?&?&Hd').
    split; [done|]. split; [done|]. split; [done|]. intros Hin'. specialize (Hd' Hin'). by injection Hd'.
Qed.

Lemma locate_fault_out rs a :
  layout_ok rs → is_u64 a → (∀ i r, rs !! i = Some r → ¬ in_range r a) →
  locate_fault (E:=E) rs a = Ok None.
Proof.
  intros L Ha Hout.
  assert (∀ j r', rs !! j = Some r' → locate (E:=E) r' a = Ok None) as Hall.
  { intros j r' Hj. destruct (layout_range rs j r' L Hj) as (H0&Hf&Ht).
    apply (locate_ok r' a H0 Ha Hf Ht). by eapply Hout. }
  clear L Hout. induction rs as [|r0 rs IH]; [done|]. cbn [locate_fault].
  rewrite (Hall 0%nat r0 eq_refl). simpl. apply IH. intros j r' Hj. by apply (Hall (S j)).
Qed.

(** ** Chunks *)

Lemma find_range_gen first rs i r k :
  Forall range_ok rs → numbered first rs → 0 ≤ first → first + total rs < 2 ^ 64 →
  rs !! i = Some r → 0 ≤ k < pages_of r →
  find_range (E:=E) rs (first_page_index r + k) = Ok (Some r).
Proof.
  revert first i. induction rs as [|r0 rs IH]; intros first i Hok Hnum Hf Ht Hi Hk; [done|].
  pose proof (numbered_bounds first _ i r Hok Hnum Hi) as [Hb0 Hb1]. destruct Hnum as [Hf0 Hn].
  apply Forall_cons in Hok as [H0 Hok]. cbn [total] in Ht, Hb1. pose proof (total_nonneg rs Hok).
  pose proof (pages_pos r0 H0). cbn [find_range]. unfold holds_page. rewrite page_count_ok by done.
  destruct (Z.leb_spec (first_page_index r0) (first_page_index r + k)); [|lia]. simpl.
  rewrite uadd_ok by (unfold is_u64; lia). simpl. destruct i as [|i]; simpl in Hi.
  - injection Hi as ->.
    by destruct (Z.ltb_spec (first_page_index r + k) (first_page_index r + pages_of r)); [|lia].
  - destruct (numbered_bounds _ _ _ _ Hok Hn Hi) as [Hb _].
    destruct (Z.ltb_spec (first_page_index r + k) (first_page_index r0 + pages_of r0)); [lia|].
    apply (IH _ i Hok Hn); (done || lia).
Qed.

Lemma chunk_pages_ok r :
  range_ok r → 0 < chunk_pages r ∧ cow_chunk_size (page_size r) = chunk_pages r * page_size r ∧
    cow_chunk_size (page_size r) < 2 ^ 64.
Proof.
  intros H. pose proof (r_size_pos r H) as Hp. destruct (r_pow r H) as (p & Hp64 & Hpow).
  assert (page_size r < 2 ^ 64) by (rewrite Hpow; apply Z.pow_lt_mono_r; lia).
  unfold chunk_pages, cow_chunk_size, DEFAULT_COW_CHUNK_SIZE.
  destruct (Z.leb_spec (1024 * 1024) (page_size r)).
  - rewrite Z.div_same by lia. lia.
  - assert (p < 20) by (apply (Z.pow_lt_mono_r_iff 2); lia).
    replace (1024 * 1024) with (2 ^ (20 - p) * 2 ^ p) 
      by (rewrite <-Z.pow_add_r by lia; by replace (20 - p + p) with 20 by lia).
    rewrite Hpow, Z.div_mul by (apply Z.pow_nonzero; lia).
    assert (0 < 2 ^ (20 - p)) by (apply Z.pow_pos_nonneg; lia). split; [done|]. split; [done|].
    rewrite <-Z.pow_add_r by lia. apply Z.pow_lt_mono_r; lia.
Qed.

Lemma cow_chunk_ok rs i r k :
  layout_ok rs → rs !! i = Some r → 0 ≤ k < pages_of r →
  cow_chunk_for_fault (E:=E) rs (fault_at r k) = Ok (Some (chunk_at r (k / chunk_pages r))).
Proof.
  intros L Hi Hk. destruct (layout_range rs i r L Hi) as (H & Hf & Ht).
  pose proof (r_size_pos r H) as Hp. pose proof (r_length r H) as Hl. pose proof (r_top r H).
  pose proof (r_host r H). destruct (chunk_pages_ok r H) as (Hc & Hcs & Hcs64).
  destruct L as [L1 L2 L3 _]. unfold cow_chunk_for_fault.
  cbn [fault_at f_page_index]. rewrite (find_range_gen 0 rs i r k) by (done || lia). simpl.
  rewrite usub_ok by (unfold is_u64; lia). simpl.
  replace (first_page_index r + k - first_page_index r) with k by lia.
  rewrite umul_ok by (unfold is_u64; nia). simpl.
  rewrite udiv_ok by lia. simpl. rewrite Hcs. rewrite Z.div_mul_cancel_r by lia.
  set (q := k / chunk_pages r).
  assert (0 ≤ q) by (apply Z.div_pos; lia).
  assert (q * chunk_pages r ≤ k) by (rewrite Z.mul_comm; apply Z.mul_div_le; lia).
  set (m := q * chunk_pages r) in *.
  replace (q * (chunk_pages r * page_size r)) with (m * page_size r) by lia.
  rewrite umul_ok by (unfold is_u64; nia).
  replace (q * (chunk_pages r * page_size r)) with (m * page_size r) by lia. simpl.
  rewrite usub_ok by (unfold is_u64; nia). simpl. rewrite uadd_ok by (unfold is_u64; nia). simpl.
  rewrite udiv_ok by lia. simpl. rewrite Z.div_mul by lia. rewrite uadd_ok by (unfold is_u64; lia). simpl.
  rewrite Hl. replace (pages_of r * page_size r - m * page_size r) with ((pages_of r - m) * page_size r) by lia.
  rewrite Z.mul_min_distr_nonneg_r by lia. unfold div_ceil.
  destruct (Z.eqb_spec (page_size r) 0); [lia|]. rewrite ceil_div_exact by lia. simpl.
  unfold chunk_at. fold m. done.
Qed.

Lemma lay_out_ok rs :
  Forall range_ok rs → disjoint rs → total rs < 2 ^ 64 →
  lay_out (E:=E) rs = Ok (placed 0 rs, mjoin (page_metas <$> rs)) ∧ layout_ok (placed 0 rs).
Proof.
  intros Hok Hd Ht. unfold lay_out. rewrite lay_out_fold by (done || lia). split; [done|]. split.
  - by apply placed_ok.
  - apply numbered_placed.
  - by rewrite total_placed.
  - intros i j r r' a Hi Hj Hr Hr'. destruct (placed_in_range _ _ _ _ Hi) as (r0 & Hi0 & H0).
    destruct (placed_in_range _ _ _ _ Hj) as (r1 & Hj1 & H1). apply H0 in Hr. apply H1 in Hr'.
    exact (Hd i j r0 r1 a Hi0 Hj1 Hr Hr').
Qed.

(** Every number below the total belongs to a page of some range. *)
Lemma numbered_cover first rs idx :
  Forall range_ok rs → numbered first rs → first ≤ idx < first + total rs →
  ∃ i r k, rs !! i = Some r ∧ 0 ≤ k < pages_of r ∧ idx = first_page_index r + k.
Proof.
  revert first. induction rs as [|r0 rs IH]; intros first Hok Hnum Hx; simpl in Hx; [lia|].
  destruct Hnum as [Hf Hn]. apply Forall_cons in Hok as [_ Hok].
  destruct (decide (idx < first + pages_of r0)).
  - exists 0%nat, r0, (idx - first). split; [done|]. lia.
  - destruct (IH _ Hok Hn ltac:(lia)) as (i & r & k & Hi & Hk). by exists (S i), r, k.
Qed.

Lemma zlen_metas rs : Forall range_ok rs → zlen (mjoin (page_metas <$> rs)) = total rs.
Proof.
  induction 1 as [|r rs H _ IH]; [done|].
  change (mjoin (page_metas <$> r :: rs)) with (page_metas r ++ mjoin (page_metas <$> rs)).
  cbn [total]. by rewrite zlen_app, zlen_page_metas, IH.
Qed.

(** The chunk of page [k] as pages of its range. *)
Lemma chunk_at_pages r k :
  range_ok r → 0 ≤ k < pages_of r →
  let q := k / chunk_pages r in
  0 ≤ q * chunk_pages r ∧ q * chunk_pages r ≤ k < q * chunk_pages r + c_page_count (chunk_at r q) ∧
  q * chunk_pages r + c_page_count (chunk_at r q) ≤ pages_of r ∧
  c_page_count (chunk_at r q) ≤ chunk_pages r ∧
  ∀ k', q * chunk_pages r ≤ k' < q * chunk_pages r + c_page_count (chunk_at r q) →
    k' / chunk_pages r = q.
Proof.
  intros H Hk q. destruct (chunk_pages_ok r H) as (Hc & _ & _).
  pose proof (Z.div_pos k _ (proj1 Hk) Hc). fold q in H0.
  pose proof (Z.div_mod k (chunk_pages r) ltac:(lia)) as Hd. fold q in Hd.
  pose proof (Z.mod_pos_bound k _ Hc). cbn [chunk_at c_page_count].
  split; [nia|]. split; [lia|]. split; [lia|]. split; [lia|]. intros k' Hk'.
  symmetry. apply (Z.div_unique_pos k' (chunk_pages r) q (k' - q * chunk_pages r)); lia.
Qed.

End lemmas.

(** ** Properties *)

(** [TemplateRestoreBackend::new] numbers the pages of all ranges consecutively:
    the table has one UNLOADED entry per page with that page's file offset, every
    index below the total is the page of exactly the range that claims it, and no
    step overflows. *)
Theorem lay_out_spec {E} rs :
  Forall range_ok rs → disjoint rs → total rs < 2 ^ 64 →
  ∃ rs' pages, @lay_out E rs = Ok (rs', pages) ∧ layout_ok rs' ∧ total_pages pages = total rs ∧
    (∀ i r k, rs' !! i = Some r → 0 ≤ k < pages_of r →
       znth pages (first_page_index r + k) = Some (meta_new (file_offset r + k * page_size r))) ∧
    (∀ idx, 0 ≤ idx < total rs →
       ∃ i r k, rs' !! i = Some r ∧ 0 ≤ k < pages_of r ∧ idx = first_page_index r + k).
Proof.
  intros Hok Hd Ht. destruct (lay_out_ok (E:=E) rs Hok Hd Ht) as [Hl L].
  eexists _, _. split; [exact Hl|]. split; [exact L|]. split; [by apply zlen_metas|]. split.
  - intros i r k Hi Hk. rewrite <-(page_metas_placed 0 rs).
    replace (first_page_index r + k) with (first_page_index r - 0 + k) by lia.
    by apply (page_table 0 (placed 0 rs) i); [apply L|apply L|..].
  - intros idx Hx. apply (numbered_cover 0); [apply L|apply L|by rewrite total_placed].
Qed.

Definition demo_ranges : list TemplateRange :=
  [ range_new 0x10000 0x3000 0 0x1000; range_new 0x40000 0x8000 0x3000 0x2000 ].

Lemma demo_ranges_ok : Forall range_ok demo_ranges ∧ disjoint demo_ranges.
Proof.
  split.
  - repeat constructor; try done; simpl;
      [by exists 12|by exists 16|by exists 3|by exists 13|by exists 32|by exists 4].
  - intros i j r r' a Hi Hj. unfold demo_ranges in *.
    destruct i as [|[|i]], j as [|[|j]]; simpl in *; try done;
      injection Hi as <-; injection Hj as <-; unfold in_range; simpl; lia.
Qed.

Lemma lay_out_spec_witness :
  ∃ rs' pages, @lay_out unit demo_ranges = Ok (rs', pages) ∧ layout_ok rs' ∧ total_pages pages = 7.
Proof.
  destruct (@lay_out_spec unit demo_ranges (proj1 demo_ranges_ok) (proj2 demo_ranges_ok) ltac:(vm_compute; done))
    as (rs' & pages & H1 & H2 & H3 & _).
  exists rs', pages. split; [exact H1|]. split; [exact H2|]. rewrite H3. reflexivity.
Defined.

(** The translation of fault addresses is exact: [locate_fault] never panics,
    finds a page exactly for the addresses of the ranges, and the page it finds
    contains the address and carries that page's index and file offset. *)
Theorem locate_fault_spec {E} rs a :
  layout_ok rs → is_u64 a →
  ∃ o, @locate_fault E rs a = Ok o ∧
    match o with
    | Some f => ∃ i r k, rs !! i = Some r ∧ 0 ≤ k < pages_of r ∧ f = fault_at r k ∧
        f_page_addr f ≤ a < f_page_addr f + f_page_size f
    | None => ∀ i r, rs !! i = Some r → ¬ in_range r a
    end.
Proof.
  intros L Ha. destruct (decide (Exists (λ r, host_addr r ≤ a < host_addr r + length r) rs)) as [Hex|Hno].
  - apply Exists_exists in Hex as (r & Hr & Hin). apply list_elem_of_lookup_1 in Hr as [i Hi].
    rewrite (locate_fault_in rs i r a L Hi Ha Hin). eexists. split; [done|]. simpl.
    destruct (layout_range rs i r L Hi) as (H & _). destruct (range_page r a H Hin) as [Hk Heq].
    exists i, r, ((a - host_addr r) / page_size r). split; [done|]. split; [done|]. split; [done|].
    simpl. rewrite <-Heq. pose proof (Z.mod_pos_bound a _ (r_size_pos r H)). lia.
  - assert (∀ i r, rs !! i = Some r → ¬ in_range r a) as Hout.
    { intros i r Hi Hin. apply Hno, Exists_exists.
      exists r. split; [by eapply list_elem_of_lookup_2|exact Hin]. }
    rewrite locate_fault_out by done. by exists None.
Qed.

Definition demo_placed : list TemplateRange := placed 0 demo_ranges.

Lemma demo_placed_ok : layout_ok demo_placed.
Proof. exact (proj2 (lay_out_ok (E:=unit) _ (proj1 demo_ranges_ok) (proj2 demo_ranges_ok) eq_refl)). Qed.

Lemma locate_fault_spec_witness :
  ∃ f, @locate_fault unit demo_placed 0x45123 = Ok (Some f) ∧ f_page_index f = 5 ∧
    f_backend_offset f = 0x7000 ∧ @locate_fault unit demo_placed 0x13000 = Ok None.
Proof.
  destruct (@locate_fault_spec unit demo_placed 0x45123 demo_placed_ok ltac:(unfold is_u64; lia)) as (o & H & _).
  vm_compute in H. injection H as <-. eexists. split; [reflexivity|]. done.
Defined.

(** The copy-on-write chunk of a page lies inside its range, contains the page,
    is a whole number of pages no longer than the chunk size, starts at the address
    of its first page, and is the same for every page in it, so that chunks
    partition a range. *)
Theorem cow_chunk_spec {E} rs i r k :
  layout_ok rs → rs !! i = Some r → 0 ≤ k < pages_of r →
  ∃ c, @cow_chunk_for_fault E rs (fault_at r k) = Ok (Some c) ∧
    first_page_index r ≤ c_first_page_index c ∧
    c_first_page_index c ≤ first_page_index r + k < c_first_page_index c + c_page_count c ∧
    c_first_page_index c + c_page_count c ≤ first_page_index r + pages_of r ∧
    start_addr c = host_addr r + (c_first_page_index c - first_page_index r) * page_size r ∧
    c_page_size c = page_size r ∧ len c = c_page_count c * page_size r ∧
    len c ≤ cow_chunk_size (page_size r) ∧
    ∀ k', c_first_page_index c ≤ first_page_index r + k' < c_first_page_index c + c_page_count c →
      @cow_chunk_for_fault E rs (fault_at r k') = Ok (Some c).
Proof.
  intros L Hi Hk. destruct (layout_range rs i r L Hi) as (H & _ & _).
  pose proof (chunk_at_pages r k H Hk) as (Hq & Hin & Hend & Hcp & Hsame). cbv zeta in *.
  destruct (chunk_pages_ok r H) as (Hc & Hcs & _). pose proof (r_size_pos r H).
  exists (chunk_at r (k / chunk_pages r)). split; [by apply (cow_chunk_ok rs i)|].
  set (q := k / chunk_pages r) in *. set (n := c_page_count (chunk_at r q)) in *.
  change (c_first_page_index (chunk_at r q)) with (first_page_index r + q * chunk_pages r).
  change (len (chunk_at r q)) with (n * page_size r).
  split; [lia|]. split; [lia|]. split; [lia|].
  split; [simpl; f_equal; lia|]. split; [done|]. split; [done|]. split; [nia|].
  intros k' Hk'. rewrite (cow_chunk_ok rs i r k' L Hi) by lia. by rewrite Hsame by lia.
Qed.

Lemma cow_chunk_spec_witness :
  ∃ c, @cow_chunk_for_fault unit demo_placed (fault_at (set_first (range_new 0x40000 0x8000 0x3000 0x2000) 3) 2)
         = Ok (Some c) ∧ start_addr c = 0x40000 ∧ len c = 0x8000.
Proof.
  destruct (@cow_chunk_spec unit demo_placed 1 (set_first (range_new 0x40000 0x8000 0x3000 0x2000) 3) 2
    demo_placed_ok eq_refl ltac:(vm_compute; done)) as (c & H & _).
  exists c. split; [exact H|]. vm_compute in H. injection H as <-. done.
Defined.

End RestoreBackend.
