(* ===== verification/RestoreSource.v ===== *)
(** * Where a template restore reads its pages

    Model of [TemplatePageSource], [TemplateServiceClient] and the two arms of
    [TemplateRestoreBackend::read_page] in
    [cloud-hypervisor/vmm/src/template_memory.rs].  The class [Stream] is the
    connected [UnixStream]; the class [SourceOk] is what the fault handler needs
    of a source, and is discharged here for a snapshot file and in [ServiceWire]
    for a connection to the template service. *)

From S2P Require Import Prelude Kernel.

Module RestoreSource.

(** ** Streams *)

(** [write_all] and [read_exact] on a connected socket. *)
Class Stream := {
  sst : Type;
  s_write_all : list Z → sst → (io_error + unit) * sst;
  s_read_exact : Z → sst → (io_error + list Z) * sst }.

Definition of_sum {S A} (call : S → (io_error + A) * S) : M S io_error A := λ s,
  match call s with
  | (inl e, s') => (Err e, s')
  | (inr a, s') => (Ok a, s')
  end.

Inductive TemplatePageSource :=
| File (fd : Z)
| Service.

Section code.
Context `{K : Kernel} `{St : Stream}.

(** [TemplateServiceClient::read_page] *)
Definition client_read_page (offset n : Z) : M sst io_error (list Z) :=
  len ← lift (if n <=? U32_MAX then Ok n
              else Err (Custom InvalidInputKind "template page request exceeds u32::MAX"));
  _ ← of_sum (s_write_all (le_bytes 8 offset));
  _ ← of_sum (s_write_all (le_bytes 4 len));
  header ← of_sum (s_read_exact 8);
  let status := of_le_bytes (slice header 0 4) in
  let response_len := of_le_bytes (slice header 4 4) in
  if negb (status =? 0) then
    fail (Custom OtherKind ("template service read failed for offset " +:+ hex offset))
  else if negb (response_len =? n) then
    fail (Custom InvalidData ("template service returned " +:+ pretty response_len
                              +:+ " bytes, expected " +:+ pretty n))
  else of_sum (s_read_exact n).

(** [seek(SeekFrom::Start(off))]: the kernel takes a signed offset. *)
Definition EINVAL : Z := 22.
Definition seek (off : Z) : M kst io_error unit := λ k,
  (if off <? 2 ^ 63 then Ok tt else Err (Os EINVAL), k).

(** [Read::read_exact] on a file whose position is [off]. *)
Fixpoint read_exact (fuel : nat) (fd off n : Z) : M kst io_error (list Z) :=
  if n =? 0 then mret []
  else
    match fuel with
    | O => hang
    | S fuel' => λ k,
        match k_pread fd n off k with
        | (inl e, k') => if e =? EINTR then read_exact fuel' fd off n k' else (Err (Os e), k')
        | (inr bs, k') =>
            if zlen bs =? 0
            then (Err (Custom UnexpectedEof "failed to fill whole buffer"), k')
            else (rest ← read_exact fuel' fd (off + zlen bs) (n - zlen bs); mret (bs ++ rest)) k'
        end
    end.

(** The source's part of [read_page], on the kernel and the connection. *)
Definition source_read (fuel : nat) (src : TemplatePageSource) (off n : Z)
    : M (kst * sst) io_error (list Z) := λ '(k, s),
  match src with
  | File fd =>
      let '(r, k') := (_ ← seek off; read_exact fuel fd off n) k in (r, (k', s))
  | Service =>
      let '(r, s') := client_read_page off n s in (r, (k, s'))
  end.

(** A source over the bytes [content]: a read returns, does not touch the address
    space, and gives the bytes asked for or an error.  [good] is what the state of
    the connection has to satisfy. *)
Class SourceOk (src : TemplatePageSource) (content : list Z) (good : sst → Prop) : Prop := {
  source_ok fuel off n k s :
    good s → 0 ≤ off → 0 < n → n < 2 ^ 32 → off + n < 2 ^ 64 →
    (Z.to_nat n + k_intr k ≤ fuel)%nat →
    ∃ r k' s', source_read fuel src off n (k, s) = (r, (k', s')) ∧
      k_view k' ≡ k_view k ∧ (k_intr k' ≤ k_intr k)%nat ∧
      ((r = Ok (slice content off n) ∧ off + n ≤ zlen content ∧ good s') ∨ ∃ e, r = Err e) }.

End code.

(** ** Snapshot files *)
Section file.
Context `{K : Kernel, !KernelOk K} `{St : Stream}.

Lemma read_exact_total fuel fd n off k :
  (Z.to_nat n + k_intr k ≤ fuel)%nat → 0 < n → 0 ≤ off →
  ∃ r k', read_exact fuel fd off n k = (r, k') ∧ k_view k' ≡ k_view k ∧ (k_intr k' ≤ k_intr k)%nat ∧
    ((r = Ok (slice (k_file fd) off n) ∧ off + n ≤ zlen (k_file fd)) ∨ ∃ e, r = Err e).
Proof.
  revert n off k. induction fuel as [|fuel IH]; intros n off k Hf Hn Ho; [lia|].
  cbn [read_exact]. destruct (Z.eqb_spec n 0); [lia|].
  destruct (k_pread fd n off k) as [[e|bs] k1] eqn:Hp.
  - apply k_pread_err in Hp as (Hv & Hi & He). destruct (Z.eqb_spec e EINTR) as [->|].
    + destruct (IH n off k1) as (r & k2 & -> & Hv2 & Hi2 & Hr); [naive_solver lia|done..|].
      eexists _, _. split; [done|]. split; [by rewrite Hv2|]. split; [lia|done].
    + eexists _, _. split; [done|]. eauto.
  - apply k_pread_ok in Hp as (Hv & Hi & m & Hm & -> & Hle & Hpos); [|lia].
    destruct (decide (off < zlen (k_file fd))) as [Hlt|Hge].
    + assert (zlen (slice (k_file fd) off m) = m) as Hlen by (apply zlen_slice; lia).
      rewrite Hlen. specialize (Hpos Hn ltac:(lia)). destruct (Z.eqb_spec m 0); [lia|].
      destruct (decide (n = m)) as [->|Hnm].
      * rewrite Z.sub_diag. exists (Ok (slice (k_file fd) off m)), k1.
        destruct fuel; simpl; unfold mbind, M_bind, mret, M_ret; simpl; rewrite app_nil_r;
          (split; [done|]; split; [done|]; split; [done|]; left; split; [done|lia]).
      * destruct (IH (n - m) (off + m) k1) as (r & k2 & Hr & Hv2 & Hi2 & Hc); [lia..|].
        unfold mbind, M_bind. rewrite Hr. destruct Hc as [[-> ?]|[e ->]];
          (eexists _, _; split; [done|]; split; [by rewrite Hv2|]; split; [lia|]); [left|eauto].
        rewrite slice_split by lia. split; [done|lia].
    + assert (m = 0) as -> by lia. assert (slice (k_file fd) off 0 = []) as -> by done. simpl.
      eexists _, _. split; [done|]. eauto.
Qed.

(** A snapshot file is a source of its bytes, whatever the connection. *)
Global Instance file_source fd : SourceOk (File fd) (k_file fd) (λ _, True).
Proof.
  split. intros fuel off n k s _ Ho Hn Hn32 Hb Hf. unfold source_read, seek.
  unfold mbind at 1, M_bind at 1. destruct (off <? 2 ^ 63).
  - destruct (read_exact_total fuel fd n off k Hf Hn Ho) as (r & k' & -> & Hv & Hi & Hc).
    eexists _, _, _. split; [done|]. split; [done|]. split; [done|].
    destruct Hc as [[-> ?]|[e ->]]; eauto.
  - eexists _, _, _. split; [done|]. split; [done|]. split; [done|]. eauto.
Qed.

End file.

End RestoreSource.
