(* ===== verification/RestoreHandler.v ===== *)
(** * The fault handler of a template restore

    Model of [handler_loop] and [handle_wp_fault] in
    [cloud-hypervisor/vmm/src/template_memory.rs].  The handler thread owns the page
    table, the page buffer and the counters; they are the fields of [RWorld] beside
    the kernel and the connection to the template service.  Log output is left out. *)

From S2P Require Import Prelude Kernel Uffd RestoreBackend RestoreSource.
Import Uffd RestoreBackend RestoreSource.

Module RestoreHandler.

Section code.
Context `{K : Kernel} `{St : Stream}.

Record RWorld := {
  kern : kst;
  sock : sst;
  pages : list TemplatePageMeta;
  page_buf : list Z;
  pages_served : Z;
  pages_dirtied : Z;
  ready : bool }.

Definition set_kern (k : kst) (w : RWorld) : RWorld :=
  {| kern := k; sock := sock w; pages := pages w; page_buf := page_buf w;
     pages_served := pages_served w; pages_dirtied := pages_dirtied w; ready := ready w |}.
Definition set_pages (ps : list TemplatePageMeta) (w : RWorld) : RWorld :=
  {| kern := kern w; sock := sock w; pages := ps; page_buf := page_buf w;
     pages_served := pages_served w; pages_dirtied := pages_dirtied w; ready := ready w |}.
Definition set_io (k : kst) (s : sst) (buf : list Z) (w : RWorld) : RWorld :=
  {| kern := k; sock := s; pages := pages w; page_buf := buf;
     pages_served := pages_served w; pages_dirtied := pages_dirtied w; ready := ready w |}.
Definition set_served (n : Z) (w : RWorld) : RWorld :=
  {| kern := kern w; sock := sock w; pages := pages w; page_buf := page_buf w;
     pages_served := n; pages_dirtied := pages_dirtied w; ready := ready w |}.
Definition set_dirtied (n : Z) (w : RWorld) : RWorld :=
  {| kern := kern w; sock := sock w; pages := pages w; page_buf := page_buf w;
     pages_served := pages_served w; pages_dirtied := n; ready := ready w |}.

Local Notation HM := (M RWorld io_error).

Definition on_kern {A} (m : M kst io_error A) : HM A := λ w,
  let '(r, k) := m (kern w) in (r, set_kern k w).

(** A call on the kernel that answers with [errno]. *)
Definition sys_ {A} (call : kst → (Z + A) * kst) : M kst io_error A := λ k,
  match call k with
  | (inl e, k') => (Err (Os e), k')
  | (inr a, k') => (Ok a, k')
  end.

(** ** Page states *)
Definition state_load (i : Z) : HM Z := λ w,
  match znth (pages w) i with
  | Some m => (Ok (state m), w)
  | None => (Panic, w)
  end.

Definition state_store (i v : Z) : HM unit := λ w,
  match znth (pages w) i with
  | Some m => (Ok tt, set_pages (zset (pages w) i {| state := v; backend_offset := backend_offset m |}) w)
  | None => (Panic, w)
  end.

(** [compare_exchange]: the old value on the left when it was not [current]. *)
Definition compare_exchange (i current new : Z) : HM (Z + Z) :=
  s ← state_load i;
  if s =? current then _ ← state_store i new; mret (inr s) else mret (inl s).

Definition count_served : HM unit := λ w,
  match uadd (E:=io_error) (pages_served w) 1 with
  | Ok n => (Ok tt, set_served n w)
  | _ => (Panic, w)
  end.

Definition count_dirtied (d : Z) : HM unit := λ w,
  match uadd (E:=io_error) (pages_dirtied w) d with
  | Ok n => (Ok tt, set_dirtied n w)
  | _ => (Panic, w)
  end.

(** ** Reading a page into the buffer: [TemplateRestoreBackend::read_page] *)
Definition read_page (fuel : nat) (src : TemplatePageSource) (fault : TemplateFault) : HM unit := λ w,
  match znth (pages w) (f_page_index fault) with
  | None => (Panic, w)
  | Some meta =>
      if negb (backend_offset meta =? f_backend_offset fault) then (Panic, w)
      else if zlen (page_buf w) <? f_page_size fault then (Panic, w)
      else
        match source_read fuel src (backend_offset meta) (f_page_size fault) (kern w, sock w) with
        | (Ok bs, (k, s)) =>
            (Ok tt, set_io k s (bs ++ drop (Z.to_nat (f_page_size fault)) (page_buf w)) w)
        | (Err e, (k, s)) => (Err e, set_io k s (page_buf w) w)
        | (Panic, (k, s)) => (Panic, set_io k s (page_buf w) w)
        | (Hang, (k, s)) => (Hang, set_io k s (page_buf w) w)
        end
  end.

(** The retry loop around [uffd::copy_wp]: [true] for a copied page, [false] for
    EEXIST; EAGAIN yields and tries again. *)
Fixpoint copy_retry (fuel : nat) (uffd addr size : Z) : HM bool :=
  match fuel with
  | O => hang
  | S fuel' =>
      w ← get;
      r ← try_ (on_kern (copy_wp uffd addr (page_buf w) size));
      match r with
      | inr _ => mret true
      | inl e =>
          if bool_decide (raw_os_error e = Some EEXIST) then mret false
          else if bool_decide (raw_os_error e = Some EAGAIN) then copy_retry fuel' uffd addr size
          else fail e
      end
  end.

(** [if let Err(e) = uffd::wake(..) { warn!(..) }] *)
Definition wake_warn (uffd addr size : Z) : HM unit :=
  _ ← try_ (F:=io_error) (on_kern (wake uffd addr size));
  mret tt.

Fixpoint spin_loaded (fuel : nat) (i : Z) : HM unit :=
  match fuel with
  | O => hang
  | S fuel' =>
      s ← state_load i;
      if (s =? STATE_SHARED_READY) || (s =? STATE_PRIVATE_DIRTY) then mret tt
      else spin_loaded fuel' i
  end.

(** The arm of [handler_loop] for a fault that is not a write-protect fault. *)
Definition handle_missing (fuel : nat) (uffd : Z) (src : TemplatePageSource) (fault : TemplateFault)
    : HM unit :=
  let i := f_page_index fault in
  let wake_it := wake_warn uffd (f_page_addr fault) (f_page_size fault) in
  x ← compare_exchange i STATE_UNLOADED STATE_LOADING;
  match x with
  | inr _ =>
      _ ← read_page fuel src fault;
      copied ← copy_retry fuel uffd (f_page_addr fault) (f_page_size fault);
      _ ← state_store i STATE_SHARED_READY;
      _ ← (if (copied : bool) then mret tt else wake_it);
      count_served
  | inl s =>
      if s =? STATE_LOADING then _ ← spin_loaded fuel i; wake_it
      else if s =? STATE_SHARED_READY then wake_it
      else if s =? STATE_PRIVATE_DIRTY then wake_it
      else fail (Custom OtherKind ("template UFFD handler: unexpected state " +:+ pretty s
                                   +:+ " for page " +:+ pretty i))
  end.

(** ** Copy on write *)

(** One page of the acquire loop: [Some s] when it was taken in state [s]. *)
Fixpoint acquire_page (fuel : nat) (i : Z) : HM (option Z) :=
  match fuel with
  | O => hang
  | S fuel' =>
      s ← state_load i;
      if (s =? STATE_UNLOADED) || (s =? STATE_SHARED_READY) then
        x ← compare_exchange i s STATE_LOADING;
        match x with inr _ => mret (Some s) | inl _ => acquire_page fuel' i end
      else if s =? STATE_LOADING then acquire_page fuel' i
      else if s =? STATE_PRIVATE_DIRTY then mret None
      else fail (Custom OtherKind ("template UFFD handler: COW chunk saw unexpected page state "
                                   +:+ pretty s +:+ " for page " +:+ pretty i))
  end.

(** The whole loop; the result is [acquired]. *)
Fixpoint acquire (fuel : nat) (idx : list Z) : HM (list (Z * Z)) :=
  match idx with
  | [] => mret []
  | i :: idx' =>
      o ← acquire_page fuel i;
      rest ← acquire fuel idx';
      mret (match o with Some s => (i, s) :: rest | None => rest end)
  end.

(** Populating an acquired page that was not loaded. *)
Definition load_acquired (fuel : nat) (uffd : Z) (src : TemplatePageSource) (chunk : TemplateCowChunk)
    (a : Z * Z) : HM unit :=
  let '(i, old) := a in
  if negb (old =? STATE_UNLOADED) then mret tt
  else
    w ← get;
    meta ← lift (unwrap (znth (pages w) i));
    d ← lift (usub i (c_first_page_index chunk));
    off ← lift (umul d (c_page_size chunk));
    addr ← lift (uadd (start_addr chunk) off);
    let page_fault := {| f_page_addr := addr; f_page_size := c_page_size chunk;
                         f_page_index := i; f_backend_offset := backend_offset meta |} in
    _ ← read_page fuel src page_fault;
    _ ← copy_retry fuel uffd addr (c_page_size chunk);
    count_served.

Definition copy_from (addr n : Z) : HM (list Z) := λ w,
  match load_bytes (k_view (kern w)) addr n with
  | Some bs => (Ok bs, w)
  | None => (Hang, w)
  end.

Definition copy_to (addr : Z) (bs : list Z) : HM unit := λ w,
  if writable (k_view (kern w)) addr (zlen bs)
  then (Ok tt, set_kern (k_store addr bs (kern w)) w)
  else (Hang, w).

Definition chunk_indices (chunk : TemplateCowChunk) : list Z :=
  (λ p, c_first_page_index chunk + p) <$> zrange 0 (c_page_count chunk).

Definition handle_wp_fault (fuel : nat) (uffd : Z) (src : TemplatePageSource)
    (ranges : list TemplateRange) (fault : TemplateFault) : HM unit :=
  o ← lift (cow_chunk_for_fault ranges fault);
  chunk ← lift (ok_or o (Custom OtherKind ("template UFFD handler: cannot locate COW chunk for page "
                                           +:+ pretty (f_page_index fault))));
  w ← get;
  if zlen (page_buf w) <? c_page_size chunk
  then fail (Custom InvalidInputKind "COW chunk page size exceeds handler page buffer")
  else
    acquired ← acquire fuel (chunk_indices chunk);
    match acquired with
    | [] => wake_warn uffd (f_page_addr fault) (f_page_size fault)
    | _ =>
        _ ← for_ acquired (load_acquired fuel uffd src chunk);
        snapshot ← copy_from (start_addr chunk) (len chunk);
        _ ← on_kern (writeprotect_dontwake uffd (start_addr chunk) (len chunk));
        private_page ← on_kern (sys_ (k_mmap (start_addr chunk) (len chunk)
          (Z.lor PROT_READ PROT_WRITE) (Z.lor (Z.lor MAP_PRIVATE MAP_ANONYMOUS) MAP_FIXED) (-1) 0));
        _ ← copy_to private_page snapshot;
        _ ← for_ (chunk_indices chunk) (λ i, state_store i STATE_PRIVATE_DIRTY);
        _ ← count_dirtied (zlen acquired);
        on_kern (wake uffd (start_addr chunk) (len chunk))
    end.

(** ** The loop *)
Definition EVENT_STOP : Z := 0.
Definition EVENT_UFFD : Z := 1.
Definition EPOLLIN : Z := 1.
Definition EPOLLHUP : Z := 16.

(** What the [for event in events] loop decides. *)
Inductive scanned := GotStop | GotHup | Scanned (got_uffd_data : bool).

Fixpoint scan (events : list (Z * Z)) (got : bool) : scanned :=
  match events with
  | [] => Scanned got
  | (token, flags) :: rest =>
      if token =? EVENT_STOP then GotStop
      else if (token =? EVENT_UFFD) && negb (Z.land flags EPOLLHUP =? 0)
                && (Z.land flags EPOLLIN =? 0) then GotHup
      else scan rest (got || ((token =? EVENT_UFFD) && negb (Z.land flags EPOLLIN =? 0)))
  end.

Section loop.
Context (env : RWorld → RWorld) (uffd stop_fd epoll_fd : Z) (src : TemplatePageSource)
        (ranges : list TemplateRange).

(** The part of a turn that handles one message; [Some] leaves the loop. *)
Definition handle_message (fuel : nat) : HM (option unit) :=
  got ← try_ (F:=io_error) (on_kern (sys_ (k_read_msg uffd 32)));
  match got with
  | inl e => if bool_decide (raw_os_error e = Some EAGAIN) then mret None else fail e
  | inr (n, msg) =>
      if n =? 0 then mret (Some tt)
      else if negb (n =? 32) then fail (Custom UnexpectedEof "Short read from userfaultfd")
      else if negb (msg_event msg =? UFFD_EVENT_PAGEFAULT) then mret None
      else
        o ← lift (locate_fault ranges (pf_address msg));
        fault ← lift (ok_or o (Custom OtherKind ("template UFFD handler: fault at "
                   +:+ hex (pf_address msg) +:+ " does not belong to any registered range")));
        _ ← (if negb (Z.land (pf_flags msg) UFFD_PAGEFAULT_FLAG_WP =? 0)
             then handle_wp_fault fuel uffd src ranges fault
             else handle_missing fuel uffd src fault);
        mret None
  end.

(** One turn of the loop; guest and device threads run while it waits. *)
Definition handler_turn (fuel : nat) : HM (option unit) :=
  polled ← try_ (F:=io_error) (on_kern (sys_ (k_epoll_wait epoll_fd 2)));
  _ ← modify env;
  match polled with
  | inl e => if bool_decide (raw_os_error e = Some EINTR) then mret None else fail e
  | inr events =>
      match scan events false with
      | GotStop => _ ← modify (λ w, set_kern (k_eventfd_read stop_fd (kern w)) w); mret (Some tt)
      | GotHup => mret (Some tt)
      | Scanned false => mret None
      | Scanned true => handle_message fuel
      end
  end.

Fixpoint turns (rounds fuel : nat) : HM unit :=
  match rounds with
  | O => hang
  | S rounds' =>
      out ← handler_turn fuel;
      match out with Some _ => mret tt | None => turns rounds' fuel end
  end.

End loop.

(** [io::Error::other] around an OS error *)
Definition other (e : io_error) : io_error :=
  Custom OtherKind (match e with Os n => strerror n | Custom _ m => m end).

Definition set_ready (w : RWorld) : RWorld :=
  {| kern := kern w; sock := sock w; pages := pages w; page_buf := page_buf w;
     pages_served := pages_served w; pages_dirtied := pages_dirtied w; ready := true |}.

Definition reset (page_size : Z) (w : RWorld) : RWorld :=
  {| kern := kern w; sock := sock w; pages := pages w; page_buf := zreplicate page_size 0;
     pages_served := 0; pages_dirtied := 0; ready := ready w |}.

Definition handler_loop (env : RWorld → RWorld) (rounds fuel : nat) (uffd stop_fd : Z)
    (src : TemplatePageSource) (ranges : list TemplateRange) (page_size : Z) : HM unit :=
  _ ← modify (reset page_size);
  epoll_fd ← m_map_err other (on_kern (sys_ k_epoll_create));
  _ ← m_map_err other (on_kern (sys_ (k_epoll_ctl epoll_fd stop_fd EPOLLIN EVENT_STOP)));
  _ ← m_map_err other (on_kern (sys_ (k_epoll_ctl epoll_fd uffd (Z.lor EPOLLIN EPOLLHUP) EVENT_UFFD)));
  _ ← modify set_ready;
  turns env uffd stop_fd epoll_fd src ranges rounds fuel.

End code.

End RestoreHandler.
