(* ===== verification/RestoreSession.v ===== *)
(** * A template restore session

    Theorems about [RestoreHandler]: the invariant that ties the page table to the
    guest's memory, kept by every turn of the handler and by every guest store, and
    with it that no byte the guest has seen ever changes under it.  The guest stores
    between two turns: stores of other threads between the clearing of the protection and
    the remapping of a chunk, which would be lost, are not runs of the session. *)

From S2P Require Import Prelude Kernel Uffd RestoreBackend RestoreSource RestoreHandler.
Import Uffd RestoreBackend RestoreSource RestoreHandler.

Module RestoreSession.

(** ** Definitions *)

Definition paddr (r : TemplateRange) (k : Z) : Z := host_addr r + k * page_size r.
Definition in_pg (r : TemplateRange) (k x : Z) : Prop := paddr r k ≤ x < paddr r k + page_size r.

(** The template's byte for an address of a range. *)
Definition template_byte (content : list Z) (r : TemplateRange) (x : Z) : option Z :=
  znth content (file_offset r + (x - host_addr r)).

(** A page and its state in the table. *)
Inductive rpage (content : list Z) (v : AddrSpace) (r : TemplateRange) (k : Z) : Z → Prop :=
  | rpage_unloaded :
      (∀ x, in_pg r k x → as_mem v x = None ∧ as_private v x = false) →
      rpage content v r k STATE_UNLOADED
  | rpage_ready :
      (∀ x, in_pg r k x → is_Some (as_mem v x) ∧ as_mem v x = template_byte content r x ∧
         as_private v x = false ∧ as_wp v x = true) →
      rpage content v r k STATE_SHARED_READY
  | rpage_dirty :
      (∀ x, in_pg r k x → is_Some (as_mem v x) ∧ as_private v x = true ∧ as_wp v x = false) →
      rpage content v r k STATE_PRIVATE_DIRTY.

(** Pages whose state satisfies a test. *)
Definition count (P : Z → bool) (ps : list TemplatePageMeta) : Z :=
  zlen (filter (λ m, P (state m) = true) ps).

Definition is_loaded (s : Z) : bool := negb (s =? STATE_UNLOADED).
Definition is_dirty (s : Z) : bool := s =? STATE_PRIVATE_DIRTY.

Section defs.
Context `{K : Kernel} `{St : Stream}.
Context (rs : list TemplateRange) (content : list Z) (good : sst → Prop).

Record rinv (w : RWorld) : Prop := {
  ri_len : zlen (pages w) = total rs;
  ri_sock : good (sock w);
  ri_buf : ∀ i r, rs !! i = Some r → page_size r ≤ zlen (page_buf w);
  ri_mapped : ∀ i r x, rs !! i = Some r → in_range r x → as_mapped (k_view (kern w)) x = true;
  ri_served : pages_served w = count is_loaded (pages w);
  ri_dirtied : pages_dirtied w = count is_dirty (pages w);
  ri_pages : ∀ i r k, rs !! i = Some r → 0 ≤ k < pages_of r → ∃ m,
    znth (pages w) (first_page_index r + k) = Some m ∧
    backend_offset m = file_offset r + k * page_size r ∧
    rpage content (k_view (kern w)) r k (state m) }.

(** Nothing but template bytes outside private pages. *)
Definition rsafe (v : AddrSpace) : Prop :=
  ∀ i r x b, rs !! i = Some r → in_range r x → as_mem v x = Some b →
    as_private v x = true ∨ template_byte content r x = Some b.

(** No byte of the guest's memory that is present changes. *)
Definition preserves (v v' : AddrSpace) : Prop :=
  ∀ i r x b, rs !! i = Some r → in_range r x → as_mem v x = Some b → as_mem v' x = Some b.

Definition routcome {A} (w : RWorld) (r : res io_error A) (w' : RWorld) : Prop :=
  preserves (k_view (kern w)) (k_view (kern w')) ∧
  match r with
  | Ok _ => rinv w'
  | Err _ => rsafe (k_view (kern w'))
  | _ => False
  end.

(** The guest and the handler taking turns. *)
Inductive restore_step (env : RWorld → RWorld) (uffd stop_fd ep : Z) (src : TemplatePageSource)
    : RWorld → RWorld → Prop :=
  | restore_turn fuel o w w' :
      (∀ i r, rs !! i = Some r → (Z.to_nat (page_size r) + k_intr (kern w) ≤ fuel)%nat) →
      handler_turn env uffd stop_fd ep src rs fuel w = (Ok o, w') →
      restore_step env uffd stop_fd ep src w w'
  | restore_store a bs w :
      (∀ x, a ≤ x < a + zlen bs → ∃ i r, rs !! i = Some r ∧ in_range r x) →
      writable (k_view (kern w)) a (zlen bs) = true →
      restore_step env uffd stop_fd ep src w (set_kern (k_store a bs (kern w)) w).

End defs.

(** ** Counting *)

Definition b2z (b : bool) : Z := if b then 1 else 0.

Lemma count_app P l1 l2 : count P (l1 ++ l2) = count P l1 + count P l2.
Proof. unfold count. by rewrite filter_app, zlen_app. Qed.

Lemma count_one P m : count P [m] = b2z (P (state m)).
Proof. unfold count. rewrite filter_cons, filter_nil. unfold b2z. by destruct (P (state m)). Qed.

Lemma zset_split {A} (l : list A) i x y :
  znth l i = Some x → ∃ l1 l2, l = l1 ++ x :: l2 ∧ zset l i y = l1 ++ y :: l2.
Proof.
  intros H. pose proof (znth_Some_lt _ _ _ H) as Hi. unfold znth in H. unfold zset.
  destruct (Z.ltb_spec i 0); [lia|]. exists (take (Z.to_nat i) l), (drop (S (Z.to_nat i)) l).
  split; [by rewrite take_drop_middle|]. apply insert_take_drop. unfold zlen in Hi. lia.
Qed.

Lemma count_zset P ps i m m' :
  znth ps i = Some m → count P (zset ps i m') = count P ps - b2z (P (state m)) + b2z (P (state m')).
Proof.
  intros H. destruct (zset_split ps i m m' H) as (l1 & l2 & -> & ->).
  rewrite (app_assoc l1 [m'] l2 : l1 ++ m' :: l2 = _), (app_assoc l1 [m] l2 : l1 ++ m :: l2 = _).
  rewrite !count_app, !count_one. lia.
Qed.

Lemma count_bounds P ps : 0 ≤ count P ps ≤ zlen ps.
Proof.
  unfold count. split; [apply zlen_nonneg|]. unfold zlen. pose proof (length_filter (λ m, P (state m) = true) ps). lia.
Qed.

(** ** The page table of a copy on write *)

Definition with_state (s : Z) (m : TemplatePageMeta) : TemplatePageMeta :=
  {| state := s; backend_offset := backend_offset m |}.

(** Set the pages of [l] that pass [P] to state [s]. *)
Definition set_states (P : Z → bool) (s : Z) (l : list Z) (ps : list TemplatePageMeta)
    : list TemplatePageMeta :=
  foldl (λ ps i, match znth ps i with
                 | Some m => if P (state m) then zset ps i (with_state s m) else ps
                 | None => ps
                 end) ps l.

(** What [acquire] collects. *)
Definition acquired_of (ps : list TemplatePageMeta) (l : list Z) : list (Z * Z) :=
  omap (λ i, m ← znth ps i; if is_dirty (state m) then None else Some (i, state m)) l.

Definition unloaded (acq : list (Z * Z)) : list (Z * Z) := filter (λ p, p.2 = STATE_UNLOADED) acq.

Lemma znth_set_states P s l ps j :
  (P s = true ∨ ∀ x, P x = true) →
  znth (set_states P s l ps) j =
    m ← znth ps j; Some (if bool_decide (j ∈ l) && P (state m) then with_state s m else m).
Proof.
  intros HP. revert ps. induction l as [|i l IH]; intros ps; cbn [set_states foldl].
  { destruct (znth ps j); [|done]. by rewrite bool_decide_false by set_solver. }
  fold (set_states P s l). set (ps' := match znth ps i with Some _ => _ | None => _ end).
  change (foldl _ ps' l) with (set_states P s l ps'). rewrite IH. subst ps'.
  destruct (znth ps i) as [mi|] eqn:Hi.
  - destruct (P (state mi)) eqn:HPi.
    + rewrite znth_zset by (by eapply znth_Some_lt). destruct (Z.eqb_spec i j) as [<-|Hne].
      * rewrite Hi. simpl. rewrite (bool_decide_true (i ∈ i :: l)) by set_solver. rewrite HPi. simpl.
        by destruct (_ && _).
      * destruct (znth ps j) as [m|]; [|done]. simpl.
        by rewrite (bool_decide_ext (j ∈ i :: l) (j ∈ l)) by set_solver.
    + destruct (znth ps j) as [m|] eqn:Hj; [|done]. simpl. destruct (decide (i = j)) as [<-|Hne].
      * assert (m = mi) as -> by congruence. by rewrite HPi, !andb_false_r.
      * by rewrite (bool_decide_ext (j ∈ i :: l) (j ∈ l)) by set_solver.
  - destruct (znth ps j) as [m|] eqn:Hj; [|done]. simpl.
    by rewrite (bool_decide_ext (j ∈ i :: l) (j ∈ l)) by (assert (i ≠ j) by congruence; set_solver).
Qed.

Lemma zlen_set_states P s l ps : zlen (set_states P s l ps) = zlen ps.
Proof.
  revert ps. induction l as [|i l IH]; intros ps; [done|]. cbn [set_states foldl].
  change (foldl _ ?x l) with (set_states P s l x). rewrite IH.
  destruct (znth ps i) as [m|]; [|done]. destruct (P (state m)); [apply zlen_zset|done].
Qed.

Lemma acquired_of_zset ps i m0 m l :
  znth ps i = Some m0 → i ∉ l → acquired_of (zset ps i m) l = acquired_of ps l.
Proof.
  intros Hm Hi. unfold acquired_of. induction l as [|j l IH]; [done|].
  cbn [omap list_omap]. rewrite IH by set_solver.
  rewrite znth_zset by (by eapply znth_Some_lt). destruct (Z.eqb_spec i j) as [->|]; [set_solver|done].
Qed.

Lemma acquired_of_cons ps i m l :
  znth ps i = Some m →
  acquired_of ps (i :: l) =
    (if is_dirty (state m) then [] else [(i, state m)]) ++ acquired_of ps l.
Proof. intros Hm. unfold acquired_of. cbn [omap list_omap]. rewrite Hm. simpl. by destruct (is_dirty _). Qed.

(** The counters after a copy on write of the pages [l]. *)
Lemma count_dirty_all l ps :
  NoDup l → (∀ i, i ∈ l → is_Some (znth ps i)) →
  let ps' := set_states (λ _, true) STATE_PRIVATE_DIRTY l ps in
  count is_dirty ps' = count is_dirty ps + zlen (acquired_of ps l) ∧
  count is_loaded ps' = count is_loaded ps + zlen (unloaded (acquired_of ps l)).
Proof.
  cbv zeta. revert ps. induction l as [|i l IH]; intros ps Hnd Hin.
  { unfold acquired_of, unloaded, set_states, zlen. simpl. lia. }
  apply NoDup_cons in Hnd as [Hi Hnd]. destruct (Hin i ltac:(set_solver)) as [m Hm].
  set (ps1 := zset ps i (with_state STATE_PRIVATE_DIRTY m)).
  assert (set_states (λ _, true) STATE_PRIVATE_DIRTY (i :: l) ps =
          set_states (λ _, true) STATE_PRIVATE_DIRTY l ps1) as ->.
  { unfold set_states. cbn [foldl]. by rewrite Hm. }
  destruct (IH ps1 Hnd) as [-> ->].
  { intros j Hj. unfold ps1. rewrite znth_zset by (by eapply znth_Some_lt).
    destruct (i =? j); [done|]. apply Hin. set_solver. }
  unfold ps1. rewrite (acquired_of_zset ps i m) by done. rewrite (acquired_of_cons ps i m l Hm).
  rewrite !(count_zset _ _ _ m) by done. cbn [with_state state]. unfold unloaded.
  rewrite filter_app, !zlen_app. unfold is_loaded, is_dirty.
  destruct (Z.eqb_spec (state m) STATE_PRIVATE_DIRTY) as [->|Hd]; simpl; [unfold zlen; simpl; lia|].
  rewrite filter_cons, filter_nil. simpl.
  destruct (Z.eqb_spec (state m) STATE_UNLOADED) as [->|Hu]; simpl.
  - unfold zlen. simpl. lia.
  - rewrite decide_False by done. unfold zlen. simpl. lia.
Qed.

(** ** Geometry *)
Section geometry.
Context (rs : list TemplateRange) (L : layout_ok rs).

Lemma in_pg_range i r k x :
  rs !! i = Some r → 0 ≤ k < pages_of r → in_pg r k x → in_range r x.
Proof.
  intros Hi Hk Hx. destruct (layout_range rs i r L Hi) as (H & _).
  pose proof (r_length r H). pose proof (r_size_pos r H). unfold in_pg, paddr in Hx. unfold in_range. nia.
Qed.

Lemma in_pg_index i r k x :
  rs !! i = Some r → in_pg r k x ↔ (x - host_addr r) / page_size r = k.
Proof.
  intros Hi. destruct (layout_range rs i r L Hi) as (H & _). pose proof (r_size_pos r H) as Hp.
  unfold in_pg, paddr. pose proof (Z.div_mod (x - host_addr r) (page_size r) ltac:(lia)) as Hd.
  pose proof (Z.mod_pos_bound (x - host_addr r) _ Hp). split; [|intros <-; lia].
  intros Hx. symmetry. apply (Z.div_unique_pos _ _ k (x - host_addr r - k * page_size r)); lia.
Qed.

Lemma range_in_pg i r x :
  rs !! i = Some r → in_range r x → ∃ k, 0 ≤ k < pages_of r ∧ in_pg r k x.
Proof.
  intros Hi Hx. destruct (layout_range rs i r L Hi) as (H & _).
  destruct (range_page r x H Hx) as [Hk _]. eexists. split; [exact Hk|]. by apply (in_pg_index i r).
Qed.

(** Two pages that share an address are the same page. *)
Lemma in_pg_unique i j r r' k k' x :
  rs !! i = Some r → rs !! j = Some r' → 0 ≤ k < pages_of r → 0 ≤ k' < pages_of r' →
  in_pg r k x → in_pg r' k' x → r = r' ∧ k = k'.
Proof.
  intros Hi Hj Hk Hk' Hx Hx'.
  assert (i = j) as <- by exact (l_disjoint rs L i j r r' x Hi Hj (in_pg_range i r k x Hi Hk Hx)
                                   (in_pg_range j r' k' x Hj Hk' Hx')).
  assert (r = r') as <- by congruence. split; [done|].
  apply (in_pg_index i r) in Hx, Hx'; [|done..]. congruence.
Qed.

(** Page numbers identify pages. *)
Lemma index_unique i j r r' k k' :
  rs !! i = Some r → rs !! j = Some r' → 0 ≤ k < pages_of r → 0 ≤ k' < pages_of r' →
  first_page_index r + k = first_page_index r' + k' → r = r' ∧ k = k'.
Proof.
  intros Hi Hj Hk Hk' He.
  assert (find_range (E:=unit) rs (first_page_index r + k) = Ok (Some r)) as H1
    by (apply (find_range_gen 0 rs i); (done || apply L || (destruct L; lia))).
  assert (find_range (E:=unit) rs (first_page_index r' + k') = Ok (Some r')) as H2
    by (apply (find_range_gen 0 rs j); (done || apply L || (destruct L; lia))).
  rewrite He, H2 in H1. injection H1 as ->. split; [done|]. lia.
Qed.

End geometry.

(** ** Single calls *)
Section calls.
Context `{K : Kernel, !KernelOk K} `{St : Stream}.
Implicit Types w : RWorld.

Lemma rstate_load_run w i m : znth (pages w) i = Some m → state_load i w = (Ok (state m), w).
Proof. intros H. unfold state_load. by rewrite H. Qed.

Lemma rstate_store_run w i v m :
  znth (pages w) i = Some m →
  state_store i v w =
    (Ok tt, set_pages (zset (pages w) i {| state := v; backend_offset := backend_offset m |}) w).
Proof. intros H. unfold state_store. by rewrite H. Qed.

Lemma rcas_run w i cur new m :
  znth (pages w) i = Some m →
  compare_exchange i cur new w =
    (if state m =? cur
     then (Ok (inr (state m)),
           set_pages (zset (pages w) i {| state := new; backend_offset := backend_offset m |}) w)
     else (Ok (inl (state m)), w)).
Proof.
  intros H. unfold compare_exchange. rewrite (m_bind_run _ _ _ _ _ (rstate_load_run w i m H)).
  destruct (state m =? cur); [|done]. by rewrite (m_bind_run _ _ _ _ _ (rstate_store_run w i new m H)).
Qed.

Lemma count_served_run w :
  0 ≤ pages_served w < 2 ^ 64 - 1 → count_served w = (Ok tt, set_served (pages_served w + 1) w).
Proof. intros H. unfold count_served. by rewrite uadd_ok by (unfold is_u64; lia). Qed.

Lemma count_dirtied_run w d :
  0 ≤ pages_dirtied w + d < 2 ^ 64 →
  count_dirtied d w = (Ok tt, set_dirtied (pages_dirtied w + d) w).
Proof. intros H. unfold count_dirtied. by rewrite uadd_ok by (unfold is_u64; lia). Qed.

Lemma wake_warn_run fd a n w :
  ∃ k', wake_warn fd a n w = (Ok tt, set_kern k' w) ∧ k_view k' ≡ k_view (kern w).
Proof.
  destruct (wake_run fd a n (kern w)) as (r & k' & Hr & _ & Hv & Hc).
  exists k'. split; [|done]. unfold wake_warn, try_, on_kern, mbind, M_bind. rewrite Hr.
  by destruct Hc as [->|[e ->]].
Qed.

Lemma wake_warn_pages fd a n w r w' : wake_warn fd a n w = (r, w') → pages w' = pages w.
Proof. destruct (wake_warn_run fd a n w) as (k' & -> & _). by intros [= _ <-]. Qed.

(** The copy loop: transient failures run out, so it ends. *)
Lemma copy_retry_run fuel fd a n w :
  (k_intr (kern w) < fuel)%nat →
  ∃ r k', copy_retry fuel fd a n w = (r, set_kern k' w) ∧ (k_intr k' ≤ k_intr (kern w))%nat ∧
    ((r = Ok true ∧ as_mem (k_view (kern w)) a = None ∧
      k_view k' ≡ copy_view a (page_buf w) n true (k_view (kern w))) ∨
     (r = Ok false ∧ is_Some (as_mem (k_view (kern w)) a) ∧ k_view k' ≡ k_view (kern w)) ∨
     ((∃ e, r = Err e) ∧ k_view k' ≡ k_view (kern w))).
Proof.
  revert w. induction fuel as [|fuel IH]; intros w Hf; [lia|]. cbn [copy_retry].
  rewrite (m_bind_run _ _ w w w) by done.
  destruct (copy_wp_run fd a (page_buf w) n (kern w)) as (r & k1 & Hr & Hi & Hc).
  destruct Hc as [(-> & Hn & Hv)|(e & -> & Hv & Hex & Hag)].
  - rewrite (m_bind_run _ _ w (inr tt) (set_kern k1 w)) by (unfold try_, on_kern; by rewrite Hr).
    eexists _, _. split; [done|]. split; [done|]. left. done.
  - rewrite (m_bind_run _ _ w (inl (Os e)) (set_kern k1 w)) by (unfold try_, on_kern; by rewrite Hr).
    cbn [raw_os_error]. case_bool_decide as H1.
    { injection H1 as H1. eexists _, _. split; [done|]. split; [done|]. right. left. eauto. }
    case_bool_decide as H2.
    2: { eexists _, _. split; [done|]. split; [done|]. right. right. eauto. }
    injection H2 as H2. destruct (IH (set_kern k1 w)) as (r & k2 & Hr2 & Hi2 & Hc).
    { specialize (Hag H2). simpl. lia. }
    eexists _, k2. split; [exact Hr2|]. split; [simpl in Hi2; lia|]. simpl in Hc.
    destruct (Hv a) as (Hva & _). rewrite Hva in Hc.
    destruct Hc as [(-> & Hn & Hv2)|[(-> & Hs & Hv2)|[[e' ->] Hv2]]].
    + left. split; [done|]. split; [done|]. by rewrite Hv2, Hv.
    + right. left. split; [done|]. split; [done|]. by rewrite Hv2.
    + right. right. split; [eauto|]. by rewrite Hv2.
Qed.

End calls.

Lemma max_page_size_ge (rs : list TemplateRange) d i r : rs !! i = Some r → page_size r ≤ max_page_size rs d.
Proof.
  intros Hi. destruct rs as [|r0 rs']; [done|]. cbn [max_page_size].
  assert (∀ l m, m ≤ foldr (λ r' m', Z.max (page_size r') m') m l ∧
            ∀ r', r' ∈ l → page_size r' ≤ foldr (λ r' m', Z.max (page_size r') m') m l) as Hfold.
  { induction l as [|x l IHl]; intros m; simpl; [split; [lia|set_solver]|].
    destruct (IHl m) as [H1 H2]. split; [lia|]. intros r' Hr'.
    apply elem_of_cons in Hr' as [->|Hr']; [lia|]. specialize (H2 r' Hr'). lia. }
  destruct (Hfold rs' (page_size r0)) as [H1 H2]. destruct i as [|i]; simpl in Hi.
  - by injection Hi as <-.
  - apply H2. by eapply list_elem_of_lookup_2.
Qed.

Lemma count_metas (rs : list TemplateRange) P : P STATE_UNLOADED = false → count P (mjoin (page_metas <$> rs)) = 0.
Proof.
  intros HP. unfold count. assert (∀ m, m ∈ mjoin (page_metas <$> rs) → state m = STATE_UNLOADED) as Hall.
  { intros m Hm. apply list_elem_of_join in Hm as (l & Hm & Hl).
    apply list_elem_of_fmap in Hl as (r & -> & _). unfold page_metas in Hm.
    by apply list_elem_of_fmap in Hm as (j & -> & _). }
  induction (mjoin (page_metas <$> rs)) as [|m l IH]; [done|].
  rewrite filter_cons, (Hall m) by set_solver. rewrite HP. simpl. apply IH. set_solver.
Qed.

(** ** Loading pages *)
Section session.
Context `{K : Kernel, !KernelOk K} `{St : Stream}.
Context (rs : list TemplateRange) (L : layout_ok rs) (content : list Z) (good : sst → Prop).
Context (src : TemplatePageSource) `{!SourceOk src content good}.
Context (small : ∀ i r, rs !! i = Some r → page_size r < 2 ^ 32).
Implicit Types w : RWorld.

(** The buffer holds the template's bytes for page [k]. *)
Definition holds_page_bytes (r : TemplateRange) (k : Z) (buf : list Z) : Prop :=
  ∀ x, in_pg r k x →
    is_Some (znth buf (x - paddr r k)) ∧ znth buf (x - paddr r k) = template_byte content r x.

Lemma slice_page_bytes i r k rest :
  rs !! i = Some r → 0 ≤ k < pages_of r → file_offset r + k * page_size r + page_size r ≤ zlen content →
  holds_page_bytes r k (slice content (file_offset r + k * page_size r) (page_size r) ++ rest).
Proof.
  intros Hi Hk Hle x Hx. destruct (layout_range rs i r L Hi) as (H & _).
  pose proof (r_size_pos r H). pose proof (r_off r H). unfold in_pg, paddr in *.
  rewrite znth_app, zlen_slice by lia.
  destruct (Z.ltb_spec (x - (host_addr r + k * page_size r)) (page_size r)); [|lia].
  rewrite znth_slice by lia. unfold template_byte.
  replace (file_offset r + k * page_size r + (x - (host_addr r + k * page_size r)))
    with (file_offset r + (x - host_addr r)) by lia.
  split; [|done]. apply znth_is_Some. nia.
Qed.

Lemma rread_page_run fuel i r k m w :
  rs !! i = Some r → 0 ≤ k < pages_of r →
  znth (pages w) (first_page_index r + k) = Some m →
  backend_offset m = file_offset r + k * page_size r →
  page_size r ≤ zlen (page_buf w) → good (sock w) →
  (Z.to_nat (page_size r) + k_intr (kern w) ≤ fuel)%nat →
  ∃ res k' s' buf', read_page fuel src (fault_at r k) w = (res, set_io k' s' buf' w) ∧
    k_view k' ≡ k_view (kern w) ∧ (k_intr k' ≤ k_intr (kern w))%nat ∧ zlen buf' = zlen (page_buf w) ∧
    ((res = Ok tt ∧ good s' ∧ holds_page_bytes r k buf') ∨ ∃ e, res = Err e).
Proof.
  intros Hi Hk Hm Hoff Hbuf Hg Hf. destruct (layout_range rs i r L Hi) as (H & _).
  pose proof (r_size_pos r H) as Hp. pose proof (r_off r H). pose proof (r_end r H).
  pose proof (r_length r H). unfold read_page. cbn [fault_at f_page_index f_backend_offset f_page_size].
  rewrite Hm, Hoff, Z.eqb_refl. cbn [negb]. destruct (Z.ltb_spec (zlen (page_buf w)) (page_size r)); [lia|].
  destruct (source_ok fuel (file_offset r + k * page_size r) (page_size r) (kern w) (sock w))
    as (res & k' & s' & Hrun & Hv & Hi' & Hc); [done|nia|done|by eapply small|nia|done|].
  rewrite Hrun. destruct Hc as [(-> & Hle & Hg')|[e ->]].
  - eexists _, k', s', _. split; [done|]. split; [done|]. split; [done|]. split.
    + rewrite zlen_app, zlen_slice by nia. unfold zlen in *. rewrite length_drop. lia.
    + left. split; [done|]. split; [done|]. by apply (slice_page_bytes i).
  - eexists _, k', s', _. split; [done|]. split; [done|]. split; [done|]. split; [done|]. eauto.
Qed.

(** Page [k] of [r] loaded into view [v], as the copy leaves it. *)
Definition loads (r : TemplateRange) (k : Z) (v v' : AddrSpace) : Prop :=
  ∀ x, (in_pg r k x → is_Some (as_mem v' x) ∧ as_mem v' x = template_byte content r x ∧ as_wp v' x = true ∧
          as_private v' x = as_private v x ∧ as_mapped v' x = as_mapped v x) ∧
       (¬ in_pg r k x → agree_at v' v x).

Lemma copy_view_loads r k buf v v' :
  holds_page_bytes r k buf → v' ≡ copy_view (paddr r k) buf (page_size r) true v → loads r k v v'.
Proof.
  intros Hb Hv x. split; intros Hx.
  - destruct (Hv x) as (->&->&->&->). simpl. rewrite (proj2 (within_spec _ _ _) Hx). by destruct (Hb x Hx).
  - apply (agree_at_trans _ _ _ _ (Hv x)). unfold agree_at. simpl.
    by rewrite (proj2 (within_false _ _ _) Hx).
Qed.

(** Read and copy of a missing page. *)
Lemma load_page_run fuel fd i r k m w :
  rs !! i = Some r → 0 ≤ k < pages_of r →
  znth (pages w) (first_page_index r + k) = Some m →
  backend_offset m = file_offset r + k * page_size r →
  page_size r ≤ zlen (page_buf w) → good (sock w) →
  as_mem (k_view (kern w)) (paddr r k) = None →
  (Z.to_nat (page_size r) + k_intr (kern w) ≤ fuel)%nat →
  ∃ res k' s' buf',
    (_ ← read_page fuel src (fault_at r k); copy_retry fuel fd (paddr r k) (page_size r)) w =
      (res, set_io k' s' buf' w) ∧
    (k_intr k' ≤ k_intr (kern w))%nat ∧ zlen buf' = zlen (page_buf w) ∧
    ((res = Ok true ∧ good s' ∧ loads r k (k_view (kern w)) (k_view k')) ∨
     ((∃ e, res = Err e) ∧ k_view k' ≡ k_view (kern w))).
Proof.
  intros Hi Hk Hm Hoff Hbuf Hg Hnone Hf.
  destruct (layout_range rs i r L Hi) as (H & _). pose proof (r_size_pos r H) as Hp.
  destruct (rread_page_run fuel i r k m w Hi Hk Hm Hoff Hbuf Hg Hf)
    as (res & k1 & s1 & buf1 & Hr & Hv1 & Hi1 & Hl1 & [(-> & Hg1 & Hb)|[e ->]]).
  2: { eexists _, k1, s1, buf1. split; [by rewrite (m_bind_err _ _ _ _ _ Hr)|].
       split; [done|]. split; [done|]. right. eauto. }
  rewrite (m_bind_run _ _ _ _ _ Hr).
  destruct (copy_retry_run fuel fd (paddr r k) (page_size r) (set_io k1 s1 buf1 w))
    as (res & k2 & Hr2 & Hi2 & Hc); [simpl; lia|]. simpl in Hi2, Hc.
  exists res, k2, s1, buf1. split; [exact Hr2|]. split; [lia|]. split; [done|].
  destruct (Hv1 (paddr r k)) as (Hva & _). rewrite Hva in Hc.
  destruct Hc as [(-> & _ & Hv2)|[(_ & Hs & _)|[He Hv2]]].
  - left. split; [done|]. split; [done|]. apply (copy_view_loads r k buf1); [done|]. by rewrite Hv2, Hv1.
  - rewrite Hnone in Hs. by destruct Hs.
  - right. split; [done|]. by rewrite Hv2.
Qed.

(** ** The invariant under updates *)

Lemma rpage_agree v v' r k s :
  (∀ x, in_pg r k x → agree_at v' v x) → rpage content v r k s → rpage content v' r k s.
Proof.
  intros Hag [Hx|Hx|Hx]; constructor; intros x Hin; specialize (Hx x Hin);
    destruct (Hag x Hin) as (?&?&?&_); intuition congruence.
Qed.

Lemma rinv_update w w' i r k m s' :
  rinv rs content good w → rs !! i = Some r → 0 ≤ k < pages_of r →
  znth (pages w) (first_page_index r + k) = Some m →
  pages w' = zset (pages w) (first_page_index r + k) {| state := s'; backend_offset := backend_offset m |} →
  good (sock w') → zlen (page_buf w') = zlen (page_buf w) →
  pages_served w' = pages_served w - b2z (is_loaded (state m)) + b2z (is_loaded s') →
  pages_dirtied w' = pages_dirtied w - b2z (is_dirty (state m)) + b2z (is_dirty s') →
  (∀ x, ¬ in_pg r k x → agree_at (k_view (kern w')) (k_view (kern w)) x) →
  (∀ x, in_pg r k x → as_mapped (k_view (kern w')) x = as_mapped (k_view (kern w)) x) →
  rpage content (k_view (kern w')) r k s' → rinv rs content good w'.
Proof.
  intros I Hi Hk Hm Hp Hg Hb Hs Hd Hout Hmap Hpg. pose proof (znth_Some_lt _ _ _ Hm) as Hlt.
  assert (∀ x, as_mapped (k_view (kern w')) x = as_mapped (k_view (kern w)) x) as Hmap'.
  { intros x. destruct (decide (paddr r k ≤ x < paddr r k + page_size r)) as [Hin|Hin];
      [by apply Hmap|by apply Hout]. }
  split.
  - rewrite Hp, zlen_zset. apply I.
  - done.
  - intros j r' Hj. rewrite Hb. by eapply I.
  - intros j r' x Hj Hx. rewrite Hmap'. by eapply I.
  - rewrite Hp, (count_zset _ _ _ m), Hs by done. by rewrite (ri_served _ _ _ _ I).
  - rewrite Hp, (count_zset _ _ _ m), Hd by done. by rewrite (ri_dirtied _ _ _ _ I).
  - intros j r' k' Hj Hk'. rewrite Hp, znth_zset by done.
    destruct (Z.eqb_spec (first_page_index r + k) (first_page_index r' + k')) as [He|Hne].
    + destruct (index_unique rs L i j r r' k k' Hi Hj Hk Hk' He) as [<- <-].
      eexists. split; [done|]. simpl. split; [|done].
      destruct (ri_pages _ _ _ _ I i r k Hi Hk) as (m' & Hm' & Ho & _). congruence.
    + destruct (ri_pages _ _ _ _ I j r' k' Hj Hk') as (m' & Hm' & Ho & Hr').
      exists m'. split; [done|]. split; [done|]. eapply rpage_agree; [|exact Hr'].
      intros x Hx. apply Hout. intros Hx'. destruct (in_pg_unique rs L i j r r' k k' x) as [-> ->]; done.
Qed.

Lemma rinv_view w w' :
  k_view (kern w') ≡ k_view (kern w) → good (sock w') → zlen (page_buf w') = zlen (page_buf w) →
  pages w' = pages w → pages_served w' = pages_served w → pages_dirtied w' = pages_dirtied w →
  rinv rs content good w → rinv rs content good w'.
Proof.
  intros Hv Hg Hb Hp Hs Hd I. split.
  - rewrite Hp. apply I.
  - done.
  - intros j r' Hj. rewrite Hb. by eapply I.
  - intros j r' x Hj Hx. destruct (Hv x) as (_&_&_&->). by eapply I.
  - rewrite Hs, Hp. apply I.
  - rewrite Hd, Hp. apply I.
  - intros j r' k' Hj Hk'. destruct (ri_pages _ _ _ _ I j r' k' Hj Hk') as (m' & Hm' & Ho & Hr').
    exists m'. rewrite Hp. split; [done|]. split; [done|]. eapply rpage_agree; [|exact Hr']. done.
Qed.

Lemma rinv_safe w : rinv rs content good w → rsafe rs content (k_view (kern w)).
Proof.
  intros I i r x b Hi Hx Hb. destruct (range_in_pg rs L i r x Hi Hx) as (k & Hk & Hpg).
  destruct (ri_pages _ _ _ _ I i r k Hi Hk) as (m & _ & _ & [Hr|Hr|Hr]).
  - destruct (Hr x Hpg) as [He _]. congruence.
  - right. destruct (Hr x Hpg) as (_ & He & _). congruence.
  - left. by destruct (Hr x Hpg) as (_ & ? & _).
Qed.

Lemma rsafe_view v v' : v' ≡ v → rsafe rs content v → rsafe rs content v'.
Proof.
  intros Hv H i r x b Hi Hx Hb. destruct (Hv x) as (Hm&_&Hp&_). rewrite Hp. eapply H; [done..|]. congruence.
Qed.

Lemma preserves_view v v' : v' ≡ v → preserves rs v v'.
Proof. intros Hv i r x b Hi Hx Hb. destruct (Hv x) as (->&_). done. Qed.

Lemma preserves_trans v1 v2 v3 : preserves rs v1 v2 → preserves rs v2 v3 → preserves rs v1 v3.
Proof. intros H1 H2 i r x b Hi Hx Hb. eauto. Qed.

(** A page that was missing can be loaded without changing what the guest sees. *)
Lemma preserves_loads r k v v' :
  loads r k v v' → (∀ x, in_pg r k x → as_mem v x = None) → preserves rs v v'.
Proof.
  intros Hl Hn i r' x b Hi Hx Hb. destruct (Hl x) as [_ Hout].
  destruct (decide (paddr r k ≤ x < paddr r k + page_size r)) as [Hin|Hin].
  - rewrite (Hn x Hin) in Hb. done.
  - destruct (Hout Hin) as (->&_). done.
Qed.

Lemma outcome_same {A} w w' (r : res io_error A) :
  k_view (kern w') ≡ k_view (kern w) → rinv rs content good w →
  match r with Ok _ => rinv rs content good w' | Err _ => True | _ => False end →
  routcome rs content good w r w'.
Proof.
  intros Hv I Hr. split; [by apply preserves_view|]. destruct r; [done| |done..].
  apply (rsafe_view (k_view (kern w))); [done|by apply rinv_safe].
Qed.

(** ** Missing pages *)

Lemma wake_outcome fd a n w :
  rinv rs content good w → ∃ w', wake_warn fd a n w = (Ok tt, w') ∧ routcome rs content good w (Ok tt) w'.
Proof.
  intros I. destruct (wake_warn_run fd a n w) as (k' & Hr & Hv). eexists. split; [exact Hr|].
  apply outcome_same; [done|done|]. eapply rinv_view; [exact Hv|apply I|done..].
Qed.

Lemma state_total w i r k m :
  rinv rs content good w → rs !! i = Some r → 0 ≤ k < pages_of r →
  znth (pages w) (first_page_index r + k) = Some m → state m ≠ STATE_UNLOADED →
  state m = STATE_SHARED_READY ∨ state m = STATE_PRIVATE_DIRTY.
Proof.
  intros I Hi Hk Hm Hs. destruct (ri_pages _ _ _ _ I i r k Hi Hk) as (m' & Hm' & _ & Hp).
  rewrite Hm in Hm'. injection Hm' as <-. inversion Hp; auto; congruence.
Qed.

Lemma served_room w i m :
  rinv rs content good w → znth (pages w) i = Some m → state m = STATE_UNLOADED →
  0 ≤ pages_served w < 2 ^ 64 - 1.
Proof.
  intros I Hm Hs. pose proof (count_bounds is_loaded (pages w)).
  pose proof (count_bounds is_loaded (zset (pages w) i {| state := STATE_LOADING; backend_offset := 0 |})) as Hb.
  rewrite (count_zset _ _ _ m), zlen_zset, Hs in Hb by done. simpl in Hb.
  rewrite (ri_served _ _ _ _ I), (ri_len _ _ _ _ I) in *. pose proof (l_total rs L). lia.
Qed.

Lemma missing_outcome fuel fd i r k w :
  rinv rs content good w → rs !! i = Some r → 0 ≤ k < pages_of r →
  (Z.to_nat (page_size r) + k_intr (kern w) ≤ fuel)%nat →
  ∃ res w', handle_missing fuel fd src (fault_at r k) w = (res, w') ∧ routcome rs content good w res w' ∧
    (res = Ok tt → ∃ m, znth (pages w') (first_page_index r + k) = Some m ∧ state m ≠ STATE_UNLOADED).
Proof.
  intros I Hi Hk Hf. destruct (ri_pages _ _ _ _ I i r k Hi Hk) as (m & Hm & Hoff & Hpg).
  unfold handle_missing. cbn [fault_at f_page_index f_page_addr f_page_size].
  pose proof (rcas_run w (first_page_index r + k) STATE_UNLOADED STATE_LOADING m Hm) as Hcas.
  destruct (Z.eqb_spec (state m) STATE_UNLOADED) as [Hs|Hs]; rewrite (m_bind_run _ _ _ _ _ Hcas); clear Hcas.
  2: { destruct (wake_outcome fd (host_addr r + k * page_size r) (page_size r) w I) as (w' & Hw & Ho).
       pose proof (wake_warn_pages _ _ _ _ _ _ Hw) as Hpw.
       destruct (state_total w i r k m I Hi Hk Hm Hs) as [Hst|Hst]; rewrite Hst; simpl;
         (eexists _, _; split; [exact Hw|]; split; [done|]; intros _; rewrite Hpw; eauto). }
  set (w1 := set_pages _ w).
  assert (znth (pages w1) (first_page_index r + k) =
            Some {| state := STATE_LOADING; backend_offset := backend_offset m |}) as Hm1.
  { simpl. rewrite znth_zset by (by eapply znth_Some_lt). by rewrite Z.eqb_refl. }
  rewrite Hs in Hpg. inversion Hpg as [Hx| |]; clear Hpg.
  destruct (layout_range rs i r L Hi) as (Hr & _). pose proof (r_size_pos r Hr) as Hp.
  destruct (load_page_run fuel fd i r k _ w1 Hi Hk Hm1 Hoff) as (res & k' & s' & buf' & Hrun & Hi' & Hl & Hc);
    [by eapply I|apply I|apply Hx; unfold in_pg; lia|done|].
  rewrite <-(m_bind_assoc (read_page fuel src (fault_at r k))
               (λ _, copy_retry fuel fd (paddr r k) (page_size r))).
  destruct Hc as [(-> & Hg & Hld)|[[e ->] Hv]].
  2: { rewrite (m_bind_err _ _ _ _ _ Hrun). eexists _, _. split; [done|].
       split; [by apply outcome_same|done]. }
  rewrite (m_bind_run _ _ _ _ _ Hrun). set (w2 := set_io k' s' buf' w1).
  rewrite (m_bind_run _ _ _ _ _ (rstate_store_run w2 _ STATE_SHARED_READY _ Hm1)).
  cbn [backend_offset]. set (w3 := set_pages _ w2).
  rewrite (m_bind_run _ _ w3 tt w3) by done.
  pose proof (served_room w _ m I Hm Hs) as Hroom.
  rewrite (count_served_run w3 Hroom). eexists _, _. split; [done|]. split; [split|].
  3: { intros _. simpl. rewrite zset_zset, znth_zset by (by eapply znth_Some_lt). rewrite Z.eqb_refl.
       by eexists. }
  { apply (preserves_loads r k); [exact Hld|]. intros x Hin. by apply Hx. }
  simpl. eapply (rinv_update w _ i r k m STATE_SHARED_READY I Hi Hk Hm).
  - simpl. by rewrite zset_zset.
  - exact Hg.
  - exact Hl.
  - rewrite Hs. simpl. lia.
  - rewrite Hs. simpl. lia.
  - intros x Hout. by apply Hld.
  - intros x Hin. destruct (Hld x) as [H1 _]. by destruct (H1 Hin) as (_&_&_&_&?).
  - apply rpage_ready. intros x Hin. destruct (Hld x) as [H1 _]. destruct (H1 Hin) as (?&?&?&Hpr&_).
    split; [done|]. split; [done|]. split; [|done]. simpl. rewrite Hpr. by apply Hx.
Qed.

(** ** Copy on write: acquiring the chunk *)

Definition plain (s : Z) : Prop :=
  s = STATE_UNLOADED ∨ s = STATE_SHARED_READY ∨ s = STATE_PRIVATE_DIRTY.

Lemma acquire_page_run fuel i m w :
  (0 < fuel)%nat → znth (pages w) i = Some m → plain (state m) →
  acquire_page fuel i w =
    if is_dirty (state m) then (Ok None, w)
    else (Ok (Some (state m)), set_pages (zset (pages w) i (with_state STATE_LOADING m)) w).
Proof.
  intros Hf Hm Hp. destruct fuel as [|fuel]; [lia|]. cbn [acquire_page].
  rewrite (m_bind_run _ _ _ _ _ (rstate_load_run w i m Hm)).
  pose proof (rcas_run w i (state m) STATE_LOADING m Hm) as Hc. rewrite Z.eqb_refl in Hc.
  destruct Hp as [H|[H|H]]; rewrite H in *; simpl; [..|done];
    rewrite (m_bind_run _ _ _ _ _ Hc); unfold with_state; done.
Qed.

Lemma acquire_run fuel l : ∀ w,
  (0 < fuel)%nat → NoDup l → (∀ i, i ∈ l → ∃ m, znth (pages w) i = Some m ∧ plain (state m)) →
  acquire fuel l w =
    (Ok (acquired_of (pages w) l),
     set_pages (set_states (λ s, negb (is_dirty s)) STATE_LOADING l (pages w)) w).
Proof.
  induction l as [|i l IH]; intros w Hf Hnd Hin; cbn [acquire]; [by destruct w|].
  apply NoDup_cons in Hnd as [Hi Hnd]. destruct (Hin i ltac:(set_solver)) as (m & Hm & Hp).
  pose proof (acquire_page_run fuel i m w Hf Hm Hp) as Hr.
  rewrite (acquired_of_cons (pages w) i m l Hm).
  assert (∀ ps0, set_states (λ s, negb (is_dirty s)) STATE_LOADING (i :: l) ps0 =
    set_states (λ s, negb (is_dirty s)) STATE_LOADING l
      (match znth ps0 i with
       | Some m => if negb (is_dirty (state m)) then zset ps0 i (with_state STATE_LOADING m) else ps0
       | None => ps0 end)) as Hst by done.
  rewrite Hst, Hm. destruct (is_dirty (state m)) eqn:Hd.
  - rewrite (m_bind_run _ _ _ _ _ Hr), (m_bind_run _ _ _ _ _ (IH w Hf Hnd ltac:(set_solver))). done.
  - rewrite (m_bind_run _ _ _ _ _ Hr). set (w1 := set_pages _ w).
    assert (∀ j, j ∈ l → ∃ m0, znth (pages w1) j = Some m0 ∧ plain (state m0)) as Hin1.
    { intros j Hj. simpl. rewrite znth_zset by (by eapply znth_Some_lt).
      destruct (Z.eqb_spec i j) as [->|]; [set_solver|]. apply Hin. set_solver. }
    rewrite (m_bind_run _ _ _ _ _ (IH w1 Hf Hnd Hin1)). simpl.
    by rewrite (acquired_of_zset (pages w) i m).
Qed.

(** ** Copy on write: populating the chunk *)

(** The chunk of the pages [k0 .. k0 + n) of a range. *)
Definition chunk_of (r : TemplateRange) (k0 n : Z) : TemplateCowChunk :=
  {| start_addr := paddr r k0; len := n * page_size r; c_first_page_index := first_page_index r + k0;
     c_page_count := n; c_page_size := page_size r |}.

(** [acq] names pages of the chunk, those to be populated being missing. *)
Definition acq_ok (r : TemplateRange) (k0 n : Z) (acq : list (Z * Z)) (ps : list TemplatePageMeta)
    (v : AddrSpace) : Prop :=
  ∀ j old, (j, old) ∈ acq → ∃ k m, j = first_page_index r + k ∧ k0 ≤ k < k0 + n ∧
    znth ps j = Some m ∧ backend_offset m = file_offset r + k * page_size r ∧
    (old = STATE_UNLOADED → ∀ x, in_pg r k x → as_mem v x = None).

(** Address [x] was populated from the template. *)
Definition populated (r : TemplateRange) (acq : list (Z * Z)) (v v' : AddrSpace) (x : Z) : Prop :=
  ∃ k, (first_page_index r + k, STATE_UNLOADED) ∈ acq ∧ in_pg r k x ∧
    is_Some (as_mem v' x) ∧ as_mem v' x = template_byte content r x ∧
    as_private v' x = as_private v x ∧ as_mapped v' x = as_mapped v x.

Lemma load_acquired_run fuel fd i r k0 n k old w :
  rs !! i = Some r → 0 ≤ k0 → k0 + n ≤ pages_of r →
  acq_ok r k0 n [(first_page_index r + k, old)] (pages w) (k_view (kern w)) →
  page_size r ≤ zlen (page_buf w) → good (sock w) →
  (Z.to_nat (page_size r) + k_intr (kern w) ≤ fuel)%nat → 0 ≤ pages_served w < 2 ^ 64 - 1 →
  ∃ res w', load_acquired fuel fd src (chunk_of r k0 n) (first_page_index r + k, old) w = (res, w') ∧
    pages w' = pages w ∧ pages_dirtied w' = pages_dirtied w ∧ zlen (page_buf w') = zlen (page_buf w) ∧
    (k_intr (kern w') ≤ k_intr (kern w))%nat ∧
    ((res = Ok tt ∧ good (sock w') ∧
      (old = STATE_UNLOADED → pages_served w' = pages_served w + 1 ∧
         loads r k (k_view (kern w)) (k_view (kern w'))) ∧
      (old ≠ STATE_UNLOADED → w' = w)) ∨
     ((∃ e, res = Err e) ∧ k_view (kern w') ≡ k_view (kern w))).
Proof.
  intros Hi Hk0 Hend Hacq Hbuf Hg Hf Hsv. unfold load_acquired. cbv beta iota.
  destruct (Z.eqb_spec old STATE_UNLOADED) as [->|Hne]; cbn [negb]; cbv iota.
  2: { eexists _, w. split; [done|]. split; [done|]. split; [done|]. split; [done|]. split; [done|].
       left. done. }
  destruct (Hacq _ _ ltac:(left)) as (k' & m & Hjk & Hk & Hm & Ho & Hmiss).
  assert (k' = k) as -> by lia. clear Hjk. specialize (Hmiss eq_refl).
  destruct (layout_range rs i r L Hi) as (Hr & Hf0 & Ht). pose proof (r_size_pos r Hr) as Hp.
  pose proof (r_length r Hr). pose proof (r_top r Hr). pose proof (r_host r Hr).
  rewrite (m_bind_run _ _ w w w) by done.
  rewrite (m_bind_run _ _ w m w) by (unfold lift, unwrap; by rewrite Hm).
  cbn [chunk_of c_first_page_index c_page_size start_addr].
  rewrite (m_bind_run _ _ w (k - k0) w)
    by (unfold lift; rewrite usub_ok by (unfold is_u64; lia); f_equal; f_equal; lia).
  rewrite (m_bind_run _ _ w ((k - k0) * page_size r) w)
    by (unfold lift; by rewrite umul_ok by (unfold is_u64; nia)).
  rewrite (m_bind_run _ _ w (paddr r k) w)
    by (unfold lift, paddr; rewrite uadd_ok by (unfold is_u64; nia); f_equal; f_equal; lia).
  rewrite Ho. change {| f_page_addr := paddr r k; f_page_size := page_size r;
    f_page_index := first_page_index r + k; f_backend_offset := file_offset r + k * page_size r |}
    with (fault_at r k).
  destruct (load_page_run fuel fd i r k m w Hi ltac:(lia) Hm Ho Hbuf Hg)
    as (res & k' & s' & buf' & Hrun & Hi' & Hl & Hc); [apply Hmiss; unfold in_pg; lia|done|].
  cbv zeta. rewrite <-(m_bind_assoc (read_page fuel src (fault_at r k))
               (λ _, copy_retry fuel fd (paddr r k) (page_size r))).
  destruct Hc as [(-> & Hg' & Hld)|[[e ->] Hv]].
  - rewrite (m_bind_run _ _ _ _ _ Hrun), (count_served_run (set_io k' s' buf' w) Hsv).
    eexists _, _. split; [done|]. split; [done|]. split; [done|]. split; [done|]. split; [done|].
    left. split; [done|]. split; [done|]. split; [done|]. by intros [].
  - rewrite (m_bind_err _ _ _ _ _ Hrun). eexists _, _. split; [done|]. split; [done|]. split; [done|].
    split; [done|]. split; [done|]. right. eauto.
Qed.

Lemma populated_mono r acq acq' v v' x :
  (∀ p, p ∈ acq → p ∈ acq') → populated r acq v v' x → populated r acq' v v' x.
Proof. intros Hsub (k & Hk & H). exists k. eauto. Qed.

(** Loading one page leaves the others of the chunk missing. *)
Lemma acq_ok_loads i r k0 n k acq ps v v' :
  rs !! i = Some r → 0 ≤ k0 → k0 + n ≤ pages_of r → k0 ≤ k < k0 + n →
  (first_page_index r + k) ∉ acq.*1 → loads r k v v' →
  acq_ok r k0 n acq ps v → acq_ok r k0 n acq ps v'.
Proof.
  intros Hi Hk0 Hend Hk Hnin Hld Ha j old Hin.
  destruct (Ha j old Hin) as (k' & m & -> & Hk' & Hm & Ho & Hmiss). exists k', m.
  split; [done|]. split; [done|]. split; [done|]. split; [done|]. intros Hold x Hx.
  destruct (Hld x) as [_ Hout]. destruct Hout as (->&_); [|by apply Hmiss].
  intros Hx'. destruct (in_pg_unique rs L i i r r k k' x) as [_ <-]; [done|done|lia|lia|done|done|].
  apply Hnin. apply list_elem_of_fmap. by exists (first_page_index r + k, old).
Qed.

(** Populating the rest of the chunk keeps a page that is not part of it. *)
Lemma populated_keeps i r k0 n k acq ps v v1 v' :
  rs !! i = Some r → 0 ≤ k0 → k0 + n ≤ pages_of r → k0 ≤ k < k0 + n → (first_page_index r + k) ∉ acq.*1 →
  acq_ok r k0 n acq ps v → (∀ x, agree_at v' v1 x ∨ populated r acq v1 v' x) →
  ∀ x, in_pg r k x → agree_at v' v1 x.
Proof.
  intros Hi Hk0 Hend Hk Hj Ha H x Hx. destruct (H x) as [?|(k' & Hin & Hx' & _)]; [done|].
  destruct (Ha _ _ Hin) as (k'' & _ & Heq & Hk'' & _). assert (k'' = k') as -> by lia.
  destruct (in_pg_unique rs L i i r r k k' x) as [_ <-]; [done|done|lia|lia|done|done|].
  destruct Hj. apply list_elem_of_fmap. by exists (first_page_index r + k, STATE_UNLOADED).
Qed.

(** A page that is loaded, and then the rest of the chunk. *)
Lemma populated_load r k acq v v1 v' :
  loads r k v v1 → (∀ x, in_pg r k x → agree_at v' v1 x) → (∀ x, agree_at v' v1 x ∨ populated r acq v1 v' x) →
  ∀ x, agree_at v' v x ∨ populated r ((first_page_index r + k, STATE_UNLOADED) :: acq) v v' x.
Proof.
  intros Hld Hkeep H x. destruct (Hld x) as [Hl Hout].
  destruct (decide (paddr r k ≤ x < paddr r k + page_size r)) as [Hx|Hx].
  - right. exists k. split; [left|]. split; [done|]. destruct (Hkeep x Hx) as (->&_&->&->).
    by destruct (Hl Hx) as (?&?&_&?&?).
  - specialize (Hout Hx). destruct (H x) as [Hag|(k' & Hin & Hx' & Hq)].
    + left. exact (agree_at_trans _ _ _ _ Hag Hout).
    + right. exists k'. split; [by right|]. split; [done|]. destruct Hout as (_&_&Ho3&Ho4).
      by rewrite <-Ho3, <-Ho4.
Qed.

Lemma load_all_run fuel fd i r k0 n acq : ∀ w,
  rs !! i = Some r → 0 ≤ k0 → k0 + n ≤ pages_of r → NoDup acq.*1 →
  acq_ok r k0 n acq (pages w) (k_view (kern w)) →
  page_size r ≤ zlen (page_buf w) → good (sock w) →
  (Z.to_nat (page_size r) + k_intr (kern w) ≤ fuel)%nat →
  0 ≤ pages_served w → pages_served w + zlen (unloaded acq) < 2 ^ 64 →
  ∃ res w', for_ acq (load_acquired fuel fd src (chunk_of r k0 n)) w = (res, w') ∧
    pages w' = pages w ∧ pages_dirtied w' = pages_dirtied w ∧ zlen (page_buf w') = zlen (page_buf w) ∧
    (∀ x, agree_at (k_view (kern w')) (k_view (kern w)) x ∨
          populated r acq (k_view (kern w)) (k_view (kern w')) x) ∧
    match res with
    | Ok _ => good (sock w') ∧ pages_served w' = pages_served w + zlen (unloaded acq) ∧
        ∀ k x, (first_page_index r + k, STATE_UNLOADED) ∈ acq → in_pg r k x →
          is_Some (as_mem (k_view (kern w')) x)
    | Err _ => True
    | _ => False
    end.
Proof.
  induction acq as [|[j old] acq IH]; intros w Hi Hk0 Hend Hnd Ha Hbuf Hg Hf Hs0 Hs; cbn [for_].
  { eexists _, w. split; [done|]. split; [done|]. split; [done|]. split; [done|].
    split; [by left|]. split; [done|]. split; [unfold unloaded, zlen; simpl; lia|]. set_solver. }
  apply NoDup_cons in Hnd as [Hj Hnd]. simpl in Hj.
  destruct (Ha j old ltac:(left)) as (k & m & -> & Hk & _).
  assert (zlen (unloaded ((first_page_index r + k, old) :: acq)) =
          (if decide (old = STATE_UNLOADED) then 1 else 0) + zlen (unloaded acq)) as Hlen.
  { unfold unloaded. rewrite filter_cons. simpl. case_decide; [by rewrite zlen_cons|done]. }
  rewrite Hlen in *. pose proof (zlen_nonneg (unloaded acq)).
  assert (acq_ok r k0 n acq (pages w) (k_view (kern w))) as Ha'
    by (intros j' old' Hin; apply Ha; by right).
  assert (acq_ok r k0 n [(first_page_index r + k, old)] (pages w) (k_view (kern w))) as Ha1.
  { intros j' old' Hin. apply Ha. apply list_elem_of_singleton in Hin as ->. left. }
  destruct (decide (old = STATE_UNLOADED)) as [->|Hne].
  2: { assert (load_acquired fuel fd src (chunk_of r k0 n) (first_page_index r + k, old) w = (Ok tt, w)) as Hr
         by (unfold load_acquired; cbv beta iota; by destruct (Z.eqb_spec old STATE_UNLOADED)).
       rewrite (m_bind_run _ _ _ _ _ Hr).
       destruct (IH w Hi Hk0 Hend Hnd Ha' Hbuf Hg Hf Hs0 ltac:(lia)) as (res & w' & Hrun & P1 & P2 & P3 & P4 & P5).
       exists res, w'. split; [done|]. split; [done|]. split; [done|]. split; [done|]. split.
       - intros x. destruct (P4 x) as [?|Hp]; [by left|right]. eapply populated_mono; [|exact Hp]. by right.
       - destruct res; [|done..]. destruct P5 as (? & Hsv & Hall). split; [done|].
         split; [rewrite Hsv; lia|]. intros k' x Hin. apply Hall. by inversion Hin; simplify_eq. }
  destruct (load_acquired_run fuel fd i r k0 n k STATE_UNLOADED w Hi Hk0 Hend Ha1 Hbuf Hg Hf ltac:(lia))
    as (res & w1 & Hrun & P1 & P2 & P3 & P4 & Hc).
  destruct Hc as [(-> & Hg1 & Hun & _)|[[e ->] Hv]].
  2: { rewrite (m_bind_err _ _ _ _ _ Hrun). eexists _, _. split; [done|]. split; [done|]. split; [done|].
       split; [done|]. split; [intros x; left; apply Hv|done]. }
  rewrite (m_bind_run _ _ _ _ _ Hrun). destruct (Hun eq_refl) as [Hsv Hld].
  destruct (IH w1) as (res & w' & Hrun' & Q1 & Q2 & Q3 & Q4 & Q5);
    [done|done|done|done| |by rewrite P3|done|lia|lia|lia|].
  { rewrite P1. by eapply (acq_ok_loads i r k0 n k). }
  exists res, w'. split; [done|]. split; [congruence|]. split; [congruence|]. split; [congruence|].
  pose proof (populated_keeps i r k0 n k acq (pages w) (k_view (kern w)) _ _ Hi Hk0 Hend Hk Hj Ha' Q4) as Hkeep.
  split; [exact (populated_load r k acq _ _ _ Hld Hkeep Q4)|].
  destruct res; [|done..]. destruct Q5 as (? & Hsv' & Hall). split; [done|]. split; [lia|].
  intros k' x Hin Hx. apply elem_of_cons in Hin as [Heq|Hin]; [|by eapply Hall].
  assert (k' = k) as -> by (injection Heq; lia). destruct (Hkeep x Hx) as (->&_).
  destruct (Hld x) as [Hl _]. by destruct (Hl Hx).
Qed.

(** ** Copy on write: replacing the chunk *)

(** From the snapshot on. *)
Definition cow_tail (fd : Z) (chunk : TemplateCowChunk) (acquired : list (Z * Z))
    : M RWorld io_error unit :=
  snapshot ← copy_from (start_addr chunk) (len chunk);
  _ ← on_kern (writeprotect_dontwake fd (start_addr chunk) (len chunk));
  private_page ← on_kern (sys_ (k_mmap (start_addr chunk) (len chunk)
    (Z.lor PROT_READ PROT_WRITE) (Z.lor (Z.lor MAP_PRIVATE MAP_ANONYMOUS) MAP_FIXED) (-1) 0));
  _ ← copy_to private_page snapshot;
  _ ← for_ (chunk_indices chunk) (λ i, state_store i STATE_PRIVATE_DIRTY);
  _ ← count_dirtied (zlen acquired);
  on_kern (wake fd (start_addr chunk) (len chunk)).

Lemma store_all_run l : ∀ w,
  (∀ i, i ∈ l → is_Some (znth (pages w) i)) →
  for_ l (λ i, state_store i STATE_PRIVATE_DIRTY) w =
    (Ok tt, set_pages (set_states (λ _, true) STATE_PRIVATE_DIRTY l (pages w)) w).
Proof.
  induction l as [|i l IH]; intros w Hin; cbn [for_]; [by destruct w|].
  destruct (Hin i ltac:(left)) as [m Hm].
  rewrite (m_bind_run _ _ _ _ _ (rstate_store_run w i STATE_PRIVATE_DIRTY m Hm)).
  rewrite IH.
  - unfold set_states. cbn [foldl]. rewrite Hm. done.
  - intros j Hj. simpl. rewrite znth_zset by (by eapply znth_Some_lt).
    destruct (i =? j); [done|]. apply Hin. by right.
Qed.

(** The chunk remapped: the bytes are what they were, private and unprotected. *)
Definition remapped (a n : Z) (v v' : AddrSpace) : Prop :=
  ∀ x, as_mem v' x = as_mem v x ∧
    (within a n x = true → as_private v' x = true ∧ as_wp v' x = false ∧ as_mapped v' x = true) ∧
    (within a n x = false → agree_at v' v x).

Lemma cow_view_remapped a n bs v v1 v' :
  0 < n → load_bytes v a n = Some bs → v1 ≡ wp_view a n false v → v' ≡ cow_view a n bs v1 →
  remapped a n v v'.
Proof.
  intros Hn Hbs Hv1 Hv' x. apply load_bytes_Some in Hbs as [Hl Hb]; [|lia].
  destruct (Hv' x) as (H1&H2&H3&H4), (Hv1 x) as (M1&M2&M3&M4). simpl in *. rewrite Hl in H1.
  unfold agree_at. rewrite H1, H2, H3, H4. destruct (within a n x) eqn:Hw.
  - split; [|done]. apply within_spec in Hw. destruct (Hb (x - a)) as (b & Hb1 & Hb2); [lia|].
    replace (a + (x - a)) with x in Hb1 by lia. congruence.
  - rewrite M1, M2, M3, M4. done.
Qed.

Lemma cow_tail_run fd chunk acq bs w :
  0 < len chunk → load_bytes (k_view (kern w)) (start_addr chunk) (len chunk) = Some bs →
  (∀ i, i ∈ chunk_indices chunk → is_Some (znth (pages w) i)) →
  0 ≤ pages_dirtied w + zlen acq < 2 ^ 64 →
  (∃ e k', cow_tail fd chunk acq w = (Err e, set_kern k' w) ∧
     ∀ x, as_mem (k_view k') x = as_mem (k_view (kern w)) x ∧
          as_private (k_view k') x = as_private (k_view (kern w)) x) ∨
  (∃ res k', cow_tail fd chunk acq w =
       (res, set_kern k' (set_dirtied (pages_dirtied w + zlen acq)
               (set_pages (set_states (λ _, true) STATE_PRIVATE_DIRTY (chunk_indices chunk) (pages w)) w))) ∧
     (res = Ok tt ∨ ∃ e, res = Err e) ∧
     remapped (start_addr chunk) (len chunk) (k_view (kern w)) (k_view k')).
Proof.
  intros Hn Hbs Hin Hd. set (a := start_addr chunk) in *. set (n := len chunk) in *.
  pose proof (proj1 (load_bytes_Some _ _ _ _ (Z.lt_le_incl _ _ Hn)) Hbs) as [Hbl _].
  unfold cow_tail. fold a n. rewrite (m_bind_run _ _ w bs w) by (unfold copy_from; by rewrite Hbs).
  destruct (writeprotect_run fd a n (kern w)) as (r & k1 & Hwp & _ & [[-> Hv1]|[[e ->] Hv1]]).
  2: { left. erewrite m_bind_err by (unfold on_kern; by rewrite Hwp). eexists _, _. split; [done|].
       intros x. destruct (Hv1 x) as (->&_&->&_). done. }
  rewrite (m_bind_run _ _ w tt (set_kern k1 w)) by (unfold on_kern; by rewrite Hwp).
  destruct (k_mmap a n (Z.lor PROT_READ PROT_WRITE)
    (Z.lor (Z.lor MAP_PRIVATE MAP_ANONYMOUS) MAP_FIXED) (-1) 0 k1) as [[e|q] k2] eqn:Hmm.
  { left. erewrite m_bind_err by (unfold on_kern, sys_; simpl; by rewrite Hmm). eexists _, k2. split; [done|].
    intros x. destruct (k_mmap_err _ _ _ _ _ _ _ _ _ Hmm x) as (->&_&->&_).
    destruct (Hv1 x) as (->&_&->&_). done. }
  right. rewrite (m_bind_run _ _ (set_kern k1 w) q (set_kern k2 w))
    by (unfold on_kern, sys_; simpl; by rewrite Hmm).
  apply k_mmap_fixed_ok in Hmm as [-> Hv2].
  assert (writable (k_view k2) a (zlen bs) = true) as Hw.
  { apply writable_intro. intros x Hx. destruct (Hv2 x) as (->&->&_). simpl.
    rewrite (proj2 (within_spec a n x)) by lia. done. }
  rewrite (m_bind_run _ _ _ tt (set_kern (k_store a bs k2) w)) by (unfold copy_to; simpl; by rewrite Hw).
  pose proof (k_store_ok a bs k2 Hw) as Hv3. set (k3 := k_store a bs k2) in *.
  rewrite (m_bind_run _ _ _ _ _ (store_all_run (chunk_indices chunk) (set_kern k3 w) Hin)).
  set (w4 := set_pages _ _).
  rewrite (m_bind_run _ _ _ _ _ (count_dirtied_run w4 (zlen acq) Hd)).
  destruct (wake_run fd a n k3) as (r & k5 & Hwk & _ & Hv5 & Hr).
  exists r, k5. split; [unfold on_kern; simpl; rewrite Hwk; done|]. split; [naive_solver|].
  apply (cow_view_remapped a n bs (k_view (kern w)) (k_view k1)); [done|done|done|].
  rewrite Hv5, Hv3. unfold cow_view. by rewrite Hv2.
Qed.

(** ** Copy on write: the whole handler *)

Lemma elem_chunk_indices r k0 n j :
  j ∈ chunk_indices (chunk_of r k0 n) ↔ ∃ k, k0 ≤ k < k0 + n ∧ j = first_page_index r + k.
Proof.
  unfold chunk_indices. rewrite list_elem_of_fmap. cbn [chunk_of c_first_page_index c_page_count].
  unfold zrange. setoid_rewrite elem_of_seqZ. split.
  - intros (p & -> & Hp). exists (k0 + p). lia.
  - intros (k & Hk & ->). exists (k - k0). lia.
Qed.

Lemma NoDup_chunk_indices ch : NoDup (chunk_indices ch).
Proof.
  unfold chunk_indices. apply NoDup_fmap_2; [intros x y; lia|]. unfold zrange. apply NoDup_seqZ.
Qed.

Lemma elem_acquired ps l j old :
  (j, old) ∈ acquired_of ps l ↔
    j ∈ l ∧ ∃ m, znth ps j = Some m ∧ state m = old ∧ is_dirty old = false.
Proof.
  unfold acquired_of. rewrite list_elem_of_omap. split.
  - intros (i & Hi & H). apply bind_Some in H as (m & Hm & H).
    destruct (is_dirty (state m)) eqn:Hd; [done|]. injection H as -> <-. eauto.
  - intros (Hj & m & Hm & <- & Hd). exists j. split; [done|]. rewrite Hm. simpl. by rewrite Hd.
Qed.

Lemma NoDup_acquired ps l : NoDup l → NoDup (acquired_of ps l).*1.
Proof.
  induction l as [|i l IH]; intros Hnd; [constructor|]. apply NoDup_cons in Hnd as [Hi Hnd].
  destruct (znth ps i) as [m|] eqn:Hm.
  - rewrite (acquired_of_cons ps i m l Hm). destruct (is_dirty (state m)); [by apply IH|].
    simpl. constructor; [|by apply IH]. intros Hin. apply list_elem_of_fmap in Hin as ([j old] & -> & Hin).
    by apply elem_acquired in Hin as [Hin _].
  - unfold acquired_of. cbn [omap list_omap]. rewrite Hm. by apply IH.
Qed.

(** The two table updates of a copy on write amount to the second. *)
Lemma set_states_twice l ps :
  set_states (λ _, true) STATE_PRIVATE_DIRTY l (set_states (λ s, negb (is_dirty s)) STATE_LOADING l ps) =
  set_states (λ _, true) STATE_PRIVATE_DIRTY l ps.
Proof.
  apply znth_ext; [by rewrite !zlen_set_states|]. intros j _.
  rewrite !znth_set_states by auto. destruct (znth ps j) as [m|]; [|done]. simpl.
  rewrite !andb_true_r. by destruct (bool_decide (j ∈ l)), (is_dirty (state m)).
Qed.

Lemma set_states_none l ps :
  acquired_of ps l = [] → set_states (λ s, negb (is_dirty s)) STATE_LOADING l ps = ps.
Proof.
  intros Ha. apply znth_ext; [apply zlen_set_states|]. intros j _.
  rewrite znth_set_states by auto. destruct (znth ps j) as [m|] eqn:Hm; [|done]. simpl. f_equal.
  case_bool_decide as Hj; [|done]. simpl. destruct (is_dirty (state m)) eqn:Hd; [done|].
  assert ((j, state m) ∈ acquired_of ps l) as Hin by (apply elem_acquired; eauto).
  rewrite Ha in Hin. by apply elem_of_nil in Hin.
Qed.

Lemma rinv_acq_ok w i r k0 n :
  rinv rs content good w → rs !! i = Some r → 0 ≤ k0 → k0 + n ≤ pages_of r →
  let l := chunk_indices (chunk_of r k0 n) in
  acq_ok r k0 n (acquired_of (pages w) l)
    (set_states (λ s, negb (is_dirty s)) STATE_LOADING l (pages w)) (k_view (kern w)).
Proof.
  intros I Hi Hk0 Hend l j old Hin. apply elem_acquired in Hin as (Hj & m & Hm & Hs & Hd).
  apply elem_chunk_indices in Hj as Hj'. destruct Hj' as (k & Hk & ->).
  destruct (ri_pages _ _ _ _ I i r k Hi ltac:(lia)) as (m' & Hm' & Ho & Hp).
  rewrite Hm in Hm'. injection Hm' as <-. exists k. eexists. split; [done|]. split; [done|].
  rewrite znth_set_states by auto. rewrite Hm. simpl. split; [done|]. split.
  - by destruct (_ && _).
  - intros -> x Hx. rewrite Hs in Hp. inversion Hp as [Hx'| |]. by apply Hx'.
Qed.

Lemma rinv_plain w i r k0 n j :
  rinv rs content good w → rs !! i = Some r → 0 ≤ k0 → k0 + n ≤ pages_of r →
  j ∈ chunk_indices (chunk_of r k0 n) → ∃ m, znth (pages w) j = Some m ∧ plain (state m).
Proof.
  intros I Hi Hk0 Hend Hj. apply elem_chunk_indices in Hj as (k & Hk & ->).
  destruct (ri_pages _ _ _ _ I i r k Hi ltac:(lia)) as (m & Hm & _ & Hp). exists m. split; [done|].
  unfold plain. inversion Hp; auto.
Qed.

(** The chunk being populated, seen from the invariant before. *)
Section populate.
Context (w : RWorld) (I : rinv rs content good w) (i : nat) (r : TemplateRange) (k0 n : Z).
Context (Hi : rs !! i = Some r) (Hk0 : 0 ≤ k0) (Hend : k0 + n ≤ pages_of r).
Let l := chunk_indices (chunk_of r k0 n).
Let acq := acquired_of (pages w) l.
Let v := k_view (kern w).
Context (v2 : AddrSpace) (Hpop : ∀ x, agree_at v2 v x ∨ populated r acq v v2 x).

Lemma in_chunk x :
  paddr r k0 ≤ x < paddr r k0 + n * page_size r ↔ ∃ k, k0 ≤ k < k0 + n ∧ in_pg r k x.
Proof using Hi L.
  destruct (layout_range rs i r L Hi) as (Hr & _). pose proof (r_size_pos r Hr) as Hp.
  unfold paddr. split.
  - intros Hx. exists ((x - host_addr r) / page_size r). split; [|by apply (in_pg_index rs L i)].
    split; [apply Z.div_le_lower_bound; nia|apply Z.div_lt_upper_bound; nia].
  - intros (k & Hk & Hx). unfold in_pg, paddr in Hx. nia.
Qed.

Lemma populated_was_missing x : populated r acq v v2 x → as_mem v x = None ∧ as_private v x = false.
Proof using I Hi Hk0 Hend.
  intros (k & Hin & Hx & _). apply elem_acquired in Hin as (Hj & m & Hm & Hs & _).
  apply elem_chunk_indices in Hj as (k' & Hk' & Heq). assert (k' = k) as -> by lia.
  destruct (ri_pages _ _ _ _ I i r k Hi ltac:(lia)) as (m' & Hm' & _ & Hp).
  rewrite Hm in Hm'. injection Hm' as <-. rewrite Hs in Hp. inversion Hp as [Hx'| |]. by apply Hx'.
Qed.

Lemma populate_preserves : preserves rs v v2.
Proof using I Hi Hk0 Hend Hpop.
  intros j r' x b Hj Hx Hb. destruct (Hpop x) as [(->&_)|Hp]; [done|].
  apply populated_was_missing in Hp as [Hn _]. congruence.
Qed.

Lemma populate_safe : rsafe rs content v2.
Proof using L I Hi Hk0 Hend Hpop.
  intros j r' x b Hj Hx Hb. destruct (Hpop x) as [(Hm&_&Hpr&_)|Hp].
  - rewrite Hpr. apply (rinv_safe w I j r' x b Hj Hx). change (as_mem v x = Some b). by rewrite <-Hm.
  - right. destruct Hp as (k & Hin & Hpg & _ & Ht & _). rewrite <-Hb, Ht.
    apply elem_acquired in Hin as (Hk & _). apply elem_chunk_indices in Hk as (k' & Hk' & Heq).
    assert (k' = k) as -> by lia.
    destruct (range_in_pg rs L j r' x Hj Hx) as (k2 & Hk2 & Hpg2).
    by destruct (in_pg_unique rs L i j r r' k k2 x) as [-> _]; [done|done|lia|done|done|done|].
Qed.

Lemma populate_mapped x : as_mapped v2 x = as_mapped v x.
Proof using Hpop. destruct (Hpop x) as [(_&_&_&?)|(k & _ & _ & _ & _ & _ & ?)]; done. Qed.

Lemma chunk_present :
  (∀ k x, (first_page_index r + k, STATE_UNLOADED) ∈ acq → in_pg r k x → is_Some (as_mem v2 x)) →
  ∀ x, paddr r k0 ≤ x < paddr r k0 + n * page_size r → is_Some (as_mem v2 x).
Proof using L I Hi Hk0 Hend Hpop.
  intros Hun x Hx. apply in_chunk in Hx as (k & Hk & Hpg).
  destruct (ri_pages _ _ _ _ I i r k Hi ltac:(lia)) as (m & Hm & _ & Hp).
  assert (is_Some (as_mem v x) → is_Some (as_mem v2 x)) as Hkeep.
  { intros Hs. destruct (Hpop x) as [(->&_)|(? & _ & _ & ? & _)]; done. }
  inversion Hp as [Hx' Hs|Hx' Hs|Hx' Hs].
  - apply (Hun k); [|done]. apply elem_acquired. split; [apply elem_chunk_indices; eauto|].
    exists m. split; [done|]. split; [done|]. done.
  - apply Hkeep. by apply Hx'.
  - apply Hkeep. by apply Hx'.
Qed.

(** The invariant once the chunk is remapped and its pages are marked dirty. *)
Lemma rinv_cow w' :
  0 < n → (∀ x, paddr r k0 ≤ x < paddr r k0 + n * page_size r → is_Some (as_mem v2 x)) →
  remapped (paddr r k0) (n * page_size r) v2 (k_view (kern w')) →
  pages w' = set_states (λ _, true) STATE_PRIVATE_DIRTY l (pages w) →
  good (sock w') → zlen (page_buf w') = zlen (page_buf w) →
  pages_served w' = pages_served w + zlen (unloaded acq) →
  pages_dirtied w' = pages_dirtied w + zlen acq → rinv rs content good w'.
Proof using L I Hi Hk0 Hend Hpop.
  intros Hn Hall Hre Hp Hg Hb Hs Hd.
  destruct (count_dirty_all l (pages w) (NoDup_chunk_indices _)) as [Hcd Hcl].
  { intros j Hj. destruct (rinv_plain w i r k0 n j I Hi Hk0 Hend Hj) as (m & -> & _). done. }
  split.
  - rewrite Hp, zlen_set_states. apply I.
  - done.
  - intros j r' Hj. rewrite Hb. by eapply I.
  - intros j r' x Hj Hx. destruct (Hre x) as (_ & Hin & Hout).
    destruct (within _ _ x); [by apply Hin|]. destruct (Hout eq_refl) as (_&_&_&->).
    rewrite populate_mapped. by eapply I.
  - rewrite Hp, Hs, Hcl. by rewrite (ri_served _ _ _ _ I).
  - rewrite Hp, Hd, Hcd. by rewrite (ri_dirtied _ _ _ _ I).
  - intros j r' k' Hj Hk'. destruct (ri_pages _ _ _ _ I j r' k' Hj Hk') as (m & Hm & Ho & Hr').
    rewrite Hp, znth_set_states, Hm by auto. simpl. eexists. split; [done|].
    split; [by case_match|]. rewrite andb_true_r. case_bool_decide as Hin.
    + apply elem_chunk_indices in Hin as (k & Hk & Heq).
      destruct (index_unique rs L j i r' r k' k Hj Hi Hk' ltac:(lia) Heq) as [-> ->].
      apply rpage_dirty. intros x Hx.
      assert (paddr r k0 ≤ x < paddr r k0 + n * page_size r) as Hxc by (apply in_chunk; eauto).
      destruct (Hre x) as (Hm1 & Hin1 & _). rewrite (proj2 (within_spec _ _ _) Hxc) in Hin1.
      rewrite Hm1. destruct (Hin1 eq_refl) as (?&?&?). split; [by apply Hall|done].
    + eapply rpage_agree; [|exact Hr']. intros x Hx.
      assert (¬ ∃ k, k0 ≤ k < k0 + n ∧ in_pg r k x) as Hnc.
      { intros (k & Hk & Hx'). destruct (in_pg_unique rs L j i r' r k' k x) as [-> ->];
          [done|done|done|lia|done|done|]. apply Hin, elem_chunk_indices. eauto. }
      destruct (Hre x) as (_ & _ & Hout). rewrite (proj2 (within_false _ _ x)) in Hout
        by (rewrite in_chunk; done).
      apply (agree_at_trans _ _ _ _ (Hout eq_refl)). destruct (Hpop x) as [?|(k & Ha & Hx' & _)]; [done|].
      destruct Hnc. exists k. split; [|done]. apply elem_acquired in Ha as [Ha _].
      apply elem_chunk_indices in Ha as (k2 & ? & ?). lia.
Qed.

End populate.

Lemma remapped_preserves a n v v' : remapped a n v v' → preserves rs v v'.
Proof. intros H i r x b _ _ Hb. destruct (H x) as [-> _]. done. Qed.

(** The part of [handle_wp_fault] with pages acquired. *)
Lemma cow_outcome fuel fd i r k0 n w :
  rinv rs content good w → rs !! i = Some r → 0 ≤ k0 → 0 < n → k0 + n ≤ pages_of r →
  (Z.to_nat (page_size r) + k_intr (kern w) ≤ fuel)%nat →
  let l := chunk_indices (chunk_of r k0 n) in
  let acq := acquired_of (pages w) l in
  ∃ res w', (_ ← for_ acq (load_acquired fuel fd src (chunk_of r k0 n)); cow_tail fd (chunk_of r k0 n) acq)
              (set_pages (set_states (λ s, negb (is_dirty s)) STATE_LOADING l (pages w)) w) = (res, w') ∧
    routcome rs content good w res w' ∧
    (res = Ok tt → pages w' = set_states (λ _, true) STATE_PRIVATE_DIRTY l (pages w)).
Proof.
  intros I Hi Hk0 Hn Hend Hf l acq. set (w1 := set_pages _ w).
  destruct (layout_range rs i r L Hi) as (Hr & _). pose proof (r_size_pos r Hr) as Hp.
  assert (∀ j, j ∈ l → is_Some (znth (pages w) j)) as Hin.
  { intros j Hj. destruct (rinv_plain w i r k0 n j I Hi Hk0 Hend Hj) as (m & -> & _). done. }
  destruct (count_dirty_all l (pages w) (NoDup_chunk_indices _) Hin) as [Hcd Hcl]. fold acq in Hcd, Hcl.
  pose proof (count_bounds is_loaded (set_states (λ _, true) STATE_PRIVATE_DIRTY l (pages w))) as Hb1.
  pose proof (count_bounds is_dirty (set_states (λ _, true) STATE_PRIVATE_DIRTY l (pages w))) as Hb2.
  pose proof (count_bounds is_loaded (pages w)). pose proof (count_bounds is_dirty (pages w)).
  rewrite zlen_set_states, (ri_len _ _ _ _ I) in Hb1, Hb2. pose proof (l_total rs L).
  pose proof (ri_served _ _ _ _ I) as Hsv. pose proof (ri_dirtied _ _ _ _ I) as Hdt.
  destruct (load_all_run fuel fd i r k0 n acq w1 Hi Hk0 Hend) as (res & w2 & Hrun & P1 & P2 & P3 & P4 & P5);
    [by apply NoDup_acquired, NoDup_chunk_indices|by apply (rinv_acq_ok w i)|by eapply I|apply I|done
    |simpl; lia|simpl; lia|]. simpl in P1, P2, P3, P4, P5.
  pose proof (populate_preserves w I i r k0 n Hi Hk0 Hend _ P4) as Hpres.
  pose proof (populate_safe w I i r k0 n Hi Hk0 Hend _ P4) as Hsafe.
  destruct res as [[]|e| |]; [|..|done|done].
  2: { rewrite (m_bind_err _ _ _ _ _ Hrun). eexists _, _. split; [done|]. by repeat split. }
  rewrite (m_bind_run _ _ _ _ _ Hrun). destruct P5 as (Hg & Hsv2 & Hun).
  pose proof (chunk_present w I i r k0 n Hi Hk0 Hend _ P4 Hun) as Hall.
  destruct (load_bytes_is_Some _ _ _ Hall) as [bs Hbs].
  destruct (cow_tail_run fd (chunk_of r k0 n) acq bs w2) as [(e & k' & Hct & Hv)|(res & k' & Hct & Hres & Hre)];
    [simpl; nia|exact Hbs| |rewrite P2; simpl; lia| |].
  { intros j Hj. rewrite P1, znth_set_states by auto. destruct (Hin j Hj) as [m ->]. done. }
  - eexists _, _. split; [exact Hct|]. split; [split|done].
    + apply (preserves_trans _ _ _ Hpres). intros j r' x b _ _ Hb. simpl. by rewrite (proj1 (Hv x)).
    + intros j r' x b Hj Hx Hb. simpl in Hb |- *. destruct (Hv x) as [Hv1 Hv2]. rewrite Hv2.
      apply (Hsafe j r' x b Hj Hx). by rewrite <-Hv1.
  - eexists _, _. split; [exact Hct|].
    assert (rinv rs content good (set_kern k' (set_dirtied (pages_dirtied w2 + zlen acq)
      (set_pages (set_states (λ _, true) STATE_PRIVATE_DIRTY (chunk_indices (chunk_of r k0 n)) (pages w2)) w2))))
      as I'.
    { apply (rinv_cow w I i r k0 n Hi Hk0 Hend _ P4); try done; simpl.
      - rewrite P1. apply set_states_twice.
      - by rewrite P2. }
    split; [|intros _; simpl; rewrite P1; apply set_states_twice].
    split; [exact (preserves_trans _ _ _ Hpres (remapped_preserves _ _ _ _ Hre))|].
    destruct Hres as [->|[e ->]]; [exact I'|]. by apply (rinv_safe _ I').
Qed.

Lemma wp_outcome fuel fd i r k w :
  rinv rs content good w → rs !! i = Some r → 0 ≤ k < pages_of r →
  (Z.to_nat (page_size r) + k_intr (kern w) ≤ fuel)%nat →
  ∃ res w', handle_wp_fault fuel fd src rs (fault_at r k) w = (res, w') ∧ routcome rs content good w res w' ∧
    (res = Ok tt → ∃ m, znth (pages w') (first_page_index r + k) = Some m ∧ state m = STATE_PRIVATE_DIRTY).
Proof.
  intros I Hi Hk Hf. destruct (layout_range rs i r L Hi) as (Hr & _). pose proof (r_size_pos r Hr) as Hp.
  pose proof (chunk_at_pages r k Hr Hk) as (Hk0 & Hin & Hend & _). cbv zeta in *.
  set (q := k / chunk_pages r) in *. set (k0 := q * chunk_pages r) in *.
  set (n := c_page_count (chunk_at r q)) in *. unfold handle_wp_fault.
  rewrite (m_bind_run _ _ w (Some (chunk_of r k0 n)) w)
    by (unfold lift; by rewrite (cow_chunk_ok rs i r k L Hi Hk)).
  rewrite (m_bind_run _ _ w (chunk_of r k0 n) w) by done.
  rewrite (m_bind_run _ _ w w w) by done.
  destruct (Z.ltb_spec (zlen (page_buf w)) (c_page_size (chunk_of r k0 n))) as [Hlt|_].
  { simpl in Hlt. pose proof (ri_buf _ _ _ _ I i r Hi). lia. }
  set (l := chunk_indices (chunk_of r k0 n)).
  rewrite (m_bind_run _ _ _ _ _ (acquire_run fuel l w ltac:(lia) (NoDup_chunk_indices _)
    (λ j Hj, rinv_plain w i r k0 n j I Hi Hk0 Hend Hj))).
  destruct (acquired_of (pages w) l) as [|a acq] eqn:Ha.
  - rewrite (set_states_none l (pages w) Ha).
    assert (set_pages (pages w) w = w) as -> by (by destruct w).
    destruct (wake_outcome fd (f_page_addr (fault_at r k)) (f_page_size (fault_at r k)) w I)
      as (w' & Hw & Ho). eexists _, _. split; [exact Hw|]. split; [done|]. intros _.
    rewrite (wake_warn_pages _ _ _ _ _ _ Hw). destruct (ri_pages _ _ _ _ I i r k Hi Hk) as (m & Hm & _ & Hpg).
    exists m. split; [done|]. destruct (is_dirty (state m)) eqn:Hd; [by apply Z.eqb_eq in Hd|].
    assert ((first_page_index r + k, state m) ∈ acquired_of (pages w) l) as Hel.
    { apply elem_acquired. split; [apply elem_chunk_indices; eauto|]. eauto. }
    rewrite Ha in Hel. by apply elem_of_nil in Hel.
  - pose proof (cow_outcome fuel fd i r k0 n w I Hi Hk0 ltac:(lia) Hend Hf) as Hc. cbv zeta in Hc.
    fold l in Hc. rewrite Ha in Hc. destruct Hc as (res & w' & Hrun & Ho & Hpgs).
    exists res, w'. split; [exact Hrun|]. split; [done|]. intros Hok. rewrite (Hpgs Hok).
    destruct (ri_pages _ _ _ _ I i r k Hi Hk) as (m & Hm & _ & _).
    rewrite znth_set_states, Hm by auto. simpl. rewrite bool_decide_true; [by eexists|].
    apply elem_chunk_indices. eauto.
Qed.

(** ** The loop *)

Definition enough (fuel : nat) (w : RWorld) : Prop :=
  ∀ i r, rs !! i = Some r → (Z.to_nat (page_size r) + k_intr (kern w) ≤ fuel)%nat.

Lemma routcome_bind {A B : Type} w1 w (m : M RWorld io_error A) (b : B) r w' :
  m w = (r, w') → routcome rs content good w1 r w' →
  ∃ r' w'', (_ ← m; mret b) w = (r', w'') ∧ routcome rs content good w1 r' w''.
Proof.
  intros H [Hp Ho]. destruct r as [a|e| |]; [| |done|done].
  - rewrite (m_bind_run _ _ _ _ _ H). by eexists _, _.
  - rewrite (m_bind_err _ _ _ _ _ H). by eexists _, _.
Qed.

Lemma routcome_from {A} w1 w2 (r : res io_error A) w' :
  k_view (kern w2) ≡ k_view (kern w1) → routcome rs content good w2 r w' → routcome rs content good w1 r w'.
Proof.
  intros Hv [Hp Ho]. split; [|done]. exact (preserves_trans _ _ _ (preserves_view _ _ Hv) Hp).
Qed.

Lemma message_outcome fd fuel w :
  rinv rs content good w → enough fuel w →
  ∃ res w', handle_message fd src rs fuel w = (res, w') ∧ routcome rs content good w res w'.
Proof.
  intros I Hf. unfold handle_message.
  destruct (k_read_msg fd 32 (kern w)) as [o k1] eqn:Hread.
  pose proof (k_read_msg_view _ _ _ _ _ Hread) as [Hv1 Hi1]. set (w1 := set_kern k1 w).
  assert (rinv rs content good w1) as I1 by (eapply rinv_view; [exact Hv1|apply I|done..]).
  assert (∀ A (res : res io_error A), match res with Ok _ | Err _ => True | _ => False end →
            routcome rs content good w res w1) as Hsame.
  { intros A res Hres. apply outcome_same; [done|done|]. by destruct res. }
  rewrite (m_bind_run _ _ w (match o with inl e => inl (Os e) | inr x => inr x end) w1)
    by (unfold try_, on_kern, sys_; rewrite Hread; by destruct o).
  destruct o as [e|[nread msg]].
  { case_bool_decide; (eexists _, _; split; [done|]; by apply Hsame). }
  destruct (nread =? 0); [eexists _, _; split; [done|]; by apply Hsame|].
  destruct (negb (nread =? 32)); [eexists _, _; split; [done|]; by apply Hsame|].
  destruct (negb (msg_event msg =? UFFD_EVENT_PAGEFAULT)); [eexists _, _; split; [done|]; by apply Hsame|].
  pose proof (k_read_msg_u64 _ _ _ _ _ _ Hread) as Ha.
  destruct (decide (Exists (λ r, host_addr r ≤ pf_address msg < host_addr r + length r) rs)) as [Hex|Hno].
  2: { rewrite (m_bind_run _ _ w1 None w1).
       - eexists _, _. split; [done|]. by apply Hsame.
       - unfold lift. rewrite locate_fault_out; [done|done|done|]. intros i r Hi Hin.
         apply Hno, Exists_exists. exists r. split; [by eapply list_elem_of_lookup_2|exact Hin]. }
  apply Exists_exists in Hex as (r & Hr & Hin). apply list_elem_of_lookup_1 in Hr as [i Hi].
  destruct (layout_range rs i r L Hi) as (Hok & _). destruct (range_page r _ Hok Hin) as [Hk _].
  set (k := (pf_address msg - host_addr r) / page_size r) in *.
  rewrite (m_bind_run _ _ w1 (Some (fault_at r k)) w1)
    by (unfold lift; by rewrite (locate_fault_in rs i r _ L Hi Ha Hin)).
  rewrite (m_bind_run _ _ w1 (fault_at r k) w1) by done.
  assert ((Z.to_nat (page_size r) + k_intr (kern w1) ≤ fuel)%nat) as Hf1
    by (specialize (Hf i r Hi); simpl; lia).
  destruct (negb _).
  - destruct (wp_outcome fuel fd i r k w1 I1 Hi Hk Hf1) as (res & w2 & Hrun & Ho & _).
    apply (routcome_bind w w1 _ _ res w2 Hrun). by apply (routcome_from w w1).
  - destruct (missing_outcome fuel fd i r k w1 I1 Hi Hk Hf1) as (res & w2 & Hrun & Ho & _).
    apply (routcome_bind w w1 _ _ res w2 Hrun). by apply (routcome_from w w1).
Qed.

(** A guest store that the protection lets through hits only dirty pages. *)
Lemma rstore_inv a bs w :
  rinv rs content good w →
  (∀ x, a ≤ x < a + zlen bs → ∃ i r, rs !! i = Some r ∧ in_range r x) →
  writable (k_view (kern w)) a (zlen bs) = true →
  rinv rs content good (set_kern (k_store a bs (kern w)) w).
Proof.
  intros I Hreg Hwr. pose proof (k_store_ok a bs (kern w) Hwr) as Hv.
  split; simpl; try apply I.
  - intros i r x Hi Hx. destruct (Hv x) as (_&_&_&->). simpl. by eapply I.
  - intros i r k Hi Hk. destruct (ri_pages _ _ _ _ I i r k Hi Hk) as (m & Hm & Ho & Hp).
    exists m. split; [done|]. split; [done|].
    assert (∀ x, within a (zlen bs) x = false → agree_at (k_view (k_store a bs (kern w))) (k_view (kern w)) x)
      as Hout.
    { intros x Hx. apply (agree_at_trans _ _ _ _ (Hv x)). unfold agree_at. simpl. by rewrite Hx. }
    assert (∀ x, within a (zlen bs) x = true →
              is_Some (as_mem (k_view (kern w)) x) ∧ as_wp (k_view (kern w)) x = false) as Hin.
    { intros x Hx%within_spec. by apply (writable_elim _ a (zlen bs)). }
    destruct Hp as [Hx|Hx|Hx].
    + apply (rpage_agree (k_view (kern w))); [|by apply rpage_unloaded]. intros x Hpx. apply Hout.
      apply not_true_iff_false. intros Hw. destruct (Hin x Hw) as [Hs _].
      destruct (Hx x Hpx) as [He _]. rewrite He in Hs. by destruct Hs.
    + apply (rpage_agree (k_view (kern w))); [|by apply rpage_ready]. intros x Hpx. apply Hout.
      apply not_true_iff_false. intros Hw. destruct (Hin x Hw) as [_ Hwp].
      destruct (Hx x Hpx) as (_&_&_&Ht). by rewrite Ht in Hwp.
    + apply rpage_dirty. intros x Hpx. destruct (Hx x Hpx) as (H1&H2&H3).
      destruct (Hv x) as (->&->&->&_). simpl. split; [|done].
      destruct (within a (zlen bs) x) eqn:Hw; [|done]. apply within_spec in Hw. apply znth_is_Some. lia.
Qed.

Section turns.
Context (env : RWorld → RWorld).
Context (env_inv : ∀ w, rinv rs content good w → rinv rs content good (env w)).
Context (env_intr : ∀ w, (k_intr (kern (env w)) ≤ k_intr (kern w))%nat).

Definition settled {A} (r : res io_error A) (w' : RWorld) : Prop :=
  match r with
  | Ok _ => rinv rs content good w'
  | Err _ => rsafe rs content (k_view (kern w'))
  | _ => False
  end.

Lemma turn_outcome fd stop_fd ep fuel w :
  rinv rs content good w → enough fuel w →
  ∃ res w', handler_turn env fd stop_fd ep src rs fuel w = (res, w') ∧ settled res w'.
Proof.
  intros I Hf. unfold handler_turn. destruct (k_epoll_wait ep 2 (kern w)) as [o k1] eqn:Hw.
  pose proof (k_epoll_wait_view _ _ _ _ _ Hw) as [Hv1 Hi1].
  set (w1 := env (set_kern k1 w)).
  assert (rinv rs content good w1) as I1
    by (apply env_inv; eapply rinv_view; [exact Hv1|apply I|done..]).
  assert (enough fuel w1) as Hf1.
  { intros i r Hi. specialize (Hf i r Hi). pose proof (env_intr (set_kern k1 w)). simpl in *. unfold w1. lia. }
  pose proof (rinv_safe w1 I1) as S1.
  rewrite (m_bind_run _ _ w (match o with inl e => inl (Os e) | inr x => inr x end) (set_kern k1 w))
    by (unfold try_, on_kern, sys_; rewrite Hw; by destruct o).
  rewrite (m_bind_run _ _ (set_kern k1 w) tt w1) by done.
  destruct o as [e|events]; [case_bool_decide; by eexists _, _|].
  destruct (scan events false) as [| |[]].
  - eexists _, _. split; [done|]. simpl.
    eapply rinv_view; [apply (k_eventfd_read_view stop_fd (kern w1))|apply I1|done..].
  - by eexists _, _.
  - destruct (message_outcome fd fuel w1 I1 Hf1) as (res & w2 & Hrun & _ & Ho).
    exists res, w2. split; [exact Hrun|exact Ho].
  - by eexists _, _.
Qed.

Lemma restore_reach fd stop_fd ep w w' :
  rtc (restore_step rs env fd stop_fd ep src) w w' → rinv rs content good w → rinv rs content good w'.
Proof.
  induction 1 as [|w1 w2 w3 Hstep _ IH]; [done|]. intros I. apply IH.
  destruct Hstep as [fuel o u u' Hf Hrun|a bs u Hreg Hwr].
  - destruct (turn_outcome fd stop_fd ep fuel u I Hf) as (r & u2 & Hr & Ho). rewrite Hrun in Hr.
    by injection Hr as <- <-.
  - by apply rstore_inv.
Qed.

End turns.

(** ** The start *)

(** A freshly registered guest memory satisfies the invariant. *)
Lemma start_rinv d w :
  pages w = mjoin (page_metas <$> rs) → good (sock w) → (∀ i r, rs !! i = Some r → page_size r ≤ d) →
  (∀ i r x, rs !! i = Some r → in_range r x → as_mapped (k_view (kern w)) x = true ∧
     as_mem (k_view (kern w)) x = None ∧ as_private (k_view (kern w)) x = false) →
  0 ≤ d → rinv rs content good (reset d w).
Proof.
  intros Hp Hg Hd Hfresh Hd0. split; simpl; rewrite ?Hp.
  - apply zlen_metas, L.
  - done.
  - intros i r Hi. rewrite zlen_zreplicate by done. eauto.
  - intros i r x Hi Hx. by eapply Hfresh.
  - by rewrite count_metas.
  - by rewrite count_metas.
  - intros i r k Hi Hk. eexists. split.
    + replace (first_page_index r + k) with (first_page_index r - 0 + k) by lia.
      by apply (page_table 0 rs i); [apply L|apply L|..].
    + split; [done|]. apply rpage_unloaded. intros x Hx.
      by destruct (Hfresh i r x Hi (in_pg_range rs L i r k x Hi Hk Hx)) as (_&?&?).
Qed.

End session.

(** ** Properties *)

(** A guest of three pages of four bytes restored from a snapshot file. *)
Definition demo_rs : list TemplateRange := placed 0 [range_new 64 12 0 4].

Definition no_stream : Stream := {|
  sst := unit;
  s_write_all _ s := (inl (Custom BrokenPipe "no service"), s);
  s_read_exact _ s := (inl (Custom BrokenPipe "no service"), s) |}.

Definition demo_files (fd : Z) : list Z := zrange 10 22.
Definition demo_kernel : Kernel := Sim.kernel demo_files 3.
#[local] Instance demo_ok : KernelOk demo_kernel := Sim.kernel_ok demo_files 3.

Definition demo_world (plan : list (option Z)) (events : list UffdMsg) : @RWorld demo_kernel no_stream :=
  @reset demo_kernel no_stream (max_page_size demo_rs 4)
    {| kern := {| Sim.view := {| as_mem _ := None; as_wp _ := false; as_private _ := false;
                                 as_mapped := within 64 12 |};
                  Sim.plan := plan; Sim.next_free := 4096; Sim.events := events |} : @kst demo_kernel;
       sock := tt : @sst no_stream; pages := mjoin (page_metas <$> demo_rs); page_buf := [];
       pages_served := 0; pages_dirtied := 0; ready := false |}.

Lemma demo_layout : layout_ok demo_rs.
Proof.
  refine (proj2 (lay_out_ok (E:=unit) [range_new 64 12 0 4] _ _ eq_refl)).
  - repeat constructor; try done; [by exists 2|by exists 16|by exists 3].
  - intros i j r r' a Hi Hj _ _. destruct i as [|i], j as [|j]; done.
Qed.

Lemma demo_small i r : demo_rs !! i = Some r → page_size r < 2 ^ 32.
Proof. destruct i as [|i]; [|done]. by intros [= <-]. Qed.

Lemma demo_rinv plan events :
  @rinv demo_kernel no_stream demo_rs (zrange 10 22) (λ _, True) (demo_world plan events).
Proof.
  apply (start_rinv (K:=demo_kernel) (St:=no_stream) demo_rs demo_layout); [done|done| | |done].
  - intros i r Hi. by apply (max_page_size_ge demo_rs 4 i).
  - intros i r x Hi Hx. destruct i as [|i]; [|done]. injection Hi as <-. simpl.
    split; [|done]. apply within_spec. exact Hx.
Qed.

(** C10: a missing-page fault of a restore is resolved.  Given fuel for the reads
    and retries the handler returns; no byte the guest already saw changes; on
    success every byte of the page is present and the session invariant holds
    (template bytes, write-protected), on failure nothing but template bytes or the
    guest's own is visible. *)
Theorem restore_missing_resolved `{K : Kernel, !KernelOk K} `{St : Stream} rs content good src
    `{!SourceOk src content good} fuel fd i r k w :
  layout_ok rs → (∀ i r, rs !! i = Some r → page_size r < 2 ^ 32) →
  rinv rs content good w → rs !! i = Some r → 0 ≤ k < pages_of r →
  (Z.to_nat (page_size r) + k_intr (kern w) ≤ fuel)%nat →
  ∃ res w', handle_missing fuel fd src (fault_at r k) w = (res, w') ∧
    preserves rs (k_view (kern w)) (k_view (kern w')) ∧
    match res with
    | Ok _ => rinv rs content good w' ∧ ∀ x, in_pg r k x → is_Some (as_mem (k_view (kern w')) x)
    | Err _ => rsafe rs content (k_view (kern w'))
    | _ => False
    end.
Proof.
  intros L Hs I Hi Hk Hf.
  destruct (missing_outcome rs L content good src Hs fuel fd i r k w I Hi Hk Hf)
    as (res & w' & Hrun & [Hp Ho] & Hst).
  exists res, w'. split; [done|]. split; [done|]. destruct res as [[]|e| |]; [|done..].
  split; [done|]. intros x Hx. destruct (Hst eq_refl) as (m & Hm & Hne).
  destruct (ri_pages _ _ _ _ Ho i r k Hi Hk) as (m' & Hm' & _ & Hpg).
  rewrite Hm in Hm'. injection Hm' as <-. inversion Hpg as [Hy Hu|Hy Hu|Hy Hu]; [congruence|by apply Hy..].
Qed.

Lemma restore_missing_resolved_witness :
  ∃ w', @handle_missing demo_kernel no_stream 10 9 (File 3) (fault_at (range_new 64 12 0 4) 1)
          (demo_world [Some EINTR; None; None; Some EAGAIN] []) = (Ok tt, w') ∧
    as_mem (k_view (kern w')) 69 = Some 15 ∧ pages_served w' = 1.
Proof.
  destruct (@restore_missing_resolved demo_kernel demo_ok no_stream demo_rs (zrange 10 22) (λ _, True) (File 3)
    (file_source 3) 10 9 0 (range_new 64 12 0 4) 1 (demo_world [Some EINTR; None; None; Some EAGAIN] [])
    demo_layout demo_small (demo_rinv _ _) eq_refl ltac:(vm_compute; done) ltac:(vm_compute; lia))
    as (res & w' & H & _).
  eval_result H. exists w'. split; [exact H|]. split; [eval_state H|eval_state H].
Defined.

(** C9: a write fault of a restore is resolved for the whole chunk around it.  The
    handler returns; no byte the guest already saw changes, whether it succeeds or
    not; on success the faulting page is present, private and writable, so that the
    store goes through when it is retried, and the session invariant holds with both
    counters exact. *)
Theorem restore_write_resolved `{K : Kernel, !KernelOk K} `{St : Stream} rs content good src
    `{!SourceOk src content good} fuel fd i r k w :
  layout_ok rs → (∀ i r, rs !! i = Some r → page_size r < 2 ^ 32) →
  rinv rs content good w → rs !! i = Some r → 0 ≤ k < pages_of r →
  (Z.to_nat (page_size r) + k_intr (kern w) ≤ fuel)%nat →
  ∃ res w', handle_wp_fault fuel fd src rs (fault_at r k) w = (res, w') ∧
    preserves rs (k_view (kern w)) (k_view (kern w')) ∧
    match res with
    | Ok _ => rinv rs content good w' ∧ ∀ x, in_pg r k x →
        is_Some (as_mem (k_view (kern w')) x) ∧ as_private (k_view (kern w')) x = true ∧
        as_wp (k_view (kern w')) x = false
    | Err _ => rsafe rs content (k_view (kern w'))
    | _ => False
    end.
Proof.
  intros L Hs I Hi Hk Hf.
  destruct (wp_outcome rs L content good src Hs fuel fd i r k w I Hi Hk Hf)
    as (res & w' & Hrun & [Hp Ho] & Hst).
  exists res, w'. split; [done|]. split; [done|]. destruct res as [[]|e| |]; [|done..].
  split; [done|]. intros x Hx. destruct (Hst eq_refl) as (m & Hm & He).
  destruct (ri_pages _ _ _ _ Ho i r k Hi Hk) as (m' & Hm' & _ & Hpg).
  rewrite Hm in Hm'. injection Hm' as <-. rewrite He in Hpg. inversion Hpg as [| |Hy]. by apply Hy.
Qed.

Definition demo_loaded : @RWorld demo_kernel no_stream :=
  (@handle_missing demo_kernel no_stream 10 9 (File 3) (fault_at (range_new 64 12 0 4) 1)
     (demo_world [] [])).2.

Lemma demo_loaded_rinv : rinv demo_rs (zrange 10 22) (λ _, True) demo_loaded.
Proof.
  destruct (missing_outcome (K:=demo_kernel) (St:=no_stream) demo_rs demo_layout (zrange 10 22) (λ _, True) (File 3)
    demo_small 10 9 0 (range_new 64 12 0 4) 1 (demo_world [] []) (demo_rinv _ _) eq_refl
    ltac:(vm_compute; done) ltac:(vm_compute; lia)) as (res & w' & H & [_ Ho] & _).
  eval_result H. unfold demo_loaded. rewrite H. exact Ho.
Qed.

Lemma restore_write_resolved_witness :
  ∃ w', handle_wp_fault 10 9 (File 3) demo_rs (fault_at (range_new 64 12 0 4) 1) demo_loaded = (Ok tt, w') ∧
    load_bytes (k_view (kern w')) 64 12 = Some (zrange 10 22) ∧
    writable (k_view (kern w')) 64 12 = true ∧ pages_served w' = 3 ∧ pages_dirtied w' = 3.
Proof.
  destruct (@restore_write_resolved demo_kernel demo_ok no_stream demo_rs (zrange 10 22) (λ _, True) (File 3)
    (file_source 3) 10 9 0 (range_new 64 12 0 4) 1 demo_loaded
    demo_layout demo_small demo_loaded_rinv eq_refl ltac:(vm_compute; done) ltac:(vm_compute; lia))
    as (res & w' & H & _).
  eval_result H. exists w'. split; [exact H|]. split; [eval_state H|]. split; [eval_state H|].
  split; [eval_state H|eval_state H].
Defined.

(** C2: a restore session keeps its invariant: every page is missing, or loaded with
    the template's bytes under write protection, or private to the guest, as its
    table entry says, and the two counters are the numbers of loaded and of dirtied
    pages.  Turns of the handler and guest stores, in any order, keep it; and from
    every such state a turn returns, with the invariant or with an error after which
    only template bytes and the guest's own are visible.  In particular the waiting
    loops on LOADING pages are never entered. *)
Theorem restore_session_invariant `{K : Kernel, !KernelOk K} `{St : Stream} rs content good src
    `{!SourceOk src content good} env fd stop_fd ep w w' :
  layout_ok rs → (∀ i r, rs !! i = Some r → page_size r < 2 ^ 32) →
  (∀ u, rinv rs content good u → rinv rs content good (env u)) →
  (∀ u, (k_intr (kern (env u)) ≤ k_intr (kern u))%nat) →
  rinv rs content good w → rtc (restore_step rs env fd stop_fd ep src) w w' →
  rinv rs content good w' ∧
  ∀ fuel, (∀ i r, rs !! i = Some r → (Z.to_nat (page_size r) + k_intr (kern w') ≤ fuel)%nat) →
    ∃ res w'', handler_turn env fd stop_fd ep src rs fuel w' = (res, w'') ∧
      match res with
      | Ok _ => rinv rs content good w''
      | Err _ => rsafe rs content (k_view (kern w''))
      | _ => False
      end.
Proof.
  intros L Hs He Hk I H. pose proof (restore_reach rs L content good src Hs env He Hk _ _ _ _ _ H I) as I'.
  split; [done|]. intros fuel Hf.
  exact (turn_outcome rs L content good src Hs env He Hk fd stop_fd ep fuel w' I' Hf).
Qed.

(** A read fault, a write fault and a store. *)
Definition demo_turn (w : @RWorld demo_kernel no_stream) : @RWorld demo_kernel no_stream :=
  (handler_turn id 9 7 5 (File 3) demo_rs 10 w).2.

Definition demo_start : @RWorld demo_kernel no_stream :=
  demo_world [] [ {| msg_event := UFFD_EVENT_PAGEFAULT; pf_flags := 0; pf_address := 69 |};
                  {| msg_event := UFFD_EVENT_PAGEFAULT; pf_flags := UFFD_PAGEFAULT_FLAG_WP;
                     pf_address := 70 |} ].

Definition demo_end : @RWorld demo_kernel no_stream :=
  set_kern (@k_store demo_kernel 70 [99] (kern (demo_turn (demo_turn demo_start))))
    (demo_turn (demo_turn demo_start)).

Lemma demo_end_reach : rtc (restore_step demo_rs id 9 7 5 (File 3)) demo_start demo_end.
Proof.
  eapply rtc_l; [refine (restore_turn demo_rs id 9 7 5 (File 3) 10 None _ _ _ (run_snd _ _ _));
    [intros [|i] r Hi; [injection Hi as <-; vm_compute; lia|done]|vm_compute; reflexivity]|].
  eapply rtc_l; [refine (restore_turn demo_rs id 9 7 5 (File 3) 10 None _ _ _ (run_snd _ _ _));
    [intros [|i] r Hi; [injection Hi as <-; vm_compute; lia|done]|vm_compute; reflexivity]|].
  eapply rtc_l; [|apply rtc_refl]. unfold demo_end, demo_turn.
  apply (restore_store demo_rs id 9 7 5 (File 3) 70 [99]).
  - intros x Hx. exists 0%nat. eexists. split; [done|]. unfold in_range, zlen in *. simpl in *. lia.
  - vm_compute. reflexivity.
Qed.

Lemma restore_session_invariant_witness :
  rinv demo_rs (zrange 10 22) (λ _, True) demo_end ∧
  load_bytes (k_view (kern demo_end)) 64 12 = Some ([10; 11; 12; 13; 14; 15; 99] ++ zrange 17 22).
Proof.
  split; [|vm_compute; reflexivity].
  exact (proj1 (@restore_session_invariant demo_kernel demo_ok no_stream demo_rs (zrange 10 22) (λ _, True)
    (File 3) (file_source 3) id 9 7 5 demo_start demo_end demo_layout demo_small (λ u H, H) (λ u, le_n _)
    (demo_rinv _ _) demo_end_reach)).
Defined.

(** The restore starts in the invariant: with the ranges laid out by the backend
    constructor and the guest memory mapped and still empty, the state in which
    [handler_loop] enters its loop, with a buffer of the maximal page size,
    satisfies it. *)
Theorem restore_start `{K : Kernel, !KernelOk K} `{St : Stream} content good rs0 rs ps d w :
  Forall range_ok rs0 → disjoint rs0 → total rs0 < 2 ^ 64 → 0 ≤ d →
  @lay_out io_error rs0 = Ok (rs, ps) → pages w = ps → good (sock w) →
  (∀ i r x, rs !! i = Some r → in_range r x → as_mapped (k_view (kern w)) x = true ∧
     as_mem (k_view (kern w)) x = None ∧ as_private (k_view (kern w)) x = false) →
  layout_ok rs ∧ rinv rs content good (reset (max_page_size rs d) w).
Proof.
  intros Hok Hdis Ht Hd Hlo Hp Hg Hfresh. destruct (lay_out_ok (E:=io_error) rs0 Hok Hdis Ht) as [Hl L].
  rewrite Hlo in Hl. injection Hl as -> ->. split; [exact L|].
  apply (start_rinv (placed 0 rs0) L content good); [by rewrite page_metas_placed|done| |done|].
  - intros i r Hi. by apply (max_page_size_ge (placed 0 rs0) d i).
  - destruct (placed 0 rs0) as [|r0 rs'] eqn:Hpl; [done|].
    pose proof (max_page_size_ge (r0 :: rs') d 0 r0 eq_refl) as Hm.
    pose proof (r_size_pos r0 (Forall_inv (l_ranges _ L))). lia.
Qed.

Lemma restore_start_witness :
  ∃ rs ps, @lay_out io_error [range_new 64 12 0 4] = Ok (rs, ps) ∧
    rinv rs (zrange 10 22) (λ _, True) (reset (max_page_size rs 4) (demo_world [] [])).
Proof.
  destruct (@lay_out io_error [range_new 64 12 0 4]) as [[rs ps]|e| |] eqn:Hl; [|done..].
  exists rs, ps. split; [reflexivity|].
  refine (proj2 (@restore_start demo_kernel demo_ok no_stream (zrange 10 22) (λ _, True)
    [range_new 64 12 0 4] rs ps 4 (demo_world [] []) _ _ eq_refl ltac:(lia) Hl _ Logic.I _)).
  - repeat constructor; try done; [by exists 2|by exists 16|by exists 3].
  - intros i j r r' a Hi Hj _ _. destruct i as [|i], j as [|j]; done.
  - vm_compute in Hl. injection Hl as <- <-. reflexivity.
  - vm_compute in Hl. injection Hl as <- _. intros i r x Hi Hx. destruct i as [|i]; [|done].
    injection Hi as <-. split; [|done]. apply within_spec. exact Hx.
Defined.

End RestoreSession.
