(* ===== verification/ServiceWire.v ===== *)
(** * The template service: connections, metrics and the wire

    Model of [serve_template_connection], [TemplateServiceState] and
    [TemplateServiceMetrics] in [src/main.rs], and of a connection between the
    service and the restore client of [RestoreSource].  The service reads the
    template file through [Kernel] and its socket through [Stream]; the wire joins
    the client's and the service's end of a socket, and discharges [SourceOk] for
    the [Service] source. *)

From stdpp Require Import gmap.
From S2P Require Import Prelude Kernel RestoreSource.
Import RestoreSource.

Module ServiceWire.

(** ** Metrics *)
Record TemplateServiceMetrics := {
  backend_bytes : Z; m_page_size : Z; template_dir : string; socket : string;
  page_requests : Z; request_errors : Z; bytes_served : Z; connections : Z;
  unique_pages_seen : gset Z }.

Definition metrics_new (bytes ps : Z) (dir sock : string) : TemplateServiceMetrics :=
  {| backend_bytes := bytes; m_page_size := ps; template_dir := dir; socket := sock;
     page_requests := 0; request_errors := 0; bytes_served := 0; connections := 0;
     unique_pages_seen := ∅ |}.

Definition with_seen (m : TemplateServiceMetrics) (s : gset Z) : TemplateServiceMetrics :=
  {| backend_bytes := backend_bytes m; m_page_size := m_page_size m; template_dir := template_dir m;
     socket := socket m; page_requests := page_requests m; request_errors := request_errors m;
     bytes_served := bytes_served m; connections := connections m; unique_pages_seen := s |}.

Definition record_unique_pages {E} (m : TemplateServiceMetrics) (offset len : Z)
    : res E TemplateServiceMetrics :=
  if (len =? 0) || (m_page_size m =? 0) then Ok m
  else
    first_page ← udiv offset (m_page_size m);
    e ← uadd offset len;
    last ← usub e 1;
    last_page ← udiv last (m_page_size m);
    Ok (with_seen m (foldl (λ s page, {[ page ]} ∪ s) (unique_pages_seen m)
                       (zrange first_page (last_page + 1)))).

Definition unique_pages (m : TemplateServiceMetrics) : Z := Z.of_nat (size (unique_pages_seen m)).
Definition unique_bytes {E} (m : TemplateServiceMetrics) : res E Z := umul (unique_pages m) (m_page_size m).
Definition duplicate_requests (m : TemplateServiceMetrics) : Z :=
  saturating_sub (page_requests m) (unique_pages m).

(** ** The shared state and its log *)
Record TemplateServiceState := { metrics : TemplateServiceMetrics; log : list string }.

Definition count_request {E} (m : TemplateServiceMetrics) (len : Z) : res E TemplateServiceMetrics :=
  n ← uadd (page_requests m) 1;
  b ← uadd (bytes_served m) len;
  Ok {| backend_bytes := backend_bytes m; m_page_size := m_page_size m; template_dir := template_dir m;
        socket := socket m; page_requests := n; request_errors := request_errors m;
        bytes_served := b; connections := connections m; unique_pages_seen := unique_pages_seen m |}.

Definition count_error {E} (m : TemplateServiceMetrics) : res E TemplateServiceMetrics :=
  n ← uadd (request_errors m) 1;
  Ok {| backend_bytes := backend_bytes m; m_page_size := m_page_size m; template_dir := template_dir m;
        socket := socket m; page_requests := page_requests m; request_errors := n;
        bytes_served := bytes_served m; connections := connections m;
        unique_pages_seen := unique_pages_seen m |}.

Definition count_connection {E} (m : TemplateServiceMetrics) : res E TemplateServiceMetrics :=
  n ← uadd (connections m) 1;
  Ok {| backend_bytes := backend_bytes m; m_page_size := m_page_size m; template_dir := template_dir m;
        socket := socket m; page_requests := page_requests m; request_errors := request_errors m;
        bytes_served := bytes_served m; connections := n; unique_pages_seen := unique_pages_seen m |}.

Section state.
(** [emit line log]: the error of writing a line to the log file, if any. *)
Context (emit : string → list string → option io_error).
Local Notation SM := (M TemplateServiceState io_error).

Definition on_metrics (f : TemplateServiceMetrics → res io_error TemplateServiceMetrics) : SM unit := λ s,
  match f (metrics s) with
  | Ok m => (Ok tt, {| metrics := m; log := log s |})
  | Err e => (Err e, s)
  | Panic => (Panic, s)
  | Hang => (Hang, s)
  end.

Definition writeln (line : string) : SM unit := λ s,
  match emit line (log s) with
  | Some e => (Err e, s)
  | None => (Ok tt, {| metrics := metrics s; log := log s ++ [line] |})
  end.

Definition write_summary : SM unit :=
  s ← get;
  let m := metrics s in
  ub ← lift (unique_bytes m);
  writeln ("metrics backend_bytes=" +:+ pretty (backend_bytes m) +:+ " page_size=" +:+ pretty (m_page_size m)
           +:+ " page_requests=" +:+ pretty (page_requests m) +:+ " request_errors=" +:+ pretty (request_errors m)
           +:+ " bytes_served=" +:+ pretty (bytes_served m) +:+ " unique_pages=" +:+ pretty (unique_pages m)
           +:+ " unique_bytes=" +:+ pretty ub +:+ " duplicate_requests=" +:+ pretty (duplicate_requests m)
           +:+ " connections=" +:+ pretty (connections m)).

Definition log_start : SM unit :=
  s ← get;
  let m := metrics s in
  _ ← writeln ("start template_dir=" +:+ template_dir m +:+ " socket=" +:+ socket m
               +:+ " backend_bytes=" +:+ pretty (backend_bytes m) +:+ " page_size=" +:+ pretty (m_page_size m));
  write_summary.

Definition record_connection : SM unit :=
  _ ← on_metrics count_connection;
  s ← get;
  _ ← writeln ("connection_open connections=" +:+ pretty (connections (metrics s)));
  write_summary.

Definition record_page_request (offset len : Z) : SM unit :=
  _ ← on_metrics (λ m, count_request m len);
  _ ← on_metrics (λ m, record_unique_pages m offset len);
  s ← get;
  _ ← writeln ("page_request offset=" +:+ pretty offset +:+ " offset_hex=" +:+ hex offset
               +:+ " len=" +:+ pretty len +:+ " page_requests=" +:+ pretty (page_requests (metrics s))
               +:+ " unique_pages=" +:+ pretty (unique_pages (metrics s)));
  write_summary.

Definition record_page_request_error (offset len : Z) : SM unit :=
  _ ← on_metrics count_error;
  s ← get;
  _ ← writeln ("page_request_error offset=" +:+ pretty offset +:+ " offset_hex=" +:+ hex offset
               +:+ " len=" +:+ pretty len +:+ " request_errors=" +:+ pretty (request_errors (metrics s)));
  write_summary.

(** ** A connection *)
Context `{K : Kernel} `{St : Stream}.

Record CWorld := { ckern : kst; csock : sst; cstate : TemplateServiceState }.
Local Notation CM := (M CWorld io_error).

Definition on_ckern {A} (m : M kst io_error A) : CM A := λ w,
  let '(r, k) := m (ckern w) in (r, {| ckern := k; csock := csock w; cstate := cstate w |}).
Definition on_csock {A} (m : M sst io_error A) : CM A := λ w,
  let '(r, s) := m (csock w) in (r, {| ckern := ckern w; csock := s; cstate := cstate w |}).
Definition on_cstate {A} (m : SM A) : CM A := λ w,
  let '(r, s) := m (cstate w) in (r, {| ckern := ckern w; csock := csock w; cstate := s |}).

Definition kind_of (e : io_error) : option io_kind :=
  match e with Custom k _ => Some k | Os _ => None end.

(** The errors that mean that the peer has gone. *)
Definition hung_up (e : io_error) : bool :=
  bool_decide (kind_of e = Some UnexpectedEof) || bool_decide (kind_of e = Some ConnectionReset)
  || bool_decide (kind_of e = Some BrokenPipe)
  || bool_decide (raw_os_error e = Some 104) || bool_decide (raw_os_error e = Some 32).

(** One turn of the loop of [serve_template_connection]; [Some] returns. *)
Definition serve_request (fuel : nat) (fd : Z) : CM (option unit) :=
  got ← try_ (F:=io_error) (on_csock (of_sum (s_read_exact 12)));
  match got with
  | inl e => if hung_up e then mret (Some tt) else fail e
  | inr request =>
      let offset := of_le_bytes (slice request 0 8) in
      let len := of_le_bytes (slice request 8 4) in
      result ← try_ (F:=io_error) (on_ckern (_ ← seek offset; read_exact fuel fd offset len));
      match result with
      | inr page =>
          _ ← on_csock (of_sum (s_write_all (le_bytes 4 0)));
          _ ← on_csock (of_sum (s_write_all (le_bytes 4 len)));
          _ ← on_csock (of_sum (s_write_all page));
          _ ← on_cstate (record_page_request offset len);
          mret None
      | inl err =>
          _ ← on_csock (of_sum (s_write_all (le_bytes 4 1)));
          _ ← on_csock (of_sum (s_write_all (le_bytes 4 0)));
          _ ← on_cstate (record_page_request_error offset len);
          fail err
      end
  end.

Fixpoint serve_template_connection (rounds fuel : nat) (fd : Z) : CM unit :=
  match rounds with
  | O => hang
  | S rounds' =>
      out ← serve_request fuel fd;
      match out with Some _ => mret tt | None => serve_template_connection rounds' fuel fd end
  end.

End state.

(** ** The wire *)

(** The service's end of a socket: what has arrived and what has been sent. *)
Record Queue := { inbox : list Z; outbox : list Z }.

Definition queue_stream : Stream := {|
  sst := Queue;
  s_write_all bs q := (inr tt, {| inbox := inbox q; outbox := outbox q ++ bs |});
  s_read_exact n q :=
    if n <=? zlen (inbox q)
    then (inr (take (Z.to_nat n) (inbox q)), {| inbox := drop (Z.to_nat n) (inbox q); outbox := outbox q |})
    else (inl (Custom UnexpectedEof "failed to fill whole buffer"), q) |}.

Section wire.
Context (emit : string → list string → option io_error) `{K : Kernel} (fd : Z).

(** The other process with its end, and whether its thread still serves. *)
Record Wire := { server : @CWorld K queue_stream; alive : bool }.

Definition q_of (s : Wire) : Queue := @csock K queue_stream (server s).

Definition with_q (s : Wire) (q : Queue) : Wire :=
  {| server := {| ckern := ckern (server s); csock := q : @sst queue_stream; cstate := cstate (server s) |};
     alive := alive s |}.

(** The service's thread runs once a whole request has arrived. *)
Definition serve_pending (s : Wire) : Wire :=
  if alive s && (12 <=? zlen (inbox (q_of s))) then
    let len := of_le_bytes (slice (inbox (q_of s)) 8 4) in
    let fuel := (Z.to_nat len + k_intr (ckern (server s)))%nat in
    match serve_request emit fuel fd (server s) with
    | (Ok None, w) => {| server := w; alive := true |}
    | (_, w) => {| server := w; alive := false |}
    end
  else s.

(** The client's end. *)
Definition wire_stream : Stream := {|
  sst := Wire;
  s_write_all bs s :=
    if alive s
    then (inr tt, serve_pending (with_q s {| inbox := inbox (q_of s) ++ bs; outbox := outbox (q_of s) |}))
    else (inl (Custom BrokenPipe "broken pipe"), s);
  s_read_exact n s :=
    if n <=? zlen (outbox (q_of s))
    then (inr (take (Z.to_nat n) (outbox (q_of s))),
          with_q s {| inbox := inbox (q_of s); outbox := drop (Z.to_nat n) (outbox (q_of s)) |})
    else (inl (Custom UnexpectedEof "failed to fill whole buffer"), s) |}.

(** Between requests nothing is in flight. *)
Definition idle (s : Wire) : Prop := inbox (q_of s) = [] ∧ outbox (q_of s) = [].

End wire.

(** ** Lemmas *)
Section wire_lemmas.
Context (emit : string → list string → option io_error) `{K : Kernel, !KernelOk K} (fd : Z).
#[local] Existing Instance queue_stream.

Lemma take_le_app n x (bs : list Z) : take n (le_bytes n x ++ bs) = le_bytes n x.
Proof. apply take_app_length'. pose proof (zlen_le_bytes n x). unfold zlen in *. lia. Qed.

Lemma drop_le_app n x (bs : list Z) : drop n (le_bytes n x ++ bs) = bs.
Proof. apply drop_app_length'. pose proof (zlen_le_bytes n x). unfold zlen in *. lia. Qed.

(** Decoding the two fields of a request, or of a response header. *)
Lemma decode_fields a b x y rest :
  0 ≤ x < 256 ^ Z.of_nat a → 0 ≤ y < 256 ^ Z.of_nat b →
  of_le_bytes (slice (le_bytes a x ++ le_bytes b y ++ rest) 0 (Z.of_nat a)) = x ∧
  of_le_bytes (slice (le_bytes a x ++ le_bytes b y ++ rest) (Z.of_nat a) (Z.of_nat b)) = y.
Proof.
  intros Hx Hy. unfold slice. rewrite !Nat2Z.id. change (Z.to_nat 0) with 0%nat. rewrite drop_0.
  rewrite take_le_app, drop_le_app, take_le_app. by rewrite !of_le_bytes_le_bytes.
Qed.

(** What a whole request makes the service send. *)
Definition answered (off n : Z) (can : Prop) (q : Queue) : Prop :=
  inbox q = [] ∧
  ((outbox q = le_bytes 4 0 ++ le_bytes 4 n ++ slice (k_file fd) off n ∧ off + n ≤ zlen (k_file fd)) ∨
   (outbox q = le_bytes 4 1 ++ le_bytes 4 0 ∧ ¬ can)).

Lemma on_cstate_sock {A} (m : M TemplateServiceState io_error A) (w : CWorld) :
  ∃ r w', on_cstate m w = (r, w') ∧ csock w' = csock w.
Proof. unfold on_cstate. destruct (m (cstate w)) as [r s]. by eexists _, _. Qed.

Lemma bind_sock {A B} (m : M CWorld io_error A) (f : A → M CWorld io_error B) w r w' :
  m w = (r, w') → (∀ a u, ∃ r2 u', f a u = (r2, u') ∧ csock u' = csock u) →
  ∃ r2 w2, (m ≫= f) w = (r2, w2) ∧ csock w2 = csock w'.
Proof.
  intros Hm Hf. unfold mbind, M_bind. rewrite Hm. destruct r as [a|e| |]; [|by eexists _, _..]. apply Hf.
Qed.

Definition cworld (k : kst) (q : Queue) (s : TemplateServiceState) : @CWorld K queue_stream :=
  @Build_CWorld K queue_stream k q s.

Lemma send_run bs k i o s :
  on_csock (of_sum (s_write_all bs)) (cworld k {| inbox := i; outbox := o |} s) =
    (Ok tt, cworld k {| inbox := i; outbox := o ++ bs |} s).
Proof. done. Qed.

(** The service can read the file at this place. *)
Definition readable (off n : Z) (k : kst) : Prop :=
  off < 2 ^ 63 ∧ ∃ page k', read_exact (Z.to_nat n + k_intr k) fd off n k = (Ok page, k').

Lemma read_file_run off n k q s :
  0 ≤ off → 0 < n →
  ∃ o k', try_ (F:=io_error)
      (on_ckern (_ ← seek off; read_exact (Z.to_nat n + k_intr k) fd off n)) (cworld k q s) =
    (Ok o, cworld k' q s) ∧
    ((o = inr (slice (k_file fd) off n) ∧ off + n ≤ zlen (k_file fd)) ∨ ((∃ e, o = inl e) ∧ ¬ readable off n k)).
Proof.
  intros Ho Hn. unfold try_, on_ckern, seek, mbind, M_bind. unfold readable.
  destruct (Z.ltb_spec off (2 ^ 63)); [|eexists (inl _), _; split; [done|]; right; split; [eauto|naive_solver lia]].
  destruct (read_exact_total (Z.to_nat n + k_intr k) fd n off k) as (r & k' & Hr & _ & _ & Hc);
    [done|lia|lia|]. cbn [cworld ckern]. rewrite Hr.
  destruct Hc as [[-> ?]|[e ->]]; eexists _, _; (split; [done|]); [eauto|].
  right. split; [eauto|]. naive_solver.
Qed.

Lemma serve_request_run off n k s :
  0 ≤ off < 2 ^ 64 → 0 < n < 2 ^ 32 →
  ∃ r w', serve_request emit (Z.to_nat n + k_intr k) fd
      (cworld k {| inbox := le_bytes 8 off ++ le_bytes 4 n; outbox := [] |} s) = (r, w') ∧
    answered off n (readable off n k) (csock w').
Proof.
  intros Ho Hn. unfold serve_request.
  rewrite (m_bind_run _ _ _ (inr (le_bytes 8 off ++ le_bytes 4 n)) (cworld k {| inbox := []; outbox := [] |} s))
    by done.
  rewrite <-(app_nil_r (le_bytes 4 n)).
  destruct (decode_fields 8 4 off n [] ltac:(lia) ltac:(lia)) as [D1 D2].
  change (Z.of_nat 8) with 8 in D1, D2. change (Z.of_nat 4) with 4 in D2. cbv zeta. rewrite D1, D2.
  destruct (read_file_run off n k {| inbox := []; outbox := [] |} s) as (o & k' & Hrd & Ho'); [lia|lia|].
  rewrite (m_bind_run _ _ _ _ _ Hrd). destruct Ho' as [[-> Hle]|[[e ->] Hno]].
  - do 3 rewrite (m_bind_run _ _ _ _ _ (send_run _ _ _ _ _)).
    destruct (on_cstate_sock (record_page_request emit off n)
      (cworld k' {| inbox := []; outbox := (([] ++ le_bytes 4 0) ++ le_bytes 4 n) ++ slice (k_file fd) off n |} s))
      as (r & w' & Hrec & Hs).
    destruct (bind_sock _ (λ _, mret (None : option unit)) _ _ _ Hrec) as (r2 & w2 & -> & Hs2);
      [intros a u; by eexists _, _|].
    eexists _, _. split; [done|]. rewrite Hs2, Hs. split; [done|]. left.
    cbn [csock cworld outbox]. by rewrite app_nil_l, <-app_assoc.
  - do 2 rewrite (m_bind_run _ _ _ _ _ (send_run _ _ _ _ _)).
    destruct (on_cstate_sock (record_page_request_error emit off n)
      (cworld k' {| inbox := []; outbox := ([] ++ le_bytes 4 1) ++ le_bytes 4 0 |} s))
      as (r & w' & Hrec & Hs).
    destruct (bind_sock _ (λ _, fail (A:=option unit) e) _ _ _ Hrec) as (r2 & w2 & -> & Hs2);
      [intros a u; by eexists _, _|].
    eexists _, _. split; [done|]. rewrite Hs2, Hs. split; [done|]. right. done.
Qed.

(** ** A read over the wire *)

Definition wire (k : kst) (i o : list Z) (s : TemplateServiceState) (a : bool) : Wire :=
  {| server := cworld k {| inbox := i; outbox := o |} s; alive := a |}.

Lemma wire_eta (s : Wire) :
  s = wire (ckern (server s)) (inbox (q_of s)) (outbox (q_of s)) (cstate (server s)) (alive s).
Proof. by destruct s as [[k [] st] a]. Qed.

Lemma wire_write_dead bs (s : Wire) :
  alive s = false →
  of_sum (@s_write_all (wire_stream emit fd) bs) s = (Err (Custom BrokenPipe "broken pipe"), s).
Proof. intros H. unfold of_sum. simpl. by rewrite H. Qed.

Lemma wire_write_more bs k i o s :
  zlen (i ++ bs) < 12 →
  of_sum (@s_write_all (wire_stream emit fd) bs) (wire k i o s true) = (Ok tt, wire k (i ++ bs) o s true).
Proof.
  intros H. unfold of_sum. cbn [s_write_all wire_stream wire alive].
  unfold serve_pending. cbn [with_q wire alive andb q_of server csock cworld inbox].
  destruct (Z.leb_spec 12 (zlen (i ++ bs))); [lia|done].
Qed.

(** The last bytes of a request make the service answer it. *)
Lemma wire_write_last off n k s :
  0 ≤ off < 2 ^ 64 → 0 < n < 2 ^ 32 →
  ∃ s', of_sum (@s_write_all (wire_stream emit fd) (le_bytes 4 n)) (wire k (le_bytes 8 off) [] s true) =
      (Ok tt, s') ∧ answered off n (readable off n k) (q_of s').
Proof.
  intros Ho Hn. unfold of_sum. cbn [s_write_all wire_stream wire alive].
  unfold serve_pending. cbn [with_q wire alive andb q_of server csock cworld inbox outbox ckern cstate].
  assert (zlen (le_bytes 8 off ++ le_bytes 4 n) = 12) as Hl by (rewrite zlen_app, !zlen_le_bytes; done).
  destruct (Z.leb_spec 12 (zlen (le_bytes 8 off ++ le_bytes 4 n))); [|lia].
  assert (of_le_bytes (slice (le_bytes 8 off ++ le_bytes 4 n) 8 4) = n) as Hd.
  { rewrite <-(app_nil_r (le_bytes 4 n)). by destruct (decode_fields 8 4 off n [] ltac:(lia) ltac:(lia)). }
  cbv zeta. rewrite Hd.
  destruct (serve_request_run off n k s Ho Hn) as (r & w' & Hr & Ha).
  unfold cworld in Hr at 1. rewrite Hr. by destruct r as [[|]| | |]; eexists; (split; [done|]).
Qed.

Lemma wire_recv n k i a b s al :
  zlen a = n →
  of_sum (@s_read_exact (wire_stream emit fd) n) (wire k i (a ++ b) s al) = (Ok a, wire k i b s al).
Proof.
  intros <-. unfold of_sum. cbn [s_read_exact wire_stream wire q_of server csock cworld outbox].
  rewrite zlen_app. pose proof (zlen_nonneg b).
  destruct (Z.leb_spec (zlen a) (zlen a + zlen b)); [|lia].
  unfold zlen. rewrite Nat2Z.id, take_app_length, drop_app_length. done.
Qed.

Lemma header_len x y : zlen (le_bytes 4 x ++ le_bytes 4 y) = 8.
Proof. by rewrite zlen_app, !zlen_le_bytes. Qed.

Lemma client_over_wire off n (s : Wire) :
  idle s → 0 ≤ off < 2 ^ 64 → 0 < n < 2 ^ 32 →
  ∃ r s', @client_read_page (wire_stream emit fd) off n s = (r, s') ∧
    ((r = Ok (slice (k_file fd) off n) ∧ off + n ≤ zlen (k_file fd) ∧ idle s') ∨
     ((∃ e, r = Err e) ∧ ¬ (alive s = true ∧ readable off n (ckern (server s))))).
Proof.
  intros [Hi Ho] Hoff Hn. rewrite (wire_eta s), Hi, Ho. unfold client_read_page.
  set (k := ckern (server s)). set (st := cstate (server s)).
  rewrite (m_bind_run _ _ (wire k [] [] st (alive s)) n (wire k [] [] st (alive s)))
    by (unfold lift, U32_MAX; by destruct (Z.leb_spec n (2 ^ 32 - 1)); [|lia]).
  destruct (alive s).
  2: { rewrite (m_bind_err _ _ _ _ _ (wire_write_dead _ (wire k [] [] st false) eq_refl)). eexists _, _. split; [done|].
       right. split; [eauto|naive_solver]. }
  rewrite (m_bind_run _ _ _ _ _ (wire_write_more (le_bytes 8 off) k [] [] st ltac:(rewrite app_nil_l, zlen_le_bytes; lia))).
  rewrite app_nil_l. destruct (wire_write_last off n k st Hoff Hn) as (s' & Hw & Hin & Hout).
  rewrite (m_bind_run _ _ _ _ _ Hw). rewrite (wire_eta s'), Hin. destruct Hout as [[Hout Hle]|[Hout Hno]]; rewrite Hout.
  - rewrite app_assoc. rewrite (m_bind_run _ _ _ _ _ (wire_recv 8 _ _ (le_bytes 4 0 ++ le_bytes 4 n) _ _ _ (header_len _ _))).
    cbv zeta. rewrite <-(app_nil_r (le_bytes 4 n)).
    destruct (decode_fields 4 4 0 n [] ltac:(lia) ltac:(lia)) as [D1 D2].
    change (Z.of_nat 4) with 4 in D1, D2. rewrite D1, D2, !Z.eqb_refl. cbn [negb].
    rewrite <-(app_nil_r (slice _ _ _)), wire_recv by (rewrite zlen_slice; lia).
    eexists _, _. split; [done|]. left. by rewrite app_nil_r.
  - rewrite <-(app_nil_r (_ ++ _)).
    rewrite (m_bind_run _ _ _ _ _ (wire_recv 8 _ _ (le_bytes 4 1 ++ le_bytes 4 0) _ _ _ (header_len _ _))).
    eexists _, _. split; [done|]. right. split; [eauto|naive_solver].
Qed.

(** The service behind a connection is a source of the template file's bytes. *)
Global Instance wire_source : @SourceOk K (wire_stream emit fd) Service (k_file fd) idle.
Proof.
  split. intros fuel off n k s Hg Ho Hn Hn32 Hb _.
  destruct (client_over_wire off n s Hg ltac:(lia) ltac:(lia)) as (r & s' & Hr & Hc).
  unfold source_read. rewrite Hr. eexists _, _, _. split; [done|]. split; [done|]. split; [done|].
  destruct Hc as [(-> & ? & ?)|[[e ->] _]]; eauto.
Qed.

End wire_lemmas.

(** ** Metrics *)

(** The pages a request touches. *)
Definition touches (ps off len p : Z) : Prop :=
  0 < len ∧ off / ps ≤ p ≤ (off + len - 1) / ps.

Definition total_len (reqs : list (Z * Z)) : Z := foldr (λ r n, r.2 + n) 0 reqs.

(** Metrics that account exactly for the requests [reqs]. *)
Record accounts (ps : Z) (reqs : list (Z * Z)) (m : TemplateServiceMetrics) : Prop := {
  a_size : m_page_size m = ps;
  a_requests : page_requests m = zlen reqs;
  a_bytes : bytes_served m = total_len reqs;
  a_pages : ∀ p, p ∈ unique_pages_seen m ↔ ∃ r, r ∈ reqs ∧ touches ps r.1 r.2 p }.

(** A request that was served from a file of [size] bytes. *)
Definition served_from (size : Z) (r : Z * Z) : Prop := 0 ≤ r.1 ∧ 0 ≤ r.2 ∧ r.1 + r.2 ≤ size.

Lemma size_list_to_set_le (l : list Z) : (size (list_to_set l : gset Z) ≤ length l)%nat.
Proof.
  induction l as [|x l IH]; [done|]. rewrite list_to_set_cons. simpl.
  rewrite size_union_alt, size_singleton.
  assert (size (list_to_set l ∖ {[x]} : gset Z) ≤ size (list_to_set l : gset Z))%nat
    by (apply subseteq_size; set_solver). lia.
Qed.

Lemma insert_all_spec (l : list Z) : ∀ (s : gset Z) p,
  p ∈ foldl (λ s page, {[ page ]} ∪ s) s l ↔ p ∈ s ∨ p ∈ l.
Proof.
  induction l as [|x l IH]; intros s p; simpl; [set_solver|]. rewrite IH. set_solver.
Qed.

Lemma record_unique_pages_ok {E} m size off len :
  0 < m_page_size m → size < 2 ^ 64 → served_from size (off, len) →
  ∃ s, @record_unique_pages E m off len = Ok (with_seen m s) ∧
    ∀ p, p ∈ s ↔ p ∈ unique_pages_seen m ∨ touches (m_page_size m) off len p.
Proof.
  intros Hps Hsz (Ho & Hl & Hle). simpl in *. unfold record_unique_pages.
  destruct (Z.eqb_spec len 0) as [->|Hl0]; simpl.
  { exists (unique_pages_seen m). split; [by destruct m|]. intros p. unfold touches.
    split; [by left|intros [?|[? _]]; [done|lia]]. }
  destruct (Z.eqb_spec (m_page_size m) 0); [lia|].
  rewrite udiv_ok by done. simpl. rewrite uadd_ok by (unfold is_u64; lia). simpl.
  rewrite usub_ok by (unfold is_u64; lia). simpl. rewrite udiv_ok by done. simpl.
  eexists. split; [done|]. intros p. rewrite insert_all_spec. unfold zrange, touches.
  rewrite elem_of_seqZ. split; (intros [?|?]; [by left|right; lia]).
Qed.

Lemma accounts_new ps bytes dir sock : accounts ps [] (metrics_new bytes ps dir sock).
Proof.
  split; [done..|]. intros p. split; [intros Hp; by apply not_elem_of_empty in Hp|].
  intros (r & Hr & _). by apply elem_of_nil in Hr.
Qed.

Section metrics.
Context (emit : string → list string → option io_error) (emit_ok : ∀ line log, emit line log = None).

Lemma on_metrics_run f s m :
  f (metrics s) = Ok m → on_metrics f s = (Ok tt, {| metrics := m; log := log s |}).
Proof. intros H. unfold on_metrics. by rewrite H. Qed.

Lemma writeln_run line s :
  writeln emit line s = (Ok tt, {| metrics := metrics s; log := log s ++ [line] |}).
Proof. unfold writeln. by rewrite emit_ok. Qed.

Lemma write_summary_run s :
  is_u64 (unique_pages (metrics s) * m_page_size (metrics s)) →
  ∃ line, write_summary emit s = (Ok tt, {| metrics := metrics s; log := log s ++ [line] |}).
Proof.
  intros H. unfold write_summary. rewrite (m_bind_run _ _ s s s) by done.
  cbv zeta. rewrite (m_bind_run _ _ s (unique_pages (metrics s) * m_page_size (metrics s)) s)
    by (unfold lift, unique_bytes; by rewrite umul_ok).
  eexists. apply writeln_run.
Qed.

(** Distinct pages below [size] bytes fit the arithmetic of the summary. *)
Lemma accounts_bytes ps size reqs m :
  0 < ps → 0 ≤ size → Forall (served_from size) reqs → accounts ps reqs m →
  unique_pages m * ps ≤ size + ps.
Proof.
  intros Hps Hsz Hall A. unfold unique_pages.
  assert (unique_pages_seen m ⊆ list_to_set (seqZ 0 (size / ps + 1))) as Hsub.
  { intros p Hp. apply (a_pages _ _ _ A) in Hp as ([off len] & Hr & Hlen & Hlo & Hhi). simpl in *.
    rewrite Forall_forall in Hall. destruct (Hall _ Hr) as (Ho & _ & Hle). simpl in *.
    apply elem_of_list_to_set, elem_of_seqZ.
    assert (0 ≤ off / ps) by (apply Z.div_pos; lia).
    assert ((off + len - 1) / ps ≤ size / ps) by (apply Z.div_le_mono; lia). lia. }
  apply subseteq_size in Hsub. rewrite size_list_to_set in Hsub by apply NoDup_seqZ.
  rewrite length_seqZ in Hsub. assert (0 ≤ size / ps) by (apply Z.div_pos; lia).
  pose proof (Z.mul_div_le size ps Hps). nia.
Qed.

Lemma record_page_request_run ps size reqs off len s :
  0 < ps → 0 ≤ size → size + ps < 2 ^ 64 → Forall (served_from size) reqs → served_from size (off, len) →
  accounts ps reqs (metrics s) → total_len ((off, len) :: reqs) < 2 ^ 64 → zlen reqs + 1 < 2 ^ 64 →
  ∃ s', record_page_request emit off len s = (Ok tt, s') ∧ accounts ps ((off, len) :: reqs) (metrics s').
Proof.
  intros Hps Hsz Hsz64 Hall Hsv A Htot Hcnt. pose proof (zlen_nonneg reqs). simpl in Htot.
  assert (0 ≤ total_len reqs) as Ht0.
  { clear -Hall. induction Hall as [|r l (?&?&?) _ IH]; simpl; lia. }
  assert (0 ≤ len) by (by destruct Hsv as (_ & ? & _)).
  set (m1 := {| backend_bytes := backend_bytes (metrics s); m_page_size := m_page_size (metrics s);
    template_dir := template_dir (metrics s); socket := socket (metrics s);
    page_requests := zlen reqs + 1; request_errors := request_errors (metrics s);
    bytes_served := total_len reqs + len; connections := connections (metrics s);
    unique_pages_seen := unique_pages_seen (metrics s) |}).
  assert (count_request (E:=io_error) (metrics s) len = Ok m1) as Hc.
  { unfold count_request. rewrite (a_requests _ _ _ A), (a_bytes _ _ _ A).
    by rewrite !uadd_ok by (unfold is_u64; lia). }
  destruct (record_unique_pages_ok (E:=io_error) m1 size off len) as (seen & Hr & Hseen);
    [cbn; by rewrite (a_size _ _ _ A)|lia|done|].
  unfold record_page_request. rewrite (m_bind_run _ _ _ _ _ (on_metrics_run _ s m1 Hc)).
  rewrite (m_bind_run _ _ _ _ _ (on_metrics_run _ (Build_TemplateServiceState m1 (log s)) _ Hr)).
  set (s2 := Build_TemplateServiceState _ _).
  assert (accounts ps ((off, len) :: reqs) (metrics s2)) as A2.
  { split; cbn.
    - apply A.
    - rewrite zlen_cons. lia.
    - change (total_len reqs + len = len + total_len reqs). lia.
    - intros p. rewrite Hseen. cbn. rewrite (a_pages _ _ _ A), (a_size _ _ _ A). set_solver. }
  rewrite (m_bind_run _ _ s2 s2 s2) by done.
  rewrite (m_bind_run _ _ _ _ _ (writeln_run _ s2)).
  pose proof (accounts_bytes ps size _ _ Hps Hsz (Forall_cons_2 _ _ _ Hsv Hall) A2) as Hb.
  match goal with |- context [write_summary emit ?s3] => destruct (write_summary_run s3) as (line & Hw) end.
  2: { eexists. split; [exact Hw|done]. }
  cbn [metrics]. rewrite (a_size _ _ _ A2). unfold is_u64. unfold unique_pages in *. nia.
Qed.

Lemma record_all ps size reqs : ∀ done s,
  0 < ps → 0 ≤ size → size + ps < 2 ^ 64 → Forall (served_from size) (reverse reqs ++ done) →
  accounts ps done (metrics s) → total_len (reverse reqs ++ done) < 2 ^ 64 →
  zlen (reverse reqs ++ done) < 2 ^ 64 →
  ∃ s', for_ reqs (λ r, record_page_request emit r.1 r.2) s = (Ok tt, s') ∧
    accounts ps (reverse reqs ++ done) (metrics s').
Proof.
  induction reqs as [|[off len] reqs IH]; intros done s Hps Hsz Hsz64 Hall A Htot Hcnt; [by exists s|].
  rewrite reverse_cons, <-app_assoc in *. simpl in Hall, Htot, Hcnt |- *.
  assert (∀ l, Forall (served_from size) l → ∀ l', total_len l' ≤ total_len (l ++ l')) as Hmono.
  { clear. intros l Hl l'. induction Hl as [|r l (?&?&?) _ IHl]; simpl; lia. }
  pose proof Hall as Hall'. apply Forall_app in Hall' as [Hrev Htail].
  apply Forall_cons in Htail as [Hsv Hdone]. specialize (Hmono _ Hrev ((off, len) :: done)).
  rewrite zlen_app, zlen_cons in Hcnt. pose proof (zlen_nonneg (reverse reqs)).
  destruct (record_page_request_run ps size done off len s) as (s1 & Hr & A1); [done..|lia|lia|].
  rewrite (m_bind_run _ _ _ _ _ Hr). apply IH; try done. rewrite zlen_app, zlen_cons. lia.
Qed.

End metrics.

(** ** Properties *)

(** A page read over a connection gives the template's bytes.  When nothing is in
    flight, [TemplateServiceClient::read_page] returns; it gives exactly the bytes of
    the template file at the requested place, with nothing left in flight, or an
    error; and it does give them whenever the service's thread is alive and its
    own read of the file succeeds. *)
Theorem service_read_page_spec `{K : Kernel, !KernelOk K} emit fd off n (s : Wire) :
  idle s → 0 ≤ off < 2 ^ 64 → 0 < n < 2 ^ 32 →
  ∃ r s', @client_read_page (wire_stream emit fd) off n s = (r, s') ∧
    ((r = Ok (slice (k_file fd) off n) ∧ off + n ≤ zlen (k_file fd) ∧ idle s') ∨
     ((∃ e, r = Err e) ∧ ¬ (alive s = true ∧ readable fd off n (ckern (server s))))).
Proof. intros Hs Ho Hn. by apply client_over_wire. Qed.

Definition demo_files (fd : Z) : list Z := zrange 10 22.
Definition demo_kernel : Kernel := Sim.kernel demo_files 3.
#[local] Instance demo_kernel_ok : KernelOk demo_kernel := Sim.kernel_ok demo_files 3.

Definition quiet (line : string) (log : list string) : option io_error := None.

Definition demo_wire : @Wire demo_kernel :=
  @wire demo_kernel
    {| Sim.view := {| as_mem _ := None; as_wp _ := false; as_private _ := false; as_mapped _ := false |};
       Sim.plan := [Some EINTR]; Sim.next_free := 0; Sim.events := [] |} [] []
    {| metrics := metrics_new 12 4 "template" "sock"; log := [] |} true.

Lemma service_read_page_spec_witness :
  ∃ s', @client_read_page (wire_stream quiet 3) 4 4 demo_wire = (Ok [14; 15; 16; 17], s') ∧
    alive s' = true ∧ page_requests (metrics (cstate (server s'))) = 1.
Proof.
  destruct (@service_read_page_spec demo_kernel demo_kernel_ok quiet 3 4 4 demo_wire) as (r & s' & H & _);
    [done|lia|lia|].
  eval_result H. exists s'. split; [exact H|]. split; [eval_state H|eval_state H].
Defined.

(** The metrics account exactly for the requests served.  Recording any sequence
    of requests served from a file, with a working log, succeeds, and leaves the
    number of requests, the bytes served and the set of distinct pages touched; for
    requests of one aligned page each, the summary's unique and duplicate counts are
    the number of distinct pages and the number of repetitions. *)
Theorem metrics_spec emit ps bytes dir sock reqs log0 :
  (∀ line log, emit line log = None) → 0 < ps → 0 ≤ bytes → bytes + ps < 2 ^ 64 →
  Forall (served_from bytes) (reverse reqs) → total_len (reverse reqs) < 2 ^ 64 → zlen (reverse reqs) < 2 ^ 64 →
  ∃ s', for_ reqs (λ r, record_page_request emit r.1 r.2)
      {| metrics := metrics_new bytes ps dir sock; log := log0 |} = (Ok tt, s') ∧
    accounts ps (reverse reqs) (metrics s') ∧
    (Forall (λ r, r.2 = ps ∧ (ps | r.1)) reqs →
       let pages : gset Z := list_to_set ((λ r, r.1 / ps) <$> reqs) in
       unique_pages_seen (metrics s') = pages ∧
       duplicate_requests (metrics s') = zlen reqs - Z.of_nat (size pages)).
Proof.
  intros He Hps Hsz Hsz64 Hall Htot Hcnt.
  destruct (record_all emit He ps bytes reqs [] {| metrics := metrics_new bytes ps dir sock; log := log0 |})
    as (s' & Hr & A); rewrite ?app_nil_r; try done.
  { apply accounts_new. }
  rewrite app_nil_r in A. exists s'. split; [done|]. split; [done|]. intros Hone pages.
  assert (unique_pages_seen (metrics s') = pages) as Hp.
  { apply set_eq. intros p. rewrite (a_pages _ _ _ A). unfold pages.
    rewrite elem_of_list_to_set, list_elem_of_fmap. rewrite Forall_forall in Hone. split.
    - intros (r & Hin & _ & Hlo & Hhi). rewrite elem_of_reverse in Hin. exists r. split; [|done].
      destruct (Hone r Hin) as [Hlen [q Hq]]. rewrite Hlen, Hq in Hhi. rewrite Hq in Hlo |- *.
      replace (q * ps + ps - 1) with (q * ps + (ps - 1)) in Hhi by lia.
      rewrite Z.div_add_l, (Z.div_small (ps - 1)) in Hhi by lia. rewrite Z.div_mul in * by lia. lia.
    - intros (r & -> & Hin). exists r. rewrite elem_of_reverse. split; [done|].
      destruct (Hone r Hin) as [Hlen _]. unfold touches. rewrite Hlen. split; [lia|]. split; [lia|].
      apply Z.div_le_mono; lia. }
  split; [done|]. unfold duplicate_requests, saturating_sub, unique_pages. rewrite Hp, (a_requests _ _ _ A).
  assert (zlen (reverse reqs) = zlen reqs) as -> by (unfold zlen; by rewrite length_reverse).
  assert (Z.of_nat (size pages) ≤ zlen reqs); [|lia].
  unfold pages, zlen. pose proof (size_list_to_set_le ((λ r, r.1 / ps) <$> reqs)) as Hle.
  rewrite length_fmap in Hle. lia.
Qed.

Lemma metrics_spec_witness :
  ∃ s', for_ [(4, 4); (0, 4); (4, 4)] (λ r, record_page_request quiet r.1 r.2)
      {| metrics := metrics_new 12 4 "template" "sock"; log := [] |} = (Ok tt, s') ∧
    duplicate_requests (metrics s') = 1.
Proof.
  destruct (metrics_spec quiet 4 12 "template" "sock" [(4, 4); (0, 4); (4, 4)] [])
    as (s' & H & _ & Hd); [done|lia|lia|lia|repeat constructor; simpl; lia|done|done|].
  exists s'. split; [exact H|]. destruct Hd as [_ ->]; [|vm_compute; reflexivity].
  apply Forall_cons. split; [split; [done|by exists 1]|].
  apply Forall_cons. split; [split; [done|by exists 0]|].
  apply Forall_cons. split; [split; [done|by exists 1]|]. by apply Forall_nil.
Defined.

(** For requests longer than a page the reported duplicates are too few: a
    request for two pages that is repeated counts as no duplicate at all, because
    requests are subtracted by pages. *)
Theorem duplicate_requests_undercounts ps off m :
  0 < ps → (ps | off) → accounts ps [(off, 2 * ps); (off, 2 * ps)] m →
  page_requests m = 2 ∧ duplicate_requests m = 0.
Proof.
  intros Hps [q ->] A. split; [apply A|]. unfold duplicate_requests, saturating_sub, unique_pages.
  rewrite (a_requests _ _ _ A). assert ({[ q; q + 1 ]} ⊆ unique_pages_seen m) as Hsub.
  { intros p Hp. apply (a_pages _ _ _ A). exists (q * ps, 2 * ps). split; [left|]. simpl.
    replace (q * ps + 2 * ps - 1) with ((q + 1) * ps + (ps - 1)) by lia. unfold touches. simpl.
    rewrite Z.div_mul by lia.
    replace (q * ps + 2 * ps - 1) with ((q + 1) * ps + (ps - 1)) by lia.
    rewrite Z.div_add_l, (Z.div_small (ps - 1)) by lia.
    apply elem_of_union in Hp as [->%elem_of_singleton | ->%elem_of_singleton]; lia. }
  apply subseteq_size in Hsub. rewrite size_union, !size_singleton in Hsub
    by (apply disjoint_singleton_l; rewrite elem_of_singleton; lia).
  unfold zlen. simpl. lia.
Qed.

Lemma duplicate_requests_undercounts_witness :
  ∃ s', for_ [(0, 8); (0, 8)] (λ r, record_page_request quiet r.1 r.2)
      {| metrics := metrics_new 12 4 "template" "sock"; log := [] |} = (Ok tt, s') ∧
    page_requests (metrics s') = 2 ∧ duplicate_requests (metrics s') = 0.
Proof.
  destruct (record_all quiet ltac:(done) 4 12 [(0, 8); (0, 8)] []
    {| metrics := metrics_new 12 4 "template" "sock"; log := [] |}) as (s' & H & A);
    [lia|lia|lia|repeat constructor; simpl; lia|apply accounts_new|done|done|].
  exists s'. split; [exact H|].
  exact (duplicate_requests_undercounts 4 0 (metrics s') ltac:(lia) ltac:(by exists 0) A).
Defined.

End ServiceWire.
