(* ===== verification/MemoryRanges.v ===== *)
(** * Dirty memory ranges of a migration

    Model of [cloud-hypervisor/vm-migration/src/bitpos_iterator.rs] (the bit
    positions of a dirty bitmap) and of [MemoryRangeTable] in
    [vm-migration/src/protocol.rs]: its construction from a bitmap, its partition
    into chunks and its sizes.  [Itertools::coalesce] is a parameter, with its
    documented behaviour as laws. *)

From S2P Require Import Prelude Bitmap.

Module MemoryRanges.

(** ** Bit positions *)

(** [u64::trailing_zeros] *)
Fixpoint trailing_zeros_from (n : nat) (w : Z) : Z :=
  match n with
  | O => 0
  | S n' => if Z.testbit w 0 then 0 else 1 + trailing_zeros_from n' (Z.shiftr w 1)
  end.
Definition trailing_zeros (w : Z) : Z := trailing_zeros_from 64 w.

Record BitposIterator := {
  underlying_it : list Z;
  word_pos : Z;
  current_word : option (Z * Z) }.

(** The word to work on, taken from the underlying iterator when there is none. *)
Definition fetch (it : BitposIterator) : BitposIterator :=
  match current_word it, underlying_it it with
  | None, w :: ws => {| underlying_it := ws; word_pos := word_pos it; current_word := Some (w, 0) |}
  | _, _ => it
  end.

(** The next set bit of the current word, if it has one. *)
Definition take_bit {E} (it : BitposIterator) (word word_bit : Z) : option (res E (Z * BitposIterator)) :=
  if negb (word =? 0) && (word_bit <? 64) then
    let shifted_word := Z.shiftr word word_bit in
    if negb (shifted_word =? 0) then
      let zeroes := trailing_zeros shifted_word in
      Some (base ← umul (word_pos it) 64;
            next_bitpos ← unwrap (checked_add base (word_bit + zeroes));
            Ok (next_bitpos,
                {| underlying_it := underlying_it it; word_pos := word_pos it;
                   current_word := Some (word, zeroes + word_bit + 1) |}))
    else None
  else None.

(** [Iterator::next], a turn of its loop per unit of fuel. *)
Fixpoint next {E} (fuel : nat) (it : BitposIterator) : res E (option Z * BitposIterator) :=
  match fuel with
  | O => Hang
  | S fuel' =>
      let it1 := fetch it in
      match current_word it1 with
      | None => Ok (None, it1)
      | Some (word, word_bit) =>
          match take_bit it1 word word_bit with
          | Some r => '(b, it2) ← r; Ok (Some b, it2)
          | None =>
              p ← (if word_pos it1 + 1 <=? U32_MAX then Ok (word_pos it1 + 1) else Panic);
              next fuel' {| underlying_it := underlying_it it1; word_pos := p; current_word := None |}
          end
      end
  end.

Fixpoint collect {E} (n fuel : nat) (it : BitposIterator) : res E (list Z) :=
  match n with
  | O => Hang
  | S n' =>
      '(o, it') ← next fuel it;
      match o with
      | None => Ok []
      | Some b => l ← collect n' fuel it'; Ok (b :: l)
      end
  end.

(** [it.bit_positions().collect()]: a bitmap of [n] words has at most [64 n] set
    bits, and one call of [next] visits at most all words. *)
Definition bit_positions {E} (words : list Z) : res E (list Z) :=
  collect (S (64 * length words)) (S (S (length words)))
    {| underlying_it := words; word_pos := 0; current_word := None |}.

(** ** Ranges *)
Record MemoryRange := { gpa : Z; length_ : Z }.
Definition MemoryRangeTable := list MemoryRange.

(** [Itertools::coalesce]: the closure merges two consecutive elements or gives
    them back. *)
Class Itertools := {
  coalesce {A} : (A → A → A + A * A) → list A → list A;
  coalesce_nil {A} (f : A → A → A + A * A) : coalesce f [] = [];
  coalesce_one {A} (f : A → A → A + A * A) x : coalesce f [x] = [x];
  coalesce_two {A} (f : A → A → A + A * A) x y l :
    coalesce f (x :: y :: l) =
      match f x y with
      | inl z => coalesce f (z :: l)
      | inr (p, c) => p :: coalesce f (c :: l)
      end }.

Definition merge_adjacent (prev curr : Z * Z) : Z * Z + (Z * Z) * (Z * Z) :=
  if prev.2 =? curr.1 then inl (prev.1, curr.2) else inr (prev, curr).

Definition to_range {E} (start_addr page_size : Z) (r : Z * Z) : res E MemoryRange :=
  d ← umul r.1 page_size;
  g ← uadd start_addr d;
  n ← usub r.2 r.1;
  l ← umul n page_size;
  Ok {| gpa := g; length_ := l |}.

Fixpoint mapM_res {E A B} (f : A → res E B) (l : list A) : res E (list B) :=
  match l with
  | [] => Ok []
  | x :: l' => y ← f x; ys ← mapM_res f l'; Ok (y :: ys)
  end.

Definition from_dirty_bitmap {E} `{Itertools} (bitmap : list Z) (start_addr page_size : Z)
    : res E MemoryRangeTable :=
  positions ← bit_positions bitmap;
  singles ← mapM_res (λ b, e ← uadd b 1; Ok (b, e)) positions;
  mapM_res (to_range start_addr page_size) (coalesce merge_adjacent singles).

Definition effective_size {E} (t : MemoryRangeTable) : res E Z :=
  foldM (λ n r, uadd n (length_ r)) 0 t.

Definition table_length (t : MemoryRangeTable) : Z := 16 * zlen t.

(** [Vec::pop]: the table is kept in its order, the last element is popped. *)
Definition pop (t : MemoryRangeTable) : option (MemoryRange * MemoryRangeTable) :=
  match reverse t with
  | [] => None
  | r :: t' => Some (r, reverse t')
  end.

(** The part of the popped range that goes into the chunk, and the ranges left. *)
Definition take_range {E} (chunk_size ranges_size : Z) (range : MemoryRange) (rest : MemoryRangeTable)
    : res E (MemoryRange * MemoryRangeTable) :=
  s ← uadd ranges_size (length_ range);
  if chunk_size <? s then
    leftover_bytes ← usub s chunk_size;
    _ ← assert (leftover_bytes <=? length_ range);
    returned_bytes ← usub (length_ range) leftover_bytes;
    _ ← assert (returned_bytes <=? length_ range);
    sum ← uadd leftover_bytes returned_bytes;
    _ ← assert (sum =? length_ range);
    g ← uadd (gpa range) leftover_bytes;
    Ok ({| gpa := g; length_ := returned_bytes |},
        rest ++ [{| gpa := gpa range; length_ := leftover_bytes |}])
  else Ok (range, rest).

(** The loop of [MemoryRangeTableIterator::next]. *)
Fixpoint fill_chunk {E} (fuel : nat) (chunk_size : Z) (data ranges : MemoryRangeTable) (ranges_size : Z)
    : res E (MemoryRangeTable * MemoryRangeTable) :=
  match fuel with
  | O => Hang
  | S fuel' =>
      _ ← assert (ranges_size <=? chunk_size);
      if (ranges_size =? chunk_size) || bool_decide (data = []) then Ok (ranges, data)
      else
        match pop data with
        | None => fill_chunk fuel' chunk_size data ranges ranges_size
        | Some (range, rest) =>
            '(next_range, data') ← take_range chunk_size ranges_size range rest;
            size' ← uadd ranges_size (length_ next_range);
            fill_chunk fuel' chunk_size data' (ranges ++ [next_range]) size'
        end
  end.

(** [next] of the partition: the chunk and the ranges left. *)
Definition next_chunk {E} (chunk_size : Z) (data : MemoryRangeTable)
    : res E (option MemoryRangeTable * MemoryRangeTable) :=
  '(ranges, data') ← fill_chunk (S (S (length data))) chunk_size data [] 0;
  Ok (if bool_decide (ranges = []) then None else Some ranges, data').

(** [table.partition(chunk_size).collect()] *)
Fixpoint partition {E} (fuel : nat) (chunk_size : Z) (data : MemoryRangeTable)
    : res E (list MemoryRangeTable) :=
  match fuel with
  | O => Hang
  | S fuel' =>
      '(o, data') ← next_chunk chunk_size data;
      match o with
      | None => Ok []
      | Some c => cs ← partition fuel' chunk_size data'; Ok (c :: cs)
      end
  end.

Definition extend (t table : MemoryRangeTable) : MemoryRangeTable := t ++ table.
Definition new_from_tables (tables : list MemoryRangeTable) : MemoryRangeTable :=
  foldl (λ data table, data ++ table) [] tables.

(** ** Specification *)

(** How often an address is covered by a table. *)
Definition covers (r : MemoryRange) (a : Z) : bool := (gpa r <=? a) && (a <? gpa r + length_ r).
Definition coverage (t : MemoryRangeTable) (a : Z) : Z :=
  foldr (λ r n, (if covers r a then 1 else 0) + n) 0 t.

Definition size_of (t : MemoryRangeTable) : Z := foldr (λ r n, length_ r + n) 0 t.

(** Ranges whose arithmetic stays in [u64]. *)
Definition fits (bound : Z) (r : MemoryRange) : Prop :=
  0 ≤ gpa r ∧ 0 ≤ length_ r ≤ bound ∧ gpa r + length_ r < 2 ^ 64.

(** The set bits of a word from bit [b] on, and of the words from word [pos] on. *)
Definition bits_of (w base b : Z) : list Z :=
  filter (λ i, Z.testbit w (i - base) = true) (seqZ (base + b) (64 - b)).

Fixpoint words_bits (pos : Z) (ws : list Z) : list Z :=
  match ws with
  | [] => []
  | w :: ws' => bits_of w (64 * pos) 0 ++ words_bits (pos + 1) ws'
  end.

(** What an iterator has still to yield. *)
Definition remaining (it : BitposIterator) : list Z :=
  match current_word it with
  | None => words_bits (word_pos it) (underlying_it it)
  | Some (w, b) => bits_of w (64 * word_pos it) b ++ words_bits (word_pos it + 1) (underlying_it it)
  end.

(** The words not finished yet. *)
Definition words_left (it : BitposIterator) : nat :=
  length (underlying_it it) + match current_word it with Some _ => 1 | None => 0 end.

Record it_ok (it : BitposIterator) : Prop := {
  io_words : Forall is_u64 (underlying_it it);
  io_pos : 0 ≤ word_pos it;
  io_room : word_pos it + Z.of_nat (words_left it) < 2 ^ 32;
  io_cur : ∀ w b, current_word it = Some (w, b) → is_u64 w ∧ 0 ≤ b ≤ 64 }.

(** ** Lemmas on bit positions *)

Lemma trailing_zeros_spec n w :
  0 ≤ w < 2 ^ Z.of_nat n → w ≠ 0 →
  0 ≤ trailing_zeros_from n w < Z.of_nat n ∧ Z.testbit w (trailing_zeros_from n w) = true ∧
  ∀ j, 0 ≤ j < trailing_zeros_from n w → Z.testbit w j = false.
Proof.
  revert w. induction n as [|n IH]; intros w Hw Hne; [change (2 ^ Z.of_nat 0) with 1 in Hw; lia|].
  cbn [trailing_zeros_from]. destruct (Z.testbit w 0) eqn:H0.
  { split; [lia|]. split; [done|]. lia. }
  assert (Z.shiftr w 1 = w / 2) as Hs by (rewrite Z.shiftr_div_pow2 by lia; done).
  assert (Z.odd w = false) as Hodd by (by rewrite <-Z.bit0_odd).
  pose proof (Z.div_mod w 2 ltac:(lia)) as Hd. rewrite Zmod_odd, Hodd in Hd.
  destruct (IH (Z.shiftr w 1)) as (Hb & Ht & Hz); rewrite ?Hs.
  { rewrite Nat2Z.inj_succ, Z.pow_succ_r in Hw by lia. lia. }
  { lia. }
  rewrite Hs in *. set (t := trailing_zeros_from n (w / 2)) in *.
  assert (∀ j, 0 ≤ j → Z.testbit (w / 2) j = Z.testbit w (j + 1)) as Hsh.
  { intros j Hj. rewrite <-Hs, Z.shiftr_spec by lia. done. }
  split; [lia|]. split.
  - rewrite Z.add_comm, <-Hsh by lia. done.
  - intros j Hj. destruct (decide (j = 0)) as [->|]; [done|].
    replace j with (j - 1 + 1) by lia. rewrite <-Hsh by lia. apply Hz. lia.
Qed.

Lemma filter_none {A} (P : A → Prop) `{!∀ x, Decision (P x)} (l : list A) :
  (∀ x, x ∈ l → ¬ P x) → filter P l = [].
Proof.
  intros Hn. induction l as [|x l IH]; [done|]. rewrite filter_cons, decide_False by (apply Hn; left).
  apply IH. intros y Hy. apply Hn. by right.
Qed.

Lemma bits_of_empty w base b : 0 ≤ b → Z.shiftr w b = 0 → bits_of w base b = [].
Proof.
  intros Hb H. apply filter_none. intros i Hi. apply elem_of_seqZ in Hi.
  assert (Z.testbit w (i - base) = Z.testbit (Z.shiftr w b) (i - base - b)) as ->.
  { rewrite Z.shiftr_spec by lia. f_equal. lia. }
  by rewrite H, Z.bits_0.
Qed.

Lemma bits_of_next w base b :
  is_u64 w → 0 ≤ b < 64 → Z.shiftr w b ≠ 0 →
  let z := trailing_zeros (Z.shiftr w b) in
  0 ≤ z ∧ b + z < 64 ∧ bits_of w base b = (base + b + z) :: bits_of w base (z + b + 1).
Proof.
  intros Hw Hb Hne z.
  assert (0 ≤ Z.shiftr w b < 2 ^ (64 - b)) as Hr.
  { rewrite Z.shiftr_div_pow2 by lia. unfold is_u64 in Hw. split; [apply Z.div_pos; lia|].
    apply Z.div_lt_upper_bound; [lia|]. rewrite <-Z.pow_add_r by lia.
    replace (b + (64 - b)) with 64 by lia. lia. }
  destruct (trailing_zeros_spec 64 (Z.shiftr w b)) as (Hz & Ht & Hlow); [|done|].
  { assert (2 ^ (64 - b) ≤ 2 ^ 64) by (apply Z.pow_le_mono_r; lia). simpl. lia. }
  fold (trailing_zeros (Z.shiftr w b)) in *. fold z in Hz, Ht, Hlow. change (Z.of_nat 64) with 64 in Hz.
  rewrite Z.shiftr_spec in Ht by lia.
  assert (z + b < 64).
  { apply Z.lt_nge. intros Hge. assert (Z.testbit (Z.shiftr w b) z = false) as Hf.
    { destruct (decide (Z.shiftr w b = 0)); [done|]. apply Z.bits_above_log2; [lia|].
      assert (Z.log2 (Z.shiftr w b) < 64 - b) by (apply Z.log2_lt_pow2; lia). lia. }
    rewrite Z.shiftr_spec in Hf by lia. congruence. }
  split; [lia|]. split; [lia|]. unfold bits_of.
  replace (64 - b) with (z + (64 - (z + b))) by lia. rewrite seqZ_app by lia. rewrite filter_app.
  rewrite filter_none.
  - rewrite app_nil_l. rewrite seqZ_cons by lia. rewrite filter_cons, decide_True
      by (rewrite <-Ht; f_equal; lia).
    f_equal. f_equal. f_equal; lia.
  - intros i Hi. apply elem_of_seqZ in Hi. rewrite <-(Z.add_simpl_r (i - base) (- b)).
    replace (i - base + - b - - b) with ((i - base - b) + b) by lia.
    rewrite <-Z.shiftr_spec by lia. rewrite Hlow by lia. done.
Qed.

Lemma fetch_ok it :
  it_ok it → it_ok (fetch it) ∧ remaining (fetch it) = remaining it ∧
    words_left (fetch it) = words_left it ∧ (current_word (fetch it) = None → remaining it = []).
Proof.
  destruct it as [ws pos [[w b]|]]; intros H; [by simpl|].
  destruct ws as [|w ws]; [by simpl|]. destruct H as [Hw Hp Hr _]. apply Forall_cons in Hw as [Hw Hws].
  unfold fetch, words_left in *. simpl in *. split; [|split; [done|split; [lia|done]]].
  split; simpl; [done|done|unfold words_left; simpl; lia|]. intros w' b' [= <- <-]. split; [done|lia].
Qed.

Lemma take_bit_ok {E} it w b :
  it_ok it → current_word it = Some (w, b) →
  (take_bit (E:=E) it w b = None ∧ bits_of w (64 * word_pos it) b = []) ∨
  (∃ p it', take_bit (E:=E) it w b = Some (Ok (p, it')) ∧ it_ok it' ∧
     remaining it = p :: remaining it' ∧ words_left it' = words_left it).
Proof.
  intros H Hc. destruct (io_cur it H w b Hc) as [Hw Hb]. unfold take_bit.
  destruct (Z.eqb_spec w 0) as [->|Hne]; simpl.
  { left. split; [done|]. apply bits_of_empty; [lia|]. apply Z.shiftr_0_l. }
  destruct (Z.ltb_spec b 64).
  2: { left. split; [done|]. unfold bits_of. assert (b = 64) as -> by lia. done. }
  destruct (Z.eqb_spec (Z.shiftr w b) 0) as [Hs|Hs]; simpl.
  { left. split; [done|]. by apply bits_of_empty; [lia|]. }
  right. destruct (bits_of_next w (64 * word_pos it) b Hw ltac:(lia) Hs) as (Hz & Hlt & Hbits).
  set (z := trailing_zeros (Z.shiftr w b)) in *. pose proof (io_pos it H). pose proof (io_room it H).
  rewrite umul_ok by (unfold is_u64; lia). cbn [mbind res_bind].
  unfold checked_add. rewrite in_u64_true by (unfold is_u64; lia). cbn [unwrap mbind res_bind].
  eexists _, _. split; [done|]. split; [|split].
  - split; simpl; [apply H|done|unfold words_left in *; rewrite Hc in *; simpl; lia|].
    intros w' b' [= <- <-]. split; [done|lia].
  - unfold remaining. rewrite Hc. simpl. rewrite Hbits. simpl. f_equal. lia.
  - unfold words_left. simpl. by rewrite Hc.
Qed.

Lemma next_spec {E} fuel it :
  it_ok it → (words_left it < fuel)%nat →
  ∃ it', @next E fuel it = Ok (head (remaining it), it') ∧ it_ok it' ∧
    remaining it' = tail (remaining it) ∧ (words_left it' ≤ words_left it)%nat.
Proof.
  revert it. induction fuel as [|fuel IH]; intros it H Hf; [lia|]. cbn [next].
  destruct (fetch_ok it H) as (H1 & <- & Hl & Hnone). set (it1 := fetch it) in *. cbv zeta.
  destruct (current_word it1) as [[w b]|] eqn:Hc.
  2: { exists it1. rewrite (Hnone eq_refl). split; [done|]. split; [done|]. split; [|lia].
       done. }
  destruct (take_bit_ok (E:=E) it1 w b H1 Hc) as [[-> Hemp]|(p & it' & -> & H' & -> & Hl')].
  2: { exists it'. split; [done|]. split; [done|]. split; [done|]. lia. }
  pose proof (io_pos it1 H1) as Hpos. pose proof (io_room it1 H1) as Hroom.
  unfold words_left in Hl, Hroom. rewrite Hc in Hl, Hroom.
  unfold U32_MAX. destruct (Z.leb_spec (word_pos it1 + 1) (2 ^ 32 - 1)); [|lia]. cbn [mbind res_bind].
  destruct (IH {| underlying_it := underlying_it it1; word_pos := word_pos it1 + 1; current_word := None |})
    as (it' & -> & H' & Hr & Hl').
  { split; simpl; [apply H1|lia|unfold words_left; simpl; lia|done]. }
  { unfold words_left in *. simpl. lia. }
  assert (remaining it1 = remaining {| underlying_it := underlying_it it1; word_pos := word_pos it1 + 1;
    current_word := None |}) as -> by (unfold remaining; rewrite Hc, Hemp; done).
  exists it'. split; [done|]. split; [done|]. split; [done|]. unfold words_left in *. simpl in *. lia.
Qed.

Lemma collect_spec {E} fuel n it :
  it_ok it → (words_left it < fuel)%nat → (length (remaining it) < n)%nat →
  @collect E n fuel it = Ok (remaining it).
Proof.
  revert it. induction n as [|n IH]; intros it H Hf Hn; [lia|]. cbn [collect].
  destruct (next_spec (E:=E) fuel it H Hf) as (it' & -> & H' & Hr & Hl). cbn [mbind res_bind].
  destruct (remaining it) as [|b l]; cbn [head tail] in *; [done|].
  rewrite IH by (done || lia || (rewrite Hr; simpl in Hn; lia)). cbn [mbind res_bind]. by rewrite Hr.
Qed.

Lemma filter_ext_in {A} (P Q : A → Prop) `{!∀ x, Decision (P x), !∀ x, Decision (Q x)} (l : list A) :
  (∀ x, x ∈ l → P x ↔ Q x) → filter P l = filter Q l.
Proof.
  intros HPQ. induction l as [|x l IH]; [done|]. rewrite !filter_cons.
  rewrite IH by (intros y Hy; apply HPQ; by right).
  destruct (decide (P x)), (decide (Q x)); try done; exfalso; specialize (HPQ x ltac:(left)); tauto.
Qed.

(** The positions are the set bits of the bitmap, in order. *)
Lemma words_bits_filter pos ws :
  words_bits pos ws = filter (λ i, Bitmap.bit ws (i - 64 * pos) = true) (seqZ (64 * pos) (64 * zlen ws)).
Proof.
  revert pos. induction ws as [|w ws IH]; intros pos; [done|]. cbn [words_bits].
  rewrite zlen_cons. replace (64 * (1 + zlen ws)) with (64 + 64 * zlen ws) by lia.
  pose proof (zlen_nonneg ws). rewrite seqZ_app, filter_app by lia. f_equal.
  - unfold bits_of. rewrite Z.add_0_r. apply filter_ext_in. intros i Hi%elem_of_seqZ.
    unfold Bitmap.bit. rewrite Z.div_small, Z.mod_small by lia. done.
  - rewrite IH. replace (64 * pos + 64) with (64 * (pos + 1)) by lia.
    apply filter_ext_in. intros i Hi%elem_of_seqZ. unfold Bitmap.bit.
    replace (i - 64 * pos) with (i - 64 * (pos + 1) + 1 * 64) by lia.
    rewrite Z.div_add, Z.mod_add by lia. assert (0 ≤ (i - 64 * (pos + 1)) / 64) by (apply Z.div_pos; lia).
    rewrite (znth_cons w ws) by lia. done.
Qed.

Lemma length_words_bits pos ws : (length (words_bits pos ws) ≤ 64 * length ws)%nat.
Proof.
  rewrite words_bits_filter.
  pose proof (length_filter (λ i, Bitmap.bit ws (i - 64 * pos) = true) (seqZ (64 * pos) (64 * zlen ws))) as H.
  rewrite length_seqZ in H. unfold zlen in *. lia.
Qed.

Lemma bit_positions_ok {E} ws :
  Forall is_u64 ws → zlen ws < 2 ^ 32 →
  @bit_positions E ws = Ok (filter (λ i, Bitmap.bit ws i = true) (seqZ 0 (64 * zlen ws))).
Proof.
  intros Hws Hl. unfold bit_positions. rewrite collect_spec.
  - f_equal. unfold remaining. simpl. rewrite words_bits_filter. change (64 * 0) with 0.
    apply filter_ext_in. intros i _. by rewrite Z.sub_0_r.
  - split; simpl; [done|done|unfold words_left, zlen in *; simpl; lia|done].
  - unfold words_left. simpl. lia.
  - unfold remaining. simpl. pose proof (length_words_bits 0 ws). lia.
Qed.

(** ** Runs of dirty pages *)

(** Increasing numbers from [lo] on. *)
Fixpoint above (lo : Z) (l : list Z) : Prop :=
  match l with [] => True | x :: l' => lo ≤ x ∧ above (x + 1) l' end.

(** Non-empty intervals with a gap between any two. *)
Fixpoint maximal (lo : Z) (rs : list (Z * Z)) : Prop :=
  match rs with [] => True | (s, e) :: rs' => lo ≤ s ∧ s < e ∧ maximal (e + 1) rs' end.

Definition in_runs (rs : list (Z * Z)) (i : Z) : Prop := ∃ s e, (s, e) ∈ rs ∧ s ≤ i < e.

Lemma above_weaken lo lo' l : lo' ≤ lo → above lo l → above lo' l.
Proof. destruct l; simpl; [done|]. intros ? [? ?]. split; [lia|done]. Qed.

Lemma above_elem lo l i : above lo l → i ∈ l → lo ≤ i.
Proof.
  revert lo. induction l as [|x l IH]; intros lo H Hi; [by apply elem_of_nil in Hi|]. destruct H as [H1 H2].
  apply elem_of_cons in Hi as [->|Hi]; [done|]. specialize (IH _ H2 Hi). lia.
Qed.

Lemma above_filter_seqZ (P : Z → Prop) `{!∀ x, Decision (P x)} lo n : above lo (filter P (seqZ lo n)).
Proof.
  destruct (decide (0 ≤ n)) as [Hn|Hn]; [|by rewrite seqZ_nil by lia].
  revert lo. pattern n. apply natlike_ind; [done| |done]. clear n Hn. intros n Hn IH lo.
  rewrite seqZ_cons, Z.pred_succ, filter_cons by lia. rewrite <-Z.add_1_r. case_decide.
  - split; [lia|]. apply IH.
  - eapply above_weaken; [|apply IH]. lia.
Qed.

Definition singles (l : list Z) : list (Z * Z) := (λ b, (b, b + 1)) <$> l.

Lemma coalesce_runs `{Itertools} l : ∀ lo s e,
  lo ≤ s < e → above e l →
  maximal lo (coalesce merge_adjacent ((s, e) :: singles l)) ∧
  ∀ i, in_runs (coalesce merge_adjacent ((s, e) :: singles l)) i ↔ s ≤ i < e ∨ i ∈ l.
Proof.
  induction l as [|x l IH]; intros lo s e Hs Ha.
  - simpl. rewrite coalesce_one. split; [simpl; lia|]. intros i. unfold in_runs. set_solver by lia.
  - destruct Ha as [Hx Ha]. change (singles (x :: l)) with ((x, x + 1) :: singles l).
    rewrite coalesce_two.
    change (merge_adjacent (s, e) (x, x + 1))
      with (if e =? x then inl (s, x + 1) else inr ((s, e), (x, x + 1)) : Z * Z + (Z * Z) * (Z * Z)).
    destruct (Z.eqb_spec e x) as [->|Hne].
    + destruct (IH lo s (x + 1) ltac:(lia) Ha) as [H1 H2]. split; [done|]. intros i. rewrite H2.
      rewrite elem_of_cons. destruct (decide (i = x)); naive_solver lia.
    + destruct (IH (e + 1) x (x + 1) ltac:(lia) Ha) as [H1 H2]. split; [simpl; split; [lia|]; split; [lia|done]|].
      intros i. unfold in_runs in *. setoid_rewrite elem_of_cons. specialize (H2 i). split.
      * intros (s' & e' & [[= -> ->]|Hin] & Hi); [by left|]. right.
        destruct (proj1 H2) as [?|?]; [by exists s', e'|left; lia|by right].
      * intros [Hi|[->|Hi]]; [exists s, e; by split; [left|]|..];
          (destruct (proj2 H2) as (s' & e' & ? & ?); [|exists s', e'; by split; [right|]]);
          [left; lia|by right].
Qed.

Lemma maximal_nonempty lo runs s e : maximal lo runs → (s, e) ∈ runs → s < e.
Proof.
  revert lo. induction runs as [|[a b] rs IH]; intros lo Hm Hin; [by apply elem_of_nil in Hin|].
  destruct Hm as (? & ? & Hm). apply elem_of_cons in Hin as [[= -> ->]|Hin]; [done|]. by eapply IH.
Qed.

Definition run_range (start ps : Z) (r : Z * Z) : MemoryRange :=
  {| gpa := start + r.1 * ps; length_ := (r.2 - r.1) * ps |}.

Lemma mapM_res_ok {E A B} (f : A → res E B) (g : A → B) l :
  (∀ x, x ∈ l → f x = Ok (g x)) → mapM_res f l = Ok (g <$> l).
Proof.
  intros H. induction l as [|x l IH]; [done|]. cbn [mapM_res]. rewrite H by left. cbn [mbind res_bind].
  rewrite IH by (intros y Hy; apply H; by right). done.
Qed.

Lemma dirty_runs {E} `{Itertools} bitmap start ps :
  Forall is_u64 bitmap → zlen bitmap < 2 ^ 32 → 0 < ps → 0 ≤ start →
  start + 64 * zlen bitmap * ps < 2 ^ 64 →
  ∃ runs, @from_dirty_bitmap E _ bitmap start ps = Ok (run_range start ps <$> runs) ∧ maximal 0 runs ∧
    ∀ i, in_runs runs i ↔ 0 ≤ i < 64 * zlen bitmap ∧ Bitmap.bit bitmap i = true.
Proof.
  intros Hb Hl Hps Hs Htop. pose proof (zlen_nonneg bitmap). unfold from_dirty_bitmap.
  rewrite bit_positions_ok by done. cbn [mbind res_bind].
  set (l := filter (λ i, Bitmap.bit bitmap i = true) (seqZ 0 (64 * zlen bitmap))).
  assert (∀ i, i ∈ l ↔ 0 ≤ i < 64 * zlen bitmap ∧ Bitmap.bit bitmap i = true) as Hel.
  { intros i. unfold l. rewrite list_elem_of_filter, elem_of_seqZ. intuition lia. }
  rewrite (mapM_res_ok _ (λ b, (b, b + 1))).
  2: { intros i Hi. apply Hel in Hi. rewrite uadd_ok by (unfold is_u64; nia). done. }
  cbn [mbind res_bind]. fold (singles l). set (runs := coalesce merge_adjacent (singles l)).
  assert (maximal 0 runs ∧ ∀ i, in_runs runs i ↔ i ∈ l) as [Hmax Hin].
  { pose proof (above_filter_seqZ (λ i, Bitmap.bit bitmap i = true) 0 (64 * zlen bitmap)) as Ha.
    unfold runs. fold l in Ha. clearbody l. clear -Ha. destruct l as [|x l]; simpl.
    - rewrite coalesce_nil. split; [done|]. intros i. unfold in_runs. set_solver.
    - destruct Ha as [Hx Ha]. destruct (coalesce_runs l 0 x (x + 1) ltac:(lia) Ha) as [H1 H2].
      split; [done|]. intros i. rewrite H2, elem_of_cons. naive_solver lia. }
  exists runs. split; [|split; [done|intros i; by rewrite Hin]].
  apply mapM_res_ok. intros [a b] Hab. unfold to_range. cbn [fst snd].
  assert (0 ≤ a < b ∧ b ≤ 64 * zlen bitmap) as [Ha Hb'].
  { pose proof (maximal_nonempty _ _ _ _ Hmax Hab) as Hlt.
    assert (in_runs runs a ∧ in_runs runs (b - 1)) as [H1 H2] by (split; exists a, b; (split; [done|lia])).
    apply Hin, Hel in H1. apply Hin, Hel in H2. lia. }
  rewrite umul_ok by (unfold is_u64; nia). cbn [mbind res_bind].
  rewrite uadd_ok by (unfold is_u64; nia). cbn [mbind res_bind].
  rewrite usub_ok by (unfold is_u64; nia). cbn [mbind res_bind].
  rewrite umul_ok by (unfold is_u64; nia). done.
Qed.

Lemma maximal_below lo runs i : maximal lo runs → in_runs runs i → lo ≤ i.
Proof.
  revert lo. induction runs as [|[s e] rs IH]; intros lo Hm (a & b & Hab & Hi);
    [by apply elem_of_nil in Hab|].
  destruct Hm as (? & ? & Hm). apply elem_of_cons in Hab as [[= -> ->]|Hab]; [lia|].
  assert (e + 1 ≤ i); [|lia]. apply IH; [done|]. by exists a, b.
Qed.

Lemma covers_run start ps r a :
  0 < ps → covers (run_range start ps r) a = true ↔ r.1 ≤ (a - start) / ps < r.2.
Proof.
  intros Hps. unfold covers, run_range. simpl. rewrite andb_true_iff, Z.leb_le, Z.ltb_lt.
  pose proof (Z.div_mod (a - start) ps). pose proof (Z.mod_pos_bound (a - start) ps). nia.
Qed.

(** A table of separate runs covers an address at most once. *)
Lemma coverage_runs start ps runs a : ∀ lo,
  0 < ps → maximal lo runs →
  (in_runs runs ((a - start) / ps) → coverage (run_range start ps <$> runs) a = 1) ∧
  (¬ in_runs runs ((a - start) / ps) → coverage (run_range start ps <$> runs) a = 0).
Proof.
  set (i := (a - start) / ps). induction runs as [|[s e] rs IH]; intros lo Hps Hm.
  { split; [intros (? & ? & []%elem_of_nil & _)|done]. }
  pose proof Hm as (? & ? & Hm'). destruct (IH _ Hps Hm') as [IH1 IH2].
  rewrite fmap_cons. cbn [coverage foldr]. fold (coverage (run_range start ps <$> rs) a).
  pose proof (covers_run start ps (s, e) a Hps) as Hc. fold i in Hc. simpl in Hc.
  assert (in_runs ((s, e) :: rs) i ↔ s ≤ i < e ∨ in_runs rs i) as Hcons.
  { unfold in_runs. setoid_rewrite elem_of_cons. naive_solver. }
  rewrite Hcons. destruct (covers _ a) eqn:Hcov.
  - assert (s ≤ i < e) by by apply Hc. split; [|naive_solver]. intros _. rewrite IH2; [done|].
    intros Hin%(maximal_below (e + 1)); [lia|done].
  - assert (¬ s ≤ i < e) by (intros ?%Hc; congruence). split.
    + intros [?|?]; [done|]. rewrite IH1 by done. done.
    + intros Hn. rewrite IH2 by naive_solver. done.
Qed.

(** ** Partition *)

Lemma coverage_app t1 t2 a : coverage (t1 ++ t2) a = coverage t1 a + coverage t2 a.
Proof. induction t1 as [|r t1 IH]; simpl; [done|]. rewrite IH. lia. Qed.

Lemma size_app t1 t2 : size_of (t1 ++ t2) = size_of t1 + size_of t2.
Proof. induction t1 as [|r t1 IH]; simpl; [done|]. rewrite IH. lia. Qed.

Lemma pop_snoc t r : pop (t ++ [r]) = Some (r, t).
Proof. unfold pop. rewrite reverse_snoc. by rewrite reverse_involutive. Qed.

(** Splitting a range covers the same addresses. *)
Lemma split_coverage g n m a :
  0 ≤ n → 0 ≤ m →
  coverage [{| gpa := g; length_ := n |}] a + coverage [{| gpa := g + n; length_ := m |}] a =
    coverage [{| gpa := g; length_ := n + m |}] a.
Proof.
  intros Hn Hm. unfold coverage, covers. simpl.
  destruct (Z.leb_spec g a), (Z.ltb_spec a (g + n)), (Z.leb_spec (g + n) a),
    (Z.ltb_spec a (g + n + m)), (Z.ltb_spec a (g + (n + m))); simpl; lia.
Qed.

(** What a run of the loop makes of the ranges left and the chunk so far. *)
Record filled (bound chunk : Z) (data ranges data' ranges' : MemoryRangeTable) : Prop := {
  fl_data : Forall (fits bound) data';
  fl_ranges : Forall (fits bound) ranges';
  fl_coverage : ∀ a, coverage ranges' a + coverage data' a = coverage ranges a + coverage data a;
  fl_size : size_of ranges' + size_of data' = size_of ranges + size_of data;
  fl_bound : size_of ranges' ≤ chunk;
  fl_rest : size_of ranges' = chunk ∨ data' = [];
  fl_some : ranges' = [] → data = [] ∧ ranges = [] }.

Lemma filled_cons bound chunk data ranges data1 ranges1 data' ranges' :
  (∀ a, coverage ranges1 a + coverage data1 a = coverage ranges a + coverage data a) →
  size_of ranges1 + size_of data1 = size_of ranges + size_of data → ranges1 ≠ [] →
  filled bound chunk data1 ranges1 data' ranges' → filled bound chunk data ranges data' ranges'.
Proof.
  intros Hc Hs Hne []. split; try done.
  - intros a. rewrite <-Hc. done.
  - lia.
  - intros ->. destruct fl_some0 as [_ ->]; done.
Qed.

(** The split of the last range when it does not fit. *)
Lemma split_ok bound chunk ranges r rest :
  fits bound r → Forall (fits bound) rest → Forall (fits bound) ranges →
  0 ≤ size_of ranges < chunk → chunk < size_of ranges + length_ r →
  let left := size_of ranges + length_ r - chunk in
  filled bound chunk (rest ++ [r]) ranges (rest ++ [{| gpa := gpa r; length_ := left |}])
    (ranges ++ [{| gpa := gpa r + left; length_ := length_ r - left |}]).
Proof.
  intros (? & ? & ?) Hrest Hr ? ? left. split.
  - apply Forall_app_2; [done|]. apply Forall_singleton. unfold fits, left. simpl. lia.
  - apply Forall_app_2; [done|]. apply Forall_singleton. unfold fits, left. simpl. lia.
  - intros a. rewrite !coverage_app.
    pose proof (split_coverage (gpa r) left (length_ r - left) a ltac:(lia) ltac:(lia)) as Hs.
    replace (left + (length_ r - left)) with (length_ r) in Hs by lia. destruct r; simpl in *. lia.
  - rewrite !size_app. simpl. lia.
  - rewrite size_app. simpl. lia.
  - apply or_introl. rewrite size_app. simpl. lia.
  - intros [_ [=]]%app_eq_nil.
Qed.

Lemma assert_ok {E} b : b = true → @assert E b = Ok tt.
Proof. by intros ->. Qed.

Lemma take_range_ok {E} bound chunk ranges r rest :
  chunk + bound < 2 ^ 64 → fits bound r → 0 ≤ size_of ranges < chunk →
  @take_range E chunk (size_of ranges) r rest =
    if chunk <? size_of ranges + length_ r then
      let left := size_of ranges + length_ r - chunk in
      Ok ({| gpa := gpa r + left; length_ := length_ r - left |},
          rest ++ [{| gpa := gpa r; length_ := left |}])
    else Ok (r, rest).
Proof.
  intros Hb (? & ? & ?) Hs. unfold take_range. rewrite uadd_ok by (unfold is_u64; lia).
  cbn [mbind res_bind]. destruct (Z.ltb_spec chunk (size_of ranges + length_ r)); [|done].
  rewrite usub_ok by (unfold is_u64; lia). cbn [mbind res_bind].
  rewrite assert_ok by lia. cbn [mbind res_bind].
  rewrite usub_ok by (unfold is_u64; lia). cbn [mbind res_bind].
  rewrite assert_ok by lia. cbn [mbind res_bind].
  rewrite !uadd_ok by (unfold is_u64; lia). cbn [mbind res_bind].
  rewrite assert_ok by lia. done.
Qed.

Lemma fill_chunk_full {E} fuel chunk data ranges :
  @fill_chunk E (S fuel) chunk data ranges chunk = Ok (ranges, data).
Proof. cbn [fill_chunk]. rewrite assert_ok by lia. cbn [mbind res_bind]. by rewrite Z.eqb_refl. Qed.

Lemma fill_chunk_ok {E} bound chunk fuel : ∀ data ranges,
  0 < chunk → chunk + bound < 2 ^ 64 → Forall (fits bound) data → Forall (fits bound) ranges →
  0 ≤ size_of ranges ≤ chunk → (length data < fuel)%nat →
  (ranges = [] → size_of ranges < chunk) →
  ∃ ranges' data', @fill_chunk E fuel chunk data ranges (size_of ranges) = Ok (ranges', data') ∧
    filled bound chunk data ranges data' ranges'.
Proof.
  induction fuel as [|fuel IH]; intros data ranges Hc Hb Hd Hr Hs Hf Hn; [lia|].
  cbn [fill_chunk]. rewrite assert_ok by lia. cbn [mbind res_bind].
  destruct (Z.eqb_spec (size_of ranges) chunk) as [He|He]; cbn [orb].
  { exists ranges, data. split; [done|]. split; try done; [lia|by left|].
    intros ->. specialize (Hn eq_refl). lia. }
  case_bool_decide as Hnil.
  { subst. exists ranges, []. split; [done|]. split; try done; [lia|by right]. }
  destruct (exists_last Hnil) as (rest & r & ->). rewrite pop_snoc.
  apply Forall_app in Hd as [Hrest Hfit]. apply (Forall_singleton (fits bound)) in Hfit.
  rewrite length_app in Hf. simpl in Hf. rewrite (take_range_ok bound) by (done || lia).
  pose proof Hfit as (? & ? & ?).
  destruct (Z.ltb_spec chunk (size_of ranges + length_ r)) as [Hlt|Hge]; cbn [mbind res_bind length_].
  - rewrite uadd_ok by (unfold is_u64; lia). cbn [mbind res_bind].
    replace (size_of ranges + (length_ r - (size_of ranges + length_ r - chunk))) with chunk by lia.
    destruct fuel as [|fuel]; [lia|].
    rewrite fill_chunk_full. eexists _, _. split; [done|]. apply split_ok; done || lia.
  - rewrite uadd_ok by (unfold is_u64; lia). cbn [mbind res_bind].
    assert (size_of (ranges ++ [r]) = size_of ranges + length_ r) as Hsz
      by (rewrite size_app; simpl; lia).
    rewrite <-Hsz. destruct (IH rest (ranges ++ [r])) as (ranges' & data' & -> & Hfl); try done;
      [by apply Forall_app_2; [|apply Forall_singleton]|lia|lia|by intros [_ [=]]%app_eq_nil|].
    exists ranges', data'. split; [done|]. eapply filled_cons, Hfl; [| |by intros [_ [=]]%app_eq_nil].
    + intros a. rewrite !coverage_app. lia.
    + rewrite Hsz, size_app. simpl. lia.
Qed.

Lemma size_nonneg bound t : Forall (fits bound) t → 0 ≤ size_of t.
Proof. induction 1 as [|r t (? & ? & ?) _ IH]; simpl; lia. Qed.

Lemma next_chunk_ok {E} bound chunk data :
  0 < chunk → chunk + bound < 2 ^ 64 → Forall (fits bound) data →
  ∃ ranges data', @next_chunk E chunk data =
      Ok (if bool_decide (ranges = []) then None else Some ranges, data') ∧
    filled bound chunk data [] data' ranges.
Proof.
  intros Hc Hb Hd. unfold next_chunk.
  destruct (@fill_chunk_ok E bound chunk (S (S (length data))) data []) as (ranges & data' & He & Hf);
    try done; [simpl; lia|lia|].
  exists ranges, data'. simpl size_of in He. by rewrite He.
Qed.

Lemma partition_nil {E} chunk fuel : 0 < chunk → @partition E (S fuel) chunk [] = Ok [].
Proof.
  intros Hc. cbn [partition]. unfold next_chunk. cbn [length fill_chunk]. unfold assert.
  rewrite (proj2 (Z.leb_le _ _)) by lia. cbn [mbind res_bind]. by rewrite orb_true_r.
Qed.

Lemma partition_ok {E} bound chunk fuel : ∀ data,
  0 < chunk → chunk + bound < 2 ^ 64 → Forall (fits bound) data →
  size_of data / chunk + 2 ≤ Z.of_nat fuel →
  ∃ chunks, @partition E fuel chunk data = Ok chunks ∧
    Forall (λ c, c ≠ [] ∧ size_of c ≤ chunk ∧ Forall (fits bound) c) chunks ∧
    ∀ a, coverage (mjoin chunks) a = coverage data a.
Proof.
  induction fuel as [|fuel IH]; intros data Hc Hb Hd Hf.
  { pose proof (size_nonneg _ _ Hd). assert (0 ≤ size_of data / chunk) by (apply Z.div_pos; lia). lia. }
  cbn [partition]. destruct (@next_chunk_ok E bound chunk data) as (ranges & data' & -> & Hfl); try done.
  destruct Hfl. cbn [mbind res_bind]. case_bool_decide as Hnil.
  - destruct fl_some0 as [-> _]; [done|]. exists []. done.
  - cbn [size_of foldr] in fl_size0. pose proof (size_nonneg _ _ fl_data0).
    destruct fl_rest0 as [Hfull | ->].
    + destruct (IH data') as (cs & -> & Hcs & Hcov); try done.
      { replace (size_of data) with (size_of data' + 1 * chunk) in Hf by lia.
        rewrite Z.div_add in Hf by lia. lia. }
      exists (ranges :: cs). split; [done|]. split; [by constructor|]. intros a.
      change (mjoin (ranges :: cs)) with (ranges ++ mjoin cs). rewrite coverage_app, Hcov.
      apply fl_coverage0.
    + destruct fuel as [|fuel]; [pose proof (Z.div_pos (size_of data) chunk ltac:(by eapply size_nonneg) Hc); lia|].
      rewrite partition_nil by done. exists [ranges]. split; [done|].
      split; [by apply Forall_singleton|]. intros a. change (mjoin [ranges]) with (ranges ++ []).
      rewrite coverage_app. apply fl_coverage0.
Qed.

(** ** Properties *)

(** From_dirty_bitmap.  On a dirty bitmap whose pages lie in the 64-bit address
    space the table is built without overflow, whatever implementation of
    [coalesce] is used: its ranges are non-empty, in ascending order and separated
    by at least one clean page ([maximal]), and an address is covered (once)
    exactly when the bit of its page is set. *)
Theorem from_dirty_bitmap_spec {E} `{Itertools} bitmap start ps :
  Forall is_u64 bitmap → zlen bitmap < 2 ^ 32 → 0 < ps → 0 ≤ start →
  start + 64 * zlen bitmap * ps < 2 ^ 64 →
  ∃ runs, @from_dirty_bitmap E _ bitmap start ps = Ok (run_range start ps <$> runs) ∧ maximal 0 runs ∧
    ∀ a, coverage (run_range start ps <$> runs) a =
      if bool_decide (start ≤ a < start + 64 * zlen bitmap * ps)
         && Bitmap.bit bitmap ((a - start) / ps) then 1 else 0.
Proof.
  intros Hb Hl Hps Hs Htop.
  destruct (@dirty_runs E _ bitmap start ps) as (runs & He & Hm & Hin); try done.
  exists runs. split; [done|]. split; [done|]. intros a.
  destruct (coverage_runs start ps runs a 0 Hps Hm) as [H1 H0].
  assert (0 ≤ (a - start) / ps < 64 * zlen bitmap ↔ start ≤ a < start + 64 * zlen bitmap * ps) as Hr.
  { pose proof (Z.div_mod (a - start) ps). pose proof (Z.mod_pos_bound (a - start) ps). nia. }
  rewrite Hin, Hr in H1, H0. case_bool_decide; simpl; [|naive_solver].
  destruct (Bitmap.bit bitmap _); naive_solver.
Qed.

(** [coalesce] as the crate implements it: a current element and the rest. *)
Fixpoint coalesce_from {A} (f : A → A → A + A * A) (cur : A) (l : list A) : list A :=
  match l with
  | [] => [cur]
  | y :: l' => match f cur y with
               | inl z => coalesce_from f z l'
               | inr (p, c) => p :: coalesce_from f c l'
               end
  end.

#[export] Instance itertools : Itertools := {
  coalesce A f l := match l with [] => [] | x :: l' => coalesce_from f x l' end;
  coalesce_nil A f := eq_refl;
  coalesce_one A f x := eq_refl;
  coalesce_two A f x y l := ltac:(simpl; by destruct (f x y) as [z|[p c]]) }.

Lemma from_dirty_bitmap_spec_witness :
  ∃ runs, @from_dirty_bitmap unit _ [7; 2 ^ 63] 4096 4096 = Ok (run_range 4096 4096 <$> runs) ∧
    maximal 0 runs ∧ coverage (run_range 4096 4096 <$> runs) 9000 = 1.
Proof.
  destruct (@from_dirty_bitmap_spec unit _ [7; 2 ^ 63] 4096 4096
    ltac:(repeat constructor; unfold is_u64; lia) ltac:(vm_compute; done) ltac:(lia) ltac:(lia)
    ltac:(vm_compute; done)) as (runs & H1 & H2 & H3).
  exists runs. split; [exact H1|]. split; [exact H2|]. rewrite H3. vm_compute. done.
Defined.

Lemma effective_size_ok {E} bound t : ∀ n,
  Forall (fits bound) t → 0 ≤ n → n + size_of t < 2 ^ 64 →
  foldM (λ n r, @uadd E n (length_ r)) n t = Ok (n + size_of t).
Proof.
  induction t as [|r t IH]; intros n Hf Hn Ht; cbn [foldM].
  - simpl. by rewrite Z.add_0_r.
  - apply Forall_cons in Hf as [(? & ? & ?) Hf]. pose proof (size_nonneg _ _ Hf). simpl in Ht.
    rewrite uadd_ok by (unfold is_u64; lia). cbn [mbind res_bind]. rewrite IH by (done || lia).
    simpl. by rewrite Z.add_assoc.
Qed.

(** Partition.  A table whose ranges end below [2^64] (and are small enough for
    [chunk_size + length] not to overflow) is partitioned in at most
    [size / chunk_size + 2] calls of [next], none of whose assertions fails: each
    chunk is non-empty and its [effective_size] is at most [chunk_size], and the
    chunks together cover every address exactly as often as the table does. *)
Theorem partition_spec {E} bound chunk_size data fuel :
  0 < chunk_size → chunk_size + bound < 2 ^ 64 → Forall (fits bound) data →
  size_of data / chunk_size + 2 ≤ Z.of_nat fuel →
  ∃ chunks, @partition E fuel chunk_size data = Ok chunks ∧
    Forall (λ c, c ≠ [] ∧ ∃ n, @effective_size E c = Ok n ∧ n ≤ chunk_size) chunks ∧
    ∀ a, coverage (new_from_tables chunks) a = coverage data a.
Proof.
  intros Hc Hb Hd Hf. destruct (@partition_ok E bound chunk_size fuel data) as (cs & He & Hcs & Hcov); try done.
  exists cs. split; [done|]. split.
  - eapply Forall_impl; [done|]. intros c (Hne & Hs & Hfit). split; [done|].
    exists (size_of c). split; [|done]. unfold effective_size.
    assert (0 ≤ bound ∨ c = []) as [Hb0| ->]; [|rewrite (effective_size_ok bound); [done|done|lia|lia]|done].
    destruct c as [|r c]; [by right|left]. apply Forall_cons in Hfit as [(? & ? & ?) _]. lia.
  - intros a. rewrite <-Hcov. f_equal. unfold new_from_tables.
    rewrite <-(app_nil_l (mjoin cs)). generalize (@nil MemoryRange). clear.
    induction cs as [|c cs IH]; intros acc; simpl; [by rewrite app_nil_r|].
    rewrite IH. change (mjoin (c :: cs)) with (c ++ mjoin cs). by rewrite app_assoc.
Qed.

Lemma partition_spec_witness :
  ∃ chunks, @partition unit 5 4096 [{| gpa := 0; length_ := 8192 |}; {| gpa := 16384; length_ := 100 |}] =
      Ok chunks ∧ coverage (new_from_tables chunks) 5000 = 1.
Proof.
  destruct (@partition_spec unit 8192 4096 [{| gpa := 0; length_ := 8192 |}; {| gpa := 16384; length_ := 100 |}] 5
    ltac:(lia) ltac:(vm_compute; done)
    ltac:(repeat constructor; unfold fits; cbn; lia) ltac:(vm_compute; done)) as (cs & H1 & _ & H3).
  exists cs. split; [exact H1|]. rewrite H3. vm_compute. done.
Defined.

End MemoryRanges.
