(* ===== verification/MigrationWire.v ===== *)
(** * The live-migration protocol on the wire

    Model of the messages of [cloud-hypervisor/vm-migration/src/protocol.rs]
    ([Request], [Response], the encoded [MemoryRangeTable]) and of the functions of
    [vmm/src/migration_transport.rs] that exchange them: [expect_ok_response],
    [send_request_expect_ok], [send_memory_ranges] and [receive_memory_ranges].
    The socket is the class [Stream]; guest memory and its transfer to and from a
    socket (the [vm-memory] crate) is the class [GuestIo].  [SourceLaws] and
    [SinkLaws] say what the sender and the receiver rely on. *)

From S2P Require Import Prelude Kernel RestoreSource MemoryRanges.
Import RestoreSource MemoryRanges.

Module MigrationWire.

(** Errors, without the text of the error they wrap. *)
Inductive MigratableError :=
| Pause (msg : string)
| Resume (msg : string)
| Snapshot (msg : string)
| Restore (msg : string)
| MigrateSend (msg : string)
| MigrateReceive (msg : string)
| OnDemandRestore (msg : string)
| MigrateSocket (e : io_error)
| StartDirtyLog (msg : string)
| StopDirtyLog (msg : string)
| DirtyLog (msg : string)
| StartMigration (msg : string)
| CompleteMigration (msg : string)
| UnlockError (msg : string).

(** ** Messages *)
Inductive Command := Invalid | Start | Config | State | Memory | Complete | Abandon | MemoryFd.

Global Instance command_eq_dec : EqDecision Command.
Proof. solve_decision. Defined.

Definition command_code (c : Command) : Z :=
  match c with
  | Invalid => 0 | Start => 1 | Config => 2 | State => 3 | Memory => 4 | Complete => 5
  | Abandon => 6 | MemoryFd => 7
  end.

Definition command_of_code (n : Z) : option Command :=
  if n =? 0 then Some Invalid else if n =? 1 then Some Start else if n =? 2 then Some Config
  else if n =? 3 then Some State else if n =? 4 then Some Memory else if n =? 5 then Some Complete
  else if n =? 6 then Some Abandon else if n =? 7 then Some MemoryFd else None.

Record Request := { req_command : Command; req_padding : list Z; req_length : Z }.

Definition request_new (c : Command) (n : Z) : Request :=
  {| req_command := c; req_padding := zreplicate 6 0; req_length := n |}.

Inductive Status := StInvalid | StOk | StError.

Global Instance status_eq_dec : EqDecision Status.
Proof. solve_decision. Defined.

Definition status_code (s : Status) : Z :=
  match s with StInvalid => 0 | StOk => 1 | StError => 2 end.

Definition status_of_code (n : Z) : option Status :=
  if n =? 0 then Some StInvalid else if n =? 1 then Some StOk else if n =? 2 then Some StError else None.

Record Response := { resp_status : Status; resp_padding : list Z; resp_length : Z }.

Definition response_new (s : Status) (n : Z) : Response :=
  {| resp_status := s; resp_padding := zreplicate 6 0; resp_length := n |}.
Definition response_ok : Response := response_new StOk 0.
Definition response_error : Response := response_new StError 0.

(** [ByteValued]: the bytes of a value, and the value of bytes where they are one
    (a discriminant that is not one of the enumeration's is not a value). *)
Definition request_bytes (r : Request) : list Z :=
  le_bytes 2 (command_code (req_command r)) ++ req_padding r ++ le_bytes 8 (req_length r).

Definition request_of_bytes (bs : list Z) : option Request :=
  c ← command_of_code (of_le_bytes (slice bs 0 2));
  Some {| req_command := c; req_padding := slice bs 2 6; req_length := of_le_bytes (slice bs 8 8) |}.

Definition response_bytes (r : Response) : list Z :=
  le_bytes 2 (status_code (resp_status r)) ++ resp_padding r ++ le_bytes 8 (resp_length r).

Definition response_of_bytes (bs : list Z) : option Response :=
  c ← status_of_code (of_le_bytes (slice bs 0 2));
  Some {| resp_status := c; resp_padding := slice bs 2 6; resp_length := of_le_bytes (slice bs 8 8) |}.

Definition range_bytes (r : MemoryRange) : list Z := le_bytes 8 (gpa r) ++ le_bytes 8 (length_ r).
Definition table_bytes (t : MemoryRangeTable) : list Z := mjoin (range_bytes <$> t).

Fixpoint table_of_bytes (n : nat) (bs : list Z) : MemoryRangeTable :=
  match n with
  | O => []
  | S n' => {| gpa := of_le_bytes (slice bs 0 8); length_ := of_le_bytes (slice bs 8 8) |}
            :: table_of_bytes n' (drop 16 bs)
  end.

(** ** Exchanges *)

(** [write_volatile_to(addr, socket, count)] and [read_volatile_from]: part of a
    stretch of guest memory goes to, or comes from, the socket. *)
Class GuestIo {St : Stream} := {
  write_volatile_to : Z → Z → sst → (io_error + Z) * sst;
  read_volatile_from : Z → Z → sst → (io_error + Z) * sst }.

Section code.
Context {St : Stream} {G : GuestIo}.

(** A socket call with [map_err(MigratableError::MigrateSocket)]. *)
Definition sock {A} (call : sst → (io_error + A) * sst) : M sst MigratableError A :=
  m_map_err MigrateSocket (of_sum call).
(** A call whose error is passed on. *)
Definition call {A} (c : sst → (MigratableError + A) * sst) : M sst MigratableError A := λ s,
  match c s with
  | (inl e, s') => (Err e, s')
  | (inr a, s') => (Ok a, s')
  end.

Definition request_read_from : M sst MigratableError Request :=
  bs ← sock (s_read_exact 16); lift (unwrap (request_of_bytes bs)).
Definition request_write_to (r : Request) : M sst MigratableError unit := sock (s_write_all (request_bytes r)).

Definition response_read_from : M sst MigratableError Response :=
  bs ← sock (s_read_exact 16); lift (unwrap (response_of_bytes bs)).
Definition response_write_to (r : Response) : M sst MigratableError unit := sock (s_write_all (response_bytes r)).

Definition ok_or_abandon (r : Response) (error : MigratableError) : M sst MigratableError Response :=
  if bool_decide (resp_status r ≠ StOk) then
    _ ← request_write_to (request_new Abandon 0);
    _ ← response_read_from;
    fail error
  else mret r.

Definition table_read_from (n : Z) : M sst MigratableError MemoryRangeTable :=
  _ ← lift (assert (n mod 16 =? 0));
  bs ← sock (s_read_exact n);
  mret (table_of_bytes (Z.to_nat (n / 16)) bs).

Definition table_write_to (t : MemoryRangeTable) : M sst MigratableError unit :=
  sock (s_write_all (table_bytes t)).

Definition expect_ok_response (error : MigratableError) : M sst MigratableError unit :=
  r ← response_read_from;
  _ ← ok_or_abandon r error;
  mret tt.

Definition send_request_expect_ok (request : Request) (error : MigratableError) : M sst MigratableError unit :=
  _ ← request_write_to request;
  expect_ok_response error.

(** The retry loop over one range, from [offset] on. *)
Fixpoint send_range (fuel : nat) (range : MemoryRange) (offset : Z) : M sst MigratableError unit :=
  match fuel with
  | O => hang
  | S fuel' =>
      a ← lift (uadd (gpa range) offset);
      c ← lift (usub (length_ range) offset);
      bytes_written ← m_map_err (λ _, MigrateSend "Error transferring memory to socket")
                        (of_sum (write_volatile_to a c));
      offset' ← lift (uadd offset bytes_written);
      if offset' =? length_ range then mret tt else send_range fuel' range offset'
  end.

Definition send_memory_ranges (fuel : nat) (ranges : MemoryRangeTable) : M sst MigratableError unit :=
  if bool_decide (ranges = []) then mret tt
  else
    _ ← request_write_to (request_new Memory (table_length ranges));
    _ ← table_write_to ranges;
    _ ← for_ ranges (λ range, send_range fuel range 0);
    expect_ok_response (MigrateSend "Error during dirty memory migration").

Fixpoint receive_range (fuel : nat) (range : MemoryRange) (offset : Z) : M sst MigratableError unit :=
  match fuel with
  | O => hang
  | S fuel' =>
      a ← lift (uadd (gpa range) offset);
      c ← lift (usub (length_ range) offset);
      bytes_read ← m_map_err (λ _, MigrateReceive "Error receiving memory from socket")
                     (of_sum (read_volatile_from a c));
      offset' ← lift (uadd offset bytes_read);
      if offset' =? length_ range then mret tt else receive_range fuel' range offset'
  end.

Definition receive_memory_ranges (fuel : nat) (req : Request) : M sst MigratableError unit :=
  _ ← lift (assert (bool_decide (req_command req = Memory)));
  ranges ← table_read_from (req_length req);
  for_ ranges (λ range, receive_range fuel range 0).

(** ** What the two sides rely on *)

(** The sender.  [src] is the guest memory, [dirty l] the pages the dirty log [l]
    holds (there are several), [sent] the bytes put on the socket; the guest may run
    during every call. *)
Section source.
Context {Log : Type} (src : sst → Z → Z) (dirty : Log → sst → Z → Prop) (paused : sst → Prop).
Context (sent : sst → list Z).

(** What a running guest does: a byte it changed is on a page of one of the logs. *)
Record ran (s s' : sst) : Prop := {
  rn_src x : src s' x = src s x ∨ ∃ l, dirty l s' (x / 4096);
  rn_dirty l p : dirty l s p → dirty l s' p;
  rn_paused : paused s → paused s' ∧ ∀ x, src s' x = src s x }.

Class SourceLaws : Prop := {
  sl_write bs s r s' : s_write_all bs s = (r, s') → ran s s' ∧ (r = inr tt → sent s' = sent s ++ bs);
  sl_read n s r s' : s_read_exact n s = (r, s') →
    ran s s' ∧ sent s' = sent s ∧ (∀ bs, r = inr bs → zlen bs = n);
  sl_volatile a c s r s' : write_volatile_to a c s = (r, s') →
    ran s s' ∧ ∀ n, r = inr n → 0 ≤ n ≤ c ∧ (n = 0 → c = 0) ∧
      ∃ bs, zlen bs = n ∧ sent s' = sent s ++ bs ∧
        (∀ i, 0 ≤ i < n → ∃ s1, ran s s1 ∧ ran s1 s' ∧ znth bs i = Some (src s1 (a + i))) }.
End source.

(** The receiver.  [mem] is the guest memory, [ram] its addresses, [incoming] the
    bytes the peer sends before it closes the connection. *)
Definition store (m : Z → Z) (a : Z) (bs : list Z) : Z → Z := λ x,
  if (a <=? x) && (x <? a + zlen bs) then default 0 (znth bs (x - a)) else m x.

Section sink.
Context (mem : sst → Z → Z) (ram : Z → Prop) (incoming : sst → list Z).

Class SinkLaws : Prop := {
  sk_write bs s : ∃ s', s_write_all bs s = (inr tt, s') ∧ incoming s' = incoming s ∧ ∀ x, mem s' x = mem s x;
  sk_read n s : 0 ≤ n ≤ zlen (incoming s) →
    ∃ s', s_read_exact n s = (inr (slice (incoming s) 0 n), s') ∧
      incoming s' = drop (Z.to_nat n) (incoming s) ∧ ∀ x, mem s' x = mem s x;
  sk_volatile a c s : 0 ≤ c → (∀ x, a ≤ x < a + c → ram x) →
    ∃ n s', read_volatile_from a c s = (inr n, s') ∧ 0 ≤ n ≤ c ∧ n ≤ zlen (incoming s) ∧
      (n = 0 → c = 0 ∨ incoming s = []) ∧
      incoming s' = drop (Z.to_nat n) (incoming s) ∧
      ∀ x, mem s' x = store (mem s) a (slice (incoming s) 0 n) x }.
End sink.

End code.

(** ** Encodings *)
Definition range_u64 (r : MemoryRange) : Prop := is_u64 (gpa r) ∧ is_u64 (length_ r).

Lemma slice_app_r {A} (l1 l2 : list A) off n :
  zlen l1 ≤ off → slice (l1 ++ l2) off n = slice l2 (off - zlen l1) n.
Proof.
  intros H. unfold slice, zlen in *. rewrite drop_app_ge by lia. repeat f_equal. lia.
Qed.

Lemma slice_full {A} (l : list A) n : zlen l = n → slice l 0 n = l.
Proof. intros H. rewrite <-(app_nil_r l) at 1. by apply slice_app_l. Qed.

Lemma slice_app_prefix {A} (l1 l2 : list A) off n :
  0 ≤ off → 0 ≤ n → off + n ≤ zlen l1 → slice (l1 ++ l2) off n = slice l1 off n.
Proof.
  intros Ho Hn H. unfold slice, zlen in *. rewrite drop_app_le by lia.
  rewrite take_app_le; [done|]. rewrite length_drop. lia.
Qed.

(** The three fields of an encoded header. *)
Lemma header_slices c (pad : list Z) n rest :
  zlen pad = 6 → 0 ≤ c < 256 ^ 2 → is_u64 n →
  let bs := (le_bytes 2 c ++ pad ++ le_bytes 8 n) ++ rest in
  of_le_bytes (slice bs 0 2) = c ∧ slice bs 2 6 = pad ∧ of_le_bytes (slice bs 8 8) = n.
Proof.
  intros Hp Hc Hn bs. unfold bs. rewrite <-!app_assoc.
  pose proof (zlen_le_bytes 2 c) as H2. pose proof (zlen_le_bytes 8 n) as H8.
  change (Z.of_nat 2) with 2 in H2. change (Z.of_nat 8) with 8 in H8.
  rewrite (slice_app_l (le_bytes 2 c)) by done.
  rewrite !(slice_app_r (le_bytes 2 c)) by lia. rewrite H2. change (2 - 2) with 0. change (8 - 2) with 6.
  rewrite (slice_app_l pad) by lia. rewrite (slice_app_r pad) by lia. rewrite Hp.
  change (6 - 6) with 0. rewrite (slice_app_l (le_bytes 8 n)) by done.
  rewrite !of_le_bytes_le_bytes by (unfold is_u64 in Hn; done). done.
Qed.

Lemma call_Ok {St : Stream} {A} (c : sst → (MigratableError + A) * sst) s a s' :
  call c s = (Ok a, s') → c s = (inr a, s').
Proof. unfold call. destruct (c s) as [[e|b] s1]; naive_solver. Qed.

Lemma request_of_bytes_ok r :
  zlen (req_padding r) = 6 → is_u64 (req_length r) → request_of_bytes (request_bytes r) = Some r.
Proof.
  intros Hp Hn. unfold request_of_bytes, request_bytes.
  rewrite <-(app_nil_r (le_bytes 2 _ ++ _)).
  destruct (header_slices (command_code (req_command r)) (req_padding r) (req_length r) []) as (-> & -> & ->);
    [done|destruct (req_command r); simpl; lia|done|].
  destruct r as [[] pad n]; done.
Qed.

Lemma response_of_bytes_ok r :
  zlen (resp_padding r) = 6 → is_u64 (resp_length r) → response_of_bytes (response_bytes r) = Some r.
Proof.
  intros Hp Hn. unfold response_of_bytes, response_bytes.
  rewrite <-(app_nil_r (le_bytes 2 _ ++ _)).
  destruct (header_slices (status_code (resp_status r)) (resp_padding r) (resp_length r) []) as (-> & -> & ->);
    [done|destruct (resp_status r); simpl; lia|done|].
  destruct r as [[] pad n]; done.
Qed.

Lemma zlen_request_bytes r : zlen (req_padding r) = 6 → zlen (request_bytes r) = 16.
Proof. intros H. unfold request_bytes. rewrite !zlen_app, !zlen_le_bytes. lia. Qed.

Lemma zlen_range_bytes r : zlen (range_bytes r) = 16.
Proof. unfold range_bytes. by rewrite zlen_app, !zlen_le_bytes. Qed.

Lemma zlen_table_bytes t : zlen (table_bytes t) = table_length t.
Proof.
  unfold table_bytes, table_length. induction t as [|r t IH]; [done|].
  rewrite fmap_cons. change (mjoin (range_bytes r :: (range_bytes <$> t)))
    with (range_bytes r ++ mjoin (range_bytes <$> t)).
  rewrite zlen_app, IH, zlen_range_bytes, zlen_cons. lia.
Qed.

Lemma table_of_bytes_ok t rest :
  Forall range_u64 t → table_of_bytes (length t) (table_bytes t ++ rest) = t.
Proof.
  induction 1 as [|r t [Hg Hl] Ht IH]; [done|].
  unfold table_bytes. rewrite fmap_cons. change (mjoin (range_bytes r :: (range_bytes <$> t)))
    with (range_bytes r ++ table_bytes t). rewrite <-app_assoc. cbn [length table_of_bytes].
  pose proof (zlen_le_bytes 8 (gpa r)) as Hz. change (Z.of_nat 8) with 8 in Hz.
  rewrite (slice_app_prefix (range_bytes r) _ 0 8) by (rewrite ?zlen_range_bytes; lia).
  rewrite (slice_app_prefix (range_bytes r) _ 8 8) by (rewrite ?zlen_range_bytes; lia).
  unfold range_bytes at 1 2. rewrite slice_app_l by done. rewrite slice_app_r by lia.
  rewrite Hz. rewrite slice_full by (rewrite zlen_le_bytes; done).
  rewrite !of_le_bytes_le_bytes by done.
  pose proof (zlen_range_bytes r) as H16. unfold zlen in H16.
  rewrite drop_app_length' by lia. rewrite IH. by destruct r.
Qed.

(** ** Memory as it is stored *)
Lemma store_app m a bs1 bs2 x :
  store (store m a bs1) (a + zlen bs1) bs2 x = store m a (bs1 ++ bs2) x.
Proof.
  unfold store. rewrite zlen_app. pose proof (zlen_nonneg bs1). pose proof (zlen_nonneg bs2).
  destruct (Z.leb_spec (a + zlen bs1) x), (Z.ltb_spec x (a + zlen bs1 + zlen bs2)),
    (Z.leb_spec a x), (Z.ltb_spec x (a + zlen bs1)), (Z.ltb_spec x (a + (zlen bs1 + zlen bs2)));
    simpl; try lia; try done; rewrite znth_app by lia;
    destruct (Z.ltb_spec (x - a) (zlen bs1)); try lia; try done; do 2 f_equal; lia.
Qed.

Lemma store_ext m m' a bs x : (∀ y, m y = m' y) → store m a bs x = store m' a bs x.
Proof. intros H. unfold store. by rewrite H. Qed.

(** The memory after the contents of a table have arrived, and the bytes left. *)
Fixpoint store_table (t : MemoryRangeTable) (cs : list Z) (m : Z → Z) : Z → Z :=
  match t with
  | [] => m
  | r :: t' => store_table t' (drop (Z.to_nat (length_ r)) cs) (store m (gpa r) (slice cs 0 (length_ r)))
  end.

Lemma store_table_ext t : ∀ cs m m' x, (∀ y, m y = m' y) → store_table t cs m x = store_table t cs m' x.
Proof.
  induction t as [|r t IH]; intros cs m m' x H; simpl; [apply H|]. apply IH. intros y. by apply store_ext.
Qed.

Lemma store_prefix m a cs rest n x :
  0 ≤ n ≤ zlen cs → store m a (slice (cs ++ rest) 0 n) x = store m a (slice cs 0 n) x.
Proof. intros H. by rewrite slice_app_prefix by lia. Qed.

(** Only the bytes the ranges ask for matter. *)
Lemma store_table_prefix t : ∀ cs rest m x,
  Forall (λ r, 0 ≤ length_ r) t → size_of t ≤ zlen cs →
  store_table t (cs ++ rest) m x = store_table t cs m x.
Proof.
  induction t as [|r t IH]; intros cs rest m x Hp Hs; simpl; [done|].
  apply Forall_cons in Hp as [Hr Hp]. cbn [size_of foldr] in Hs. fold (size_of t) in Hs.
  assert (0 ≤ size_of t) by (clear -Hp; induction Hp; simpl; lia).
  rewrite drop_app_le by (unfold zlen in Hs; lia). rewrite IH; [|done|].
  - apply store_table_ext. intros y. apply store_prefix. lia.
  - unfold zlen in *. rewrite length_drop. lia.
Qed.

Section receiver.
Context {St : Stream} {G : GuestIo} (mem : sst → Z → Z) (ram : Z → Prop) (incoming : sst → list Z).
Context {L : SinkLaws mem ram incoming}.

Definition in_ram (r : MemoryRange) : Prop := ∀ x, gpa r ≤ x < gpa r + length_ r → ram x.

Definition good_range (r : MemoryRange) : Prop :=
  0 ≤ gpa r ∧ 0 ≤ length_ r ∧ gpa r + length_ r < 2 ^ 64 ∧ in_ram r.

(** One read of the loop. *)
Lemma receive_range_step fuel r off s :
  good_range r → 0 ≤ off ≤ length_ r →
  ∃ n s1, 0 ≤ n ≤ length_ r - off ∧ n ≤ zlen (incoming s) ∧
    (n = 0 → length_ r = off ∨ incoming s = []) ∧ incoming s1 = drop (Z.to_nat n) (incoming s) ∧
    (∀ x, mem s1 x = store (mem s) (gpa r + off) (slice (incoming s) 0 n) x) ∧
    receive_range (S fuel) r off s =
      (if off + n =? length_ r then mret tt else receive_range fuel r (off + n)) s1.
Proof.
  intros (Hg & Hl & Htop & Hr) Ho.
  destruct (sk_volatile mem ram incoming (gpa r + off) (length_ r - off) s) as
    (n & s1 & Hv & Hn & Hle & Hz & Hi & Hm); [lia|intros x Hx; apply Hr; lia|].
  exists n, s1. do 3 (split; [done || naive_solver lia|]). split; [done|]. split; [done|].
  cbn [receive_range]. rewrite uadd_ok by (unfold is_u64; lia). rewrite usub_ok by (unfold is_u64; lia).
  erewrite m_bind_run by done. erewrite m_bind_run by done.
  erewrite m_bind_run by (unfold m_map_err, of_sum; by rewrite Hv).
  rewrite uadd_ok by (unfold is_u64; lia). by erewrite m_bind_run by done.
Qed.

Lemma zlen_drop {A} (l : list A) n : 0 ≤ n ≤ zlen l → zlen (drop (Z.to_nat n) l) = zlen l - n.
Proof. unfold zlen. rewrite length_drop. lia. Qed.

(** With the range's bytes on the way, the loop stores them or runs out of fuel. *)
Lemma receive_range_run fuel r : ∀ off s,
  good_range r → 0 ≤ off ≤ length_ r → length_ r - off ≤ zlen (incoming s) →
  ∃ s', (receive_range fuel r off s = (Hang, s') ∧ (fuel ≤ Z.to_nat (length_ r - off))%nat) ∨
    (receive_range fuel r off s = (Ok tt, s') ∧
     incoming s' = drop (Z.to_nat (length_ r - off)) (incoming s) ∧
     ∀ x, mem s' x = store (mem s) (gpa r + off) (slice (incoming s) 0 (length_ r - off)) x).
Proof.
  induction fuel as [|fuel IH]; intros off s Hr Ho Hin; [exists s; left; split; [done|lia]|].
  destruct (receive_range_step fuel r off s Hr Ho) as (n & s1 & Hn & Hle & Hz & Hi & Hm & ->).
  destruct (Z.eqb_spec (off + n) (length_ r)) as [He|He].
  - exists s1. right. split; [done|]. replace (length_ r - off) with n by lia. done.
  - destruct (IH (off + n) s1) as (s2 & Hs2); try done; try lia; [rewrite Hi, zlen_drop; lia|].
    assert (n ≠ 0).
    { intros ->. destruct (Hz eq_refl) as [?|Hnil]; [lia|]. rewrite Hnil in Hin.
      unfold zlen in Hin. simpl in Hin. lia. }
    exists s2. destruct Hs2 as [[-> ?]|(-> & Hi2 & Hm2)]; [left; split; [done|lia]|right].
    split; [done|]. rewrite Hi2, Hi, drop_drop. split; [f_equal; lia|].
    intros x. rewrite Hm2, (store_ext _ _ _ _ _ Hm), Hi.
    assert (zlen (slice (incoming s) 0 n) = n) as Hzn by (apply zlen_slice; lia).
    replace (gpa r + (off + n)) with (gpa r + off + zlen (slice (incoming s) 0 n)) by lia.
    rewrite store_app. f_equal. rewrite <-(slice_split (incoming s) 0 n (length_ r - off)) by lia.
    f_equal. unfold slice. rewrite drop_0. f_equal. lia.
Qed.

(** When the peer stops before the range is complete, the loop does not end. *)
Lemma receive_range_eof fuel r : ∀ off s,
  good_range r → 0 ≤ off ≤ length_ r → zlen (incoming s) < length_ r - off →
  ∃ s', receive_range fuel r off s = (Hang, s').
Proof.
  induction fuel as [|fuel IH]; intros off s Hr Ho Hin; [by exists s|].
  destruct (receive_range_step fuel r off s Hr Ho) as (n & s1 & Hn & Hle & Hz & Hi & Hm & ->).
  destruct (Z.eqb_spec (off + n) (length_ r)) as [He|He]; [lia|].
  apply IH; try done; [lia|]. rewrite Hi, zlen_drop; lia.
Qed.

Lemma size_good t : Forall good_range t → 0 ≤ size_of t.
Proof. induction 1 as [|r t (? & ? & ? & ?) ? IH]; simpl; lia. Qed.

(** The loop over the table. *)
Lemma receive_table_run fuel t : ∀ s,
  Forall good_range t → size_of t ≤ zlen (incoming s) →
  Forall (λ r, Z.to_nat (length_ r) < fuel)%nat t →
  ∃ s', for_ t (λ r, receive_range fuel r 0) s = (Ok tt, s') ∧
    incoming s' = drop (Z.to_nat (size_of t)) (incoming s) ∧
    ∀ x, mem s' x = store_table t (incoming s) (mem s) x.
Proof.
  induction t as [|r t IH]; intros s Hg Hs Hf; [exists s; done|].
  apply Forall_cons in Hg as [Hr Hg]. apply Forall_cons in Hf as [Hfr Hf].
  pose proof (size_good _ Hg). pose proof Hr as (? & ? & _). cbn [size_of foldr] in Hs.
  fold (size_of t) in Hs. cbn [for_].
  destruct (receive_range_run fuel r 0 s Hr) as (s1 & [[_ ?]|(E1 & Hi & Hm)]); [lia|lia|lia|].
  erewrite m_bind_run by done. rewrite Z.sub_0_r, Z.add_0_r in *.
  destruct (IH s1) as (s2 & -> & Hi2 & Hm2); [done|rewrite Hi, zlen_drop; lia|done|].
  exists s2. split; [done|]. rewrite Hi2, Hi, drop_drop. cbn [size_of foldr store_table].
  fold (size_of t). split; [f_equal; lia|]. intros x. rewrite Hm2, Hi. by apply store_table_ext.
Qed.

Lemma receive_table_eof fuel t : ∀ s,
  Forall good_range t → zlen (incoming s) < size_of t →
  ∃ s', for_ t (λ r, receive_range fuel r 0) s = (Hang, s').
Proof.
  induction t as [|r t IH]; intros s Hg Hs; [pose proof (zlen_nonneg (incoming s)); simpl in Hs; lia|].
  apply Forall_cons in Hg as [Hr Hg]. pose proof Hr as (? & ? & _).
  cbn [size_of foldr] in Hs. fold (size_of t) in Hs. cbn [for_]. unfold mbind, M_bind.
  destruct (decide (length_ r ≤ zlen (incoming s))) as [Hle|Hlt].
  - destruct (receive_range_run fuel r 0 s Hr) as (s1 & [[-> _]|(-> & Hi & _)]); [lia|lia|by exists s1|].
    apply IH; [done|]. rewrite Hi, zlen_drop; lia.
  - destruct (receive_range_eof fuel r 0 s Hr) as (s1 & ->); [lia|lia|by exists s1].
Qed.

Lemma request_read_ok r rest s :
  zlen (req_padding r) = 6 → is_u64 (req_length r) → incoming s = request_bytes r ++ rest →
  ∃ s', request_read_from s = (Ok r, s') ∧ incoming s' = rest ∧ ∀ x, mem s' x = mem s x.
Proof.
  intros Hp Hl Hi. pose proof (zlen_request_bytes r Hp) as H16. pose proof (zlen_nonneg rest).
  destruct (sk_read mem ram incoming 16 s) as (s1 & Hr & Hi1 & Hm1); [rewrite Hi, zlen_app; lia|].
  exists s1. split; [|split; [|done]].
  - unfold request_read_from. erewrite m_bind_run by (unfold sock, m_map_err, of_sum; by rewrite Hr).
    rewrite Hi, slice_app_l, request_of_bytes_ok by done. done.
  - rewrite Hi1, Hi, <-H16. apply drop_zlen_app.
Qed.

(** Reading the table in front of the contents. *)
Lemma table_read_ok t rest s :
  Forall good_range t → incoming s = table_bytes t ++ rest →
  ∃ s', table_read_from (table_length t) s = (Ok t, s') ∧ incoming s' = rest ∧ ∀ x, mem s' x = mem s x.
Proof.
  intros Hg Hi. pose proof (zlen_table_bytes t) as Hl. pose proof (zlen_nonneg rest).
  destruct (sk_read mem ram incoming (table_length t) s) as (s1 & Hr & Hi1 & Hm1).
  { rewrite Hi, zlen_app, Hl. unfold table_length. pose proof (zlen_nonneg t). lia. }
  exists s1. split; [|split; [|done]].
  - unfold table_read_from. assert (table_length t `mod` 16 =? 0 = true) as ->.
    { unfold table_length. rewrite Z.mul_comm, Z.mod_mul by lia. done. }
    erewrite m_bind_run by done. erewrite m_bind_run by (unfold sock, m_map_err, of_sum; by rewrite Hr).
    rewrite Hi, slice_app_l by done. unfold mret, M_ret. f_equal. f_equal.
    unfold table_length. rewrite (Z.mul_comm 16), Z.div_mul by lia. unfold zlen. rewrite Nat2Z.id.
    rewrite <-(app_nil_r (table_bytes t)). apply table_of_bytes_ok.
    eapply Forall_impl; [done|]. intros r (? & ? & ? & _). unfold range_u64, is_u64. lia.
  - rewrite Hi1, Hi, <-Hl. apply drop_zlen_app.
Qed.

Lemma receive_memory_ranges_run fuel t cs s :
  Forall good_range t → incoming s = table_bytes t ++ cs →
  ∃ s1, incoming s1 = cs ∧ (∀ x, mem s1 x = mem s x) ∧
    receive_memory_ranges fuel (request_new Memory (table_length t)) s =
      for_ t (λ r, receive_range fuel r 0) s1.
Proof.
  intros Hg Hi. destruct (table_read_ok t cs s Hg Hi) as (s1 & E1 & Hi1 & Hm1).
  exists s1. split; [done|]. split; [done|]. unfold receive_memory_ranges.
  erewrite m_bind_run by done. by erewrite m_bind_run by done.
Qed.

(** A table followed by the contents of its ranges is received completely, and what
    follows on the connection is left there. *)
Lemma receive_memory_ranges_ok fuel t cs rest s :
  Forall good_range t → zlen cs = size_of t → incoming s = table_bytes t ++ cs ++ rest →
  Forall (λ r, Z.to_nat (length_ r) < fuel)%nat t →
  ∃ s', receive_memory_ranges fuel (request_new Memory (table_length t)) s = (Ok tt, s') ∧
    incoming s' = rest ∧ ∀ x, mem s' x = store_table t cs (mem s) x.
Proof.
  intros Hg Hs Hi Hf.
  destruct (receive_memory_ranges_run fuel t (cs ++ rest) s Hg Hi) as (s1 & Hi1 & Hm1 & ->).
  destruct (receive_table_run fuel t s1) as (s2 & -> & Hi2 & Hm2); [done| |done|].
  { rewrite Hi1, zlen_app, Hs. pose proof (zlen_nonneg rest). lia. }
  exists s2. split; [done|]. split; [by rewrite Hi2, Hi1, <-Hs, drop_zlen_app|].
  intros x. rewrite Hm2, Hi1, store_table_prefix; [by apply store_table_ext| |lia].
  eapply Forall_impl; [exact Hg|]. by intros r (_ & ? & _).
Qed.

(** Receive_memory_ranges at the end of the connection.  If the peer closes the
    connection before all contents have arrived, the receiver loops for ever:
    [read_volatile_from] then returns [Ok(0)], which the retry loop does not
    distinguish from progress. *)
Theorem receive_memory_ranges_eof fuel t cs s :
  Forall good_range t → zlen cs < size_of t → incoming s = table_bytes t ++ cs →
  ∃ s', receive_memory_ranges fuel (request_new Memory (table_length t)) s = (Hang, s').
Proof.
  intros Hg Hs Hi. destruct (receive_memory_ranges_run fuel t cs s Hg Hi) as (s1 & Hi1 & _ & ->).
  apply receive_table_eof; [done|]. by rewrite Hi1.
Qed.

End receiver.

(** ** The sender's side of a transfer *)

(** The bytes of a memory message with the contents [cs]. *)
Definition memory_message (t : MemoryRangeTable) (cs : list Z) : list Z :=
  request_bytes (request_new Memory (table_length t)) ++ table_bytes t ++ cs.

Definition covered (t : MemoryRangeTable) (x : Z) : Prop := ∃ r, r ∈ t ∧ gpa r ≤ x < gpa r + length_ r.

Lemma store_table_uncovered t : ∀ cs m x,
  Forall (λ r, 0 ≤ length_ r) t → size_of t ≤ zlen cs → ¬ covered t x → store_table t cs m x = m x.
Proof.
  induction t as [|r t IH]; intros cs m x Hp Hs Hn; simpl; [done|].
  apply Forall_cons in Hp as [Hr Hp]. cbn [size_of foldr] in Hs. fold (size_of t) in Hs.
  assert (0 ≤ size_of t) by (clear -Hp; induction Hp; simpl; lia).
  rewrite IH; [|done|unfold zlen in *; rewrite length_drop; lia|].
  - unfold store. rewrite zlen_slice by lia.
    destruct (Z.leb_spec (gpa r) x), (Z.ltb_spec x (gpa r + length_ r)); simpl; try done.
    destruct Hn. exists r. split; [by left|lia].
  - intros (r' & Hr' & Hx). apply Hn. exists r'. split; [by right|done].
Qed.

Section sender.
Context {St : Stream} {G : GuestIo}.
Context {Log : Type} (src : sst → Z → Z) (dirty : Log → sst → Z → Prop) (paused : sst → Prop).
Context (sent : sst → list Z).
Context {L : SourceLaws src dirty paused sent}.
Local Notation ran := (ran src dirty paused).

Lemma ran_refl s : ran s s.
Proof. split; auto. Qed.

Lemma ran_trans s1 s2 s3 : ran s1 s2 → ran s2 s3 → ran s1 s3.
Proof.
  intros [H1 H2 H3] [G1 G2 G3]. split.
  - intros x. destruct (G1 x) as [->|?]; [|by right]. destruct (H1 x) as [->|[l ?]]; [by left|].
    right. exists l. auto.
  - auto.
  - intros [Hp Hs]%H3. apply G3 in Hp as [Hp Hs']. split; [done|]. intros x. by rewrite Hs', Hs.
Qed.

(** Every byte was the guest's at some moment between [s] and [s']. *)
Definition captured (s s' : sst) (a : Z) (bs : list Z) : Prop :=
  ∀ i, 0 ≤ i < zlen bs → ∃ s1, ran s s1 ∧ ran s1 s' ∧ znth bs i = Some (src s1 (a + i)).

Lemma captured_weaken s0 s s' s1 a bs : ran s0 s → ran s' s1 → captured s s' a bs → captured s0 s1 a bs.
Proof.
  intros H0 H1 Hc i Hi. destruct (Hc i Hi) as (s2 & ? & ? & ?).
  exists s2. split; [by eapply ran_trans|]. split; [by eapply ran_trans|done].
Qed.

Lemma captured_app s s1 s2 a bs1 bs2 :
  ran s s1 → ran s1 s2 → captured s s1 a bs1 → captured s1 s2 (a + zlen bs1) bs2 → captured s s2 a (bs1 ++ bs2).
Proof.
  intros R1 R2 H1 H2 i Hi. rewrite zlen_app in Hi. rewrite znth_app by lia.
  destruct (Z.ltb_spec i (zlen bs1)).
  - apply (captured_weaken s s s1 s2) in H1; [|apply ran_refl|done]. apply H1. lia.
  - apply (captured_weaken s s1 s2 s2) in H2; [|done|apply ran_refl].
    destruct (H2 (i - zlen bs1)) as (s3 & ? & ? & Hz); [lia|].
    exists s3. split; [done|]. split; [done|]. rewrite Hz. do 2 f_equal. lia.
Qed.

Fixpoint captured_table (s s' : sst) (t : MemoryRangeTable) (cs : list Z) : Prop :=
  match t with
  | [] => cs = []
  | r :: t' => ∃ bs cs', cs = bs ++ cs' ∧ zlen bs = length_ r ∧ captured s s' (gpa r) bs ∧ captured_table s s' t' cs'
  end.

Lemma captured_table_weaken s0 s s' s1 t : ∀ cs,
  ran s0 s → ran s' s1 → captured_table s s' t cs → captured_table s0 s1 t cs.
Proof.
  induction t as [|r t IH]; intros cs H0 H1; simpl; [done|].
  intros (bs & cs' & -> & Hz & Hc & Ht). exists bs, cs'. split; [done|]. split; [done|].
  split; [by eapply captured_weaken|by apply IH].
Qed.

Lemma captured_table_size s s' t : ∀ cs, captured_table s s' t cs → zlen cs = size_of t.
Proof.
  induction t as [|r t IH]; intros cs; simpl; [by intros ->|].
  intros (bs & cs' & -> & Hz & _ & Ht). rewrite zlen_app, Hz. f_equal. by apply IH.
Qed.

(** What the receiver of the contents stores at a covered address was in the
    guest's memory at some moment of the transfer. *)
Lemma captured_table_store s s' t : ∀ cs m x,
  Forall (λ r, 0 ≤ length_ r) t → captured_table s s' t cs → covered t x →
  ∃ s1, ran s s1 ∧ ran s1 s' ∧ store_table t cs m x = src s1 x.
Proof.
  induction t as [|r t IH]; intros cs m x Hp Hc (r' & Hr' & Hx); [by apply elem_of_nil in Hr'|].
  apply Forall_cons in Hp as [Hr Hp]. destruct Hc as (bs & cs' & -> & Hz & Hc & Ht). simpl.
  rewrite <-Hz, drop_zlen_app, slice_app_l by done.
  destruct (decide (Exists (λ q, gpa q ≤ x < gpa q + length_ q) t)) as [Hin|Hin].
  - apply IH; [done|done|]. apply Exists_exists in Hin as (q & ? & ?). by exists q.
  - rewrite store_table_uncovered; [|done|by erewrite captured_table_size|].
    + apply elem_of_cons in Hr' as [->|Hr']; [|destruct Hin; apply Exists_exists; by exists r'].
      destruct (Hc (x - gpa r)) as (s1 & ? & ? & Hv); [lia|]. exists s1. split; [done|]. split; [done|].
      unfold store. rewrite Hz. destruct (Z.leb_spec (gpa r) x), (Z.ltb_spec x (gpa r + length_ r)); try lia.
      simpl. rewrite Hv. simpl. f_equal. lia.
    + intros (q & ? & ?). apply Hin, Exists_exists. by exists q.
Qed.

Definition sendable (r : MemoryRange) : Prop := 0 ≤ gpa r ∧ 0 ≤ length_ r ∧ gpa r + length_ r < 2 ^ 64.

Lemma send_range_run fuel r : ∀ off s,
  sendable r → 0 ≤ off ≤ length_ r →
  ∃ o s', send_range fuel r off s = (o, s') ∧ ran s s' ∧
    ((o = Ok tt ∧ ∃ bs, zlen bs = length_ r - off ∧ sent s' = sent s ++ bs ∧ captured s s' (gpa r + off) bs)
     ∨ (∃ e, o = Err e) ∨ (o = Hang ∧ (fuel ≤ Z.to_nat (length_ r - off))%nat)).
Proof.
  induction fuel as [|fuel IH]; intros off s Hr Ho.
  { eexists _, _. split; [done|]. split; [apply ran_refl|]. right. right. split; [done|lia]. }
  pose proof Hr as (Hg & Hl & Htop).
  cbn [send_range]. rewrite uadd_ok by (unfold is_u64; lia). rewrite usub_ok by (unfold is_u64; lia).
  erewrite m_bind_run by done. erewrite m_bind_run by done.
  destruct (write_volatile_to (gpa r + off) (length_ r - off) s) as [[e|n] s1] eqn:Hw;
    pose proof (sl_volatile _ _ _ _ _ _ _ _ _ Hw) as [R1 Hv].
  { erewrite m_bind_err by (unfold m_map_err, of_sum; by rewrite Hw). eexists _, _. split; [done|]. eauto 10. }
  destruct (Hv n eq_refl) as (Hn & Hz & bs & Hb & Hs & Hc). subst n.
  erewrite m_bind_run by (unfold m_map_err, of_sum; by rewrite Hw).
  rewrite uadd_ok by (unfold is_u64; lia). erewrite m_bind_run by done.
  destruct (Z.eqb_spec (off + zlen bs) (length_ r)) as [He|He].
  - eexists _, _. split; [done|]. split; [done|]. left. split; [done|]. exists bs. split; [lia|]. done.
  - destruct (IH (off + zlen bs) s1 Hr) as (o & s2 & -> & R2 & Ho2); [lia|].
    eexists _, _. split; [done|]. split; [by eapply ran_trans|].
    destruct Ho2 as [(-> & bs2 & Hb2 & Hs2 & Hc2)|[[e ->]|[-> ?]]]; [left|eauto|naive_solver lia].
    split; [done|]. exists (bs ++ bs2). rewrite zlen_app, Hs2, Hs, <-app_assoc. split; [lia|].
    split; [done|]. eapply captured_app; try done. by rewrite <-Z.add_assoc.
Qed.

Lemma send_ranges_run fuel t : ∀ s,
  Forall sendable t →
  ∃ o s', for_ t (λ r, send_range fuel r 0) s = (o, s') ∧ ran s s' ∧
    ((o = Ok tt ∧ ∃ cs, sent s' = sent s ++ cs ∧ captured_table s s' t cs) ∨ (∃ e, o = Err e) ∨
     (o = Hang ∧ ¬ Forall (λ r, Z.to_nat (length_ r) < fuel)%nat t)).
Proof.
  induction t as [|r t IH]; intros s Hg.
  { exists (Ok tt), s. split; [done|]. split; [apply ran_refl|]. left. split; [done|].
    exists []. by rewrite app_nil_r. }
  apply Forall_cons in Hg as [Hr Hg]. cbn [for_]. pose proof Hr as (_ & Hl & _).
  destruct (send_range_run fuel r 0 s Hr) as (o & s1 & E1 & R1 & Ho); [lia|].
  destruct Ho as [(-> & bs & Hb & Hs & Hc)|[[e ->]|[-> Hf]]].
  2: { erewrite m_bind_err by done. eauto 10. }
  2: { unfold mbind, M_bind. rewrite E1. eexists _, _. split; [done|]. split; [done|]. right. right.
       split; [done|]. intros [? _]%Forall_cons. lia. }
  erewrite m_bind_run by done. rewrite Z.add_0_r, Z.sub_0_r in *.
  destruct (IH s1 Hg) as (o2 & s2 & -> & R2 & Ho2). eexists _, _. split; [done|].
  split; [by eapply ran_trans|]. destruct Ho2 as [(-> & cs & Hs2 & Hc2)|[[e ->]|[-> Hf]]]; [left|eauto|].
  2: { right. right. split; [done|]. by intros [_ ?]%Forall_cons. }
  split; [done|]. exists (bs ++ cs). split; [by rewrite Hs2, Hs, app_assoc|].
  exists bs, cs. split; [done|]. split; [done|]. split.
  - eapply captured_weaken, Hc; [apply ran_refl|done].
  - eapply captured_table_weaken, Hc2; [done|apply ran_refl].
Qed.

(** A socket call that is not a transfer of guest memory. *)
Lemma write_run bs s :
  ∃ o s', sock (s_write_all bs) s = (o, s') ∧ ran s s' ∧
    ((o = Ok tt ∧ sent s' = sent s ++ bs) ∨ ∃ e, o = Err e).
Proof.
  destruct (s_write_all bs s) as [[e|[]] s1] eqn:Hw; pose proof (sl_write _ _ _ _ _ _ _ _ Hw) as [R1 Hs];
    (eexists _, _; split; [unfold sock, m_map_err, of_sum; by rewrite Hw|]; split; [done|]); eauto.
Qed.

Lemma response_read_run s :
  ∃ o s', response_read_from s = (o, s') ∧ ran s s' ∧ sent s' = sent s ∧ o ≠ Hang.
Proof.
  unfold response_read_from, sock, of_sum, m_map_err, mbind, M_bind.
  destruct (s_read_exact 16 s) as [[e|bs] s1] eqn:Hr; pose proof (sl_read _ _ _ _ _ _ _ _ Hr) as (R1 & Hs & _).
  - by eexists _, _.
  - eexists _, _. split; [done|]. split; [done|]. split; [done|]. by destruct (response_of_bytes bs).
Qed.

Lemma expect_ok_run error s :
  ∃ o s', expect_ok_response error s = (o, s') ∧ ran s s' ∧ (o = Ok tt → sent s' = sent s) ∧ o ≠ Hang.
Proof.
  unfold expect_ok_response. destruct (response_read_run s) as (o & s1 & E1 & R1 & Hs1 & Ho).
  unfold mbind at 1, M_bind at 1. rewrite E1. destruct o as [r|e| |]; [|by eexists _, _..|done].
  unfold ok_or_abandon. case_bool_decide; [|by eexists _, _].
  destruct (write_run (request_bytes (request_new Abandon 0)) s1) as (o & s2 & E2 & R2 & Ho2).
  unfold mbind, M_bind, request_write_to. rewrite E2.
  destruct Ho2 as [[-> Hs2]|[e ->]].
  2: { eexists _, _. split; [done|]. split; [by eapply ran_trans|done]. }
  destruct (response_read_run s2) as (o & s3 & E3 & R3 & Hs3 & Ho3). rewrite E3.
  assert (ran s s3) by (eapply ran_trans, R3; by eapply ran_trans).
  destruct o; try done; by eexists _, _.
Qed.

Lemma send_memory_ranges_run fuel t s :
  Forall sendable t →
  ∃ o s', send_memory_ranges fuel t s = (o, s') ∧ ran s s' ∧
    (o = Hang → ¬ Forall (λ r, Z.to_nat (length_ r) < fuel)%nat t) ∧
    (o = Ok tt → (t = [] ∧ sent s' = sent s) ∨
       t ≠ [] ∧ ∃ cs, sent s' = sent s ++ memory_message t cs ∧ captured_table s s' t cs).
Proof.
  intros Hg. unfold send_memory_ranges. case_bool_decide as Hnil.
  { exists (Ok tt), s. split; [done|]. split; [apply ran_refl|]. split; [done|]. eauto. }
  destruct (write_run (request_bytes (request_new Memory (table_length t))) s) as (o & s1 & E1 & R1 & H1).
  unfold request_write_to, table_write_to. destruct H1 as [[-> H1]|[e ->]].
  2: { erewrite m_bind_err by done. by eexists _, _. }
  erewrite m_bind_run by done.
  destruct (write_run (table_bytes t) s1) as (o & s2 & E2 & R2 & H2).
  assert (ran s s2) as R02 by by eapply ran_trans. destruct H2 as [[-> H2]|[e ->]].
  2: { erewrite m_bind_err by done. by eexists _, _. }
  erewrite m_bind_run by done.
  destruct (send_ranges_run fuel t s2 Hg) as (o & s3 & E3 & R3 & H3).
  assert (ran s s3) as R03 by by eapply ran_trans. destruct H3 as [(-> & cs & H3 & Hc)|[[e ->]|[-> ?]]].
  2: { erewrite m_bind_err by done. by eexists _, _. }
  2: { unfold mbind, M_bind. rewrite E3. by eexists _, _. }
  erewrite m_bind_run by done.
  destruct (expect_ok_run (MigrateSend "Error during dirty memory migration") s3) as (o & s4 & E4 & R4 & H4 & Ho).
  exists o, s4. split; [done|]. split; [by eapply ran_trans|]. split; [done|]. intros Hok. right.
  split; [done|]. exists cs. split.
  - rewrite (H4 Hok), H3, H2, H1. unfold memory_message. by rewrite !app_assoc.
  - by eapply captured_table_weaken, Hc.
Qed.

End sender.

(** ** Properties *)

(** The encodings.  A request, a response and a table of ranges are read back
    from their bytes as they were written; the header's command is a value of the
    enumeration exactly for the eight known codes, so other bytes of a peer do not
    denote a [Request] at all. *)
Theorem wire_roundtrip req resp t bs :
  zlen (req_padding req) = 6 → is_u64 (req_length req) →
  zlen (resp_padding resp) = 6 → is_u64 (resp_length resp) → Forall range_u64 t →
  request_of_bytes (request_bytes req) = Some req ∧
  response_of_bytes (response_bytes resp) = Some resp ∧
  zlen (table_bytes t) = table_length t ∧ table_of_bytes (length t) (table_bytes t) = t ∧
  (is_Some (request_of_bytes bs) ↔ 0 ≤ of_le_bytes (slice bs 0 2) ≤ 7).
Proof.
  intros H1 H2 H3 H4 Ht. split; [by apply request_of_bytes_ok|]. split; [by apply response_of_bytes_ok|].
  split; [apply zlen_table_bytes|]. split.
  - rewrite <-(app_nil_r (table_bytes t)). by apply table_of_bytes_ok.
  - unfold request_of_bytes, command_of_code. generalize (of_le_bytes (slice bs 0 2)). intros c.
    split.
    + intros [r Hr]. zcases; subst; try lia. done.
    + intros Hc. assert (c = 0 ∨ c = 1 ∨ c = 2 ∨ c = 3 ∨ c = 4 ∨ c = 5 ∨ c = 6 ∨ c = 7) as Hd by lia.
      destruct_or! Hd; subst c; by eexists.
Qed.

Lemma wire_roundtrip_witness :
  request_of_bytes (request_bytes (request_new Memory 32)) = Some (request_new Memory 32) ∧
  response_of_bytes (response_bytes response_ok) = Some response_ok ∧
  zlen (table_bytes [{| gpa := 4096; length_ := 8192 |}]) = 16 ∧
  table_of_bytes 1 (table_bytes [{| gpa := 4096; length_ := 8192 |}]) = [{| gpa := 4096; length_ := 8192 |}] ∧
  (is_Some (request_of_bytes (zreplicate 16 9)) ↔ 0 ≤ 9 + 256 * 9 ≤ 7).
Proof.
  apply (wire_roundtrip (request_new Memory 32) response_ok [{| gpa := 4096; length_ := 8192 |}] (zreplicate 16 9));
    try done; repeat constructor; unfold is_u64; simpl; lia.
Defined.

(** A transfer of memory.  If the sender completes [send_memory_ranges] while
    the guest runs and the socket takes the bytes in pieces of any size, then what
    it has put on the socket is one message from which the receiver, again in
    pieces of any size, restores exactly the ranges: every byte of them is the
    guest's byte at some moment during the transfer, and no other byte of the
    receiver's memory changes. *)
Theorem memory_transfer {St1 : Stream} {G1 : GuestIo} {Log : Type} (src : @sst St1 → Z → Z)
    (dirty : Log → @sst St1 → Z → Prop) paused sent {L1 : SourceLaws src dirty paused sent}
    {St2 : Stream} {G2 : GuestIo} (mem : @sst St2 → Z → Z) ram incoming {L2 : SinkLaws mem ram incoming}
    fuel t s s' q rest :
  t ≠ [] → Forall sendable t → Forall (in_ram ram) t → is_u64 (table_length t) →
  Forall (λ r, Z.to_nat (length_ r) < fuel)%nat t →
  send_memory_ranges fuel t s = (Ok tt, s') → sent s' ++ rest = sent s ++ incoming q →
  ∃ req q1 q2, request_read_from q = (Ok req, q1) ∧ receive_memory_ranges fuel req q1 = (Ok tt, q2) ∧
    incoming q2 = rest ∧
    ∀ x, (covered t x → ∃ m, ran src dirty paused s m ∧ ran src dirty paused m s' ∧ mem q2 x = src m x) ∧
         (¬ covered t x → mem q2 x = mem q x).
Proof.
  intros Hne Hs Hram Hu Hf Hrun Hq.
  destruct (send_memory_ranges_run src dirty paused sent fuel t s Hs) as (o & s1 & E & R & _ & Ho).
  rewrite Hrun in E. injection E as <- <-. destruct (Ho eq_refl) as [[-> _]|(_ & cs & Hcs & Hcap)]; [done|].
  rewrite Hcs, <-app_assoc in Hq. apply app_inv_head in Hq. unfold memory_message in Hq.
  assert (Forall (λ r, 0 ≤ length_ r) t) as Hp by (eapply Forall_impl; [exact Hs|]; by intros r (? & ? & ?)).
  destruct (request_read_ok mem ram incoming (request_new Memory (table_length t)) (table_bytes t ++ cs ++ rest) q)
    as (q1 & E1 & Hi1 & Hm1); [done|done|by rewrite <-Hq, <-!app_assoc|].
  pose proof (captured_table_size _ _ _ _ _ _ _ Hcap) as Hz.
  destruct (receive_memory_ranges_ok mem ram incoming fuel t cs rest q1) as (q2 & E2 & Hi2 & Hm2); try done.
  { apply Forall_forall. intros r Hr. eapply Forall_forall in Hs as (? & ? & ?); [|done].
    eapply Forall_forall in Hram; [|done]. done. }
  exists (request_new Memory (table_length t)), q1, q2. split; [done|]. split; [done|]. split; [done|].
  intros x. rewrite Hm2. split.
  - intros Hx. apply (captured_table_store src dirty paused s s'); done.
  - intros Hx. rewrite store_table_uncovered by (done || lia). apply Hm1.
Qed.

End MigrationWire.
