(* ===== verification/Precopy.v ===== *)
(** * Precopy memory migration

    Model of the sender's memory migration: [MemoryManager::memory_range_table],
    [start_dirty_log] and [dirty_log] in [cloud-hypervisor/vmm/src/memory_manager.rs],
    the same operations of [Vm] in [vmm/src/vm.rs], the metrics
    [MemoryMigrationContext] of [vm-migration/src/context.rs], and
    [do_memory_iterations], [is_precopy_converged] and [do_memory_migration] in
    [vmm/src/lib.rs].  The hypervisor's dirty log, the bitmaps of [vm-memory], the
    devices, pausing and the clock are the class [MigrationVm], with the laws
    [VmLaws]; sending a table is used through the interface [MemSend], which the
    single-connection [send_memory] discharges. *)

From Stdlib Require Import SpecFloat.
From S2P Require Import Prelude FloatTime Bitmap Kernel RestoreSource MemoryRanges MigrationWire.
Import RestoreSource MemoryRanges MigrationWire.

Module Precopy.

(** ** Guest memory *)
Record GuestRegion := {
  start_addr : Z; region_len : Z; has_file_offset : bool; map_shared : bool; is_hardlink : bool }.
Record MemoryZone := { regions : list GuestRegion; plugged_ranges : option MemoryRangeTable }.
Record GuestRamMapping := { slot : Z; m_gpa : Z; m_size : Z }.

Definition zone_table (snapshot : bool) (z : MemoryZone) : MemoryRangeTable :=
  default [] (plugged_ranges z) ++
  ((λ r, {| gpa := start_addr r; length_ := region_len r |}) <$>
     filter (λ r, negb (snapshot && has_file_offset r && map_shared r && is_hardlink r) = true) (regions z)).

Definition memory_range_table (snapshot : bool) (zones : list MemoryZone) : MemoryRangeTable :=
  mjoin (zone_table snapshot <$> zones).

(** ** The machine *)
Class MigrationVm {St : Stream} := {
  hv_start_dirty_log : sst → (io_error + unit) * sst;
  hv_get_dirty_log : Z → Z → Z → sst → (io_error + list Z) * sst;
  bitmap_reset : sst → sst;
  bitmap_get_and_reset : Z → sst → list Z * sst;
  find_region : Z → option (Z * Z);
  devices_start_dirty_log : sst → (MigratableError + unit) * sst;
  devices_dirty_log : sst → (MigratableError + MemoryRangeTable) * sst;
  pause : sst → (MigratableError + unit) * sst;
  now : sst → Z * sst }.

(** ** Metrics *)
Record MemoryMigrationContext := {
  iteration : Z; total_sent_bytes : Z; current_iteration_total_bytes : Z;
  bandwidth_bytes_per_second : spec_float; estimated_downtime : option Z;
  migration_begin : Z; migration_duration : option Z;
  iteration_begin : Z; iteration_duration : option Z;
  transfer_begin : Z; transfer_duration : option Z }.

Definition calculate_bandwidth (bytes duration : Z) : spec_float :=
  if duration =? 0 then f64_zero else f64_div (f64_of_Z bytes) (as_secs_f64 duration).

Definition update_metrics_before_transfer {E} (c : MemoryMigrationContext) (begin : Z) (t : MemoryRangeTable)
    : res E MemoryMigrationContext :=
  bytes ← effective_size t;
  est ← (if bytes =? 0 then Ok (Some 0)
         else if SFeqb (bandwidth_bytes_per_second c) f64_zero then Ok None
         else d ← from_secs_f64 (f64_div (f64_of_Z bytes) (bandwidth_bytes_per_second c)); Ok (Some d));
  Ok {| iteration := iteration c; total_sent_bytes := total_sent_bytes c;
        current_iteration_total_bytes := bytes; bandwidth_bytes_per_second := bandwidth_bytes_per_second c;
        estimated_downtime := est; migration_begin := migration_begin c;
        migration_duration := migration_duration c; iteration_begin := begin;
        iteration_duration := iteration_duration c; transfer_begin := transfer_begin c;
        transfer_duration := transfer_duration c |}.

(** [time] is the clock when the iteration's duration is taken. *)
Definition update_metrics_after_transfer {E} (c : MemoryMigrationContext) (begin duration time : Z)
    : res E MemoryMigrationContext :=
  total ← uadd (total_sent_bytes c) (current_iteration_total_bytes c);
  let iter := duration_since time (iteration_begin c) in
  _ ← assert (duration <=? iter);
  Ok {| iteration := iteration c; total_sent_bytes := total;
        current_iteration_total_bytes := current_iteration_total_bytes c;
        bandwidth_bytes_per_second := calculate_bandwidth (current_iteration_total_bytes c) duration;
        estimated_downtime := estimated_downtime c; migration_begin := migration_begin c;
        migration_duration := migration_duration c; iteration_begin := iteration_begin c;
        iteration_duration := Some iter; transfer_begin := begin; transfer_duration := Some duration |}.

Definition next_iteration {E} (c : MemoryMigrationContext) : res E MemoryMigrationContext :=
  n ← uadd (iteration c) 1;
  Ok {| iteration := n; total_sent_bytes := total_sent_bytes c;
        current_iteration_total_bytes := current_iteration_total_bytes c;
        bandwidth_bytes_per_second := bandwidth_bytes_per_second c;
        estimated_downtime := estimated_downtime c; migration_begin := migration_begin c;
        migration_duration := migration_duration c; iteration_begin := iteration_begin c;
        iteration_duration := iteration_duration c; transfer_begin := transfer_begin c;
        transfer_duration := transfer_duration c |}.

Definition finalize_memory (c : MemoryMigrationContext) (time : Z) : MemoryMigrationContext :=
  {| iteration := iteration c; total_sent_bytes := total_sent_bytes c;
     current_iteration_total_bytes := current_iteration_total_bytes c;
     bandwidth_bytes_per_second := bandwidth_bytes_per_second c;
     estimated_downtime := estimated_downtime c; migration_begin := migration_begin c;
     migration_duration := Some (duration_since time (migration_begin c));
     iteration_begin := iteration_begin c; iteration_duration := iteration_duration c;
     transfer_begin := transfer_begin c; transfer_duration := transfer_duration c |}.

(** The migration as a whole. *)
Inductive MigrationContextError :=
| MemoryContextNotFinalized
| InvalidVmPausedTransition
| InvalidFinalizeTransition.

Inductive OngoingMigrationContext :=
| Begin (migration_begin : Z)
| VmPaused (migration_begin downtime_begin : Z) (finalized : MemoryMigrationContext).

Definition set_vm_paused (ctx : OngoingMigrationContext) (downtime_begin : Z) (mem_ctx : MemoryMigrationContext)
    : res MigrationContextError OngoingMigrationContext :=
  match migration_duration mem_ctx with
  | None => Err MemoryContextNotFinalized
  | Some _ =>
      match ctx with
      | Begin b => Ok (VmPaused b downtime_begin mem_ctx)
      | VmPaused _ _ _ => Err InvalidVmPausedTransition
      end
  end.

(** The whole migration, when the receiver has acknowledged it. *)
Record CompletedMigrationContext := {
  migration_dur : Z; effective_downtime : Z; final_memory_iteration_dur : Z; state_dur : Z;
  send_state_dur : Z; complete_dur : Z; memory_ctx : MemoryMigrationContext }.

(** [time1] and [time2] are the clock when the two durations are taken. *)
Definition finalize (ctx : OngoingMigrationContext) (state send_state complete time1 time2 : Z)
    : res MigrationContextError CompletedMigrationContext :=
  match ctx with
  | VmPaused migration_begin downtime_begin mem_ctx =>
      Ok {| migration_dur := duration_since time1 migration_begin;
            effective_downtime := duration_since time2 downtime_begin;
            final_memory_iteration_dur := default 0 (iteration_duration mem_ctx);
            state_dur := state; send_state_dur := send_state; complete_dur := complete;
            memory_ctx := mem_ctx |}
  | Begin _ => Err InvalidFinalizeTransition
  end.

Inductive TimeoutStrategy := Cancel | Ignore.
Record VmSendMigrationData := {
  destination_url : list Z; local : bool; downtime_ms : Z; timeout_s : Z;
  timeout_strategy : TimeoutStrategy; connections : Z }.
Definition downtime (d : VmSendMigrationData) : Z := downtime_ms d * 10 ^ 6.
Definition timeout (d : VmSendMigrationData) : Z := timeout_s d * 10 ^ 9.

(** ** The sender's code *)
Section code.
Context {St : Stream} {V : MigrationVm} {I : Itertools}.
Context (zones : list MemoryZone) (guest_ram_mappings : list GuestRamMapping).

Definition ext {A} (msg : string) (call : sst → (io_error + A) * sst) : M sst MigratableError A :=
  m_map_err (λ _, MigrateSend msg) (of_sum call).
Definition clock : M sst MigratableError Z := λ s, let '(t, s') := now s in (Ok t, s').

Definition mm_start_dirty_log : M sst MigratableError unit :=
  _ ← ext "Error starting VM dirty log" hv_start_dirty_log;
  modify bitmap_reset.

Definition get_and_reset (a : Z) : M sst MigratableError (list Z) := λ s,
  let '(b, s') := bitmap_get_and_reset a s in (Ok b, s').

(** The VMM's bitmap of one mapping. *)
Definition vmm_bitmap (r : GuestRamMapping) : M sst MigratableError (list Z) :=
  match find_region (m_gpa r) with
  | Some (start, len) =>
      _ ← lift (assert (start =? m_gpa r));
      _ ← lift (assert (len =? m_size r));
      get_and_reset (m_gpa r)
  | None => fail (MigrateSend "Error finding 'guest memory region' with address")
  end.

Fixpoint mm_dirty_log_from (ms : list GuestRamMapping) (table : MemoryRangeTable)
    : M sst MigratableError MemoryRangeTable :=
  match ms with
  | [] => mret table
  | r :: ms' =>
      vm_dirty_bitmap ← ext "Error getting VM dirty log" (hv_get_dirty_log (slot r) (m_gpa r) (m_size r));
      vmm_dirty_bitmap ← vmm_bitmap r;
      sub_table ← lift (from_dirty_bitmap (zip_with Z.lor vm_dirty_bitmap vmm_dirty_bitmap) (m_gpa r) 4096);
      mm_dirty_log_from ms' (extend table sub_table)
  end.
Definition mm_dirty_log : M sst MigratableError MemoryRangeTable := mm_dirty_log_from guest_ram_mappings [].

Definition vm_start_dirty_log : M sst MigratableError unit :=
  _ ← mm_start_dirty_log;
  call devices_start_dirty_log.

Definition vm_dirty_log : M sst MigratableError MemoryRangeTable :=
  t1 ← mm_dirty_log;
  t2 ← call devices_dirty_log;
  mret (new_from_tables [t1; t2]).

Definition vm_memory_range_table : MemoryRangeTable := memory_range_table false zones.

Definition is_precopy_converged (data : VmSendMigrationData) (ctx : MemoryMigrationContext)
    : M sst MigratableError bool :=
  if current_iteration_total_bytes ctx =? 0 then mret true
  else if match estimated_downtime ctx with Some d => d <=? downtime data | None => false end then mret true
  else
    t ← clock;
    if timeout data <=? duration_since t (migration_begin ctx) then
      match timeout_strategy data with
      | Cancel => fail (MigrateSend "Precopy: Timeout reached: migration didn't converge in time")
      | Ignore => mret true
      end
    else mret false.

Context (send_memory : MemoryRangeTable → M sst MigratableError bool).

(** A transfer with the metrics around it. *)
Definition transfer (ctx : MemoryMigrationContext) (table : MemoryRangeTable)
    : M sst MigratableError MemoryMigrationContext :=
  transfer_begin ← clock;
  _ ← send_memory table;
  transfer_end ← clock;
  time ← clock;
  ctx1 ← lift (update_metrics_after_transfer ctx transfer_begin (duration_since transfer_end transfer_begin) time);
  lift (next_iteration ctx1).

Fixpoint do_memory_iterations (fuel : nat) (ctx : MemoryMigrationContext)
    (is_converged : MemoryMigrationContext → M sst MigratableError bool)
    : M sst MigratableError (MemoryRangeTable * MemoryMigrationContext) :=
  match fuel with
  | O => hang
  | S fuel' =>
      iteration_begin ← clock;
      iteration_table ← (if iteration ctx =? 0 then mret vm_memory_range_table else vm_dirty_log);
      ctx1 ← lift (update_metrics_before_transfer ctx iteration_begin iteration_table);
      converged ← is_converged ctx1;
      if converged : bool then mret (iteration_table, ctx1)
      else
        ctx2 ← transfer ctx1 iteration_table;
        do_memory_iterations fuel' ctx2 is_converged
  end.

Definition memory_context_new : M sst MigratableError MemoryMigrationContext :=
  t0 ← clock; t1 ← clock; t2 ← clock;
  mret {| iteration := 0; total_sent_bytes := 0; current_iteration_total_bytes := 0;
          bandwidth_bytes_per_second := f64_zero; estimated_downtime := None;
          migration_begin := t0; migration_duration := None; iteration_begin := t1;
          iteration_duration := None; transfer_begin := t2; transfer_duration := None |}.

(** The last table, sent while the machine is paused. *)
Definition final_iteration (ctx : MemoryMigrationContext) (remaining : MemoryRangeTable)
    : M sst MigratableError MemoryMigrationContext :=
  iteration_begin ← clock;
  final_table ← vm_dirty_log;
  let final_table := extend final_table remaining in
  ctx1 ← lift (update_metrics_before_transfer ctx iteration_begin final_table);
  transfer ctx1 final_table.

Definition do_memory_migration (fuel : nat) (data : VmSendMigrationData) (ctx : OngoingMigrationContext)
    : M sst MigratableError OngoingMigrationContext :=
  mem_ctx ← memory_context_new;
  _ ← vm_start_dirty_log;
  '(remaining, mem_ctx1) ← do_memory_iterations fuel mem_ctx (is_precopy_converged data);
  downtime_begin ← clock;
  _ ← call pause;
  mem_ctx2 ← final_iteration mem_ctx1 remaining;
  time ← clock;
  match set_vm_paused ctx downtime_begin (finalize_memory mem_ctx2 time) with
  | Ok ctx' => mret ctx'
  | _ => lift Panic
  end.

End code.

(** [SendAdditionalConnections::send_memory] with a single connection. *)
Definition send_memory_single {St : Stream} {G : GuestIo} (fuel : nat) (table : MemoryRangeTable)
    : M sst MigratableError bool :=
  if bool_decide (table = []) then mret false
  else _ ← send_memory_ranges fuel table; mret true.

(** ** What the sender relies on *)
Inductive Log := HvLog | VmmLog | DevLog.

Definition page_covered (t : MemoryRangeTable) (p : Z) : Prop := ∀ x, x / 4096 = p → covered t x.
Definition page_of (r : GuestRamMapping) (p : Z) : Prop := m_gpa r ≤ p * 4096 < m_gpa r + m_size r.

(** A mapping of whole pages in the address space. *)
Definition mapping_ok (r : GuestRamMapping) : Prop :=
  0 ≤ m_gpa r ∧ m_gpa r mod 4096 = 0 ∧ 0 ≤ m_size r ∧ m_size r mod 4096 = 0 ∧
  m_gpa r + m_size r + 64 * 4096 < 2 ^ 64 ∧ m_size r < 2 ^ 49.

(** The words of the bitmap of a mapping. *)
Definition words_of (r : GuestRamMapping) : Z := ceil_div (m_size r / 4096) 64.

Section laws.
Context {St : Stream} {V : MigrationVm}.
Context (src : sst → Z → Z) (dirty : Log → sst → Z → Prop) (paused : sst → Prop) (sent : sst → list Z).
Local Notation ran := (ran src dirty paused).

(** A call that hands out and clears the pages [taken l] of a log. *)
Record takes (taken : Log → Z → Prop) (s s' : sst) : Prop := {
  tk_src x : src s' x = src s x ∨ ∃ l, dirty l s' (x / 4096);
  tk_dirty l p : dirty l s p → dirty l s' p ∨ taken l p;
  tk_paused : paused s → paused s' ∧ ∀ x, src s' x = src s x;
  tk_sent : sent s' = sent s }.

(** The bitmap [b] of the mapping [r] holds the pages of the log [l]. *)
Definition bitmap_of (l : Log) (r : GuestRamMapping) (s : sst) (b : list Z) : Prop :=
  Forall is_u64 b ∧ zlen b = words_of r ∧
  ∀ p, page_of r p → dirty l s p → Bitmap.bit b (p - m_gpa r / 4096) = true.

Class VmLaws : Prop := {
  vl_get_dirty_log r s b s' : mapping_ok r →
    hv_get_dirty_log (slot r) (m_gpa r) (m_size r) s = (inr b, s') →
    bitmap_of HvLog r s b ∧ takes (λ l p, l = HvLog ∧ page_of r p) s s';
  vl_bitmap r s b s' : mapping_ok r → find_region (m_gpa r) = Some (m_gpa r, m_size r) →
    bitmap_get_and_reset (m_gpa r) s = (b, s') →
    bitmap_of VmmLog r s b ∧ takes (λ l p, l = VmmLog ∧ page_of r p) s s';
  vl_devices s t s' : devices_dirty_log s = (inr t, s') →
    Forall sendable t ∧ (∀ p, dirty DevLog s p → page_covered t p) ∧ takes (λ l p, l = DevLog) s s';
  vl_pause s s' : pause s = (inr tt, s') → ran s s' ∧ paused s' ∧ sent s' = sent s;
  vl_now s t s' : now s = (t, s') → ran s s' ∧ sent s' = sent s;
  vl_start s s' : hv_start_dirty_log s = (inr tt, s') → sent s' = sent s;
  vl_reset s : sent (bitmap_reset s) = sent s;
  vl_devices_start s s' : devices_start_dirty_log s = (inr tt, s') → sent s' = sent s }.

(** What sending a table promises: messages that hold it, captured while it runs. *)
Class MemSend (send : MemoryRangeTable → M sst MigratableError bool) : Prop := {
  ms_send t s b s' : Forall sendable t → send t s = (Ok b, s') →
    ran s s' ∧ ∃ ts : list (MemoryRangeTable * list Z),
      sent s' = sent s ++ mjoin ((λ '(u, cs), memory_message u cs) <$> ts) ∧
      Forall (λ '(u, cs), Forall sendable u ∧ captured_table src dirty paused s s' u cs) ts ∧
      ∀ x, covered t x ↔ ∃ u cs, (u, cs) ∈ ts ∧ covered u x }.

End laws.

(** A single connection sends a table as one message. *)
Global Instance send_memory_single_ok {St : Stream} {G : GuestIo} src (dirty : Log → sst → Z → Prop) paused sent
    {L : SourceLaws src dirty paused sent} fuel :
  MemSend src dirty paused sent (send_memory_single fuel).
Proof.
  split. intros t s b s' Hs. unfold send_memory_single. case_bool_decide as Hnil.
  - intros [= <- <-]. subst t. split; [apply ran_refl|]. exists []. split; [by rewrite app_nil_r|].
    split; [done|]. intros x. split; [intros (? & []%elem_of_nil & _)|intros (? & ? & []%elem_of_nil & _)].
  - intros ([] & s1 & E & E1)%m_bind_ok. injection E1 as <- <-.
    destruct (send_memory_ranges_run src dirty paused sent fuel t s Hs) as (o & s2 & E2 & R & _ & Ho).
    rewrite E in E2. injection E2 as <- <-. destruct (Ho eq_refl) as [[? _]|(_ & cs & Hcs & Hcap)]; [done|].
    split; [done|]. exists [(t, cs)]. split.
    + rewrite Hcs. f_equal. symmetry. apply (app_nil_r (memory_message t cs)).
    + split; [by apply Forall_singleton|]. intros x. split.
      * intros Hx. exists t, cs. split; [by apply list_elem_of_singleton|done].
      * by intros (u & c & [= -> ->]%list_elem_of_singleton & Hx).
Qed.

(** ** Dirty pages *)
Lemma bit_lor b1 b2 i :
  zlen b1 = zlen b2 → Bitmap.bit (zip_with Z.lor b1 b2) i = Bitmap.bit b1 i || Bitmap.bit b2 i.
Proof.
  intros Hl. unfold Bitmap.bit, znth. destruct (i / 64 <? 0); [done|]. rewrite lookup_zip_with.
  unfold zlen in Hl. destruct (b1 !! Z.to_nat (i / 64)) as [w1|] eqn:H1; simpl.
  - assert (is_Some (b2 !! Z.to_nat (i / 64))) as [w2 ->].
    { apply lookup_lt_is_Some. apply lookup_lt_Some in H1. lia. }
    simpl. apply Z.lor_spec.
  - assert (b2 !! Z.to_nat (i / 64) = None) as ->; [|done].
    apply lookup_ge_None. apply lookup_ge_None in H1. lia.
Qed.

Lemma lor_is_u64 x y : is_u64 x → is_u64 y → is_u64 (Z.lor x y).
Proof.
  intros [Hx0 Hx] [Hy0 Hy]. split; [by apply Z.lor_nonneg|].
  destruct (decide (Z.lor x y = 0)) as [->|]; [lia|]. apply Z.log2_lt_pow2.
  - assert (0 ≤ Z.lor x y) by by apply Z.lor_nonneg. lia.
  - rewrite Z.log2_lor by done. assert (∀ z, 0 ≤ z → z < 2 ^ 64 → Z.log2 z < 64) as H.
    { intros z ? ?. destruct (decide (z = 0)) as [->|]; [done|]. apply Z.log2_lt_pow2; lia. }
    specialize (H x Hx0 Hx) as H1. specialize (H y Hy0 Hy). lia.
Qed.

Lemma lor_words b1 b2 :
  Forall is_u64 b1 → Forall is_u64 b2 → zlen b1 = zlen b2 →
  Forall is_u64 (zip_with Z.lor b1 b2) ∧ zlen (zip_with Z.lor b1 b2) = zlen b1.
Proof.
  intros H1 H2 Hl. split.
  - revert b2 H2 Hl. induction H1 as [|x b1 Hx H1 IH]; intros b2 H2 Hl;
      [done|]. destruct H2 as [|y b2 Hy H2]; [done|]. simpl. constructor; [by apply lor_is_u64|].
    apply IH; [done|]. unfold zlen in *. simpl in Hl. lia.
  - unfold zlen in *. rewrite length_zip_with. lia.
Qed.

(** The table of a mapping's bitmap covers the pages whose bits are set. *)
Lemma mapping_table {E} {I : Itertools} r b :
  mapping_ok r → Forall is_u64 b → zlen b = words_of r →
  ∃ t, @from_dirty_bitmap E _ b (m_gpa r) 4096 = Ok t ∧ Forall sendable t ∧
    ∀ p, page_of r p → Bitmap.bit b (p - m_gpa r / 4096) = true → page_covered t p.
Proof.
  intros (Hg0 & Hga & Hs0 & Hsa & Htop & Hsz) Hb Hl.
  assert (64 * zlen b ≤ m_size r / 4096 + 63 ∧ 0 ≤ m_size r / 4096 ≤ 64 * zlen b) as [Hw Hw'].
  { rewrite Hl. unfold words_of. rewrite ceil_div_alt by lia.
    pose proof (Z.div_mod (m_size r / 4096 + 64 - 1) 64 ltac:(lia)).
    pose proof (Z.mod_pos_bound (m_size r / 4096 + 64 - 1) 64 ltac:(lia)).
    pose proof (Z.div_pos (m_size r) 4096 Hs0 ltac:(lia)). lia. }
  assert (m_size r = 4096 * (m_size r / 4096)) as Hexact by (apply Z.div_exact; lia).
  assert (m_gpa r = 4096 * (m_gpa r / 4096)) as Hgexact by (apply Z.div_exact; lia).
  destruct (@dirty_runs E _ b (m_gpa r) 4096) as (runs & He & Hm & Hin); try done; try lia.
  exists (run_range (m_gpa r) 4096 <$> runs). split; [done|]. split.
  - apply Forall_fmap, Forall_forall. intros [x y] Hxy. unfold sendable. simpl.
    assert (0 ≤ x < y ∧ y ≤ 64 * zlen b) as [? ?]; [|nia].
    pose proof (maximal_nonempty _ _ _ _ Hm Hxy).
    assert (in_runs runs x ∧ in_runs runs (y - 1)) as [H1 H2] by (split; exists x, y; (split; [done|lia])).
    apply Hin in H1. apply Hin in H2. lia.
  - intros p Hp Hbit x Hx. unfold page_of in Hp.
    destruct (proj2 (Hin (p - m_gpa r / 4096))) as (a & e & Hae & Hr); [split; [lia|done]|].
    exists (run_range (m_gpa r) 4096 (a, e)). split; [by apply list_elem_of_fmap_2|].
    pose proof (covers_run (m_gpa r) 4096 (a, e) x ltac:(lia)) as Hc. unfold covers in Hc.
    rewrite andb_true_iff, Z.leb_le, Z.ltb_lt in Hc. apply Hc. simpl.
    replace (x - m_gpa r) with (x + (- (m_gpa r / 4096)) * 4096) by lia.
    rewrite Z.div_add by lia. lia.
Qed.

Lemma covered_app t1 t2 x : covered (t1 ++ t2) x ↔ covered t1 x ∨ covered t2 x.
Proof. unfold covered. setoid_rewrite elem_of_app. naive_solver. Qed.

Section dirty_log.
Context {St : Stream} {V : MigrationVm} {I : Itertools}.
Context (src : sst → Z → Z) (dirty : Log → sst → Z → Prop) (paused : sst → Prop) (sent : sst → list Z).
Context {L : VmLaws src dirty paused sent}.
Local Notation ran := (ran src dirty paused).

(** Between [s] and [s'] the table [t] was taken from the logs. *)
Record logged (t : MemoryRangeTable) (s s' : sst) : Prop := {
  lg_src x : src s' x = src s x ∨ (∃ l, dirty l s' (x / 4096)) ∨ covered t x;
  lg_dirty l p : dirty l s p → dirty l s' p ∨ page_covered t p;
  lg_paused : paused s → paused s' ∧ ∀ x, src s' x = src s x;
  lg_sent : sent s' = sent s;
  lg_sendable : Forall sendable t }.

Lemma logged_ran s s' : ran s s' → sent s' = sent s → logged [] s s'.
Proof. intros [H1 H2 H3] ?. split; [|by left; apply H2|done..]. intros x. destruct (H1 x); auto. Qed.

Lemma page_covered_app t1 t2 p : page_covered t1 p ∨ page_covered t2 p → page_covered (t1 ++ t2) p.
Proof. intros H x Hx. apply covered_app. destruct H as [H|H]; [left|right]; by apply H. Qed.

Lemma logged_app t1 t2 s s1 s2 : logged t1 s s1 → logged t2 s1 s2 → logged (t1 ++ t2) s s2.
Proof.
  intros [A1 A2 A3 A4 A5] [B1 B2 B3 B4 B5]. split.
  - intros x. rewrite covered_app. destruct (B1 x) as [->|[?|?]]; [|auto..].
    destruct (A1 x) as [->|[[l Hl]|?]]; [auto| |auto].
    destruct (B2 l _ Hl) as [?|Hc]; [eauto|]. right. right. right. by apply Hc.
  - intros l p Hp. destruct (A2 l p Hp) as [Hp1|?].
    + destruct (B2 l p Hp1) as [?|?]; [by left|]. right. apply page_covered_app. by right.
    + right. apply page_covered_app. by left.
  - intros [Hp H1]%A3. apply B3 in Hp as [Hp H2]. split; [done|]. intros x. by rewrite H2, H1.
  - by rewrite B4.
  - by apply Forall_app_2.
Qed.

(** The two bitmaps of a mapping, merged into a table. *)
Lemma mapping_step r s b1 s1 b2 s2 :
  mapping_ok r → hv_get_dirty_log (slot r) (m_gpa r) (m_size r) s = (inr b1, s1) →
  find_region (m_gpa r) = Some (m_gpa r, m_size r) → bitmap_get_and_reset (m_gpa r) s1 = (b2, s2) →
  ∃ t, @from_dirty_bitmap MigratableError _ (zip_with Z.lor b1 b2) (m_gpa r) 4096 = Ok t ∧
    logged t s s2 ∧ ∀ p, page_of r p → dirty HvLog s p ∨ dirty VmmLog s p → page_covered t p.
Proof.
  intros Hr E1 Hf E2. destruct (vl_get_dirty_log _ _ _ _ _ _ _ _ Hr E1) as [(U1 & Z1 & B1) [T1 D1 P1 S1]].
  destruct (vl_bitmap _ _ _ _ _ _ _ _ Hr Hf E2) as [(U2 & Z2 & B2) [T2 D2 P2 S2]].
  destruct (lor_words b1 b2 U1 U2) as [U Z0]; [by rewrite Z1|].
  destruct (@mapping_table MigratableError _ r (zip_with Z.lor b1 b2) Hr U) as (t & Ht & Hsend & Hcov);
    [by rewrite Z0|].
  assert (∀ p, page_of r p → dirty HvLog s p → page_covered t p) as C1.
  { intros p Hp Hd. apply Hcov; [done|]. rewrite bit_lor, B1 by (done || congruence). done. }
  assert (∀ p, page_of r p → dirty VmmLog s1 p → page_covered t p) as C2.
  { intros p Hp Hd. apply Hcov; [done|]. rewrite bit_lor, B2, orb_true_r by (done || congruence). done. }
  assert (∀ l p, dirty l s1 p → dirty l s2 p ∨ page_covered t p) as K2.
  { intros l p Hd. destruct (D2 l p Hd) as [?|[-> ?]]; [by left|right; by apply C2]. }
  exists t. split; [done|]. split.
  - split; [| | |by rewrite S2|done].
    + intros x. destruct (T2 x) as [->|?]; [|auto]. destruct (T1 x) as [->|[l Hl]]; [auto|].
      destruct (K2 l _ Hl) as [?|Hc]; [eauto|]. right. right. by apply Hc.
    + intros l p Hd. destruct (D1 l p Hd) as [?|[-> ?]]; [by apply K2|right; by apply C1].
    + intros [Hp Hs1]%P1. apply P2 in Hp as [Hp Hs2]. split; [done|]. intros x. by rewrite Hs2, Hs1.
  - intros p Hp [Hd|Hd]; [by apply C1|]. destruct (D1 _ _ Hd) as [?|[? _]]; [by apply C2|done].
Qed.

Lemma ext_Ok {A} msg (call : sst → (io_error + A) * sst) s a s' :
  ext msg call s = (Ok a, s') → call s = (inr a, s').
Proof. unfold ext, m_map_err, of_sum. destruct (call s) as [[e|x] s1]; naive_solver. Qed.

Lemma vmm_bitmap_Ok r s b s' :
  vmm_bitmap r s = (Ok b, s') →
  find_region (m_gpa r) = Some (m_gpa r, m_size r) ∧ bitmap_get_and_reset (m_gpa r) s = (b, s').
Proof.
  unfold vmm_bitmap. destruct (find_region (m_gpa r)) as [[st len]|]; [|done].
  intros (u1 & s1 & H1 & (u2 & s2 & H2 & H3)%m_bind_ok)%m_bind_ok.
  unfold lift, assert in H1, H2. destruct (Z.eqb_spec st (m_gpa r)) as [->|]; [|done].
  destruct (Z.eqb_spec len (m_size r)) as [->|]; [|done]. injection H1 as _ <-. injection H2 as _ <-.
  unfold get_and_reset in H3. destruct (bitmap_get_and_reset _ s); naive_solver.
Qed.

Lemma mm_dirty_log_run ms : ∀ table s t s',
  Forall mapping_ok ms → mm_dirty_log_from ms table s = (Ok t, s') →
  ∃ u, t = table ++ u ∧ logged u s s' ∧
    ∀ r p, r ∈ ms → page_of r p → dirty HvLog s p ∨ dirty VmmLog s p → page_covered u p.
Proof.
  induction ms as [|r ms IH]; intros table s t s' Hms; cbn [mm_dirty_log_from].
  { intros [= <- <-]. exists []. rewrite app_nil_r. split; [done|]. split.
    - apply logged_ran; [apply ran_refl|done].
    - intros r p []%elem_of_nil. }
  apply Forall_cons in Hms as [Hr Hms].
  intros (b1 & s1 & E1%ext_Ok & (b2 & s2 & [Hf E2]%vmm_bitmap_Ok & H)%m_bind_ok)%m_bind_ok.
  destruct (mapping_step r s b1 s1 b2 s2 Hr E1 Hf E2) as (sub & Hsub & Hl & Hc).
  rewrite Hsub in H. erewrite m_bind_run in H by done.
  destruct (IH _ _ _ _ Hms H) as (u & -> & Hl2 & Hc2). exists (sub ++ u). unfold extend.
  split; [by rewrite app_assoc|]. split; [by eapply logged_app|].
  intros r' p Hr' Hp Hd. apply page_covered_app. apply elem_of_cons in Hr' as [->|Hr']; [left; auto|].
  assert (∀ l, dirty l s p → l = HvLog ∨ l = VmmLog → page_covered sub p ∨ page_covered u p) as Hk.
  { intros l Hl' Hor. destruct (lg_dirty _ _ _ Hl l p Hl') as [Hd2|?]; [|by left].
    right. eapply Hc2; [done|done|]. destruct Hor; subst; auto. }
  destruct Hd as [Hd|Hd]; eapply Hk; eauto.
Qed.

(** The table of [Vm::dirty_log] holds every mapped page of the logs. *)
Lemma vm_dirty_log_run ms s t s' :
  Forall mapping_ok ms → vm_dirty_log ms s = (Ok t, s') →
  logged t s s' ∧ ∀ l r p, r ∈ ms → page_of r p → dirty l s p → page_covered t p.
Proof.
  intros Hms (t1 & s1 & E1 & (t2 & s2 & E2%call_Ok & H)%m_bind_ok)%m_bind_ok.
  injection H as <- <-. unfold new_from_tables. simpl.
  destruct (mm_dirty_log_run ms [] s t1 s1 Hms E1) as (u & -> & Hl & Hc).
  destruct (vl_devices _ _ _ _ _ _ _ E2) as (Hs & Hd & [T D P S]).
  assert (logged t2 s1 s2) as Hl2.
  { split; [|intros l p Hp; destruct (D l p Hp) as [?| ->]; auto|done..].
    intros x. destruct (T x); auto. }
  split; [by eapply logged_app|]. intros l r p Hr Hp Hdl. apply page_covered_app. simpl.
  destruct l; [left; eapply Hc; eauto..|].
  destruct (lg_dirty _ _ _ Hl _ _ Hdl) as [?|?]; [right; by apply Hd|by left].
Qed.

End dirty_log.

(** ** The memory the receiver ends up with *)
Definition messages (ms : list (MemoryRangeTable * list Z)) : list Z :=
  mjoin ((λ '(t, cs), memory_message t cs) <$> ms).

Fixpoint deliver (ms : list (MemoryRangeTable * list Z)) (m : Z → Z) : Z → Z :=
  match ms with
  | [] => m
  | (t, cs) :: ms' => deliver ms' (store_table t cs m)
  end.

(** A message that carries what its table asks for. *)
Definition message_ok (m : MemoryRangeTable * list Z) : Prop :=
  Forall sendable m.1 ∧ zlen m.2 = size_of m.1.

Lemma messages_app ms1 ms2 : messages (ms1 ++ ms2) = messages ms1 ++ messages ms2.
Proof. unfold messages. rewrite fmap_app. apply join_app. Qed.

Lemma deliver_app ms1 ms2 m x : deliver (ms1 ++ ms2) m x = deliver ms2 (deliver ms1 m) x.
Proof. revert m. induction ms1 as [|[t cs] ms1 IH]; intros m; [done|]. apply IH. Qed.

Section precopy.
Context {St : Stream} {V : MigrationVm} {I : Itertools}.
Context (src : sst → Z → Z) (dirty : Log → sst → Z → Prop) (paused : sst → Prop) (sent : sst → list Z).
Context {L : VmLaws src dirty paused sent}.
Context (send : MemoryRangeTable → M sst MigratableError bool) {Hsend : MemSend src dirty paused sent send}.
Context (zones : list MemoryZone) (mappings : list GuestRamMapping).
Hypothesis mappings_ok : Forall mapping_ok mappings.
Hypothesis table_sendable : Forall sendable (vm_memory_range_table zones).
Local Notation ran := (ran src dirty paused).
Local Notation logged := (logged src dirty paused sent).
Local Notation captured_all s s' :=
  (Forall (λ '(u, cs), Forall sendable u ∧ captured_table src dirty paused s s' u cs)).

(** The guest's memory. *)
Definition ram (x : Z) : Prop := covered (vm_memory_range_table zones) x.
Hypothesis ram_mapped : ∀ x, ram x → ∃ r, r ∈ mappings ∧ page_of r (x / 4096).

Lemma deliver_captured s s' ms : captured_all s s' ms → ∀ m x,
  ((∃ u cs, (u, cs) ∈ ms ∧ covered u x) → ∃ s1, ran s s1 ∧ ran s1 s' ∧ deliver ms m x = src s1 x) ∧
  (¬ (∃ u cs, (u, cs) ∈ ms ∧ covered u x) → deliver ms m x = m x).
Proof.
  induction 1 as [|[u cs] ms [Hu Hcap] Hms IH]; intros m x; simpl.
  { split; [intros (? & ? & []%elem_of_nil & _)|done]. }
  assert (Forall (λ r, 0 ≤ length_ r) u) as Hp by (eapply Forall_impl; [exact Hu|]; by intros r (? & ? & ?)).
  pose proof (captured_table_size _ _ _ _ _ _ _ Hcap) as Hz.
  destruct (IH (store_table u cs m) x) as [IH1 IH2]. split.
  - intros Hin. destruct (decide (Exists (λ '(v, _), Exists (λ q, gpa q ≤ x < gpa q + length_ q) v) ms)) as [He|He].
    + apply IH1. apply Exists_exists in He as ([v c] & Hv & (q & ? & ?)%Exists_exists).
      exists v, c. split; [done|]. by exists q.
    + assert (¬ ∃ v c, (v, c) ∈ ms ∧ covered v x) as Hn.
      { intros (v & c & Hv & q & ? & ?). apply He, Exists_exists. exists (v, c). split; [done|].
        apply Exists_exists. by exists q. }
      rewrite IH2 by done. apply captured_table_store; [done|done|].
      destruct Hin as (v & c & [[= -> ->]|Hv]%elem_of_cons & Hx); [done|]. destruct Hn. by exists v, c.
  - intros Hn. rewrite IH2.
    + apply store_table_uncovered; [done|lia|]. intros Hx. apply Hn. exists u, cs. split; [left|done].
    + intros (v & c & Hv & Hx). apply Hn. exists v, c. split; [by right|done].
Qed.

Lemma captured_message_ok s s' ms : captured_all s s' ms → Forall message_ok ms.
Proof.
  intros H. eapply Forall_impl; [exact H|]. intros [u cs] [Hu Hc]. split; [done|]. by eapply captured_table_size.
Qed.

(** What is true between the steps: an address holds at the receiver what it holds
    here, or its page is in a log, or the table at hand covers it. *)
Record inv (sent0 : list Z) (t : MemoryRangeTable) (s : sst) (ms : list (MemoryRangeTable * list Z)) : Prop := {
  in_sent : sent s = sent0 ++ messages ms;
  in_mem m x : ram x → deliver ms m x = src s x ∨ (∃ l, dirty l s (x / 4096)) ∨ covered t x;
  in_sendable : Forall sendable t;
  in_messages : Forall message_ok ms }.

Lemma inv_logged sent0 t u s s' ms : inv sent0 t s ms → logged u s s' → inv sent0 (u ++ t) s' ms.
Proof.
  intros [H1 H2 H3 H4] [A1 A2 A3 A4 A5]. split; [by rewrite A4| |by apply Forall_app_2|done].
  intros m x Hx. rewrite covered_app. destruct (H2 m x Hx) as [->|[[l Hl]|?]]; [|destruct (A2 l _ Hl) as [?|Hc]|auto].
  - destruct (A1 x) as [->|[?|?]]; auto.
  - eauto.
  - right. right. left. by apply Hc.
Qed.

Lemma inv_ran sent0 t s s' ms : inv sent0 t s ms → ran s s' → sent s' = sent s → inv sent0 t s' ms.
Proof. intros H R E. by apply (inv_logged _ _ [] s s'), logged_ran. Qed.

Lemma inv_send sent0 t s s' ms b :
  inv sent0 t s ms → send t s = (Ok b, s') → ∃ ms', inv sent0 [] s' (ms ++ ms').
Proof.
  intros [H1 H2 H3 H4] E. destruct (ms_send _ _ _ _ t s b s' H3 E) as (R & ms' & Hs & Hcap & Hcov).
  exists ms'. split; [by rewrite Hs, H1, messages_app, app_assoc| |done|
    by apply Forall_app_2; [|eapply captured_message_ok]].
  intros m x Hx. rewrite deliver_app. destruct (deliver_captured _ _ _ Hcap (deliver ms m) x) as [D1 D2].
  destruct (decide (Exists (λ q, gpa q ≤ x < gpa q + length_ q) t)) as [He|He].
  - destruct D1 as (s1 & R1 & R2 & ->).
    + apply Hcov. by apply Exists_exists in He as (q & ? & ?); exists q.
    + destruct R2 as [R2 _ _]. destruct (R2 x) as [->|?]; auto.
  - assert (¬ covered t x) as Hn by (intros (q & ? & ?); apply He, Exists_exists; by exists q).
    rewrite D2 by (by rewrite <-Hcov). destruct R as [R1 R2 _].
    destruct (H2 m x Hx) as [->|[[l Hl]|?]]; [|eauto|done]. destruct (R1 x) as [->|?]; auto.
Qed.

Lemma clock_ran s t s' : clock s = (Ok t, s') → ran s s' ∧ sent s' = sent s.
Proof.
  unfold clock. destruct (now s) as [t1 s1] eqn:E. intros [= <- <-]. by eapply vl_now.
Qed.

Lemma inv_transfer sent0 c t s c' s' ms :
  inv sent0 t s ms → transfer send c t s = (Ok c', s') →
  (∃ ms', inv sent0 [] s' (ms ++ ms')) ∧ iteration c' = iteration c + 1.
Proof.
  intros Hi (t1 & s1 & [R1 S1]%clock_ran & (b & s2 & E2 & (t3 & s3 & [R3 S3]%clock_ran &
    (t4 & s4 & [R4 S4]%clock_ran & (c1 & s5 & E5 & E6)%m_bind_ok)%m_bind_ok)%m_bind_ok)%m_bind_ok)%m_bind_ok.
  injection E5 as E5 <-. injection E6 as E6 <-. split.
  - destruct (inv_send sent0 t s1 s2 ms b) as (ms' & Hi'); [by eapply inv_ran|done|].
    exists ms'. eapply inv_ran; [eapply inv_ran|..]; done.
  - apply bind_ok in E5 as (n1 & _ & E5). apply bind_ok in E5 as (u & _ & E5). injection E5 as <-.
    apply bind_ok in E6 as (n & [-> _]%uadd_Ok & [= <-]). done.
Qed.

Lemma converged_ran data c s b s' :
  is_precopy_converged data c s = (Ok b, s') → ran s s' ∧ sent s' = sent s.
Proof.
  assert (ran s s) as Hr by apply ran_refl. unfold is_precopy_converged.
  destruct (_ =? 0); [by intros [= <- <-]|].
  destruct (match estimated_downtime c with Some d => _ | None => _ end); [by intros [= <- <-]|].
  intros (t & s1 & H1%clock_ran & H2)%m_bind_ok.
  destruct (_ <=? _); [destruct (timeout_strategy data)|]; try done; by injection H2 as <- <-.
Qed.

Lemma before_iteration {E} c begin t c' :
  @update_metrics_before_transfer E c begin t = Ok c' → iteration c' = iteration c.
Proof. intros (n & _ & (e & _ & [= <-])%bind_ok)%bind_ok. done. Qed.

Lemma iterations_run data sent0 fuel : ∀ c s t c' s',
  0 ≤ iteration c → (iteration c = 0 → sent s = sent0) → (iteration c ≠ 0 → ∃ ms, inv sent0 [] s ms) →
  do_memory_iterations zones mappings send fuel c (is_precopy_converged data) s = (Ok (t, c'), s') →
  ∃ ms, inv sent0 t s' ms.
Proof.
  induction fuel as [|fuel IH]; intros c s t c' s' Hc H0 H1; [done|]. cbn [do_memory_iterations].
  intros (t1 & s1 & [R1 S1]%clock_ran & (tab & s2 & E2 & (c1 & s3 & E3 & (b & s4 & [R4 S4]%converged_ran &
    E5)%m_bind_ok)%m_bind_ok)%m_bind_ok)%m_bind_ok.
  injection E3 as E3 <-. apply before_iteration in E3.
  assert (∃ ms, inv sent0 tab s2 ms) as (ms & Hi).
  { destruct (Z.eqb_spec (iteration c) 0) as [Hz|Hz].
    - injection E2 as <- <-. exists []. split; [by rewrite S1, H0, app_nil_r|auto|done|done].
    - destruct (H1 Hz) as (ms & Hi). exists ms. destruct (vm_dirty_log_run _ _ _ _ _ _ _ _ mappings_ok E2) as [Hl _].
      rewrite <-(app_nil_r tab). eapply inv_logged, Hl. by eapply inv_ran. }
  assert (inv sent0 tab s4 ms) as Hi4 by by eapply inv_ran.
  destruct b; [by injection E5 as <- _ <-; exists ms|].
  apply m_bind_ok in E5 as (c2 & s5 & E5 & E6).
  destruct (inv_transfer sent0 _ _ _ _ _ _ Hi4 E5) as [[ms' Hi5] Hc2].
  eapply IH, E6; [lia|lia|]. intros _. by exists (ms ++ ms').
Qed.

(** Paused, what is not covered by the table is the same on both sides. *)
Lemma final_run sent0 c rem s c' s' ms :
  paused s → inv sent0 rem s ms → final_iteration mappings send c rem s = (Ok c', s') →
  paused s' ∧ ∃ ms', sent s' = sent0 ++ messages ms' ∧ Forall message_ok ms' ∧
    ∀ m x, ram x → deliver ms' m x = src s' x.
Proof.
  intros Hp Hi (t1 & s1 & [R1 S1]%clock_ran & (t2 & s2 & E2 & (c1 & s3 & E3 & E4)%m_bind_ok)%m_bind_ok)%m_bind_ok.
  injection E3 as _ <-. pose proof (inv_ran _ _ _ _ _ Hi R1 S1) as Hi1.
  destruct (rn_paused _ _ _ _ _ R1 Hp) as [Hp1 _].
  destruct (vm_dirty_log_run _ _ _ _ _ _ _ _ mappings_ok E2) as [Hl Hall].
  destruct (lg_paused _ _ _ _ _ _ _ Hl Hp1) as [Hp2 Hsrc].
  destruct (inv_logged _ _ _ _ _ _ Hi1 Hl) as [Hs2 _ Hsend2 Hok2].
  assert (∀ m x, ram x → deliver ms m x = src s2 x ∨ covered (t2 ++ rem) x) as Hmem.
  { intros m x Hx. rewrite covered_app. destruct (in_mem _ _ _ _ Hi1 m x Hx) as [->|[[l Hd]|?]]; [by rewrite Hsrc; left| |auto].
    destruct (ram_mapped x Hx) as (r & Hr & Hpg). right. left. by apply (Hall l r (x / 4096)). }
  apply m_bind_ok in E4 as (t4 & s4 & [R4 S4]%clock_ran & (b & s5 & E5 & (t6 & s6 & [R6 S6]%clock_ran &
    (t7 & s7 & [R7 S7]%clock_ran & (c8 & s8 & E8 & E9)%m_bind_ok)%m_bind_ok)%m_bind_ok)%m_bind_ok).
  injection E8 as _ <-. injection E9 as _ <-.
  destruct (ms_send _ _ _ _ _ _ _ _ Hsend2 E5) as (R5 & ms' & S5 & Hcap & Hcov).
  destruct (rn_paused _ _ _ _ _ R4 Hp2) as [Hp4 M4]. destruct (rn_paused _ _ _ _ _ R5 Hp4) as [Hp5 M5].
  destruct (rn_paused _ _ _ _ _ R6 Hp5) as [Hp6 M6]. destruct (rn_paused _ _ _ _ _ R7 Hp6) as [Hp7 M7].
  split; [done|]. exists (ms ++ ms'). split; [by rewrite S7, S6, S5, S4, Hs2, messages_app, app_assoc|].
  split; [apply Forall_app_2; [done|by eapply captured_message_ok]|]. intros m x Hx. rewrite deliver_app, M7, M6, M5, M4.
  destruct (deliver_captured _ _ _ Hcap (deliver ms m) x) as [D1 D2].
  destruct (decide (Exists (λ q, gpa q ≤ x < gpa q + length_ q) (t2 ++ rem))) as [He|He].
  - destruct D1 as (sx & Rx & _ & ->); [|destruct (rn_paused _ _ _ _ _ Rx Hp4) as [_ ->]; apply M4].
    apply Hcov. by apply Exists_exists in He as (q & ? & ?); exists q.
  - assert (¬ covered (t2 ++ rem) x) as Hn by (intros (q & ? & ?); apply He, Exists_exists; by exists q).
    rewrite D2 by (by rewrite <-Hcov). by destruct (Hmem m x Hx).
Qed.

Lemma start_sent s s' : vm_start_dirty_log s = (Ok tt, s') → sent s' = sent s.
Proof.
  intros (u & s1 & (u1 & s2 & E1%ext_Ok & E2)%m_bind_ok & E3%call_Ok)%m_bind_ok. injection E2 as <- <-.
  destruct u1. rewrite (vl_devices_start _ _ _ _ _ _ E3), (vl_reset _ _ _ _), (vl_start _ _ _ _ _ _ E1). done.
Qed.

(** When [do_memory_migration] succeeds, its messages hold the memory of the paused
    guest. *)
Lemma precopy_run fuel data ctx s ctx' s' :
  do_memory_migration zones mappings send fuel data ctx s = (Ok ctx', s') →
  paused s' ∧ ∃ ms, sent s' = sent s ++ messages ms ∧ Forall message_ok ms ∧
    ∀ m x, ram x → deliver ms m x = src s' x.
Proof.
  intros (c0 & s1 & E1 & (u & s2 & E2 & ([rem c1] & s3 & E3 & (t4 & s4 & [R4 S4]%clock_ran & (u5 & s5 & E5%call_Ok &
    (c6 & s6 & E6 & (t7 & s7 & [R7 S7]%clock_ran & E8)%m_bind_ok)%m_bind_ok)%m_bind_ok)%m_bind_ok)%m_bind_ok)%m_bind_ok)%m_bind_ok.
  destruct u5. destruct u. destruct (vl_pause _ _ _ _ _ _ E5) as (R5 & Hp & S5).
  assert (iteration c0 = 0 ∧ sent s1 = sent s) as [Hc0 S1].
  { apply m_bind_ok in E1 as (a1 & q1 & [_ Q1]%clock_ran & (a2 & q2 & [_ Q2]%clock_ran & (a3 & q3 & [_ Q3]%clock_ran &
      E)%m_bind_ok)%m_bind_ok). injection E as <- <-. split; [done|]. by rewrite Q3, Q2. }
  destruct (iterations_run data (sent s) fuel c0 s2 rem c1 s3) as (ms & Hi); [lia| |lia|done|].
  { intros _. by rewrite (start_sent _ _ E2). }
  destruct (final_run (sent s) c1 rem s5 c6 s6 ms) as (Hp6 & ms' & Hs6 & Hok6 & Hd); [done| |done|].
  { eapply inv_ran; [eapply inv_ran|..]; done. }
  destruct (rn_paused _ _ _ _ _ R7 Hp6) as [Hp7 M7].
  assert (s' = s7) as -> by (by destruct (set_vm_paused _ _ _); injection E8).
  split; [done|]. exists ms'. split; [by rewrite S7|]. split; [done|]. intros m x Hx. rewrite M7. by apply Hd.
Qed.

End precopy.

(** ** Termination of the iterations *)

(** The clock has been read no less often, and shows no earlier time. *)
Definition later {St : Stream} (time readings : sst → Z) (s s' : sst) : Prop :=
  time s ≤ time s' ∧ readings s ≤ readings s'.

(** A computation that ends, and during which the clock does not go back. *)
Definition ends {St : Stream} {A} (time readings : sst → Z) (m : M sst MigratableError A) : Prop :=
  ∀ s, (m s).1 ≠ Hang ∧ later time readings s (m s).2.

(** The clock, as [Instant] documents it: it shows [time], which does not go back.
    [readings] counts how often it was read. *)
Class ClockLaws {St : Stream} {V : MigrationVm} (send : MemoryRangeTable → M sst MigratableError bool)
    (time readings : sst → Z) : Prop := {
  ck_now s : ∃ s', now s = (time s, s') ∧ time s ≤ time s' ∧ readings s' = readings s + 1;
  ck_hv a b c s : later time readings s (hv_get_dirty_log a b c s).2;
  ck_bitmap a s : later time readings s (bitmap_get_and_reset a s).2;
  ck_devices s : later time readings s (devices_dirty_log s).2;
  ck_send t : Forall sendable t → ends time readings (send t) }.

Section termination.
Context {St : Stream} {V : MigrationVm} {I : Itertools}.
Context (src : sst → Z → Z) (dirty : Log → sst → Z → Prop) (paused : sst → Prop) (sent : sst → list Z).
Context {L : VmLaws src dirty paused sent}.
Context (send : MemoryRangeTable → M sst MigratableError bool).
Context (zones : list MemoryZone) (mappings : list GuestRamMapping).
Hypothesis mappings_ok : Forall mapping_ok mappings.
Hypothesis table_sendable : Forall sendable (vm_memory_range_table zones).

Context (time readings : sst → Z) {C : ClockLaws send time readings}.
Local Notation ends := (ends time readings).
Local Notation later := (later time readings).

Lemma later_refl s : later s s.
Proof. split; lia. Qed.

Lemma ends_bind_at {A B} (m : M sst MigratableError A) (f : A → M sst MigratableError B) s :
  (m s).1 ≠ Hang ∧ later s (m s).2 →
  (∀ a s1, m s = (Ok a, s1) → (f a s1).1 ≠ Hang ∧ later s1 (f a s1).2) →
  ((m ≫= f) s).1 ≠ Hang ∧ later s ((m ≫= f) s).2.
Proof.
  intros Hm Hf. unfold mbind, M_bind.
  destruct (m s) as [[a|e| |] s1]; simpl in *; destruct Hm as [? ?]; try (split; done).
  destruct (Hf a s1 eq_refl) as [? L2]. split; [done|]. unfold Precopy.later in *. lia.
Qed.

Lemma ends_bind {A B} (m : M sst MigratableError A) (f : A → M sst MigratableError B) :
  ends m → (∀ a, ends (f a)) → ends (m ≫= f).
Proof. intros Hm Hf s. apply ends_bind_at; [apply Hm|]. intros a s1 _. apply Hf. Qed.

Lemma ends_lift {A} (r : res MigratableError A) : r ≠ Hang → ends (lift r).
Proof. intros H s. split; [done|apply later_refl]. Qed.

Lemma ends_ret {A} (a : A) : ends (mret a).
Proof. intros s. split; [done|apply later_refl]. Qed.

Lemma ends_clock : ends clock.
Proof.
  intros s. unfold clock. destruct (ck_now s) as (s' & -> & ? & ?). split; [done|]. split; simpl; lia.
Qed.

Lemma ends_ext {A} msg (call : sst → (io_error + A) * sst) :
  (∀ s, later s (call s).2) → ends (ext msg call).
Proof.
  intros H s. specialize (H s). unfold ext, m_map_err, of_sum.
  destruct (call s) as [[e|a] s1]; split; done.
Qed.

Lemma ends_call {A} (c : sst → (MigratableError + A) * sst) :
  (∀ s, later s (c s).2) → ends (call c).
Proof. intros H s. specialize (H s). unfold call. by destruct (c s) as [[e|a] s1]. Qed.

Lemma uadd_ends {E} x y : @uadd E x y ≠ Hang.
Proof. unfold uadd. by destruct (in_u64 _). Qed.

Lemma metrics_end {E} c begin t : @update_metrics_before_transfer E c begin t ≠ Hang.
Proof.
  unfold update_metrics_before_transfer, effective_size.
  assert (∀ n, foldM (λ n r, @uadd E n (length_ r)) n t ≠ Hang) as Hf.
  { induction t as [|r t IH]; intros n; simpl; [done|]. pose proof (@uadd_ends E n (length_ r)).
    by destruct (uadd n (length_ r)) as [a|e| |]; simpl. }
  specialize (Hf 0). destruct (foldM _ 0 t) as [n|e| |]; simpl; try done.
  destruct (n =? 0); simpl; [done|]. destruct (SFeqb _ _); simpl; [done|].
  unfold from_secs_f64. destruct (f64_div _ _) as [| | |[] m e]; simpl; try done.
  by destruct (_ <? _).
Qed.

Lemma vmm_bitmap_ends r : ends (vmm_bitmap r).
Proof using C.
  unfold vmm_bitmap. destruct (find_region (m_gpa r)) as [[a n]|]; [|intros s; split; [done|apply later_refl]].
  assert (∀ b, ends (lift (assert b))) as Ha by (intros []; by apply ends_lift).
  apply ends_bind; [apply Ha|]. intros _. apply ends_bind; [apply Ha|]. intros _ s. unfold get_and_reset.
  pose proof (ck_bitmap (m_gpa r) s). by destruct (bitmap_get_and_reset _ s).
Qed.

Lemma dirty_log_ends ms : ∀ table, Forall mapping_ok ms → ends (mm_dirty_log_from ms table).
Proof using L C.
  induction ms as [|r ms IH]; intros table Hms; cbn [mm_dirty_log_from]; [apply ends_ret|].
  apply Forall_cons in Hms as [Hr Hms]. intros s. apply ends_bind_at; [apply ends_ext, ck_hv|].
  intros b1 s1 E1%ext_Ok. apply ends_bind_at; [apply vmm_bitmap_ends|]. intros b2 s2 [Hf E2]%vmm_bitmap_Ok.
  destruct (mapping_step _ _ _ _ r s b1 s1 b2 s2 Hr E1 Hf E2) as (t & -> & _).
  apply ends_bind_at; [by apply ends_lift|]. intros t' s3 [= <- <-]. by apply IH.
Qed.

Lemma vm_dirty_log_ends : ends (vm_dirty_log mappings).
Proof using L C mappings_ok.
  apply ends_bind; [by apply dirty_log_ends|]. intros t1.
  apply ends_bind; [apply ends_call, ck_devices|]. intros t2. apply ends_ret.
Qed.

Lemma transfer_ends c t : Forall sendable t → ends (transfer send c t).
Proof using C.
  intros Ht. apply ends_bind; [apply ends_clock|]. intros t1. apply ends_bind; [by apply ck_send|]. intros b.
  apply ends_bind; [apply ends_clock|]. intros t2. apply ends_bind; [apply ends_clock|]. intros t3.
  apply ends_bind; [apply ends_lift|intros c1; apply ends_lift].
  - unfold update_metrics_after_transfer. pose proof (@uadd_ends MigratableError (total_sent_bytes c)
      (current_iteration_total_bytes c)). destruct (uadd _ _); simpl; try done. unfold assert. by destruct (_ <=? _).
  - unfold next_iteration. pose proof (@uadd_ends MigratableError (iteration c1) 1). by destruct (uadd _ _).
Qed.

Lemma converged_time data c s b s' :
  is_precopy_converged data c s = (Ok b, s') →
  b = false → readings s + 1 ≤ readings s' ∧ time s < migration_begin c + timeout data.
Proof using C.
  unfold is_precopy_converged. destruct (_ =? 0); [by intros [= <- <-]|].
  destruct (match estimated_downtime c with Some d => _ | None => _ end); [by intros [= <- <-]|].
  intros (t & s1 & H1 & H2)%m_bind_ok. unfold clock in H1. destruct (ck_now s) as (s2 & E & ? & ?).
  rewrite E in H1. injection H1 as <- <-.
  destruct (Z.leb_spec (timeout data) (duration_since (time s) (migration_begin c))) as [?|Hlt].
  - destruct (timeout_strategy data); [done|]. by injection H2 as <- <-.
  - injection H2 as <- <-. unfold duration_since, saturating_sub in Hlt. intros _. lia.
Qed.

Lemma converged_ends data c : ends (is_precopy_converged data c).
Proof using C.
  unfold is_precopy_converged. destruct (_ =? 0); [apply ends_ret|].
  destruct (match estimated_downtime c with Some d => _ | None => _ end); [apply ends_ret|].
  apply ends_bind; [apply ends_clock|]. intros t. destruct (_ <=? _); [|apply ends_ret].
  destruct (timeout_strategy data); [|apply ends_ret]. intros s. split; [done|apply later_refl].
Qed.

Lemma begin_before {E} c begin t c' :
  @update_metrics_before_transfer E c begin t = Ok c' → migration_begin c' = migration_begin c.
Proof. intros (n & _ & (e & _ & [= <-])%bind_ok)%bind_ok. done. Qed.

Lemma begin_transfer c t s c' s' : transfer send c t s = (Ok c', s') → migration_begin c' = migration_begin c.
Proof.
  intros (t1 & s1 & _ & (b & s2 & _ & (t3 & s3 & _ & (t4 & s4 & _ & (c1 & s5 & E5 & E6)%m_bind_ok)%m_bind_ok)%m_bind_ok)%m_bind_ok)%m_bind_ok.
  injection E5 as E5 <-. injection E6 as E6 <-.
  apply bind_ok in E5 as (n1 & _ & E5). apply bind_ok in E5 as (u & _ & E5). injection E5 as <-.
  apply bind_ok in E6 as (n & _ & [= <-]). done.
Qed.

(** C38: the iterations end.  Transfers that return and a clock that does not go back are
    given.  If the timeout of the migration has passed whenever the clock was read [last]
    times, no more iterations begin than there are readings left till then, whatever the
    guest writes: the iterations end with an error or with a table to be sent while paused,
    as the timeout strategy says. *)
Theorem precopy_terminates fuel data last : ∀ c s,
  (∀ s', last ≤ readings s' → migration_begin c + timeout data ≤ time s') →
  Z.max 0 (last - readings s) < Z.of_nat fuel →
  (do_memory_iterations zones mappings send fuel c (is_precopy_converged data) s).1 ≠ Hang.
Proof using L C mappings_ok table_sendable.
  induction fuel as [|fuel IH]; intros c s Hlast Hf; [lia|]. cbn [do_memory_iterations].
  destruct (ck_now s) as (s1 & Hnow & Ht1 & Hr1).
  erewrite m_bind_run by (unfold clock; by rewrite Hnow).
  set (tab := if iteration c =? 0 then _ else _).
  assert (ends tab ∧ ∀ t s2, tab s1 = (Ok t, s2) → Forall sendable t) as [Htab Hsend].
  { unfold tab. destruct (_ =? 0); [by split; [apply ends_ret|intros t s2 [= <- _]]|].
    split; [apply vm_dirty_log_ends|]. intros t s2 E. by destruct (vm_dirty_log_run src dirty paused sent _ _ _ _ mappings_ok E) as [[] _]. }
  clearbody tab. unfold mbind, M_bind. destruct (Htab s1) as [N2 [T2 R2]].
  destruct (tab s1) as [[t|e| |] s2]; simpl in N2, T2, R2; try done. specialize (Hsend _ _ eq_refl).
  unfold lift. pose proof (@metrics_end MigratableError c (time s) t) as N3.
  destruct (update_metrics_before_transfer c (time s) t) as [c1|e| |] eqn:E3; try done. apply begin_before in E3.
  destruct (converged_ends data c1 s2) as [N4 _].
  destruct (is_precopy_converged data c1 s2) as [[b|e| |] s4] eqn:E4; simpl in N4; try done.
  destruct b; [done|]. apply converged_time in E4 as [R4 E4]; [|done].
  destruct (transfer_ends c1 t Hsend s4) as [N5 [_ R5]].
  destruct (transfer send c1 t s4) as [[c2|e| |] s5] eqn:E5; simpl in N5, R5; try done.
  apply begin_transfer in E5. apply IH; [by rewrite E5, E3|].
  destruct (Z.le_gt_cases last (readings s2)) as [Hl|Hl]; [|lia]. specialize (Hlast _ Hl). rewrite E3 in E4. lia.
Qed.

End termination.

End Precopy.
