(* ===== verification/MigrationReceiver.v ===== *)
(** * The receiver of a live migration

    Model of [vm_receive_migration], [vm_receive_migration_step],
    [vm_receive_config], [vm_receive_state] and [vm_receive_memory_fd] in
    [cloud-hypervisor/vmm/src/lib.rs]: the state machine that answers the commands
    of the sender.  Building and running a virtual machine is the class
    [ReceiverOps]; the messages are those of [MigrationWire].  The theorems relate
    the code to the protocol's state diagram, and the memory it receives to what
    [Precopy] sends. *)

From S2P Require Import Prelude Kernel RestoreSource MemoryRanges MigrationWire Precopy.
Import RestoreSource MemoryRanges MigrationWire.

Module MigrationReceiver.

(** The machine being received: configurations, snapshots, the hypervisor's VM, memory
    managers, VMs.  The console devices, and the paths of pseudo-terminals that creating
    them notes in the configuration, belong to the state of the machine and are not part
    of [Config_]. *)
Class ReceiverOps {St : Stream} := {
  Config_ : Type; Snapshot : Type; HypervisorVm : Type; MemoryManager : Type; VM : Type;
  recv_with_fd : sst → (io_error + (Z * option Z)) * sst;
  parse_config : list Z → option Config_;
  parse_snapshot : list Z → option Snapshot;
  check_cpuid : Config_ → sst → (MigratableError + unit) * sst;
  pre_create_console_devices : Config_ → sst → (io_error + unit) * sst;
  landlock_enable : Config_ → bool;
  apply_landlock : Config_ → sst → (io_error + unit) * sst;
  create_hypervisor_vm : Config_ → sst → (io_error + HypervisorVm) * sst;
  max_apic_id : Config_ → Z;
  enable_x2apic_api : HypervisorVm → sst → (io_error + unit) * sst;
  new_memory_manager : HypervisorVm → Config_ → list (Z * Z) → sst → (io_error + MemoryManager) * sst;
  new_connections : MemoryManager → sst → (MigratableError + unit) * sst;
  cleanup_connections : sst → (MigratableError + unit) * sst;
  new_vm : option Config_ → MemoryManager → Snapshot → sst → (MigratableError + VM) * sst;
  resume : VM → sst → (MigratableError + VM) * sst }.

Section code.
Context {St : Stream} {G : GuestIo} {R : ReceiverOps}.

(** The fields of [Vmm] a migration changes. *)
Record Vmm := { vm : option VM; vm_config : option Config_ }.

Inductive ReceiveMigrationState :=
| Established
| Started
| MemoryFdsReceived (files : list (Z * Z))
| Configured (mm : MemoryManager)
| StateReceived
| Completed
| Aborted.

Definition finished (s : ReceiveMigrationState) : bool :=
  match s with Completed | Aborted => true | _ => false end.

Local Notation RM := (M (sst * Vmm) MigratableError).

Definition on_socket {A} (m : M sst MigratableError A) : RM A := λ '(s, v),
  let '(r, s') := m s in (r, (s', v)).
Definition set_vm (o : option VM) : RM unit := λ '(s, v), (Ok tt, (s, {| vm := o; vm_config := vm_config v |})).
Definition set_config (o : option Config_) : RM unit := λ '(s, v), (Ok tt, (s, {| vm := vm v; vm_config := o |})).

Definition vm_receive_memory_fd (unix : bool) : M sst MigratableError (Z * Z) :=
  if unix then
    '(slot, file) ← m_map_err (λ _, MigrateReceive "Error receiving slot from socket") (of_sum recv_with_fd);
    lift (ok_or (file ≫= λ f, Some (slot, f)) (MigrateReceive "Failed to receive socket"))
  else fail (MigrateReceive "Unsupported socket type").

Definition MAX_SUPPORTED_CPUS_LEGACY : Z := 254.

(** A call whose error is reported with a text. *)
Definition receive_ext {A} (msg : string) (c : sst → (io_error + A) * sst) : M sst MigratableError A :=
  m_map_err (λ _, MigrateReceive msg) (of_sum c).

(** A call whose [Result] is unwrapped. *)
Definition unwrapped {A} (c : sst → (io_error + A) * sst) : M sst MigratableError A := λ s,
  match c s with (inr a, s') => (Ok a, s') | (inl _, s') => (Panic, s') end.

Definition vm_receive_config (req : Request) (files : list (Z * Z)) : RM MemoryManager :=
  data ← on_socket (sock (s_read_exact (req_length req)));
  config ← lift (ok_or (parse_config data) (MigrateReceive "Error deserialising config"));
  _ ← on_socket (call (check_cpuid config));
  _ ← set_config (Some config);
  _ ← on_socket (receive_ext "Error creating console devices" (pre_create_console_devices config));
  _ ← (if landlock_enable config then on_socket (receive_ext "Error applying landlock" (apply_landlock config))
       else mret tt);
  hv ← on_socket (receive_ext "Error creating hypervisor VM from snapshot" (create_hypervisor_vm config));
  _ ← (if MAX_SUPPORTED_CPUS_LEGACY <? max_apic_id config then on_socket (unwrapped (enable_x2apic_api hv)) else mret tt);
  on_socket (receive_ext "Error creating MemoryManager from snapshot" (new_memory_manager hv config files)).

Definition vm_receive_state (req : Request) (mm : MemoryManager) : RM unit :=
  data ← on_socket (sock (s_read_exact (req_length req)));
  snapshot ← lift (ok_or (parse_snapshot data) (MigrateReceive "Error deserialising snapshot"));
  config ← gets (λ '(_, v), vm_config v);
  v ← on_socket (call (new_vm config mm snapshot));
  set_vm (Some v).

Definition configure_vm (req : Request) (files : list (Z * Z)) : RM ReceiveMigrationState :=
  mm ← vm_receive_config req files;
  _ ← on_socket (call (new_connections mm));
  mret (Configured mm).

Definition recv_memory_fd (unix : bool) (files : list (Z * Z)) : RM ReceiveMigrationState :=
  f ← on_socket (vm_receive_memory_fd unix);
  mret (MemoryFdsReceived (files ++ [f])).

(** [inspect_err]: the connections are cleaned up, whatever that gives. *)
Definition receive_memory (fuel : nat) (req : Request) : M sst MigratableError unit := λ s,
  match receive_memory_ranges fuel req s with
  | (Err e, s') => (Err e, (cleanup_connections s').2)
  | r => r
  end.

Definition invalid_command : RM ReceiveMigrationState :=
  fail (MigrateReceive "Can't handle command in current state").

Definition vm_receive_migration_step (fuel : nat) (unix : bool) (state : ReceiveMigrationState) (req : Request)
    : RM ReceiveMigrationState :=
  match req_command req with
  | Abandon => mret Aborted
  | cmd =>
      match state, cmd with
      | Established, Start => mret Started
      | Established, _ => invalid_command
      | Started, MemoryFd => recv_memory_fd unix []
      | Started, Config => configure_vm req []
      | Started, _ => invalid_command
      | MemoryFdsReceived files, MemoryFd => recv_memory_fd unix files
      | MemoryFdsReceived files, Config => configure_vm req files
      | MemoryFdsReceived _, _ => invalid_command
      | Configured mm, Memory => _ ← on_socket (receive_memory fuel req); mret (Configured mm)
      | Configured mm, State =>
          _ ← on_socket (call cleanup_connections);
          _ ← vm_receive_state req mm;
          mret StateReceived
      | Configured _, _ => invalid_command
      | StateReceived, Complete =>
          o ← gets (λ '(_, v), vm v);
          v ← lift (unwrap o);
          v' ← on_socket (call (resume v));
          _ ← set_vm (Some v');
          mret Completed
      | StateReceived, _ => invalid_command
      | Completed, _ | Aborted, _ => lift Panic
      end
  end.

(** A turn of the loop: a request and its response. *)
Definition receive_turn (fuel : nat) (unix : bool) (state : ReceiveMigrationState)
    : RM (Request * ReceiveMigrationState) :=
  req ← on_socket request_read_from;
  r ← try_ (vm_receive_migration_step fuel unix state req);
  let '(response, new_state) :=
    match r with inr next => (response_ok, next) | inl _ => (response_error, Aborted) end in
  _ ← lift (assert (resp_length response =? 0));
  _ ← on_socket (response_write_to response);
  mret (req, new_state).

Fixpoint receive_loop (fuel : nat) (unix : bool) (state : ReceiveMigrationState) : RM ReceiveMigrationState :=
  if finished state then mret state
  else
    match fuel with
    | O => hang
    | S fuel' =>
        '(_, new_state) ← receive_turn fuel' unix state;
        receive_loop fuel' unix new_state
    end.

Definition vm_receive_migration (fuel : nat) (unix : bool) : RM unit :=
  state ← receive_loop fuel unix Established;
  match state with
  | Aborted => _ ← set_vm None; set_config None
  | _ => mret tt
  end.

End code.

(** ** The protocol *)
Section protocol.
Context {St : Stream} {G : GuestIo} {R : ReceiverOps}.

(** The turns so far, with the commands they read. *)
Inductive served (unix : bool) (x0 : sst * Vmm)
    : list Command → ReceiveMigrationState → sst * Vmm → Prop :=
| served_nil : served unix x0 [] Established x0
| served_turn fuel cs st x req st' x' :
    served unix x0 cs st x → finished st = false →
    receive_turn fuel unix st x = (Ok (req, st'), x') →
    served unix x0 (cs ++ [req_command req]) st' x'.

(** The commands up to the configuration, and up to the state. *)
Definition until_config (k : nat) : list Command := Start :: replicate k MemoryFd ++ [Config].
Definition until_state (k m : nat) : list Command := until_config k ++ replicate m Memory ++ [State].

(** A VM that was restored from a snapshot with this configuration. *)
Definition restored (v : VM) (c : option Config_) : Prop :=
  ∃ mm data snap s s', parse_snapshot data = Some snap ∧ new_vm c mm snap s = (inr v, s').
Definition resumed (v : VM) (c : option Config_) : Prop :=
  ∃ u s s', restored u c ∧ resume u s = (inr v, s').

(** What has been received in each state. *)
Definition progress (cs : list Command) (st : ReceiveMigrationState) (v : Vmm) : Prop :=
  match st with
  | Established => cs = []
  | Started => cs = [Start]
  | MemoryFdsReceived files => cs = Start :: replicate (length files) MemoryFd
  | Configured _ => (∃ k m, cs = until_config k ++ replicate m Memory) ∧ is_Some (vm_config v)
  | StateReceived => (∃ k m, cs = until_state k m) ∧ is_Some (vm_config v) ∧
      ∃ u, vm v = Some u ∧ restored u (vm_config v)
  | Completed => (∃ k m, cs = until_state k m ++ [Complete]) ∧ is_Some (vm_config v) ∧
      ∃ u, vm v = Some u ∧ resumed u (vm_config v)
  | Aborted => True
  end.

(** Runs the step's monadic code by cases on its calls. *)
Ltac run_cases H :=
  unfold mbind, M_bind, on_socket, lift, gets, set_vm, set_config, call, mret, M_ret in H;
  repeat (case_match; simplify_eq/=; try done).

(** Calls leave the fields of the VMM alone. *)
Lemma on_socket_Ok {A} (m : M sst MigratableError A) s v a x' :
  on_socket m (s, v) = (Ok a, x') → ∃ s', m s = (Ok a, s') ∧ x' = (s', v).
Proof. unfold on_socket. destruct (m s) as [o s1]. intros [= -> <-]. eauto. Qed.

Lemma if_socket_Ok {A} (b : bool) (m : M sst MigratableError A) a0 s v a x' :
  (if b then on_socket m else mret a0) (s, v) = (Ok a, x') → ∃ s', x' = (s', v).
Proof. destruct b; [intros (s' & _ & ->)%on_socket_Ok; eauto|]. intros [= _ <-]. eauto. Qed.

Lemma configure_Ok req files s v st x' :
  configure_vm req files (s, v) = (Ok st, x') →
  ∃ mm c s', st = Configured mm ∧ x' = (s', {| vm := vm v; vm_config := Some c |}).
Proof.
  intros (mm & [s9 v9] & H & (u & x10 & (s10 & _ & ->)%on_socket_Ok & H11)%m_bind_ok)%m_bind_ok.
  injection H11 as <- <-. exists mm.
  apply m_bind_ok in H as (data & x1 & (s1 & _ & ->)%on_socket_Ok & H).
  apply m_bind_ok in H as (c & x2 & H2 & H). injection H2 as _ <-.
  apply m_bind_ok in H as (u3 & x3 & (s3 & _ & ->)%on_socket_Ok & H).
  apply m_bind_ok in H as (u4 & x4 & H4 & H). injection H4 as _ <-.
  apply m_bind_ok in H as (u5 & x5 & (s5 & _ & ->)%on_socket_Ok & H).
  apply m_bind_ok in H as (u6 & x6 & (s6 & ->)%if_socket_Ok & H).
  apply m_bind_ok in H as (hv & x7 & (s7 & _ & ->)%on_socket_Ok & H).
  apply m_bind_ok in H as (u8 & x8 & (s8 & ->)%if_socket_Ok & H).
  apply on_socket_Ok in H as (s9' & _ & [= -> ->]). eauto.
Qed.

Lemma recv_fd_Ok unix files s v st x' :
  recv_memory_fd unix files (s, v) = (Ok st, x') → ∃ f s', st = MemoryFdsReceived (files ++ [f]) ∧ x' = (s', v).
Proof. intros H. unfold recv_memory_fd in H. run_cases H. eauto. Qed.

Lemma receive_state_Ok req mm s v u x' :
  vm_receive_state req mm (s, v) = (Ok u, x') →
  ∃ w s', x' = (s', {| vm := Some w; vm_config := vm_config v |}) ∧ restored w (vm_config v).
Proof.
  intros H. unfold vm_receive_state in H. run_cases H.
  eexists _, _. split; [done|]. destruct (parse_snapshot a) as [x|] eqn:Hp; simplify_eq/=.
  by exists mm, a, a0, s1, s0.
Qed.

(** A step that succeeds follows the state diagram. *)
Lemma step_progress fuel unix cs st req s v st' s' v' :
  progress cs st v → vm_receive_migration_step fuel unix st req (s, v) = (Ok st', (s', v')) →
  progress (cs ++ [req_command req]) st' v'.
Proof.
  unfold vm_receive_migration_step. intros Hp H.
  destruct (req_command req) eqn:Hc, st as [| |files|mm| | |]; try done; cbn [progress] in Hp.
  all: try (injection H as <- <- <-; simpl; by subst).
  - apply configure_Ok in H as (mm & c & s1 & -> & [= -> ->]). subst cs. simpl.
    split; [exists 0%nat, 0%nat; done|by eexists].
  - apply configure_Ok in H as (mm & c & s1 & -> & [= -> ->]). subst cs. simpl.
    split; [exists (length files), 0%nat; simpl; by rewrite app_nil_r|by eexists].
  - unfold mbind at 1, M_bind at 1, on_socket in H. destruct (call cleanup_connections s) as [[]?]; try done.
    unfold mbind, M_bind in H. destruct (vm_receive_state req mm _) as [[u|e| |] y] eqn:Hs; try done.
    apply receive_state_Ok in Hs as (w & s1 & -> & Hw). injection H as <- <- <-. cbn [progress vm vm_config].
    destruct Hp as [(k & m & ->) Hcfg]. split; [|eauto].
    exists k, m. unfold until_state. by rewrite <-app_assoc.
  - unfold mbind, M_bind, on_socket in H. destruct (receive_memory fuel req s) as [[]?]; try done.
    injection H as <- <- <-. destruct Hp as [(k & m & ->) Hcfg]. split; [|done].
    exists k, (S m). by rewrite <-app_assoc, replicate_S_end.
  - destruct Hp as ((k & m & ->) & Hcfg & u & Hu & Hr). run_cases H.
    split; [by exists k, m|]. split; [done|]. eexists. split; [done|]. eexists _, _, _. split; [|done].
    destruct v0 as [o c]; simpl in *. subst o. simpl in *. by simplify_eq.
  - apply recv_fd_Ok in H as (f & s1 & -> & [= -> ->]). by subst cs.
  - apply recv_fd_Ok in H as (f & s1 & -> & [= -> ->]). subst cs. simpl.
    rewrite length_app. simpl. by rewrite Nat.add_1_r, replicate_S_end.
Qed.

Lemma turn_progress fuel unix cs st s v req st' s' v' :
  progress cs st v → receive_turn fuel unix st (s, v) = (Ok (req, st'), (s', v')) →
  progress (cs ++ [req_command req]) st' v'.
Proof.
  intros Hp. unfold receive_turn, try_. unfold mbind at 1, M_bind at 1, on_socket at 1.
  destruct (request_read_from s) as [[rq|e| |] s1]; try done. unfold mbind, M_bind.
  destruct (vm_receive_migration_step fuel unix st rq (s1, v)) as [[st1|e| |] [s2 v2]] eqn:Hs; try done;
    intros H; run_cases H. by eapply step_progress.
Qed.

Lemma served_progress unix x0 cs st x : served unix x0 cs st x → progress cs st x.2.
Proof.
  induction 1 as [|fuel cs st [s v] req st' [s' v'] _ IH _ Ht]; [done|]. by eapply turn_progress.
Qed.

Lemma loop_served unix x0 fuel : ∀ cs st x st' x',
  served unix x0 cs st x → receive_loop fuel unix st x = (Ok st', x') →
  finished st' = true ∧ ∃ cs', served unix x0 cs' st' x'.
Proof.
  induction fuel as [|fuel IH]; intros cs st x st' x' Hs; cbn [receive_loop];
    (destruct (finished st) eqn:Hf; [intros [= <- <-]; by eauto|]); [done|].
  intros ([req st1] & y & Ht & Hl)%m_bind_ok. eapply IH, Hl. by eapply served_turn.
Qed.

(** A turn in which the connection fails: at the request, or at the response to a step. *)
Definition lost_turn (unix : bool) (st : ReceiveMigrationState) (s : sst) (v : Vmm) (e : MigratableError)
    (s' : sst) (v' : Vmm) : Prop :=
  (request_read_from s = (Err e, s') ∧ v' = v) ∨
  ∃ fuel req s1 o s2, request_read_from s = (Ok req, s1) ∧
    try_ (F:=MigratableError) (vm_receive_migration_step fuel unix st req) (s1, v) = (Ok o, (s2, v')) ∧
    response_write_to (match o with inr _ => response_ok | inl _ => response_error end) s2 = (Err e, s').

Lemma turn_lost fuel unix st s v e s' v' :
  receive_turn fuel unix st (s, v) = (Err e, (s', v')) → lost_turn unix st s v e s' v'.
Proof.
  unfold receive_turn. unfold mbind at 1, M_bind at 1, on_socket at 1.
  destruct (request_read_from s) as [[req|e1| |] s1] eqn:Er; try done; [|intros [= <- <- <-]; by left].
  unfold mbind at 1, M_bind at 1. intros H. right.
  destruct (try_ (vm_receive_migration_step fuel unix st req) (s1, v)) as [[o|e1| |] [s2 v2]] eqn:Et; try done.
  2: { unfold try_ in Et. by destruct (vm_receive_migration_step fuel unix st req (s1, v)) as [[] ?]. }
  exists fuel, req, s1, o, s2. destruct o as [e1|st1]; unfold mbind, M_bind, lift in H; cbn [resp_length] in H;
    unfold on_socket in H;
    [destruct (response_write_to response_error s2) as [[]?] eqn:Ew|destruct (response_write_to response_ok s2) as [[]?] eqn:Ew];
    simplify_eq/=; done.
Qed.

Lemma loop_lost unix x0 fuel : ∀ cs st x e s' v',
  served unix x0 cs st x → receive_loop fuel unix st x = (Err e, (s', v')) →
  ∃ cs' st' s1 v1, served unix x0 cs' st' (s1, v1) ∧ finished st' = false ∧ lost_turn unix st' s1 v1 e s' v'.
Proof.
  induction fuel as [|fuel IH]; intros cs st [s v] e s' v' Hs; cbn [receive_loop];
    (destruct (finished st) eqn:Hf; [done|]); [done|].
  unfold mbind, M_bind. destruct (receive_turn fuel unix st (s, v)) as [[[req st1]|e1| |] y] eqn:Ht; try done.
  - apply IH with (cs ++ [req_command req]). by eapply served_turn.
  - intros [= -> ->]. exists cs, st, s, v. split; [done|]. split; [done|]. by eapply turn_lost.
Qed.

End protocol.

(** ** Memory *)
Section memory.
Context {St : Stream} {G : GuestIo} {R : ReceiverOps}.
Context (mem : sst → Z → Z) (ram : Z → Prop) (incoming : sst → list Z) {L : SinkLaws mem ram incoming}.

(** What a machine that can be received promises: its parts are built, and nothing but
    running it touches its memory and the connection. *)
Class ReceiverLaws : Prop := {
  rl_cpuid c s : ∃ s', check_cpuid c s = (inr tt, s') ∧ incoming s' = incoming s;
  rl_console c s : ∃ s', pre_create_console_devices c s = (inr tt, s') ∧ incoming s' = incoming s;
  rl_landlock c s : ∃ s', apply_landlock c s = (inr tt, s') ∧ incoming s' = incoming s;
  rl_hypervisor c s : ∃ hv s', create_hypervisor_vm c s = (inr hv, s') ∧ incoming s' = incoming s;
  rl_x2apic hv s : ∃ s', enable_x2apic_api hv s = (inr tt, s') ∧ incoming s' = incoming s;
  rl_manager hv c files s : ∃ mm s', new_memory_manager hv c files s = (inr mm, s') ∧ incoming s' = incoming s;
  rl_connections mm s : ∃ s', new_connections mm s = (inr tt, s') ∧ incoming s' = incoming s;
  rl_cleanup s : ∃ s', cleanup_connections s = (inr tt, s') ∧ incoming s' = incoming s ∧ ∀ x, mem s' x = mem s x;
  rl_new_vm c mm snap s : ∃ v s', new_vm (Some c) mm snap s = (inr v, s') ∧ incoming s' = incoming s ∧
    ∀ x, mem s' x = mem s x;
  rl_resume v s : ∃ v' s', resume v s = (inr v', s') }.

(** A turn whose step succeeds. *)
Lemma turn_ok fuel unix st req rest s v (Q : ReceiveMigrationState → sst → Vmm → Prop) :
  zlen (req_padding req) = 6 → is_u64 (req_length req) → incoming s = request_bytes req ++ rest →
  (∀ s1, incoming s1 = rest → (∀ x, mem s1 x = mem s x) →
     ∃ st' s2 v2, vm_receive_migration_step fuel unix st req (s1, v) = (Ok st', (s2, v2)) ∧ Q st' s2 v2) →
  ∃ st' s2 v2 s3, Q st' s2 v2 ∧ receive_turn fuel unix st (s, v) = (Ok (req, st'), (s3, v2)) ∧
    incoming s3 = incoming s2 ∧ ∀ x, mem s3 x = mem s2 x.
Proof.
  intros Hp Hu Hi Hstep.
  destruct (request_read_ok mem ram incoming req rest s) as (s1 & E1 & Hi1 & Hm1); [done|done|done|].
  destruct (Hstep s1 Hi1 Hm1) as (st' & s2 & v2 & E2 & HQ).
  destruct (sk_write mem ram incoming (response_bytes response_ok) s2) as (s3 & E3 & Hi3 & Hm3).
  exists st', s2, v2, s3. split; [done|]. split; [|done].
  unfold receive_turn. erewrite m_bind_run by (unfold on_socket; by rewrite E1).
  erewrite m_bind_run by (unfold try_; by rewrite E2). cbv beta iota.
  erewrite m_bind_run by done.
  erewrite m_bind_run; [done|]. unfold on_socket, response_write_to, sock, m_map_err, of_sum. by rewrite E3.
Qed.

(** A message the receiver can take: the ranges lie in its memory. *)
Definition receivable (fuel : nat) (m : MemoryRangeTable * list Z) : Prop :=
  Forall (in_ram ram) m.1 ∧ is_u64 (table_length m.1) ∧ Forall (λ r, Z.to_nat (length_ r) < fuel)%nat m.1.

Lemma memory_turn fuel unix mm t cs rest s v :
  Precopy.message_ok (t, cs) → receivable fuel (t, cs) → incoming s = memory_message t cs ++ rest →
  ∃ s', receive_turn fuel unix (Configured mm) (s, v) =
      (Ok (request_new Memory (table_length t), Configured mm), (s', v)) ∧
    incoming s' = rest ∧ ∀ x, mem s' x = store_table t cs (mem s) x.
Proof.
  intros [Hs Hz] (Hram & Hu & Hf) Hi. unfold memory_message in Hi. rewrite <-!app_assoc in Hi. simpl in *.
  assert (Forall (good_range ram) t) as Hg.
  { apply Forall_forall. intros r Hr. rewrite Forall_forall in Hs, Hram.
    destruct (Hs r Hr) as (? & ? & ?). specialize (Hram r Hr). done. }
  destruct (turn_ok fuel unix (Configured mm) (request_new Memory (table_length t)) (table_bytes t ++ cs ++ rest)
    s v (λ st s2 v2, st = Configured mm ∧ v2 = v ∧ incoming s2 = rest ∧ ∀ x, mem s2 x = store_table t cs (mem s) x))
    as (st & s2 & v2 & s3 & (-> & -> & Hi2 & Hm2) & E3 & Hi3 & Hm3); try done.
  - intros s1 Hi1 Hm1.
    destruct (receive_memory_ranges_ok mem ram incoming fuel t cs rest s1) as (s2 & E2 & Hi2 & Hm2); try done.
    exists (Configured mm), s2, v. split.
    + unfold vm_receive_migration_step, mbind, M_bind, on_socket, receive_memory.
      cbn [req_command request_new]. by rewrite E2.
    + split; [done|]. split; [done|]. split; [done|]. intros x. rewrite Hm2. by apply store_table_ext.
  - exists s3. split; [done|]. split; [by rewrite Hi3|]. intros x. by rewrite Hm3.
Qed.

Lemma deliver_ext ms : ∀ m m' x, (∀ y, m y = m' y) → Precopy.deliver ms m x = Precopy.deliver ms m' x.
Proof.
  induction ms as [|[t cs] ms IH]; intros m m' x H; simpl; [apply H|]. apply IH. intros y.
  by apply store_table_ext.
Qed.

Lemma receive_messages fuel unix mm ms : ∀ s v rest,
  Forall Precopy.message_ok ms → Forall (receivable fuel) ms → incoming s = Precopy.messages ms ++ rest →
  ∃ s', receive_loop (length ms + fuel) unix (Configured mm) (s, v) = receive_loop fuel unix (Configured mm) (s', v) ∧
    incoming s' = rest ∧ ∀ x, mem s' x = Precopy.deliver ms (mem s) x.
Proof.
  induction ms as [|[t cs] ms IH]; intros s v rest Hok Hr Hi; [by exists s|].
  apply Forall_cons in Hok as [Hok1 Hok]. apply Forall_cons in Hr as [Hr1 Hr].
  change (Precopy.messages ((t, cs) :: ms)) with (memory_message t cs ++ Precopy.messages ms) in Hi.
  rewrite <-app_assoc in Hi.
  destruct (memory_turn (length ms + fuel) unix mm t cs (Precopy.messages ms ++ rest) s v) as (s1 & E1 & Hi1 & Hm1);
    [done| |done|].
  { destruct Hr1 as (? & ? & Hf). split; [done|]. split; [done|]. eapply Forall_impl; [exact Hf|]. simpl. lia. }
  destruct (IH s1 v rest Hok Hr Hi1) as (s2 & E2 & Hi2 & Hm2).
  exists s2. split; [|split; [done|]].
  - rewrite <-E2. cbn [length Nat.add receive_loop finished]. by erewrite m_bind_run by done.
  - intros x. rewrite Hm2. simpl. by apply deliver_ext.
Qed.

Lemma step_loop fuel unix st x req st' x' :
  receive_turn fuel unix st x = (Ok (req, st'), x') → finished st = false →
  receive_loop (S fuel) unix st x = receive_loop fuel unix st' x'.
Proof. intros E Hf. cbn [receive_loop]. rewrite Hf. by erewrite m_bind_run by done. Qed.

Lemma start_turn fuel unix s v rest :
  incoming s = request_bytes (request_new Start 0) ++ rest →
  ∃ s', receive_turn fuel unix Established (s, v) = (Ok (request_new Start 0, Started), (s', v)) ∧ incoming s' = rest.
Proof.
  intros Hi. destruct (turn_ok fuel unix Established (request_new Start 0) rest s v
    (λ st s2 v2, st = Started ∧ v2 = v ∧ incoming s2 = rest)) as (st & s2 & v2 & s3 & (-> & -> & Hi2) & E & Hi3 & _);
    [done|done|done| |].
  - intros s1 Hi1 _. by exists Started, s1, v.
  - exists s3. split; [done|]. by rewrite Hi3.
Qed.

(** A payload in front of the rest. *)
Lemma payload_read data rest s :
  incoming s = data ++ rest →
  ∃ s', sock (s_read_exact (zlen data)) s = (Ok data, s') ∧ incoming s' = rest ∧ ∀ x, mem s' x = mem s x.
Proof.
  intros Hi. pose proof (zlen_nonneg rest). pose proof (zlen_nonneg data).
  destruct (sk_read mem ram incoming (zlen data) s) as (s1 & Hr & Hi1 & Hm1); [rewrite Hi, zlen_app; lia|].
  exists s1. split; [|split; [by rewrite Hi1, Hi, drop_zlen_app|done]].
  unfold sock, m_map_err, of_sum. rewrite Hr, Hi, slice_app_l by done. done.
Qed.

Context {RL : ReceiverLaws}.

(** A machine that can be received is configured. *)
Lemma receive_config_ok req data rest c files s v :
  req_length req = zlen data → parse_config data = Some c → incoming s = data ++ rest →
  ∃ mm s', vm_receive_config req files (s, v) = (Ok mm, (s', {| vm := vm v; vm_config := Some c |})) ∧
    incoming s' = rest.
Proof using L RL.
  intros Hn Hc Hi. destruct (payload_read data rest s Hi) as (s1 & E1 & Hi1 & _).
  destruct (rl_cpuid c s1) as (s2 & E2 & Hi2). destruct (rl_console c s2) as (s3 & E3 & Hi3).
  assert (∃ s4 : sst, (if landlock_enable c then on_socket (receive_ext "Error applying landlock" (apply_landlock c))
      else mret tt) (s3, {| vm := vm v; vm_config := Some c |}) = (Ok tt, (s4, {| vm := vm v; vm_config := Some c |})) ∧
    incoming s4 = incoming s3) as (s4 & E4 & Hi4).
  { destruct (landlock_enable c); [|by eauto]. destruct (rl_landlock c s3) as (s4 & E4 & Hi4). exists s4.
    unfold on_socket, receive_ext, m_map_err, of_sum. by rewrite E4. }
  destruct (rl_hypervisor c s4) as (hv & s5 & E5 & Hi5).
  assert (∃ s6 : sst, (if MAX_SUPPORTED_CPUS_LEGACY <? max_apic_id c then on_socket (unwrapped (enable_x2apic_api hv))
      else mret tt) (s5, {| vm := vm v; vm_config := Some c |}) = (Ok tt, (s6, {| vm := vm v; vm_config := Some c |})) ∧
    incoming s6 = incoming s5) as (s6 & E6 & Hi6).
  { destruct (_ <? _); [|by eauto]. destruct (rl_x2apic hv s5) as (s6 & E6 & Hi6). exists s6.
    unfold on_socket, unwrapped. by rewrite E6. }
  destruct (rl_manager hv c files s6) as (mm & s7 & E7 & Hi7). exists mm, s7. split; [|congruence].
  unfold vm_receive_config. rewrite Hn. erewrite m_bind_run by (unfold on_socket; by rewrite E1).
  erewrite m_bind_run by (unfold lift; by rewrite Hc). erewrite m_bind_run by (unfold on_socket, call; by rewrite E2).
  erewrite m_bind_run by done.
  erewrite m_bind_run by (unfold on_socket, receive_ext, m_map_err, of_sum; by rewrite E3).
  erewrite m_bind_run by exact E4.
  erewrite m_bind_run by (unfold on_socket, receive_ext, m_map_err, of_sum; by rewrite E5).
  erewrite m_bind_run by exact E6. unfold on_socket, receive_ext, m_map_err, of_sum. by rewrite E7.
Qed.

Lemma config_turn fuel unix s v data rest c :
  is_u64 (zlen data) → parse_config data = Some c →
  incoming s = request_bytes (request_new Config (zlen data)) ++ data ++ rest →
  ∃ mm s', receive_turn fuel unix Started (s, v) =
      (Ok (request_new Config (zlen data), Configured mm), (s', {| vm := vm v; vm_config := Some c |})) ∧
    incoming s' = rest.
Proof using L RL.
  intros Hu Hc Hi.
  destruct (turn_ok fuel unix Started (request_new Config (zlen data)) (data ++ rest) s v
    (λ st s2 v2, (∃ mm, st = Configured mm) ∧ v2 = {| vm := vm v; vm_config := Some c |} ∧ incoming s2 = rest))
    as (st & s2 & v2 & s3 & ([mm ->] & -> & Hi2) & E & Hi3 & _); [done|done|done| |].
  - intros s1 Hi1 _.
    destruct (receive_config_ok (request_new Config (zlen data)) data rest c [] s1 v) as (mm & s2 & E2 & Hi2); try done.
    destruct (rl_connections mm s2) as (s3 & E3 & Hi3).
    exists (Configured mm), s3, {| vm := vm v; vm_config := Some c |}. split; [|split; [by exists mm|]; split; congruence].
    cbn [vm_receive_migration_step req_command request_new]. unfold configure_vm. erewrite m_bind_run by exact E2.
    erewrite m_bind_run by (unfold on_socket, call; by rewrite E3). done.
  - exists mm, s3. split; [done|]. by rewrite Hi3.
Qed.

Lemma state_turn fuel unix mm s v data rest c snap :
  is_u64 (zlen data) → parse_snapshot data = Some snap → vm_config v = Some c →
  incoming s = request_bytes (request_new State (zlen data)) ++ data ++ rest →
  ∃ u s', receive_turn fuel unix (Configured mm) (s, v) =
      (Ok (request_new State (zlen data), StateReceived), (s', {| vm := Some u; vm_config := Some c |})) ∧
    restored u (Some c) ∧ incoming s' = rest ∧ ∀ x, mem s' x = mem s x.
Proof using L RL.
  intros Hu Hd Hc Hi.
  destruct (turn_ok fuel unix (Configured mm) (request_new State (zlen data)) (data ++ rest) s v
    (λ st s2 v2, st = StateReceived ∧ (∃ u, v2 = {| vm := Some u; vm_config := Some c |} ∧ restored u (Some c)) ∧
       incoming s2 = rest ∧ ∀ x, mem s2 x = mem s x))
    as (st & s2 & v2 & s3 & (-> & (u & -> & Hr) & Hi2 & Hm2) & E & Hi3 & Hm3); [done|done|done| |].
  - intros s1 Hi1 Hm1. destruct (rl_cleanup s1) as (s2 & E2 & Hi2 & Hm2).
    destruct (payload_read data rest s2) as (s3 & E3 & Hi3 & Hm3); [congruence|].
    destruct (rl_new_vm c mm snap s3) as (u & s4 & E4 & Hi4 & Hm4).
    exists StateReceived, s4, {| vm := Some u; vm_config := Some c |}. split.
    + unfold vm_receive_migration_step, vm_receive_state, mbind, M_bind, on_socket, call, set_vm, gets.
      cbn [req_command req_length request_new]. rewrite E2, E3, Hd. unfold lift. cbn [ok_or]. rewrite Hc, E4. by rewrite Hc.
    + split; [done|]. split; [exists u; split; [done|by exists mm, data, snap, s3, s4]|]. split; [congruence|].
      intros x. by rewrite Hm4, Hm3, Hm2.
  - exists u, s3. split; [done|]. split; [done|]. split; [by rewrite Hi3|]. intros x. by rewrite Hm3.
Qed.

(** The last turn runs the VM on the memory as it was received. *)
Lemma complete_turn fuel unix s v u rest :
  vm v = Some u → incoming s = request_bytes (request_new Complete 0) ++ rest →
  ∃ s1 u' s2 s', (∀ x, mem s1 x = mem s x) ∧ resume u s1 = (inr u', s2) ∧
    receive_turn fuel unix StateReceived (s, v) =
      (Ok (request_new Complete 0, Completed), (s', {| vm := Some u'; vm_config := vm_config v |})).
Proof using L RL.
  intros Hv Hi.
  destruct (turn_ok fuel unix StateReceived (request_new Complete 0) rest s v
    (λ st s2 v2, st = Completed ∧ ∃ s1 u', (∀ x, mem s1 x = mem s x) ∧ resume u s1 = (inr u', s2) ∧
       v2 = {| vm := Some u'; vm_config := vm_config v |}))
    as (st & s2 & v2 & s3 & (-> & s1 & u' & Hm1 & Hr & ->) & E & _); [done|done|done| |].
  - intros s1 Hi1 Hm1. destruct (rl_resume u s1) as (u' & s2 & E2).
    exists Completed, s2, {| vm := Some u'; vm_config := vm_config v |}. split; [|by eauto 6].
    unfold vm_receive_migration_step, mbind, M_bind, on_socket, call, set_vm, gets, lift.
    cbn [req_command request_new]. rewrite Hv. cbn [unwrap]. by rewrite E2.
  - by exists s1, u', s2, s3.
Qed.

End memory.

(** C37: the receiver and the protocol.  When [vm_receive_migration] returns normally,
    it either has completed the migration, and then the commands it answered are
    [Start], memory descriptors, [Config], memory, [State], [Complete], in the
    order of the protocol's state diagram, and the VMM holds the received
    configuration and a VM restored from a received snapshot under it, and resumed;
    or the migration was abandoned or failed, and the VMM holds neither.  When it returns
    an error, the commands answered so far follow the state diagram, the connection failed
    in the next turn, and the VMM keeps what the steps up to that point have built. *)
Theorem receiver_protocol {St : Stream} {G : GuestIo} {R : ReceiverOps} fuel unix s v r s' v' :
  vm_receive_migration fuel unix (s, v) = (r, (s', v')) →
  match r with
  | Ok _ =>
      (∃ cs, served unix (s, v) cs Completed (s', v') ∧ (∃ k m, cs = until_state k m ++ [Complete]) ∧
         is_Some (vm_config v') ∧ ∃ u, vm v' = Some u ∧ resumed u (vm_config v')) ∨
      (∃ cs w, served unix (s, v) cs Aborted (s', w) ∧ v' = {| vm := None; vm_config := None |})
  | Err e =>
      ∃ cs st s1 v1, served unix (s, v) cs st (s1, v1) ∧ progress cs st v1 ∧ finished st = false ∧
        lost_turn unix st s1 v1 e s' v'
  | Panic | Hang => True
  end.
Proof.
  unfold vm_receive_migration, mbind, M_bind. intros H.
  destruct (receive_loop fuel unix Established (s, v)) as [[st|e| |] [s1 v1]] eqn:Hl.
  - destruct (loop_served unix (s, v) fuel [] _ _ _ _ (served_nil _ _) Hl) as (Hf & cs & Hs). destruct st; try done.
    + injection H as <- <- <-. left. exists cs. split; [done|]. by apply served_progress in Hs.
    + injection H as <- <- <-. right. by exists cs, v1.
  - injection H as <- <- <-.
    destruct (loop_lost unix (s, v) fuel [] _ _ _ _ _ (served_nil _ _) Hl) as (cs & st & s2 & v2 & Hs & Hf & Hlt).
    exists cs, st, s2, v2. split; [done|]. by apply served_progress in Hs.
  - by injection H as <- _ _.
  - by injection H as <- _ _.
Qed.

(** A lost connection.  If the sender disappears after the VM's state was
    received, [vm_receive_migration] fails without the clean-up of the abandoned
    case: the VMM keeps the restored VM and its configuration. *)
Theorem lost_connection_keeps_vm {St : Stream} {G : GuestIo} {R : ReceiverOps} unix s v cs s1 v1 e s2 fuel :
  served unix (s, v) cs StateReceived (s1, v1) → request_read_from s1 = (Err e, s2) →
  receive_loop (S fuel) unix StateReceived (s1, v1) = (Err e, (s2, v1)) ∧
  is_Some (vm v1) ∧ is_Some (vm_config v1).
Proof.
  intros Hs He. apply served_progress in Hs as (_ & Hc & u & Hu & _). simpl in *.
  split; [|split; [by exists u|done]]. cbn [receive_loop finished]. unfold receive_turn, mbind, M_bind, on_socket.
  by rewrite He.
Qed.

(** Migration of memory.  When the sender's [do_memory_migration] succeeds, the
    guest is paused, and a receiver that has been configured and reads what the
    sender has put on the connection ends up, still configured, with exactly the
    memory of the paused guest, whatever its memory held before: although the guest
    ran and wrote during all iterations but the last, no write is lost. *)
Theorem memory_migration_complete
    {St1 : Stream} {V : Precopy.MigrationVm} {I : Itertools}
    (src : @sst St1 → Z → Z) (dirty : Precopy.Log → @sst St1 → Z → Prop) paused sent
    {L1 : Precopy.VmLaws src dirty paused sent} send {Hsend : Precopy.MemSend src dirty paused sent send}
    zones mappings
    {St2 : Stream} {G2 : GuestIo} {R2 : ReceiverOps} (mem : @sst St2 → Z → Z) ram2 incoming
    {L2 : SinkLaws mem ram2 incoming} fuel data ctx s ctx' s' :
  Forall Precopy.mapping_ok mappings → Forall sendable (Precopy.vm_memory_range_table zones) →
  (∀ x, Precopy.ram zones x → ∃ r, r ∈ mappings ∧ Precopy.page_of r (x / 4096)) →
  Precopy.do_memory_migration zones mappings send fuel data ctx s = (Ok ctx', s') →
  paused s' ∧ ∃ ms, sent s' = sent s ++ Precopy.messages ms ∧
    ∀ fuel2 unix mm q v rest, Forall (receivable ram2 fuel2) ms → incoming q = Precopy.messages ms ++ rest →
    ∃ q', receive_loop (length ms + fuel2) unix (Configured mm) (q, v) =
        receive_loop fuel2 unix (Configured mm) (q', v) ∧
      incoming q' = rest ∧ ∀ x, Precopy.ram zones x → mem q' x = src s' x.
Proof.
  intros Hm Ht Hr E.
  destruct (Precopy.precopy_run src dirty paused sent send zones mappings Hm Ht Hr fuel data ctx s ctx' s' E)
    as (Hp & ms & Hs & Hok & Hd).
  split; [done|]. exists ms. split; [done|]. intros fuel2 unix mm q v rest Hrcv Hi.
  destruct (receive_messages mem ram2 incoming fuel2 unix mm ms q v rest Hok Hrcv Hi) as (q' & E2 & Hi2 & Hm2).
  exists q'. split; [done|]. split; [done|]. intros x Hx. rewrite Hm2. by apply Hd.
Qed.

End MigrationReceiver.
