(* ===== verification/MigrationSender.v ===== *)
(** * The sender of a live migration

    Model of [vm_send_migration] and [send_migration] in
    [cloud-hypervisor/vmm/src/lib.rs], of [send_config] and [send_state] in
    [vmm/src/migration_transport.rs], of [Vm::send_memory_fds] in [vmm/src/vm.rs] and
    of [VmSendMigrationData::validate] in [vmm/src/api/mod.rs].  The parts of the
    machine that are not memory are the class [SenderOps]; the memory migration is
    [Precopy].  The theorems compose the sender with the receiver of
    [MigrationReceiver], and describe the sender's error path. *)

From S2P Require Import Prelude RustStr FloatTime Kernel RestoreSource MemoryRanges MigrationWire Precopy MigrationReceiver.
Import RestoreSource MemoryRanges MigrationWire Precopy.

Module MigrationSender.

(** ** The parameters of a migration *)
Definition MAX_MIGRATION_CONNECTIONS : Z := 128.

(** [str::strip_prefix] *)
Fixpoint strip_prefix (p s : list Z) : option (list Z) :=
  match p, s with
  | [], _ => Some s
  | c :: p', d :: s' => if c =? d then strip_prefix p' s' else None
  | _ :: _, [] => None
  end.

(** [url.strip_prefix(p).is_some_and(|rest| !rest.is_empty())] *)
Definition has_rest (p : string) (url : list Z) : bool :=
  match strip_prefix (lit p) url with Some rest => negb (bool_decide (rest = [])) | None => false end.
Definition starts_with (p : string) (url : list Z) : bool :=
  match strip_prefix (lit p) url with Some _ => true | None => false end.

Definition validate (d : VmSendMigrationData) : res string unit :=
  _ ← (if has_rest "tcp:" (destination_url d) then Ok tt
       else if has_rest "unix:" (destination_url d) then
         if 1 <? connections d then Err "UNIX sockets and connections option cannot be used at the same time."
         else Ok tt
       else Err "destination_url must use tcp:<host>:<port> or unix:<path>.");
  _ ← (if MAX_MIGRATION_CONNECTIONS <? connections d then Err "connections must not exceed 128." else Ok tt);
  if local d then
    if negb (starts_with "unix:" (destination_url d))
    then Err "local option is only supported with UNIX sockets."
    else if 1 <? connections d
    then Err "local option and connections option cannot be used at the same time."
    else Ok tt
  else Ok tt.

(** ** The machine *)
Inductive VmState := Created | Running | Shutdown | Paused | BreakPoint.

Global Instance vm_state_eq_dec : EqDecision VmState.
Proof. solve_decision. Defined.

Class SenderOps {St : Stream} := {
  (** whether the configured memory is shared, where there is a configuration *)
  backed_by_shared_memory : option bool;
  has_vm : bool;
  get_state : sst → VmState;
  connect : sst → (MigratableError + unit) * sst;
  is_unix : bool;
  memory_slot_fds : list (Z * Z);
  send_with_fd : Z → Z → sst → (io_error + unit) * sst;
  generate_common_cpuid : sst → (MigratableError + unit) * sst;
  config_data : sst → (MigratableError + list Z) * sst;
  snapshot : sst → (MigratableError + list Z) * sst;
  start_migration : sst → (MigratableError + unit) * sst;
  complete_migration : sst → (MigratableError + unit) * sst;
  release_disk_locks : sst → (MigratableError + unit) * sst;
  stop_dirty_log : sst → (MigratableError + unit) * sst;
  resume_vm : sst → (MigratableError + unit) * sst;
  new_mem_send : sst → (MigratableError + unit) * sst;
  cleanup_mem_send : sst → (MigratableError + unit) * sst;
  write_exit_evt : sst → (io_error + unit) * sst }.

Section code.
Context {St : Stream} {G : GuestIo} {V : MigrationVm} {I : Itertools} {O : SenderOps}.
Context (zones : list MemoryZone) (guest_ram_mappings : list GuestRamMapping).
Context (send_memory : MemoryRangeTable → M sst MigratableError bool).

(** A request followed by its payload. *)
Definition send_payload (command : Command) (data : list Z) (error : string) : M sst MigratableError unit :=
  _ ← request_write_to (request_new command (zlen data));
  _ ← sock (s_write_all data);
  expect_ok_response (MigrateSend error).
Definition send_config (data : list Z) := send_payload Config data "Error during config migration".
Definition send_state (data : list Z) := send_payload State data "Error during state migration".

Definition send_memory_fds : M sst MigratableError unit :=
  for_ memory_slot_fds (λ '(slot, fd),
    _ ← m_map_err (λ _, MigrateSend "Error sending memory fd request") (request_write_to (request_new MemoryFd 4));
    _ ← m_map_err (λ _, MigrateSend "Error sending memory fd") (of_sum (send_with_fd slot fd));
    expect_ok_response (MigrateSend "Error during memory fd migration")).

(** The transfer of the memory, or the pause of a local migration. *)
Definition migrate_memory (fuel : nat) (data : VmSendMigrationData) (ctx : OngoingMigrationContext)
    : M sst MigratableError OngoingMigrationContext :=
  if local data then
    downtime_begin ← clock;
    _ ← call pause;
    mem_ctx ← memory_context_new;
    time ← clock;
    match set_vm_paused ctx downtime_begin (finalize_memory mem_ctx time) with
    | Ok ctx' => mret ctx'
    | _ => lift Panic
    end
  else
    _ ← call new_mem_send;
    ctx' ← (λ s, match do_memory_migration zones guest_ram_mappings send_memory fuel data ctx s with
                 | (Err e, s') => (Err e, (cleanup_mem_send s').2)
                 | r => r
                 end);
    _ ← call cleanup_mem_send;
    mret ctx'.

(** [send_migration] up to the memory, and after it. *)
Definition send_prologue (data : VmSendMigrationData) : M sst MigratableError Z :=
  begin ← clock;
  _ ← call connect;
  _ ← send_request_expect_ok (request_new Start 0) (MigrateSend "Error starting migration");
  _ ← call generate_common_cpuid;
  _ ← (if local data then
         if is_unix then send_memory_fds
         else fail (MigrateSend "--local option is not supported with TCP sockets")
       else mret tt);
  config ← call config_data;
  _ ← send_config config;
  _ ← call start_migration;
  mret begin.

(** The state and its acknowledgement, up to the completion. *)
Definition send_epilogue (ctx : OngoingMigrationContext) : M sst MigratableError unit :=
  _ ← call release_disk_locks;
  t0 ← clock;
  state ← call snapshot;
  t1 ← clock;
  t2 ← clock;
  _ ← send_state state;
  t3 ← clock;
  t4 ← clock;
  _ ← send_request_expect_ok (request_new Complete 0) (MigrateSend "Error completing migration");
  t5 ← clock;
  t6 ← clock;
  t7 ← clock;
  match finalize ctx (duration_since t1 t0) (duration_since t3 t2) (duration_since t5 t4) t6 t7 with
  | Ok _ => mret tt
  | _ => lift Panic
  end.

Definition send_migration (fuel : nat) (data : VmSendMigrationData) : M sst MigratableError unit :=
  begin ← send_prologue data;
  ctx ← migrate_memory fuel data (Begin begin);
  _ ← send_epilogue ctx;
  _ ← (if local data then mret tt else call stop_dirty_log);
  call complete_migration.

(** The [map_err] of [vm_send_migration]: what a failed migration leaves. *)
Definition migration_failed (data : VmSendMigrationData) (e : MigratableError) : M sst MigratableError unit :=
  r ← (if local data then mret (inr tt) else try_ (call stop_dirty_log));
  match r with
  | inl e' => fail e'
  | inr _ =>
      st ← gets get_state;
      if bool_decide (st = Paused) then
        r ← try_ (call resume_vm);
        match r with
        | inl e' => fail e'
        | inr _ => fail e
        end
      else fail e
  end.

Definition vm_send_migration (fuel : nat) (data : VmSendMigrationData) : M sst MigratableError unit :=
  _ ← lift (map_err (λ _, MigrateSend "Invalid send migration configuration") (validate data));
  shared ← lift (unwrap backed_by_shared_memory);
  if negb shared && local data
  then fail (MigrateSend "Local migration requires shared memory or hugepages enabled")
  else if negb has_vm then fail (MigrateSend "VM is not running")
  else
    st ← gets get_state;
    if negb (bool_decide (st = Running)) then fail (MigrateSend "VM is not in running state")
    else
      r ← try_ (send_migration fuel data);
      match r with
      | inl e => migration_failed data e
      | inr _ =>
          m_map_err (λ _, MigrateSend "Failed shutting down the VM after migration") (of_sum write_exit_evt)
      end.

End code.

(** ** What the sender puts on the connection *)

(** The bytes of a migration. *)
Definition migration_stream (config : list Z) (ms : list (MemoryRangeTable * list Z)) (state : list Z) : list Z :=
  request_bytes (request_new Start 0) ++ request_bytes (request_new Config (zlen config)) ++ config ++
  messages ms ++ request_bytes (request_new State (zlen state)) ++ state ++
  request_bytes (request_new Complete 0).

Section laws.
Context {St : Stream} {O : SenderOps}.
Context (src : sst → Z → Z) (paused : sst → Prop) (sent : sst → list Z).

(** What every step of the sender that is not a message does: it writes nothing,
    and a paused machine stays as it is. *)
Definition quiet (s s' : sst) : Prop :=
  sent s' = sent s ∧ (paused s → paused s' ∧ ∀ x, src s' x = src s x).

Class SenderLaws : Prop := {
  so_connect s s' : connect s = (inr tt, s') → quiet s s';
  so_cpuid s s' : generate_common_cpuid s = (inr tt, s') → quiet s s';
  so_config s bs s' : config_data s = (inr bs, s') → quiet s s';
  so_snapshot s bs s' : snapshot s = (inr bs, s') → quiet s s';
  so_start s s' : start_migration s = (inr tt, s') → quiet s s';
  so_complete s s' : complete_migration s = (inr tt, s') → quiet s s';
  so_locks s s' : release_disk_locks s = (inr tt, s') → quiet s s';
  so_stop s s' : stop_dirty_log s = (inr tt, s') → quiet s s';
  so_new s s' : new_mem_send s = (inr tt, s') → quiet s s';
  so_cleanup s s' : cleanup_mem_send s = (inr tt, s') → quiet s s' }.
End laws.

Section sender.
Context {St : Stream} {G : GuestIo} {V : MigrationVm} {I : Itertools} {O : SenderOps}.
Context (src : sst → Z → Z) (dirty : Log → sst → Z → Prop) (paused : sst → Prop) (sent : sst → list Z).
Context {L1 : SourceLaws src dirty paused sent} {L2 : VmLaws src dirty paused sent}.
Context {L3 : SenderLaws src paused sent}.
Context (send : MemoryRangeTable → M sst MigratableError bool) {Hsend : MemSend src dirty paused sent send}.
Context (zones : list MemoryZone) (mappings : list GuestRamMapping).
Hypothesis mappings_ok : Forall mapping_ok mappings.
Hypothesis table_sendable : Forall sendable (vm_memory_range_table zones).
Hypothesis ram_mapped : ∀ x, ram zones x → ∃ r, r ∈ mappings ∧ page_of r (x / 4096).
Local Notation quiet := (quiet src paused sent).

(** A step that puts [bs] on the connection. *)
Definition puts (bs : list Z) (s s' : sst) : Prop :=
  sent s' = sent s ++ bs ∧ (paused s → paused s' ∧ ∀ x, src s' x = src s x).

Lemma puts_quiet s s' : quiet s s' → puts [] s s'.
Proof. intros [H1 H2]. split; [by rewrite H1, app_nil_r|done]. Qed.

Lemma puts_trans bs1 bs2 s s1 s2 : puts bs1 s s1 → puts bs2 s1 s2 → puts (bs1 ++ bs2) s s2.
Proof.
  intros [H1 P1] [H2 P2]. split; [by rewrite H2, H1, app_assoc|].
  intros [Hp M1]%P1. apply P2 in Hp as [Hp M2]. split; [done|]. intros x. by rewrite M2, M1.
Qed.


Lemma clock_puts s t s' : clock s = (Ok t, s') → puts [] s s'.
Proof.
  intros H. destruct (clock_ran src dirty paused sent s t s' H) as [R S].
  apply puts_quiet. split; [done|apply R].
Qed.

Lemma write_puts bs s s' : sock (s_write_all bs) s = (Ok tt, s') → puts bs s s'.
Proof.
  intros H. destruct (write_run src dirty paused sent bs s) as (o & s1 & E & R & Ho).
  rewrite H in E. injection E as <- <-. destruct Ho as [[_ Hs]|[e ?]]; [|done]. split; [done|apply R].
Qed.

Lemma expect_puts error s s' : expect_ok_response error s = (Ok tt, s') → puts [] s s'.
Proof.
  intros H. destruct (expect_ok_run src dirty paused sent error s) as (o & s1 & E & R & Hs & _).
  rewrite H in E. injection E as <- <-. apply puts_quiet. split; [by apply Hs|apply R].
Qed.

Lemma request_puts r error s s' :
  send_request_expect_ok r error s = (Ok tt, s') → puts (request_bytes r) s s'.
Proof.
  intros ([] & s1 & H1%write_puts & H2%expect_puts)%m_bind_ok. rewrite <-(app_nil_r (request_bytes r)).
  by eapply puts_trans.
Qed.

Lemma payload_puts c data error s s' :
  send_payload c data error s = (Ok tt, s') → puts (request_bytes (request_new c (zlen data)) ++ data) s s'.
Proof.
  intros ([] & s1 & H1%write_puts & ([] & s2 & H2%write_puts & H3%expect_puts)%m_bind_ok)%m_bind_ok.
  pose proof (puts_trans _ _ _ _ _ H1 (puts_trans _ _ _ _ _ H2 H3)) as H. by rewrite app_nil_r in H.
Qed.

(** The memory of a migration over the network. *)
Lemma memory_puts fuel data ctx s ctx' s' :
  local data = false → migrate_memory zones mappings send fuel data ctx s = (Ok ctx', s') →
  paused s' ∧ ∃ ms, sent s' = sent s ++ messages ms ∧ Forall message_ok ms ∧
    ∀ m x, ram zones x → deliver ms m x = src s' x.
Proof.
  intros Hl. unfold migrate_memory. rewrite Hl.
  intros ([] & s1 & H1%call_Ok & (c & s2 & H2 & ([] & s3 & H3%call_Ok & H4)%m_bind_ok)%m_bind_ok)%m_bind_ok.
  injection H4 as _ <-.
  destruct (do_memory_migration zones mappings send fuel data ctx s1) as [[c0|e| |] s4] eqn:E; simplify_eq/=.
  destruct (precopy_run src dirty paused sent send zones mappings mappings_ok table_sendable ram_mapped
    fuel data ctx s1 c s2 E) as (Hp & ms & Hs & Hok & Hd).
  destruct (so_new _ _ _ _ _ H1) as [S1 _]. destruct (so_cleanup _ _ _ _ _ H3) as [S3 P3].
  destruct (P3 Hp) as [Hp3 M3]. split; [done|]. exists ms. split; [by rewrite S3, Hs, S1|]. split; [done|].
  intros m x Hx. rewrite M3. by apply Hd.
Qed.

(** Takes a computation that returned apart into its steps, and says what each of
    them puts on the connection. *)
Ltac steps H :=
  repeat (let x := fresh "x" in let s := fresh "s" in let E := fresh "E" in
          apply m_bind_ok in H as (x & s & E & H)).
Ltac step_puts :=
  repeat match goal with
  | E : clock _ = _ |- _ => apply clock_puts in E
  | E : call connect _ = _ |- _ => destruct_unit E; apply call_Ok, (so_connect src paused sent), puts_quiet in E
  | E : call generate_common_cpuid _ = _ |- _ =>
      destruct_unit E; apply call_Ok, (so_cpuid src paused sent), puts_quiet in E
  | E : call config_data _ = _ |- _ => apply call_Ok, (so_config src paused sent), puts_quiet in E
  | E : call snapshot _ = _ |- _ => apply call_Ok, (so_snapshot src paused sent), puts_quiet in E
  | E : call start_migration _ = _ |- _ => destruct_unit E; apply call_Ok, (so_start src paused sent), puts_quiet in E
  | E : call release_disk_locks _ = _ |- _ => destruct_unit E; apply call_Ok, (so_locks src paused sent), puts_quiet in E
  | E : call stop_dirty_log _ = _ |- _ => destruct_unit E; apply call_Ok, (so_stop src paused sent), puts_quiet in E
  | E : call complete_migration _ = _ |- _ =>
      destruct_unit E; apply call_Ok, (so_complete src paused sent), puts_quiet in E
  | E : send_request_expect_ok _ _ _ = _ |- _ => destruct_unit E; apply request_puts in E
  | E : send_config _ _ = _ |- _ => destruct_unit E; apply payload_puts in E
  | E : send_state _ _ = _ |- _ => destruct_unit E; apply payload_puts in E
  | H1 : puts _ ?s ?t, H2 : puts _ ?t ?u |- _ =>
      pose proof (puts_trans _ _ _ _ _ H1 H2); clear H1 H2
  end
with destruct_unit E := match type of E with _ = (Ok ?u, _) => destruct u end.

Ltac puts_done :=
  match goal with H : puts _ ?s ?t |- puts _ ?s ?t => rewrite ?app_nil_r, <-?app_assoc in H; exact H end.

Lemma prologue_puts data s t s' :
  local data = false → send_prologue data s = (Ok t, s') →
  ∃ config, puts (request_bytes (request_new Start 0) ++
                  request_bytes (request_new Config (zlen config)) ++ config) s s'.
Proof.
  intros Hl H. unfold send_prologue in H. rewrite Hl in H. steps H. injection H as <- <-.
  match goal with E : mret tt _ = _ |- _ => injection E as _ <- end. step_puts. eexists. puts_done.
Qed.

Lemma epilogue_puts ctx s s' :
  send_epilogue ctx s = (Ok tt, s') →
  ∃ state, puts (request_bytes (request_new State (zlen state)) ++ state ++
                 request_bytes (request_new Complete 0)) s s'.
Proof.
  intros H. unfold send_epilogue in H. steps H.
  match type of H with (match ?f with _ => _ end) _ = _ => destruct f; try done; injection H as <- end.
  step_puts. eexists. puts_done.
Qed.

(** [send_migration] up to the acknowledged completion. *)
Definition send_acknowledged (fuel : nat) (data : VmSendMigrationData) : M sst MigratableError unit :=
  begin ← send_prologue data;
  ctx ← migrate_memory zones mappings send fuel data (Begin begin);
  send_epilogue ctx.

Lemma send_migration_split fuel data s :
  send_migration zones mappings send fuel data s =
  (_ ← send_acknowledged fuel data;
   _ ← (if local data then mret tt else call stop_dirty_log);
   call complete_migration) s.
Proof.
  unfold send_migration, send_acknowledged, mbind, M_bind.
  destruct (send_prologue data s) as [[t|e| |] s1]; try done.
  by destruct (migrate_memory zones mappings send fuel data (Begin t) s1) as [[ctx|e| |] s2].
Qed.

Lemma acknowledged_stream fuel data s s' :
  local data = false → send_acknowledged fuel data s = (Ok tt, s') →
  paused s' ∧ ∃ config ms state, sent s' = sent s ++ migration_stream config ms state ∧ Forall message_ok ms ∧
    ∀ m x, ram zones x → deliver ms m x = src s' x.
Proof using All.
  intros Hl H. apply m_bind_ok in H as (t & s1 & [config [S1 _]]%prologue_puts & H); [|done].
  apply m_bind_ok in H as (ctx & s2 & (Hp & ms & S2 & Hok & Hd)%memory_puts & H); [|done].
  apply epilogue_puts in H as (state & S3 & P3). destruct (P3 Hp) as [Hp' M].
  split; [done|]. exists config, ms, state. split.
  - rewrite S3, S2, S1. unfold migration_stream. by rewrite <-?app_assoc.
  - split; [done|]. intros m x Hx. rewrite M. by apply Hd.
Qed.

Lemma send_migration_run fuel data s s' :
  local data = false → send_migration zones mappings send fuel data s = (Ok tt, s') →
  paused s' ∧ ∃ config ms state, sent s' = sent s ++ migration_stream config ms state ∧ Forall message_ok ms ∧
    ∀ m x, ram zones x → deliver ms m x = src s' x.
Proof using All.
  intros Hl H. rewrite send_migration_split in H. rewrite Hl in H.
  apply m_bind_ok in H as ([] & s1 & (Hp & config & ms & state & S1 & Hok & Hd)%acknowledged_stream & H); [|done].
  steps H. step_puts. match goal with H : puts _ s1 s' |- _ => destruct H as [S2 P2] end. destruct (P2 Hp) as [Hp' M].
  split; [done|]. exists config, ms, state. split; [by rewrite S2, S1, app_nil_r|].
  split; [done|]. intros m x Hx. rewrite M. by apply Hd.
Qed.

End sender.

(** ** The receiver of that stream *)
Section receiver.
Import MigrationReceiver.
Context {St : Stream} {G : GuestIo} {R : ReceiverOps}.
Context (mem : sst → Z → Z) (ram : Z → Prop) (incoming : sst → list Z).
Context {L : SinkLaws mem ram incoming} {RL : ReceiverLaws mem incoming}.

Lemma receive_stream fuel unix q v config ms state c snap :
  is_u64 (zlen config) → is_u64 (zlen state) → parse_config config = Some c → parse_snapshot state = Some snap →
  Forall message_ok ms → Forall (receivable ram (S (S fuel))) ms →
  incoming q = migration_stream config ms state →
  ∃ m q1 u u' q2 q', (∀ x, mem q1 x = deliver ms m x) ∧ restored u (Some c) ∧ resume u q1 = (inr u', q2) ∧
    vm_receive_migration (4 + (length ms + fuel)) unix (q, v) =
      (Ok tt, (q', {| vm := Some u'; vm_config := Some c |})).
Proof using L RL.
  intros Hu1 Hu2 Hc Hs Hok Hr Hi. unfold migration_stream in Hi.
  replace (4 + (length ms + fuel))%nat with (S (S (length ms + S (S fuel)))) by lia.
  destruct (start_turn mem ram incoming (S (length ms + S (S fuel))) unix q v _ Hi) as (q1 & E1 & Hi1).
  destruct (config_turn mem ram incoming (length ms + S (S fuel)) unix q1 v config _ c Hu1 Hc Hi1)
    as (mm & q2 & E2 & Hi2).
  set (v2 := {| vm := vm v; vm_config := Some c |}) in *.
  destruct (receive_messages mem ram incoming (S (S fuel)) unix mm ms q2 v2 _ Hok Hr Hi2) as (q3 & E3 & Hi3 & Hm3).
  destruct (state_turn mem ram incoming (S fuel) unix mm q3 v2 state _ c snap Hu2 Hs eq_refl Hi3)
    as (u & q4 & E4 & Hres & Hi4 & Hm4).
  destruct (complete_turn mem ram incoming fuel unix q4 {| vm := Some u; vm_config := Some c |} u [] eq_refl)
    as (q5 & u' & q6 & q7 & Hm5 & E5 & E6); [by rewrite app_nil_r|].
  exists (mem q2), q5, u, u', q6, q7. split; [intros x; by rewrite Hm5, Hm4, Hm3|]. split; [done|]. split; [done|].
  unfold vm_receive_migration, mbind, M_bind.
  rewrite (step_loop _ _ _ _ _ _ _ E1 eq_refl), (step_loop _ _ _ _ _ _ _ E2 eq_refl), E3,
    (step_loop _ _ _ _ _ _ _ E4 eq_refl), (step_loop _ _ _ _ _ _ _ E6 eq_refl). by destruct fuel.
Qed.

(** A receiver that reads the stream and accepts the configuration and the snapshot in
    it returns normally with a VM that was restored under that configuration and
    resumed, on the given memory. *)
Definition runs_at_destination (config : list Z) (ms : list (MemoryRangeTable * list Z)) (state : list Z)
    (zones : list MemoryZone) (memory : Z → Z) : Prop :=
  ∀ fuel unix q v c snap,
    incoming q = migration_stream config ms state → is_u64 (zlen config) → is_u64 (zlen state) →
    parse_config config = Some c → parse_snapshot state = Some snap → Forall (receivable ram (S (S fuel))) ms →
    ∃ q1 u u' q2 q', restored u (Some c) ∧ resume u q1 = (inr u', q2) ∧
      (∀ x, Precopy.ram zones x → mem q1 x = memory x) ∧
      vm_receive_migration (4 + (length ms + fuel)) unix (q, v) =
        (Ok tt, (q', {| vm := Some u'; vm_config := Some c |})).

Lemma stream_runs config ms state zones memory :
  Forall message_ok ms → (∀ m x, Precopy.ram zones x → deliver ms m x = memory x) →
  runs_at_destination config ms state zones memory.
Proof using L RL.
  intros Hok Hd fuel unix q v c snap Hi H1 H2 Hc Hs Hr.
  destruct (receive_stream fuel unix q v config ms state c snap H1 H2 Hc Hs Hok Hr Hi)
    as (m & q1 & u & u' & q2 & q' & Hm1 & Hres & E1 & E2).
  exists q1, u, u', q2, q'. split; [done|]. split; [done|]. split; [|done]. intros x Hx. rewrite Hm1. by apply Hd.
Qed.

End receiver.

(** ** Theorems *)
Section migration.
Context {St1 : Stream} {G1 : GuestIo} {V : MigrationVm} {I : Itertools} {O : SenderOps}.
Context (src : @sst St1 → Z → Z) (dirty : Log → @sst St1 → Z → Prop) (paused : @sst St1 → Prop) (sent : @sst St1 → list Z).
Context {L0 : SourceLaws src dirty paused sent} {L1 : VmLaws src dirty paused sent} {L3 : SenderLaws src paused sent}.
Context (send : MemoryRangeTable → M (@sst St1) MigratableError bool) {Hsend : MemSend src dirty paused sent send}.
Context (zones : list MemoryZone) (mappings : list GuestRamMapping).
Context {St2 : Stream} {G2 : GuestIo} {R2 : MigrationReceiver.ReceiverOps}.
Context (mem : @sst St2 → Z → Z) (ram2 : Z → Prop) (incoming : @sst St2 → list Z).
Context {L2 : SinkLaws mem ram2 incoming} {RL : MigrationReceiver.ReceiverLaws mem incoming}.

(** C3: a migration.  When [send_migration] succeeds over the network, the source is
    paused, and a receiver that reads what was put on the connection, and accepts the
    configuration and the snapshot in it, returns normally with a VM restored under
    that configuration and resumed; the memory it is resumed on is the memory of the
    paused source. *)
Theorem migration_end_to_end fuel data s s' :
  Forall mapping_ok mappings → Forall sendable (vm_memory_range_table zones) →
  (∀ x, ram zones x → ∃ r, r ∈ mappings ∧ page_of r (x / 4096)) →
  local data = false → send_migration zones mappings send fuel data s = (Ok tt, s') →
  paused s' ∧ ∃ config ms state, sent s' = sent s ++ migration_stream config ms state ∧
    runs_at_destination mem ram2 incoming config ms state zones (src s').
Proof using L0 L1 L3 Hsend L2 RL.
  intros Hm Ht Hr Hl E.
  destruct (send_migration_run src dirty paused sent send zones mappings Hm Ht Hr fuel data s s' Hl E)
    as (Hp & config & ms & state & Hs & Hok & Hd).
  split; [done|]. exists config, ms, state. split; [done|]. by apply stream_runs.
Qed.

(** A failure after the completion.  Once the destination has acknowledged
    [Complete], its VM runs.  If the source then cannot stop its dirty log or complete
    the migration of its devices, [vm_send_migration] treats the migration as failed
    and resumes the source: both VMs run, from the same memory. *)
Theorem completed_then_failed fuel data s s1 e s2 s3 s4 :
  Forall mapping_ok mappings → Forall sendable (vm_memory_range_table zones) →
  (∀ x, ram zones x → ∃ r, r ∈ mappings ∧ page_of r (x / 4096)) →
  local data = false → validate data = Ok tt → is_Some backed_by_shared_memory → has_vm = true →
  get_state s = Running →
  send_acknowledged send zones mappings fuel data s = (Ok tt, s1) →
  (_ ← call stop_dirty_log; call complete_migration) s1 = (Err e, s2) →
  stop_dirty_log s2 = (inr tt, s3) → get_state s3 = Paused → resume_vm s3 = (inr tt, s4) →
  vm_send_migration zones mappings send fuel data s = (Err e, s4) ∧
  ∃ config ms state, sent s1 = sent s ++ migration_stream config ms state ∧
    runs_at_destination mem ram2 incoming config ms state zones (src s1).
Proof using L0 L1 L3 Hsend L2 RL.
  intros Hm Ht Hr Hl Hv [shared Hsh] Hvm Hst E1 E2 E3 Hst3 E4. split.
  - assert (send_migration zones mappings send fuel data s = (Err e, s2)) as E.
    { rewrite send_migration_split, Hl. by erewrite m_bind_run by done. }
    unfold vm_send_migration, migration_failed, mbind, M_bind, try_, gets, lift, call.
    rewrite Hv. cbn. rewrite Hsh. cbn. rewrite Hl, andb_false_r, Hvm. cbn. rewrite Hst, bool_decide_true by done. cbn.
    rewrite E. cbn. rewrite E3. cbn. rewrite Hst3, bool_decide_true by done. by rewrite E4.
  - destruct (acknowledged_stream src dirty paused sent send zones mappings Hm Ht Hr fuel data s s1 Hl E1)
      as (Hp & config & ms & state & Hs & Hok & Hd).
    exists config, ms, state. split; [done|]. by apply stream_runs.
Qed.

End migration.

End MigrationSender.
