(* ===== verification/SendWorkers.v ===== *)
(** * Sending memory over several connections

    Model of [SendAdditionalConnections] in [vmm/src/migration_transport.rs] and of
    [Gate] in [vmm/src/sync_utils.rs]: the main thread that distributes chunks of
    memory over a bounded channel, the workers that send them, and the gate at which
    an iteration of the migration ends.  A state is the channels, the threads and the
    program counter of the main thread; a step of a thread is a function of the
    state, [None] where the thread is blocked, and a run is any sequence of steps.
    Sending a chunk is an outcome of the step; it is [MigrationWire.send_memory_ranges]
    on the worker's own connection. *)

From S2P Require Import Prelude Kernel RestoreSource MemoryRanges MigrationWire.
Import MemoryRanges MigrationWire.

Module SendWorkers.

Inductive SendMemoryThreadMessage := Memory (table : MemoryRangeTable) | Gate (g : nat) | Disconnect.
Inductive SendMemoryThreadNotify := NotifyGate | NotifyError.

(** Where a worker is: at the top of its loop, sending a table, having taken a gate
    message, waiting at the gate, having stored [worker_error], ended. *)
Inductive worker :=
| Receiving
| Sending (table : MemoryRangeTable)
| Arrived (g : nat)
| AtGate (g : nat)
| Failing
| Ended (r : res MigratableError unit).

(** Who called [cleanup]: [send_chunk] after an error or a disconnection,
    [wait_for_pending_data], or the owner. *)
Inductive caller := ByChunk (rest : list MemoryRangeTable) | ByDisconnected | ByWait | ByOwner.

(** Where the main thread is. *)
Inductive pc :=
| Ready
| Chunks (rest : list MemoryRangeTable)
| TrySend (chunk : MemoryRangeTable) (rest : list MemoryRangeTable)
| Gates (g k : nat)
| Waiting (g seen : nat)
| Disconnects (k : nat) (c : caller)
| Joining (i : nat) (first_err : res MigratableError unit) (c : caller)
| Returned (r : res MigratableError bool)
| Cleaned (r : res MigratableError unit).

(** The gates are numbered in the order they are made; [opened] are the open ones. *)
Record conns := {
  capacity : nat; queue : list SendMemoryThreadMessage; notifications : list SendMemoryThreadNotify;
  worker_error : bool; workers : list worker; threads : nat;
  next_gate : nat; opened : list nat; main : pc }.

Definition set_main (m : pc) (s : conns) : conns :=
  {| capacity := capacity s; queue := queue s; notifications := notifications s; worker_error := worker_error s;
     workers := workers s; threads := threads s; next_gate := next_gate s; opened := opened s; main := m |}.
Definition set_queue (q : list SendMemoryThreadMessage) (s : conns) : conns :=
  {| capacity := capacity s; queue := q; notifications := notifications s; worker_error := worker_error s;
     workers := workers s; threads := threads s; next_gate := next_gate s; opened := opened s; main := main s |}.
Definition set_notifications (ns : list SendMemoryThreadNotify) (s : conns) : conns :=
  {| capacity := capacity s; queue := queue s; notifications := ns; worker_error := worker_error s;
     workers := workers s; threads := threads s; next_gate := next_gate s; opened := opened s; main := main s |}.
Definition set_worker (i : nat) (w : worker) (s : conns) : conns :=
  {| capacity := capacity s; queue := queue s; notifications := notifications s; worker_error := worker_error s;
     workers := <[i := w]> (workers s); threads := threads s; next_gate := next_gate s; opened := opened s;
     main := main s |}.
Definition set_error (s : conns) : conns :=
  {| capacity := capacity s; queue := queue s; notifications := notifications s; worker_error := true;
     workers := workers s; threads := threads s; next_gate := next_gate s; opened := opened s; main := main s |}.
Definition set_threads (n : nat) (s : conns) : conns :=
  {| capacity := capacity s; queue := queue s; notifications := notifications s; worker_error := worker_error s;
     workers := workers s; threads := n; next_gate := next_gate s; opened := opened s; main := main s |}.
Definition gate_new (s : conns) : conns :=
  {| capacity := capacity s; queue := queue s; notifications := notifications s; worker_error := worker_error s;
     workers := workers s; threads := threads s; next_gate := S (next_gate s); opened := opened s; main := main s |}.
Definition gate_open (g : nat) (s : conns) : conns :=
  {| capacity := capacity s; queue := queue s; notifications := notifications s; worker_error := worker_error s;
     workers := workers s; threads := threads s; next_gate := next_gate s; opened := g :: opened s; main := main s |}.

Definition BUFFERED_REQUESTS_PER_THREAD : nat := 64.
Definition CHUNK_SIZE : Z := Z.shiftl 64 20.

(** [new]: [socket] and [spawn] are the errors of connecting and of starting the
    n-th thread.  Threads that were started before an error are joined. *)
Fixpoint spawn_threads (socket spawn : nat → option MigratableError) (n k : nat) : res MigratableError unit :=
  match k with
  | O => Ok tt
  | S k' =>
      match socket n with
      | Some e => Err e
      | None =>
          match spawn n with
          | Some _ => Err (MigrateSend "Error spawning send-memory thread")
          | None => spawn_threads socket spawn (S n) k'
          end
      end
  end.

Definition new (connections : nat) (socket spawn : nat → option MigratableError) : res MigratableError conns :=
  let empty n :=
    {| capacity := BUFFERED_REQUESTS_PER_THREAD * connections; queue := []; notifications := [];
       worker_error := false; workers := replicate n Receiving; threads := n; next_gate := 0; opened := [];
       main := Ready |} in
  if Nat.eqb connections 1 then Ok (empty 0%nat)
  else _ ← spawn_threads socket spawn 0 connections; Ok (empty connections).

(** All receivers of the message channel, and all senders of notifications, are gone. *)
Definition all_ended (s : conns) : bool :=
  forallb (λ w, match w with Ended _ => true | _ => false end) (workers s).
Definition has_room (s : conns) : bool := Nat.ltb (length (queue s)) (capacity s).

(** What sending a table gives. *)
Inductive outcome := SentOk | SendError | SendPanic.

(** A step of the worker [i] in [worker_send_memory]. *)
Definition worker_step (i : nat) (o : outcome) (s : conns) : option conns :=
  w ← workers s !! i;
  match w with
  | Receiving =>
      match queue s with
      | [] => None
      | m :: q =>
          Some (set_worker i (match m with
                              | Memory t => Sending t
                              | Gate g => Arrived g
                              | Disconnect => Ended (Ok tt)
                              end) (set_queue q s))
      end
  | Sending _ =>
      match o with
      | SentOk => Some (set_worker i Receiving s)
      | SendError => Some (set_worker i Failing (set_error s))
      | SendPanic => Some (set_worker i (Ended Panic) s)
      end
  | Failing =>
      Some (set_worker i (Ended (Err (MigrateSend "Error sending memory to receiver side")))
             (set_notifications (notifications s ++ [NotifyError]) s))
  | Arrived g => Some (set_worker i (AtGate g) (set_notifications (notifications s ++ [NotifyGate]) s))
  | AtGate g => if bool_decide (g ∈ opened s) then Some (set_worker i Receiving s) else None
  | Ended _ => None
  end.

Definition cleanup (c : caller) (s : conns) : conns := set_main (Disconnects (threads s) c) s.

(** What joining a thread gives. *)
Definition join_error (r : res MigratableError unit) : res MigratableError unit :=
  match r with
  | Panic | Hang => Err (MigrateSend "send-memory thread panicked")
  | _ => r
  end.
Definition first_of (first_err r : res MigratableError unit) : res MigratableError unit :=
  match first_err with Ok _ => join_error r | _ => first_err end.

(** [cleanup] returns to its caller. *)
Definition cleanup_return (r : res MigratableError unit) (c : caller) : pc :=
  match c, r with
  | ByChunk rest, Ok _ => Chunks rest
  | ByDisconnected, Ok _ =>
      Returned (Err (MigrateSend "All sending threads disconnected, but none returned an error?"))
  | ByWait, Ok _ => Returned (Ok true)
  | ByOwner, _ => Cleaned r
  | _, Err e => Returned (Err e)
  | _, Panic => Returned Panic
  | _, Hang => Returned Hang
  end.

(** A step of the main thread in [send_memory], [send_chunk],
    [wait_for_pending_data] and [cleanup]. *)
Definition main_step (s : conns) : option conns :=
  match main s with
  | Ready | Returned _ | Cleaned _ => None
  | Chunks [] => Some (set_main (Gates (next_gate s) (threads s)) (gate_new s))
  | Chunks (chunk :: rest) =>
      if worker_error s then Some (cleanup (ByChunk rest) s) else Some (set_main (TrySend chunk rest) s)
  | TrySend chunk rest =>
      if all_ended s then Some (cleanup ByDisconnected s)
      else if has_room s then Some (set_main (Chunks rest) (set_queue (queue s ++ [Memory chunk]) s))
      else Some (set_main (Chunks (chunk :: rest)) s)
  | Gates g 0 => Some (set_main (Waiting g 0) s)
  | Gates g (S k) =>
      if all_ended s then Some (set_main (Returned (Err (MigrateSend "Error sending gate message to workers"))) s)
      else if has_room s then Some (set_main (Gates g k) (set_queue (queue s ++ [Gate g]) s))
      else None
  | Waiting g seen =>
      match notifications s with
      | NotifyGate :: ns =>
          let seen := S seen in
          if Nat.eqb seen (threads s) then Some (set_main (Returned (Ok true)) (gate_open g (set_notifications ns s)))
          else Some (set_main (Waiting g seen) (set_notifications ns s))
      | NotifyError :: ns => Some (cleanup ByWait (gate_open g (set_notifications ns s)))
      | [] =>
          if all_ended s then Some (set_main (Returned (Err (MigrateSend "Error receiving message from workers"))) s)
          else None
      end
  | Disconnects (S k) c =>
      Some (set_main (Disconnects k c)
             (if negb (all_ended s) && has_room s then set_queue (queue s ++ [Disconnect]) s else s))
  | Disconnects 0 c => Some (set_main (Joining 0 (Ok tt) c) s)
  | Joining i first_err c =>
      if Nat.eqb i (threads s) then Some (set_main (cleanup_return first_err c) (set_threads 0 s))
      else
        match workers s !! i with
        | Some (Ended r) => Some (set_main (Joining (S i) (first_of first_err r) c) s)
        | _ => None
        end
  end.

(** The calls of the owner, where there are threads; a single connection is
    [Precopy.send_memory_single].  The fuel is the one [partition] needs. *)
Definition callable (s : conns) : bool :=
  match main s with Ready | Returned (Ok _) => negb (Nat.eqb (threads s) 0) | _ => false end.

Definition send_memory (table : MemoryRangeTable) (s : conns) : option conns :=
  if negb (callable s) then None
  else if bool_decide (table = []) then Some (set_main (Returned (Ok false)) s)
  else
    match partition (Z.to_nat (size_of table / CHUNK_SIZE + 2)) CHUNK_SIZE table : res MigratableError _ with
    | Ok chunks => Some (set_main (Chunks chunks) s)
    | _ => None
    end.

Definition owner_cleanup (s : conns) : option conns :=
  match main s with Ready | Returned _ => Some (cleanup ByOwner s) | _ => None end.

(** ** Runs *)

(** The table that a worker's step has sent and seen acknowledged. *)
Definition acknowledges (i : nat) (o : outcome) (s : conns) : list MemoryRangeTable :=
  match workers s !! i, o with
  | Some (Sending t), SentOk => [t]
  | _, _ => []
  end.

(** [reach n bound ts acks s]: [n] workers, after calls of [send_memory] with the tables
    [ts], have sent and seen acknowledged the chunks [acks]. *)
Inductive reach (n : nat) (bound : Z) : list MemoryRangeTable → list MemoryRangeTable → conns → Prop :=
| reach_new socket spawn s : new n socket spawn = Ok s → reach n bound [] [] s
| reach_call t ts acks s s' :
    reach n bound ts acks s → Forall (fits bound) t → send_memory t s = Some s' →
    reach n bound (ts ++ [t]) acks s'
| reach_cleanup ts acks s s' : reach n bound ts acks s → owner_cleanup s = Some s' → reach n bound ts acks s'
| reach_main ts acks s s' : reach n bound ts acks s → main_step s = Some s' → reach n bound ts acks s'
| reach_worker i o ts acks s s' :
    reach n bound ts acks s → worker_step i o s = Some s' →
    reach n bound ts (acks ++ acknowledges i o s) s'.

(** ** The invariant *)
Definition at_gate (g : nat) (w : worker) : nat := match w with AtGate g' => if Nat.eqb g' g then 1 else 0 | _ => 0 end.
Definition arrived (w : worker) : nat := match w with Arrived _ => 1 | _ => 0 end.
Definition sending (w : worker) : list MemoryRangeTable := match w with Sending t => [t] | _ => [] end.
Definition failed (w : worker) : Prop :=
  match w with Failing => True | Ended (Ok _) => False | Ended _ => True | _ => False end.
Definition some_failed (s : conns) : Prop := Exists failed (workers s).
Definition gates_in (ns : list SendMemoryThreadNotify) : nat :=
  sum_list_with (λ x, match x with NotifyGate => 1 | NotifyError => 0 end)%nat ns.

(** A worker in an iteration whose gate is [g]. *)
Definition worker_ok (g : nat) (opened : list nat) (w : worker) : Prop :=
  match w with
  | Arrived g' => g' = g
  | AtGate g' => g' = g ∨ g' ∈ opened
  | Ended (Ok _) => False
  | _ => True
  end.

(** An iteration with gate [g]: [k] gate messages are not sent yet, [seen] arrivals
    were seen, the chunks [pending] are not handed out yet; [chunks] are all chunks so
    far, [lost] those whose sending failed. *)
Record working (n : nat) (chunks acks pending : list MemoryRangeTable) (g k seen : nat) (s : conns) : Prop := {
  wk_len : length (workers s) = n;
  wk_threads : threads s = n;
  wk_opened : Forall (λ g', g' < g)%nat (opened s);
  wk_workers : Forall (worker_ok g (opened s)) (workers s);
  wk_queue : ∃ mems j lost, queue s = (Memory <$> mems) ++ replicate j (Gate g) ∧
    (j + sum_list_with arrived (workers s) + sum_list_with (at_gate g) (workers s) + k = n)%nat ∧
    ((sum_list_with arrived (workers s) + sum_list_with (at_gate g) (workers s))%nat ≠ 0%nat → mems = []) ∧
    chunks ≡ₚ acks ++ pending ++ mems ++ (workers s ≫= sending) ++ lost ∧ (lost ≠ [] → some_failed s);
  wk_seen : (gates_in (notifications s) + seen = sum_list_with (at_gate g) (workers s))%nat }.

Definition at_rest (n : nat) (chunks acks : list MemoryRangeTable) (s : conns) : Prop :=
  working n chunks acks [] (next_gate s) n 0 s ∧ chunks ≡ₚ acks.

Definition joined (i : nat) (r : res MigratableError unit) (s : conns) : Prop :=
  (r = Ok tt ∧ ∀ j, (j < i)%nat → workers s !! j = Some (Ended (Ok tt))) ∨ ∃ e, r = Err e.

Definition called_by (c : caller) (s : conns) : Prop :=
  match c with ByChunk _ | ByWait => some_failed s | _ => True end.

Definition main_ok (n : nat) (chunks acks : list MemoryRangeTable) (s : conns) : Prop :=
  match main s with
  | Ready | Returned (Ok _) => at_rest n chunks acks s
  | Chunks rest => working n chunks acks rest (next_gate s) n 0 s
  | TrySend chunk rest => working n chunks acks (chunk :: rest) (next_gate s) n 0 s
  | Gates g k => working n chunks acks [] g k 0 s ∧ (g < next_gate s)%nat
  | Waiting g seen => working n chunks acks [] g 0 seen s ∧ (g < next_gate s ∧ seen < n)%nat
  | Disconnects _ c => called_by c s ∧ (c = ByOwner ∨ length (workers s) = n ∧ threads s = n)
  | Joining i r c => called_by c s ∧ (c = ByOwner ∨ length (workers s) = n ∧ threads s = n) ∧ joined i r s
  | Returned _ | Cleaned _ => True
  end.

Record inv (n : nat) (chunks acks : list MemoryRangeTable) (s : conns) : Prop := {
  inv_main : main_ok n chunks acks s;
  inv_error : worker_error s = true ∨ NotifyError ∈ notifications s → some_failed s }.

(** ** Workers *)
Lemma insert_split {A} (ws : list A) i w :
  ws !! i = Some w → ∃ l r, ws = l ++ w :: r ∧ ∀ w', <[i := w']> ws = l ++ w' :: r.
Proof.
  intros H. exists (take i ws), (drop (S i) ws). split; [by rewrite take_drop_middle|].
  intros w'. apply insert_take_drop. by eapply lookup_lt_Some.
Qed.

Lemma replicate_Receiving {A} n (f : worker → list A) :
  f Receiving = [] → replicate n Receiving ≫= f = [].
Proof. intros Hf. induction n as [|n IH]; [done|]. cbn [replicate]. by rewrite bind_cons, Hf, IH. Qed.

Lemma sum_replicate n (f : worker → nat) : f Receiving = 0%nat → sum_list_with f (replicate n Receiving) = 0%nat.
Proof. intros Hf. induction n as [|n IH]; [done|]. simpl. by rewrite Hf, IH. Qed.

(** A worker that failed stays failed. *)
Lemma worker_failed i o s s' : worker_step i o s = Some s' → some_failed s → some_failed s'.
Proof.
  unfold worker_step, some_failed. destruct (workers s !! i) as [w|] eqn:Hw; [|done]. simpl.
  destruct (insert_split _ _ _ Hw) as (l & r & Hl & Hi). rewrite Hl, Exists_app, Exists_cons.
  intros Hs [H|[H|H]].
  1,3: destruct w; repeat case_match; simplify_eq; simpl; rewrite Hi, Exists_app, Exists_cons; tauto.
  destruct w; try done. injection Hs as <-. simpl. rewrite Hi, Exists_app, Exists_cons. simpl. tauto.
Qed.

Lemma main_failed s s' : main_step s = Some s' → some_failed s → some_failed s'.
Proof. unfold main_step. intros H. by repeat case_match; simplify_eq. Qed.

(** The worker [i] of [l ++ w :: r] becomes [w']. *)
Lemma working_update n chunks acks acks' pending g k seen s s' l w r w' mems j lost mems' j' lost' :
  working n chunks acks pending g k seen s → workers s = l ++ w :: r → workers s' = l ++ w' :: r →
  threads s' = threads s → opened s' = opened s → worker_ok g (opened s) w' →
  queue s' = (Memory <$> mems') ++ replicate j' (Gate g) →
  (j + sum_list_with arrived (workers s) + sum_list_with (at_gate g) (workers s) + k = n)%nat →
  (j' + arrived w' + at_gate g w' = j + arrived w + at_gate g w)%nat →
  ((sum_list_with arrived (workers s) + sum_list_with (at_gate g) (workers s))%nat ≠ 0%nat → mems = []) →
  (mems = [] → mems' = []) → ((arrived w' + at_gate g w' = arrived w + at_gate g w)%nat ∨ mems' = []) →
  chunks ≡ₚ acks ++ pending ++ mems ++ (workers s ≫= sending) ++ lost →
  acks' ++ mems' ++ sending w' ++ lost' ≡ₚ acks ++ mems ++ sending w ++ lost →
  (lost' ≠ [] → some_failed s') →
  (gates_in (notifications s') + at_gate g w = gates_in (notifications s) + at_gate g w')%nat →
  working n chunks acks' pending g k seen s'.
Proof.
  intros [Hlen Hth Hop Hws _ Hseen] Hl Hl' Ht Ho Hw' Hq Hj Hj' Hm Hmm Hmem Hc Hp Hlost Hn.
  rewrite Hl in *. rewrite !sum_list_with_app in *. simpl in *.
  apply Forall_app in Hws as [Hws1 [_ Hws2]%Forall_cons]. rewrite bind_app, bind_cons in Hc.
  split; rewrite ?Hl', ?Ho; [by rewrite <-Hlen, !length_app|congruence|done|by apply Forall_app; split; [|constructor]| |].
  - exists mems', j', lost'. split; [done|]. rewrite !sum_list_with_app, bind_app, bind_cons. simpl.
    split; [lia|]. split.
    + intros H. destruct Hmem as [Hmem|Hmem]; [|done]. apply Hmm, Hm. lia.
    + split; [|done]. transitivity (pending ++ (l ≫= sending) ++ (r ≫= sending) ++ (acks' ++ mems' ++ sending w' ++ lost'));
        [|solve_Permutation]. rewrite Hp, Hc. solve_Permutation.
  - rewrite sum_list_with_app. simpl. lia.
Qed.

Lemma gates_in_app ns x : gates_in (ns ++ [x]) = (gates_in ns + gates_in [x])%nat.
Proof. apply sum_list_with_app. Qed.

(** Taking a message. *)
Lemma working_receive n chunks acks pending g k seen s i m q :
  working n chunks acks pending g k seen s → workers s !! i = Some Receiving → queue s = m :: q →
  working n chunks acks pending g k seen
    (set_worker i (match m with Memory t => Sending t | Gate g => Arrived g | Disconnect => Ended (Ok tt) end)
       (set_queue q s)).
Proof.
  intros W Hw Hq. destruct (insert_split _ _ _ Hw) as (l & r & Hl & Hi).
  destruct (wk_queue _ _ _ _ _ _ _ _ W) as (mems & j & lost & Hqs & Hj & Hm & Hc & Hf). rewrite Hq in Hqs.
  assert (∀ w, lost ≠ [] → Exists failed (l ++ w :: r)) as Hf'.
  { intros w Hl0. specialize (Hf Hl0). unfold some_failed in Hf. rewrite Hl, Exists_app, Exists_cons in Hf.
    rewrite Exists_app, Exists_cons. destruct Hf as [?|[[]|?]]; auto. }
  destruct mems as [|t mems]; [destruct j as [|j]; [done|]|]; injection Hqs as -> ->.
  - eapply (working_update _ _ acks acks _ _ _ _ s _ l Receiving r (Arrived g) [] (S j) lost [] j lost); try done.
    1: apply Hi. 1: simpl; lia. 1: by right. simpl. unfold some_failed. simpl. rewrite Hi. auto.
  - eapply (working_update _ _ acks acks _ _ _ _ s _ l Receiving r (Sending t) (t :: mems) j lost mems j lost); try done.
    1: apply Hi. 1: by left. 1: simpl; solve_Permutation. unfold some_failed. simpl. rewrite Hi. auto.
Qed.

Lemma working_worker n chunks acks pending g k seen s i o s' :
  working n chunks acks pending g k seen s → worker_step i o s = Some s' →
  working n chunks (acks ++ acknowledges i o s) pending g k seen s'.
Proof.
  intros W. unfold worker_step, acknowledges. destruct (workers s !! i) as [w|] eqn:Hw; [|done]. simpl.
  destruct (insert_split _ _ _ Hw) as (l & r & Hl & Hi).
  destruct (wk_queue _ _ _ _ _ _ _ _ W) as (mems & j & lost & Hqs & Hj & Hm & Hc & Hf).
  assert (∀ w', (failed w → failed w') → lost ≠ [] → Exists failed (l ++ w' :: r)) as Hf'.
  { intros w' Hw' Hl0. specialize (Hf Hl0). unfold some_failed in Hf. rewrite Hl, Exists_app, Exists_cons in Hf.
    rewrite Exists_app, Exists_cons. tauto. }
  pose proof (wk_workers _ _ _ _ _ _ _ _ W) as Hok. rewrite Forall_lookup in Hok. specialize (Hok i w Hw).
  destruct w as [|t|g'|g'| |?]; [| | | | |done].
  - destruct (queue s) as [|m q] eqn:Hq; [done|]. intros [= <-]. rewrite app_nil_r. by apply working_receive.
  - destruct o; intros [= <-].
    + eapply (working_update _ _ acks (acks ++ [t]) _ _ _ _ s _ l (Sending t) r Receiving mems j lost mems j lost); try done.
      1: apply Hi. 1: by left. 1: simpl; solve_Permutation. unfold some_failed. simpl. rewrite Hi. auto.
    + rewrite app_nil_r.
      eapply (working_update _ _ acks acks _ _ _ _ s _ l (Sending t) r Failing mems j lost mems j (t :: lost)); try done.
      1: apply Hi. 1: by left. unfold some_failed. simpl. rewrite Hi, Exists_app, Exists_cons. simpl. auto.
    + rewrite app_nil_r.
      eapply (working_update _ _ acks acks _ _ _ _ s _ l (Sending t) r (Ended Panic) mems j lost mems j (t :: lost)); try done.
      1: apply Hi. 1: by left. unfold some_failed. simpl. rewrite Hi, Exists_app, Exists_cons. simpl. auto.
  - intros [= <-]. rewrite app_nil_r. simpl in Hok. subst g'.
    eapply (working_update _ _ acks acks _ _ _ _ s _ l (Arrived g) r (AtGate g) mems j lost mems j lost); try done.
    + apply Hi.
    + simpl. by left.
    + simpl. rewrite Nat.eqb_refl. lia.
    + left. simpl. by rewrite Nat.eqb_refl.
    + unfold some_failed. simpl. rewrite Hi. auto.
    + simpl. rewrite gates_in_app, Nat.eqb_refl. simpl. lia.
  - case_bool_decide as Hg; [|done]. intros [= <-]. rewrite app_nil_r.
    assert (g' ≠ g) as Hne.
    { intros ->. pose proof (wk_opened _ _ _ _ _ _ _ _ W) as Ho. rewrite Forall_forall in Ho. apply Ho in Hg. lia. }
    assert (at_gate g (AtGate g') = 0%nat) as H0 by (simpl; by rewrite (proj2 (Nat.eqb_neq _ _) Hne)).
    eapply (working_update _ _ acks acks _ _ _ _ s _ l (AtGate g') r Receiving mems j lost mems j lost); try done.
    1: apply Hi. 1: by rewrite H0. 1: left; by rewrite H0. 1: unfold some_failed; simpl; rewrite Hi; auto. by rewrite H0.
  - intros [= <-]. rewrite app_nil_r.
    eapply (working_update _ _ acks acks _ _ _ _ s _ l Failing r
      (Ended (Err (MigrateSend "Error sending memory to receiver side"))) mems j lost mems j lost); try done.
    1: apply Hi. 1: by left. 1: unfold some_failed; simpl; rewrite Hi; auto. simpl. rewrite gates_in_app. simpl. lia.
Qed.

(** What a worker's step leaves alone. *)
Lemma worker_frame i o s s' :
  worker_step i o s = Some s' →
  main s' = main s ∧ next_gate s' = next_gate s ∧ threads s' = threads s ∧ length (workers s') = length (workers s) ∧
  ∀ j r, workers s !! j = Some (Ended r) → workers s' !! j = Some (Ended r).
Proof.
  unfold worker_step. destruct (workers s !! i) as [w|] eqn:Hw; [|done]. simpl. intros H.
  assert (∃ w', workers s' = <[i := w']> (workers s) ∧ main s' = main s ∧ next_gate s' = next_gate s ∧
    threads s' = threads s ∧ ∀ r, w ≠ Ended r) as (w' & -> & -> & -> & -> & Hne).
  { destruct w; repeat case_match; simplify_eq; eauto 10. }
  rewrite length_insert. do 4 (split; [done|]). intros j r Hj.
  rewrite list_lookup_insert_ne; [done|]. intros ->. naive_solver.
Qed.

Lemma worker_error_step i o s s' :
  worker_step i o s = Some s' → (worker_error s = true ∨ NotifyError ∈ notifications s → some_failed s) →
  worker_error s' = true ∨ NotifyError ∈ notifications s' → some_failed s'.
Proof.
  intros Hs He H'. pose proof (worker_failed _ _ _ _ Hs) as Hmono.
  unfold worker_step in Hs. destruct (workers s !! i) as [w|] eqn:Hw; [|done]. simpl in Hs.
  destruct (insert_split _ _ _ Hw) as (l & r & Hl & Hi).
  assert (failed w ∨ (∃ t, w = Sending t ∧ o = SendError) ∨ some_failed s) as [Hf|[(t & -> & ->)|Hf]].
  { destruct w; repeat case_match; simplify_eq; simpl in *; eauto; right; right; apply He; set_solver. }
  - apply Hmono. unfold some_failed. rewrite Hl, Exists_app, Exists_cons. auto.
  - injection Hs as <-. unfold some_failed. simpl. rewrite Hi, Exists_app, Exists_cons. simpl. auto.
  - auto.
Qed.

Lemma at_rest_worker n chunks acks s i o s' :
  at_rest n chunks acks s → worker_step i o s = Some s' → at_rest n chunks (acks ++ acknowledges i o s) s'.
Proof.
  intros [W Hp] Hs. destruct (worker_frame _ _ _ _ Hs) as (_ & Hg & _).
  split; [rewrite Hg; by apply working_worker|].
  destruct (wk_queue _ _ _ _ _ _ _ _ W) as (mems & j & lost & _ & _ & _ & Hc & _).
  rewrite Hp in Hc. apply Permutation_length in Hc. rewrite !length_app in Hc.
  unfold acknowledges. destruct (workers s !! i) as [[]|] eqn:Hw; try by rewrite app_nil_r.
  destruct (insert_split _ _ _ Hw) as (l & r & Hl & _). rewrite Hl, bind_app, bind_cons, !length_app in Hc.
  simpl in Hc. lia.
Qed.

Lemma inv_worker n chunks acks s i o s' :
  inv n chunks acks s → worker_step i o s = Some s' → inv n chunks (acks ++ acknowledges i o s) s'.
Proof.
  intros [Hm He] Hs. split; [|by eapply worker_error_step].
  destruct (worker_frame _ _ _ _ Hs) as (Em & Eg & Et & El & Ee). pose proof (worker_failed _ _ _ _ Hs) as Hf.
  unfold main_ok in *. rewrite Em, ?Eg.
  destruct (main s) as [|rest|c rest|g k|g seen|k c|m r c|[]|r]; try done;
    try (by eapply at_rest_worker); try (by eapply working_worker);
    try (destruct Hm as [W Hg]; split; [by eapply working_worker|done]).
  - rewrite El, Et. destruct Hm as (Hc & Hm). split; [|done]. by destruct c; simpl in *; auto.
  - rewrite El, Et. destruct Hm as (Hc & Hl & Hj). split; [by destruct c; simpl in *; auto|].
    split; [done|]. destruct Hj as [[-> Hj]|Hj]; [left|by right]. split; [done|]. auto.
Qed.

(** ** The main thread *)

(** Nothing of [working] depends on the program counter and the counter of gates. *)
Lemma working_main n chunks acks pending g k seen m s :
  working n chunks acks pending g k seen s → working n chunks acks pending g k seen (set_main m s).
Proof. by intros []; split. Qed.

(** Handing out a chunk, and a gate message. *)
Lemma working_chunk n chunks acks chunk rest g s :
  working n chunks acks (chunk :: rest) g n 0 s →
  working n chunks acks rest g n 0 (set_queue (queue s ++ [Memory chunk]) s).
Proof.
  intros []. split; try done. destruct wk_queue0 as (mems & j & lost & Hq & Hj & Hm & Hc & Hl).
  assert (j = 0)%nat as -> by lia. exists (mems ++ [chunk]), 0%nat, lost. simpl in *. rewrite app_nil_r in Hq.
  split; [by rewrite Hq, fmap_app, app_nil_r|]. split; [done|]. split; [lia|]. split; [|done].
  rewrite Hc. solve_Permutation.
Qed.

Lemma working_gate n chunks acks pending g k seen s :
  working n chunks acks pending g (S k) seen s →
  working n chunks acks pending g k seen (set_queue (queue s ++ [Gate g]) s).
Proof.
  intros []. split; try done. destruct wk_queue0 as (mems & j & lost & Hq & Hj & Hm & Hc & Hl).
  exists mems, (S j), lost. simpl. rewrite Hq, <-app_assoc, replicate_cons_app. split; [done|]. split; [lia|done].
Qed.

Lemma sum_at_most (f : worker → nat) ws : (∀ w, f w ≤ 1)%nat → (sum_list_with f ws ≤ length ws)%nat.
Proof. intros Hf. induction ws as [|w ws IH]; simpl; [lia|]. specialize (Hf w). lia. Qed.

Lemma at_gate_le g w : (at_gate g w ≤ 1)%nat.
Proof. destruct w; simpl; try lia. destruct (Nat.eqb _ _); lia. Qed.

(** When all workers are at the gate, nothing is left to send. *)
Lemma all_at_gate g ws :
  sum_list_with (at_gate g) ws = length ws → Forall (λ w, w = AtGate g) ws.
Proof.
  induction ws as [|w ws IH]; simpl; [done|]. intros H.
  pose proof (sum_at_most (at_gate g) ws (at_gate_le g)). pose proof (at_gate_le g w).
  assert (at_gate g w = 1%nat) as Hw by lia. constructor; [|apply IH; lia].
  destruct w; try done. simpl in Hw. by destruct (Nat.eqb_spec g0 g) as [->|].
Qed.

Lemma gate_workers g ws :
  Forall (λ w, w = AtGate g) ws → ws ≫= sending = [] ∧ ¬ Exists failed ws ∧
  ∀ g' opened, (g < g')%nat → sum_list_with arrived ws = 0%nat ∧ sum_list_with (at_gate g') ws = 0%nat ∧
    Forall (worker_ok g' (g :: opened)) ws.
Proof.
  induction 1 as [|w ws -> _ (IH1 & IH2 & IH3)]; [split; [done|split; [by intros ?%Exists_nil|done]]|].
  split; [done|]. split; [by intros [[]|?]%Exists_cons|]. intros g' opened Hg.
  destruct (IH3 g' opened Hg) as (H1 & H2 & H3). simpl. rewrite H1, H2.
  destruct (Nat.eqb_spec g g'); [lia|]. split; [done|]. split; [done|]. constructor; [|done]. right. by left.
Qed.

Lemma working_done n chunks acks g seen ns s m :
  working n chunks acks [] g 0 seen s → (g < next_gate s)%nat → notifications s = NotifyGate :: ns →
  S seen = threads s → at_rest n chunks acks (set_main m (gate_open g (set_notifications ns s))).
Proof.
  intros [Hlen Hth Hop Hws Hq Hseen] Hg Hn Ht. rewrite Hn in Hseen. simpl in Hseen.
  pose proof (sum_at_most (at_gate g) (workers s) (at_gate_le g)) as Hle.
  destruct (gate_workers g (workers s)) as (H1 & H2 & H3); [apply all_at_gate; lia|].
  destruct (H3 (next_gate s) (opened s) Hg) as (H4 & H5 & H6).
  destruct Hq as (mems & j & lost & Hq & Hj & Hm & Hc & Hl). rewrite Hm, H1 in Hc by lia.
  assert (lost = []) as -> by (destruct lost; [done|destruct (H2 (Hl ltac:(done)))]).
  rewrite !app_nil_r in Hc. split; [|done]. split; try done; simpl.
  - constructor; [done|]. eapply Forall_impl; [exact Hop|]. simpl. lia.
  - exists [], 0%nat, []. rewrite Hq, Hm, H1, H4, H5 by lia. assert (j = 0)%nat as -> by lia.
    split; [done|]. split; [lia|]. split; [done|]. by rewrite !app_nil_r.
  - rewrite H5. change (gates_in (NotifyGate :: ns)) with (S (gates_in ns)) in Hseen. lia.
Qed.

Lemma joined_step i first r s :
  joined i first s → workers s !! i = Some (Ended r) → joined (S i) (first_of first r) s.
Proof.
  intros [[-> Hj]|[e ->]] Hw; [|right; by eexists]. simpl. destruct r as [[]|e| |]; simpl; try (right; by eexists).
  left. split; [done|]. intros j Hlt. destruct (decide (j = i)) as [->|]; [done|]. apply Hj. lia.
Qed.

(** Where a worker failed, [cleanup] returns an error. *)
Lemma joined_failed n r s : length (workers s) = n → joined n r s → some_failed s → ∃ e, r = Err e.
Proof.
  intros Hl [[-> Hj]|?] Hf; [|done]. exfalso. unfold some_failed in Hf. apply Exists_exists in Hf as (w & Hw & Hfw).
  apply list_elem_of_lookup in Hw as [j Hw]. pose proof (lookup_lt_Some _ _ _ Hw) as Hlt.
  rewrite Hj in Hw by lia. by injection Hw as <-.
Qed.

Lemma inv_working n chunks acks s s' :
  main_ok n chunks acks s' → worker_error s' = worker_error s →
  (∀ x, x ∈ notifications s' → x ∈ notifications s) → workers s' = workers s →
  (worker_error s = true ∨ NotifyError ∈ notifications s → some_failed s) → inv n chunks acks s'.
Proof. intros Hm E1 E2 E3 He. split; [done|]. unfold some_failed in *. rewrite E1, E3. naive_solver. Qed.

Lemma main_cleanup n chunks acks s :
  inv n chunks acks s →
  match main s with
  | Disconnects _ _ | Joining _ _ _ => ∀ s', main_step s = Some s' → inv n chunks acks s'
  | _ => True
  end.
Proof.
  intros [Hm He]. unfold main_ok, main_step in *. destruct (main s) as [|rest|c rest|g k|g seen|k c|i r c|r|r]; try done.
  - destruct Hm as (Hc & Hl). destruct k as [|k]; intros s' [= <-].
    + apply (inv_working _ _ _ s); try done. unfold main_ok. simpl. do 2 (split; [done|]). left. split; [done|]. lia.
    + destruct (negb (all_ended s) && has_room s); by apply (inv_working _ _ _ s).
  - destruct Hm as (Hc & Hl & Hj). intros s'. destruct (Nat.eqb_spec i (threads s)) as [->|Hi].
    + intros [= <-]. apply (inv_working _ _ _ s); try done. unfold main_ok. simpl.
      destruct c as [rest| | |], Hl as [?|[Hl Ht]]; try done; try (by destruct Hj as [[-> _]|[e ->]]);
        destruct (joined_failed n r s Hl ltac:(by rewrite <-Ht) Hc) as [e ->]; done.
    + destruct (workers s !! i) as [[]|] eqn:Hw; try done. intros [= <-].
      apply (inv_working _ _ _ s); try done. unfold main_ok. simpl. do 2 (split; [done|]). by apply joined_step.
Qed.

Lemma inv_main_step n chunks acks s s' :
  (0 < n)%nat → inv n chunks acks s → main_step s = Some s' → inv n chunks acks s'.
Proof.
  intros Hn0 Hinv Hs. pose proof (main_cleanup _ _ _ _ Hinv) as Hclean. destruct Hinv as [Hm He].
  unfold main_ok in Hm. destruct (main s) as [|rest|c rest|g k|g seen|k c|i r c|r|r] eqn:Em; try (by apply Hclean);
    unfold main_step in Hs; rewrite Em in Hs; try done.
  - destruct rest as [|c rest]; [|destruct (worker_error s) eqn:Hw]; injection Hs as <-; apply (inv_working _ _ _ s); try done;
      try (by rewrite Hw).
    + unfold main_ok. simpl. split; [|lia]. rewrite (wk_threads _ _ _ _ _ _ _ _ Hm).
      apply (working_main _ _ _ _ _ _ _ _ (gate_new s)). by destruct Hm; split.
    + unfold main_ok. simpl. split; [apply He; by left|]. destruct Hm. auto.
    + by apply working_main.
  - destruct (all_ended s); [|destruct (has_room s)]; injection Hs as <-; apply (inv_working _ _ _ s); try done.
    + unfold main_ok. simpl. split; [done|]. destruct Hm. auto.
    + apply working_main, (working_chunk _ _ _ _ _ (next_gate s)), Hm.
    + by apply working_main.
  - destruct Hm as [Hm Hg]. destruct k as [|k]; [|destruct (all_ended s); [|destruct (has_room s); [|done]]];
      injection Hs as <-; apply (inv_working _ _ _ s); try done; (split; [|done]).
    + by apply working_main.
    + by apply working_main, working_gate.
  - destruct Hm as (Hm & Hg & Hsn). destruct (notifications s) as [|[] ns] eqn:Hn.
    + destruct (all_ended s); [|done]. injection Hs as <-. by apply (inv_working _ _ _ s); try done; rewrite Hn.
    + destruct (Nat.eqb_spec (S seen) (threads s)) as [Ht|Ht]; injection Hs as <-; apply (inv_working _ _ _ s); try done;
        rewrite ?Hn; try (by right); try done; unfold main_ok; simpl.
      * by eapply working_done.
      * rewrite (wk_threads _ _ _ _ _ _ _ _ Hm) in Ht. split; [|lia]. apply working_main. destruct Hm.
        split; try done. simpl. rewrite Hn in *.
        change (gates_in (NotifyGate :: ns)) with (S (gates_in ns)) in *. lia.
    + injection Hs as <-. apply (inv_working _ _ _ s); try done; rewrite ?Hn; try (by right); try done.
      unfold main_ok. simpl. split; [apply He; right; by left|]. destruct Hm. auto.
Qed.

(** ** Calls *)
Lemma coverage_perm (xs ys : list MemoryRangeTable) a : xs ≡ₚ ys → coverage (mjoin xs) a = coverage (mjoin ys) a.
Proof.
  induction 1 as [|x l l' _ IH|x y l|l1 l2 l3 _ IH1 _ IH2]; [done| | |congruence];
    repeat match goal with |- context [mjoin (?x :: ?l)] => change (mjoin (x :: l)) with (x ++ mjoin l) end;
    rewrite !coverage_app; lia.
Qed.

Lemma coverage_mjoin (xs ys : list MemoryRangeTable) a :
  coverage (mjoin (xs ++ ys)) a = coverage (mjoin xs) a + coverage (mjoin ys) a.
Proof. pose proof (join_app xs ys) as H. by rewrite <-coverage_app, <-H. Qed.

Lemma inv_new n socket spawn s : (2 ≤ n)%nat → new n socket spawn = Ok s → inv n [] [] s.
Proof.
  intros Hn H.
  unfold new in H. rewrite (proj2 (Nat.eqb_neq n 1)) in H by lia.
  destruct (spawn_threads socket spawn 0 n); try done. injection H as <-. split; [|simpl; intros [?|?%elem_of_nil]; done]. unfold main_ok. simpl. split; [|done].
  split; simpl; [by rewrite length_replicate|done|done|by apply Forall_replicate| |].
  - exists [], 0%nat, []. simpl. rewrite !sum_replicate, replicate_Receiving by done.
    split; [done|]. split; [lia|]. split; done.
  - by rewrite sum_replicate.
Qed.

(** A call hands the chunks of the table to the main thread. *)
Lemma inv_call n bound chunks acks t s s' :
  CHUNK_SIZE + bound < 2 ^ 64 → inv n chunks acks s → Forall (fits bound) t → send_memory t s = Some s' →
  ∃ cs, inv n (chunks ++ cs) acks s' ∧ ∀ a, coverage (mjoin cs) a = coverage t a.
Proof.
  intros Hb [Hm He] Hfit. unfold send_memory, callable.
  assert (match main s with Ready | Returned (Ok _) => negb (threads s =? 0)%nat | _ => false end = true →
    at_rest n chunks acks s) as Hrest.
  { unfold main_ok in Hm. by destruct (main s) as [| | | | | | |[]|]. }
  destruct (match main s with Ready | Returned (Ok _) => _ | _ => false end); [|done].
  destruct (Hrest eq_refl) as [W Hp]. cbn [negb]. case_bool_decide as Ht.
  { intros [= <-]. exists []. rewrite app_nil_r. subst t. split; [|done].
    apply (inv_working _ _ _ s); try done. split; [by apply working_main|done]. }
  destruct (partition_ok (E:=MigratableError) bound CHUNK_SIZE (Z.to_nat (size_of t / CHUNK_SIZE + 2)) t)
    as (cs & -> & _ & Hcov); [done|done|done| |].
  { pose proof (size_nonneg _ _ Hfit). assert (0 ≤ size_of t / CHUNK_SIZE) by by apply Z.div_pos.
    rewrite Z2Nat.id; lia. }
  intros [= <-]. exists cs. split; [|done]. apply (inv_working _ _ _ s); try done.
  unfold main_ok. simpl. apply working_main. destruct W. split; try done.
  destruct wk_queue0 as (mems & j & lost & Hq & Hj & Hmm & Hc & Hl). exists mems, j, lost.
  split; [done|]. split; [done|]. split; [done|]. split; [|done]. rewrite Hc. solve_Permutation.
Qed.

Lemma reach_inv n bound ts acks s :
  (2 ≤ n)%nat → CHUNK_SIZE + bound < 2 ^ 64 → reach n bound ts acks s →
  ∃ chunks, inv n chunks acks s ∧ ∀ a, coverage (mjoin chunks) a = coverage (mjoin ts) a.
Proof.
  intros Hn Hb. induction 1 as [socket spawn s H|t ts acks s s' _ (chunks & Hi & Hc) Hfit Hs
    |ts acks s s' _ (chunks & Hi & Hc) Hs|ts acks s s' _ (chunks & Hi & Hc) Hs
    |i o ts acks s s' _ (chunks & Hi & Hc) Hs].
  - exists []. split; [by eapply inv_new|done].
  - destruct (inv_call _ _ _ _ _ _ _ Hb Hi Hfit Hs) as (cs & Hi' & Hc'). exists (chunks ++ cs). split; [done|].
    intros a. rewrite !coverage_mjoin, Hc, Hc'. simpl. by rewrite app_nil_r.
  - exists chunks. split; [|done]. destruct Hi as [Hm He]. unfold owner_cleanup in Hs. unfold main_ok in Hm.
    destruct (main s) as [| | | | | | |r|] eqn:Em; try done; injection Hs as <-; apply (inv_working _ _ _ s); try done;
      unfold main_ok; simpl; auto.
  - exists chunks. split; [eapply inv_main_step; [lia|done..]|done].
  - exists chunks. split; [by eapply inv_worker|done].
Qed.

(** ** A lost disconnection *)

(** Steps in which no sending fails. *)
Inductive runs : conns → conns → Prop :=
| runs_refl s : runs s s
| runs_main s s' s'' : runs s s' → main_step s' = Some s'' → runs s s''
| runs_worker i s s' s'' : runs s s' → worker_step i SentOk s' = Some s'' → runs s s''.

Definition alive (w : worker) : bool := match w with Failing | Ended _ => false | _ => true end.

(** Steps in which the worker [i] does not fail; the others may. *)
Inductive goes_on (i : nat) : conns → conns → Prop :=
| goes_on_refl s : goes_on i s s
| goes_on_main s s' s'' : goes_on i s s' → main_step s' = Some s'' → goes_on i s s''
| goes_on_worker j o s s' s'' :
    goes_on i s s' → (j = i → o = SentOk) → worker_step j o s' = Some s'' → goes_on i s s''.

(** A worker [i] that will never be told to end. *)
Definition abandoned (i : nat) (s : conns) : Prop :=
  Disconnect ∉ queue s ∧ (i < threads s)%nat ∧ ∃ w, workers s !! i = Some w ∧ alive w = true.

Lemma abandoned_worker i j o s s' :
  abandoned i s → (j = i → o = SentOk) → worker_step j o s = Some s' → abandoned i s'.
Proof.
  intros (Hq & Ht & w & Hw & Ha) Ho Hs. destruct (worker_frame _ _ _ _ Hs) as (_ & _ & Et & _ & _).
  unfold abandoned. rewrite Et. unfold worker_step in Hs. destruct (workers s !! j) as [u|] eqn:Hu; [|done].
  simpl in Hs.
  assert (Disconnect ∉ queue s' ∧ ∃ u', workers s' = <[j := u']> (workers s) ∧
    (alive u = true → o = SentOk → alive u' = true)) as (Hq' & u' & -> & Hu').
  { destruct u; try done.
    - destruct (queue s) as [|m q]; [done|]. injection Hs as <-. simpl. apply not_elem_of_cons in Hq as [Hm Hq].
      split; [done|]. eexists. split; [done|]. by destruct m.
    - destruct o; injection Hs as <-; (split; [done|]; eexists; split; [done|]; done).
    - injection Hs as <-. eauto.
    - case_bool_decide; [|done]. injection Hs as <-. eauto.
    - injection Hs as <-. eauto. }
  split; [done|]. split; [done|]. destruct (decide (j = i)) as [->|Hij].
  - rewrite Hw in Hu. injection Hu as ->. exists u'. split; [|auto].
    apply list_lookup_insert_eq. by eapply lookup_lt_Some.
  - exists w. by rewrite list_lookup_insert_ne.
Qed.

(** [cleanup] does not get past an abandoned worker. *)
Lemma abandoned_goes_on i c s s' :
  (∃ j r, main s = Joining j r c ∧ (j ≤ i)%nat) → abandoned i s → goes_on i s s' →
  (∃ j r, main s' = Joining j r c ∧ (j ≤ i)%nat) ∧ abandoned i s'.
Proof.
  intros Hm Ha. induction 1 as [|s s' s'' _ IH Hs|j o s s' s'' _ IH Ho Hs]; [done| |].
  - destruct (IH Hm Ha) as [(j & r & Hm' & Hj) Ha']. pose proof Ha' as (Hq & Ht & w & Hw & Hal).
    unfold main_step in Hs. rewrite Hm' in Hs. destruct (Nat.eqb_spec j (threads s')) as [->|_]; [lia|].
    destruct (workers s' !! j) as [[]|] eqn:Hu; simplify_eq/=. split; [|done].
    do 2 eexists. split; [done|]. destruct (decide (j = i)) as [->|]; [|lia].
    rewrite Hw in Hu. injection Hu as ->. done.
  - destruct (IH Hm Ha) as [Hm' Ha']. destruct (worker_frame _ _ _ _ Hs) as (-> & _). split; [done|].
    by eapply abandoned_worker.
Qed.

(** Into a full channel no [Disconnect] is sent. *)
Lemma disconnects_full c k : ∀ s,
  main s = Disconnects k c → has_room s = false →
  rtc (λ s s', main_step s = Some s') s (set_main (Joining 0 (Ok tt) c) s).
Proof.
  induction k as [|k IH]; intros s Hm Hr.
  - apply rtc_once. unfold main_step. by rewrite Hm.
  - eapply rtc_l; [unfold main_step; rewrite Hm, Hr, andb_false_r; done|]. apply (IH (set_main (Disconnects k c) s)); done.
Qed.

(** ** Progress *)

(** What is left to do in a call, when nothing fails. *)
Definition worker_work (w : worker) : nat :=
  match w with Sending _ | AtGate _ => 1 | Arrived _ => 2 | _ => 0 end.
Definition main_work (s : conns) : nat :=
  match main s with
  | Chunks rest => 5 * length rest + 5 * threads s + 2
  | TrySend _ rest => 5 * length rest + 4 + 5 * threads s + 2
  | Gates _ k => 4 * k + threads s + 1
  | Waiting _ seen => threads s - seen
  | _ => 0
  end.
Definition work (s : conns) : nat :=
  (main_work s + 3 * length (queue s) + sum_list_with worker_work (workers s))%nat.

Definition busy (s : conns) : bool :=
  match main s with Chunks _ | TrySend _ _ | Gates _ _ | Waiting _ _ => true | _ => false end.

(** A worker that can step. *)
Definition can_step (s : conns) (w : worker) : Prop :=
  match w with
  | Receiving => queue s ≠ []
  | AtGate g => g ∈ opened s
  | Ended _ => False
  | _ => True
  end.

Lemma worker_steps i w s :
  workers s !! i = Some w → can_step s w → ¬ failed w →
  ∃ s', worker_step i SentOk s = Some s' ∧ (work s' < work s)%nat ∧ capacity s' = capacity s ∧
    (some_failed s' → some_failed s).
Proof.
  intros Hw Hc Hf. destruct (insert_split _ _ _ Hw) as (l & r & Hl & Hi). unfold worker_step, some_failed. rewrite Hw. simpl.
  assert (∀ w' s', main_work s' = main_work s → workers s' = l ++ w' :: r →
    (3 * length (queue s') + worker_work w' < 3 * length (queue s) + worker_work w)%nat → ¬ failed w' →
    (work s' < work s)%nat ∧ (Exists failed (workers s') → Exists failed (workers s))) as Hgen.
  { intros w' s' Hm Hw' Hlt Hf'. unfold work. rewrite Hm, Hw', Hl, !sum_list_with_app. simpl. split; [lia|].
    rewrite !Exists_app, !Exists_cons. tauto. }
  destruct w; try done.
  - destruct (queue s) as [|m q] eqn:Hq; [done|]. eexists. split; [done|].
    destruct (Hgen (match m with Memory t => Sending t | Gate g => Arrived g | Disconnect => Ended (Ok tt) end)
      (set_worker i (match m with Memory t => Sending t | Gate g => Arrived g | Disconnect => Ended (Ok tt) end)
         (set_queue q s))); [done|apply Hi|destruct m; simpl; lia|by destruct m|done].
  - eexists. split; [done|]. destruct (Hgen Receiving (set_worker i Receiving s)); [done|apply Hi|simpl; lia|by intros []|done].
  - eexists. split; [done|]. destruct (Hgen (AtGate g) (set_worker i (AtGate g) (set_notifications (notifications s ++ [NotifyGate]) s)));
      [done|apply Hi|simpl; lia|by intros []|done].
  - simpl in Hc. rewrite bool_decide_true by done. eexists. split; [done|].
    destruct (Hgen Receiving (set_worker i Receiving s)); [done|apply Hi|simpl; lia|by intros []|done].
Qed.

(** In an iteration in which nothing failed, a worker that is not at its gate can
    step, unless it waits for a message that is still to come. *)
Lemma working_can_step n chunks acks pending g k seen s :
  working n chunks acks pending g k seen s → ¬ some_failed s →
  (sum_list_with (at_gate g) (workers s) < n)%nat → (queue s = [] → k = 0%nat) →
  ∃ i w, workers s !! i = Some w ∧ can_step s w ∧ ¬ failed w.
Proof.
  intros [Hlen Hth Hop Hws Hq Hseen] Hf Hlt Hk.
  assert (∃ w, w ∈ workers s ∧ at_gate g w = 0%nat ∧ (w = Receiving → queue s ≠ [])) as (w & Hin & Hw & Hr).
  { destruct (decide (queue s = [])) as [Hq0|Hq0].
    - destruct Hq as (mems & j & lost & Hqs & Hj & _). rewrite Hq0 in Hqs. symmetry in Hqs.
      apply app_eq_nil in Hqs as [_ Hj0]. destruct j; [|done]. rewrite (Hk Hq0) in Hj.
      assert (0 < sum_list_with arrived (workers s))%nat as Ha by lia. clear -Ha.
      induction (workers s) as [|w ws IH]; simpl in Ha; [lia|].
      destruct (decide (arrived w = 0%nat)) as [H0|H0].
      + destruct IH as (w' & ? & ? & ?); [lia|]. exists w'. split; [by right|done].
      + exists w. split; [by left|]. by destruct w.
    - rewrite <-Hlen in Hlt. clear -Hlt Hq0. induction (workers s) as [|w ws IH]; simpl in Hlt; [lia|].
      destruct (decide (at_gate g w = 0%nat)) as [H0|H0]; [exists w; split; [by left|done]|].
      destruct IH as (w' & ? & ? & ?); [pose proof (at_gate_le g w); lia|]. exists w'. split; [by right|done]. }
  pose proof Hin as Hin'. apply list_elem_of_lookup in Hin' as [i Hi]. exists i, w. split; [done|].
  assert (¬ failed w) as Hfw by (intros H; apply Hf; unfold some_failed; apply Exists_exists; eauto).
  split; [|done]. rewrite Forall_forall in Hws. specialize (Hws w Hin).
  destruct w as [| | |g'| |r]; simpl in *; try done; auto; try (by destruct r).
  destruct Hws as [->|?]; [|done]. by rewrite Nat.eqb_refl in Hw.
Qed.

Lemma runs_trans s s1 s2 : runs s s1 → runs s1 s2 → runs s s2.
Proof.
  intros H1 H2. revert H1. induction H2 as [|s1 s2 s3 _ IH E|i s1 s2 s3 _ IH E]; intros H1; [done| |].
  - eapply runs_main; [by apply IH|done].
  - eapply runs_worker; [by apply IH|done].
Qed.

(** A run that brings a call nearer to its end. *)
Definition nearer (n : nat) (chunks : list MemoryRangeTable) (s s' : conns) : Prop :=
  runs s s' ∧ (work s' < work s)%nat ∧ capacity s' = capacity s ∧ ¬ some_failed s' ∧
  (∃ acks, inv n chunks acks s') ∧ (busy s' = true ∨ main s' = Returned (Ok true)).

Lemma nearer_worker n chunks acks pending g k seen s :
  inv n chunks acks s → busy s = true → working n chunks acks pending g k seen s → ¬ some_failed s →
  (sum_list_with (at_gate g) (workers s) < n)%nat → (queue s = [] → k = 0%nat) → ∃ s', nearer n chunks s s'.
Proof.
  intros Hi Hb W Hf Hlt Hk. destruct (working_can_step _ _ _ _ _ _ _ _ W Hf Hlt Hk) as (i & w & Hw & Hc & Hfw).
  destruct (worker_steps i w s Hw Hc Hfw) as (s' & E & Hwk & Hcap & Hf'). exists s'.
  split; [eapply runs_worker; [apply runs_refl|exact E]|]. do 2 (split; [done|]). split; [auto|].
  split; [eexists; by eapply inv_worker|left]. destruct (worker_frame _ _ _ _ E) as (Em & _).
  unfold busy in *. by rewrite Em.
Qed.

Lemma nearer_main n chunks acks s s1 s' :
  (0 < n)%nat → inv n chunks acks s → ¬ some_failed s → runs s s1 → inv n chunks acks s1 → workers s1 = workers s →
  capacity s1 = capacity s → main_step s1 = Some s' → workers s' = workers s → capacity s' = capacity s →
  (work s' < work s)%nat → busy s' = true ∨ main s' = Returned (Ok true) → nearer n chunks s s'.
Proof.
  intros Hn Hi Hf Hr Hi1 Hw1 Hc1 E Hw Hc Hwk Hb. split; [by eapply runs_main|]. do 2 (split; [done|]).
  split; [unfold some_failed in *; by rewrite Hw|]. split; [|done]. exists acks. by eapply inv_main_step.
Qed.

Lemma no_failure_ended n chunks acks pending g k seen s :
  working n chunks acks pending g k seen s → (0 < n)%nat → ¬ some_failed s → all_ended s = false.
Proof.
  intros [Hlen _ _ Hws _ _] Hn Hf. unfold all_ended, some_failed in *.
  destruct (workers s) as [|w ws]; [simpl in *; lia|]. apply Forall_cons in Hws as [Hw _].
  rewrite Exists_cons in Hf. destruct w as [| | | | |r]; try done. destruct r; simpl in *; tauto.
Qed.

Lemma room_queue s : has_room s = false → (0 < capacity s)%nat → queue s ≠ [].
Proof. unfold has_room. intros H%Nat.ltb_ge Hc Hq. rewrite Hq in H. simpl in H. lia. Qed.

Lemma nearer_chunk n chunks acks c rest s :
  (0 < n)%nat → (0 < capacity s)%nat → inv n chunks acks s → ¬ some_failed s →
  (main s = Chunks (c :: rest) ∨ main s = TrySend c rest) → ∃ s', nearer n chunks s s'.
Proof.
  intros Hn Hcap Hi Hf Hm.
  assert (working n chunks acks (c :: rest) (next_gate s) n 0 s) as W.
  { pose proof (inv_main _ _ _ _ Hi) as H.
    unfold main_ok in H. by destruct Hm as [Em|Em]; rewrite Em in H. }
  pose proof (no_failure_ended _ _ _ _ _ _ _ _ W Hn Hf) as He.
  assert (busy s = true) as Hb by (unfold busy; by destruct Hm as [->| ->]).
  assert (worker_error s = false) as Hwe.
  { destruct (worker_error s) eqn:Hw; [|done]. destruct Hf. apply (inv_error _ _ _ _ Hi). by left. }
  destruct (has_room s) eqn:Hr.
  - set (s1 := set_main (TrySend c rest) s).
    assert (runs s s1 ∧ inv n chunks acks s1) as [Hr1 Hi1].
    { destruct Hm as [Em|Em].
      - assert (main_step s = Some s1) as E by (unfold main_step; by rewrite Em, Hwe).
        split; [eapply runs_main; [apply runs_refl|done]|]. by eapply inv_main_step.
      - assert (s1 = s) as -> by (unfold s1; rewrite <-Em; by destruct s). split; [apply runs_refl|done]. }
    exists (set_main (Chunks rest) (set_queue (queue s ++ [Memory c]) s)).
    eapply (nearer_main n chunks acks s s1); try done.
    + unfold main_step, s1. cbn [main set_main]. change (all_ended (set_main _ s)) with (all_ended s).
      change (has_room (set_main _ s)) with (has_room s). by rewrite He, Hr.
    + unfold work, main_work. simpl. rewrite length_app. simpl. destruct Hm as [->| ->]; simpl; lia.
    + by left.
  - eapply nearer_worker; try done.
    + destruct W. destruct wk_queue0 as (? & ? & ? & _ & Hj & _). lia.
    + intros Hq. by destruct (room_queue s Hr Hcap).
Qed.

Lemma nearer_gates n chunks acks g k s :
  (0 < n)%nat → (0 < capacity s)%nat → inv n chunks acks s → ¬ some_failed s → main s = Gates g k →
  ∃ s', nearer n chunks s s'.
Proof.
  intros Hn Hcap Hi Hf Hm. pose proof (inv_main _ _ _ _ Hi) as H. unfold main_ok in H. rewrite Hm in H.
  destruct H as [W Hg]. pose proof (no_failure_ended _ _ _ _ _ _ _ _ W Hn Hf) as He.
  destruct k as [|k]; [|destruct (has_room s) eqn:Hr].
  - exists (set_main (Waiting g 0) s). eapply (nearer_main n chunks acks s s); try done; [apply runs_refl| | |by left].
    + unfold main_step. by rewrite Hm.
    + unfold work, main_work. simpl. rewrite Hm. lia.
  - exists (set_main (Gates g k) (set_queue (queue s ++ [Gate g]) s)).
    eapply (nearer_main n chunks acks s s); try done; [apply runs_refl| | |by left].
    + unfold main_step. by rewrite Hm, He, Hr.
    + unfold work, main_work. simpl. rewrite Hm, length_app. simpl. lia.
  - eapply nearer_worker; try done.
    + unfold busy. by rewrite Hm.
    + destruct W. destruct wk_queue0 as (? & ? & ? & _ & Hj & _). lia.
    + intros Hq. by destruct (room_queue s Hr Hcap).
Qed.

Lemma nearer_waiting n chunks acks g seen s :
  (0 < n)%nat → inv n chunks acks s → ¬ some_failed s → main s = Waiting g seen → ∃ s', nearer n chunks s s'.
Proof.
  intros Hn Hi Hf Hm. pose proof (inv_main _ _ _ _ Hi) as H. unfold main_ok in H. rewrite Hm in H.
  destruct H as (W & Hg & Hs). pose proof (wk_threads _ _ _ _ _ _ _ _ W) as Ht.
  destruct (notifications s) as [|[] ns] eqn:Hns.
  - eapply nearer_worker; try done; [unfold busy; by rewrite Hm|]. destruct W. rewrite Hns in *. simpl in *. lia.
  - destruct (Nat.eqb_spec (S seen) (threads s)) as [Hse|Hse].
    + exists (set_main (Returned (Ok true)) (gate_open g (set_notifications ns s))).
      eapply (nearer_main n chunks acks s s); try done; [apply runs_refl| | |by right].
      * unfold main_step. rewrite Hm, Hns. by rewrite (proj2 (Nat.eqb_eq _ _) Hse).
      * unfold work, main_work. simpl. rewrite Hm. lia.
    + exists (set_main (Waiting g (S seen)) (set_notifications ns s)).
      eapply (nearer_main n chunks acks s s); try done; [apply runs_refl| | |by left].
      * unfold main_step. rewrite Hm, Hns. by rewrite (proj2 (Nat.eqb_neq _ _) Hse).
      * unfold work, main_work. simpl. rewrite Hm. lia.
  - destruct Hf. apply (inv_error _ _ _ _ Hi). right. rewrite Hns. by left.
Qed.

Lemma nearer_busy n chunks acks s :
  (0 < n)%nat → (0 < capacity s)%nat → inv n chunks acks s → ¬ some_failed s → busy s = true →
  ∃ s', nearer n chunks s s'.
Proof.
  intros Hn Hcap Hi Hf Hb. destruct (main s) as [|[|c rest]|c rest|g k|g seen|k c|i r c|r|r] eqn:Hm;
    try (unfold busy in Hb; by rewrite Hm in Hb).
  - exists (set_main (Gates (next_gate s) (threads s)) (gate_new s)).
    eapply (nearer_main n chunks acks s s); try done; [apply runs_refl| | |by left].
    + unfold main_step. by rewrite Hm.
    + unfold work, main_work. simpl. rewrite Hm. simpl. lia.
  - eapply nearer_chunk; try done. by left.
  - eapply nearer_chunk; try done. by right.
  - by eapply nearer_gates.
  - by eapply nearer_waiting.
Qed.

Lemma busy_returns n chunks m : ∀ acks s,
  (work s < m)%nat → (0 < n)%nat → (0 < capacity s)%nat → inv n chunks acks s → ¬ some_failed s → busy s = true →
  ∃ s', runs s s' ∧ main s' = Returned (Ok true).
Proof.
  induction m as [|m IH]; intros acks s Hm Hn Hcap Hi Hf Hb; [lia|].
  destruct (nearer_busy n chunks acks s Hn Hcap Hi Hf Hb) as (s1 & Hr & Hw & Hc & Hf1 & [acks1 Hi1] & [Hb1|He]);
    [|by exists s1].
  destruct (IH acks1 s1) as (s2 & Hr2 & He); try done; [lia|lia|]. exists s2. split; [by eapply runs_trans|done].
Qed.

Lemma reach_capacity n bound ts acks s : reach n bound ts acks s → capacity s = (BUFFERED_REQUESTS_PER_THREAD * n)%nat.
Proof.
  induction 1 as [socket spawn s H|t ts acks s s' _ IH _ H|ts acks s s' _ IH H|ts acks s s' _ IH H|i o ts acks s s' _ IH H].
  - unfold new in H. repeat (case_match; simplify_eq/=; try done).
    destruct (spawn_threads socket spawn 0 n); simplify_eq/=. done.
  - rewrite <-IH. unfold send_memory in H. by repeat case_match; simplify_eq.
  - rewrite <-IH. unfold owner_cleanup in H. by repeat case_match; simplify_eq.
  - rewrite <-IH. unfold main_step in H. by repeat case_match; simplify_eq.
  - rewrite <-IH. unfold worker_step in H. destruct (workers s !! i); [|done]. simpl in H.
    by repeat case_match; simplify_eq.
Qed.

(** ** A clean-up that starts in a call *)

Lemma busy_threads n chunks acks s : inv n chunks acks s → busy s = true → threads s = length (workers s).
Proof.
  intros [Hm _] Hb. unfold main_ok, busy in *. destruct (main s) as [|[|??]| | | | | |[]|]; try done;
    [destruct Hm|destruct Hm|destruct Hm|destruct Hm as [[] _]|destruct Hm as [[] _]]; congruence.
Qed.

Lemma busy_no_disconnect n chunks acks s : inv n chunks acks s → busy s = true → Disconnect ∉ queue s.
Proof.
  intros [Hm _] Hb. assert (∃ mems j g, queue s = (Memory <$> mems) ++ replicate j (Gate g)) as (mems & j & g & ->).
  { unfold main_ok, busy in *. destruct (main s) as [|[|??]| | | | | |[]|]; try done;
      [destruct Hm as [_ _ _ _ H _]|destruct Hm as [_ _ _ _ H _]|destruct Hm as [_ _ _ _ H _]|
       destruct Hm as [[_ _ _ _ H _] _]|destruct Hm as [[_ _ _ _ H _] _]]; destruct H as (? & ? & ? & -> & _); eauto. }
  rewrite elem_of_app, elem_of_replicate, list_elem_of_fmap. intros [(? & ? & _)|[? _]]; done.
Qed.

Lemma cleanup_starts n chunks acks s s0 c i w :
  (0 < n)%nat → inv n chunks acks s → busy s = true → main_step s = Some (cleanup c s0) →
  workers s !! i = Some w → alive w = true →
  some_failed s ∧ queue s0 = queue s ∧ threads s0 = threads s ∧ capacity s0 = capacity s ∧ workers s0 = workers s.
Proof.
  intros Hn Hi Hb Hs Hw Ha. pose proof (inv_error _ _ _ _ Hi) as He.
  assert (all_ended s = false) as Hae.
  { apply not_true_iff_false. unfold all_ended. rewrite forallb_forall. intros H.
    apply list_elem_of_lookup_2, list_elem_of_In, H in Hw. by destruct w. }
  unfold main_step in Hs. unfold busy in Hb. destruct (main s) as [|[|c1 rest]|c1 rest|g [|k]|g seen| | | |] eqn:Hm; try done.
  - destruct (worker_error s) eqn:Hwe; [|done]. injection Hs. intros. auto.
  - rewrite Hae in Hs. by destruct (has_room s).
  - rewrite Hae in Hs. by destruct (has_room s).
  - destruct (notifications s) as [|[] ns] eqn:Hns.
    + by rewrite Hae in Hs.
    + by destruct (Nat.eqb (S seen) (threads s)).
    + injection Hs. intros. split; [|auto]. apply He. right. by left.
Qed.

(** ** Schedules *)
Inductive action := Main | Worker (i : nat) (o : outcome).

Definition act (a : action) (x : list MemoryRangeTable * conns) : option (list MemoryRangeTable * conns) :=
  match a with
  | Main => s' ← main_step x.2; Some (x.1, s')
  | Worker i o => s' ← worker_step i o x.2; Some (x.1 ++ acknowledges i o x.2, s')
  end.

Fixpoint exec (l : list action) (x : list MemoryRangeTable * conns) : option (list MemoryRangeTable * conns) :=
  match l with
  | [] => Some x
  | a :: l' => y ← act a x; exec l' y
  end.

Lemma exec_reach n bound ts l : ∀ acks s acks' s',
  reach n bound ts acks s → exec l (acks, s) = Some (acks', s') → reach n bound ts acks' s'.
Proof.
  induction l as [|a l IH]; intros acks s acks' s' Hr H; [by injection H as <- <-|]. simpl in H.
  destruct (act a (acks, s)) as [[acks1 s1]|] eqn:Ha; [|done]. eapply IH; [|exact H].
  destruct a as [|i o]; simpl in Ha.
  - destruct (main_step s) eqn:E; [|done]. injection Ha as <- <-. by eapply reach_main.
  - destruct (worker_step i o s) eqn:E; [|done]. injection Ha as <- <-. by eapply reach_worker.
Qed.

(** Two connections, and a call with a table of 130 chunks. *)
Definition demo_new : conns :=
  {| capacity := 128; queue := []; notifications := []; worker_error := false;
     workers := [Receiving; Receiving]; threads := 2; next_gate := 0; opened := []; main := Ready |}.
Definition demo_large : MemoryRangeTable := [{| gpa := 0; length_ := 130 * CHUNK_SIZE |}].
Definition demo_little : MemoryRangeTable := [{| gpa := 4096; length_ := 8192 |}].
Definition demo_called (t : MemoryRangeTable) : conns := default demo_new (send_memory t demo_new).

Lemma demo_call_reach t :
  Forall (fits (2 ^ 40)) t → is_Some (send_memory t demo_new) → reach 2 (2 ^ 40) [t] [] (demo_called t).
Proof.
  intros Ht [s Hs]. unfold demo_called. rewrite Hs. eapply (reach_call _ _ t [] [] demo_new); [|done|exact Hs].
  by apply (reach_new _ _ (λ _, None) (λ _, None)).
Qed.

(** The first worker fails while the channel is full, and the main thread notices it. *)
Definition demo_full : list action :=
  replicate 256 Main ++ [Worker 0 SentOk; Main; Main; Worker 0 SendError; Worker 0 SentOk].
(** Every chunk is sent. *)
Definition demo_sent : list action :=
  [Main; Main; Worker 1 SentOk; Worker 1 SentOk; Main; Main; Main; Main; Worker 0 SentOk; Worker 1 SentOk;
   Worker 1 SentOk; Worker 0 SentOk; Main; Main].

(** ** Theorems *)

(** C16: sending memory over several connections.  Whenever a call of [send_memory]
    has returned normally, after any interleaving of the main thread and the workers,
    with any failures, in this and all earlier calls, the acknowledged chunks cover
    every address exactly as often as the tables that were to be sent. *)
Theorem send_memory_acknowledged n bound ts acks s b :
  (2 ≤ n)%nat → CHUNK_SIZE + bound < 2 ^ 64 → reach n bound ts acks s → main s = Returned (Ok b) →
  ∀ a, coverage (mjoin acks) a = coverage (mjoin ts) a.
Proof.
  intros Hn Hb Hr Hm a. destruct (reach_inv n bound ts acks s Hn Hb Hr) as (chunks & [Hmain _] & Hc).
  unfold main_ok in Hmain. rewrite Hm in Hmain. destruct Hmain as [_ Hp]. rewrite <-Hc. by apply coverage_perm.
Qed.

Lemma send_memory_acknowledged_witness :
  ∃ acks s, exec demo_sent ([], demo_called demo_little) = Some (acks, s) ∧ main s = Returned (Ok true) ∧
    ∀ a, coverage (mjoin acks) a = coverage (mjoin [demo_little]) a.
Proof.
  destruct (exec demo_sent ([], demo_called demo_little)) as [[acks s]|] eqn:E; [|by vm_compute in E].
  assert (main s = Returned (Ok true)) as Hm by (vm_compute in E; by injection E as _ <-).
  exists acks, s. split; [done|]. split; [done|].
  apply (send_memory_acknowledged 2 (2 ^ 40) [demo_little] acks s true); [lia|vm_compute; done| |exact Hm].
  eapply exec_reach; [|exact E]. apply demo_call_reach; [|vm_compute; by eexists]. repeat constructor; vm_compute; done.
Defined.

(** No deadlock.  As long as no worker has failed, a call of [send_memory] can
    always be completed, from wherever its threads are. *)
Theorem send_memory_returns n bound ts acks s :
  (2 ≤ n)%nat → CHUNK_SIZE + bound < 2 ^ 64 → reach n bound ts acks s → ¬ some_failed s → busy s = true →
  ∃ s', runs s s' ∧ main s' = Returned (Ok true).
Proof.
  intros Hn Hb Hr Hf Hbusy. destruct (reach_inv n bound ts acks s Hn Hb Hr) as (chunks & Hi & _).
  pose proof (reach_capacity _ _ _ _ _ Hr) as Hc. unfold BUFFERED_REQUESTS_PER_THREAD in Hc.
  eapply (busy_returns n chunks (S (work s))); try done; lia.
Qed.

Lemma send_memory_returns_witness :
  ∃ s', runs (demo_called demo_large) s' ∧ main s' = Returned (Ok true).
Proof.
  apply (send_memory_returns 2 (2 ^ 40) [demo_large] []); [lia|vm_compute; done| | |vm_compute; done].
  - apply demo_call_reach; [|vm_compute; by eexists]. repeat constructor; vm_compute; done.
  - intros H. apply Exists_exists in H as (w & Hw & Hf). vm_compute in Hw. set_solver.
Defined.

(** C40: the clean-up of a failure.  Whenever a call of [send_memory] comes to [cleanup]
    while the message channel is full, a worker has failed, and if [cleanup] runs before a
    message is taken, it tells no worker to disconnect: from then on, however the threads
    go on, it stays in its [join]s and does not get past a worker that was alive, unless
    that worker fails as well. *)
Theorem cleanup_deadlock n bound ts acks s s0 c i w :
  (2 ≤ n)%nat → CHUNK_SIZE + bound < 2 ^ 64 → reach n bound ts acks s → busy s = true →
  main_step s = Some (cleanup c s0) → has_room s = false → workers s !! i = Some w → alive w = true →
  some_failed s ∧ ∃ s1, rtc (λ s s', main_step s = Some s') s s1 ∧ main s1 = Joining 0 (Ok tt) c ∧
    ∀ s', goes_on i s1 s' → ∃ j r, main s' = Joining j r c ∧ (j ≤ i)%nat.
Proof.
  intros Hn Hb Hr Hbusy Hs Hroom Hw Ha. destruct (reach_inv n bound ts acks s Hn Hb Hr) as (chunks & Hi & _).
  destruct (cleanup_starts n chunks acks s s0 c i w) as (Hf & Hq & Ht & Hc & Hws); try done; [lia|].
  split; [done|]. exists (set_main (Joining 0 (Ok tt) c) (cleanup c s0)).
  split; [eapply rtc_l; [exact Hs|]; apply (disconnects_full _ (threads s0)); [done|]|].
  { unfold has_room in *. cbn. by rewrite Hc, Hq. }
  split; [done|]. intros s' Hg. eapply abandoned_goes_on in Hg as [H _]; [exact H|by eexists 0%nat, _; split; [|lia]|].
  unfold abandoned. cbn. rewrite Hws, Hq, Ht. split; [|split; [|by exists w]].
  - by eapply busy_no_disconnect.
  - apply lookup_lt_Some in Hw. by rewrite (busy_threads _ _ _ _ Hi Hbusy).
Qed.

Lemma cleanup_deadlock_witness :
  ∃ acks s s0 c, exec demo_full ([], demo_called demo_large) = Some (acks, s) ∧ main_step s = Some (cleanup c s0) ∧
    some_failed s ∧ ∃ s1, rtc (λ s s', main_step s = Some s') s s1 ∧ main s1 = Joining 0 (Ok tt) c ∧
      ∀ s', goes_on 1 s1 s' → ∃ j r, main s' = Joining j r c ∧ (j ≤ 1)%nat.
Proof.
  destruct (exec demo_full ([], demo_called demo_large)) as [[acks s]|] eqn:E; [|by vm_compute in E].
  assert (∃ c, main_step s = Some (cleanup c s)) as [c Hs] by (vm_compute in E; injection E as _ <-; by eexists (ByChunk _)).
  exists acks, s, s, c. split; [done|]. split; [done|].
  apply (cleanup_deadlock 2 (2 ^ 40) [demo_large] acks s s c 1 Receiving); [lia|vm_compute; done| | |exact Hs| | |done].
  - eapply exec_reach; [|exact E]. apply demo_call_reach; [|vm_compute; by eexists]. repeat constructor; vm_compute; done.
  - by vm_compute in E; injection E as _ <-.
  - by vm_compute in E; injection E as _ <-.
  - by vm_compute in E; injection E as _ <-.
Defined.

End SendWorkers.
