(* ===== verification/MigrationSim.v ===== *)
(** * A machine that migrates

    An executable sender and receiver for [MigrationWire] and [Precopy]: a guest
    whose stores come from a plan and happen during every call, sockets that take
    and deliver bytes in small pieces, a dirty log kept by the hypervisor and one
    kept by the VMM.  It satisfies [SourceLaws], [VmLaws] and [SinkLaws], and
    evaluates the witnesses of their theorems. *)

From S2P Require Import Prelude RustStr FloatTime Bitmap Kernel RestoreSource MemoryRanges MigrationWire Precopy.
From S2P Require Import MigrationReceiver MigrationSender.
Import RestoreSource MemoryRanges MigrationWire Precopy MigrationReceiver.

Module MigrationSim.

(** A store of the guest: by a virtual CPU, or by a device of the VMM. *)
Record write := { by_vmm : bool; w_addr : Z; w_byte : Z }.

Record machine := {
  m_src : Z → Z; hv_pages : list Z; vmm_pages : list Z; logging : bool; m_paused : bool;
  out : list Z; replies : list Z; plan : list (list write); time : Z }.

Definition apply_write (w : write) (s : machine) : machine :=
  {| m_src := λ x, if x =? w_addr w then w_byte w else m_src s x;
     hv_pages := if by_vmm w then hv_pages s else w_addr w / 4096 :: hv_pages s;
     vmm_pages := if by_vmm w then w_addr w / 4096 :: vmm_pages s else vmm_pages s;
     logging := logging s; m_paused := m_paused s; out := out s; replies := replies s;
     plan := plan s; time := time s |}.

Definition with_plan (p : list (list write)) (s : machine) : machine :=
  {| m_src := m_src s; hv_pages := hv_pages s; vmm_pages := vmm_pages s; logging := logging s;
     m_paused := m_paused s; out := out s; replies := replies s; plan := p; time := time s |}.

(** The clock shows a new time at every other reading. *)
Definition shown (s : machine) : Z := time s / 2.

(** The guest runs, unless it is paused. *)
Definition guest (s : machine) : machine :=
  if m_paused s then s
  else match plan s with
       | [] => s
       | ws :: p => foldr apply_write (with_plan p s) ws
       end.

Definition with_io (o r : list Z) (s : machine) : machine :=
  {| m_src := m_src s; hv_pages := hv_pages s; vmm_pages := vmm_pages s; logging := logging s;
     m_paused := m_paused s; out := o; replies := r; plan := plan s; time := time s |}.
Definition with_logs (h v : list Z) (l : bool) (s : machine) : machine :=
  {| m_src := m_src s; hv_pages := h; vmm_pages := v; logging := l;
     m_paused := m_paused s; out := out s; replies := replies s; plan := plan s; time := time s |}.
Definition with_time (t : Z) (p : bool) (s : machine) : machine :=
  {| m_src := m_src s; hv_pages := hv_pages s; vmm_pages := vmm_pages s; logging := logging s;
     m_paused := p; out := out s; replies := replies s; plan := plan s; time := t |}.

Definition piece : Z := 30.

#[export] Instance socket : Stream := {|
  sst := machine;
  s_write_all bs s := (inr tt, guest (with_io (out s ++ bs) (replies s) s));
  s_read_exact n s :=
    if (0 <=? n) && (n <=? zlen (replies s))
    then (inr (slice (replies s) 0 n), guest (with_io (out s) (drop (Z.to_nat n) (replies s)) s))
    else (inl (Custom UnexpectedEof "failed to fill whole buffer"), guest s) |}.

Definition bytes_at (s : machine) (a n : Z) : list Z := m_src s <$> seqZ a n.

#[export] Instance guest_io : GuestIo := {|
  write_volatile_to a c (s : @sst socket) :=
    let n := Z.max 0 (Z.min piece c) in
    if c <? 0 then (inl (Os 22), s)
    else (inr n, guest (with_io (out s ++ bytes_at s a n) (replies s) s));
  read_volatile_from a c (s : @sst socket) := (inl (Os 22), s) |}.

Definition pages_bitmap (pages : list Z) (a n : Z) : list Z :=
  match @Bitmap.bitmap_from unit (n / 4096) (λ i, bool_decide (a / 4096 + i ∈ pages)) with
  | Ok b => b
  | _ => []
  end.

Definition outside (pages : list Z) (a n : Z) : list Z :=
  filter (λ p, ¬ (a ≤ p * 4096 < a + n)) pages.

(** The size of the mapping that starts at an address. *)
Definition map_size (ms : list GuestRamMapping) (a : Z) : Z :=
  from_option m_size 0 (list_find (λ r, m_gpa r = a) ms ≫= λ '(_, r), Some r).

Section machine.
Context (mappings : list GuestRamMapping).

#[export] Instance machine_vm : MigrationVm := {|
  hv_start_dirty_log (s : @sst socket) := (inr tt, with_logs [] (vmm_pages s) true s);
  hv_get_dirty_log _ a n (s : @sst socket) :=
    if logging s
    then (inr (pages_bitmap (hv_pages s) a n),
          guest (with_logs (outside (hv_pages s) a n) (vmm_pages s) true s))
    else (inl (Os 2), s);
  bitmap_reset (s : @sst socket) := with_logs (hv_pages s) [] (logging s) s;
  bitmap_get_and_reset a (s : @sst socket) :=
    (pages_bitmap (vmm_pages s) a (map_size mappings a),
     guest (with_logs (hv_pages s) (outside (vmm_pages s) a (map_size mappings a)) (logging s) s));
  find_region a := Some (a, map_size mappings a);
  devices_start_dirty_log (s : @sst socket) := (inr tt, s);
  devices_dirty_log (s : @sst socket) := (inr [], guest s);
  pause (s : @sst socket) := (inr tt, with_time (time s) true s);
  now (s : @sst socket) := (shown s, guest (with_time (time s + 1) (m_paused s) s)) |}.

End machine.

(** ** Observations *)
Definition src (s : @sst socket) (x : Z) : Z := m_src s x.
Definition dirty (l : Log) (s : @sst socket) (p : Z) : Prop :=
  match l with
  | HvLog => logging s = false ∨ p ∈ hv_pages s
  | VmmLog => p ∈ vmm_pages s
  | DevLog => False
  end.
Definition paused (s : @sst socket) : Prop := m_paused s = true.
Definition sent (s : @sst socket) : list Z := out s.

Local Notation ran := (ran src dirty paused).

(** ** Laws of the sender *)

(** What a store leaves alone. *)
Lemma apply_frame ws s :
  let s' := foldr apply_write s ws in
  out s' = out s ∧ logging s' = logging s ∧ m_paused s' = m_paused s ∧ time s' = time s ∧ plan s' = plan s.
Proof. induction ws as [|w ws IH]; simpl; [done|]. naive_solver. Qed.

Lemma guest_frame s :
  out (guest s) = out s ∧ logging (guest s) = logging s ∧ m_paused (guest s) = m_paused s ∧ time (guest s) = time s.
Proof.
  unfold guest. destruct (m_paused s) eqn:Hp; [done|]. destruct (plan s) as [|ws p]; [done|].
  destruct (apply_frame ws (with_plan p s)) as (-> & -> & -> & -> & _). done.
Qed.

Lemma write_ran w s : m_paused s = false → ran s (apply_write w s).
Proof.
  intros Hp. split; [..|unfold paused; congruence].
  - intros x. unfold src, dirty. simpl. destruct (Z.eqb_spec x (w_addr w)) as [->|]; [right|by left].
    destruct (by_vmm w); [exists VmmLog|exists HvLog; right]; by left.
  - intros [] p; unfold dirty; simpl; destruct (by_vmm w); try done.
    + intros [?|?]; [by left|right; by right].
    + by right.
Qed.

Lemma guest_ran s : ran s (guest s).
Proof.
  unfold guest. destruct (m_paused s) eqn:Hp; [apply ran_refl|].
  destruct (plan s) as [|ws p]; [apply ran_refl|].
  assert (ran s (with_plan p s)) as H0 by (split; auto).
  assert (m_paused (with_plan p s) = false) as Hp' by done. revert H0 Hp'. generalize (with_plan p s).
  intros s0 H0 Hp'. induction ws as [|w ws IH]; [done|]. simpl. eapply ran_trans; [done|].
  apply write_ran. destruct (apply_frame ws s0) as (_ & _ & -> & _). done.
Qed.

(** A change of the connection or the clock, then the guest. *)
Lemma guest_ran_io o r s : ran s (guest (with_io o r s)) ∧ sent (guest (with_io o r s)) = o.
Proof.
  split; [|apply (guest_frame (with_io o r s))].
  eapply ran_trans; [|apply guest_ran]. split; auto.
Qed.

#[export] Instance sender_laws : SourceLaws src dirty paused sent.
Proof.
  split.
  - intros bs s r s' [= <- <-]. destruct (guest_ran_io (out s ++ bs) (replies s) s). done.
  - intros n s r s'. simpl. destruct (_ && _) eqn:Hb.
    + intros [= <- <-]. destruct (guest_ran_io (out s) (drop (Z.to_nat n) (replies s)) s).
      split; [done|]. split; [done|]. intros bs [= <-]. apply andb_true_iff in Hb as [H1 H2].
      apply Z.leb_le in H1, H2. apply zlen_slice; lia.
    + intros [= <- <-]. split; [apply guest_ran|]. split; [apply guest_frame|done].
  - intros a c s r s'. simpl. destruct (Z.ltb_spec c 0); [intros [= <- <-]; split; [apply ran_refl|done]|].
    intros [= <- <-]. set (n := Z.max 0 (Z.min piece c)).
    destruct (guest_ran_io (out s ++ bytes_at s a n) (replies s) s) as [R S]. split; [done|].
    intros m [= <-]. split; [unfold n, piece; lia|]. split; [unfold n, piece; lia|].
    exists (bytes_at s a n). unfold bytes_at. rewrite zlen_fmap, zlen_seqZ by lia. split; [done|]. split; [done|].
    intros i Hi. exists s. split; [apply ran_refl|]. split; [done|].
    rewrite znth_fmap, znth_seqZ by done. done.
Qed.

Lemma pages_bitmap_ok r pages :
  mapping_ok r → let b := pages_bitmap pages (m_gpa r) (m_size r) in
  Forall is_u64 b ∧ zlen b = words_of r ∧
  ∀ p, page_of r p → p ∈ pages → Bitmap.bit b (p - m_gpa r / 4096) = true.
Proof.
  intros (Hg0 & Hga & Hs0 & Hsa & _ & _) b. unfold b, pages_bitmap.
  destruct (Bitmap.bitmap_from_ok (E:=unit) (m_size r / 4096)
    (λ i, bool_decide (m_gpa r / 4096 + i ∈ pages))) as (bm & -> & [Hl Hu] & Hb); [apply Z.div_pos; lia|].
  split; [done|]. split; [done|]. intros p Hp Hin. unfold page_of in Hp.
  assert (m_size r = 4096 * (m_size r / 4096)) by (apply Z.div_exact; lia).
  assert (m_gpa r = 4096 * (m_gpa r / 4096)) by (apply Z.div_exact; lia).
  rewrite Hb by lia. rewrite !bool_decide_true; [done|..].
  - by replace (m_gpa r / 4096 + (p - m_gpa r / 4096)) with p by lia.
  - unfold zrange. apply elem_of_seqZ. lia.
Qed.

Lemma outside_or pages a n p : p ∈ pages → p ∈ outside pages a n ∨ a ≤ p * 4096 < a + n.
Proof.
  intros Hp. destruct (decide (a ≤ p * 4096 < a + n)); [by right|left].
  unfold outside. apply list_elem_of_filter. done.
Qed.

(** Handing out pages, then the guest. *)
Lemma guest_takes taken h v s :
  (∀ p, p ∈ hv_pages s → p ∈ h ∨ taken HvLog p) → (∀ p, p ∈ vmm_pages s → p ∈ v ∨ taken VmmLog p) →
  takes src dirty paused sent taken s (guest (with_logs h v (logging s) s)).
Proof.
  intros Hh Hv. destruct (guest_ran (with_logs h v (logging s) s)) as [R1 R2 R3].
  destruct (guest_frame (with_logs h v (logging s) s)) as (Ho & _). split; [done| |done|done].
  intros [] p; simpl.
  - intros [Hf|Hp]; [left; apply (R2 HvLog); by left|].
    destruct (Hh p Hp); [left; apply (R2 HvLog); by right|by right].
  - intros Hp. destruct (Hv p Hp); [left; by apply (R2 VmmLog)|by right].
  - done.
Qed.

#[export] Instance vm_laws mappings : VmLaws (V:=machine_vm mappings) src dirty paused sent.
Proof.
  split.
  - intros r s b s' Hr. simpl. destruct (logging s) eqn:Hl; [|done]. intros [= <- <-].
    destruct (pages_bitmap_ok r (hv_pages s) Hr) as (Hu & Hz & Hb). split.
    + split; [done|]. split; [done|]. intros p Hp [?|?]; [congruence|]. by apply Hb.
    + rewrite <-Hl. apply guest_takes; [|by left]. intros p Hp.
      destruct (outside_or _ (m_gpa r) (m_size r) p Hp); auto.
  - intros r s b s' Hr Hf. simpl in Hf. injection Hf as Hf. simpl. rewrite Hf. intros [= <- <-].
    destruct (pages_bitmap_ok r (vmm_pages s) Hr) as (Hu & Hz & Hb). split.
    + split; [done|]. split; [done|]. intros p Hp ?. by apply Hb.
    + apply guest_takes; [by left|]. intros p Hp. destruct (outside_or _ (m_gpa r) (m_size r) p Hp); auto.
  - intros s t s' [= <- <-]. split; [done|]. split; [done|].
    destruct (guest_ran s) as [R1 R2 R3]. split; [done| |done|apply guest_frame]. left. by apply R2.
  - intros s s' [= <-]. split; [|done]. split; [auto|auto|done].
  - intros s t s' [= <- <-]. split; [|apply (guest_frame (with_time (time s + 1) (m_paused s) s))].
    eapply ran_trans; [|apply guest_ran]. split; auto.
  - by intros s s' [= <-].
  - done.
  - by intros s s' [= <-].
Qed.

(** ** The clock *)

(** Nothing but a reading moves the clock. *)
Definition keeps {A} (m : M (@sst socket) MigratableError A) : Prop := ∀ s, time (m s).2 = time s.

Lemma keeps_bind {A B} (m : M (@sst socket) MigratableError A) (f : A → M (@sst socket) MigratableError B) :
  keeps m → (∀ a, keeps (f a)) → keeps (m ≫= f).
Proof.
  intros Hm Hf s. specialize (Hm s). unfold mbind, M_bind. destruct (m s) as [[a|e| |] s1]; simpl in *; try done.
  by rewrite Hf.
Qed.

Lemma keeps_lift {A} (r : res MigratableError A) : keeps (lift r).
Proof. done. Qed.

Lemma keeps_call {A} (call : @sst socket → (io_error + A) * @sst socket) f :
  (∀ s, time (call s).2 = time s) → keeps (m_map_err f (of_sum call)).
Proof. intros H s. specialize (H s). unfold m_map_err, of_sum. by destruct (call s) as [[e|a] s1]. Qed.

Lemma keeps_write bs : keeps (sock (s_write_all bs)).
Proof. apply keeps_call. intros s. apply (guest_frame (with_io (out s ++ bs) (replies s) s)). Qed.

Lemma keeps_response : keeps response_read_from.
Proof.
  apply keeps_bind; [|intros bs; apply keeps_lift]. apply keeps_call. intros s. simpl.
  destruct (16 <=? _); simpl; [apply (guest_frame (with_io _ _ s))|apply guest_frame].
Qed.

Lemma keeps_send_range fuel r : ∀ off, keeps (send_range fuel r off).
Proof.
  induction fuel as [|fuel IH]; intros off; [done|]. cbn [send_range].
  apply keeps_bind; [apply keeps_lift|]. intros a. apply keeps_bind; [apply keeps_lift|]. intros c.
  apply keeps_bind.
  { apply keeps_call. intros s. simpl. destruct (_ <? _); [done|]. apply (guest_frame (with_io _ _ s)). }
  intros n. apply keeps_bind; [apply keeps_lift|]. intros off'. destruct (_ =? _); [done|apply IH].
Qed.

Lemma keeps_send fuel t : keeps (send_memory_single fuel t).
Proof.
  unfold send_memory_single. destruct (bool_decide _); [done|]. apply keeps_bind; [|done].
  unfold send_memory_ranges. destruct (bool_decide _); [done|].
  apply keeps_bind; [apply keeps_write|]. intros _. apply keeps_bind; [apply keeps_write|]. intros _.
  apply keeps_bind; [|intros _].
  - induction t as [|r t IH]; [done|]. cbn [for_]. apply keeps_bind; [apply keeps_send_range|done].
  - apply keeps_bind; [apply keeps_response|]. intros r. apply keeps_bind; [|done]. unfold ok_or_abandon.
    destruct (bool_decide _); [|done]. apply keeps_bind; [apply keeps_write|]. intros _.
    apply keeps_bind; [apply keeps_response|done].
Qed.

(** Enough fuel for every range of the address space. *)
Definition address_space : nat := Z.to_nat (2 ^ 64).

Lemma clock_laws mappings :
  ClockLaws (V:=machine_vm mappings) (send_memory_single address_space) shown time.
Proof.
  assert (∀ s s' : machine, time s' = time s → later shown time s s') as Hl.
  { intros s s' E. unfold later, shown. rewrite E. lia. }
  split.
  - intros s. eexists. split; [reflexivity|]. unfold shown.
    destruct (guest_frame (with_time (time s + 1) (m_paused s) s)) as (_ & _ & _ & ->). simpl.
    split; [apply Z.div_le_mono; lia|done].
  - intros a b c s. apply Hl. simpl. destruct (logging s); simpl; [|done].
    apply (guest_frame (with_logs (outside (hv_pages s) b c) (vmm_pages s) true s)).
  - intros a s. apply Hl, (guest_frame (with_logs (hv_pages s) (outside (vmm_pages s) a (map_size mappings a)) (logging s) s)).
  - intros s. apply Hl, guest_frame.
  - intros t Ht s. split; [|apply Hl, keeps_send]. unfold send_memory_single. case_bool_decide; [done|].
    destruct (send_memory_ranges_run src dirty paused sent address_space t s Ht) as (o & s' & E & _ & Hh & _).
    unfold mbind, M_bind. rewrite E. destruct o; try done. destruct (Hh eq_refl).
    eapply Forall_impl; [exact Ht|]. intros r (? & ? & ?). unfold address_space. lia.
Qed.

(** ** A receiver *)
Record receiver := { r_mem : Z → Z; r_incoming : list Z; r_out : list Z }.

Definition r_socket : Stream := {|
  sst := receiver;
  s_write_all bs s := (inr tt, {| r_mem := r_mem s; r_incoming := r_incoming s; r_out := r_out s ++ bs |});
  s_read_exact n s :=
    if (0 <=? n) && (n <=? zlen (r_incoming s))
    then (inr (slice (r_incoming s) 0 n),
          {| r_mem := r_mem s; r_incoming := drop (Z.to_nat n) (r_incoming s); r_out := r_out s |})
    else (inl (Custom UnexpectedEof "failed to fill whole buffer"), s) |}.

Definition r_io : @GuestIo r_socket := {|
  write_volatile_to a c (s : @sst r_socket) := (inl (Os 22), s);
  read_volatile_from a c (s : @sst r_socket) :=
    let n := Z.max 0 (Z.min c (Z.min 5 (zlen (r_incoming s)))) in
    (inr n, {| r_mem := store (r_mem s) a (slice (r_incoming s) 0 n);
               r_incoming := drop (Z.to_nat n) (r_incoming s); r_out := r_out s |}) |}.

Lemma sink_laws :
  SinkLaws (St:=r_socket) (G:=r_io) r_mem (λ _, True) r_incoming.
Proof.
  split.
  - intros bs s. eexists. split; [done|]. done.
  - intros n s Hn. simpl. destruct (Z.leb_spec 0 n), (Z.leb_spec n (zlen (r_incoming s))); try lia.
    eexists. split; [done|]. done.
  - intros a c s Hc _. simpl. eexists _, _. split; [done|]. pose proof (zlen_nonneg (r_incoming s)).
    split; [lia|]. split; [lia|]. split; [|done].
    intros Hn. destruct (decide (c = 0)); [by left|right]. apply zlen_nil_inv. lia.
Qed.

(** A machine to receive: its configuration and its state are bytes, a VM is whether
    it runs. *)
Definition r_ops : @ReceiverOps r_socket := {|
  Config_ := list Z; Snapshot := list Z; HypervisorVm := unit; MemoryManager := unit; VM := bool;
  recv_with_fd (s : @sst r_socket) := (inl (Os 22), s);
  parse_config bs := Some bs;
  parse_snapshot bs := Some bs;
  check_cpuid _ (s : @sst r_socket) := (inr tt, s);
  pre_create_console_devices _ (s : @sst r_socket) := (inr tt, s);
  landlock_enable _ := true;
  apply_landlock _ (s : @sst r_socket) := (inr tt, s);
  create_hypervisor_vm _ (s : @sst r_socket) := (inr tt, s);
  max_apic_id _ := 300;
  enable_x2apic_api _ (s : @sst r_socket) := (inr tt, s);
  new_memory_manager _ _ _ (s : @sst r_socket) := (inr tt, s);
  new_connections _ (s : @sst r_socket) := (inr tt, s);
  cleanup_connections (s : @sst r_socket) := (inr tt, s);
  new_vm _ _ _ (s : @sst r_socket) := (inr false, s);
  resume _ (s : @sst r_socket) := (inr true, s) |}.

Lemma receiver_laws : ReceiverLaws (R:=r_ops) r_mem r_incoming.
Proof. split; intros; simpl; eauto. Qed.

(** The sender's machine, whose devices may be [broken]: they cannot complete a
    migration. *)
Definition s_ops (broken : bool) : @MigrationSender.SenderOps socket := {|
  MigrationSender.backed_by_shared_memory := Some false;
  MigrationSender.has_vm := true;
  MigrationSender.get_state (s : @sst socket) :=
    if m_paused s then MigrationSender.Paused else MigrationSender.Running;
  MigrationSender.connect s := (inr tt, s);
  MigrationSender.is_unix := false;
  MigrationSender.memory_slot_fds := [];
  MigrationSender.send_with_fd _ _ s := (inl (Os 22), s);
  MigrationSender.generate_common_cpuid s := (inr tt, s);
  MigrationSender.config_data s := (inr [7], s);
  MigrationSender.snapshot s := (inr [9], s);
  MigrationSender.start_migration s := (inr tt, s);
  MigrationSender.complete_migration s :=
    if broken then (inl (MigrateSend "Error completing migration"), s) else (inr tt, s);
  MigrationSender.release_disk_locks s := (inr tt, s);
  MigrationSender.stop_dirty_log (s : @sst socket) :=
    (inr tt, with_logs (hv_pages s) (vmm_pages s) false s);
  MigrationSender.resume_vm (s : @sst socket) := (inr tt, with_time (time s) false s);
  MigrationSender.new_mem_send s := (inr tt, s);
  MigrationSender.cleanup_mem_send s := (inr tt, s);
  MigrationSender.write_exit_evt s := (inr tt, s) |}.

Lemma s_ops_laws broken : MigrationSender.SenderLaws (O:=s_ops broken) src paused sent.
Proof.
  split; intros s; simpl; try (intros s' [= <-]; split; [done|auto]); try (intros bs s' [= <- <-]; split; [done|auto]).
  intros s'. destruct broken; intros [= <-]; split; [done|auto].
Qed.

(** ** Witnesses *)
Definition demo_table : MemoryRangeTable := [{| gpa := 0; length_ := 40 |}; {| gpa := 8192; length_ := 7 |}].

Definition demo (ws : list (list write)) : @sst socket :=
  {| m_src := λ x, x mod 251; hv_pages := []; vmm_pages := []; logging := false; m_paused := false; out := [];
     replies := response_bytes response_ok ++ response_bytes response_ok ++ response_bytes response_ok;
     plan := ws; time := 0 |}.

(** A store while the table is being sent, before its byte has been read. *)
Definition demo_send : @sst socket := demo [[]; [{| by_vmm := false; w_addr := 35; w_byte := 99 |}]].

Lemma memory_transfer_witness :
  ∃ s' q q1 q2 req, send_memory_ranges 50 demo_table demo_send = (Ok tt, s') ∧
    request_read_from (St:=r_socket) q = (Ok req, q1) ∧
    receive_memory_ranges (St:=r_socket) (G:=r_io) 50 req q1 = (Ok tt, q2) ∧
    ∃ m, ran demo_send m ∧ ran m s' ∧ r_mem q2 35 = src m 35.
Proof.
  destruct (send_memory_ranges 50 demo_table demo_send) as [r s'] eqn:E. eval_result E.
  set (q := {| r_mem := λ _, 0; r_incoming := sent s'; r_out := [] |} : @sst r_socket).
  destruct (memory_transfer (St1:=socket) src dirty paused sent (St2:=r_socket) (G2:=r_io) r_mem (λ _, True) r_incoming
      (L2:=sink_laws) 50 demo_table demo_send s' q [] ltac:(done)
      ltac:(repeat constructor; cbn; lia) ltac:(repeat constructor) ltac:(vm_compute; split; done)
      ltac:(repeat constructor; simpl; lia) E ltac:(apply app_nil_r)) as (req & q1 & q2 & H1 & H2 & _ & H3).
  exists s', q, q1, q2, req. split; [done|]. split; [exact H1|]. split; [exact H2|].
  apply (H3 35). exists {| gpa := 0; length_ := 40 |}. split; [by left|]. simpl. lia.
Defined.

Lemma receive_memory_ranges_eof_witness :
  ∃ q', receive_memory_ranges (St:=r_socket) (G:=r_io) 100 (request_new Memory 32)
          {| r_mem := λ _, 0; r_incoming := table_bytes demo_table ++ [1; 2; 3]; r_out := [] |} = (Hang, q').
Proof.
  apply (receive_memory_ranges_eof (St:=r_socket) (G:=r_io) r_mem (λ _, True) r_incoming (L:=sink_laws) 100
    demo_table [1; 2; 3]); [|vm_compute; done|done].
  repeat constructor; cbn; lia.
Defined.

Definition demo_zones : list MemoryZone :=
  [{| regions := [{| start_addr := 0; region_len := 4096; has_file_offset := false; map_shared := false;
                     is_hardlink := false |}];
      plugged_ranges := None |}].
Definition demo_mappings : list GuestRamMapping := [{| slot := 0; m_gpa := 0; m_size := 4096 |}].
Definition demo_data : VmSendMigrationData := 
  {| destination_url := lit "tcp:host:1"; local := false; downtime_ms := 300; timeout_s := 3600;
     timeout_strategy := Cancel; connections := 1 |}.

(** The guest and a device store throughout the iterations. *)
Definition demo_precopy : @sst socket :=
  demo (replicate 12 [{| by_vmm := false; w_addr := 17; w_byte := 42 |};
                      {| by_vmm := true; w_addr := 4095; w_byte := 7 |}]).

Lemma demo_ram_mapped x :
  Precopy.ram demo_zones x → ∃ r, r ∈ demo_mappings ∧ page_of r (x / 4096).
Proof.
  intros (r & [->|[]%elem_of_nil]%elem_of_cons & Hr). simpl in Hr. eexists. split; [by left|].
  unfold page_of. simpl. rewrite Z.div_small by lia. lia.
Qed.

Lemma memory_migration_complete_witness :
  ∃ ctx' s', do_memory_migration (V:=machine_vm demo_mappings) demo_zones demo_mappings
      (send_memory_single (Z.to_nat 5000)) 5 demo_data (Begin 0) demo_precopy = (Ok ctx', s') ∧
    src s' 17 = 42 ∧ paused s' ∧ ∃ ms, sent s' = sent demo_precopy ++ messages ms ∧
      ∀ fuel2 mm (q : @sst r_socket) v,
        Forall (receivable (λ _, True) fuel2) ms → r_incoming q = messages ms →
      ∃ q', receive_loop (G:=r_io) (R:=r_ops) (length ms + fuel2) false (Configured mm) (q, v) =
          receive_loop (G:=r_io) (R:=r_ops) fuel2 false (Configured mm) (q', v) ∧ r_mem q' 17 = 42.
Proof.
  destruct (do_memory_migration (V:=machine_vm demo_mappings) demo_zones demo_mappings (send_memory_single (Z.to_nat 5000)) 5
      demo_data (Begin 0) demo_precopy) as [r s'] eqn:E. eval_result E. eexists _, s'. split; [reflexivity|].
  assert (src s' 17 = 42) as H17 by eval_state E. split; [done|].
  destruct (memory_migration_complete (V:=machine_vm demo_mappings) src dirty paused sent (send_memory_single (Z.to_nat 5000))
      demo_zones demo_mappings (St2:=r_socket) (G2:=r_io) (R2:=r_ops) r_mem (λ _, True) r_incoming (L2:=sink_laws)
      5 demo_data (Begin 0) demo_precopy _ s' ltac:(apply Forall_singleton; repeat split; vm_compute; done)
      ltac:(apply Forall_singleton; repeat split; vm_compute; done) demo_ram_mapped E) as (Hp & ms & Hs & Hd).
  split; [exact Hp|]. exists ms. split; [exact Hs|]. intros fuel2 mm q v Hr Hi.
  destruct (Hd fuel2 false mm q v [] Hr ltac:(by rewrite app_nil_r)) as (q' & H1 & _ & H3).
  exists q'. split; [exact H1|]. rewrite H3; [exact H17|].
  exists {| gpa := 0; length_ := 4096 |}. split; [by left|]. simpl. lia.
Defined.

(** Every request of a migration is acknowledged. *)
Definition demo_vm : @sst socket :=
  with_io [] (mjoin (replicate 12 (response_bytes response_ok))) demo_precopy.

Lemma migration_end_to_end_witness :
  ∃ s', MigrationSender.send_migration (V:=machine_vm demo_mappings) (O:=s_ops false) demo_zones demo_mappings
      (send_memory_single (Z.to_nat 5000)) 5 demo_data demo_vm = (Ok tt, s') ∧
    src s' 17 = 42 ∧ paused s' ∧ ∃ config ms state,
      sent s' = sent demo_vm ++ MigrationSender.migration_stream config ms state ∧
      MigrationSender.runs_at_destination (G:=r_io) (R:=r_ops) r_mem (λ _, True) r_incoming config ms state demo_zones
        (src s').
Proof.
  destruct (MigrationSender.send_migration (V:=machine_vm demo_mappings) (O:=s_ops false) demo_zones demo_mappings
    (send_memory_single (Z.to_nat 5000)) 5 demo_data demo_vm) as [r s'] eqn:E. eval_result E. exists s'.
  split; [reflexivity|]. assert (src s' 17 = 42) as H17 by eval_state E. split; [done|].
  apply (MigrationSender.migration_end_to_end (V:=machine_vm demo_mappings) (O:=s_ops false) src dirty paused sent
    (L3:=s_ops_laws false) (send_memory_single (Z.to_nat 5000)) demo_zones demo_mappings (St2:=r_socket) (G2:=r_io)
    (R2:=r_ops) r_mem (λ _, True) r_incoming (L2:=sink_laws) (RL:=receiver_laws) 5 demo_data demo_vm s'
    ltac:(apply Forall_singleton; repeat split; vm_compute; done)
    ltac:(apply Forall_singleton; repeat split; vm_compute; done) demo_ram_mapped eq_refl E).
Defined.

Lemma completed_then_failed_witness :
  ∃ e s4, (MigrationSender.vm_send_migration (V:=machine_vm demo_mappings) (O:=s_ops true) demo_zones demo_mappings
      (send_memory_single (Z.to_nat 5000)) 5 demo_data demo_vm = (Err e, s4) ∧ ¬ paused s4) ∧
    ∃ s1 config ms state,
      sent s1 = sent demo_vm ++ MigrationSender.migration_stream config ms state ∧
      MigrationSender.runs_at_destination (G:=r_io) (R:=r_ops) r_mem (λ _, True) r_incoming config ms state demo_zones
        (src s1).
Proof.
  destruct (MigrationSender.send_acknowledged (V:=machine_vm demo_mappings) (O:=s_ops true)
    (send_memory_single (Z.to_nat 5000)) demo_zones demo_mappings 5 demo_data demo_vm) as [r s1] eqn:E. eval_result E.
  assert (m_paused s1 = true) as Hp by eval_state E.
  destruct (MigrationSender.completed_then_failed (V:=machine_vm demo_mappings) (O:=s_ops true) src dirty paused sent
    (L3:=s_ops_laws true) (send_memory_single (Z.to_nat 5000)) demo_zones demo_mappings (St2:=r_socket) (G2:=r_io)
    (R2:=r_ops) r_mem (λ _, True) r_incoming (L2:=sink_laws) (RL:=receiver_laws) 5 demo_data demo_vm s1
    (MigrateSend "Error completing migration") _ _ _
    ltac:(apply Forall_singleton; repeat split; vm_compute; done)
    ltac:(apply Forall_singleton; repeat split; vm_compute; done) demo_ram_mapped eq_refl eq_refl
    ltac:(by eexists) eq_refl eq_refl E eq_refl eq_refl ltac:(simpl; by rewrite Hp) eq_refl)
    as (H1 & config & ms & state & H2 & H3).
  eexists _, _. split; [split; [exact H1|done]|]. exists s1, config, ms, state. split; [exact H2|exact H3].
Defined.

(** A sender's side of a whole migration, and one that breaks off. *)
Definition demo_prefix : list Z :=
  request_bytes (request_new Start 0) ++ request_bytes (request_new Config 1) ++ [7] ++
  memory_message [{| gpa := 4096; length_ := 3 |}] [1; 2; 3] ++ request_bytes (request_new State 1) ++ [9].
Definition fresh (bs : list Z) : @sst r_socket * Vmm (R:=r_ops) :=
  ({| r_mem := λ _, 0; r_incoming := bs; r_out := [] |}, {| vm := None; vm_config := None |}).

Lemma receiver_protocol_witness :
  let x := fresh (demo_prefix ++ request_bytes (request_new Complete 0)) in
  ∃ s' v', vm_receive_migration (G:=r_io) 50 false x = (Ok tt, (s', v')) ∧ r_mem s' 4097 = 2 ∧
    ((∃ cs, served (G:=r_io) false x cs Completed (s', v') ∧ (∃ k m, cs = until_state k m ++ [Complete]) ∧
        is_Some (vm_config v') ∧ ∃ u, vm v' = Some u ∧ resumed u (vm_config v')) ∨
     (∃ cs w, served (G:=r_io) false x cs Aborted (s', w) ∧ v' = {| vm := None; vm_config := None |})).
Proof.
  intros x. destruct (vm_receive_migration (G:=r_io) 50 false x) as [r [s' v']] eqn:E. eval_result E.
  exists s', v'. split; [reflexivity|]. split.
  - assert (s' = (vm_receive_migration (G:=r_io) 50 false x).2.1) as -> by (by rewrite E). vm_compute. reflexivity.
  - exact (receiver_protocol (G:=r_io) (R:=r_ops) 50 false x.1 x.2 (Ok tt) s' v' E).
Defined.

Definition turn (st : ReceiveMigrationState (R:=r_ops)) (x : @sst r_socket * Vmm (R:=r_ops)) :=
  receive_turn (G:=r_io) (R:=r_ops) 50 false st x.
Definition x1 := (turn Established (fresh demo_prefix)).2.
Definition x2 := (turn Started x1).2.
Definition x3 := (turn (Configured (R:=r_ops) tt) x2).2.
Definition x4 := (turn (Configured (R:=r_ops) tt) x3).2.

Lemma demo_served :
  served (G:=r_io) (R:=r_ops) false (fresh demo_prefix) [Start; Config; Memory; State] StateReceived x4.
Proof.
  refine (served_turn false _ 50 [Start; Config; Memory] (Configured (R:=r_ops) tt) x3 (request_new State 1) _ x4 _ eq_refl _);
    [|by apply run_snd; vm_compute].
  refine (served_turn false _ 50 [Start; Config] (Configured (R:=r_ops) tt) x2 (request_new Memory 16) _ x3 _ eq_refl _);
    [|by apply run_snd; vm_compute].
  refine (served_turn false _ 50 [Start] Started x1 (request_new Config 1) _ x2 _ eq_refl _);
    [|by apply run_snd; vm_compute].
  refine (served_turn false _ 50 [] Established _ (request_new Start 0) _ x1 _ eq_refl _);
    [apply served_nil|by apply run_snd; vm_compute].
Qed.

Lemma lost_connection_keeps_vm_witness :
  ∃ s1 v1 e s2, served (G:=r_io) false (fresh demo_prefix) [Start; Config; Memory; State] StateReceived (s1, v1) ∧
    receive_loop (G:=r_io) 1 false StateReceived (s1, v1) = (Err e, (s2, v1)) ∧
    is_Some (vm v1) ∧ is_Some (vm_config v1).
Proof.
  pose proof demo_served as Hs. destruct x4 as [s1 v1] eqn:Hx.
  assert ((request_read_from (St:=r_socket) s1).1 =
    Err (MigrateSocket (Custom UnexpectedEof "failed to fill whole buffer"))) as He%run_snd.
  { assert (s1 = x4.1) as -> by (by rewrite Hx). vm_compute. reflexivity. }
  eexists s1, v1, _, _. split; [exact Hs|].
  exact (lost_connection_keeps_vm (G:=r_io) false _ _ _ s1 v1 _ _ 0 Hs He).
Defined.

Lemma precopy_terminates_witness :
  (do_memory_iterations (V:=machine_vm demo_mappings) demo_zones demo_mappings (send_memory_single address_space)
     (Z.to_nat (8000 * 10 ^ 9))
     {| iteration := 1; total_sent_bytes := 0; current_iteration_total_bytes := 0;
        bandwidth_bytes_per_second := f64_zero; estimated_downtime := None; migration_begin := 0;
        migration_duration := None; iteration_begin := 0; iteration_duration := None;
        transfer_begin := 0; transfer_duration := None |}
     (is_precopy_converged (V:=machine_vm demo_mappings) demo_data) demo_precopy).1 ≠ Hang.
Proof.
  apply (precopy_terminates (V:=machine_vm demo_mappings) src dirty paused sent (send_memory_single address_space)
      demo_zones demo_mappings ltac:(apply Forall_singleton; repeat split; vm_compute; done)
      ltac:(apply Forall_singleton; repeat split; vm_compute; done) shown time (C:=clock_laws demo_mappings) _ _ (7200 * 10 ^ 9)).
  - intros s Hs. unfold shown. apply Z.div_le_lower_bound; [lia|]. cbn [migration_begin]. unfold timeout. simpl. lia.
  - rewrite Z2Nat.id by lia. simpl. lia.
Defined.

End MigrationSim.
