(* ===== verification/ReceiveWorkers.v ===== *)
(** * Receiving memory over several connections

    Model of [ReceiveAdditionalConnections] and [wait_for_readable] in
    [vmm/src/migration_transport.rs].  The first part is the code of one worker on its
    own connection, with [poll] as the class [Poll]; the messages are those of
    [MigrationWire].  The second part is the threads: the owner that starts and cleans
    up, the thread that accepts connections, and the workers, as a step function with the
    outcome of the calls as an argument.  The theorems say what a worker puts in memory
    and acknowledges, how many connections there are, what [cleanup] returns, and that it
    returns. *)

From S2P Require Import Prelude Kernel RestoreSource MemoryRanges MigrationWire Precopy MigrationReceiver MigrationSim.
Import RestoreSource MemoryRanges MigrationWire.

Module ReceiveWorkers.

Definition MAX_MIGRATION_CONNECTIONS : nat := 128.

(** ** A worker *)

(** [poll] on the event that ends the migration and on the connection: an error, or which of
    the two have [POLLIN]. *)
Class Poll {St : Stream} := { poll : sst → (io_error + (bool * bool)) * sst }.

Section code.
Context {St : Stream} {G : GuestIo} {P : Poll}.

Fixpoint wait_for_readable (fuel : nat) : M sst io_error bool := λ s,
  match fuel with
  | O => (Hang, s)
  | S fuel' =>
      match poll s with
      | (inl e, s') =>
          if bool_decide (raw_os_error e = Some EINTR) then wait_for_readable fuel' s' else (Err e, s')
      | (inr (abort, readable), s') =>
          if abort then (Ok false, s')
          else if readable then (Ok true, s')
          else (Err (Custom OtherKind "Poll returned, but neither file descriptor is readable?"), s')
      end
  end.

Definition is_eof (e : MigratableError) : bool :=
  match e with MigrateSocket (Custom UnexpectedEof _) => true | _ => false end.

Fixpoint worker_receive_memory (fuel : nat) : M sst MigratableError unit :=
  match fuel with
  | O => hang
  | S fuel' =>
      readable ← m_map_err (λ _, MigrateReceive "Failed to poll fds") (wait_for_readable fuel);
      if negb readable then mret tt
      else
        r ← try_ request_read_from;
        match r with
        | inl e => if is_eof e then mret tt else fail e
        | inr req =>
            if bool_decide (req_command req ≠ Memory)
            then fail (MigrateReceive "Received non memory command on migration receive worker")
            else
              _ ← receive_memory_ranges fuel req;
              _ ← response_write_to response_ok;
              worker_receive_memory fuel'
        end
  end.

End code.

(** ** The threads *)

(** A worker waits in [poll], or reads and answers a request, or has returned. *)
Inductive worker := Polling | Serving | Ended (r : res MigratableError unit).

(** The thread that accepts: in its loop, joining worker [i] with the first error so far. *)
Inductive acceptor := Accepting | Joining (i : nat) (first_err : res MigratableError unit) | Stopped (r : res MigratableError unit).

(** The owner: running, joining the accepting thread in [cleanup], after it. *)
Inductive owner := Running | Cleaning | Cleaned (r : res MigratableError unit).

Record conns := { terminated : bool; accept_thread : acceptor; workers : list worker; main : owner }.

Definition new : conns := {| terminated := false; accept_thread := Accepting; workers := []; main := Running |}.

Definition set_accept (a : acceptor) (s : conns) : conns :=
  {| terminated := terminated s; accept_thread := a; workers := workers s; main := main s |}.
Definition set_main (m : owner) (s : conns) : conns :=
  {| terminated := terminated s; accept_thread := accept_thread s; workers := workers s; main := m |}.
Definition set_workers (ws : list worker) (s : conns) : conns :=
  {| terminated := terminated s; accept_thread := accept_thread s; workers := ws; main := main s |}.
Definition signal (s : conns) : conns :=
  {| terminated := true; accept_thread := accept_thread s; workers := workers s; main := main s |}.

(** What a turn of the accepting loop meets: a connection, with the error of cloning the event
    or of spawning the thread, or an error of [poll] or [accept]. *)
Inductive incoming_connection := Connection (spawn : option MigratableError) | AcceptError (e : MigratableError).

(** Leaving the loop; an error ends the workers too. *)
Definition stop_accepting (r : res MigratableError unit) (s : conns) : conns :=
  let s' := set_accept (Joining 0 r) s in match r with Ok _ => s' | _ => signal s' end.

(** [thread.join()] of a worker, and which error is kept. *)
Definition join_error (r : res MigratableError unit) : res MigratableError unit :=
  match r with Panic => Err (MigrateReceive "receive-memory thread panicked") | _ => r end.
Definition first_of (first_err r : res MigratableError unit) : res MigratableError unit :=
  match first_err with Ok _ => join_error r | _ => first_err end.

(** A step of the accepting thread, [None] where it is blocked.  The event is looked at before
    the connections. *)
Definition accept_step (c : option incoming_connection) (s : conns) : option conns :=
  match accept_thread s with
  | Accepting =>
      match c with
      | Some (AcceptError e) => Some (stop_accepting (Err e) s)
      | _ =>
          if terminated s then Some (stop_accepting (Ok tt) s)
          else
            match c with
            | Some (Connection spawn) =>
                if Nat.leb MAX_MIGRATION_CONNECTIONS (length (workers s))
                then Some (stop_accepting (Err (MigrateReceive "Received more than 128 additional migration connections.")) s)
                else match spawn with
                     | Some e => Some (stop_accepting (Err e) s)
                     | None => Some (set_workers (workers s ++ [Polling]) s)
                     end
            | _ => None
            end
      end
  | Joining i first_err =>
      if Nat.eqb i (length (workers s)) then Some (set_accept (Stopped first_err) s)
      else match workers s !! i with
           | Some (Ended r) => Some (set_accept (Joining (S i) (first_of first_err r)) s)
           | _ => None
           end
  | Stopped _ => None
  end.

(** What a worker meets: in [poll] that the connection is readable or an error; after it the
    end of the connection, a request it has answered, an error or a panic. *)
Inductive outcome := Readable | Closed | Answered | Failed (e : MigratableError) | Panicked.

Definition worker_step (i : nat) (o : outcome) (s : conns) : option conns :=
  w ← workers s !! i;
  let become w' := Some (set_workers (<[i := w']> (workers s)) s) in
  match w, o with
  | Polling, Failed e => become (Ended (Err e))
  | Polling, _ =>
      if terminated s then become (Ended (Ok tt))
      else match o with Readable => become Serving | _ => None end
  | Serving, Answered => become Polling
  | Serving, Closed => become (Ended (Ok tt))
  | Serving, Failed e => become (Ended (Err e))
  | Serving, Panicked => become (Ended Panic)
  | _, _ => None
  end.

(** [cleanup]: the signal, then the join of the accepting thread.  With an error of the signal
    it has returned before it took the thread. *)
Definition cleanup (write : option MigratableError) (s : conns) : option conns :=
  match main s, write with
  | Running, None => Some (set_main Cleaning (signal s))
  | Running, Some _ => Some s
  | _, _ => None
  end.
Definition main_step (s : conns) : option conns :=
  match main s, accept_thread s with
  | Cleaning, Stopped r => Some (set_main (Cleaned r) s)
  | _, _ => None
  end.

Inductive action := Accept (c : option incoming_connection) | Worker (i : nat) (o : outcome) | Cleanup (write : option MigratableError) | Main.
Definition step (a : action) (s : conns) : option conns :=
  match a with
  | Accept c => accept_step c s
  | Worker i o => worker_step i o s
  | Cleanup write => cleanup write s
  | Main => main_step s
  end.

Inductive reach : conns → Prop :=
| reach_new : reach new
| reach_step a s s' : reach s → step a s = Some s' → reach s'.

(** ** What a worker receives *)
Section receive.
Context {St : Stream} {G : GuestIo} {P : Poll}.
Context (mem : sst → Z → Z) (ram : Z → Prop) (incoming out : sst → list Z) {L : SinkLaws mem ram incoming}.

(** [poll] is interrupted [k] times and then finds the connection readable. *)
Inductive polls : nat → sst → sst → Prop :=
| polls_readable s s' : poll s = (inr (false, true), s') → polls 0 s s'
| polls_interrupted k s s1 s' : poll s = (inl (Os EINTR), s1) → polls k s1 s' → polls (S k) s s'.

(** A migration that is not ended: [poll] only looks, and a connection that was closed is
    readable too.  What is written is added to [out]. *)
Class WorkerLaws (bound : nat) : Prop := {
  wl_poll s : ∃ k s', (k < bound)%nat ∧ polls k s s' ∧ incoming s' = incoming s ∧ out s' = out s ∧ ∀ x, mem s' x = mem s x;
  wl_eof n s : zlen (incoming s) < n →
    ∃ msg s', s_read_exact n s = (inl (Custom UnexpectedEof msg), s') ∧ ∀ x, mem s' x = mem s x;
  wl_write bs s : out (s_write_all bs s).2 = out s ++ bs;
  wl_read n s : out (s_read_exact n s).2 = out s;
  wl_volatile a c s : out (read_volatile_from a c s).2 = out s }.

Context {bound : nat} {W : WorkerLaws bound}.

Lemma wait_readable k fuel s s' : polls k s s' → (k < fuel)%nat → wait_for_readable fuel s = (Ok true, s').
Proof.
  intros Hp. revert fuel. induction Hp as [s s' E|k s s1 s' E _ IH]; intros [|fuel] Hk; try lia; cbn [wait_for_readable]; rewrite E; [done|].
  rewrite bool_decide_true by done. apply IH. lia.
Qed.

(** Code that writes nothing. *)
Definition mute {A} (m : M sst MigratableError A) : Prop := ∀ s, out (m s).2 = out s.

Lemma mute_bind {A B} (m : M sst MigratableError A) (f : A → M sst MigratableError B) : mute m → (∀ a, mute (f a)) → mute (m ≫= f).
Proof. intros Hm Hf s. unfold mbind, M_bind. specialize (Hm s). destruct (m s) as [[a| | |] s1]; simpl in *; try done. by rewrite Hf. Qed.
Lemma mute_lift {A} (r : res MigratableError A) : mute (lift r).
Proof. by intros s. Qed.
Lemma mute_sum {A} (c : sst → (io_error + A) * sst) f : (∀ s, out (c s).2 = out s) → mute (m_map_err f (of_sum c)).
Proof. intros Hc s. unfold m_map_err, of_sum. specialize (Hc s). by destruct (c s) as [[e|a] s1]. Qed.

Lemma mute_range fuel r : ∀ offset, mute (receive_range fuel r offset).
Proof using W.
  induction fuel as [|fuel IH]; intros offset; cbn [receive_range]; [by intros s|].
  do 2 (apply mute_bind; [apply mute_lift|intros ?]). apply mute_bind; [apply mute_sum, wl_volatile|intros ?].
  apply mute_bind; [apply mute_lift|intros ?]. case_match; [apply (mute_lift (Ok tt))|apply IH].
Qed.

Lemma mute_ranges fuel req : mute (receive_memory_ranges fuel req).
Proof using W.
  apply mute_bind; [apply mute_lift|intros _]. apply mute_bind; [|intros ranges].
  - apply mute_bind; [apply mute_lift|intros _]. apply mute_bind; [apply mute_sum, wl_read|by intros ? ?].
  - induction ranges as [|r ranges IH]; cbn [for_]; [apply (mute_lift (Ok tt))|]. apply mute_bind; [apply mute_range|intros _; apply IH].
Qed.

Lemma mute_request : mute request_read_from.
Proof using W. apply mute_bind; [apply mute_sum, wl_read|intros ?; apply mute_lift]. Qed.

(** The bytes of [n] positive responses. *)
Definition oks (n : nat) : list Z := mjoin (replicate n (response_bytes response_ok)).

(** A turn that polls and reads a request. *)
Lemma worker_request fuel req rest s :
  (bound ≤ S fuel)%nat → zlen (req_padding req) = 6 → is_u64 (req_length req) → incoming s = request_bytes req ++ rest →
  ∃ s1, incoming s1 = rest ∧ (∀ x, mem s1 x = mem s x) ∧ out s1 = out s ∧
    worker_receive_memory (S fuel) s =
      (if bool_decide (req_command req ≠ Memory)
       then fail (MigrateReceive "Received non memory command on migration receive worker")
       else _ ← receive_memory_ranges (S fuel) req; _ ← response_write_to response_ok; worker_receive_memory fuel) s1.
Proof using L W.
  intros Hb Hp Hu Hi. destruct (wl_poll s) as (k & s0 & Hk & Hpoll & Hi0 & Ho0 & Hm0).
  destruct (request_read_ok mem ram incoming req rest s0) as (s1 & E1 & Hi1 & Hm1); [done|done|congruence|].
  exists s1. split; [done|]. split; [intros x; by rewrite Hm1|]. split.
  - pose proof (mute_request s0) as Ho1. rewrite E1 in Ho1. simpl in Ho1. congruence.
  - cbn [worker_receive_memory].
    erewrite m_bind_run by (unfold m_map_err; rewrite (wait_readable k (S fuel) s s0 Hpoll) by lia; done). cbn [negb].
    by erewrite m_bind_run by (unfold try_; by rewrite E1).
Qed.

Lemma worker_turn fuel t cs rest s :
  (bound ≤ S fuel)%nat → Precopy.message_ok (t, cs) → MigrationReceiver.receivable ram (S fuel) (t, cs) →
  incoming s = memory_message t cs ++ rest →
  ∃ s', worker_receive_memory (S fuel) s = worker_receive_memory fuel s' ∧ incoming s' = rest ∧
    out s' = out s ++ response_bytes response_ok ∧ ∀ x, mem s' x = store_table t cs (mem s) x.
Proof using L W.
  intros Hb [Hs Hz] (Hram & Hu & Hf) Hi. unfold memory_message in Hi. rewrite <-!app_assoc in Hi. cbn [fst snd] in *.
  assert (Forall (good_range ram) t) as Hg.
  { apply Forall_forall. intros r Hr. rewrite Forall_forall in Hs, Hram. destruct (Hs r Hr) as (? & ? & ?). by specialize (Hram r Hr). }
  destruct (worker_request fuel (request_new Memory (table_length t)) (table_bytes t ++ cs ++ rest) s) as (s1 & Hi1 & Hm1 & Ho1 & ->); try done.
  destruct (receive_memory_ranges_ok mem ram incoming (S fuel) t cs rest s1) as (s2 & E2 & Hi2 & Hm2); try done.
  destruct (sk_write mem ram incoming (response_bytes response_ok) s2) as (s3 & E3 & Hi3 & Hm3).
  pose proof (mute_ranges (S fuel) (request_new Memory (table_length t)) s1) as Ho2. rewrite E2 in Ho2.
  pose proof (wl_write (response_bytes response_ok) s2) as Ho3. rewrite E3 in Ho3. simpl in Ho2, Ho3.
  exists s3. split; [|split; [congruence|split; [congruence|]]].
  - rewrite bool_decide_false by (by intros []). erewrite m_bind_run by done.
    by erewrite m_bind_run by (unfold response_write_to, sock, m_map_err, of_sum; by rewrite E3).
  - intros x. rewrite Hm3, Hm2. by apply store_table_ext.
Qed.

Lemma worker_messages ms : ∀ fuel s rest,
  (bound ≤ S fuel)%nat → Forall Precopy.message_ok ms → Forall (MigrationReceiver.receivable ram fuel) ms →
  incoming s = Precopy.messages ms ++ rest →
  ∃ s', worker_receive_memory (length ms + fuel) s = worker_receive_memory fuel s' ∧ incoming s' = rest ∧
    out s' = out s ++ oks (length ms) ∧ ∀ x, mem s' x = Precopy.deliver ms (mem s) x.
Proof using L W.
  induction ms as [|[t cs] ms IH]; intros fuel s rest Hb Hok Hr Hi.
  { exists s. split; [done|]. split; [done|]. split; [by rewrite app_nil_r|done]. }
  apply Forall_cons in Hok as [Hok1 Hok]. apply Forall_cons in Hr as [(Hr1 & Hr2 & Hr3) Hr].
  change (Precopy.messages ((t, cs) :: ms)) with (memory_message t cs ++ Precopy.messages ms) in Hi. rewrite <-app_assoc in Hi.
  destruct (worker_turn (length ms + fuel) t cs (Precopy.messages ms ++ rest) s) as (s1 & E1 & Hi1 & Ho1 & Hm1); [lia|done| |done|].
  { split; [done|]. split; [done|]. eapply Forall_impl; [exact Hr3|]. simpl. lia. }
  destruct (IH fuel s1 rest Hb Hok Hr Hi1) as (s2 & E2 & Hi2 & Ho2 & Hm2). exists s2. split; [by rewrite <-E2, <-E1|]. split; [done|]. split.
  - rewrite Ho2, Ho1, <-app_assoc. done.
  - intros x. rewrite Hm2. simpl. by apply MigrationReceiver.deliver_ext.
Qed.

Lemma worker_closed fuel s : (bound ≤ S fuel)%nat → zlen (incoming s) < 16 →
  ∃ s', worker_receive_memory (S fuel) s = (Ok tt, s') ∧ out s' = out s ∧ ∀ x, mem s' x = mem s x.
Proof using W.
  intros Hb Hi. destruct (wl_poll s) as (k & s0 & Hk & Hpoll & Hi0 & Ho0 & Hm0).
  destruct (wl_eof 16 s0) as (msg & s1 & E1 & Hm1); [by rewrite Hi0|].
  exists s1. split; [|split; [|intros x; by rewrite Hm1]].
  - cbn [worker_receive_memory].
    erewrite m_bind_run by (unfold m_map_err; rewrite (wait_readable k (S fuel) s s0 Hpoll) by lia; done). cbn [negb].
    unfold try_, request_read_from, sock, m_map_err, of_sum, mbind, M_bind. by rewrite E1.
  - pose proof (wl_read 16 s0) as Ho1. rewrite E1 in Ho1. simpl in Ho1. congruence.
Qed.

End receive.

(** C17: a worker of the receiver puts exactly the memory messages of its connection into the
    guest's memory, in their order, and answers each of them once with success.  When the
    connection ends, it returns without an error - also where it ends within the sixteen
    bytes of a further request; any other command ends it with an error, after what came
    before. *)
Theorem worker_delivers {St : Stream} {G : GuestIo} {P : Poll} mem ram incoming out bound fuel ms tail s :
  SinkLaws mem ram incoming → WorkerLaws mem incoming out bound → (bound ≤ S fuel)%nat →
  Forall Precopy.message_ok ms → Forall (MigrationReceiver.receivable ram (S fuel)) ms → incoming s = Precopy.messages ms ++ tail →
  (zlen tail < 16 →
     ∃ s', worker_receive_memory (length ms + S fuel) s = (Ok tt, s') ∧
       out s' = out s ++ oks (length ms) ∧ ∀ x, mem s' x = Precopy.deliver ms (mem s) x) ∧
  (∀ req rest, tail = request_bytes req ++ rest → zlen (req_padding req) = 6 → is_u64 (req_length req) → req_command req ≠ Memory →
     ∃ e s', worker_receive_memory (length ms + S fuel) s = (Err e, s') ∧
       out s' = out s ++ oks (length ms) ∧ ∀ x, mem s' x = Precopy.deliver ms (mem s) x).
Proof.
  intros L W Hb Hok Hr Hi.
  destruct (worker_messages mem ram incoming out ms (S fuel) s tail) as (s1 & -> & Hi1 & Ho1 & Hm1); [lia|done..|]. split.
  - intros Ht. destruct (worker_closed mem incoming out fuel s1) as (s2 & -> & Ho2 & Hm2); [done|by rewrite Hi1|].
    exists s2. split; [done|]. split; [congruence|]. intros x. by rewrite Hm2.
  - intros req rest -> Hp Hu Hc.
    destruct (worker_request mem ram incoming out fuel req rest s1) as (s2 & _ & Hm2 & Ho2 & ->); [done..|].
    rewrite bool_decide_true by done. eexists _, s2. split; [done|]. split; [congruence|]. intros x. by rewrite Hm2.
Qed.

Definition r_poll : @Poll MigrationSim.r_socket := {| poll (s : @sst MigrationSim.r_socket) := (inr (false, true), s) |}.

Lemma worker_laws : WorkerLaws (P:=r_poll) (G:=MigrationSim.r_io) MigrationSim.r_mem MigrationSim.r_incoming MigrationSim.r_out 1.
Proof.
  split.
  - intros s. exists 0%nat, s. split; [lia|]. split; [by constructor|done].
  - intros n s Hn. simpl. destruct (Z.leb_spec 0 n), (Z.leb_spec n (zlen (MigrationSim.r_incoming s))); simpl; eauto; lia.
  - done.
  - intros n s. simpl. by case_match.
  - done.
Qed.

Definition demo_message : MemoryRangeTable * list Z := ([{| gpa := 8; length_ := 3 |}], [7; 8; 9]).
Definition demo_worker : @sst MigrationSim.r_socket :=
  {| MigrationSim.r_mem := λ _, 0; MigrationSim.r_incoming := Precopy.messages [demo_message] ++ [4; 0]; MigrationSim.r_out := [] |}.

Lemma worker_delivers_witness :
  ∃ s', worker_receive_memory (P:=r_poll) (G:=MigrationSim.r_io) 11 demo_worker = (Ok tt, s') ∧ MigrationSim.r_out s' = oks 1 ∧
    ∀ x, MigrationSim.r_mem s' x = Precopy.deliver [demo_message] (λ _, 0) x.
Proof.
  apply (worker_delivers (P:=r_poll) MigrationSim.r_mem (λ _, True) MigrationSim.r_incoming MigrationSim.r_out 1 9 [demo_message] [4; 0] demo_worker
    MigrationSim.sink_laws worker_laws); [lia|..|done].
  - apply Forall_singleton. split; [|reflexivity]. apply Forall_singleton. repeat split; cbn; lia.
  - apply Forall_singleton. split; [|split]; [|vm_compute; split; [discriminate|reflexivity]|]; apply Forall_singleton; [done|cbn; lia].
  - reflexivity.
Defined.

(** ** The threads *)

(** What a thread returns that was not interrupted. *)
Definition own_result (r : res MigratableError unit) : Prop := r = Ok tt ∨ ∃ e, r = Err e.
Definition ended (w : worker) (r : res MigratableError unit) : Prop := w = Ended r ∧ r ≠ Hang.

(** The first [i] workers have ended, and [r] is the first error of the accepting thread
    itself and of them. *)
Definition collected (i : nat) (r : res MigratableError unit) (s : conns) : Prop :=
  terminated s = true ∧ (i ≤ length (workers s))%nat ∧
  ∃ own rs, own_result own ∧ Forall2 ended (take i (workers s)) rs ∧ r = foldl first_of own rs.

Record inv (s : conns) : Prop := {
  inv_max : (length (workers s) ≤ MAX_MIGRATION_CONNECTIONS)%nat;
  inv_accept : match accept_thread s with
               | Accepting => True
               | Joining i r => collected i r s
               | Stopped r => collected (length (workers s)) r s
               end;
  inv_owner : match main s with
              | Running => True
              | Cleaning => terminated s = true
              | Cleaned r => accept_thread s = Stopped r
              end;
  inv_hang : Forall (λ w, w ≠ Ended Hang) (workers s) }.

Lemma foldl_first_result own rs : own_result own → Forall (λ r, r ≠ Hang) rs →
  own_result (foldl first_of own rs) ∧ (foldl first_of own rs = Ok tt ↔ own = Ok tt ∧ Forall (λ r, r = Ok tt) rs).
Proof.
  revert own. induction rs as [|r rs IH]; intros own Ho Hr; cbn [foldl]; [by rewrite Forall_nil; split; [done|tauto]|].
  apply Forall_cons in Hr as [Hr Hrs]. rewrite Forall_cons.
  assert (own_result (first_of own r)) as Ho'.
  { destruct Ho as [->|[e ->]]; [|right; by exists e]. destruct r as [[]|e| |]; [by left|right; by exists e|right; by eexists|done]. }
  destruct (IH (first_of own r) Ho' Hrs) as [H1 H2]. split; [done|]. rewrite H2.
  destruct Ho as [->|[e ->]]; [|naive_solver]. destruct r as [[]| | |]; simpl; naive_solver.
Qed.

(** A worker's step changes one worker that had not ended. *)
Lemma worker_step_inv i o s s' : worker_step i o s = Some s' →
  ∃ w w', workers s !! i = Some w ∧ (∀ r, w ≠ Ended r) ∧ w' ≠ Ended Hang ∧ s' = set_workers (<[i := w']> (workers s)) s.
Proof.
  unfold worker_step. destruct (workers s !! i) as [w|]; [|done]. simpl. intros H.
  exists w. destruct w, o; simpl in H; repeat case_match; simplify_eq;
    (eexists; split; [done|split; [done|split; [|reflexivity]; done]]).
Qed.

Lemma ended_before i w ws rs k : ws !! i = Some w → (∀ r, w ≠ Ended r) → Forall2 ended (take k ws) rs → (k ≤ i)%nat.
Proof.
  intros Hi Hw Hf. destruct (decide (k ≤ i)%nat) as [|Hk]; [done|exfalso].
  destruct (Forall2_lookup_l _ _ _ i w Hf) as (r & _ & [-> _]); [rewrite lookup_take_lt by lia; done|]. by apply (Hw r).
Qed.

Lemma collected_worker k r i w w' s : workers s !! i = Some w → (∀ r, w ≠ Ended r) →
  collected k r s → collected k r (set_workers (<[i := w']> (workers s)) s).
Proof.
  intros Hi Hw (Ht & Hk & own & rs & Ho & Hf & ->). split; [done|]. split; [simpl; by rewrite length_insert|]. exists own, rs. split; [done|]. split; [|done].
  simpl. rewrite take_insert_ge; [done|]. by eapply ended_before.
Qed.

Lemma worker_invariant i o s s' : inv s → worker_step i o s = Some s' → inv s'.
Proof.
  intros [Hm Ha Ho Hh] (w & w' & Hi & Hw & Hw' & ->)%worker_step_inv. split; simpl.
  - by rewrite length_insert.
  - destruct (accept_thread s); [done|by eapply collected_worker|]. rewrite length_insert. by eapply collected_worker.
  - done.
  - by apply Forall_insert.
Qed.

Lemma inv_stop r s : inv s → accept_thread s = Accepting → own_result r → (r = Ok tt → terminated s = true) → inv (stop_accepting r s).
Proof.
  intros [Hm Ha Ho Hh] Hacc Hr Ht. rewrite Hacc in *.
  assert (collected 0 r (signal (set_accept (Joining 0 r) s))) as Hc.
  { split; [done|]. split; [simpl; lia|]. exists r, []. split; [done|]. by split; [constructor|]. }
  unfold stop_accepting. destruct Hr as [->|[e ->]]; (split; simpl; [done| |by destruct (main s)|done]); [|done].
  destruct Hc as (_ & H2 & H3). split; [by apply Ht|done].
Qed.

Lemma inv_accept_step c s s' : inv s → accept_step c s = Some s' → inv s'.
Proof.
  intros Hinv. pose proof Hinv as [Hm Ha Ho Hh]. unfold accept_step. destruct (accept_thread s) as [|i r|r] eqn:Hacc; [| |done].
  - assert (∀ e, inv (stop_accepting (Err e) s)) as Herr by (intros e; apply inv_stop; [done|done|right; by exists e|done]).
    assert (terminated s = true → inv (stop_accepting (Ok tt) s)) as Hok by (intros Ht; apply inv_stop; [done|done|by left|done]).
    destruct c as [[spawn|e]|]; [|intros [= <-]; apply Herr|destruct (terminated s); [intros [= <-]; by apply Hok|done]].
    destruct (terminated s) eqn:Ht; [intros [= <-]; by apply Hok|].
    destruct (Nat.leb_spec MAX_MIGRATION_CONNECTIONS (length (workers s))); [intros [= <-]; apply Herr|]. destruct spawn; intros [= <-]; [apply Herr|].
    split; simpl; [rewrite length_app; simpl; lia|by rewrite Hacc|destruct (main s); congruence|].
    apply Forall_app. split; [done|by repeat constructor].
  - destruct (Nat.eqb_spec i (length (workers s))) as [->|]; [intros [= <-]; split; simpl; [done|done|by destruct (main s)|done]|].
    destruct (workers s !! i) as [[| |r']|] eqn:Hi; try done. intros [= <-]. split; simpl; [done| |by destruct (main s)|done].
    destruct Ha as (Ht & Hk & own & rs & Hown & Hf & ->). split; [done|]. split; [simpl; apply lookup_lt_Some in Hi; lia|].
    exists own, (rs ++ [r']). split; [done|]. simpl. erewrite take_S_r by done. split; [|by rewrite foldl_app].
    apply Forall2_app; [done|]. constructor; [|done]. split; [done|]. rewrite Forall_lookup in Hh. intros ->. by apply (Hh i _ Hi).
Qed.

Lemma reach_invariant s : reach s → inv s.
Proof.
  induction 1 as [|a s s' _ IH Hs]; [split; simpl; [unfold MAX_MIGRATION_CONNECTIONS; lia|done..]|].
  destruct a as [c|i o|write|]; simpl in Hs; [by eapply inv_accept_step|by eapply worker_invariant|..].
  - destruct IH as [Hm Ha Ho Hh]. unfold cleanup in Hs. destruct (main s) eqn:Hmain, write; simplify_eq; split; simpl; rewrite ?Hmain; try done.
    destruct (accept_thread s); [done|destruct Ha as (_ & ?); done..].
  - destruct IH as [Hm Ha Ho Hh]. unfold main_step in Hs. destruct (main s), (accept_thread s) eqn:Hacc; simplify_eq.
    split; simpl; rewrite ?Hacc; done.
Qed.

(** *** Cleaning up *)

Definition worker_work (w : worker) : nat := match w with Polling => 1 | Serving => 2 | Ended _ => 0 end.
Definition work (s : conns) : nat :=
  sum_list_with worker_work (workers s) +
  match accept_thread s with
  | Accepting => length (workers s) + 3
  | Joining i _ => length (workers s) - i + 2
  | Stopped _ => 1
  end + match main s with Cleaning => 1 | _ => 0 end.

Fixpoint exec (l : list action) (s : conns) : option conns :=
  match l with
  | [] => Some s
  | a :: l' => s' ← step a s; exec l' s'
  end.

Lemma exec_reaches l : ∀ s s', reach s → exec l s = Some s' → reach s'.
Proof.
  induction l as [|a l IH]; intros s s' Hr; simpl; [by intros [= <-]|].
  destruct (step a s) as [s1|] eqn:Hs; [|done]. simpl. apply IH. by eapply reach_step.
Qed.

Lemma sum_insert i w w' ws : ws !! i = Some w →
  (sum_list_with worker_work (<[i := w']> ws) + worker_work w = sum_list_with worker_work ws + worker_work w')%nat.
Proof. revert i. induction ws as [|x ws IH]; intros [|i] Hi; simplify_eq/=; [lia|]. specialize (IH i Hi). lia. Qed.

Lemma worker_works i o s s' : terminated s = true → worker_step i o s = Some s' → (work s' < work s)%nat ∧ main s' = main s.
Proof.
  unfold worker_step, work. destruct (workers s !! i) as [w|] eqn:Hi; [|done]. simpl. intros Ht H. rewrite Ht in H.
  assert (∀ w', (worker_work w' < worker_work w)%nat → Some (set_workers (<[i := w']> (workers s)) s) = Some s' →
            (work s' < work s)%nat ∧ main s' = main s) as Hless.
  { intros w' Hw [= <-]. split; [|done]. unfold work. simpl. rewrite length_insert. pose proof (sum_insert i w w' _ Hi). lia. }
  destruct w, o; simpl in H; try done; (eapply Hless; [|exact H]); simpl; lia.
Qed.

(** While [cleanup] waits, every step of a thread brings it nearer, *)
Lemma cleaning_step a s s' : inv s → main s = Cleaning → step a s = Some s' →
  (work s' < work s)%nat ∧ (main s' = Cleaning ∨ ∃ r, main s' = Cleaned r).
Proof.
  intros [_ Ha Ho _] Hm Hs. rewrite Hm in Ho. destruct a as [c|i o|write|]; simpl in Hs.
  - unfold accept_step in Hs. destruct (accept_thread s) as [|i r|r] eqn:Hacc; [| |done].
    + rewrite Ho in Hs. assert (∃ r, s' = stop_accepting r s) as [r ->] by (destruct c as [[spawn|e]|]; [exists (Ok tt)|exists (Err e)|exists (Ok tt)]; by injection Hs as <-).
      unfold work, stop_accepting. rewrite Hacc. destruct r; simpl; rewrite Hm; (split; [lia|by left]).
    + destruct Ha as (_ & Hi & _). destruct (Nat.eqb_spec i (length (workers s))).
      * injection Hs as <-. unfold work. simpl. rewrite Hacc, Hm. split; [lia|by left].
      * destruct (workers s !! i) as [[| |r']|] eqn:Hw; try done. injection Hs as <-. apply lookup_lt_Some in Hw.
        unfold work. simpl. rewrite Hacc, Hm. split; [lia|by left].
  - apply worker_works in Hs as [? Hm']; [|done]. split; [done|left; congruence].
  - unfold cleanup in Hs. rewrite Hm in Hs. done.
  - unfold main_step in Hs. rewrite Hm in Hs. destruct (accept_thread s) eqn:Hacc; try done. injection Hs as <-.
    unfold work. simpl. rewrite Hacc, Hm. split; [lia|right; by eexists].
Qed.

(** and there is one, of a worker that has a request where no other thread can go on. *)
Lemma cleaning_progress s : inv s → main s = Cleaning → ∃ a s', step a s = Some s'.
Proof.
  intros [_ Ha Ho _] Hm. rewrite Hm in Ho. destruct (accept_thread s) as [|i r|r] eqn:Hacc.
  - exists (Accept None). simpl. unfold accept_step. rewrite Hacc, Ho. by eexists.
  - destruct (Nat.eqb_spec i (length (workers s))) as [He|He].
    + exists (Accept None). simpl. unfold accept_step. rewrite Hacc, (proj2 (Nat.eqb_eq _ _) He). by eexists.
    + destruct Ha as (_ & Hi & _). destruct (lookup_lt_is_Some_2 (workers s) i) as [w Hw]; [lia|].
      destruct w as [| |r']; [exists (Worker i Readable)|exists (Worker i Answered)|exists (Accept None)]; simpl.
      * unfold worker_step. rewrite Hw. simpl. rewrite Ho. by eexists.
      * unfold worker_step. rewrite Hw. by eexists.
      * unfold accept_step. rewrite Hacc, (proj2 (Nat.eqb_neq _ _) He), Hw. by eexists.
  - exists Main. simpl. unfold main_step. rewrite Hm, Hacc. by eexists.
Qed.

Lemma serving_step a i s s' : workers s !! i = Some Serving → (∀ o, a ≠ Worker i o) → step a s = Some s' → workers s' !! i = Some Serving.
Proof.
  intros Hi Ha Hs. destruct a as [c|j o|write|]; simpl in Hs.
  - unfold accept_step, stop_accepting in Hs. repeat case_match; simplify_eq/=; try done. by apply lookup_app_l_Some.
  - apply worker_step_inv in Hs as (w & w' & _ & _ & _ & ->). simpl. rewrite list_lookup_insert_ne; [done|]. intros ->. by apply (Ha o).
  - unfold cleanup in Hs. by repeat case_match; simplify_eq.
  - unfold main_step in Hs. by repeat case_match; simplify_eq.
Qed.

(** C18: [cleanup] returns: once it has signalled the end, every step of a thread uses up a
    bounded amount of work, and some run ends it, in which the workers only answer the
    requests they have begun.  It does wait for these: while a worker is within a request,
    it does not return. *)
Theorem cleanup_returns s : reach s → main s = Cleaning →
  (∀ a s', step a s = Some s' → (work s' < work s)%nat ∧ (main s' = Cleaning ∨ ∃ r, main s' = Cleaned r)) ∧
  (∃ l s' r, exec l s = Some s' ∧ main s' = Cleaned r) ∧
  (∀ i l s' r, workers s !! i = Some Serving → (∀ o, Worker i o ∉ l) → exec l s = Some s' → main s' ≠ Cleaned r).
Proof.
  intros Hr Hm. pose proof (reach_invariant _ Hr) as Hi. split; [by intros a s'; apply cleaning_step|]. split.
  - remember (work s) as n eqn:Hn. assert (work s ≤ n)%nat as Hle by lia. clear Hn. revert s Hr Hm Hi Hle.
    induction n as [|n IH]; intros s Hr Hm Hi Hle; destruct (cleaning_progress s Hi Hm) as (a & s1 & Hs);
      destruct (cleaning_step a s s1 Hi Hm Hs) as [Hw Hc]; [lia|].
    assert (reach s1) as Hr1 by (by eapply reach_step). destruct Hc as [Hc|[r Hc]].
    + destruct (IH s1 Hr1 Hc (reach_invariant _ Hr1)) as (l & s' & r & He & Hd); [lia|]. exists (a :: l), s', r. simpl. by rewrite Hs.
    + exists [a], s1, r. simpl. by rewrite Hs.
  - intros i l s' r Hs Hl He Hc. assert (workers s' !! i = Some Serving) as Hs'.
    { clear Hm Hi Hc. revert s Hr Hs He. induction l as [|a l IH]; intros s Hr Hs He; simpl in He; [by simplify_eq|].
      destruct (step a s) as [s1|] eqn:Ha; [|done]. apply (IH ltac:(intros o Ho; apply (Hl o); by right) s1); [by eapply reach_step| |done].
      eapply serving_step; [done| |done]. intros o ->. apply (Hl o). by left. }
    pose proof (exec_reaches l s s' Hr He) as Hr'. pose proof (inv_owner _ (reach_invariant _ Hr')) as Ho. pose proof (inv_accept _ (reach_invariant _ Hr')) as Ha.
    rewrite Hc in Ho. rewrite Ho in Ha. destruct Ha as (_ & _ & own & rs & _ & Hf & _). rewrite firstn_all in Hf.
    by destruct (Forall2_lookup_l _ _ _ i Serving Hf Hs') as (x & _ & [? _]).
Qed.

(** When [cleanup] has returned, all threads have: the workers, at most 128 of them, ended
    with a result each, and [cleanup] gives the first error, of accepting connections if that
    failed, else of the worker whose connection came first, a panic being one; it gives none
    exactly when there was none. *)
Theorem cleanup_result s r : reach s → main s = Cleaned r →
  (length (workers s) ≤ MAX_MIGRATION_CONNECTIONS)%nat ∧ terminated s = true ∧ accept_thread s = Stopped r ∧
  ∃ own rs, workers s = Ended <$> rs ∧ own_result own ∧ r = foldl first_of own rs ∧ own_result r ∧
    (r = Ok tt ↔ own = Ok tt ∧ Forall (λ x, x = Ok tt) rs).
Proof.
  intros [Hm Ha Ho Hh]%reach_invariant Hmain. rewrite Hmain in Ho. rewrite Ho in Ha. destruct Ha as (Ht & _ & own & rs & Hown & Hf & ->).
  rewrite firstn_all in Hf. split; [done|]. split; [done|]. split; [done|]. exists own, rs.
  assert (workers s = Ended <$> rs) as Hws by (clear -Hf; induction Hf as [|w r ws rs [-> _] _ IH]; simpl; by rewrite ?IH).
  assert (Forall (λ r, r ≠ Hang) rs) as Hnh by (clear -Hf; induction Hf as [|w r ws rs [_ ?] _ IH]; by constructor).
  by destruct (foldl_first_result own rs Hown Hnh).
Qed.

(** Two connections, one of them with an error, and the end of the migration. *)
Definition demo_run : list action :=
  [Accept (Some (Connection None)); Accept (Some (Connection None)); Worker 1 Readable; Worker 0 Readable;
   Worker 1 (Failed (MigrateReceive "broken")); Cleanup None].
Definition demo_end : list action :=
  [Accept None; Worker 0 Answered; Worker 0 Readable; Accept None; Accept None; Accept None; Main].
Definition demo_state (l : list action) : conns := default new (exec l new).

Lemma cleanup_returns_witness : main (demo_state demo_run) = Cleaning ∧ ∃ l s' r, exec l (demo_state demo_run) = Some s' ∧ main s' = Cleaned r.
Proof.
  split; [reflexivity|]. apply (cleanup_returns (demo_state demo_run)); [|reflexivity].
  apply (exec_reaches demo_run new); [constructor|reflexivity].
Defined.

Lemma cleanup_result_witness :
  main (demo_state (demo_run ++ demo_end)) = Cleaned (Err (MigrateReceive "broken")) ∧ terminated (demo_state (demo_run ++ demo_end)) = true.
Proof.
  split; [reflexivity|]. apply (cleanup_result (demo_state (demo_run ++ demo_end)) (Err (MigrateReceive "broken"))); [|reflexivity].
  apply (exec_reaches (demo_run ++ demo_end) new); [constructor|reflexivity].
Defined.

End ReceiveWorkers.
