(* ===== verification/SnapshotStore.v ===== *)
(** * The files of a snapshot template

    Model of the tools of [conch-driver]: [split_snapshot.c], which cuts a snapshot
    into pages and stores them by their hash in [pages.bin], an open-addressing hash
    table, and in [page_table.bin], the hash of each page; and [query_snapshot.c],
    which finds a page again.  A file is its length and its bytes; reading is [pread]
    up to the end of the file, writing is [pwrite], which extends it with zeros and is not
    short, since the tools do not look at the results of their writes.  SHA-256
    is a parameter.  The kernel driver that serves the pages is [SnapshotDriver]. *)

From S2P Require Import Prelude.

Module SnapshotStore.

(** ** Files *)
Record file := { f_len : Z; f_at : Z → Z }.

Definition pread (f : file) (n off : Z) : list Z :=
  f_at f <$> seqZ off (Z.max 0 (Z.min n (f_len f - off))).
Definition pwrite (f : file) (bs : list Z) (off : Z) : file :=
  {| f_len := Z.max (f_len f) (off + zlen bs);
     f_at x := if (off <=? x) && (x <? off + zlen bs) then default 0 (znth bs (x - off)) else f_at f x |}.
Definition empty_file : file := {| f_len := 0; f_at := λ _, 0 |}.

(** ** The constants of the tools *)
Definition PAGE_SIZE : Z := 4096.
Definition HEADER_SIZE : Z := 8.
Definition SLOT_SIZE : Z := PAGE_SIZE + 8.
Definition HASH_MODULUS : Z := Z.shiftl 1 12.
Definition MAX_PROBE_COUNT : nat := 64.
Definition PAGE_TABLE_ENTRY_SIZE : Z := 16.

Record page_table_entry := { va_offset : Z; hash_idx : Z }.
Definition entry_bytes (e : page_table_entry) : list Z := le_bytes 8 (va_offset e) ++ le_bytes 8 (hash_idx e).
Definition entry_of_bytes (bs : list Z) : page_table_entry :=
  {| va_offset := of_le_bytes (slice bs 0 8); hash_idx := of_le_bytes (slice bs 8 8) |}.

(** The first 8 bytes of the digest. *)
Definition compute_hash_idx (sha256 : list Z → list Z) (data : list Z) : Z := of_le_bytes (slice (sha256 data) 0 8).

(** ** [split_snapshot] *)

(** The probes that are left, from a slot on.  The tool does not look at the results of its
    two writes; the model is of runs on which each writes all its bytes. *)
Fixpoint write_probe (probes : nat) (file_index hash : Z) (data : list Z) (f : file) : Z * file :=
  match probes with
  | O => (-1, f)
  | S probes' =>
      let offset := file_index * SLOT_SIZE in
      let header := pread f HEADER_SIZE offset in
      if (zlen header <? HEADER_SIZE) || (of_le_bytes header =? 0)
      then (0, pwrite (pwrite f (le_bytes 8 hash) offset) data (offset + HEADER_SIZE))
      else if of_le_bytes header =? hash then (0, f)
      else write_probe probes' ((file_index + 1) mod HASH_MODULUS) hash data f
  end.

(** [None] is a path that cannot be opened. *)
Definition write_page_to_slot (pages : option file) (hash : Z) (data : list Z) : Z * option file :=
  match pages with
  | None => (-1, None)
  | Some f => let '(r, f') := write_probe MAX_PROBE_COUNT (hash mod HASH_MODULUS) hash data f in (r, Some f')
  end.

Record outputs := { page_table : file; pt_pos : Z; pages : option file; unique_pages : Z }.

(** [write] on the page table, at its file position. *)
Definition write_pte (e : page_table_entry) (o : outputs) : outputs :=
  {| page_table := pwrite (page_table o) (entry_bytes e) (pt_pos o); pt_pos := pt_pos o + 16;
     pages := pages o; unique_pages := unique_pages o |}.
Definition store_page (hash : Z) (data : list Z) (o : outputs) : outputs :=
  let '(r, p) := write_page_to_slot (pages o) hash data in
  {| page_table := page_table o; pt_pos := pt_pos o; pages := p;
     unique_pages := if r =? 0 then unique_pages o + 1 else unique_pages o |}.

(** The loop over the pages of the snapshot; a short read breaks it. *)
Fixpoint process (fuel : nat) (sha256 : list Z → list Z) (snap : file) (va : Z) (o : outputs) : option outputs :=
  if negb (va <? f_len snap) then Some o
  else
    match fuel with
    | O => None
    | S fuel' =>
        let page_data := pread snap PAGE_SIZE va in
        if negb (zlen page_data =? PAGE_SIZE) then Some o
        else
          let hash := compute_hash_idx sha256 page_data in
          process fuel' sha256 snap (va + PAGE_SIZE)
            (store_page hash page_data (write_pte {| va_offset := va; hash_idx := hash |} o))
    end.

Record metadata := { total_size : Z; page_count : Z; m_unique_pages : Z; hash_modulus : Z }.

(** The program, on the snapshot and on what the output files held before. *)
Definition split_snapshot (fuel : nat) (sha256 : list Z → list Z) (snap page_table0 : file) (pages0 : option file)
    : option (outputs * metadata) :=
  o ← process fuel sha256 snap 0 {| page_table := page_table0; pt_pos := 0; pages := pages0; unique_pages := 0 |};
  Some (o, {| total_size := f_len snap; page_count := f_len snap / PAGE_SIZE;
              m_unique_pages := unique_pages o; hash_modulus := HASH_MODULUS |}).

(** ** [query_snapshot] *)
Inductive lookup_result := Found (slot : Z) (probes : nat) | EmptySlot (slot : Z) (probes : nat) | MaxProbes (slot : Z).

Fixpoint lookup_probe (left probe : nat) (file_index hash : Z) (f : file) : lookup_result :=
  match left with
  | O => MaxProbes file_index
  | S left' =>
      let header := pread f HEADER_SIZE (file_index * SLOT_SIZE) in
      if zlen header <? HEADER_SIZE then EmptySlot file_index probe
      else if of_le_bytes header =? hash then Found file_index probe
      else if of_le_bytes header =? 0 then EmptySlot file_index probe
      else lookup_probe left' (S probe) ((file_index + 1) mod HASH_MODULUS) hash f
  end.

(** [None]: [pages.bin] cannot be opened. *)
Definition lookup_page_by_hash (pages : option file) (hash : Z) : option lookup_result :=
  f ← pages; Some (lookup_probe MAX_PROBE_COUNT 0 (hash mod HASH_MODULUS) hash f).

(** What the program reports, and exits with. *)
Inductive verdict :=
| CannotOpen | CannotReadEntry | OtherEntry (va : Z) | Answer (hash : Z) (r : option lookup_result).
Definition exit_code (v : verdict) : Z :=
  match v with Answer _ (Some (Found _ _)) => 0 | _ => 1 end.

Definition query_by_hash (pages : option file) (hash : Z) : verdict := Answer hash (lookup_page_by_hash pages hash).
Definition query_by_va (page_table pages : option file) (va : Z) : verdict :=
  match page_table with
  | None => CannotOpen
  | Some pt =>
      let bs := pread pt PAGE_TABLE_ENTRY_SIZE (va / PAGE_SIZE * PAGE_TABLE_ENTRY_SIZE) in
      if negb (zlen bs =? PAGE_TABLE_ENTRY_SIZE) then CannotReadEntry
      else
        let pte := entry_of_bytes bs in
        if negb (va_offset pte =? va) then OtherEntry (va_offset pte)
        else query_by_hash pages (hash_idx pte)
  end.

(** ** Slots *)

(** The hash in a slot, 0 where it is empty, and its page. *)
Definition slot_hash (f : file) (i : Z) : Z :=
  let header := pread f HEADER_SIZE (i * SLOT_SIZE) in
  if zlen header <? HEADER_SIZE then 0 else of_le_bytes header.
Definition slot_page (f : file) (i : Z) : list Z := pread f PAGE_SIZE (i * SLOT_SIZE + HEADER_SIZE).

(** A file of whole slots. *)
Record wf (f : file) : Prop := {
  wf_len : ∃ n, 0 ≤ n ∧ f_len f = n * SLOT_SIZE;
  wf_hole : ∀ x, f_len f ≤ x → f_at f x = 0 }.

Definition fill_slot (f : file) (i hash : Z) (data : list Z) : file :=
  pwrite (pwrite f (le_bytes 8 hash) (i * SLOT_SIZE)) data (i * SLOT_SIZE + HEADER_SIZE).

(** SHA-256 gives 32 bytes. *)
Definition digests (sha256 : list Z → list Z) : Prop := ∀ d, zlen (sha256 d) = 32 ∧ Forall is_u8 (sha256 d).

(** The pages that occur, none of which collide or hash to 0. *)
Record distinct (sha256 : list Z → list Z) (P : list Z → Prop) : Prop := {
  ds_collide d d' : P d → P d' → compute_hash_idx sha256 d = compute_hash_idx sha256 d' → d = d';
  ds_zero d : P d → compute_hash_idx sha256 d ≠ 0 }.

(** Every slot that is used holds one of them, under its hash. *)
Definition holds (sha256 : list Z → list Z) (P : list Z → Prop) (f : file) : Prop :=
  ∀ i, 0 ≤ i → slot_hash f i ≠ 0 → P (slot_page f i) ∧ compute_hash_idx sha256 (slot_page f i) = slot_hash f i.

(** ** Reading and writing *)
Lemma zlen_pread f n off : zlen (pread f n off) = Z.max 0 (Z.min n (f_len f - off)).
Proof. unfold pread. rewrite zlen_fmap, zlen_seqZ; lia. Qed.

Lemma znth_pread f n off i :
  0 ≤ i < n → off + i < f_len f → znth (pread f n off) i = Some (f_at f (off + i)).
Proof. intros Hi Hl. unfold pread. by rewrite znth_fmap, znth_seqZ by lia. Qed.

Lemma pread_ext f f' n off :
  0 ≤ n → off + n ≤ f_len f → off + n ≤ f_len f' → (∀ x, off ≤ x < off + n → f_at f' x = f_at f x) →
  pread f' n off = pread f n off.
Proof.
  intros Hn Hl Hl' Hx. apply znth_ext; rewrite !zlen_pread; [lia|]. intros i Hi.
  rewrite !znth_pread by lia. rewrite Hx by lia. done.
Qed.

Lemma pread_pwrite f bs off : 0 ≤ off → pread (pwrite f bs off) (zlen bs) off = bs.
Proof.
  intros Ho. pose proof (zlen_nonneg bs). apply znth_ext; rewrite zlen_pread; simpl; [lia|]. intros i Hi.
  rewrite znth_pread by (simpl; lia). simpl.
  destruct (Z.leb_spec off (off + i)), (Z.ltb_spec (off + i) (off + zlen bs)); try lia. simpl.
  replace (off + i - off) with i by lia. destruct (znth_is_Some bs i) as [x Hx]; [lia|]. by rewrite Hx.
Qed.

Lemma pwrite_other f bs off x : x < off ∨ off + zlen bs ≤ x → f_at (pwrite f bs off) x = f_at f x.
Proof. intros H. simpl. destruct (Z.leb_spec off x), (Z.ltb_spec x (off + zlen bs)); simpl; try done; lia. Qed.

Lemma of_le_zeros l : Forall (eq 0) l → of_le_bytes l = 0.
Proof. induction 1 as [|x l <- _ IH]; simpl; [done|]. lia. Qed.

Lemma of_le_bound l : Forall is_u8 l → 0 ≤ of_le_bytes l < 256 ^ zlen l.
Proof.
  induction 1 as [|x l Hx _ IH]; [done|]. rewrite zlen_cons. cbn [of_le_bytes]. unfold is_u8 in Hx.
  rewrite Z.pow_add_r, Z.pow_1_r by (pose proof (zlen_nonneg l); lia). lia.
Qed.

Lemma hash_u64 sha256 d : digests sha256 → is_u64 (compute_hash_idx sha256 d).
Proof.
  intros [Hl Hu]%(λ H, H d). unfold compute_hash_idx. pose proof (of_le_bound (slice (sha256 d) 0 8)) as H.
  rewrite zlen_slice in H by lia. apply H. apply Forall_take, Forall_drop, Hu.
Qed.

(** ** Filling a slot *)

(** Arithmetic on offsets of slots. *)
Ltac slots := unfold SLOT_SIZE, HEADER_SIZE, PAGE_SIZE in *; lia.

Lemma slot_hash_full f i :
  0 ≤ i → i * SLOT_SIZE + 8 ≤ f_len f → slot_hash f i = of_le_bytes (pread f 8 (i * SLOT_SIZE)).
Proof.
  intros Hi Hl. unfold slot_hash. destruct (Z.ltb_spec (zlen (pread f HEADER_SIZE (i * SLOT_SIZE))) HEADER_SIZE) as [H|H]; [|done].
  rewrite zlen_pread in H. unfold HEADER_SIZE in *. lia.
Qed.

(** The header of a slot is read whole, or the slot is past the end. *)
Lemma slot_cases f i :
  wf f → 0 ≤ i → (i * SLOT_SIZE + SLOT_SIZE ≤ f_len f) ∨ (f_len f ≤ i * SLOT_SIZE ∧ slot_hash f i = 0).
Proof.
  intros [[n [Hn Hl]] _] Hi. destruct (decide (i < n)) as [Hlt|Hge].
  - left. rewrite Hl. slots.
  - right. assert (f_len f ≤ i * SLOT_SIZE) by (rewrite Hl; slots). split; [done|].
    unfold slot_hash. destruct (Z.ltb_spec (zlen (pread f HEADER_SIZE (i * SLOT_SIZE))) HEADER_SIZE) as [|H']; [done|].
    rewrite zlen_pread in H'. unfold HEADER_SIZE in H'. lia.
Qed.

Lemma used_slot f i : wf f → 0 ≤ i → slot_hash f i ≠ 0 → i * SLOT_SIZE + SLOT_SIZE ≤ f_len f.
Proof. intros Hw Hi Hh. by destruct (slot_cases f i Hw Hi) as [|[]]. Qed.

Lemma empty_wf : wf empty_file.
Proof. split; [by exists 0|done]. Qed.

Lemma empty_holds sha256 P : holds sha256 P empty_file.
Proof. intros i Hi Hu. pose proof (used_slot empty_file i empty_wf Hi Hu) as H. cbn in H. slots. Qed.

Section fill.
Context (f : file) (i hash : Z) (data : list Z).
Hypothesis (Hwf : wf f) (Hi : 0 ≤ i) (Hh : is_u64 hash) (Hd : zlen data = PAGE_SIZE).
Local Notation f' := (fill_slot f i hash data).

Lemma fill_len : f_len f' = Z.max (f_len f) (i * SLOT_SIZE + SLOT_SIZE).
Proof using Hd. unfold fill_slot, pwrite. cbn [f_len]. rewrite Hd, zlen_le_bytes. slots. Qed.

Lemma fill_other x : x < i * SLOT_SIZE ∨ i * SLOT_SIZE + SLOT_SIZE ≤ x → f_at f' x = f_at f x.
Proof using Hd.
  intros Hx. unfold fill_slot. rewrite !pwrite_other; [done|..].
  - rewrite zlen_le_bytes. slots.
  - rewrite Hd. slots.
Qed.

Lemma fill_wf : wf f'.
Proof using Hwf Hi Hd.
  destruct Hwf as [[n [Hn Hl]] H0]. split.
  - exists (Z.max n (i + 1)). split; [lia|]. rewrite fill_len, Hl. slots.
  - intros x Hx. rewrite fill_len in Hx. rewrite fill_other by lia. apply H0. lia.
Qed.

Lemma fill_hash : slot_hash f' i = hash.
Proof using Hi Hh Hd.
  rewrite slot_hash_full; [|done|rewrite fill_len; slots].
  transitivity (of_le_bytes (pread (pwrite f (le_bytes 8 hash) (i * SLOT_SIZE)) (zlen (le_bytes 8 hash)) (i * SLOT_SIZE))).
  - f_equal. rewrite zlen_le_bytes. apply pread_ext; [done|unfold pwrite; cbn [f_len]; rewrite zlen_le_bytes; lia|..].
    + rewrite fill_len. slots.
    + intros x Hx. unfold fill_slot. apply pwrite_other. unfold HEADER_SIZE. lia.
  - rewrite pread_pwrite by (slots). by apply of_le_bytes_le_bytes.
Qed.

Lemma fill_page : slot_page f' i = data.
Proof using Hi Hd.
  unfold slot_page, fill_slot. rewrite <-Hd. apply pread_pwrite. slots.
Qed.

(** Another slot keeps its bytes, or lies in a hole. *)
Lemma fill_slot_other j : 0 ≤ j → j ≠ i → slot_hash f' j = slot_hash f j.
Proof using Hwf Hi Hd.
  intros Hj Hne. assert (∀ x, j * SLOT_SIZE ≤ x < j * SLOT_SIZE + SLOT_SIZE → f_at f' x = f_at f x) as Hx.
  { intros x Hx. apply fill_other. unfold SLOT_SIZE, PAGE_SIZE in *. nia. }
  destruct (slot_cases f j Hwf Hj) as [Hc|[Hc ->]].
  - rewrite !slot_hash_full; [|done|slots|done|rewrite fill_len; slots].
    f_equal. apply pread_ext; [done|slots|rewrite fill_len; slots|].
    intros x Hx'. apply Hx. slots.
  - destruct (slot_cases f' j fill_wf Hj) as [Hc'|[_ H]]; [|done].
    rewrite slot_hash_full; [|done|slots]. apply of_le_zeros, Forall_forall.
    intros b Hb. unfold pread in Hb. apply list_elem_of_fmap in Hb as (x & -> & Hin%elem_of_seqZ).
    rewrite Hx by (slots). symmetry. apply Hwf. lia.
Qed.

Lemma fill_page_other j : 0 ≤ j → j ≠ i → slot_hash f j ≠ 0 → slot_page f' j = slot_page f j.
Proof using Hwf Hi Hd.
  intros Hj Hne Hu. pose proof (used_slot f j Hwf Hj Hu). unfold slot_page.
  apply pread_ext; [done|slots|
    rewrite fill_len; slots|].
  intros x Hx. apply fill_other. unfold SLOT_SIZE, HEADER_SIZE, PAGE_SIZE in *. nia.
Qed.
End fill.

(** ** Probing *)
Lemma lookup_probe_S left p i h f :
  h ≠ 0 → lookup_probe (S left) p i h f =
  if slot_hash f i =? h then Found i p
  else if slot_hash f i =? 0 then EmptySlot i p
  else lookup_probe left (S p) ((i + 1) mod HASH_MODULUS) h f.
Proof.
  intros Hh. cbn [lookup_probe]. unfold slot_hash. destruct (_ <? _); [|done].
  destruct (Z.eqb_spec 0 h); [lia|done].
Qed.

Lemma write_probe_S left i h d f :
  write_probe (S left) i h d f =
  if slot_hash f i =? 0 then (0, fill_slot f i h d)
  else if slot_hash f i =? h then (0, f)
  else write_probe left ((i + 1) mod HASH_MODULUS) h d f.
Proof. cbn [write_probe]. unfold slot_hash. by destruct (_ <? _). Qed.

Lemma next_slot i : 0 ≤ (i + 1) mod HASH_MODULUS.
Proof. apply Z.mod_pos_bound. done. Qed.

(** A page that is found stays where it is when an empty slot is filled. *)
Lemma found_fill left f k h' d' : ∀ p i h j q,
  wf f → 0 ≤ k → zlen d' = PAGE_SIZE → slot_hash f k = 0 → 0 ≤ i → h ≠ 0 →
  lookup_probe left p i h f = Found j q →
  lookup_probe left p i h (fill_slot f k h' d') = Found j q ∧ slot_page (fill_slot f k h' d') j = slot_page f j.
Proof.
  induction left as [|left IH]; intros p i h j q Hw Hk Hd Hk0 Hi Hh; [done|].
  rewrite !lookup_probe_S by done. destruct (decide (i = k)) as [->|Hne].
  { rewrite Hk0. destruct (Z.eqb_spec 0 h); [lia|done]. }
  rewrite fill_slot_other by done. destruct (Z.eqb_spec (slot_hash f i) h) as [He|He].
  - intros [= <- <-]. split; [done|]. apply fill_page_other; try done. lia.
  - destruct (Z.eqb_spec (slot_hash f i) 0); [done|]. intros H. apply IH; try done. apply next_slot.
Qed.

(** A page that is written is found, in the slot that was filled, or already there. *)
Lemma write_found left d : ∀ p i h f f',
  wf f → 0 ≤ i → is_u64 h → h ≠ 0 → zlen d = PAGE_SIZE → write_probe left i h d f = (0, f') →
  ∃ j q, lookup_probe left p i h f' = Found j q ∧ 0 ≤ j ∧ slot_hash f' j = h ∧
    (f' = f ∨ (f' = fill_slot f j h d ∧ slot_hash f j = 0)).
Proof.
  induction left as [|left IH]; intros p i h f f' Hw Hi Hu Hh Hd; [done|].
  rewrite write_probe_S, lookup_probe_S by done. destruct (Z.eqb_spec (slot_hash f i) 0) as [H0|H0].
  - intros [= <-]. rewrite fill_hash, Z.eqb_refl by done. exists i, p. split; [done|]. split; [done|].
    split; [by apply fill_hash|by right].
  - destruct (Z.eqb_spec (slot_hash f i) h) as [He|He].
    + intros [= <-]. rewrite He, Z.eqb_refl. exists i, p. split; [done|]. split; [done|]. by split; [|left].
    + intros H. destruct (IH (S p) _ h f f' Hw (next_slot i) Hu Hh Hd H) as (j & q & Hl & Hj & Hjh & Hf).
      assert (slot_hash f' i = slot_hash f i) as Hsame.
      { destruct Hf as [->|[-> Hj0]]; [done|]. apply fill_slot_other; try done. congruence. }
      exists j, q. split; [|done]. rewrite Hsame. by apply Z.eqb_neq in H0, He; rewrite He, H0.
Qed.

(** Storing a page keeps what is stored, and stores it. *)
Lemma store_ok sha256 P f d f' :
  digests sha256 → distinct sha256 P → wf f → holds sha256 P f → P d → zlen d = PAGE_SIZE →
  let h := compute_hash_idx sha256 d in
  write_probe MAX_PROBE_COUNT (h mod HASH_MODULUS) h d f = (0, f') →
  wf f' ∧ holds sha256 P f' ∧
  (∃ j q, lookup_probe MAX_PROBE_COUNT 0 (h mod HASH_MODULUS) h f' = Found j q ∧ slot_page f' j = d) ∧
  ∀ h' j q, h' ≠ 0 → lookup_probe MAX_PROBE_COUNT 0 (h' mod HASH_MODULUS) h' f = Found j q →
    lookup_probe MAX_PROBE_COUNT 0 (h' mod HASH_MODULUS) h' f' = Found j q ∧ slot_page f' j = slot_page f j.
Proof.
  intros Hsha [Hcol Hz] Hw Hh Hd Hl h Hwr. assert (∀ x, 0 ≤ x mod HASH_MODULUS) as Hmod by (intros; by apply Z.mod_pos_bound).
  destruct (write_found _ d 0 _ h f f' Hw (Hmod h) (hash_u64 _ d Hsha) (Hz d Hd) Hl Hwr)
    as (j & q & Hf & Hj & Hjh & [->|[-> Hj0]]).
  - split; [done|]. split; [done|]. split; [|done]. exists j, q. split; [done|].
    destruct (Hh j Hj) as [Hp Hc]; [rewrite Hjh; by apply Hz|]. by apply Hcol; [..|rewrite Hc].
  - split; [by apply fill_wf|]. split; [|split].
    + intros i Hi. destruct (decide (i = j)) as [->|Hne].
      * rewrite fill_hash, fill_page by (done || by apply hash_u64). done.
      * rewrite fill_slot_other by done. intros Hu. rewrite fill_page_other by done. by apply Hh.
    + exists j, q. split; [done|]. by apply fill_page.
    + intros h' j' q' Hh' Hf'. apply found_fill; done.
Qed.

(** ** The snapshot *)
Definition page (snap : file) (k : Z) : list Z := pread snap PAGE_SIZE (k * PAGE_SIZE).
Definition entry (sha256 : list Z → list Z) (snap : file) (k : Z) : page_table_entry :=
  {| va_offset := k * PAGE_SIZE; hash_idx := compute_hash_idx sha256 (page snap k) |}.

(** Where the page is found. *)
Definition stored (sha256 : list Z → list Z) (f : file) (d : list Z) : Prop :=
  let h := compute_hash_idx sha256 d in
  ∃ j q, lookup_probe MAX_PROBE_COUNT 0 (h mod HASH_MODULUS) h f = Found j q ∧ slot_page f j = d.

(** The page table up to page [k]. *)
Definition table_ok (sha256 : list Z → list Z) (snap pt : file) (k : Z) : Prop :=
  16 * k ≤ f_len pt ∧ ∀ j, 0 ≤ j < k → pread pt 16 (16 * j) = entry_bytes (entry sha256 snap j).

Lemma zlen_entry e : zlen (entry_bytes e) = 16.
Proof. unfold entry_bytes. by rewrite zlen_app, !zlen_le_bytes. Qed.

Lemma entry_roundtrip e : is_u64 (va_offset e) → is_u64 (hash_idx e) → entry_of_bytes (entry_bytes e) = e.
Proof.
  intros Hv Hh. unfold entry_of_bytes, entry_bytes.
  assert (slice (le_bytes 8 (va_offset e) ++ le_bytes 8 (hash_idx e)) 0 8 = le_bytes 8 (va_offset e)) as -> by done.
  assert (slice (le_bytes 8 (va_offset e) ++ le_bytes 8 (hash_idx e)) 8 8 = le_bytes 8 (hash_idx e)) as -> by done.
  rewrite !of_le_bytes_le_bytes by done. by destruct e.
Qed.

Lemma table_step sha256 snap pt k :
  0 ≤ k → table_ok sha256 snap pt k →
  table_ok sha256 snap (pwrite pt (entry_bytes (entry sha256 snap k)) (16 * k)) (k + 1).
Proof.
  intros Hk [Hl Ht]. split; [unfold pwrite; cbn [f_len]; rewrite zlen_entry; lia|]. intros j Hj.
  destruct (decide (j = k)) as [->|Hne].
  - rewrite <-(zlen_entry (entry sha256 snap k)) at 2. apply pread_pwrite. lia.
  - rewrite <-(Ht j) by lia. apply pread_ext; [done|lia|unfold pwrite; cbn [f_len]; rewrite zlen_entry; lia|].
    intros x Hx. apply pwrite_other. lia.
Qed.

Lemma write_probe_cases left d : ∀ i h f,
  (∃ f', write_probe left i h d f = (0, f')) ∨ write_probe left i h d f = (-1, f).
Proof.
  induction left as [|left IH]; intros i h f; [by right|]. rewrite write_probe_S.
  destruct (_ =? 0); [left; by eexists|]. destruct (_ =? h); [left; by eexists|apply IH].
Qed.

Section process.
Context (sha256 : list Z → list Z) (P : list Z → Prop) (snap : file) (n : Z).
Hypothesis (Hsha : digests sha256) (Hdist : distinct sha256 P) (Hlen : f_len snap = n * PAGE_SIZE).
Hypothesis (Hpages : ∀ k, 0 ≤ k < n → P (page snap k)).

Lemma page_len k : 0 ≤ k < n → zlen (page snap k) = PAGE_SIZE.
Proof using Hlen. intros Hk. unfold page. rewrite zlen_pread, Hlen. slots. Qed.

Lemma process_step fuel k o :
  0 ≤ k < n → process (S fuel) sha256 snap (k * PAGE_SIZE) o =
  process fuel sha256 snap ((k + 1) * PAGE_SIZE)
    (store_page (hash_idx (entry sha256 snap k)) (page snap k) (write_pte (entry sha256 snap k) o)).
Proof using Hlen.
  intros Hk. cbn [process]. rewrite Hlen. destruct (Z.ltb_spec (k * PAGE_SIZE) (n * PAGE_SIZE)); [|slots].
  fold (page snap k). rewrite page_len, Z.eqb_refl by done. cbn [negb].
  by replace ((k + 1) * PAGE_SIZE) with (k * PAGE_SIZE + PAGE_SIZE) by lia.
Qed.

Lemma process_run m : ∀ fuel k o f,
  Z.of_nat m = n - k → 0 ≤ k → (m ≤ fuel)%nat → pages o = Some f → pt_pos o = 16 * k →
  wf f → holds sha256 P f → table_ok sha256 snap (page_table o) k →
  ∃ o' f', process fuel sha256 snap (k * PAGE_SIZE) o = Some o' ∧ pages o' = Some f' ∧ wf f' ∧
    table_ok sha256 snap (page_table o') n ∧ unique_pages o' ≤ unique_pages o + (n - k) ∧
    (unique_pages o' = unique_pages o + (n - k) → ∀ j, k ≤ j < n → stored sha256 f' (page snap j)) ∧
    (∀ d, P d → stored sha256 f d → stored sha256 f' d).
Proof using Hsha Hdist Hlen Hpages.
  induction m as [|m IH]; intros fuel k o f Hm Hk Hfu Hp Hpos Hw Hh Ht.
  { assert (n = k) as -> by lia. exists o, f. split.
    - destruct fuel; cbn [process]; rewrite Hlen, Z.ltb_irrefl; done.
    - do 3 (split; [done|]). split; [lia|]. split; [intros; lia|done]. }
  destruct fuel as [|fuel]; [lia|]. rewrite process_step by lia.
  set (o1 := store_page _ _ _). assert (P (page snap k)) as HP by (apply Hpages; lia).
  assert (table_ok sha256 snap (page_table (write_pte (entry sha256 snap k) o)) (k + 1)) as Ht1.
  { unfold write_pte. cbn [page_table]. rewrite Hpos. by apply table_step. }
  assert (∃ f1, pages o1 = Some f1 ∧ page_table o1 = page_table (write_pte (entry sha256 snap k) o) ∧
    pt_pos o1 = 16 * (k + 1) ∧ wf f1 ∧ holds sha256 P f1 ∧ (∀ d, P d → stored sha256 f d → stored sha256 f1 d) ∧
    (unique_pages o1 = unique_pages o ∨ (unique_pages o1 = unique_pages o + 1 ∧ stored sha256 f1 (page snap k))))
    as (f1 & Hp1 & Ept & Epos & Hw1 & Hh1 & Hst & Hu).
  { unfold o1, store_page, write_page_to_slot, write_pte. cbn [pages]. rewrite Hp.
    destruct (write_probe_cases MAX_PROBE_COUNT (page snap k)
      (hash_idx (entry sha256 snap k) mod HASH_MODULUS) (hash_idx (entry sha256 snap k)) f) as [[f1 E]|E]; rewrite E.
    - destruct (store_ok sha256 P f (page snap k) f1 Hsha Hdist Hw Hh HP (page_len k ltac:(lia)) E) as (H1 & H2 & H3 & H4).
      exists f1. cbn. split; [done|]. split; [done|]. split; [lia|]. split; [done|]. split; [done|]. split.
      + intros d Hd (j & q & Hf & Hs). destruct (H4 _ j q (ds_zero _ _ Hdist d Hd) Hf) as [Hf' Hs'].
        exists j, q. split; [done|]. congruence.
      + right. done.
    - exists f. cbn. split; [done|]. split; [done|]. split; [lia|]. split; [done|]. split; [done|]. split; [done|by left]. }
  destruct (IH fuel (k + 1) o1 f1) as (o' & f' & E & Hp' & Hw' & Ht' & Hle & Hall & Hst'); try done; try lia.
  { by rewrite Ept. }
  exists o', f'. split; [done|]. split; [done|]. split; [done|]. split; [done|]. split; [lia|]. split.
  - intros Hun j Hj. destruct Hu as [Hu|[Hu Hk1]]; [lia|]. destruct (decide (j = k)) as [->|]; [by apply Hst'|].
    apply Hall; lia.
  - intros d Hd Hs. by apply Hst', Hst.
Qed.
End process.

(** What a query for a page of the snapshot gives. *)
Lemma query_stored sha256 snap pt f n k :
  digests sha256 → 0 ≤ k < n → n * PAGE_SIZE < 2 ^ 64 → table_ok sha256 snap pt n →
  stored sha256 f (page snap k) →
  ∃ slot probes,
    query_by_va (Some pt) (Some f) (k * PAGE_SIZE) =
      Answer (compute_hash_idx sha256 (page snap k)) (Some (Found slot probes)) ∧
    slot_page f slot = page snap k.
Proof.
  intros Hsha Hk Hn [Hl Ht] (j & q & Hf & Hs). exists j, q. split; [|done].
  unfold query_by_va, PAGE_TABLE_ENTRY_SIZE. rewrite Z.div_mul by done. rewrite (Z.mul_comm k 16), Ht by done.
  rewrite zlen_entry, entry_roundtrip; [|unfold is_u64; cbn; slots|by apply hash_u64]. cbn [negb].
  unfold entry at 1. cbn [va_offset]. rewrite Z.eqb_refl. cbn [negb]. unfold query_by_hash, lookup_page_by_hash, mbind, option_bind.
  unfold entry. cbn [hash_idx]. by rewrite Hf, Z.eqb_refl.
Qed.

(** What [split_snapshot] writes. *)
Lemma split_run sha256 P snap n page_table0 pages0 fuel :
  digests sha256 → distinct sha256 P → 0 ≤ n → f_len snap = n * PAGE_SIZE →
  (∀ k, 0 ≤ k < n → P (page snap k)) → wf pages0 → holds sha256 P pages0 → 0 ≤ f_len page_table0 →
  (Z.to_nat n ≤ fuel)%nat →
  ∃ o m f, split_snapshot fuel sha256 snap page_table0 (Some pages0) = Some (o, m) ∧ pages o = Some f ∧ wf f ∧
    table_ok sha256 snap (page_table o) n ∧ page_count m = n ∧ m_unique_pages m ≤ n ∧
    (m_unique_pages m = n → ∀ k, 0 ≤ k < n → stored sha256 f (page snap k)).
Proof.
  intros Hsha Hd Hn Hl Hp Hw Hh H0 Hf.
  destruct (process_run sha256 P snap n Hsha Hd Hl Hp (Z.to_nat n) fuel 0
    {| page_table := page_table0; pt_pos := 0; pages := Some pages0; unique_pages := 0 |} pages0)
    as (o & f & E & Ef & Hwf & Ht & Hle & Hall & _); try done; try lia.
  { split; [cbn; lia|]. lia. }
  exists o, {| total_size := f_len snap; page_count := f_len snap / PAGE_SIZE; m_unique_pages := unique_pages o;
               hash_modulus := HASH_MODULUS |}, f.
  change (0 * PAGE_SIZE) with 0 in E. unfold split_snapshot. rewrite E. cbn in Hle, Hall |- *.
  split; [done|]. split; [done|]. split; [done|]. split; [done|]. split; [rewrite Hl; by apply Z.div_mul|]. split; [lia|].
  intros Hu k Hk. apply Hall; lia.
Qed.

(** ** Theorems *)

(** Two pages, each of one byte. *)
Definition demo_snap : file := {| f_len := 8192; f_at x := if x <? 4096 then 1 else 2 |}.
Definition demo_sha (d : list Z) : list Z := replicate 32 (default 0 (znth d 0) mod 256).

(** C15: splitting and querying a snapshot.  On a snapshot of whole pages, none of which
    collide or hash to 0, [split_snapshot] ends; its [unique_pages] is at most the
    number of pages, and where it is that number, querying the address of any page finds,
    over the written page table and hash table, a slot with the contents of that
    page. *)
Theorem split_query sha256 P snap n page_table0 pages0 fuel :
  digests sha256 → distinct sha256 P → 0 ≤ n → n * PAGE_SIZE < 2 ^ 64 → f_len snap = n * PAGE_SIZE →
  (∀ k, 0 ≤ k < n → P (page snap k)) → wf pages0 → holds sha256 P pages0 → 0 ≤ f_len page_table0 →
  (Z.to_nat n ≤ fuel)%nat →
  ∃ o m f, split_snapshot fuel sha256 snap page_table0 (Some pages0) = Some (o, m) ∧ pages o = Some f ∧
    page_count m = n ∧ m_unique_pages m ≤ n ∧
    (m_unique_pages m = n → ∀ k, 0 ≤ k < n → ∃ slot probes,
       query_by_va (Some (page_table o)) (Some f) (k * PAGE_SIZE) =
         Answer (compute_hash_idx sha256 (page snap k)) (Some (Found slot probes)) ∧
       slot_page f slot = page snap k).
Proof.
  intros Hsha Hd Hn Hb Hl Hp Hw Hh H0 Hf.
  destruct (split_run sha256 P snap n page_table0 pages0 fuel) as (o & m & f & E & Ef & _ & Ht & Hc & Hle & Hall); try done.
  exists o, m, f. split; [done|]. split; [done|]. split; [done|]. split; [done|].
  intros Hu k Hk. apply (query_stored sha256 snap (page_table o) f n); try done. by apply Hall.
Qed.

Lemma demo_distinct : distinct demo_sha (λ d, d ∈ [page demo_snap 0; page demo_snap 1]).
Proof.
  split.
  - intros d d' [->|[->|[]%elem_of_nil]%elem_of_cons]%elem_of_cons [->|[->|[]%elem_of_nil]%elem_of_cons]%elem_of_cons;
      try (intros _; reflexivity); intros H; exfalso; vm_compute in H; discriminate H.
  - intros d [->|[->|[]%elem_of_nil]%elem_of_cons]%elem_of_cons H; vm_compute in H; discriminate H.
Qed.

Lemma demo_digests : digests demo_sha.
Proof.
  intros d. split; [unfold zlen, demo_sha; by rewrite length_replicate|]. unfold demo_sha. apply Forall_replicate.
  unfold is_u8. apply Z.mod_pos_bound. done.
Qed.

Lemma split_query_witness :
  ∃ o m f slot probes, split_snapshot 2 demo_sha demo_snap empty_file (Some empty_file) = Some (o, m) ∧
    pages o = Some f ∧
    query_by_va (Some (page_table o)) (Some f) (1 * PAGE_SIZE) =
      Answer (compute_hash_idx demo_sha (page demo_snap 1)) (Some (Found slot probes)) ∧
    slot_page f slot = page demo_snap 1.
Proof.
  destruct (split_query demo_sha (λ d, d ∈ [page demo_snap 0; page demo_snap 1]) demo_snap 2 empty_file empty_file 2)
    as (o & m & f & E & Ef & Hc & Hle & Hq).
  - apply demo_digests.
  - apply demo_distinct.
  - lia.
  - reflexivity.
  - reflexivity.
  - intros k Hk. assert (k = 0 ∨ k = 1) as [->| ->] by lia; [by left|right; by left].
  - apply empty_wf.
  - apply empty_holds.
  - reflexivity.
  - lia.
  - assert (m_unique_pages m = 2) as Hu.
    { assert (m = (default (o, m) (split_snapshot 2 demo_sha demo_snap empty_file (Some empty_file))).2) as ->
        by (rewrite E; reflexivity). vm_compute. reflexivity. }
    destruct (Hq Hu 1 ltac:(lia)) as (slot & probes & H1 & H2). exists o, m, f, slot, probes.
    split; [exact E|]. split; [exact Ef|]. split; [exact H1|exact H2].
Defined.

(** [unique_pages] counts the stored pages, equal or not. *)
Lemma equal_pages_counted :
  (λ x, m_unique_pages x.2) <$> split_snapshot 2 demo_sha {| f_len := 8192; f_at := λ _, 1 |} empty_file (Some empty_file)
  = Some 2.
Proof. vm_compute. reflexivity. Qed.

End SnapshotStore.
