(* ===== verification/SnapshotDriver.v ===== *)
(** * The snapshot driver

    Model of the kernel driver under [conch-driver/driver/]: the pool of pages shared
    by all templates ([snapshot_pool.c]), the templates ([snapshot_template.c]), the
    mappings and their fault handler ([snapshot_mmap.c]), the ioctl interface
    ([snapshot_ioctl.c]) and loading and unloading ([snapshot_main.c]).  The objects of
    the driver are cells of a heap, named by numbers; following a pointer to a cell that
    was freed is [Panic].  The answers of the kernel to allocations, registrations and
    insertions into page tables are the list [outcomes], which is used up in order; the
    file system is a parameter.  A section under a spin lock is one step.  The files are
    those of [SnapshotStore]. *)

From S2P Require Import Prelude SnapshotStore.
From Stdlib Require Import String Ascii.
Import SnapshotStore.

Module SnapshotDriver.

Inductive errno := EEXIST | EINVAL | ENOMEM | EIO | EBUSY | ENOENT | EFAULT | ENOTTY | EREGISTER.
Inductive vm_fault := SIGBUS | OOM | INSERT_ERROR.

(** ** Objects *)
Record phys_page_entry := { p_hash : Z; p_page : list Z; p_gets : Z; p_ref_count : Z }.
Record snapshot_template := {
  template_id : list ascii; t_total_size : Z; t_page_count : Z;
  page_table_cache : list page_table_entry; pages_file : file; t_ref_count : Z }.
Record vma_snapshot_data := { v_template : nat; va_to_pa_map : list (Z * nat) }.

(** [buckets] is [None] where the array could not be allocated. *)
Record driver := {
  template_list : list nat; templates : gmap nat snapshot_template;
  buckets : option (gmap Z (list nat)); total_pages : Z; entries : gmap nat phys_page_entry;
  vmas : gmap nat vma_snapshot_data; next_ptr : nat; outcomes : list bool }.

Definition TEMPLATE_ID_MAX_LEN : nat := 64.
Definition HASH_MODULUS_DEFAULT : Z := Z.shiftl 1 12.
Definition MAX_PROBE_COUNT_DEFAULT : nat := 64.
Definition POOL_BUCKET_COUNT : Z := Z.shiftl 1 20.

Definition set_templates (l : list nat) (ts : gmap nat snapshot_template) (d : driver) : driver :=
  {| template_list := l; templates := ts; buckets := buckets d; total_pages := total_pages d; entries := entries d;
     vmas := vmas d; next_ptr := next_ptr d; outcomes := outcomes d |}.
Definition set_pool (b : option (gmap Z (list nat))) (n : Z) (es : gmap nat phys_page_entry) (d : driver) : driver :=
  {| template_list := template_list d; templates := templates d; buckets := b; total_pages := n; entries := es;
     vmas := vmas d; next_ptr := next_ptr d; outcomes := outcomes d |}.
Definition set_vmas (vs : gmap nat vma_snapshot_data) (d : driver) : driver :=
  {| template_list := template_list d; templates := templates d; buckets := buckets d; total_pages := total_pages d;
     entries := entries d; vmas := vs; next_ptr := next_ptr d; outcomes := outcomes d |}.
Definition set_next (n : nat) (d : driver) : driver :=
  {| template_list := template_list d; templates := templates d; buckets := buckets d; total_pages := total_pages d;
     entries := entries d; vmas := vmas d; next_ptr := n; outcomes := outcomes d |}.
Definition set_outcomes (os : list bool) (d : driver) : driver :=
  {| template_list := template_list d; templates := templates d; buckets := buckets d; total_pages := total_pages d;
     entries := entries d; vmas := vmas d; next_ptr := next_ptr d; outcomes := os |}.

Section code.
Context {E : Type}.

(** The kernel's next answer. *)
Definition ask : M driver E bool := λ d,
  match outcomes d with
  | [] => (Ok true, d)
  | b :: os => (Ok b, set_outcomes os d)
  end.
Definition fresh : M driver E nat := λ d, (Ok (next_ptr d), set_next (S (next_ptr d)) d).

Definition deref {A} (heap : driver → gmap nat A) (p : nat) : M driver E A := λ d, (unwrap (heap d !! p), d).
Definition update_entry (p : nat) (f : phys_page_entry → phys_page_entry) : M driver E unit :=
  e ← deref entries p;
  modify (λ d, set_pool (buckets d) (total_pages d) (<[p := f e]> (entries d)) d).
(** An [atomic_t] has 32 bits and wraps around. *)
Definition atomic_add (n z : Z) : Z := (z + n + 2 ^ 31) mod 2 ^ 32 - 2 ^ 31.
Definition add_ref (n : Z) (e : phys_page_entry) : phys_page_entry :=
  {| p_hash := p_hash e; p_page := p_page e; p_gets := p_gets e; p_ref_count := atomic_add n (p_ref_count e) |}.
Definition add_gets (n : Z) (e : phys_page_entry) : phys_page_entry :=
  {| p_hash := p_hash e; p_page := p_page e; p_gets := p_gets e + n; p_ref_count := p_ref_count e |}.

(** ** The pool *)
Definition hash_to_bucket (hash : Z) : Z := hash mod POOL_BUCKET_COUNT.

Definition snapshot_pool_init : M driver E bool :=
  ok ← ask;
  _ ← modify (λ d, if ok : bool then set_pool (Some ∅) 0 (entries d) d else set_pool None (total_pages d) (entries d) d);
  mret ok.

(** The entries that are in the buckets are unlinked; those that are not referenced
    are freed. *)
Definition free_unreferenced (ps : list nat) (es : gmap nat phys_page_entry) : gmap nat phys_page_entry :=
  foldr (λ p es, match es !! p with
                 | Some e => if p_ref_count e =? 0 then delete p es else es
                 | None => es
                 end) es ps.
Definition snapshot_pool_destroy : M driver E unit :=
  b ← (λ d, (unwrap (buckets d), d));
  modify (λ d, set_pool None (total_pages d) (free_unreferenced (mjoin (map_to_list b).*2) (entries d)) d).

Fixpoint scan (es : gmap nat phys_page_entry) (hash : Z) (ps : list nat) : res E (option nat) :=
  match ps with
  | [] => Ok None
  | p :: ps' =>
      e ← unwrap (es !! p);
      if p_hash e =? hash then Ok (Some p) else scan es hash ps'
  end.
Definition bucket (b : gmap Z (list nat)) (hash : Z) : list nat := default [] (b !! hash_to_bucket hash).
Definition search (hash : Z) : M driver E (option nat) := λ d,
  (b ← unwrap (buckets d); scan (entries d) hash (bucket b hash), d).

Definition snapshot_pool_lookup_noref (hash : Z) : M driver E (option nat) := search hash.
Definition snapshot_pool_ref (p : nat) : M driver E unit := update_entry p (add_ref 1).
Definition snapshot_pool_lookup (hash : Z) : M driver E (option nat) :=
  o ← search hash;
  match o with
  | Some p => _ ← snapshot_pool_ref p; mret (Some p)
  | None => mret None
  end.

Definition link_entry (p : nat) (e : phys_page_entry) (b : gmap Z (list nat)) : M driver E unit :=
  modify (λ d, set_pool (Some (<[hash_to_bucket (p_hash e) := p :: bucket b (p_hash e)]> b)) (total_pages d + 1)
                 (<[p := e]> (entries d)) d).

Definition snapshot_pool_add (hash : Z) (data : list Z) : M driver E (option nat) :=
  existing ← search hash;
  match existing with
  | Some p => _ ← snapshot_pool_ref p; mret (Some p)
  | None =>
      entry ← ask;
      if negb entry then mret None
      else
        page ← ask;
        if negb page then mret None
        else
          raced ← search hash;
          match raced with
          | Some p => _ ← snapshot_pool_ref p; mret (Some p)
          | None =>
              b ← (λ d, (unwrap (buckets d), d));
              p ← fresh;
              _ ← link_entry p {| p_hash := hash; p_page := data; p_gets := 1; p_ref_count := 1 |} b;
              mret (Some p)
          end
  end.

Definition unlink (p : nat) (hash : Z) (b : gmap Z (list nat)) : gmap Z (list nat) :=
  <[hash_to_bucket hash := filter (λ q, q ≠ p) (bucket b hash)]> b.
Definition snapshot_pool_unref (p : nat) : M driver E unit :=
  e ← deref entries p;
  if p_ref_count e - 1 =? 0 then
    b ← (λ d, (unwrap (buckets d), d));
    _ ← lift (assert (bool_decide (p ∈ bucket b (p_hash e))));
    modify (λ d, set_pool (Some (unlink p (p_hash e) b)) (total_pages d - 1) (delete p (entries d)) d)
  else update_entry p (add_ref (-1)).

(** ** Templates *)

(** [strncmp(a, b, n) == 0] *)
Definition strncmp_eq (n : nat) (a b : list ascii) : bool := bool_decide (take n a = take n b).

Fixpoint find_in (ts : gmap nat snapshot_template) (id : list ascii) (l : list nat) : res E (option nat) :=
  match l with
  | [] => Ok None
  | t :: l' =>
      x ← unwrap (ts !! t);
      if strncmp_eq TEMPLATE_ID_MAX_LEN (template_id x) id then Ok (Some t) else find_in ts id l'
  end.
Definition snapshot_template_find (id : list ascii) : M driver E (option nat) := λ d,
  (find_in (templates d) id (template_list d), d).
Definition template_id_exists (id : list ascii) : M driver E bool :=
  o ← snapshot_template_find id;
  mret (bool_decide (is_Some o)).

Definition add_template_ref (n : Z) (x : snapshot_template) : snapshot_template :=
  {| template_id := template_id x; t_total_size := t_total_size x; t_page_count := t_page_count x;
     page_table_cache := page_table_cache x; pages_file := pages_file x; t_ref_count := atomic_add n (t_ref_count x) |}.
Definition template_inc (t : nat) : M driver E unit :=
  x ← deref templates t;
  modify (λ d, set_templates (template_list d) (<[t := add_template_ref 1 x]> (templates d)) d).
Definition snapshot_template_find_ref (id : list ascii) : M driver E (option nat) :=
  o ← snapshot_template_find id;
  match o with
  | Some t => _ ← template_inc t; mret (Some t)
  | None => mret None
  end.

Definition free_template (t : nat) : M driver E unit :=
  modify (λ d, set_templates (filter (λ u, u ≠ t) (template_list d)) (delete t (templates d)) d).
Definition snapshot_template_unref (t : nat) : M driver E unit :=
  x ← deref templates t;
  if t_ref_count x - 1 =? 0 then free_template t
  else modify (λ d, set_templates (template_list d) (<[t := add_template_ref (-1) x]> (templates d)) d).

End code.

Section create.
Context (filp_open : list ascii → option file).

(** The entries of the page table, from its bytes. *)
Fixpoint decode_entries (n : nat) (bs : list Z) : list page_table_entry :=
  match n with
  | O => []
  | S n' => entry_of_bytes (take 16 bs) :: decode_entries n' (drop 16 bs)
  end.

(** The strings are the ones the user passed, cut at the length of their arrays. *)
Record ioctl_create_template := {
  a_template_id : list ascii; a_total_size : Z; a_page_table_path : list ascii; a_pages_path : list ascii }.

Definition new_template (args : ioctl_create_template) (bytes : list Z) (f : file) : snapshot_template :=
  {| template_id := take TEMPLATE_ID_MAX_LEN (a_template_id args); t_total_size := a_total_size args;
     t_page_count := a_total_size args / PAGE_SIZE;
     page_table_cache := decode_entries (Z.to_nat (a_total_size args / PAGE_SIZE)) bytes;
     pages_file := f; t_ref_count := 0 |}.

Definition snapshot_template_create (args : ioctl_create_template) : M driver errno unit :=
  let page_count := a_total_size args / PAGE_SIZE in
  exists_ ← template_id_exists (a_template_id args);
  if exists_ : bool then fail EEXIST
  else
    page_table_file ← lift (ok_or (filp_open (a_page_table_path args)) EINVAL);
    pages_file ← lift (ok_or (filp_open (a_pages_path args)) EINVAL);
    ok ← ask;
    if negb ok then fail ENOMEM
    else
      let bytes := pread page_table_file (page_count * 16) 0 in
      if negb (zlen bytes =? page_count * 16) then fail EIO
      else
        named ← ask;
        if negb named then fail ENOMEM
        else
          registered ← ask;
          if negb registered then fail EREGISTER
          else
            t ← fresh;
            modify (λ d, set_templates (template_list d ++ [t])
                           (<[t := new_template args bytes pages_file]> (templates d)) d).

Definition snapshot_template_delete (id : list ascii) : M driver errno unit :=
  o ← snapshot_template_find id;
  match o with
  | None => fail ENOENT
  | Some t =>
      x ← deref templates t;
      if 0 <? t_ref_count x then fail EBUSY
      else
        _ ← free_template t;
        l ← gets template_list;
        if bool_decide (l = []) then
          _ ← snapshot_pool_destroy;
          _ ← snapshot_pool_init;
          mret tt
        else mret tt
  end.

(** The number of mappings and of loaded pages it reports. *)
Definition snapshot_template_status (id : list ascii) : M driver errno (Z * Z) :=
  o ← snapshot_template_find id;
  match o with
  | None => fail ENOENT
  | Some t =>
      x ← deref templates t;
      n ← gets total_pages;
      mret (t_ref_count x, n)
  end.

(** The argument is [None] where copying it from the user fails. *)
Inductive ioctl :=
| IOCTL_CREATE_TEMPLATE (args : option ioctl_create_template)
| IOCTL_DELETE_TEMPLATE (args : option (list ascii))
| IOCTL_TEMPLATE_STATUS (args : option (list ascii)) (writable : bool)
| OtherIoctl.

Definition snapshot_ioctl (cmd : ioctl) : M driver errno (option (Z * Z)) :=
  match cmd with
  | IOCTL_CREATE_TEMPLATE o => args ← lift (ok_or o EFAULT); _ ← snapshot_template_create args; mret None
  | IOCTL_DELETE_TEMPLATE o => args ← lift (ok_or o EFAULT); _ ← snapshot_template_delete args; mret None
  | IOCTL_TEMPLATE_STATUS o writable =>
      args ← lift (ok_or o EFAULT);
      r ← try_ (snapshot_template_status args);
      if negb writable then fail EFAULT
      else match r with inl e => fail e | inr status => mret (Some status) end
  | OtherIoctl => fail ENOTTY
  end.

End create.

(** ** Mappings *)
Section mappings.

(** [vma->vm_private_data], which is never null for a mapping of this driver, is a
    pointer that a copy of the mapping shares. *)
Definition snapshot_vma_open (v : nat) : M driver vm_fault unit :=
  x ← deref vmas v;
  template_inc (v_template x).

Definition snapshot_vma_close (v : nat) : M driver vm_fault unit :=
  x ← deref vmas v;
  _ ← for_ (va_to_pa_map x) (λ '(_, p), _ ← update_entry p (add_gets (-1)); snapshot_pool_unref p);
  _ ← modify (λ d, set_vmas (delete v (vmas d)) d);
  snapshot_template_unref (v_template x).

(** The red-black tree, as the list of its nodes in order. *)
Fixpoint va_lookup (m : list (Z * nat)) (va : Z) : option nat :=
  match m with
  | [] => None
  | (va', p) :: m' => if va <? va' then None else if va' <? va then va_lookup m' va else Some p
  end.
Fixpoint va_insert (m : list (Z * nat)) (va : Z) (p : nat) : option (list (Z * nat)) :=
  match m with
  | [] => Some [(va, p)]
  | (va', q) :: m' =>
      if va <? va' then Some ((va, p) :: m)
      else if va' <? va then m'' ← va_insert m' va p; Some ((va', q) :: m'')
      else None
  end.

(** Open addressing in [pages.bin]. *)
Fixpoint probe_slots (left : nat) (file_index hash : Z) (f : file) : res vm_fault (list Z) :=
  match left with
  | O => Err SIGBUS
  | S left' =>
      let header := pread f 8 (file_index * SLOT_SIZE) in
      if negb (zlen header =? 8) then Err SIGBUS
      else if of_le_bytes header =? hash then
        let data := pread f PAGE_SIZE (file_index * SLOT_SIZE + 8) in
        if negb (zlen data =? PAGE_SIZE) then Err SIGBUS else Ok data
      else if of_le_bytes header =? 0 then Err SIGBUS
      else probe_slots left' ((file_index + 1) mod HASH_MODULUS_DEFAULT) hash f
  end.

(** The entry of the page, from the pool or loaded into it. *)
Definition load_entry (hash : Z) (f : file) : M driver vm_fault nat :=
  o ← snapshot_pool_lookup hash;
  match o with
  | Some p => mret p
  | None =>
      buffer ← ask;
      if negb buffer then fail OOM
      else
        page_data ← lift (probe_slots MAX_PROBE_COUNT_DEFAULT (hash mod HASH_MODULUS_DEFAULT) hash f);
        o ← snapshot_pool_add hash page_data;
        match o with
        | Some p => mret p
        | None => fail OOM
        end
  end.

(** [map_page]: records the mapping and inserts the page; gives the page it maps. *)
Definition map_page (v : nat) (x : vma_snapshot_data) (va : Z) (p : nat) : M driver vm_fault (list Z) :=
  va_entry ← ask;
  _ ← (if va_entry : bool then
         match va_insert (va_to_pa_map x) va p with
         | Some m => modify (λ d, set_vmas (<[v := {| v_template := v_template x; va_to_pa_map := m |}]> (vmas d)) d)
         | None => mret tt
         end
       else mret tt);
  _ ← update_entry p (add_gets 1);
  inserted ← ask;
  e ← deref entries p;
  if negb inserted then
    _ ← update_entry p (add_gets (-1));
    _ ← snapshot_pool_unref p;
    fail INSERT_ERROR
  else mret (p_page e).

Definition snapshot_vma_fault (v : nat) (vm_start address : Z) : M driver vm_fault (list Z) :=
  x ← deref vmas v;
  t ← deref templates (v_template x);
  let va := address - vm_start in
  let page_index := va / PAGE_SIZE in
  if t_page_count t <=? page_index then fail SIGBUS
  else
    pte ← lift (vget (page_table_cache t) page_index);
    p ← load_entry (hash_idx pte) (pages_file t);
    map_page v x va p.

Definition snapshot_mmap (dev_name : list ascii) (vm_start vm_end : Z) : M driver errno nat :=
  if negb (strncmp_eq 9 dev_name (list_ascii_of_string "snapshot_")) then fail EINVAL
  else
    o ← snapshot_template_find_ref (take (TEMPLATE_ID_MAX_LEN - 1) (drop 9 dev_name));
    match o with
    | None => fail EINVAL
    | Some t =>
        x ← deref templates t;
        let size := vm_end - vm_start in
        if negb (size mod PAGE_SIZE =? 0) || (t_total_size x <? size) then
          _ ← snapshot_template_unref t;
          fail EINVAL
        else
          ok ← ask;
          if negb ok then
            _ ← snapshot_template_unref t;
            fail ENOMEM
          else
            v ← fresh;
            _ ← modify (λ d, set_vmas (<[v := {| v_template := t; va_to_pa_map := [] |}]> (vmas d)) d);
            _ ← template_inc t;
            mret v
    end.

End mappings.

(** ** Loading and unloading *)
Definition empty_driver (os : list bool) : driver :=
  {| template_list := []; templates := ∅; buckets := None; total_pages := 0; entries := ∅; vmas := ∅;
     next_ptr := 0; outcomes := os |}.

(** The state, the pool, the kobject, the attribute and the control device, in this
    order; what was made is freed when one of them fails. *)
Definition snapshot_init : M driver errno unit :=
  state ← ask;
  if negb state then fail ENOMEM
  else
    pool ← snapshot_pool_init;
    if negb pool then fail ENOMEM
    else
      kobj ← ask;
      if negb kobj then _ ← snapshot_pool_destroy; fail ENOMEM
      else
        attr ← ask;
        if negb attr then _ ← snapshot_pool_destroy; fail EREGISTER
        else
          control ← ask;
          if negb control then _ ← snapshot_pool_destroy; fail EREGISTER else mret tt.

Definition snapshot_exit : M driver errno unit :=
  l ← gets template_list;
  _ ← for_ l free_template;
  snapshot_pool_destroy.

(** ** The pool *)
Section pool.
Context (sha256 : list Z → list Z) (P : list Z → Prop).

(** An entry with a page [d] under its hash. *)
Definition entry_for (d : list Z) (e : phys_page_entry) : Prop :=
  p_page e = d ∧ P d ∧ p_hash e = compute_hash_idx sha256 d.

(** Every linked entry is there, in its bucket, under its hash, and new pointers are
    new. *)
Record pool_ok (d : driver) : Prop := {
  pl_buckets : ∃ b, buckets d = Some b ∧ ∀ k p, p ∈ default [] (b !! k) →
    ∃ e data, entries d !! p = Some e ∧ entry_for data e ∧ hash_to_bucket (p_hash e) = k;
  pl_fresh : ∀ p, (next_ptr d ≤ p)%nat → entries d !! p = None }.

(** [p] is linked, for the page [data]. *)
Definition linked (d : driver) (p : nat) (data : list Z) : Prop :=
  ∃ b e, buckets d = Some b ∧ entries d !! p = Some e ∧ entry_for data e ∧ p ∈ bucket b (p_hash e).

(** What the operations on the pool leave alone. *)
Definition same_rest (d d' : driver) : Prop :=
  templates d' = templates d ∧ template_list d' = template_list d ∧ vmas d' = vmas d.

Lemma scan_ok {E} es h ps :
  (∀ p, p ∈ ps → is_Some (es !! p)) →
  ∃ o, @scan E es h ps = Ok o ∧ match o with
    | Some p => p ∈ ps ∧ ∃ e, es !! p = Some e ∧ p_hash e = h
    | None => True
    end.
Proof.
  induction ps as [|p ps IH]; intros H; [by exists None|]. cbn [scan].
  destruct (H p) as [e He]; [by left|]. rewrite He. cbn. destruct (Z.eqb_spec (p_hash e) h) as [Hh|Hh].
  - exists (Some p). split; [done|]. split; [by left|by exists e].
  - destruct IH as (o & -> & Ho); [intros q Hq; apply H; by right|]. exists o. split; [done|].
    destruct o; [|done]. destruct Ho as [Hin Ho]. split; [by right|done].
Qed.

Context (Hd : distinct sha256 P).

(** Looking for the hash of a page finds an entry with that page, or nothing. *)
Lemma search_ok {E} d data :
  pool_ok d → P data →
  ∃ o, @search E (compute_hash_idx sha256 data) d = (Ok o, d) ∧
    match o with Some p => linked d p data | None => True end.
Proof using Hd.
  intros [(b & Hb & Hp) _] HP. unfold search. rewrite Hb. cbn.
  destruct (@scan_ok E (entries d) (compute_hash_idx sha256 data) (bucket b (compute_hash_idx sha256 data)))
    as (o & -> & Ho).
  { intros p Hin. destruct (Hp _ p Hin) as (e & ? & He & _). by exists e. }
  exists o. split; [done|]. destruct o as [p|]; [|done]. destruct Ho as (Hin & e & He & Hh).
  destruct (Hp _ p Hin) as (e' & data' & He' & (Hpg & HP' & Hh') & _). rewrite He in He'. injection He' as <-.
  exists b, e. split; [done|]. split; [done|]. split; [|by rewrite Hh].
  assert (data' = data) as -> by (apply (ds_collide _ _ Hd); [done|done|congruence]). done.
Qed.

(** Changing the counts of an entry. *)
Lemma update_ok {E} d p data f :
  pool_ok d → linked d p data → (∀ e, p_hash (f e) = p_hash e ∧ p_page (f e) = p_page e) →
  ∃ d', @update_entry E p f d = (Ok tt, d') ∧ pool_ok d' ∧ linked d' p data ∧ same_rest d d' ∧ outcomes d' = outcomes d.
Proof.
  intros [(b & Hb & Hp) Hf] (b' & e & Hb' & He & Hfor & Hin) Hfe. rewrite Hb in Hb'. injection Hb' as <-.
  destruct (Hfe e) as [Hh Hg].
  eexists. split; [unfold update_entry, mbind, M_bind, deref; by rewrite He|]. split; [|split; [|done]].
  - split; simpl.
    + exists b. split; [done|]. intros k q Hq. destruct (Hp k q Hq) as (e' & data' & He' & Hfor' & Hk).
      destruct (decide (q = p)) as [->|Hne].
      * rewrite He in He'. injection He' as <-. exists (f e), data'. rewrite lookup_insert_eq. split; [done|].
        destruct Hfor' as (H1 & H2 & H3). split; [repeat split; congruence|]. congruence.
      * exists e', data'. by rewrite lookup_insert_ne.
    + intros q Hq. rewrite lookup_insert_ne; [by apply Hf|]. intros ->. rewrite Hf in He by done. done.
  - exists b, (f e). simpl. rewrite lookup_insert_eq. split; [done|]. split; [done|].
    destruct Hfor as (H1 & H2 & H3). split; [repeat split; congruence|]. by rewrite Hh.
Qed.

(** A step that keeps the pool in order, and everything but the pool and the answers. *)
Definition pool_step (d d' : driver) : Prop :=
  pool_ok d' ∧ same_rest d d' ∧ (outcomes d = [] → outcomes d' = []).

Lemma ask_ok {E} d : pool_ok d → ∃ ok d', @ask E d = (Ok ok, d') ∧ pool_step d d' ∧ (outcomes d = [] → ok = true) ∧
  ∀ p data, linked d p data → linked d' p data.
Proof.
  intros Hp. unfold ask. destruct (outcomes d) as [|b os] eqn:Ho.
  - exists true, d. split; [done|]. split; [|done]. split; [done|]. by split; [|rewrite Ho].
  - exists b, (set_outcomes os d). split; [done|]. split; [|done]. split; [by destruct Hp; split|]. by rewrite Ho.
Qed.

Lemma ref_ok {E} d p data :
  pool_ok d → linked d p data → ∃ d', @snapshot_pool_ref E p d = (Ok tt, d') ∧ pool_step d d' ∧ linked d' p data.
Proof.
  intros Hp Hl. destruct (@update_ok E d p data (add_ref 1) Hp Hl ltac:(done)) as (d' & E1 & Hp' & Hl' & Hs & Ho).
  exists d'. split; [done|]. split; [|done]. split; [done|]. split; [done|]. by rewrite Ho.
Qed.

Lemma gets_ok {E} d p data n :
  pool_ok d → linked d p data → ∃ d', @update_entry E p (add_gets n) d = (Ok tt, d') ∧ pool_step d d' ∧ linked d' p data.
Proof.
  intros Hp Hl. destruct (@update_ok E d p data (add_gets n) Hp Hl ltac:(done)) as (d' & E1 & Hp' & Hl' & Hs & Ho).
  exists d'. split; [done|]. split; [|done]. split; [done|]. split; [done|]. by rewrite Ho.
Qed.

Lemma pool_step_trans d1 d2 d3 : pool_step d1 d2 → pool_step d2 d3 → pool_step d1 d3.
Proof.
  intros (_ & (A1 & A2 & A3) & A4) (B0 & (B1 & B2 & B3) & B4). split; [done|]. split; [|auto].
  split; [congruence|]. split; congruence.
Qed.

Lemma lookup_ok {E} d data :
  pool_ok d → P data →
  ∃ o d', @snapshot_pool_lookup E (compute_hash_idx sha256 data) d = (Ok o, d') ∧ pool_step d d' ∧
    match o with Some p => linked d' p data | None => True end.
Proof using Hd.
  intros Hp HP. destruct (@search_ok E d data Hp HP) as (o & E1 & Ho). unfold snapshot_pool_lookup.
  erewrite m_bind_run by done. destruct o as [p|].
  - destruct (@ref_ok E d p data Hp Ho) as (d' & E2 & Hs & Hl). exists (Some p), d'. by erewrite m_bind_run by done.
  - exists None, d. split; [done|]. split; [|done]. split; [done|]. by split.
Qed.

(** Linking a new entry. *)
Lemma link_ok {E} d b data :
  pool_ok d → P data → buckets d = Some b →
  ∃ d', (p ← @fresh E;
         _ ← link_entry p {| p_hash := compute_hash_idx sha256 data; p_page := data; p_gets := 1; p_ref_count := 1 |} b;
         mret (Some p)) d = (Ok (Some (next_ptr d)), d') ∧ pool_step d d' ∧ linked d' (next_ptr d) data.
Proof.
  intros [(b' & Hb & Hp) Hf] HP Hb'. rewrite Hb in Hb'. injection Hb' as <-. eexists. split; [done|].
  set (h := compute_hash_idx sha256 data). set (p := next_ptr d).
  assert (∀ q, q ∈ default [] (b' !! hash_to_bucket h) → q ≠ p) as Hne.
  { intros q Hq ->. destruct (Hp _ _ Hq) as (e & ? & He & _). by rewrite (Hf p) in He by done. }
  split.
  - split; [|by split]. split; simpl.
    + eexists. split; [done|]. intros k q. destruct (decide (hash_to_bucket h = k)) as [<-|Hk].
      * rewrite lookup_insert_eq. cbn. intros [->|Hq]%elem_of_cons.
        { eexists _, data. rewrite lookup_insert_eq. split; [done|]. by split. }
        destruct (Hp _ _ Hq) as (e & data' & He & Hfor & Hkq). exists e, data'.
        rewrite lookup_insert_ne; [done|]. intros <-. by apply (Hne (next_ptr d)).
      * rewrite lookup_insert_ne by done. intros Hq. destruct (Hp _ _ Hq) as (e & data' & He & Hfor & Hkq).
        exists e, data'. rewrite lookup_insert_ne; [done|]. intros <-. by rewrite Hf in He.
    + intros q Hq. rewrite lookup_insert_ne by lia. apply Hf. lia.
  - eexists _, _. simpl. rewrite lookup_insert_eq. split; [done|]. split; [done|]. split; [by split|].
    unfold bucket at 1. cbn [p_hash]. rewrite lookup_insert_eq. cbn. by left.
Qed.

Lemma add_ok {E} d data :
  pool_ok d → P data →
  ∃ o d', @snapshot_pool_add E (compute_hash_idx sha256 data) data d = (Ok o, d') ∧ pool_step d d' ∧
    match o with Some p => linked d' p data | None => outcomes d ≠ [] end.
Proof using Hd.
  intros Hp HP. unfold snapshot_pool_add. destruct (@search_ok E d data Hp HP) as (o & E1 & Ho).
  erewrite m_bind_run by done. destruct o as [p|].
  { destruct (@ref_ok E d p data Hp Ho) as (d' & E2 & Hs & Hl). exists (Some p), d'. by erewrite m_bind_run by done. }
  destruct (@ask_ok E d Hp) as (ok1 & d1 & E2 & Hs1 & Hok1 & _). erewrite m_bind_run by done.
  destruct ok1; [|exists None, d1; split; [done|]; split; [done|]; intros H; by specialize (Hok1 H)]. cbn [negb].
  destruct (@ask_ok E d1 (proj1 Hs1)) as (ok2 & d2 & E3 & Hs2 & Hok2 & _). erewrite m_bind_run by done.
  assert (pool_step d d2) as Hs by by eapply pool_step_trans.
  destruct ok2; [|exists None, d2; split; [done|]; split; [done|]; intros H; apply Hs1 in H; by specialize (Hok2 H)]. cbn [negb].
  destruct (@search_ok E d2 data (proj1 Hs2) HP) as (o & E4 & Ho2). erewrite m_bind_run by done. destruct o as [p|].
  { destruct (@ref_ok E d2 p data (proj1 Hs2) Ho2) as (d' & E5 & Hs' & Hl). exists (Some p), d'.
    erewrite m_bind_run by done. split; [done|]. split; [by eapply pool_step_trans|done]. }
  destruct (pl_buckets _ (proj1 Hs2)) as (b & Hb & _). erewrite m_bind_run by by rewrite Hb.
  destruct (@link_ok E d2 b data (proj1 Hs2) HP Hb) as (d' & E5 & Hs' & Hl).
  exists (Some (next_ptr d2)), d'. split; [exact E5|]. split; [by eapply pool_step_trans|done].
Qed.

Lemma unref_ok {E} d p data :
  pool_ok d → linked d p data → ∃ d', @snapshot_pool_unref E p d = (Ok tt, d') ∧ pool_step d d'.
Proof.
  intros Hp Hl. pose proof Hl as (b & e & Hb & He & Hfor & Hin). unfold snapshot_pool_unref.
  erewrite m_bind_run by (unfold deref; by rewrite He). destruct (_ =? 0).
  - erewrite m_bind_run by by rewrite Hb. erewrite m_bind_run by (by rewrite bool_decide_true).
    eexists. split; [done|]. destruct Hp as [(b' & Hb' & Hp) Hf]. rewrite Hb in Hb'. injection Hb' as <-.
    split; [|by split]. split; simpl.
    + eexists. split; [done|]. intros k q Hq. unfold unlink in Hq.
      assert (q ≠ p ∧ q ∈ default [] (b !! k)) as [Hne Hq'].
      { destruct (decide (hash_to_bucket (p_hash e) = k)) as [<-|Hk].
        - rewrite lookup_insert_eq in Hq. cbn in Hq. by apply list_elem_of_filter in Hq.
        - rewrite lookup_insert_ne in Hq by done. split; [|done]. intros ->.
          destruct (Hp _ _ Hq) as (e' & ? & He' & _ & Hk'). rewrite He in He'. injection He' as <-. done. }
      destruct (Hp _ _ Hq') as (e' & data' & He' & Hfor' & Hk). exists e', data'. by rewrite lookup_delete_ne.
    + intros q Hq. rewrite lookup_delete_None. right. by apply Hf.
  - destruct (@update_ok E d p data (add_ref (-1)) Hp Hl ltac:(done)) as (d' & E2 & Hp' & _ & Hs & Ho).
    exists d'. split; [done|]. split; [done|]. split; [done|]. by rewrite Ho.
Qed.

(** ** Faults *)

(** What a fault keeps beside the pool. *)
Definition fault_step (d d' : driver) : Prop :=
  pool_ok d' ∧ templates d' = templates d ∧ template_list d' = template_list d ∧
  ∀ w, v_template <$> vmas d' !! w = v_template <$> vmas d !! w.

Lemma pool_fault_step d d' d'' : pool_step d d' → fault_step d' d'' → fault_step d d''.
Proof.
  intros (_ & (A1 & A2 & A3) & _) (B0 & B1 & B2 & B3). split; [done|]. split; [congruence|]. split; [congruence|].
  intros w. by rewrite B3, A3.
Qed.

Lemma fault_step_pool d d' : pool_step d d' → fault_step d d'.
Proof. intros (A0 & (A1 & A2 & A3) & _). split; [done|]. split; [done|]. split; [done|]. intros w. by rewrite A3. Qed.

Lemma probe_found f left : ∀ p i h j q,
  wf f → 0 ≤ i → h ≠ 0 → lookup_probe left p i h f = Found j q → probe_slots left i h f = Ok (slot_page f j).
Proof.
  induction left as [|left IH]; intros p i h j q Hw Hi Hh H; [done|].
  pose proof (lookup_probe_S left p i h f Hh) as HS. rewrite H in HS. cbn [probe_slots].
  change (pread f 8 (i * SLOT_SIZE)) with (pread f HEADER_SIZE (i * SLOT_SIZE)).
  destruct (slot_cases f i Hw Hi) as [Hc|[_ H0]].
  - assert (zlen (pread f HEADER_SIZE (i * SLOT_SIZE)) = 8) as Hz by (rewrite zlen_pread; slots).
    rewrite Hz. cbn [negb Z.eqb Pos.eqb]. rewrite (slot_hash_full f i Hi) in HS by slots.
    change (pread f 8 (i * SLOT_SIZE)) with (pread f HEADER_SIZE (i * SLOT_SIZE)) in HS.
    destruct (of_le_bytes _ =? h).
    + injection HS as <- <-. fold HEADER_SIZE. fold (slot_page f j).
      assert (zlen (slot_page f j) = PAGE_SIZE) as -> by (unfold slot_page; rewrite zlen_pread; slots). done.
    + destruct (of_le_bytes _ =? 0); [done|]. symmetry in HS. apply (IH _ _ _ _ _ Hw (next_slot i) Hh HS).
  - rewrite H0 in HS. destruct (Z.eqb_spec 0 h); [lia|done].
Qed.

Lemma load_ok d f data :
  pool_ok d → wf f → P data → stored sha256 f data →
  ∃ r d', load_entry (compute_hash_idx sha256 data) f d = (r, d') ∧ pool_step d d' ∧
    ((∃ p, r = Ok p ∧ linked d' p data) ∨ (r = Err OOM ∧ outcomes d ≠ [])).
Proof using Hd.
  intros Hp Hw HP (j & q & Hf & Hs). unfold load_entry.
  destruct (@lookup_ok vm_fault d data Hp HP) as (o & d1 & E1 & Hs1 & Ho). erewrite m_bind_run by done.
  destruct o as [p|]; [exists (Ok p), d1; by eauto 6|].
  destruct (@ask_ok vm_fault d1 (proj1 Hs1)) as (ok & d2 & E2 & Hs2 & Hok & _). erewrite m_bind_run by done.
  assert (pool_step d d2) as Hs12 by by eapply pool_step_trans.
  destruct ok; cbn [negb]; [|eexists _, d2; split; [done|]; split; [done|]; right; split; [done|];
    intros H; apply Hs1 in H; by specialize (Hok H)].
  rewrite (probe_found f _ 0 _ _ j q Hw) by (done || by apply (ds_zero _ _ Hd) || by apply Z.mod_pos_bound).
  rewrite Hs. erewrite m_bind_run by done.
  destruct (@add_ok vm_fault d2 data (proj1 Hs2) HP) as (o & d3 & E3 & Hs3 & Ho3). erewrite m_bind_run by done.
  assert (pool_step d d3) as Hs13 by by eapply pool_step_trans.
  destruct o as [p|]; eexists _, d3; (split; [done|]; split; [done|]); [left; by exists p|right].
  split; [done|]. intros H. apply Ho3. by apply Hs2, Hs1.
Qed.

Lemma map_ok d v x va p data :
  pool_ok d → linked d p data → vmas d !! v = Some x →
  ∃ r d', map_page v x va p d = (r, d') ∧ fault_step d d' ∧
    (r = Ok data ∨ (r = Err INSERT_ERROR ∧ outcomes d ≠ [])).
Proof.
  intros Hp Hl Hv. unfold map_page.
  destruct (@ask_ok vm_fault d Hp) as (ok & d1 & E1 & Hs1 & Hok & Hl1). erewrite m_bind_run by done.
  set (track := if ok then _ else _).
  assert (∃ d2, track d1 = (Ok tt, d2) ∧ fault_step d1 d2 ∧ linked d2 p data ∧ outcomes d2 = outcomes d1)
    as (d2 & E2 & Hs2 & Hl2 & Ho2).
  { unfold track. destruct ok; [destruct (va_insert _ _ _) as [m|]|]; eexists; (split; [done|]).
    - split; [|split; [by apply Hl1|done]]. split; [by destruct (proj1 Hs1); split|]. split; [done|]. split; [done|].
      intros w. simpl. destruct Hs1 as (_ & (_ & _ & A3) & _). rewrite A3. destruct (decide (w = v)) as [->|].
      + by rewrite lookup_insert_eq, Hv.
      + by rewrite lookup_insert_ne.
    - split; [apply fault_step_pool; by destruct Hs1 as (? & _); split; [|split; [by split|done]]|]. split; [by apply Hl1|done].
    - split; [apply fault_step_pool; by destruct Hs1 as (? & _); split; [|split; [by split|done]]|]. split; [by apply Hl1|done]. }
  erewrite m_bind_run by done.
  destruct (@gets_ok vm_fault d2 p data 1 (proj1 Hs2) Hl2) as (d3 & E3 & Hs3 & Hl3). erewrite m_bind_run by done.
  destruct (@ask_ok vm_fault d3 (proj1 Hs3)) as (ins & d4 & E4 & Hs4 & Hins & Hl4). erewrite m_bind_run by done.
  pose proof (Hl4 _ _ Hl3) as (b & e & _ & He & (Hpg & _ & _) & _). erewrite m_bind_run by (unfold deref; by rewrite He).
  assert (∀ d5, pool_step d4 d5 → fault_step d d5) as Hall.
  { intros d5 H5. eapply pool_fault_step; [done|]. destruct Hs2 as (_ & A1 & A2 & A3).
    destruct (fault_step_pool d2 d5) as (B0 & B1 & B2 & B3); [by do 2 (eapply pool_step_trans; [done|])|].
    split; [done|]. split; [congruence|]. split; [congruence|]. intros w. by rewrite B3, A3. }
  destruct ins; cbn [negb].
  - eexists _, d4. split; [done|]. split; [apply Hall; split; [apply Hs4|by split]|]. left. by rewrite Hpg.
  - destruct (@gets_ok vm_fault d4 p data (-1) (proj1 Hs4) (Hl4 _ _ Hl3)) as (d5 & E5 & Hs5 & Hl5). erewrite m_bind_run by done.
    destruct (@unref_ok vm_fault d5 p data (proj1 Hs5) Hl5) as (d6 & E6 & Hs6). erewrite m_bind_run by done.
    eexists _, d6. split; [done|]. split; [apply Hall; by eapply pool_step_trans|]. right. split; [done|].
    intros H. apply Hs1 in H. rewrite <-Ho2 in H. apply Hs3 in H. by specialize (Hins H).
Qed.

(** ** The page table of a template *)
Lemma znth_decode bs n : ∀ k, 0 ≤ k < Z.of_nat n → znth (decode_entries n bs) k = Some (entry_of_bytes (slice bs (16 * k) 16)).
Proof.
  revert bs. induction n as [|n IH]; intros bs k Hk; [lia|]. cbn [decode_entries].
  destruct (decide (k = 0)) as [->|Hne]; [done|].
  replace k with ((k - 1) + 1) by lia. rewrite znth_cons, IH by lia. f_equal. f_equal. unfold slice.
  rewrite drop_drop. f_equal. f_equal. lia.
Qed.

Lemma slice_pread f n off len : 0 ≤ off → 0 ≤ len → off + len ≤ n → n ≤ f_len f → slice (pread f n 0) off len = pread f len off.
Proof.
  intros Ho Hl Hn Hf. apply znth_ext.
  - rewrite zlen_slice, zlen_pread; [lia|done|done|rewrite zlen_pread; lia].
  - intros i Hi. rewrite zlen_slice in Hi by (rewrite ?zlen_pread; lia).
    rewrite znth_slice, !znth_pread by lia. done.
Qed.

End pool.

(** ** References to templates *)

(** What an operation on pages leaves alone: templates, and the templates of mappings. *)
Definition quiet (d d' : driver) : Prop :=
  templates d' = templates d ∧ template_list d' = template_list d ∧
  (∀ w, v_template <$> vmas d' !! w = v_template <$> vmas d !! w) ∧ (next_ptr d ≤ next_ptr d')%nat.
Definition keeps {E A} (m : M driver E A) : Prop :=
  ∀ d, templates (m d).2 = templates d ∧ template_list (m d).2 = template_list d ∧ vmas (m d).2 = vmas d ∧
       (next_ptr d ≤ next_ptr (m d).2)%nat.

Lemma keeps_driver_bind {E A B} (m : M driver E A) (k : A → M driver E B) : keeps m → (∀ a, keeps (k a)) → keeps (m ≫= k).
Proof.
  intros Hm Hk d. destruct (Hm d) as (H1 & H2 & H3 & H4). unfold mbind, M_bind. destruct (m d) as [[a|e| |] d']; simpl in *; try done.
  destruct (Hk a d') as (K1 & K2 & K3 & K4). rewrite K1, K2, K3. split_and!; try done. lia.
Qed.

Ltac keeps_tac := repeat first
  [ apply keeps_driver_bind; [|intros ?]
  | match goal with |- keeps (match ?x with _ => _ end) => destruct x end
  | match goal with |- keeps (if ?x then _ else _) => destruct x end
  | solve [intros ?; simpl; auto] ].

Lemma keeps_ask {E} : keeps (@ask E).
Proof. intros d. unfold ask. by destruct (outcomes d). Qed.
Lemma keeps_update {E} p f : keeps (@update_entry E p f).
Proof. unfold update_entry. keeps_tac. Qed.
Lemma keeps_unref {E} p : keeps (@snapshot_pool_unref E p).
Proof. unfold snapshot_pool_unref. keeps_tac; apply keeps_update. Qed.
Lemma keeps_lookup {E} h : keeps (@snapshot_pool_lookup E h).
Proof. unfold snapshot_pool_lookup. keeps_tac; apply keeps_update. Qed.
Lemma keeps_add {E} h data : keeps (@snapshot_pool_add E h data).
Proof. unfold snapshot_pool_add. keeps_tac; apply keeps_update || apply keeps_ask. Qed.
Lemma keeps_load h f : keeps (load_entry h f).
Proof. unfold load_entry. keeps_tac; apply keeps_lookup || apply keeps_ask || apply keeps_add. Qed.

Lemma keeps_init {E} : keeps (@snapshot_pool_init E).
Proof.
  unfold snapshot_pool_init. keeps_tac; [apply keeps_ask|]. intros d. by destruct a.
Qed.
Lemma keeps_destroy {E} : keeps (@snapshot_pool_destroy E).
Proof. unfold snapshot_pool_destroy. keeps_tac. Qed.

Lemma keeps_for {E A} (l : list A) (body : A → M driver E unit) : (∀ a, keeps (body a)) → keeps (for_ l body).
Proof. intros Hb. induction l as [|a l IH]; [done|]. cbn [for_]. by apply keeps_driver_bind. Qed.

Lemma same_quiet d d' :
  templates d' = templates d → template_list d' = template_list d → vmas d' = vmas d → (next_ptr d ≤ next_ptr d')%nat →
  quiet d d'.
Proof. intros H1 H2 H3 H4. split; [done|]. split; [done|]. split; [|done]. intros w. by rewrite H3. Qed.

Lemma keeps_quiet {E A} (m : M driver E A) d : keeps m → quiet d (m d).2.
Proof. intros Hm. destruct (Hm d) as (H1 & H2 & H3 & H4). by apply same_quiet. Qed.

Lemma quiet_trans d1 d2 d3 : quiet d1 d2 → quiet d2 d3 → quiet d1 d3.
Proof.
  intros (A1 & A2 & A3 & A4) (B1 & B2 & B3 & B4). split; [congruence|]. split; [congruence|].
  split; [|lia]. intros w. by rewrite B3, A3.
Qed.

Lemma quiet_map v x va p d : vmas d !! v = Some x → quiet d (map_page v x va p d).2.
Proof.
  intros Hv. unfold map_page, mbind at 1, M_bind at 1. destruct (@keeps_ask vm_fault d) as (A1 & A2 & A3 & A4).
  destruct (ask d) as [[ok|e| |] d1]; simpl in *; try (by apply same_quiet).
  unfold mbind at 1, M_bind at 1. set (track := if ok then _ else _).
  assert (quiet d (track d1).2) as Hq.
  { unfold track. destruct ok; [destruct (va_insert _ _ _) as [m|]|]; try (by apply same_quiet).
    split; [done|]. split; [done|]. split; [|done]. intros w. simpl. rewrite A3. destruct (decide (w = v)) as [->|].
    - by rewrite lookup_insert_eq, Hv.
    - by rewrite lookup_insert_ne. }
  destruct (track d1) as [[[]|e| |] d2]; simpl in *; try done. eapply quiet_trans; [exact Hq|].
  apply (keeps_quiet (_ ← update_entry p (add_gets 1); _)). keeps_tac;
    apply keeps_update || apply keeps_ask || apply keeps_unref.
Qed.

Lemma quiet_fault v s a d : quiet d (snapshot_vma_fault v s a d).2.
Proof.
  unfold snapshot_vma_fault, mbind, M_bind, deref, lift. destruct (vmas d !! v) as [x|] eqn:Hv; [|done]. simpl.
  destruct (templates d !! v_template x) as [t|]; [|done]. simpl. destruct (_ <=? _); [done|].
  destruct (vget _ _) as [pte|e| |]; try done.
  pose proof (keeps_load (hash_idx pte) (pages_file t) d) as (H1 & H2 & H3 & H4).
  destruct (load_entry _ _ d) as [[p|e| |] d1]; simpl in *; try (by apply same_quiet).
  eapply quiet_trans; [|apply quiet_map; by rewrite H3]. by apply same_quiet.
Qed.

Lemma find_in_ext {E} ts ts' id l :
  (∀ u, template_id <$> ts' !! u = template_id <$> ts !! u) → @find_in E ts' id l = find_in ts id l.
Proof.
  intros H. induction l as [|u l IH]; [done|]. cbn [find_in]. specialize (H u).
  destruct (ts' !! u) as [x'|], (ts !! u) as [x|]; simplify_eq/=; try done. rewrite H. by destruct (strncmp_eq _ _ _).
Qed.

Lemma find_in_Some {E} ts id l t : @find_in E ts id l = Ok (Some t) → is_Some (ts !! t) ∧ t ∈ l.
Proof.
  induction l as [|u l IH]; [done|]. cbn [find_in]. destruct (ts !! u) as [x|] eqn:Hu; [|done]. simpl.
  destruct (strncmp_eq _ _ _); [intros [= <-]; split; [by exists x|by left]|]. intros H%IH. destruct H. split; [done|by right].
Qed.

Lemma atomic_add_add a b z : atomic_add a (atomic_add b z) = atomic_add (b + a) z.
Proof.
  unfold atomic_add. replace ((z + b + 2 ^ 31) mod 2 ^ 32 - 2 ^ 31 + a + 2 ^ 31) with ((z + b + 2 ^ 31) mod 2 ^ 32 + a) by lia.
  rewrite Zplus_mod_idemp_l. do 2 f_equal. lia.
Qed.
Lemma atomic_add_small n z : - 2 ^ 31 ≤ z + n < 2 ^ 31 → atomic_add n z = z + n.
Proof. intros H. unfold atomic_add. rewrite Z.mod_small; lia. Qed.

(** A mapping takes two references to its template. *)
Lemma mmap_Ok dev a b d v d1 :
  snapshot_mmap dev a b d = (Ok v, d1) →
  let id := take (TEMPLATE_ID_MAX_LEN - 1) (drop 9 dev) in
  ∃ t x, @find_in errno (templates d) id (template_list d) = Ok (Some t) ∧ templates d !! t = Some x ∧
    templates d1 = <[t := add_template_ref 2 x]> (templates d) ∧ template_list d1 = template_list d ∧
    vmas d1 = <[v := {| v_template := t; va_to_pa_map := [] |}]> (vmas d) ∧ (next_ptr d ≤ next_ptr d1)%nat.
Proof.
  intros H id. unfold snapshot_mmap in H. destruct (negb _); [done|]. fold id in H.
  unfold snapshot_template_find_ref, snapshot_template_find in H. unfold mbind at 1, M_bind at 1 in H.
  unfold mbind at 1, M_bind at 1 in H.
  destruct (find_in (templates d) id (template_list d)) as [[t|]|e| |] eqn:Hf; try done.
  destruct (@find_in_Some errno _ _ _ _ Hf) as [[x Hx] _]. unfold template_inc, mbind, M_bind, deref, modify, mret, M_ret in H.
  rewrite Hx in H. simpl in H. rewrite lookup_insert_eq in H. simpl in H.
  destruct (negb _ || _).
  { unfold snapshot_template_unref, mbind, M_bind, deref in H. simpl in H. rewrite lookup_insert_eq in H. simpl in H.
    by destruct (_ =? 0). }
  destruct (@keeps_ask errno (set_templates (template_list d) (<[t := add_template_ref 1 x]> (templates d)) d)) as (A1 & A2 & A3 & A4).
  destruct (ask _) as [[ok|e| |] d2]; try done. simpl in *. destruct ok; simpl in H.
  - rewrite A1, lookup_insert_eq in H. simpl in H. injection H as <- <-. exists t, x. split; [done|]. split; [done|]. simpl.
    rewrite ?A1, ?A2, ?A3, ?lookup_insert_eq, ?insert_insert_eq. simpl in A4. split; [|split_and!; [done|done|lia]]. f_equal. unfold add_template_ref. simpl. by rewrite atomic_add_add.
  - unfold snapshot_template_unref, mbind, M_bind, deref in H. rewrite A1, lookup_insert_eq in H. simpl in H.
    by destruct (_ =? 0).
Qed.

(** ** Operations one after another *)

(** What processes do with a driver that stays loaded; a call may have any result. *)
Inductive operation :=
| Ioctl (cmd : ioctl)
| Mmap (dev : list ascii) (vm_start vm_end : Z)
| Fork (v : nat)
| Fault (v : nat) (vm_start address : Z)
| Close (v : nat).

Definition operate (filp_open : list ascii → option file) (o : operation) (d : driver) : driver :=
  match o with
  | Ioctl cmd => (snapshot_ioctl filp_open cmd d).2
  | Mmap dev a b => (snapshot_mmap dev a b d).2
  | Fork v => (snapshot_vma_open v d).2
  | Fault v a b => (snapshot_vma_fault v a b d).2
  | Close v => (snapshot_vma_close v d).2
  end.

Definition operates (filp_open : list ascii → option file) (l : list operation) (d : driver) : driver :=
  foldl (λ d o, operate filp_open o d) d l.

(** The mappings of a template. *)
Definition held (t : nat) (vs : gmap nat vma_snapshot_data) : nat := size (filter (λ x, x.2 = t) (v_template <$> vs)).

(** Each template has a reference for each of its mappings, and [e] more, but no more than
    [c]; where [leaked], the template [t] is found under the name [id]. *)
Record counted (leaked : bool) (e : nat → Z) (c : Z) (id : list ascii) (t : nat) (d : driver) : Prop := {
  ct_owner v y : vmas d !! v = Some y → (v_template y < next_ptr d)%nat;
  ct_template u x : templates d !! u = Some x → (u < next_ptr d)%nat ∧ Z.of_nat (held u (vmas d)) + e u ≤ t_ref_count x ≤ c;
  ct_found : leaked = true → @find_in errno (templates d) id (template_list d) = Ok (Some t) }.

Definition one_more (u : nat) (e : nat → Z) (w : nat) : Z := if decide (w = u) then e w + 1 else e w.
Definition none_more : nat → Z := λ _, 0.

Lemma held_insert t vs v y :
  (held t (<[v := y]> vs) ≤ held t vs + (if decide (v_template y = t) then 1 else 0))%nat.
Proof.
  unfold held. rewrite fmap_insert. destruct (decide (v_template y = t)) as [E|E].
  - rewrite map_filter_insert_True by done. rewrite map_size_insert. destruct (filter _ _ !! v); simpl; lia.
  - rewrite map_filter_insert_False by done. rewrite map_filter_delete, map_size_delete.
    destruct (filter _ _ !! v); unfold id; lia.
Qed.

Lemma held_delete t vs v y :
  vs !! v = Some y → held t vs = (held t (delete v vs) + (if decide (v_template y = t) then 1 else 0))%nat.
Proof.
  intros Hv. unfold held. rewrite fmap_delete, map_filter_delete.
  pose proof (map_size_delete (M:=gmap nat) v (filter (λ x, x.2 = t) (v_template <$> vs))) as H.
  destruct (decide (v_template y = t)) as [E|E].
  - assert (filter (λ x, x.2 = t) (v_template <$> vs) !! v = Some t) as E1.
    { apply map_lookup_filter_Some. rewrite lookup_fmap, Hv. by rewrite <-E. }
    rewrite E1 in H. simpl in H. assert (size (filter (λ x, x.2 = t) (v_template <$> vs)) ≠ 0)%nat; [|lia].
    intros H0%map_size_empty_inv. by rewrite H0, lookup_empty in E1.
  - assert (filter (λ x, x.2 = t) (v_template <$> vs) !! v = None) as E1.
    { apply map_lookup_filter_None. right. intros u. rewrite lookup_fmap, Hv. intros [= <-]. done. }
    rewrite E1 in H. unfold id in H. lia.
Qed.

Lemma held_ext t vs vs' : (∀ w, v_template <$> vs' !! w = v_template <$> vs !! w) → held t vs' = held t vs.
Proof. intros H. unfold held. do 2 f_equal. apply map_eq. intros w. rewrite !lookup_fmap. apply H. Qed.

Lemma held_fresh g e c id t d u : counted g e c id t d → (next_ptr d ≤ u)%nat → held u (vmas d) = 0%nat.
Proof.
  intros C Hu. unfold held. apply map_size_empty_iff, map_empty_filter_2. intros v w Hw Hu2. simpl in Hu2. rewrite lookup_fmap in Hw.
  destruct (vmas d !! v) as [y|] eqn:Hy; simplify_eq/=. pose proof (ct_owner _ _ _ _ _ _ C _ _ Hy). lia.
Qed.

Lemma counted_quiet g e c id t d d' : counted g e c id t d → quiet d d' → counted g e c id t d'.
Proof.
  intros C (T & L & V & N). split.
  - intros v y Hy. specialize (V v). rewrite Hy in V. destruct (vmas d !! v) as [z|] eqn:Hz; simplify_eq/=.
    pose proof (ct_owner _ _ _ _ _ _ C _ _ Hz). rewrite V. lia.
  - intros u x. rewrite T, (held_ext _ _ _ V). intros Hx%(ct_template _ _ _ _ _ _ C). lia.
  - rewrite T, L. apply C.
Qed.

(** Changing the count of a template. *)
Lemma counted_add g e e' c c' id t d u x n :
  counted g e c id t d → templates d !! u = Some x → (∀ w, w ≠ u → e' w ≤ e w) → e' u ≤ e u + n → 0 ≤ e' u →
  c ≤ c' → c + n ≤ c' < 2 ^ 31 →
  counted g e' c' id t (set_templates (template_list d) (<[u := add_template_ref n x]> (templates d)) d).
Proof.
  intros C Hx He Hu Hp Hc1 Hc2. destruct (ct_template _ _ _ _ _ _ C _ _ Hx) as [Hn Hc]. split; simpl.
  - apply C.
  - intros w z [[-> <-]|[Hne Hz]]%lookup_insert_Some; [simpl; split; [done|]; rewrite atomic_add_small; lia|].
    destruct (ct_template _ _ _ _ _ _ C _ _ Hz). specialize (He w ltac:(done)). split; [done|lia].
  - intros H1. rewrite (find_in_ext (templates d)); [by apply C|]. intros w.
    destruct (decide (w = u)) as [->|]; [by rewrite lookup_insert_eq, Hx|by rewrite lookup_insert_ne].
Qed.

Lemma find_in_free {E} ts id u t l :
  u ≠ t → @find_in E ts id l = Ok (Some t) → @find_in E (delete u ts) id (filter (λ w, w ≠ u) l) = Ok (Some t).
Proof.
  intros Hu. induction l as [|w l IH]; [done|]. cbn [find_in]. destruct (ts !! w) as [x|] eqn:Hw; [|done]. simpl.
  destruct (decide (w = u)) as [->|Hne].
  - rewrite filter_cons_False by tauto. destruct (strncmp_eq _ _ _); [by intros [= ->]|done].
  - rewrite filter_cons_True by done. cbn [find_in]. rewrite lookup_delete_ne, Hw by done. simpl.
    by destruct (strncmp_eq _ _ _).
Qed.

Lemma counted_free g e c id t d u x :
  counted g e c id t d → templates d !! u = Some x → (t = u → g = false) →
  counted g e c id t (set_templates (filter (λ w, w ≠ u) (template_list d)) (delete u (templates d)) d).
Proof.
  intros C Hx Hr. split; simpl.
  - apply C.
  - intros w z [Hne Hz]%lookup_delete_Some. by apply C.
  - intros H1. apply find_in_free; [intros ->; by rewrite Hr in H1|]. by apply C.
Qed.

Lemma counted_mono g e e' c c' id t d : (∀ w, e' w ≤ e w) → c ≤ c' → counted g e c id t d → counted g e' c' id t d.
Proof. intros He Hc C. split; [apply C| |apply C]. intros u x Hx%(ct_template _ _ _ _ _ _ C). specialize (He u). lia. Qed.

Lemma one_more_le u e w : e w ≤ one_more u e w.
Proof. unfold one_more. case_decide; lia. Qed.

Section maintained.
Context (g : bool) (id : list ascii) (t : nat).

(** A leaked template has one reference more than it has mappings. *)
Definition extra : nat → Z := if g then one_more t none_more else none_more.
Local Notation counted c := (counted g extra c id t).
(** An operation that takes at most [k] references. *)
Definition maintains {E A} (k : Z) (m : M driver E A) : Prop :=
  0 ≤ k ∧ ∀ c d, 0 ≤ c → c + k < 2 ^ 31 → counted c d → counted (c + k) (m d).2.

Lemma extra_nonneg u : 0 ≤ extra u.
Proof. unfold extra, one_more, none_more. destruct g; [case_decide|]; lia. Qed.
Lemma extra_leaked : g = true → extra t = 1.
Proof. intros Hg. unfold extra. rewrite Hg. unfold one_more, none_more. by rewrite decide_True. Qed.

Lemma maintains_le {E A} k k' (m : M driver E A) : k ≤ k' → maintains k m → maintains k' m.
Proof.
  intros Hk [H0 Hm]. split; [lia|]. intros c d Hp Hc C. apply (counted_mono _ extra _ (c + k)); [done|lia|]. apply Hm; [lia|lia|done].
Qed.

Lemma maintains_bind {E A B} k1 k2 (m : M driver E A) (k : A → M driver E B) :
  maintains k1 m → (∀ a, maintains k2 (k a)) → 0 ≤ k2 → maintains (k1 + k2) (m ≫= k).
Proof.
  intros [H1 Hm] Hk H2. split; [lia|]. intros c d Hp Hc C. assert (counted (c + k1) (m d).2) as C1 by (apply Hm; [lia|lia|done]).
  unfold mbind, M_bind. destruct (m d) as [[a|e| |] d']; simpl in *;
    [|by eapply counted_mono; [| |exact C1]; [|lia]..]. rewrite Z.add_assoc. apply Hk; [lia|lia|done].
Qed.

(** The same where the references are taken in one of the two. *)
Lemma maintains_then {E A B} k0 (m : M driver E A) (k : A → M driver E B) :
  maintains 0 m → (∀ a, maintains k0 (k a)) → 0 ≤ k0 → maintains k0 (m ≫= k).
Proof. apply (maintains_bind 0). Qed.

Lemma maintains_keeps {E A} (m : M driver E A) : keeps m → maintains 0 m.
Proof.
  intros Hm. split; [lia|]. intros c d Hp Hc C. rewrite Z.add_0_r. eapply counted_quiet; [exact C|]. by apply keeps_quiet.
Qed.

Ltac maintains_same := apply maintains_keeps; unfold template_id_exists, snapshot_template_find; keeps_tac.

Lemma counted_unref {E} c u d :
  c < 2 ^ 31 → SnapshotDriver.counted g (one_more u extra) c id t d → counted c (@snapshot_template_unref E u d).2.
Proof.
  intros Hc C. pose proof (counted_mono _ _ extra _ c _ _ _ (one_more_le u extra) ltac:(done) C) as C0.
  unfold snapshot_template_unref, mbind, M_bind, deref, free_template. destruct (templates d !! u) as [x|] eqn:Hx; [|done]. simpl.
  destruct (ct_template _ _ _ _ _ _ C _ _ Hx) as [_ Hr]. unfold one_more in Hr. rewrite decide_True in Hr by done.
  destruct (Z.eqb_spec (t_ref_count x - 1) 0) as [E0|_]; simpl.
  - eapply counted_free; [exact C0|exact Hx|]. intros <-. apply not_true_is_false. intros Hg%extra_leaked. pose proof (extra_nonneg t). lia.
  - pose proof (extra_nonneg u). eapply counted_add; [exact C|exact Hx|intros w Hw; apply one_more_le|..]; try lia.
    unfold one_more. rewrite decide_True by done. lia.
Qed.

Lemma counted_inc {E} c u d x :
  c + 1 < 2 ^ 31 → counted c d → templates d !! u = Some x →
  ∃ d', @template_inc E u d = (Ok tt, d') ∧ SnapshotDriver.counted g (one_more u extra) (c + 1) id t d' ∧
    templates d' !! u = Some (add_template_ref 1 x).
Proof.
  intros Hc C Hx. unfold template_inc, mbind, M_bind, deref. rewrite Hx. simpl. eexists. split; [done|]. split.
  - pose proof (extra_nonneg u). eapply counted_add; [exact C|exact Hx|..]; try lia; unfold one_more;
      [intros w Hw; by rewrite decide_False|by rewrite decide_True|rewrite decide_True by done; lia].
  - simpl. by rewrite lookup_insert_eq.
Qed.

Lemma maintains_inc {E} u : maintains 1 (@template_inc E u).
Proof.
  split; [lia|]. intros c d _ Hc C. destruct (templates d !! u) as [x|] eqn:Hx.
  - destruct (@counted_inc E c u d x Hc C Hx) as (d' & -> & C' & _). eapply counted_mono; [apply one_more_le| |exact C']. done.
  - unfold template_inc, mbind, M_bind, deref. rewrite Hx. simpl. eapply counted_mono; [| |exact C]; [done|lia].
Qed.

Lemma maintains_fault v a b : maintains 0 (snapshot_vma_fault v a b).
Proof. split; [lia|]. intros c d _ _ C. rewrite Z.add_0_r. eapply counted_quiet; [exact C|apply quiet_fault]. Qed.

Lemma maintains_open v : maintains 1 (snapshot_vma_open v).
Proof. apply maintains_then; [maintains_same|intros x; apply maintains_inc|lia]. Qed.

Lemma maintains_close v : maintains 0 (snapshot_vma_close v).
Proof.
  split; [lia|]. intros c d Hp Hc C. rewrite Z.add_0_r in *. unfold snapshot_vma_close. unfold mbind at 1, M_bind at 1, deref. destruct (vmas d !! v) as [x|] eqn:Hv; [|done]. simpl.
  unfold mbind at 1, M_bind at 1. set (body := λ '(_, p), _).
  assert (keeps (for_ (va_to_pa_map x) body)) as Hk.
  { apply keeps_for. intros [va p]. apply keeps_driver_bind; [apply keeps_update|intros; apply keeps_unref]. }
  pose proof (proj2 (maintains_keeps _ Hk) c d ltac:(lia) ltac:(lia) C) as C1. rewrite Z.add_0_r in C1. destruct (Hk d) as (_ & _ & V1 & _).
  destruct (for_ (va_to_pa_map x) body d) as [[[]|e| |] d1]; simpl in *; try done. unfold mbind, M_bind, modify.
  apply counted_unref; [done|]. rewrite <-V1 in Hv. split; simpl.
  - intros w y [_ Hy]%lookup_delete_Some. by eapply C1.
  - intros u y Hy. destruct (ct_template _ _ _ _ _ _ C1 _ _ Hy) as [Hn Hr]. rewrite (held_delete u _ _ _ Hv) in Hr.
    unfold one_more. destruct (decide (v_template x = u)), (decide (u = v_template x)); try congruence; split; auto; lia.
  - apply C1.
Qed.

(** A new mapping uses up one reference. *)
Lemma counted_mapped c d u x v :
  SnapshotDriver.counted g (one_more u extra) c id t d → templates d !! u = Some x →
  counted c (set_vmas (<[v := {| v_template := u; va_to_pa_map := [] |}]> (vmas d)) (set_next (S (next_ptr d)) d)).
Proof.
  intros C Hx. split; simpl.
  - intros w y [[_ <-]|[_ Hy]]%lookup_insert_Some; [|pose proof (ct_owner _ _ _ _ _ _ C _ _ Hy); lia].
    destruct (ct_template _ _ _ _ _ _ C _ _ Hx). simpl. lia.
  - intros w y Hy. destruct (ct_template _ _ _ _ _ _ C _ _ Hy) as [Hn Hr]. split; [lia|].
    pose proof (held_insert w (vmas d) v {| v_template := u; va_to_pa_map := [] |}) as Hh. simpl in Hh.
    unfold one_more in Hr. destruct (decide (u = w)), (decide (w = u)); try congruence; lia.
  - apply C.
Qed.

Lemma maintains_mmap dev a b : maintains 2 (snapshot_mmap dev a b).
Proof.
  split; [lia|]. intros c d Hp Hc C. assert (∀ d1, counted (c + 1) d1 → counted (c + 2) d1) as Hup
    by (intros d1; apply counted_mono; [done|lia]).
  assert (counted (c + 2) d) as C' by (eapply counted_mono; [| |exact C]; [done|lia]).
  unfold snapshot_mmap. destruct (negb _); [done|].
  unfold snapshot_template_find_ref, snapshot_template_find. unfold mbind at 1, M_bind at 1. unfold mbind at 1, M_bind at 1.
  destruct (find_in _ _ _) as [[u|]|e| |] eqn:Hf; try done. destruct (@find_in_Some errno _ _ _ _ Hf) as [[x Hx] _].
  destruct (@counted_inc errno c u d x ltac:(lia) C Hx) as (d1 & E1 & C1 & Hx1). unfold mbind at 1, M_bind at 1. rewrite E1.
  cbn [mret M_ret]. unfold mbind at 1, M_bind at 1, deref. rewrite Hx1. cbn [unwrap]. destruct (negb _ || _).
  { unfold mbind, M_bind. pose proof (Hup _ (@counted_unref errno (c + 1) u d1 ltac:(lia) C1)) as C2.
    by destruct (snapshot_template_unref u d1) as [[]?]. }
  unfold mbind at 1, M_bind at 1. pose proof (counted_quiet _ _ _ _ _ _ _ C1 (keeps_quiet _ d1 (@keeps_ask errno))) as C2.
  destruct (@keeps_ask errno d1) as (T2 & _). destruct (ask d1) as [[ok|e| |] d2]; simpl in C2, T2;
    [|by apply Hup; eapply counted_mono; [apply (one_more_le u)| |exact C2]; [done]..]. destruct ok; cbn [negb].
  - rewrite <-T2 in Hx1. assert (@keeps errno _ (mret (next_ptr d2))) as Hret by (intros ?; simpl; auto).
    replace (c + 2) with (c + 1 + (1 + 0)) by lia.
    apply (proj2 (maintains_bind 1 0 (template_inc u) _ (maintains_inc u) (λ _, maintains_keeps _ Hret) ltac:(lia)) (c + 1) _
      ltac:(lia) ltac:(lia) (counted_mapped (c + 1) d2 u _ (next_ptr d2) C2 Hx1)).
  - unfold mbind, M_bind. pose proof (Hup _ (@counted_unref errno (c + 1) u d2 ltac:(lia) C2)) as C3.
    by destruct (snapshot_template_unref u d2) as [[]?].
Qed.

Lemma maintains_free c d u x :
  counted c d → templates d !! u = Some x → t_ref_count x ≤ 0 → counted c (@free_template errno u d).2.
Proof.
  intros C Hx H0. unfold free_template. simpl. eapply counted_free; [exact C|exact Hx|].
  intros <-. destruct (ct_template _ _ _ _ _ _ C _ _ Hx) as [_ Hr]. apply not_true_is_false. intros Hg%extra_leaked. lia.
Qed.

Lemma maintains_delete name : maintains 0 (snapshot_template_delete name).
Proof.
  split; [lia|]. intros c d Hp Hc C. pose proof C as C0. rewrite <-(Z.add_0_r c) in C0. unfold snapshot_template_delete, snapshot_template_find. unfold mbind at 1, M_bind at 1.
  destruct (find_in _ _ _) as [[u|]|e| |] eqn:Hf; try done. destruct (@find_in_Some errno _ _ _ _ Hf) as [[x Hx] _].
  unfold mbind at 1, M_bind at 1, deref. rewrite Hx. cbn [unwrap]. destruct (Z.ltb_spec 0 (t_ref_count x)) as [|H0]; [done|].
  pose proof (maintains_free c d u x C Hx H0) as C1. unfold mbind at 1, M_bind at 1.
  change (free_template u d) with (@Ok errno _ tt, (@free_template errno u d).2). cbn iota beta.
  refine (proj2 (maintains_then 0 _ _ _ _ _) c _ Hp Hc C1); [maintains_same| |lia]. intros l.
  destruct (bool_decide (l = [])); [|maintains_same].
  apply maintains_keeps. apply keeps_driver_bind; [apply keeps_destroy|]. intros _.
  apply keeps_driver_bind; [apply keeps_init|]. intros _ ?. simpl. auto.
Qed.

Lemma find_in_append {E} ts name l n x u :
  ts !! n = None → @find_in E ts name l = Ok (Some u) → @find_in E (<[n := x]> ts) name (l ++ [n]) = Ok (Some u).
Proof.
  intros Hn. induction l as [|w l IH]; [done|]. cbn [find_in app]. destruct (ts !! w) as [y|] eqn:Hw; [|done].
  rewrite lookup_insert_ne, Hw by congruence. simpl. by destruct (strncmp_eq _ _ _).
Qed.

Lemma counted_created c d x :
  0 ≤ c → counted c d → t_ref_count x = 0 →
  counted c (set_templates (template_list d ++ [next_ptr d]) (<[next_ptr d := x]> (templates d)) (set_next (S (next_ptr d)) d)).
Proof.
  intros Hc C H0. assert (templates d !! next_ptr d = None) as Hn.
  { apply eq_None_not_Some. intros [y Hy%(ct_template _ _ _ _ _ _ C)]. lia. }
  split; simpl.
  - intros v y Hy%(ct_owner _ _ _ _ _ _ C). lia.
  - intros u y [[<- <-]|[_ Hy]]%lookup_insert_Some; [|destruct (ct_template _ _ _ _ _ _ C _ _ Hy); split; [lia|done]].
    rewrite (held_fresh _ _ _ _ _ _ _ C) by lia. rewrite H0. split; [lia|]. split; [|done]. unfold extra.
    destruct g eqn:Hg; [|unfold none_more; lia]. unfold one_more, none_more. case_decide as Ht; [|lia].
    destruct (@find_in_Some errno _ _ _ _ (ct_found _ _ _ _ _ _ C eq_refl)) as [[z Hz] _]. by rewrite Ht, Hz in Hn.
  - intros Hg. apply find_in_append; [done|]. by apply C.
Qed.

Lemma maintains_create filp_open args : maintains 0 (snapshot_template_create filp_open args).
Proof.
  unfold snapshot_template_create. apply maintains_then; [maintains_same| |lia]. intros []; [maintains_same|].
  apply maintains_then; [maintains_same| |lia]. intros f1. apply maintains_then; [maintains_same| |lia]. intros f2.
  apply maintains_then; [apply maintains_keeps, keeps_ask| |lia]. intros []; cbn [negb]; [|maintains_same].
  destruct (negb _); [maintains_same|].
  do 2 (apply maintains_then; [apply maintains_keeps, keeps_ask| |lia]; intros []; cbn [negb]; [|maintains_same]).
  split; [lia|]. intros c d Hp _ C. rewrite Z.add_0_r. unfold mbind, M_bind, fresh, modify. simpl. by apply (counted_created c d).
Qed.

Lemma maintains_ioctl filp_open cmd : maintains 0 (snapshot_ioctl filp_open cmd).
Proof.
  destruct cmd as [o|o|o w|]; cbn [snapshot_ioctl]; [| | |maintains_same];
    (apply maintains_then; [maintains_same| |lia]; intros args).
  - apply maintains_then; [apply maintains_create| |lia]. intros _. maintains_same.
  - apply maintains_then; [apply maintains_delete| |lia]. intros _. maintains_same.
  - apply maintains_keeps. keeps_tac. intros d.
    assert (keeps (snapshot_template_status args)) as Hk by (unfold snapshot_template_status, snapshot_template_find; keeps_tac).
    specialize (Hk d). unfold try_. by destruct (snapshot_template_status args d) as [[]?].
Qed.

Lemma maintains_operate filp_open o c d : 0 ≤ c → c + 2 < 2 ^ 31 → counted c d → counted (c + 2) (operate filp_open o d).
Proof.
  intros Hp Hc C. destruct o as [cmd|dev a b|v|v a b|v]; simpl.
  - by apply (maintains_le 0 2 _ ltac:(lia) (maintains_ioctl filp_open cmd)).
  - by apply maintains_mmap.
  - by apply (maintains_le 1 2 _ ltac:(lia) (maintains_open v)).
  - by apply (maintains_le 0 2 _ ltac:(lia) (maintains_fault v a b)).
  - by apply (maintains_le 0 2 _ ltac:(lia) (maintains_close v)).
Qed.

Lemma maintains_operates filp_open l : ∀ c d,
  0 ≤ c → c + 2 * zlen l < 2 ^ 31 → counted c d → counted (c + 2 * zlen l) (operates filp_open l d).
Proof.
  induction l as [|o l IH]; intros c d Hp Hc C; [by rewrite Z.add_0_r|]. rewrite zlen_cons in *. pose proof (zlen_nonneg l).
  replace (c + 2 * (1 + zlen l)) with (c + 2 + 2 * zlen l) in * by lia. apply IH; [lia|lia|].
  apply maintains_operate; [done|lia|done].
Qed.

End maintained.

Lemma init_counted os id t : counted false (extra false t) 0 id t (snapshot_init (empty_driver os)).2.
Proof.
  assert (quiet (empty_driver os) (snapshot_init (empty_driver os)).2) as Hq.
  { apply keeps_quiet. unfold snapshot_init. repeat first [apply keeps_init|apply keeps_destroy|apply keeps_ask
      |apply keeps_driver_bind; [|intros []]; cbn [negb]|solve [intros ?; simpl; auto]]. }
  eapply counted_quiet; [|exact Hq]. split; simpl; [intros v y|intros u x|]; by rewrite ?lookup_empty.
Qed.

(** After a mapping the template has one reference too many. *)
Lemma counted_leaked c id t v d d1 x :
  counted false (extra false t) c id t d → c + 2 < 2 ^ 31 → @find_in errno (templates d) id (template_list d) = Ok (Some t) →
  templates d !! t = Some x → templates d1 = <[t := add_template_ref 2 x]> (templates d) → template_list d1 = template_list d →
  vmas d1 = <[v := {| v_template := t; va_to_pa_map := [] |}]> (vmas d) → (next_ptr d ≤ next_ptr d1)%nat →
  counted true (extra true t) (c + 2) id t d1.
Proof.
  intros C Hc Hf Hx T1 L1 V1 N1. destruct (ct_template _ _ _ _ _ _ C _ _ Hx) as [Hn Hr]. split.
  - intros w y. rewrite V1. intros [[_ <-]|[_ Hy%(ct_owner _ _ _ _ _ _ C)]]%lookup_insert_Some; simpl; lia.
  - intros u y. rewrite T1, V1. pose proof (held_insert u (vmas d) v {| v_template := t; va_to_pa_map := [] |}) as Hh.
    simpl in Hh. unfold extra, one_more, none_more in *. intros [[<- <-]|[Hne Hy]]%lookup_insert_Some.
    + destruct (decide (t = t)); [|done]. simpl. rewrite atomic_add_small by lia. split; lia.
    + destruct (decide (t = u)), (decide (u = t)); try congruence.
      destruct (ct_template _ _ _ _ _ _ C _ _ Hy) as [? Hy']. simpl in Hy'. split; lia.
  - intros _. rewrite T1, L1, (find_in_ext (templates d)); [done|]. intros u.
    destruct (decide (u = t)) as [->|]; [by rewrite lookup_insert_eq, Hx|by rewrite lookup_insert_ne].
Qed.

(** ** Theorems *)

(** C14: a fault.  In a mapping of a template that was made from the files of a split
    snapshot, with every page stored and no two pages of the pool and the snapshot with the
    same hash, a fault on any page of the snapshot maps exactly that page, whether it
    comes from the pool, where another template may have put it, or from [pages.bin];
    the only other results are that the kernel was out of memory or could not insert
    the page.  In all cases the pool stays in order. *)
Theorem fault_serves_page sha256 P snap n args pt f d v x r k vm_start address :
  digests sha256 → distinct sha256 P → a_total_size args = n * PAGE_SIZE → n * PAGE_SIZE < 2 ^ 64 →
  table_ok sha256 snap pt n → wf f → (∀ j, 0 ≤ j < n → P (page snap j) ∧ stored sha256 f (page snap j)) →
  pool_ok sha256 P d → vmas d !! v = Some x →
  templates d !! v_template x = Some (add_template_ref r (new_template args (pread pt (n * 16) 0) f)) →
  0 ≤ k < n → vm_start + k * PAGE_SIZE ≤ address < vm_start + (k + 1) * PAGE_SIZE →
  ∃ res d', snapshot_vma_fault v vm_start address d = (res, d') ∧ pool_ok sha256 P d' ∧ templates d' = templates d ∧
    (res = Ok (page snap k) ∨ (outcomes d ≠ [] ∧ (res = Err OOM ∨ res = Err INSERT_ERROR))).
Proof.
  intros Hsha Hd Hsize Hb [Hlen Ht] Hw Hst Hp Hv Htm Hk Ha. destruct (Hst k Hk) as [HP Hs].
  assert ((address - vm_start) / PAGE_SIZE = k) as Hidx by (symmetry; apply Z.div_unique with (address - vm_start - k * PAGE_SIZE); slots).
  assert (a_total_size args / PAGE_SIZE = n) as Hn by (rewrite Hsize; by apply Z.div_mul).
  unfold snapshot_vma_fault. erewrite m_bind_run by (unfold deref; by rewrite Hv).
  erewrite m_bind_run by (unfold deref; by rewrite Htm). cbn [t_page_count add_template_ref new_template]. rewrite Hidx, Hn.
  destruct (Z.leb_spec n k); [lia|]. cbn [page_table_cache add_template_ref new_template pages_file].
  assert (@vget vm_fault _ (decode_entries (Z.to_nat (a_total_size args / PAGE_SIZE)) (pread pt (n * 16) 0)) k =
    Ok (entry sha256 snap k)) as ->.
  { unfold vget. rewrite znth_decode by lia. rewrite slice_pread, Ht by lia.
    rewrite entry_roundtrip; [done|unfold is_u64; cbn; slots|by apply hash_u64]. }
  erewrite m_bind_run by done. cbn [hash_idx entry].
  destruct (load_ok sha256 P Hd d f (page snap k) Hp Hw HP Hs) as (r1 & d1 & E1 & Hs1 & Hr1).
  destruct Hs1 as (Hp1 & (T1 & _ & V1) & O1). destruct Hr1 as [(p & -> & Hl)|(-> & Ho)].
  - erewrite m_bind_run by done.
    destruct (map_ok sha256 P d1 v x (address - vm_start) p (page snap k) Hp1 Hl) as (r2 & d2 & E2 & (Hp2 & T2 & _) & Hr2);
      [by rewrite V1|].
    exists r2, d2. split; [done|]. split; [done|]. split; [congruence|].
    destruct Hr2 as [->|[-> Ho2]]; [by left|right]. split; [|by right]. intros Ho. by apply Ho2, O1.
  - exists (Err OOM), d1. split; [unfold mbind, M_bind; by rewrite E1|]. split; [done|]. split; [done|].
    right. split; [done|by left].
Qed.

(** C39: the references of a mapping.  Take any run of a driver that was just loaded, with
    any results of its operations, in which a template was mapped at some point: from then
    on, whatever creations, mappings, forks, faults, closings and deletions follow, the
    template has more references than mappings, and deleting it fails with [EBUSY], also
    when no mapping is left.  The run has less than 2^30 operations, so that the 32 bits of
    a reference count suffice. *)
Theorem unmapping_keeps_reference filp_open os before dev a b v d1 after :
  let d := operates filp_open before (snapshot_init (empty_driver os)).2 in
  let d2 := operates filp_open after d1 in
  let id := take (TEMPLATE_ID_MAX_LEN - 1) (drop 9 dev) in
  zlen before + zlen after + 1 < 2 ^ 30 → snapshot_mmap dev a b d = (Ok v, d1) →
  ∃ t x, templates d2 !! t = Some x ∧ Z.of_nat (held t (vmas d2)) < t_ref_count x ∧
    snapshot_template_delete id d2 = (Err EBUSY, d2).
Proof.
  intros d d2 id Hlen Hm. pose proof (zlen_nonneg before). pose proof (zlen_nonneg after).
  destruct (mmap_Ok _ _ _ _ _ _ Hm) as (t & x & Hf & Hx & T1 & L1 & V1 & N1). fold id in Hf.
  assert (counted false (extra false t) (0 + 2 * zlen before) id t d) as C
    by (apply maintains_operates; [lia|lia|apply init_counted]). clearbody d.
  assert (counted true (extra true t) (0 + 2 * zlen before + 2 + 2 * zlen after) id t d2) as C2.
  { apply maintains_operates; [lia|lia|]. apply (counted_leaked _ id t v d d1 x); try done. lia. }
  pose proof (ct_found _ _ _ _ _ _ C2 eq_refl) as Hf2. destruct (@find_in_Some errno _ _ _ _ Hf2) as [[y Hy] _].
  destruct (ct_template _ _ _ _ _ _ C2 _ _ Hy) as [_ Hr2]. rewrite (extra_leaked true t eq_refl) in Hr2.
  exists t, y. split; [done|]. split; [lia|].
  unfold snapshot_template_delete, snapshot_template_find, mbind, M_bind, deref. rewrite Hf2. cbn [unwrap]. rewrite Hy.
  cbn [unwrap]. destruct (Z.ltb_spec 0 (t_ref_count y)); [done|lia].
Qed.

(** A mapping that is refused.  A request to map more than the template's size, or
    not whole pages, of a template that is not in use fails with [EINVAL], and frees
    the template. *)
Theorem refused_mmap_frees_template dev a b d t x :
  strncmp_eq 9 dev (list_ascii_of_string "snapshot_") = true →
  @find_in errno (templates d) (take (TEMPLATE_ID_MAX_LEN - 1) (drop 9 dev)) (template_list d) = Ok (Some t) →
  templates d !! t = Some x → t_ref_count x = 0 →
  (b - a) mod PAGE_SIZE ≠ 0 ∨ t_total_size x < b - a →
  ∃ d', snapshot_mmap dev a b d = (Err EINVAL, d') ∧ templates d' !! t = None ∧ t ∉ template_list d'.
Proof.
  intros Hdev Hf Hx H0 Hs. eexists. split; [|split].
  - unfold snapshot_mmap. rewrite Hdev. cbn [negb].
    unfold snapshot_template_find_ref, snapshot_template_find, template_inc, snapshot_template_unref, mbind, M_bind, deref.
    rewrite Hf, Hx. cbn. rewrite lookup_insert_eq. cbn.
    assert (negb ((b - a) mod PAGE_SIZE =? 0) || (t_total_size x <? b - a) = true) as ->.
    { apply orb_true_iff. destruct Hs as [Hs|Hs]; [left; by apply negb_true_iff, Z.eqb_neq|right; by apply Z.ltb_lt]. }
    cbn. rewrite lookup_insert_eq. cbn. rewrite H0. done.
  - cbn. apply lookup_delete_eq.
  - cbn. intros H. apply list_elem_of_filter in H as [H _]. done.
Qed.

(** A process that forks.  A mapping and its copy in the child share one record:
    after a fork either of the two can be closed, and then the other one, while its
    template is still referenced, follows a pointer to freed memory when it faults and
    when it is closed. *)
Theorem fork_use_after_free dev a b d v d1 :
  (∀ t x, templates d !! t = Some x → 0 ≤ t_ref_count x < 2 ^ 31 - 3) → snapshot_mmap dev a b d = (Ok v, d1) →
  ∃ d2 d3 t x, snapshot_vma_open v d1 = (Ok tt, d2) ∧ snapshot_vma_close v d2 = (Ok tt, d3) ∧
    templates d3 !! t = Some x ∧ 0 < t_ref_count x ∧
    (∀ vm_start address, snapshot_vma_fault v vm_start address d3 = (Panic, d3)) ∧
    snapshot_vma_close v d3 = (Panic, d3).
Proof.
  intros Hpos Hm. destruct (mmap_Ok _ _ _ _ _ _ Hm) as (t & x & _ & Hx & T1 & L1 & V1' & _). pose proof (Hpos _ _ Hx).
  assert (vmas d1 !! v = Some {| v_template := t; va_to_pa_map := [] |}) as V1 by (by rewrite V1', lookup_insert_eq). clear V1'.
  eexists _, _, t, _. split.
  { unfold snapshot_vma_open, template_inc, mbind, M_bind, deref. rewrite V1. cbn. rewrite T1, lookup_insert_eq. done. }
  split.
  { unfold snapshot_vma_close, snapshot_template_unref, mbind, M_bind, deref. cbn. rewrite V1. cbn.
    rewrite lookup_insert_eq. cbn. rewrite atomic_add_add, atomic_add_small by lia.
    destruct (Z.eqb_spec (t_ref_count x + (2 + 1) - 1) 0); [lia|]. done. }
  cbn. rewrite lookup_insert_eq. split; [done|]. split; [cbn; rewrite !atomic_add_add, atomic_add_small; lia|].
  unfold snapshot_vma_fault, snapshot_vma_close, mbind, M_bind, deref. cbn. by rewrite lookup_delete_eq.
Qed.

(** ** Witnesses *)
Definition demo_id : list ascii := list_ascii_of_string "t".
Definition demo_dev : list ascii := list_ascii_of_string "snapshot_t".
Definition demo_path : list ascii := list_ascii_of_string "page_table.bin".

(** A template of one page, made in a driver that has just been loaded. *)
Definition demo_open (path : list ascii) : option file :=
  if bool_decide (path = demo_path) then Some {| f_len := 16; f_at := λ _, 1 |} else Some empty_file.
Definition demo_args (n : Z) : ioctl_create_template :=
  {| a_template_id := demo_id; a_total_size := n * PAGE_SIZE; a_page_table_path := demo_path; a_pages_path := [] |}.
Definition demo_created : driver :=
  (snapshot_template_create demo_open (demo_args 1) (snapshot_init (empty_driver [])).2).2.
Definition demo_mapped : driver := (snapshot_mmap demo_dev 0 4096 demo_created).2.

Lemma demo_counts t x : templates demo_created !! t = Some x → 0 ≤ t_ref_count x < 2 ^ 31 - 3.
Proof.
  intros H. change (templates demo_created) with
    (<[0%nat := new_template (demo_args 1) (pread {| f_len := 16; f_at := λ _, 1 |} 16 0) empty_file]>
       (∅ : gmap nat snapshot_template)) in H.
  apply lookup_insert_Some in H as [[_ <-]|[_ H]]; done.
Qed.

Lemma demo_mmap : snapshot_mmap demo_dev 0 4096 demo_created = (Ok 1%nat, demo_mapped).
Proof. apply run_snd. vm_compute. reflexivity. Qed.

Lemma unmapping_keeps_reference_witness :
  let d2 := operates demo_open [Fault 1 0 0; Close 1] demo_mapped in
  vmas d2 = ∅ ∧ ∃ t x, templates d2 !! t = Some x ∧ Z.of_nat (held t (vmas d2)) < t_ref_count x ∧
    snapshot_template_delete demo_id d2 = (Err EBUSY, d2).
Proof.
  split; [vm_compute; reflexivity|].
  exact (unmapping_keeps_reference demo_open [] [Ioctl (IOCTL_CREATE_TEMPLATE (Some (demo_args 1)))] demo_dev 0 4096 1
    demo_mapped [Fault 1 0 0; Close 1] ltac:(done) demo_mmap).
Defined.

Lemma refused_mmap_frees_template_witness :
  ∃ d', snapshot_mmap demo_dev 0 8192 demo_created = (Err EINVAL, d') ∧ templates d' !! 0%nat = None ∧
    0%nat ∉ template_list d'.
Proof.
  apply (refused_mmap_frees_template demo_dev 0 8192 demo_created 0
    (new_template (demo_args 1) (pread {| f_len := 16; f_at := λ _, 1 |} 16 0) empty_file));
    [reflexivity|vm_compute; reflexivity|reflexivity|reflexivity|right; reflexivity].
Defined.

Lemma fork_use_after_free_witness :
  ∃ d2 d3, snapshot_vma_open 1 demo_mapped = (Ok tt, d2) ∧ snapshot_vma_close 1 d2 = (Ok tt, d3) ∧
    snapshot_vma_close 1 d3 = (Panic, d3).
Proof.
  destruct (fork_use_after_free demo_dev 0 4096 demo_created 1 demo_mapped demo_counts
    demo_mmap) as (d2 & d3 & t & x & H1 & H2 & _ & _ & _ & H3).
  exists d2, d3. split; [exact H1|]. split; [exact H2|exact H3].
Defined.

(** An insertion that fails: the page is released, but stays in the record of the
    mapping, and closing the mapping releases it again. *)
Definition demo_page_file : file := fill_slot empty_file 257 72340172838076673 (replicate 4096 1).
Definition demo_failing : driver :=
  set_outcomes [true; true; true; true; false]
    (snapshot_mmap demo_dev 0 4096
      (snapshot_template_create (λ p, if bool_decide (p = demo_path) then demo_open p else Some demo_page_file)
         (demo_args 1) (snapshot_init (empty_driver [])).2).2).2.

Lemma failed_insertion_released_twice :
  (snapshot_vma_fault 1 0 0 demo_failing).1 = Err INSERT_ERROR ∧
  (snapshot_vma_close 1 (snapshot_vma_fault 1 0 0 demo_failing).2).1 = Panic.
Proof. split; vm_compute; reflexivity. Qed.

(** The two pages of [SnapshotStore], mapped. *)
Definition demo_serving (pt f : file) : driver :=
  {| template_list := [0%nat];
     templates := {[ 0%nat := add_template_ref 2 (new_template (demo_args 2) (pread pt (2 * 16) 0) f) ]};
     buckets := Some ∅; total_pages := 0; entries := ∅;
     vmas := {[ 1%nat := {| v_template := 0; va_to_pa_map := [] |} ]}; next_ptr := 2; outcomes := [] |}.

Lemma fault_serves_page_witness :
  ∃ pt f d', snapshot_vma_fault 1 65536 (65536 + 5000) (demo_serving pt f) = (Ok (page demo_snap 1), d').
Proof.
  set (P := λ d, d ∈ [page demo_snap 0; page demo_snap 1]).
  assert (∀ k, 0 ≤ k < 2 → P (page demo_snap k)) as HP.
  { intros k Hk. assert (k = 0 ∨ k = 1) as [->| ->] by lia; [by left|right; by left]. }
  destruct (split_run demo_sha P demo_snap 2 empty_file empty_file 2 demo_digests demo_distinct ltac:(lia) eq_refl HP
    empty_wf (empty_holds _ _) ltac:(done) ltac:(lia)) as (o & m & f & E & Ef & Hw & Ht & _ & _ & Hst).
  assert (m_unique_pages m = 2) as Hu.
  { assert (m = (default (o, m) (split_snapshot 2 demo_sha demo_snap empty_file (Some empty_file))).2) as ->
      by (rewrite E; reflexivity). vm_compute. reflexivity. }
  destruct (fault_serves_page demo_sha P demo_snap 2 (demo_args 2) (page_table o) f (demo_serving (page_table o) f) 1
    {| v_template := 0; va_to_pa_map := [] |} 2 1 65536 (65536 + 5000) demo_digests demo_distinct eq_refl eq_refl Ht Hw)
    as (res & d' & H1 & _ & _ & H2).
  - intros j Hj. split; [by apply HP|by apply Hst].
  - split; [|done]. exists ∅. split; [done|]. intros k p Hp. rewrite lookup_empty in Hp. destruct (not_elem_of_nil p Hp).
  - reflexivity.
  - reflexivity.
  - lia.
  - unfold PAGE_SIZE. lia.
  - exists (page_table o), f, d'. destruct H2 as [->|[H2 _]]; [exact H1|]. by destruct H2.
Defined.

End SnapshotDriver.
