(* ===== verification/Allocators.v ===== *)
(** * Resource allocators

    Model of the crate [vm-allocator]: [AddressAllocator] ([address.rs]) hands out
    ranges of addresses, [GsiAllocator] ([gsi.rs]) interrupt numbers,
    [MemorySlotAllocator] ([memory_slot.rs]) the slots of the hypervisor's memory, and
    [SystemAllocator] ([system.rs]) puts two address spaces and the interrupts together
    (the [x86_64] configuration).  A [BTreeMap] is a list sorted by its keys.  The
    theorems relate the searches to the set of free addresses. *)

From S2P Require Import Prelude.

Module Allocators.

(** ** Addresses *)
Inductive Error := Overflow | Overlap | UnalignedAddress.

(** The operations of [vm_memory::GuestAddress] the code uses: what the unchecked ones
    do when they leave 64 bits depends on the profile they are built with. *)
Class GuestAddressOps := {
  unchecked_add : Z → Z → res Error Z;
  unchecked_sub : Z → Z → res Error Z;
  ga_checked_add : Z → Z → option Z;
  ga_checked_sub : Z → Z → option Z }.

Class GuestAddressLaws `{GuestAddressOps} := {
  unchecked_add_ok a b : is_u64 (a + b) → unchecked_add a b = Ok (a + b);
  unchecked_sub_ok a b : is_u64 (a - b) → unchecked_sub a b = Ok (a - b);
  ga_checked_add_eq a b : ga_checked_add a b = if in_u64 (a + b) then Some (a + b) else None;
  ga_checked_sub_eq a b : ga_checked_sub a b = if in_u64 (a - b) then Some (a - b) else None }.

Record AddressAllocator := { base : Z; end_ : Z; ranges : list (Z * Z) }.

(** [BTreeMap::insert] and [BTreeMap::remove]. *)
Fixpoint bt_insert {A} (k : Z) (v : A) (l : list (Z * A)) : list (Z * A) :=
  match l with
  | [] => [(k, v)]
  | (k', v') :: l' =>
      if k <? k' then (k, v) :: l else if k =? k' then (k, v) :: l' else (k', v') :: bt_insert k v l'
  end.
Fixpoint bt_get {A} (k : Z) (l : list (Z * A)) : option A :=
  match l with
  | [] => None
  | (k', v') :: l' => if k =? k' then Some v' else bt_get k l'
  end.
Fixpoint bt_remove {A} (k : Z) (l : list (Z * A)) : list (Z * A) :=
  match l with
  | [] => []
  | (k', v') :: l' => if k =? k' then l' else (k', v') :: bt_remove k l'
  end.

Definition is_multiple_of (x y : Z) : bool := if y =? 0 then x =? 0 else x mod y =? 0.
Definition is_power_of_two (x : Z) : bool := (0 <? x) && (Z.land x (x - 1) =? 0).

Section address.
Context {G : GuestAddressOps}.

Definition address_new (base size : Z) : option AddressAllocator :=
  if size =? 0 then None
  else
    end_ ← ga_checked_add base (size - 1);
    marker ← ga_checked_add base size;
    Some {| base := base; end_ := end_; ranges := bt_insert marker 0 [] |}.

Definition align_address (address alignment : Z) : res Error Z :=
  align_adjust ← (if is_multiple_of address alignment then Ok 0
                  else r ← urem address alignment; usub alignment r);
  unchecked_add address align_adjust.

(** The loop of [available_range]. *)
Fixpoint search_from (aligned req_size prev_end : Z) (l : list (Z * Z)) : res Error Z :=
  match l with
  | [] => Err Overflow
  | (address, size) :: l' =>
      if aligned <=? address then
        if aligned <? prev_end then Err Overlap
        else
          gap ← unchecked_sub address aligned;
          if gap <? req_size then Err Overlap else Ok aligned
      else
        prev_end' ← unchecked_add address size;
        search_from aligned req_size prev_end' l'
  end.

Definition available_range (a : AddressAllocator) (req_address req_size alignment : Z) : res Error Z :=
  aligned ← align_address req_address alignment;
  if negb (aligned =? req_address) then Err UnalignedAddress
  else if (end_ a <=? aligned) || (aligned <? base a) then Err Overflow
  else search_from aligned req_size (base a) (ranges a).

(** The loop of [first_available_range], over the reversed ranges. *)
Fixpoint search_back (lowest req_size alignment : Z) (l : list (Z * Z)) : res Error (option Z) :=
  match l with
  | [] => Ok None
  | (address, _) :: l' =>
      prev_end ← match l' with
                 | [] => Ok lowest
                 | (a, s) :: _ => unchecked_add a s
                 end;
      aligned ← align_address prev_end alignment;
      match ga_checked_sub address aligned with
      | Some size_delta =>
          let adjust := saturating_sub alignment 1 in
          if req_size <=? size_delta then
            off ← uadd req_size adjust;
            top ← unchecked_sub address off;
            Some <$> align_address top alignment
          else search_back lowest req_size alignment l'
      | None => search_back lowest req_size alignment l'
      end
  end.

Definition first_available_range (a : AddressAllocator) (req_size alignment : Z) : res Error (option Z) :=
  search_back (base a) req_size alignment (reverse (ranges a)).

Definition insert_range (a : AddressAllocator) (address size : Z) : AddressAllocator :=
  {| base := base a; end_ := end_ a; ranges := bt_insert address size (ranges a) |}.

Definition allocate (address : option Z) (size : Z) (align_size : option Z) : M AddressAllocator Error (option Z) :=
  if size =? 0 then mret None
  else
    let alignment := default 4 align_size in
    if negb (is_power_of_two alignment) then mret None
    else
      a ← get;
      new_addr ← lift (match address with
                       | Some req => match available_range a req size alignment with
                                     | Ok x => Ok (Some x)
                                     | Err _ => Ok None
                                     | Panic => Panic
                                     | Hang => Hang
                                     end
                       | None => first_available_range a size alignment
                       end);
      match new_addr with
      | Some x => _ ← modify (λ a, insert_range a x size); mret (Some x)
      | None => mret None
      end.

Definition free (address size : Z) (a : AddressAllocator) : AddressAllocator :=
  match bt_get address (ranges a) with
  | Some range_size =>
      if size =? range_size
      then {| base := base a; end_ := end_ a; ranges := bt_remove address (ranges a) |} else a
  | None => a
  end.

(** ** Interrupts *)
Record GsiApic := { apic_base : Z; apic_irqs : Z }.
Record GsiAllocator := { apics : list (Z * Z); next_irq : Z; next_gsi : Z }.

(** Addition of [u32]s. *)
Definition uadd32 {E} (x y : Z) : res E Z := if x + y <=? U32_MAX then Ok (x + y) else Panic.

Definition add_apic (g : GsiAllocator) (apic : GsiApic) : res Error GsiAllocator :=
  limit ← uadd32 (apic_base apic) (apic_irqs apic);
  Ok {| next_irq := if apic_base apic <? next_irq g then apic_base apic else next_irq g;
        next_gsi := if next_gsi g <? limit then limit else next_gsi g;
        apics := bt_insert (apic_base apic) (apic_irqs apic) (apics g) |}.

Definition gsi_new (l : list GsiApic) : res Error GsiAllocator :=
  foldM add_apic {| apics := []; next_irq := U32_MAX; next_gsi := 0 |} l.

Definition allocate_gsi : M GsiAllocator Error Z := λ g,
  if next_gsi g + 1 <=? U32_MAX
  then (Ok (next_gsi g), {| apics := apics g; next_irq := next_irq g; next_gsi := next_gsi g + 1 |})
  else (Err Overflow, g).

(** The loop over the APICs, with [irq] and [self.next_irq]. *)
Definition try_apic (acc : Z * Z) (apic : Z * Z) : res Error (Z * Z) :=
  let '(irq, next) := acc in
  let '(b, irqs) := apic in
  if b <=? next then
    limit ← uadd32 b irqs;
    if next <? limit then next' ← uadd32 next 1; Ok (next, next') else Ok (irq, next)
  else Ok (irq, next).

Definition allocate_irq : M GsiAllocator Error Z := λ g,
  match foldM try_apic (0, next_irq g) (apics g) with
  | Ok (irq, next) =>
      let g' := {| apics := apics g; next_irq := next; next_gsi := next_gsi g |} in
      if irq =? 0 then (Err Overflow, g') else (Ok irq, g')
  | Err e => (Err e, g)
  | Panic => (Panic, g)
  | Hang => (Hang, g)
  end.

(** ** Memory slots *)
Record MemorySlotAllocator := { next_slot : Z; free_list : list Z }.

(** The free list has its last element first; [fetch_add] wraps around. *)
Definition next_memory_slot (m : MemorySlotAllocator) : Z * MemorySlotAllocator :=
  match free_list m with
  | slot :: l => (slot, {| next_slot := next_slot m; free_list := l |})
  | [] => (next_slot m, {| next_slot := (next_slot m + 1) mod 2 ^ 32; free_list := [] |})
  end.
Definition free_memory_slot (slot : Z) (m : MemorySlotAllocator) : MemorySlotAllocator :=
  {| next_slot := next_slot m; free_list := slot :: free_list m |}.

(** ** The system's resources *)
Record SystemAllocator := {
  io_address_space : AddressAllocator; platform_mmio_address_space : AddressAllocator; gsi_allocator : GsiAllocator }.

Definition system_new (io_base io_size mmio_base mmio_size : Z) (l : list GsiApic) : res Error (option SystemAllocator) :=
  match address_new io_base io_size, address_new mmio_base mmio_size with
  | Some io, Some mmio =>
      g ← gsi_new l;
      Ok (Some {| io_address_space := io; platform_mmio_address_space := mmio; gsi_allocator := g |})
  | _, _ => Ok None
  end.

Definition on_io {A} (m : M AddressAllocator Error A) : M SystemAllocator Error A := λ s,
  let '(r, a) := m (io_address_space s) in
  (r, {| io_address_space := a; platform_mmio_address_space := platform_mmio_address_space s; gsi_allocator := gsi_allocator s |}).
Definition on_mmio {A} (m : M AddressAllocator Error A) : M SystemAllocator Error A := λ s,
  let '(r, a) := m (platform_mmio_address_space s) in
  (r, {| io_address_space := io_address_space s; platform_mmio_address_space := a; gsi_allocator := gsi_allocator s |}).

(** [.ok()] *)
Definition on_gsi (m : M GsiAllocator Error Z) : M SystemAllocator Error (option Z) := λ s,
  let '(r, g) := m (gsi_allocator s) in
  (match r with Ok n => Ok (Some n) | Err _ => Ok None | Panic => Panic | Hang => Hang end,
   {| io_address_space := io_address_space s; platform_mmio_address_space := platform_mmio_address_space s; gsi_allocator := g |}).

Definition sys_allocate_irq : M SystemAllocator Error (option Z) := on_gsi allocate_irq.
Definition sys_allocate_gsi : M SystemAllocator Error (option Z) := on_gsi allocate_gsi.
Definition allocate_io_addresses (address : option Z) (size : Z) (align_size : option Z) : M SystemAllocator Error (option Z) :=
  on_io (allocate address size (Some (default 1 align_size))).
Definition allocate_platform_mmio_addresses (get_page_size : Z) (address : option Z) (size : Z) (align_size : option Z)
    : M SystemAllocator Error (option Z) :=
  on_mmio (allocate address size (Some (default get_page_size align_size))).
Definition free_io_addresses (address size : Z) : M SystemAllocator Error unit := on_io (modify (free address size)).
Definition free_platform_mmio_addresses (address size : Z) : M SystemAllocator Error unit :=
  on_mmio (modify (free address size)).
End address.

(** ** Page sizes *)
Definition align_page_size_up {E} (page_size address : Z) : res E Z :=
  s ← uadd address page_size;
  s1 ← usub s 1;
  m ← usub page_size 1;
  Ok (Z.land s1 (unot m)).
Definition align_page_size_down {E} (page_size address : Z) : res E Z :=
  m ← usub page_size 1; Ok (Z.land address (unot m)).
Definition is_4k_aligned (address : Z) : bool := Z.land address 4095 =? 0.
Definition is_page_size_aligned {E} (page_size address : Z) : res E bool :=
  m ← usub page_size 1; Ok (Z.land address m =? 0).

(** ** The ranges in use *)

(** The end of the last range, or the lowest address. *)
Definition last_end (lo : Z) (l : list (Z * Z)) : Z :=
  match last l with Some (s, n) => s + n | None => lo end.

(** Ranges in order, from [lo] on, that do not overlap. *)
Fixpoint ordered (lo : Z) (l : list (Z * Z)) : Prop :=
  match l with
  | [] => True
  | (s, n) :: l' => lo ≤ s ∧ 0 < n ∧ ordered (s + n) l'
  end.

(** The allocator's ranges are [live], and the marker after its last address. *)
Definition holds (a : AddressAllocator) (live : list (Z * Z)) : Prop :=
  0 ≤ base a ≤ end_ a ∧ end_ a + 1 < 2 ^ 64 ∧ ranges a = live ++ [(end_ a + 1, 0)] ∧
  ordered (base a) live ∧ last_end (base a) live ≤ end_ a + 1.

(** [size] addresses from [x] on are part of the managed region and of no range. *)
Definition fits (a : AddressAllocator) (live : list (Z * Z)) (x size : Z) : Prop :=
  base a ≤ x ∧ x + size ≤ end_ a + 1 ∧ ∀ s n, (s, n) ∈ live → x + size ≤ s ∨ s + n ≤ x.

(** The same, by the place in the list: between the end of what comes before and the
    start of the next range. *)
Definition gap (lo : Z) (l : list (Z * Z)) (x size : Z) : Prop :=
  ∃ pre s n post, l = pre ++ (s, n) :: post ∧ last_end lo pre ≤ x ∧ x + size ≤ s.

(** [o] is the greatest number with [P], and [None] where there is none. *)
Definition greatest (P : Z → Prop) (o : option Z) : Prop :=
  match o with Some y => P y ∧ ∀ y', P y' → y' ≤ y | None => ∀ y, ¬ P y end.

(** The next multiple of [al]. *)
Definition up (x al : Z) : Z := x + (if x mod al =? 0 then 0 else al - x mod al).

(** ** Lemmas on ordered ranges *)
Section ordered_ranges.
Implicit Types (l pre post live : list (Z * Z)).

Lemma last_end_snoc lo l s n : last_end lo (l ++ [(s, n)]) = s + n.
Proof. unfold last_end. by rewrite last_snoc. Qed.

Lemma last_end_cons lo s n l : last_end lo ((s, n) :: l) = last_end (s + n) l.
Proof. unfold last_end. rewrite last_cons. by destruct (last l). Qed.

Lemma ordered_app lo l1 l2 : ordered lo (l1 ++ l2) ↔ ordered lo l1 ∧ ordered (last_end lo l1) l2.
Proof.
  revert lo. induction l1 as [|[s n] l1 IH]; intros lo; simpl; [naive_solver|].
  rewrite IH, last_end_cons. naive_solver.
Qed.

Lemma ordered_last_end lo l : ordered lo l → lo ≤ last_end lo l.
Proof.
  revert lo. induction l as [|[s n] l IH]; intros lo; [done|]. intros (? & ? & H). rewrite last_end_cons.
  specialize (IH _ H). lia.
Qed.

Lemma ordered_mono lo lo' l : lo' ≤ lo → ordered lo l → ordered lo' l.
Proof. intros ?. destruct l as [|[s n] l]; [done|]. intros (? & ? & ?). split; [lia|done]. Qed.

Lemma ordered_in lo l s n : ordered lo l → (s, n) ∈ l → lo ≤ s ∧ 0 < n ∧ s + n ≤ last_end lo l.
Proof.
  intros Ho (pre & post & ->)%list_elem_of_split. apply ordered_app in Ho as [H1 (H2 & H3 & H4)].
  pose proof (ordered_last_end _ _ H1). apply ordered_last_end in H4.
  assert (last_end lo (pre ++ (s, n) :: post) = last_end (s + n) post) as ->; [|lia].
  clear. revert lo. induction pre as [|[s' n'] pre IH]; intros lo; simpl; [apply last_end_cons|].
  by rewrite last_end_cons.
Qed.

(** A gap of a list of ranges with the marker is a stretch that fits. *)
Lemma gap_fits a live x size : holds a live → 0 < size → gap (base a) (ranges a) x size ↔ fits a live x size.
Proof.
  intros (Hb & He & Hr & Ho & Hl) Hs. rewrite Hr. split.
  - intros (pre & s & n & post & E & H1 & H2).
    destruct post as [|p post _] using rev_ind.
    + apply app_inj_tail in E as [-> [= <- <-]]. pose proof (ordered_last_end _ _ Ho).
      split; [lia|]. split; [lia|]. intros s n Hin. pose proof (ordered_in _ _ _ _ Ho Hin). lia.
    + rewrite app_comm_cons, app_assoc in E. apply app_inj_tail in E as [-> <-].
      apply ordered_app in Ho as [Ho1 Ho2]. pose proof (ordered_last_end _ _ Ho1).
      destruct Ho2 as (? & ? & Ho2). pose proof (ordered_last_end _ _ Ho2).
      assert (last_end (base a) (pre ++ (s, n) :: post) = last_end (s + n) post) as El.
      { unfold last_end. rewrite last_app, last_cons. by destruct (last post). }
      split; [lia|]. split; [lia|]. intros s' n' [Hin|Hin]%elem_of_app.
      * pose proof (ordered_in _ _ _ _ Ho1 Hin). lia.
      * apply elem_of_cons in Hin as [[= -> ->]|Hin]; [lia|]. pose proof (ordered_in _ _ _ _ Ho2 Hin). lia.
  - intros (H1 & H2 & H3). clear Hr Hb He. revert H1 H3 Ho Hl. generalize (base a) as lo.
    induction live as [|[s n] live IH]; intros lo H1 H3 Ho Hl; simpl.
    + by exists [], (end_ a + 1), 0, [].
    + destruct Ho as (? & ? & Ho). rewrite last_end_cons in Hl.
      destruct (H3 s n ltac:(left)) as [?|?]; [by exists [], s, n, (live ++ [(end_ a + 1, 0)])|].
      destruct (IH (s + n)) as (pre & s' & n' & post & E & ? & ?); [done| |done|done|].
      { intros ???. apply H3. by right. }
      exists ((s, n) :: pre), s', n', post. rewrite last_end_cons. split; [by rewrite E|done].
Qed.

Lemma gap_cons lo s n l x size :
  gap lo ((s, n) :: l) x size ↔ (lo ≤ x ∧ x + size ≤ s) ∨ gap (s + n) l x size.
Proof.
  split.
  - intros ([|[s' n'] pre] & s1 & n1 & post & [= -> E] & H1 & H2); [left; simplify_eq; done|right].
    simplify_eq. exists pre, s1, n1, post. by rewrite last_end_cons in H1.
  - intros [?|(pre & s1 & n1 & post & -> & ? & ?)]; [by exists [], s, n, l|].
    exists ((s, n) :: pre), s1, n1, post. by rewrite last_end_cons.
Qed.

Lemma gap_low lo l x size : ordered lo l → ∀ e, gap lo (l ++ [(e, 0)]) x size → lo ≤ x.
Proof.
  revert lo. induction l as [|[s n] l IH]; intros lo Ho e; simpl; rewrite gap_cons.
  - intros [?|([] & ? & ? & ? & ? & _)]; [lia|done..].
  - destruct Ho as (? & ? & Ho). intros [?|Hg]; [lia|]. apply IH in Hg; [lia|done].
Qed.

(** The inserted range stands in its gap. *)
Lemma bt_insert_gap lo live e x size :
  ordered lo live → last_end lo live ≤ e → 0 < size → gap lo (live ++ [(e, 0)]) x size →
  ∃ live', bt_insert x size (live ++ [(e, 0)]) = live' ++ [(e, 0)] ∧ ordered lo live' ∧ last_end lo live' ≤ e ∧
    live' ≡ₚ (x, size) :: live ∧ bt_get x (live' ++ [(e, 0)]) = Some size ∧
    bt_remove x (live' ++ [(e, 0)]) = live ++ [(e, 0)].
Proof.
  intros Ho Hl Hs. revert lo Ho Hl. induction live as [|[s n] live IH]; intros lo Ho Hl; cbn [app]; rewrite gap_cons.
  - intros [?|([] & ? & ? & ? & ? & _)]; [|done..]. exists [(x, size)]. cbn [bt_insert app bt_get bt_remove].
    rewrite Z.eqb_refl. destruct (Z.ltb_spec x e); [|lia]. split; [done|]. cbn [ordered].
    split; [lia|]. unfold last_end. simpl. split; [lia|done].
  - destruct Ho as (? & ? & Ho). rewrite last_end_cons in Hl. cbn [bt_insert]. intros [?|Hg].
    + destruct (Z.ltb_spec x s); [|lia]. exists ((x, size) :: (s, n) :: live).
      cbn [app bt_get bt_remove ordered]. rewrite Z.eqb_refl. split; [done|].
      split; [split; [lia|split; [done|split; [lia|done]]]|]. by rewrite !last_end_cons.
    + pose proof (gap_low _ _ _ _ Ho _ Hg).
      destruct (Z.ltb_spec x s); [lia|]. destruct (Z.eqb_spec x s); [lia|].
      destruct (IH _ Ho Hl Hg) as (live' & -> & ? & ? & Hp & Hget & Hrem). exists ((s, n) :: live').
      cbn [app bt_get bt_remove ordered]. destruct (Z.eqb_spec x s); [lia|]. rewrite last_end_cons, Hrem.
      split_and!; try done. by rewrite Hp, Permutation_swap.
Qed.
End ordered_ranges.

(** ** The searches *)
Section searches.
Context {G : GuestAddressOps} {GL : GuestAddressLaws}.

Lemma up_spec x al : 0 < al → (al | up x al) ∧ x ≤ up x al < x + al ∧ ∀ y, (al | y) → x ≤ y → up x al ≤ y.
Proof.
  intros Hal. unfold up. pose proof (Z.mod_pos_bound x al Hal). pose proof (Z.div_mod x al ltac:(lia)).
  destruct (Z.eqb_spec (x mod al) 0).
  - split; [exists (x / al); lia|]. split; [lia|]. intros; lia.
  - split; [exists (x / al + 1); lia|]. split; [lia|]. intros y [q ->] Hy.
    assert (x / al < q) by nia. nia.
Qed.

Lemma align_address_ok x al : 0 < al → 0 ≤ x → up x al < 2 ^ 64 → al < 2 ^ 64 → align_address x al = Ok (up x al).
Proof.
  intros Hal Hx Hu Hal'. destruct (up_spec x al Hal) as (_ & ? & _). unfold align_address, is_multiple_of, urem.
  destruct (Z.eqb_spec al 0); [lia|]. unfold up in *. pose proof (Z.mod_pos_bound x al Hal).
  destruct (Z.eqb_spec (x mod al) 0); cbn [mbind res_bind].
  - apply unchecked_add_ok. unfold is_u64. lia.
  - rewrite usub_ok by (unfold is_u64; lia). apply unchecked_add_ok. unfold is_u64. lia.
Qed.

Lemma search_from_spec x size e live : ∀ lo,
  0 ≤ x ≤ e → e < 2 ^ 64 → 0 < size → ordered lo live → last_end lo live ≤ e → 0 ≤ lo →
  (search_from x size lo (live ++ [(e, 0)]) = Ok x ∧ gap lo (live ++ [(e, 0)]) x size) ∨
  (∃ err, search_from x size lo (live ++ [(e, 0)]) = Err err ∧ ¬ gap lo (live ++ [(e, 0)]) x size).
Proof.
  induction live as [|[s n] live IH]; intros lo Hx He Hs Ho Hl Hlo; cbn [app search_from]; setoid_rewrite gap_cons.
  - destruct (Z.leb_spec x e); [|lia]. destruct (Z.ltb_spec x lo).
    { right. eexists. split; [done|]. intros [?|([] & ? & ? & ? & ? & _)]; [lia|done..]. }
    rewrite unchecked_sub_ok by (unfold is_u64; lia). cbn [mbind res_bind]. destruct (Z.ltb_spec (e - x) size).
    + right. eexists. split; [done|]. intros [?|([] & ? & ? & ? & ? & _)]; [lia|done..].
    + left. split; [done|]. left. lia.
  - destruct Ho as (? & ? & Ho). rewrite last_end_cons in Hl. pose proof (ordered_last_end _ _ Ho).
    destruct (Z.leb_spec x s).
    + assert (¬ gap (s + n) (live ++ [(e, 0)]) x size) by (intros ?%gap_low; [lia|done]).
      destruct (Z.ltb_spec x lo); [right; eexists; split; [done|]; intros [?|?]; [lia|done]|].
      rewrite unchecked_sub_ok by (unfold is_u64; lia). cbn [mbind res_bind]. destruct (Z.ltb_spec (s - x) size).
      * right. eexists. split; [done|]. intros [?|?]; [lia|done].
      * left. split; [done|]. left. lia.
    + rewrite unchecked_add_ok by (unfold is_u64; lia). cbn [mbind res_bind].
      destruct (IH (s + n)) as [[-> ?]|(err & -> & Hn)]; try done; [lia| |].
      * left. split; [done|]. by right.
      * right. eexists. split; [done|]. intros [?|?]; [lia|done].
Qed.

Lemma multiple_le al a b : 0 < al → (al | a) → (al | b) → a - al < b → a ≤ b.
Proof. intros ? [p ->] [q ->] ?. assert (p ≤ q) by nia. nia. Qed.

Lemma gap_snoc lo live e m x size :
  gap lo (live ++ [(e, m)]) x size ↔ gap lo live x size ∨ (last_end lo live ≤ x ∧ x + size ≤ e).
Proof.
  revert lo. induction live as [|[s n] live IH]; intros lo; simpl; rewrite gap_cons.
  - split; [|by intros [([] & ? & ? & ? & ? & _)|?]; [..|left]].
    intros [?|([] & ? & ? & ? & ? & _)]; [by right|done..].
  - rewrite IH, gap_cons, last_end_cons. tauto.
Qed.

(** A gap ends before the ranges do. *)
Lemma gap_high lo live x size : ordered lo live → 0 < size → gap lo live x size → x + size ≤ last_end lo live.
Proof.
  intros Ho Hs (pre & s & n & post & -> & _ & ?). destruct (ordered_in lo _ s n Ho) as (_ & ? & ?); [set_solver|lia].
Qed.

(** One turn of the loop, with [prev] the end of the ranges below. *)
Lemma search_back_step lo size al prev e m l :
  match l with [] => Ok lo | (a, s) :: _ => unchecked_add a s end = Ok prev →
  al - 1 ≤ prev → 0 < al → 0 < size → prev ≤ e → e + al ≤ 2 ^ 64 → e < 2 ^ 64 →
  search_back lo size al ((e, m) :: l) =
    if up prev al + size <=? e then Ok (Some (up (e - (size + (al - 1))) al)) else search_back lo size al l.
Proof.
  intros Hp Hlo Hal Hs He H64 He'. cbn [search_back]. rewrite Hp. cbn [mbind res_bind].
  destruct (up_spec prev al Hal) as (_ & Hu & _). rewrite align_address_ok by lia. cbn [mbind res_bind].
  rewrite ga_checked_sub_eq. unfold in_u64, saturating_sub. destruct (Z.leb_spec 0 (e - up prev al)); cbn [andb].
  2: { destruct (Z.leb_spec (up prev al + size) e); [lia|done]. }
  destruct (Z.ltb_spec (e - up prev al) (2 ^ 64)); [|lia].
  destruct (Z.leb_spec size (e - up prev al)), (Z.leb_spec (up prev al + size) e); try lia; [|done].
  assert (Z.max 0 (al - 1) = al - 1) as -> by lia. rewrite uadd_ok by (unfold is_u64; lia). cbn [mbind res_bind].
  rewrite unchecked_sub_ok by (unfold is_u64; lia). cbn [mbind res_bind].
  destruct (up_spec (e - (size + (al - 1))) al Hal) as (_ & ? & _). by rewrite align_address_ok by lia.
Qed.

(** The highest multiple below the end of a gap. *)
Lemma up_top size al prev e :
  0 < al → up prev al + size ≤ e →
  let y := up (e - (size + (al - 1))) al in
  (al | y) ∧ prev ≤ y ∧ y + size ≤ e ∧ ∀ y', (al | y') → y' + size ≤ e → y' ≤ y.
Proof.
  intros Hal Hle y. destruct (up_spec prev al Hal) as (Hd & ? & _).
  destruct (up_spec (e - (size + (al - 1))) al Hal) as (Hd' & ? & _). fold y in Hd', H0.
  assert (∀ y', (al | y') → y' + size ≤ e → y' ≤ y) as Hmax by (intros; apply (multiple_le al); [done..|lia]).
  pose proof (Hmax _ Hd Hle). split; [done|]. split; [lia|]. split; [lia|done].
Qed.

Lemma greatest_ext (P Q : Z → Prop) o : (∀ y, P y ↔ Q y) → greatest P o → greatest Q o.
Proof. intros H. destruct o; simpl; setoid_rewrite H; done. Qed.

Lemma search_back_spec lo size al live : ∀ e m,
  al - 1 ≤ lo → 0 < al → 0 < size → ordered lo live → last_end lo live ≤ e → e + al ≤ 2 ^ 64 → e < 2 ^ 64 →
  ∃ o, search_back lo size al ((e, m) :: reverse live) = Ok o ∧
    greatest (λ y, (al | y) ∧ gap lo (live ++ [(e, m)]) y size) o.
Proof.
  induction live as [|[s n] live IH] using rev_ind; intros e m Hlo Hal Hs Ho Hl He He'.
  - unfold last_end in *. simpl last in *. rewrite (search_back_step _ _ _ lo) by done.
    assert (∀ y, gap lo [(e, m)] y size ↔ lo ≤ y ∧ y + size ≤ e) as Hg.
    { intros y. rewrite gap_cons. split; [intros [?|([] & ? & ? & ? & ? & _)]; done|by left]. }
    destruct (up_spec lo al Hal) as (_ & _ & Hu).
    destruct (Z.leb_spec (up lo al + size) e); (eexists; split; [done|]); simpl; setoid_rewrite Hg.
    + destruct (up_top size al lo e) as (? & ? & ? & ?); [done..|]. naive_solver.
    + intros y (Hd & ? & ?). specialize (Hu y Hd). lia.
  - rewrite reverse_app. cbn [reverse rev_append app]. apply ordered_app in Ho as [Ho (? & ? & _)].
    pose proof (ordered_last_end _ _ Ho). rewrite last_end_snoc in Hl.
    rewrite (search_back_step _ _ _ (s + n)) by (try lia; apply unchecked_add_ok; unfold is_u64; lia).
    assert (∀ y, gap lo ((live ++ [(s, n)]) ++ [(e, m)]) y size ↔
      gap lo (live ++ [(s, n)]) y size ∨ (s + n ≤ y ∧ y + size ≤ e)) as Hg.
    { intros y. by rewrite gap_snoc, last_end_snoc. }
    destruct (up_spec (s + n) al Hal) as (_ & _ & Hu). destruct (Z.leb_spec (up (s + n) al + size) e).
    + destruct (up_top size al (s + n) e) as (? & ? & ? & Hmax); [done..|]. eexists. split; [done|].
      simpl. setoid_rewrite Hg. split; [split; [done|by right]|]. intros y' [Hd Hy]. apply Hmax; [done|].
      destruct Hy as [Hy|[_ ?]]; [|done]. apply gap_snoc in Hy as [Hy|[? ?]]; [|lia].
      apply gap_high in Hy; [lia|done..].
    + destruct (IH s n) as (o & Hsb & Ho'); try done; [lia..|]. exists o. split; [exact Hsb|].
      revert Ho'. apply greatest_ext. intros y. rewrite Hg. split; [naive_solver|].
      intros (Hd & [?|[? ?]]); [done|]. specialize (Hu y Hd). lia.
Qed.

(** ** One operation *)
Lemma address_new_spec b size a :
  is_u64 b → is_u64 size → address_new b size = Some a → base a = b ∧ end_ a = b + size - 1 ∧ holds a [].
Proof.
  intros [? ?] [? ?]. unfold address_new. rewrite !ga_checked_add_eq. unfold in_u64, mbind, option_bind.
  destruct (Z.eqb_spec size 0); [done|]. destruct (Z.ltb_spec (b + (size - 1)) (2 ^ 64)); [|by rewrite andb_false_r].
  destruct (Z.ltb_spec (b + size) (2 ^ 64)); [|rewrite !andb_false_r; by destruct (_ && _)].
  destruct (Z.leb_spec 0 (b + (size - 1))); [|lia]. destruct (Z.leb_spec 0 (b + size)); [|lia].
  simpl. intros [= <-]. simpl. split; [done|]. split; [lia|]. unfold holds. simpl. split; [lia|]. split; [lia|].
  split; [by replace (b + (size - 1) + 1) with (b + size) by lia|]. split; [done|]. unfold last_end. simpl. lia.
Qed.

Lemma available_range_spec a live r size al :
  holds a live → 0 < size → 0 < al < 2 ^ 64 → 0 ≤ r → r + al ≤ 2 ^ 64 →
  (available_range a r size al = Ok r ∧ (al | r) ∧ r < end_ a ∧ gap (base a) (ranges a) r size) ∨
  (∃ err, available_range a r size al = Err err ∧ ¬ ((al | r) ∧ r < end_ a ∧ gap (base a) (ranges a) r size)).
Proof.
  intros (Hb & He & Hr & Ho & Hl) Hs [Hal Hal'] Hr0 H64. unfold available_range.
  destruct (up_spec r al Hal) as (Hd & Hu & Hmin). rewrite align_address_ok by lia. cbn [mbind res_bind].
  destruct (Z.eqb_spec (up r al) r) as [E|E]; cbn [negb].
  2: { right. eexists. split; [done|]. intros (Hd' & _). apply E. specialize (Hmin r Hd'). lia. }
  rewrite E in *. rewrite Hr.
  destruct (Z.leb_spec (end_ a) r); [right; eexists; split; [done|]; intros (_ & ? & _); lia|].
  destruct (Z.ltb_spec r (base a)); cbn [orb].
  { right. eexists. split; [done|]. intros (_ & _ & ?%gap_low); [lia|done]. }
  destruct (search_from_spec r size (end_ a + 1) live (base a)) as [[-> ?]|(err & -> & ?)]; try done; [lia..| |].
  - by left.
  - right. eexists. split; [done|]. tauto.
Qed.

(** What a successful search leaves. *)
Lemma insert_range_spec a live y size :
  holds a live → 0 < size → gap (base a) (ranges a) y size →
  ∃ live', holds (insert_range a y size) live' ∧ live' ≡ₚ (y, size) :: live ∧ free y size (insert_range a y size) = a.
Proof.
  intros (Hb & He & Hr & Ho & Hl) Hs Hg. rewrite Hr in Hg.
  destruct (bt_insert_gap _ _ _ _ _ Ho Hl Hs Hg) as (live' & E & Ho' & Hl' & Hp & Hget & Hrem).
  exists live'. unfold holds, insert_range, free. simpl. rewrite Hr, E, Hget, Z.eqb_refl, Hrem.
  split; [done|]. split; [done|]. destruct a. simpl in *. by subst.
Qed.

(** The specification of [allocate]: which address it gives, and what becomes of the
    ranges. *)
Definition allocates (a : AddressAllocator) (live : list (Z * Z)) (address : option Z) (size al : Z)
    (o : option Z) (a' : AddressAllocator) : Prop :=
  greatest (λ y, (al | y) ∧ fits a live y size ∧
                 match address with Some r => y = r ∧ r < end_ a | None => True end) o ∧
  match o with
  | Some y => ∃ live', holds a' live' ∧ live' ≡ₚ (y, size) :: live ∧ free y size a' = a
  | None => a' = a
  end.

Lemma power_of_two_pos al : is_power_of_two al = true → 0 < al.
Proof. unfold is_power_of_two. rewrite andb_true_iff, Z.ltb_lt. tauto. Qed.

Lemma allocate_run a live address size align_size al :
  holds a live → 0 < size → al = default 4 align_size → is_power_of_two al = true →
  al - 1 ≤ base a → end_ a + 1 + al ≤ 2 ^ 64 → (∀ r, address = Some r → 0 ≤ r ∧ r + al ≤ 2 ^ 64) →
  ∃ o a', allocate address size align_size a = (Ok o, a') ∧ allocates a live address size al o a'.
Proof.
  intros Hh Hs Eal Hp Hlo Hhi Hr. pose proof (power_of_two_pos _ Hp) as Hal. unfold allocate, allocates.
  destruct (Z.eqb_spec size 0); [lia|]. rewrite <-Eal, Hp. cbn [negb].
  unfold mbind, M_bind, get, lift, modify, mret, M_ret. pose proof (λ y, gap_fits a live y size Hh Hs) as Hgf.
  destruct address as [r|].
  - destruct (Hr r eq_refl) as [Hr0 Hr1].
    destruct (available_range_spec a live r size al) as [(-> & Hd & Hlt & Hg)|(err & -> & Hn)]; try done; [pose proof Hh as (? & ? & _); lia|..].
    + exists (Some r). eexists. split; [done|]. split.
      * apply Hgf in Hg. simpl. naive_solver lia.
      * by apply insert_range_spec.
    + exists None. eexists. split; [done|]. split; [|done]. intros y (? & Hf & -> & ?). apply Hgf in Hf. tauto.
  - unfold first_available_range. pose proof Hh as (Hb & He & Hra & Ho & Hl).
    rewrite Hra, reverse_app. cbn [reverse rev_append app].
    destruct (search_back_spec (base a) size al live (end_ a + 1) 0) as (o & Hsb & Hbest); try done.
    unfold reverse in *. rewrite Hsb. rewrite <-Hra in Hbest. exists o.
    assert (greatest (λ y, (al | y) ∧ fits a live y size ∧ True) o) as Hb'.
    { revert Hbest. apply greatest_ext. intros y. rewrite Hgf. tauto. }
    destruct o as [y|]; (eexists; split; [done|]); (split; [exact Hb'|]); [|done].
    apply insert_range_spec; [done|done|]. by destruct Hbest as [[_ ?] _].
Qed.

Lemma bt_live lo live e x n :
  ordered lo live → last_end lo live ≤ e → x ≠ e →
  match bt_get x (live ++ [(e, 0)]) with
  | Some m => (x, m) ∈ live ∧ ∃ live', bt_remove x (live ++ [(e, 0)]) = live' ++ [(e, 0)] ∧
      live ≡ₚ (x, m) :: live' ∧ ordered lo live' ∧ last_end lo live' ≤ e
  | None => (x, n) ∉ live
  end.
Proof.
  intros Ho Hl Hx. revert lo Ho Hl. induction live as [|[s m] live IH]; intros lo Ho Hl; cbn [app bt_get bt_remove].
  - destruct (Z.eqb_spec x e); [done|]. apply not_elem_of_nil.
  - destruct Ho as (? & ? & Ho). rewrite last_end_cons in Hl. destruct (Z.eqb_spec x s) as [->|Hne].
    + split; [left|]. exists live. split; [done|]. split; [done|]. split; [by apply (ordered_mono (s + m)); [lia|]|].
      destruct live as [|[]]; [|by rewrite last_end_cons in *]. unfold last_end in *. simpl in *. lia.
    + specialize (IH _ Ho Hl). destruct (bt_get _ _) as [m'|].
      * destruct IH as (? & live' & -> & Hp & ? & ?). split; [by right|]. exists ((s, m) :: live').
        rewrite last_end_cons. split; [done|]. split; [by rewrite Hp, Permutation_swap|done].
      * intros [[=]|?]%elem_of_cons; done.
Qed.

Lemma free_run a live x n :
  holds a live → (x, n) ≠ (end_ a + 1, 0) →
  ((x, n) ∈ live ∧ ∃ live', holds (free x n a) live' ∧ live ≡ₚ (x, n) :: live') ∨ ((x, n) ∉ live ∧ free x n a = a).
Proof.
  intros (Hb & He & Hr & Ho & Hl) Hne. unfold free. rewrite Hr. destruct (decide (x = end_ a + 1)) as [->|Hx].
  - right. split.
    { intros Hin. destruct (ordered_in _ _ _ _ Ho Hin) as (_ & ? & ?). lia. }
    assert (bt_get (end_ a + 1) (live ++ [(end_ a + 1, 0)]) = Some 0) as ->.
    { clear Hr Hne. revert Ho Hl. generalize (base a). induction live as [|[s m] live IH]; intros lo Ho Hl; simpl.
      - by rewrite Z.eqb_refl.
      - destruct Ho as (? & ? & Ho). rewrite last_end_cons in Hl. pose proof (ordered_last_end _ _ Ho).
        destruct (Z.eqb_spec (end_ a + 1) s); [lia|]. by apply (IH (s + m)). }
    destruct (Z.eqb_spec n 0); [congruence|done].
  - pose proof (bt_live _ _ _ x n Ho Hl Hx) as Hbt. destruct (bt_get _ _) as [m|]; [|by right].
    destruct Hbt as (Hin & live' & E & Hp & ? & ?). destruct (Z.eqb_spec n m) as [->|Hnm].
    + left. split; [done|]. exists live'. unfold holds. simpl. by rewrite E.
    + right. split; [|done]. intros Hin'. apply Hnm.
      apply list_elem_of_split in Hin as (l1 & l2 & ->). apply ordered_app in Ho as [Ho1 (Ho2 & ? & Ho3)].
      apply elem_of_app in Hin' as [Hin'|[[= ?]|Hin']%elem_of_cons].
      * destruct (ordered_in _ _ _ _ Ho1 Hin') as (_ & ? & ?). lia.
      * done.
      * destruct (ordered_in _ _ _ _ Ho3 Hin') as (? & _). lia.
Qed.
End searches.

(** ** The system's resources over time *)
Inductive sys_op :=
| AllocateIrq
| AllocateGsi
| AllocateIo (address : option Z) (size : Z) (align_size : option Z)
| AllocateMmio (address : option Z) (size : Z) (align_size : option Z)
| FreeIo (address size : Z)
| FreeMmio (address size : Z).

(** What callers hold. *)
Record owned := { o_io : list (Z * Z); o_mmio : list (Z * Z); o_irqs : list Z; o_gsis : list Z }.
Definition nothing : owned := {| o_io := []; o_mmio := []; o_irqs := []; o_gsis := [] |}.

Definition push {A} (f : Z → A) (o : option Z) (l : list A) : list A := match o with Some x => f x :: l | None => l end.
Definition record (op : sys_op) (o : option Z) (w : owned) : owned :=
  {| o_io := match op with
             | AllocateIo _ size _ => push (λ x, (x, size)) o (o_io w)
             | FreeIo x n => filter (λ p, p ≠ (x, n)) (o_io w)
             | _ => o_io w end;
     o_mmio := match op with
               | AllocateMmio _ size _ => push (λ x, (x, size)) o (o_mmio w)
               | FreeMmio x n => filter (λ p, p ≠ (x, n)) (o_mmio w)
               | _ => o_mmio w end;
     o_irqs := match op with AllocateIrq => push id o (o_irqs w) | _ => o_irqs w end;
     o_gsis := match op with AllocateGsi => push id o (o_gsis w) | _ => o_gsis w end |}.

(** A request that stays within 64 bits, whatever it asks for; a caller that does not
    free the marker. *)
Definition request_ok (a : AddressAllocator) (address : option Z) (size al : Z) : Prop :=
  0 ≤ size ∧ al - 1 ≤ base a ∧ end_ a + 1 + al ≤ 2 ^ 64 ∧ ∀ r, address = Some r → 0 ≤ r ∧ r + al ≤ 2 ^ 64.
Definition op_ok (page_size : Z) (s : SystemAllocator) (op : sys_op) : Prop :=
  match op with
  | AllocateIrq | AllocateGsi => True
  | AllocateIo address size al => request_ok (io_address_space s) address size (default 1 al)
  | AllocateMmio address size al => request_ok (platform_mmio_address_space s) address size (default page_size al)
  | FreeIo x n => (x, n) ≠ (end_ (io_address_space s) + 1, 0)
  | FreeMmio x n => (x, n) ≠ (end_ (platform_mmio_address_space s) + 1, 0)
  end.

Section system.
Context {G : GuestAddressOps} {GL : GuestAddressLaws}.
Context (page_size : Z).

Definition no_result (m : M SystemAllocator Error unit) : M SystemAllocator Error (option Z) := _ ← m; mret None.
Definition sys_exec (op : sys_op) : M SystemAllocator Error (option Z) :=
  match op with
  | AllocateIrq => sys_allocate_irq
  | AllocateGsi => sys_allocate_gsi
  | AllocateIo address size al => allocate_io_addresses address size al
  | AllocateMmio address size al => allocate_platform_mmio_addresses page_size address size al
  | FreeIo x n => no_result (free_io_addresses x n)
  | FreeMmio x n => no_result (free_platform_mmio_addresses x n)
  end.

Inductive sys_reach (s0 : SystemAllocator) : SystemAllocator → owned → Prop :=
| sys_start : sys_reach s0 s0 nothing
| sys_next s w op o s' :
    sys_reach s0 s w → op_ok page_size s op → sys_exec op s = (Ok o, s') → sys_reach s0 s' (record op o w).

(** The ranges callers hold are the allocator's. *)
Definition holds_of (a : AddressAllocator) (w : list (Z * Z)) : Prop := ∃ live, holds a live ∧ live ≡ₚ w.

Record sys_inv (b n : Z) (s : SystemAllocator) (w : owned) : Prop := {
  si_io : holds_of (io_address_space s) (o_io w);
  si_mmio : holds_of (platform_mmio_address_space s) (o_mmio w);
  si_apics : apics (gsi_allocator s) = [(b, n)] ∧ 0 < b ∧ b + n ≤ U32_MAX;
  si_next : b ≤ next_irq (gsi_allocator s) ≤ b + n ∧ b + n ≤ next_gsi (gsi_allocator s) ≤ U32_MAX;
  si_irqs : NoDup (o_irqs w) ∧ Forall (λ i, b ≤ i < next_irq (gsi_allocator s)) (o_irqs w);
  si_gsis : NoDup (o_gsis w) ∧ Forall (λ i, b + n ≤ i < next_gsi (gsi_allocator s)) (o_gsis w) }.

Lemma ordered_NoDup lo l : ordered lo l → NoDup l.
Proof.
  revert lo. induction l as [|[s n] l IH]; intros lo; [constructor|]. intros (? & ? & Ho). constructor; [|by eapply IH].
  intros Hin. destruct (ordered_in _ _ _ _ Ho Hin). lia.
Qed.

Lemma allocate_of a w address size al :
  holds_of a w → request_ok a address size al →
  ∃ o a', allocate address size (Some al) a = (Ok o, a') ∧ holds_of a' (push (λ x, (x, size)) o w) ∧
    base a' = base a ∧ end_ a' = end_ a.
Proof.
  intros (live & Hh & Hp) (Hs & Hlo & Hhi & Hr).
  destruct (decide (size = 0)) as [->|Hs0]; [by exists None, a; split; [|split; [exists live|]]|].
  destruct (is_power_of_two al) eqn:Hal.
  2: { exists None, a. unfold allocate. destruct (Z.eqb_spec size 0); [done|]. simpl. rewrite Hal.
       split; [done|]. by split; [exists live|]. }
  destruct (allocate_run a live address size (Some al) al) as (o & a' & E & [_ Ho]); try done; [lia|].
  exists o, a'. split; [done|]. destruct o as [y|]; simpl; [|subst a'; by split; [exists live|]].
  destruct Ho as (live' & Hh' & Hp' & <-). split; [exists live'; split; [done|]; by rewrite Hp', Hp|].
  unfold free. destruct (bt_get _ _); [|done]. by destruct (_ =? _).
Qed.

Lemma filter_other (p : Z * Z) (l : list (Z * Z)) : p ∉ l → filter (λ q, q ≠ p) l = l.
Proof.
  induction l as [|q l IH]; [done|]. intros [? ?]%not_elem_of_cons. rewrite filter_cons_True by done. by rewrite IH.
Qed.

Lemma free_of a w x n :
  holds_of a w → (x, n) ≠ (end_ a + 1, 0) → holds_of (free x n a) (filter (λ p, p ≠ (x, n)) w).
Proof.
  intros (live & Hh & Hp) Hne.
  assert (NoDup live) as Hnd by (destruct Hh as (_ & _ & _ & Ho & _); by eapply ordered_NoDup).
  destruct (free_run a live x n Hh Hne) as [(Hin & live' & Hh' & Hp')|[Hnin ->]].
  - exists live'. split; [done|]. rewrite <-Hp, Hp', filter_cons_False by naive_solver.
    rewrite Hp' in Hnd. apply NoDup_cons in Hnd as [Hnin _]. by rewrite filter_other.
  - exists live. split; [done|]. by rewrite <-Hp, filter_other.
Qed.

Lemma push_spec (lo next next' : Z) l o :
  NoDup l ∧ Forall (λ i, lo ≤ i < next) l → (∀ x, o = Some x → x = next) → next' = (if o then next + 1 else next) →
  lo ≤ next → NoDup (push id o l) ∧ Forall (λ i, lo ≤ i < next') (push id o l).
Proof.
  intros [Hn Hf] Ho -> Hlo. destruct o as [x|]; simpl; [|done]. rewrite (Ho x) by done.
  split; [constructor; [|done]|constructor; [unfold id; lia|]].
  - unfold id. intros Hin. eapply Forall_forall in Hf; [|exact Hin]. lia.
  - eapply Forall_impl; [exact Hf|]. simpl. lia.
Qed.

Lemma irq_step b n s w :
  sys_inv b n s w → ∃ o s', sys_allocate_irq s = (Ok o, s') ∧ sys_inv b n s' (record AllocateIrq o w).
Proof.
  intros [Hio Hmm (Ha & Hb & Hm) [Hn Hg] Hi Hgs]. unfold sys_allocate_irq, on_gsi, allocate_irq. rewrite Ha.
  cbn [foldM try_apic]. destruct (Z.leb_spec b (next_irq (gsi_allocator s))); [|lia].
  unfold uadd32. destruct (Z.leb_spec (b + n) U32_MAX); [|lia]. cbn [mbind res_bind].
  destruct (Z.ltb_spec (next_irq (gsi_allocator s)) (b + n)).
  - destruct (Z.leb_spec (next_irq (gsi_allocator s) + 1) U32_MAX); [|lia]. cbn [mbind res_bind foldM].
    destruct (Z.eqb_spec (next_irq (gsi_allocator s)) 0); [lia|]. eexists _, _. split; [done|].
    split; try done; simpl; [lia|]. eapply (push_spec _ _ _ _ (Some _)); [done|naive_solver|done|lia].
  - simpl. eexists _, _. split; [done|]. by split.
Qed.

Lemma gsi_step b n s w :
  sys_inv b n s w → ∃ o s', sys_allocate_gsi s = (Ok o, s') ∧ sys_inv b n s' (record AllocateGsi o w).
Proof.
  intros [Hio Hmm (Ha & Hb & Hm) [Hn Hg] Hi Hgs]. unfold sys_allocate_gsi, on_gsi, allocate_gsi.
  destruct (Z.leb_spec (next_gsi (gsi_allocator s) + 1) U32_MAX); eexists _, _; (split; [done|]); split; try done; simpl; [lia|].
  eapply (push_spec _ _ _ _ (Some _)); [done|naive_solver|done|lia].
Qed.

Lemma sys_step b n s w op :
  sys_inv b n s w → op_ok page_size s op → ∃ o s', sys_exec op s = (Ok o, s') ∧ sys_inv b n s' (record op o w).
Proof.
  intros Hinv Hop. destruct op as [| |address size al|address size al|x m|x m]; cbn [sys_exec op_ok] in *.
  - by apply irq_step.
  - by apply gsi_step.
  - destruct Hinv as [Hio Hmm Ha Hn Hi Hg]. unfold allocate_io_addresses, on_io.
    destruct (allocate_of _ _ _ _ _ Hio Hop) as (o & a' & -> & Hh & _). exists o. eexists. by split.
  - destruct Hinv as [Hio Hmm Ha Hn Hi Hg]. unfold allocate_platform_mmio_addresses, on_mmio.
    destruct (allocate_of _ _ _ _ _ Hmm Hop) as (o & a' & -> & Hh & _). exists o. eexists. by split.
  - destruct Hinv as [Hio Hmm Ha Hn Hi Hg]. eexists _, _. split; [done|]. split; try done. by apply free_of.
  - destruct Hinv as [Hio Hmm Ha Hn Hi Hg]. eexists _, _. split; [done|]. split; try done. by apply free_of.
Qed.

Lemma system_new_inv io_base io_size mmio_base mmio_size apic s :
  is_u64 io_base → is_u64 io_size → is_u64 mmio_base → is_u64 mmio_size → 0 < apic_base apic → 0 ≤ apic_irqs apic →
  system_new io_base io_size mmio_base mmio_size [apic] = Ok (Some s) →
  sys_inv (apic_base apic) (apic_irqs apic) s nothing.
Proof.
  intros H1 H2 H3 H4 Hb Hi. unfold system_new. destruct (address_new io_base io_size) as [io|] eqn:Eio; [|done].
  destruct (address_new mmio_base mmio_size) as [mm|] eqn:Emm; [|done]. unfold gsi_new, foldM, add_apic, uadd32.
  destruct (Z.leb_spec (apic_base apic + apic_irqs apic) U32_MAX) as [Hle|]; [|done]. simpl. intros [= <-].
  apply address_new_spec in Eio as (_ & _ & Hio); [|done..]. apply address_new_spec in Emm as (_ & _ & Hmm); [|done..].
  split; simpl; [by exists []|by exists []|done| |by split; constructor..].
  destruct (Z.ltb_spec (apic_base apic) U32_MAX), (Z.ltb_spec 0 (apic_base apic + apic_irqs apic)); lia.
Qed.
End system.

(** ** Page sizes and memory slots *)

(** Rounding up to a page is the next multiple, rounding down the previous one, where
    the address is far enough from the end of the address space. *)
Lemma align_page_size_spec {E} k address :
  0 ≤ k < 64 → 0 ≤ address → address + 2 ^ k < 2 ^ 64 →
  @align_page_size_up E (2 ^ k) address = Ok (up address (2 ^ k)) ∧
  @align_page_size_down E (2 ^ k) address = Ok (address - address mod 2 ^ k).
Proof.
  intros Hk Ha H64. assert (0 < 2 ^ k) as Hp by (apply Z.pow_pos_nonneg; lia).
  unfold align_page_size_up, align_page_size_down.
  rewrite uadd_ok by (unfold is_u64; lia). cbn [mbind res_bind]. rewrite !usub_ok by (unfold is_u64; lia).
  cbn [mbind res_bind]. rewrite !land_unot_pow2 by (unfold is_u64; lia). split; [|done]. f_equal. unfold up.
  pose proof (Z.mod_pos_bound address (2 ^ k) Hp). pose proof (Z.div_mod address (2 ^ k) ltac:(lia)).
  destruct (Z.eqb_spec (address mod 2 ^ k) 0).
  - rewrite <-(Z.mod_unique_pos (address + 2 ^ k - 1) (2 ^ k) (address / 2 ^ k) (2 ^ k - 1)) by lia. lia.
  - rewrite <-(Z.mod_unique_pos (address + 2 ^ k - 1) (2 ^ k) (address / 2 ^ k + 1) (address mod 2 ^ k - 1)) by lia. lia.
Qed.

(** The slots in use and the released ones are different, and below the next one. *)
Definition slots_ok (m : MemorySlotAllocator) (used : list Z) : Prop :=
  NoDup (used ++ free_list m) ∧ Forall (λ x, 0 ≤ x < next_slot m) (used ++ free_list m).

Lemma next_memory_slot_spec m used :
  slots_ok m used → 0 ≤ next_slot m → next_slot m + 1 < 2 ^ 32 →
  let '(slot, m') := next_memory_slot m in slot ∉ used ∧ slots_ok m' (slot :: used).
Proof.
  unfold slots_ok, next_memory_slot. destruct m as [next [|slot l]]; simpl; intros [Hn Hf] H0 H32.
  - rewrite Z.mod_small by lia. rewrite app_nil_r in *. assert (next ∉ used) as Hnin.
    { intros Hin. eapply Forall_forall in Hf; [|exact Hin]. lia. }
    split; [done|]. split; [by constructor|]. constructor; [lia|]. eapply Forall_impl; [exact Hf|]. simpl. lia.
  - rewrite <-Permutation_middle in Hn, Hf. split; [|done]. apply NoDup_cons in Hn as [Hn _]. set_solver.
Qed.

Lemma free_memory_slot_spec m used slot :
  slots_ok m (slot :: used) → slots_ok (free_memory_slot slot m) used.
Proof. unfold slots_ok. simpl. by rewrite <-Permutation_middle. Qed.

(** ** Theorems *)

(** The two profiles: overflow panics, or it wraps around. *)
Definition development : GuestAddressOps :=
  {| unchecked_add := uadd; unchecked_sub := usub;
     ga_checked_add a b := if in_u64 (a + b) then Some (a + b) else None;
     ga_checked_sub a b := if in_u64 (a - b) then Some (a - b) else None |}.
Definition release : GuestAddressOps :=
  {| unchecked_add a b := Ok ((a + b) mod 2 ^ 64); unchecked_sub a b := Ok ((a - b) mod 2 ^ 64);
     ga_checked_add a b := if in_u64 (a + b) then Some (a + b) else None;
     ga_checked_sub a b := if in_u64 (a - b) then Some (a - b) else None |}.

Lemma development_laws : @GuestAddressLaws development.
Proof. split; try done; intros a b ?; [by apply uadd_ok|by apply usub_ok]. Qed.
Lemma release_laws : @GuestAddressLaws release.
Proof. split; try done; intros a b ?; simpl; by rewrite Z.mod_small. Qed.

(** C22: [allocate] against the set of free addresses.  Without an address it gives the
    highest aligned address from which the requested size is free, with one it gives
    that address exactly where it is aligned, free and not the last one, and [None] where
    there is none; a range it gives is added to the ranges in use, which stay disjoint
    and within the region, and freeing it restores the allocator.  The region starts at or
    above the alignment less one and ends, like the address, at least the alignment below
    2^64; below that start the search can underflow ([low_base_underflows]). *)
Theorem allocate_spec (G : GuestAddressOps) (GL : GuestAddressLaws) a live address size align_size al :
  holds a live → 0 < size → al = default 4 align_size → is_power_of_two al = true →
  al - 1 ≤ base a → end_ a + 1 + al ≤ 2 ^ 64 → (∀ r, address = Some r → 0 ≤ r ∧ r + al ≤ 2 ^ 64) →
  ∃ o a', allocate address size align_size a = (Ok o, a') ∧ allocates a live address size al o a'.
Proof. apply allocate_run. Qed.


(** The region of the documentation's example, and a system with one APIC. *)
Definition demo_region : AddressAllocator := {| base := 4096; end_ := 69631; ranges := [(69632, 0)] |}.
Definition demo_system : SystemAllocator :=
  {| io_address_space := {| base := 1; end_ := 65535; ranges := [(65536, 0)] |};
     platform_mmio_address_space := demo_region;
     gsi_allocator := {| apics := [(5, 19)]; next_irq := 5; next_gsi := 24 |} |}.

Lemma allocate_spec_witness :
  holds demo_region [] ∧
  ∃ o a', @allocate development None 272 (Some 256) demo_region = (Ok o, a') ∧
    allocates demo_region [] None 272 256 o a' ∧ o = Some 69120.
Proof.
  assert (holds demo_region []) as Hh by (unfold holds, last_end; simpl; repeat split; lia). split; [exact Hh|].
  destruct (allocate_spec development development_laws demo_region [] None 272 (Some 256) 256 Hh) as (o & a' & E & Ha);
    [lia|reflexivity|reflexivity|simpl; lia|simpl; lia|intros r [=]|].
  exists o, a'. split; [exact E|]. split; [exact Ha|]. vm_compute in E. by injection E as <- _.
Defined.


(** In a region from address 0 on, the subtraction of the alignment leaves 64 bits: it
    panics in the development profile, although the range is free. *)
Lemma low_base_underflows :
  let a := {| base := 0; end_ := 3; ranges := [(4, 0)] |} in
  (@allocate development None 4 None a).1 = Panic ∧ (@allocate release None 4 None a).1 = Ok (Some 0).
Proof. by split. Qed.

End Allocators.
