(* ===== verification/RateLimiter.v ===== *)
(** * The rate limiter

    Model of the crate [rate_limiter]: [TokenBucket], [RateLimiter] ([lib.rs]) and the
    group that shares one limiter between several users ([group.rs]).  A clock reading is
    an argument of the operation that makes it, in nanoseconds; the timer is the class
    [Timer].  The theorems bound what a bucket lets through, and say when a limiter
    that refuses a request wakes its user up again. *)

From Stdlib Require Import SpecFloat.
From S2P Require Import Prelude FloatTime Kernel.

Module RateLimiter.

Inductive Error := SpuriousRateLimiterEvent | TimerFdWaitError (e : io_error).

(** Milliseconds. *)
Definition REFILL_TIMER_INTERVAL_MS : Z := 100.
Definition NANOSEC_IN_ONE_MILLISEC : Z := 1000000.

Fixpoint gcd {E} (fuel : nat) (x y : Z) : res E Z :=
  match fuel with
  | O => Hang
  | S fuel' => if y =? 0 then Ok x else r ← urem x y; gcd fuel' y r
  end.

(** Enough turns for 64-bit numbers. *)
Definition gcd_fuel : nat := 130.

Inductive BucketReduction := Failure | Success | OverConsumption (ratio : spec_float).

Record TokenBucket := {
  size : Z; one_time_burst : Z; refill_time : Z;
  budget : Z; last_update : Z;
  processed_capacity : Z; processed_refill_time : Z }.

Definition bucket_new {E} (now size one_time_burst complete_refill_time_ms : Z) : res E (option TokenBucket) :=
  if (size =? 0) || (complete_refill_time_ms =? 0) then Ok None
  else
    complete_refill_time_ns ← umul complete_refill_time_ms NANOSEC_IN_ONE_MILLISEC;
    common_factor ← gcd gcd_fuel size complete_refill_time_ns;
    capacity ← udiv size common_factor;
    time ← udiv complete_refill_time_ns common_factor;
    Ok (Some {| size := size; one_time_burst := one_time_burst; refill_time := complete_refill_time_ms;
                budget := size; last_update := now; processed_capacity := capacity; processed_refill_time := time |}).

Definition with_state (b : TokenBucket) (burst bud last : Z) : TokenBucket :=
  {| size := size b; one_time_burst := burst; refill_time := refill_time b; budget := bud; last_update := last;
     processed_capacity := processed_capacity b; processed_refill_time := processed_refill_time b |}.

(** The budget after a refill: [self.budget += (time_delta * capacity) / refill_time], at
    most [self.size]. *)
Definition refilled {E} (b : TokenBucket) (time_delta : Z) : res E Z :=
  p ← umul time_delta (processed_capacity b);
  q ← udiv p (processed_refill_time b);
  s ← uadd (budget b) q;
  Ok (if size b <=? s then size b else s).

(** [t1] and [t2] are its two clock readings; where the burst is enough there is only
    one, [t2]. *)
Definition reduce {E} (b : TokenBucket) (tokens t1 t2 : Z) : res E (BucketReduction * TokenBucket) :=
  if (0 <? one_time_burst b) && (tokens <=? one_time_burst b) then
    Ok (Success, with_state b (one_time_burst b - tokens) (budget b) t2)
  else
    let tokens := if 0 <? one_time_burst b then tokens - one_time_burst b else tokens in
    let time_delta := duration_since t1 (last_update b) mod 2 ^ 64 in
    bud ← refilled b time_delta;
    if bud <? tokens then
      if size b <? tokens then
        rest ← usub tokens bud;
        Ok (OverConsumption (f64_div (f64_of_Z rest) (f64_of_Z (size b))), with_state b 0 0 t2)
      else Ok (Failure, with_state b 0 bud t2)
    else Ok (Success, with_state b 0 (bud - tokens) t2).

Definition replenish {E} (b : TokenBucket) (tokens : Z) : res E TokenBucket :=
  if 0 <? one_time_burst b then
    o ← uadd (one_time_burst b) tokens; Ok (with_state b o (budget b) (last_update b))
  else
    s ← uadd (budget b) tokens; Ok (with_state b (one_time_burst b) (Z.min s (size b)) (last_update b)).

(** ** The limiter *)
Inductive TokenType := Bytes | Ops.
Inductive BucketUpdate := NoUpdate | Disabled | Update (b : TokenBucket).

(** [TimerFd]: arming, and waiting without blocking. *)
Class Timer := {
  tst : Type;
  t_reset : Z → tst → (io_error + unit) * tst;
  t_wait : tst → (io_error + unit) * tst }.

Section limiter.
Context {T : Timer}.

Record RateLimiter := { bandwidth : option TokenBucket; ops : option TokenBucket; timer_fd : tst; timer_active : bool }.

Definition bucket (r : RateLimiter) (ty : TokenType) : option TokenBucket :=
  match ty with Bytes => bandwidth r | Ops => ops r end.
Definition set_bucket (ty : TokenType) (b : TokenBucket) (r : RateLimiter) : RateLimiter :=
  match ty with
  | Bytes => {| bandwidth := Some b; ops := ops r; timer_fd := timer_fd r; timer_active := timer_active r |}
  | Ops => {| bandwidth := bandwidth r; ops := Some b; timer_fd := timer_fd r; timer_active := timer_active r |}
  end.
Definition set_timer (t : tst) (active : bool) (r : RateLimiter) : RateLimiter :=
  {| bandwidth := bandwidth r; ops := ops r; timer_fd := t; timer_active := active |}.

(** [timer] is the outcome of creating the timer and making it not block. *)
Definition limiter_new (now b1 b2 b3 o1 o2 o3 : Z) (timer : io_error + tst) : res io_error RateLimiter :=
  bytes ← bucket_new now b1 b2 b3;
  ops ← bucket_new now o1 o2 o3;
  match timer with
  | inl e => Err e
  | inr t => Ok {| bandwidth := bytes; ops := ops; timer_fd := t; timer_active := false |}
  end.

Definition is_blocked (r : RateLimiter) : bool := timer_active r.

(** Milliseconds. *)
Definition activate_timer {E} (dur : Z) : M RateLimiter E unit := λ r,
  match t_reset dur (timer_fd r) with
  | (inr _, t) => (Ok tt, set_timer t true r)
  | (inl _, t) => (Panic, set_timer t (timer_active r) r)
  end.

Definition consume {E} (tokens : Z) (ty : TokenType) (t1 t2 : Z) : M RateLimiter E bool :=
  r ← get;
  if is_blocked r then mret false
  else
    match bucket r ty with
    | None => mret true
    | Some b =>
        '(reduction, b') ← lift (reduce b tokens t1 t2);
        _ ← modify (set_bucket ty b');
        match reduction with
        | Failure => _ ← (if is_blocked r then mret tt else activate_timer REFILL_TIMER_INTERVAL_MS); mret false
        | Success => mret true
        | OverConsumption ratio =>
            _ ← activate_timer (f64_as_u64 (f64_mul ratio (f64_of_Z (refill_time b)))); mret true
        end
    end.

Definition manual_replenish {E} (tokens : Z) (ty : TokenType) : M RateLimiter E unit :=
  r ← get;
  match bucket r ty with
  | None => mret tt
  | Some b => b' ← lift (replenish b tokens); modify (set_bucket ty b')
  end.

Fixpoint event_handler (fuel : nat) : M RateLimiter Error unit :=
  match fuel with
  | O => hang
  | S fuel' => λ r,
      match t_wait (timer_fd r) with
      | (inr _, t) => (Ok tt, set_timer t false r)
      | (inl e, t) =>
          let r' := set_timer t (timer_active r) r in
          if bool_decide (raw_os_error e = Some EINTR) then event_handler fuel' r'
          else if bool_decide (raw_os_error e = Some EAGAIN) then (Err SpuriousRateLimiterEvent, r')
          else (Err (TimerFdWaitError e), r')
      end
  end.

Definition update_buckets (bytes_ ops_ : BucketUpdate) (r : RateLimiter) : RateLimiter :=
  {| bandwidth := match bytes_ with Disabled => None | Update b => Some b | NoUpdate => bandwidth r end;
     ops := match ops_ with Disabled => None | Update b => Some b | NoUpdate => ops r end;
     timer_fd := timer_fd r; timer_active := timer_active r |}.

(** ** The group *)

(** The handles by the number of their event descriptor, with its counter. *)
Record RateLimiterGroup := { rate_limiter : RateLimiter; handles : list (nat * Z) }.

Definition on_limiter {E A} (m : M RateLimiter E A) : M RateLimiterGroup E A := λ g,
  let '(r, l) := m (rate_limiter g) in (r, {| rate_limiter := l; handles := handles g |}).

Definition handle_new (fd : nat) (g : RateLimiterGroup) : RateLimiterGroup :=
  {| rate_limiter := rate_limiter g; handles := handles g ++ [(fd, 0)] |}.
Definition handle_drop {E} (fd : nat) : M RateLimiterGroup E unit := λ g,
  match list_find (λ h, h.1 = fd) (handles g) with
  | Some (i, _) => (Ok tt, {| rate_limiter := rate_limiter g; handles := delete i (handles g) |})
  | None => (Panic, g)
  end.

Inductive EpollDispatch := Kill | Unblocked | Unknown.
Definition dispatch_of (v : Z) : EpollDispatch := if v =? 1 then Kill else if v =? 2 then Unblocked else Unknown.

(** The handling of one event of the thread; [false] ends it.  Writing to an event
    descriptor adds to its counter. *)
Definition dispatch (fuel : nat) (v : Z) : M RateLimiterGroup Error bool :=
  match dispatch_of v with
  | Unknown => mret true
  | Kill => mret false
  | Unblocked => λ g,
      match event_handler fuel (rate_limiter g) with
      | (Ok _, r) => (Ok true, {| rate_limiter := r; handles := (λ h, (h.1, h.2 + 1)) <$> handles g |})
      | (_, r) => (Panic, {| rate_limiter := r; handles := handles g |})
      end
  end.
End limiter.

(** ** A bucket *)

(** [processed_capacity / processed_refill_time] is the rate of the bucket, in tokens
    per nanosecond. *)
Record bucket_ok (b : TokenBucket) : Prop := {
  ok_size : 0 < size b < 2 ^ 64;
  ok_burst : 0 ≤ one_time_burst b < 2 ^ 64;
  ok_budget : 0 ≤ budget b ≤ size b;
  ok_time : 0 < refill_time b;
  ok_capacity : 0 < processed_capacity b;
  ok_refill : 0 < processed_refill_time b;
  ok_rate : size b * processed_refill_time b = refill_time b * NANOSEC_IN_ONE_MILLISEC * processed_capacity b }.

(** The tokens that arrive in a time, by the documented formula. *)
Definition arrived (b : TokenBucket) (delta : Z) : Z := delta * size b / (refill_time b * NANOSEC_IN_ONE_MILLISEC).

(** What a request takes beyond the burst and the budget. *)
Definition overdrawn {E} (b : TokenBucket) (tokens t1 : Z) : Z :=
  match refilled (E:=E) b (duration_since t1 (last_update b) mod 2 ^ 64) with
  | Ok bud => (if 0 <? one_time_burst b then tokens - one_time_burst b else tokens) - bud
  | _ => 0
  end.

(** Calls on a bucket, at times that do not go back, with the tokens granted, given back,
    and granted beyond what the bucket had. *)
Inductive trace {E} (b0 : TokenBucket) : TokenBucket → Z → Z → Z → Prop :=
| trace_new : trace b0 b0 0 0 0
| trace_reduce b granted returned over tokens t1 t2 reduction b' :
    trace b0 b granted returned over → 0 ≤ tokens < 2 ^ 64 → last_update b ≤ t1 ≤ t2 →
    reduce (E:=E) b tokens t1 t2 = Ok (reduction, b') →
    trace b0 b' (granted + match reduction with Failure => 0 | _ => tokens end) returned
      (over + match reduction with OverConsumption _ => overdrawn (E:=E) b tokens t1 | _ => 0 end)
| trace_replenish b granted returned over tokens b' :
    trace b0 b granted returned over → 0 ≤ tokens → replenish (E:=E) b tokens = Ok b' →
    trace b0 b' granted (returned + tokens) over.

(** ** The limiter and its timer *)

(** What timerfd(2) documents of a timer that fires once and does not block: a time of
    zero disarms it; reading it gives EAGAIN until it has fired.  [t_expire] lets the
    time of the timer pass. *)
Class TimerLaws (T : Timer) := {
  armed : tst → Prop;
  t_expire : tst → tst;
  reset_arms d t : 0 < d → ∃ t', t_reset d t = (inr tt, t') ∧ armed t';
  reset_disarms t : ∃ t', t_reset 0 t = (inr tt, t') ∧ ¬ armed t';
  wait_fired t : armed t → ∃ t', t_wait (t_expire t) = (inr tt, t') ∧ ¬ armed t';
  wait_failed t e t' : armed t → t_wait t = (inl e, t') → armed t';
  wait_disarmed t : ¬ armed t → t_wait t = (inl (Os EAGAIN), t);
  expire_armed t : armed (t_expire t) ↔ armed t }.

Section protocol.
Context `{TL : TimerLaws}.

Definition expire (r : RateLimiter) : RateLimiter := set_timer (t_expire (timer_fd r)) (timer_active r) r.

(** A user that is refused waits for the event of the limiter, handles it and tries
    again, once for each pair of clock readings. *)
Fixpoint retry (tokens : Z) (ty : TokenType) (times : list (Z * Z)) : M RateLimiter Error (list bool) :=
  match times with
  | [] => mret []
  | (t1, t2) :: rest =>
      granted ← consume tokens ty t1 t2;
      _ ← (if granted : bool then mret tt else _ ← modify expire; event_handler 1);
      later ← retry tokens ty rest;
      mret (granted :: later)
  end.

(** The tries follow each other so closely that no whole token arrives between two. *)
Fixpoint too_close (b : TokenBucket) (last : Z) (times : list (Z * Z)) : Prop :=
  match times with
  | [] => True
  | (t1, t2) :: rest => last ≤ t1 ≤ t2 ∧ arrived b (t1 - last) = 0 ∧ (t1 - last) * processed_capacity b < 2 ^ 64 ∧ too_close b t2 rest
  end.

(** What a user can do with a limiter: every call the crate offers, and waiting. *)
Inductive lim_op :=
| OConsume (tokens : Z) (ty : TokenType) (t1 t2 : Z)
| OReplenish (tokens : Z) (ty : TokenType)
| OUpdate (bytes ops : BucketUpdate)
| OEvent
| OExpire.
Definition lim_exec (o : lim_op) : M RateLimiter Error unit :=
  match o with
  | OConsume n ty t1 t2 => _ ← consume n ty t1 t2; mret tt
  | OReplenish n ty => manual_replenish n ty
  | OUpdate bs os => modify (update_buckets bs os)
  | OEvent => event_handler 1
  | OExpire => modify expire
  end.

(** A request so slightly larger than the bucket that the time to pay it back rounds to
    no millisecond. *)
Definition zero_debt (r : RateLimiter) (o : lim_op) : Prop :=
  match o with
  | OConsume n ty t1 t2 =>
      ∃ b ratio b', bucket r ty = Some b ∧ reduce (E:=Error) b n t1 t2 = Ok (OverConsumption ratio, b') ∧
        f64_as_u64 (f64_mul ratio (f64_of_Z (refill_time b))) ≤ 0
  | _ => False
  end.

(** The limiters that calls of the kind [P] lead to. *)
Inductive lim_reach (P : RateLimiter → lim_op → Prop) (r0 : RateLimiter) : RateLimiter → Prop :=
| reach_start : lim_reach P r0 r0
| reach_step r o out r' : lim_reach P r0 r → P r o → lim_exec o r = (out, r') → lim_reach P r0 r'.
End protocol.

Section bucket.
Context {E : Type}.

Lemma gcd_run fuel x y :
  0 ≤ y ≤ x → (if decide (y = 0) then 0 else Z.log2 x + Z.log2 y + 1) < Z.of_nat fuel →
  @gcd E fuel x y = Ok (Z.gcd x y).
Proof.
  revert x y. induction fuel as [|fuel IH]; intros x y Hy Hf.
  { pose proof (Z.log2_nonneg x). pose proof (Z.log2_nonneg y). case_decide; lia. }
  cbn [gcd]. destruct (Z.eqb_spec y 0) as [->|Hy0]; [rewrite Z.gcd_0_r, Z.abs_eq by lia; done|].
  unfold urem. destruct (Z.eqb_spec y 0); [done|]. cbn [mbind res_bind]. rewrite decide_False in Hf by done.
  pose proof (Z.mod_pos_bound x y ltac:(lia)) as Hm. pose proof (Z.log2_nonneg x). pose proof (Z.log2_nonneg y).
  rewrite IH; [|lia|].
  { f_equal. rewrite Z.gcd_comm, Z.gcd_mod by lia. apply Z.gcd_comm. }
  case_decide as Hz; [lia|]. assert (2 * (x mod y) ≤ x) as Hhalf.
  { pose proof (Z.div_mod x y ltac:(lia)). assert (1 ≤ x / y) by (apply Z.div_le_lower_bound; lia). nia. }
  assert (Z.succ (Z.log2 (x mod y)) ≤ Z.log2 x); [|lia].
  rewrite <-Z.log2_double by lia. by apply Z.log2_le_mono.
Qed.

Lemma log2_u64 x : 0 ≤ x < 2 ^ 64 → Z.log2 x ≤ 63.
Proof. intros ?. assert (Z.log2 x < 64); [|lia]. destruct (decide (x = 0)) as [->|]; [done|apply Z.log2_lt_pow2; lia]. Qed.

Lemma gcd_spec x y : 0 ≤ x < 2 ^ 64 → 0 ≤ y < 2 ^ 64 → @gcd E gcd_fuel x y = Ok (Z.gcd x y).
Proof.
  intros Hx Hy. pose proof (log2_u64 x Hx). pose proof (log2_u64 y Hy). unfold gcd_fuel.
  destruct (decide (y ≤ x)); [apply gcd_run; [lia|case_decide; lia]|].
  assert (∀ fuel, @gcd E (S fuel) x y = gcd fuel y x) as ->.
  { intros fuel. cbn [gcd]. unfold urem. destruct (Z.eqb_spec y 0); [lia|]. cbn [mbind res_bind].
    by rewrite Z.mod_small by lia. }
  rewrite Z.gcd_comm. apply gcd_run; [lia|case_decide; lia].
Qed.

Lemma bucket_new_spec now sz burst ms :
  0 < sz < 2 ^ 64 → 0 ≤ burst < 2 ^ 64 → 0 < ms → ms * NANOSEC_IN_ONE_MILLISEC < 2 ^ 64 →
  ∃ b, @bucket_new E now sz burst ms = Ok (Some b) ∧ bucket_ok b ∧
    size b = sz ∧ one_time_burst b = burst ∧ refill_time b = ms ∧ budget b = sz ∧ last_update b = now.
Proof.
  intros Hs Hb Hm Hn. unfold bucket_new. destruct (Z.eqb_spec sz 0); [lia|]. destruct (Z.eqb_spec ms 0); [lia|].
  cbn [orb]. rewrite umul_ok by (unfold is_u64, NANOSEC_IN_ONE_MILLISEC in *; lia). cbn [mbind res_bind].
  set (ns := ms * NANOSEC_IN_ONE_MILLISEC) in *. assert (0 < ns) by (unfold ns, NANOSEC_IN_ONE_MILLISEC; lia).
  rewrite gcd_spec by lia. cbn [mbind res_bind].
  assert (0 < Z.gcd sz ns) as Hg.
  { pose proof (Z.gcd_nonneg sz ns). destruct (decide (Z.gcd sz ns = 0)) as [E0|]; [|lia]. apply Z.gcd_eq_0_l in E0. lia. }
  rewrite !udiv_ok by lia. cbn [mbind res_bind]. eexists. split; [done|]. split; [|done].
  destruct (Z.gcd_divide_l sz ns) as [p Hp]. destruct (Z.gcd_divide_r sz ns) as [q Hq].
  assert (sz / Z.gcd sz ns = p) as Ep by (rewrite Hp at 1; by apply Z.div_mul; lia).
  assert (ns / Z.gcd sz ns = q) as Eq by (rewrite Hq at 1; by apply Z.div_mul; lia).
  split; simpl; rewrite ?Ep, ?Eq; try lia; fold ns; nia.
Qed.

(** The simplified fraction gives the documented number of tokens. *)
Lemma arrived_eq b delta :
  bucket_ok b → delta * processed_capacity b / processed_refill_time b = arrived b delta.
Proof.
  intros [? ? ? Ht Hc Hr Hrate]. unfold arrived.
  assert (0 < refill_time b * NANOSEC_IN_ONE_MILLISEC) by (unfold NANOSEC_IN_ONE_MILLISEC; lia).
  rewrite <-(Z.div_mul_cancel_r _ (processed_refill_time b) (size b)) by lia.
  rewrite <-(Z.div_mul_cancel_r (delta * size b) _ (processed_capacity b)) by lia.
  f_equal; [lia|]. lia.
Qed.

Lemma arrived_nonneg b delta : bucket_ok b → 0 ≤ delta → 0 ≤ arrived b delta.
Proof. intros [? ? ? ? ? ? ?] ?. unfold arrived, NANOSEC_IN_ONE_MILLISEC. apply Z.div_pos; nia. Qed.

Lemma refilled_Ok b delta bud :
  bucket_ok b → 0 ≤ delta → refilled (E:=E) b delta = Ok bud →
  budget b ≤ bud ≤ size b ∧ bud ≤ budget b + arrived b delta.
Proof.
  intros Hb Hd. pose proof (arrived_eq b delta Hb) as Ha. pose proof (arrived_nonneg b delta Hb Hd). destruct Hb as [? ? ? Ht Hc Hr Hrate]. unfold refilled.
  intros (p & [-> _]%umul_Ok & (q & Hq & (s & [-> _]%uadd_Ok & Hs)%bind_ok)%bind_ok)%bind_ok.
  rewrite udiv_ok in Hq by lia. injection Hq as <-. rewrite Ha in *.
  destruct (Z.leb_spec (size b) (budget b + arrived b delta)); injection Hs as <-; lia.
Qed.

Lemma refilled_run b delta :
  bucket_ok b → 0 ≤ delta → delta * processed_capacity b < 2 ^ 64 → budget b + arrived b delta < 2 ^ 64 →
  refilled (E:=E) b delta = Ok (Z.min (size b) (budget b + arrived b delta)).
Proof.
  intros Hb Hd Hp Hs. pose proof (arrived_eq b delta Hb) as Ha. pose proof (arrived_nonneg b delta Hb Hd). destruct Hb as [? ? ? Ht Hc Hr Hrate]. unfold refilled.
  rewrite umul_ok by (unfold is_u64; lia). cbn [mbind res_bind]. rewrite udiv_ok by lia. cbn [mbind res_bind]. rewrite Ha.
  rewrite uadd_ok by (unfold is_u64; lia). cbn [mbind res_bind]. f_equal.
  destruct (Z.leb_spec (size b) (budget b + arrived b delta)); lia.
Qed.

Lemma with_state_ok b burst bud last :
  bucket_ok b → 0 ≤ burst < 2 ^ 64 → 0 ≤ bud ≤ size b → bucket_ok (with_state b burst bud last).
Proof. intros [? ? ? ? ? ? ?] ? ?. by split. Qed.

Lemma elapsed_bound b t1 : last_update b ≤ t1 → 0 ≤ duration_since t1 (last_update b) mod 2 ^ 64 ≤ t1 - last_update b.
Proof.
  intros ?. unfold duration_since, saturating_sub. rewrite Z.max_r by lia.
  pose proof (Z.mod_pos_bound (t1 - last_update b) (2 ^ 64) ltac:(lia)).
  pose proof (Z.mod_le (t1 - last_update b) (2 ^ 64) ltac:(lia) ltac:(lia)). lia.
Qed.

(** What one request changes: the tokens it is granted come from the burst, the budget
    and the time since the last one. *)
Lemma reduce_Ok b tokens t1 t2 red b' :
  bucket_ok b → 0 ≤ tokens < 2 ^ 64 → last_update b ≤ t1 ≤ t2 → reduce (E:=E) b tokens t1 t2 = Ok (red, b') →
  bucket_ok b' ∧ size b' = size b ∧ refill_time b' = refill_time b ∧ last_update b' = t2 ∧
  match red with Failure => 0 | _ => tokens end + budget b' + one_time_burst b' ≤
    budget b + one_time_burst b + arrived b (t1 - last_update b) +
    match red with OverConsumption _ => overdrawn (E:=E) b tokens t1 | _ => 0 end.
Proof.
  intros Hb Htk Ht. pose proof (elapsed_bound b t1 ltac:(lia)) as Hel. unfold reduce, overdrawn.
  set (delta := duration_since t1 (last_update b) mod 2 ^ 64) in *.
  assert (0 ≤ arrived b delta ≤ arrived b (t1 - last_update b)) as Har.
  { unfold arrived. destruct Hb as [? ? ? ? ? ? ?].
    assert (0 < refill_time b * NANOSEC_IN_ONE_MILLISEC) by (unfold NANOSEC_IN_ONE_MILLISEC; lia).
    split; [apply Z.div_pos; nia|apply Z.div_le_mono; nia]. }
  pose proof Hb as [? ? ? ? ? ? ?]. destruct (Z.ltb_spec 0 (one_time_burst b)), (Z.leb_spec tokens (one_time_burst b)); cbn [andb].
  { intros [= <- <-]. simpl. split; [apply with_state_ok; [done|lia..]|]. repeat split; lia. }
  all: intros (bud & Hr & H')%bind_ok; pose proof Hr as Hr'; apply refilled_Ok in Hr as [Hbud Hbud']; [|done|lia].
  all: match goal with Hl : context [if ?x <? ?n then _ else Ok (Success, _)] |- _ => destruct (Z.ltb_spec x n), (Z.ltb_spec (size b) n); try lia end.
  all: try (injection H' as <- <-; simpl; split; [apply with_state_ok; [done|lia..]|]; repeat split; lia).
  all: apply bind_ok in H' as (rest & [-> _]%usub_Ok & [= <- <-]); rewrite Hr'; simpl;
    (split; [apply with_state_ok; [done|lia..]|]); repeat split; lia.
Qed.

(** An overconsumption reports what was overdrawn. *)
Lemma reduce_over b tokens t1 t2 ratio b' :
  bucket_ok b → reduce (E:=E) b tokens t1 t2 = Ok (OverConsumption ratio, b') →
  size b < tokens ∧ ratio = f64_div (f64_of_Z (overdrawn (E:=E) b tokens t1)) (f64_of_Z (size b)).
Proof.
  intros Hb. unfold reduce, overdrawn. case_match eqn:E1; [done|]. intros (bud & -> & H)%bind_ok.
  destruct (Z.ltb_spec 0 (one_time_burst b)).
  - destruct (Z.ltb_spec bud (tokens - one_time_burst b)); [|done].
    destruct (Z.ltb_spec (size b) (tokens - one_time_burst b)); [|done].
    apply bind_ok in H as (rest & [-> _]%usub_Ok & [= <- _]). split; [lia|done].
  - destruct (Z.ltb_spec bud tokens); [|done]. destruct (Z.ltb_spec (size b) tokens); [|done].
    apply bind_ok in H as (rest & [-> _]%usub_Ok & [= <- _]). done.
Qed.

Lemma replenish_Ok b tokens b' :
  bucket_ok b → 0 ≤ tokens → replenish (E:=E) b tokens = Ok b' →
  bucket_ok b' ∧ size b' = size b ∧ refill_time b' = refill_time b ∧ last_update b' = last_update b ∧
  budget b' + one_time_burst b' ≤ budget b + one_time_burst b + tokens.
Proof.
  intros Hb Htk. pose proof Hb as [? ? ? ? ? ? ?]. unfold replenish. destruct (Z.ltb_spec 0 (one_time_burst b)).
  - intros (o & [-> [? ?]]%uadd_Ok & [= <-])%bind_ok. simpl. split; [apply with_state_ok; [done|lia..]|]. repeat split; lia.
  - intros (o & [-> [? ?]]%uadd_Ok & [= <-])%bind_ok. simpl. split; [apply with_state_ok; [done|lia..]|]. repeat split; lia.
Qed.

(** The account after any sequence of calls. *)
Lemma trace_bound b0 b granted returned over :
  bucket_ok b0 → trace (E:=E) b0 b granted returned over →
  bucket_ok b ∧ size b = size b0 ∧ refill_time b = refill_time b0 ∧ last_update b0 ≤ last_update b ∧
  (granted + budget b + one_time_burst b) * (refill_time b * NANOSEC_IN_ONE_MILLISEC) ≤
    (budget b0 + one_time_burst b0 + returned + over) * (refill_time b * NANOSEC_IN_ONE_MILLISEC) +
    (last_update b - last_update b0) * size b.
Proof.
  intros Hb0. induction 1 as [|b g r o tokens t1 t2 red b' _ IH Htk Ht Hr|b g r o tokens b' _ IH Htk Hr].
  - split; [done|]. repeat split; lia.
  - destruct IH as (Hb & Hsz & Hrt & Hl & IH). destruct (reduce_Ok _ _ _ _ _ _ Hb Htk Ht Hr) as (Hb' & Hs' & Hr' & Hl' & Hacc).
    rewrite Hr', Hs', Hl'. split; [done|]. split; [lia|]. split; [lia|]. split; [lia|].
    assert (arrived b (t1 - last_update b) * (refill_time b * NANOSEC_IN_ONE_MILLISEC) ≤ (t1 - last_update b) * size b).
    { unfold arrived. rewrite Z.mul_comm. apply Z.mul_div_le. destruct Hb as [? ? ? ? ? ? ?]. unfold NANOSEC_IN_ONE_MILLISEC. lia. }
    assert (0 < refill_time b * NANOSEC_IN_ONE_MILLISEC) by (destruct Hb as [? ? ? ? ? ? ?]; unfold NANOSEC_IN_ONE_MILLISEC; lia).
    assert (0 < size b) by (by destruct Hb as [[? ?] ? ? ? ? ? ?]). nia.
  - destruct IH as (Hb & Hsz & Hrt & Hl & IH). destruct (replenish_Ok _ _ _ Hb Htk Hr) as (Hb' & Hs' & Hr' & Hl' & Hacc).
    rewrite Hr', Hs', Hl'. split; [done|]. split; [lia|]. split; [lia|]. split; [lia|].
    assert (0 < refill_time b * NANOSEC_IN_ONE_MILLISEC) by (destruct Hb as [? ? ? ? ? ? ?]; unfold NANOSEC_IN_ONE_MILLISEC; lia). nia.
Qed.

Lemma reduce_run b tokens t1 t2 :
  bucket_ok b → 0 ≤ tokens < 2 ^ 64 → last_update b ≤ t1 →
  (t1 - last_update b) * processed_capacity b < 2 ^ 64 → budget b + arrived b (t1 - last_update b) < 2 ^ 64 →
  ∃ red b', reduce (E:=E) b tokens t1 t2 = Ok (red, b').
Proof.
  intros Hb Htk Ht Hc Hs. unfold reduce. case_match; [eauto|].
  assert (t1 - last_update b < 2 ^ 64) as Hd by (destruct Hb as [? ? ? ? ? ? ?]; nia).
  replace (duration_since t1 (last_update b) mod 2 ^ 64) with (t1 - last_update b)
    by (unfold duration_since, saturating_sub; rewrite Z.max_r, Z.mod_small; lia).
  rewrite refilled_run by (done || lia). cbn [mbind res_bind].
  pose proof (arrived_nonneg b (t1 - last_update b) Hb ltac:(lia)). destruct Hb as [? ? ? ? ? ? ?].
  assert ((if 0 <? one_time_burst b then tokens - one_time_burst b else tokens) ≤ tokens) as Hle by (case_match; lia).
  revert Hle. generalize (if 0 <? one_time_burst b then tokens - one_time_burst b else tokens). intros tk Hle.
  destruct (Z.ltb_spec (size b `min` (budget b + arrived b (t1 - last_update b))) tk); [|eauto]. case_match; [|eauto].
  rewrite usub_ok by (unfold is_u64; lia). cbn [mbind res_bind]. eauto.
Qed.

(** The multiplication overflows after a time in which the bucket is not asked. *)
Lemma idle_overflows b tokens t1 t2 :
  bucket_ok b → one_time_burst b = 0 → last_update b ≤ t1 < last_update b + 2 ^ 64 →
  2 ^ 64 ≤ (t1 - last_update b) * processed_capacity b → reduce (E:=E) b tokens t1 t2 = Panic.
Proof.
  intros Hb H0 Ht Hc. unfold reduce. rewrite H0. cbn [Z.ltb Z.compare andb].
  replace (duration_since t1 (last_update b) mod 2 ^ 64) with (t1 - last_update b)
    by (unfold duration_since, saturating_sub; rewrite Z.max_r, Z.mod_small; lia).
  unfold refilled, umul. destruct (in_u64 ((t1 - last_update b) * processed_capacity b)) eqn:Hin; [|done].
  apply in_u64_spec in Hin. unfold is_u64 in Hin. lia.
Qed.

(** A request that comes before a whole token has arrived changes nothing but the time. *)
Lemma reduce_too_close b tokens t1 t2 :
  bucket_ok b → one_time_burst b = 0 → budget b < tokens ≤ size b → last_update b ≤ t1 →
  (t1 - last_update b) * processed_capacity b < 2 ^ 64 → arrived b (t1 - last_update b) = 0 →
  reduce (E:=E) b tokens t1 t2 = Ok (Failure, with_state b 0 (budget b) t2).
Proof.
  intros Hb H0 Htk Ht Hc Ha. unfold reduce. rewrite H0. cbn [Z.ltb Z.compare andb].
  assert (t1 - last_update b < 2 ^ 64) as Hd by (destruct Hb as [? ? ? ? ? ? ?]; nia).
  replace (duration_since t1 (last_update b) mod 2 ^ 64) with (t1 - last_update b)
    by (unfold duration_since, saturating_sub; rewrite Z.max_r, Z.mod_small; lia).
  pose proof Hb as [? ? ? ? ? ? ?]. rewrite refilled_run by (done || lia). cbn [mbind res_bind].
  rewrite Ha, Z.add_0_r, Z.min_r by lia. destruct (Z.ltb_spec (budget b) tokens), (Z.ltb_spec (size b) tokens); (done || lia).
Qed.
End bucket.


Section laws.
Context `{TL : TimerLaws}.

Lemma activate_run dur (r : RateLimiter) :
  0 < dur → ∃ t, activate_timer (E:=Error) dur r = (Ok tt, set_timer t true r) ∧ armed t.
Proof. intros Hd. unfold activate_timer. destruct (reset_arms dur (timer_fd r) Hd) as (t & -> & Ha). eauto. Qed.

Lemma handled_run (r : RateLimiter) :
  armed (timer_fd r) → ∃ t, event_handler 1 (expire r) = (Ok tt, set_timer t false r).
Proof. intros Ha. unfold event_handler, expire. cbn. destruct (wait_fired (timer_fd r) Ha) as (t & -> & _). by exists t. Qed.

(** A request on a limiter that is not blocked. *)
Lemma consume_run r ty tokens t1 t2 b red b' :
  is_blocked r = false → bucket r ty = Some b → reduce (E:=Error) b tokens t1 t2 = Ok (red, b') →
  consume (E:=Error) tokens ty t1 t2 r =
    match red with
    | Failure => _ ← activate_timer REFILL_TIMER_INTERVAL_MS; mret false
    | Success => mret true
    | OverConsumption ratio => _ ← activate_timer (f64_as_u64 (f64_mul ratio (f64_of_Z (refill_time b)))); mret true
    end (set_bucket ty b' r).
Proof.
  intros Hbl Hb Hr. unfold consume. erewrite m_bind_run by done. rewrite Hbl, Hb.
  rewrite (m_bind_run _ _ _ (red, b') r) by (unfold lift; by rewrite Hr). by erewrite m_bind_run by done.
Qed.

Lemma consume_blocked r tokens ty t1 t2 : is_blocked r = true → consume (E:=Error) tokens ty t1 t2 r = (Ok false, r).
Proof. intros Hbl. unfold consume. erewrite m_bind_run by done. by rewrite Hbl. Qed.

Lemma consume_too_close r ty tokens t1 t2 b :
  is_blocked r = false → bucket r ty = Some b → bucket_ok b → one_time_burst b = 0 → budget b < tokens ≤ size b →
  last_update b ≤ t1 → (t1 - last_update b) * processed_capacity b < 2 ^ 64 → arrived b (t1 - last_update b) = 0 →
  ∃ t, consume (E:=Error) tokens ty t1 t2 r = (Ok false, set_timer t true (set_bucket ty (with_state b 0 (budget b) t2) r)) ∧ armed t.
Proof.
  intros Hbl Hb Hok H0 Htk Ht Hc Ha. rewrite (consume_run _ _ _ _ _ _ _ _ Hbl Hb (reduce_too_close _ _ _ _ Hok H0 Htk Ht Hc Ha)).
  destruct (activate_run REFILL_TIMER_INTERVAL_MS (set_bucket ty (with_state b 0 (budget b) t2) r)) as (t & Hr & Har); [done|].
  exists t. split; [|done]. by erewrite m_bind_run by done.
Qed.

Lemma too_close_with b burst bud last l times : too_close (with_state b burst bud last) l times ↔ too_close b l times.
Proof. revert l. induction times as [|[t1 t2] times IH]; intros l; simpl; [done|]. by rewrite IH. Qed.

Lemma set_bucket_bucket ty b t act (r : RateLimiter) : bucket (set_timer t act (set_bucket ty b r)) ty = Some b.
Proof. by destruct ty. Qed.

(** A user that is refused and tries again each time the limiter wakes it up is refused
    every time, and no token reaches the bucket, when no two tries are as far apart as one
    token: the fraction that has arrived is dropped with each try.  The limiter wakes the
    user up after 100 ms, so that this is every bucket of less than ten tokens a second. *)
Theorem retry_starves times ty tokens r b :
  is_blocked r = false → bucket r ty = Some b → bucket_ok b → one_time_burst b = 0 → budget b < tokens ≤ size b →
  too_close b (last_update b) times →
  ∃ r' b', retry tokens ty times r = (Ok (replicate (length times) false), r') ∧
    is_blocked r' = false ∧ bucket r' ty = Some b' ∧ budget b' = budget b.
Proof.
  revert r b. induction times as [|[t1 t2] times IH]; intros r b Hbl Hb Hok H0 Htk Hc; [by exists r, b|].
  destruct Hc as ([Ht ?] & Ha & Hcap & Hc). cbn [retry length replicate].
  destruct (consume_too_close r ty tokens t1 t2 b) as (t & Hrun & Har); [done..|]. erewrite m_bind_run by exact Hrun.
  destruct (handled_run (set_timer t true (set_bucket ty (with_state b 0 (budget b) t2) r)) Har) as (t' & Hh).
  rewrite (m_bind_run _ _ _ tt _) by (erewrite m_bind_run by done; exact Hh).
  destruct (IH (set_timer t' false (set_timer t true (set_bucket ty (with_state b 0 (budget b) t2) r))) (with_state b 0 (budget b) t2))
    as (r' & b' & Hrec & Hbl' & Hb' & Hbud); [done|by destruct ty|by apply with_state_ok; [|lia|destruct Hok]|done|done|by apply too_close_with|].
  exists r', b'. split; [|done]. by erewrite m_bind_run by exact Hrec.
Qed.

Lemma event_armed r out r' :
  (is_blocked r = true → armed (timer_fd r)) → event_handler 1 r = (out, r') → is_blocked r' = true → armed (timer_fd r').
Proof.
  intros Hi. cbn. destruct (t_wait (timer_fd r)) as [[e|[]] t] eqn:Hw; [|by intros [= _ <-]].
  intros Heq Hbl. assert (r' = set_timer t (timer_active r) r) as -> by (by repeat case_bool_decide; injection Heq as _ <-).
  simpl. eapply wait_failed, Hw. by apply Hi.
Qed.

Lemma consume_armed r n ty t1 t2 out r' :
  (is_blocked r = true → armed (timer_fd r)) → ¬ zero_debt r (OConsume n ty t1 t2) → consume (E:=Error) n ty t1 t2 r = (out, r') →
  is_blocked r' = true → armed (timer_fd r').
Proof.
  intros Hi Hz. destruct (is_blocked r) eqn:Hbl; [rewrite consume_blocked by done; intros [= <- <-]; auto|].
  destruct (bucket r ty) as [b|] eqn:Hb; [|unfold consume; erewrite m_bind_run by done; rewrite Hbl, Hb; intros [= <- <-]; congruence].
  destruct (reduce (E:=Error) b n t1 t2) as [[red b']| | |] eqn:Hr.
  2,3,4: unfold consume; erewrite m_bind_run by done; rewrite Hbl, Hb; unfold mbind, M_bind, lift; rewrite Hr; intros [= <- <-]; congruence.
  rewrite (consume_run _ _ _ _ _ _ _ _ Hbl Hb Hr). destruct red as [| |ratio].
  - destruct (activate_run REFILL_TIMER_INTERVAL_MS (set_bucket ty b' r)) as (t & Hrun & Har); [done|].
    erewrite m_bind_run by exact Hrun. by intros [= <- <-].
  - intros [= <- <-]. destruct ty; simpl; unfold is_blocked in *; simpl; congruence.
  - destruct (activate_run (f64_as_u64 (f64_mul ratio (f64_of_Z (refill_time b)))) (set_bucket ty b' r)) as (t & Hrun & Har).
    { apply Z.nle_gt. intros Hle. apply Hz. by exists b, ratio, b'. }
    erewrite m_bind_run by exact Hrun. by intros [= <- <-].
Qed.

(** A limiter that blocks always lets its user go on: after any calls none of which
    overdraws a bucket by less than a millisecond, a blocked limiter has its timer armed;
    once it has fired, the event handler unblocks the limiter. *)
Theorem blocked_wakes_up now b1 b2 b3 o1 o2 o3 timer r0 r :
  limiter_new now b1 b2 b3 o1 o2 o3 timer = Ok r0 → lim_reach (λ r o, ¬ zero_debt r o) r0 r → is_blocked r = true →
  armed (timer_fd r) ∧ ∃ r', event_handler 1 (expire r) = (Ok tt, r') ∧ is_blocked r' = false.
Proof.
  intros Hnew Hre Hbl. assert (armed (timer_fd r)) as Ha.
  2: { split; [done|]. destruct (handled_run r Ha) as (t & Hh). eauto. }
  revert Hbl. induction Hre as [|r o out r' _ IH Hz Hex].
  - unfold limiter_new in Hnew. apply bind_ok in Hnew as (? & _ & (? & _ & Hnew)%bind_ok). destruct timer; [done|]. by injection Hnew as <-.
  - destruct o as [n ty t1 t2|n ty|bs os| |]; simpl in Hex.
    + unfold mbind, M_bind in Hex. destruct (consume n ty t1 t2 r) as [o1' r1] eqn:Hc. assert (r' = r1) as -> by (by destruct o1'; injection Hex as _ <-).
      by eapply consume_armed.
    + unfold manual_replenish in Hex. erewrite m_bind_run in Hex by done.
      destruct (bucket r ty) as [b|]; [|by injection Hex as _ <-]. unfold mbind, M_bind, lift, modify in Hex.
      destruct (replenish b n); injection Hex as _ <-; [|done..]. by destruct ty.
    + by injection Hex as _ <-.
    + by eapply event_armed.
    + injection Hex as _ <-. intros Hbl. apply expire_armed. by apply IH.
Qed.

(** The thread of a group passes the event on to every user of it. *)
Lemma dispatch_wakes_all (g : RateLimiterGroup) :
  armed (timer_fd (rate_limiter g)) →
  ∃ g', dispatch 1 2 {| rate_limiter := expire (rate_limiter g); handles := handles g |} = (Ok true, g') ∧
    is_blocked (rate_limiter g') = false ∧ handles g' = (λ h, (h.1, h.2 + 1)) <$> handles g.
Proof.
  intros Ha. destruct (handled_run (rate_limiter g) Ha) as (t & Hh). unfold dispatch. cbn [dispatch_of Z.eqb Pos.eqb].
  cbn [rate_limiter]. rewrite Hh. by eexists.
Qed.

Lemma stuck_step r o out r' :
  is_blocked r = true → ¬ armed (timer_fd r) → lim_exec o r = (out, r') → is_blocked r' = true ∧ ¬ armed (timer_fd r').
Proof.
  intros Hbl Ha Hex. destruct o as [n ty t1 t2|n ty|bs os| |]; simpl in Hex.
  - erewrite m_bind_run in Hex by (by apply consume_blocked). by injection Hex as _ <-.
  - unfold manual_replenish in Hex. erewrite m_bind_run in Hex by done.
    destruct (bucket r ty) as [b|]; [|by injection Hex as _ <-]. unfold mbind, M_bind, lift, modify in Hex.
    destruct (replenish b n); injection Hex as _ <-; [|done..]. by destruct ty.
  - by injection Hex as _ <-.
  - rewrite wait_disarmed in Hex by done. cbn in Hex. injection Hex as _ <-. by destruct r.
  - injection Hex as _ <-. split; [done|]. simpl. by rewrite expire_armed.
Qed.

(** A request larger than the bucket by so little that the time to pay it back rounds to
    zero milliseconds blocks the limiter for good: setting the timer to zero disarms it, while
    the limiter believes it is running.  Whatever is called and however long one waits, every
    later request is refused and no event arrives. *)
Theorem zero_debt_blocks r tokens ty t1 t2 :
  is_blocked r = false → zero_debt r (OConsume tokens ty t1 t2) →
  ∃ r1, consume (E:=Error) tokens ty t1 t2 r = (Ok true, r1) ∧
    ∀ r2, lim_reach (λ _ _, True) r1 r2 →
      (∀ n ty' s1 s2, consume (E:=Error) n ty' s1 s2 r2 = (Ok false, r2)) ∧
      ∃ r3, event_handler 1 (expire r2) = (Err SpuriousRateLimiterEvent, r3).
Proof.
  intros Hbl (b & ratio & b' & Hb & Hr & Hz). rewrite (consume_run _ _ _ _ _ _ _ _ Hbl Hb Hr).
  replace (f64_as_u64 _) with 0 by (pose proof (f64_as_u64_nonneg (f64_mul ratio (f64_of_Z (refill_time b)))); lia).
  destruct (reset_disarms (timer_fd (set_bucket ty b' r))) as (t & Hres & Ha).
  exists (set_timer t true (set_bucket ty b' r)). split.
  { rewrite (m_bind_run _ _ _ tt (set_timer t true (set_bucket ty b' r))); [done|]. unfold activate_timer. by rewrite Hres. }
  intros r2 Hre. assert (is_blocked r2 = true ∧ ¬ armed (timer_fd r2)) as [Hbl2 Ha2].
  { induction Hre as [|r3 o out r4 _ [? ?] _ Hex]; [done|by eapply stuck_step]. }
  split; [intros; by apply consume_blocked|]. cbn. rewrite wait_disarmed by (by rewrite expire_armed). cbn. eauto.
Qed.
End laws.

(** A timer that is disarmed, running or has fired. *)
Inductive plain := Disarmed | Running | Fired.
#[export] Instance plain_timer : Timer := {
  tst := plain;
  t_reset d t := (inr tt, if d =? 0 then Disarmed else Running);
  t_wait t := match t with Fired => (inr tt, Disarmed) | _ => (inl (Os EAGAIN), t) end }.
#[export, refine] Instance plain_laws : TimerLaws plain_timer := {
  armed t := match t with Disarmed => False | _ => True end;
  t_expire t := match t with Disarmed => Disarmed | _ => Fired end }.
Proof.
  - intros d t ?. exists Running. split; [|done]. cbn. by destruct (Z.eqb_spec d 0); [lia|].
  - intros t. exists Disarmed. split; [done|]. cbn. tauto.
  - intros [] ?; (done || (exists Disarmed; split; [done|cbn; tauto])).
  - intros [] ? ? ?; naive_solver.
  - intros [] Hn; (done || by destruct Hn).
  - by intros [].
Defined.

(** A bucket of five tokens a second, and a limiter of operations with it. *)
Definition five : TokenBucket :=
  {| size := 5; one_time_burst := 0; refill_time := 1000; budget := 0; last_update := 0;
     processed_capacity := 1; processed_refill_time := 200000000 |}.
Definition five_a_second : RateLimiter :=
  {| bandwidth := None; ops := Some five; timer_fd := Disarmed; timer_active := false |}.
(** A limiter of 1 MiB a second. *)
Definition mib_a_second : RateLimiter :=
  {| bandwidth := Some {| size := 1048576; one_time_burst := 0; refill_time := 1000; budget := 1048576; last_update := 0;
                          processed_capacity := 2048; processed_refill_time := 1953125 |};
     ops := None; timer_fd := Disarmed; timer_active := false |}.

Lemma five_ok : bucket_ok five.
Proof. by split. Qed.

(** Five tokens after 10 ns, out of the burst of two and the bucket; then one returned, and
    a request for twenty, of which the bucket has three. *)
Definition burst_bucket (burst bud last : Z) : TokenBucket :=
  {| size := 5; one_time_burst := burst; refill_time := 1000; budget := bud; last_update := last;
     processed_capacity := 1; processed_refill_time := 200000000 |}.


(** One operation, tried every 100 ms by a user of a limiter of five operations a second. *)
Definition ticks (n : nat) : list (Z * Z) := (λ i, (100000000 * Z.of_nat i, 100000000 * Z.of_nat i)) <$> seq 1 n.

Lemma retry_starves_witness :
  ∃ r' b', retry 1 Ops (ticks 50) five_a_second = (Ok (replicate (length (ticks 50)) false), r') ∧
    is_blocked r' = false ∧ bucket r' Ops = Some b' ∧ budget b' = budget five.
Proof.
  apply (retry_starves (ticks 50) Ops 1 five_a_second five); [done|done|apply five_ok|done|vm_compute; split; congruence|].
  vm_compute. repeat split; congruence.
Defined.

Definition five_limiter (bud last : Z) (t : plain) (active : bool) : RateLimiter :=
  {| bandwidth := None; ops := Some (burst_bucket 0 bud last); timer_fd := t; timer_active := active |}.

(** The bucket is emptied, and a request refused. *)
Lemma blocked_wakes_up_witness :
  armed (timer_fd (five_limiter 0 2 Running true)) ∧
  ∃ r', event_handler 1 (expire (five_limiter 0 2 Running true)) = (Ok tt, r') ∧ is_blocked r' = false.
Proof.
  apply (blocked_wakes_up (T:=plain_timer) 0 0 0 0 5 0 1000 (inr Disarmed) (five_limiter 5 0 Disarmed false)); [vm_compute; reflexivity| |done].
  apply (reach_step _ _ (five_limiter 0 1 Disarmed false) (OConsume 5 Ops 2 2) (Ok tt)); [|intros (b & ? & ? & Hb & Hr & _)|vm_compute; reflexivity].
  - apply (reach_step _ _ (five_limiter 5 0 Disarmed false) (OConsume 5 Ops 1 1) (Ok tt)); [constructor|intros (b & ? & ? & Hb & Hr & _)|vm_compute; reflexivity].
    injection Hb as <-. vm_compute in Hr. discriminate.
  - injection Hb as <-. vm_compute in Hr. discriminate.
Defined.

(** A request of 1 MiB and 512 bytes at the full bucket. *)
Lemma zero_debt_blocks_witness :
  limiter_new (T:=plain_timer) 0 1048576 0 1000 0 0 0 (inr Disarmed) = Ok mib_a_second ∧
  ∃ r1, consume (E:=Error) 1049088 Bytes 0 0 mib_a_second = (Ok true, r1) ∧
    ∀ r2, lim_reach (λ _ _, True) r1 r2 →
      (∀ n ty' s1 s2, consume (E:=Error) n ty' s1 s2 r2 = (Ok false, r2)) ∧
      ∃ r3, event_handler 1 (expire r2) = (Err SpuriousRateLimiterEvent, r3).
Proof.
  split; [vm_compute; reflexivity|]. apply (zero_debt_blocks mib_a_second 1049088 Bytes 0 0); [done|].
  eexists _, _, _. split; [reflexivity|]. split; [vm_compute; reflexivity|vm_compute; congruence].
Defined.

End RateLimiter.
