(* ===== verification/SerialBuffer.v ===== *)
(** * The buffer of the serial console

    Model of the crate [serial_buffer] ([lib.rs]): [SerialBuffer], which keeps the output
    of a serial port while nobody reads it.  The device behind it, a [dyn Write], is the
    class [Writer]; the two loads of the shared flag [write_out] are arguments.  The
    theorems say that the bytes reach the device in the order they were written, that the
    buffer never holds more than a megabyte, and what is lost. *)

From S2P Require Import Prelude Kernel.

Module SerialBuffer.

Definition MAX_BUFFER_SIZE : nat := Z.to_nat (Z.shiftl 1 20).

(** [Write::write] and [Write::flush] of the device. *)
Class Writer := {
  wst : Type;
  w_write : list Z → wst → (io_error + Z) * wst;
  w_flush : wst → (io_error + unit) * wst }.

(** [Error::kind]: EINTR and EAGAIN are [Interrupted] and [WouldBlock]. *)
Definition is_interrupted (e : io_error) : bool :=
  match e with Os n => n =? EINTR | Custom k _ => bool_decide (k = Interrupted) end.
Definition would_block (e : io_error) : bool :=
  match e with Os n => n =? EAGAIN | Custom k _ => bool_decide (k = WouldBlock) end.

Section code.
Context {W : Writer}.

Record SerialBuffer := { buffer : list Z; out : wst }.

Definition buffer_new (o : wst) : SerialBuffer := {| buffer := []; out := o |}.
Definition set_buffer (b : list Z) (s : SerialBuffer) : SerialBuffer := {| buffer := b; out := out s |}.

Definition fill_buffer (buf : list Z) (s : SerialBuffer) : SerialBuffer :=
  if (MAX_BUFFER_SIZE <=? length buf)%nat then set_buffer (drop (length buf - MAX_BUFFER_SIZE) buf) s
  else
    let num_allowed_bytes := (MAX_BUFFER_SIZE - length buf)%nat in
    let kept := if (num_allowed_bytes <? length (buffer s))%nat
                then drop (length (buffer s) - num_allowed_bytes) (buffer s) else buffer s in
    set_buffer (kept ++ buf) s.

Definition on_out {A} (call : wst → (io_error + A) * wst) : M SerialBuffer io_error A := λ s,
  let '(r, o) := call (out s) in
  (match r with inl e => Err e | inr a => Ok a end, {| buffer := buffer s; out := o |}).

(** [Write::write_all] of one byte: whether it succeeded. *)
Fixpoint write_byte (fuel : nat) (byte : Z) : M SerialBuffer io_error bool := λ s,
  match fuel with
  | O => (Hang, s)
  | S fuel' =>
      match on_out (w_write [byte]) s with
      | (Ok n, s') => if n =? 0 then (Ok false, s') else if n =? 1 then (Ok true, s') else (Panic, s')
      | (Err e, s') => if is_interrupted e then write_byte fuel' byte s' else (Ok false, s')
      | r => (Hang, r.2)
      end
  end.

(** The loop of [flush]; each turn takes a byte off the buffer. *)
Fixpoint flush_loop (fuel : nat) (bytes : list Z) : M SerialBuffer io_error unit :=
  match bytes with
  | [] => modify (set_buffer [])
  | byte :: rest =>
      written ← write_byte fuel byte;
      if written : bool then flush_loop fuel rest else modify (set_buffer (byte :: rest))
  end.

Definition flush (fuel : nat) (write_out : bool) : M SerialBuffer io_error unit :=
  if negb write_out then mret tt
  else
    s ← get;
    _ ← flush_loop fuel (buffer s);
    on_out w_flush.

(** The loop of [write] over [buf[offset..]]. *)
Fixpoint write_loop (fuel : nat) (rest : list Z) : M SerialBuffer io_error unit := λ s,
  match fuel with
  | O => (Hang, s)
  | S fuel' =>
      match on_out (w_write rest) s with
      | (Ok n, s') => if n <? zlen rest then write_loop fuel' (drop (Z.to_nat n) rest) s' else (Ok tt, s')
      | (Err e, s') => if negb (would_block e) then (Err e, s') else (Ok tt, fill_buffer rest s')
      | r => (Hang, r.2)
      end
  end.

(** [write_out] as the call loads it, and as the flush it makes loads it. *)
Definition write (fuel : nat) (write_out write_out' : bool) (buf : list Z) : M SerialBuffer io_error Z :=
  if negb write_out then _ ← modify (fill_buffer buf); mret (zlen buf)
  else
    _ ← flush fuel write_out';
    s ← get;
    if negb (bool_decide (buffer s = [])) then _ ← modify (fill_buffer buf); mret (zlen buf)
    else
      _ ← write_loop fuel buf;
      _ ← on_out w_flush;
      mret (zlen buf).
End code.

(** ** The contract of the device *)

(** What [std::io::Write] documents: a write takes a prefix of the bytes, which may be
    empty, or fails and takes none; [delivered] is all the device has taken. *)
Class WriterLaws (W : Writer) := {
  delivered : wst → list Z;
  write_takes bs s n s' : w_write bs s = (inr n, s') →
    0 ≤ n ≤ zlen bs ∧ delivered s' = delivered s ++ take (Z.to_nat n) bs;
  write_fails bs s e s' : w_write bs s = (inl e, s') → delivered s' = delivered s;
  flush_keeps s r s' : w_flush s = (r, s') → delivered s' = delivered s }.

(** A device that is interrupted, or takes none of the bytes it is given, only so many
    times more. *)
Class FiniteWriter (W : Writer) := {
  refusals : wst → nat;
  refusal_takes bs s n s' : w_write bs s = (inr n, s') →
    (refusals s' ≤ refusals s)%nat ∧ (bs ≠ [] → n = 0 → (refusals s' < refusals s)%nat);
  refusal_fails bs s e s' : w_write bs s = (inl e, s') →
    (refusals s' ≤ refusals s)%nat ∧ (is_interrupted e = true → (refusals s' < refusals s)%nat);
  refusal_flush s r s' : w_flush s = (r, s') → (refusals s' ≤ refusals s)%nat }.

(** The youngest bytes that fit the buffer. *)
Definition keep (l : list Z) : list Z := drop (length l - MAX_BUFFER_SIZE) l.

Section spec.
Context `{WL : WriterLaws}.

(** One step of a queue that drops its oldest bytes: [sent] leaves it, and of what is left
    the youngest stay. *)
Definition queue_step (buf sent rest : list Z) (s s' : SerialBuffer) : Prop :=
  buffer s ++ buf = sent ++ rest ∧ delivered (out s') = delivered (out s) ++ sent ∧ buffer s' = keep rest.

(** A write that succeeds, of bytes that fit into the buffer with those that wait. *)
Definition fits (buf : list Z) (r : res io_error Z) (s : SerialBuffer) : bool :=
  match r with Ok _ => (length (buffer s) + length buf <=? MAX_BUFFER_SIZE)%nat | _ => false end.

(** The buffers that calls lead to which return, with all bytes written so far and whether
    each write did fit. *)
Inductive serial_reach (s0 : SerialBuffer) : SerialBuffer → list Z → bool → Prop :=
| serial_new : serial_reach s0 s0 [] true
| serial_write s h whole fuel w w' buf r s' :
    serial_reach s0 s h whole → write fuel w w' buf s = (r, s') → r ≠ Hang →
    serial_reach s0 s' (h ++ buf) (whole && fits buf r s)
| serial_flush s h whole fuel w r s' :
    serial_reach s0 s h whole → flush fuel w s = (r, s') → r ≠ Hang → serial_reach s0 s' h whole.

#[local] Opaque MAX_BUFFER_SIZE.

Lemma fill_buffer_keep buf s : buffer (fill_buffer buf s) = keep (buffer s ++ buf).
Proof.
  unfold fill_buffer, keep. rewrite length_app. destruct (Nat.leb_spec MAX_BUFFER_SIZE (length buf)); simpl.
  - rewrite drop_app_ge by lia. f_equal. lia.
  - destruct (Nat.ltb_spec (MAX_BUFFER_SIZE - length buf) (length (buffer s))).
    + rewrite drop_app_le by lia. do 2 f_equal. lia.
    + replace (length (buffer s) + length buf - MAX_BUFFER_SIZE)%nat with 0%nat by lia. by rewrite drop_0.
Qed.

Lemma fill_buffer_out buf s : out (fill_buffer buf s) = out s.
Proof. unfold fill_buffer. by case_match. Qed.

Lemma length_keep l : (length (keep l) ≤ MAX_BUFFER_SIZE)%nat.
Proof. unfold keep. rewrite length_drop. lia. Qed.

Lemma keep_id l : (length l ≤ MAX_BUFFER_SIZE)%nat → keep l = l.
Proof. intros. unfold keep. by replace (length l - MAX_BUFFER_SIZE)%nat with 0%nat by lia. Qed.

Lemma sublist_keep l : sublist (keep l) l.
Proof. apply sublist_drop. Qed.

Lemma write_byte_run fuel byte s r s' :
  write_byte fuel byte s = (r, s') → r ≠ Hang →
  ∃ ok, r = Ok ok ∧ buffer s' = buffer s ∧ delivered (out s') = delivered (out s) ++ (if ok : bool then [byte] else []).
Proof.
  revert s. induction fuel as [|fuel IH]; intros s; cbn [write_byte]; [by intros [= <- _]|]. unfold on_out.
  destruct (w_write [byte] (out s)) as [[e|n] o] eqn:Hw.
  - apply write_fails in Hw as Hd. destruct (is_interrupted e).
    + intros H1 H2. destruct (IH _ H1 H2) as (ok & ? & ? & ?). simpl in *. exists ok. by rewrite <-Hd.
    + intros [= <- <-] _. exists false. simpl. by rewrite app_nil_r.
  - apply write_takes in Hw as (Hn & Hd). unfold zlen in Hn. simpl in Hn. destruct (Z.eqb_spec n 0) as [->|].
    + intros [= <- <-] _. exists false. done.
    + assert (n = 1) as -> by lia. intros [= <- <-] _. exists true. done.
Qed.

Lemma flush_loop_run fuel bytes s r s' :
  flush_loop fuel bytes s = (r, s') → r ≠ Hang →
  ∃ sent rest, r = Ok tt ∧ bytes = sent ++ rest ∧ buffer s' = rest ∧ delivered (out s') = delivered (out s) ++ sent.
Proof.
  revert s. induction bytes as [|byte bytes IH]; intros s; cbn [flush_loop].
  - intros [= <- <-] _. exists [], []. by rewrite !app_nil_r.
  - unfold mbind, M_bind. destruct (write_byte fuel byte s) as [o s1] eqn:Hw. intros H Hr.
    assert (o ≠ Hang) as Ho by (intros ->; injection H as <- _; done).
    destruct (write_byte_run _ _ _ _ _ Hw Ho) as (ok & -> & Hb & Hd). destruct ok.
    + destruct (IH _ H Hr) as (sent & rest & -> & -> & Hb' & Hd'). exists (byte :: sent), rest.
      by rewrite Hd', Hd, <-(assoc_L (++)).
    + injection H as <- <-. exists [], (byte :: bytes). simpl. by rewrite Hd, !app_nil_r.
Qed.

Lemma flush_run fuel w s r s' :
  flush fuel w s = (r, s') → r ≠ Hang →
  ∃ sent rest, (r = Ok tt ∨ ∃ e, r = Err e) ∧ buffer s = sent ++ rest ∧ buffer s' = rest ∧
    delivered (out s') = delivered (out s) ++ sent.
Proof.
  unfold flush. destruct w; cbn [negb].
  2: { intros [= <- <-] _. exists [], (buffer s). rewrite app_nil_r. auto. }
  erewrite m_bind_run by done. unfold mbind, M_bind. destruct (flush_loop fuel (buffer s) s) as [o s1] eqn:Hl. intros H Hr.
  assert (o ≠ Hang) as Ho by (intros ->; injection H as <- _; done).
  destruct (flush_loop_run _ _ _ _ _ Hl Ho) as (sent & rest & -> & Hb & Hb1 & Hd). unfold on_out in H.
  destruct (w_flush (out s1)) as [f o] eqn:Hw. apply flush_keeps in Hw as Hk. injection H as <- <-. exists sent, rest.
  split; [destruct f as [e|[]]; eauto|]. simpl. by rewrite Hk.
Qed.

Lemma write_loop_run fuel rest s r s' :
  buffer s = [] → write_loop fuel rest s = (r, s') → r ≠ Hang →
  ∃ sent left, rest = sent ++ left ∧ delivered (out s') = delivered (out s) ++ sent ∧
    match r with Ok _ => buffer s' = keep left | Err e => would_block e = false ∧ buffer s' = [] | _ => False end.
Proof.
  revert rest s. induction fuel as [|fuel IH]; intros rest s Hb; cbn [write_loop]; [by intros [= <- _]|]. unfold on_out.
  destruct (w_write rest (out s)) as [[e|n] o] eqn:Hw.
  - apply write_fails in Hw as Hd. destruct (would_block e) eqn:He; simpl; intros [= <- <-] _.
    + exists [], rest. rewrite fill_buffer_keep, fill_buffer_out, app_nil_r. simpl. by rewrite Hb.
    + exists [], rest. rewrite app_nil_r. auto.
  - apply write_takes in Hw as (Hn & Hd). destruct (Z.ltb_spec n (zlen rest)).
    + intros H1 H2. destruct (IH (drop (Z.to_nat n) rest) {| buffer := buffer s; out := o |} Hb H1 H2)
        as (sent & left & Hs & Hd' & Hr). simpl in *.
      exists (take (Z.to_nat n) rest ++ sent), left. by rewrite Hd', Hd, <-!(assoc_L (++)), <-Hs, take_drop.
    + intros [= <- <-] _. assert (n = zlen rest) as -> by lia. exists rest, []. simpl.
      rewrite app_nil_r, Hd. unfold zlen. rewrite Nat2Z.id, firstn_all. auto.
Qed.

Lemma serial_write_run fuel w w' buf s r s' :
  (length (buffer s) ≤ MAX_BUFFER_SIZE)%nat → write fuel w w' buf s = (r, s') → r ≠ Hang →
  ∃ sent rest, (length (buffer s') ≤ MAX_BUFFER_SIZE)%nat ∧ buffer s ++ buf = sent ++ rest ∧
    delivered (out s') = delivered (out s) ++ sent ∧ sublist (buffer s') rest ∧
    match r with Ok n => n = zlen buf ∧ buffer s' = keep rest | Err _ => w = true | _ => False end.
Proof.
  intros Hm. unfold write. destruct w; cbn [negb].
  2: { erewrite m_bind_run by done. intros [= <- <-] _. exists [], (buffer s ++ buf).
       rewrite fill_buffer_keep, fill_buffer_out, app_nil_r. auto 6 using length_keep, sublist_keep. }
  unfold mbind at 1, M_bind at 1. destruct (flush fuel w' s) as [f s1] eqn:Hf. intros H Hr.
  assert (f ≠ Hang) as Hh by (intros ->; injection H as <- _; done).
  destruct (flush_run _ _ _ _ _ Hf Hh) as (sent & rest & Hfr & Hb & Hb1 & Hd).
  assert (length rest ≤ MAX_BUFFER_SIZE)%nat by (rewrite Hb, length_app in Hm; lia).
  destruct Hfr as [-> | [e ->]].
  2: { injection H as <- <-. exists sent, (rest ++ buf). rewrite Hb, Hb1, (assoc_L (++)).
       split; [done|]. split; [done|]. split; [done|]. split; [by apply sublist_inserts_r|done]. }
  erewrite m_bind_run in H by done. case_bool_decide as Hnil; cbn [negb] in H.
  2: { erewrite m_bind_run in H by done. injection H as <- <-. exists sent, (rest ++ buf).
       rewrite fill_buffer_keep, fill_buffer_out, Hb, Hb1, (assoc_L (++)). auto 6 using length_keep, sublist_keep. }
  subst rest. rewrite Hnil, app_nil_r in Hb. unfold mbind at 1, M_bind at 1 in H.
  destruct (write_loop fuel buf s1) as [l s2] eqn:Hw. assert (l ≠ Hang) as Hlh by (intros ->; injection H as <- _; done).
  destruct (write_loop_run _ _ _ _ _ Hnil Hw Hlh) as (sent' & left & Hs & Hd2 & Hl).
  exists (sent ++ sent'), left.
  assert (buffer s ++ buf = (sent ++ sent') ++ left) as Hall by (rewrite Hb, Hs; by rewrite (assoc_L (++))).
  rewrite (assoc_L (++) (delivered _)). destruct l as [[]|e| |]; try done.
  2: { injection H as <- <-. destruct Hl as [_ ->]. rewrite Hd2, Hd. simpl. split; [lia|]. auto using sublist_nil_l. }
  unfold mbind, M_bind, on_out in H. destruct (w_flush (out s2)) as [g o] eqn:Hfl. apply flush_keeps in Hfl as Hk.
  destruct g as [e|[]]; injection H as <- <-; simpl; rewrite Hk, Hl, Hd2, Hd; auto 6 using length_keep, sublist_keep.
Qed.

(** C36: the console is a queue, whatever the device behind it takes: in any sequence of
    writes and flushes that return, what the device has got followed by what waits is what
    was written, in its order, with some bytes left out, and at most a megabyte waits.
    Nothing is left out as long as each write succeeds and is of bytes that fit into the
    buffer with those that wait. *)
Theorem serial_fifo o s h whole :
  delivered o = [] → serial_reach (buffer_new o) s h whole →
  (length (buffer s) ≤ MAX_BUFFER_SIZE)%nat ∧ sublist (delivered (out s) ++ buffer s) h ∧
  (whole = true → delivered (out s) ++ buffer s = h).
Proof.
  intros Ho. induction 1 as [|s h whole fuel w w' buf r s' _ IH Hw Hr|s h whole fuel w r s' _ IH Hf Hr].
  - simpl. rewrite Ho. split; [lia|]. done.
  - destruct IH as (Hm & Hsub & Heq).
    destruct (serial_write_run _ _ _ _ _ _ _ Hm Hw Hr) as (sent & rest & Hm' & Hall & Hd & Hsr & Hk).
    split; [done|]. rewrite Hd. split.
    + trans (delivered (out s) ++ buffer s ++ buf); [|rewrite (assoc_L (++)); by apply sublist_app].
      rewrite Hall, <-(assoc_L (++)). apply sublist_app; [done|]. by apply sublist_app.
    + intros [Hwh Hfit]%andb_prop. rewrite <-(Heq Hwh). unfold fits in Hfit. destruct r as [n| | |]; try done.
      destruct Hk as [_ ->]. apply Nat.leb_le in Hfit. rewrite <-!(assoc_L (++)), Hall. do 2 f_equal. apply keep_id.
      apply (f_equal length) in Hall. rewrite !length_app in Hall. lia.
  - destruct IH as (Hm & Hsub & Heq). destruct (flush_run _ _ _ _ _ Hf Hr) as (sent & rest & _ & Hb & Hb1 & Hd).
    rewrite Hd, Hb1, <-(assoc_L (++)), <-Hb. split; [|done]. rewrite Hb, length_app in Hm. lia.
Qed.

(** ** Calls return *)
Section total.
Context {FW : FiniteWriter W}.

Lemma write_byte_ends fuel byte s :
  (refusals (out s) < fuel)%nat →
  (write_byte fuel byte s).1 ≠ Hang ∧ (refusals (out (write_byte fuel byte s).2) ≤ refusals (out s))%nat.
Proof.
  revert s. induction fuel as [|fuel IH]; intros s Hf; [lia|]. cbn [write_byte]. unfold on_out.
  destruct (w_write [byte] (out s)) as [[e|n] o] eqn:Hw.
  - apply refusal_fails in Hw as [Hi Hlt]. destruct (is_interrupted e); [|done].
    destruct (IH {| buffer := buffer s; out := o |}); simpl in *; [specialize (Hlt eq_refl); lia|]. split; [done|lia].
  - apply refusal_takes in Hw as [Hi _]. destruct (n =? 0); [done|]. by destruct (n =? 1).
Qed.

Lemma flush_ends fuel w s :
  (refusals (out s) < fuel)%nat →
  (flush fuel w s).1 ≠ Hang ∧ (refusals (out (flush fuel w s).2) ≤ refusals (out s))%nat.
Proof.
  intros Hf. unfold flush. destruct w; [|done]. cbn [negb]. erewrite m_bind_run by done.
  assert (∀ bytes s1, (refusals (out s1) < fuel)%nat → (flush_loop fuel bytes s1).1 ≠ Hang ∧
    (refusals (out (flush_loop fuel bytes s1).2) ≤ refusals (out s1))%nat) as Hl.
  { clear. induction bytes as [|byte bytes IH]; intros s Hf; cbn [flush_loop]; [done|]. unfold mbind, M_bind.
    destruct (write_byte_ends fuel byte s Hf) as [N1 R1]. destruct (write_byte fuel byte s) as [[[]| | |] s1]; simpl in *; try done.
    destruct (IH s1); [lia|]. split; [done|lia]. }
  destruct (Hl (buffer s) s Hf) as [N1 R1]. unfold mbind, M_bind.
  destruct (flush_loop fuel (buffer s) s) as [[]s1]; simpl in *; try done. unfold on_out.
  destruct (w_flush (out s1)) as [f o] eqn:Hw. apply refusal_flush in Hw. simpl. split; [by destruct f|lia].
Qed.

Lemma write_loop_ends fuel rest s :
  (length rest + refusals (out s) < fuel)%nat → (write_loop fuel rest s).1 ≠ Hang.
Proof using WL FW.
  revert rest s. induction fuel as [|fuel IH]; intros rest s Hf; [lia|]. cbn [write_loop]. unfold on_out.
  destruct (w_write rest (out s)) as [[e|n] o] eqn:Hw; [by destruct (would_block e)|].
  pose proof (write_takes _ _ _ _ Hw) as [Hn _]. apply refusal_takes in Hw as [Hi Hz].
  destruct (Z.ltb_spec n (zlen rest)); [|done]. apply IH. simpl. rewrite length_drop. unfold zlen in *.
  destruct (decide (n = 0)) as [->|]; [|lia]. assert (rest ≠ []) by (intros ->; simpl in *; lia).
  specialize (Hz ltac:(done) eq_refl). lia.
Qed.

(** Every write to the console buffer returns, and does what a queue does that drops
    its oldest bytes: it takes all bytes, some prefix of what was waiting and what is new
    has gone to the device, and of the rest the youngest megabyte is kept.  It fails only
    when it may write to the device; also then the device has got a prefix. *)
Theorem write_spec fuel w w' buf s :
  (length buf + refusals (out s) < fuel)%nat → (length (buffer s) ≤ MAX_BUFFER_SIZE)%nat →
  ∃ r s' sent rest, write fuel w w' buf s = (r, s') ∧ (length (buffer s') ≤ MAX_BUFFER_SIZE)%nat ∧
    match r with
    | Ok n => n = zlen buf ∧ queue_step buf sent rest s s'
    | Err _ => w = true ∧ buffer s ++ buf = sent ++ rest ∧ delivered (out s') = delivered (out s) ++ sent
    | _ => False
    end.
Proof using WL FW.
  intros Hl Hm. assert ((write fuel w w' buf s).1 ≠ Hang) as Hh.
  { unfold write. destruct w; [|done]. cbn [negb]. destruct (flush_ends fuel w' s) as [N1 R1]; [lia|].
    unfold mbind, M_bind. destruct (flush fuel w' s) as [[]s1]; simpl in *; try done. unfold get.
    destruct (negb _); [done|]. pose proof (write_loop_ends fuel buf s1 ltac:(lia)) as N2.
    destruct (write_loop fuel buf s1) as [[]s2]; simpl in *; try done. unfold on_out. by destruct (w_flush (out s2)) as [[] ?]. }
  destruct (write fuel w w' buf s) as [r s'] eqn:Hw.
  destruct (serial_write_run _ _ _ _ _ _ _ Hm Hw Hh) as (sent & rest & Hm' & Hall & Hd & _ & Hr).
  exists r, s', sent, rest. split; [done|]. split; [done|]. destruct r as [n|e| |]; [|auto|done..]. by destruct Hr.
Qed.
End total.

(** A write that fails may have delivered bytes before, which it does not report. *)
Lemma write_error_delivers fuel n e buf s o o' :
  buffer s = [] → w_write buf (out s) = (inr n, o) → n < zlen buf →
  w_write (drop (Z.to_nat n) buf) o = (inl e, o') → would_block e = false →
  write_loop (S (S fuel)) buf s = (Err e, {| buffer := []; out := o' |}) ∧ delivered o' = delivered (out s) ++ take (Z.to_nat n) buf.
Proof.
  intros Hb Hw Hn He Hwb. cbn [write_loop]. unfold on_out. rewrite Hw. destruct (Z.ltb_spec n (zlen buf)); [|lia].
  simpl. rewrite He, Hwb, Hb. split; [done|]. apply write_takes in Hw as (_ & <-). by apply write_fails in He.
Qed.
End spec.

(** A device that takes nothing keeps the loop turning: only [WouldBlock] and a complete
    write end it. *)
Lemma zero_write_hangs {W : Writer} fuel buf s :
  buf ≠ [] → (∀ o, w_write buf o = (inr 0, o)) → (write_loop fuel buf s).1 = Hang.
Proof.
  intros Hne Hz. revert s. induction fuel as [|fuel IH]; intros s; [done|]. cbn [write_loop]. unfold on_out. rewrite Hz.
  destruct (Z.ltb_spec 0 (zlen buf)); [apply IH|]. destruct buf; [done|]. unfold zlen in *. simpl in *. lia.
Qed.

(** A device that takes two bytes at a time and none in between while it has room, and
    then would block. *)
#[export] Instance slow_writer : Writer := {
  wst := list Z * nat;
  w_write bs s :=
    if (s.2 =? 0)%nat then (inl (Os EAGAIN), s)
    else if Nat.even s.2 then (inr 0, (s.1, (s.2 - 1)%nat))
    else (inr (Z.of_nat (length (take 2 bs))), (s.1 ++ take 2 bs, (s.2 - 1)%nat));
  w_flush s := (inr tt, s) }.
#[export, refine] Instance slow_laws : WriterLaws slow_writer := { delivered s := s.1 }.
Proof.
  - intros bs [d room] n s'. simpl. case_match; [done|]. case_match; intros [= <- <-]; simpl.
    + pose proof (zlen_nonneg bs). split; [lia|]. by rewrite app_nil_r.
    + rewrite length_take. unfold zlen. split; [lia|]. f_equal. destruct bs as [|x [|y bs]]; simpl; done.
  - intros bs [d room] e s'. simpl. case_match; [by intros [= <- <-]|]. by case_match.
  - intros [d room] r s'. simpl. by intros [= <- <-].
Defined.
#[export, refine] Instance slow_finite : FiniteWriter slow_writer := { refusals s := s.2 }.
Proof.
  - intros bs [d room] n s'. simpl. case_match eqn:E; [done|]. apply Nat.eqb_neq in E. case_match; intros [= <- <-]; simpl; lia.
  - intros bs [d room] e s'. simpl. case_match; [by intros [= <- <-]|]. by case_match.
  - intros [d room] r s'. simpl. by intros [= <- <-].
Defined.

Definition device (taken : list Z) (room : nat) : wst := (taken, room).
Definition console (taken waiting : list Z) (room : nat) : SerialBuffer := {| buffer := waiting; out := device taken room |}.

Lemma write_spec_witness :
  ∃ r s', write 10 true true [5; 6; 7] (console [] [] 3) = (r, s') ∧ delivered (out s') = [5; 6; 7] ∧ buffer s' = [] ∧
    ∃ sent rest, queue_step [5; 6; 7] sent rest (console [] [] 3) s'.
Proof.
  destruct (write_spec 10 true true [5; 6; 7] (console [] [] 3)) as (r & s' & sent & rest & Hw & _ & Hr);
    [simpl; lia|apply Nat.leb_le; vm_compute; reflexivity|].
  vm_compute in Hw. injection Hw as <- <-. eexists _, _. split; [vm_compute; reflexivity|]. split; [done|]. split; [done|].
  exists sent, rest. apply Hr.
Defined.

Lemma serial_fifo_witness : delivered (out (console [1; 2] [3] 0)) ++ buffer (console [1; 2] [3] 0) = [1; 2; 3].
Proof.
  apply (serial_fifo (device [] 1) (console [1; 2] [3] 0) [1; 2; 3] true); [done| |done].
  apply (serial_write _ (buffer_new (device [] 1)) [] true 10 true true [1; 2; 3] (Ok 3)); [constructor|vm_compute; reflexivity|done].
Defined.

End SerialBuffer.
