(* ===== verification/OptionParser.v ===== *)
(** * The option parser

    Model of the crate [option_parser] ([lib.rs]): the comma-separated [key=value]
    strings of the command line.  [split_commas], [OptionParser], and the types that a
    value converts to.  The theorems say how a string is split, that no value read from
    the command line makes a conversion panic, but for lists of integers that are too long,
    and that values survive being printed. *)

From S2P Require Import Prelude RustStr.

Module OptionParser.

Inductive OptionParserError :=
| UnknownOption (s : str)
| InvalidSyntax (s : str)
| Conversion (field value : str)
| InvalidValue (s : str).

Global Instance OptionParserError_eq_dec : EqDecision OptionParserError.
Proof. solve_decision. Defined.

Definition LBRACKET : Z := 91.
Definition RBRACKET : Z := 93.
Definition EQUALS : Z := 61.
Definition AT : Z := 64.

(** The loop of [split_commas].  The number of open brackets is bounded by the length of
    the string, so that it does not overflow. *)
Fixpoint split_loop (s : str) (acc : list str) (opened_brackets : Z) (in_quotes : bool) (current : str) : option (list str) :=
  match s with
  | [] => if in_quotes || negb (opened_brackets =? 0) then None else Some (acc ++ [current])
  | c :: s' =>
      if c =? DQUOTE then split_loop s' acc opened_brackets (negb in_quotes) (current ++ [c])
      else if in_quotes then split_loop s' acc opened_brackets in_quotes (current ++ [c])
      else if c =? LBRACKET then split_loop s' acc (opened_brackets + 1) in_quotes (current ++ [c])
      else if c =? RBRACKET then
        if opened_brackets <? 1 then None
        else split_loop s' acc (opened_brackets - 1) in_quotes (current ++ [c])
      else if (c =? COMMA) && (opened_brackets =? 0) then split_loop s' (acc ++ [current]) opened_brackets in_quotes []
      else split_loop s' acc opened_brackets in_quotes (current ++ [c])
  end.

Definition split_commas (s : str) : res OptionParserError (list str) :=
  match split_loop (trim s) [] 0 false [] with
  | Some l => Ok l
  | None => Err (InvalidSyntax s)
  end.

Record OptionParserValue := { value : option str; requires_value : bool }.
Notation OptionParser := (gmap str OptionParserValue).

Definition parser_new : OptionParser := ∅.

Definition forbidden (c : Z) : bool :=
  (c =? DQUOTE) || (c =? LBRACKET) || (c =? RBRACKET) || (c =? EQUALS) || (c =? COMMA).

Definition add {E} (option : str) : M OptionParser E unit := λ p,
  if existsb forbidden option then (Panic, p)
  else (Ok tt, <[option := {| value := None; requires_value := true |}]> p).

Definition add_all {E} (options : list str) : M OptionParser E unit := for_ options add.

Definition add_valueless (option : str) (p : OptionParser) : OptionParser :=
  <[option := {| value := None; requires_value := false |}]> p.

(** The body of the loop of [parse_inner]. *)
Definition parse_option (ignore_unknown : bool) (option : str) : M OptionParser OptionParserError unit := λ p,
  let '(key, rest) := splitn2 EQUALS option in
  match p !! key with
  | None => if negb ignore_unknown then (Err (UnknownOption key), p) else (Ok tt, p)
  | Some v =>
      if requires_value v then
        match rest with
        | None => (Err (InvalidSyntax option), p)
        | Some s => (Ok tt, <[key := {| value := Some (trim s); requires_value := true |}]> p)
        end
      else (Ok tt, <[key := {| value := Some []; requires_value := false |}]> p)
  end.

Definition parse_inner (input : str) (ignore_unknown : bool) : M OptionParser OptionParserError unit :=
  if bool_decide (trim input = []) then mret tt
  else
    options ← lift (split_commas input);
    for_ options (parse_option ignore_unknown).

Definition parse (input : str) : M OptionParser OptionParserError unit := parse_inner input false.
Definition parse_subset (input : str) : M OptionParser OptionParserError unit := parse_inner input true.

Fixpoint dequote_loop (s : str) (prev_byte : Z) (in_quotes : bool) (out : str) : option str :=
  match s with
  | [] => if in_quotes then None else Some out
  | i :: s' =>
      if i =? DQUOTE then
        dequote_loop s' i (negb in_quotes) (if (prev_byte =? DQUOTE) && negb in_quotes then out ++ [DQUOTE] else out)
      else dequote_loop s' i in_quotes (out ++ [i])
  end.

(** It panics on unbalanced quotes. *)
Definition dequote {E} (s : str) : res E str := unwrap (dequote_loop s 0 false []).

Definition get {E : Type} (option : str) (p : OptionParser) : res E (Datatypes.option str) :=
  match p !! option with
  | Some {| value := Some s |} => if bool_decide (s = []) then Ok None else Some <$> dequote s
  | _ => Ok None
  end.

Definition is_set (option : str) (p : OptionParser) : bool :=
  match p !! option with Some {| value := Some _ |} => true | _ => false end.

(** [from_str] is the method of the trait [Parseable] that the type selects. *)
Definition convert {E T} (from_str : str → res E T) (option : str) (p : OptionParser) :
  res OptionParserError (Datatypes.option T) :=
  match p !! option with
  | Some {| value := Some v |} =>
      if bool_decide (v = []) then Ok None else Some <$> map_err (λ _, Conversion option v) (from_str v)
  | _ => Ok None
  end.

(** ** The types of values *)

(** [Parseable] for a type with [FromStr]. *)
Definition of_from_str {E T} (parse : str → res E T) (s : str) : res E T := d ← dequote s; parse d.

Inductive Toggle := mk_toggle (b : bool).
Definition toggle_from_str (s : str) : res str Toggle :=
  let l := to_lowercase s in
  if bool_decide (l = []) then Ok (mk_toggle false)
  else if bool_decide (l = lit "on") then Ok (mk_toggle true)
  else if bool_decide (l = lit "off") then Ok (mk_toggle false)
  else if bool_decide (l = lit "true") then Ok (mk_toggle true)
  else if bool_decide (l = lit "false") then Ok (mk_toggle false)
  else Err s.

Definition is_suffix (c : Z) : bool := (c =? 75) || (c =? 77) || (c =? 71).

(** [<<] on [u64] drops the bits that leave the word. *)
Definition bytesized_from_str (s : str) : res str Z :=
  let s := trim s in
  let shift := if ends_with 75 s then 10 else if ends_with 77 s then 20 else if ends_with 71 s then 30 else 0 in
  let s := trim_end_matches is_suffix s in
  match parse_uint U64_MAX s with
  | Ok n => Ok (Z.shiftl n shift mod 2 ^ 64)
  | Err _ => Err s
  | Panic => Panic
  | Hang => Hang
  end.

Definition integer_list_display (l : list Z) : str := [LBRACKET] ++ join COMMA (show_u64 <$> l) ++ [RBRACKET].

Definition is_bracket (c : Z) : bool := (c =? LBRACKET) || (c =? RBRACKET).

(** The elements of a [Vec<u64>] that grows by [push]: it doubles its capacity, and 2^60
    elements of 8 bytes are more than [isize::MAX]. *)
Definition VEC_MAX : Z := 2 ^ 59.

(** One element of the list: a number or a range. *)
Definition parse_range (integer_list : list Z) (range : str) : res str (list Z) :=
  match split 45 range with
  | [a] =>
      start ← map_err (λ _, a) (parse_uint U64_MAX a);
      if VEC_MAX <=? zlen integer_list then Panic else Ok (integer_list ++ [start])
  | [a; b] =>
      start ← map_err (λ _, a) (parse_uint U64_MAX a);
      if VEC_MAX <=? zlen integer_list then Panic
      else
        stop ← map_err (λ _, b) (parse_uint U64_MAX b);
        if stop <=? start then Err range
        else if VEC_MAX <? zlen integer_list + 1 + (stop - start) then Panic
        else Ok (integer_list ++ [start] ++ ((λ i, i + 1) <$> seqZ start (stop - start)))
  | _ => Err range
  end.

Definition integer_list_from_str (s : str) : res str (list Z) :=
  foldM parse_range [] (split COMMA (trim_matches is_bracket (trim s))).

Inductive TupleError :=
| TInvalidValue (s : str)
| SplitOutsideBrackets (e : OptionParserError)
| InvalidIntegerList (s : str)
| InvalidInteger (e : ParseIntError).

(** The trait [TupleValue]: [u64], and the vectors, whose elements are cut to their width. *)
Definition tuple_u64 (s : str) : res TupleError Z := map_err InvalidInteger (parse_uint U64_MAX s).
Definition tuple_vec (width : Z) (s : str) : res TupleError (list Z) :=
  l ← map_err InvalidIntegerList (integer_list_from_str s); Ok (map (λ v, v mod 2 ^ width) l).

Definition strip_prefix (c : Z) (s : str) : option str :=
  match s with x :: s' => if x =? c then Some s' else None | [] => None end.
Definition strip_suffix (c : Z) (s : str) : option str :=
  if bool_decide (last s = Some c) then Some (take (length s - 1) s) else None.

(** The loop over the bytes of a pair: where the part after the separator starts, and the
    part before it. *)
Fixpoint tuple_loop (tuple rest : str) (idx : nat) (in_quotes : bool) (last_idx : nat) (first_val : option str) :
  option (nat * option str) :=
  match rest with
  | [] => Some (last_idx, first_val)
  | c :: rest' =>
      if c =? DQUOTE then tuple_loop tuple rest' (S idx) (negb in_quotes) last_idx first_val
      else if (c =? AT) && negb in_quotes then
        if negb (last_idx =? 0)%nat then None
        else tuple_loop tuple rest' (S idx) in_quotes (S idx) (Some (take (idx - last_idx) (drop last_idx tuple)))
      else tuple_loop tuple rest' (S idx) in_quotes last_idx first_val
  end.

Definition tuple_item {E S T} (from_str : str → res E S) (parse_value : str → res TupleError T) (acc : list (S * T)) (tuple : str) :
  res TupleError (list (S * T)) :=
  match tuple_loop tuple tuple 0 false 0 None with
  | None => Err (TInvalidValue tuple)
  | Some (_, None) => Err (TInvalidValue tuple)
  | Some (last_idx, Some first) =>
      item1 ← map_err (λ _, TInvalidValue first) (from_str first);
      item2 ← parse_value (drop last_idx tuple);
      Ok (acc ++ [(item1, item2)])
  end.

Definition tuple_from_str {E S T} (from_str : str → res E S) (parse_value : str → res TupleError T) (s : str) : res TupleError (list (S * T)) :=
  match strip_prefix LBRACKET (trim s) ≫= strip_suffix RBRACKET with
  | None => Err (TInvalidValue s)
  | Some body =>
      tuples ← map_err SplitOutsideBrackets (split_commas body);
      foldM (tuple_item from_str parse_value) [] tuples
  end.

Definition string_list_from_str (s : str) : res str (list str) :=
  map_err (λ _, s) (split_commas (trim_matches is_bracket (trim s))).

(** ** What the parser promises *)

(** One character of a piece: the open brackets and whether a quote is open; none where
    the piece would end or a bracket closes that is not open. *)
Definition pstep (st : Z * bool) (c : Z) : option (Z * bool) :=
  let '(n, q) := st in
  if c =? DQUOTE then Some (n, negb q)
  else if q then Some (n, q)
  else if c =? LBRACKET then Some (n + 1, q)
  else if c =? RBRACKET then if n <? 1 then None else Some (n - 1, q)
  else if (c =? COMMA) && (n =? 0) then None
  else Some (n, q).
Fixpoint pscan (st : Z * bool) (s : str) : option (Z * bool) :=
  match s with
  | [] => Some st
  | c :: s' => match pstep st c with Some st' => pscan st' s' | None => None end
  end.

(** Balanced, and with no comma outside quotes and brackets. *)
Definition piece (s : str) : Prop := pscan (0, false) s = Some (0, false).

(** Whether a quote is open after [s]. *)
Fixpoint after (q : bool) (s : str) : bool :=
  match s with [] => q | c :: s' => after (if c =? DQUOTE then negb q else q) s' end.

(** A value that [dequote] accepts. *)
Definition balanced (s : str) : Prop := after false s = false.

(** A string in quotes, with its quotes doubled. *)
Definition quote (s : str) : str :=
  [DQUOTE] ++ (s ≫= λ c, if c =? DQUOTE then [DQUOTE; DQUOTE] else [c]) ++ [DQUOTE].

(** A result that is a value or an error. *)
Definition returns {E A} (r : res E A) : Prop := match r with Ok _ | Err _ => True | _ => False end.

(** The conversions that do not panic on a balanced value. *)
Definition safe {E T} (from_str : str → res E T) : Prop := ∀ s, balanced s → returns (from_str s).

Inductive parser_op :=
| PAdd (option : str)
| PAddValueless (option : str)
| PParse (input : str) (ignore_unknown : bool).
Definition parser_exec (o : parser_op) : M OptionParser OptionParserError unit :=
  match o with
  | PAdd k => add k
  | PAddValueless k => modify (add_valueless k)
  | PParse s u => parse_inner s u
  end.

(** The parsers that calls lead to, also calls that fail. *)
Inductive parser_reach : OptionParser → Prop :=
| reach_new : parser_reach parser_new
| reach_op p o r p' : parser_reach p → parser_exec o p = (r, p') → parser_reach p'.

Record parser_ok (p : OptionParser) : Prop := {
  ok_names k v : p !! k = Some v → requires_value v = true → existsb forbidden k = false;
  ok_values k v s : p !! k = Some v → value v = Some s → balanced s }.

(** *** Splitting *)

Lemma pscan_app st a b : pscan st (a ++ b) = match pscan st a with Some st' => pscan st' b | None => None end.
Proof. revert st. induction a as [|c a IH]; intros st; simpl; [done|]. destruct (pstep st c); [apply IH|done]. Qed.

Lemma split_loop_step c s acc n q cur n' q' :
  pstep (n, q) c = Some (n', q') → split_loop (c :: s) acc n q cur = split_loop s acc n' q' (cur ++ [c]).
Proof. simpl. repeat case_match; naive_solver. Qed.

(** The loop over a piece. *)
Lemma split_loop_piece p s acc n q cur n' q' :
  pscan (n, q) p = Some (n', q') → split_loop (p ++ s) acc n q cur = split_loop s acc n' q' (cur ++ p).
Proof.
  revert n q cur. induction p as [|c p IH]; intros n q cur; [simpl; intros [= <- <-]; by rewrite app_nil_r|].
  cbn [pscan]. destruct (pstep (n, q) c) as [[n1 q1]|] eqn:Hs; [|done]. intros Hp.
  rewrite <-app_comm_cons, (split_loop_step _ _ _ _ _ _ _ _ Hs), (IH _ _ _ Hp), <-(assoc_L (++)). done.
Qed.

Lemma split_loop_join l acc :
  l ≠ [] → Forall piece l → split_loop (join COMMA l) acc 0 false [] = Some (acc ++ l).
Proof.
  intros Hne. revert acc. induction l as [|p [|p' l] IH]; intros acc Hl; [done|..]; apply Forall_cons in Hl as [Hp Hl].
  - cbn [join]. rewrite <-(app_nil_r p) at 1. by rewrite (split_loop_piece _ _ _ _ _ _ _ _ Hp).
  - change (join COMMA (p :: p' :: l)) with (p ++ COMMA :: join COMMA (p' :: l)).
    rewrite (split_loop_piece _ _ _ _ _ _ _ _ Hp), app_nil_l. change (split_loop (COMMA :: ?s) acc 0 false p) with (split_loop s (acc ++ [p]) 0 false []).
    rewrite IH by done. by rewrite <-(assoc_L (++)).
Qed.

Lemma split_loop_Some s acc n q cur l :
  pscan (0, false) cur = Some (n, q) → 0 ≤ n → split_loop s acc n q cur = Some l →
  ∃ l', l = acc ++ l' ∧ l' ≠ [] ∧ join COMMA l' = cur ++ s ∧ Forall piece l'.
Proof.
  revert acc n q cur. induction s as [|c s IH]; intros acc n q cur Hc Hn.
  - simpl. destruct q; [done|]. destruct (Z.eqb_spec n 0) as [->|]; [|done]. intros [= <-]. exists [cur].
    rewrite app_nil_r. split; [done|]. split; [done|]. split; [done|]. by constructor.
  - destruct (pstep (n, q) c) as [[n' q']|] eqn:Hs.
    + rewrite (split_loop_step _ _ _ _ _ _ _ _ Hs). intros Hl.
      assert (pscan (0, false) (cur ++ [c]) = Some (n', q')) as Hc' by (rewrite pscan_app, Hc; cbn [pscan]; by rewrite Hs).
      assert (0 ≤ n') as Hn' by (unfold pstep in Hs; repeat case_match; simplify_eq; zcases; lia).
      destruct (IH _ _ _ _ Hc' Hn' Hl) as (l' & ? & ? & Hj & ?). exists l'. rewrite <-(assoc_L (++)) in Hj. done.
    + assert (c = COMMA ∧ n = 0 ∧ q = false ∨ split_loop (c :: s) acc n q cur = None) as [(-> & -> & ->)|Hnone].
      { unfold pstep in Hs. simpl. repeat case_match; simplify_eq; zcases; naive_solver. }
      2: { rewrite Hnone. done. }
      change (split_loop (COMMA :: ?s) acc 0 false cur) with (split_loop s (acc ++ [cur]) 0 false []). intros Hl.
      destruct (IH _ 0 false [] eq_refl ltac:(done) Hl) as (l' & -> & Hne & Hj & Hf). exists (cur :: l').
      rewrite <-(assoc_L (++)). split; [done|]. split; [done|]. split; [|by constructor]. destruct l'; [done|]. simpl in *. by rewrite Hj.
Qed.

(** How a string is split at its commas: into exactly the pieces, each balanced and
    without a comma outside quotes and brackets, that joined by commas give the string
    without the space around it; there is one way to do so or none, and then the string
    is refused. *)
Theorem split_commas_spec s l :
  (split_commas s = Ok l ↔ l ≠ [] ∧ join COMMA l = trim s ∧ Forall piece l) ∧
  (split_commas s = Err (InvalidSyntax s) ↔ ¬ ∃ l', l' ≠ [] ∧ join COMMA l' = trim s ∧ Forall piece l').
Proof.
  unfold split_commas. assert (∀ l', l' ≠ [] ∧ join COMMA l' = trim s ∧ Forall piece l' ↔ split_loop (trim s) [] 0 false [] = Some l') as Hiff.
  { intros l'. split.
    - intros (Hne & <- & Hf). by rewrite split_loop_join.
    - intros Hl. destruct (split_loop_Some _ _ 0 false [] _ eq_refl ltac:(done) Hl) as (l1 & -> & ? & ? & ?). done. }
  setoid_rewrite Hiff. destruct (split_loop (trim s) [] 0 false []) as [l1|]; split; naive_solver.
Qed.

(** *** No conversion panics *)

Lemma after_app q a b : after q (a ++ b) = after (after q a) b.
Proof. revert q. induction a as [|c a IH]; intros q; simpl; [done|]. apply IH. Qed.

Lemma after_plain q s : Forall (λ c, c ≠ DQUOTE) s → after q s = q.
Proof. induction 1 as [|c s Hc _ IH]; simpl; [done|]. by destruct (Z.eqb_spec c DQUOTE). Qed.

Lemma after_trim_matches p q s : p DQUOTE = false → after q (trim_matches p s) = after q s.
Proof.
  intros Hp. destruct (trim_matches_split p s) as (a & b & Hs & Ha & Hb). rewrite Hs at 2.
  assert (∀ x, Forall (λ c, p c = true) x → Forall (λ c, c ≠ DQUOTE) x) as Hq.
  { intros x Hx. eapply Forall_impl; [exact Hx|]. simpl. congruence. }
  by rewrite !after_app, !(after_plain _ a), (after_plain _ b) by auto.
Qed.

Lemma after_scan n q s n' q' : pscan (n, q) s = Some (n', q') → q' = after q s.
Proof.
  revert n q. induction s as [|c s IH]; intros n q; simpl; [by intros [= <- <-]|].
  unfold pstep. repeat case_match; intros; simplify_eq; eauto.
Qed.

Lemma piece_balanced s : piece s → balanced s.
Proof. intros Hs. symmetry. by eapply after_scan. Qed.

Lemma dequote_loop_run s prev q out : after q s = false → is_Some (dequote_loop s prev q out).
Proof.
  revert prev q out. induction s as [|c s IH]; intros prev q out; simpl; [by intros ->|].
  destruct (Z.eqb_spec c DQUOTE); intros Ha; by apply IH.
Qed.

Lemma dequote_run {E} s : balanced s → ∃ d, dequote (E:=E) s = Ok d.
Proof. intros Hs. unfold dequote. destruct (dequote_loop_run s 0 false [] Hs) as [d ->]. by exists d. Qed.

(** The part of a balanced string after a key without special characters. *)
Lemma value_balanced k v : existsb forbidden k = false → balanced (k ++ EQUALS :: v) → balanced (trim v).
Proof.
  intros Hk. unfold balanced, trim. rewrite after_trim_matches, after_app by done. rewrite (after_plain _ k); [done|].
  apply Forall_forall. intros c Hc ->. assert (existsb forbidden k = true); [|congruence].
  apply existsb_exists. exists DQUOTE. split; [by apply list_elem_of_In|done].
Qed.

Lemma parser_ok_insert p k v :
  parser_ok p → (requires_value v = true → existsb forbidden k = false) → (∀ s, value v = Some s → balanced s) →
  parser_ok (<[k := v]> p).
Proof.
  intros [Hn Hv] Hk Hs. split.
  - intros k' v' [[<- <-]|[? ?]]%lookup_insert_Some; eauto.
  - intros k' v' s [[<- <-]|[? ?]]%lookup_insert_Some; eauto.
Qed.

Lemma parse_option_ok u o p r p' :
  parser_ok p → balanced o → parse_option u o p = (r, p') →
  parser_ok p' ∧ returns r.
Proof.
  intros Hp Ho. unfold parse_option. destruct (splitn2 EQUALS o) as [k rest] eqn:Hk. apply splitn2_spec in Hk as ->.
  destruct (p !! k) as [v|] eqn:Hl; [|destruct u; intros [= <- <-]; done].
  destruct (requires_value v) eqn:Hr.
  - pose proof (ok_names p Hp k v Hl Hr) as Hf. destruct rest as [s|]; intros [= <- <-]; [|done]. split; [|done].
    apply parser_ok_insert; [done|done|]. simpl. intros ? [= <-]. by eapply value_balanced.
  - intros [= <- <-]. split; [|done]. apply parser_ok_insert; [done|done|]. simpl. by intros ? [= <-].
Qed.

Lemma parse_inner_ok s u p r p' :
  parser_ok p → parse_inner s u p = (r, p') → parser_ok p' ∧ returns r.
Proof.
  intros Hp. unfold parse_inner. case_bool_decide; [by intros [= <- <-]|]. unfold split_commas.
  destruct (split_loop (trim s) [] 0 false []) as [l|] eqn:Hl; [|by intros [= <- <-]].
  destruct (split_loop_Some _ _ 0 false [] _ eq_refl ltac:(done) Hl) as (l' & -> & _ & _ & Hf). cbn [app].
  erewrite m_bind_run by done. clear Hl. revert p Hp. induction Hf as [|o l Ho _ IH]; intros p Hp; simpl; [by intros [= <- <-]|].
  unfold mbind, M_bind. destruct (parse_option u o p) as [ro p1] eqn:Ho1.
  destruct (parse_option_ok _ _ _ _ _ Hp (piece_balanced _ Ho) Ho1) as [Hp1 Hro]. destruct ro; [eauto|by intros [= <- <-]|done..].
Qed.

Lemma parser_reach_ok p : parser_reach p → parser_ok p.
Proof.
  induction 1 as [|p o r p' _ IH Hex]; [split; intros k v; by unfold parser_new; rewrite lookup_empty|]. destruct o as [k|k|s u]; simpl in Hex.
  - unfold add in Hex. destruct (existsb forbidden k) eqn:Hf; injection Hex as <- <-; [done|]. by apply parser_ok_insert.
  - injection Hex as <- <-. by apply parser_ok_insert.
  - by eapply parse_inner_ok.
Qed.

Lemma returns_bind {E A B} (m : res E A) (f : A → res E B) : returns m → (∀ a, m = Ok a → returns (f a)) → returns (m ≫= f).
Proof. destruct m; simpl; naive_solver. Qed.

Lemma returns_map_err {E F A} (f : E → F) (m : res E A) : returns (map_err f m) ↔ returns m.
Proof. by destruct m. Qed.

Lemma returns_foldM {E A B} (f : A → B → res E A) a (l : list B) :
  (∀ a x, x ∈ l → returns (f a x)) → returns (foldM f a l).
Proof.
  revert a. induction l as [|x l IH]; intros a Hf; simpl; [done|]. apply returns_bind; [apply Hf; by left|].
  intros b _. apply IH. intros. apply Hf. by right.
Qed.

Lemma parse_uint_safe max s : returns (parse_uint max s).
Proof. apply parse_uint_result. Qed.

Lemma of_from_str_safe {E T} (f : str → res E T) : (∀ s, returns (f s)) → safe (of_from_str f).
Proof. intros Hf s Hs. unfold of_from_str. destruct (dequote_run (E:=E) s Hs) as [d ->]. apply Hf. Qed.

Lemma toggle_safe : safe toggle_from_str.
Proof. intros s _. unfold toggle_from_str. by repeat case_bool_decide. Qed.

Lemma bytesized_returns s : returns (bytesized_from_str s).
Proof.
  unfold bytesized_from_str. cbv zeta. pose proof (parse_uint_safe U64_MAX (trim_end_matches is_suffix (trim s))) as H.
  by destruct (parse_uint U64_MAX _).
Qed.

(** A list of integers is parsed, refused, or longer than a vector can be. *)
Lemma integer_list_result s : returns (integer_list_from_str s) ∨ integer_list_from_str s = Panic.
Proof.
  unfold integer_list_from_str. generalize (split COMMA (trim_matches is_bracket (trim s))) as l. generalize (@nil Z) as acc.
  intros acc l. revert acc. induction l as [|range l IH]; intros acc; [by left|]. cbn [foldM].
  assert (returns (parse_range acc range) ∨ parse_range acc range = Panic) as [Hr| ->]; [| |by right].
  - unfold parse_range. destruct (split 45 range) as [|a [|b [|c ?]]]; try (by left).
    + pose proof (parse_uint_safe U64_MAX a) as Ha. destruct (parse_uint U64_MAX a); try done; cbn; [|by left]. case_match; auto.
    + pose proof (parse_uint_safe U64_MAX a) as Ha. destruct (parse_uint U64_MAX a); try done; cbn; [|by left]. case_match; [by right|].
      pose proof (parse_uint_safe U64_MAX b) as Hb. destruct (parse_uint U64_MAX b); try done; cbn; [|by left]. repeat case_match; auto.
  - destruct (parse_range acc range); try done; [apply IH|by left].
Qed.

Lemma split_commas_returns s : returns (split_commas s).
Proof. unfold split_commas. by case_match. Qed.

Lemma string_list_safe : safe string_list_from_str.
Proof. intros s _. apply returns_map_err, split_commas_returns. Qed.

Lemma tuple_u64_returns s : returns (tuple_u64 s).
Proof. apply returns_map_err, parse_uint_safe. Qed.

(** The part before the separator is balanced: the separator is found outside quotes. *)
Lemma tuple_loop_first tuple pre rest last first l f :
  tuple = pre ++ rest → (last = 0%nat → first = None) → (∀ f', first = Some f' → balanced f') →
  tuple_loop tuple rest (length pre) (after false pre) last first = Some (l, f) → ∀ f', f = Some f' → balanced f'.
Proof.
  revert pre last first. induction rest as [|c rest IH]; intros pre last first Ht Hl Hf; simpl; [by intros [= <- <-]|].
  assert (tuple = (pre ++ [c]) ++ rest) as Ht' by (by rewrite <-(assoc_L (++))).
  assert (length (pre ++ [c]) = S (length pre)) as Hlen by (rewrite length_app; simpl; lia).
  assert (after false (pre ++ [c]) = if c =? DQUOTE then negb (after false pre) else after false pre) as Ha by (by rewrite after_app).
  specialize (IH (pre ++ [c])). rewrite Hlen, Ha in IH. destruct (Z.eqb_spec c DQUOTE); [by apply IH|].
  destruct (Z.eqb_spec c AT); cbn [andb]; [|by apply IH]. destruct (after false pre) eqn:Hq; cbn [negb]; [by apply IH|].
  destruct (Nat.eqb_spec last 0) as [->|]; cbn [negb]; [|done]. apply IH; [done|done|]. intros f' [= <-].
  rewrite drop_0, Nat.sub_0_r, Ht. unfold balanced. by rewrite take_app_length.
Qed.

Lemma tuple_safe {E S T} (from_str : str → res E S) (parse_value : str → res TupleError T) :
  safe from_str → (∀ s, returns (parse_value s)) → safe (tuple_from_str from_str parse_value).
Proof.
  intros Hs Hv s _. unfold tuple_from_str. destruct (_ ≫= _) as [body|]; [|done].
  apply returns_bind; [apply returns_map_err, split_commas_returns|]. intros l _. apply returns_foldM. intros acc tuple _.
  unfold tuple_item. destruct (tuple_loop tuple tuple 0 false 0 None) as [[last [first|]]|] eqn:Hl; [|done..].
  assert (balanced first) as Hb by (eapply (tuple_loop_first tuple [] tuple 0 None); done).
  apply returns_bind; [by apply returns_map_err, Hs|]. intros i _. by apply returns_bind.
Qed.

(** C35: nothing that is read from the command line makes a conversion panic: of every
    parser that registering options and parsing strings lead to, also strings that are
    refused, [get] and [convert] of every option return a value or an error, for every type
    whose conversion is safe on balanced values; the types of the crate are, except for the
    lists of integers, which may be longer than a vector can be ([long_range_panics]). *)
Theorem option_parser_safe {E T} (from_str : str → res E T) p option :
  parser_reach p → safe from_str → returns (get (E:=E) option p) ∧ returns (convert from_str option p) ∧
  ∀ o r p', parser_exec o p = (r, p') → (∀ k, o = PAdd k → existsb forbidden k = false) → returns r.
Proof.
  intros Hp%parser_reach_ok Hs. split; [|split].
  - unfold get. destruct (p !! option) as [[[s|] req]|] eqn:Hl; [|done..]. case_bool_decide; [done|].
    destruct (dequote_run (E:=E) s) as [d ->]; [by eapply ok_values|done].
  - unfold convert. destruct (p !! option) as [[[s|] req]|] eqn:Hl; [|done..]. case_bool_decide; [done|].
    assert (returns (map_err (λ _ : E, Conversion option s) (from_str s))) as Hr by (apply returns_map_err, Hs; by eapply ok_values).
    by destruct (map_err _ _).
  - intros [k|k|s u] r p' Hex Hk; simpl in Hex.
    + unfold add in Hex. rewrite (Hk k) in Hex by done. by injection Hex as <- <-.
    + by injection Hex as <- <-.
    + by eapply parse_inner_ok.
Qed.

(** *** Values survive *)

Definition escape (s : str) : str := s ≫= λ c, if c =? DQUOTE then [DQUOTE; DQUOTE] else [c].

Lemma dequote_escape s rest prev out :
  ∃ prev', dequote_loop (escape s ++ rest) prev true out = dequote_loop rest prev' true (out ++ s).
Proof.
  revert prev out. induction s as [|c s IH]; intros prev out; [exists prev; by rewrite app_nil_r|].
  change (escape (c :: s)) with ((if c =? DQUOTE then [DQUOTE; DQUOTE] else [c]) ++ escape s).
  destruct (Z.eqb_spec c DQUOTE) as [->|Hc]; cbn [app dequote_loop].
  - rewrite Z.eqb_refl, andb_false_r. cbn [negb andb]. destruct (IH DQUOTE (out ++ [DQUOTE])) as [prev' ->]. exists prev'. by rewrite <-(assoc_L (++)).
  - rewrite (proj2 (Z.eqb_neq c DQUOTE) Hc). destruct (IH c (out ++ [c])) as [prev' ->]. exists prev'. by rewrite <-(assoc_L (++)).
Qed.

Lemma dequote_quote {E} s : dequote (E:=E) (quote s) = Ok s.
Proof.
  unfold dequote, quote. fold (escape s). destruct (dequote_escape s [DQUOTE] DQUOTE []) as [prev' Hd].
  change (dequote_loop ([DQUOTE] ++ ?x) 0 false []) with (dequote_loop x DQUOTE true []). rewrite Hd.
  cbn [dequote_loop]. by rewrite Z.eqb_refl, andb_false_r.
Qed.

Lemma pscan_escape n s : pscan (n, true) (escape s) = Some (n, true).
Proof.
  induction s as [|c s IH]; [done|]. change (escape (c :: s)) with ((if c =? DQUOTE then [DQUOTE; DQUOTE] else [c]) ++ escape s).
  rewrite pscan_app. destruct (Z.eqb_spec c DQUOTE) as [->|Hc]; [done|]. cbn [pscan pstep]. by rewrite (proj2 (Z.eqb_neq c DQUOTE) Hc).
Qed.

Lemma piece_quote s : piece (quote s).
Proof.
  unfold piece, quote. fold (escape s). rewrite pscan_app. change (pscan (0, false) [DQUOTE]) with (Some (0, true)). cbv iota.
  by rewrite pscan_app, pscan_escape.
Qed.

Lemma pscan_name k : existsb forbidden k = false → pscan (0, false) k = Some (0, false).
Proof.
  induction k as [|c k IH]; [done|]. cbn [existsb pscan pstep]. intros [Hc Hk]%orb_false_iff. unfold forbidden in Hc.
  repeat (apply orb_false_iff in Hc as [Hc ?]). by repeat match goal with H : (_ =? _) = false |- _ => rewrite H; clear H end; auto.
Qed.

Lemma name_no_equals k : existsb forbidden k = false → EQUALS ∉ k.
Proof.
  intros Hk Hin. assert (existsb forbidden k = true); [|congruence]. apply existsb_exists.
  exists EQUALS. split; [by apply list_elem_of_In|done].
Qed.

(** An option with a quoted value. *)
Definition assignment (kv : str * str) : str := kv.1 ++ EQUALS :: quote kv.2.

Lemma assignment_piece kv : existsb forbidden kv.1 = false → piece (assignment kv).
Proof.
  intros Hk. unfold piece, assignment. rewrite pscan_app, pscan_name by done. cbn [pscan].
  change (pstep (0, false) EQUALS) with (Some (0, false)). apply piece_quote.
Qed.

Lemma last_quote s : last (quote s) = Some DQUOTE.
Proof. unfold quote. rewrite (assoc_L (++)). apply last_snoc. Qed.

Lemma trim_quote s : trim (quote s) = quote s.
Proof. apply trim_matches_id; intros c; [by intros [= <-]|]. rewrite last_quote. by intros [= <-]. Qed.

Lemma last_assignments kvs : kvs ≠ [] → last (join COMMA (assignment <$> kvs)) = Some DQUOTE.
Proof.
  assert (∀ kv, last (assignment kv) = Some DQUOTE) as Ha.
  { intros kv. unfold assignment. rewrite last_app_cons. change (EQUALS :: quote kv.2) with ([EQUALS] ++ quote kv.2). by rewrite last_app, last_quote. }
  intros Hne. induction kvs as [|kv [|kv' kvs] IH]; [done|apply Ha|].
  change (join COMMA (assignment <$> kv :: kv' :: kvs)) with (assignment kv ++ COMMA :: join COMMA (assignment <$> kv' :: kvs)).
  rewrite last_app_cons. change (COMMA :: ?x) with ([COMMA] ++ x). rewrite last_app, IH; done.
Qed.

Lemma parse_assignment p v k s u :
  existsb forbidden k = false → p !! k = Some v → requires_value v = true →
  parse_option u (assignment (k, s)) p = (Ok tt, <[k := {| value := Some (quote s); requires_value := true |}]> p).
Proof. intros Hk Hl Hr. unfold parse_option, assignment. simpl. rewrite splitn2_app by (by apply name_no_equals). by rewrite Hl, Hr, trim_quote. Qed.

Lemma parse_assignments kvs p u :
  NoDup kvs.*1 → Forall (λ k, existsb forbidden k = false ∧ ∃ v, p !! k = Some v ∧ requires_value v = true) kvs.*1 →
  ∃ p', for_ (assignment <$> kvs) (parse_option u) p = (Ok tt, p') ∧
    (∀ k, k ∉ kvs.*1 → p' !! k = p !! k) ∧ ∀ k s, (k, s) ∈ kvs → p' !! k = Some {| value := Some (quote s); requires_value := true |}.
Proof.
  revert p. induction kvs as [|[k s] kvs IH]; intros p Hnd Hf; [exists p; split; [done|]; split; [done|]; by intros ? ? ?%not_elem_of_nil|].
  apply NoDup_cons in Hnd as [Hk Hnd]. apply Forall_cons in Hf as [(Hfk & v & Hv & Hr) Hf]. cbn [fmap list_fmap for_].
  erewrite m_bind_run by (by eapply parse_assignment).
  destruct (IH (<[k := {| value := Some (quote s); requires_value := true |}]> p)) as (p' & -> & Hother & Hin); [done| |].
  { rewrite Forall_forall in *. intros k' Hk'. destruct (Hf k' Hk') as [? Hv']. split; [done|].
    rewrite lookup_insert_ne; [done|]. intros ->. done. }
  exists p'. split; [done|]. split.
  - intros k' [Hne Hni]%not_elem_of_cons. rewrite Hother, lookup_insert_ne by done. done.
  - intros k' s' [[= -> ->]|Hi]%elem_of_cons; [|auto]. rewrite Hother by done. by rewrite lookup_insert_eq.
Qed.

(** Every value can be given to every option: a string of assignments to different
    options, each value in quotes with the quotes in it doubled, parses, and [get] gives
    each value back, whatever characters it has. *)
Theorem quoted_roundtrip kvs p :
  NoDup kvs.*1 → kvs ≠ [] → (∀ k c, head kvs.*1 = Some k → head k = Some c → is_whitespace c = false) →
  Forall (λ k, existsb forbidden k = false ∧ ∃ v, p !! k = Some v ∧ requires_value v = true) kvs.*1 →
  ∃ p', parse (join COMMA (assignment <$> kvs)) p = (Ok tt, p') ∧
    ∀ k s, (k, s) ∈ kvs → get (E:=OptionParserError) k p' = Ok (Some s).
Proof.
  intros Hnd Hne Hws Hf. destruct (parse_assignments kvs p false Hnd Hf) as (p' & Hfor & _ & Hin).
  assert (trim (join COMMA (assignment <$> kvs)) = join COMMA (assignment <$> kvs)) as Htrim.
  { apply trim_matches_id; intros c.
    - destruct kvs as [|[[|c' k] s] kvs]; [done| |]; destruct kvs; intros [= <-]; (done || by eapply Hws).
    - rewrite last_assignments by done. by intros [= <-]. }
  assert (split_commas (join COMMA (assignment <$> kvs)) = Ok (assignment <$> kvs)) as Hsplit.
  { unfold split_commas. rewrite Htrim, split_loop_join; [done|by destruct kvs|]. apply Forall_fmap, Forall_forall.
    intros kv Hkv. apply assignment_piece. rewrite Forall_forall in Hf. apply Hf. by apply list_elem_of_fmap_2. }
  exists p'. split.
  - unfold parse, parse_inner. rewrite Htrim. rewrite bool_decide_false.
    2: { intros Hnil. pose proof (last_assignments kvs Hne) as Hl. by rewrite Hnil in Hl. }
    by rewrite (m_bind_run _ _ _ (assignment <$> kvs) p) by (unfold lift; by rewrite Hsplit).
  - intros k s Hks. unfold get. rewrite (Hin _ _ Hks). rewrite bool_decide_false by done. by rewrite dequote_quote.
Qed.

Lemma digit_plain c : is_digit c → is_whitespace c = false ∧ is_bracket c = false ∧ is_suffix c = false ∧ c ≠ COMMA ∧ c ≠ 45.
Proof.
  unfold is_digit. intros Hc. assert (c ∈ [48; 49; 50; 51; 52; 53; 54; 55; 56; 57]) as Hin.
  { rewrite !elem_of_cons, elem_of_nil. lia. }
  rewrite !elem_of_cons, elem_of_nil in Hin. destruct_or! Hin; by subst.
Qed.

Lemma show_head n c : 0 ≤ n → head (show_u64 n) = Some c → is_digit c.
Proof. intros Hn Hc. pose proof (show_u64_digits n Hn) as Hd. destruct (show_u64 n); [done|]. injection Hc as <-. by apply Forall_cons in Hd as [? _]. Qed.

Lemma show_last n c : 0 ≤ n → last (show_u64 n) = Some c → is_digit c.
Proof. intros Hn Hc. pose proof (show_u64_digits n Hn) as Hd. apply last_Some in Hc as [l' Hl]. rewrite Hl in Hd. by apply Forall_app in Hd as [_ [? _]%Forall_cons]. Qed.

Lemma show_notin n x : 0 ≤ n → (∀ c, is_digit c → c ≠ x) → x ∉ show_u64 n.
Proof. intros Hn Hx Hin. pose proof (show_u64_digits n Hn) as Hd. rewrite Forall_forall in Hd. by eapply Hx; [apply Hd, Hin|]. Qed.

Lemma join_ends l (P : Z → Prop) :
  l ≠ [] → (∀ p c, p ∈ l → head p = Some c ∨ last p = Some c → P c) → Forall (λ p : str, p ≠ []) l →
  ∀ c, head (join COMMA l) = Some c ∨ last (join COMMA l) = Some c → P c.
Proof.
  intros Hne Hp Hl c [Hc|Hc].
  - destruct l as [|p [|q l]]; [done|by eapply Hp; [by left|by left]|]. apply Forall_cons in Hl as [Hpn _]. destruct p as [|x p]; [done|].
    eapply (Hp (x :: p)); [by left|left; exact Hc].
  - revert Hne Hp Hc. induction Hl as [|p [|q l] Hpn Hl IH]; intros Hne Hp Hc; [done|by eapply Hp; [by left|by right]|].
    change (join COMMA (p :: q :: l)) with (p ++ COMMA :: join COMMA (q :: l)) in Hc. rewrite last_app_cons in Hc.
    change (COMMA :: ?x) with ([COMMA] ++ x) in Hc. rewrite last_app in Hc.
    apply IH; [done|intros; eapply Hp; [by right|done]|]. destruct (last (join COMMA (q :: l))) eqn:Hlast; [done|].
    apply last_None in Hlast. apply Forall_cons in Hl as [Hq _]. destruct q as [|y q]; [done|]. by destruct l.
Qed.

Lemma join_shown_ne l : l ≠ [] → Forall (λ n, 0 ≤ n < 2 ^ 64) l → join COMMA (show_u64 <$> l) ≠ [].
Proof.
  intros Hne Hl. destruct Hl as [|n l Hn _]; [done|]. pose proof (show_u64_ne n Hn). destruct l; simpl; [done|].
  by intros [? ?]%app_nil.
Qed.

Lemma trim_brackets s :
  s ≠ [] → (∀ c, head s = Some c ∨ last s = Some c → is_bracket c = false) →
  trim_matches is_bracket ([LBRACKET] ++ s ++ [RBRACKET]) = s.
Proof.
  intros Hne He. unfold trim_matches. rewrite trim_start_matches_app by (by repeat constructor).
  rewrite trim_start_matches_id; [apply trim_end_matches_app; [by repeat constructor|auto]|].
  destruct s; [done|]. intros c [= <-]. apply He. by left.
Qed.

Lemma fold_shown acc l : Forall (λ n, 0 ≤ n < 2 ^ 64) l → zlen acc + zlen l ≤ VEC_MAX → foldM parse_range acc (show_u64 <$> l) = Ok (acc ++ l).
Proof.
  intros Hl. revert acc. induction Hl as [|n l Hn _ IH]; intros acc Hmax; [simpl; by rewrite app_nil_r|].
  pose proof (zlen_nonneg l). assert (zlen (n :: l) = zlen l + 1) as Hz by (unfold zlen; simpl; lia).
  change (show_u64 <$> n :: l) with (show_u64 n :: (show_u64 <$> l)). cbn [foldM].
  assert (parse_range acc (show_u64 n) = Ok (acc ++ [n])) as ->.
  { unfold parse_range. rewrite split_nosep by (apply show_notin; [lia|apply digit_plain]).
    rewrite parse_show by (unfold U64_MAX; lia). cbn. by rewrite (proj2 (Z.leb_gt _ _)) by lia. }
  cbn [mbind res_bind]. rewrite IH by (rewrite zlen_app; unfold zlen in *; simpl in *; lia). by rewrite <-(assoc_L (++)).
Qed.

(** A list of integers that is printed and parsed comes back; only the empty list does
    not, because the text between its brackets is taken for a number. *)
Theorem integer_list_roundtrip l :
  Forall (λ n, 0 ≤ n < 2 ^ 64) l → zlen l ≤ VEC_MAX →
  (l ≠ [] → integer_list_from_str (integer_list_display l) = Ok l) ∧
  (l = [] → integer_list_from_str (integer_list_display l) = Err []).
Proof.
  intros Hl Hmax. split; [|by intros ->]. intros Hne. unfold integer_list_from_str, integer_list_display.
  assert (∀ c, head (join COMMA (show_u64 <$> l)) = Some c ∨ last (join COMMA (show_u64 <$> l)) = Some c → is_digit c) as Hends.
  { apply join_ends; [by destruct l| |].
    - intros p c (n & -> & Hn)%list_elem_of_fmap. rewrite Forall_forall in Hl. specialize (Hl n Hn).
      intros [Hc|Hc]; [eapply show_head, Hc|eapply show_last, Hc]; lia.
    - apply Forall_fmap. eapply Forall_impl; [exact Hl|]. intros n Hn. by apply show_u64_ne. }
  rewrite (trim_matches_id is_whitespace); [|by intros c [= <-]|intros c; rewrite (assoc_L (++)), last_snoc; by intros [= <-]].
  rewrite trim_brackets; [|by apply join_shown_ne|intros; apply digit_plain; auto].
  rewrite split_join; [|by destruct l|apply Forall_fmap; eapply Forall_impl; [exact Hl|]; simpl; intros n [Hn _]; apply show_notin; [done|apply digit_plain]].
  by apply fold_shown.
Qed.

(** The shift that a suffix stands for. *)
Definition shift_of (sfx : str) : Z :=
  match last sfx with Some c => if c =? 75 then 10 else if c =? 77 then 20 else 30 | None => 0 end.

(** The size a text stands for: a number followed by letters [K], [M] and [G], of which
    the last one counts and the others are ignored.  A product that does not fit 64 bits is
    not refused, it loses its high bits. *)
Theorem bytesized_spec n sfx :
  0 ≤ n < 2 ^ 64 → Forall (λ c, is_suffix c = true) sfx →
  bytesized_from_str (show_u64 n ++ sfx) = Ok (n * 2 ^ shift_of sfx mod 2 ^ 64).
Proof.
  intros Hn Hs. unfold bytesized_from_str, trim. assert (∀ c, is_suffix c = true → c = 75 ∨ c = 77 ∨ c = 71) as Hcases.
  { intros c. unfold is_suffix. rewrite !orb_true_iff, !Z.eqb_eq. tauto. }
  assert (∀ c, last (show_u64 n ++ sfx) = Some c → is_digit c ∨ last sfx = Some c ∧ is_suffix c = true) as Hlast.
  { intros c. rewrite last_app. destruct (last sfx) as [x|] eqn:Hx; [|intros Hc; left; eapply show_last, Hc; lia]. intros [= ->].
    right. split; [done|]. apply last_Some in Hx as [l' ->]. by apply Forall_app in Hs as [_ [? _]%Forall_cons]. }
  rewrite (trim_matches_id is_whitespace).
  2: { intros c Hc. destruct (show_u64 n) as [|x l] eqn:Hx; [by apply show_u64_ne in Hx|]. injection Hc as <-. apply digit_plain, (show_head n); [lia|by rewrite Hx]. }
  2: { intros c [Hc|[_ Hc%Hcases]]%Hlast; [by apply digit_plain|]. destruct_or! Hc; by subst. }
  replace (trim_end_matches is_suffix _) with (show_u64 n).
  2: { symmetry. apply trim_end_matches_app; [done|]. intros c Hc. apply digit_plain, (show_last n); [lia|done]. }
  rewrite parse_show by (unfold U64_MAX; lia). f_equal. rewrite Z.shiftl_mul_pow2 by (repeat case_match; lia). do 3 f_equal.
  unfold ends_with, shift_of. rewrite last_app. destruct (last sfx) as [x|] eqn:Hx.
  - assert (is_suffix x = true) as [->|[->| ->]]%Hcases; [|done..]. apply last_Some in Hx as [l' ->]. by apply Forall_app in Hs as [_ [? _]%Forall_cons].
  - rewrite !bool_decide_false; [done|..]; intros Hc; apply show_last in Hc; try lia; unfold is_digit in Hc; lia.
Qed.

(** A parser with the options [size] and [id], and one that has parsed a string. *)
Definition two_options : OptionParser := (add (E:=unit) (lit "size") ((add (E:=unit) (lit "id") parser_new).2)).2.
Definition parsed : OptionParser := (parse_inner (lit "size=[1-3],id") false two_options).2.

Lemma option_parser_safe_witness :
  returns (get (E:=TupleError) (lit "size") parsed) ∧
  returns (convert (tuple_from_str (of_from_str (parse_uint U64_MAX)) tuple_u64) (lit "size") parsed).
Proof.
  destruct (option_parser_safe (tuple_from_str (of_from_str (parse_uint U64_MAX)) tuple_u64) parsed (lit "size")) as (? & ? & _);
    [|apply tuple_safe; [apply of_from_str_safe, parse_uint_safe|apply tuple_u64_returns]|done].
  apply (reach_op two_options (PParse (lit "size=[1-3],id") false) (Err (InvalidSyntax (lit "id")))); [|vm_compute; reflexivity].
  apply (reach_op ((add (E:=unit) (lit "id") parser_new).2) (PAdd (lit "size")) (Ok tt)); [|vm_compute; reflexivity].
  apply (reach_op parser_new (PAdd (lit "id")) (Ok tt)); [constructor|vm_compute; reflexivity].
Defined.

Lemma quoted_roundtrip_witness :
  ∃ p', parse (join COMMA (assignment <$> [(lit "size", lit "1,[2"); (lit "id", [DQUOTE; 97; DQUOTE; DQUOTE])])) two_options = (Ok tt, p') ∧
    ∀ k s, (k, s) ∈ [(lit "size", lit "1,[2"); (lit "id", [DQUOTE; 97; DQUOTE; DQUOTE])] →
      get (E:=OptionParserError) k p' = Ok (Some s).
Proof.
  apply (quoted_roundtrip [(lit "size", lit "1,[2"); (lit "id", [DQUOTE; 97; DQUOTE; DQUOTE])] two_options).
  - apply (bool_decide_unpack _). vm_compute. exact I.
  - done.
  - intros k c [= <-]. by intros [= <-].
  - repeat constructor; try (vm_compute; reflexivity); eexists; split; vm_compute; reflexivity.
Defined.

Lemma integer_list_roundtrip_witness : integer_list_from_str (integer_list_display [0; 18446744073709551615; 7]) = Ok [0; 18446744073709551615; 7].
Proof. apply (integer_list_roundtrip [0; 18446744073709551615; 7]); [repeat constructor; lia|done|done]. Defined.

(** A range with one number more than a vector can hold. *)
Lemma long_range_panics : integer_list_from_str (lit "[0-576460752303423488]") = Panic.
Proof. vm_compute. reflexivity. Qed.

(** 2^34 + 1 gigabytes are one. *)
Lemma bytesized_spec_witness :
  bytesized_from_str (show_u64 17179869185 ++ [71]) = Ok (17179869185 * 2 ^ shift_of [71] mod 2 ^ 64) ∧
  17179869185 * 2 ^ shift_of [71] mod 2 ^ 64 = 2 ^ 30.
Proof. split; [apply (bytesized_spec 17179869185 [71]); [lia|by repeat constructor]|vm_compute; reflexivity]. Defined.

End OptionParser.
