(* ===== verification/NetAddr.v ===== *)
(** * Network addresses

    Model of [net_util/src/mac.rs] ([MacAddr]) and of the parsing of IP addresses that
    the configuration uses ([IpAddr::from_str] of the standard library). *)

From S2P Require Import Prelude RustStr.

Module NetAddr.

Definition COLON : Z := 58.
Definition DOT : Z := 46.

(** [char::to_digit] *)
Definition to_digit (radix c : Z) : option Z :=
  let d := if (48 <=? c) && (c <=? 57) then Some (c - 48)
           else if (97 <=? c) && (c <=? 122) then Some (c - 87)
           else if (65 <=? c) && (c <=? 90) then Some (c - 55)
           else None in
  match d with Some n => if n <? radix then Some n else None | None => None end.

(** ** MAC addresses *)

Definition MAC_ADDR_LEN : nat := 6.
Notation MacAddr := (list Z) (only parsing).

(** [u8::from_str_radix(s, 16)] on two hexadecimal digits. *)
Definition hex_byte (s : str) : option Z :=
  match s with
  | [a; b] => match to_digit 16 a, to_digit 16 b with Some x, Some y => Some (16 * x + y) | _, _ => None end
  | _ => None
  end.

Definition mac_parse_str (s : str) : res str MacAddr :=
  let v := split COLON s in
  if negb (length v =? MAC_ADDR_LEN)%nat then Err s
  else match mapM hex_byte v with Some bytes => Ok bytes | None => Err s end.

Definition mac_from_bytes (src : list Z) : res str MacAddr :=
  if negb (length src =? MAC_ADDR_LEN)%nat then Err [] else Ok src.

(** [random]: the bytes of [getrandom]. *)
Definition mac_local_random (random : list Z) : MacAddr := <[0%nat := 0x2e]> random.

Definition hex_digit (n : Z) : Z := if n <? 10 then 48 + n else 87 + n.
Definition mac_fmt (m : MacAddr) : str := join COLON ((λ b, [hex_digit (b / 16); hex_digit (b mod 16)]) <$> m).

(** ** IP addresses *)

Inductive IpAddr := V4 (octets : list Z) | V6 (groups : list Z).

(** A parser takes a prefix of its input, or nothing. *)
Definition parser (A : Type) := str → option (A * str).

Fixpoint read_digits (radix : Z) (max_digits count : nat) (acc : Z) (s : str) : option (Z * nat * str) :=
  match s with
  | [] => Some (acc, count, [])
  | c :: s' =>
      match to_digit radix c with
      | None => Some (acc, count, s)
      | Some d => if (max_digits <=? count)%nat then None else read_digits radix max_digits (S count) (acc * radix + d) s'
      end
  end.

Definition read_number (radix : Z) (max_digits : nat) (allow_zero_prefix : bool) (max : Z) : parser Z := λ s,
  match read_digits radix max_digits 0 0 s with
  | None => None
  | Some (n, count, rest) =>
      if (count =? 0)%nat then None
      else if negb allow_zero_prefix && bool_decide (head s = Some 48) && (1 <? count)%nat then None
      else if max <? n then None
      else Some (n, rest)
  end.

Definition read_given_char (c : Z) : parser unit := λ s,
  match s with x :: s' => if x =? c then Some (tt, s') else None | [] => None end.

(** The separator comes before every element but the first. *)
Definition read_separator {A} (sep : Z) (index : nat) (inner : parser A) : parser A := λ s,
  if (0 <? index)%nat then match read_given_char sep s with Some (_, s') => inner s' | None => None end else inner s.

Fixpoint read_octets (n index : nat) : parser (list Z) := λ s,
  match n with
  | O => Some ([], s)
  | S n' =>
      match read_separator DOT index (read_number 10 3 false 255) s with
      | Some (x, s') => match read_octets n' (S index) s' with Some (l, s'') => Some (x :: l, s'') | None => None end
      | None => None
      end
  end.
Definition read_ipv4_addr : parser (list Z) := read_octets 4 0.

(** [left] groups may still be read: the groups, whether an IPv4 address ended them, the rest. *)
Fixpoint read_groups (left index : nat) (s : str) : list Z * bool * str :=
  match left with
  | O => ([], false, s)
  | S left' =>
      match (if (0 <? left')%nat then read_separator COLON index read_ipv4_addr s else None) with
      | Some ([a; b; c; d], s') => ([a * 256 + b; c * 256 + d], true, s')
      | _ =>
          match read_separator COLON index (read_number 16 4 true 65535) s with
          | Some (g, s') => let '(l, v4, s'') := read_groups left' (S index) s' in (g :: l, v4, s'')
          | None => ([], false, s)
          end
      end
  end.

Definition read_ipv6_addr : parser (list Z) := λ s,
  let '(head, head_v4, s1) := read_groups 8 0 s in
  if (length head =? 8)%nat then Some (head, s1)
  else if head_v4 then None
  else
    match read_given_char COLON s1 with
    | None => None
    | Some (_, s2) =>
        match read_given_char COLON s2 with
        | None => None
        | Some (_, s3) =>
            let '(tail, _, s4) := read_groups (8 - (length head + 1)) 0 s3 in
            Some (head ++ replicate (8 - length head - length tail) 0 ++ tail, s4)
        end
    end.

Definition ip_from_str (s : str) : res str IpAddr :=
  match read_ipv4_addr s with
  | Some (o, rest) => if bool_decide (rest = []) then Ok (V4 o) else Err s
  | None =>
      match read_ipv6_addr s with
      | Some (g, rest) => if bool_decide (rest = []) then Ok (V6 g) else Err s
      | None => Err s
      end
  end.

(** ** Round trip *)

Definition is_mac (m : MacAddr) : Prop := length m = MAC_ADDR_LEN ∧ Forall (λ b, 0 ≤ b < 256) m.

Lemma to_digit_hex n : 0 ≤ n < 16 → to_digit 16 (hex_digit n) = Some n ∧ hex_digit n ≠ COLON.
Proof.
  intros Hn. assert (n ∈ [0; 1; 2; 3; 4; 5; 6; 7; 8; 9; 10; 11; 12; 13; 14; 15]) as Hin.
  { rewrite !elem_of_cons, elem_of_nil. lia. }
  rewrite !elem_of_cons, elem_of_nil in Hin. destruct_or! Hin; by subst.
Qed.

Lemma hex_byte_show b : 0 ≤ b < 256 → hex_byte [hex_digit (b / 16); hex_digit (b mod 16)] = Some b.
Proof.
  intros Hb. pose proof (Z.mod_pos_bound b 16 ltac:(lia)). pose proof (Z.div_mod b 16 ltac:(lia)).
  assert (0 ≤ b / 16 < 16) by (split; [apply Z.div_pos; lia|apply Z.div_lt_upper_bound; lia]).
  unfold hex_byte. destruct (to_digit_hex (b / 16)) as [-> _]; [done|]. destruct (to_digit_hex (b mod 16)) as [-> _]; [done|]. f_equal. lia.
Qed.

(** A MAC address survives being printed. *)
Lemma mac_roundtrip m : is_mac m → mac_parse_str (mac_fmt m) = Ok m.
Proof.
  intros [Hl Hm]. unfold mac_parse_str, mac_fmt. rewrite split_join.
  - rewrite length_fmap, Hl. simpl negb. cbn iota. rewrite mapM_fmap_Forall_Some; [done|].
    eapply Forall_impl; [exact Hm|]. simpl. intros b Hb. by apply hex_byte_show.
  - destruct m; [done|]. done.
  - apply Forall_fmap. eapply Forall_impl; [exact Hm|]. simpl. intros b Hb.
    pose proof (Z.mod_pos_bound b 16 ltac:(lia)).
    assert (0 ≤ b / 16 < 16) by (split; [apply Z.div_pos; lia|apply Z.div_lt_upper_bound; lia]).
    rewrite !not_elem_of_cons. split; [by apply not_eq_sym, to_digit_hex|]. split; [by apply not_eq_sym, to_digit_hex|]. apply not_elem_of_nil.
Qed.

(** Addresses as they are written. *)
Lemma ip_examples :
  ip_from_str (lit "192.168.249.1") = Ok (V4 [192; 168; 249; 1]) ∧ ip_from_str (lit "1.2.3.04") = Err (lit "1.2.3.04") ∧
  ip_from_str (lit "fe80::1:2") = Ok (V6 [0xfe80; 0; 0; 0; 0; 0; 1; 2]) ∧
  ip_from_str (lit "::ffff:10.0.0.1") = Ok (V6 [0; 0; 0; 0; 0; 0xffff; 0x0a00; 1]) ∧ ip_from_str (lit "1::2::3") = Err (lit "1::2::3").
Proof. vm_compute. done. Qed.

End NetAddr.
