(* ===== verification/VmConfig.v ===== *)
(** * The configuration of a VM

    Model of [vmm/src/vm_config.rs] (the data) and of the parsing in
    [vmm/src/config.rs], for x86_64 and the features built by default: every [parse] of
    the command line, and [VmConfig::parse] but for its validation (see [VmConfigCheck]).
    The parsers are built on the option parser.  Each record has a module of its own, so
    that the fields keep their names. *)

From S2P Require Import Prelude RustStr OptionParser NetAddr.

Import OptionParser NetAddr.

(** ** Errors *)

Inductive PayloadConfigError := FirmwarePlusOtherPayloads | MissingBootitem.

Inductive ValidationError :=
| ConsoleFileMissing | ConsoleSocketPathMissing
| CpusMaxLowerThanBoot (max boot : Z) | TooManyCpus (n : Z)
| DiskSocketAndPath | VhostUserRequiresSharedMemory | VhostUserMissingSocket
| CpuTopologyCount | CpuTopologyThreadsPerCore | CpuTopologyZeroPart
| VnetQueueLowerThan2 (n : Z) | VnetQueueFdMismatch (queues fds : Z) | VnetReservedFd (fd : Z)
| NoHardwareChecksumOffload | HugePageSizeWithoutHugePages | InvalidHugePageSize (n : Z)
| TooManyQueues (queues vcpus : Z) | InvalidQueueSize (n : Z)
| UserDevicesRequireSharedMemory | VsockSpecialCid (cid : Z)
| MemoryZoneReused (zone : str) (a b : Z)
| InvalidNumPciSegments (n : Z) | InvalidPciSegment (n : Z) | InvalidPciSegmentApertureWeight (n : Z)
| InvalidIommuAddressWidthBits (n : Z) | BalloonLargerThanRam (balloon ram : Z) | OnIommuSegment (n : Z)
| GpuDirectCliqueRequiresP2pDma
| IdentifierNotUnique (id : str) | InvalidIdentifier (id : str)
| IommuNotSupported | DuplicateDevicePath (path : str) | InvalidMtu (n : Z)
| PciSegmentReused (segment a b : Z) | DefaultPciSegmentInvalidNode (node : Z)
| InvalidRateLimiterGroup | InvalidIoPortHex (s : str)
| RestoreMissingRequiredNetId (id : str) | RestoreNetFdCountMismatch (id : str) (a b : Z)
| InvalidRestorePrefaultWithOnDemand | InvalidRestoreTemplateSocketWithoutOnDemand
| LandlockPathDoesNotExist (path : str) | InvalidLandlockAccess (s : str)
| InvalidSerialLength (len max : Z) | PayloadError (e : PayloadConfigError)
| MaskProvidedWithoutIp | IpProvidedWithoutMask
| InvalidNumaConfig (msg : str) | InvalidPciDeviceId (n : Z) | ReservedPciDeviceId (n : Z).

Inductive Error :=
| ParseFsTagMissing | ParseFsTagTooLong | ParseFsSockMissing
| ParseGenericVhostUserVirtioIdInvalid (s : str) | ParseGenericVhostUserVirtioIdUnsupported (s : str)
| ParseGenericVhostUserSockMissing | ParseGenericVhostUserVirtioIdMissing
| ParseGenericVhostUserQueueSizeTooLarge (offset size : Z) | ParseGenericVhostUserQueueSizeMissing
| ParsePmemFileMissing | ParseVsockSockMissing | ParseVsockCidMissing | ParseRestoreSourceUrlMissing
| ParseCpus (e : OptionParserError) | InvalidCpuFeatures (s : str)
| ParseMemory (e : OptionParserError) | ParseMemoryZone (e : OptionParserError) | ParseMemoryZoneIdMissing
| ParseRateLimiterGroup (e : OptionParserError) | ParseDisk (e : OptionParserError)
| ParseNetwork (e : OptionParserError) | ParseRng (e : OptionParserError) | ParseBalloon (e : OptionParserError)
| ParseFileSystem (e : OptionParserError) | ParsePersistentMemory (e : OptionParserError)
| ParseGenericVhostUser (e : OptionParserError) | ParseConsole (e : OptionParserError)
| ParseConsoleInvalidModeGiven
| ParseDevice (e : OptionParserError) | ParseDevicePathMissing
| ParseVsock (e : OptionParserError) | ParseRestore (e : OptionParserError) | ParseNuma (e : OptionParserError)
| Validation (e : ValidationError)
| ParseUserDevice (e : OptionParserError) | ParseUserDeviceSocketMissing
| ParsePciSegment (e : OptionParserError) | ParsePlatform (e : OptionParserError)
| ParseVdpa (e : OptionParserError) | ParseVdpaPathMissing
| ParseTpm (e : OptionParserError) | ParseTpmPathMissing
| ParseLandlockRules (e : OptionParserError) | ParseLandlockMissingFields
| ParsePciDeviceCommonConfig (e : OptionParserError).

(** ** Using the option parser *)

(** A new parser with its options, the flags that take no value first; then the input. *)
Definition open_parser (ignore_unknown : bool) (flags opts : list string) (input : str) : res OptionParserError OptionParser :=
  match add_all (lit <$> opts) (foldr (λ f p, add_valueless (lit f) p) parser_new flags) with
  | (Ok _, p) =>
      match parse_inner input ignore_unknown p with
      | (Ok _, p') => Ok p'
      | (Err e, _) => Err e
      | (Panic, _) => Panic
      | (Hang, _) => Hang
      end
  | (Err e, _) => Err e
  | (Panic, _) => Panic
  | (Hang, _) => Hang
  end.

Section conv.
Context {E : Type} (mk : OptionParserError → E) (p : OptionParser).

Definition conv {F T} (from_str : str → res F T) (name : string) : res E (option T) := map_err mk (convert from_str (lit name) p).
Definition uint (width : Z) (name : string) : res E (option Z) := conv (of_from_str (parse_uint (2 ^ width - 1))) name.
Definition uint_or (width : Z) (name : string) (d : Z) : res E Z := o ← uint width name; Ok (default d o).
Definition bytes (name : string) : res E (option Z) := conv (of_from_str bytesized_from_str) name.
Definition toggle (name : string) (d : bool) : res E bool :=
  o ← conv toggle_from_str name; Ok (match o with Some (mk_toggle b) => b | None => d end).
Definition text (name : string) : res E (option str) := get (lit name) p.
End conv.

(** [ok_or] and [?] *)
Definition required {E T} (e : E) (o : option T) : res E T := match o with Some x => Ok x | None => Err e end.

(** One of several words. *)
Definition one_of {T} (words : list (string * T)) (fold_case : bool) (s : str) : res str T :=
  let w := if fold_case then to_lowercase s else s in
  match list_find (λ x : string * T, lit x.1 = w) words with Some (_, (_, x)) => Ok x | None => Err s end.

(** [len()] of a string: its bytes in UTF-8. *)
Definition utf8_len (s : str) : Z :=
  foldr (λ c n, (if c <? 0x80 then 1 else if c <? 0x800 then 2 else if c <? 0x10000 then 3 else 4) + n) 0 s.

(** [as u16] and [as i32]. *)
Definition as_u16 (n : Z) : Z := n mod 2 ^ 16.
Definition as_u32 (n : Z) : Z := n mod 2 ^ 32.
Definition as_i32 (n : Z) : Z := let m := n mod 2 ^ 32 in if m <? 2 ^ 31 then m else m - 2 ^ 32.

(** ** Processors and platform *)

Inductive CoreScheduling := SchedVm | SchedVcpu | SchedOff.
Definition core_scheduling_from_str : str → res str CoreScheduling :=
  one_of [("vm", SchedVm); ("vcpu", SchedVcpu); ("off", SchedOff)] true.

Module Cpus.
Record CpuTopology := { threads_per_core : Z; cores_per_die : Z; dies_per_package : Z; packages : Z }.
Record CpuAffinity := { vcpu : Z; host_cpus : list Z }.
Record CpusConfig := {
  boot_vcpus : Z; max_vcpus : Z; topology : option CpuTopology; kvm_hyperv : bool; max_phys_bits : Z;
  affinity : option (list CpuAffinity); amx : bool; nested : bool; core_scheduling : CoreScheduling }.
End Cpus.

Definition cpu_topology_from_str (s : str) : res str Cpus.CpuTopology :=
  match split 58 s with
  | [a; b; c; d] =>
      let num x := map_err (λ _, s) (parse_uint (2 ^ 16 - 1) x) in
      threads_per_core ← num a; cores_per_die ← num b; dies_per_package ← num c; packages ← num d;
      Ok {| Cpus.threads_per_core := threads_per_core; Cpus.cores_per_die := cores_per_die;
            Cpus.dies_per_package := dies_per_package; Cpus.packages := packages |}
  | _ => Err s
  end.

Definition DEFAULT_VCPUS : Z := 1.
Definition DEFAULT_MAX_PHYS_BITS : Z := 46.

Definition cpus_parse (cpus : str) : res Error Cpus.CpusConfig :=
  let E := ParseCpus in
  p ← map_err E (open_parser false [] ["boot"; "max"; "topology"; "kvm_hyperv"; "max_phys_bits"; "affinity"; "features";
                                       "nested"; "core_scheduling"] cpus);
  boot_vcpus ← uint_or E p 32 "boot" DEFAULT_VCPUS;
  max_vcpus ← uint_or E p 32 "max" boot_vcpus;
  topology ← conv E p (of_from_str cpu_topology_from_str) "topology";
  kvm_hyperv ← toggle E p "kvm_hyperv" false;
  max_phys_bits ← uint_or E p 8 "max_phys_bits" DEFAULT_MAX_PHYS_BITS;
  affinity ← conv E p (tuple_from_str (of_from_str (parse_uint U32_MAX)) (tuple_vec 64)) "affinity";
  features_list ← conv E p string_list_from_str "features";
  amx ← foldM (λ amx feature, if bool_decide (feature = lit "amx") then Ok true else Err (InvalidCpuFeatures feature))
          false (default [] features_list);
  nested ← toggle E p "nested" true;
  core_scheduling ← conv E p (of_from_str core_scheduling_from_str) "core_scheduling";
  Ok {| Cpus.boot_vcpus := boot_vcpus; Cpus.max_vcpus := max_vcpus; Cpus.topology := topology; Cpus.kvm_hyperv := kvm_hyperv;
        Cpus.max_phys_bits := max_phys_bits;
        Cpus.affinity := map (λ e, {| Cpus.vcpu := e.1; Cpus.host_cpus := e.2 |}) <$> affinity;
        Cpus.amx := amx; Cpus.nested := nested; Cpus.core_scheduling := default SchedVm core_scheduling |}.

Module PciSegment.
Record PciSegmentConfig := { pci_segment : Z; mmio32_aperture_weight : Z; mmio64_aperture_weight : Z }.
End PciSegment.

Definition DEFAULT_PCI_SEGMENT_APERTURE_WEIGHT : Z := 1.

Definition pci_segment_parse (s : str) : res Error PciSegment.PciSegmentConfig :=
  let E := ParsePciSegment in
  p ← map_err E (open_parser false [] ["mmio32_aperture_weight"; "mmio64_aperture_weight"; "pci_segment"] s);
  pci_segment ← uint_or E p 16 "pci_segment" 0;
  mmio32_aperture_weight ← uint_or E p 32 "mmio32_aperture_weight" DEFAULT_PCI_SEGMENT_APERTURE_WEIGHT;
  mmio64_aperture_weight ← uint_or E p 32 "mmio64_aperture_weight" DEFAULT_PCI_SEGMENT_APERTURE_WEIGHT;
  Ok {| PciSegment.pci_segment := pci_segment; PciSegment.mmio32_aperture_weight := mmio32_aperture_weight;
        PciSegment.mmio64_aperture_weight := mmio64_aperture_weight |}.

Module Platform.
Record PlatformConfig := {
  num_pci_segments : Z; iommu_segments : option (list Z); iommu_address_width_bits : Z; serial_number : option str;
  uuid : option str; oem_strings : option (list str); iommufd : bool; vfio_p2p_dma : bool }.
End Platform.

Definition DEFAULT_NUM_PCI_SEGMENTS : Z := 1.
Definition MAX_IOMMU_ADDRESS_WIDTH_BITS : Z := 64.

Definition platform_parse (platform : str) : res Error Platform.PlatformConfig :=
  let E := ParsePlatform in
  p ← map_err E (open_parser false [] ["num_pci_segments"; "iommu_segments"; "iommu_address_width"; "serial_number"; "uuid";
                                       "oem_strings"; "iommufd"; "vfio_p2p_dma"] platform);
  num_pci_segments ← uint_or E p 16 "num_pci_segments" DEFAULT_NUM_PCI_SEGMENTS;
  iommu_segments ← conv E p integer_list_from_str "iommu_segments";
  iommu_address_width_bits ← uint_or E p 8 "iommu_address_width" MAX_IOMMU_ADDRESS_WIDTH_BITS;
  serial_number ← conv E p (of_from_str (@Ok str str)) "serial_number";
  uuid ← conv E p (of_from_str (@Ok str str)) "uuid";
  oem_strings ← conv E p string_list_from_str "oem_strings";
  iommufd ← toggle E p "iommufd" false;
  vfio_p2p_dma ← toggle E p "vfio_p2p_dma" true;
  Ok {| Platform.num_pci_segments := num_pci_segments; Platform.iommu_segments := map as_u16 <$> iommu_segments;
        Platform.iommu_address_width_bits := iommu_address_width_bits; Platform.serial_number := serial_number;
        Platform.uuid := uuid; Platform.oem_strings := oem_strings; Platform.iommufd := iommufd; Platform.vfio_p2p_dma := vfio_p2p_dma |}.

(** ** Memory *)

Inductive HotplugMethod := Acpi | VirtioMem.
Definition hotplug_method_from_str : str → res str HotplugMethod := one_of [("acpi", Acpi); ("virtio-mem", VirtioMem)] true.

Module MemoryZone.
Record MemoryZoneConfig := {
  id : str; size : Z; file : option str; shared : bool; hugepages : bool; hugepage_size : option Z;
  host_numa_node : option Z; hotplug_size : option Z; hotplugged_size : option Z; prefault : bool; mergeable : bool }.
End MemoryZone.

Module Memory.
Record MemoryConfig := {
  size : Z; mergeable : bool; hotplug_method : HotplugMethod; hotplug_size : option Z; hotplugged_size : option Z;
  shared : bool; hugepages : bool; hugepage_size : option Z; prefault : bool;
  zones : option (list MemoryZone.MemoryZoneConfig); thp : bool }.
End Memory.

Definition DEFAULT_MEMORY_MB : Z := 512.

(** The body of the loop over the zones. *)
Definition memory_zone_parse (mergeable : bool) (memory_zone : str) : res Error MemoryZone.MemoryZoneConfig :=
  let E := ParseMemoryZone in
  p ← map_err E (open_parser false [] ["id"; "size"; "file"; "shared"; "hugepages"; "hugepage_size"; "host_numa_node";
                                       "hotplug_size"; "hotplugged_size"; "prefault"; "mergeable"] memory_zone);
  id ← text p "id"; id ← required ParseMemoryZoneIdMissing id;
  size ← bytes E p "size";
  file ← text p "file";
  shared ← toggle E p "shared" false;
  hugepages ← toggle E p "hugepages" false;
  hugepage_size ← bytes E p "hugepage_size";
  host_numa_node ← uint E p 32 "host_numa_node";
  hotplug_size ← bytes E p "hotplug_size";
  hotplugged_size ← bytes E p "hotplugged_size";
  prefault ← toggle E p "prefault" false;
  mergeable ← toggle E p "mergeable" mergeable;
  Ok {| MemoryZone.id := id; MemoryZone.size := default (Z.shiftl DEFAULT_MEMORY_MB 20) size; MemoryZone.file := file;
        MemoryZone.shared := shared; MemoryZone.hugepages := hugepages; MemoryZone.hugepage_size := hugepage_size;
        MemoryZone.host_numa_node := host_numa_node; MemoryZone.hotplug_size := hotplug_size;
        MemoryZone.hotplugged_size := hotplugged_size; MemoryZone.prefault := prefault; MemoryZone.mergeable := mergeable |}.

(** The loops that parse one item after the other. *)
Definition parse_all {E T} (parse : str → res E T) (items : list str) : res E (list T) :=
  foldM (λ acc item, x ← parse item; Ok (acc ++ [x])) [] items.
Definition parse_opt {E T} (parse : str → res E T) (item : option str) : res E (option T) :=
  match item with Some s => x ← parse s; Ok (Some x) | None => Ok None end.
Definition parse_list {E T} (parse : str → res E T) (items : option (list str)) : res E (option (list T)) :=
  match items with Some l => x ← parse_all parse l; Ok (Some x) | None => Ok None end.

Definition memory_parse (memory : str) (memory_zones : option (list str)) : res Error Memory.MemoryConfig :=
  let E := ParseMemory in
  p ← map_err E (open_parser false [] ["size"; "file"; "mergeable"; "hotplug_method"; "hotplug_size"; "hotplugged_size"; "shared";
                                       "hugepages"; "hugepage_size"; "prefault"; "thp"] memory);
  size ← bytes E p "size";
  mergeable ← toggle E p "mergeable" false;
  hotplug_method ← conv E p (of_from_str hotplug_method_from_str) "hotplug_method";
  hotplug_size ← bytes E p "hotplug_size";
  hotplugged_size ← bytes E p "hotplugged_size";
  shared ← toggle E p "shared" false;
  hugepages ← toggle E p "hugepages" false;
  hugepage_size ← bytes E p "hugepage_size";
  prefault ← toggle E p "prefault" false;
  thp ← toggle E p "thp" true;
  zones ← parse_list (memory_zone_parse mergeable) memory_zones;
  Ok {| Memory.size := default (Z.shiftl DEFAULT_MEMORY_MB 20) size; Memory.mergeable := mergeable;
        Memory.hotplug_method := default Acpi hotplug_method; Memory.hotplug_size := hotplug_size;
        Memory.hotplugged_size := hotplugged_size; Memory.shared := shared; Memory.hugepages := hugepages;
        Memory.hugepage_size := hugepage_size; Memory.prefault := prefault; Memory.zones := zones; Memory.thp := thp |}.

(** [sum::<u64>], which panics on overflow. *)
Definition sum_u64 {E} (l : list Z) : res E Z := foldM uadd 0 l.

Definition hotplugged_size {E} (m : Memory.MemoryConfig) : res E Z :=
  zones ← sum_u64 (omap MemoryZone.hotplugged_size (default [] (Memory.zones m)));
  uadd (default 0 (Memory.hotplugged_size m)) zones.
Definition total_size {E} (m : Memory.MemoryConfig) : res E Z :=
  zones ← sum_u64 (MemoryZone.size <$> default [] (Memory.zones m));
  n ← uadd (Memory.size m) zones;
  h ← hotplugged_size m;
  uadd n h.

(** ** Rate limits *)

Module RateLimit.
Record TokenBucketConfig := { size : Z; one_time_burst : option Z; refill_time : Z }.
Record RateLimiterConfig := { bandwidth : option TokenBucketConfig; ops : option TokenBucketConfig }.
Record RateLimiterGroupConfig := { id : str; rate_limiter_config : RateLimiterConfig }.
End RateLimit.

Definition token_bucket (size one_time_burst refill_time : Z) : option RateLimit.TokenBucketConfig :=
  if negb (size =? 0) && negb (refill_time =? 0)
  then Some {| RateLimit.size := size; RateLimit.one_time_burst := Some one_time_burst; RateLimit.refill_time := refill_time |}
  else None.

(** The six options that a group, a disk and a network device have. *)
Definition rate_options : list string :=
  ["bw_size"; "bw_one_time_burst"; "bw_refill_time"; "ops_size"; "ops_one_time_burst"; "ops_refill_time"].
Definition rate_parse {E} (mk : OptionParserError → E) (p : OptionParser) : res E RateLimit.RateLimiterConfig :=
  bw_size ← uint_or mk p 64 "bw_size" 0;
  bw_one_time_burst ← uint_or mk p 64 "bw_one_time_burst" 0;
  bw_refill_time ← uint_or mk p 64 "bw_refill_time" 0;
  ops_size ← uint_or mk p 64 "ops_size" 0;
  ops_one_time_burst ← uint_or mk p 64 "ops_one_time_burst" 0;
  ops_refill_time ← uint_or mk p 64 "ops_refill_time" 0;
  Ok {| RateLimit.bandwidth := token_bucket bw_size bw_one_time_burst bw_refill_time;
        RateLimit.ops := token_bucket ops_size ops_one_time_burst ops_refill_time |}.
Definition some_limit (c : RateLimit.RateLimiterConfig) : option RateLimit.RateLimiterConfig :=
  match RateLimit.bandwidth c, RateLimit.ops c with None, None => None | _, _ => Some c end.

Definition rate_limiter_group_parse (s : str) : res Error RateLimit.RateLimiterGroupConfig :=
  let E := ParseRateLimiterGroup in
  p ← map_err E (open_parser false [] (rate_options ++ ["id"]) s);
  id ← text p "id";
  config ← rate_parse E p;
  Ok {| RateLimit.id := default [] id; RateLimit.rate_limiter_config := config |}.

(** ** Devices *)

Module Pci.
Record PciDeviceCommonConfig := { id : option str; iommu : bool; pci_segment : Z; pci_device_id : option Z }.
End Pci.

Definition OPTIONS : list string := ["id"; "pci_segment"; "pci_device_id"].
Definition OPTIONS_IOMMU : list string := ["id"; "iommu"; "pci_segment"; "pci_device_id"].

Definition pci_common_parse (input : str) : res Error Pci.PciDeviceCommonConfig :=
  let E := ParsePciDeviceCommonConfig in
  p ← map_err E (open_parser true [] OPTIONS_IOMMU input);
  id ← text p "id";
  iommu ← toggle E p "iommu" false;
  pci_segment ← uint_or E p 16 "pci_segment" 0;
  pci_device_id ← uint E p 8 "pci_device_id";
  Ok {| Pci.id := id; Pci.iommu := iommu; Pci.pci_segment := pci_segment; Pci.pci_device_id := pci_device_id |}.

Inductive ImageType := FixedVhd | Qcow2 | Raw | Vhdx | UnknownImage.
Definition image_type_from_str : str → res str ImageType :=
  one_of [("vhd", FixedVhd); ("qcow2", Qcow2); ("raw", Raw); ("vhdx", Vhdx)] true.

Inductive LockGranularityChoice := ByteRange | Full.
Definition lock_granularity_from_str : str → res str LockGranularityChoice := one_of [("byte-range", ByteRange); ("full", Full)] false.

Module Disk.
Record VirtQueueAffinity := { queue_index : Z; host_cpus : list Z }.
Record DiskConfig := {
  pci_common : Pci.PciDeviceCommonConfig; path : option str; readonly : bool; direct : bool; num_queues : Z; queue_size : Z;
  vhost_user : bool; vhost_socket : option str; rate_limit_group : option str;
  rate_limiter_config : option RateLimit.RateLimiterConfig; disable_io_uring : bool; disable_aio : bool; serial : option str;
  queue_affinity : option (list VirtQueueAffinity); backing_files : bool; sparse : bool; image_type : ImageType;
  lock_granularity : LockGranularityChoice }.
End Disk.

Definition DEFAULT_DISK_NUM_QUEUES : Z := 1.
Definition DEFAULT_DISK_QUEUE_SIZE : Z := 128.

Definition disk_options : list string :=
  ["path"; "readonly"; "direct"; "queue_size"; "num_queues"; "vhost_user"; "socket"] ++ rate_options ++
  ["_disable_io_uring"; "_disable_aio"; "serial"; "rate_limit_group"; "queue_affinity"; "backing_files"; "sparse"; "image_type";
   "lock_granularity"] ++ OPTIONS_IOMMU.

Definition disk_parse (disk : str) : res Error Disk.DiskConfig :=
  let E := ParseDisk in
  p ← map_err E (open_parser false [] disk_options disk);
  path ← text p "path";
  readonly ← toggle E p "readonly" false;
  direct ← toggle E p "direct" false;
  queue_size ← uint_or E p 16 "queue_size" DEFAULT_DISK_QUEUE_SIZE;
  num_queues ← uint_or E p 64 "num_queues" DEFAULT_DISK_NUM_QUEUES;
  vhost_user ← toggle E p "vhost_user" false;
  vhost_socket ← text p "socket";
  disable_io_uring ← toggle E p "_disable_io_uring" false;
  disable_aio ← toggle E p "_disable_aio" false;
  rate_limit_group ← text p "rate_limit_group";
  rate ← rate_parse E p;
  serial ← text p "serial";
  queue_affinity ← conv E p (tuple_from_str (of_from_str (parse_uint (2 ^ 16 - 1))) (tuple_vec 64)) "queue_affinity";
  backing_files ← toggle E p "backing_files" false;
  image_type ← match vhost_socket with
               | None => o ← conv E p (of_from_str image_type_from_str) "image_type"; Ok (default UnknownImage o)
               | Some _ => Ok UnknownImage
               end;
  lock_granularity ← conv E p (of_from_str lock_granularity_from_str) "lock_granularity";
  sparse ← toggle E p "sparse" true;
  pci_common ← pci_common_parse disk;
  Ok {| Disk.pci_common := pci_common; Disk.path := path; Disk.readonly := readonly; Disk.direct := direct;
        Disk.num_queues := num_queues; Disk.queue_size := queue_size; Disk.vhost_user := vhost_user; Disk.vhost_socket := vhost_socket;
        Disk.rate_limit_group := rate_limit_group; Disk.rate_limiter_config := some_limit rate;
        Disk.disable_io_uring := disable_io_uring; Disk.disable_aio := disable_aio; Disk.serial := serial;
        Disk.queue_affinity := map (λ e, {| Disk.queue_index := e.1; Disk.host_cpus := e.2 |}) <$> queue_affinity;
        Disk.backing_files := backing_files; Disk.sparse := sparse; Disk.image_type := image_type;
        Disk.lock_granularity := default ByteRange lock_granularity |}.

Inductive VhostMode := Client | Server.
Definition vhost_mode_from_str : str → res str VhostMode := one_of [("client", Client); ("server", Server)] true.

Module Net.
Record NetConfig := {
  pci_common : Pci.PciDeviceCommonConfig; tap : option str; ip : option IpAddr; mask : option IpAddr; mac : MacAddr;
  host_mac : option MacAddr; mtu : option Z; num_queues : Z; queue_size : Z; vhost_user : bool; vhost_socket : option str;
  vhost_mode : VhostMode; fds : option (list Z); rate_limiter_config : option RateLimit.RateLimiterConfig;
  offload_tso : bool; offload_ufo : bool; offload_csum : bool }.
End Net.

Definition DEFAULT_NET_NUM_QUEUES : Z := 2.
Definition DEFAULT_NET_QUEUE_SIZE : Z := 256.

Definition net_options : list string :=
  ["tap"; "ip"; "mask"; "mac"; "host_mac"; "offload_tso"; "offload_ufo"; "offload_csum"; "mtu"; "queue_size"; "num_queues";
   "vhost_user"; "socket"; "vhost_mode"; "fd"] ++ rate_options ++ OPTIONS_IOMMU.

(** [random]: the bytes of a MAC address that is not given. *)
Definition net_parse (random : list Z) (net : str) : res Error Net.NetConfig :=
  let E := ParseNetwork in
  p ← map_err E (open_parser false [] net_options net);
  tap ← text p "tap";
  ip ← conv E p (of_from_str ip_from_str) "ip";
  mask ← conv E p (of_from_str ip_from_str) "mask";
  mac ← conv E p (of_from_str mac_parse_str) "mac";
  host_mac ← conv E p (of_from_str mac_parse_str) "host_mac";
  offload_tso ← toggle E p "offload_tso" true;
  offload_ufo ← toggle E p "offload_ufo" true;
  offload_csum ← toggle E p "offload_csum" true;
  mtu ← uint E p 16 "mtu";
  queue_size ← uint_or E p 16 "queue_size" DEFAULT_NET_QUEUE_SIZE;
  num_queues ← uint_or E p 64 "num_queues" DEFAULT_NET_NUM_QUEUES;
  vhost_user ← toggle E p "vhost_user" false;
  vhost_socket ← text p "socket";
  vhost_mode ← conv E p (of_from_str vhost_mode_from_str) "vhost_mode";
  fds ← conv E p integer_list_from_str "fd";
  rate ← rate_parse E p;
  pci_common ← pci_common_parse net;
  Ok {| Net.pci_common := pci_common; Net.tap := tap; Net.ip := ip; Net.mask := mask; Net.mac := default (mac_local_random random) mac;
        Net.host_mac := host_mac; Net.mtu := mtu; Net.num_queues := num_queues; Net.queue_size := queue_size;
        Net.vhost_user := vhost_user; Net.vhost_socket := vhost_socket; Net.vhost_mode := default Client vhost_mode;
        Net.fds := map as_i32 <$> fds; Net.rate_limiter_config := some_limit rate; Net.offload_tso := offload_tso;
        Net.offload_ufo := offload_ufo; Net.offload_csum := offload_csum |}.

Module Rng.
Record RngConfig := { src : str; iommu : bool }.
End Rng.
Definition DEFAULT_RNG_SOURCE : str := lit "/dev/urandom".

Definition rng_parse (rng : str) : res Error Rng.RngConfig :=
  let E := ParseRng in
  p ← map_err E (open_parser false [] ["src"; "iommu"] rng);
  src ← text p "src";
  iommu ← toggle E p "iommu" false;
  Ok {| Rng.src := default DEFAULT_RNG_SOURCE src; Rng.iommu := iommu |}.

Module Balloon.
Record BalloonConfig := { size : Z; deflate_on_oom : bool; free_page_reporting : bool }.
End Balloon.

Definition balloon_parse (balloon : str) : res Error Balloon.BalloonConfig :=
  let E := ParseBalloon in
  p ← map_err E (open_parser false [] ["size"; "deflate_on_oom"; "free_page_reporting"] balloon);
  size ← bytes E p "size";
  deflate_on_oom ← toggle E p "deflate_on_oom" false;
  free_page_reporting ← toggle E p "free_page_reporting" false;
  Ok {| Balloon.size := default 0 size; Balloon.deflate_on_oom := deflate_on_oom; Balloon.free_page_reporting := free_page_reporting |}.

Module GenericVhostUser.
Record GenericVhostUserConfig := { pci_common : Pci.PciDeviceCommonConfig; socket : str; queue_sizes : list Z; device_type : Z }.
End GenericVhostUser.

Definition VIRTIO_ID_IOMMU : Z := 23.
Definition VIRTIO_ID_WATCHDOG : Z := 35.

(** The names of device types, with the numbers of [linux/virtio_ids.h]. *)
Definition virtio_ids : list (string * Z) :=
  [("net", 1); ("block", 2); ("console", 3); ("rng", 4); ("balloon", 5); ("iomem", 6); ("rpmsg", 7); ("scsi", 8); ("9p", 9);
   ("mac80211_wlan", 10); ("rproc_serial", 11); ("caif", 12); ("memory_balloon", 13); ("gpu", 16); ("clock", 17); ("input", 18);
   ("vsock", 19); ("crypto", 20); ("signal_dist", 21); ("pstore", 22); ("iommu", VIRTIO_ID_IOMMU); ("mem", 24); ("sound", 25);
   ("fs", 26); ("pmem", 27); ("rpmb", 28); ("mac80211_hwsim", 29); ("video_encoder", 30); ("video_decoder", 31); ("scmi", 32);
   ("nitro_sec_mod", 33); ("i2c", 34); ("watchdog", VIRTIO_ID_WATCHDOG); ("can", 36); ("dmabuf", 37); ("param_serv", 38);
   ("audio_policy", 39); ("bt", 40); ("gpio", 41); ("rdma", 42); ("camera", 43); ("ism", 44); ("spi", 45); ("tee", 46);
   ("cpu_balloon", 47); ("media", 48); ("usb", 49)].

Definition virtio_id (s : str) : res Error Z :=
  match one_of virtio_ids false s with
  | Ok n => Ok n
  | _ =>
      match s with
      | c :: _ => if (49 <=? c) && (c <=? 57) then map_err (λ _, ParseGenericVhostUserVirtioIdInvalid s) (parse_uint U32_MAX s)
                  else Err (ParseGenericVhostUserVirtioIdInvalid s)
      | [] => Err (ParseGenericVhostUserVirtioIdInvalid s)
      end
  end.

Definition queue_size_u16 (acc : list Z) (queue_size : Z) : res Error (list Z) :=
  if queue_size <=? 65535 then Ok (acc ++ [queue_size])
  else Err (ParseGenericVhostUserQueueSizeTooLarge (zlen acc) queue_size).

Definition generic_vhost_user_parse (vhost_user : str) : res Error GenericVhostUser.GenericVhostUserConfig :=
  let E := ParseGenericVhostUser in
  p ← map_err E (open_parser false [] (["virtio_id"; "queue_sizes"; "socket"] ++ OPTIONS) vhost_user);
  socket ← text p "socket"; socket ← required ParseGenericVhostUserSockMissing socket;
  queue_sizes ← conv E p integer_list_from_str "queue_sizes"; queue_sizes ← required ParseGenericVhostUserQueueSizeMissing queue_sizes;
  device_type_str ← conv E p (of_from_str (@Ok str str)) "virtio_id"; device_type_str ← required ParseGenericVhostUserVirtioIdMissing device_type_str;
  device_type ← virtio_id device_type_str;
  _ ← (if (device_type =? VIRTIO_ID_WATCHDOG) || (device_type =? VIRTIO_ID_IOMMU)
       then Err (ParseGenericVhostUserVirtioIdUnsupported device_type_str) else Ok tt);
  pci_common ← pci_common_parse vhost_user;
  converted_queue_sizes ← foldM queue_size_u16 [] queue_sizes;
  Ok {| GenericVhostUser.pci_common := pci_common; GenericVhostUser.socket := socket;
        GenericVhostUser.queue_sizes := converted_queue_sizes; GenericVhostUser.device_type := device_type |}.

Module Fs.
Record FsConfig := { pci_common : Pci.PciDeviceCommonConfig; tag : str; socket : str; num_queues : Z; queue_size : Z }.
End Fs.
Definition VIRTIO_FS_TAG_LEN : Z := 36.

Definition fs_parse (fs : str) : res Error Fs.FsConfig :=
  let E := ParseFileSystem in
  p ← map_err E (open_parser false [] (["tag"; "queue_size"; "num_queues"; "socket"] ++ OPTIONS) fs);
  tag ← text p "tag"; tag ← required ParseFsTagMissing tag;
  _ ← (if VIRTIO_FS_TAG_LEN <? utf8_len tag then Err ParseFsTagTooLong else Ok tt);
  socket ← text p "socket"; socket ← required ParseFsSockMissing socket;
  queue_size ← uint_or E p 16 "queue_size" 1024;
  num_queues ← uint_or E p 64 "num_queues" 1;
  pci_common ← pci_common_parse fs;
  Ok {| Fs.pci_common := pci_common; Fs.tag := tag; Fs.socket := socket; Fs.num_queues := num_queues; Fs.queue_size := queue_size |}.

Module Pmem.
Record PmemConfig := { pci_common : Pci.PciDeviceCommonConfig; file : str; size : option Z; discard_writes : bool }.
End Pmem.

Definition pmem_parse (pmem : str) : res Error Pmem.PmemConfig :=
  let E := ParsePersistentMemory in
  p ← map_err E (open_parser false [] (["size"; "file"; "discard_writes"] ++ OPTIONS_IOMMU) pmem);
  pci_common ← pci_common_parse pmem;
  file ← text p "file"; file ← required ParsePmemFileMissing file;
  size ← bytes E p "size";
  discard_writes ← toggle E p "discard_writes" false;
  Ok {| Pmem.pci_common := pci_common; Pmem.file := file; Pmem.size := size; Pmem.discard_writes := discard_writes |}.

Inductive ConsoleOutputMode := COff | CPty | CTty | CFile | CSocket | CNull.
Global Instance ConsoleOutputMode_eq_dec : EqDecision ConsoleOutputMode.
Proof. solve_decision. Defined.

Module Console.
Record ConsoleConfig := { file : option str; mode : ConsoleOutputMode; iommu : bool; socket : option str }.
Record DebugConsoleConfig := { dfile : option str; dmode : ConsoleOutputMode; iobase : option Z }.
End Console.

Definition console_flags : list string := ["off"; "pty"; "tty"; "null"].

Definition console_parse (console : str) : res Error Console.ConsoleConfig :=
  let E := ParseConsole in
  p ← map_err E (open_parser false console_flags ["file"; "iommu"; "socket"] console);
  let set name := is_set (lit name) p in
  '(mode, file, socket) ←
    (if set "off" then Ok (COff, None, None)
     else if set "pty" then Ok (CPty, None, None)
     else if set "tty" then Ok (CTty, None, None)
     else if set "null" then Ok (CNull, None, None)
     else if set "file" then f ← text p "file"; f ← required (Validation ConsoleFileMissing) f; Ok (CFile, Some f, None)
     else if set "socket" then s ← text p "socket"; s ← required (Validation ConsoleSocketPathMissing) s; Ok (CSocket, None, Some s)
     else Err ParseConsoleInvalidModeGiven);
  iommu ← toggle E p "iommu" false;
  Ok {| Console.file := file; Console.mode := mode; Console.iommu := iommu; Console.socket := socket |}.

(** [u16::from_str_radix(s, 16)] *)
Fixpoint parse_hex_digits (acc : Z) (s : str) : option Z :=
  match s with
  | [] => Some acc
  | c :: s' => match to_digit 16 c with
               | Some d => if 65535 <? acc * 16 + d then None else parse_hex_digits (acc * 16 + d) s'
               | None => None
               end
  end.
Definition parse_hex (s : str) : option Z :=
  match s with
  | [] => None
  | c :: s' => if c =? 43 then match s' with [] => None | _ => parse_hex_digits 0 s' end else parse_hex_digits 0 s
  end.

Definition debug_console_parse (ops : str) : res Error Console.DebugConsoleConfig :=
  let E := ParseConsole in
  p ← map_err E (open_parser false console_flags ["file"; "iobase"] ops);
  let set name := is_set (lit name) p in
  '(mode, file) ←
    (if set "off" then Ok (COff, None)
     else if set "pty" then Ok (CPty, None)
     else if set "tty" then Ok (CTty, None)
     else if set "null" then Ok (CNull, None)
     else if set "file" then f ← text p "file"; f ← required (Validation ConsoleFileMissing) f; Ok (CFile, Some f)
     else Err ParseConsoleInvalidModeGiven);
  iobase_opt ← text p "iobase";
  iobase ← match (if set "iobase" then iobase_opt else None) with
           | Some s =>
               if negb (bool_decide (take 2 s = lit "0x")) then Err (Validation (InvalidIoPortHex s))
               else match parse_hex (drop 2 s) with Some n => Ok (Some n) | None => Err (Validation (InvalidIoPortHex s)) end
           | None => Ok None
           end;
  Ok {| Console.dfile := file; Console.dmode := mode; Console.iobase := iobase |}.

Module Device.
Record DeviceConfig := { pci_common : Pci.PciDeviceCommonConfig; path : str; x_nv_gpudirect_clique : option Z }.
Record UserDeviceConfig := { upci_common : Pci.PciDeviceCommonConfig; socket : str }.
Record VdpaConfig := { vpci_common : Pci.PciDeviceCommonConfig; vpath : str; num_queues : Z }.
Record VsockConfig := { spci_common : Pci.PciDeviceCommonConfig; cid : Z; ssocket : str }.
End Device.

Definition device_parse (device : str) : res Error Device.DeviceConfig :=
  let E := ParseDevice in
  p ← map_err E (open_parser false [] (["path"] ++ OPTIONS_IOMMU ++ ["x_nv_gpudirect_clique"]) device);
  pci_common ← pci_common_parse device;
  path ← text p "path"; path ← required ParseDevicePathMissing path;
  x_nv_gpudirect_clique ← uint E p 8 "x_nv_gpudirect_clique";
  Ok {| Device.pci_common := pci_common; Device.path := path; Device.x_nv_gpudirect_clique := x_nv_gpudirect_clique |}.

Definition user_device_parse (user_device : str) : res Error Device.UserDeviceConfig :=
  let E := ParseUserDevice in
  p ← map_err E (open_parser false [] (["socket"] ++ OPTIONS) user_device);
  pci_common ← pci_common_parse user_device;
  socket ← text p "socket"; socket ← required ParseUserDeviceSocketMissing socket;
  Ok {| Device.upci_common := pci_common; Device.socket := socket |}.

Definition vdpa_parse (vdpa : str) : res Error Device.VdpaConfig :=
  let E := ParseVdpa in
  p ← map_err E (open_parser false [] (["path"; "num_queues"] ++ OPTIONS_IOMMU) vdpa);
  pci_common ← pci_common_parse vdpa;
  path ← text p "path"; path ← required ParseVdpaPathMissing path;
  num_queues ← uint_or E p 64 "num_queues" 1;
  Ok {| Device.vpci_common := pci_common; Device.vpath := path; Device.num_queues := num_queues |}.

Definition vsock_parse (vsock : str) : res Error Device.VsockConfig :=
  let E := ParseVsock in
  p ← map_err E (open_parser false [] (["socket"; "cid"] ++ OPTIONS_IOMMU) vsock);
  pci_common ← pci_common_parse vsock;
  socket ← text p "socket"; socket ← required ParseVsockSockMissing socket;
  cid ← uint E p 32 "cid"; cid ← required ParseVsockCidMissing cid;
  Ok {| Device.spci_common := pci_common; Device.cid := cid; Device.ssocket := socket |}.

(** ** NUMA nodes *)

Module Numa.
Record NumaDistance := { destination : Z; distance : Z }.
Record NumaConfig := {
  guest_numa_id : Z; cpus : option (list Z); distances : option (list NumaDistance); memory_zones : option (list str);
  pci_segments : option (list Z); device_id : option str }.
End Numa.

Definition numa_parse (numa : str) : res Error Numa.NumaConfig :=
  let E := ParseNuma in
  p ← map_err E (open_parser false [] ["guest_numa_id"; "cpus"; "distances"; "device_id"; "memory_zones"; "pci_segments"] numa);
  guest_numa_id ← uint E p 32 "guest_numa_id";
  guest_numa_id ← required (ParseNuma (InvalidValue (lit "guest_numa_id is required for all NUMA nodes"))) guest_numa_id;
  cpus ← conv E p integer_list_from_str "cpus";
  distances ← conv E p (tuple_from_str (of_from_str (parse_uint U64_MAX)) tuple_u64) "distances";
  device_id ← text p "device_id";
  memory_zones ← conv E p string_list_from_str "memory_zones";
  pci_segments ← conv E p integer_list_from_str "pci_segments";
  if bool_decide (is_Some device_id) && (bool_decide (is_Some cpus) || bool_decide (is_Some memory_zones))
  then Err (ParseNuma (InvalidValue (lit "device_id in numa config cannot be used with cpus or memory zones")))
  else Ok {| Numa.guest_numa_id := guest_numa_id; Numa.cpus := map as_u32 <$> cpus;
             Numa.distances := map (λ e, {| Numa.destination := as_u32 e.1; Numa.distance := e.2 mod 2 ^ 8 |}) <$> distances;
             Numa.memory_zones := memory_zones; Numa.pci_segments := map as_u16 <$> pci_segments; Numa.device_id := device_id |}.

(** ** Restoring *)

Inductive MemoryRestoreMode := Copy | OnDemand.
Global Instance MemoryRestoreMode_eq_dec : EqDecision MemoryRestoreMode.
Proof. solve_decision. Defined.
Definition memory_restore_mode_from_str : str → res str MemoryRestoreMode := one_of [("copy", Copy); ("ondemand", OnDemand)] true.

Module Restore.
Record RestoredNetConfig := { id : str; num_fds : Z; fds : option (list Z) }.
Record RestoreConfig := {
  source_url : str; prefault : bool; memory_restore_mode : MemoryRestoreMode; template_socket : option str;
  net_fds : option (list RestoredNetConfig); resume : bool }.
End Restore.

Definition restore_parse (restore : str) : res Error Restore.RestoreConfig :=
  let E := ParseRestore in
  p ← map_err E (open_parser false [] ["source_url"; "prefault"; "memory_restore_mode"; "template_socket"; "net_fds"; "resume"] restore);
  source_url ← text p "source_url"; source_url ← required ParseRestoreSourceUrlMissing source_url;
  prefault ← toggle E p "prefault" false;
  memory_restore_mode ← conv E p (of_from_str memory_restore_mode_from_str) "memory_restore_mode";
  template_socket ← text p "template_socket";
  net_fds ← conv E p (tuple_from_str (of_from_str (@Ok str str)) (tuple_vec 64)) "net_fds";
  resume ← toggle E p "resume" false;
  Ok {| Restore.source_url := source_url; Restore.prefault := prefault;
        Restore.memory_restore_mode := default Copy memory_restore_mode; Restore.template_socket := template_socket;
        Restore.net_fds := map (λ e, {| Restore.id := e.1; Restore.num_fds := zlen e.2; Restore.fds := Some (as_i32 <$> e.2) |}) <$> net_fds;
        Restore.resume := resume |}.

(** ** Payload, TPM and Landlock rules *)

Module Payload.
Record PayloadConfig := { firmware : option str; kernel : option str; cmdline : option str; initramfs : option str }.
End Payload.

Definition tpm_parse (tpm : str) : res Error str :=
  p ← map_err ParseTpm (open_parser false [] ["socket"] tpm);
  socket ← text p "socket";
  required ParseTpmPathMissing socket.

Module LandlockRule.
Record LandlockConfig := { path : str; access : str }.
End LandlockRule.

Definition landlock_parse (rule : str) : res Error LandlockRule.LandlockConfig :=
  p ← map_err ParseLandlockRules (open_parser false [] ["path"; "access"] rule);
  path ← text p "path"; path ← required ParseLandlockMissingFields path;
  access ← text p "access"; access ← required ParseLandlockMissingFields access;
  if (2 <? length access)%nat then Err (ParseLandlockRules (InvalidValue access))
  else Ok {| LandlockRule.path := path; LandlockRule.access := access |}.

(** ** The VM *)

Module Vm.
Record VmParams := {
  p_cpus : str; p_memory : str; p_memory_zones : option (list str); p_firmware : option str; p_kernel : option str;
  p_initramfs : option str; p_cmdline : option str; p_rate_limit_groups : option (list str); p_disks : option (list str);
  p_net : option (list str); p_rng : str; p_balloon : option str; p_fs : option (list str);
  p_generic_vhost_user : option (list str); p_pmem : option (list str); p_serial : str; p_console : str; p_debug_console : str;
  p_devices : option (list str); p_user_devices : option (list str); p_vdpa : option (list str); p_vsock : option str;
  p_pvpanic : bool; p_numa : option (list str); p_watchdog : bool; p_pci_segments : option (list str); p_platform : option str;
  p_tpm : option str; p_landlock_enable : bool; p_landlock_rules : option (list str) }.

Record VmConfig := {
  cpus : Cpus.CpusConfig; memory : Memory.MemoryConfig; payload : option Payload.PayloadConfig;
  rate_limit_groups : option (list RateLimit.RateLimiterGroupConfig); disks : option (list Disk.DiskConfig);
  net : option (list Net.NetConfig); rng : Rng.RngConfig; balloon : option Balloon.BalloonConfig;
  generic_vhost_user : option (list GenericVhostUser.GenericVhostUserConfig); fs : option (list Fs.FsConfig);
  pmem : option (list Pmem.PmemConfig); serial : Console.ConsoleConfig; console : Console.ConsoleConfig;
  debug_console : Console.DebugConsoleConfig; devices : option (list Device.DeviceConfig);
  user_devices : option (list Device.UserDeviceConfig); vdpa : option (list Device.VdpaConfig); vsock : option Device.VsockConfig;
  pvpanic : bool; iommu : bool; numa : option (list Numa.NumaConfig); watchdog : bool;
  pci_segments : option (list PciSegment.PciSegmentConfig); platform : option Platform.PlatformConfig; tpm : option str;
  preserved_fds : option (list Z); landlock_enable : bool; landlock_rules : option (list LandlockRule.LandlockConfig) }.
End Vm.

(** [VmConfig::parse] up to the call of [validate]. *)
Definition vm_assemble (random : list Z) (v : Vm.VmParams) : res Error Vm.VmConfig :=
  rate_limit_groups ← parse_list rate_limiter_group_parse (Vm.p_rate_limit_groups v);
  disks ← parse_list disk_parse (Vm.p_disks v);
  net ← parse_list (net_parse random) (Vm.p_net v);
  rng ← rng_parse (Vm.p_rng v);
  balloon ← parse_opt balloon_parse (Vm.p_balloon v);
  fs ← parse_list fs_parse (Vm.p_fs v);
  generic_vhost_user ← parse_list generic_vhost_user_parse (Vm.p_generic_vhost_user v);
  pmem ← parse_list pmem_parse (Vm.p_pmem v);
  console ← console_parse (Vm.p_console v);
  serial ← console_parse (Vm.p_serial v);
  debug_console ← debug_console_parse (Vm.p_debug_console v);
  devices ← parse_list device_parse (Vm.p_devices v);
  user_devices ← parse_list user_device_parse (Vm.p_user_devices v);
  vdpa ← parse_list vdpa_parse (Vm.p_vdpa v);
  vsock ← parse_opt vsock_parse (Vm.p_vsock v);
  pci_segments ← parse_list pci_segment_parse (Vm.p_pci_segments v);
  platform ← parse_opt platform_parse (Vm.p_platform v);
  numa ← parse_list numa_parse (Vm.p_numa v);
  let payload_present := bool_decide (is_Some (Vm.p_kernel v)) || bool_decide (is_Some (Vm.p_firmware v)) in
  tpm ← parse_opt tpm_parse (Vm.p_tpm v);
  landlock_rules ← parse_list landlock_parse (Vm.p_landlock_rules v);
  cpus ← cpus_parse (Vm.p_cpus v);
  memory ← memory_parse (Vm.p_memory v) (Vm.p_memory_zones v);
  Ok {| Vm.cpus := cpus; Vm.memory := memory;
        Vm.payload := if payload_present
                      then Some {| Payload.firmware := Vm.p_firmware v; Payload.kernel := Vm.p_kernel v;
                                   Payload.cmdline := Vm.p_cmdline v; Payload.initramfs := Vm.p_initramfs v |}
                      else None;
        Vm.rate_limit_groups := rate_limit_groups; Vm.disks := disks; Vm.net := net; Vm.rng := rng; Vm.balloon := balloon;
        Vm.generic_vhost_user := generic_vhost_user; Vm.fs := fs; Vm.pmem := pmem; Vm.serial := serial; Vm.console := console;
        Vm.debug_console := debug_console; Vm.devices := devices; Vm.user_devices := user_devices; Vm.vdpa := vdpa;
        Vm.vsock := vsock; Vm.pvpanic := Vm.p_pvpanic v; Vm.iommu := false; Vm.numa := numa; Vm.watchdog := Vm.p_watchdog v;
        Vm.pci_segments := pci_segments; Vm.platform := platform; Vm.tpm := tpm; Vm.preserved_fds := None;
        Vm.landlock_enable := Vm.p_landlock_enable v; Vm.landlock_rules := landlock_rules |}.
