(* ===== verification/VmConfigParse.v ===== *)
(** * What parsing a configuration gives

    Theorems on the parsers of [VmConfig]: on every input they return a configuration or
    an error, unless a list of integers is longer than a vector can be, and every number
    of the configuration is in the machine type that the source gives its field. *)

From S2P Require Import Prelude RustStr OptionParser NetAddr VmConfig.

Import OptionParser NetAddr.

Module VmConfigParse.

(** ** Parsing returns *)

Lemma add_valueless_ok k p : parser_ok p → parser_ok (add_valueless k p).
Proof. intros Hp. by apply parser_ok_insert. Qed.

Lemma add_all_ok opts p :
  parser_ok p → forallb (λ o, negb (existsb forbidden o)) opts = true →
  ∃ p', add_all (E:=OptionParserError) opts p = (Ok tt, p') ∧ parser_ok p'.
Proof.
  revert p. induction opts as [|o opts IH]; intros p Hp; [by exists p|]. cbn [forallb]. intros [Ho Hopts]%andb_true_iff.
  apply negb_true_iff in Ho. unfold add_all. cbn [for_]. unfold mbind, M_bind, add at 1. rewrite Ho. apply IH; [|done]. by apply parser_ok_insert.
Qed.

Definition clean (opts : list string) : bool := forallb (λ o, negb (existsb forbidden o)) (lit <$> opts).

Lemma open_parser_run u flags opts input :
  clean opts = true → returns (open_parser u flags opts input) ∧ ∀ p, open_parser u flags opts input = Ok p → parser_ok p.
Proof.
  intros Hc. unfold open_parser. set (p0 := foldr _ _ _).
  assert (parser_ok p0) as H0.
  { unfold p0. induction flags as [|f flags IH]; [split; intros ? ?; unfold parser_new; by rewrite ?lookup_empty|]. by apply add_valueless_ok. }
  destruct (add_all_ok (lit <$> opts) p0 H0 Hc) as (p1 & -> & H1). destruct (parse_inner input u p1) as [r p2] eqn:Hp.
  destruct (parse_inner_ok _ _ _ _ _ H1 Hp) as [H2 Hr]. destruct r; (split; [done|]); naive_solver.
Qed.

Lemma conv_returns {E F T} (mk : OptionParserError → E) p (from_str : str → res F T) name :
  parser_ok p → safe from_str → returns (conv mk p from_str name).
Proof.
  intros Hp Hs. apply returns_map_err. unfold convert. destruct (p !! lit name) as [[[v|] req]|] eqn:Hl; [|done..].
  case_bool_decide; [done|]. assert (returns (map_err (λ _ : F, Conversion (lit name) v) (from_str v))) as Hr.
  { apply returns_map_err, Hs. by eapply (ok_values p Hp). }
  by destruct (map_err _ _).
Qed.

Lemma uint_returns {E} (mk : OptionParserError → E) p w name : parser_ok p → returns (uint mk p w name).
Proof. intros Hp. apply conv_returns; [done|]. apply of_from_str_safe, parse_uint_safe. Qed.

Lemma uint_or_returns {E} (mk : OptionParserError → E) p w name d : parser_ok p → returns (uint_or mk p w name d).
Proof. intros Hp. by apply returns_bind; [apply uint_returns|]. Qed.

Lemma bytes_returns {E} (mk : OptionParserError → E) p name : parser_ok p → returns (bytes mk p name).
Proof. intros Hp. apply conv_returns; [done|]. apply of_from_str_safe, bytesized_returns. Qed.

Lemma toggle_returns {E} (mk : OptionParserError → E) p name d : parser_ok p → returns (toggle mk p name d).
Proof. intros Hp. by apply returns_bind; [apply conv_returns, toggle_safe|]. Qed.

Lemma text_returns {E} p name : parser_ok p → returns (text (E:=E) p name).
Proof.
  intros Hp. unfold text, get. destruct (p !! lit name) as [[[v|] req]|] eqn:Hl; [|done..]. case_bool_decide; [done|].
  destruct (dequote_run (E:=E) v) as [d ->]; [by eapply (ok_values p Hp)|done].
Qed.

Lemma required_returns {E T} (e : E) (o : option T) : returns (required e o).
Proof. by destruct o. Qed.

Lemma one_of_returns {T} (words : list (string * T)) b s : returns (one_of words b s).
Proof. unfold one_of. by repeat case_match. Qed.

Lemma cpu_topology_returns s : returns (cpu_topology_from_str s).
Proof.
  unfold cpu_topology_from_str. destruct (split 58 s) as [|a [|b [|c [|d [|? ?]]]]]; try done.
  repeat (apply returns_bind; [apply returns_map_err, parse_uint_safe|intros ? _]). done.
Qed.

Lemma mac_returns s : returns (mac_parse_str s).
Proof. unfold mac_parse_str. by repeat case_match. Qed.

Lemma ip_returns s : returns (ip_from_str s).
Proof. unfold ip_from_str. by repeat case_match. Qed.

Lemma parse_all_returns {E T} (parse : str → res E T) l : (∀ s, returns (parse s)) → returns (parse_all parse l).
Proof. intros Hp. apply returns_foldM. intros. by apply returns_bind. Qed.

Lemma parse_list_returns {E T} (parse : str → res E T) l : (∀ s, returns (parse s)) → returns (parse_list parse l).
Proof. intros Hp. destruct l; [|done]. by apply returns_bind; [apply parse_all_returns|]. Qed.

Lemma parse_opt_returns {E T} (parse : str → res E T) o : (∀ s, returns (parse s)) → returns (parse_opt parse o).
Proof. intros Hp. destruct o; [|done]. by apply returns_bind. Qed.

Lemma string_safe : safe (of_from_str (@Ok str str)).
Proof. by apply of_from_str_safe. Qed.

Create HintDb parsing.
#[export] Hint Resolve uint_returns uint_or_returns bytes_returns toggle_returns text_returns required_returns
  conv_returns parse_list_returns parse_opt_returns : parsing.
#[export] Hint Resolve string_safe string_list_safe toggle_safe of_from_str_safe tuple_safe : parsing.
#[export] Hint Resolve one_of_returns cpu_topology_returns mac_returns ip_returns parse_uint_safe tuple_u64_returns : parsing.

(** One option after the other. *)
Ltac parsing :=
  repeat match goal with
  | |- returns (map_err _ (open_parser ?u ?f ?o ?i) ≫= _) =>
      let H := fresh "Hopen" in
      pose proof (open_parser_run u f o i eq_refl) as [? H];
      apply returns_bind; [by apply returns_map_err|];
      let p := fresh "p" in let Hp := fresh "Hp" in
      intros p Hp;
      assert (parser_ok p) by (apply H; by destruct (open_parser u f o i); simplify_eq/=);
      clear Hp H
  | |- returns (mbind _ _) => apply returns_bind; [try solve [eauto with parsing]|intros ? _]
  | |- returns (Ok _) => exact I
  | |- returns (Err _) => exact I
  | |- returns (required _ _) => apply required_returns
  | |- returns (map_err _ _) => apply returns_map_err
  | |- returns (parse_uint _ _) => apply parse_uint_safe
  | |- returns (foldM _ _ _) => apply returns_foldM; intros
  | |- returns (let _ := _ in _) => cbv zeta
  | |- returns (match ?x with _ => _ end) => destruct x
  end.

Lemma pci_common_returns s : returns (pci_common_parse s).
Proof. unfold pci_common_parse. parsing. Qed.

Lemma rate_returns {E} (mk : OptionParserError → E) p : parser_ok p → returns (rate_parse mk p).
Proof. intros. unfold rate_parse. parsing. Qed.

#[export] Hint Resolve pci_common_returns rate_returns : parsing.

Lemma pci_segment_returns s : returns (pci_segment_parse s).
Proof. unfold pci_segment_parse. parsing. Qed.

Lemma rate_limiter_group_returns s : returns (rate_limiter_group_parse s).
Proof. unfold rate_limiter_group_parse. parsing. Qed.

Lemma rng_returns s : returns (rng_parse s).
Proof. unfold rng_parse. parsing. Qed.

Lemma balloon_returns s : returns (balloon_parse s).
Proof. unfold balloon_parse. parsing. Qed.

Lemma fs_returns s : returns (fs_parse s).
Proof. unfold fs_parse. parsing. Qed.

Lemma pmem_returns s : returns (pmem_parse s).
Proof. unfold pmem_parse. parsing. Qed.

Lemma console_returns s : returns (console_parse s).
Proof. unfold console_parse. parsing. Qed.

Lemma debug_console_returns s : returns (debug_console_parse s).
Proof. unfold debug_console_parse. parsing. Qed.

Lemma device_returns s : returns (device_parse s).
Proof. unfold device_parse. parsing. Qed.

Lemma user_device_returns s : returns (user_device_parse s).
Proof. unfold user_device_parse. parsing. Qed.

Lemma vdpa_returns s : returns (vdpa_parse s).
Proof. unfold vdpa_parse. parsing. Qed.

Lemma vsock_returns s : returns (vsock_parse s).
Proof. unfold vsock_parse. parsing. Qed.

Lemma tpm_returns s : returns (tpm_parse s).
Proof. unfold tpm_parse. parsing. Qed.

Lemma landlock_returns s : returns (landlock_parse s).
Proof. unfold landlock_parse. parsing. Qed.

Lemma memory_zone_returns b s : returns (memory_zone_parse b s).
Proof. unfold memory_zone_parse. parsing. Qed.

Lemma memory_returns s zones : returns (memory_parse s zones).
Proof. pose proof memory_zone_returns. unfold memory_parse. parsing. Qed.

#[export] Hint Resolve pci_segment_returns rate_limiter_group_returns rng_returns balloon_returns fs_returns pmem_returns console_returns
  debug_console_returns device_returns user_device_returns vdpa_returns vsock_returns tpm_returns landlock_returns memory_zone_returns
  memory_returns : parsing.

(** ** Lists of integers *)

(** A part of [s] is a list of integers that is longer than a vector can be. *)
Definition long_list (s : str) : Prop := ∃ part, part `sublist_of` s ∧ integer_list_from_str part = Panic.

(** A result that is a value or an error, or a panic because of [X]. *)
Definition fine {E A} (X : Prop) (r : res E A) : Prop := returns r ∨ r = Panic ∧ X.

(** The values of the options are parts of the string they are read from. *)
Definition values_from (s : str) (p : OptionParser) : Prop :=
  ∀ k v x, p !! k = Some v → value v = Some x → x `sublist_of` s.

Lemma trim_sublist f s : trim_matches f s `sublist_of` s.
Proof.
  destruct (trim_matches_split f s) as (a & b & Hs & _). rewrite Hs at 2. by apply sublist_inserts_l, sublist_inserts_r.
Qed.

Lemma join_sublist sep l x : x ∈ l → x `sublist_of` join sep l.
Proof.
  induction l as [|y [|z l] IH]; intros Hx; [by apply elem_of_nil in Hx|..]; apply elem_of_cons in Hx as [->|Hx].
  - done.
  - by apply elem_of_nil in Hx.
  - by apply sublist_inserts_r.
  - apply sublist_inserts_l, sublist_cons. by apply IH.
Qed.

Lemma split_commas_sublist s l x : split_commas s = Ok l → x ∈ l → x `sublist_of` s.
Proof.
  intros Hl Hx. apply (proj1 (split_commas_spec s l)) in Hl as (_ & Hj & _).
  etrans; [by apply (join_sublist COMMA)|]. rewrite Hj. apply trim_sublist.
Qed.

Lemma parse_option_values u o s p r p' :
  values_from s p → o `sublist_of` s → parse_option u o p = (r, p') → values_from s p'.
Proof.
  intros Hp Ho. unfold parse_option. destruct (splitn2 EQUALS o) as [k rest] eqn:Hk. apply splitn2_spec in Hk as ->.
  destruct (p !! k) as [v|] eqn:Hl; [|destruct u; intros [= <- <-]; done].
  assert (∀ x b, x `sublist_of` s → values_from s (<[k := {| value := Some x; requires_value := b |}]> p)) as Hins.
  { intros x b Hx k' v' x' [[<- <-]|[_ Hv]]%lookup_insert_Some; [by intros [= <-]|by eapply Hp]. }
  destruct (requires_value v); [destruct rest as [x|]|]; intros [= <- <-]; [|done|apply Hins, sublist_nil_l].
  apply Hins. etrans; [apply trim_sublist|]. etrans; [|exact Ho]. by apply sublist_inserts_l, sublist_cons.
Qed.

Lemma open_parser_values u flags opts input p : open_parser u flags opts input = Ok p → values_from input p.
Proof.
  unfold open_parser. set (p0 := foldr _ _ _).
  assert (values_from input p0) as H0.
  { unfold p0. induction flags as [|f flags IH]; intros k v x; cbn [foldr];
      [unfold parser_new; by rewrite lookup_empty|]. unfold add_valueless. intros [[<- <-]|[_ Hv]]%lookup_insert_Some; [done|by eapply IH]. }
  assert (∀ l q q' r, values_from input q → add_all (E:=OptionParserError) l q = (r, q') → values_from input q') as Hadd.
  { unfold add_all. induction l as [|o l IH]; intros q q' r Hq; cbn [for_]; [by intros [= <- <-]|]. unfold mbind, M_bind, add at 1.
    destruct (existsb forbidden o); [by intros [= <- <-]|]. apply IH.
    intros k v x [[<- <-]|[_ Hv]]%lookup_insert_Some; [done|by eapply Hq]. }
  destruct (add_all (lit <$> opts) p0) as [[] p1] eqn:H1; try done. apply Hadd in H1; [|done].
  assert (∀ l q q' r, (∀ o, o ∈ l → o `sublist_of` input) → values_from input q →
    for_ l (parse_option u) q = (r, q') → values_from input q') as Hfor.
  { induction l as [|o l IH]; intros q q' r Hl Hq; cbn [for_]; [by intros [= <- <-]|]. unfold mbind, M_bind.
    destruct (parse_option u o q) as [ro q1] eqn:Ho. apply parse_option_values with (s := input) in Ho; [|done|apply Hl; by left].
    destruct ro; [|by intros [= <- <-]..]. apply IH; [|done]. intros o' Ho'. apply Hl. by right. }
  unfold parse_inner. case_bool_decide; [by intros [= <-]|]. unfold mbind, M_bind, lift at 1.
  destruct (split_commas input) as [l| | |] eqn:Hl; try done. destruct (for_ l (parse_option u) p1) as [[] p2] eqn:H2; try done.
  intros [= <-]. eapply Hfor; [|exact H1|exact H2]. intros o Ho. by eapply split_commas_sublist.
Qed.

Lemma fine_returns {E A} X (r : res E A) : returns r → fine X r.
Proof. by left. Qed.

Lemma fine_bind {E A B} X (m : res E A) (f : A → res E B) : fine X m → (∀ a, m = Ok a → fine X (f a)) → fine X (m ≫= f).
Proof. intros [Hm|[-> HX]] Hf; [|by right]. destruct m; try done; [by apply Hf|by left]. Qed.

Lemma fine_map_err {E F A} X (f : E → F) (m : res E A) : fine X m → fine X (map_err f m).
Proof. intros [Hm|[-> HX]]; [left; by apply returns_map_err|by right]. Qed.

Lemma fine_mono {E A} (X Y : Prop) (m : res E A) : fine X m → (X → Y) → fine Y m.
Proof. intros [Hm|[-> HX]] HXY; [by left|right; auto]. Qed.

Lemma fine_foldM {E A B} X (f : A → B → res E A) a (l : list B) : (∀ a x, x ∈ l → fine X (f a x)) → fine X (foldM f a l).
Proof.
  revert a. induction l as [|x l IH]; intros a Hf; simpl; [by left|]. apply fine_bind; [apply Hf; by left|].
  intros b _. apply IH. intros. apply Hf. by right.
Qed.

Lemma map_err_Ok {E F A} (f : E → F) (m : res E A) a : map_err f m = Ok a → m = Ok a.
Proof. by destruct m; intros [= <-]. Qed.

Section from.
Context (s : str) (p : OptionParser) (Hp : parser_ok p) (Hv : values_from s p).

Lemma conv_fine {E F T} (mk : OptionParserError → E) (from_str : str → res F T) name :
  (∀ x, balanced x → x `sublist_of` s → fine (long_list s) (from_str x)) → fine (long_list s) (conv mk p from_str name).
Proof using Hp Hv.
  intros Hf. apply fine_map_err. unfold convert. destruct (p !! lit name) as [[[v|] req]|] eqn:Hl; [|by left..].
  case_bool_decide; [by left|].
  assert (fine (long_list s) (from_str v)) as [Hr|[-> Hx]]; [| |by right].
  - apply Hf; [by eapply (ok_values p Hp)|by eapply Hv].
  - left. by destruct (from_str v).
Qed.

Lemma list_fine x : x `sublist_of` s → fine (long_list s) (integer_list_from_str x).
Proof using. intros Hx. destruct (integer_list_result x); [by left|right]. split; [done|]. by exists x. Qed.

Lemma conv_list_fine {E} (mk : OptionParserError → E) name : fine (long_list s) (conv mk p integer_list_from_str name).
Proof using Hp Hv. apply conv_fine. intros x _. apply list_fine. Qed.

Lemma conv_tuple_fine {E F S} (mk : OptionParserError → E) (from_str : str → res F S) w name :
  safe from_str → fine (long_list s) (conv mk p (tuple_from_str from_str (tuple_vec w)) name).
Proof using Hp Hv.
  intros Hs. apply conv_fine. intros x _ Hx. unfold tuple_from_str.
  destruct (strip_prefix LBRACKET (trim x) ≫= strip_suffix RBRACKET) as [body|] eqn:Hbody; [|by left].
  assert (body `sublist_of` s) as Hb.
  { etrans; [|exact Hx]. etrans; [|apply (trim_sublist is_whitespace)]. fold (trim x). destruct (trim x) as [|c y]; [done|]. simpl in Hbody.
    destruct (c =? LBRACKET); [|done]. apply sublist_cons. revert Hbody. cbn. unfold strip_suffix. case_bool_decide; intros [= <-].
    apply sublist_take. }
  apply fine_bind; [left; apply returns_map_err, split_commas_returns|]. intros l Hl%map_err_Ok. apply fine_foldM. intros acc tuple Ht.
  unfold tuple_item. destruct (tuple_loop tuple tuple 0 false 0 None) as [[last [first|]]|] eqn:Hloop; [|by left..].
  assert (balanced first) as Hbal by (eapply (tuple_loop_first tuple [] tuple 0 None); done).
  apply fine_bind; [left; by apply returns_map_err, Hs|]. intros i _. apply fine_bind; [|by left].
  apply fine_bind; [|by left]. apply fine_map_err, list_fine. etrans; [apply sublist_drop|].
  etrans; [by eapply split_commas_sublist|done].
Qed.
End from.

#[export] Hint Resolve conv_list_fine conv_tuple_fine fine_returns : parsing.

(** As [parsing], for parsers of lists of integers. *)
Ltac parsing_lists :=
  repeat match goal with
  | |- fine _ (map_err _ (open_parser ?u ?f ?o ?i) ≫= _) =>
      let H := fresh "Hopen" in
      pose proof (open_parser_run u f o i eq_refl) as [? H];
      apply fine_bind; [by apply fine_returns, returns_map_err|];
      let p := fresh "p" in let Hp := fresh "Hp" in
      intros p Hp;
      assert (open_parser u f o i = Ok p) by (by destruct (open_parser u f o i); simplify_eq/=);
      assert (parser_ok p) by (by apply H);
      assert (values_from i p) by (by eapply open_parser_values);
      clear Hp H
  | |- fine _ (mbind _ _) => apply fine_bind; [try solve [eauto with parsing]|intros ? _]
  | |- fine _ (Ok _) => by left
  | |- fine _ (Err _) => by left
  | |- fine _ (required _ _) => apply fine_returns, required_returns
  | |- fine _ (map_err _ _) => apply fine_map_err
  | |- fine _ (foldM _ _ _) => apply fine_foldM; intros
  | |- fine _ (let _ := _ in _) => cbv zeta
  | |- fine _ (match ?x with _ => _ end) => destruct x
  end.

Lemma cpus_fine s : fine (long_list s) (cpus_parse s).
Proof. unfold cpus_parse. parsing_lists. Qed.

Lemma platform_fine s : fine (long_list s) (platform_parse s).
Proof. unfold platform_parse. parsing_lists. Qed.

Lemma disk_fine s : fine (long_list s) (disk_parse s).
Proof. unfold disk_parse. parsing_lists. Qed.

Lemma generic_vhost_user_fine s : fine (long_list s) (generic_vhost_user_parse s).
Proof.
  assert (∀ id, returns (virtio_id id)) by (intros id; unfold virtio_id; parsing).
  assert (∀ acc n, returns (queue_size_u16 acc n)) by (intros acc n; unfold queue_size_u16; parsing).
  unfold generic_vhost_user_parse. parsing_lists; by auto using fine_returns.
Qed.

Lemma numa_fine s : fine (long_list s) (numa_parse s).
Proof. unfold numa_parse. parsing_lists. Qed.

Lemma restore_fine s : fine (long_list s) (restore_parse s).
Proof. unfold restore_parse. parsing_lists. Qed.

Lemma net_fine random s : fine (long_list s) (net_parse random s).
Proof. unfold net_parse. parsing_lists. Qed.

Lemma parse_all_fine {E T} X (parse : str → res E T) l :
  (∀ x, x ∈ l → fine X (parse x)) → fine X (parse_all parse l).
Proof. intros Hp. apply fine_foldM. intros acc x Hx. apply fine_bind; [by apply Hp|by left]. Qed.

Lemma parse_list_fine {E T} X (parse : str → res E T) o :
  (∀ x, x ∈ default [] o → fine X (parse x)) → fine X (parse_list parse o).
Proof. intros Hp. destruct o as [l|]; [|by left]. apply fine_bind; [by apply parse_all_fine|by left]. Qed.

Lemma parse_opt_fine {E T} X (parse : str → res E T) o :
  (∀ x, o = Some x → fine X (parse x)) → fine X (parse_opt parse o).
Proof. intros Hp. destruct o as [x|]; [|by left]. apply fine_bind; [by apply Hp|by left]. Qed.

(** The parameters in which lists of integers may occur. *)
Definition list_params (v : Vm.VmParams) : list str :=
  Vm.p_cpus v :: default [] (Vm.p_disks v) ++ default [] (Vm.p_net v) ++ default [] (Vm.p_generic_vhost_user v) ++
  default [] (Vm.p_numa v) ++ match Vm.p_platform v with Some x => [x] | None => [] end.

Lemma vm_assemble_fine random v : fine (Exists long_list (list_params v)) (vm_assemble random v).
Proof.
  assert (∀ E T (parse : str → res E T) x, fine (long_list x) (parse x) → x ∈ list_params v → fine (Exists long_list (list_params v)) (parse x)) as Hin.
  { intros E T parse x Hf Hx. eapply fine_mono; [exact Hf|]. intros Hl. apply Exists_exists. eauto. }
  assert (∀ E T (parse : str → res E T) o, (∀ x, fine (long_list x) (parse x)) → (∀ x, x ∈ default [] o → x ∈ list_params v) →
    fine (Exists long_list (list_params v)) (parse_list parse o)) as Hlist.
  { intros E T parse o Hf Hs. apply parse_list_fine. intros x Hx. apply Hin; auto. }
  unfold vm_assemble, list_params in *. parsing_lists; try (apply fine_returns; eauto with parsing; fail).
  - apply Hlist; [apply disk_fine|set_solver].
  - apply Hlist; [apply net_fine|set_solver].
  - apply Hlist; [apply generic_vhost_user_fine|set_solver].
  - apply parse_opt_fine. intros x Hx. apply Hin; [apply platform_fine|]. rewrite Hx. set_solver.
  - apply Hlist; [apply numa_fine|set_solver].
  - apply Hin; [apply cpus_fine|set_solver].
Qed.

(** C21: whatever the strings of the parameters are, [VmConfig::parse] comes to the
    validation of a configuration or returns an error, and [RestoreConfig::parse] returns;
    they panic only when a part of a parameter is a list of integers that
    [IntegerList::from_str] panics on, because its ranges have more than 2^59 numbers. *)
Theorem config_parse_returns random v restore :
  (returns (vm_assemble random v) ∨ vm_assemble random v = Panic ∧ Exists long_list (list_params v)) ∧
  (returns (restore_parse restore) ∨ restore_parse restore = Panic ∧ long_list restore).
Proof. split; [apply vm_assemble_fine|apply restore_fine]. Qed.

(** The list of the processors of a node is too long. *)
Lemma long_cpu_list_panics : numa_parse (lit "guest_numa_id=0,cpus=[0-576460752303423488]") = Panic.
Proof. vm_compute. reflexivity. Qed.

(** ** Machine types *)

Definition u (w n : Z) : Prop := 0 ≤ n < 2 ^ w.
Definition i32 (n : Z) : Prop := - 2 ^ 31 ≤ n < 2 ^ 31.
Definition opt {A} (P : A → Prop) (o : option A) : Prop := match o with Some x => P x | None => True end.

Definition ip_typed (i : IpAddr) : Prop :=
  match i with V4 o => length o = 4%nat ∧ Forall (u 8) o | V6 g => length g = 8%nat ∧ Forall (u 16) g end.
Definition cpus_typed (c : Cpus.CpusConfig) : Prop :=
  u 32 (Cpus.boot_vcpus c) ∧ u 32 (Cpus.max_vcpus c) ∧ u 8 (Cpus.max_phys_bits c) ∧
  opt (λ t, u 16 (Cpus.threads_per_core t) ∧ u 16 (Cpus.cores_per_die t) ∧ u 16 (Cpus.dies_per_package t) ∧ u 16 (Cpus.packages t))
    (Cpus.topology c) ∧
  opt (Forall (λ a, u 32 (Cpus.vcpu a) ∧ Forall (u 64) (Cpus.host_cpus a))) (Cpus.affinity c).
Definition pci_segment_typed (s : PciSegment.PciSegmentConfig) : Prop :=
  u 16 (PciSegment.pci_segment s) ∧ u 32 (PciSegment.mmio32_aperture_weight s) ∧ u 32 (PciSegment.mmio64_aperture_weight s).
Definition platform_typed (p : Platform.PlatformConfig) : Prop :=
  u 16 (Platform.num_pci_segments p) ∧ opt (Forall (u 16)) (Platform.iommu_segments p) ∧ u 8 (Platform.iommu_address_width_bits p).
Definition zone_typed (z : MemoryZone.MemoryZoneConfig) : Prop :=
  u 64 (MemoryZone.size z) ∧ opt (u 64) (MemoryZone.hugepage_size z) ∧ opt (u 32) (MemoryZone.host_numa_node z) ∧
  opt (u 64) (MemoryZone.hotplug_size z) ∧ opt (u 64) (MemoryZone.hotplugged_size z).
Definition memory_typed (m : Memory.MemoryConfig) : Prop :=
  u 64 (Memory.size m) ∧ opt (u 64) (Memory.hotplug_size m) ∧ opt (u 64) (Memory.hotplugged_size m) ∧
  opt (u 64) (Memory.hugepage_size m) ∧ opt (Forall zone_typed) (Memory.zones m).
Definition bucket_typed (b : RateLimit.TokenBucketConfig) : Prop :=
  u 64 (RateLimit.size b) ∧ opt (u 64) (RateLimit.one_time_burst b) ∧ u 64 (RateLimit.refill_time b).
Definition rate_typed (r : RateLimit.RateLimiterConfig) : Prop :=
  opt bucket_typed (RateLimit.bandwidth r) ∧ opt bucket_typed (RateLimit.ops r).
Definition pci_typed (d : Pci.PciDeviceCommonConfig) : Prop := u 16 (Pci.pci_segment d) ∧ opt (u 8) (Pci.pci_device_id d).
Definition disk_typed (d : Disk.DiskConfig) : Prop :=
  pci_typed (Disk.pci_common d) ∧ u 64 (Disk.num_queues d) ∧ u 16 (Disk.queue_size d) ∧ opt rate_typed (Disk.rate_limiter_config d) ∧
  opt (Forall (λ a, u 16 (Disk.queue_index a) ∧ Forall (u 64) (Disk.host_cpus a))) (Disk.queue_affinity d).
Definition net_typed (n : Net.NetConfig) : Prop :=
  pci_typed (Net.pci_common n) ∧ opt ip_typed (Net.ip n) ∧ opt ip_typed (Net.mask n) ∧ is_mac (Net.mac n) ∧ opt is_mac (Net.host_mac n) ∧
  opt (u 16) (Net.mtu n) ∧ u 64 (Net.num_queues n) ∧ u 16 (Net.queue_size n) ∧ opt (Forall i32) (Net.fds n) ∧
  opt rate_typed (Net.rate_limiter_config n).
Definition generic_typed (g : GenericVhostUser.GenericVhostUserConfig) : Prop :=
  pci_typed (GenericVhostUser.pci_common g) ∧ Forall (u 16) (GenericVhostUser.queue_sizes g) ∧ u 32 (GenericVhostUser.device_type g).
Definition fs_typed (f : Fs.FsConfig) : Prop := pci_typed (Fs.pci_common f) ∧ u 64 (Fs.num_queues f) ∧ u 16 (Fs.queue_size f).
Definition pmem_typed (d : Pmem.PmemConfig) : Prop := pci_typed (Pmem.pci_common d) ∧ opt (u 64) (Pmem.size d).
Definition device_typed (d : Device.DeviceConfig) : Prop := pci_typed (Device.pci_common d) ∧ opt (u 8) (Device.x_nv_gpudirect_clique d).
Definition vdpa_typed (d : Device.VdpaConfig) : Prop := pci_typed (Device.vpci_common d) ∧ u 64 (Device.num_queues d).
Definition vsock_typed (d : Device.VsockConfig) : Prop := pci_typed (Device.spci_common d) ∧ u 32 (Device.cid d).
Definition numa_typed (n : Numa.NumaConfig) : Prop :=
  u 32 (Numa.guest_numa_id n) ∧ opt (Forall (u 32)) (Numa.cpus n) ∧ opt (Forall (u 16)) (Numa.pci_segments n) ∧
  opt (Forall (λ d, u 32 (Numa.destination d) ∧ u 8 (Numa.distance d))) (Numa.distances n).
Definition vm_typed (c : Vm.VmConfig) : Prop :=
  cpus_typed (Vm.cpus c) ∧ memory_typed (Vm.memory c) ∧
  opt (Forall (λ g, rate_typed (RateLimit.rate_limiter_config g))) (Vm.rate_limit_groups c) ∧
  opt (Forall disk_typed) (Vm.disks c) ∧ opt (Forall net_typed) (Vm.net c) ∧ opt (λ b, u 64 (Balloon.size b)) (Vm.balloon c) ∧
  opt (Forall generic_typed) (Vm.generic_vhost_user c) ∧ opt (Forall fs_typed) (Vm.fs c) ∧ opt (Forall pmem_typed) (Vm.pmem c) ∧
  opt (u 16) (Console.iobase (Vm.debug_console c)) ∧ opt (Forall device_typed) (Vm.devices c) ∧
  opt (Forall (λ d, pci_typed (Device.upci_common d))) (Vm.user_devices c) ∧ opt (Forall vdpa_typed) (Vm.vdpa c) ∧
  opt vsock_typed (Vm.vsock c) ∧ opt (Forall numa_typed) (Vm.numa c) ∧ opt (Forall pci_segment_typed) (Vm.pci_segments c) ∧
  opt platform_typed (Vm.platform c).

(** [f] gives values with [P] only. *)
Definition gives {E T} (f : str → res E T) (P : T → Prop) : Prop := ∀ s x, f s = Ok x → P x.

Lemma opt_fmap {A B} (f : A → B) (P : B → Prop) o : opt (λ x, P (f x)) o → opt P (f <$> o).
Proof. by destruct o. Qed.

Lemma opt_impl {A} (P Q : A → Prop) o : opt P o → (∀ x, P x → Q x) → opt Q o.
Proof. destruct o; simpl; auto. Qed.

Lemma default_typed {A} (P : A → Prop) d o : opt P o → P d → P (default d o).
Proof. by destruct o. Qed.

Lemma conv_typed {E F T} (mk : OptionParserError → E) p (from_str : str → res F T) name o P :
  gives from_str P → conv mk p from_str name = Ok o → opt P o.
Proof.
  intros Hg Hc%map_err_Ok. unfold convert in Hc. destruct (p !! lit name) as [[[v|] req]|]; [|by simplify_eq..].
  case_bool_decide; [by simplify_eq|]. destruct (from_str v) as [x| | |] eqn:Hx; simplify_eq/=. by eapply Hg.
Qed.

Lemma of_from_str_gives {E T} (f : str → res E T) P : gives f P → gives (of_from_str f) P.
Proof. intros Hg s x (d & _ & Hd)%bind_ok. by eapply Hg. Qed.

Lemma parse_uint_gives w : 0 ≤ w → gives (parse_uint (2 ^ w - 1)) (u w).
Proof.
  intros Hw s n Hn. assert (0 < 2 ^ w) by (by apply Z.pow_pos_nonneg).
  apply parse_uint_bound in Hn; [|lia]. unfold u. lia.
Qed.

Lemma uint_typed {E} (mk : OptionParserError → E) p w name o : uint mk p w name = Ok o → 0 ≤ w → opt (u w) o.
Proof. intros H Hw. eapply conv_typed; [|exact H]. by apply of_from_str_gives, parse_uint_gives. Qed.

Lemma uint_or_typed {E} (mk : OptionParserError → E) p w name d n : uint_or mk p w name d = Ok n → 0 ≤ w → u w d → u w n.
Proof. intros (o & Ho & [= <-])%bind_ok Hw Hd. apply default_typed; [by eapply uint_typed|done]. Qed.

Lemma bytesized_gives : gives bytesized_from_str (u 64).
Proof.
  intros s n. unfold bytesized_from_str. cbv zeta. destruct (parse_uint U64_MAX _); [|done..]. intros [= <-]. apply Z.mod_pos_bound. lia.
Qed.

Lemma bytes_typed {E} (mk : OptionParserError → E) p name o : bytes mk p name = Ok o → opt (u 64) o.
Proof. intros H. eapply conv_typed; [|exact H]. apply of_from_str_gives, bytesized_gives. Qed.

Lemma parse_all_typed {E T} (parse : str → res E T) (P : T → Prop) l x : gives parse P → parse_all parse l = Ok x → Forall P x.
Proof.
  intros Hg. unfold parse_all. apply (foldM_ok_inv _ (λ _ acc, Forall P acc)); [done|].
  intros _ s acc acc' Ha (y & Hy & [= <-])%bind_ok. apply Forall_app. split; [done|]. constructor; [by eapply Hg|done].
Qed.

Lemma parse_list_typed {E T} (parse : str → res E T) (P : T → Prop) l x : parse_list parse l = Ok x → gives parse P → opt (Forall P) x.
Proof. intros H Hg. destruct l; [|by injection H as <-]. apply bind_ok in H as (y & Hy & [= <-]). by eapply parse_all_typed. Qed.

Lemma parse_opt_typed {E T} (parse : str → res E T) (P : T → Prop) o x : parse_opt parse o = Ok x → gives parse P → opt P x.
Proof. intros H Hg. destruct o; [|by injection H as <-]. apply bind_ok in H as (y & Hy & [= <-]). by eapply Hg. Qed.

Lemma parse_range_typed acc range l : Forall (u 64) acc → parse_range acc range = Ok l → Forall (u 64) l.
Proof.
  intros Ha. assert (∀ (a s : str) n, map_err (λ _, a) (parse_uint U64_MAX s) = Ok n → u 64 n) as Hu.
  { intros a s n Hn%map_err_Ok. by apply (parse_uint_gives 64) in Hn. }
  unfold parse_range. destruct (split 45 range) as [|a [|b [|c ?]]]; [done| | |done].
  - intros (n & Hn%Hu & Hl)%bind_ok. case_match; [done|]. injection Hl as <-. apply Forall_app. split; [done|]. by constructor.
  - intros (start & Hn%Hu & Hl)%bind_ok. case_match; [done|]. apply bind_ok in Hl as (stop & Hm%Hu & Hl).
    destruct (Z.leb_spec stop start); [done|]. case_match; [done|]. injection Hl as <-.
    apply Forall_app. split; [done|]. constructor; [done|]. apply Forall_fmap, Forall_forall. intros x Hx%elem_of_seqZ. unfold u in *. simpl. lia.
Qed.

Lemma integer_list_gives : gives integer_list_from_str (Forall (u 64)).
Proof. intros s l. apply (foldM_ok_inv _ (λ _ acc, Forall (u 64) acc)); [done|]. intros _ x b b' Hb Hx. by eapply parse_range_typed. Qed.

Lemma tuple_vec_gives w : 0 ≤ w → gives (tuple_vec w) (Forall (u w)).
Proof.
  intros Hw s x (l & _ & [= <-])%bind_ok. apply Forall_fmap, Forall_forall. intros n _. simpl. apply Z.mod_pos_bound.
  by apply Z.pow_pos_nonneg.
Qed.

Lemma tuple_u64_gives : gives tuple_u64 (u 64).
Proof. intros s n Hn%map_err_Ok. by apply (parse_uint_gives 64) in Hn. Qed.

Lemma tuple_gives {E S T} (f : str → res E S) (g : str → res TupleError T) (P : S → Prop) (Q : T → Prop) :
  gives f P → gives g Q → gives (tuple_from_str f g) (Forall (λ e, P e.1 ∧ Q e.2)).
Proof.
  intros Hf Hg s l. unfold tuple_from_str. destruct (_ ≫= _) as [body|]; [|done]. intros (ts & _ & Hl)%bind_ok. revert Hl.
  apply (foldM_ok_inv _ (λ _ acc, Forall (λ e, P e.1 ∧ Q e.2) acc)); [done|]. intros _ t acc acc' Ha. unfold tuple_item.
  destruct (tuple_loop t t 0 false 0 None) as [[last [first|]]|]; [|done..].
  intros (x & Hx%map_err_Ok & (y & Hy & [= <-])%bind_ok)%bind_ok. apply Forall_app. split; [done|]. constructor; [|done].
  split; [by eapply Hf|by eapply Hg].
Qed.

Lemma cpu_topology_gives :
  gives cpu_topology_from_str
    (λ t, u 16 (Cpus.threads_per_core t) ∧ u 16 (Cpus.cores_per_die t) ∧ u 16 (Cpus.dies_per_package t) ∧ u 16 (Cpus.packages t)).
Proof.
  intros s t. unfold cpu_topology_from_str. destruct (split 58 s) as [|a [|b [|c [|d [|? ?]]]]]; try done.
  intros (? & H1%map_err_Ok & (? & H2%map_err_Ok & (? & H3%map_err_Ok & (? & H4%map_err_Ok & [= <-])%bind_ok)%bind_ok)%bind_ok)%bind_ok.
  simpl. split_and!; by eapply (parse_uint_gives 16).
Qed.

Lemma to_digit_bound r c d : 0 ≤ r → to_digit r c = Some d → 0 ≤ d < r.
Proof. unfold to_digit. intros Hr. repeat (case_match; [|]); intros; simplify_eq; zcases; lia. Qed.

Lemma mac_gives : gives mac_parse_str is_mac.
Proof.
  intros s m. unfold mac_parse_str. destruct (Nat.eqb_spec (length (split COLON s)) MAC_ADDR_LEN) as [Hl|]; [|done]. simpl negb. cbn iota.
  destruct (mapM hex_byte (split COLON s)) as [bytes|] eqn:Hb; [|done]. intros [= <-]. split; [by rewrite <-(length_mapM _ _ _ Hb)|].
  apply mapM_Some in Hb. clear Hl. induction Hb as [|x b xs bs Hx _ IH]; constructor; [|done].
  unfold hex_byte in Hx. destruct x as [|a [|c [|? ?]]]; try done.
  destruct (to_digit 16 a) eqn:Ha, (to_digit 16 c) eqn:Hc; simplify_eq. apply to_digit_bound in Ha, Hc; lia.
Qed.

Lemma read_digits_nonneg r m c acc s n k rest :
  0 ≤ r → 0 ≤ acc → read_digits r m c acc s = Some (n, k, rest) → 0 ≤ n.
Proof.
  intros Hr. revert c acc. induction s as [|x s IH]; intros c acc Ha; simpl; [by intros [= <- _ _]|].
  destruct (to_digit r x) as [d|] eqn:Hd; [|by intros [= <- _ _]]. destruct (m <=? c)%nat; [done|].
  apply IH. apply to_digit_bound in Hd; nia.
Qed.

Lemma read_number_bound r m z max s n rest : 0 ≤ r → read_number r m z max s = Some (n, rest) → 0 ≤ n ≤ max.
Proof.
  intros Hr. unfold read_number. destruct (read_digits r m 0 0 s) as [[[k c] s']|] eqn:Hd; [|done].
  destruct (c =? 0)%nat; [done|]. destruct (_ && _); [done|]. destruct (Z.ltb_spec max k); [done|]. intros [= <- <-].
  apply read_digits_nonneg in Hd; lia.
Qed.

Lemma read_separator_bound (P : Z → Prop) sep i inner s n rest :
  (∀ s n rest, inner s = Some (n, rest) → P n) → read_separator sep i inner s = Some (n, rest) → P n.
Proof. intros Hi. unfold read_separator. repeat case_match; try done; eauto. Qed.

Lemma read_octets_typed n i s l rest : read_octets n i s = Some (l, rest) → length l = n ∧ Forall (u 8) l.
Proof.
  revert i s l. induction n as [|n IH]; intros i s l; simpl; [by intros [= <- _]|].
  destruct (read_separator _ _ _ _) as [[x s1]|] eqn:Hx; [|done]. destruct (read_octets n (S i) s1) as [[l' s2]|] eqn:Hl; [|done].
  intros [= <- <-]. apply IH in Hl as [Hlen Hf]. simpl. split; [lia|]. constructor; [|done].
  eapply (read_separator_bound (u 8)); [|exact Hx]. intros ? ? ? Hn%read_number_bound; unfold u; lia.
Qed.

Lemma read_groups_typed left i s l v4 rest : read_groups left i s = (l, v4, rest) → (length l ≤ left)%nat ∧ Forall (u 16) l.
Proof.
  revert i s l v4 rest. induction left as [|left IH]; intros i s l v4 rest; [simpl; intros [= <- <- <-]; split; [simpl; lia|done]|].
  cbn [read_groups]. set (m := if (0 <? left)%nat then _ else _).
  assert (match read_separator COLON i (read_number 16 4 true 65535) s with
          | Some (g, s') => let '(l, v4, s'') := read_groups left (S i) s' in (g :: l, v4, s'')
          | None => ([], false, s) end = (l, v4, rest) → (length l ≤ S left)%nat ∧ Forall (u 16) l) as Hgroup.
  { destruct (read_separator COLON i (read_number 16 4 true 65535) s) as [[g s1]|] eqn:Hx.
    2: { intros [= <- <- <-]. split; [simpl; lia|done]. }
    destruct (read_groups left (S i) s1) as [[l' v] s2] eqn:Hl. intros [= <- <- <-]. apply IH in Hl as [Hlen Hf]. simpl. split; [lia|].
    constructor; [|done]. eapply (read_separator_bound (u 16)); [|exact Hx]. intros ? ? ? Hn%read_number_bound; unfold u; lia. }
  destruct m as [[[|a [|b [|c [|d [|? ?]]]]] s']|] eqn:Hm; try exact Hgroup. intros [= <- <- <-]. unfold m in Hm.
  destruct left; [done|]. simpl in Hm. split; [simpl; lia|].
  assert (Forall (u 8) [a; b; c; d]) as Ho.
  { unfold read_separator, read_ipv4_addr in Hm. repeat case_match; try done; by apply read_octets_typed in Hm as [_ ?]. }
  rewrite !Forall_cons in Ho. destruct Ho as (? & ? & ? & ? & _). unfold u in *. repeat constructor; lia.
Qed.

Lemma ip_gives : gives ip_from_str ip_typed.
Proof.
  intros s i. unfold ip_from_str. destruct (read_ipv4_addr s) as [[o rest]|] eqn:H4.
  - case_bool_decide; [|done]. intros [= <-]. by apply read_octets_typed in H4.
  - unfold read_ipv6_addr. destruct (read_groups 8 0 s) as [[hd v4] s1] eqn:Hh. apply read_groups_typed in Hh as [Hlen Hf].
    destruct (Nat.eqb_spec (length hd) 8).
    { case_bool_decide; [|done]. by intros [= <-]. }
    destruct v4; [done|]. destruct (read_given_char COLON s1) as [[_ s2]|]; [|done]. destruct (read_given_char COLON s2) as [[_ s3]|]; [|done].
    destruct (read_groups (8 - (length hd + 1)) 0 s3) as [[tl v6] s4] eqn:Ht. apply read_groups_typed in Ht as [Htl Hft].
    case_bool_decide; [|done]. intros [= <-]. simpl. rewrite !length_app, length_replicate. split; [lia|].
    rewrite !Forall_app. split_and!; [done| |done]. apply Forall_replicate. unfold u. lia.
Qed.

(** Takes the steps of a parser that succeeded apart. *)
Ltac invert_parse :=
  repeat match goal with
  | H : mbind _ _ = Ok _ |- _ => apply bind_ok in H as (? & ? & H)
  | H : required _ ?o = Ok _ |- _ => destruct o; [injection H as ->|discriminate H]
  | H : Ok _ = Ok _ |- _ => injection H as <-
  end.

Lemma parse_uint_upto max : 0 ≤ max → gives (parse_uint max) (λ n, 0 ≤ n ≤ max).
Proof. intros Hm s n Hn. by apply parse_uint_bound in Hn. Qed.

Lemma conv_tuple {E} (mk : OptionParserError → E) p max w name o :
  conv mk p (tuple_from_str (of_from_str (parse_uint max)) (tuple_vec w)) name = Ok o → 0 ≤ max → 0 ≤ w →
  opt (Forall (λ e, (0 ≤ e.1 ≤ max) ∧ Forall (u w) e.2)) o.
Proof.
  intros H Hm Hw. eapply conv_typed; [|exact H].
  apply (tuple_gives _ _ (λ n, 0 ≤ n ≤ max) (Forall (u w))); [by apply of_from_str_gives, parse_uint_upto|by apply tuple_vec_gives].
Qed.

Lemma opt_forall_map {A B} (f : A → B) (P : A → Prop) (Q : B → Prop) (o : option (list A)) :
  opt (Forall P) o → (∀ x, P x → Q (f x)) → opt (Forall Q) (map f <$> o).
Proof. intros Ho Hi. apply opt_fmap. eapply opt_impl; [exact Ho|]. intros l Hl. apply Forall_fmap. eapply Forall_impl; [exact Hl|]. auto. Qed.

Lemma u_check w n : (0 <=? n) && (n <? 2 ^ w) = true → u w n.
Proof. rewrite andb_true_iff, Z.leb_le, Z.ltb_lt. done. Qed.

(** The facts that its steps give. *)
Ltac typed_facts :=
  repeat match goal with
  | H : uint_or _ _ _ _ _ = Ok _ |- _ => apply uint_or_typed in H; [|lia|solve [assumption|apply u_check; reflexivity]]
  | H : uint _ _ _ _ = Ok _ |- _ => apply uint_typed in H; [|lia]
  | H : bytes _ _ _ = Ok _ |- _ => apply bytes_typed in H
  | H : conv _ _ integer_list_from_str _ = Ok _ |- _ => apply (conv_typed _ _ _ _ _ _ integer_list_gives) in H
  | H : conv _ _ (of_from_str cpu_topology_from_str) _ = Ok _ |- _ => apply (conv_typed _ _ _ _ _ _ (of_from_str_gives _ _ cpu_topology_gives)) in H
  | H : conv _ _ (of_from_str ip_from_str) _ = Ok _ |- _ => apply (conv_typed _ _ _ _ _ _ (of_from_str_gives _ _ ip_gives)) in H
  | H : conv _ _ (of_from_str mac_parse_str) _ = Ok _ |- _ => apply (conv_typed _ _ _ _ _ _ (of_from_str_gives _ _ mac_gives)) in H
  | H : conv _ _ (tuple_from_str (of_from_str (parse_uint _)) (tuple_vec _)) _ = Ok _ |- _ => apply conv_tuple in H; [|done|done]
  end.

Lemma pci_gives : gives pci_common_parse pci_typed.
Proof. intros s d H. unfold pci_common_parse in H. invert_parse. typed_facts. by split. Qed.

Lemma token_bucket_typed a b c : u 64 a → u 64 b → u 64 c → opt bucket_typed (token_bucket a b c).
Proof. intros. unfold token_bucket. case_match; [|done]. by split_and!. Qed.

Lemma rate_parse_typed {E} (mk : OptionParserError → E) p r : rate_parse mk p = Ok r → rate_typed r.
Proof. intros H. unfold rate_parse in H. invert_parse. typed_facts. split; by apply token_bucket_typed. Qed.

Lemma some_limit_typed r : rate_typed r → opt rate_typed (some_limit r).
Proof. intros Hr. unfold some_limit. by repeat case_match. Qed.

Lemma cpus_gives : gives cpus_parse cpus_typed.
Proof.
  intros s c H. unfold cpus_parse in H. invert_parse. typed_facts.
  split_and!; simpl; try done. eapply opt_forall_map; [done|]. intros e [He ?]. split; [|done]. simpl. unfold u, U32_MAX in *. lia.
Qed.

Lemma pci_segment_gives : gives pci_segment_parse pci_segment_typed.
Proof. intros s c H. unfold pci_segment_parse in H. invert_parse. typed_facts. by split_and!. Qed.

Lemma platform_gives : gives platform_parse platform_typed.
Proof.
  intros s c H. unfold platform_parse in H. invert_parse. typed_facts. split_and!; simpl; try done.
  eapply opt_forall_map; [done|]. intros n _. apply Z.mod_pos_bound. lia.
Qed.

Lemma zone_gives b : gives (memory_zone_parse b) zone_typed.
Proof.
  intros s c H. unfold memory_zone_parse in H. invert_parse. typed_facts. split_and!; simpl; try done. by apply default_typed.
Qed.

Lemma memory_typed_parse s zones m : memory_parse s zones = Ok m → memory_typed m.
Proof.
  intros H. unfold memory_parse in H. invert_parse. typed_facts. split_and!; simpl; try done; [by apply default_typed|].
  eapply parse_list_typed; [done|apply zone_gives].
Qed.

Lemma rate_limiter_group_gives : gives rate_limiter_group_parse (λ g, rate_typed (RateLimit.rate_limiter_config g)).
Proof. intros s c H. unfold rate_limiter_group_parse in H. invert_parse. simpl. by eapply rate_parse_typed. Qed.

Lemma disk_gives : gives disk_parse disk_typed.
Proof.
  intros s c H. unfold disk_parse in H. invert_parse. typed_facts. split_and!; simpl; try done.
  - by eapply pci_gives.
  - by eapply some_limit_typed, rate_parse_typed.
  - eapply opt_forall_map; [done|]. intros e [He ?]. split; [|done]. simpl. unfold u in *. lia.
Qed.

Lemma as_i32_typed n : i32 (as_i32 n).
Proof. unfold as_i32, i32. pose proof (Z.mod_pos_bound n (2 ^ 32) ltac:(lia)). cbv zeta. destruct (Z.ltb_spec (n mod 2 ^ 32) (2 ^ 31)); lia. Qed.

Lemma net_gives random : is_mac random → gives (net_parse random) net_typed.
Proof.
  intros Hr s c H. unfold net_parse in H. invert_parse. typed_facts. split_and!; simpl; try done.
  - by eapply pci_gives.
  - apply default_typed; [done|]. destruct Hr as [Hl Hf]. unfold mac_local_random.
    split; [by rewrite length_insert|]. by apply Forall_insert.
  - eapply opt_forall_map; [done|]. intros n _. apply as_i32_typed.
  - by eapply some_limit_typed, rate_parse_typed.
Qed.

Lemma queue_sizes_typed l l' : Forall (u 64) l → foldM queue_size_u16 [] l = Ok l' → Forall (u 16) l'.
Proof.
  intros Hl. revert l'. induction l as [|n l IH] using rev_ind; intros l'; [by intros [= <-]|].
  apply Forall_app in Hl as [Hl Hn]. rewrite foldM_app. intros (acc & Hacc & Hr)%bind_ok. apply IH in Hacc; [|done].
  simpl in Hr. apply bind_ok in Hr as (x & Hx & [= <-]). unfold queue_size_u16 in Hx. destruct (Z.leb_spec n 65535); [|done].
  injection Hx as <-. apply Forall_app. split; [done|]. apply Forall_cons in Hn as [Hn _]. constructor; [|done]. unfold u in *. lia.
Qed.

Lemma one_of_in {T} (words : list (string * T)) b s x : one_of words b s = Ok x → ∃ w, (w, x) ∈ words.
Proof.
  unfold one_of. destruct (list_find _ words) as [[i [w y]]|] eqn:Hf; [|done]. intros [= <-].
  apply list_find_Some in Hf as (Hi & _). exists w. by eapply list_elem_of_lookup_2.
Qed.

Lemma virtio_id_typed s n : virtio_id s = Ok n → u 32 n.
Proof.
  assert (Forall (λ x : string * Z, u 32 x.2) virtio_ids) as Hall 
    by (unfold virtio_ids; repeat (apply Forall_cons_2; [by apply u_check|]); apply Forall_nil_2).
  unfold virtio_id. destruct (one_of virtio_ids false s) as [m| | |] eqn:Ho.
  - intros [= <-]. apply one_of_in in Ho as [w Hw]. rewrite Forall_forall in Hall. by apply (Hall (w, m)).
  - destruct s; [done|]. case_match; [|done]. intros Hn%map_err_Ok. by apply (parse_uint_gives 32) in Hn.
  - destruct s; [done|]. case_match; [|done]. intros Hn%map_err_Ok. by apply (parse_uint_gives 32) in Hn.
  - destruct s; [done|]. case_match; [|done]. intros Hn%map_err_Ok. by apply (parse_uint_gives 32) in Hn.
Qed.

Lemma generic_gives : gives generic_vhost_user_parse generic_typed.
Proof.
  intros s c H. unfold generic_vhost_user_parse in H. invert_parse. typed_facts. split_and!; simpl.
  - by eapply pci_gives.
  - by eapply queue_sizes_typed.
  - by eapply virtio_id_typed.
Qed.

Lemma fs_gives : gives fs_parse fs_typed.
Proof. intros s c H. unfold fs_parse in H. invert_parse. typed_facts. split_and!; simpl; try done. by eapply pci_gives. Qed.

Lemma pmem_gives : gives pmem_parse pmem_typed.
Proof. intros s c H. unfold pmem_parse in H. invert_parse. typed_facts. split_and!; simpl; try done. by eapply pci_gives. Qed.

Lemma balloon_gives : gives balloon_parse (λ b, u 64 (Balloon.size b)).
Proof. intros s c H. unfold balloon_parse in H. invert_parse. typed_facts. simpl. by apply default_typed. Qed.

Lemma parse_hex_typed s n : parse_hex s = Some n → u 16 n.
Proof.
  assert (∀ t acc, 0 ≤ acc ≤ 65535 → parse_hex_digits acc t = Some n → u 16 n) as Hd.
  { intros t. induction t as [|c t IH]; intros acc Ha; simpl; [intros [= <-]; unfold u; lia|].
    destruct (to_digit 16 c) as [d|] eqn:Hc; [|done]. apply to_digit_bound in Hc; [|lia].
    destruct (Z.ltb_spec 65535 (acc * 16 + d)); [done|]. apply IH. lia. }
  unfold parse_hex. destruct s as [|c s]; [done|]. repeat case_match; try done; apply Hd; lia.
Qed.

Lemma debug_console_gives : gives debug_console_parse (λ c, opt (u 16) (Console.iobase c)).
Proof.
  intros s c H. unfold debug_console_parse in H. invert_parse. destruct x0 as [mode file]. invert_parse. simpl.
  repeat case_match; simplify_eq; try done; by eapply parse_hex_typed.
Qed.

Lemma device_gives : gives device_parse device_typed.
Proof. intros s c H. unfold device_parse in H. invert_parse. typed_facts. split_and!; simpl; try done. by eapply pci_gives. Qed.

Lemma user_device_gives : gives user_device_parse (λ d, pci_typed (Device.upci_common d)).
Proof. intros s c H. unfold user_device_parse in H. invert_parse. simpl. by eapply pci_gives. Qed.

Lemma vdpa_gives : gives vdpa_parse vdpa_typed.
Proof. intros s c H. unfold vdpa_parse in H. invert_parse. typed_facts. split_and!; simpl; try done. by eapply pci_gives. Qed.

Lemma vsock_gives : gives vsock_parse vsock_typed.
Proof. intros s c H. unfold vsock_parse in H. invert_parse. typed_facts. split_and!; simpl; try done. by eapply pci_gives. Qed.

Lemma numa_gives : gives numa_parse numa_typed.
Proof.
  intros s c H. unfold numa_parse in H. invert_parse. typed_facts. case_match; [done|]. injection H as <-. split_and!; simpl; try done.
  - eapply opt_forall_map; [done|]. intros n _. apply Z.mod_pos_bound. lia.
  - eapply opt_forall_map; [done|]. intros n _. apply Z.mod_pos_bound. lia.
  - apply (opt_forall_map _ (λ _, True)); [|intros e _; simpl; split; apply Z.mod_pos_bound; lia].
    match goal with |- opt _ ?o => destruct o; simpl; [|done] end. by apply Forall_true.
Qed.

(** Every number of a parsed configuration is in the machine type of its field: counts,
    sizes, identifiers and weights in their unsigned types, file descriptors in [i32], MAC
    addresses of six bytes, IP addresses of four bytes or eight groups. *)
Lemma config_typed random v c : is_mac random → vm_assemble random v = Ok c → vm_typed c.
Proof.
  intros Hr H. unfold vm_assemble in H. invert_parse. split_and!; simpl.
  - by eapply cpus_gives.
  - by eapply memory_typed_parse.
  - eapply parse_list_typed; [done|apply rate_limiter_group_gives].
  - eapply parse_list_typed; [done|apply disk_gives].
  - eapply parse_list_typed; [done|by apply net_gives].
  - eapply parse_opt_typed; [done|apply balloon_gives].
  - eapply parse_list_typed; [done|apply generic_gives].
  - eapply parse_list_typed; [done|apply fs_gives].
  - eapply parse_list_typed; [done|apply pmem_gives].
  - by eapply debug_console_gives.
  - eapply parse_list_typed; [done|apply device_gives].
  - eapply parse_list_typed; [done|apply user_device_gives].
  - eapply parse_list_typed; [done|apply vdpa_gives].
  - eapply parse_opt_typed; [done|apply vsock_gives].
  - eapply parse_list_typed; [done|apply numa_gives].
  - eapply parse_list_typed; [done|apply pci_segment_gives].
  - eapply parse_opt_typed; [done|apply platform_gives].
Qed.

(** The strings of a small VM: a kernel, a disk on a rate limit group, a network device. *)
Definition small_vm : Vm.VmParams := {|
  Vm.p_cpus := lit "boot=2,topology=1:2:1:1"; Vm.p_memory := lit "size=1G,shared=on"; Vm.p_memory_zones := None;
  Vm.p_firmware := None; Vm.p_kernel := Some (lit "vmlinux"); Vm.p_initramfs := None; Vm.p_cmdline := Some (lit "console=hvc0");
  Vm.p_rate_limit_groups := Some [lit "id=group,bw_size=1048576,bw_refill_time=1000"];
  Vm.p_disks := Some [lit "path=/disk.raw,id=disk0,rate_limit_group=group,queue_affinity=[0@[0-1]]"];
  Vm.p_net := Some [lit "id=net0,ip=192.168.4.1,mask=255.255.255.0,fd=[3],mac=12:34:56:78:90:ab"];
  Vm.p_rng := lit "src=/dev/urandom"; Vm.p_balloon := None; Vm.p_fs := None; Vm.p_generic_vhost_user := None; Vm.p_pmem := None;
  Vm.p_serial := lit "null"; Vm.p_console := lit "tty"; Vm.p_debug_console := lit "off,iobase=0xe9"; Vm.p_devices := None;
  Vm.p_user_devices := None; Vm.p_vdpa := None; Vm.p_vsock := Some (lit "cid=3,socket=/sock,iommu=on"); Vm.p_pvpanic := false;
  Vm.p_numa := None; Vm.p_watchdog := false; Vm.p_pci_segments := None; Vm.p_platform := Some (lit "num_pci_segments=2");
  Vm.p_tpm := None; Vm.p_landlock_enable := false; Vm.p_landlock_rules := None |}.

End VmConfigParse.
