(* ===== verification/VmConfigCheck.v ===== *)
(** * Checking the configuration of a VM

    Model of the [validate] methods of [vmm/src/config.rs], of [PayloadConfig::validate]
    ([vmm/src/vm_config.rs]), of [VmConfig::parse] as a whole, [VmConfig::remove_device]
    and [add_preserved_fds].  Whether a path exists is an argument.  The theorems say
    what an accepted configuration satisfies, when checking one does not panic and when it
    does, what is accepted for a restore, and what removing a device does. *)

From Stdlib Require Import Btauto.
From S2P Require Import Prelude RustStr OptionParser NetAddr Allocators VmConfig VmConfigParse.

Module VmConfigCheck.

Notation VE := ValidationError.

Definition check (b : bool) (e : VE) : res VE unit := if b then Err e else Ok tt.
Definition some {T} (o : option T) : bool := match o with Some _ => true | None => false end.

(** ** Parts of the configuration *)

Definition NUM_DEVICE_IDS : Z := 32.
Definition PCI_ROOT_DEVICE_ID : Z := 0.
Definition MAX_NUM_PCI_SEGMENTS : Z := 96.
Definition MINIMUM_BLOCK_QUEUE_SIZE : Z := 2.
Definition VIRTIO_BLK_ID_BYTES : Z := 20.
Definition MIN_MTU : Z := 1280.
Definition MAX_SUPPORTED_CPUS : Z := 8192.

Definition validate_pci_device_id (device_id : Z) : res VE unit :=
  if NUM_DEVICE_IDS <=? device_id then Err (InvalidPciDeviceId device_id)
  else if device_id =? PCI_ROOT_DEVICE_ID then Err (ReservedPciDeviceId device_id)
  else Ok tt.

Definition num_pci_segments (vm : Vm.VmConfig) : Z :=
  match Vm.platform vm with Some p => Platform.num_pci_segments p | None => 1 end.

Definition pci_segment_validate (s : PciSegment.PciSegmentConfig) (vm : Vm.VmConfig) : res VE unit :=
  _ ← check (num_pci_segments vm <=? PciSegment.pci_segment s) (InvalidPciSegment (PciSegment.pci_segment s));
  _ ← check (PciSegment.mmio32_aperture_weight s =? 0) (InvalidPciSegmentApertureWeight (PciSegment.mmio32_aperture_weight s));
  check (PciSegment.mmio64_aperture_weight s =? 0) (InvalidPciSegmentApertureWeight (PciSegment.mmio64_aperture_weight s)).

Definition platform_validate (p : Platform.PlatformConfig) : res VE unit :=
  let n := Platform.num_pci_segments p in
  _ ← check ((n =? 0) || (MAX_NUM_PCI_SEGMENTS <? n)) (InvalidNumPciSegments n);
  _ ← foldM (λ _ segment, check (n <=? segment) (InvalidPciSegment segment)) tt (default [] (Platform.iommu_segments p));
  check (MAX_IOMMU_ADDRESS_WIDTH_BITS <? Platform.iommu_address_width_bits p)
    (InvalidIommuAddressWidthBits (Platform.iommu_address_width_bits p)).

Definition rate_limiter_group_validate (g : RateLimit.RateLimiterGroupConfig) : res VE unit :=
  _ ← check (negb (some (RateLimit.bandwidth (RateLimit.rate_limiter_config g)))
             && negb (some (RateLimit.ops (RateLimit.rate_limiter_config g)))) InvalidRateLimiterGroup;
  check (bool_decide (RateLimit.id g = [])) InvalidRateLimiterGroup.

Definition pci_common_validate (d : Pci.PciDeviceCommonConfig) (vm : Vm.VmConfig) : res VE unit :=
  _ ← match Vm.platform vm with
      | Some p =>
          _ ← check (Platform.num_pci_segments p <=? Pci.pci_segment d) (InvalidPciSegment (Pci.pci_segment d));
          check (bool_decide (Pci.pci_segment d ∈ default [] (Platform.iommu_segments p)) && negb (Pci.iommu d))
            (OnIommuSegment (Pci.pci_segment d))
      | None => Ok tt
      end;
  match Pci.pci_device_id d with Some id => validate_pci_device_id id | None => Ok tt end.

Definition disk_validate (d : Disk.DiskConfig) (vm : Vm.VmConfig) : res VE unit :=
  let vcpus := Cpus.boot_vcpus (Vm.cpus vm) in
  _ ← pci_common_validate (Disk.pci_common d) vm;
  _ ← check (vcpus <? Disk.num_queues d) (TooManyQueues (Disk.num_queues d) vcpus);
  _ ← check (Disk.queue_size d <=? MINIMUM_BLOCK_QUEUE_SIZE) (InvalidQueueSize (Disk.queue_size d));
  _ ← check (Disk.vhost_user d && Pci.iommu (Disk.pci_common d)) IommuNotSupported;
  _ ← check (some (Disk.rate_limiter_config d) && some (Disk.rate_limit_group d)) InvalidRateLimiterGroup;
  match Disk.serial d with
  | Some serial => check (VIRTIO_BLK_ID_BYTES <? utf8_len serial) (InvalidSerialLength (utf8_len serial) VIRTIO_BLK_ID_BYTES)
  | None => Ok tt
  end.

Definition net_validate (n : Net.NetConfig) (vm : Vm.VmConfig) : res VE unit :=
  let vcpus := Cpus.boot_vcpus (Vm.cpus vm) in
  _ ← pci_common_validate (Net.pci_common n) vm;
  _ ← check (Net.num_queues n <? 2) (VnetQueueLowerThan2 (Net.num_queues n));
  _ ← match Net.fds n with
      | Some fds =>
          actual_queues ← umul (zlen fds) 2;
          _ ← check (negb (actual_queues =? Net.num_queues n)) (VnetQueueFdMismatch (Net.num_queues n) actual_queues);
          foldM (λ _ fd, check (fd <=? 2) (VnetReservedFd fd)) tt fds
      | None => Ok tt
      end;
  _ ← check (vcpus <? Net.num_queues n / 2) (TooManyQueues (Net.num_queues n) vcpus);
  _ ← check (Net.vhost_user n && Pci.iommu (Net.pci_common n)) IommuNotSupported;
  _ ← match Net.mtu n with Some mtu => check (mtu <? MIN_MTU) (InvalidMtu mtu) | None => Ok tt end;
  _ ← check (negb (Net.offload_csum n) && (Net.offload_tso n || Net.offload_ufo n)) NoHardwareChecksumOffload;
  _ ← check (some (Net.mask n) && negb (some (Net.ip n))) MaskProvidedWithoutIp;
  check (some (Net.ip n) && negb (some (Net.mask n))) IpProvidedWithoutMask.

Definition generic_vhost_user_validate (g : GenericVhostUser.GenericVhostUserConfig) (vm : Vm.VmConfig) : res VE unit :=
  _ ← check (Pci.iommu (GenericVhostUser.pci_common g)) IommuNotSupported;
  pci_common_validate (GenericVhostUser.pci_common g) vm.

Definition fs_validate (f : Fs.FsConfig) (vm : Vm.VmConfig) : res VE unit :=
  let vcpus := Cpus.boot_vcpus (Vm.cpus vm) in
  _ ← check (vcpus <? Fs.num_queues f) (TooManyQueues (Fs.num_queues f) vcpus);
  _ ← check (Pci.iommu (Fs.pci_common f)) IommuNotSupported;
  pci_common_validate (Fs.pci_common f) vm.

Definition pmem_validate (d : Pmem.PmemConfig) (vm : Vm.VmConfig) : res VE unit := pci_common_validate (Pmem.pci_common d) vm.

Definition device_validate (d : Device.DeviceConfig) (vm : Vm.VmConfig) : res VE unit :=
  _ ← pci_common_validate (Device.pci_common d) vm;
  check (some (Device.x_nv_gpudirect_clique d) && negb (match Vm.platform vm with Some p => Platform.vfio_p2p_dma p | None => true end))
    GpuDirectCliqueRequiresP2pDma.

Definition user_device_validate (d : Device.UserDeviceConfig) (vm : Vm.VmConfig) : res VE unit :=
  _ ← check (Pci.iommu (Device.upci_common d)) IommuNotSupported;
  pci_common_validate (Device.upci_common d) vm.

Definition vdpa_validate (d : Device.VdpaConfig) (vm : Vm.VmConfig) : res VE unit := pci_common_validate (Device.vpci_common d) vm.
Definition vsock_validate (d : Device.VsockConfig) (vm : Vm.VmConfig) : res VE unit := pci_common_validate (Device.spci_common d) vm.

Definition numa_validate (n : Numa.NumaConfig) : res VE unit :=
  match Numa.device_id n, Numa.cpus n, Numa.memory_zones n with
  | Some device_id, None, None =>
      check (bool_decide (device_id = [])) (InvalidNumaConfig (lit "device_id in numa config cannot be empty"))
  | None, Some cpus, _ => check (bool_decide (cpus = [])) (InvalidNumaConfig (lit "cpus list in numa config cannot be empty"))
  | None, _, Some memory_zones =>
      check (bool_decide (memory_zones = [])) (InvalidNumaConfig (lit "memory_zones in numa config cannot be empty"))
  | _, _, _ =>
      if some (Numa.device_id n) && (some (Numa.cpus n) || some (Numa.memory_zones n))
      then Err (InvalidNumaConfig (lit "device_id in numa config is mutually exclusive with cpus and memory_zones"))
      else Err (InvalidNumaConfig (lit "numa config must specify either device_id or cpus/memory_zones"))
  end.

Definition payload_validate (p : Payload.PayloadConfig) : res PayloadConfigError Payload.PayloadConfig :=
  match Payload.firmware p, Payload.kernel p with
  | Some _, Some _ => Err FirmwarePlusOtherPayloads
  | Some _, None =>
      Ok {| Payload.firmware := Payload.firmware p; Payload.kernel := Payload.kernel p; Payload.cmdline := None; Payload.initramfs := None |}
  | None, Some _ => Ok p
  | None, None => Err MissingBootitem
  end.

(** [LandlockAccess::try_from], the access itself apart. *)
Definition landlock_access (s : str) : option str :=
  if bool_decide (s = []) then Some (lit "Access cannot be empty")
  else match list_find (λ c, c ≠ 114 ∧ c ≠ 119) s with Some (_, c) => Some (lit "Invalid access: " ++ [c]) | None => None end.

Definition landlock_validate (exists_ : str → bool) (l : LandlockRule.LandlockConfig) : res VE unit :=
  _ ← check (negb (exists_ (LandlockRule.path l))) (LandlockPathDoesNotExist (LandlockRule.path l));
  match landlock_access (LandlockRule.access l) with
  | Some msg => Err (InvalidLandlockAccess (lit "Invalid Landlock access: " ++ msg))
  | None => Ok tt
  end.

(** ** Restoring *)

Definition restore_insert (m : gmap str Restore.RestoredNetConfig) (n : Restore.RestoredNetConfig) :
  res VE (gmap str Restore.RestoredNetConfig) :=
  _ ← assert (Restore.num_fds n =? match Restore.fds n with Some f => zlen f | None => 0 end);
  if some (m !! Restore.id n) then Err (IdentifierNotUnique (Restore.id n)) else Ok (<[Restore.id n := n]> m).

Definition restore_match (m : gmap str Restore.RestoredNetConfig) (n : Net.NetConfig) : res VE (gmap str Restore.RestoredNetConfig) :=
  match Net.fds n with
  | None => Ok m
  | Some expected_fds =>
      expected_id ← unwrap (Pci.id (Net.pci_common n));
      match m !! expected_id with
      | Some r =>
          _ ← check (negb (Restore.num_fds r =? zlen expected_fds))
                (RestoreNetFdCountMismatch expected_id (Restore.num_fds r) (zlen expected_fds));
          Ok (delete expected_id m)
      | None => Err (RestoreMissingRequiredNetId expected_id)
      end
  end.

Definition restore_validate (r : Restore.RestoreConfig) (vm : Vm.VmConfig) : res VE unit :=
  _ ← check (bool_decide (Restore.memory_restore_mode r = OnDemand) && Restore.prefault r) InvalidRestorePrefaultWithOnDemand;
  _ ← check (some (Restore.template_socket r) && bool_decide (Restore.memory_restore_mode r ≠ OnDemand))
        InvalidRestoreTemplateSocketWithoutOnDemand;
  restored_net_with_fds ← foldM restore_insert ∅ (default [] (Restore.net_fds r));
  _ ← foldM restore_match restored_net_with_fds (default [] (Vm.net vm));
  Ok tt.

(** ** The whole configuration *)

Notation VM := (M Vm.VmConfig VE).

(** A loop that carries a value. *)
Fixpoint accum {A B} (f : B → A → VM B) (b : B) (l : list A) : VM B :=
  match l with
  | [] => mret b
  | x :: l' => b' ← f b x; accum f b' l'
  end.

Definition validate_identifier (id_list : gset str) (id : option str) : res VE (gset str) :=
  match id with
  | None => Ok id_list
  | Some id =>
      if bool_decide (take 2 id = lit "__") then Err (InvalidIdentifier id)
      else if bool_decide (id ∈ id_list) then Err (IdentifierNotUnique id)
      else Ok ({[id]} ∪ id_list)
  end.

(** Without memory zones it panics when the size is zero. *)
Definition backed_by_shared_memory (vm : Vm.VmConfig) : res VE bool :=
  let m := Vm.memory vm in
  if Memory.shared m || Memory.hugepages m then Ok true
  else if Memory.size m =? 0 then
    zones ← unwrap (Memory.zones m);
    Ok (forallb (λ z, MemoryZone.shared z || MemoryZone.hugepages z) zones)
  else Ok false.

Definition with_iommu (b : bool) (vm : Vm.VmConfig) : Vm.VmConfig :=
  {| Vm.cpus := Vm.cpus vm; Vm.memory := Vm.memory vm; Vm.payload := Vm.payload vm; Vm.rate_limit_groups := Vm.rate_limit_groups vm;
     Vm.disks := Vm.disks vm; Vm.net := Vm.net vm; Vm.rng := Vm.rng vm; Vm.balloon := Vm.balloon vm;
     Vm.generic_vhost_user := Vm.generic_vhost_user vm; Vm.fs := Vm.fs vm; Vm.pmem := Vm.pmem vm; Vm.serial := Vm.serial vm;
     Vm.console := Vm.console vm; Vm.debug_console := Vm.debug_console vm; Vm.devices := Vm.devices vm;
     Vm.user_devices := Vm.user_devices vm; Vm.vdpa := Vm.vdpa vm; Vm.vsock := Vm.vsock vm; Vm.pvpanic := Vm.pvpanic vm;
     Vm.iommu := Vm.iommu vm || b; Vm.numa := Vm.numa vm; Vm.watchdog := Vm.watchdog vm; Vm.pci_segments := Vm.pci_segments vm;
     Vm.platform := Vm.platform vm; Vm.tpm := Vm.tpm vm; Vm.preserved_fds := Vm.preserved_fds vm;
     Vm.landlock_enable := Vm.landlock_enable vm; Vm.landlock_rules := Vm.landlock_rules vm |}.
Definition with_payload (p : Payload.PayloadConfig) (vm : Vm.VmConfig) : Vm.VmConfig :=
  {| Vm.cpus := Vm.cpus vm; Vm.memory := Vm.memory vm; Vm.payload := Some p; Vm.rate_limit_groups := Vm.rate_limit_groups vm;
     Vm.disks := Vm.disks vm; Vm.net := Vm.net vm; Vm.rng := Vm.rng vm; Vm.balloon := Vm.balloon vm;
     Vm.generic_vhost_user := Vm.generic_vhost_user vm; Vm.fs := Vm.fs vm; Vm.pmem := Vm.pmem vm; Vm.serial := Vm.serial vm;
     Vm.console := Vm.console vm; Vm.debug_console := Vm.debug_console vm; Vm.devices := Vm.devices vm;
     Vm.user_devices := Vm.user_devices vm; Vm.vdpa := Vm.vdpa vm; Vm.vsock := Vm.vsock vm; Vm.pvpanic := Vm.pvpanic vm;
     Vm.iommu := Vm.iommu vm; Vm.numa := Vm.numa vm; Vm.watchdog := Vm.watchdog vm; Vm.pci_segments := Vm.pci_segments vm;
     Vm.platform := Vm.platform vm; Vm.tpm := Vm.tpm vm; Vm.preserved_fds := Vm.preserved_fds vm;
     Vm.landlock_enable := Vm.landlock_enable vm; Vm.landlock_rules := Vm.landlock_rules vm |}.

(** A check of the configuration as it is then. *)
Definition verify {A} (f : Vm.VmConfig → res VE A) : VM A := λ vm, (f vm, vm).
Definition or_iommu (b : bool) : VM unit := modify (with_iommu b).

(** The end of each loop over devices: the device itself, the IOMMU, the identifier. *)
Definition finish (valid : Vm.VmConfig → res VE unit) (iommu : bool) (id : option str) (ids : gset str) : VM (gset str) :=
  _ ← verify valid;
  _ ← (if iommu then or_iommu true else mret tt);
  lift (validate_identifier ids id).

Definition group_step (ids : gset str) (g : RateLimit.RateLimiterGroupConfig) : VM (gset str) :=
  finish (λ _, rate_limiter_group_validate g) false (Some (RateLimit.id g)) ids.

Definition disk_step (ids : gset str) (d : Disk.DiskConfig) : VM (gset str) :=
  _ ← verify (λ _, check (some (Disk.vhost_socket d) && some (Disk.path d)) DiskSocketAndPath);
  _ ← verify (λ vm, if Disk.vhost_user d
                    then b ← backed_by_shared_memory vm; check (negb b) VhostUserRequiresSharedMemory else Ok tt);
  _ ← verify (λ _, check (Disk.vhost_user d && negb (some (Disk.vhost_socket d))) VhostUserMissingSocket);
  _ ← verify (λ vm, match Disk.rate_limit_group d with
                    | Some g => check (negb (existsb (λ cfg, bool_decide (RateLimit.id cfg = g)) (default [] (Vm.rate_limit_groups vm))))
                                  InvalidRateLimiterGroup
                    | None => Ok tt
                    end);
  finish (disk_validate d) (Pci.iommu (Disk.pci_common d)) (Pci.id (Disk.pci_common d)) ids.

Definition net_step (ids : gset str) (n : Net.NetConfig) : VM (gset str) :=
  _ ← verify (λ vm, if Net.vhost_user n
                    then b ← backed_by_shared_memory vm; check (negb b) VhostUserRequiresSharedMemory else Ok tt);
  finish (net_validate n) (Pci.iommu (Net.pci_common n)) (Pci.id (Net.pci_common n)) ids.

(** Devices of which any needs shared memory. *)
Definition needs_shared {A} (l : list A) (e : VE) : VM unit :=
  verify (λ vm, if bool_decide (l = []) then Ok tt else b ← backed_by_shared_memory vm; check (negb b) e).

Definition fs_step (ids : gset str) (f : Fs.FsConfig) : VM (gset str) :=
  finish (fs_validate f) false (Pci.id (Fs.pci_common f)) ids.
Definition generic_step (ids : gset str) (g : GenericVhostUser.GenericVhostUserConfig) : VM (gset str) :=
  finish (generic_vhost_user_validate g) false (Pci.id (GenericVhostUser.pci_common g)) ids.
Definition pmem_step (ids : gset str) (d : Pmem.PmemConfig) : VM (gset str) :=
  finish (pmem_validate d) (Pci.iommu (Pmem.pci_common d)) (Pci.id (Pmem.pci_common d)) ids.
Definition user_device_step (ids : gset str) (d : Device.UserDeviceConfig) : VM (gset str) :=
  finish (user_device_validate d) false (Pci.id (Device.upci_common d)) ids.
Definition vdpa_step (ids : gset str) (d : Device.VdpaConfig) : VM (gset str) :=
  finish (vdpa_validate d) (Pci.iommu (Device.vpci_common d)) (Pci.id (Device.vpci_common d)) ids.
Definition device_step (st : gset str * gset str) (d : Device.DeviceConfig) : VM (gset str * gset str) :=
  let '(paths, ids) := st in
  _ ← verify (λ _, check (bool_decide (Device.path d ∈ paths)) (DuplicateDevicePath (Device.path d)));
  ids' ← finish (device_validate d) (Pci.iommu (Device.pci_common d)) (Pci.id (Device.pci_common d)) ids;
  mret ({[Device.path d]} ∪ paths, ids').

Definition umul32 {E} (x y : Z) : res E Z := if x * y <=? U32_MAX then Ok (x * y) else Panic.

Definition topology_check (vm : Vm.VmConfig) : res VE unit :=
  match Cpus.topology (Vm.cpus vm) with
  | None => Ok tt
  | Some t =>
      _ ← check ((Cpus.threads_per_core t =? 0) || (Cpus.cores_per_die t =? 0) || (Cpus.dies_per_package t =? 0) || (Cpus.packages t =? 0))
            CpuTopologyZeroPart;
      _ ← check (2 <? Cpus.threads_per_core t) CpuTopologyThreadsPerCore;
      a ← umul32 (Cpus.threads_per_core t) (Cpus.cores_per_die t);
      b ← umul32 a (Cpus.dies_per_package t);
      total ← umul32 b (Cpus.packages t);
      check (negb (total =? Cpus.max_vcpus (Vm.cpus vm))) CpuTopologyCount
  end.

Definition hugepage_check (vm : Vm.VmConfig) : res VE unit :=
  match Memory.hugepage_size (Vm.memory vm) with
  | None => Ok tt
  | Some n =>
      _ ← check (negb (Memory.hugepages (Vm.memory vm))) HugePageSizeWithoutHugePages;
      check (negb (Allocators.is_power_of_two n)) (InvalidHugePageSize n)
  end.

Definition vsock_cid_check (vm : Vm.VmConfig) : res VE unit :=
  match Vm.vsock vm with
  | Some v => check (bool_decide (Device.cid v ∈ [U32_MAX; 0; 1; 2])) (VsockSpecialCid (Device.cid v))
  | None => Ok tt
  end.

Definition balloon_check (vm : Vm.VmConfig) : res VE unit :=
  match Vm.balloon vm with
  | None => Ok tt
  | Some b =>
      ram_size ← foldM (λ n z, uadd n (MemoryZone.size z)) (Memory.size (Vm.memory vm)) (default [] (Memory.zones (Vm.memory vm)));
      check (ram_size <=? Balloon.size b) (BalloonLargerThanRam (Balloon.size b) ram_size)
  end.

(** The memory zones and PCI segments that NUMA nodes use, with their node. *)
Definition numa_zone (node : Z) (used : gmap str Z) (zone : str) : res VE (gmap str Z) :=
  match used !! zone with
  | Some n => Err (MemoryZoneReused zone n node)
  | None => Ok (<[zone := node]> used)
  end.
Definition numa_segment (segments node : Z) (used : gmap Z Z) (segment : Z) : res VE (gmap Z Z) :=
  _ ← check (segments <=? segment) (InvalidPciSegment segment);
  _ ← check ((segment =? 0) && negb (node =? 0)) (DefaultPciSegmentInvalidNode node);
  match used !! segment with
  | Some n => Err (PciSegmentReused segment n node)
  | None => Ok (<[segment := node]> used)
  end.
Definition numa_step (segments : Z) (used : gmap str Z * gmap Z Z) (n : Numa.NumaConfig) : res VE (gmap str Z * gmap Z Z) :=
  _ ← numa_validate n;
  zones ← foldM (numa_zone (Numa.guest_numa_id n)) used.1 (default [] (Numa.memory_zones n));
  segs ← foldM (numa_segment segments (Numa.guest_numa_id n)) used.2 (default [] (Numa.pci_segments n));
  Ok (zones, segs).
Definition numa_check (vm : Vm.VmConfig) : res VE unit :=
  _ ← foldM (numa_step (num_pci_segments vm)) (∅, ∅) (default [] (Vm.numa vm)); Ok tt.

(** The payload, and the checks before the devices. *)
Definition payload_step : VM unit :=
  vm ← get;
  match Vm.payload vm with
  | None => fail (PayloadError MissingBootitem)
  | Some p => p' ← lift (map_err PayloadError (payload_validate p)); modify (with_payload p')
  end.
Definition first_checks (vm : Vm.VmConfig) : res VE unit :=
  let c := Vm.cpus vm in
  _ ← check (bool_decide (Console.mode (Vm.console vm) = CFile) && negb (some (Console.file (Vm.console vm)))) ConsoleFileMissing;
  _ ← check (bool_decide (Console.mode (Vm.serial vm) = CFile) && negb (some (Console.file (Vm.serial vm)))) ConsoleFileMissing;
  _ ← check (Cpus.max_vcpus c <? Cpus.boot_vcpus c) (CpusMaxLowerThanBoot (Cpus.max_vcpus c) (Cpus.boot_vcpus c));
  check (MAX_SUPPORTED_CPUS <? Cpus.max_vcpus c) (TooManyCpus (Cpus.max_vcpus c)).

Definition vm_validate (exists_ : str → bool) : VM (gset str) :=
  _ ← payload_step;
  _ ← verify first_checks;
  vm ← get;
  ids ← accum group_step ∅ (default [] (Vm.rate_limit_groups vm));
  ids ← accum disk_step ids (default [] (Vm.disks vm));
  ids ← accum net_step ids (default [] (Vm.net vm));
  _ ← needs_shared (default [] (Vm.fs vm)) VhostUserRequiresSharedMemory;
  ids ← accum fs_step ids (default [] (Vm.fs vm));
  _ ← needs_shared (default [] (Vm.generic_vhost_user vm)) VhostUserRequiresSharedMemory;
  ids ← accum generic_step ids (default [] (Vm.generic_vhost_user vm));
  ids ← accum pmem_step ids (default [] (Vm.pmem vm));
  _ ← or_iommu (Rng.iommu (Vm.rng vm));
  _ ← or_iommu (Console.iommu (Vm.console vm));
  _ ← verify topology_check;
  _ ← verify hugepage_check;
  _ ← needs_shared (default [] (Vm.user_devices vm)) UserDevicesRequireSharedMemory;
  ids ← accum user_device_step ids (default [] (Vm.user_devices vm));
  ids ← accum vdpa_step ids (default [] (Vm.vdpa vm));
  _ ← verify vsock_cid_check;
  _ ← verify balloon_check;
  st ← accum device_step (∅, ids) (default [] (Vm.devices vm));
  ids ← match Vm.vsock vm with
        | Some v => finish (vsock_validate v) (Pci.iommu (Device.spci_common v)) (Pci.id (Device.spci_common v)) st.2
        | None => mret st.2
        end;
  _ ← verify numa_check;
  ids ← lift (foldM (λ ids z, validate_identifier ids (Some (MemoryZone.id z))) ids (default [] (Memory.zones (Vm.memory vm))));
  _ ← verify (λ vm, foldM (λ _ s, pci_segment_validate s vm) tt (default [] (Vm.pci_segments vm)));
  _ ← verify (λ vm, match Vm.platform vm with Some p => platform_validate p | None => Ok tt end);
  _ ← or_iommu (match Vm.platform vm with Some p => some (Platform.iommu_segments p) | None => false end);
  _ ← verify (λ vm, foldM (λ _ l, landlock_validate exists_ l) tt (default [] (Vm.landlock_rules vm)));
  mret ids.

(** [VmConfig::parse] *)
Definition vm_config_parse (random : list Z) (exists_ : str → bool) (v : Vm.VmParams) : res Error Vm.VmConfig :=
  vm ← vm_assemble random v;
  match vm_validate exists_ vm with
  | (Ok _, vm') => Ok vm'
  | (Err e, _) => Err (Validation e)
  | (Panic, _) => Panic
  | (Hang, _) => Hang
  end.

(** ** Changes at run time *)

(** [retain] on one list of devices, with whether it removed any. *)
Definition retain {T} (id_of : T → option str) (id : str) (l : option (list T)) : option (list T) * bool :=
  match l with
  | None => (None, false)
  | Some l => let l' := filter (λ d, id_of d ≠ Some id) l in (Some l', negb (length l' =? length l)%nat)
  end.

Definition remove_device (id : str) (vm : Vm.VmConfig) : bool * Vm.VmConfig :=
  let devices := retain (λ d, Pci.id (Device.pci_common d)) id (Vm.devices vm) in
  let user_devices := retain (λ d, Pci.id (Device.upci_common d)) id (Vm.user_devices vm) in
  let disks := retain (λ d, Pci.id (Disk.pci_common d)) id (Vm.disks vm) in
  let fs := retain (λ d, Pci.id (Fs.pci_common d)) id (Vm.fs vm) in
  let generic_vhost_user := retain (λ d, Pci.id (GenericVhostUser.pci_common d)) id (Vm.generic_vhost_user vm) in
  let net := retain (λ d, Pci.id (Net.pci_common d)) id (Vm.net vm) in
  let pmem := retain (λ d, Pci.id (Pmem.pci_common d)) id (Vm.pmem vm) in
  let vdpa := retain (λ d, Pci.id (Device.vpci_common d)) id (Vm.vdpa vm) in
  let vsock := match Vm.vsock vm with
               | Some v => if bool_decide (Pci.id (Device.spci_common v) = Some id) then (None, true) else (Some v, false)
               | None => (None, false)
               end in
  (devices.2 || user_devices.2 || disks.2 || fs.2 || generic_vhost_user.2 || net.2 || pmem.2 || vdpa.2 || vsock.2,
   {| Vm.cpus := Vm.cpus vm; Vm.memory := Vm.memory vm; Vm.payload := Vm.payload vm; Vm.rate_limit_groups := Vm.rate_limit_groups vm;
      Vm.disks := disks.1; Vm.net := net.1; Vm.rng := Vm.rng vm; Vm.balloon := Vm.balloon vm;
      Vm.generic_vhost_user := generic_vhost_user.1; Vm.fs := fs.1; Vm.pmem := pmem.1; Vm.serial := Vm.serial vm;
      Vm.console := Vm.console vm; Vm.debug_console := Vm.debug_console vm; Vm.devices := devices.1;
      Vm.user_devices := user_devices.1; Vm.vdpa := vdpa.1; Vm.vsock := vsock.1; Vm.pvpanic := Vm.pvpanic vm;
      Vm.iommu := Vm.iommu vm; Vm.numa := Vm.numa vm; Vm.watchdog := Vm.watchdog vm; Vm.pci_segments := Vm.pci_segments vm;
      Vm.platform := Vm.platform vm; Vm.tpm := Vm.tpm vm; Vm.preserved_fds := Vm.preserved_fds vm;
      Vm.landlock_enable := Vm.landlock_enable vm; Vm.landlock_rules := Vm.landlock_rules vm |}).

(** The new descriptors come first. *)
Definition add_preserved_fds (fds : list Z) (vm : Vm.VmConfig) : Vm.VmConfig :=
  if bool_decide (fds = []) then vm
  else {| Vm.cpus := Vm.cpus vm; Vm.memory := Vm.memory vm; Vm.payload := Vm.payload vm; Vm.rate_limit_groups := Vm.rate_limit_groups vm;
          Vm.disks := Vm.disks vm; Vm.net := Vm.net vm; Vm.rng := Vm.rng vm; Vm.balloon := Vm.balloon vm;
          Vm.generic_vhost_user := Vm.generic_vhost_user vm; Vm.fs := Vm.fs vm; Vm.pmem := Vm.pmem vm; Vm.serial := Vm.serial vm;
          Vm.console := Vm.console vm; Vm.debug_console := Vm.debug_console vm; Vm.devices := Vm.devices vm;
          Vm.user_devices := Vm.user_devices vm; Vm.vdpa := Vm.vdpa vm; Vm.vsock := Vm.vsock vm; Vm.pvpanic := Vm.pvpanic vm;
          Vm.iommu := Vm.iommu vm; Vm.numa := Vm.numa vm; Vm.watchdog := Vm.watchdog vm; Vm.pci_segments := Vm.pci_segments vm;
          Vm.platform := Vm.platform vm; Vm.tpm := Vm.tpm vm; Vm.preserved_fds := Some (fds ++ default [] (Vm.preserved_fds vm));
          Vm.landlock_enable := Vm.landlock_enable vm; Vm.landlock_rules := Vm.landlock_rules vm |}.

Definition add_to_config {T} (items : option (list T)) (item : T) : option (list T) :=
  match items with Some l => Some (l ++ [item]) | None => Some [item] end.

(** ** What an accepted configuration satisfies *)

(** The PCI devices of a configuration, and its identifiers, in the order of the checks. *)
Definition pci_devices (vm : Vm.VmConfig) : list Pci.PciDeviceCommonConfig :=
  (Disk.pci_common <$> default [] (Vm.disks vm)) ++ (Net.pci_common <$> default [] (Vm.net vm)) ++
  (Fs.pci_common <$> default [] (Vm.fs vm)) ++ (GenericVhostUser.pci_common <$> default [] (Vm.generic_vhost_user vm)) ++
  (Pmem.pci_common <$> default [] (Vm.pmem vm)) ++ (Device.upci_common <$> default [] (Vm.user_devices vm)) ++
  (Device.vpci_common <$> default [] (Vm.vdpa vm)) ++ (Device.pci_common <$> default [] (Vm.devices vm)) ++
  (match Vm.vsock vm with Some v => [Device.spci_common v] | None => [] end).
Definition identifiers (vm : Vm.VmConfig) : list str :=
  (RateLimit.id <$> default [] (Vm.rate_limit_groups vm)) ++ omap Pci.id (pci_devices vm) ++
  (MemoryZone.id <$> default [] (Memory.zones (Vm.memory vm))).

Definition pci_ok (vm : Vm.VmConfig) (d : Pci.PciDeviceCommonConfig) : Prop :=
  (∀ p, Vm.platform vm = Some p →
     Pci.pci_segment d < Platform.num_pci_segments p ∧
     (∀ l, Platform.iommu_segments p = Some l → Pci.pci_segment d ∈ l → Pci.iommu d = true)) ∧
  (∀ id, Pci.pci_device_id d = Some id → id < NUM_DEVICE_IDS ∧ id ≠ PCI_ROOT_DEVICE_ID).

(** All memory of the guest can be shared with another process. *)
Definition shared_memory (vm : Vm.VmConfig) : Prop :=
  Memory.shared (Vm.memory vm) = true ∨ Memory.hugepages (Vm.memory vm) = true ∨
  Memory.size (Vm.memory vm) = 0 ∧
  ∃ zones, Memory.zones (Vm.memory vm) = Some zones ∧ Forall (λ z, MemoryZone.shared z = true ∨ MemoryZone.hugepages z = true) zones.
Definition vhost_user (vm : Vm.VmConfig) : Prop :=
  Exists (λ d, Disk.vhost_user d = true) (default [] (Vm.disks vm)) ∨ Exists (λ n, Net.vhost_user n = true) (default [] (Vm.net vm)) ∨
  default [] (Vm.fs vm) ≠ [] ∨ default [] (Vm.generic_vhost_user vm) ≠ [] ∨ default [] (Vm.user_devices vm) ≠ [].

Definition any_iommu (vm : Vm.VmConfig) : bool :=
  existsb Pci.iommu (pci_devices vm) || Rng.iommu (Vm.rng vm) || Console.iommu (Vm.console vm) ||
  match Vm.platform vm with Some p => some (Platform.iommu_segments p) | None => false end.

Lemma check_Ok b e x : check b e = Ok x → b = false.
Proof. by destruct b. Qed.

Lemma with_iommu_false vm : with_iommu false vm = vm.
Proof. destruct vm. unfold with_iommu. simpl. by rewrite orb_false_r. Qed.

Lemma with_iommu_or b c vm : with_iommu c (with_iommu b vm) = with_iommu (b || c) vm.
Proof. destruct vm. unfold with_iommu. simpl. by rewrite orb_assoc. Qed.

Lemma verify_Ok {A} (f : Vm.VmConfig → res VE A) vm a vm' : verify f vm = (Ok a, vm') → f vm = Ok a ∧ vm' = vm.
Proof. by intros [= -> ->]. Qed.

Lemma finish_Ok valid b id ids vm ids' vm' :
  finish valid b id ids vm = (Ok ids', vm') →
  valid vm = Ok tt ∧ vm' = with_iommu b vm ∧ validate_identifier ids id = Ok ids'.
Proof.
  unfold finish. intros ([] & vm1 & [Hv ->]%verify_Ok & ([] & vm2 & Hi & Hl)%m_bind_ok)%m_bind_ok.
  injection Hl as Hid <-. split; [done|]. split; [|done]. destruct b; injection Hi as <-; [done|]. by rewrite with_iommu_false.
Qed.

(** What a loop over devices leaves, when a turn does what [finish] does. *)
Lemma accum_Ok {A} (step : gset str → A → VM (gset str)) (valid : A → Vm.VmConfig → Prop) (iommu : A → bool) (id : A → option str) l :
  (∀ ids x vm ids' vm', step ids x vm = (Ok ids', vm') →
     valid x vm ∧ vm' = with_iommu (iommu x) vm ∧ validate_identifier ids (id x) = Ok ids') →
  (∀ x b vm, valid x (with_iommu b vm) → valid x vm) →
  ∀ ids vm ids' vm', accum step ids l vm = (Ok ids', vm') →
    Forall (λ x, valid x vm) l ∧ vm' = with_iommu (existsb iommu l) vm ∧ foldM validate_identifier ids (id <$> l) = Ok ids'.
Proof.
  intros Hstep Hmono. induction l as [|x l IH]; intros ids vm ids' vm'; [intros [= <- <-]; by rewrite with_iommu_false|].
  cbn [accum]. intros (ids1 & vm1 & (Hv & -> & Hid)%Hstep & (Hf & -> & Hids)%IH)%m_bind_ok.
  split; [constructor; [done|]; eapply Forall_impl; [exact Hf|]; intros y Hy; exact (Hmono _ _ _ Hy)|].
  rewrite with_iommu_or. split; [done|].
  change (id <$> x :: l) with (id x :: (id <$> l)). cbn [foldM]. by rewrite Hid.
Qed.

(** The identifiers that were accepted. *)
Lemma validate_identifiers l ids ids' :
  foldM validate_identifier ids l = Ok ids' →
  ids' = ids ∪ list_to_set (omap (λ x, x) l) ∧ NoDup (omap (λ x, x) l) ∧
  Forall (λ id, take 2 id ≠ lit "__" ∧ id ∉ ids) (omap (λ x, x) l).
Proof.
  revert ids. induction l as [|[id|] l IH]; intros ids; cbn [foldM].
  - intros [= <-]. split; [set_solver|]. split; constructor.
  - intros (ids1 & Hid & Hl)%bind_ok. unfold validate_identifier in Hid.
    destruct (bool_decide_reflect (take 2 id = lit "__")); [done|]. destruct (bool_decide_reflect (id ∈ ids)); [done|].
    injection Hid as <-. destruct (IH _ Hl) as (-> & Hnd & Hf). cbn [omap list_omap]. rewrite Forall_forall in Hf.
    split; [set_solver|]. split.
    + constructor; [|done]. intros Hin. apply (Hf id) in Hin as [_ Hn]. set_solver.
    + constructor; [done|]. apply Forall_forall. intros x Hx. destruct (Hf x Hx). set_solver.
  - simpl. intros Hl. by apply IH.
Qed.

Lemma shared_Ok vm : backed_by_shared_memory vm = Ok true → shared_memory vm.
Proof.
  unfold backed_by_shared_memory, shared_memory. destruct (Memory.shared (Vm.memory vm)), (Memory.hugepages (Vm.memory vm)); simpl; auto.
  destruct (Z.eqb_spec (Memory.size (Vm.memory vm)) 0); [|done]. destruct (Memory.zones (Vm.memory vm)) as [z|]; [|done]. simpl.
  intros [= Hz]. right. right. split; [done|]. exists z. split; [done|]. apply Forall_forall. intros x Hx.
  rewrite forallb_forall in Hz. apply orb_true_iff, Hz. by apply list_elem_of_In.
Qed.

Lemma pci_common_Ok d vm : pci_common_validate d vm = Ok tt → pci_ok vm d.
Proof.
  unfold pci_common_validate, pci_ok. intros ([] & Hp & Hid)%bind_ok. split.
  - intros p Hpl. rewrite Hpl in Hp. apply bind_ok in Hp as ([] & Hseg%check_Ok & Hio%check_Ok). apply Z.leb_gt in Hseg. split; [done|].
    intros l Hl Hin. rewrite Hl in Hio. simpl in Hio. rewrite bool_decide_true in Hio by done. by destruct (Pci.iommu d).
  - intros id Hd. rewrite Hd in Hid. unfold validate_pci_device_id in Hid. destruct (Z.leb_spec NUM_DEVICE_IDS id); [done|].
    by destruct (Z.eqb_spec id PCI_ROOT_DEVICE_ID).
Qed.

Lemma needs_shared_Ok {A} (l : list A) e vm vm' : needs_shared l e vm = (Ok tt, vm') → vm' = vm ∧ (l ≠ [] → shared_memory vm).
Proof.
  intros [Hc ->]%verify_Ok. split; [done|]. intros Hne. rewrite bool_decide_false in Hc by done.
  apply bind_ok in Hc as (b & Hb & Hc%check_Ok). destruct b; [|done]. by apply shared_Ok.
Qed.

Definition disk_ok (vm : Vm.VmConfig) (d : Disk.DiskConfig) : Prop :=
  pci_ok vm (Disk.pci_common d) ∧ Disk.num_queues d ≤ Cpus.boot_vcpus (Vm.cpus vm) ∧ MINIMUM_BLOCK_QUEUE_SIZE < Disk.queue_size d ∧
  (Disk.vhost_user d = true → shared_memory vm ∧ is_Some (Disk.vhost_socket d) ∧ Pci.iommu (Disk.pci_common d) = false) ∧
  (is_Some (Disk.vhost_socket d) → Disk.path d = None) ∧
  (∀ g, Disk.rate_limit_group d = Some g → g ∈ RateLimit.id <$> default [] (Vm.rate_limit_groups vm) ∧ Disk.rate_limiter_config d = None) ∧
  (∀ s, Disk.serial d = Some s → utf8_len s ≤ VIRTIO_BLK_ID_BYTES).
Definition net_ok (vm : Vm.VmConfig) (n : Net.NetConfig) : Prop :=
  pci_ok vm (Net.pci_common n) ∧ 2 ≤ Net.num_queues n ∧ Net.num_queues n / 2 ≤ Cpus.boot_vcpus (Vm.cpus vm) ∧
  (∀ fds, Net.fds n = Some fds → zlen fds * 2 = Net.num_queues n ∧ Forall (λ fd, 2 < fd) fds) ∧
  (Net.vhost_user n = true → shared_memory vm ∧ Pci.iommu (Net.pci_common n) = false) ∧
  (∀ mtu, Net.mtu n = Some mtu → MIN_MTU ≤ mtu) ∧ (is_Some (Net.ip n) ↔ is_Some (Net.mask n)).

Lemma some_false {T} (o : option T) : some o = false → o = None.
Proof. by destruct o. Qed.
Lemma some_true {T} (o : option T) : some o = true ↔ is_Some o.
Proof. destruct o; simpl; split; (done || by intros [? ?]). Qed.

Lemma disk_validate_Ok d vm : disk_validate d vm = Ok tt →
  pci_ok vm (Disk.pci_common d) ∧ Disk.num_queues d ≤ Cpus.boot_vcpus (Vm.cpus vm) ∧ MINIMUM_BLOCK_QUEUE_SIZE < Disk.queue_size d ∧
  (Disk.vhost_user d = true → Pci.iommu (Disk.pci_common d) = false) ∧
  (∀ g, Disk.rate_limit_group d = Some g → Disk.rate_limiter_config d = None) ∧
  (∀ s, Disk.serial d = Some s → utf8_len s ≤ VIRTIO_BLK_ID_BYTES).
Proof.
  intros ([] & Hp%pci_common_Ok & ([] & Hq%check_Ok & ([] & Hs%check_Ok & ([] & Hv%check_Ok & ([] & Hr%check_Ok & Hser)%bind_ok)%bind_ok)%bind_ok)%bind_ok)%bind_ok.
  apply Z.ltb_ge in Hq. apply Z.leb_gt in Hs. split; [done|]. split; [done|]. split; [done|]. split; [|split].
  - intros Hvu. by rewrite Hvu in Hv.
  - intros g Hg. rewrite Hg in Hr. by destruct (Disk.rate_limiter_config d).
  - intros s Hs'. rewrite Hs' in Hser. apply check_Ok, Z.ltb_ge in Hser. done.
Qed.

Lemma disk_step_Ok ids d vm ids' vm' :
  disk_step ids d vm = (Ok ids', vm') →
  disk_ok vm d ∧ vm' = with_iommu (Pci.iommu (Disk.pci_common d)) vm ∧ validate_identifier ids (Pci.id (Disk.pci_common d)) = Ok ids'.
Proof.
  unfold disk_step. intros ([] & ? & [Hsp%check_Ok ->]%verify_Ok & ([] & ? & [Hsh ->]%verify_Ok & ([] & ? & [Hso%check_Ok ->]%verify_Ok &
    ([] & ? & [Hg ->]%verify_Ok & (Hv%disk_validate_Ok & -> & Hid)%finish_Ok)%m_bind_ok)%m_bind_ok)%m_bind_ok)%m_bind_ok.
  split; [|done]. destruct Hv as (? & ? & ? & Hio & Hrl & ?). unfold disk_ok. split_and!; try done.
  - intros Hvu. rewrite Hvu in Hsh, Hso. apply bind_ok in Hsh as ([] & Hb & Hc%check_Ok); [|done]. split; [by apply shared_Ok|].
    split; [|by apply Hio]. apply some_true. by destruct (some (Disk.vhost_socket d)).
  - intros Hs%some_true. rewrite Hs in Hsp. by apply some_false.
  - intros g Hrg. rewrite Hrg in Hg. split; [|by eapply Hrl]. apply check_Ok, negb_false_iff, existsb_exists in Hg as (cfg & Hin & Heq).
    apply bool_decide_eq_true in Heq as <-. apply list_elem_of_fmap_2. by apply list_elem_of_In.
Qed.

Lemma foldM_check {A} (f : A → bool) (e : A → VE) l x : foldM (λ _ a, check (f a) (e a)) tt l = Ok x → Forall (λ a, f a = false) l.
Proof.
  revert x. induction l as [|a l IH]; intros x; [done|]. cbn [foldM]. intros ([] & Ha%check_Ok & Hl)%bind_ok. constructor; [done|]. by eapply IH.
Qed.

Lemma net_step_Ok ids n vm ids' vm' :
  net_step ids n vm = (Ok ids', vm') →
  net_ok vm n ∧ vm' = with_iommu (Pci.iommu (Net.pci_common n)) vm ∧ validate_identifier ids (Pci.id (Net.pci_common n)) = Ok ids'.
Proof.
  unfold net_step. intros ([] & ? & [Hsh ->]%verify_Ok & (Hv & -> & Hid)%finish_Ok)%m_bind_ok. split; [|done]. unfold net_validate in Hv.
  apply bind_ok in Hv as ([] & Hp%pci_common_Ok & ([] & Hq%check_Ok & ([] & Hfd & ([] & Hvc%check_Ok & ([] & Hio%check_Ok &
    ([] & Hmtu & ([] & _ & ([] & Hm%check_Ok & Hip%check_Ok)%bind_ok)%bind_ok)%bind_ok)%bind_ok)%bind_ok)%bind_ok)%bind_ok).
  apply Z.ltb_ge in Hq, Hvc. unfold net_ok. split_and!; try done.
  - intros fds Hf. rewrite Hf in Hfd. apply bind_ok in Hfd as (a & [-> _]%umul_Ok & ([] & Ha%check_Ok & Hl)%bind_ok).
    apply negb_false_iff, Z.eqb_eq in Ha. split; [done|]. apply foldM_check in Hl. eapply Forall_impl; [exact Hl|]. intros fd Hd%Z.leb_gt. done.
  - intros Hvu. rewrite Hvu in Hsh, Hio. apply bind_ok in Hsh as ([] & Hb & Hc%check_Ok); [|done]. split; [by apply shared_Ok|done].
  - intros mtu Hmt. rewrite Hmt in Hmtu. by apply check_Ok, Z.ltb_ge in Hmtu.
  - destruct (Net.ip n), (Net.mask n); try done; split; by intros [? ?].
Qed.

(** A turn of a loop over PCI devices of one kind. *)
Definition pci_step {A} (pci : A → Pci.PciDeviceCommonConfig) (step : gset str → A → VM (gset str)) : Prop :=
  ∀ ids x vm ids' vm', step ids x vm = (Ok ids', vm') →
    pci_ok vm (pci x) ∧ vm' = with_iommu (Pci.iommu (pci x)) vm ∧ validate_identifier ids (Pci.id (pci x)) = Ok ids'.

Lemma fs_step_Ok : pci_step Fs.pci_common fs_step.
Proof.
  intros ids x vm ids' vm' (([] & _ & ([] & Hi%check_Ok & Hp%pci_common_Ok)%bind_ok)%bind_ok & -> & Hid)%finish_Ok. by rewrite Hi.
Qed.
Lemma generic_step_Ok : pci_step GenericVhostUser.pci_common generic_step.
Proof. intros ids x vm ids' vm' (([] & Hi%check_Ok & Hp%pci_common_Ok)%bind_ok & -> & Hid)%finish_Ok. by rewrite Hi. Qed.
Lemma user_device_step_Ok : pci_step Device.upci_common user_device_step.
Proof. intros ids x vm ids' vm' (([] & Hi%check_Ok & Hp%pci_common_Ok)%bind_ok & -> & Hid)%finish_Ok. by rewrite Hi. Qed.
Lemma pmem_step_Ok : pci_step Pmem.pci_common pmem_step.
Proof. intros ids x vm ids' vm' (Hp%pci_common_Ok & -> & Hid)%finish_Ok. done. Qed.
Lemma vdpa_step_Ok : pci_step Device.vpci_common vdpa_step.
Proof. intros ids x vm ids' vm' (Hp%pci_common_Ok & -> & Hid)%finish_Ok. done. Qed.

Lemma existsb_map {A B} (f : A → B) (p : B → bool) l : existsb p (f <$> l) = existsb (λ x, p (f x)) l.
Proof. induction l as [|x l IH]; [done|]. cbn [fmap list_fmap existsb]. by f_equal. Qed.

Lemma accum_pci {A} (pci : A → Pci.PciDeviceCommonConfig) step l ids vm ids' vm' :
  pci_step pci step → accum step ids l vm = (Ok ids', vm') →
  Forall (pci_ok vm) (pci <$> l) ∧ vm' = with_iommu (existsb Pci.iommu (pci <$> l)) vm ∧
  foldM validate_identifier ids (Pci.id <$> (pci <$> l)) = Ok ids'.
Proof.
  intros Hs H. destruct (accum_Ok step (λ x vm, pci_ok vm (pci x)) (λ x, Pci.iommu (pci x)) (λ x, Pci.id (pci x)) l Hs ltac:(done) _ _ _ _ H)
    as (Hf & -> & Hids). rewrite Forall_fmap, existsb_map. split; [done|]. split; [done|]. by rewrite <-list_fmap_compose.
Qed.

Lemma device_loop_Ok l paths ids vm paths' ids' vm' :
  accum device_step (paths, ids) l vm = (Ok (paths', ids'), vm') →
  Forall (pci_ok vm) (Device.pci_common <$> l) ∧ vm' = with_iommu (existsb Pci.iommu (Device.pci_common <$> l)) vm ∧
  foldM validate_identifier ids (Pci.id <$> (Device.pci_common <$> l)) = Ok ids' ∧
  NoDup (Device.path <$> l) ∧ Forall (λ p, p ∉ paths) (Device.path <$> l).
Proof.
  revert paths ids vm. induction l as [|d l IH]; intros paths ids vm; cbn [accum].
  { intros [= <- <- <-]. rewrite with_iommu_false. split_and!; (done || constructor). }
  intros ([p1 i1] & vm1 & ([] & ? & [Hd%check_Ok ->]%verify_Ok & (i2 & vm2 & (Hv & -> & Hid)%finish_Ok & Heq)%m_bind_ok)%m_bind_ok & Hl)%m_bind_ok.
  injection Heq as <- <- <-. apply bind_ok in Hv as ([] & Hp%pci_common_Ok & _). apply bool_decide_eq_false in Hd.
  destruct (IH _ _ _ Hl) as (Hf & -> & Hids & Hnd & Hni). rewrite with_iommu_or. rewrite Forall_forall in Hni. split_and!.
  - by constructor.
  - done.
  - cbn [fmap list_fmap foldM]. by rewrite Hid.
  - constructor; [|done]. intros Hin%Hni. set_solver.
  - constructor; [done|]. apply Forall_forall. intros q Hq%Hni. set_solver.
Qed.

(** A loop that inserts keys that must be new. *)
Lemma foldM_fresh {K V} `{Countable K} (f : gmap K V → K → res VE (gmap K V)) l used used' :
  (∀ used x used', f used x = Ok used' → used !! x = None ∧ ∃ v, used' = <[x := v]> used) →
  foldM f used l = Ok used' → NoDup l ∧ (∀ x, x ∈ l → used !! x = None) ∧ ∀ x, is_Some (used' !! x) ↔ is_Some (used !! x) ∨ x ∈ l.
Proof.
  intros Hf. revert used. induction l as [|x l IH]; intros used; cbn [foldM].
  { intros [= <-]. split; [constructor|]. split; [by intros ? ?%not_elem_of_nil|]. intros x. rewrite elem_of_nil. tauto. }
  intros (u1 & (Hx & v & ->)%Hf & Hl)%bind_ok. destruct (IH _ Hl) as (Hnd & Hnew & Hdom). split; [|split].
  - constructor; [|done]. intros Hin%Hnew. by rewrite lookup_insert_eq in Hin.
  - intros y [->|Hy]%elem_of_cons; [done|]. apply Hnew in Hy. by apply lookup_insert_None in Hy as [? _].
  - intros y. rewrite Hdom, elem_of_cons. destruct (decide (y = x)) as [->|Hne].
    + rewrite lookup_insert_eq. naive_solver.
    + rewrite lookup_insert_ne by done. naive_solver.
Qed.

Lemma numa_zone_fresh node used x used' : numa_zone node used x = Ok used' → used !! x = None ∧ ∃ v, used' = <[x := v]> used.
Proof. unfold numa_zone. destruct (used !! x) eqn:Hx; [done|]. intros [= <-]. eauto. Qed.

Lemma numa_segment_fresh n node used x used' :
  numa_segment n node used x = Ok used' → used !! x = None ∧ ∃ v, used' = <[x := v]> used.
Proof. intros ([] & _ & ([] & _ & Hu)%bind_ok)%bind_ok. destruct (used !! x) eqn:Hx; [done|]. injection Hu as <-. eauto. Qed.

(** Zones and segments are used by one node only. *)
Lemma numa_loop_Ok n l used used' :
  foldM (numa_step n) used l = Ok used' →
  NoDup (l ≫= λ x, default [] (Numa.memory_zones x)) ∧ (∀ z, z ∈ (l ≫= λ x, default [] (Numa.memory_zones x)) → used.1 !! z = None) ∧
  NoDup (l ≫= λ x, default [] (Numa.pci_segments x)) ∧ (∀ s, s ∈ (l ≫= λ x, default [] (Numa.pci_segments x)) → used.2 !! s = None).
Proof.
  revert used. induction l as [|x l IH]; intros used; cbn [foldM].
  { intros _. split_and!; try constructor; by intros ? ?%not_elem_of_nil. }
  intros (u1 & ([] & _ & (z1 & Hz & (s1 & Hs & [= <-])%bind_ok)%bind_ok)%bind_ok & Hl)%bind_ok.
  apply (foldM_fresh _ _ _ _ (numa_zone_fresh _)) in Hz as (Hz1 & Hz2 & Hz3). apply (foldM_fresh _ _ _ _ (numa_segment_fresh _ _)) in Hs as (Hs1 & Hs2 & Hs3).
  destruct (IH _ Hl) as (Iz1 & Iz2 & Is1 & Is2). simpl in *. cbn [mbind list_bind].
  assert (∀ z, z ∈ default [] (Numa.memory_zones x) → z ∉ (l ≫= λ x, default [] (Numa.memory_zones x))) as Dz.
  { intros z Hz Hin%Iz2. assert (is_Some (z1 !! z)) as [? Hx] by (apply Hz3; by right). congruence. }
  assert (∀ z, z ∈ default [] (Numa.pci_segments x) → z ∉ (l ≫= λ x, default [] (Numa.pci_segments x))) as Ds.
  { intros z Hz Hin%Is2. assert (is_Some (s1 !! z)) as [? Hx] by (apply Hs3; by right). congruence. }
  rewrite !NoDup_app. split_and!; try done; intros z [Hz|Hz]%elem_of_app; auto.
  - apply Iz2 in Hz. apply eq_None_not_Some. intros Hsome. assert (is_Some (z1 !! z)) as [? Hx] by (apply Hz3; by left). congruence.
  - apply Is2 in Hz. apply eq_None_not_Some. intros Hsome. assert (is_Some (s1 !! z)) as [? Hx] by (apply Hs3; by left). congruence.
Qed.

(** The memory that a balloon must leave some of. *)
Definition ram_size (vm : Vm.VmConfig) : Z :=
  foldr (λ z n, MemoryZone.size z + n) (Memory.size (Vm.memory vm)) (default [] (Memory.zones (Vm.memory vm))).

Record accepted (vm : Vm.VmConfig) : Prop := {
  acc_cpus : Cpus.boot_vcpus (Vm.cpus vm) ≤ Cpus.max_vcpus (Vm.cpus vm) ≤ MAX_SUPPORTED_CPUS;
  acc_topology t : Cpus.topology (Vm.cpus vm) = Some t →
    Cpus.threads_per_core t * Cpus.cores_per_die t * Cpus.dies_per_package t * Cpus.packages t = Cpus.max_vcpus (Vm.cpus vm);
  acc_disks : Forall (disk_ok vm) (default [] (Vm.disks vm));
  acc_nets : Forall (net_ok vm) (default [] (Vm.net vm));
  acc_pci : Forall (pci_ok vm) (pci_devices vm);
  acc_shared : vhost_user vm → shared_memory vm;
  acc_cid v : Vm.vsock vm = Some v → Device.cid v ∉ [U32_MAX; 0; 1; 2];
  acc_balloon b : Vm.balloon vm = Some b → Balloon.size b < ram_size vm;
  acc_paths : NoDup (Device.path <$> default [] (Vm.devices vm));
  acc_zones : NoDup (default [] (Vm.numa vm) ≫= λ n, default [] (Numa.memory_zones n));
  acc_segments : NoDup (default [] (Vm.numa vm) ≫= λ n, default [] (Numa.pci_segments n));
  acc_ids : NoDup (identifiers vm);
  acc_reserved : Forall (λ id, take 2 id ≠ lit "__") (identifiers vm) }.

Lemma topology_Ok vm t x : topology_check vm = Ok x → Cpus.topology (Vm.cpus vm) = Some t →
  Cpus.threads_per_core t * Cpus.cores_per_die t * Cpus.dies_per_package t * Cpus.packages t = Cpus.max_vcpus (Vm.cpus vm).
Proof.
  assert (∀ a b c, umul32 (E:=VE) a b = Ok c → c = a * b) as Hm by (intros a b c; unfold umul32; case_match; [by intros [= <-]|done]).
  unfold topology_check. intros Hc Ht. rewrite Ht in Hc.
  apply bind_ok in Hc as ([] & _ & ([] & _ & (a & ->%Hm & (b & ->%Hm & (c & ->%Hm & He%check_Ok)%bind_ok)%bind_ok)%bind_ok)%bind_ok).
  by apply negb_false_iff, Z.eqb_eq in He.
Qed.

Lemma balloon_Ok vm b x : balloon_check vm = Ok x → Vm.balloon vm = Some b → Balloon.size b < ram_size vm.
Proof.
  unfold balloon_check, ram_size. intros Hc Hb. rewrite Hb in Hc. apply bind_ok in Hc as (ram & Hr & Hlt%check_Ok). apply Z.leb_gt in Hlt.
  replace (foldr _ _ _) with ram; [done|]. clear Hlt Hb. revert Hr. generalize (Memory.size (Vm.memory vm)) as n.
  generalize (default [] (Memory.zones (Vm.memory vm))) as l. induction l as [|z l IH]; intros n; cbn [foldM foldr]; [by intros [= <-]|].
  intros (m & [-> _]%uadd_Ok & Hr%IH)%bind_ok. rewrite Hr. clear. induction l as [|y l IH]; cbn [foldr]; lia.
Qed.

Lemma omap_id_Some {A} (l : list A) : omap (λ x, x) (Some <$> l) = l.
Proof. induction l as [|x l IH]; [done|]. cbn [fmap list_fmap omap list_omap]. by f_equal. Qed.

Lemma omap_id_fmap {A B} (f : A → option B) (l : list A) : omap (λ x, x) (f <$> l) = omap f l.
Proof. induction l as [|x l IH]; [done|]. cbn [fmap list_fmap omap list_omap]. by rewrite IH. Qed.

Lemma vsock_Ok vm ids ids' vm' v :
  match v with
  | Some v => finish (vsock_validate v) (Pci.iommu (Device.spci_common v)) (Pci.id (Device.spci_common v)) ids
  | None => mret ids
  end vm = (Ok ids', vm') →
  let l := match v with Some v => [Device.spci_common v] | None => [] end in
  Forall (pci_ok vm) l ∧ vm' = with_iommu (existsb Pci.iommu l) vm ∧ foldM validate_identifier ids (Pci.id <$> l) = Ok ids'.
Proof.
  destruct v as [v|]; [|intros [= <- <-]; cbn [existsb]; by rewrite with_iommu_false].
  intros (Hp%pci_common_Ok & -> & Hid)%finish_Ok. simpl. rewrite orb_false_r, Hid. split_and!; try done. by constructor.
Qed.

(** The groups and the zones are identifiers that are always there. *)
Lemma group_loop_Ok l ids vm ids' vm' :
  accum group_step ids l vm = (Ok ids', vm') → vm' = vm ∧ foldM validate_identifier ids (Some <$> (RateLimit.id <$> l)) = Ok ids'.
Proof.
  revert ids vm. induction l as [|g l IH]; intros ids vm; cbn [accum]; [by intros [= <- <-]|].
  intros (i1 & vm1 & (_ & -> & Hid)%finish_Ok & Hl)%m_bind_ok. rewrite with_iommu_false in Hl.
  apply IH in Hl as [-> Hl]. split; [done|]. cbn [fmap list_fmap foldM]. by rewrite Hid.
Qed.

Lemma zone_ids_Ok l ids ids' :
  foldM (λ ids z, validate_identifier ids (Some (MemoryZone.id z))) ids l = Ok ids' →
  foldM validate_identifier ids (Some <$> (MemoryZone.id <$> l)) = Ok ids'.
Proof.
  revert ids. induction l as [|z l IH]; intros ids; [done|]. cbn [fmap list_fmap foldM].
  intros (i & Hi & Hl)%bind_ok. rewrite Hi. cbn [mbind res_bind]. by apply IH.
Qed.

Lemma foldM_app_Ok {E A B} (f : A → B → res E A) a l1 l2 b r : foldM f a l1 = Ok b → foldM f b l2 = r → foldM f a (l1 ++ l2) = r.
Proof. intros H1 H2. by rewrite foldM_app, H1. Qed.

(** The steps of [vm_validate] in the order of the code, with what each leaves. *)
Lemma vm_validate_steps ex vm ids vm' :
  vm_validate ex vm = (Ok ids, vm') →
  ∃ p p', Vm.payload vm = Some p ∧ payload_validate p = Ok p' ∧ vm' = with_iommu (any_iommu vm) (with_payload p' vm) ∧
    first_checks vm = Ok tt ∧ topology_check vm = Ok tt ∧ vsock_cid_check vm = Ok tt ∧ balloon_check vm = Ok tt ∧ numa_check vm = Ok tt ∧
    Forall (disk_ok vm) (default [] (Vm.disks vm)) ∧ Forall (net_ok vm) (default [] (Vm.net vm)) ∧ Forall (pci_ok vm) (pci_devices vm) ∧
    (default [] (Vm.fs vm) ≠ [] ∨ default [] (Vm.generic_vhost_user vm) ≠ [] ∨ default [] (Vm.user_devices vm) ≠ [] → shared_memory vm) ∧
    NoDup (Device.path <$> default [] (Vm.devices vm)) ∧
    foldM validate_identifier ∅ ((Some <$> (RateLimit.id <$> default [] (Vm.rate_limit_groups vm))) ++ (Pci.id <$> pci_devices vm) ++
      (Some <$> (MemoryZone.id <$> default [] (Memory.zones (Vm.memory vm))))) = Ok ids.
Proof.
  unfold vm_validate. intros ([] & vm1 & Hpay & H)%m_bind_ok. unfold payload_step in Hpay.
  apply m_bind_ok in Hpay as (? & ? & [= <- <-] & Hpay). destruct (Vm.payload vm) as [p|] eqn:Hp; [|done].
  apply m_bind_ok in Hpay as (p' & vm2 & [= Hv <-] & [= <-]). apply VmConfigParse.map_err_Ok in Hv.
  apply m_bind_ok in H as ([] & ? & [Hfirst ->]%verify_Ok & (? & ? & [= <- <-] & H)%m_bind_ok).
  apply m_bind_ok in H as (i1 & ? & [-> I1]%group_loop_Ok & H). apply m_bind_ok in H as (i2 & ? & Hd & H).
  destruct (accum_Ok disk_step (λ d vm, disk_ok vm d) _ _ _ disk_step_Ok ltac:(done) _ _ _ _ Hd) as (Fd & -> & I2).
  apply m_bind_ok in H as (i3 & ? & Hn & H). destruct (accum_Ok net_step (λ n vm, net_ok vm n) _ _ _ net_step_Ok ltac:(done) _ _ _ _ Hn) as (Fn & -> & I3).
  apply m_bind_ok in H as ([] & ? & [-> S1]%needs_shared_Ok & (i4 & ? & (F4 & -> & I4)%(accum_pci _ _ _ _ _ _ _ fs_step_Ok) & H)%m_bind_ok).
  apply m_bind_ok in H as ([] & ? & [-> S2]%needs_shared_Ok & (i5 & ? & (F5 & -> & I5)%(accum_pci _ _ _ _ _ _ _ generic_step_Ok) & H)%m_bind_ok).
  apply m_bind_ok in H as (i6 & ? & (F6 & -> & I6)%(accum_pci _ _ _ _ _ _ _ pmem_step_Ok) & H).
  apply m_bind_ok in H as ([] & ? & [= <-] & ([] & ? & [= <-] & ([] & ? & [Htop ->]%verify_Ok & ([] & ? & [_ ->]%verify_Ok & H)%m_bind_ok)%m_bind_ok)%m_bind_ok).
  apply m_bind_ok in H as ([] & ? & [-> S3]%needs_shared_Ok & (i7 & ? & (F7 & -> & I7)%(accum_pci _ _ _ _ _ _ _ user_device_step_Ok) & H)%m_bind_ok).
  apply m_bind_ok in H as (i8 & ? & (F8 & -> & I8)%(accum_pci _ _ _ _ _ _ _ vdpa_step_Ok) & H).
  apply m_bind_ok in H as ([] & ? & [Hcid ->]%verify_Ok & ([] & ? & [Hbal ->]%verify_Ok & H)%m_bind_ok).
  apply m_bind_ok in H as ([paths i9] & ? & (F9 & -> & I9 & Hpaths & _)%device_loop_Ok & H).
  apply m_bind_ok in H as (i10 & ? & (F10 & -> & I10)%vsock_Ok & ([] & ? & [Hnuma ->]%verify_Ok & (i11 & ? & [= I11%zone_ids_Ok <-] & H)%m_bind_ok)%m_bind_ok).
  apply m_bind_ok in H as ([] & ? & [_ ->]%verify_Ok & ([] & ? & [_ ->]%verify_Ok & ([] & ? & [= <-] & ([] & ? & [_ ->]%verify_Ok & [= <- <-])%m_bind_ok)%m_bind_ok)%m_bind_ok).
  exists p, p'. split_and!; try done.
  - rewrite !with_iommu_or. f_equal. unfold any_iommu, pci_devices. rewrite !existsb_app, !existsb_map. cbn -[existsb]. btauto.
  - unfold pci_devices. rewrite !Forall_app. split_and!; try done.
    + apply Forall_fmap. eapply Forall_impl; [exact Fd|]. by intros d [? _].
    + apply Forall_fmap. eapply Forall_impl; [exact Fn|]. by intros d [? _].
  - intros [?|[?|?]]; [by apply S1|by apply S2|by apply S3].
  - change (foldM validate_identifier i1 (Pci.id ∘ Disk.pci_common <$> default [] (Vm.disks vm)) = Ok i2) in I2.
    change (foldM validate_identifier i2 (Pci.id ∘ Net.pci_common <$> default [] (Vm.net vm)) = Ok i3) in I3.
    rewrite list_fmap_compose in I2. rewrite list_fmap_compose in I3. unfold pci_devices. rewrite !fmap_app, <-!(assoc_L (++)).
    do 10 (eapply foldM_app_Ok; [eassumption|]). exact I11.
Qed.

Lemma validated_identifiers l1 (l2 : list Pci.PciDeviceCommonConfig) l3 ids :
  foldM validate_identifier ∅ ((Some <$> l1) ++ (Pci.id <$> l2) ++ (Some <$> l3)) = Ok ids →
  let all := l1 ++ omap Pci.id l2 ++ l3 in ids = list_to_set all ∧ NoDup all ∧ Forall (λ id, take 2 id ≠ lit "__") all.
Proof.
  intros (-> & Hnd & Hf)%validate_identifiers. rewrite !omap_app, !omap_id_Some, omap_id_fmap in *. split; [set_solver|]. split; [done|].
  eapply Forall_impl; [exact Hf|]. by intros id [? _].
Qed.

Lemma validated_accepted ex vm ids vm' : vm_validate ex vm = (Ok ids, vm') → accepted vm.
Proof.
  intros (p & p' & Hp & Hp' & -> & Hfirst & Htop & Hcid & Hbal & Hnuma & Fd & Fn & Fp & Hsh & Hpaths & Hids)%vm_validate_steps.
  apply validated_identifiers in Hids as (-> & Hnd & Hf).
  apply bind_ok in Hfirst as ([] & _ & ([] & _ & ([] & Hb%check_Ok & Hm%check_Ok)%bind_ok)%bind_ok).
  apply Z.ltb_ge in Hb, Hm. apply bind_ok in Hnuma as ([m1 m2] & (? & _ & ? & _)%numa_loop_Ok & _). split; try done.
  - intros t Ht. by eapply topology_Ok.
  - intros [Hex|[Hex|Hex]]; [| |by apply Hsh].
    + apply Exists_exists in Hex as (d & Hin & Hv). rewrite Forall_forall in Fd. by apply (Fd d Hin).
    + apply Exists_exists in Hex as (d & Hin & Hv). rewrite Forall_forall in Fn. by apply (Fn d Hin).
  - intros v Hv. unfold vsock_cid_check in Hcid. rewrite Hv in Hcid. by apply check_Ok, bool_decide_eq_false in Hcid.
  - intros b Hb'. by eapply balloon_Ok.
Qed.

(** C19: what a configuration that is accepted satisfies: the processors fit their topology,
    every PCI device has a segment and a slot that exist, disks and network devices have
    queues for the processors, devices of other processes have shared memory, the balloon
    leaves memory, NUMA nodes share no zone and no segment, and all identifiers are
    different and not reserved; they are what is returned.  Of the configuration only the
    payload and the IOMMU, on exactly when something needs it, are changed. *)
Theorem vm_validate_sound ex vm ids vm' :
  vm_validate ex vm = (Ok ids, vm') →
  accepted vm ∧ ids = list_to_set (identifiers vm) ∧
  ∃ p p', Vm.payload vm = Some p ∧ payload_validate p = Ok p' ∧ vm' = with_iommu (any_iommu vm) (with_payload p' vm).
Proof.
  intros H. split; [by eapply validated_accepted|].
  apply vm_validate_steps in H as (p & p' & Hp & Hp' & -> & _ & _ & _ & _ & _ & _ & _ & _ & _ & _ & Hids).
  apply validated_identifiers in Hids as (-> & _). split; [done|]. by exists p, p'.
Qed.

(** A configuration with memory of size zero and no zones, that is not shared, makes the
    check panic as soon as there is a virtio-fs device: the check for shared memory takes the
    zones for granted. *)
Theorem zero_memory_panics ex vm p :
  Vm.payload vm = Some p → payload_validate p = Ok p → first_checks vm = Ok tt →
  default [] (Vm.rate_limit_groups vm) = [] → default [] (Vm.disks vm) = [] → default [] (Vm.net vm) = [] →
  Memory.shared (Vm.memory vm) = false → Memory.hugepages (Vm.memory vm) = false → Memory.size (Vm.memory vm) = 0 →
  Memory.zones (Vm.memory vm) = None → default [] (Vm.fs vm) ≠ [] → (vm_validate ex vm).1 = Panic.
Proof.
  intros Hp Hpv Hfirst Hg Hd Hn Hs Hh Hz Hzones Hfs. unfold vm_validate, payload_step.
  assert (with_payload p vm = vm) as Hwp by (destruct vm; simpl in *; by subst).
  rewrite (m_bind_run _ _ _ tt vm).
  2: { erewrite m_bind_run by done. rewrite Hp. rewrite (m_bind_run _ _ _ p vm) by (unfold lift; by rewrite Hpv).
       unfold modify. by rewrite Hwp. }
  rewrite (m_bind_run _ _ _ tt vm) by (unfold verify; by rewrite Hfirst). erewrite m_bind_run by done.
  rewrite Hg, Hd, Hn. do 3 (erewrite m_bind_run by done). unfold mbind, M_bind, needs_shared, verify.
  rewrite bool_decide_false by done. unfold backed_by_shared_memory. by rewrite Hs, Hh, Hz, Hzones.
Qed.

(** The configuration of the small VM, and of one with no memory and a virtio-fs device. *)
Definition small_config : Vm.VmConfig :=
  Eval vm_compute in
  match vm_assemble [1; 2; 3; 4; 5; 6] VmConfigParse.small_vm as r return match r with Ok _ => Vm.VmConfig | _ => unit end with
  | Ok c => c | _ => tt
  end.
Definition empty_vm : Vm.VmParams := {|
  Vm.p_cpus := lit "boot=1"; Vm.p_memory := lit "size=0"; Vm.p_memory_zones := None;
  Vm.p_firmware := None; Vm.p_kernel := Some (lit "vmlinux"); Vm.p_initramfs := None; Vm.p_cmdline := None;
  Vm.p_rate_limit_groups := None; Vm.p_disks := None; Vm.p_net := None; Vm.p_rng := lit "src=/dev/urandom"; Vm.p_balloon := None;
  Vm.p_fs := Some [lit "tag=share,socket=/fs.sock"]; Vm.p_generic_vhost_user := None; Vm.p_pmem := None;
  Vm.p_serial := lit "null"; Vm.p_console := lit "tty"; Vm.p_debug_console := lit "off"; Vm.p_devices := None;
  Vm.p_user_devices := None; Vm.p_vdpa := None; Vm.p_vsock := None; Vm.p_pvpanic := false; Vm.p_numa := None; Vm.p_watchdog := false;
  Vm.p_pci_segments := None; Vm.p_platform := None; Vm.p_tpm := None; Vm.p_landlock_enable := false; Vm.p_landlock_rules := None |}.
Definition empty_config : Vm.VmConfig :=
  Eval vm_compute in
  match vm_assemble [] empty_vm as r return match r with Ok _ => Vm.VmConfig | _ => unit end with Ok c => c | _ => tt end.

Lemma vm_validate_sound_witness :
  (vm_validate (λ _, true) small_config).1 = Ok (list_to_set (identifiers small_config)) ∧ accepted small_config.
Proof.
  split; [vm_compute; reflexivity|].
  apply (vm_validate_sound (λ _, true) small_config (list_to_set (identifiers small_config)) (vm_validate (λ _, true) small_config).2).
  vm_compute. reflexivity.
Defined.

Lemma zero_memory_panics_witness :
  vm_assemble [] empty_vm = Ok empty_config ∧ (vm_validate (λ _, true) empty_config).1 = Panic.
Proof. split; [vm_compute; reflexivity|]. by eapply (zero_memory_panics (λ _, true) empty_config). Defined.

Lemma accepted_updated b p vm : accepted vm → accepted (with_iommu b (with_payload p vm)).
Proof. by intros []. Qed.

Lemma assembled_iommu random v c : vm_assemble random v = Ok c → Vm.iommu c = false.
Proof. unfold vm_assemble. intros H. repeat (apply bind_ok in H as (? & _ & H)). by injection H as <-. Qed.

(** C4: a configuration made from the strings of the command line has every number in the
    machine type of its field - counts, sizes, identifiers and weights in their unsigned
    types, descriptors in [i32], MAC addresses of six bytes - and satisfies what the check
    accepts as it is returned, with a payload and the IOMMU on exactly when something
    needs it. *)
Theorem config_parse_sound random ex v vm :
  NetAddr.is_mac random → vm_config_parse random ex v = Ok vm →
  VmConfigParse.vm_typed vm ∧ accepted vm ∧ Vm.iommu vm = any_iommu vm ∧ is_Some (Vm.payload vm).
Proof.
  intros Hr (c & Hc & Hv)%bind_ok. destruct (vm_validate ex c) as [[ids|e| |] vm'] eqn:Hval; try done. injection Hv as ->.
  assert (accepted c) as Ha by (by eapply validated_accepted).
  apply vm_validate_steps in Hval as (p & p' & _ & _ & -> & _). split; [|split; [by apply accepted_updated|]].
  - exact (VmConfigParse.config_typed random v c Hr Hc).
  - split; [|by eexists]. change (Vm.iommu c || any_iommu c = any_iommu c). by rewrite (assembled_iommu random v c Hc).
Qed.

Lemma config_parse_sound_witness : ∃ vm, vm_config_parse [1; 2; 3; 4; 5; 6] (λ _, true) VmConfigParse.small_vm = Ok vm ∧ accepted vm.
Proof.
  exists (vm_validate (λ _, true) small_config).2. split; [vm_compute; reflexivity|].
  apply (config_parse_sound [1; 2; 3; 4; 5; 6] (λ _, true) VmConfigParse.small_vm); [|vm_compute; reflexivity].
  split; [reflexivity|]. repeat constructor; lia.
Defined.

(** *** Removing a device *)

Definition kept (id : str) (d : Pci.PciDeviceCommonConfig) : Prop := Pci.id d ≠ Some id.
Global Instance kept_dec id d : Decision (kept id d).
Proof. unfold kept. apply _. Defined.

Lemma retain_spec {T} (pci : T → Pci.PciDeviceCommonConfig) id l :
  pci <$> default [] (retain (λ d, Pci.id (pci d)) id l).1 = filter (kept id) (pci <$> default [] l) ∧
  ((retain (λ d, Pci.id (pci d)) id l).2 = true ↔ Some id ∈ Pci.id <$> (pci <$> default [] l)) ∧
  sublist (default [] (retain (λ d, Pci.id (pci d)) id l).1) (default [] l).
Proof.
  destruct l as [l|]; cbn [retain default fst snd Datatypes.id]; [|split; [done|]; split; [split; [done|by intros ?%not_elem_of_nil]|constructor]].
  split; [|split].
  - induction l as [|x l IH]; [done|]. cbn [fmap list_fmap]. rewrite !filter_cons. destruct (decide (kept id (pci x))) as [Hk|Hk].
    + rewrite decide_True by done. cbn [fmap list_fmap]. by rewrite IH.
    + by rewrite decide_False.
  - rewrite negb_true_iff, Nat.eqb_neq. induction l as [|x l IH]; [split; [done|by intros ?%not_elem_of_nil]|].
    cbn [fmap list_fmap]. rewrite filter_cons, elem_of_cons. case_decide as Hx; simpl.
    + rewrite <-IH. split; [auto|]. intros [Heq|Hne]; [congruence|auto].
    + split; [intros _; left; destruct (decide (Pci.id (pci x) = Some id)); [done|contradiction]|]. intros _.
      apply Nat.lt_neq, Nat.lt_succ_r, length_filter.
  - apply sublist_filter.
Qed.

Lemma removed_devices id vm :
  pci_devices (remove_device id vm).2 = filter (kept id) (pci_devices vm) ∧
  ((remove_device id vm).1 = true ↔ Some id ∈ Pci.id <$> pci_devices vm).
Proof.
  unfold pci_devices, remove_device. cbn [fst snd Vm.disks Vm.net Vm.fs Vm.generic_vhost_user Vm.pmem Vm.user_devices Vm.vdpa Vm.devices Vm.vsock].
  rewrite !filter_app, !fmap_app, !orb_true_iff, !elem_of_app.
  destruct (retain_spec Disk.pci_common id (Vm.disks vm)) as (-> & -> & _).
  destruct (retain_spec Net.pci_common id (Vm.net vm)) as (-> & -> & _).
  destruct (retain_spec Fs.pci_common id (Vm.fs vm)) as (-> & -> & _).
  destruct (retain_spec GenericVhostUser.pci_common id (Vm.generic_vhost_user vm)) as (-> & -> & _).
  destruct (retain_spec Pmem.pci_common id (Vm.pmem vm)) as (-> & -> & _).
  destruct (retain_spec Device.upci_common id (Vm.user_devices vm)) as (-> & -> & _).
  destruct (retain_spec Device.vpci_common id (Vm.vdpa vm)) as (-> & -> & _).
  destruct (retain_spec Device.pci_common id (Vm.devices vm)) as (-> & -> & _).
  destruct (Vm.vsock vm) as [v|]; simpl; [|split; [done|]; rewrite elem_of_nil; naive_solver].
  rewrite filter_cons, filter_nil, list_elem_of_singleton.
  case_bool_decide as Hv; [rewrite decide_False by (intros Hk; by apply Hk)|rewrite decide_True by done]; simpl; (split; [done|]); naive_solver.
Qed.

Lemma sublist_Forall {A} (P : A → Prop) l k : sublist l k → Forall P k → Forall P l.
Proof. rewrite !Forall_forall. intros Hs Hk x Hx. by eapply Hk, elem_of_sublist. Qed.
Lemma sublist_Exists {A} (P : A → Prop) l k : sublist l k → Exists P l → Exists P k.
Proof. rewrite !Exists_exists. intros Hs (x & Hx & HP). exists x. split; [by eapply elem_of_sublist|done]. Qed.
Lemma sublist_nonempty {A} (l k : list A) : sublist l k → l ≠ [] → k ≠ [].
Proof. intros Hs Hl ->. by apply sublist_nil_r in Hs. Qed.
Lemma sublist_omap {A B} (f : A → option B) l k : sublist l k → sublist (omap f l) (omap f k).
Proof. induction 1; cbn [omap list_omap]; [done|case_match; by try constructor|case_match; [by constructor|done]]. Qed.

Lemma removed_identifiers id vm : sublist (identifiers (remove_device id vm).2) (identifiers vm).
Proof.
  unfold identifiers. rewrite (proj1 (removed_devices id vm)).
  apply sublist_app; [done|]. apply sublist_app; [|done]. apply sublist_omap, sublist_filter.
Qed.

Lemma removed_vhost_user id vm : vhost_user (remove_device id vm).2 → vhost_user vm.
Proof.
  intros [H|[H|[H|[H|H]]]]; [left|right; left|do 2 right; left|do 3 right; left|do 4 right].
  - eapply sublist_Exists; [|exact H]. apply (retain_spec Disk.pci_common).
  - eapply sublist_Exists; [|exact H]. apply (retain_spec Net.pci_common).
  - eapply sublist_nonempty; [|exact H]. apply (retain_spec Fs.pci_common).
  - eapply sublist_nonempty; [|exact H]. apply (retain_spec GenericVhostUser.pci_common).
  - eapply sublist_nonempty; [|exact H]. apply (retain_spec Device.upci_common).
Qed.

Lemma id_listed id (l : list Pci.PciDeviceCommonConfig) : id ∈ omap Pci.id l ↔ Some id ∈ Pci.id <$> l.
Proof. rewrite list_elem_of_omap, list_elem_of_fmap. naive_solver. Qed.

Lemma kept_all id (l : list Pci.PciDeviceCommonConfig) : Some id ∉ Pci.id <$> l → filter (kept id) l = l.
Proof.
  induction l as [|d l IH]; [done|]. cbn [fmap list_fmap]. rewrite not_elem_of_cons, filter_cons. intros [Hd Hl].
  rewrite decide_True by (unfold kept; congruence). by rewrite IH.
Qed.

Lemma kept_but_one id (l : list Pci.PciDeviceCommonConfig) : NoDup (omap Pci.id l) → Some id ∈ Pci.id <$> l → length l = S (length (filter (kept id) l)).
Proof.
  induction l as [|d l IH]; [by intros _ ?%not_elem_of_nil|]. cbn [fmap list_fmap omap list_omap]. intros Hnd [Hd|Hin]%elem_of_cons; rewrite filter_cons.
  - rewrite <-Hd in Hnd. apply NoDup_cons in Hnd as [Hnew _]. rewrite decide_False by (intros Hk; by apply Hk).
    rewrite kept_all; [done|]. by rewrite <-id_listed.
  - destruct (Pci.id d) as [i|] eqn:Hi; cbn [length].
    + apply NoDup_cons in Hnd as [Hnew Hnd]. assert (i ≠ id) by (intros ->; by apply Hnew, id_listed).
      rewrite decide_True by (unfold kept; congruence). cbn [length]. by rewrite <-IH.
    + rewrite decide_True by (unfold kept; congruence). cbn [length]. by rewrite <-IH.
Qed.

Lemma removed_accepted id vm : accepted vm → accepted (remove_device id vm).2.
Proof.
  intros [Hc Ht Hd Hn Hp Hs Hv Hb Hpa Hz Hse Hi Hr]. split; try assumption.
  - apply (sublist_Forall (disk_ok vm)) with (2 := Hd). apply (retain_spec Disk.pci_common).
  - apply (sublist_Forall (net_ok vm)) with (2 := Hn). apply (retain_spec Net.pci_common).
  - rewrite (proj1 (removed_devices id vm)). by apply (sublist_Forall (pci_ok vm) _ (pci_devices vm)); [apply sublist_filter|].
  - intros ?%removed_vhost_user. by apply Hs.
  - intros v Hv'. apply Hv. unfold remove_device in Hv'. cbn [snd Vm.vsock] in Hv'. destruct (Vm.vsock vm); [|done].
    case_bool_decide; [done|by injection Hv' as ->].
  - eapply sublist_NoDup; [exact Hpa|]. apply fmap_sublist, (retain_spec Device.pci_common).
  - eapply sublist_NoDup; [exact Hi|]. apply removed_identifiers.
  - eapply sublist_Forall; [|exact Hr]. apply removed_identifiers.
Qed.

(** Removing a device drops exactly the devices with its identifier, of every kind, and
    says whether there was one; a configuration that was accepted stays one, and where
    identifiers are different at most one device goes. *)
Theorem remove_device_spec id vm :
  let '(removed, vm') := remove_device id vm in
  pci_devices vm' = filter (kept id) (pci_devices vm) ∧
  (removed = true ↔ Some id ∈ Pci.id <$> pci_devices vm) ∧
  (accepted vm → accepted vm' ∧ id ∉ omap Pci.id (pci_devices vm') ∧
     (length (pci_devices vm) = length (pci_devices vm') + if removed then 1 else 0)%nat).
Proof.
  destruct (removed_devices id vm) as [Hd Hf]. pose proof (removed_accepted id vm) as Ha.
  destruct (remove_device id vm) as [removed vm']. cbn [fst snd] in *. rewrite Hd. split; [done|]. split; [done|].
  intros Hacc. split; [by apply Ha|]. split.
  - rewrite list_elem_of_omap. intros (d & [Hk _]%list_elem_of_filter & Hid). by apply Hk.
  - pose proof (acc_ids _ Hacc) as Hnd. apply NoDup_app in Hnd as (_ & _ & (Hnd & _ & _)%NoDup_app).
    destruct removed.
    + rewrite (kept_but_one id) by (done || by apply Hf). lia.
    + rewrite kept_all; [lia|]. by intros ?%Hf.
Qed.

Lemma remove_device_spec_witness :
  let '(removed, vm') := remove_device (lit "net0") small_config in removed = true ∧ length (pci_devices vm') = 2%nat.
Proof.
  pose proof (remove_device_spec (lit "net0") small_config) as H.
  assert (length (pci_devices small_config) = 3%nat) as Hl by (vm_compute; reflexivity).
  assert ((remove_device (lit "net0") small_config).1 = true) as Hr by (vm_compute; reflexivity).
  assert (accepted small_config) as Ha.
  { apply (validated_accepted (λ _, true) small_config (list_to_set (identifiers small_config)) (vm_validate (λ _, true) small_config).2).
    vm_compute. reflexivity. }
  destruct (remove_device (lit "net0") small_config) as [removed vm']. simpl in Hr. subst removed. split; [reflexivity|].
  destruct H as (_ & _ & H). destruct (H Ha) as (_ & _ & Hn). lia.
Defined.

(** *** Restoring *)

Import OptionParser VmConfigParse.

(** What [restore_parse] makes of the descriptors it is given, and a device that can be found again. *)
Definition consistent (n : Restore.RestoredNetConfig) : Prop :=
  Restore.num_fds n = match Restore.fds n with Some f => zlen f | None => 0 end.
Definition named (n : Net.NetConfig) : Prop := is_Some (Net.fds n) → is_Some (Pci.id (Net.pci_common n)).

Lemma insert_loop l m : Forall consistent l →
  returns (foldM restore_insert m l) ∧
  ∀ m', foldM restore_insert m l = Ok m' ↔
    NoDup (Restore.id <$> l) ∧ (∀ n, n ∈ l → m !! Restore.id n = None) ∧ m' = foldl (λ m n, <[Restore.id n := n]> m) m l.
Proof.
  intros Hf. revert m. induction Hf as [|n l Hn Hf IH]; intros m; cbn [foldM fmap list_fmap foldl].
  - split; [done|]. intros m'. rewrite NoDup_nil. split; [intros [= <-]; split; [done|]; split; [by intros ? ?%not_elem_of_nil|done]|by intros (_ & _ & ->)].
  - assert (restore_insert m n = if some (m !! Restore.id n) then Err (IdentifierNotUnique (Restore.id n)) else Ok (<[Restore.id n := n]> m)) as ->
      by (unfold restore_insert; by rewrite (proj2 (Z.eqb_eq _ _) Hn)).
    destruct (m !! Restore.id n) as [o|] eqn:Ho; cbn [some mbind res_bind].
    { split; [done|]. intros m'. split; [done|]. intros (_ & Hm & _). rewrite (Hm n) in Ho by left. done. }
    destruct (IH (<[Restore.id n := n]> m)) as [Hr HIH]. split; [done|]. intros m'. rewrite HIH, NoDup_cons. split.
    + intros (Hnd & Hm & ->). split; [split; [|done]|split; [|done]].
      * intros (x & Hx & Hin)%list_elem_of_fmap. specialize (Hm x Hin). by rewrite <-Hx, lookup_insert_eq in Hm.
      * intros x [->|Hin]%elem_of_cons; [done|]. specialize (Hm x Hin). destruct (decide (Restore.id n = Restore.id x)) as [He|He].
        -- by rewrite He, lookup_insert_eq in Hm.
        -- by rewrite lookup_insert_ne in Hm.
    + intros ([Hnew Hnd] & Hm & ->). split; [done|]. split; [|done]. intros x Hin. rewrite lookup_insert_ne; [apply Hm; by right|].
      intros He. apply Hnew. rewrite He. by apply list_elem_of_fmap_2.
Qed.

Lemma lookup_inserted (l : list Restore.RestoredNetConfig) (m : gmap str Restore.RestoredNetConfig) i r : NoDup (Restore.id <$> l) →
  foldl (λ m n, <[Restore.id n := n]> m) m l !! i = Some r ↔
  r ∈ l ∧ Restore.id r = i ∨ i ∉ Restore.id <$> l ∧ m !! i = Some r.
Proof.
  revert m. induction l as [|n l IH]; intros m; cbn [fmap list_fmap foldl]; [intros _; set_solver|].
  intros [Hnew Hnd]%NoDup_cons. rewrite IH, lookup_insert_Some, elem_of_cons, not_elem_of_cons by done. naive_solver.
Qed.

Lemma match_loop l m : Forall named l → NoDup (omap (λ n, Pci.id (Net.pci_common n)) l) →
  returns (foldM restore_match m l) ∧
  ((∃ m', foldM restore_match m l = Ok m') ↔
     ∀ n fds i, n ∈ l → Net.fds n = Some fds → Pci.id (Net.pci_common n) = Some i →
       ∃ r, m !! i = Some r ∧ Restore.num_fds r = zlen fds).
Proof.
  intros Hf. revert m. induction Hf as [|n l Hn Hf IH]; intros m Hnd; cbn [foldM].
  { split; [done|]. split; [by intros _ ? ? ? ?%not_elem_of_nil|]. intros _. by exists m. }
  assert (NoDup (omap (λ n, Pci.id (Net.pci_common n)) l)) as Hnd'.
  { cbn [omap list_omap] in Hnd. case_match; [by apply NoDup_cons in Hnd as [_ ?]|done]. }
  destruct (Net.fds n) as [fds|] eqn:Hfds.
  2: { assert (restore_match m n = Ok m) as -> by (unfold restore_match; by rewrite Hfds). cbn [mbind res_bind].
       destruct (IH m Hnd') as [Hr HIH]. split; [done|]. rewrite HIH. split; intros Hall n' f i Hin.
       - apply elem_of_cons in Hin as [->|Hin]; [by rewrite Hfds|by apply Hall].
       - intros. by apply (Hall n'); [right|..]. }
  destruct Hn as [i Hi]; [by rewrite Hfds|]. cbn [omap list_omap] in Hnd. rewrite Hi in Hnd. apply NoDup_cons in Hnd as [Hnew _].
  assert (restore_match m n = match m !! i with
    | Some r => _ ← check (negb (Restore.num_fds r =? zlen fds)) (RestoreNetFdCountMismatch i (Restore.num_fds r) (zlen fds)); Ok (delete i m)
    | None => Err (RestoreMissingRequiredNetId i)
    end) as -> by (unfold restore_match; by rewrite Hfds, Hi).
  destruct (m !! i) as [r|] eqn:Hm; cbn [mbind res_bind].
  2: { split; [done|]. split; [by intros [??]|]. intros Hall. destruct (Hall n fds i) as (r & Hr & _); [by left|done..|]. by rewrite Hm in Hr. }
  destruct (Z.eqb_spec (Restore.num_fds r) (zlen fds)) as [He|He]; cbn [negb check mbind res_bind].
  2: { split; [done|]. split; [by intros [??]|]. intros Hall. destruct (Hall n fds i) as (r' & Hr & ?); [by left|done..|]. by simplify_eq. }
  destruct (IH (delete i m) Hnd') as [Hr HIH]. split; [done|]. rewrite HIH. split; intros Hall n' f j Hin Hf' Hj.
  - apply elem_of_cons in Hin as [->|Hin]; [exists r; split; congruence|].
    destruct (Hall n' f j Hin Hf' Hj) as (r' & [? ?]%lookup_delete_Some & ?). by exists r'.
  - destruct (Hall n' f j) as (r' & ? & ?); [by right|done..|]. exists r'. split; [|done]. apply lookup_delete_Some. split; [|done].
    intros <-. apply Hnew, list_elem_of_omap. by exists n'.
Qed.

Lemma net_ids_unique vm : NoDup (identifiers vm) → NoDup (omap (λ n, Pci.id (Net.pci_common n)) (default [] (Vm.net vm))).
Proof.
  intros (_ & _ & (Hnd & _)%NoDup_app)%NoDup_app. unfold pci_devices in Hnd. rewrite omap_app in Hnd. apply NoDup_app in Hnd as (_ & _ & Hnd).
  rewrite omap_app in Hnd. apply NoDup_app in Hnd as (Hnd & _). revert Hnd. generalize (default [] (Vm.net vm)) as l.
  intros l. replace (omap Pci.id (Net.pci_common <$> l)) with (omap (λ n, Pci.id (Net.pci_common n)) l); [done|].
  induction l as [|n l IH]; [done|]. cbn [fmap list_fmap omap list_omap]. by rewrite IH.
Qed.

Lemma restore_parse_consistent s r : restore_parse s = Ok r → Forall consistent (default [] (Restore.net_fds r)).
Proof.
  unfold restore_parse. intros H. repeat (apply bind_ok in H as (? & _ & H)). injection H as <-. cbn [Restore.net_fds].
  match goal with |- context [_ <$> ?o] => destruct o as [l|] end; simpl; [|done]. apply Forall_forall.
  intros n (e & -> & _)%list_elem_of_fmap. unfold consistent, zlen. simpl. by rewrite length_fmap.
Qed.

(** Checking what a VM is restored with against the configuration of the VM accepts
    exactly that no memory is prefaulted on demand, that a template service is only used on
    demand, and that every network device made of descriptors gets as many new ones, under
    different identifiers; where descriptors are counted right and these devices have
    identifiers, the check does not panic. *)
Theorem restore_validate_spec r vm :
  Forall consistent (default [] (Restore.net_fds r)) → Forall named (default [] (Vm.net vm)) → NoDup (identifiers vm) →
  returns (restore_validate r vm) ∧
  (restore_validate r vm = Ok tt ↔
     (Restore.memory_restore_mode r = OnDemand → Restore.prefault r = false) ∧
     (is_Some (Restore.template_socket r) → Restore.memory_restore_mode r = OnDemand) ∧
     NoDup (Restore.id <$> default [] (Restore.net_fds r)) ∧
     ∀ n fds i, n ∈ default [] (Vm.net vm) → Net.fds n = Some fds → Pci.id (Net.pci_common n) = Some i →
       ∃ n', n' ∈ default [] (Restore.net_fds r) ∧ Restore.id n' = i ∧ Restore.num_fds n' = zlen fds).
Proof.
  intros Hc Hn Hids%net_ids_unique. destruct (insert_loop _ ∅ Hc) as [Hr1 Hi].
  assert (∀ m', foldM restore_insert ∅ (default [] (Restore.net_fds r)) = Ok m' → ∀ i n,
            m' !! i = Some n ↔ n ∈ default [] (Restore.net_fds r) ∧ Restore.id n = i) as Hlook.
  { intros m' (Hnd & _ & ->)%Hi i n. rewrite lookup_inserted, lookup_empty by done. naive_solver. }
  split.
  - unfold restore_validate, check. apply returns_bind; [by case_match|]. intros _ _. apply returns_bind; [by case_match|]. intros _ _.
    apply returns_bind; [done|]. intros m' Hm'. apply returns_bind; [|done]. apply (match_loop _ m' Hn Hids).
  - unfold restore_validate. split.
    + intros ([] & Hpre%check_Ok & ([] & Hsock%check_Ok & (m' & Hm' & (m'' & Hm'' & _)%bind_ok)%bind_ok)%bind_ok)%bind_ok.
      split; [|split; [|split]].
      * intros Hmode. rewrite bool_decide_true in Hpre by done. done.
      * intros Hs%some_true. rewrite Hs in Hsock. by apply bool_decide_eq_false, dec_stable in Hsock.
      * by apply Hi in Hm' as (? & _).
      * intros n fds i H1 H2 H3. destruct (match_loop _ m' Hn Hids) as [_ [Hall _]].
        destruct (Hall ltac:(by eexists) n fds i H1 H2 H3) as (n' & [? ?]%(Hlook _ Hm') & ?). by exists n'.
    + intros (Hpre & Hsock & Hnd & Hall).
      rewrite (proj2 (andb_false_iff (bool_decide (Restore.memory_restore_mode r = OnDemand)) _)) by (case_bool_decide; auto).
      assert (some (Restore.template_socket r) && bool_decide (Restore.memory_restore_mode r ≠ OnDemand) = false) as ->.
      { apply andb_false_iff. rewrite bool_decide_eq_false. destruct (Restore.template_socket r); [right; by intros []; apply Hsock|by left]. }
      cbn [check mbind res_bind].
      destruct (foldM restore_insert ∅ (default [] (Restore.net_fds r))) as [m'| | |] eqn:Hm'; [|exfalso..].
      2-4: pose proof (proj2 (Hi _) (conj Hnd (conj (λ n _, lookup_empty (Restore.id n)) eq_refl))); done.
      cbn [mbind res_bind]. destruct (match_loop _ m' Hn Hids) as [_ [_ Hok]]. destruct Hok as [m'' ->]; [|done].
      intros n fds i H1 H2 H3. destruct (Hall n fds i H1 H2 H3) as (n' & ? & ? & ?). exists n'. split; [|done]. by apply (Hlook _ eq_refl).
Qed.

Definition small_restore : Restore.RestoreConfig :=
  Eval vm_compute in
  match restore_parse (lit "source_url=file:///snapshot,memory_restore_mode=ondemand,template_socket=/template,net_fds=[net0@[5]]") as r
    return match r with Ok _ => Restore.RestoreConfig | _ => unit end with Ok c => c | _ => tt end.

Lemma restore_validate_spec_witness :
  restore_validate small_restore small_config = Ok tt ∧ NoDup (Restore.id <$> default [] (Restore.net_fds small_restore)).
Proof.
  assert (restore_validate small_restore small_config = Ok tt) as Hv by (vm_compute; reflexivity).
  split; [exact Hv|]. apply (restore_validate_spec small_restore small_config).
  - repeat constructor.
  - repeat constructor. eexists. reflexivity.
  - apply (bool_decide_unpack _). vm_compute. exact I.
  - exact Hv.
Defined.

(** *** When the check does not panic *)

(** Memory is there, the processors of the topology and the memory can be counted, and so
    can the queues of the network devices. *)
Record countable_vm (vm : Vm.VmConfig) : Prop := {
  cv_memory : Memory.shared (Vm.memory vm) = true ∨ Memory.hugepages (Vm.memory vm) = true ∨
    Memory.size (Vm.memory vm) ≠ 0 ∨ is_Some (Memory.zones (Vm.memory vm));
  cv_topology t : Cpus.topology (Vm.cpus vm) = Some t →
    0 ≤ Cpus.threads_per_core t ∧ 0 ≤ Cpus.cores_per_die t ∧ 0 ≤ Cpus.dies_per_package t ∧ 0 ≤ Cpus.packages t ∧
    Cpus.threads_per_core t * Cpus.cores_per_die t * Cpus.dies_per_package t * Cpus.packages t ≤ U32_MAX;
  cv_ram : 0 ≤ Memory.size (Vm.memory vm) ∧ Forall (λ z, 0 ≤ MemoryZone.size z) (default [] (Memory.zones (Vm.memory vm))) ∧
    ram_size vm ≤ U64_MAX;
  cv_fds : Forall (λ n, ∀ fds, Net.fds n = Some fds → zlen fds * 2 ≤ U64_MAX) (default [] (Vm.net vm)) }.

Definition quiet {A} (m : VM A) : Prop := ∀ vm, countable_vm vm → returns (m vm).1 ∧ countable_vm (m vm).2.

Lemma countable_with_iommu b vm : countable_vm vm → countable_vm (with_iommu b vm).
Proof. by intros [????]. Qed.
Lemma countable_with_payload p vm : countable_vm vm → countable_vm (with_payload p vm).
Proof. by intros [????]. Qed.

Lemma quiet_bind {A B} (m : VM A) (f : A → VM B) : quiet m → (∀ a, quiet (f a)) → quiet (m ≫= f).
Proof.
  intros Hm Hf vm Hvm. destruct (Hm vm Hvm) as [Hr Hg]. unfold mbind, M_bind. destruct (m vm) as [[a|e| |] vm']; cbn [fst snd] in *; try done.
  by apply Hf.
Qed.
Lemma quiet_get {A} (f : Vm.VmConfig → VM A) : (∀ vm, countable_vm vm → quiet (f vm)) → quiet (Prelude.get ≫= f).
Proof. intros Hf vm Hvm. apply (Hf vm Hvm vm Hvm). Qed.
Lemma quiet_verify {A} (f : Vm.VmConfig → res VE A) : (∀ vm, countable_vm vm → returns (f vm)) → quiet (verify f).
Proof. intros Hf vm Hvm. split; [by apply Hf|done]. Qed.
Lemma quiet_lift {A} (r : res VE A) : returns r → quiet (lift r).
Proof. intros Hr vm Hvm. by destruct r. Qed.
Lemma quiet_mret {A} (a : A) : quiet (mret a).
Proof. by intros vm Hvm. Qed.
Lemma quiet_or_iommu b : quiet (or_iommu b).
Proof. intros vm Hvm. split; [done|]. by apply countable_with_iommu. Qed.
Lemma quiet_accum {A B} (f : B → A → VM B) b l : (∀ b x, x ∈ l → quiet (f b x)) → quiet (accum f b l).
Proof.
  revert b. induction l as [|x l IH]; intros b Hf; cbn [accum]; [apply quiet_mret|].
  apply quiet_bind; [apply Hf; by left|]. intros b'. apply IH. intros b'' y Hy. apply Hf. by right.
Qed.

Lemma returns_check b e : returns (check b e).
Proof. by destruct b. Qed.
Lemma returns_shared vm : countable_vm vm → returns (backed_by_shared_memory vm).
Proof.
  intros [Hm _ _ _]. unfold backed_by_shared_memory. destruct (_ || _) eqn:Hs; [done|]. apply orb_false_iff in Hs as [H1 H2].
  destruct (Z.eqb_spec (Memory.size (Vm.memory vm)) 0); [|done]. destruct Hm as [?|[?|[?|[z Hz]]]]; [congruence..|]. by rewrite Hz.
Qed.

Create HintDb calm.
#[local] Hint Resolve returns_check returns_shared quiet_mret quiet_or_iommu : calm.

(** The checks that neither count nor unwrap. *)
Ltac calm :=
  repeat first
    [ progress eauto 2 with calm | apply quiet_verify; intros ? ? | apply quiet_bind; [|intros ?] | apply quiet_lift | apply quiet_accum; intros ? ? ?
    | apply returns_bind; [|intros ? ?] | apply returns_map_err | apply returns_foldM; intros ? ? ? | case_match | done ].

Lemma pci_returns d vm : returns (pci_common_validate d vm).
Proof. unfold pci_common_validate, validate_pci_device_id. calm. Qed.
#[local] Hint Resolve pci_returns : calm.

Lemma identifier_returns ids id : returns (validate_identifier ids id).
Proof. unfold validate_identifier. calm. Qed.
#[local] Hint Resolve identifier_returns : calm.

Lemma quiet_finish valid b id ids : (∀ vm, countable_vm vm → returns (valid vm)) → quiet (finish valid b id ids).
Proof. intros Hv. unfold finish. calm. Qed.

Lemma net_calm n vm : (∀ fds, Net.fds n = Some fds → zlen fds * 2 ≤ U64_MAX) → returns (net_validate n vm).
Proof.
  intros Hf. unfold net_validate. apply returns_bind; [calm|]. intros _ _. apply returns_bind; [calm|]. intros _ _.
  apply returns_bind; [|intros ? _; calm]. destruct (Net.fds n) as [fds|]; [|done]. rewrite umul_ok by (specialize (Hf fds eq_refl); unfold is_u64, zlen, U64_MAX in *; lia). calm.
Qed.

Lemma product_parts a b c d : 0 < a → 0 < b → 0 < c → 0 < d → a * b ≤ a * b * c * d ∧ a * b * c ≤ a * b * c * d.
Proof.
  intros. assert (0 < a * b) by nia. assert (a * b ≤ a * b * c) by nia. assert (a * b * c ≤ a * b * c * d) by nia. lia.
Qed.

Lemma topology_returns vm : countable_vm vm → returns (topology_check vm).
Proof.
  intros [_ Ht _ _]. unfold topology_check. destruct (Cpus.topology (Vm.cpus vm)) as [t|]; [|done].
  destruct (Ht t eq_refl) as (H1 & H2 & H3 & H4 & Hm). apply returns_bind; [calm|]. intros _ Hz%check_Ok.
  rewrite !orb_false_iff, !Z.eqb_neq in Hz. destruct Hz as [[[Hz1 Hz2] Hz3] Hz4]. apply returns_bind; [calm|]. intros _ _.
  assert (∀ x y, x * y ≤ U32_MAX → umul32 (E:=VE) x y = Ok (x * y)) as Hu by (intros x y ?; unfold umul32; by rewrite (proj2 (Z.leb_le _ _))).
  destruct (product_parts (Cpus.threads_per_core t) (Cpus.cores_per_die t) (Cpus.dies_per_package t) (Cpus.packages t)) as [Hab Habc]; [lia..|].
  rewrite Hu by lia. cbn [mbind res_bind]. rewrite Hu by lia. cbn [mbind res_bind]. rewrite Hu by lia. calm.
Qed.

Lemma balloon_calm vm : countable_vm vm → returns (balloon_check vm).
Proof.
  intros [_ _ (H0 & Hz & Hr) _]. unfold balloon_check. destruct (Vm.balloon vm) as [b|]; [|done].
  apply returns_bind; [|intros ? _; calm]. unfold ram_size in Hr. revert H0 Hz Hr. generalize (Memory.size (Vm.memory vm)) as n.
  generalize (default [] (Memory.zones (Vm.memory vm))) as l. induction l as [|z l IH]; intros n Hn Hz Hr; [done|]. cbn [foldM].
  apply Forall_cons in Hz as [Hz Hl]. cbn [foldr] in Hr.
  assert (∀ k, foldr (λ z n, MemoryZone.size z + n) (n + k) l = foldr (λ z n, MemoryZone.size z + n) n l + k) as Hsh.
  { intros k. clear. induction l as [|y l IH]; cbn [foldr]; lia. }
  assert (n ≤ foldr (λ z n, MemoryZone.size z + n) n l).
  { clear -Hl. induction Hl; cbn [foldr]; lia. }
  rewrite uadd_ok by (unfold is_u64, U64_MAX in *; lia). cbn [mbind res_bind]. apply IH; [lia|done|]. rewrite Hsh. lia.
Qed.
#[local] Hint Resolve topology_returns balloon_calm : calm.

Lemma quiet_payload : quiet payload_step.
Proof.
  apply quiet_get. intros vm _. destruct (Vm.payload vm) as [p|]; [|by intros ?].
  apply quiet_bind; [apply quiet_lift, returns_map_err; unfold payload_validate; calm|].
  intros p' vm' Hvm'. split; [done|]. by apply countable_with_payload.
Qed.

Lemma shared_disk_returns (b : bool) e vm : countable_vm vm →
  returns (if b then c ← backed_by_shared_memory vm; check (negb c) e else Ok tt).
Proof. intros. calm. Qed.
#[local] Hint Resolve shared_disk_returns : calm.

Lemma quiet_disk ids d : quiet (disk_step ids d).
Proof. unfold disk_step. calm. Qed.
Lemma quiet_net ids n : (∀ fds, Net.fds n = Some fds → zlen fds * 2 ≤ U64_MAX) → quiet (net_step ids n).
Proof. intros Hf. unfold net_step. apply quiet_bind; [calm|intros _]. apply quiet_finish. intros. by apply net_calm. Qed.
Lemma quiet_device st d : quiet (device_step st d).
Proof. unfold device_step. destruct st as [paths ids]. calm. Qed.
Lemma quiet_needs_shared {A} (l : list A) e : quiet (needs_shared l e).
Proof. unfold needs_shared. calm. Qed.
#[local] Hint Resolve quiet_disk quiet_device quiet_needs_shared : calm.

(** C20: the check of a configuration returns, with the identifiers or an error, whenever the
    memory is not of size zero without zones, the processors of the topology are at most
    2^32, the memory is at most 2^64 bytes. *)
Theorem vm_validate_returns ex vm : countable_vm vm → returns (vm_validate ex vm).1.
Proof.
  intros Hvm. enough (quiet (vm_validate ex)) as Hq by apply (Hq vm Hvm). unfold vm_validate.
  apply quiet_bind; [apply quiet_payload|intros _]. apply quiet_bind; [unfold first_checks; calm|intros _].
  apply quiet_get. clear Hvm vm. intros vm Hvm.
  do 2 (apply quiet_bind; [calm|intros ?]).
  apply quiet_bind; [|intros ?; unfold hugepage_check, vsock_cid_check, numa_check, numa_step, numa_validate, numa_zone; calm].
  apply quiet_accum. intros ? n Hn. by apply quiet_net, (proj1 (Forall_forall _ _) (cv_fds vm Hvm)).
Qed.

Lemma vm_validate_returns_witness : countable_vm small_config ∧ returns (vm_validate (λ _, true) small_config).1.
Proof.
  assert (countable_vm small_config) as Hc; [|split; [exact Hc|apply (vm_validate_returns (λ _, true) small_config Hc)]].
  split.
  - by left.
  - intros t [= <-]. vm_compute. repeat split; discriminate.
  - vm_compute. repeat split; try discriminate. constructor.
  - repeat constructor. intros fds [= <-]. vm_compute. discriminate.
Defined.

End VmConfigCheck.
