(* ===== verification/MigrationConfig.v ===== *)
(** * The parameters of a migration

    Model of [VmSendMigrationData::parse] and [TimeoutStrategy::from_str] in
    [vmm/src/api/mod.rs]: the string that the sender of a migration is given.  The
    check of the parameters is [MigrationSender.validate]. *)

From S2P Require Import Prelude RustStr OptionParser VmConfig VmConfigParse Precopy MigrationSender.
Import OptionParser VmConfigParse.

Module MigrationConfig.

Inductive VmSendMigrationConfigError := ParseError (e : OptionParserError) | ValidationError_ (msg : string).

Definition timeout_strategy_from_str : str → res str Precopy.TimeoutStrategy :=
  one_of [("cancel", Precopy.Cancel); ("ignore", Precopy.Ignore)] true.

Definition DEFAULT_DOWNTIME_MS : Z := 300.
Definition DEFAULT_TIMEOUT_S : Z := 60 * 60.
Definition DEFAULT_CONNECTIONS : Z := 1.

(** [NonZeroU64::new(v).ok_or_else(..)], or the default. *)
Definition non_zero (name : string) (d : Z) (o : option Z) : res VmSendMigrationConfigError Z :=
  match o with
  | Some v => if v =? 0 then Err (ParseError (InvalidValue (lit name ++ lit " must be non-zero"))) else Ok v
  | None => Ok d
  end.

Definition parse (migration : str) : res VmSendMigrationConfigError Precopy.VmSendMigrationData :=
  let E := ParseError in
  p ← map_err E (open_parser false [] ["destination_url"; "local"; "downtime_ms"; "timeout_s"; "timeout_strategy"; "connections"] migration);
  destination_url ← text p "destination_url";
  destination_url ← required (ParseError (InvalidSyntax (lit "destination_url is required"))) destination_url;
  local ← toggle E p "local" false;
  downtime_ms ← uint E p 64 "downtime_ms"; downtime_ms ← non_zero "downtime_ms" DEFAULT_DOWNTIME_MS downtime_ms;
  timeout_s ← uint E p 64 "timeout_s"; timeout_s ← non_zero "timeout_s" DEFAULT_TIMEOUT_S timeout_s;
  timeout_strategy ← conv E p (of_from_str timeout_strategy_from_str) "timeout_strategy";
  connections ← uint E p 32 "connections"; connections ← non_zero "connections" DEFAULT_CONNECTIONS connections;
  let data := {| Precopy.destination_url := destination_url; Precopy.local := local; Precopy.downtime_ms := downtime_ms;
                 Precopy.timeout_s := timeout_s; Precopy.timeout_strategy := default Precopy.Cancel timeout_strategy;
                 Precopy.connections := connections |} in
  _ ← map_err ValidationError_ (MigrationSender.validate data);
  Ok data.

(** ** What parsed parameters satisfy *)

Record valid_parameters (d : Precopy.VmSendMigrationData) : Prop := {
  vp_connections : 1 ≤ Precopy.connections d ≤ MigrationSender.MAX_MIGRATION_CONNECTIONS;
  vp_downtime : 1 ≤ Precopy.downtime_ms d < 2 ^ 64;
  vp_timeout : 1 ≤ Precopy.timeout_s d < 2 ^ 64;
  vp_url : ∃ rest, rest ≠ [] ∧ (Precopy.destination_url d = lit "tcp:" ++ rest ∨
    Precopy.destination_url d = lit "unix:" ++ rest ∧ Precopy.connections d = 1);
  vp_local : Precopy.local d = true → ∃ rest, Precopy.destination_url d = lit "unix:" ++ rest }.

Lemma strip_prefix_Some p s rest : MigrationSender.strip_prefix p s = Some rest ↔ s = p ++ rest.
Proof.
  revert s. induction p as [|c p IH]; intros s; simpl; [naive_solver|]. destruct s as [|d s]; [naive_solver|].
  destruct (Z.eqb_spec c d) as [->|]; [rewrite IH; naive_solver|naive_solver].
Qed.

Lemma has_rest_true p url : MigrationSender.has_rest p url = true → ∃ rest, rest ≠ [] ∧ url = lit p ++ rest.
Proof.
  unfold MigrationSender.has_rest. destruct (MigrationSender.strip_prefix _ _) as [rest|] eqn:Hs; [|done].
  intros Hr%negb_true_iff%bool_decide_eq_false. exists rest. split; [done|]. by apply strip_prefix_Some.
Qed.

Lemma non_zero_Ok name w d o n : non_zero name d o = Ok n → opt (u w) o → 1 ≤ d < 2 ^ w → 1 ≤ n < 2 ^ w.
Proof.
  destruct o as [v|]; simpl; [|by intros [= <-]]. destruct (Z.eqb_spec v 0); [done|]. intros [= <-] [??] _. lia.
Qed.

Lemma validate_returns d : returns (MigrationSender.validate d).
Proof.
  unfold MigrationSender.validate. apply returns_bind; [by repeat case_match|]. intros _ _.
  apply returns_bind; [by case_match|]. intros _ _. by repeat case_match.
Qed.

Lemma validate_Ok d : MigrationSender.validate d = Ok tt → 1 ≤ Precopy.connections d →
  Precopy.connections d ≤ MigrationSender.MAX_MIGRATION_CONNECTIONS ∧
  (∃ rest, rest ≠ [] ∧ (Precopy.destination_url d = lit "tcp:" ++ rest ∨
     Precopy.destination_url d = lit "unix:" ++ rest ∧ Precopy.connections d = 1)) ∧
  (Precopy.local d = true → ∃ rest, Precopy.destination_url d = lit "unix:" ++ rest).
Proof.
  intros H Hc. unfold MigrationSender.validate in H. apply bind_ok in H as ([] & Hurl & H). apply bind_ok in H as ([] & Hmax & Hloc).
  split; [by destruct (Z.ltb_spec MigrationSender.MAX_MIGRATION_CONNECTIONS (Precopy.connections d))|]. split.
  - destruct (MigrationSender.has_rest "tcp:" _) eqn:Ht; [apply has_rest_true in Ht as (rest & ? & ->); exists rest; auto|].
    destruct (MigrationSender.has_rest "unix:" _) eqn:Hu; [|done]. apply has_rest_true in Hu as (rest & ? & ->). exists rest. split; [done|].
    right. split; [done|]. destruct (Z.ltb_spec 1 (Precopy.connections d)); [done|lia].
  - intros Hl. rewrite Hl in Hloc. destruct (MigrationSender.starts_with "unix:" _) eqn:Hs; [|done].
    unfold MigrationSender.starts_with in Hs. destruct (MigrationSender.strip_prefix _ _) as [rest|] eqn:Hp; [|done].
    exists rest. by apply strip_prefix_Some.
Qed.

(** The parameters of a migration are parsed without a panic, whatever the string, and
    the result can be used: it passes the check of the sender, has between one and 128
    connections, a downtime and a timeout that are not zero, and a destination that is TCP,
    or a UNIX socket over one connection, which a local migration has. *)
Theorem send_parameters_valid migration :
  returns (parse migration) ∧
  ∀ d, parse migration = Ok d → MigrationSender.validate d = Ok tt ∧ valid_parameters d.
Proof.
  split.
  - unfold parse. parsing; try (unfold non_zero; by repeat case_match).
    apply validate_returns.
  - intros d H. unfold parse in H. invert_parse. typed_facts.
    match goal with H : map_err _ (MigrationSender.validate _) = Ok ?x |- _ => destruct x; apply map_err_Ok in H; rename H into Hv end.
    split; [done|].
    repeat match goal with
    | H : non_zero ?n ?d ?o = Ok _, Ho : opt (u ?w) ?o |- _ => apply (non_zero_Ok n w) in H; [|done|unfold DEFAULT_DOWNTIME_MS, DEFAULT_TIMEOUT_S, DEFAULT_CONNECTIONS; lia]; clear Ho
    end.
    destruct (validate_Ok _ Hv) as (? & ? & ?); [simpl; lia|]. cbn [Precopy.connections Precopy.destination_url Precopy.local] in *. split; cbn; (done || lia).
Qed.

End MigrationConfig.
