(* ===== verification/RemoteController.v ===== *)
(** * The remote sandbox controller

    Model of [src/remote-controller/main.go]: the table of sandboxes behind a mutex, the
    gRPC handlers that run on it at the same time, and [listen].  A handler is a sequence
    of critical sections; the section between [Lock] and [Unlock] is one step, and so are
    the operations that synchronize otherwise: [stopOnce.Do], [close], the [select] of
    [Wait], and the read of [rec.pid] after [Unlock].  Records live on a heap, since a
    handler keeps its pointer while the table changes.  [lifecycle_linearizable] says that
    the handlers other than [Shutdown] take effect one at a time, as the functions of
    [spec] do; two overlapping calls of [Shutdown] can remove a sandbox that was created
    after the first. *)

From S2P Require Import Prelude RustStr.

Module RemoteController.

(** ** Requests and replies

    The getters of the messages return the zero value where a field is absent. *)

(** [Sandbox.runtime], of which only the name is read. *)
Record Sandbox := { Runtime : option str }.

Record CreateRequest := {
  SandboxID : str; Sandboxer : str; NetnsPath : str;
  (** the lengths of the lists [rootfs] and [annotations] *)
  Rootfs : nat; Annotations : nat;
  CreateSandbox : option Sandbox }.

Inductive rpc :=
| Create (req : CreateRequest)
| Start (id : str)
| Platform (id : str)
| Stop (id : str)
| Wait (id : str)
| Status (id : str) (verbose : bool)
| Shutdown (id : str)
| Metrics (id : str)
| Update (id : str) (fields : list str).

(** [codes.Code] with the arguments of the message; [ctx.Err()]. *)
Inductive ctx_error := Canceled | DeadlineExceeded.
Inductive error :=
| InvalidArgument
| AlreadyExists (id : str)
| NotFound (id : str)
| Context (e : ctx_error).

(** Times are nanoseconds since the zero time of the package [time].  [nil] maps are
    [None]. *)
Inductive reply :=
| Failed (e : error)
| CreateResponse (id : str)
| StartResponse (id : str) (pid created_at : Z) (labels : option (gmap str str))
| PlatformResponse (os architecture : str)
| StopResponse
| WaitResponse (exit_status exited_at : Z)
| StatusResponse (id : str) (pid : Z) (state : str) (info : option (gmap str str)) (created_at exited_at : Z)
| ShutdownResponse
| MetricsResponse
| UpdateResponse.

(** ** The table *)

Definition stateReady : str := lit "SANDBOX_READY".
Definition stateNotReady : str := lit "SANDBOX_NOTREADY".

(** [sync.Once]: not called, the function running in a handler, returned. *)
Inductive once := Fresh | Running (t : nat) | Returned.

(** [stopped] says whether the channel is closed. *)
Record sandboxRecord := {
  id : str; sandboxer : str; pid : Z; state : str; info : gmap str str; labels : gmap str str;
  createdAt : Z; exitedAt : Z; exitStatus : Z; stopped : bool; stopOnce : once }.

Record controllerServer := { sandboxes : gmap str nat; records : list sandboxRecord }.

Definition newControllerServer : controllerServer := {| sandboxes := ∅; records := [] |}.

Definition update_record (p : nat) (f : sandboxRecord → sandboxRecord) (c : controllerServer) : controllerServer :=
  {| sandboxes := sandboxes c; records := alter f p (records c) |}.

Definition set_started (pid' now : Z) (r : sandboxRecord) : sandboxRecord :=
  {| id := id r; sandboxer := sandboxer r; pid := pid'; state := stateReady; info := info r; labels := labels r;
     createdAt := if createdAt r =? 0 then now else createdAt r;
     exitedAt := exitedAt r; exitStatus := exitStatus r; stopped := stopped r; stopOnce := stopOnce r |}.
Definition set_exited (status now : Z) (r : sandboxRecord) : sandboxRecord :=
  {| id := id r; sandboxer := sandboxer r; pid := pid r; state := stateNotReady; info := info r; labels := labels r;
     createdAt := createdAt r; exitedAt := now; exitStatus := status; stopped := stopped r; stopOnce := stopOnce r |}.
Definition set_once (o : once) (r : sandboxRecord) : sandboxRecord :=
  {| id := id r; sandboxer := sandboxer r; pid := pid r; state := state r; info := info r; labels := labels r;
     createdAt := createdAt r; exitedAt := exitedAt r; exitStatus := exitStatus r; stopped := stopped r; stopOnce := o |}.
Definition set_closed (r : sandboxRecord) : sandboxRecord :=
  {| id := id r; sandboxer := sandboxer r; pid := pid r; state := state r; info := info r; labels := labels r;
     createdAt := createdAt r; exitedAt := exitedAt r; exitStatus := exitStatus r; stopped := true; stopOnce := stopOnce r |}.
Definition set_info (k v : str) (r : sandboxRecord) : sandboxRecord :=
  {| id := id r; sandboxer := sandboxer r; pid := pid r; state := state r; info := <[k := v]> (info r); labels := labels r;
     createdAt := createdAt r; exitedAt := exitedAt r; exitStatus := exitStatus r; stopped := stopped r; stopOnce := stopOnce r |}.

Definition cloneMap (m : gmap str str) : option (gmap str str) := if decide (m = ∅) then None else Some m.

Definition runtimeArch (goarch : str) : str := if decide (goarch = []) then lit "amd64" else goarch.

(** [fmt.Sprintf("%v", fields)] *)
Definition sprint_list (l : list str) : str := lit "[" ++ join 32 l ++ lit "]".

Definition lookup_record (key : str) (c : controllerServer) : error + nat :=
  if decide (key = []) then inl InvalidArgument
  else match sandboxes c !! key with None => inl (NotFound key) | Some p => inr p end.

(** ** The listening socket *)

Definition has_scheme (scheme address : str) : bool :=
  (zlen scheme <? zlen address) && bool_decide (take (length scheme) address = scheme).
Definition hasTCPScheme (address : str) : bool := has_scheme (lit "tcp://") address.

(** [filepath.Clean]: empty elements and [.] go, [..] takes the element before it. *)
Fixpoint clean_elements (rooted : bool) (out : list str) (l : list str) : list str :=
  match l with
  | [] => reverse out
  | e :: l' =>
      if decide (e = [] ∨ e = lit ".") then clean_elements rooted out l'
      else if decide (e = lit "..") then
        match out with
        | o :: out' => if decide (o = lit "..") then clean_elements rooted (e :: out) l' else clean_elements rooted out' l'
        | [] => clean_elements rooted (if rooted then [] else [e]) l'
        end
      else clean_elements rooted (e :: out) l'
  end.
Definition filepath_Clean (path : str) : str :=
  let rooted := bool_decide (head path = Some 47) in
  let body := join 47 (clean_elements rooted [] (split 47 path)) in
  if rooted then 47 :: body else if decide (body = []) then lit "." else body.
Definition filepath_Dir (path : str) : str :=
  filepath_Clean (reverse (trim_start_matches (λ c, negb (c =? 47)) (reverse path))).

Section listen.
Context {W E L : Type}.
(** [Remove] says whether its error is [os.ErrNotExist]. *)
Context (MkdirAll : str → W → option E * W) (Remove : str → W → option (E * bool) * W).
Context (Listen : str → str → W → (E + L) * W).

Inductive listen_error := AddressRequired | OsError (e : E).

(** The listener, and the path that the returned function removes. *)
Definition listen (address : str) (w : W) : (listen_error + L * option str) * W :=
  if decide (address = []) then (inl AddressRequired, w)
  else if hasTCPScheme address then
    let '(r, w1) := Listen (lit "tcp") (drop 6 address) w in
    (match r with inl e => inl (OsError e) | inr l => inr (l, None) end, w1)
  else
    let path := if has_scheme (lit "unix://") address then drop 7 address else address in
    let '(r1, w1) := MkdirAll (filepath_Dir path) w in
    match r1 with
    | Some e => (inl (OsError e), w1)
    | None =>
        let '(r2, w2) := Remove path w1 in
        match r2 with
        | Some (e, false) => (inl (OsError e), w2)
        | _ =>
            let '(r3, w3) := Listen (lit "unix") path w2 in
            (match r3 with inl e => inl (OsError e) | inr l => inr (l, Some path) end, w3)
        end
    end.

(** A path may be given with the scheme [unix://] or without it. *)
Lemma listen_unix path w :
  path ≠ [] → hasTCPScheme path = false → has_scheme (lit "unix://") path = false →
  listen (lit "unix://" ++ path) w = listen path w.
Proof.
  intros Hne Ht Hu. unfold listen. rewrite Ht, Hu, !decide_False by (try done; by intros [? ?]%app_nil).
  assert (hasTCPScheme (lit "unix://" ++ path) = false) as ->.
  { unfold hasTCPScheme, has_scheme. apply andb_false_iff. right. by rewrite bool_decide_false. }
  assert (has_scheme (lit "unix://") (lit "unix://" ++ path) = true) as ->; [|done].
  unfold has_scheme. rewrite bool_decide_true, andb_true_r by done. apply Z.ltb_lt.
  unfold zlen. rewrite length_app. destruct path; [done|]. simpl. lia.
Qed.
End listen.

(** ** Handlers

    Where a handler is: at its start, holding the pointer that [get] returned, in
    [Start] after [Unlock], in the function of [stopOnce], in [Shutdown] after
    [stopRecord], in [Wait] after the [select], at its end. *)
Inductive local :=
| Entry
| Have (p : nat)
| StartUnlocked (p : nat) (created_at : Z) (labels : option (gmap str str))
| OnceLock (p : nat)
| OnceClose (p : nat)
| OnceReturn (p : nat)
| Deleting (p : nat)
| Woken (p : nat)
| Done (r : reply).

(** A step: the handler waits, the process panics, or the handler goes on. *)
Inductive outcome := Blocked | Crash | Go (l : local) (c : controllerServer).

(** A pointer comes from the table or from [Create], so it is never nil. *)
Definition with_record (p : nat) (c : controllerServer) (k : sandboxRecord → outcome) : outcome :=
  match records c !! p with Some r => k r | None => Crash end.

Section handlers.
Context (goarch : str) (getpid : Z).

Definition new_record (req : CreateRequest) : sandboxRecord :=
  {| id := SandboxID req; sandboxer := Sandboxer req; pid := 0; state := stateNotReady;
     info :=
       let m : gmap str str :=
         list_to_map [(lit "sandboxer", Sandboxer req); (lit "netns_path", NetnsPath req);
                      (lit "rootfs", show_u64 (Z.of_nat (Rootfs req)) ++ lit " mount(s)");
                      (lit "annotations", show_u64 (Z.of_nat (Annotations req)) ++ lit " item(s)")] in
       match CreateSandbox req with
       | Some sb => <[lit "sandbox_runtime" := default [] (Runtime sb)]> m
       | None => m
       end;
     labels := {[ lit "oci_runtime_type" := lit "remote-controller-demo" ]};
     createdAt := 0; exitedAt := 0; exitStatus := 0; stopped := false; stopOnce := Fresh |}.

Definition create (req : CreateRequest) (c : controllerServer) : outcome :=
  if decide (SandboxID req = []) then Go (Done (Failed InvalidArgument)) c
  else match sandboxes c !! SandboxID req with
  | Some _ => Go (Done (Failed (AlreadyExists (SandboxID req)))) c
  | None =>
      Go (Done (CreateResponse (SandboxID req)))
         {| sandboxes := <[SandboxID req := length (records c)]> (sandboxes c);
            records := records c ++ [new_record req] |}
  end.

Definition get (key : str) (c : controllerServer) : outcome :=
  match lookup_record key c with
  | inl e => Go (Done (Failed e)) c
  | inr p => Go (Have p) c
  end.

Definition start (now : Z) (key : str) (l : local) (c : controllerServer) : outcome :=
  match l with
  | Entry => get key c
  | Have p =>
      with_record p c (λ r,
        let r' := set_started (getpid mod 2 ^ 32) now r in
        Go (StartUnlocked p (createdAt r') (cloneMap (labels r'))) (update_record p (set_started (getpid mod 2 ^ 32) now) c))
  | StartUnlocked p at_ ls => with_record p c (λ r, Go (Done (StartResponse (id r) (pid r) at_ ls)) c)
  | _ => Blocked
  end.

Definition platform (key : str) (l : local) (c : controllerServer) : outcome :=
  match l with
  | Entry => get key c
  | Have _ => Go (Done (PlatformResponse (lit "linux") (runtimeArch goarch))) c
  | _ => Blocked
  end.

(** [stopRecord] in handler [t], which goes on at [next]: the first caller of [Do] runs
    the function, the others wait for it to return.  Closing a closed channel panics. *)
Definition stopRecord (t : nat) (now status : Z) (next : nat → local) (l : local) (c : controllerServer) : outcome :=
  match l with
  | Have p =>
      with_record p c (λ r,
        match stopOnce r with
        | Fresh => Go (OnceLock p) (update_record p (set_once (Running t)) c)
        | Running _ => Blocked
        | Returned => Go (next p) c
        end)
  | OnceLock p => with_record p c (λ _, Go (OnceClose p) (update_record p (set_exited status now) c))
  | OnceClose p =>
      with_record p c (λ r, if stopped r then Crash else Go (OnceReturn p) (update_record p set_closed c))
  | OnceReturn p => with_record p c (λ _, Go (next p) (update_record p (set_once Returned) c))
  | _ => Blocked
  end.

Definition stop (t : nat) (now : Z) (key : str) (l : local) (c : controllerServer) : outcome :=
  match l with
  | Entry => get key c
  | _ => stopRecord t now 0 (λ _, Done StopResponse) l c
  end.

(** The [select] takes any branch that is ready; [cancel] chooses the second one. *)
Definition wait (ctx : option ctx_error) (cancel : bool) (key : str) (l : local) (c : controllerServer) : outcome :=
  match l with
  | Entry => get key c
  | Have p =>
      with_record p c (λ r,
        if cancel then match ctx with Some e => Go (Done (Failed (Context e))) c | None => Blocked end
        else if stopped r then Go (Woken p) c else Blocked)
  | Woken p => with_record p c (λ r, Go (Done (WaitResponse (exitStatus r) (exitedAt r))) c)
  | _ => Blocked
  end.

Definition status (key : str) (verbose : bool) (l : local) (c : controllerServer) : outcome :=
  match l with
  | Entry => get key c
  | Have p =>
      with_record p c (λ r,
        Go (Done (StatusResponse (id r) (pid r) (state r) (if verbose then cloneMap (info r) else None)
                    (createdAt r) (exitedAt r))) c)
  | _ => Blocked
  end.

Definition shutdown (t : nat) (now : Z) (key : str) (l : local) (c : controllerServer) : outcome :=
  match l with
  | Entry => get key c
  | Deleting p =>
      with_record p c (λ r,
        Go (Done ShutdownResponse) {| sandboxes := delete (id r) (sandboxes c); records := records c |})
  | _ => stopRecord t now 0 Deleting l c
  end.

Definition metrics (key : str) (l : local) (c : controllerServer) : outcome :=
  match l with
  | Entry => get key c
  | Have _ => Go (Done MetricsResponse) c
  | _ => Blocked
  end.

Definition update (key : str) (fields : list str) (l : local) (c : controllerServer) : outcome :=
  match l with
  | Entry => get key c
  | Have p =>
      with_record p c (λ _,
        Go (Done UpdateResponse) (update_record p (set_info (lit "updated_fields") (sprint_list fields)) c))
  | _ => Blocked
  end.

(** ** The server: a handler per call *)
Record handler := { call : rpc; at_ : local; ctx : option ctx_error }.
Record server := { controller : controllerServer; handlers : list handler }.

Definition handle (t : nat) (now : Z) (cancel : bool) (h : handler) (c : controllerServer) : outcome :=
  match call h with
  | Create req => match at_ h with Entry => create req c | _ => Blocked end
  | Start key => start now key (at_ h) c
  | Platform key => platform key (at_ h) c
  | Stop key => stop t now key (at_ h) c
  | Wait key => wait (ctx h) cancel key (at_ h) c
  | Status key v => status key v (at_ h) c
  | Shutdown key => shutdown t now key (at_ h) c
  | Metrics key => metrics key (at_ h) c
  | Update key fs => update key fs (at_ h) c
  end.

(** A call arrives, its context ends, or handler [t] takes a step. *)
Inductive label :=
| Arrive (r : rpc)
| Cancel (t : nat) (e : ctx_error)
| Run (t : nat) (now : Z) (cancel : bool).

(** [inl true] is a panic, [inl false] a step that is not possible. *)
Definition step (a : label) (s : server) : bool + server :=
  match a with
  | Arrive r => inr {| controller := controller s; handlers := handlers s ++ [{| call := r; at_ := Entry; ctx := None |}] |}
  | Cancel t e =>
      match handlers s !! t with
      | Some h =>
          let e' := match ctx h with Some e0 => e0 | None => e end in
          inr {| controller := controller s; handlers := <[t := {| call := call h; at_ := at_ h; ctx := Some e' |}]> (handlers s) |}
      | None => inl false
      end
  | Run t now cancel =>
      match handlers s !! t with
      | Some h =>
          match handle t now cancel h (controller s) with
          | Blocked => inl false
          | Crash => inl true
          | Go l c => inr {| controller := c; handlers := <[t := {| call := call h; at_ := l; ctx := ctx h |}]> (handlers s) |}
          end
      | None => inl false
      end
  end.

Definition new_server : server := {| controller := newControllerServer; handlers := [] |}.

Inductive reach : server → Prop :=
| reach_new : reach new_server
| reach_step a s s' : reach s → step a s = inr s' → reach s'.

Fixpoint exec (l : list label) (s : server) : option server :=
  match l with
  | [] => Some s
  | a :: l' => match step a s with inr s' => exec l' s' | inl _ => None end
  end.

(** ** The invariant of a server *)

(** The record a handler holds, and the one whose [stopOnce] it runs. *)
Definition in_once (l : local) : option nat :=
  match l with OnceLock p | OnceClose p | OnceReturn p => Some p | _ => None end.
Definition pointer (l : local) : option nat :=
  match l with
  | Have p | StartUnlocked p _ _ | OnceLock p | OnceClose p | OnceReturn p | Deleting p | Woken p => Some p
  | Entry | Done _ => None
  end.
Definition at_return (l : local) : bool := match l with OnceReturn _ => true | _ => false end.

(** The channel is closed once, by the handler that runs [stopOnce]. *)
Definition record_ok (hs : list handler) (p : nat) (r : sandboxRecord) : Prop :=
  exitStatus r = 0 ∧
  match stopOnce r with
  | Fresh => stopped r = false
  | Running t => ∃ h, hs !! t = Some h ∧ in_once (at_ h) = Some p ∧ stopped r = at_return (at_ h)
  | Returned => stopped r = true
  end.

Definition handler_ok (c : controllerServer) (t : nat) (h : handler) : Prop :=
  ∀ p, pointer (at_ h) = Some p →
    ∃ r, records c !! p = Some r ∧ (in_once (at_ h) = Some p → stopOnce r = Running t).

Record inv (c : controllerServer) (hs : list handler) : Prop := {
  inv_table key p : sandboxes c !! key = Some p → key ≠ [] ∧ ∃ r, records c !! p = Some r ∧ id r = key;
  inv_record p r : records c !! p = Some r → record_ok hs p r;
  inv_handler t h : hs !! t = Some h → handler_ok c t h }.

Lemma in_once_pointer l p : in_once l = Some p → pointer l = Some p.
Proof. by destruct l. Qed.

(** A record does not change with the handlers that do not run its [stopOnce]. *)
Lemma record_ok_frame hs t h h' p r :
  hs !! t = Some h → record_ok hs p r → in_once (at_ h) ≠ Some p → record_ok (<[t := h']> hs) p r.
Proof.
  intros Ht [He Hr] Hn. split; [done|]. destruct (stopOnce r) as [|t'|]; try done.
  destruct Hr as (h1 & H1 & Ho & Hs). exists h1. split; [|done].
  rewrite list_lookup_insert_ne; [done|]. intros ->. by simplify_eq.
Qed.

(** A step of handler [t] that leaves the table and the records alone. *)
Lemma inv_move c hs t h h' :
  inv c hs → hs !! t = Some h → in_once (at_ h) = None → in_once (at_ h') = None →
  (∀ p, pointer (at_ h') = Some p → is_Some (records c !! p)) →
  inv c (<[t := h']> hs).
Proof.
  intros [It Ir Ih] Ht Ho Ho' Hp. split; [done| |].
  - intros p r Hr. eapply record_ok_frame; eauto. by rewrite Ho.
  - intros t' h1 H1. destruct (decide (t' = t)) as [->|Hne].
    + rewrite list_lookup_insert_eq in H1 by eauto using lookup_lt_Some. simplify_eq.
      intros p Hp'. destruct (Hp p Hp') as [r Hr]. exists r. split; [done|]. by rewrite Ho'.
    + rewrite list_lookup_insert_ne in H1 by done. by apply Ih.
Qed.

(** A step of handler [t] on its record [p]. *)
Lemma inv_updated c hs t h h' p r f :
  inv c hs → hs !! t = Some h → records c !! p = Some r → id (f r) = id r →
  (∀ q, in_once (at_ h) = Some q → q = p) →
  (stopOnce (f r) = stopOnce r ∨ ∀ t', stopOnce r = Running t' → t' = t) →
  (∀ q, pointer (at_ h') = Some q → q = p) →
  (in_once (at_ h') = Some p → stopOnce (f r) = Running t) →
  record_ok (<[t := h']> hs) p (f r) →
  inv (update_record p f c) (<[t := h']> hs).
Proof.
  intros [It Ir Ih] Ht Hr Hid Hq Ho Hp Ho' Hok. split; simpl.
  - intros key q Hk. destruct (It _ _ Hk) as (Hne & r1 & Hr1 & Hi). split; [done|].
    destruct (decide (q = p)) as [->|?].
    + exists (f r1). rewrite list_lookup_alter_eq, Hr1. simplify_eq. by split.
    + exists r1. by rewrite list_lookup_alter_ne.
  - intros q r1 Hr1. destruct (decide (q = p)) as [->|?].
    + rewrite list_lookup_alter_eq, Hr in Hr1. by simplify_eq/=.
    + rewrite list_lookup_alter_ne in Hr1 by done. eapply record_ok_frame; eauto.
  - intros t' h1 H1 q Hp1. destruct (decide (t' = t)) as [->|Hne].
    + rewrite list_lookup_insert_eq in H1 by eauto using lookup_lt_Some. simplify_eq.
      simpl. apply Hp in Hp1 as ->. exists (f r). by rewrite list_lookup_alter_eq, Hr.
    + rewrite list_lookup_insert_ne in H1 by done.
      destruct (Ih _ _ H1 q Hp1) as (r1 & Hr1 & Hs). simpl. destruct (decide (q = p)) as [->|?].
      * simplify_eq. exists (f r). rewrite list_lookup_alter_eq, Hr. split; [done|].
        intros Hi. specialize (Hs Hi). destruct Ho as [->|Ho]; [done|]. by apply Ho in Hs.
      * exists r1. by rewrite list_lookup_alter_ne.
Qed.

Lemma inv_create req c hs t h :
  inv c hs → hs !! t = Some h → in_once (at_ h) = None → SandboxID req ≠ [] → sandboxes c !! SandboxID req = None →
  inv {| sandboxes := <[SandboxID req := length (records c)]> (sandboxes c); records := records c ++ [new_record req] |}
      (<[t := {| call := call h; at_ := Done (CreateResponse (SandboxID req)); ctx := ctx h |}]> hs).
Proof.
  intros [It Ir Ih] Ht Ho Hne Hn. split; simpl.
  - intros key p [[<- <-]|[? Hk]]%lookup_insert_Some.
    + split; [done|]. exists (new_record req). by rewrite lookup_app_r, Nat.sub_diag by done.
    + destruct (It _ _ Hk) as (? & r & Hr & ?). split; [done|]. exists r. by rewrite lookup_app_l by eauto using lookup_lt_Some.
  - intros p r [Hr|[? Hr]]%lookup_app_Some.
    + eapply record_ok_frame; eauto. by rewrite Ho.
    + apply list_lookup_singleton_Some in Hr as [_ <-]. by split.
  - intros t' h1 H1 p Hp. destruct (decide (t' = t)) as [->|?].
    + rewrite list_lookup_insert_eq in H1 by eauto using lookup_lt_Some. by simplify_eq.
    + rewrite list_lookup_insert_ne in H1 by done. destruct (Ih _ _ H1 p Hp) as (r & Hr & ?).
      exists r. simpl. by rewrite lookup_app_l by eauto using lookup_lt_Some.
Qed.

(** What a step of handler [t] must give. *)
Definition goes_on (hs : list handler) (t : nat) (h : handler) (o : outcome) : Prop :=
  match o with
  | Blocked => True
  | Crash => False
  | Go l c => inv c (<[t := {| call := call h; at_ := l; ctx := ctx h |}]> hs)
  end.

Section one_step.
Context (c : controllerServer) (hs : list handler) (t : nat) (h : handler).
Context (I : inv c hs) (Ht : hs !! t = Some h).

Lemma goes_on_done r : in_once (at_ h) = None → goes_on hs t h (Go (Done r) c).
Proof using I Ht. intros Ho. by eapply inv_move. Qed.

Lemma goes_on_get key : at_ h = Entry → goes_on hs t h (get key c).
Proof using I Ht.
  intros Ha. unfold get, lookup_record. case_decide; [by apply goes_on_done; rewrite Ha|].
  destruct (sandboxes c !! key) as [p|] eqn:Hk; [|by apply goes_on_done; rewrite Ha].
  eapply inv_move; eauto; [by rewrite Ha|]. intros p' [= <-].
  destruct (inv_table _ _ I _ _ Hk) as (_ & r & -> & _). by eexists.
Qed.

Lemma goes_on_with p k :
  pointer (at_ h) = Some p →
  (∀ r, records c !! p = Some r → record_ok hs p r → (in_once (at_ h) = Some p → stopOnce r = Running t) →
     goes_on hs t h (k r)) →
  goes_on hs t h (with_record p c k).
Proof using I Ht.
  intros Hp Hk. unfold with_record. destruct (inv_handler _ _ I _ _ Ht p Hp) as (r & Hr & Ho). rewrite Hr.
  apply Hk; [done| |done]. by apply (inv_record _ _ I).
Qed.

(** An update that does not touch [stopOnce] or the channel. *)
Lemma goes_on_update p r f l :
  records c !! p = Some r → record_ok hs p r → in_once (at_ h) = None → in_once l = None →
  (∀ q, pointer l = Some q → q = p) →
  id (f r) = id r → stopOnce (f r) = stopOnce r → stopped (f r) = stopped r → exitStatus (f r) = exitStatus r →
  goes_on hs t h (Go l (update_record p f c)).
Proof using I Ht.
  intros Hr Hok Ho Ho' Hp Hid Hs Hst Hx. eapply inv_updated; eauto; simpl; rewrite ?Ho, ?Ho'; try done.
  eapply (record_ok_frame _ _ _ _ _ (f r)) in Ht; [exact Ht| |by rewrite Ho].
  unfold record_ok in *. by rewrite Hs, Hst, Hx.
Qed.

Lemma goes_on_stop now next :
  (∀ p, in_once (next p) = None) → (∀ p q, pointer (next p) = Some q → q = p) → at_ h ≠ Entry →
  goes_on hs t h (stopRecord t now 0 next (at_ h) c).
Proof using I Ht.
  intros Hn Hnp Hne. assert (t < length hs)%nat as Hlt by eauto using lookup_lt_Some.
  destruct (at_ h) as [|p| |p|p|p| | | ] eqn:Ha; try done; apply goes_on_with; rewrite ?Ha; try done.
  all: intros r Hr Hok Ho.
  - destruct (stopOnce r) eqn:Hs; [|done|].
    + destruct Hok as [Hx Hok]. rewrite Hs in Hok.
      eapply inv_updated; eauto; simpl; rewrite ?Ha, ?Hs; try naive_solver.
      split; [done|]. simpl. eexists. by rewrite list_lookup_insert_eq.
    + eapply inv_move; eauto; rewrite ?Ha; try done. simpl. intros q ->%Hnp. by eexists.
  - destruct Hok as [Hx Hok]. rewrite (Ho eq_refl) in Hok. destruct Hok as (h1 & H1 & _ & Hst). simplify_eq.
    eapply inv_updated; eauto; simpl; rewrite ?Ha, ?(Ho eq_refl); try naive_solver.
    split; [done|]. simpl. rewrite (Ho eq_refl). eexists. rewrite list_lookup_insert_eq by done.
    split_and!; [done..|]. by rewrite Hst, Ha.
  - destruct Hok as [Hx Hok]. rewrite (Ho eq_refl) in Hok. destruct Hok as (h1 & H1 & _ & Hst). simplify_eq.
    rewrite Hst, Ha. simpl. eapply inv_updated; eauto; simpl; rewrite ?Ha, ?(Ho eq_refl); try naive_solver.
    split; [done|]. simpl. rewrite (Ho eq_refl). eexists. by rewrite list_lookup_insert_eq.
  - destruct Hok as [Hx Hok]. rewrite (Ho eq_refl) in Hok. destruct Hok as (h1 & H1 & _ & Hst). simplify_eq.
    eapply inv_updated; eauto; simpl; rewrite ?Ha, ?(Ho eq_refl), ?Hn; try naive_solver.
    split; [done|]. simpl. by rewrite Hst, Ha.
Qed.

Lemma handle_goes_on now cancel : goes_on hs t h (handle t now cancel h c).
Proof using I Ht.
  unfold handle. destruct (call h) as [req|key|key|key|key|key v|key|key|key fs].
  - destruct (at_ h) eqn:Ha; try done. unfold create.
    case_decide; [by apply goes_on_done; rewrite Ha|].
    destruct (sandboxes c !! _) eqn:Hk; [by apply goes_on_done; rewrite Ha|]. by apply inv_create; rewrite ?Ha.
  - destruct (at_ h) eqn:Ha; try done; [by apply goes_on_get|..]; apply goes_on_with; rewrite ?Ha; try done; intros r Hr Hok Ho.
    + eapply goes_on_update; eauto; rewrite ?Ha; try done. naive_solver.
    + by apply goes_on_done; rewrite Ha.
  - destruct (at_ h) eqn:Ha; try done; [by apply goes_on_get|by apply goes_on_done; rewrite Ha].
  - unfold stop. destruct (at_ h) eqn:Ha; [by apply goes_on_get|..]; rewrite <-Ha; by apply goes_on_stop; rewrite ?Ha.
  - destruct (at_ h) eqn:Ha; try done; [by apply goes_on_get|..]; apply goes_on_with; rewrite ?Ha; try done; intros r Hr Hok Ho.
    + destruct cancel; [destruct (ctx h); [by apply goes_on_done; rewrite Ha|done]|].
      destruct (stopped r); [|done]. eapply inv_move; eauto; rewrite ?Ha; try done. naive_solver.
    + by apply goes_on_done; rewrite Ha.
  - destruct (at_ h) eqn:Ha; try done; [by apply goes_on_get|]. apply goes_on_with; rewrite ?Ha; try done.
    intros. by apply goes_on_done; rewrite Ha.
  - unfold shutdown. destruct (at_ h) eqn:Ha; [by apply goes_on_get|..]; try (rewrite <-Ha; apply goes_on_stop; rewrite ?Ha; naive_solver).
    apply goes_on_with; rewrite ?Ha; try done. intros r Hr Hok Ho. destruct I as [It Ir Ih].
    eapply inv_move; eauto; rewrite ?Ha; try done. split; simpl; [|done|done].
    intros key' q [_ Hk]%lookup_delete_Some. by apply It.
  - destruct (at_ h) eqn:Ha; try done; [by apply goes_on_get|by apply goes_on_done; rewrite Ha].
  - destruct (at_ h) eqn:Ha; try done; [by apply goes_on_get|]. apply goes_on_with; rewrite ?Ha; try done.
    intros r Hr Hok Ho. eapply goes_on_update; eauto; by rewrite ?Ha.
Qed.
End one_step.

Lemma step_inv a s :
  inv (controller s) (handlers s) →
  match step a s with inl b => b = false | inr s' => inv (controller s') (handlers s') end.
Proof.
  intros I. destruct a as [r|t e|t now cancel]; simpl.
  - destruct I as [It Ir Ih]. split; simpl; [done| |].
    + intros p r' Hr. destruct (Ir _ _ Hr) as [Hx Ho]. split; [done|]. destruct (stopOnce r'); try done.
      destruct Ho as (h & Hh & ?). exists h. by rewrite lookup_app_l by eauto using lookup_lt_Some.
    + intros t h [Hh|[? Hh]]%lookup_app_Some; [by apply Ih|]. apply list_lookup_singleton_Some in Hh as [_ <-]. by intros p.
  - destruct (handlers s !! t) as [h|] eqn:Ht; [|done]. simpl. destruct I as [It Ir Ih].
    assert (t < length (handlers s))%nat by eauto using lookup_lt_Some. split; simpl; [done| |].
    + intros p r' Hr. destruct (Ir _ _ Hr) as [Hx Ho]. split; [done|]. destruct (stopOnce r') as [|t'|]; try done.
      destruct Ho as (h' & Hh & ?). destruct (decide (t' = t)) as [->|?]; simplify_eq.
      * eexists. by rewrite list_lookup_insert_eq.
      * exists h'. by rewrite list_lookup_insert_ne.
    + intros t' h' Hh. destruct (decide (t' = t)) as [->|?].
      * rewrite list_lookup_insert_eq in Hh by done. simplify_eq. by apply (Ih t h).
      * rewrite list_lookup_insert_ne in Hh by done. by apply Ih.
  - destruct (handlers s !! t) as [h|] eqn:Ht; [|done].
    pose proof (handle_goes_on _ _ _ _ I Ht now cancel) as Hg. by destruct (handle t now cancel h _).
Qed.

Lemma reach_ok s : reach s → inv (controller s) (handlers s).
Proof.
  induction 1 as [|a s s' _ IH Hs]; [by split|]. pose proof (step_inv a s IH) as H. by rewrite Hs in H.
Qed.

(** ** The life cycle of a sandbox, one call at a time *)

(** [ended] once a [Stop] has taken effect. *)
Record sandbox := {
  s_pid : Z; s_state : str; s_info : gmap str str; s_labels : gmap str str; s_created : Z; s_exited : Z; ended : bool }.

Definition created (req : CreateRequest) : sandbox :=
  {| s_pid := 0; s_state := stateNotReady; s_info := info (new_record req); s_labels := labels (new_record req);
     s_created := 0; s_exited := 0; ended := false |}.
Definition started (now : Z) (b : sandbox) : sandbox :=
  {| s_pid := getpid mod 2 ^ 32; s_state := stateReady; s_info := s_info b; s_labels := s_labels b;
     s_created := if s_created b =? 0 then now else s_created b; s_exited := s_exited b; ended := ended b |}.
Definition exited (now : Z) (b : sandbox) : sandbox :=
  {| s_pid := s_pid b; s_state := stateNotReady; s_info := s_info b; s_labels := s_labels b;
     s_created := s_created b; s_exited := now; ended := true |}.
Definition informed (k v : str) (b : sandbox) : sandbox :=
  {| s_pid := s_pid b; s_state := s_state b; s_info := <[k := v]> (s_info b); s_labels := s_labels b;
     s_created := s_created b; s_exited := s_exited b; ended := ended b |}.

Definition with_sandbox (key : str) (a : gmap str sandbox) (k : sandbox → option (reply * gmap str sandbox)) :
    option (reply * gmap str sandbox) :=
  if decide (key = []) then Some (Failed InvalidArgument, a)
  else match a !! key with None => Some (Failed (NotFound key), a) | Some b => k b end.

(** The reply of a call and the sandboxes after it; [None] while [Wait] has to wait. *)
Definition spec (now : Z) (r : rpc) (a : gmap str sandbox) : option (reply * gmap str sandbox) :=
  match r with
  | Create req =>
      if decide (SandboxID req = []) then Some (Failed InvalidArgument, a)
      else match a !! SandboxID req with
      | Some _ => Some (Failed (AlreadyExists (SandboxID req)), a)
      | None => Some (CreateResponse (SandboxID req), <[SandboxID req := created req]> a)
      end
  | Start key =>
      with_sandbox key a (λ b, let b' := started now b in
        Some (StartResponse key (s_pid b') (s_created b') (cloneMap (s_labels b')), <[key := b']> a))
  | Platform key => with_sandbox key a (λ _, Some (PlatformResponse (lit "linux") (runtimeArch goarch), a))
  | Stop key => with_sandbox key a (λ b, Some (StopResponse, if ended b then a else <[key := exited now b]> a))
  | Wait key => with_sandbox key a (λ b, if ended b then Some (WaitResponse 0 (s_exited b), a) else None)
  | Status key v =>
      with_sandbox key a (λ b,
        Some (StatusResponse key (s_pid b) (s_state b) (if v then cloneMap (s_info b) else None) (s_created b) (s_exited b), a))
  | Shutdown key => with_sandbox key a (λ _, Some (ShutdownResponse, delete key a))
  | Metrics key => with_sandbox key a (λ _, Some (MetricsResponse, a))
  | Update key fs =>
      with_sandbox key a (λ b, Some (UpdateResponse, <[key := informed (lit "updated_fields") (sprint_list fs) b]> a))
  end.

(** A call is pending until it takes effect. *)
Inductive pending := Pending (r : rpc) | Replied (r : reply).

Inductive spec_step : gmap str sandbox * list pending → gmap str sandbox * list pending → Prop :=
| spec_arrive r a ps : spec_step (a, ps) (a, ps ++ [Pending r])
| spec_effect t now r rep a a' ps :
    ps !! t = Some (Pending r) → spec now r a = Some (rep, a') → spec_step (a, ps) (a', <[t := Replied rep]> ps)
| spec_cancelled t key e a ps :
    ps !! t = Some (Pending (Wait key)) → is_Some (a !! key) →
    spec_step (a, ps) (a, <[t := Replied (Failed (Context e))]> ps).

(** The sandbox that a record stands for: the critical section of [stopRecord] has been
    executed unless its handler is still before it. *)
Definition ended_in (hs : list handler) (r : sandboxRecord) : bool :=
  match stopOnce r with
  | Fresh => false
  | Returned => true
  | Running t => match hs !! t with Some h => match at_ h with OnceLock _ => false | _ => true end | None => true end
  end.
Definition sandbox_of (hs : list handler) (r : sandboxRecord) : sandbox :=
  {| s_pid := pid r; s_state := state r; s_info := info r; s_labels := labels r;
     s_created := createdAt r; s_exited := exitedAt r; ended := ended_in hs r |}.
Definition sandboxes_of (c : controllerServer) (hs : list handler) : gmap str sandbox :=
  omap (λ p, sandbox_of hs <$> records c !! p) (sandboxes c).

(** The sandbox that a call is about. *)
Definition key_of (r : rpc) : str :=
  match r with
  | Create req => SandboxID req
  | Start key | Platform key | Stop key | Wait key | Status key _ | Shutdown key | Metrics key | Update key _ => key
  end.
Definition is_shutdown (r : rpc) : bool := match r with Shutdown _ => true | _ => false end.

(** Where a handler is, and whether its call has taken effect. *)
Definition handler_sim (c : controllerServer) (h : handler) (x : pending) : Prop :=
  is_shutdown (call h) = false ∧
  (∀ p, pointer (at_ h) = Some p → sandboxes c !! key_of (call h) = Some p) ∧
  match at_ h with
  | Entry | Have _ => x = Pending (call h)
  | StartUnlocked p at_ ls =>
      x = Replied (StartResponse (key_of (call h)) (getpid mod 2 ^ 32) at_ ls) ∧
      ∃ r, records c !! p = Some r ∧ pid r = getpid mod 2 ^ 32
  | OnceLock _ => x = Pending (call h) ∧ call h = Stop (key_of (call h))
  | OnceClose _ | OnceReturn _ => x = Replied StopResponse ∧ call h = Stop (key_of (call h))
  | Deleting _ => False
  | Woken p => x = Pending (call h) ∧ call h = Wait (key_of (call h)) ∧ ∃ r, records c !! p = Some r ∧ stopped r = true
  | Done r => x = Replied r
  end.

Record sim (s : server) (S : gmap str sandbox * list pending) : Prop := {
  sim_inv : inv (controller s) (handlers s);
  sim_sandboxes : S.1 = sandboxes_of (controller s) (handlers s);
  sim_handlers : Forall2 (handler_sim (controller s)) (handlers s) S.2 }.

(** ** Linearizability of the calls other than [Shutdown] *)

Lemma ended_frame hs t h h' p r :
  hs !! t = Some h → record_ok hs p r → in_once (at_ h) ≠ Some p → ended_in (<[t := h']> hs) r = ended_in hs r.
Proof.
  intros Ht [_ Ho] Hn. unfold ended_in. destruct (stopOnce r) as [|t'|]; try done.
  destruct Ho as (h1 & H1 & Hi & _). rewrite list_lookup_insert_ne; [done|]. intros ->. by simplify_eq.
Qed.

Section lookups.
Context (c : controllerServer) (hs : list handler) (t : nat) (h h' : handler).
Context (I : inv c hs) (Ht : hs !! t = Some h).

Lemma sandboxes_lookup key p r :
  sandboxes c !! key = Some p → records c !! p = Some r → sandboxes_of c hs !! key = Some (sandbox_of hs r).
Proof. intros Hk Hr. unfold sandboxes_of. by rewrite lookup_omap, Hk; simpl; rewrite Hr. Qed.

Lemma sandboxes_lookup_none key : sandboxes c !! key = None → sandboxes_of c hs !! key = None.
Proof. intros Hk. unfold sandboxes_of. by rewrite lookup_omap, Hk. Qed.

(** Handlers outside [stopOnce] do not show. *)
Lemma sandboxes_move :
  in_once (at_ h) = None → sandboxes_of c (<[t := h']> hs) = sandboxes_of c hs.
Proof using I Ht.
  intros Ho. apply map_eq. intros key. unfold sandboxes_of. rewrite !lookup_omap.
  destruct (sandboxes c !! key) as [p|] eqn:Hk; [|done]. simpl.
  destruct (records c !! p) as [r|] eqn:Hr; [|done]. simpl. f_equal. unfold sandbox_of. f_equal.
  apply (ended_frame _ _ h h' p r Ht); [by apply (inv_record _ _ I)|by rewrite Ho].
Qed.

Lemma sandboxes_update p r f key :
  sandboxes c !! key = Some p → records c !! p = Some r → (∀ q, in_once (at_ h) = Some q → q = p) →
  sandboxes_of (update_record p f c) (<[t := h']> hs)
  = <[key := sandbox_of (<[t := h']> hs) (f r)]> (sandboxes_of c hs).
Proof using I Ht.
  intros Hk Hr Hq. apply map_eq. intros key'. unfold sandboxes_of at 1. rewrite lookup_omap. simpl.
  destruct (decide (key' = key)) as [->|Hne].
  { rewrite Hk, lookup_insert_eq. simpl. by rewrite list_lookup_alter_eq, Hr. }
  rewrite lookup_insert_ne by done. unfold sandboxes_of. rewrite lookup_omap.
  destruct (sandboxes c !! key') as [q|] eqn:Hk'; [|done]. simpl.
  destruct (inv_table _ _ I _ _ Hk) as (_ & r1 & Hr1 & Hi1), (inv_table _ _ I _ _ Hk') as (_ & r2 & Hr2 & Hi2).
  assert (q ≠ p) as Hqp by (intros ->; congruence). rewrite list_lookup_alter_ne by done. rewrite Hr2. simpl.
  f_equal. unfold sandbox_of. f_equal. apply (ended_frame _ _ h h' q r2 Ht); [by apply (inv_record _ _ I)|]. intros Hx. by apply Hq in Hx.
Qed.

Lemma sandboxes_create req :
  in_once (at_ h) = None →
  sandboxes_of {| sandboxes := <[SandboxID req := length (records c)]> (sandboxes c); records := records c ++ [new_record req] |}
    (<[t := h']> hs) = <[SandboxID req := created req]> (sandboxes_of c hs).
Proof using I Ht.
  intros Ho. rewrite <-sandboxes_move by done. apply map_eq. intros key. unfold sandboxes_of. rewrite lookup_omap. simpl.
  destruct (decide (key = SandboxID req)) as [->|Hne].
  { rewrite !lookup_insert_eq. simpl. by rewrite lookup_app_r, Nat.sub_diag by done. }
  rewrite !lookup_insert_ne, lookup_omap by done. destruct (sandboxes c !! key) as [p|] eqn:Hk; [|done]. simpl.
  destruct (inv_table _ _ I _ _ Hk) as (_ & r & Hr & _). by rewrite lookup_app_l by eauto using lookup_lt_Some.
Qed.
End lookups.

(** The table and the records only grow, and a started or stopped record stays so. *)
Definition extends (c c' : controllerServer) : Prop :=
  (∀ key p, sandboxes c !! key = Some p → sandboxes c' !! key = Some p) ∧
  ∀ p r, records c !! p = Some r → ∃ r', records c' !! p = Some r' ∧
    (pid r = getpid mod 2 ^ 32 → pid r' = getpid mod 2 ^ 32) ∧ (stopped r = true → stopped r' = true).

Lemma extends_refl c : extends c c.
Proof. split; [done|]. eauto. Qed.

Lemma extends_update p r f c :
  records c !! p = Some r → (pid r = getpid mod 2 ^ 32 → pid (f r) = getpid mod 2 ^ 32) →
  (stopped r = true → stopped (f r) = true) → extends c (update_record p f c).
Proof.
  intros Hr Hp Hs. split; [done|]. intros q r1 Hr1. simpl. destruct (decide (q = p)) as [->|?].
  - simplify_eq. exists (f r). by rewrite list_lookup_alter_eq, Hr.
  - exists r1. by rewrite list_lookup_alter_ne.
Qed.

Lemma extends_create req c :
  sandboxes c !! SandboxID req = None →
  extends c {| sandboxes := <[SandboxID req := length (records c)]> (sandboxes c); records := records c ++ [new_record req] |}.
Proof.
  intros Hn. split; simpl.
  - intros key p Hk. rewrite lookup_insert_ne; [done|]. intros <-. congruence.
  - intros p r Hr. exists r. by rewrite lookup_app_l by eauto using lookup_lt_Some.
Qed.

Lemma handler_sim_extends c c' h x : extends c c' → handler_sim c h x → handler_sim c' h x.
Proof.
  intros [Ht Hr] (Hs & Hp & Hx). split_and!; [done|eauto|].
  destruct (at_ h); try done.
  - destruct Hx as (-> & r & Hl & Hpid). split; [done|]. destruct (Hr _ _ Hl) as (r' & ? & ? & _). eauto.
  - destruct Hx as (-> & ? & r & Hl & Hst). split_and!; [done..|]. destruct (Hr _ _ Hl) as (r' & ? & _ & ?). eauto.
Qed.

(** One step of handler [t] of the server, matched by the specification. *)
Definition matched (t : nat) (h : handler) (c : controllerServer) (hs : list handler) (S : gmap str sandbox * list pending)
    (o : outcome) : Prop :=
  match o with
  | Go l c' =>
      ∃ S', (S' = S ∨ spec_step S S') ∧
        sim {| controller := c'; handlers := <[t := {| call := call h; at_ := l; ctx := ctx h |}]> hs |} S'
  | _ => True
  end.

(** The calls on a sandbox that does not exist, and on one that does. *)
Lemma spec_empty now r a : key_of r = [] → spec now r a = Some (Failed InvalidArgument, a).
Proof. destruct r; simpl; intros ->; reflexivity. Qed.

Lemma spec_missing now r a :
  (∀ req, r ≠ Create req) → key_of r ≠ [] → a !! key_of r = None → spec now r a = Some (Failed (NotFound (key_of r)), a).
Proof. destruct r; simpl; intros Hc Hk Ha; [naive_solver|..]; unfold with_sandbox; rewrite decide_False, Ha; done. Qed.

Lemma with_sandbox_some key a b k : key ≠ [] → a !! key = Some b → with_sandbox key a k = k b.
Proof. intros Hk Ha. unfold with_sandbox. by rewrite decide_False, Ha. Qed.

Section one_match.
Context (c : controllerServer) (hs : list handler) (t : nat) (h : handler).
Context (S : gmap str sandbox * list pending) (x : pending).
Context (Hsim : sim {| controller := c; handlers := hs |} S) (Ht : hs !! t = Some h) (Hx : S.2 !! t = Some x).
Context (Hhs : handler_sim c h x).

Notation moved l := {| call := call h; at_ := l; ctx := ctx h |}.

Lemma sim_advance l c' x' :
  goes_on hs t h (Go l c') → extends c c' → handler_sim c' (moved l) x' →
  sim {| controller := c'; handlers := <[t := moved l]> hs |} (sandboxes_of c' (<[t := moved l]> hs), <[t := x']> S.2).
Proof using Hsim Ht.
  intros Hg He Hh. destruct Hsim as [_ _ Hf]. split; [done|done|]. simpl in *.
  apply Forall2_insert; [|done]. eapply Forall2_impl; [done|]. intros ??. by apply handler_sim_extends.
Qed.

(** A step without effect. *)
Lemma matched_stutter l c' :
  goes_on hs t h (Go l c') → extends c c' → sandboxes_of c' (<[t := moved l]> hs) = sandboxes_of c hs →
  handler_sim c' (moved l) x → matched t h c hs S (Go l c').
Proof using Hsim Ht Hx.
  intros Hg He Ha Hh. exists S. split; [by left|]. pose proof (sim_advance l c' x Hg He Hh) as H.
  rewrite Ha, (list_insert_id S.2) in H by done. destruct S as [a ps]. pose proof (sim_sandboxes _ _ Hsim) as E. simpl in E, H.
  by rewrite <-E in H.
Qed.

(** The step in which the call takes effect. *)
Lemma matched_effect now rep l c' :
  goes_on hs t h (Go l c') → extends c c' → x = Pending (call h) →
  spec now (call h) (sandboxes_of c hs) = Some (rep, sandboxes_of c' (<[t := moved l]> hs)) →
  handler_sim c' (moved l) (Replied rep) → matched t h c hs S (Go l c').
Proof using Hsim Ht Hx.
  intros Hg He Hp Hs Hh. eexists. split; [right|by apply (sim_advance l c' (Replied rep))].
  destruct S as [a ps]. pose proof (sim_sandboxes _ _ Hsim) as E. simpl in E. rewrite <-E in Hs.
  eapply spec_effect; [|done]. by rewrite Hx, Hp.
Qed.

(** The context of a [Wait] ends. *)
Lemma matched_cancelled key e :
  in_once (at_ h) = None → x = Pending (Wait key) → is_Some (sandboxes_of c hs !! key) →
  goes_on hs t h (Go (Done (Failed (Context e))) c) → matched t h c hs S (Go (Done (Failed (Context e))) c).
Proof using Hsim Ht Hx Hhs.
  intros Ho Hp Hk Hg. pose proof (sim_sandboxes _ _ Hsim) as E. simpl in E.
  exists (sandboxes_of c hs, <[t := Replied (Failed (Context e))]> S.2). split; [right|].
  - rewrite (surjective_pairing S) at 1. rewrite E. eapply (spec_cancelled t key e); [by rewrite Hx, Hp|done].
  - rewrite <-(sandboxes_move c hs t h (moved (Done (Failed (Context e)))) (sim_inv _ _ Hsim) Ht) by done.
    apply sim_advance; [done|apply extends_refl|]. split; [apply Hhs|done].
Qed.

(** A call that replies without changing anything. *)
Lemma matched_reply now rep :
  in_once (at_ h) = None → x = Pending (call h) → spec now (call h) (sandboxes_of c hs) = Some (rep, sandboxes_of c hs) →
  goes_on hs t h (Go (Done rep) c) → matched t h c hs S (Go (Done rep) c).
Proof using Hsim Ht Hx Hhs.
  intros Ho Hp Hs Hg. eapply (matched_effect now rep); eauto using extends_refl.
  - by rewrite (sandboxes_move c hs t h _ (sim_inv _ _ Hsim) Ht).
  - split; [apply Hhs|done].
Qed.

Lemma matched_get :
  at_ h = Entry → (∀ req, call h ≠ Create req) →
  goes_on hs t h (get (key_of (call h)) c) → matched t h c hs S (get (key_of (call h)) c).
Proof using Hsim Ht Hx Hhs.
  intros Ha Hc. assert (x = Pending (call h)) as Hp by (destruct Hhs as (_ & _ & H); by rewrite Ha in H).
  unfold get, lookup_record. case_decide as Hk.
  { apply (matched_reply 0); [by rewrite Ha|done|]. by apply spec_empty. }
  destruct (sandboxes c !! key_of (call h)) as [p|] eqn:Hl.
  - intros Hg. apply matched_stutter; [done|apply extends_refl| |].
    + by rewrite (sandboxes_move c hs t h _ (sim_inv _ _ Hsim) Ht) by (by rewrite Ha).
    + split; [apply Hhs|]. split; [|done]. simpl. by intros q [= <-].
  - apply (matched_reply 0); [by rewrite Ha|done|]. apply spec_missing; [done..|]. by apply sandboxes_lookup_none.
Qed.

(** The record behind the pointer of a handler, and its sandbox. *)
Lemma matched_with p k :
  pointer (at_ h) = Some p →
  (∀ r, records c !! p = Some r → record_ok hs p r → id r = key_of (call h) → key_of (call h) ≠ [] →
     sandboxes c !! key_of (call h) = Some p →
     sandboxes_of c hs !! key_of (call h) = Some (sandbox_of hs r) →
     (in_once (at_ h) = Some p → stopOnce r = Running t) →
     goes_on hs t h (k r) → matched t h c hs S (k r)) →
  goes_on hs t h (with_record p c k) → matched t h c hs S (with_record p c k).
Proof using Hsim Ht Hhs.
  intros Hp Hk. destruct Hsim as [I _ _]. simpl in I.
  pose proof (proj1 (proj2 Hhs) p Hp) as Hl. destruct (inv_table _ _ I _ _ Hl) as (Hne & r & Hr & Hi).
  destruct (inv_handler _ _ I _ _ Ht p Hp) as (r' & Hr' & Ho). simplify_eq. unfold with_record. rewrite Hr.
  apply Hk; try done; [by apply (inv_record _ _ I)|by eapply sandboxes_lookup].
Qed.

(** [Stop] takes effect in the critical section of the first caller; the later ones find
    that it has. *)
Lemma matched_stop now key :
  call h = Stop key → goes_on hs t h (stop t now key (at_ h) c) → matched t h c hs S (stop t now key (at_ h) c).
Proof using Hsim Ht Hx Hhs.
  intros Hc. pose proof (sim_inv _ _ Hsim) as I. simpl in I. assert (t < length hs)%nat as Hlt by eauto using lookup_lt_Some.
  pose proof (proj1 Hhs) as Hns. pose proof (proj1 (proj2 Hhs)) as Hptr. pose proof (proj2 (proj2 Hhs)) as Hloc.
  assert (key = key_of (call h)) as Hkey by (by rewrite Hc).
  destruct (at_ h) as [|p| |p|p|p| | | ] eqn:Ha; try done; simpl.
  { intros Hg. rewrite Hkey. apply matched_get; [done|by rewrite Hc|by rewrite <-Hkey]. }
  all: apply matched_with; rewrite ?Ha; [done|]; intros r Hr Hok Hid Hne Hl Hb Ho.
  - destruct (stopOnce r) eqn:Hs; [|done|].
    + intros Hg. apply matched_stutter; [done|by apply (extends_update p r)| |].
      * rewrite (sandboxes_update c hs t h _ I Ht p r _ (key_of (call h))) by (rewrite ?Ha; done).
        rewrite insert_id; [done|]. rewrite Hb. f_equal. unfold sandbox_of. simpl. f_equal.
        unfold ended_in. simpl. by rewrite list_lookup_insert_eq, Hs.
      * split; [done|]. split; [done|]. split; [done|]. by rewrite Hc.
    + apply (matched_reply now); [by rewrite Ha|done|]. rewrite Hc. simpl.
      rewrite (with_sandbox_some _ _ (sandbox_of hs r)) by (by rewrite Hkey). simpl. unfold ended_in. by rewrite Hs.
  - intros Hg. destruct Hloc as [Hp Hst]. apply (matched_effect now StopResponse); [done|by apply (extends_update p r)|done| |].
    + rewrite (sandboxes_update c hs t h _ I Ht p r _ (key_of (call h))) by (rewrite ?Ha; naive_solver).
      rewrite Hc at 1. simpl. rewrite (with_sandbox_some _ _ (sandbox_of hs r)) by (by rewrite Hkey). simpl.
      unfold ended_in at 1. rewrite (Ho eq_refl), Ht, Ha. do 3 f_equal; [done|]. unfold exited, sandbox_of. simpl. f_equal.
      unfold ended_in. simpl. by rewrite (Ho eq_refl), list_lookup_insert_eq.
    + by split.
  - intros Hg. destruct (stopped r) eqn:Hst; [done|]. apply matched_stutter; [done|by apply (extends_update p r)| |].
    + rewrite (sandboxes_update c hs t h _ I Ht p r _ (key_of (call h))) by (rewrite ?Ha; naive_solver).
      rewrite insert_id; [done|]. rewrite Hb. f_equal. unfold sandbox_of. simpl. f_equal.
      unfold ended_in. simpl. by rewrite (Ho eq_refl), list_lookup_insert_eq, Ht, Ha.
    + by split.
  - intros Hg. destruct Hloc as [Hp Hst]. apply matched_stutter; [done|by apply (extends_update p r)| |].
    + rewrite (sandboxes_update c hs t h _ I Ht p r _ (key_of (call h))) by (rewrite ?Ha; naive_solver).
      rewrite insert_id; [done|]. rewrite Hb. f_equal. unfold sandbox_of. simpl. f_equal.
      unfold ended_in. simpl. by rewrite (Ho eq_refl), Ht, Ha.
    + by split.
Qed.

Lemma matched_create req :
  call h = Create req → at_ h = Entry → goes_on hs t h (create req c) → matched t h c hs S (create req c).
Proof using Hsim Ht Hx Hhs.
  intros Hc Ha. pose proof (sim_inv _ _ Hsim) as I. simpl in I.
  assert (x = Pending (call h)) as Hp by (pose proof (proj2 (proj2 Hhs)) as H; by rewrite Ha in H).
  unfold create. case_decide as Hk.
  { apply (matched_reply 0); [by rewrite Ha|done|]. apply spec_empty. by rewrite Hc. }
  destruct (sandboxes c !! SandboxID req) as [p|] eqn:Hl.
  - apply (matched_reply 0); [by rewrite Ha|done|]. rewrite Hc. simpl. rewrite decide_False by done.
    destruct (inv_table _ _ I _ _ Hl) as (_ & r & Hr & _). by rewrite (sandboxes_lookup c hs _ p r).
  - intros Hg. apply (matched_effect 0 (CreateResponse (SandboxID req))); [done|by apply extends_create|done| |].
    + rewrite (sandboxes_create c hs t h _ I Ht) by (by rewrite Ha). rewrite Hc. simpl. rewrite decide_False by done.
      by rewrite sandboxes_lookup_none.
    + split; [apply Hhs|done].
Qed.

Lemma matched_start now key :
  call h = Start key → goes_on hs t h (start now key (at_ h) c) → matched t h c hs S (start now key (at_ h) c).
Proof using Hsim Ht Hx Hhs.
  intros Hc. pose proof (sim_inv _ _ Hsim) as I. simpl in I.
  pose proof (proj1 Hhs) as Hns. pose proof (proj1 (proj2 Hhs)) as Hptr. pose proof (proj2 (proj2 Hhs)) as Hloc.
  assert (key = key_of (call h)) as Hkey by (by rewrite Hc).
  destruct (at_ h) as [|p|p at' ls| | | | | | ] eqn:Ha; try done; simpl.
  { intros Hg. rewrite Hkey. apply matched_get; [done|by rewrite Hc|by rewrite <-Hkey]. }
  all: apply matched_with; rewrite ?Ha; [done|]; intros r Hr Hok Hid Hne Hl Hb Ho Hg.
  - eapply (matched_effect now); [done|by apply (extends_update p r)|done| |].
    + rewrite (sandboxes_update c hs t h _ I Ht p r _ (key_of (call h))) by (rewrite ?Ha; done).
      rewrite Hc at 1. simpl. rewrite (with_sandbox_some _ _ (sandbox_of hs r)) by (by rewrite Hkey). simpl.
      rewrite <-Hkey. do 3 f_equal. unfold started, sandbox_of. simpl. f_equal. symmetry. unfold ended_in. simpl.
      by apply (ended_frame hs t h _ p r Ht); [|rewrite Ha].
    + split; [done|]. split; [done|]. simpl. split; [by rewrite <-Hkey|].
      eexists. by rewrite list_lookup_alter_eq, Hr.
  - destruct Hloc as (Hp & r' & Hr' & Hpid). assert (r' = r) as -> by congruence. apply matched_stutter; [done|apply extends_refl| |].
    + by rewrite (sandboxes_move c hs t h _ I Ht) by (by rewrite Ha).
    + split; [done|]. split; [done|]. simpl. by rewrite Hpid, Hid.
Qed.

Lemma matched_wait cancel key :
  call h = Wait key → goes_on hs t h (wait (ctx h) cancel key (at_ h) c) → matched t h c hs S (wait (ctx h) cancel key (at_ h) c).
Proof using Hsim Ht Hx Hhs.
  intros Hc. pose proof (sim_inv _ _ Hsim) as I. simpl in I.
  pose proof (proj1 Hhs) as Hns. pose proof (proj1 (proj2 Hhs)) as Hptr. pose proof (proj2 (proj2 Hhs)) as Hloc.
  assert (key = key_of (call h)) as Hkey by (by rewrite Hc).
  destruct (at_ h) as [|p| | | | | |p| ] eqn:Ha; try done; simpl.
  { intros Hg. rewrite Hkey. apply matched_get; [done|by rewrite Hc|by rewrite <-Hkey]. }
  all: apply matched_with; rewrite ?Ha; [done|]; intros r Hr Hok Hid Hne Hl Hb Ho.
  - destruct cancel.
    + destruct (ctx h) as [e|] eqn:He; [|done]. apply (matched_cancelled key); [by rewrite Ha|by rewrite Hloc, Hc|].
      rewrite Hkey. by eexists.
    + destruct (stopped r) eqn:Hst; [|done]. intros Hg. apply matched_stutter; [done|apply extends_refl| |].
      * by rewrite (sandboxes_move c hs t h _ I Ht) by (by rewrite Ha).
      * split; [done|]. split; [done|]. split; [done|]. split; [by rewrite Hc|]. eauto.
  - destruct Hloc as (Hp & _ & r' & Hr' & Hst). assert (r' = r) as -> by congruence. destruct Hok as [Hx0 Hok].
    apply (matched_reply 0); [by rewrite Ha|done|]. rewrite Hc. simpl.
    rewrite (with_sandbox_some _ _ (sandbox_of hs r)) by (by rewrite Hkey). simpl. rewrite Hx0. unfold ended_in.
    destruct (stopOnce r) as [|t'|] eqn:Hs; [congruence| |done].
    destruct Hok as (h1 & -> & Hi & Hst'). rewrite Hst in Hst'. by destruct (at_ h1).
Qed.

(** [Platform] and [Metrics] only check that the sandbox exists. *)
Lemma matched_exists now rep p :
  at_ h = Have p →
  (∀ b, key_of (call h) ≠ [] → sandboxes_of c hs !! key_of (call h) = Some b →
     spec now (call h) (sandboxes_of c hs) = Some (rep, sandboxes_of c hs)) →
  goes_on hs t h (Go (Done rep) c) → matched t h c hs S (Go (Done rep) c).
Proof using Hsim Ht Hx Hhs.
  intros Ha Hs. pose proof (sim_inv _ _ Hsim) as I. simpl in I.
  destruct Hhs as (_ & Hptr & Hloc). rewrite Ha in Hptr, Hloc. specialize (Hptr p eq_refl).
  destruct (inv_table _ _ I _ _ Hptr) as (Hne & r & Hr & _).
  apply (matched_reply now); [by rewrite Ha|done|]. eapply Hs; [done|]. by eapply sandboxes_lookup.
Qed.

Lemma matched_update key fs :
  call h = Update key fs → goes_on hs t h (update key fs (at_ h) c) → matched t h c hs S (update key fs (at_ h) c).
Proof using Hsim Ht Hx Hhs.
  intros Hc. pose proof (sim_inv _ _ Hsim) as I. simpl in I.
  pose proof (proj1 Hhs) as Hns. pose proof (proj2 (proj2 Hhs)) as Hloc.
  assert (key = key_of (call h)) as Hkey by (by rewrite Hc).
  destruct (at_ h) as [|p| | | | | | | ] eqn:Ha; try done; simpl.
  { intros Hg. rewrite Hkey. apply matched_get; [done|by rewrite Hc|by rewrite <-Hkey]. }
  apply matched_with; rewrite ?Ha; [done|]; intros r Hr Hok Hid Hne Hl Hb Ho Hg.
  eapply (matched_effect 0); [done|by apply (extends_update p r)|done| |by split].
  rewrite (sandboxes_update c hs t h _ I Ht p r _ (key_of (call h))) by (rewrite ?Ha; done).
  rewrite Hc at 1. simpl. rewrite (with_sandbox_some _ _ (sandbox_of hs r)) by (by rewrite Hkey).
  rewrite <-Hkey. do 3 f_equal. unfold informed, sandbox_of. simpl. f_equal. symmetry. unfold ended_in. simpl.
  by apply (ended_frame hs t h _ p r Ht); [|rewrite Ha].
Qed.

Lemma matched_handle now cancel : matched t h c hs S (handle t now cancel h c).
Proof using Hsim Ht Hx Hhs.
  pose proof (handle_goes_on c hs t h (sim_inv _ _ Hsim) Ht now cancel) as Hg. revert Hg. unfold handle.
  pose proof (proj1 Hhs) as Hns.
  destruct (call h) as [req|key|key|key|key|key v|key|key|key fs] eqn:Hc; [..|done| |].
  - destruct (at_ h) eqn:Ha; try done. by apply matched_create.
  - by apply matched_start.
  - destruct (at_ h) as [|p| | | | | | | ] eqn:Ha; try done; simpl.
    + intros Hg. assert (key = key_of (call h)) as -> by (by rewrite Hc). apply matched_get; [done|by rewrite Hc|done].
    + apply (matched_exists now _ p); [done|]. rewrite Hc. intros b Hne Hb. by apply (with_sandbox_some _ _ b).
  - by apply matched_stop.
  - by apply matched_wait.
  - destruct (at_ h) as [|p| | | | | | | ] eqn:Ha; try done; simpl.
    + intros Hg. assert (key = key_of (call h)) as -> by (by rewrite Hc). apply matched_get; [done|by rewrite Hc|done].
    + apply matched_with; [by rewrite Ha|]. intros r Hr Hok Hid Hne Hl Hb _. rewrite Hc in Hid, Hne, Hb. simpl in *.
      pose proof (proj2 (proj2 Hhs)) as Hloc. rewrite Ha in Hloc.
      apply (matched_reply now); [by rewrite Ha|done|]. rewrite Hc. simpl. by rewrite (with_sandbox_some _ _ _ _ Hne Hb), Hid.
  - destruct (at_ h) as [|p| | | | | | | ] eqn:Ha; try done; simpl.
    + intros Hg. assert (key = key_of (call h)) as -> by (by rewrite Hc). apply matched_get; [done|by rewrite Hc|done].
    + apply (matched_exists now _ p); [done|]. rewrite Hc. intros b Hne Hb. by apply (with_sandbox_some _ _ b).
  - by apply matched_update.
Qed.
End one_match.

(** Labels that do not start a [Shutdown]. *)
Definition plain (a : label) : bool := match a with Arrive r => negb (is_shutdown r) | _ => true end.

Lemma sandboxes_arrive c hs h : inv c hs → sandboxes_of c (hs ++ [h]) = sandboxes_of c hs.
Proof.
  intros I. apply map_eq. intros key. unfold sandboxes_of. rewrite !lookup_omap.
  destruct (sandboxes c !! key) as [p|]; [|done]. simpl. destruct (records c !! p) as [r|] eqn:Hr; [|done]. simpl.
  f_equal. unfold sandbox_of. f_equal. unfold ended_in. destruct (inv_record _ _ I _ _ Hr) as [_ Ho].
  destruct (stopOnce r); try done. destruct Ho as (h1 & Hh & _). by rewrite lookup_app_l by eauto using lookup_lt_Some.
Qed.

Lemma sandboxes_ctx c hs t h e :
  hs !! t = Some h → sandboxes_of c (<[t := {| call := call h; at_ := at_ h; ctx := e |}]> hs) = sandboxes_of c hs.
Proof.
  intros Ht. assert (t < length hs)%nat by eauto using lookup_lt_Some.
  apply map_eq. intros key. unfold sandboxes_of. rewrite !lookup_omap.
  destruct (sandboxes c !! key) as [p|]; [|done]. simpl. destruct (records c !! p) as [r|]; [|done]. simpl.
  f_equal. unfold sandbox_of. f_equal. unfold ended_in. destruct (stopOnce r) as [|t'|]; try done.
  destruct (decide (t' = t)) as [->|?]; [by rewrite list_lookup_insert_eq, Ht|by rewrite list_lookup_insert_ne].
Qed.

Lemma step_sim a s s' S :
  sim s S → plain a = true → step a s = inr s' → ∃ S', (S' = S ∨ spec_step S S') ∧ sim s' S'.
Proof.
  intros Hsim Hp Hs. pose proof (step_inv a s (sim_inv _ _ Hsim)) as Hi. rewrite Hs in Hi.
  destruct s as [c hs], a as [r|t e|t now cancel]; simpl in *.
  - simplify_eq. exists (S.1, S.2 ++ [Pending r]). split; [right; destruct S; constructor|].
    destruct Hsim as [I E Hf]. split; simpl in *; [done|by rewrite sandboxes_arrive|].
    apply Forall2_app; [done|]. constructor; [|done]. split; [|done]. by apply negb_true_iff.
  - destruct (hs !! t) as [h|] eqn:Ht; simplify_eq. exists S. split; [by left|].
    destruct Hsim as [I E Hf]. split; simpl in *; [done|by rewrite sandboxes_ctx|].
    destruct (Forall2_lookup_l _ _ _ _ _ Hf Ht) as (x & Hx & Hh).
    rewrite <-(list_insert_id S.2 t x) by done. by apply Forall2_insert.
  - destruct (hs !! t) as [h|] eqn:Ht; simplify_eq. destruct (Forall2_lookup_l _ _ _ _ _ (sim_handlers _ _ Hsim) Ht) as (x & Hx & Hh).
    pose proof (matched_handle c hs t h S x Hsim Ht Hx Hh now cancel) as Hm. simpl in Hm.
    destruct (handle t now cancel h c); simplify_eq. exact Hm.
Qed.

(** A [Stop] returns after the channel is closed. *)
Lemma stop_returns s t h key now cancel s' h' :
  inv (controller s) (handlers s) → handlers s !! t = Some h → call h = Stop key → step (Run t now cancel) s = inr s' →
  handlers s' !! t = Some h' → at_ h' = Done StopResponse →
  ∃ p r, pointer (at_ h) = Some p ∧ records (controller s') !! p = Some r ∧ stopped r = true ∧ exitStatus r = 0.
Proof.
  intros I Ht Hc Hs Ht' Hd. simpl in Hs. rewrite Ht in Hs. unfold handle in Hs. rewrite Hc in Hs.
  assert (t < length (handlers s))%nat as Hlt by eauto using lookup_lt_Some.
  destruct (stop t now key (at_ h) (controller s)) as [| |l c'] eqn:Hg; simplify_eq/=.
  rewrite list_lookup_insert_eq in Ht' by done. simplify_eq/=.
  unfold stop in Hg. destruct (at_ h) as [|p| |p|p|p| | | ] eqn:Ha; try done; simpl in Hg.
  { unfold get in Hg. by case_match; simplify_eq. }
  all: unfold with_record in Hg; destruct (records (controller s) !! p) as [r|] eqn:Hr; [|done];
    destruct (inv_record _ _ I _ _ Hr) as [Hx Ho]; simplify_eq/=.
  - destruct (stopOnce r); simplify_eq/=. eauto 10.
  - by destruct (stopped r).
  - destruct (inv_handler _ _ I _ _ Ht p) as (r' & Hr' & Hrun); [by rewrite Ha|]. simplify_eq.
    rewrite Ha in Hrun. rewrite (Hrun eq_refl) in Ho. destruct Ho as (h1 & H1 & _ & Hst). simplify_eq.
    exists p, (set_once Returned r). rewrite list_lookup_alter_eq, Hr. by rewrite Ha in Hst.
Qed.

(** Only [Stop] and [Shutdown] run [stopOnce]. *)
Definition stops (r : rpc) : bool := match r with Stop _ | Shutdown _ => true | _ => false end.

Lemma handle_stops t now cancel h c l c' p :
  handle t now cancel h c = Go l c' → in_once l = Some p → stops (call h) = true.
Proof.
  unfold handle, create, start, platform, wait, status, metrics, update, get, with_record.
  intros Hg Hl. destruct (call h); try done; repeat case_match; by simplify_eq.
Qed.

Lemma reach_stops s t h p : reach s → handlers s !! t = Some h → in_once (at_ h) = Some p → stops (call h) = true.
Proof.
  intros Hr. revert t h. induction Hr as [|a s s' _ IH Hs]; intros t h Ht Ho; [done|].
  destruct a as [r|t' e|t' now cancel]; simpl in Hs.
  - simplify_eq/=. apply lookup_app_Some in Ht as [Ht|[_ Ht]]; [by eapply IH|].
    by apply list_lookup_singleton_Some in Ht as [_ <-].
  - destruct (handlers s !! t') as [h'|] eqn:Ht'; simplify_eq/=.
    apply list_lookup_insert_Some in Ht as [(-> & <- & _)|[_ Ht]]; [by apply (IH t h')|by eapply IH].
  - destruct (handlers s !! t') as [h'|] eqn:Ht'; [|done]. destruct (handle _ _ _ _ _) as [| |l c] eqn:Hg; simplify_eq/=.
    apply list_lookup_insert_Some in Ht as [(-> & <- & _)|[_ Ht]]; [by apply (handle_stops t now cancel h' (controller s) l c p)|by eapply IH].
Qed.

(** The handler inside [stopOnce] is never blocked. *)
Lemma once_progress s t h p now cancel :
  reach s → handlers s !! t = Some h → at_ h = Have p →
  stopRecord t now 0 Deleting (at_ h) (controller s) = Blocked →
  ∃ r t' s', records (controller s) !! p = Some r ∧ stopOnce r = Running t' ∧ step (Run t' now cancel) s = inr s'.
Proof.
  intros Hre Ht Ha Hb. pose proof (reach_ok _ Hre) as I. rewrite Ha in Hb. simpl in Hb. unfold with_record in Hb.
  destruct (records (controller s) !! p) as [r|] eqn:Hr; [|done].
  destruct (inv_record _ _ I _ _ Hr) as [_ Ho]. destruct (stopOnce r) as [|t'|] eqn:Hs; try done.
  destruct Ho as (h' & Ht' & Hi & Hst). pose proof (reach_stops _ _ _ _ Hre Ht' Hi) as Hc.
  exists r, t'. simpl. rewrite Ht'. unfold handle, stop, shutdown.
  destruct (call h'), (at_ h'); simplify_eq/=; unfold with_record; rewrite Hr, ?Hst; eexists; eauto.
Qed.

(** ** What callers observe *)

(** The state of the specification and its calls agree with those of the server. *)
Definition shows (s : server) (S : gmap str sandbox * list pending) : Prop :=
  S.1 = sandboxes_of (controller s) (handlers s) ∧
  Forall2 (λ h x, match at_ h with Done r => x = Replied r | Entry => x = Pending (call h) | _ => True end)
    (handlers s) S.2.

Lemma sim_shows s S : sim s S → shows s S.
Proof.
  intros [_ E Hf]. split; [done|]. eapply Forall2_impl; [done|]. intros h x (_ & _ & Hx). by destruct (at_ h).
Qed.

Lemma exec_sim ls s s' S :
  sim s S → forallb plain ls = true → exec ls s = Some s' → ∃ S', rtc spec_step S S' ∧ sim s' S'.
Proof.
  revert s S. induction ls as [|a ls IH]; simpl; intros s S Hs Hp He; simplify_eq; [by exists S|].
  apply andb_true_iff in Hp as [Ha Hp]. destruct (step a s) as [|s1] eqn:Hst; [done|].
  destruct (step_sim a s s1 S Hs Ha Hst) as (S1 & H1 & Hs1). destruct (IH _ _ Hs1 Hp He) as (S2 & H2 & Hs2).
  exists S2. split; [|done]. destruct H1 as [->|H1]; [done|by eapply rtc_l].
Qed.

Lemma exec_reached ls s s' : reach s → exec ls s = Some s' → reach s'.
Proof.
  revert s. induction ls as [|a ls IH]; simpl; intros s Hr He; simplify_eq; [done|].
  destruct (step a s) as [|s1] eqn:Hst; [done|]. eapply IH; [|done]. by eapply reach_step.
Qed.

(** C23: without [Shutdown], every run of the handlers is a run of the specification, in
    which each call takes effect at one moment: at any two points of the run, the
    specification has reached states that show the same sandboxes and the same replies,
    the second one after the first. *)
Theorem lifecycle_linearizable l1 l2 s1 s2 :
  forallb plain l1 = true → forallb plain l2 = true → exec l1 new_server = Some s1 → exec l2 s1 = Some s2 →
  ∃ S1 S2, rtc spec_step (∅, []) S1 ∧ rtc spec_step S1 S2 ∧ shows s1 S1 ∧ shows s2 S2.
Proof.
  intros Hp1 Hp2 H1 H2. assert (sim new_server (∅, [])) as H0 by (split; [by split|done|by constructor]).
  destruct (exec_sim _ _ _ _ H0 Hp1 H1) as (S1 & R1 & Hs1). destruct (exec_sim _ _ _ _ Hs1 Hp2 H2) as (S2 & R2 & Hs2).
  exists S1, S2. split_and!; [done|done|by apply sim_shows|by apply sim_shows].
Qed.

(** C24: the process never panics, the table leads to the record of its key, a [Stop] that
    returns leaves the channel of its record closed with exit status 0, and a handler that
    waits in [stopOnce.Do] waits for the one that runs the function of the same record,
    which can always take its next step. *)
Theorem controller_safe s :
  reach s →
  (∀ a, step a s ≠ inl true) ∧
  (∀ key p, sandboxes (controller s) !! key = Some p → ∃ r, records (controller s) !! p = Some r ∧ id r = key) ∧
  (∀ t h key now cancel s' h', handlers s !! t = Some h → call h = Stop key → step (Run t now cancel) s = inr s' →
     handlers s' !! t = Some h' → at_ h' = Done StopResponse →
     ∃ p r, pointer (at_ h) = Some p ∧ records (controller s') !! p = Some r ∧ stopped r = true ∧ exitStatus r = 0) ∧
  (∀ t h p now cancel, handlers s !! t = Some h → at_ h = Have p → stopRecord t now 0 Deleting (at_ h) (controller s) = Blocked →
     ∃ r t' s', records (controller s) !! p = Some r ∧ stopOnce r = Running t' ∧ step (Run t' now cancel) s = inr s').
Proof.
  intros Hr. pose proof (reach_ok _ Hr) as I. split_and!.
  - intros a Ha. pose proof (step_inv a s I) as H. rewrite Ha in H. done.
  - intros key p Hk. by destruct (inv_table _ _ I _ _ Hk) as (_ & r & ? & ?); eauto.
  - intros t h key now cancel s' h' Ht Hc Hs Ht' Hd. by eapply stop_returns.
  - intros t h p now cancel Ht Ha Hb. by eapply once_progress.
Qed.

(** ** Where the life cycle goes wrong *)

(** A record that is out of the table and that only [Wait] holds. *)
Definition orphan (p : nat) (s : server) : Prop :=
  (∀ key, sandboxes (controller s) !! key ≠ Some p) ∧
  (∃ r, records (controller s) !! p = Some r ∧ stopOnce r = Fresh ∧ stopped r = false) ∧
  ∀ t h, handlers s !! t = Some h → pointer (at_ h) = Some p → at_ h = Have p ∧ ∃ key, call h = Wait key.

Definition keeps_context (t : nat) (a : label) : bool := match a with Cancel t' _ => negb (t' =? t)%nat | _ => true end.

(** What a step of a handler can reach: its own record, the table, a new record. *)
Lemma handle_footprint t now cancel h c l c' p :
  handle t now cancel h c = Go l c' → (p < length (records c))%nat →
  (∀ key, sandboxes c' !! key = Some p → sandboxes c !! key = Some p) ∧
  (pointer (at_ h) ≠ Some p → records c' !! p = records c !! p) ∧
  (pointer l = Some p → pointer (at_ h) = Some p ∨ ∃ key, sandboxes c !! key = Some p).
Proof.
  intros Hg Hp. unfold handle, create, start, platform, stop, shutdown, stopRecord, wait, status, metrics, update, get, lookup_record, with_record in Hg.
  destruct (call h), (at_ h); repeat case_match; simplify_eq/=; split_and!; try naive_solver.
  all: try (intros; rewrite list_lookup_alter_ne; [done|congruence]).
  - intros key [[_ ?]|[_ ?]]%lookup_insert_Some; [lia|done].
  - intros _. by rewrite lookup_app_l.
  - intros key [_ ?]%lookup_delete_Some. done.
Qed.

Lemma orphan_step p a s s' :
  orphan p s → step a s = inr s' → orphan p s'.
Proof.
  intros (Hn & (r & Hr & Hf & Hst) & Hp) Hs. assert (p < length (records (controller s)))%nat by eauto using lookup_lt_Some.
  destruct a as [q|t e|t now cancel]; simpl in Hs.
  - simplify_eq/=. split_and!; [done|by eauto|]. intros t h [Ht|[_ Ht]]%lookup_app_Some; [by eauto|].
    by apply list_lookup_singleton_Some in Ht as [_ <-].
  - destruct (handlers s !! t) as [h|] eqn:Ht; simplify_eq/=. split_and!; [done|by eauto|].
    intros t' h' [(-> & <- & _)|[_ Ht']]%list_lookup_insert_Some; [|by eauto]. simpl. by apply (Hp _ _ Ht).
  - destruct (handlers s !! t) as [h|] eqn:Ht; [|done]. destruct (handle _ _ _ _ _) as [| |l c] eqn:Hg; simplify_eq/=.
    destruct (handle_footprint _ _ _ _ _ _ _ p Hg) as (Ht1 & Hr1 & Hp1); [done|].
    destruct (decide (pointer (at_ h) = Some p)) as [Hq|Hq].
    + destruct (Hp _ _ Ht Hq) as (Ha & key & Hc). unfold handle, wait in Hg. rewrite Hc, Ha in Hg. unfold with_record in Hg.
      rewrite Hr, Hst in Hg. destruct cancel; [|done]. destruct (ctx h); simplify_eq/=.
      split_and!; [done|by eauto|]. intros t' h' [(-> & <- & _)|[_ Ht']]%list_lookup_insert_Some; [done|by eauto].
    + split_and!; [naive_solver|simpl; rewrite (Hr1 Hq); by eauto|].
      intros t' h' [(-> & <- & _)|[_ Ht']]%list_lookup_insert_Some; [|by eauto]. simpl. naive_solver.
Qed.

(** A [Wait] on an orphan stays where it is until its context ends. *)
Definition waits (t p : nat) (s : server) : Prop :=
  ∃ h, handlers s !! t = Some h ∧ at_ h = Have p ∧ ctx h = None ∧ ∃ key, call h = Wait key.

Lemma waits_step t p a s s' :
  orphan p s → waits t p s → keeps_context t a = true → step a s = inr s' → waits t p s'.
Proof.
  intros (_ & (r & Hr & _ & Hst) & _) (h & Ht & Ha & Hx & key & Hc) Hk Hs. unfold waits.
  destruct a as [q|t' e|t' now cancel]; simpl in *.
  - simplify_eq/=. exists h. rewrite lookup_app_l by eauto using lookup_lt_Some. eauto.
  - apply negb_true_iff, Nat.eqb_neq in Hk. destruct (handlers s !! t') as [h'|]; simplify_eq/=.
    exists h. rewrite list_lookup_insert_ne by done. eauto.
  - destruct (handlers s !! t') as [h'|] eqn:Ht'; [|done]. destruct (decide (t' = t)) as [->|?].
    + simplify_eq. unfold handle, wait, with_record in Hs. rewrite Hc, Ha, Hr, Hst, Hx in Hs. by destruct cancel.
    + destruct (handle _ _ _ _ _); simplify_eq/=. exists h. rewrite list_lookup_insert_ne by done. eauto.
Qed.

Lemma waits_forever t p ls s s' :
  orphan p s → waits t p s → forallb (keeps_context t) ls = true → exec ls s = Some s' → waits t p s'.
Proof.
  revert s. induction ls as [|a ls IH]; simpl; intros s Ho Hw Hk He; simplify_eq; [done|].
  apply andb_true_iff in Hk as [Ha Hk]. destruct (step a s) as [|s1] eqn:Hs; [done|].
  eapply IH; [by eapply orphan_step|by eapply waits_step|done|done].
Qed.

(** Two calls of [Shutdown] that both found the first sandbox; the second removes the
    sandbox that was created in between. *)
Definition sandbox_a : CreateRequest :=
  {| SandboxID := lit "a"; Sandboxer := lit "demo-remote"; NetnsPath := []; Rootfs := 0; Annotations := 0; CreateSandbox := None |}.
Definition race : list label :=
  let run t := Run t 7 false in
  [Arrive (Create sandbox_a); run 0%nat; Arrive (Shutdown (lit "a")); Arrive (Shutdown (lit "a")); run 1%nat; run 2%nat;
   run 1%nat; run 1%nat; run 1%nat; run 1%nat; run 1%nat;
   Arrive (Create sandbox_a); run 3%nat; Arrive (Wait (lit "a")); run 4%nat; run 2%nat; run 2%nat].

(** Two overlapping calls of [Shutdown] can remove a sandbox that was created after
    the first of them returned, without stopping it: a [Wait] on that sandbox never
    returns, whatever else is called, unless its context ends. *)
Theorem shutdown_strands_waiter :
  ∃ s, exec race new_server = Some s ∧
    (at_ <$> take 4 (handlers s)) =
      [Done (CreateResponse (lit "a")); Done ShutdownResponse; Done ShutdownResponse; Done (CreateResponse (lit "a"))] ∧
    ∀ ls s', exec ls s = Some s' → forallb (keeps_context 4) ls = true →
      ∃ h key, handlers s' !! 4%nat = Some h ∧ call h = Wait key ∧ at_ h = Have 1%nat.
Proof.
  destruct (exec race new_server) as [s|] eqn:He; [|by vm_compute in He]. exists s.
  assert (s = default new_server (exec race new_server)) as Es by (by rewrite He). split; [done|].
  assert (sandboxes (controller s) = ∅) as Ht by (rewrite Es; vm_compute; reflexivity).
  assert (stopOnce <$> records (controller s) !! 1%nat = Some Fresh) as Ho by (rewrite Es; vm_compute; reflexivity).
  assert (stopped <$> records (controller s) !! 1%nat = Some false) as Hc by (rewrite Es; vm_compute; reflexivity).
  assert ((λ h, (call h, at_ h, ctx h)) <$> handlers s =
    [(Create sandbox_a, Done (CreateResponse (lit "a")), None); (Shutdown (lit "a"), Done ShutdownResponse, None);
     (Shutdown (lit "a"), Done ShutdownResponse, None); (Create sandbox_a, Done (CreateResponse (lit "a")), None);
     (Wait (lit "a"), Have 1%nat, None)]) as Hh by (rewrite Es; vm_compute; reflexivity).
  split; [rewrite Es; vm_compute; reflexivity|]. clear Es He.
  destruct (records (controller s) !! 1%nat) as [r|] eqn:Hr; simplify_eq/=.
  assert (∀ t h, handlers s !! t = Some h → pointer (at_ h) = Some 1%nat → t = 4%nat ∧ at_ h = Have 1%nat ∧ ctx h = None ∧ call h = Wait (lit "a")) as Hp.
  { intros t h Hl Hq. apply (f_equal (lookup t)) in Hh. rewrite list_lookup_fmap, Hl in Hh. simpl in Hh.
    destruct t as [|[|[|[|[|t]]]]]; simpl in Hh; try (injection Hh as H1 H2 H3); [by rewrite H2 in Hq..| |done]. done. }
  assert (waits 4 1 s) as Hw.
  { apply (f_equal (lookup 4%nat)) in Hh. rewrite list_lookup_fmap in Hh.
    destruct (handlers s !! 4%nat) as [h|] eqn:Hl; [|done]. simpl in Hh. injection Hh as H1 H2 H3. exists h. eauto 10. }
  assert (orphan 1 s) as Hor.
  { split_and!; [intros key; rewrite Ht; by rewrite lookup_empty|by eauto|]. intros t h Hl Hq. naive_solver. }
  intros ls s' He Hk. destruct (waits_forever 4 1 ls s s' Hor Hw Hk He) as (h & ? & ? & _ & key & ?). eauto.
Qed.

Lemma restarted_step p a s s' r :
  inv (controller s) (handlers s) → records (controller s) !! p = Some r → stopOnce r = Returned → state r = stateReady →
  step a s = inr s' →
  ∃ r', records (controller s') !! p = Some r' ∧ stopOnce r' = Returned ∧ state r' = stateReady.
Proof.
  intros I Hr Ho Hs Hst. destruct a as [q|t e|t now cancel]; simpl in Hst.
  - simplify_eq/=. by eauto.
  - destruct (handlers s !! t); simplify_eq/=. by eauto.
  - destruct (handlers s !! t) as [h|] eqn:Ht; [|done]. destruct (handle _ _ _ _ _) as [| |l c] eqn:Hg; simplify_eq/=.
    destruct (handle_footprint _ _ _ _ _ _ _ p Hg) as (_ & Hr1 & _); [by eauto using lookup_lt_Some|].
    destruct (decide (pointer (at_ h) = Some p)) as [Hq|Hq]; [|rewrite (Hr1 Hq); by eauto].
    assert (in_once (at_ h) ≠ Some p) as Hno.
    { intros Hi. destruct (inv_handler _ _ I _ _ Ht p Hq) as (r1 & ? & Hx). simplify_eq. specialize (Hx Hi). congruence. }
    unfold handle, start, platform, stop, shutdown, stopRecord, wait, status, metrics, update, get, with_record in Hg.
    destruct (call h), (at_ h); simplify_eq/=; try (rewrite Hr in Hg; simpl in Hg); try rewrite Ho in Hg;
      repeat case_match; simplify_eq/=; eauto;
      rewrite list_lookup_alter_eq, Hr; by eauto.
Qed.

(** A sandbox that is started again after it was stopped stays ready for ever: no
    later [Stop] or [Shutdown] has an effect on its record. *)
Theorem restarted_never_stops s p r ls s' :
  reach s → records (controller s) !! p = Some r → stopOnce r = Returned → state r = stateReady →
  exec ls s = Some s' →
  ∃ r', records (controller s') !! p = Some r' ∧ stopOnce r' = Returned ∧ state r' = stateReady.
Proof.
  revert s r. induction ls as [|a ls IH]; simpl; intros s r Hre Hr Ho Hs He; simplify_eq; [by eauto|].
  destruct (step a s) as [|s1] eqn:Hst; [done|].
  destruct (restarted_step p a s s1 r) as (r1 & Hr1 & Ho1 & Hs1); [by apply reach_ok|done..|].
  eapply (IH s1 r1); [by eapply reach_step|done..].
Qed.

(** ** A [Shutdown] that runs alone *)

Lemma exec_last ls c hs h now cancel :
  exec (Run (length hs) now cancel :: ls) {| controller := c; handlers := hs ++ [h] |} =
  match handle (length hs) now cancel h c with
  | Go l c' => exec ls {| controller := c'; handlers := hs ++ [{| call := call h; at_ := l; ctx := ctx h |}] |}
  | _ => None
  end.
Proof.
  simpl. rewrite lookup_app_r, Nat.sub_diag by done. simpl. destruct (handle _ _ _ _ _); try done.
  by rewrite insert_app_r_alt, Nat.sub_diag by done.
Qed.

(** The steps of [stopRecord] when [stopOnce] is fresh. *)
Definition stopped_record (t : nat) (now : Z) (r : sandboxRecord) : sandboxRecord :=
  set_once Returned (set_closed (set_exited 0 now (set_once (Running t) r))).

Lemma stop_alone ls c hs key now p r x :
  records c !! p = Some r → stopOnce r = Fresh → stopped r = false →
  exec (replicate 4 (Run (length hs) now false) ++ ls)
    {| controller := c; handlers := hs ++ [{| call := Shutdown key; at_ := Have p; ctx := x |}] |} =
  exec ls {| controller := update_record p (stopped_record (length hs) now) c;
             handlers := hs ++ [{| call := Shutdown key; at_ := Deleting p; ctx := x |}] |}.
Proof.
  intros Hr Ho Hst. cbn [replicate app].
  do 4 (rewrite exec_last; unfold handle, shutdown, stopRecord, with_record;
        cbn [call at_ ctx update_record records sandboxes]; rewrite ?list_lookup_alter_eq, Hr;
        cbn [fmap option_fmap option_map stopOnce stopped set_once set_exited set_closed]; rewrite ?Ho, ?Hst).
  do 2 f_equal. unfold update_record. cbn [records sandboxes]. f_equal. by rewrite !list_alter_alter_eq.
Qed.

(** A [Shutdown] with no other call under way stops its sandbox and removes it, in at most
    six steps. *)
Theorem shutdown_alone s key p now :
  reach s → Forall (λ h, ∃ r, at_ h = Done r) (handlers s) → sandboxes (controller s) !! key = Some p →
  ∃ n s' r', (n ≤ 6)%nat ∧
    exec (Arrive (Shutdown key) :: replicate n (Run (length (handlers s)) now false)) s = Some s' ∧
    handlers s' = handlers s ++ [{| call := Shutdown key; at_ := Done ShutdownResponse; ctx := None |}] ∧
    sandboxes (controller s') = delete key (sandboxes (controller s)) ∧
    records (controller s') !! p = Some r' ∧ stopped r' = true.
Proof.
  intros Hre Hd Hk. pose proof (reach_ok _ Hre) as I. destruct s as [c hs]. cbn [controller handlers] in *.
  destruct (inv_table _ _ I _ _ Hk) as (Hne & r & Hr & <-). destruct (inv_record _ _ I _ _ Hr) as [_ Ho].
  assert (∀ ls, exec (Arrive (Shutdown (id r)) :: Run (length hs) now false :: ls) {| controller := c; handlers := hs |} =
    exec ls {| controller := c; handlers := hs ++ [{| call := Shutdown (id r); at_ := Have p; ctx := None |}] |}) as Hget.
  { intros ls. transitivity (exec (Run (length hs) now false :: ls)
      {| controller := c; handlers := hs ++ [{| call := Shutdown (id r); at_ := Entry; ctx := None |}] |}); [done|]. rewrite exec_last. unfold handle, shutdown, get, lookup_record. cbn [call at_ ctx].
    by rewrite decide_False, Hk. }
  destruct (stopOnce r) as [|t|] eqn:Hs.
  - exists 6%nat. change (replicate 6 (Run (length hs) now false)) with
      (Run (length hs) now false :: replicate 4 (Run (length hs) now false) ++ [Run (length hs) now false]).
    rewrite Hget, (stop_alone _ _ _ _ _ _ r) by done. rewrite exec_last.
    unfold handle, shutdown, with_record. cbn [call at_ ctx update_record records]. rewrite list_lookup_alter_eq, Hr.
    eexists _, (stopped_record (length hs) now r). split_and!; [lia|done|done|done| |done].
    cbn [controller records]. by rewrite list_lookup_alter_eq, Hr.
  - destruct Ho as (h & Hh & Hi & _). rewrite Forall_lookup in Hd. destruct (Hd _ _ Hh) as [x Hx]. by rewrite Hx in Hi.
  - exists 3%nat. change (replicate 3 (Run (length hs) now false)) with
      (Run (length hs) now false :: [Run (length hs) now false; Run (length hs) now false]).
    rewrite Hget, exec_last. unfold handle, shutdown, stopRecord, with_record. cbn [call at_ ctx]. rewrite Hr, Hs.
    rewrite exec_last. unfold handle, shutdown, stopRecord, with_record. cbn [call at_ ctx]. rewrite Hr.
    eexists _, r. by split_and!; [lia|..].
Qed.

End handlers.

(** ** The theorems on a run: create, start, stop while another [Stop] waits, start again *)
Definition lifecycle : list label :=
  let run t := Run t 7 false in
  [Arrive (Create sandbox_a); run 0%nat; Arrive (Start (lit "a")); run 1%nat; run 1%nat; run 1%nat;
   Arrive (Stop (lit "a")); Arrive (Stop (lit "a")); run 2%nat; run 3%nat; run 2%nat; run 2%nat].
Definition lifecycle_end : list label :=
  let run t := Run t 9 false in
  [run 2%nat; Arrive (Wait (lit "a")); run 4%nat; run 4%nat; run 2%nat; run 3%nat; run 4%nat;
   Arrive (Start (lit "a")); run 5%nat; run 5%nat; run 5%nat].

Definition after (ls : list label) : server := default new_server (exec (lit "amd64") 42 ls new_server).

Lemma after_reach ls s : exec (lit "amd64") 42 ls new_server = Some s → reach (lit "amd64") 42 s.
Proof. apply exec_reached. constructor. Qed.

Lemma lifecycle_linearizable_witness :
  ∃ S1 S2, rtc (spec_step (lit "amd64") 42) (∅, []) S1 ∧ rtc (spec_step (lit "amd64") 42) S1 S2 ∧
    shows (after lifecycle) S1 ∧ shows (after (lifecycle ++ lifecycle_end)) S2.
Proof. apply (lifecycle_linearizable (lit "amd64") 42 lifecycle lifecycle_end); vm_compute; reflexivity. Defined.

Lemma controller_safe_witness :
  reach (lit "amd64") 42 (after lifecycle) ∧
  ∃ r t' s', records (controller (after lifecycle)) !! 0%nat = Some r ∧ stopOnce r = Running t' ∧
    step (lit "amd64") 42 (Run t' 9 false) (after lifecycle) = inr s'.
Proof.
  assert (reach (lit "amd64") 42 (after lifecycle)) as Hr by (apply (after_reach lifecycle); vm_compute; reflexivity).
  split; [exact Hr|]. destruct (controller_safe (lit "amd64") 42 _ Hr) as (_ & _ & _ & Hp).
  apply (Hp 3%nat {| call := Stop (lit "a"); at_ := Have 0%nat; ctx := None |} 0%nat); vm_compute; reflexivity.
Defined.

Lemma restarted_never_stops_witness :
  ∃ r', records (controller (after (lifecycle ++ lifecycle_end ++ [Arrive (Stop (lit "a")); Run 6 10 false; Run 6 10 false]))) !! 0%nat = Some r' ∧
    stopOnce r' = Returned ∧ state r' = stateReady.
Proof.
  destruct (records (controller (after (lifecycle ++ lifecycle_end))) !! 0%nat) as [r|] eqn:Hr; [|vm_compute in Hr; discriminate Hr].
  apply (restarted_never_stops (lit "amd64") 42 (after (lifecycle ++ lifecycle_end)) 0 r [Arrive (Stop (lit "a")); Run 6 10 false; Run 6 10 false]).
  - apply (after_reach (lifecycle ++ lifecycle_end)). vm_compute. reflexivity.
  - exact Hr.
  - vm_compute in Hr. injection Hr as <-. reflexivity.
  - vm_compute in Hr. injection Hr as <-. reflexivity.
  - vm_compute. reflexivity.
Defined.
End RemoteController.
