(* ===== verification/CProg.v ===== *)
(** * C programs as trees of system calls

    The C programs of the repository are sequences of calls into the kernel and the C
    library whose results they test.  A program is the tree of these calls; what the
    system answers is an argument of a run, so a theorem about all runs holds on every
    system that meets the hypotheses on its answers.  The trace of a run lists its calls
    and answers, the last one first.  [held] counts what a run has acquired and not
    released, and [wp] is the weakest condition on a trace under which a program makes only
    legal calls and ends well. *)

From S2P Require Import Prelude.

(** The result of a call, [errno] where it failed, and the bytes or fields it wrote. *)
Record answer := { ret : Z; errno : Z; data : list Z }.

Inductive prog (C A : Type) : Type :=
| Ret (a : A)
| Call (c : C) (k : answer → prog C A).
Arguments Ret {C A} a.
Arguments Call {C A} c k.

Global Instance prog_ret {C} : MRet (prog C) := λ A a, Ret a.
Global Instance prog_bind {C} : MBind (prog C) := λ A B f,
  fix bind p := match p with Ret a => f a | Call c k => Call c (λ x, bind (k x)) end.

Definition sys {C} (c : C) : prog C answer := Call c Ret.

Notation trace C := (list (C * answer)).

(** A run on the system [env], which sees all calls so far. *)
Fixpoint run {C A} (env : trace C → C → answer) (p : prog C A) (t : trace C) : A * trace C :=
  match p with
  | Ret a => (a, t)
  | Call c k => run env (k (env t c)) ((c, env t c) :: t)
  end.

(** ** Resources *)

(** What a call with its answer acquires and releases. *)
Class Ledger (C R : Type) := { ledger_eq : EqDecision R; effect : C → answer → list (R * Z) }.
Global Existing Instance ledger_eq.

Section ledger.
Context {C R : Type} {L : Ledger C R}.

Definition unit_of (r r' : R) : Z := if decide (r = r') then 1 else 0.

Definition change (l : list (R * Z)) (r : R) : Z := foldr (λ '(r', n) acc, n * unit_of r' r + acc) 0 l.

Fixpoint held (t : trace C) (r : R) : Z :=
  match t with
  | [] => 0
  | (c, x) :: t' => held t' r + change (effect c x) r
  end.

(** The trace holds exactly the resources of a list. *)
Definition total (l : list R) (r : R) : Z := foldr (λ r' acc, unit_of r' r + acc) 0 l.
Definition owns (t : trace C) (l : list R) : Prop := ∀ r, held t r = total l r.

Lemma unit_of_refl r : unit_of r r = 1.
Proof. unfold unit_of. by rewrite decide_True. Qed.

Lemma unit_of_ne r r' : r ≠ r' → unit_of r r' = 0.
Proof. intros. unfold unit_of. by rewrite decide_False. Qed.

Lemma unit_of_nonneg r r' : 0 ≤ unit_of r r'.
Proof. unfold unit_of. case_decide; lia. Qed.

Lemma total_pos l r : 0 ≤ total l r.
Proof. induction l as [|r' l IH]; simpl; [lia|]. pose proof (unit_of_nonneg r' r). lia. Qed.

Lemma owns_nil : owns [] [].
Proof. done. Qed.

Lemma owns_held t l r : owns t l → r ∈ l → 1 ≤ held t r.
Proof.
  intros Ho Hr. rewrite Ho. clear Ho. induction l as [|r' l IH]; [by apply not_elem_of_nil in Hr|]. simpl.
  apply elem_of_cons in Hr as [->|Hr]; [rewrite unit_of_refl; pose proof (total_pos l r'); lia|].
  specialize (IH Hr). pose proof (unit_of_nonneg r' r). lia.
Qed.

(** A call changes the list by its effect. *)
Lemma owns_step t l l' c x :
  owns t l → (∀ r, total l r + change (effect c x) r = total l' r) → owns ((c, x) :: t) l'.
Proof. intros Ho Hc r. simpl. rewrite Ho. apply Hc. Qed.
End ledger.

(** ** Weakest preconditions *)
Section wp.
Context {C : Type}.
(** The calls a program may make after a trace, and the answers the system may give. *)
Context (legal : trace C → C → Prop) (allowed : trace C → C → answer → Prop).

Fixpoint wp {A} (p : prog C A) (Q : A → trace C → Prop) (t : trace C) : Prop :=
  match p with
  | Ret a => Q a t
  | Call c k => legal t c ∧ ∀ x, allowed t c x → wp (k x) Q ((c, x) :: t)
  end.

(** Every call of the trace was legal when it was made. *)
Fixpoint all_legal (t : trace C) : Prop :=
  match t with
  | [] => True
  | (c, _) :: t' => legal t' c ∧ all_legal t'
  end.

Lemma wp_mono {A} (p : prog C A) (Q Q' : A → trace C → Prop) t :
  wp p Q t → (∀ a t', Q a t' → Q' a t') → wp p Q' t.
Proof.
  intros Hp HQ. revert t Hp. induction p as [a|c k IH]; simpl; [auto|]. intros t [Hl Hk]. split; [done|].
  intros x Hx. apply IH, Hk, Hx.
Qed.

Lemma wp_bind {A B} (p : prog C A) (f : A → prog C B) (Q : B → trace C → Prop) t :
  wp p (λ a, wp (f a) Q) t → wp (p ≫= f) Q t.
Proof.
  revert t. induction p as [a|c k IH]; simpl; [done|]. intros t [Hl Hk]. split; [done|]. intros x Hx. apply IH, Hk, Hx.
Qed.

Lemma wp_sys c (Q : answer → trace C → Prop) t :
  legal t c → (∀ x, allowed t c x → Q x ((c, x) :: t)) → wp (sys c) Q t.
Proof. by split. Qed.

(** A run only adds to its trace. *)
Lemma wp_suffix {A} (p : prog C A) (Q : A → trace C → Prop) t :
  wp p Q t → wp p (λ a t', Q a t' ∧ t `suffix_of` t') t.
Proof.
  assert (∀ t0, t0 `suffix_of` t → wp p Q t → wp p (λ a t', Q a t' ∧ t0 `suffix_of` t') t) as H; [|by apply H].
  intros t0. revert t. induction p as [a|c k IH]; simpl; [done|]. intros t Hs [Hl Hk]. split; [done|].
  intros x Hx. apply IH; [by apply suffix_cons_r|]. by apply Hk.
Qed.

Lemma wp_ret {A} (a : A) (Q : A → trace C → Prop) t : Q a t → wp (mret a) Q t.
Proof. done. Qed.

(** The condition is sound for the runs on an allowed system. *)
Lemma wp_sound {A} env (p : prog C A) (Q : A → trace C → Prop) t :
  (∀ t c, allowed t c (env t c)) → wp p Q t → Q (run env p t).1 (run env p t).2.
Proof. intros He. revert t. induction p as [a|c k IH]; simpl; [done|]. intros t [_ Hk]. apply IH, Hk, He. Qed.

Lemma wp_legal {A} env (p : prog C A) (Q : A → trace C → Prop) t :
  (∀ t c, allowed t c (env t c)) → all_legal t → wp p Q t → all_legal (run env p t).2.
Proof.
  intros He. revert t. induction p as [a|c k IH]; simpl; [done|]. intros t Ht [Hl Hk]. apply IH; [by split|]. apply Hk, He.
Qed.
End wp.
Arguments wp : simpl never.

(** ** One call of a program that owns a list of resources *)
Section rules.
Context {C R : Type} {L : Ledger C R}.
Context (legal : trace C → C → Prop) (allowed : trace C → C → answer → Prop).
Context {A : Type} (k : answer → prog C A) (Q : A → trace C → Prop) (t : trace C) (l : list R) (c : C).
Context (Ho : owns t l) (Hl : legal t c).

(** A call without effect. *)
Lemma wp_neutral :
  (∀ x, effect c x = []) → (∀ x t', allowed t c x → owns t' l → wp legal allowed (k x) Q t') →
  wp legal allowed (Call c k) Q t.
Proof using Ho Hl.
  intros He Hk. split; [done|]. intros x Hx. apply (Hk x); [done|]. eapply owns_step; [done|].
  intros r. rewrite He. simpl. lia.
Qed.

(** A call that acquires [r], depending on its answer. *)
Lemma wp_acquire (good : answer → bool) (r : answer → R) :
  (∀ x, effect c x = if good x then [(r x, 1)] else []) →
  (∀ x t', allowed t c x → good x = false → owns t' l → wp legal allowed (k x) Q t') →
  (∀ x t', allowed t c x → good x = true → owns t' (r x :: l) → wp legal allowed (k x) Q t') →
  wp legal allowed (Call c k) Q t.
Proof using Ho Hl.
  intros He Hn Hy. split; [done|]. intros x Hx. specialize (He x). destruct (good x) eqn:Hg.
  - apply Hy; [done..|]. eapply owns_step; [done|]. intros q. rewrite He. simpl. lia.
  - apply Hn; [done..|]. eapply owns_step; [done|]. intros q. rewrite He. simpl. lia.
Qed.

(** A call that releases [r]. *)
Lemma wp_release r l' :
  (∀ x, effect c x = [(r, -1)]) → (∀ q, total l q = unit_of r q + total l' q) →
  (∀ x t', allowed t c x → owns t' l' → wp legal allowed (k x) Q t') →
  wp legal allowed (Call c k) Q t.
Proof using Ho Hl.
  intros He Hp Hk. split; [done|]. intros x Hx. apply (Hk x); [done|]. eapply owns_step; [done|].
  intros q. rewrite He. simpl. specialize (Hp q). lia.
Qed.
End rules.

(** The next call is legal: what it uses is owned.  A program adds what else its calls
    need by redefining [legal_more]. *)
Ltac legal_more := fail.
Ltac legal_tac :=
  first [ exact I | cbn; lia | legal_more
        | match goal with H : owns ?t ?l |- _ => cbn;
            first [ apply (owns_held t l _ H); set_solver | right; apply (owns_held t l _ H); set_solver
                  | intros _; apply (owns_held t l _ H); set_solver ] end ].

(** Step over a call that changes nothing, that acquires, that releases. *)
Tactic Notation "neutral" ident(x) ident(t') ident(H) :=
  cbn [mbind prog_bind sys]; eapply wp_neutral; [eassumption|legal_tac|done|]; intros x t' ? H.
Tactic Notation "acquire" constr(g) constr(q) ident(x) ident(t') ident(H) :=
  cbn [mbind prog_bind sys]; eapply wp_acquire with (good := g) (r := q);
  [eassumption|legal_tac|by intros x; cbn; zcases; try lia| |]; intros x t' ? ? H.
Tactic Notation "release" constr(q) constr(m) ident(t') ident(H) :=
  cbn [mbind prog_bind sys]; eapply wp_release with (r := q) (l' := m);
  [eassumption|legal_tac|done|intros ?; simpl; lia|]; intros _ t' _ H.

(** The result of a call that fails with a negative number, or gives a descriptor. *)
Notation gets_fd := (λ x, 0 <=? ret x).

(** A program made of calls continues the trace it starts from. *)
Lemma run_bind {C A B} env (p : prog C A) (f : A → prog C B) t :
  run env (p ≫= f) t = run env (f (run env p t).1) (run env p t).2.
Proof. revert t. induction p as [a|c k IH]; simpl; [done|]. intros t. apply IH. Qed.

(** ** Integers of C

    An [int] that does not fit is undefined behaviour in a computation; a conversion
    takes the low bits. *)
Definition to_int (x : Z) : Z := let y := x mod 2 ^ 32 in if y <? 2 ^ 31 then y else y - 2 ^ 32.
Definition to_u32 (x : Z) : Z := x mod 2 ^ 32.
Definition to_u64 (x : Z) : Z := x mod 2 ^ 64.

Lemma to_int_small x : 0 ≤ x < 2 ^ 31 → to_int x = x.
Proof. intros Hx. unfold to_int. rewrite Z.mod_small by lia. by destruct (Z.ltb_spec x (2 ^ 31)); [|lia]. Qed.

Lemma to_u64_small x : is_u64 x → to_u64 x = x.
Proof. unfold is_u64, to_u64. intros. by apply Z.mod_small. Qed.
