(* ===== verification/UffdCow.v ===== *)
(** * The shared-memory copy-on-write program

    Model of [src/uffd-cow/]: [page_meta.c], [test_data.c], [shmem.c], [uffd_handler.c] and
    [main.c], as trees of system calls.  A creator makes two memory files, the metadata and
    the data, and a file with the content of the pages; workers map the memory files.  In
    each process a thread handles the faults on the data.  [main_releases] says that every
    path through the program gives back what it acquired, [handler_thread_safe] the same of
    the thread; [loaded_page_writable] and [cow_discards_page] say what the handler does
    with a page.  Output is not modelled, and the state of a page in the shared metadata is
    read and written by calls, since other processes change it. *)

From S2P Require Import Prelude RustStr Kernel CProg.

Module UffdCow.

Definition PAGE_SIZE : Z := 4096.
Definition PAGE_COUNT : Z := 4.
Definition REGION_SIZE : Z := PAGE_SIZE * PAGE_COUNT.
Definition META_SIZE : Z := PAGE_SIZE.
Definition TEST_FILE_PATH : str := lit "/tmp/uffd-cow-test.bin".

Definition PAGE_UNLOADED : Z := 0.
Definition PAGE_LOADED : Z := 1.

(** [sizeof(struct shared_page_meta)] *)
Definition META_ENTRY : Z := 16.

Record local_page_state := { is_private : bool; private_addr : Z }.

Record config := {
  region_size : Z; page_count : Z;
  meta_path : option str; data_path : option str;
  meta_fd : Z; data_fd : Z; meta_base : Z; data_base : Z;
  uffd : Z;
  (** the pointer [calloc] returned, and what it points at *)
  local_ptr : Z; local_pages : list local_page_state;
  test_file_path : str; is_creator : bool }.

(** ** Calls

    [mmap] and [calloc] answer with an address; [MAP_FAILED] is -1.  [read_event] gives the
    fields [event], [flags] and [address] of a message.  [undefined] stands for behaviour
    the language does not define. *)
Inductive call :=
| memfd_create (name : str) (flags : Z)
| ftruncate (fd len : Z)
| open (path : str) (flags : Z)
| close (fd : Z)
| write (fd : Z) (bytes : list Z)
| lseek (fd offset : Z)
| read (fd size : Z)
| unlink (path : str)
| mmap (addr len prot flags fd offset : Z)
| munmap (addr len : Z)
| calloc (count size : Z)
| free (ptr : Z)
| userfaultfd (flags : Z)
| ioctl_api (fd features : Z)
| ioctl_register (fd start len mode : Z)
| ioctl_writeprotect (fd start len mode : Z)
| ioctl_copy (fd dst : Z) (src : list Z) (len mode : Z)
| read_event (fd : Z)
| load_running
| store_running (b : bool)
| pthread_create
| pthread_join
| getchar
| load (addr len : Z)
| store (addr : Z) (bytes : list Z)
| load_state (page : Z)
| store_state (page state : Z)
| store_offset (page offset : Z)
| undefined.

Definition MAP_FAILED : Z := -1.
Definition O_RDONLY : Z := 0.
Definition O_RDWR : Z := 2.
(** [O_WRONLY | O_CREAT | O_TRUNC] *)
Definition O_CREATE : Z := 577.
Definition UFFDIO_WRITEPROTECT_MODE_WP : Z := 1.

Notation prog := (prog call).

(** ** Fields of the configuration *)
Definition set_fds (m d : Z) (c : config) : config :=
  {| region_size := region_size c; page_count := page_count c; meta_path := meta_path c; data_path := data_path c;
     meta_fd := m; data_fd := d; meta_base := meta_base c; data_base := data_base c; uffd := uffd c;
     local_ptr := local_ptr c; local_pages := local_pages c; test_file_path := test_file_path c; is_creator := is_creator c |}.
Definition set_bases (m d : Z) (c : config) : config :=
  {| region_size := region_size c; page_count := page_count c; meta_path := meta_path c; data_path := data_path c;
     meta_fd := meta_fd c; data_fd := data_fd c; meta_base := m; data_base := d; uffd := uffd c;
     local_ptr := local_ptr c; local_pages := local_pages c; test_file_path := test_file_path c; is_creator := is_creator c |}.
Definition set_uffd (u : Z) (c : config) : config :=
  {| region_size := region_size c; page_count := page_count c; meta_path := meta_path c; data_path := data_path c;
     meta_fd := meta_fd c; data_fd := data_fd c; meta_base := meta_base c; data_base := data_base c; uffd := u;
     local_ptr := local_ptr c; local_pages := local_pages c; test_file_path := test_file_path c; is_creator := is_creator c |}.
Definition set_locals (ptr : Z) (l : list local_page_state) (c : config) : config :=
  {| region_size := region_size c; page_count := page_count c; meta_path := meta_path c; data_path := data_path c;
     meta_fd := meta_fd c; data_fd := data_fd c; meta_base := meta_base c; data_base := data_base c; uffd := uffd c;
     local_ptr := ptr; local_pages := l; test_file_path := test_file_path c; is_creator := is_creator c |}.
Definition set_role (creator : bool) (m d : option str) (c : config) : config :=
  {| region_size := region_size c; page_count := page_count c; meta_path := m; data_path := d;
     meta_fd := meta_fd c; data_fd := data_fd c; meta_base := meta_base c; data_base := data_base c; uffd := uffd c;
     local_ptr := local_ptr c; local_pages := local_pages c; test_file_path := test_file_path c; is_creator := creator |}.

(** ** [page_meta.c] *)

Fixpoint init_shared_pages_from (i : Z) (n : nat) : prog unit :=
  match n with
  | O => mret tt
  | S n' =>
      _ ← sys (store_offset i (to_u64 (i * PAGE_SIZE))); _ ← sys (store_state i PAGE_UNLOADED);
      init_shared_pages_from (i + 1) n'
  end.
Definition init_shared_pages (count : Z) : prog unit := init_shared_pages_from 0 (Z.to_nat count).

(** [sizeof(struct local_page_state)] is 16. *)
Definition init_local_pages (c : config) : prog (Z * config) :=
  x ← sys (calloc (page_count c) 16);
  if ret x =? 0 then mret (-1, set_locals 0 [] c)
  else mret (0, set_locals (ret x) (zreplicate (page_count c) {| is_private := false; private_addr := 0 |}) c).

Definition free_local_pages (c : config) : prog unit := _ ← sys (free (local_ptr c)); mret tt.

Definition get_page_index (data_base fault_addr : Z) : Z := to_int (to_u64 (fault_addr - data_base) / PAGE_SIZE).

(** ** [test_data.c] *)

(** The pages of the test file: 'A', 'B', 'C' and 'D'. *)
Definition patterns : list Z := [65; 66; 67; 68].

Fixpoint write_patterns (fd : Z) (l : list Z) : prog Z :=
  match l with
  | [] => _ ← sys (close fd); mret 0
  | p :: l' =>
      x ← sys (write fd (zreplicate PAGE_SIZE p));
      if negb (ret x =? PAGE_SIZE) then _ ← sys (close fd); mret (-1) else write_patterns fd l'
  end.

Definition create_test_file (path : str) : prog Z :=
  x ← sys (open path O_CREATE);
  if ret x <? 0 then mret (-1) else write_patterns (ret x) patterns.

(** The result and the bytes in the buffer. *)
Definition read_page_from_file (path : str) (offset size : Z) : prog (Z * list Z) :=
  x ← sys (open path O_RDONLY);
  if ret x <? 0 then mret (-1, [])
  else
    let fd := ret x in
    y ← sys (lseek fd offset);
    if ret y <? 0 then _ ← sys (close fd); mret (-1, [])
    else
      z ← sys (read fd size);
      if negb (ret z =? size) then _ ← sys (close fd); mret (-1, [])
      else _ ← sys (close fd); mret (0, data z).

(** ** [shmem.c] *)

Definition create_memfds (c : config) : prog (Z * config) :=
  m ← sys (memfd_create (lit "uffd-cow-meta") MFD_CLOEXEC);
  let c1 := set_fds (ret m) (data_fd c) c in
  if ret m <? 0 then mret (-1, c1)
  else
    x ← sys (ftruncate (ret m) META_SIZE);
    if ret x <? 0 then _ ← sys (close (ret m)); mret (-1, c1)
    else
      d ← sys (memfd_create (lit "uffd-cow-data") MFD_CLOEXEC);
      let c2 := set_fds (ret m) (ret d) c in
      if ret d <? 0 then _ ← sys (close (ret m)); mret (-1, c2)
      else
        y ← sys (ftruncate (ret d) (region_size c));
        if ret y <? 0 then _ ← sys (close (ret m)); _ ← sys (close (ret d)); mret (-1, c2)
        else mret (0, c2).

(** A null path makes [open] fail. *)
Definition open_memfds (c : config) : prog (Z * config) :=
  m ← sys (open (default [] (meta_path c)) O_RDWR);
  let c1 := set_fds (ret m) (data_fd c) c in
  if ret m <? 0 then mret (-1, c1)
  else
    d ← sys (open (default [] (data_path c)) O_RDWR);
    let c2 := set_fds (ret m) (ret d) c in
    if ret d <? 0 then _ ← sys (close (ret m)); mret (-1, c2) else mret (0, c2).

Definition mmap_regions (c : config) : prog (Z * config) :=
  m ← sys (mmap 0 META_SIZE (Z.lor PROT_READ PROT_WRITE) MAP_SHARED (meta_fd c) 0);
  let c1 := set_bases (ret m) (data_base c) c in
  if ret m =? MAP_FAILED then mret (-1, c1)
  else
    d ← sys (mmap 0 (region_size c) (Z.lor PROT_READ PROT_WRITE) MAP_SHARED (data_fd c) 0);
    let c2 := set_bases (ret m) (ret d) c in
    if ret d =? MAP_FAILED then _ ← sys (munmap (ret m) META_SIZE); mret (-1, c2) else mret (0, c2).

Definition when (b : bool) (p : prog answer) : prog unit := if b then _ ← p; mret tt else mret tt.

Definition is_mapped (base : Z) : bool := negb (base =? 0) && negb (base =? MAP_FAILED).

Definition cleanup_shmem (c : config) : prog unit :=
  _ ← when (is_mapped (data_base c)) (sys (munmap (data_base c) (region_size c)));
  _ ← when (is_mapped (meta_base c)) (sys (munmap (meta_base c) META_SIZE));
  _ ← when (0 <=? data_fd c) (sys (close (data_fd c)));
  when (0 <=? meta_fd c) (sys (close (meta_fd c))).

(** ** [uffd_handler.c] *)

Definition init_uffd (c : config) : prog (Z * config) :=
  u ← sys (userfaultfd (Z.lor O_CLOEXEC O_NONBLOCK));
  if ret u <? 0 then mret (-1, set_uffd (ret u) c)
  else
    x ← sys (ioctl_api (ret u) UFFD_FEATURE_PAGEFAULT_FLAG_WP);
    if ret x <? 0 then _ ← sys (close (ret u)); mret (-1, set_uffd (-1) c)
    else if Z.land (nth 0 (data x) 0) UFFD_FEATURE_PAGEFAULT_FLAG_WP =? 0 then
      _ ← sys (close (ret u)); mret (-1, set_uffd (-1) c)
    else mret (0, set_uffd (ret u) c).

Definition register_uffd (c : config) : prog Z :=
  x ← sys (ioctl_register (uffd c) (data_base c) (region_size c) (Z.lor UFFDIO_REGISTER_MODE_MISSING UFFDIO_REGISTER_MODE_WP));
  mret (if ret x <? 0 then -1 else 0).

Definition enable_writeprotect (c : config) : prog Z :=
  x ← sys (ioctl_writeprotect (uffd c) (data_base c) (region_size c) UFFDIO_WRITEPROTECT_MODE_WP);
  mret (if ret x <? 0 then -1 else 0).

Definition cleanup_uffd (c : config) : prog config :=
  if 0 <=? uffd c then _ ← sys (close (uffd c)); mret (set_uffd (-1) c) else mret c.

(** A missing fault: the page of the file, copied and left writable. *)
Definition missing_fault (c : config) (page_idx page_addr : Z) : prog unit :=
  '(r, buffer) ← read_page_from_file (test_file_path c) (to_u64 (page_idx * PAGE_SIZE)) PAGE_SIZE;
  if r <? 0 then mret tt
  else
    x ← sys (ioctl_copy (uffd c) page_addr buffer PAGE_SIZE 0);
    if ret x <? 0 then mret tt
    else
      s ← sys (load_state page_idx);
      when (ret s =? PAGE_UNLOADED) (sys (store_state page_idx PAGE_LOADED)).

(** A write-protection fault: anonymous memory over the page. *)
Definition wp_fault (c : config) (page_idx page_addr : Z) : prog config :=
  match znth (local_pages c) page_idx with
  | None => _ ← sys undefined; mret c
  | Some l =>
      if is_private l then
        _ ← sys (ioctl_writeprotect (uffd c) page_addr PAGE_SIZE 0); mret c
      else
        m ← sys (mmap page_addr PAGE_SIZE (Z.lor PROT_READ PROT_WRITE)
                   (Z.lor (Z.lor MAP_FIXED MAP_PRIVATE) MAP_ANONYMOUS) (-1) 0);
        if ret m =? MAP_FAILED then mret c
        else
          s ← sys (load_state page_idx);
          _ ← when (ret s =? PAGE_LOADED)
                (b ← sys (load page_addr PAGE_SIZE); sys (store (ret m) (data b)));
          mret (set_locals (local_ptr c)
                  (zset (local_pages c) page_idx {| is_private := true; private_addr := ret m |}) c)
  end.

(** The body of the loop; [None] is its [break]. *)
Definition handler_turn (c : config) : prog (option config) :=
  e ← sys (read_event (uffd c));
  if ret e <=? 0 then
    mret (if (errno e =? EAGAIN) || (errno e =? EINTR) then Some c else None)
  else if negb (nth 0 (data e) 0 =? UFFD_EVENT_PAGEFAULT) then mret (Some c)
  else
    let flags := nth 1 (data e) 0 in
    let fault_addr := nth 2 (data e) 0 in
    let page_idx := get_page_index (data_base c) fault_addr in
    let page_addr := to_u64 (data_base c + page_idx * PAGE_SIZE) in
    if Z.land flags UFFD_PAGEFAULT_FLAG_WP =? 0 then _ ← missing_fault c page_idx page_addr; mret (Some c)
    else c' ← wp_fault c page_idx page_addr; mret (Some c').

(** [None] when [fuel] turns were not enough. *)
Fixpoint uffd_handler_thread (fuel : nat) (c : config) : prog (option config) :=
  match fuel with
  | O => mret None
  | S fuel' =>
      x ← sys load_running;
      if ret x =? 0 then mret (Some c)
      else
        o ← handler_turn c;
        match o with None => mret (Some c) | Some c' => uffd_handler_thread fuel' c' end
  end.

Definition start_uffd_thread : prog Z :=
  _ ← sys (store_running true);
  x ← sys pthread_create;
  if negb (ret x =? 0) then _ ← sys (store_running false); mret (-1) else mret 0.

Definition stop_uffd_thread : prog unit :=
  _ ← sys (store_running false); _ ← sys pthread_join; mret tt.

(** ** [main.c] *)

Fixpoint parse_paths (l : list str) (m d : option str) : option str * option str :=
  match l with
  | a :: (v :: l' as rest) =>
      if decide (a = lit "--meta") then parse_paths l' (Some v) d
      else if decide (a = lit "--data") then parse_paths l' m (Some v)
      else parse_paths rest m d
  | _ => (m, d)
  end.

Definition parse_args (argv : list str) (c : config) : Z * config :=
  match argv with
  | _ :: mode :: rest =>
      if decide (mode = lit "--create") then (0, set_role true None None c)
      else if decide (mode = lit "--join") then
        let c1 := set_role false (meta_path c) (data_path c) c in
        if zlen argv <? 6 then (-1, c1)
        else
          let '(m, d) := parse_paths rest (meta_path c) (data_path c) in
          let c2 := set_role false m d c in
          match m, d with Some _, Some _ => (0, c2) | _, _ => (-1, c2) end
      else (-1, c)
  | _ => (-1, c)
  end.

(** The fields that are not named here keep what was on the stack. *)
Definition init_config (c : config) : config :=
  {| region_size := REGION_SIZE; page_count := PAGE_COUNT; meta_path := meta_path c; data_path := data_path c;
     meta_fd := -1; data_fd := -1; meta_base := 0; data_base := 0; uffd := -1;
     local_ptr := 0; local_pages := []; test_file_path := TEST_FILE_PATH; is_creator := is_creator c |}.

(** From [register_uffd] to the end, which the two roles share but for the file and for
    what they do while the handler runs. *)
Definition leave (c : config) (finish : prog unit) : prog unit :=
  _ ← free_local_pages c; _ ← cleanup_shmem c; finish.

Definition serve (c : config) (body finish : prog unit) : prog Z :=
  r1 ← register_uffd c;
  if r1 <? 0 then c' ← cleanup_uffd c; _ ← leave c' finish; mret (-1)
  else
    r2 ← enable_writeprotect c;
    if r2 <? 0 then c' ← cleanup_uffd c; _ ← leave c' finish; mret (-1)
    else
      r3 ← start_uffd_thread;
      if r3 <? 0 then c' ← cleanup_uffd c; _ ← leave c' finish; mret (-1)
      else
        _ ← body;
        _ ← stop_uffd_thread; c' ← cleanup_uffd c; _ ← leave c' finish; mret 0.

(** From [init_local_pages] on. *)
Definition set_up (c : config) (body finish : prog unit) : prog Z :=
  '(r1, c1) ← init_local_pages c;
  if r1 <? 0 then _ ← cleanup_shmem c1; _ ← finish; mret (-1)
  else
    '(r2, c2) ← init_uffd c1;
    if r2 <? 0 then _ ← leave c2 finish; mret (-1)
    else serve c2 body finish.

Definition run_creator (c : config) : prog Z :=
  let finish := _ ← sys (unlink (test_file_path c)); mret tt in
  '(r1, c1) ← create_memfds c;
  if r1 <? 0 then mret (-1)
  else
    r2 ← create_test_file (test_file_path c1);
    if r2 <? 0 then _ ← cleanup_shmem c1; mret (-1)
    else
      '(r3, c3) ← mmap_regions c1;
      if r3 <? 0 then _ ← cleanup_shmem c3; _ ← finish; mret (-1)
      else
        _ ← init_shared_pages (page_count c3);
        set_up c3 (_ ← sys getchar; mret tt) finish.

Definition demo_operations (c : config) : prog unit :=
  _ ← sys (load (data_base c) 1);
  _ ← sys (load (data_base c + PAGE_SIZE) 1);
  _ ← sys (store (data_base c) (zreplicate PAGE_SIZE 88));
  _ ← sys (load (data_base c) 1);
  mret tt.

Definition run_worker (c : config) : prog Z :=
  '(r1, c1) ← open_memfds c;
  if r1 <? 0 then mret (-1)
  else
    '(r2, c2) ← mmap_regions c1;
    if r2 <? 0 then _ ← cleanup_shmem c2; mret (-1)
    else set_up c2 (demo_operations c2) (mret tt).

(** [main] with the stack as it was. *)
Definition main (argv : list str) (stack : config) : prog Z :=
  let '(r, c) := parse_args argv (init_config stack) in
  if r <? 0 then mret 1
  else r' ← (if is_creator c then run_creator c else run_worker c); mret (if r' <? 0 then 1 else 0).

(** ** Resources *)

Inductive resource := Fd (fd : Z) | Mapping (addr len : Z) | Heap (ptr : Z) | Thread | TestFile (path : str).

Global Instance resource_eq : EqDecision resource.
Proof. solve_decision. Defined.

Definition effect_of (c : call) (x : answer) : list (resource * Z) :=
  match c with
  | memfd_create _ _ | userfaultfd _ => if ret x <? 0 then [] else [(Fd (ret x), 1)]
  | open path flags =>
      if ret x <? 0 then [] else if flags =? O_CREATE then [(Fd (ret x), 1); (TestFile path, 1)] else [(Fd (ret x), 1)]
  | close fd => [(Fd fd, -1)]
  | unlink path => [(TestFile path, -1)]
  | mmap addr len _ _ _ _ => if ret x =? MAP_FAILED then [] else if addr =? 0 then [(Mapping (ret x) len, 1)] else []
  | munmap addr len => [(Mapping addr len, -1)]
  | calloc _ _ => if ret x =? 0 then [] else [(Heap (ret x), 1)]
  | free ptr => if ptr =? 0 then [] else [(Heap ptr, -1)]
  | pthread_create => if ret x =? 0 then [(Thread, 1)] else []
  | pthread_join => [(Thread, -1)]
  | _ => []
  end.

Global Instance uffd_ledger : Ledger call resource := {| effect := effect_of |}.

(** A program only uses and releases what it holds, and accesses the metadata within the
    region. *)
Definition legal (t : trace call) (c : call) : Prop :=
  match c with
  | close fd | ftruncate fd _ | write fd _ | lseek fd _ | read fd _
  | ioctl_api fd _ | ioctl_register fd _ _ _ | ioctl_writeprotect fd _ _ _ | ioctl_copy fd _ _ _ _ | read_event fd =>
      1 ≤ held t (Fd fd)
  | mmap addr _ _ _ fd _ => addr = 0 → 1 ≤ held t (Fd fd)
  | munmap addr len => 1 ≤ held t (Mapping addr len)
  | free ptr => ptr = 0 ∨ 1 ≤ held t (Heap ptr)
  | pthread_join => 1 ≤ held t Thread
  | unlink path => 1 ≤ held t (TestFile path)
  | load_state i | store_state i _ | store_offset i _ => 0 ≤ i < META_SIZE / META_ENTRY
  | undefined => False
  | _ => True
  end.

(** [mmap] does not choose the null page; bit 4 of its flags is [MAP_FIXED]. *)
Definition allowed (t : trace call) (c : call) (x : answer) : Prop :=
  match c with mmap _ _ _ flags _ _ => Z.testbit flags 4 = false → ret x ≠ 0 | _ => True end.

(** The data could not be mapped. *)
Definition data_failed (t : trace call) : Prop :=
  ∃ prot flags fd off x, (mmap 0 REGION_SIZE prot flags fd off, x) ∈ t ∧ ret x = MAP_FAILED.

(** [cleanup_shmem] after [mmap_regions], which unmapped the metadata when it could not map
    the data. *)
Definition second_unmap (t : trace call) (c : call) : Prop :=
  ∃ a x prot flags fd off y t', c = munmap a META_SIZE ∧
    t = (munmap a META_SIZE, x) :: (mmap 0 REGION_SIZE prot flags fd off, y) :: t' ∧ ret y = MAP_FAILED.

Definition tolerated (t : trace call) (c : call) : Prop := legal t c ∨ second_unmap t c.

(** The trace holds the resources of a list, except that the metadata at [a] was unmapped
    once too often. *)
Definition overdrawn (a : Z) (t : trace call) (l : list resource) : Prop :=
  ∀ r, held t r + unit_of (Mapping a META_SIZE) r = total l r.

(** Writing the test file failed. *)
Definition write_failed (t : trace call) : Prop := ∃ fd b x, (write fd b, x) ∈ t ∧ ret x ≠ PAGE_SIZE.

(** ** Every path gives back what it acquired *)
Section releases.
Notation wp := (wp tolerated allowed).

Ltac legal_more ::=
  left; first [ exact I | cbn; lia
    | match goal with H : owns ?t ?l |- _ => cbn;
        first [ apply (owns_held t l _ H); set_solver | right; apply (owns_held t l _ H); set_solver
              | intros _; apply (owns_held t l _ H); set_solver ] end ].

Lemma create_memfds_wp c t l :
  owns t l →
  wp (create_memfds c) (λ '(r, c') t', (r = -1 ∧ owns t' l) ∨
    (r = 0 ∧ ∃ m d, c' = set_fds m d c ∧ 0 ≤ m ∧ 0 ≤ d ∧ owns t' (Fd m :: Fd d :: l))) t.
Proof.
  intros O0. unfold create_memfds. acquire gets_fd (λ x, Fd (ret x)) m t1 O1; zcases; try done; try lia.
  { apply wp_ret. by left. }
  neutral x t2 O2. zcases; try lia.
  { release (Fd (ret m)) l t3 O3. apply wp_ret. by left. }
  acquire gets_fd (λ x, Fd (ret x)) d t3 O3; zcases; try done; try lia.
  { release (Fd (ret m)) l t4 O4. apply wp_ret. by left. }
  neutral y t4 O4. zcases; try lia.
  { release (Fd (ret m)) (Fd (ret d) :: l) t5 O5. release (Fd (ret d)) l t6 O6. apply wp_ret. by left. }
  apply wp_ret. right. split; [done|]. exists (ret m), (ret d). split_and!; [done|lia|lia|].
  intros r. rewrite O4. simpl. lia.
Qed.

Lemma open_memfds_wp c t l :
  owns t l →
  wp (open_memfds c) (λ '(r, c') t', (r = -1 ∧ owns t' l) ∨
    (r = 0 ∧ ∃ m d, c' = set_fds m d c ∧ 0 ≤ m ∧ 0 ≤ d ∧ owns t' (Fd m :: Fd d :: l))) t.
Proof.
  intros O0. unfold open_memfds. acquire gets_fd (λ x, Fd (ret x)) m t1 O1; zcases; try done; try lia.
  { apply wp_ret. by left. }
  acquire gets_fd (λ x, Fd (ret x)) d t2 O2; zcases; try done; try lia.
  { release (Fd (ret m)) l t3 O3. apply wp_ret. by left. }
  apply wp_ret. right. split; [done|]. exists (ret m), (ret d). split_and!; [done|lia|lia|].
  intros r. rewrite O2. simpl. lia.
Qed.

Lemma mmap_regions_wp c m d t l :
  meta_fd c = m → data_fd c = d → data_base c = 0 → region_size c = REGION_SIZE → owns t (Fd m :: Fd d :: l) →
  wp (mmap_regions c) (λ '(r, c') t',
    (r = -1 ∧ c' = set_bases MAP_FAILED 0 c ∧ owns t' (Fd m :: Fd d :: l)) ∨
    (r = -1 ∧ ∃ a, c' = set_bases a MAP_FAILED c ∧ is_mapped a = true ∧ owns t' (Fd m :: Fd d :: l) ∧
       data_failed t' ∧ second_unmap t' (munmap a META_SIZE)) ∨
    (r = 0 ∧ ∃ a b, c' = set_bases a b c ∧ is_mapped a = true ∧ is_mapped b = true ∧
       owns t' (Mapping b REGION_SIZE :: Mapping a META_SIZE :: Fd m :: Fd d :: l))) t.
Proof.
  intros <- <- Hb Hs O0. unfold mmap_regions. rewrite Hs, Hb.
  acquire (λ x, negb (ret x =? MAP_FAILED)) (λ x, Mapping (ret x) META_SIZE) a t1 O1; zcases; try done.
  { apply wp_ret. left. by rewrite e. }
  assert (is_mapped (ret a) = true) as Ha.
  { assert (ret a ≠ 0) by auto. unfold is_mapped. by zcases. }
  cbn [mbind prog_bind sys]. split; [legal_tac|]. intros b Hbok. destruct (Z.eqb_spec (ret b) MAP_FAILED) as [E|E].
  - assert (owns ((mmap 0 REGION_SIZE (Z.lor PROT_READ PROT_WRITE) MAP_SHARED (data_fd c) 0, b) :: t1)
      (Mapping (ret a) META_SIZE :: Fd (meta_fd c) :: Fd (data_fd c) :: l)) as O2.
    { eapply owns_step; [exact O1|]. intros r. simpl. zcases; [|done]. simpl. lia. }
    split; [legal_tac|]. intros u _. apply wp_ret. right. left. split; [done|]. exists (ret a). rewrite E. split_and!; [done|done| | |].
    + eapply owns_step; [exact O2|]. intros r. simpl. lia.
    + do 5 eexists. split; [|exact E]. right. left.
    + by do 8 eexists.
  - apply wp_ret. right. right. split; [done|]. exists (ret a), (ret b). split_and!; [done|done| |].
    + unfold is_mapped. specialize (Hbok eq_refl). by zcases.
    + eapply owns_step; [exact O1|]. intros r. simpl. zcases; [done|]. simpl. lia.
Qed.

(** A release that is conditional on the configuration. *)
Lemma when_wp b q r (Q : unit → trace call → Prop) t l :
  owns t ((if b : bool then [r] else []) ++ l) → (∀ x, effect_of q x = [(r, -1)]) → (∀ t, 1 ≤ held t r → legal t q) →
  (∀ t', owns t' l → Q tt t') → wp (when b (sys q)) Q t.
Proof.
  intros O0 He Hl HQ. destruct b; [|by apply wp_ret, HQ]. cbn.
  eapply wp_release with (r := r) (l' := l); [exact O0|left; apply Hl, (owns_held _ _ _ O0); set_solver|done|done|].
  intros _ t' _ O1. by apply wp_ret, HQ.
Qed.

Lemma cleanup_shmem_wp c t l :
  owns t ((if is_mapped (data_base c) then [Mapping (data_base c) (region_size c)] else []) ++
          (if is_mapped (meta_base c) then [Mapping (meta_base c) META_SIZE] else []) ++
          (if 0 <=? data_fd c then [Fd (data_fd c)] else []) ++ (if 0 <=? meta_fd c then [Fd (meta_fd c)] else []) ++ l) →
  wp (cleanup_shmem c) (λ _ t', owns t' l) t.
Proof.
  intros O0. unfold cleanup_shmem.
  do 3 (apply wp_bind; eapply when_wp; [eassumption|done|done|]; clear O0; intros ? O0).
  eapply when_wp; [eassumption|done|done|]. done.
Qed.

Lemma free_local_pages_wp c t l :
  local_ptr c ≠ 0 → owns t (Heap (local_ptr c) :: l) → wp (free_local_pages c) (λ _ t', owns t' l) t.
Proof.
  intros Hp O0. unfold free_local_pages. cbn.
  eapply wp_release with (r := Heap (local_ptr c)) (l' := l); [done|legal_tac| |done|].
  - intros x. cbn. by zcases.
  - intros x t1 _ O1. by apply wp_ret.
Qed.

Lemma cleanup_uffd_wp c t l :
  owns t ((if 0 <=? uffd c then [Fd (uffd c)] else []) ++ l) → wp (cleanup_uffd c) (λ c' t', (∃ u, c' = set_uffd u c) ∧ owns t' l) t.
Proof.
  intros O0. unfold cleanup_uffd. zcases.
  - release (Fd (uffd c)) l t1 O1. apply wp_ret. eauto.
  - apply wp_ret. split; [|done]. exists (uffd c). by destruct c.
Qed.

Lemma init_local_pages_wp c t l :
  owns t l →
  wp (init_local_pages c) (λ '(r, c') t', (r = -1 ∧ c' = set_locals 0 [] c ∧ owns t' l) ∨
    (r = 0 ∧ ∃ p ls, c' = set_locals p ls c ∧ p ≠ 0 ∧ zlen ls = Z.max 0 (page_count c) ∧ owns t' (Heap p :: l))) t.
Proof.
  intros O0. unfold init_local_pages. acquire (λ x, negb (ret x =? 0)) (λ x, Heap (ret x)) x t1 O1; zcases; try done.
  - apply wp_ret. by left.
  - apply wp_ret. right. split; [done|]. exists (ret x). eexists. split_and!; [done|done| |done].
    unfold zlen, zreplicate. rewrite length_replicate. lia.
Qed.

Lemma init_uffd_wp c t l :
  owns t l →
  wp (init_uffd c) (λ '(r, c') t', (r = -1 ∧ (∃ u, u < 0 ∧ c' = set_uffd u c) ∧ owns t' l) ∨
    (r = 0 ∧ ∃ u, c' = set_uffd u c ∧ 0 ≤ u ∧ owns t' (Fd u :: l))) t.
Proof.
  intros O0. unfold init_uffd. acquire gets_fd (λ x, Fd (ret x)) u t1 O1; zcases; try done; try lia.
  { apply wp_ret. left. eauto. }
  neutral x t2 O2. destruct (Z.ltb_spec (ret x) 0) as [|_]; [|destruct (Z.eqb_spec (Z.land (nth 0 (data x) 0) UFFD_FEATURE_PAGEFAULT_FLAG_WP) 0)].
  { release (Fd (ret u)) l t3 O3. apply wp_ret. left. split_and!; [done| |done]. exists (-1). by split. }
  { release (Fd (ret u)) l t3 O3. apply wp_ret. left. split_and!; [done| |done]. exists (-1). by split. }
  apply wp_ret. right. split; [done|]. by exists (ret u).
Qed.

(** Writing the file: the descriptor is closed on every path. *)
Lemma write_patterns_wp fd l t ls :
  owns t (Fd fd :: ls) →
  wp (write_patterns fd l) (λ r t', owns t' ls ∧ ((r = 0) ∨ (r = -1 ∧ write_failed t'))) t.
Proof.
  revert t. induction l as [|p l IH]; intros t O0; cbn [write_patterns].
  { release (Fd fd) ls t1 O1. apply wp_ret. auto. }
  cbn [mbind prog_bind sys]. split; [legal_tac|]. intros x _.
  assert (owns ((write fd (zreplicate PAGE_SIZE p), x) :: t) (Fd fd :: ls)) as O1.
  { eapply owns_step; [exact O0|]. intros r. simpl. lia. }
  destruct (Z.eqb_spec (ret x) PAGE_SIZE) as [|Hx]; [by apply IH|]. cbn [negb]. split; [legal_tac|]. intros y _.
  apply wp_ret. split.
  - eapply owns_step; [exact O1|]. intros r. simpl. lia.
  - right. split; [done|]. exists fd, (zreplicate PAGE_SIZE p), x. split; [set_solver|done].
Qed.

Lemma create_test_file_wp path t l :
  owns t l →
  wp (create_test_file path) (λ r t', (r = 0 ∧ owns t' (TestFile path :: l)) ∨
    (r = -1 ∧ (owns t' l ∨ write_failed t' ∧ owns t' (TestFile path :: l)))) t.
Proof.
  intros O0. unfold create_test_file. cbn [mbind prog_bind sys]. split; [legal_tac|]. intros x _.
  destruct (Z.ltb_spec (ret x) 0) as [Hx|Hx].
  - apply wp_ret. right. split; [done|]. left. eapply owns_step; [exact O0|]. intros r. simpl. zcases; lia.
  - eapply wp_mono; [apply (write_patterns_wp _ _ _ (TestFile path :: l))|].
    + eapply owns_step; [exact O0|]. intros r. simpl. zcases; lia.
    + simpl. naive_solver.
Qed.

(** What a configuration that is set up holds besides the descriptor of the faults. *)
Definition set_up_resources (c : config) : list resource :=
  [Mapping (data_base c) (region_size c); Mapping (meta_base c) META_SIZE; Fd (data_fd c); Fd (meta_fd c)].

Definition ready (c : config) : Prop :=
  is_mapped (data_base c) = true ∧ is_mapped (meta_base c) = true ∧ 0 ≤ data_fd c ∧ 0 ≤ meta_fd c.

Lemma cleanup_ready_wp c t l :
  ready c → owns t (set_up_resources c ++ l) → wp (cleanup_shmem c) (λ _ t', owns t' l) t.
Proof.
  intros (Hd & Hm & Hfd & Hfm) O0. apply cleanup_shmem_wp. rewrite Hd, Hm.
  by destruct (Z.leb_spec 0 (data_fd c)), (Z.leb_spec 0 (meta_fd c)); try lia.
Qed.

(** What comes last, given what is left to it. *)
Definition finishes (finish : prog unit) (l : list resource) : Prop := ∀ t, owns t l → wp finish (λ _ t', owns t' []) t.

Lemma leave_wp c finish t l :
  ready c → finishes finish l → local_ptr c ≠ 0 → owns t (Heap (local_ptr c) :: set_up_resources c ++ l) →
  wp (leave c finish) (λ _ t', owns t' []) t.
Proof.
  intros Hr Hf Hp O0. unfold leave. apply wp_bind. eapply wp_mono; [by apply free_local_pages_wp|]. intros ? t1 O1.
  apply wp_bind. eapply wp_mono; [by apply (cleanup_ready_wp c _ l)|]. intros ? t2 O2. by apply Hf.
Qed.

(** The common end: the descriptor of the faults, then the rest. *)
Lemma cleanup_leave_wp (z : Z) c finish t l :
  ready c → finishes finish l → local_ptr c ≠ 0 → 0 ≤ uffd c →
  owns t (Fd (uffd c) :: Heap (local_ptr c) :: set_up_resources c ++ l) →
  wp (c' ← cleanup_uffd c; _ ← leave c' finish; mret z) (λ _ t', owns t' []) t.
Proof.
  intros Hr Hf Hp Hu O0. apply wp_bind. eapply wp_mono; [apply cleanup_uffd_wp|].
  - destruct (Z.leb_spec 0 (uffd c)); [exact O0|lia].
  - intros c' t1 [[u ->] O1]. apply wp_bind. eapply wp_mono; [by apply (leave_wp _ finish _ l)|]. intros. by apply wp_ret.
Qed.

Lemma serve_wp c body finish t l :
  ready c → finishes finish l → local_ptr c ≠ 0 → 0 ≤ uffd c →
  (∀ t l', owns t l' → wp body (λ _ t', owns t' l') t) →
  owns t (Fd (uffd c) :: Heap (local_ptr c) :: set_up_resources c ++ l) →
  wp (serve c body finish) (λ _ t', owns t' []) t.
Proof.
  intros Hr Hf Hp Hu Hb O0. unfold serve, register_uffd, enable_writeprotect, start_uffd_thread, stop_uffd_thread.
  neutral x t1 O1. destruct (Z.ltb_spec (ret x) 0); [by eapply cleanup_leave_wp|].
  neutral y t2 O2. destruct (Z.ltb_spec (ret y) 0); [by eapply cleanup_leave_wp|].
  neutral z t3 O3. acquire (λ x, ret x =? 0) (λ _ : answer, Thread) w t4 O4; rename select ((_ =? _) = _) into Hw; rewrite Hw.
  { cbn [negb]. neutral v t5 O5. by eapply cleanup_leave_wp. }
  cbn [negb]. cbn [mbind prog_bind mret prog_ret]. change (0 <? 0) with false. cbn iota. 
  apply wp_bind. eapply wp_mono; [by apply Hb|]. intros ? t5 O5. simpl in O5.
  neutral v t6 O6. release Thread (Fd (uffd c) :: Heap (local_ptr c) :: set_up_resources c ++ l) t7 O7. by eapply cleanup_leave_wp.
Qed.

Lemma set_up_wp c body finish t l :
  ready c → finishes finish l → (∀ t l', owns t l' → wp body (λ _ t', owns t' l') t) →
  owns t (set_up_resources c ++ l) → wp (set_up c body finish) (λ _ t', owns t' []) t.
Proof.
  intros Hr Hf Hb O0. unfold set_up. apply wp_bind. eapply wp_mono; [by apply init_local_pages_wp|].
  intros [r1 c1] t1 [(-> & -> & O1)|(-> & p & ls & -> & Hp & _ & O1)]; cbn [Z.ltb Z.compare].
  { apply wp_bind. eapply wp_mono; [by apply (cleanup_ready_wp _ _ l)|]. intros ? t2 O2.
    apply wp_bind. eapply wp_mono; [by apply Hf|]. intros. by apply wp_ret. }
  apply wp_bind. eapply wp_mono; [by apply init_uffd_wp|].
  intros [r2 c2] t2 [(-> & (u & Hu & ->) & O2)|(-> & u & -> & Hu & O2)]; cbn [Z.ltb Z.compare].
  - apply wp_bind. eapply wp_mono; [by apply (leave_wp _ finish _ l)|]. intros. by apply wp_ret.
  - by apply (serve_wp _ body finish _ l).
Qed.

Lemma init_shared_pages_wp i n t l :
  0 ≤ i → i + Z.of_nat n ≤ META_SIZE / META_ENTRY → owns t l →
  wp (init_shared_pages_from i n) (λ _ t', owns t' l) t.
Proof.
  revert i t. induction n as [|n IH]; intros i t Hi Hn O0; cbn [init_shared_pages_from]; [by apply wp_ret|].
  neutral x t1 O1. neutral y t2 O2. apply IH; [lia|lia|done].
Qed.

Lemma write_failed_suffix t t' : t `suffix_of` t' → write_failed t → write_failed t'.
Proof.
  intros [k ->] (fd & b & x & Hin & Hx). exists fd, b, x. split; [|done]. apply elem_of_app. by right.
Qed.

(** With the descriptors only. *)
Lemma cleanup_fds_wp c m d t l :
  is_mapped (data_base c) = false → is_mapped (meta_base c) = false → meta_fd c = m → data_fd c = d → 0 ≤ m → 0 ≤ d →
  owns t (Fd m :: Fd d :: l) → wp (cleanup_shmem c) (λ _ t', owns t' l) t.
Proof.
  intros Hb Hm <- <- Hfm Hfd Ho. apply cleanup_shmem_wp. rewrite Hb, Hm.
  destruct (Z.leb_spec 0 (data_fd c)), (Z.leb_spec 0 (meta_fd c)); try lia. intros r. rewrite Ho. simpl. lia.
Qed.

(** A call that releases a resource other than the metadata. *)
Lemma overdrawn_release {A} q r (k : answer → prog A) (Q : A → trace call → Prop) a t l :
  overdrawn a t (r :: l) → r ≠ Mapping a META_SIZE → (∀ x, effect_of q x = [(r, -1)]) → (1 ≤ held t r → legal t q) →
  (∀ x t', overdrawn a t' l → wp (k x) Q t') → wp (Call q k) Q t.
Proof.
  intros O0 Hr He Hl Hk. split.
  - left. apply Hl. specialize (O0 r). rewrite unit_of_ne in O0 by done. simpl in O0. rewrite unit_of_refl in O0.
    pose proof (total_pos l r). lia.
  - intros x _. apply Hk. intros r'. simpl. rewrite He. simpl. specialize (O0 r'). simpl in O0. lia.
Qed.

(** The metadata is unmapped a second time. *)
Lemma cleanup_twice_wp c a m d t l :
  meta_base c = a → data_base c = MAP_FAILED → is_mapped a = true → meta_fd c = m → data_fd c = d → 0 ≤ m → 0 ≤ d →
  second_unmap t (munmap a META_SIZE) → owns t (Fd m :: Fd d :: l) → wp (cleanup_shmem c) (λ _ t', overdrawn a t' l) t.
Proof.
  intros <- Hd Ha <- <- Hm Hdf Hs O0. unfold cleanup_shmem. rewrite Hd, Ha.
  destruct (Z.leb_spec 0 (data_fd c)), (Z.leb_spec 0 (meta_fd c)); try lia. unfold when. cbn [mbind prog_bind sys].
  split; [by right|]. intros x _.
  apply (overdrawn_release _ (Fd (data_fd c)) _ _ (meta_base c) _ (Fd (meta_fd c) :: l)); [|done..|].
  { intros r. specialize (O0 r). simpl in *. lia. }
  intros y t1 O1. apply (overdrawn_release _ (Fd (meta_fd c)) _ _ (meta_base c) _ l); [done..|]. intros z t2 O2. by apply wp_ret.
Qed.

Lemma data_failed_suffix t t' : t `suffix_of` t' → data_failed t → data_failed t'.
Proof. intros [k ->] (? & ? & ? & ? & ? & Hin & ?). do 5 eexists. split; [apply elem_of_app; right; exact Hin|done]. Qed.

(** What a run that could not map the data leaves. *)
Definition unmapped_twice (z : Z) (t : trace call) : Prop := z = -1 ∧ data_failed t ∧ ∃ a, overdrawn a t [].

(** From [mmap_regions] to the end. *)
Lemma mapped_wp c m d (stop : prog Z) (go : config → prog Z) t l :
  data_base c = 0 → meta_fd c = m → data_fd c = d → 0 ≤ m → 0 ≤ d → region_size c = REGION_SIZE →
  (∀ t', owns t' l → wp stop (λ _ t'', owns t'' []) t') →
  (∀ a t', overdrawn a t' l → wp stop (λ z t'', z = -1 ∧ overdrawn a t'' []) t') →
  (∀ a b t', ready (set_bases a b c) → owns t' (set_up_resources (set_bases a b c) ++ l) →
     wp (go (set_bases a b c)) (λ _ t'', owns t'' []) t') →
  owns t (Fd m :: Fd d :: l) →
  wp ('(r, c') ← mmap_regions c; if r <? 0 then _ ← cleanup_shmem c'; stop else go c') (λ z t', owns t' [] ∨ unmapped_twice z t') t.
Proof.
  intros Hd Hm Hfd Hm0 Hd0 Hs Hf Hf2 Hgo O0. apply wp_bind. eapply wp_mono; [by apply (mmap_regions_wp c m d)|].
  intros [r c'] t1 [(-> & -> & O1)|[(-> & a & -> & Ha & O1 & Hfail & H2)|(-> & a & b & -> & Ha & Hb & O1)]]; cbn [Z.ltb Z.compare].
  - apply wp_bind. eapply wp_mono; [by apply (cleanup_fds_wp _ m d _ l)|]. intros ? t2 O2.
    eapply wp_mono; [by apply Hf|]. by left.
  - apply wp_bind. eapply wp_mono; [by apply wp_suffix, (cleanup_twice_wp _ a m d _ l)|]. intros ? t2 [O2 Hs2].
    eapply wp_mono; [by apply wp_suffix, (Hf2 a)|]. intros z t3 [[-> O3] Hs3]. right. split_and!; [done| |by exists a].
    eapply data_failed_suffix; [|exact Hfail]. by etrans.
  - eapply wp_mono; [apply Hgo|by left].
    + split_and!; simpl; [done|done|lia|lia].
    + intros r. rewrite O1. simpl. rewrite Hs, Hm, Hfd. lia.
Qed.

(** The creator removes the test file at the end. *)
Lemma unlink_finishes path : finishes (_ ← sys (unlink path); mret tt) [TestFile path].
Proof. intros t O. release (TestFile path) (@nil resource) t1 O1. by apply wp_ret. Qed.

Lemma run_creator_wp c :
  data_base c = 0 → meta_base c = 0 → region_size c = REGION_SIZE → page_count c = PAGE_COUNT →
  wp (run_creator c) (λ z t', owns t' [] ∨ unmapped_twice z t' ∨ write_failed t' ∧ owns t' [TestFile (test_file_path c)]) [].
Proof.
  intros Hd Hm Hs Hc. unfold run_creator. apply wp_bind. eapply wp_mono; [apply create_memfds_wp, owns_nil|].
  intros [r1 c1] t1 [(-> & O1)|(-> & m & d & -> & Hfm & Hfd & O1)]; cbn [Z.ltb Z.compare].
  { apply wp_ret. by left. }
  apply wp_bind. eapply wp_mono; [by apply (create_test_file_wp _ _ [Fd m; Fd d])|].
  assert (∀ t l, owns t (Fd m :: Fd d :: l) → wp (cleanup_shmem (set_fds m d c)) (λ _ t', owns t' l) t) as Hclean.
  { intros t l. apply cleanup_fds_wp; simpl; rewrite ?Hd, ?Hm; done. }
  intros r2 t2 [(-> & O2)|(-> & [O2|[Hw O2]])]; cbn [Z.ltb Z.compare].
  - apply (wp_mono _ _ _ (λ z t', owns t' [] ∨ unmapped_twice z t')); [|naive_solver].
    apply (mapped_wp _ m d (_ ← (_ ← sys (unlink (test_file_path c)); mret tt); mret (-1))
      (λ c3, _ ← init_shared_pages (page_count c3);
         set_up c3 (_ ← sys getchar; mret tt) (_ ← sys (unlink (test_file_path c)); mret tt)) _ [TestFile (test_file_path c)]);
      [exact Hd|reflexivity|reflexivity|exact Hfm|exact Hfd|exact Hs| | | |].
    + intros t O. apply wp_bind. eapply wp_mono; [by apply unlink_finishes|]. intros. by apply wp_ret.
    + intros a t O. cbn [mbind prog_bind sys mret prog_ret].
      eapply overdrawn_release; [exact O|done..|]. intros x t3 O3. by apply wp_ret.
    + intros a b t3 Hr O3. apply wp_bind. cbn [page_count set_bases set_fds]. rewrite Hc. unfold init_shared_pages.
      eapply wp_mono; [apply init_shared_pages_wp; [lia|by vm_compute|exact O3]|]. intros ? t4 O4.
      apply (set_up_wp _ _ _ _ [TestFile (test_file_path c)]); [exact Hr|apply unlink_finishes| |exact O4].
      intros t l' O. neutral x t5 O5. by apply wp_ret.
    + intros r. rewrite O2. simpl. lia.
  - apply wp_bind. eapply wp_mono; [by apply (Hclean _ [])|]. intros. apply wp_ret. by left.
  - apply wp_bind. eapply wp_mono; [apply wp_suffix, (Hclean _ [TestFile (test_file_path c)])|].
    + intros r. rewrite O2. simpl. lia.
    + intros ? t3 [O3 Hsuf]. apply wp_ret. right. right. split; [by eapply write_failed_suffix|done].
Qed.

Lemma run_worker_wp c :
  data_base c = 0 → region_size c = REGION_SIZE → wp (run_worker c) (λ z t', owns t' [] ∨ unmapped_twice z t') [].
Proof.
  intros Hd Hs. unfold run_worker. apply wp_bind. eapply wp_mono; [apply open_memfds_wp, owns_nil|].
  intros [r1 c1] t1 [(-> & O1)|(-> & m & d & -> & Hfm & Hfd & O1)]; cbn [Z.ltb Z.compare].
  { apply wp_ret. by left. }
  apply (mapped_wp _ m d (mret (-1)) (λ c2, set_up c2 (demo_operations c2) (mret tt)) _ []);
    [exact Hd|reflexivity|reflexivity|exact Hfm|exact Hfd|exact Hs|intros; by apply wp_ret|intros; by apply wp_ret| |exact O1].
  intros a b t2 Hr O2. apply (set_up_wp _ _ _ _ []); [exact Hr|intros ? ?; by apply wp_ret| |exact O2].
  intros t l' O. unfold demo_operations. neutral x1 t3 O3. neutral x2 t4 O4. neutral x3 t5 O5. neutral x4 t6 O6. by apply wp_ret.
Qed.
End releases.

(** Without that failure every call is legal. *)
Lemma tolerated_legal t : all_legal tolerated t → ¬ data_failed t → all_legal legal t.
Proof.
  induction t as [|[c x] t IH]; [done|]. intros [Hc Ht] Hf. split.
  - destruct Hc as [Hc|(a & x' & prot & flags & fd & off & y & t' & -> & -> & Hy)]; [done|]. destruct Hf.
    exists prot, flags, fd, off, y. split; [set_solver|done].
  - apply IH; [done|]. intros H. apply Hf. eapply data_failed_suffix; [|exact H]. by apply suffix_cons_r.
Qed.

(** C32: every path through the program, for every command line and every failure, uses and
    releases only what it holds and gives back all descriptors, mappings, memory and
    threads; the test file is left when writing it failed.  The one exception is a system
    that cannot map the data: then the metadata is unmapped a second time, and all else is
    given back. *)
Theorem main_releases env argv stack :
  (∀ t c, allowed t c (env t c)) →
  let '(status, t) := run env (main argv stack) [] in
  (status = 0 ∨ status = 1) ∧ all_legal tolerated t ∧ (¬ data_failed t → all_legal legal t) ∧
  (owns t [] ∨ write_failed t ∧ owns t [TestFile TEST_FILE_PATH] ∨ status = 1 ∧ data_failed t ∧ ∃ a, overdrawn a t []).
Proof.
  intros He.
  assert (wp tolerated allowed (main argv stack) (λ s t, (s = 0 ∨ s = 1) ∧
    (owns t [] ∨ write_failed t ∧ owns t [TestFile TEST_FILE_PATH] ∨ s = 1 ∧ data_failed t ∧ ∃ a, overdrawn a t [])) []) as Hwp.
  { unfold main. destruct (parse_args argv (init_config stack)) as [r c] eqn:Hp.
    destruct (r <? 0); [apply wp_ret; split; [by right|left; apply owns_nil]|].
    assert (data_base c = 0 ∧ meta_base c = 0 ∧ region_size c = REGION_SIZE ∧ page_count c = PAGE_COUNT ∧
            test_file_path c = TEST_FILE_PATH) as (Hd & Hm & Hs & Hc & Ht).
    { unfold parse_args in Hp. by repeat case_match; simplify_eq. }
    apply wp_bind. destruct (is_creator c).
    - eapply wp_mono; [by apply run_creator_wp|]. intros s t Ho. apply wp_ret. rewrite <-Ht. split; [case_match; auto|].
      destruct Ho as [?|[(-> & ? & ?)|?]]; auto.
    - eapply wp_mono; [by apply run_worker_wp|]. intros s t Ho. apply wp_ret. split; [case_match; auto|].
      destruct Ho as [?|(-> & ? & ?)]; auto. }
  pose proof (wp_sound tolerated allowed env _ _ _ He Hwp) as HQ.
  pose proof (wp_legal tolerated allowed env _ _ [] He I Hwp) as Hl.
  destruct (run env (main argv stack) []), HQ as [? ?]. split_and!; [done|done|by apply tolerated_legal|done].
Qed.

(** ** What the handler does with a page *)
Section handler.
(** What the process sees of its memory after a trace, and the content of files. *)
Context (view : trace call → AddrSpace) (content : str → list Z).

(** The manual pages, call by call. *)
Class MemoryLaws : Prop := {
  view_copy fd dst src len mode x t : 0 ≤ ret x →
    view ((ioctl_copy fd dst src len mode, x) :: t) ≡ copy_view dst src len (Z.testbit mode 1) (view t);
  view_copy_err fd dst src len mode x t : ret x < 0 → view ((ioctl_copy fd dst src len mode, x) :: t) ≡ view t;
  view_fixed addr len prot flags fd off x t : Z.testbit flags 4 = true → Z.testbit flags 5 = true → ret x ≠ MAP_FAILED →
    view ((mmap addr len prot flags fd off, x) :: t) ≡ fill_view addr len (λ _, Some 0) false true true (view t);
  view_mmap_err addr len prot flags fd off x t : ret x = MAP_FAILED → view ((mmap addr len prot flags fd off, x) :: t) ≡ view t;
  view_store addr bs x t : writable (view t) addr (zlen bs) = true →
    view ((store addr bs, x) :: t) ≡ store_view addr bs (view t);
  (** the calls on files and on the metadata do not change the region *)
  view_other c x t :
    match c with
    | open _ _ | close _ | lseek _ _ | read _ _ | load _ _ | load_state _ | store_state _ _ | read_event _ | load_running => True
    | _ => False
    end → view ((c, x) :: t) ≡ view t }.

(** The answers: a fixed mapping is where it was asked for, a load gives the bytes, a read
    that follows [open] and [lseek] gives the bytes of the file there. *)
Definition answers (t : trace call) (c : call) (x : answer) : Prop :=
  match c with
  | mmap addr _ _ flags _ _ => Z.testbit flags 4 = true → ret x = MAP_FAILED ∨ ret x = addr
  | load a n => ∀ bs, load_bytes (view t) a n = Some bs → data x = bs
  | read fd size =>
      match t with
      | (lseek fd' off, _) :: (open path _, o) :: _ =>
          fd = fd' → fd = ret o → ret x = size → zlen (data x) = size ∧ data x = slice (content path) off size
      | _ => True
      end
  | _ => True
  end.

Context {ML : MemoryLaws}.
Context (env : trace call → call → answer) (Henv : ∀ t c, answers t c (env t c)).

Definition always (t : trace call) (c : call) : Prop := True.

(** Reading a page of the file leaves the memory alone. *)
Lemma read_page_view path off t :
  wp always answers (read_page_from_file path off PAGE_SIZE) (λ '(r, buffer) t', view t' ≡ view t ∧
    (r = -1 ∨ r = 0 ∧ zlen buffer = PAGE_SIZE ∧ buffer = slice (content path) off PAGE_SIZE)) t.
Proof.
  unfold read_page_from_file. cbn [mbind prog_bind sys]. split; [done|]. intros x Hx.
  assert (view ((open path O_RDONLY, x) :: t) ≡ view t) as V1 by (by apply view_other).
  destruct (Z.ltb_spec (ret x) 0); [apply wp_ret; auto|]. split; [done|]. intros y Hy.
  assert (view ((lseek (ret x) off, y) :: (open path O_RDONLY, x) :: t) ≡ view t) as V2 by (by rewrite view_other).
  destruct (Z.ltb_spec (ret y) 0).
  { split; [done|]. intros z _. apply wp_ret. split; [by rewrite view_other|by left]. }
  split; [done|]. intros z Hz. destruct (Z.eqb_spec (ret z) PAGE_SIZE) as [E|]; cbn [negb].
  - split; [done|]. intros w _. apply wp_ret. split; [by rewrite !view_other|]. right.
    destruct (Hz eq_refl eq_refl E) as [? ?]. auto.
  - split; [done|]. intros w _. apply wp_ret. split; [by rewrite !view_other|by left].
Qed.

(** The page is in the region: its index and its address. *)
Definition page_at (c : config) (i p : Z) : Prop := 0 ≤ i < PAGE_COUNT ∧ p = data_base c + i * PAGE_SIZE ∧ is_u64 p.

Lemma copied_page bs p v :
  zlen bs = PAGE_SIZE →
  load_bytes (copy_view p bs PAGE_SIZE false v) p PAGE_SIZE = Some bs ∧ writable (copy_view p bs PAGE_SIZE false v) p PAGE_SIZE = true.
Proof.
  intros Hl. split.
  - rewrite (load_bytes_agree _ (store_view p bs v)); [by apply load_store_view|].
    intros a Ha. simpl. rewrite Hl. by within_solve.
  - apply writable_intro. intros a Ha. simpl. within_solve. split; [|done]. apply znth_is_Some. lia.
Qed.

(** A missing fault either fails and leaves the memory as it was, or fills the page from
    the file; the page is then writable and still shared, so that the next store changes
    what all processes see instead of making a private copy. *)
Theorem loaded_page_writable c i p t :
  page_at c i p →
  let v' := view (run env (missing_fault c i p) t).2 in
  v' ≡ view t ∨
  (load_bytes v' p PAGE_SIZE = Some (slice (content (test_file_path c)) (i * PAGE_SIZE) PAGE_SIZE) ∧
   writable v' p PAGE_SIZE = true ∧ ∀ a, as_private v' a = as_private (view t) a).
Proof.
  intros (Hi & -> & Hp). set (p := data_base c + i * PAGE_SIZE).
  assert (wp always answers (missing_fault c i p) (λ _ t', view t' ≡ view t ∨
    (∃ bs, zlen bs = PAGE_SIZE ∧ bs = slice (content (test_file_path c)) (i * PAGE_SIZE) PAGE_SIZE ∧
       view t' ≡ copy_view p bs PAGE_SIZE false (view t))) t) as Hwp.
  { unfold missing_fault. apply wp_bind. rewrite to_u64_small by (unfold is_u64, PAGE_SIZE, PAGE_COUNT in *; lia).
    eapply wp_mono; [apply read_page_view|]. intros [r buf] t1 [V1 [->|(-> & Hl & Hb)]]; cbn [Z.ltb Z.compare].
    { apply wp_ret. by left. }
    cbn [mbind prog_bind sys]. split; [done|]. intros x _. destruct (Z.ltb_spec (ret x) 0) as [Hx|Hx].
    { apply wp_ret. left. by rewrite view_copy_err, V1. }
    split; [done|]. intros s _. unfold when. 
    assert (view ((ioctl_copy (uffd c) p buf PAGE_SIZE 0, x) :: t1) ≡ copy_view p buf PAGE_SIZE false (view t)) as V2.
    { rewrite view_copy by done. by rewrite V1. }
    case_match; [cbn [mbind prog_bind sys]; split; [done|]; intros y _|]; apply wp_ret; right; exists buf; split_and!; try done.
    - rewrite view_other by done. by rewrite view_other.
    - by rewrite view_other. }
  apply (wp_sound _ _ env _ _ _ Henv) in Hwp. destruct Hwp as [Hv|(bs & Hl & Hb & Hv)]; [by left|right].
  destruct (copied_page bs p (view t) Hl) as [Hload Hw]. rewrite <-Hb. split_and!.
  - by rewrite Hv.
  - by rewrite Hv.
  - intros a. by destruct (Hv a) as (_ & _ & -> & _).
Qed.

(** An anonymous page: zeros, writable, and unchanged by a copy of itself. *)
Notation anonymous p v := (fill_view p PAGE_SIZE (λ _, Some 0) false true true v).

Lemma zero_page p v : load_bytes (anonymous p v) p PAGE_SIZE = Some (zreplicate PAGE_SIZE 0).
Proof.
  apply load_bytes_Some; [done|]. split; [done|]. intros j Hj. exists 0. simpl. within_solve. split; [done|].
  by apply znth_zreplicate.
Qed.

Lemma zero_page_copied p v : store_view p (zreplicate PAGE_SIZE 0) (anonymous p v) ≡ anonymous p v.
Proof.
  intros a. unfold agree_at. simpl. change (zlen (zreplicate PAGE_SIZE 0)) with PAGE_SIZE.
  destruct (within p PAGE_SIZE a) eqn:Ha; [|done]. apply within_spec in Ha. by rewrite znth_zreplicate by lia.
Qed.

Lemma zero_page_writable p v : writable (anonymous p v) p PAGE_SIZE = true.
Proof. apply writable_intro. intros a Ha. simpl. within_solve. eauto. Qed.

(** A write-protection fault on a page that is not private yet replaces it by zeros,
    whatever it held: the copy is made after the new mapping covers the page. *)
Theorem cow_discards_page c i p l t :
  page_at c i p → znth (local_pages c) i = Some l → is_private l = false →
  let '(c', t') := run env (wp_fault c i p) t in
  (c' = c ∧ view t' ≡ view t) ∨
  (load_bytes (view t') p PAGE_SIZE = Some (zreplicate PAGE_SIZE 0) ∧ (∀ a, within p PAGE_SIZE a = true → as_private (view t') a = true) ∧
   is_private <$> znth (local_pages c') i = Some true).
Proof.
  intros (Hi & Hpa & Hp) Hl Hpriv.
  assert (wp always answers (wp_fault c i p) (λ c' t', (c' = c ∧ view t' ≡ view t) ∨
    (view t' ≡ fill_view p PAGE_SIZE (λ _, Some 0) false true true (view t) ∧
     is_private <$> znth (local_pages c') i = Some true)) t) as Hwp.
  { unfold wp_fault. rewrite Hl, Hpriv. cbn [mbind prog_bind sys]. split; [done|]. intros m Hm.
    destruct (Z.eqb_spec (ret m) MAP_FAILED) as [E|E].
    { apply wp_ret. left. split; [done|]. by apply view_mmap_err. }
    destruct (Hm eq_refl) as [?|Ep]; [done|].
    match goal with |- wp _ _ (Call _ _) _ (?e :: t) => assert (view (e :: t) ≡ fill_view p PAGE_SIZE (λ _, Some 0) false true true (view t)) as V1 by (by apply view_fixed) end.
    split; [done|]. intros s _. apply wp_bind.
    assert (is_private <$> znth (zset (local_pages c) i {| is_private := true; private_addr := ret m |}) i = Some true) as Hset.
    { pose proof (znth_Some_lt _ _ _ Hl). rewrite znth_zset by lia. by destruct (Z.eqb_spec i i). }
    unfold when. case_match; cbn [mbind prog_bind sys].
    - split; [done|]. intros b Hb. split; [done|]. intros w _. apply wp_ret, wp_ret. right. split; [|done].
      match type of Hb with answers ?t2 _ _ => set (t2' := t2) in * end.
      assert (view t2' ≡ anonymous p (view t)) as V2 by (unfold t2'; by rewrite view_other).
      assert (data b = zreplicate PAGE_SIZE 0) as -> by (apply Hb; rewrite V2; apply zero_page).
      assert (view ((load p PAGE_SIZE, b) :: t2') ≡ anonymous p (view t)) as V3 by (by rewrite view_other).
      rewrite Ep, view_store; rewrite V3; [apply zero_page_copied|]. apply zero_page_writable.
    - apply wp_ret, wp_ret. right. split; [|done]. by rewrite view_other. }
  apply (wp_sound _ _ env _ _ _ Henv) in Hwp. destruct (run env (wp_fault c i p) t) as [c' t'].
  destruct Hwp as [?|[V Hs]]; [by left|right]. simpl in V, Hs. split_and!; [|intros a Ha|done].
  - rewrite V. apply zero_page.
  - destruct (V a) as (_ & _ & -> & _). simpl. by rewrite Ha.
Qed.

End handler.

(** ** The loop of the handler *)
Section loop.
Context (base : Z) (Hbase : 0 ≤ base ∧ base + REGION_SIZE ≤ 2 ^ 64).

(** Faults are reported for addresses of the region. *)
Definition in_region (t : trace call) (c : call) (x : answer) : Prop :=
  match c with
  | read_event _ => 0 < ret x → nth 0 (data x) 0 = UFFD_EVENT_PAGEFAULT → base ≤ nth 2 (data x) 0 < base + REGION_SIZE
  | _ => True
  end.

Lemma get_page_index_spec addr :
  base ≤ addr < base + REGION_SIZE → get_page_index base addr = (addr - base) / PAGE_SIZE ∧ 0 ≤ (addr - base) / PAGE_SIZE < PAGE_COUNT.
Proof using Hbase.
  intros Ha. unfold get_page_index, REGION_SIZE, PAGE_SIZE, PAGE_COUNT in *.
  rewrite to_u64_small by (unfold is_u64; lia).
  assert (0 ≤ (addr - base) / 4096 < 4) by (split; [apply Z.div_pos; lia|apply Z.div_lt_upper_bound; lia]).
  by rewrite to_int_small by lia.
Qed.

Notation wp := (wp legal in_region).

(** Pages of the region have an entry in the metadata. *)
Ltac legal_more ::= cbn [legal]; change (META_SIZE / META_ENTRY) with 256; unfold PAGE_COUNT in *; lia.

Lemma read_page_wp path off t l : owns t l → wp (read_page_from_file path off PAGE_SIZE) (λ _ t', owns t' l) t.
Proof using Hbase.
  intros O0. unfold read_page_from_file. cbn [mbind prog_bind sys].
  eapply wp_acquire with (good := λ x, 0 <=? ret x) (r := λ x, Fd (ret x));
    [eassumption|legal_tac|by intros x; cbn; zcases; try lia| |].
  { intros x t1 _ Hx O1. apply Z.leb_gt in Hx. rewrite (proj2 (Z.ltb_lt _ _) Hx). by apply wp_ret. }
  intros x t1 _ Hx O1. apply Z.leb_le in Hx. rewrite (proj2 (Z.ltb_ge _ _) Hx).
  assert (∀ t' b, owns t' (Fd (ret x) :: l) → wp (_ ← sys (close (ret x)); mret b) (λ (_ : Z * list Z) t'', owns t'' l) t') as Hclose.
  { intros t' b O'. cbn [mbind prog_bind sys]. eapply wp_release with (r := Fd (ret x)) (l' := l); [eassumption|legal_tac|done|done|].
    intros _ t2 _ O2. by apply wp_ret. }
  neutral y t2 O2. destruct (ret y <? 0); [by apply Hclose|]. neutral z t3 O3. destruct (negb _); by apply Hclose.
Qed.

(** The configuration that the handler keeps. *)
Definition handles (c : config) (l : list resource) : Prop :=
  data_base c = base ∧ Fd (uffd c) ∈ l ∧ zlen (local_pages c) = PAGE_COUNT.

Lemma missing_fault_wp c i p t l :
  handles c l → 0 ≤ i < PAGE_COUNT → owns t l → wp (missing_fault c i p) (λ _ t', owns t' l) t.
Proof using Hbase.
  intros (_ & Hu & _) Hi O0. unfold missing_fault. apply wp_bind. eapply wp_mono; [by apply read_page_wp|].
  intros [r buf] t1 O1. simpl in O1. destruct (r <? 0); [by apply wp_ret|]. neutral x t2 O2.
  destruct (ret x <? 0); [by apply wp_ret|]. neutral s t3 O3. unfold when. case_match; [|by apply wp_ret].
  neutral y t4 O4. by apply wp_ret.
Qed.

Lemma wp_fault_wp c i p t l :
  handles c l → 0 ≤ i < PAGE_COUNT → p ≠ 0 → owns t l → wp (wp_fault c i p) (λ c' t', handles c' l ∧ owns t' l) t.
Proof using Hbase.
  intros H Hi Hp O0. pose proof H as (Hb & Hu & Hl). unfold wp_fault.
  destruct (znth_is_Some (local_pages c) i) as [ls ->]; [lia|]. destruct (is_private ls).
  { neutral x t1 O1. by apply wp_ret. }
  cbn [mbind prog_bind sys]. eapply wp_neutral; [eassumption|by intros ->| |].
  { intros x. cbn. destruct (Z.eqb_spec (ret x) MAP_FAILED), (Z.eqb_spec p 0); done. }
  intros m t1 _ O1. destruct (ret m =? MAP_FAILED); [by apply wp_ret|]. neutral s t2 O2. apply wp_bind.
  assert (∀ t' q, owns t' l → handles (set_locals (local_ptr c) (zset (local_pages c) i q) c) l ∧ owns t' l) as Hset.
  { intros t' q O'. split; [|done]. split_and!; [done|done|]. simpl. unfold zlen, zset in *. by rewrite length_insert. }
  unfold when. case_match; [|by apply wp_ret, wp_ret, Hset]. neutral b t3 O3. neutral w t4 O4. by apply wp_ret, wp_ret, Hset.
Qed.
Lemma handler_turn_wp c t l :
  0 < base → handles c l → owns t l →
  wp (handler_turn c) (λ o t', owns t' l ∧ ∀ c', o = Some c' → handles c' l) t.
Proof using Hbase.
  intros Hpos H O0. pose proof H as (Hb & Hu & _). unfold handler_turn. neutral e t1 O1.
  destruct (Z.leb_spec (ret e) 0) as [|He]; [apply wp_ret; split; [done|]; case_match; naive_solver|].
  destruct (Z.eqb_spec (nth 0 (data e) 0) UFFD_EVENT_PAGEFAULT) as [Ev|]; cbn [negb]; [|apply wp_ret; naive_solver].
  rewrite Hb. match goal with Hx : in_region _ _ e |- _ => specialize (Hx He Ev); destruct (get_page_index_spec _ Hx) as [-> Hi] end.
  case_match; apply wp_bind.
  - eapply wp_mono; [by apply (missing_fault_wp c _ _ _ l)|]. intros ? t2 O2. apply wp_ret. naive_solver.
  - eapply wp_mono; [apply (wp_fault_wp c _ _ _ l); [done|done| |done]|].
    + unfold to_u64, REGION_SIZE, PAGE_SIZE, PAGE_COUNT in *. rewrite Z.mod_small; nia.
    + intros c' t2 [H2 O2]. apply wp_ret. naive_solver.
Qed.

(** A fault in the region is handled on the page it lies in. *)
Lemma handler_turn_page env c t flags addr :
  let e := env t (read_event (uffd c)) in
  data_base c = base → 0 < ret e → data e = [UFFD_EVENT_PAGEFAULT; flags; addr] → base ≤ addr < base + REGION_SIZE →
  let i := (addr - base) / PAGE_SIZE in
  let p := base + i * PAGE_SIZE in
  page_at c i p ∧
  run env (handler_turn c) t =
    (if Z.land flags UFFD_PAGEFAULT_FLAG_WP =? 0
     then (Some c, (run env (missing_fault c i p) ((read_event (uffd c), e) :: t)).2)
     else let '(c', t') := run env (wp_fault c i p) ((read_event (uffd c), e) :: t) in (Some c', t')).
Proof using Hbase.
  intros e Hb He Hd Ha. destruct (get_page_index_spec addr Ha) as [Hi Hr]. set (i := (addr - base) / PAGE_SIZE) in *.
  assert (0 ≤ base + i * PAGE_SIZE < 2 ^ 64) as Hp by (unfold REGION_SIZE, PAGE_SIZE, PAGE_COUNT in *; lia).
  split; [unfold page_at; rewrite Hb; split; [exact Hr|split; [done|exact Hp]]|]. unfold handler_turn. cbn [mbind prog_bind sys run]. fold e.
  destruct (Z.leb_spec (ret e) 0); [lia|]. rewrite Hd, Hb. cbn [nth]. rewrite Hi. fold i. rewrite to_u64_small by done.
  change (negb (UFFD_EVENT_PAGEFAULT =? UFFD_EVENT_PAGEFAULT)) with false. cbv iota.
  destruct (Z.land flags UFFD_PAGEFAULT_FLAG_WP =? 0).
  - rewrite (run_bind env (missing_fault c i _)). done.
  - rewrite (run_bind env (wp_fault c i _)). by destruct (run env (wp_fault c i _) _).
Qed.

(** The checks of [running] that found it set. *)
Definition is_turn (e : call * answer) : bool := match e.1 with load_running => negb (ret e.2 =? 0) | _ => false end.
Definition turns (t : trace call) : nat := length (filter (λ e, is_turn e = true) t).

Lemma turns_suffix t t' : t `suffix_of` t' → (turns t ≤ turns t')%nat.
Proof using. intros [k ->]. unfold turns. rewrite filter_app, length_app. lia. Qed.

Lemma handler_thread_wp fuel c t l :
  0 < base → handles c l → owns t l →
  wp (uffd_handler_thread fuel c) (λ o t', owns t' l ∧ (o = None → (turns t + fuel ≤ turns t')%nat)) t.
Proof using Hbase.
  intros Hpos. revert c t. induction fuel as [|fuel IH]; intros c t H O0; cbn [uffd_handler_thread].
  { apply wp_ret. split; [done|]. lia. }
  cbn [mbind prog_bind sys]. split; [done|]. intros x _.
  assert (owns ((load_running, x) :: t) l) as O1 by (eapply owns_step; [exact O0|]; intros r; simpl; lia).
  destruct (Z.eqb_spec (ret x) 0) as [|Hx]; [apply wp_ret; done|].
  assert (turns ((load_running, x) :: t) = S (turns t)) as Ht by (unfold turns; rewrite filter_cons_True; [done|]; by apply negb_true_iff, Z.eqb_neq).
  apply wp_bind. eapply wp_mono; [apply wp_suffix; by apply (handler_turn_wp c _ l)|].
  intros o t1 [[O2 Hc] Hsuf%turns_suffix]. destruct o as [c'|]; [|by apply wp_ret].
  eapply wp_mono; [apply IH; [by apply Hc|done]|]. intros o t2 [O3 Hn]. split; [done|]. intros Ho. specialize (Hn Ho). lia.
Qed.
End loop.

(** Whatever faults arrive and whatever fails, the handler thread makes only legal
    calls, in the bounds of its tables, and holds in the end what it held at the start; it
    goes on only as long as it finds [running] set. *)
Theorem handler_thread_safe env base fuel c t l :
  0 < base → base + REGION_SIZE ≤ 2 ^ 64 → (∀ t c, in_region base t c (env t c)) →
  data_base c = base → Fd (uffd c) ∈ l → zlen (local_pages c) = PAGE_COUNT → all_legal legal t → owns t l →
  let '(o, t') := run env (uffd_handler_thread fuel c) t in
  all_legal legal t' ∧ owns t' l ∧ (o = None → (turns t + fuel ≤ turns t')%nat).
Proof.
  intros Hp Hb He Hd Hu Hl Ht Ho.
  pose proof (handler_thread_wp base (conj (Z.lt_le_incl _ _ Hp) Hb) fuel c t l Hp (conj Hd (conj Hu Hl)) Ho) as Hwp.
  pose proof (wp_sound _ _ env _ _ _ He Hwp) as HQ. pose proof (wp_legal _ _ env _ _ _ He Ht Hwp) as HL.
  destruct (run env (uffd_handler_thread fuel c) t), HQ as [? ?]. by split_and!.
Qed.

(** ** A system to run on

    Descriptors and addresses are new ones, and every call succeeds. *)
Definition test_content (path : str) : list Z := patterns ≫= zreplicate PAGE_SIZE.

Fixpoint sim_view (t : trace call) : AddrSpace :=
  match t with
  | [] => {| as_mem _ := None; as_wp _ := true; as_private _ := false; as_mapped _ := true |}
  | (ioctl_copy _ dst src len mode, x) :: t' =>
      if 0 <=? ret x then copy_view dst src len (Z.testbit mode 1) (sim_view t') else sim_view t'
  | (mmap addr len _ flags _ _, x) :: t' =>
      if negb (ret x =? MAP_FAILED) && Z.testbit flags 4 && Z.testbit flags 5
      then fill_view addr len (λ _, Some 0) false true true (sim_view t') else sim_view t'
  | (store addr bs, _) :: t' =>
      if writable (sim_view t') addr (zlen bs) then store_view addr bs (sim_view t') else sim_view t'
  | _ :: t' => sim_view t'
  end.

Definition sim_env (event : list Z) (t : trace call) (c : call) : answer :=
  let fresh := 3 + zlen t in
  match c with
  | memfd_create _ _ | open _ _ | userfaultfd _ | calloc _ _ => {| ret := fresh; errno := 0; data := [] |}
  | mmap addr _ _ flags _ _ => {| ret := if Z.testbit flags 4 then addr else fresh * 2 ^ 20; errno := 0; data := [] |}
  | write _ b => {| ret := zlen b; errno := 0; data := [] |}
  | ioctl_api _ f => {| ret := 0; errno := 0; data := [f] |}
  | read_event _ => {| ret := 32; errno := 0; data := event |}
  | load a n => {| ret := 0; errno := 0; data := default [] (load_bytes (sim_view t) a n) |}
  | load_state _ => {| ret := PAGE_LOADED; errno := 0; data := [] |}
  | load_running => {| ret := if (turns t =? 2)%nat then 0 else 1; errno := 0; data := [] |}
  | read _ size =>
      match t with
      | (lseek _ off, _) :: (open path _, _) :: _ =>
          let bs := slice (test_content path) off size in {| ret := zlen bs; errno := 0; data := bs |}
      | _ => {| ret := -1; errno := 5; data := [] |}
      end
  | _ => {| ret := 0; errno := 0; data := [] |}
  end.

Global Instance sim_laws : MemoryLaws sim_view.
Proof.
  split.
  - intros. cbn [sim_view]. by destruct (Z.leb_spec 0 (ret x)); [|lia].
  - intros. cbn [sim_view]. by destruct (Z.leb_spec 0 (ret x)); [lia|].
  - intros addr len prot flags fd off x t H1 H2 H3. cbn [sim_view]. rewrite H1, H2. by destruct (Z.eqb_spec (ret x) MAP_FAILED).
  - intros addr len prot flags fd off x t E. cbn [sim_view]. by rewrite E.
  - intros addr bs x t Hw. cbn [sim_view]. by rewrite Hw.
  - intros c x t Hc. by destruct c.
Qed.

Lemma uffd_sim_allowed event t c : allowed t c (sim_env event t c).
Proof. destruct c; try done; cbn [allowed sim_env ret]. intros ->. unfold zlen. lia. Qed.

Lemma main_releases_witness :
  let '(status, t) := run (sim_env []) (main [lit "uffd-cow"; lit "--create"] (init_config (set_role false None None
    {| region_size := 0; page_count := 0; meta_path := None; data_path := None; meta_fd := 0; data_fd := 0; meta_base := 0;
       data_base := 0; uffd := 0; local_ptr := 0; local_pages := []; test_file_path := []; is_creator := false |}))) [] in
  (status = 0 ∨ status = 1) ∧ all_legal tolerated t ∧ (¬ data_failed t → all_legal legal t) ∧
  (owns t [] ∨ write_failed t ∧ owns t [TestFile TEST_FILE_PATH] ∨ status = 1 ∧ data_failed t ∧ ∃ a, overdrawn a t []).
Proof. apply main_releases. intros t c. apply uffd_sim_allowed. Defined.

(** A configuration with its region at 1 MiB. *)
Definition mapped_config : config :=
  {| region_size := REGION_SIZE; page_count := PAGE_COUNT; meta_path := None; data_path := None; meta_fd := 3; data_fd := 4;
     meta_base := 2 ^ 19; data_base := 2 ^ 20; uffd := 5; local_ptr := 1;
     local_pages := replicate 4 {| is_private := false; private_addr := 0 |}; test_file_path := TEST_FILE_PATH; is_creator := false |}.

Lemma sim_answers event t c : answers sim_view test_content t c (sim_env event t c).
Proof.
  destruct c; try done; cbn [answers sim_env ret data].
  - destruct t as [|[[] y] [|[[] z] t]]; try done.
  - intros ->. by right.
  - by intros bs ->.
Qed.

Lemma loaded_page_writable_witness :
  let v' := sim_view (run (sim_env []) (missing_fault mapped_config 1 (2 ^ 20 + 4096)) []).2 in
  v' ≡ sim_view [] ∨
  (load_bytes v' (2 ^ 20 + 4096) PAGE_SIZE = Some (slice (test_content TEST_FILE_PATH) (1 * PAGE_SIZE) PAGE_SIZE) ∧
   writable v' (2 ^ 20 + 4096) PAGE_SIZE = true ∧ ∀ a, as_private v' a = as_private (sim_view []) a).
Proof.
  apply (loaded_page_writable sim_view test_content (sim_env []) (sim_answers []) mapped_config 1).
  unfold page_at, is_u64, PAGE_COUNT, PAGE_SIZE, mapped_config; simpl. lia.
Defined.

Lemma cow_discards_page_witness :
  let '(c', t') := run (sim_env []) (wp_fault mapped_config 1 (2 ^ 20 + 4096)) [] in
  (c' = mapped_config ∧ sim_view t' ≡ sim_view []) ∨
  (load_bytes (sim_view t') (2 ^ 20 + 4096) PAGE_SIZE = Some (zreplicate PAGE_SIZE 0) ∧
   (∀ a, within (2 ^ 20 + 4096) PAGE_SIZE a = true → as_private (sim_view t') a = true) ∧
   is_private <$> znth (local_pages c') 1 = Some true).
Proof.
  apply (cow_discards_page sim_view test_content (sim_env []) (sim_answers []) mapped_config 1 _ {| is_private := false; private_addr := 0 |}); [|done|done].
  unfold page_at, is_u64, PAGE_COUNT, PAGE_SIZE, mapped_config; simpl. lia.
Defined.

(** Two write faults on page 1, after which the thread is stopped. *)
Definition wp_event : list Z := [UFFD_EVENT_PAGEFAULT; UFFD_PAGEFAULT_FLAG_WP; 2 ^ 20 + 5000].

Lemma handler_thread_safe_witness :
  let '(o, t') := run (sim_env wp_event) (uffd_handler_thread 4 mapped_config) [(userfaultfd 0, {| ret := 5; errno := 0; data := [] |})] in
  all_legal legal t' ∧ owns t' [Fd 5] ∧
  (o = None → (turns [(userfaultfd 0, {| ret := 5; errno := 0; data := [] |})] + 4 ≤ turns t')%nat).
Proof.
  apply (handler_thread_safe _ (2 ^ 20)); try done.
  - intros t c. by destruct c.
  - by constructor.
  - intros r. simpl. lia.
Defined.

(** ** Where the set-up goes wrong *)

(** [--join] with other words than [--meta] and [--data] is accepted when the stack happens
    to hold two pointers. *)
Lemma join_without_paths prog a b c d m n stack :
  a ≠ lit "--meta" → a ≠ lit "--data" → b ≠ lit "--meta" → b ≠ lit "--data" → c ≠ lit "--meta" → c ≠ lit "--data" →
  meta_path stack = Some m → data_path stack = Some n →
  parse_args [prog; lit "--join"; a; b; c; d] (init_config stack) = (0, set_role false (Some m) (Some n) (init_config stack)).
Proof.
  intros ?????? Hm Hn. unfold parse_args. rewrite decide_False by done. rewrite decide_True by done. cbn [zlen length].
  simpl. rewrite !decide_False by done. by rewrite Hm, Hn.
Qed.

(** A system on which the data cannot be mapped. *)
Definition small_env (t : trace call) (c : call) : answer :=
  match c with
  | mmap 0 len _ _ _ _ => if len =? REGION_SIZE then {| ret := MAP_FAILED; errno := 12; data := [] |} else sim_env [] t c
  | _ => sim_env [] t c
  end.

(** The metadata is then unmapped twice. *)
Lemma metadata_unmapped_twice :
  let t := (run small_env (run_creator (init_config mapped_config)) []).2 in
  ∃ a, held t (Mapping a META_SIZE) = -1.
Proof. exists (13 * 2 ^ 20). vm_compute. reflexivity. Qed.

End UffdCow.
