(* ===== verification/UblkServer.v ===== *)
(** * The ublk loop server

    Model of [src/ublk-mmap-demo/ublksrv/ublk_loop_srv.c], a block device backed by a file:
    the set-up through the control device, the queue with its mapped buffers and its ring,
    the requests and the loop that serves them, as trees of system calls.  The types and
    numbers of [linux/ublk_cmd.h] are written out.  [server_releases] says that every path
    gives back what it acquired and that the device is started only after a request was
    fetched for every tag; [request_served] says how a request is answered.  Output is not
    modelled. *)

From S2P Require Import Prelude RustStr Kernel CProg.

Module UblkServer.

Definition UBLK_BLOCK_SIZE : Z := 512.
Definition UBLK_QUEUE_DEPTH : Z := 32.
Definition UBLK_NR_HW_QUEUES : Z := 1.
Definition UBLK_ATTR_READ_ONLY : Z := 1.
Definition UBLKSRV_CMD_BUF_OFFSET : Z := 0.
Definition UBLKSRV_IO_BUF_OFFSET : Z := 0x80000000.
(** [sizeof(struct ublksrv_io_desc)] *)
Definition IO_DESC : Z := 24.

Definition EIO : Z := 5.
Definition EINVAL : Z := 22.
Definition EROFS : Z := 30.
Definition UBLK_IO_OP_READ : Z := 0.
Definition UBLK_IO_OP_WRITE : Z := 1.
Definition UBLK_IO_OP_FLUSH : Z := 2.
Definition UBLK_IO_OP_DISCARD : Z := 3.
Definition UBLK_IO_OP_WRITE_ZEROES : Z := 5.
Definition UBLK_IO_RES_OK : Z := 0.

(** [MAP_SHARED | MAP_POPULATE] *)
Definition MAP_POPULATED : Z := 0x8001.
Definition MAP_FAILED : Z := -1.

Record ublk_queue := {
  q_id : Z; depth : Z; cdev_fd : Z; io_cmd_buf : Z; io_cmd_buf_size : Z; io_buf : Z; io_buf_size : Z }.

(** There is one queue. *)
Record ublk_server := { ctrl_fd : Z; backend_fd : Z; dev_id : Z; dev_size : Z; queue : ublk_queue }.

(** What [UBLK_U_CMD_ADD_DEV] and [UBLK_U_CMD_SET_PARAMS] pass to the driver. *)
Record ublksrv_ctrl_dev_info := {
  info_dev_id : Z; nr_hw_queues : Z; queue_depth : Z; max_io_buf_bytes : Z; info_flags : Z }.
Record ublk_param_basic := {
  attrs : Z; logical_bs_shift : Z; physical_bs_shift : Z; dev_sectors : Z; max_sectors : Z }.

(** What a submission carries. *)
Inductive io_cmd := FETCH_REQ | COMMIT_AND_FETCH_REQ.

(** ** Calls

    [get_sqe] answers 0 for a full queue; [wait_cqe] gives whether there is an entry, and its
    fields [user_data] and [res]; [load_desc] the fields [op_flags], [nr_sectors] and
    [start_sector] of a descriptor.  [pread] stores what it reads at [buf]. *)
Inductive call :=
| open (path : str) (flags : Z)
| close (fd : Z)
| lseek_end (fd : Z)
| pread (fd buf size offset : Z)
| memset_zero (addr size : Z)
| add_dev (fd : Z) (info : ublksrv_ctrl_dev_info)
| set_params (fd dev_id : Z) (basic : ublk_param_basic)
| start_dev (fd dev_id pid : Z)
| stop_dev (fd dev_id : Z)
| del_dev (fd dev_id : Z)
| mmap (len prot flags fd offset : Z)
| munmap (addr len : Z)
| uring_init (entries : Z)
| uring_exit
| get_sqe
| fill_sqe (op : io_cmd) (fd q_id tag result addr : Z)
| uring_submit
| wait_cqe
| cqe_seen
| load_desc (addr : Z)
| load_running
| getpid.

Notation prog := (prog call).

Definition set_files (c b size : Z) (s : ublk_server) : ublk_server :=
  {| ctrl_fd := c; backend_fd := b; dev_id := dev_id s; dev_size := size; queue := queue s |}.
Definition set_queue (q : ublk_queue) (s : ublk_server) : ublk_server :=
  {| ctrl_fd := ctrl_fd s; backend_fd := backend_fd s; dev_id := dev_id s; dev_size := dev_size s; queue := q |}.

(** ** Requests *)

Definition get_io_buf (q : ublk_queue) (tag : Z) : Z := io_buf q + to_u64 (tag * io_buf_size q) / depth q.
Definition get_io_desc (q : ublk_queue) (tag : Z) : Z := io_cmd_buf q + tag * IO_DESC.

Definition submit (op : io_cmd) (q : ublk_queue) (tag result : Z) : prog Z :=
  s ← sys get_sqe;
  if ret s =? 0 then mret (-1)
  else _ ← sys (fill_sqe op (cdev_fd q) (q_id q) tag result (get_io_buf q tag)); _ ← sys uring_submit; mret 0.
Definition submit_fetch_req (q : ublk_queue) (tag : Z) : prog Z := submit FETCH_REQ q tag 0.
Definition submit_commit_and_fetch_req (q : ublk_queue) (tag result : Z) : prog Z := submit COMMIT_AND_FETCH_REQ q tag result.

Fixpoint issue_fetch_reqs (q : ublk_queue) (i : Z) (n : nat) : prog Z :=
  match n with
  | O => _ ← sys uring_submit; mret 0
  | S n' => r ← submit_fetch_req q i; if r <? 0 then mret (-1) else issue_fetch_reqs q (i + 1) n'
  end.
Definition issue_all_fetch_reqs (q : ublk_queue) : prog Z := issue_fetch_reqs q 0 (Z.to_nat (depth q)).

(** The products are of type [unsigned int]. *)
Definition handle_read_io (s : ublk_server) (q : ublk_queue) (tag sector nr_sectors : Z) : prog Z :=
  let buf := get_io_buf q tag in
  let offset := to_u32 (sector * UBLK_BLOCK_SIZE) in
  let size := to_u32 (nr_sectors * UBLK_BLOCK_SIZE) in
  x ← sys (pread (backend_fd s) buf size offset);
  if ret x <? 0 then mret (- EIO)
  else if ret x <? size then _ ← sys (memset_zero (buf + ret x) (size - ret x)); mret 0
  else mret 0.

Definition handle_write_io : prog Z := mret (- EROFS).

Definition process_io_request (s : ublk_server) (q : ublk_queue) (tag : Z) : prog Z :=
  d ← sys (load_desc (get_io_desc q tag));
  let op := Z.land (nth 0 (data d) 0) 0xff in
  let nr_sectors := to_u32 (nth 1 (data d) 0) in
  let sector := to_u32 (nth 2 (data d) 0) in
  if op =? UBLK_IO_OP_READ then handle_read_io s q tag sector nr_sectors
  else if op =? UBLK_IO_OP_WRITE then handle_write_io
  else if op =? UBLK_IO_OP_FLUSH then mret 0
  else if op =? UBLK_IO_OP_DISCARD then mret 0
  else if op =? UBLK_IO_OP_WRITE_ZEROES then mret 0
  else mret (- EINVAL).

(** ** The loop *)

Definition simulate_test_io (s : ublk_server) (q : ublk_queue) : prog unit := _ ← handle_read_io s q 0 0 8; mret tt.

(** The body of the loop; [false] is its [break]. *)
Definition io_turn (s : ublk_server) (q : ublk_queue) : prog bool :=
  x ← sys wait_cqe;
  if ret x <? 0 then mret (ret x =? - EINTR)
  else if nth 0 (data x) 0 =? 0 then mret true
  else
    let tag := to_int (nth 1 (data x) 0) in
    _ ← (if nth 2 (data x) 0 =? UBLK_IO_RES_OK then
           r ← process_io_request s q tag; submit_commit_and_fetch_req q tag r
         else mret 0);
    _ ← sys cqe_seen; mret true.

(** [None] when [fuel] turns were not enough. *)
Fixpoint io_turns (fuel : nat) (s : ublk_server) (q : ublk_queue) : prog (option unit) :=
  match fuel with
  | O => mret None
  | S fuel' =>
      x ← sys load_running;
      if ret x =? 0 then mret (Some tt)
      else b ← io_turn s q; if b : bool then io_turns fuel' s q else mret (Some tt)
  end.

Definition io_loop (fuel : nat) (s : ublk_server) : prog (option unit) :=
  _ ← simulate_test_io s (queue s); io_turns fuel s (queue s).

(** ** Set-up *)

(** The requests the device takes, which may be longer than [max_io_buf_bytes]. *)
Definition basic_params (size : Z) : ublk_param_basic :=
  {| attrs := UBLK_ATTR_READ_ONLY; logical_bs_shift := 9; physical_bs_shift := 9;
     dev_sectors := size / UBLK_BLOCK_SIZE; max_sectors := 256 |}.

(** [dev_size] is unsigned. *)
Definition ublk_dev_setup (s : ublk_server) (backend_path : str) : prog (Z * ublk_server) :=
  let dev_info := {| info_dev_id := dev_id s; nr_hw_queues := UBLK_NR_HW_QUEUES; queue_depth := UBLK_QUEUE_DEPTH;
                     max_io_buf_bytes := 4096; info_flags := 0 |} in
  b ← sys (open backend_path 0);
  if ret b <? 0 then mret (-1, set_files (ctrl_fd s) (ret b) (dev_size s) s)
  else
    e ← sys (lseek_end (ret b));
    let size := to_u64 (ret e) in
    if size <=? 0 then _ ← sys (close (ret b)); mret (-1, set_files (ctrl_fd s) (ret b) size s)
    else
      c ← sys (open (lit "/dev/ublk-control") 2);
      let s' := set_files (ret c) (ret b) size s in
      if ret c <? 0 then _ ← sys (close (ret b)); mret (-1, s')
      else
        x ← sys (add_dev (ret c) dev_info);
        if ret x <? 0 then _ ← sys (close (ret c)); _ ← sys (close (ret b)); mret (-1, s')
        else
          y ← sys (set_params (ret c) (dev_id s) (basic_params size));
          if ret y <? 0 then _ ← sys (close (ret c)); _ ← sys (close (ret b)); mret (-1, s')
          else mret (0, s').

Definition ublk_dev_start (s : ublk_server) : prog Z :=
  p ← sys getpid; x ← sys (start_dev (ctrl_fd s) (dev_id s) (ret p)); mret (if ret x <? 0 then -1 else 0).

Definition ublk_dev_stop (s : ublk_server) : prog unit :=
  _ ← sys (stop_dev (ctrl_fd s) (dev_id s)); _ ← sys (del_dev (ctrl_fd s) (dev_id s)); mret tt.

Definition cdev_path (dev_id : Z) : str := lit "/dev/ublkc" ++ show_u64 dev_id.

Definition ublk_queue_setup (s : ublk_server) (q_id : Z) : prog (Z * ublk_queue) :=
  let q fd cmd buf := {| q_id := q_id; depth := UBLK_QUEUE_DEPTH; cdev_fd := fd; io_cmd_buf := cmd;
                         io_cmd_buf_size := UBLK_QUEUE_DEPTH * IO_DESC; io_buf := buf; io_buf_size := UBLK_QUEUE_DEPTH * 4096 |} in
  f ← sys (open (cdev_path (dev_id s)) 2);
  if ret f <? 0 then mret (-1, q (ret f) 0 0)
  else
    c ← sys (mmap (UBLK_QUEUE_DEPTH * IO_DESC) PROT_READ MAP_POPULATED (ret f) UBLKSRV_CMD_BUF_OFFSET);
    if ret c =? MAP_FAILED then _ ← sys (close (ret f)); mret (-1, q (ret f) (ret c) 0)
    else
      b ← sys (mmap (UBLK_QUEUE_DEPTH * 4096) (Z.lor PROT_READ PROT_WRITE) MAP_POPULATED (ret f) UBLKSRV_IO_BUF_OFFSET);
      if ret b =? MAP_FAILED then
        _ ← sys (munmap (ret c) (UBLK_QUEUE_DEPTH * IO_DESC)); _ ← sys (close (ret f)); mret (-1, q (ret f) (ret c) (ret b))
      else
        u ← sys (uring_init (UBLK_QUEUE_DEPTH * 2));
        if ret u <? 0 then
          _ ← sys (munmap (ret b) (UBLK_QUEUE_DEPTH * 4096)); _ ← sys (munmap (ret c) (UBLK_QUEUE_DEPTH * IO_DESC));
          _ ← sys (close (ret f)); mret (-1, q (ret f) (ret c) (ret b))
        else mret (0, q (ret f) (ret c) (ret b)).

Definition ublk_queue_cleanup (q : ublk_queue) : prog unit :=
  _ ← sys uring_exit; _ ← sys (munmap (io_buf q) (io_buf_size q));
  _ ← sys (munmap (io_cmd_buf q) (io_cmd_buf_size q)); _ ← sys (close (cdev_fd q)); mret tt.

(** The last lines of every path of [main] that got as far as the device. *)
Definition leave (s : ublk_server) (status : Z) : prog (option Z) :=
  _ ← ublk_dev_stop s; _ ← sys (close (ctrl_fd s)); _ ← sys (close (backend_fd s)); mret (Some status).

(** [None] when the loop ran out of [fuel]. *)
Definition main (fuel : nat) (backend_path : str) : prog (option Z) :=
  let no_queue := {| q_id := 0; depth := 0; cdev_fd := 0; io_cmd_buf := 0; io_cmd_buf_size := 0; io_buf := 0; io_buf_size := 0 |} in
  let s0 := {| ctrl_fd := 0; backend_fd := 0; dev_id := 0; dev_size := 0; queue := no_queue |} in
  '(r1, s1) ← ublk_dev_setup s0 backend_path;
  if r1 <? 0 then mret (Some 1)
  else
    '(r2, q) ← ublk_queue_setup s1 0;
    let s2 := set_queue q s1 in
    if r2 <? 0 then leave s2 1
    else
      r3 ← issue_all_fetch_reqs q;
      if r3 <? 0 then _ ← ublk_queue_cleanup q; leave s2 1
      else
        r4 ← ublk_dev_start s2;
        if r4 <? 0 then _ ← ublk_queue_cleanup q; leave s2 1
        else
          o ← io_loop fuel s2;
          match o with
          | None => mret None
          | Some _ => _ ← ublk_queue_cleanup q; leave s2 0
          end.

(** ** What requests read and commit *)

(** The byte last stored at an address. *)
Fixpoint byte_at (t : trace call) (a : Z) : option Z :=
  match t with
  | [] => None
  | (pread _ buf _ _, x) :: t' => if (buf <=? a) && (a <? buf + ret x) then znth (data x) (a - buf) else byte_at t' a
  | (memset_zero addr size, _) :: t' => if (addr <=? a) && (a <? addr + size) then Some 0 else byte_at t' a
  | _ :: t' => byte_at t' a
  end.

(** The tags committed and their results, the last one first. *)
Fixpoint committed (t : trace call) : list (Z * Z) :=
  match t with
  | [] => []
  | (fill_sqe COMMIT_AND_FETCH_REQ _ _ tag r _, _) :: t' => (tag, r) :: committed t'
  | _ :: t' => committed t'
  end.

(** The result [r] of the request of a descriptor, and the memory it leaves: a read gives
    the bytes of the file from its sector on, and zeros after the end of the file, unless
    reading the file [failed]. *)
Definition answered (file : list Z) (d : answer) (failed : Prop) (buf : Z) (before after : Z → option Z) (r : Z) : Prop :=
  let op := Z.land (nth 0 (data d) 0) 0xff in
  let size := nth 1 (data d) 0 * UBLK_BLOCK_SIZE in
  let offset := nth 2 (data d) 0 * UBLK_BLOCK_SIZE in
  (∀ a, ¬ (r = 0 ∧ op = UBLK_IO_OP_READ ∧ buf ≤ a < buf + size) → after a = before a) ∧
  (op = UBLK_IO_OP_READ → r = - EIO ∧ failed ∨ r = 0 ∧
     ∀ k, 0 ≤ k < size → after (buf + k) = Some (default 0 (znth file (offset + k)))) ∧
  (op ≠ UBLK_IO_OP_READ →
   r = if op =? UBLK_IO_OP_WRITE then - EROFS else if (op =? UBLK_IO_OP_FLUSH) || (op =? UBLK_IO_OP_DISCARD) || (op =? UBLK_IO_OP_WRITE_ZEROES) then 0
       else - EINVAL).

(** A read of the file gives all there is. *)
Definition reads (file : list Z) (c : call) (x : answer) : Prop :=
  match c with
  | pread _ _ size offset => ret x < 0 ∨ data x = slice file offset size ∧ ret x = zlen (data x)
  | load_desc _ => 0 ≤ nth 1 (data x) 0 ≤ 8
  | wait_cqe => 0 ≤ nth 1 (data x) 0 < UBLK_QUEUE_DEPTH
  | _ => True
  end.

(** ** Resources and legal calls *)

Inductive resource := Fd (fd : Z) | Mapping (addr len : Z) | Ring | Device (dev_id : Z).

Global Instance ublk_resource_eq : EqDecision resource.
Proof. solve_decision. Defined.

Definition effect_of (c : call) (x : answer) : list (resource * Z) :=
  match c with
  | open _ _ => if ret x <? 0 then [] else [(Fd (ret x), 1)]
  | close fd => [(Fd fd, -1)]
  | mmap len _ _ _ _ => if ret x =? MAP_FAILED then [] else [(Mapping (ret x) len, 1)]
  | munmap addr len => [(Mapping addr len, -1)]
  | uring_init _ => if ret x <? 0 then [] else [(Ring, 1)]
  | uring_exit => [(Ring, -1)]
  | add_dev _ info => if ret x <? 0 then [] else [(Device (info_dev_id info), 1)]
  | del_dev _ d => [(Device d, -1)]
  | _ => []
  end.

Global Instance ublk_ledger : Ledger call resource := {| effect := effect_of |}.

(** The tags fetched on the current ring, the last one first. *)
Fixpoint fetched (t : trace call) : list Z :=
  match t with
  | [] => []
  | (uring_init _, _) :: _ => []
  | (fill_sqe FETCH_REQ _ _ tag _ _, _) :: t' => tag :: fetched t'
  | _ :: t' => fetched t'
  end.

Definition BUF_SIZE : Z := UBLK_QUEUE_DEPTH * 4096.
Definition CMD_SIZE : Z := UBLK_QUEUE_DEPTH * IO_DESC.

(** A range of a mapping of [len] bytes that the program holds. *)
Definition inside (t : trace call) (len addr size : Z) : Prop :=
  ∃ a, 1 ≤ held t (Mapping a len) ∧ a ≤ addr ∧ addr + size ≤ a + len.

(** Descriptors, mappings, the ring and the device are used while they are held, buffers
    within their mapping, and the device is started when a request was fetched for each
    tag. *)
Definition legal (t : trace call) (c : call) : Prop :=
  match c with
  | close fd | lseek_end fd | mmap _ _ _ fd _ | add_dev fd _ => 1 ≤ held t (Fd fd)
  | set_params fd d _ | stop_dev fd d | del_dev fd d => 1 ≤ held t (Fd fd) ∧ 1 ≤ held t (Device d)
  | start_dev fd d _ => 1 ≤ held t (Fd fd) ∧ 1 ≤ held t (Device d) ∧ fetched t = reverse (seqZ 0 UBLK_QUEUE_DEPTH)
  | munmap addr len => 1 ≤ held t (Mapping addr len)
  | uring_exit | get_sqe | uring_submit | wait_cqe | cqe_seen => 1 ≤ held t Ring
  | fill_sqe _ fd _ _ _ addr => 1 ≤ held t Ring ∧ 1 ≤ held t (Fd fd) ∧ inside t BUF_SIZE addr 4096
  | pread fd buf size _ => 1 ≤ held t (Fd fd) ∧ inside t BUF_SIZE buf size
  | memset_zero addr size => inside t BUF_SIZE addr size
  | load_desc addr => inside t CMD_SIZE addr IO_DESC
  | _ => True
  end.

(** The driver completes the tags it was given, with requests of at most
    [max_io_buf_bytes]; a read gives at most what was asked for. *)
Definition allowed (t : trace call) (c : call) (x : answer) : Prop :=
  match c with
  | wait_cqe => 0 ≤ nth 1 (data x) 0 < UBLK_QUEUE_DEPTH
  | load_desc _ => 0 ≤ nth 1 (data x) 0 ≤ 8
  | pread _ _ size _ => 0 ≤ size → ret x ≤ size
  | _ => True
  end.

(** Setting the parameters of the device failed. *)
Definition params_failed (t : trace call) : Prop := ∃ fd d n x, (set_params fd d n, x) ∈ t ∧ ret x < 0.

(** The checks of [running] that found it set. *)
Definition is_turn (e : call * answer) : bool := match e.1 with load_running => negb (ret e.2 =? 0) | _ => false end.
Definition loop_turns (t : trace call) : nat := length (filter is_turn t).

Section releases.
Notation wp := (wp legal allowed).

(** Several resources at once. *)
Ltac legal_more ::=
  match goal with H : owns ?t ?l |- _ => cbn; split_and!; first [apply (owns_held t l _ H); set_solver | done] end.

Definition queue_resources (q : ublk_queue) : list resource :=
  [Ring; Mapping (io_buf q) (io_buf_size q); Mapping (io_cmd_buf q) (io_cmd_buf_size q); Fd (cdev_fd q)].

Definition queue_ok (q : ublk_queue) : Prop :=
  depth q = UBLK_QUEUE_DEPTH ∧ io_buf_size q = BUF_SIZE ∧ io_cmd_buf_size q = CMD_SIZE.

Lemma close_both_wp {B} (v : B) c b t l :
  owns t (Fd c :: Fd b :: l) → wp (_ ← sys (close c); _ ← sys (close b); mret v) (λ a t', a = v ∧ owns t' l) t.
Proof. intros O0. release (Fd c) (Fd b :: l) t1 O1. release (Fd b) l t2 O2. by apply wp_ret. Qed.

Lemma ublk_dev_setup_wp s path t l :
  owns t l →
  wp (ublk_dev_setup s path) (λ '(r, s') t',
    (r = -1 ∧ (owns t' l ∨ params_failed t' ∧ owns t' (Device (dev_id s) :: l))) ∨
    (r = 0 ∧ ∃ c b n, s' = set_files c b n s ∧ owns t' (Device (dev_id s) :: Fd c :: Fd b :: l))) t.
Proof.
  intros O0. unfold ublk_dev_setup. acquire gets_fd (λ x, Fd (ret x)) b t1 O1; zcases; try done; try lia.
  { apply wp_ret. auto. }
  neutral e t2 O2. destruct (_ <=? _).
  { release (Fd (ret b)) l t3 O3. apply wp_ret. auto. }
  acquire gets_fd (λ x, Fd (ret x)) c t3 O3; zcases; try done; try lia.
  { release (Fd (ret b)) l t4 O4. apply wp_ret. auto. }
  acquire gets_fd (λ _ : answer, Device (dev_id s)) x t4 O4; zcases; try done; try lia.
  { release (Fd (ret c)) (Fd (ret b) :: l) t5 O5. release (Fd (ret b)) l t6 O6. apply wp_ret. auto. }
  cbn [mbind prog_bind sys]. split; [legal_tac|]. intros y _.
  match goal with |- wp _ _ (?e :: t4) => assert (owns (e :: t4) (Fd (ret c) :: Fd (ret b) :: Device (dev_id s) :: l)) as O5 end.
  { eapply owns_step; [exact O4|]. intros r. simpl. lia. }
  destruct (Z.ltb_spec (ret y) 0) as [Hy|Hy].
  - eapply wp_mono; [apply wp_suffix, (close_both_wp _ _ _ _ (Device (dev_id s) :: l)), O5|].
    intros [r s'] t5 [[E O6] Hsuf]. simplify_eq. left. split; [done|]. right. split; [|done].
    exists (ret c), (dev_id s), (basic_params (to_u64 (ret e))), y. split; [|done].
    destruct Hsuf as [k ->]. apply elem_of_app. right. by left.
  - apply wp_ret. right. split; [done|]. exists (ret c), (ret b), (to_u64 (ret e)). split; [done|]. intros r. rewrite O5. simpl. lia.
Qed.

Lemma ublk_queue_setup_wp s i t l :
  owns t l →
  wp (ublk_queue_setup s i) (λ '(r, q) t', (r = -1 ∧ owns t' l) ∨
    (r = 0 ∧ queue_ok q ∧ fetched t' = [] ∧ owns t' (queue_resources q ++ l))) t.
Proof.
  intros O0. unfold ublk_queue_setup. acquire gets_fd (λ x, Fd (ret x)) f t1 O1; zcases; try done; try lia.
  { apply wp_ret. auto. }
  acquire (λ x, negb (ret x =? MAP_FAILED)) (λ x, Mapping (ret x) CMD_SIZE) c t2 O2; zcases; try done.
  { release (Fd (ret f)) l t3 O3. apply wp_ret. auto. }
  acquire (λ x, negb (ret x =? MAP_FAILED)) (λ x, Mapping (ret x) BUF_SIZE) b t3 O3; zcases; try done.
  { release (Mapping (ret c) CMD_SIZE) (Fd (ret f) :: l) t4 O4. release (Fd (ret f)) l t5 O5. apply wp_ret. auto. }
  cbn [mbind prog_bind sys]. split; [legal_tac|]. intros u _. destruct (Z.ltb_spec (ret u) 0) as [Hu|Hu].
  - match goal with |- wp _ _ ?t' => assert (owns t' (Mapping (ret b) BUF_SIZE :: Mapping (ret c) CMD_SIZE :: Fd (ret f) :: l)) as O4 end.
    { eapply owns_step; [exact O3|]. intros r. simpl. zcases; lia. }
    release (Mapping (ret b) BUF_SIZE) (Mapping (ret c) CMD_SIZE :: Fd (ret f) :: l) t5 O5.
    release (Mapping (ret c) CMD_SIZE) (Fd (ret f) :: l) t6 O6. release (Fd (ret f)) l t7 O7. apply wp_ret. auto.
  - apply wp_ret. right. split_and!; [done|done|done|]. eapply owns_step; [exact O3|]. intros r. simpl.
    unfold BUF_SIZE, CMD_SIZE in *. zcases; lia.
Qed.

Lemma ublk_queue_cleanup_wp q t l :
  owns t (queue_resources q ++ l) → wp (ublk_queue_cleanup q) (λ _ t', owns t' l) t.
Proof.
  intros O0. unfold ublk_queue_cleanup, queue_resources in *.
  release Ring (Mapping (io_buf q) (io_buf_size q) :: Mapping (io_cmd_buf q) (io_cmd_buf_size q) :: Fd (cdev_fd q) :: l) t1 O1.
  release (Mapping (io_buf q) (io_buf_size q)) (Mapping (io_cmd_buf q) (io_cmd_buf_size q) :: Fd (cdev_fd q) :: l) t2 O2.
  release (Mapping (io_cmd_buf q) (io_cmd_buf_size q)) (Fd (cdev_fd q) :: l) t3 O3.
  release (Fd (cdev_fd q)) l t4 O4. by apply wp_ret.
Qed.

Lemma leave_server_wp s status t :
  owns t [Device (dev_id s); Fd (ctrl_fd s); Fd (backend_fd s)] → wp (leave s status) (λ o t', o = Some status ∧ owns t' []) t.
Proof.
  intros O0. unfold leave, ublk_dev_stop. neutral x t1 O1. release (Device (dev_id s)) [Fd (ctrl_fd s); Fd (backend_fd s)] t2 O2.
  release (Fd (ctrl_fd s)) [Fd (backend_fd s)] t3 O3. release (Fd (backend_fd s)) (@nil resource) t4 O4. by apply wp_ret.
Qed.

(** ** Requests stay within their buffers *)

Definition holds (q : ublk_queue) (l : list resource) : Prop := queue_ok q ∧ ∀ r, r ∈ queue_resources q → r ∈ l.

Lemma get_io_buf_spec q tag :
  queue_ok q → 0 ≤ tag < UBLK_QUEUE_DEPTH → get_io_buf q tag = io_buf q + tag * 4096.
Proof.
  intros (Hd & Hs & _) Ht. unfold get_io_buf. rewrite Hd, Hs. unfold BUF_SIZE, UBLK_QUEUE_DEPTH in *.
  rewrite to_u64_small by (unfold is_u64; lia). f_equal. symmetry. apply Z.div_unique_exact; lia.
Qed.

Lemma inside_buf q tag off size t l :
  holds q l → owns t l → 0 ≤ tag < UBLK_QUEUE_DEPTH → 0 ≤ off → off + size ≤ 4096 →
  inside t BUF_SIZE (get_io_buf q tag + off) size.
Proof.
  intros [Hq Hl] O Ht Ho Hs. rewrite get_io_buf_spec by done. exists (io_buf q). destruct Hq as (_ & Hb & _). split; [|].
  - apply (owns_held t l _ O), Hl. rewrite <-Hb. unfold queue_resources. set_solver.
  - unfold BUF_SIZE, UBLK_QUEUE_DEPTH in *. lia.
Qed.

Lemma inside_desc q tag t l :
  holds q l → owns t l → 0 ≤ tag < UBLK_QUEUE_DEPTH → inside t CMD_SIZE (get_io_desc q tag) IO_DESC.
Proof.
  intros [Hq Hl] O Ht. exists (io_cmd_buf q). destruct Hq as (_ & _ & Hb). split; [|].
  - apply (owns_held t l _ O), Hl. rewrite <-Hb. unfold queue_resources. set_solver.
  - unfold get_io_desc, CMD_SIZE, IO_DESC, UBLK_QUEUE_DEPTH in *. lia.
Qed.

Lemma holds_ring q t l : holds q l → owns t l → 1 ≤ held t Ring.
Proof. intros [_ Hl] O. apply (owns_held t l _ O), Hl. unfold queue_resources. set_solver. Qed.

Lemma holds_cdev q t l : holds q l → owns t l → 1 ≤ held t (Fd (cdev_fd q)).
Proof. intros [_ Hl] O. apply (owns_held t l _ O), Hl. unfold queue_resources. set_solver. Qed.

(** The tag that a submission fetches for the first time. *)
Definition fetches (op : io_cmd) (tag : Z) (l : list Z) : list Z := match op with FETCH_REQ => tag :: l | _ => l end.

Lemma submit_wp op q tag result t l :
  holds q l → 0 ≤ tag < UBLK_QUEUE_DEPTH → owns t l →
  wp (submit op q tag result) (λ z t', owns t' l ∧ (z = -1 ∨ z = 0 ∧ fetched t' = fetches op tag (fetched t))) t.
Proof.
  intros Hh Ht O0. unfold submit. cbn [mbind prog_bind sys]. split; [by eapply holds_ring|]. intros x _.
  assert (∀ c y t', effect_of c y = [] → owns t' l → owns ((c, y) :: t') l) as Hn.
  { intros c y t' He O. eapply owns_step; [exact O|]. intros r. simpl. rewrite He. simpl. lia. }
  pose proof (Hn get_sqe x t eq_refl O0) as O1. destruct (ret x =? 0); [apply wp_ret; auto|]. split.
  { split_and!; [by eapply holds_ring|by eapply holds_cdev|]. rewrite <-(Z.add_0_r (get_io_buf q tag)). eapply inside_buf; [done|done|done|lia|lia]. }
  intros y _. match goal with |- wp _ _ ?t' => assert (owns t' l) as O2 by (by apply Hn) end.
  split; [by eapply holds_ring|]. intros z _. apply wp_ret. split; [by apply Hn|]. right. split; [done|]. by destruct op.
Qed.

Lemma issue_fetch_reqs_wp q n i t l :
  holds q l → 0 ≤ i → i + Z.of_nat n = UBLK_QUEUE_DEPTH → owns t l → fetched t = reverse (seqZ 0 i) →
  wp (issue_fetch_reqs q i n) (λ z t', owns t' l ∧ (z = -1 ∨ z = 0 ∧ fetched t' = reverse (seqZ 0 UBLK_QUEUE_DEPTH))) t.
Proof.
  revert i t. induction n as [|n IH]; intros i t Hh Hi Hn O0 Hf; cbn [issue_fetch_reqs].
  { cbn [mbind prog_bind sys]. split; [by eapply holds_ring|]. intros x _. apply wp_ret. split.
    - eapply owns_step; [exact O0|]. intros r. simpl. lia.
    - right. split; [done|]. simpl. rewrite Hf. do 2 f_equal. lia. }
  apply wp_bind. eapply wp_mono; [apply (submit_wp _ _ _ _ _ l); [done|lia|done]|].
  intros z t1 [O1 [->|[-> Hf1]]]; cbn [Z.ltb Z.compare]; [apply wp_ret; auto|].
  apply IH; [done|lia|lia|done|]. rewrite Hf1. simpl. rewrite Hf, seqZ_app, reverse_app by lia.
  by replace (seqZ (0 + i) 1) with [i] by (unfold seqZ; simpl; f_equal; lia).
Qed.

Lemma handle_read_io_wp s q tag sector n t l :
  holds q l → Fd (backend_fd s) ∈ l → 0 ≤ tag < UBLK_QUEUE_DEPTH → 0 ≤ n ≤ 8 → owns t l →
  wp (handle_read_io s q tag sector n) (λ _ t', owns t' l) t.
Proof.
  intros Hh Hb Ht Hn O0. unfold handle_read_io. assert (to_u32 (n * UBLK_BLOCK_SIZE) = n * 512) as ->.
  { unfold to_u32, UBLK_BLOCK_SIZE. apply Z.mod_small. lia. }
  cbn [mbind prog_bind sys]. eapply wp_neutral; [exact O0| |done|].
  { split; [by apply (owns_held t l)|]. rewrite <-(Z.add_0_r (get_io_buf q tag)). eapply inside_buf; [done|done|done|lia|lia]. }
  intros x t1 Hx O1. cbn in Hx. destruct (Z.ltb_spec (ret x) 0); [by apply wp_ret|].
  destruct (Z.ltb_spec (ret x) (n * 512)); [|by apply wp_ret].
  eapply wp_neutral; [exact O1| |done|]; [|intros y t2 _ O2; by apply wp_ret]. eapply inside_buf; [done|done|done|lia|lia].
Qed.

Lemma process_io_request_wp s q tag t l :
  holds q l → Fd (backend_fd s) ∈ l → 0 ≤ tag < UBLK_QUEUE_DEPTH → owns t l →
  wp (process_io_request s q tag) (λ _ t', owns t' l) t.
Proof.
  intros Hh Hb Ht O0. unfold process_io_request. cbn [mbind prog_bind sys].
  eapply wp_neutral; [exact O0|by eapply inside_desc|done|]. intros d t1 Hd O1. cbn in Hd.
  assert (to_u32 (nth 1 (data d) 0) = nth 1 (data d) 0) as -> by (unfold to_u32; apply Z.mod_small; lia).
  repeat (case_match; [first [by apply handle_read_io_wp | by apply wp_ret]|]). by apply wp_ret.
Qed.

Lemma io_turn_wp s q t l :
  holds q l → Fd (backend_fd s) ∈ l → owns t l → wp (io_turn s q) (λ _ t', owns t' l) t.
Proof.
  intros Hh Hb O0. unfold io_turn. cbn [mbind prog_bind sys].
  eapply wp_neutral; [exact O0|by eapply holds_ring|done|]. intros x t1 Hx O1. cbn in Hx.
  case_match; [by apply wp_ret|]. case_match; [by apply wp_ret|].
  rewrite to_int_small by (unfold UBLK_QUEUE_DEPTH in Hx; lia).
  assert (∀ t', owns t' l → wp (_ ← sys cqe_seen; mret true) (λ (_ : bool) t'', owns t'' l) t') as Hseen.
  { intros t' O'. cbn [mbind prog_bind sys]. eapply wp_neutral; [exact O'|by eapply holds_ring|done|]. intros. by apply wp_ret. }
  apply wp_bind. case_match; [|by apply wp_ret, Hseen]. apply wp_bind.
  eapply wp_mono; [by apply (process_io_request_wp s q _ _ l)|]. intros r t2 O2.
  eapply wp_mono; [by apply (submit_wp _ _ _ _ _ l)|]. intros z t3 [O3 _]. by apply Hseen.
Qed.

Lemma loop_turns_suffix (t t' : trace call) : t `suffix_of` t' → (loop_turns t ≤ loop_turns t')%nat.
Proof. intros [k ->]. unfold loop_turns. rewrite filter_app, length_app. lia. Qed.

Lemma io_turns_wp fuel s q t l :
  holds q l → Fd (backend_fd s) ∈ l → owns t l →
  wp (io_turns fuel s q) (λ o t', owns t' l ∧ (o = None → (loop_turns t + fuel ≤ loop_turns t')%nat)) t.
Proof.
  intros Hh Hb. revert t. induction fuel as [|fuel IH]; intros t O0; cbn [io_turns].
  { apply wp_ret. split; [done|lia]. }
  cbn [mbind prog_bind sys]. split; [exact I|]. intros x _.
  assert (owns ((load_running, x) :: t) l) as O1 by (eapply owns_step; [exact O0|]; intros r; simpl; lia).
  destruct (ret x =? 0) eqn:Hx; [by apply wp_ret|]. apply wp_bind.
  assert (loop_turns ((load_running, x) :: t) = S (loop_turns t)) as E1.
  { unfold loop_turns. rewrite filter_cons_True; [done|]. unfold is_turn. cbn [fst snd]. by rewrite Hx. }
  eapply wp_mono; [by apply wp_suffix, (io_turn_wp s q _ l)|]. intros b t2 [O2 Hs%loop_turns_suffix].
  destruct b; [|by apply wp_ret]. eapply wp_mono; [by apply IH|]. intros o t' [O3 H3]. split; [done|].
  intros E. specialize (H3 E). lia.
Qed.

(** What a run of [main] leaves behind. *)
Definition released (fuel : nat) (o : option Z) (t : trace call) : Prop :=
  match o with
  | Some status => (status = 0 ∨ status = 1) ∧ (owns t [] ∨ status = 1 ∧ params_failed t ∧ owns t [Device 0])
  | None => (fuel ≤ loop_turns t)%nat
  end.

Lemma leave_released fuel s z t :
  dev_id s = 0 → z = 0 ∨ z = 1 → owns t [Device 0; Fd (ctrl_fd s); Fd (backend_fd s)] → wp (leave s z) (released fuel) t.
Proof.
  intros Hd Hz O. rewrite <-Hd in O. eapply wp_mono; [by apply leave_server_wp|]. intros o t' [-> O']. split; auto.
Qed.

Lemma cleanup_released fuel s q z t :
  dev_id s = 0 → z = 0 ∨ z = 1 → owns t (queue_resources q ++ [Device 0; Fd (ctrl_fd s); Fd (backend_fd s)]) →
  wp (_ ← ublk_queue_cleanup q; leave s z) (released fuel) t.
Proof.
  intros Hd Hz O. apply wp_bind. eapply wp_mono; [by apply ublk_queue_cleanup_wp|]. intros ? t' O'. by apply leave_released.
Qed.

Lemma started_wp fuel s q t :
  dev_id s = 0 → queue s = q → queue_ok q → fetched t = reverse (seqZ 0 UBLK_QUEUE_DEPTH) →
  owns t (queue_resources q ++ [Device 0; Fd (ctrl_fd s); Fd (backend_fd s)]) →
  wp (r ← ublk_dev_start s;
      if r <? 0 then _ ← ublk_queue_cleanup q; leave s 1
      else o ← io_loop fuel s;
           match o with None => mret None | Some _ => _ ← ublk_queue_cleanup q; leave s 0 end)
    (released fuel) t.
Proof.
  intros Hd Hq Hok Hf. set (l := queue_resources q ++ _). intros O0.
  assert (holds q l) as Hh by (split; [done|]; unfold l; set_solver).
  assert (Fd (backend_fd s) ∈ l) as Hb by (unfold l; set_solver).
  apply wp_bind. unfold ublk_dev_start. cbn [mbind prog_bind sys]. split; [exact I|]. intros p _.
  assert (owns ((getpid, p) :: t) l) as O1 by (eapply owns_step; [exact O0|]; intros r; simpl; lia).
  eapply wp_neutral; [exact O1| |done|].
  { rewrite Hd. split_and!; [apply (owns_held _ l _ O1); unfold l; set_solver..|done]. }
  intros x t2 _ O2. apply wp_ret. destruct (_ <? 0); cbn [Z.ltb Z.compare]; [apply cleanup_released; auto|].
  apply wp_bind. unfold io_loop, simulate_test_io. apply wp_bind, wp_bind. rewrite Hq.
  eapply wp_mono; [apply (handle_read_io_wp s q 0 0 8 t2 l); done|]. intros z t3 O3. apply wp_ret.
  eapply wp_mono; [by apply (io_turns_wp fuel s q t3 l)|]. intros [u|] t4 [O4 H4]; [apply cleanup_released; auto|].
  apply wp_ret. specialize (H4 eq_refl). simpl. lia.
Qed.

Lemma main_wp fuel path : wp (main fuel path) (released fuel) [].
Proof.
  unfold main. apply wp_bind. eapply wp_mono; [apply ublk_dev_setup_wp, owns_nil|].
  intros [r1 s1] t1 [(-> & O1)|(-> & c & b & n & -> & O1)]; cbn [Z.ltb Z.compare].
  { apply wp_ret. split; [by right|]. destruct O1 as [?|[? ?]]; auto. }
  simpl dev_id in O1. apply wp_bind. eapply wp_mono; [apply ublk_queue_setup_wp, O1|].
  intros [r2 q] t2 [(-> & O2)|(-> & Hq & Hf & O2)]; cbn [Z.ltb Z.compare]; [apply leave_released; auto|].
  apply wp_bind. unfold issue_all_fetch_reqs. rewrite (proj1 Hq).
  eapply wp_mono; [apply (issue_fetch_reqs_wp q _ _ _ (queue_resources q ++ [Device 0; Fd c; Fd b]))|].
  { split; [done|]. set_solver. }
  all: try done.
  intros z t3 [O3 [->|[-> Hf3]]]; cbn [Z.ltb Z.compare]; [apply cleanup_released; auto|]. by apply started_wp.
Qed.
End releases.

(** C33: on every system whose driver completes the tags it was given with requests of at
    most 4 KiB, every path through the server, for every failure, uses and releases only
    what it holds, stays within its buffers, starts the device only after each tag was
    fetched, and gives back all descriptors, mappings, the ring and the device; only when
    setting the parameters failed is the device left.  The loop goes on only as long as it
    finds [running] set. *)
Theorem server_releases env fuel path :
  (∀ t c, allowed t c (env t c)) →
  let '(o, t) := run env (main fuel path) [] in
  all_legal legal t ∧ released fuel o t.
Proof.
  intros He. pose proof (main_wp fuel path) as Hwp. pose proof (wp_sound _ _ env _ _ _ He Hwp) as HQ.
  pose proof (wp_legal _ _ env _ _ [] He I Hwp) as Hl. by destruct (run env (main fuel path) []).
Qed.

(** ** What a turn does with a request *)
Section requests.
Context (file : list Z) (env : trace call → call → answer) (Henv : ∀ t c, reads file c (env t c)).
Definition any (t : trace call) (c : call) : Prop := True.
Definition given (t : trace call) (c : call) (x : answer) : Prop := x = env t c.
Notation wp := (wp any given).

Lemma offset_wraps z : 0 ≤ z → to_u32 (to_u32 z * UBLK_BLOCK_SIZE) = z * UBLK_BLOCK_SIZE mod 2 ^ 32.
Proof using. intros. unfold to_u32. apply Z.mul_mod_idemp_l. lia. Qed.

Lemma handle_read_io_reads s q tag z n t :
  0 ≤ n ≤ 8 → 0 ≤ z →
  let buf := get_io_buf q tag in
  wp (handle_read_io s q tag (to_u32 z) n) (λ r t', committed t' = committed t ∧ 
    (∀ a, ¬ (r = 0 ∧ buf ≤ a < buf + n * UBLK_BLOCK_SIZE) → byte_at t' a = byte_at t a) ∧
    (r = - EIO ∧ ret (env t (pread (backend_fd s) buf (n * UBLK_BLOCK_SIZE) (z * UBLK_BLOCK_SIZE mod 2 ^ 32))) < 0 ∨
     r = 0 ∧ ∀ k, 0 ≤ k < n * UBLK_BLOCK_SIZE →
       byte_at t' (buf + k) = Some (default 0 (znth file (z * UBLK_BLOCK_SIZE mod 2 ^ 32 + k))))) t.
Proof using Henv.
  intros Hn Hz buf. unfold handle_read_io. rewrite offset_wraps by done. set (off := _ mod _).
  assert (0 ≤ off) as Hoff by (apply Z.mod_pos_bound; lia).
  assert (to_u32 (n * UBLK_BLOCK_SIZE) = n * UBLK_BLOCK_SIZE) as -> by (apply Z.mod_small; unfold UBLK_BLOCK_SIZE; lia).
  set (size := n * UBLK_BLOCK_SIZE). fold buf. cbn [mbind prog_bind sys]. split; [done|]. intros x Hg.
  pose proof (Henv t (pread (backend_fd s) buf size off)) as Hx. rewrite <-Hg in Hx. simpl in Hx.
  destruct (Z.ltb_spec (ret x) 0) as [Hneg|Hpos].
  { apply wp_ret. split; [done|]. split; [|left; by rewrite <-Hg]. intros a _. simpl. by zcases; try lia. }
  destruct Hx as [|[Hd Hr]]; [lia|]. assert (ret x ≤ size) as Hle.
  { rewrite Hr, Hd. unfold zlen, slice. rewrite length_take. unfold size, UBLK_BLOCK_SIZE. lia. }
  assert (∀ k, 0 ≤ k < ret x → znth (data x) k = Some (default 0 (znth file (off + k)))) as Hin.
  { intros k Hk. destruct (znth_is_Some (data x) k) as [b Hb]; [lia|]. rewrite Hb. rewrite Hd, znth_slice in Hb by lia. by rewrite Hb. }
  assert (∀ k, ret x ≤ k < size → znth file (off + k) = None) as Hout.
  { intros k Hk. rewrite <-(znth_slice file off size) by lia. rewrite <-Hd. apply znth_None. lia. }
  destruct (Z.ltb_spec (ret x) size) as [Hs|Hs].
  - split; [done|]. intros y _. apply wp_ret. split; [done|]. split; [|right; split; [done|]].
    + intros a Ha. simpl. zcases; try lia; done.
    + intros k Hk. simpl. destruct (Z.ltb_spec k (ret x)).
      * zcases; try lia. rewrite <-Hin by lia. f_equal. lia.
      * rewrite Hout by lia. zcases; try lia; done.
  - apply wp_ret. split; [done|]. split; [|right; split; [done|]].
    + intros a Ha. simpl. zcases; try lia; done.
    + intros k Hk. simpl. zcases; try lia. rewrite <-Hin by lia. f_equal. lia.
Qed.

(** The system fails the read of the file for a request. *)
Definition read_fails (t : trace call) (s : ublk_server) (q : ublk_queue) (tag : Z) (d : answer) : Prop :=
  ret (env t (pread (backend_fd s) (get_io_buf q tag) (nth 1 (data d) 0 * UBLK_BLOCK_SIZE) (nth 2 (data d) 0 * UBLK_BLOCK_SIZE))) < 0.

Lemma process_io_request_answers s q tag t :
  let d := env t (load_desc (get_io_desc q tag)) in
  0 ≤ nth 2 (data d) 0 * UBLK_BLOCK_SIZE < 2 ^ 32 →
  wp (process_io_request s q tag) (λ r t', committed t' = committed t ∧
    answered file d (read_fails ((load_desc (get_io_desc q tag), d) :: t) s q tag d) (get_io_buf q tag) (byte_at t) (byte_at t') r) t.
Proof using Henv.
  intros d Hz. unfold process_io_request. cbn [mbind prog_bind sys]. split; [done|]. intros x Hx. assert (x = d) as -> by exact Hx.
  pose proof (Henv t (load_desc (get_io_desc q tag))) as Hn. fold d in Hn. simpl in Hn.
  assert (to_u32 (nth 1 (data d) 0) = nth 1 (data d) 0) as -> by (apply Z.mod_small; lia).
  unfold answered. set (op := Z.land _ _). destruct (Z.eqb_spec op UBLK_IO_OP_READ) as [E|E].
  - eapply wp_mono; [apply handle_read_io_reads; [done|unfold UBLK_BLOCK_SIZE in Hz; lia]|].
    intros r t' (Hc & Hu & Hr). rewrite Z.mod_small in Hr by done. split; [done|]. split_and!; [|done|done].
    intros a Ha. rewrite Hu; [done|]. naive_solver.
  - unfold handle_write_io. repeat case_match; apply wp_ret; (split; [done|]; split_and!; [done|done|]; intros _; simpl in *; congruence).
Qed.

Lemma submit_commits q tag r t :
  wp (submit_commit_and_fetch_req q tag r) (λ _ t', (∀ a, byte_at t' a = byte_at t a) ∧
    (committed t' = (tag, r) :: committed t ∨ committed t' = committed t ∧ ret (env t get_sqe) = 0)) t.
Proof using.
  unfold submit_commit_and_fetch_req, submit. cbn [mbind prog_bind sys]. split; [done|]. intros x Hx. assert (x = env t get_sqe) as -> by exact Hx.
  destruct (Z.eqb_spec (ret (env t get_sqe)) 0); [apply wp_ret; auto|].
  split; [done|]. intros y _. split; [done|]. intros z _. apply wp_ret. auto.
Qed.

(** C31: a turn that takes a completed tag, whose request has at most 8 sectors and starts
    below 4 GiB, serves the request of its descriptor and commits the result for that tag;
    the commit is missing only when the ring has no free entry.  A read gives the bytes of
    the file from its sector on and zeros after the end of the file, or [-EIO] when the read
    of the file failed; a write gives [-EROFS], an unknown operation [-EINVAL], and the
    others 0; nothing but the buffer of a read that succeeded changes. *)
Theorem request_served s q t :
  let x := env t wait_cqe in
  let tag := nth 1 (data x) 0 in
  let d := env ((wait_cqe, x) :: t) (load_desc (get_io_desc q tag)) in
  0 ≤ ret x → nth 0 (data x) 0 ≠ 0 → nth 2 (data x) 0 = UBLK_IO_RES_OK →
  0 ≤ nth 2 (data d) 0 * UBLK_BLOCK_SIZE < 2 ^ 32 →
  let '(go, t') := run env (io_turn s q) t in
  go = true ∧ ∃ r, answered file d (read_fails ((load_desc (get_io_desc q tag), d) :: (wait_cqe, x) :: t) s q tag d) (get_io_buf q tag) (byte_at t) (byte_at t') r ∧
    (committed t' = (tag, r) :: committed t ∨
     committed t' = committed t ∧ ∃ u, t `suffix_of` u ∧ ret (env u get_sqe) = 0).
Proof using Henv.
  intros x tag d Hx He Hok Hz. pose proof (Henv t wait_cqe) as Htag. fold x tag in Htag. simpl in Htag.
  assert (wp (io_turn s q) (λ go t', go = true ∧ ∃ r, answered file d (read_fails ((load_desc (get_io_desc q tag), d) :: (wait_cqe, x) :: t) s q tag d) (get_io_buf q tag) (byte_at t) (byte_at t') r ∧
    (committed t' = (tag, r) :: committed t ∨
     committed t' = committed t ∧ ∃ u, t `suffix_of` u ∧ ret (env u get_sqe) = 0)) t) as Hwp.
  { unfold io_turn. cbn [mbind prog_bind sys]. split; [done|]. intros y Hy. assert (y = x) as -> by exact Hy.
    destruct (Z.ltb_spec (ret x) 0); [lia|]. destruct (Z.eqb_spec (nth 0 (data x) 0) 0); [done|].
    rewrite Hok, to_int_small by (unfold UBLK_QUEUE_DEPTH in Htag; lia). fold tag. cbn [Z.eqb UBLK_IO_RES_OK].
    apply wp_bind, wp_bind. eapply wp_mono; [by apply wp_suffix, process_io_request_answers|].
    intros r t1 [[Hc Ha] Hs]. eapply wp_mono; [apply submit_commits|]. intros z t2 [Hb Hc2].
    cbn [mbind prog_bind sys]. split; [done|]. intros w _. apply wp_ret. split; [done|]. exists r. split.
    - destruct Ha as (H1 & H2 & H3). split_and!; [|intros E; destruct (H2 E) as [?|[? H4]]; [by left|right; split; [done|]]|done].
      + intros a Ha. simpl. rewrite Hb. by apply H1.
      + intros k Hk. simpl. rewrite Hb. by apply H4.
    - simpl. rewrite Hc in Hc2. destruct Hc2 as [?|[? ?]]; [by left|right]. split; [done|]. exists t1. split; [|done].
      etrans; [|exact Hs]. by apply suffix_cons_r. }
  apply (wp_sound _ _ env _ _ _ (λ _ _, eq_refl)) in Hwp. by destruct (run env (io_turn s q) t).
Qed.
End requests.

(** ** A system to run on

    Descriptors and addresses are new ones.  The driver asks for two sectors from sector 1,
    over and over, and the program is stopped after some turns. *)
Definition sim_file : list Z := seqZ 0 600.

Definition sim_env (size : Z) (t : trace call) (c : call) : answer :=
  let fresh := 3 + zlen t in
  match c with
  | open _ _ => {| ret := fresh; errno := 0; data := [] |}
  | lseek_end _ => {| ret := size; errno := 0; data := [] |}
  | mmap _ _ _ _ _ => {| ret := fresh * 2 ^ 20; errno := 0; data := [] |}
  | get_sqe => {| ret := 1; errno := 0; data := [] |}
  | wait_cqe => {| ret := 0; errno := 0; data := [1; 5; UBLK_IO_RES_OK] |}
  | load_desc _ => {| ret := 0; errno := 0; data := [UBLK_IO_OP_READ; 2; 1] |}
  | pread _ _ size offset => let bs := slice sim_file offset size in {| ret := zlen bs; errno := 0; data := bs |}
  | load_running => {| ret := if (loop_turns t =? 3)%nat then 0 else 1; errno := 0; data := [] |}
  | _ => {| ret := 0; errno := 0; data := [] |}
  end.

Lemma sim_allowed size t c : allowed t c (sim_env size t c).
Proof. destruct c; try done. cbn. intros Hn. unfold zlen, slice. rewrite length_take. lia. Qed.

Lemma sim_reads size t c : reads sim_file c (sim_env size t c).
Proof. destruct c; try done. by right. Qed.

Lemma server_releases_witness :
  let '(o, t) := run (sim_env 600) (main 5 (lit "backend.data")) [] in
  all_legal legal t ∧ released 5 o t.
Proof. apply server_releases. intros t c. apply sim_allowed. Defined.

(** The run ends when it is stopped, and has committed three reads of tag 5. *)
Lemma sim_run :
  (run (sim_env 600) (main 5 (lit "backend.data")) []).1 = Some 0 ∧
  committed (run (sim_env 600) (main 5 (lit "backend.data")) []).2 = replicate 3 (5, 0).
Proof. vm_compute. done. Qed.

(** The size is unsigned, so that a failed [lseek] makes a device of 2^55 - 1 sectors. *)
Lemma seek_error_accepted :
  let '(_, t) := run (sim_env (-1)) (main 5 (lit "backend.data")) [] in
  (set_params 5 0 (basic_params (2 ^ 64 - 1)), {| ret := 0; errno := 0; data := [] |}) ∈ t ∧
  dev_sectors (basic_params (2 ^ 64 - 1)) = 2 ^ 55 - 1.
Proof. vm_compute. set_solver. Qed.

(** A read of sector 2^23, at 4 GiB, gives the start of the file. *)
Lemma far_read_wraps s q tag n : handle_read_io s q tag (2 ^ 23) n = handle_read_io s q tag 0 n.
Proof. done. Qed.

Definition sim_queue : ublk_queue :=
  {| q_id := 0; depth := 32; cdev_fd := 7; io_cmd_buf := 2 ^ 20; io_cmd_buf_size := CMD_SIZE; io_buf := 2 ^ 21; io_buf_size := BUF_SIZE |}.
Definition sim_server : ublk_server := {| ctrl_fd := 4; backend_fd := 3; dev_id := 0; dev_size := 600; queue := sim_queue |}.

Lemma request_served_witness :
  let x := sim_env 600 [] wait_cqe in
  let d := sim_env 600 [(wait_cqe, x)] (load_desc (get_io_desc sim_queue 5)) in
  let '(go, t') := run (sim_env 600) (io_turn sim_server sim_queue) [] in
  go = true ∧ ∃ r,
    answered sim_file d (read_fails (sim_env 600) [(load_desc (get_io_desc sim_queue 5), d); (wait_cqe, x)] sim_server sim_queue 5 d)
      (get_io_buf sim_queue 5) (byte_at []) (byte_at t') r ∧
    (committed t' = [(5, r)] ∨ committed t' = [] ∧ ∃ u, [] `suffix_of` u ∧ ret (sim_env 600 u get_sqe) = 0).
Proof. exact (request_served sim_file (sim_env 600) (sim_reads 600) sim_server sim_queue [] ltac:(done) ltac:(done) ltac:(done) ltac:(done)). Defined.

End UblkServer.
