(* ===== verification/CowDemo.v ===== *)
(** * The two-process copy-on-write demonstration

    Model of [src/uffd-cow-gpt/demo/main.c].  A parent maps a memory file and forks; the
    child registers the mapping with userfaultfd, starts a thread that serves its faults,
    and reads and writes pages when the parent tells it to, over two pipes.  Programs are
    trees of system calls; [fatalf] ends the process, and a loop that repeats an interrupted
    call has a bound on its turns.  Output is not modelled, but the loads from the mapping
    that produce it are.  [demo_releases] is about the calls of one process,
    [handshake_completes] about the two processes together, where a load that faults is taken
    to be answered by the thread; [missing_loads_page], [write_fault_isolates] and
    [handler_survives] are about what the thread does with a page. *)

From S2P Require Import Prelude RustStr Kernel CProg.

Module CowDemo.

Definition REGION_SIZE : Z := 64 * 1024.
Definition PREVIEW_LEN : Z := 48.
Definition k_write_pages : list Z := [6; 8; 11].

Record page_meta := { file_offset : Z; loaded : Z }.

Record demo_ctx := {
  page_size : Z; region_size : Z; page_count : Z; memfd : Z; datafd : Z; uffd : Z; user_base : Z;
  (** the pointer [calloc] returned, and what it points at *)
  meta_ptr : Z; meta : list page_meta }.

(** ** Calls

    [pipe] gives its two ends, [poll] the events, [read_event] the fields [event], [flags]
    and [address] of a message, [waitpid] whether the child called [exit] and its status.
    [pread] reads to an address, or to a local array.  [load_stop] and [load_uffd] read
    fields of the context that another thread writes.  [read_lines] is the loop that copies
    a stream to the output. *)
Inductive call :=
| open (path : str) (flags : Z)
| close (fd : Z)
| write (fd : Z) (bytes : list Z)
| read (fd len : Z)
| fsync (fd : Z)
| malloc (size : Z)
| calloc (count size : Z)
| free (ptr : Z)
| sysconf_pagesize
| memfd_create (name : str) (flags : Z)
| ftruncate (fd len : Z)
| mmap (addr len prot flags fd offset : Z)
| munmap (addr len : Z)
| pread (fd : Z) (dst : option Z) (len offset : Z)
| load (addr len : Z)
| store (addr : Z) (bytes : list Z)
| userfaultfd (flags : Z)
| ioctl_api (fd features : Z)
| ioctl_register (fd start len mode : Z)
| ioctl_copy (fd dst src len mode : Z)
| ioctl_writeprotect (fd start len mode : Z)
| ioctl_wake (fd start len : Z)
| poll (fd events timeout : Z)
| read_event (fd : Z)
| load_stop
| store_stop
| load_uffd
| pthread_create
| pthread_join
| pipe
| fork
| waitpid (pid : Z)
| getpid
| fopen (path : str)
| read_lines (stream : Z)
| fclose (stream : Z).

Definition MAP_FAILED : Z := -1.
Definition O_RDONLY : Z := 0.
(** [O_CREAT | O_TRUNC | O_RDWR] *)
Definition O_CREATE : Z := 578.

(** A function returns, ends the process, or has used up its turns. *)
Inductive outcome (A : Type) := Done (a : A) | Exit | Stuck.
Arguments Done {A} a.
Arguments Exit {A}.
Arguments Stuck {A}.

Notation exits A := (prog call (outcome A)).
Notation "x ⇐ p ; q" :=
  (p ≫= λ o, match o with Done x => q | Exit => mret Exit | Stuck => mret Stuck end)
  (at level 100, p at next level, q at level 200, right associativity).
Notation returns := (mret (Done tt)).
Notation fatalf := (mret Exit).

(** ** Reading and writing *)

Fixpoint write_all (fuel : nat) (fd : Z) (buf : list Z) : exits unit :=
  match buf, fuel with
  | [], _ => returns
  | _, O => mret Stuck
  | _, S fuel' =>
      n ← sys (write fd buf);
      if ret n <? 0 then if errno n =? EINTR then write_all fuel' fd buf else fatalf
      else write_all fuel' fd (drop (Z.to_nat (ret n)) buf)
  end.

Fixpoint read_all (fuel : nat) (fd len : Z) : exits (list Z) :=
  if len <=? 0 then mret (Done [])
  else match fuel with
  | O => mret Stuck
  | S fuel' =>
      n ← sys (read fd len);
      if ret n <? 0 then if errno n =? EINTR then read_all fuel' fd len else fatalf
      else if ret n =? 0 then fatalf
      else rest ⇐ read_all fuel' fd (len - ret n); mret (Done (data n ++ rest))
  end.

(** ** The sample file *)

(** [snprintf] cuts the text to the page and ends it with a zero. *)
Definition fill_page_pattern (page_size page_idx : Z) : list Z :=
  let fill := 65 + page_idx mod 26 in
  let digits := (if page_idx <? 10 then lit "0" else []) ++ show_u64 page_idx in
  let text := lit "page" ++ digits ++ lit ": shared file payload (" ++ [fill] ++ lit ") for uffd demo" in
  take (Z.to_nat (page_size - 1)) text ++ [0] ++ zreplicate (page_size - (zlen text + 1)) fill.

Fixpoint write_pages (fuel : nat) (fd page_size i : Z) (n : nat) : exits unit :=
  match n with
  | O => returns
  | S n' => _ ⇐ write_all fuel fd (fill_page_pattern page_size i); write_pages fuel fd page_size (i + 1) n'
  end.

Definition create_sample_file (fuel : nat) (path : str) (page_size page_count : Z) : exits unit :=
  fd ← sys (open path O_CREATE);
  if ret fd <? 0 then fatalf
  else
    page ← sys (malloc page_size);
    if ret page =? 0 then fatalf
    else
      _ ⇐ write_pages fuel (ret fd) page_size 0 (Z.to_nat page_count);
      _ ← sys (free (ret page));
      s ← sys (fsync (ret fd));
      if ret s <? 0 then fatalf
      else c ← sys (close (ret fd)); if ret c <? 0 then fatalf else returns.

(** ** Set-up *)

Definition init_demo (fuel : nat) (sample_path : str) : exits demo_ctx :=
  ps ← sys sysconf_pagesize;
  let page_size := to_u64 (ret ps) in
  if negb (REGION_SIZE mod page_size =? 0) then fatalf
  else
    let page_count := REGION_SIZE / page_size in
    m ← sys (calloc page_count 16);
    if ret m =? 0 then fatalf
    else
      _ ⇐ create_sample_file fuel sample_path page_size page_count;
      d ← sys (open sample_path O_RDONLY);
      if ret d <? 0 then fatalf
      else
        f ← sys (memfd_create (lit "uffd-cow-demo") 0);
        if ret f <? 0 then fatalf
        else
          t ← sys (ftruncate (ret f) REGION_SIZE);
          if ret t <? 0 then fatalf
          else
            b ← sys (mmap 0 REGION_SIZE (Z.lor PROT_READ PROT_WRITE) MAP_SHARED (ret f) 0);
            if ret b =? MAP_FAILED then fatalf
            else mret (Done
              {| page_size := page_size; region_size := REGION_SIZE; page_count := page_count; memfd := ret f; datafd := ret d;
                 uffd := -1; user_base := ret b; meta_ptr := ret m;
                 meta := (λ i, {| file_offset := i * page_size; loaded := 0 |}) <$> seqZ 0 page_count |}).

Definition when (b : bool) (p : prog call unit) : prog call unit := if b then p else mret tt.

Definition cleanup_demo (ctx : demo_ctx) : prog call unit :=
  _ ← when (negb (user_base ctx =? 0) && negb (user_base ctx =? MAP_FAILED))
        (_ ← sys (munmap (user_base ctx) (region_size ctx)); mret tt);
  _ ← when (0 <=? uffd ctx) (_ ← sys (close (uffd ctx)); mret tt);
  _ ← when (0 <=? memfd ctx) (_ ← sys (close (memfd ctx)); mret tt);
  _ ← when (0 <=? datafd ctx) (_ ← sys (close (datafd ctx)); mret tt);
  _ ← sys (free (meta_ptr ctx)); mret tt.

Definition uffdio_supported (ioctls bit : Z) : bool := negb (Z.land ioctls (Z.shiftl 1 bit) =? 0).

Definition set_uffd (u : Z) (ctx : demo_ctx) : demo_ctx :=
  {| page_size := page_size ctx; region_size := region_size ctx; page_count := page_count ctx; memfd := memfd ctx;
     datafd := datafd ctx; uffd := u; user_base := user_base ctx; meta_ptr := meta_ptr ctx; meta := meta ctx |}.

Definition setup_userfaultfd (ctx : demo_ctx) : exits demo_ctx :=
  u ← sys (userfaultfd (Z.lor (Z.lor O_CLOEXEC O_NONBLOCK) UFFD_USER_MODE_ONLY));
  if ret u <? 0 then fatalf
  else
    a ← sys (ioctl_api (ret u) 0);
    let features := nth 0 (data a) 0 in
    if ret a <? 0 then fatalf
    else if Z.land features UFFD_FEATURE_MISSING_SHMEM =? 0 then fatalf
    else if Z.land features UFFD_FEATURE_PAGEFAULT_FLAG_WP =? 0 then fatalf
    else if Z.land features UFFD_FEATURE_WP_HUGETLBFS_SHMEM =? 0 then fatalf
    else
      r ← sys (ioctl_register (ret u) (user_base ctx) (region_size ctx)
                 (Z.lor UFFDIO_REGISTER_MODE_MISSING UFFDIO_REGISTER_MODE_WP));
      let ioctls := nth 0 (data r) 0 in
      if ret r <? 0 then fatalf
      else if negb (uffdio_supported ioctls UFFDIO_COPY_BIT) then fatalf
      else if negb (uffdio_supported ioctls UFFDIO_WRITEPROTECT_BIT) then fatalf
      else if negb (uffdio_supported ioctls UFFDIO_WAKE_BIT) then fatalf
      else mret (Done (set_uffd (ret u) ctx)).

(** ** Pages *)

Definition page_index_from_addr (ctx : demo_ctx) (fault_addr : Z) : Z := to_u64 (fault_addr - user_base ctx) / page_size ctx.
(** [addr & ~(page_size - 1)] *)
Definition page_start (ctx : demo_ctx) (addr : Z) : Z := Z.land addr (unot (to_u64 (page_size ctx - 1))).
Definition page_addr (ctx : demo_ctx) (page_idx : Z) : Z := user_base ctx + page_idx * page_size ctx.

(** The offset of a page; the index is in range where it is used. *)
Definition offset_of (ctx : demo_ctx) (page_idx : Z) : Z := from_option file_offset 0 (znth (meta ctx) page_idx).

Definition log_before_read_fault (ctx : demo_ctx) (page_idx : Z) : exits unit :=
  n ← sys (pread (datafd ctx) None PREVIEW_LEN (offset_of ctx page_idx)); if ret n <? 0 then fatalf else returns.

Definition log_mapping_page (page : Z) : exits unit := _ ← sys (load page PREVIEW_LEN); returns.

Fixpoint log_pages (ctx : demo_ctx) (pages : list Z) : exits unit :=
  match pages with
  | [] => returns
  | i :: pages' => _ ⇐ log_mapping_page (page_addr ctx i); log_pages ctx pages'
  end.
Definition log_selected_pages (ctx : demo_ctx) : exits unit := log_pages ctx k_write_pages.

Fixpoint prefault_pages (ctx : demo_ctx) (pages : list Z) : exits unit :=
  match pages with
  | [] => returns
  | i :: pages' => _ ← sys (load (page_addr ctx i) 1); _ ⇐ log_mapping_page (page_addr ctx i); prefault_pages ctx pages'
  end.
Definition prefault_selected_pages (ctx : demo_ctx) : exits unit := prefault_pages ctx k_write_pages.

(** The values are ['X'], ['Y'] and ['Z']. *)
Fixpoint write_selected (ctx : demo_ctx) (value : Z) (pages : list Z) : exits unit :=
  match pages with
  | [] => returns
  | i :: pages' => _ ← sys (store (page_addr ctx i) [value]); write_selected ctx (value + 1) pages'
  end.
Definition write_selected_pages (ctx : demo_ctx) : exits unit := write_selected ctx 88 k_write_pages.

(** ** The fault handler *)

Definition set_loaded (ctx : demo_ctx) (page_idx : Z) : demo_ctx :=
  {| page_size := page_size ctx; region_size := region_size ctx; page_count := page_count ctx; memfd := memfd ctx;
     datafd := datafd ctx; uffd := uffd ctx; user_base := user_base ctx; meta_ptr := meta_ptr ctx;
     meta := zset (meta ctx) page_idx {| file_offset := offset_of ctx page_idx; loaded := 1 |} |}.

Definition handle_missing_fault (ctx : demo_ctx) (fault_addr : Z) : exits demo_ctx :=
  let page_idx := page_index_from_addr ctx fault_addr in
  let aligned := page_start ctx fault_addr in
  if page_count ctx <=? page_idx then fatalf
  else
    tmp ← sys (mmap 0 (page_size ctx) (Z.lor PROT_READ PROT_WRITE) (Z.lor MAP_PRIVATE MAP_ANONYMOUS) (-1) 0);
    if ret tmp =? MAP_FAILED then fatalf
    else
      _ ← sys (store (ret tmp) (zreplicate (page_size ctx) 0));
      n ← sys (pread (datafd ctx) (Some (ret tmp)) (page_size ctx) (offset_of ctx page_idx));
      if ret n <? 0 then fatalf
      else
        u ← sys load_uffd;
        x ← sys (ioctl_copy (ret u) aligned (ret tmp) (page_size ctx) UFFDIO_COPY_MODE_WP);
        if ret x <? 0 then fatalf
        else
          m ← sys (munmap (ret tmp) (page_size ctx));
          if ret m <? 0 then fatalf else mret (Done (set_loaded ctx page_idx)).

Definition handle_wp_fault (ctx : demo_ctx) (fault_addr : Z) : exits unit :=
  let aligned := page_start ctx fault_addr in
  snapshot ← sys (mmap 0 (page_size ctx) (Z.lor PROT_READ PROT_WRITE) (Z.lor MAP_PRIVATE MAP_ANONYMOUS) (-1) 0);
  if ret snapshot =? MAP_FAILED then fatalf
  else
    b ← sys (load aligned (page_size ctx));
    _ ← sys (store (ret snapshot) (data b));
    u ← sys load_uffd;
    w ← sys (ioctl_writeprotect (ret u) aligned (page_size ctx) UFFDIO_WRITEPROTECT_MODE_DONTWAKE);
    if ret w <? 0 then fatalf
    else
      p ← sys (mmap aligned (page_size ctx) (Z.lor PROT_READ PROT_WRITE) (Z.lor (Z.lor MAP_PRIVATE MAP_ANONYMOUS) MAP_FIXED) (-1) 0);
      if ret p =? MAP_FAILED then fatalf
      else
        c ← sys (load (ret snapshot) (page_size ctx));
        _ ← sys (store (ret p) (data c));
        u' ← sys load_uffd;
        k ← sys (ioctl_wake (ret u') aligned (page_size ctx));
        if ret k <? 0 then fatalf
        else m ← sys (munmap (ret snapshot) (page_size ctx)); if ret m <? 0 then fatalf else returns.

(** [errno == EBADF && ctx->stop_handler]: [None] is the [break]. *)
Definition closed_or_die (errno : Z) : exits (option demo_ctx) :=
  if errno =? EBADF then s ← sys load_stop; if ret s =? 0 then fatalf else mret (Done None) else fatalf.

(** The body of the loop. *)
Definition handler_turn (ctx : demo_ctx) : exits (option demo_ctx) :=
  u ← sys load_uffd;
  r ← sys (poll (ret u) POLLIN 100);
  if ret r <? 0 then if errno r =? EINTR then mret (Done (Some ctx)) else closed_or_die (errno r)
  else if (ret r =? 0) || (Z.land (nth 0 (data r) 0) POLLIN =? 0) then mret (Done (Some ctx))
  else
    u' ← sys load_uffd;
    n ← sys (read_event (ret u'));
    if ret n <? 0 then
      if (errno n =? EAGAIN) || (errno n =? EINTR) then mret (Done (Some ctx)) else closed_or_die (errno n)
    else if negb (ret n =? 32) then fatalf
    else if negb (nth 0 (data n) 0 =? UFFD_EVENT_PAGEFAULT) then mret (Done (Some ctx))
    else if negb (Z.land (nth 1 (data n) 0) UFFD_PAGEFAULT_FLAG_WP =? 0) then
      _ ⇐ handle_wp_fault ctx (nth 2 (data n) 0); mret (Done (Some ctx))
    else ctx' ⇐ handle_missing_fault ctx (nth 2 (data n) 0); mret (Done (Some ctx')).

Fixpoint fault_handler_main (fuel : nat) (ctx : demo_ctx) : exits unit :=
  match fuel with
  | O => mret Stuck
  | S fuel' =>
      s ← sys load_stop;
      if negb (ret s =? 0) then returns
      else o ⇐ handler_turn ctx; match o with None => returns | Some ctx' => fault_handler_main fuel' ctx' end
  end.

Definition start_fault_handler : exits unit := r ← sys pthread_create; if negb (ret r =? 0) then fatalf else returns.

Definition stop_fault_handler (ctx : demo_ctx) : exits demo_ctx :=
  _ ← sys store_stop;
  _ ← when (0 <=? uffd ctx) (_ ← sys (close (uffd ctx)); mret tt);
  j ← sys pthread_join;
  if negb (ret j =? 0) then fatalf else mret (Done (if 0 <=? uffd ctx then set_uffd (-1) ctx else ctx)).

(** ** The two processes *)

(** The tokens. *)
Definition B : Z := 66.
Definition L : Z := 76.
Definition D : Z := 68.
Definition R : Z := 82.
Definition W : Z := 87.
Definition Q : Z := 81.

Definition send (fuel : nat) (fd token : Z) : exits unit := write_all fuel fd [token].
Definition expect (fuel : nat) (fd token : Z) : exits unit :=
  t ⇐ read_all fuel fd 1; if decide (t = [token]) then returns else fatalf.

Definition child_process (fuel : nat) (ctx : demo_ctx) (notify_fd control_fd : Z) : exits demo_ctx :=
  ctx1 ⇐ setup_userfaultfd ctx;
  _ ⇐ start_fault_handler;
  _ ⇐ log_before_read_fault ctx1 0;
  _ ⇐ send fuel notify_fd B;
  _ ⇐ expect fuel control_fd R;
  _ ⇐ log_mapping_page (user_base ctx1);
  _ ⇐ send fuel notify_fd L;
  _ ⇐ expect fuel control_fd W;
  _ ⇐ prefault_selected_pages ctx1;
  _ ⇐ log_selected_pages ctx1;
  _ ⇐ write_selected_pages ctx1;
  _ ⇐ log_selected_pages ctx1;
  _ ⇐ send fuel notify_fd D;
  _ ⇐ expect fuel control_fd Q;
  stop_fault_handler ctx1.

(** Both dumps copy lines of a file of [/proc] to the output. *)
Definition dump_region (file : str) (pid : Z) : exits unit :=
  fp ← sys (fopen (lit "/proc/" ++ show_u64 pid ++ file));
  if ret fp =? 0 then fatalf else _ ← sys (read_lines (ret fp)); _ ← sys (fclose (ret fp)); returns.

(** The ends of the pipes. *)
Record pipes := { notify_read : Z; notify_write : Z; control_read : Z; control_write : Z }.

Definition child_main (fuel : nat) (ctx : demo_ctx) (ps : pipes) : exits Z :=
  _ ← sys (close (notify_read ps));
  _ ← sys (close (control_write ps));
  ctx' ⇐ child_process fuel ctx (notify_write ps) (control_read ps);
  _ ← sys (close (notify_write ps));
  _ ← sys (close (control_read ps));
  _ ← cleanup_demo ctx'; mret (Done 0).

Definition parent_main (fuel : nat) (ctx : demo_ctx) (ps : pipes) (child : Z) : exits Z :=
  _ ← sys (close (notify_write ps));
  _ ← sys (close (control_read ps));
  _ ⇐ expect fuel (notify_read ps) B;
  _ ⇐ log_before_read_fault ctx 0;
  _ ⇐ send fuel (control_write ps) R;
  _ ⇐ expect fuel (notify_read ps) L;
  _ ⇐ log_mapping_page (user_base ctx);
  _ ⇐ send fuel (control_write ps) W;
  _ ⇐ expect fuel (notify_read ps) D;
  _ ⇐ log_selected_pages ctx;
  me ← sys getpid;
  _ ⇐ dump_region (lit "/maps") (ret me);
  _ ⇐ dump_region (lit "/maps") child;
  me' ← sys getpid;
  _ ⇐ dump_region (lit "/smaps") (ret me');
  _ ⇐ dump_region (lit "/smaps") child;
  _ ⇐ send fuel (control_write ps) Q;
  s ← sys (waitpid child);
  if ret s <? 0 then fatalf
  else if (nth 0 (data s) 0 =? 0) || negb (nth 1 (data s) 0 =? 0) then fatalf
  else
    _ ← sys (close (notify_read ps));
    _ ← sys (close (control_write ps));
    _ ← cleanup_demo ctx; mret (Done 0).

Definition main (fuel : nat) : exits Z :=
  ctx ⇐ init_demo fuel (lit "sample.bin");
  n ← sys pipe;
  if ret n <? 0 then fatalf
  else
    c ← sys pipe;
    if ret c <? 0 then fatalf
    else
      let ps := {| notify_read := nth 0 (data n) 0; notify_write := nth 1 (data n) 0;
                   control_read := nth 0 (data c) 0; control_write := nth 1 (data c) 0 |} in
      f ← sys fork;
      if ret f <? 0 then fatalf
      else if ret f =? 0 then child_main fuel ctx ps
      else parent_main fuel ctx ps (ret f).

(** ** What the handler does with a page *)
Section memory.
(** What the child sees of its memory after a trace, and the content of the sample file. *)
Context (view : trace call → AddrSpace) (content : list Z).

Notation RW := (Z.lor PROT_READ PROT_WRITE).
Notation ANON := (Z.lor MAP_PRIVATE MAP_ANONYMOUS).

(** The manual pages, call by call, for calls that succeed. *)
Class MemoryLaws : Prop := {
  view_anon len x t : ret x ≠ MAP_FAILED →
    view ((mmap 0 len RW ANON (-1) 0, x) :: t) ≡ fill_view (ret x) len (λ _, Some 0) false true true (view t);
  view_fixed addr len x t : ret x ≠ MAP_FAILED →
    view ((mmap addr len RW (Z.lor ANON MAP_FIXED) (-1) 0, x) :: t) ≡ fill_view addr len (λ _, Some 0) false true true (view t);
  view_munmap addr len x t : 0 ≤ ret x →
    view ((munmap addr len, x) :: t) ≡ fill_view addr len (λ _, None) false false false (view t);
  view_store addr bs x t : writable (view t) addr (zlen bs) = true →
    view ((store addr bs, x) :: t) ≡ store_view addr bs (view t);
  view_pread fd addr len off x t : 0 ≤ ret x → writable (view t) addr (zlen (data x)) = true →
    view ((pread fd (Some addr) len off, x) :: t) ≡ store_view addr (data x) (view t);
  view_copy fd dst src len mode bs x t : 0 ≤ ret x → load_bytes (view t) src len = Some bs →
    view ((ioctl_copy fd dst src len mode, x) :: t) ≡ copy_view dst bs len (Z.testbit mode 1) (view t);
  view_wp fd addr len mode x t : 0 ≤ ret x →
    view ((ioctl_writeprotect fd addr len mode, x) :: t) ≡ wp_view addr len (Z.testbit mode 0) (view t);
  view_other c x t :
    match c with load _ _ | load_uffd | ioctl_wake _ _ _ => True | _ => False end → view ((c, x) :: t) ≡ view t }.

(** The answers: a new mapping is at a free place or where it was asked for, a load gives
    the bytes.  A read of the sample that does not fail gives all there is, as for a regular
    file that is not interrupted; the program would take the bytes that a shorter read left
    out for zeros. *)
Definition answers (t : trace call) (c : call) (x : answer) : Prop :=
  match c with
  | mmap addr len _ flags _ _ =>
      ret x = MAP_FAILED ∨
      if Z.testbit flags 4 then ret x = addr else ∀ a, within (ret x) len a = true → as_mapped (view t) a = false
  | load a n => ∀ bs, load_bytes (view t) a n = Some bs → data x = bs
  | pread _ _ len off => 0 ≤ ret x → data x = slice content off len
  | _ => True
  end.

Context {ML : MemoryLaws}.
Context (env : trace call → call → answer) (Henv : ∀ t c, answers t c (env t c)).

Definition any (t : trace call) (c : call) : Prop := True.
Notation wp := (wp any answers).

(** The address of a fault lies in page [i] of the mapped region. *)
Record fault_at (ctx : demo_ctx) (addr i : Z) : Prop := {
  fa_pow : ∃ k, 0 ≤ k < 64 ∧ page_size ctx = 2 ^ k;
  fa_base : (page_size ctx | user_base ctx);
  fa_pos : 0 ≤ user_base ctx;
  fa_index : 0 ≤ i < page_count ctx;
  fa_addr : page_addr ctx i ≤ addr < page_addr ctx i + page_size ctx;
  fa_top : page_addr ctx (page_count ctx) ≤ 2 ^ 64;
  fa_meta : file_offset <$> meta ctx = (λ j, j * page_size ctx) <$> seqZ 0 (page_count ctx) }.

(** The whole of page [i] is mapped. *)
Definition page_mapped (ctx : demo_ctx) (i : Z) (v : AddrSpace) : Prop :=
  ∀ a, within (page_addr ctx i) (page_size ctx) a = true → as_mapped v a = true.

(** The process ends because its last call failed. *)
Definition died (t : trace call) : Prop := ∃ c x t', t = (c, x) :: t' ∧ ret x < 0.

Section fault.
Context (ctx : demo_ctx) (addr i : Z) (F : fault_at ctx addr i).

Lemma page_pos : 0 < page_size ctx < 2 ^ 64.
Proof using F.
  destruct (fa_pow _ _ _ F) as (k & Hk & ->). split; [by apply Z.pow_pos_nonneg; lia|]. apply Z.pow_lt_mono_r; lia.
Qed.

Lemma page_end : page_addr ctx i + page_size ctx ≤ 2 ^ 64 ∧ 0 ≤ page_addr ctx i.
Proof using F.
  pose proof page_pos. destruct F as [_ _ ? ? _ Htop _]. unfold page_addr in *. nia.
Qed.

Lemma fault_index : page_index_from_addr ctx addr = i.
Proof using F.
  pose proof page_pos. pose proof page_end. destruct F as [_ _ ? ? Ha _ _]. unfold page_index_from_addr, page_addr in *.
  rewrite to_u64_small by (unfold is_u64; nia). symmetry. apply (Z.div_unique _ _ _ (addr - user_base ctx - i * page_size ctx)); nia.
Qed.

Lemma fault_start : page_start ctx addr = page_addr ctx i.
Proof using F.
  pose proof page_pos. pose proof page_end. destruct F as [(k & Hk & Hp) [q Hq] ? ? Ha _ _]. unfold page_start.
  rewrite to_u64_small by (unfold is_u64; lia). rewrite Hp, land_unot_pow2 by (unfold is_u64; lia). rewrite <-Hp.
  unfold page_addr in *. rewrite Hq in *.
  assert (addr mod page_size ctx = addr - (q + i) * page_size ctx) as ->; [|lia].
  symmetry. apply (Z.mod_unique _ _ (q + i)); lia.
Qed.

Lemma fault_offset : offset_of ctx i = i * page_size ctx.
Proof using F.
  destruct F as [_ _ _ Hi _ _ Hm]. unfold offset_of. change 0 with (from_option id 0 None) at 1.
  assert (file_offset <$> znth (meta ctx) i = Some (i * page_size ctx)) as E.
  { by rewrite <-znth_fmap, Hm, znth_fmap, znth_seqZ by lia. }
  destruct (znth (meta ctx) i); simpl in *; [by injection E|done].
Qed.

Lemma loaded_fault_at : fault_at (set_loaded ctx i) addr i.
Proof using F.
  pose proof fault_offset as Ho. destruct F as [? ? ? Hi ? ? Hm]. split; try done. simpl. rewrite <-Hm.
  unfold zset. rewrite list_fmap_insert. simpl. rewrite Ho. apply list_insert_id.
  rewrite Hm. rewrite list_lookup_fmap, lookup_seqZ_lt by lia. simpl. f_equal. f_equal. lia.
Qed.

(** The bytes of the page in the file, and zeros after its end. *)
Definition sample_page : list Z :=
  let bs := slice content (i * page_size ctx) (page_size ctx) in bs ++ zreplicate (page_size ctx - zlen bs) 0.

Lemma load_bytes_znth v a bs n :
  zlen bs = n → (∀ j, 0 ≤ j < n → as_mem v (a + j) = znth bs j) → load_bytes v a n = Some bs.
Proof using.
  intros Hl Hj. pose proof (zlen_nonneg bs). apply load_bytes_Some; [lia|]. split; [done|]. intros j H2.
  destruct (znth_is_Some bs j) as [b Hb]; [lia|]. exists b. by rewrite Hj.
Qed.

Lemma sample_slice_len : 0 ≤ zlen (slice content (i * page_size ctx) (page_size ctx)) ≤ page_size ctx.
Proof using F.
  pose proof (page_pos). split; [apply zlen_nonneg|]. unfold zlen, slice. rewrite length_take. lia.
Qed.

Lemma sample_page_len : zlen sample_page = page_size ctx.
Proof using F.
  pose proof sample_slice_len. unfold sample_page. unfold zlen in *. rewrite length_app. unfold zreplicate. rewrite length_replicate. lia.
Qed.

Notation P := (page_addr ctx i).
Notation n := (page_size ctx).

(** A new mapping of a page: zeros, writable. *)
Definition fresh (tmp : Z) (v : AddrSpace) : AddrSpace := fill_view tmp n (λ _, Some 0) false true true v.
Definition gone (tmp : Z) (v : AddrSpace) : AddrSpace := fill_view tmp n (λ _, None) false false false v.

Lemma fresh_writable tmp v m : m ≤ n → writable (fresh tmp v) tmp m = true.
Proof using. intros Hm. apply writable_intro. intros a Ha. simpl. within_solve. eauto. Qed.

Lemma stored_writable a bs v b m : writable v b m = true → writable (store_view a bs v) b m = true.
Proof using.
  intros H. apply writable_intro. intros x Hx. destruct (writable_elim _ _ _ x H Hx) as [Hs Hw]. split; [|done]. simpl.
  destruct (within a (zlen bs) x) eqn:E; [|done]. apply within_spec in E. apply znth_is_Some. lia.
Qed.

(** What the buffer holds before it is copied. *)
Lemma sample_buffer tmp v :
  let bs := slice content (i * n) n in
  load_bytes (store_view tmp bs (store_view tmp (zreplicate n 0) (fresh tmp v))) tmp n = Some sample_page.
Proof using F.
  intros bs. pose proof page_pos as Hn. pose proof sample_slice_len as Hb. fold bs in Hb.
  apply load_bytes_znth; [apply sample_page_len|]. intros j Hj. unfold sample_page. fold bs. rewrite znth_app by lia. simpl.
  change (zlen (zreplicate n 0)) with (zlen (zreplicate n 0)).
  assert (zlen (zreplicate n 0) = n) as -> by (unfold zlen, zreplicate; rewrite length_replicate; lia).
  destruct (Z.ltb_spec j (zlen bs)); within_solve.
  - f_equal. lia.
  - rewrite !znth_zreplicate by lia. done.
Qed.

(** A place that was free is not in the page, nor anywhere that was mapped. *)
Definition free_place (tmp : Z) (v : AddrSpace) : Prop := ∀ a, within tmp n a = true → as_mapped v a = false.

Lemma free_not_mapped tmp v a : free_place tmp v → as_mapped v a = true → within tmp n a = false.
Proof using. intros Hf Ha. destruct (within tmp n a) eqn:E; [|done]. by rewrite Hf in Ha. Qed.

(** The observation after the call that was made last. *)
Tactic Notation "next" constr(v) ident(V) := match goal with |- context [wp _ _ ?t'] => assert (view t' ≡ v) as V end.

Lemma missing_wp t :
  wp (handle_missing_fault ctx addr) (λ o t', match o with
    | Done ctx' => ctx' = set_loaded ctx i ∧ ∃ tmp, free_place tmp (view t) ∧
        view t' ≡ gone tmp (copy_view P sample_page n true
          (store_view tmp (slice content (i * n) n) (store_view tmp (zreplicate n 0) (fresh tmp (view t)))))
    | Exit => died t'
    | Stuck => False
    end) t.
Proof using F ML.
  pose proof page_pos as Hn. unfold handle_missing_fault. rewrite (fault_index), (fault_start), (fault_offset).
  destruct (Z.leb_spec (page_count ctx) i); [pose proof (fa_index _ _ _ F); lia|].
  cbn [mbind prog_bind sys]. split; [done|]. intros tmp Htmp. destruct (Z.eqb_spec (ret tmp) MAP_FAILED) as [E|E].
  { apply wp_ret. eexists _, _, _. split; [done|]. by rewrite E. }
  destruct Htmp as [?|Hfree]; [done|]. simpl in Hfree. set (q := ret tmp) in *.
  assert (zlen (zreplicate n 0) = n) as Hz by (unfold zlen, zreplicate; rewrite length_replicate; lia).
  next (fresh q (view t)) V1; [by apply view_anon|].
  split; [done|]. intros x0 _. next (store_view q (zreplicate n 0) (fresh q (view t))) V2.
  { rewrite view_store; rewrite V1; [done|]. rewrite Hz. by apply fresh_writable. }
  split; [done|]. intros x1 H1. destruct (Z.ltb_spec (ret x1) 0); [apply wp_ret; by eexists _, _, _|].
  specialize (H1 ltac:(done)). simpl in H1.
  next (store_view q (slice content (i * n) n) (store_view q (zreplicate n 0) (fresh q (view t)))) V3.
  { rewrite view_pread; [by rewrite H1, V2|done|]. rewrite V2, H1. apply stored_writable, fresh_writable, sample_slice_len. }
  split; [done|]. intros u _. split; [done|]. intros x2 _. destruct (Z.ltb_spec (ret x2) 0); [apply wp_ret; by eexists _, _, _|].
  next (copy_view P sample_page n true (store_view q (slice content (i * n) n) (store_view q (zreplicate n 0) (fresh q (view t))))) V4.
  { rewrite (view_copy _ _ _ _ _ sample_page); [by rewrite view_other, V3|done|]. rewrite view_other, V3 by done. apply sample_buffer. }
  split; [done|]. intros x3 _. destruct (Z.ltb_spec (ret x3) 0); [apply wp_ret; by eexists _, _, _|].
  apply wp_ret. split; [done|]. exists q. split; [done|]. by rewrite view_munmap, V4.
Qed.

Lemma disjoint_pages tmp v a : free_place tmp v → page_mapped ctx i v → within P n a = true → within tmp n a = false.
Proof using. intros Hf Hm Ha. eapply free_not_mapped; [done|]. by apply Hm. Qed.

Lemma copy_wp t bs :
  page_mapped ctx i (view t) → load_bytes (view t) P n = Some bs →
  wp (handle_wp_fault ctx addr) (λ o t', match o with
    | Done _ => ∃ tmp, free_place tmp (view t) ∧
        view t' ≡ gone tmp (store_view P bs (fresh P (wp_view P n false (store_view tmp bs (fresh tmp (view t))))))
    | Exit => died t'
    | Stuck => False
    end) t.
Proof using F ML.
  intros Hm Hbs. pose proof page_pos as Hn. unfold handle_wp_fault. rewrite fault_start.
  assert (zlen bs = n) as Hl by (by apply load_bytes_Some in Hbs as [? _]; [|lia]).
  cbn [mbind prog_bind sys]. split; [done|]. intros tmp Htmp. destruct (Z.eqb_spec (ret tmp) MAP_FAILED) as [E|E].
  { apply wp_ret. eexists _, _, _. split; [done|]. by rewrite E. }
  destruct Htmp as [?|Hfree]; [done|]. simpl in Hfree. set (q := ret tmp) in *.
  assert (∀ a, P ≤ a < P + n → within q n a = false) as Hd.
  { intros a Ha. apply (disjoint_pages q (view t)); [done|done|]. by apply within_spec. }
  next (fresh q (view t)) V1; [by apply view_anon|].
  split; [done|]. intros b Hb. assert (data b = bs) as ->.
  { apply Hb. rewrite V1, <-Hbs. apply load_bytes_agree. intros a Ha. simpl. by rewrite Hd. }
  split; [done|]. intros x0 _. next (store_view q bs (fresh q (view t))) V2.
  { rewrite view_store; rewrite view_other, V1; try done. rewrite Hl. by apply fresh_writable. }
  split; [done|]. intros u _. split; [done|]. intros w _. destruct (Z.ltb_spec (ret w) 0); [apply wp_ret; by eexists _, _, _|].
  next (wp_view P n false (store_view q bs (fresh q (view t)))) V3; [by rewrite view_wp, view_other, V2|].
  split; [done|]. intros p Hp. destruct (Z.eqb_spec (ret p) MAP_FAILED) as [E'|E'].
  { apply wp_ret. eexists _, _, _. split; [done|]. by rewrite E'. }
  destruct Hp as [?|Hp]; [done|]. simpl in Hp. rewrite Hp.
  next (fresh P (wp_view P n false (store_view q bs (fresh q (view t))))) V4; [by rewrite view_fixed, V3|].
  split; [done|]. intros c Hc. assert (data c = bs) as ->.
  { apply Hc. rewrite V4. apply load_bytes_znth; [done|]. intros j Hj. simpl.
    assert (within P n (q + j) = false) as ->.
    { destruct (within P n (q + j)) eqn:E2; [|done]. apply within_spec, Hd in E2. revert E2. by within_solve. }
    rewrite Hl. within_solve. f_equal. lia. }
  split; [done|]. intros x1 _. next (store_view P bs (fresh P (wp_view P n false (store_view q bs (fresh q (view t)))))) V5.
  { rewrite view_store; rewrite view_other, V4; try done. rewrite Hl. by apply fresh_writable. }
  split; [done|]. intros u' _. split; [done|]. intros k _. destruct (Z.ltb_spec (ret k) 0); [apply wp_ret; by eexists _, _, _|].
  split; [done|]. intros m _. destruct (Z.ltb_spec (ret m) 0); [apply wp_ret; by eexists _, _, _|].
  apply wp_ret. exists q. split; [done|]. by rewrite view_munmap, view_other, view_other, V5.
Qed.

(** The rest of what was mapped is as it was. *)
Definition others_kept (v v' : AddrSpace) : Prop := ∀ a, as_mapped v a = true → within P n a = false → agree_at v' v a.

(** C30: a missing fault fills its page with the bytes of the sample file, write-protected and
    still shared, and changes nothing else that is mapped; the process ends only when a call
    failed. *)
Theorem missing_loads_page t :
  page_mapped ctx i (view t) →
  let '(o, t') := run env (handle_missing_fault ctx addr) t in
  match o with
  | Done ctx' =>
      load_bytes (view t') P n = Some sample_page ∧
      (∀ a, within P n a = true → as_wp (view t') a = true ∧ as_private (view t') a = as_private (view t) a) ∧
      others_kept (view t) (view t') ∧ fault_at ctx' addr i
  | Exit => died t'
  | Stuck => False
  end.
Proof using F Henv ML.
  intros Hm. pose proof (wp_sound _ _ env _ _ _ Henv (missing_wp t)) as H. destruct (run env _ t) as [o t']. simpl in H.
  destruct o as [ctx'| |]; [|done..]. destruct H as (-> & tmp & Hf & V).
  assert (∀ a, within P n a = true → within tmp n a = false) as Hd by (intros a; by apply (disjoint_pages tmp (view t))).
  assert (∀ m b, m ≤ n → within tmp n b = false → within tmp m b = false) as Hsub.
  { intros m b Hm' Hb. apply within_false. apply within_false in Hb. lia. }
  pose proof sample_slice_len as [_ Hs]. pose proof page_pos.
  assert (zlen (zreplicate n 0) ≤ n) as Hz by (unfold zlen, zreplicate; rewrite length_replicate; lia).
  split_and!; [| | |by apply loaded_fault_at].
  - rewrite V. apply load_bytes_znth; [apply sample_page_len|]. intros j Hj. simpl.
    rewrite Hd by (apply within_spec; lia). within_solve. f_equal. lia.
  - intros a Ha. destruct (V a) as (_ & -> & -> & _). simpl. by rewrite Ha, Hd.
  - intros a Ha Ho. specialize (V a). pose proof (free_not_mapped tmp _ a Hf Ha) as Hn.
    destruct V as (V1 & V2 & V3 & V4). unfold agree_at. rewrite V1, V2, V3, V4. simpl. by rewrite Hn, Ho, !Hsub.
Qed.

(** C29: a write fault keeps the content of its page but makes the page private and writable,
    and changes nothing else that is mapped, so a later store is seen by this process only;
    the process ends only when a call failed. *)
Theorem write_fault_isolates t bs :
  page_mapped ctx i (view t) → load_bytes (view t) P n = Some bs →
  let '(o, t') := run env (handle_wp_fault ctx addr) t in
  match o with
  | Done _ =>
      load_bytes (view t') P n = Some bs ∧ writable (view t') P n = true ∧
      (∀ a, within P n a = true → as_private (view t') a = true) ∧ others_kept (view t) (view t')
  | Exit => died t'
  | Stuck => False
  end.
Proof using F Henv ML.
  intros Hm Hbs. pose proof (wp_sound _ _ env _ _ _ Henv (copy_wp t bs Hm Hbs)) as H. destruct (run env _ t) as [o t']. simpl in H.
  destruct o as [ctx'| |]; [|done..]. destruct H as (tmp & Hf & V). pose proof page_pos.
  assert (∀ a, within P n a = true → within tmp n a = false) as Hd by (intros a; by apply (disjoint_pages tmp (view t))).
  assert (zlen bs = n) as Hl by (by apply load_bytes_Some in Hbs as [? _]; [|lia]).
  assert (∀ j, 0 ≤ j < n → as_mem (view t') (P + j) = znth bs j) as Hb.
  { intros j Hj. destruct (V (P + j)) as (-> & _). simpl. rewrite Hd, Hl by (apply within_spec; lia). within_solve. f_equal. lia. }
  split_and!.
  - by apply load_bytes_znth.
  - apply writable_intro. intros a Ha. specialize (Hb (a - P) ltac:(lia)). replace (P + (a - P)) with a in Hb by lia.
    destruct (V a) as (_ & -> & _). rewrite Hb. split; [apply znth_is_Some; lia|]. simpl.
    by rewrite Hd, (proj2 (within_spec _ _ _) Ha) by (by apply within_spec).
  - intros a Ha. destruct (V a) as (_ & _ & -> & _). simpl. by rewrite Hd, Ha.
  - intros a Ha Ho. specialize (V a). pose proof (free_not_mapped tmp _ a Hf Ha) as Hn.
    destruct V as (V1 & V2 & V3 & V4). unfold agree_at. rewrite V1, V2, V3, V4. simpl. by rewrite !Hl, Hn, Ho.
Qed.
End fault.
End memory.

(** ** A memory to run on

    It starts with a region of four pages of 16 bytes at 1024 that holds [mem], and new
    mappings are placed at 4096 when that is free. *)
Section sim_memory.
Context (mem : Z → option Z) (content : list Z).

Fixpoint sim_view (t : trace call) : AddrSpace :=
  match t with
  | [] => {| as_mem a := if within 1024 64 a then mem a else None; as_wp := within 1024 64; as_private _ := false; as_mapped := within 1024 64 |}
  | (mmap addr len _ flags _ _, x) :: t' =>
      if ret x =? MAP_FAILED then sim_view t'
      else fill_view (if Z.testbit flags 4 then addr else ret x) len (λ _, Some 0) false true true (sim_view t')
  | (munmap addr len, x) :: t' =>
      if 0 <=? ret x then fill_view addr len (λ _, None) false false false (sim_view t') else sim_view t'
  | (store addr bs, _) :: t' => if writable (sim_view t') addr (zlen bs) then store_view addr bs (sim_view t') else sim_view t'
  | (pread _ (Some addr) _ _, x) :: t' =>
      if (0 <=? ret x) && writable (sim_view t') addr (zlen (data x)) then store_view addr (data x) (sim_view t') else sim_view t'
  | (ioctl_copy _ dst src len mode, x) :: t' =>
      match load_bytes (sim_view t') src len with
      | Some bs => if 0 <=? ret x then copy_view dst bs len (Z.testbit mode 1) (sim_view t') else sim_view t'
      | None => sim_view t'
      end
  | (ioctl_writeprotect _ addr len mode, x) :: t' =>
      if 0 <=? ret x then wp_view addr len (Z.testbit mode 0) (sim_view t') else sim_view t'
  | _ :: t' => sim_view t'
  end.

Definition memory_env (t : trace call) (c : call) : answer :=
  match c with
  | mmap addr len _ flags _ _ =>
      {| ret := if Z.testbit flags 4 then addr
                else if forallb (λ a, negb (as_mapped (sim_view t) a)) (zrange 4096 (4096 + len)) then 4096 else MAP_FAILED;
         errno := 0; data := [] |}
  | load a n => {| ret := 0; errno := 0; data := default [] (load_bytes (sim_view t) a n) |}
  | pread _ _ len off => let bs := slice content off len in {| ret := zlen bs; errno := 0; data := bs |}
  | _ => {| ret := 0; errno := 0; data := [] |}
  end.

Lemma sim_memory_laws : MemoryLaws sim_view.
Proof using.
  split; intros; cbn [sim_view].
  - by rewrite (proj2 (Z.eqb_neq _ _)).
  - by rewrite (proj2 (Z.eqb_neq _ _)).
  - by rewrite (proj2 (Z.leb_le _ _)).
  - by case_match.
  - by rewrite (proj2 (Z.leb_le _ _)), H0.
  - by rewrite H0, (proj2 (Z.leb_le _ _)).
  - by rewrite (proj2 (Z.leb_le _ _)).
  - by destruct c.
Qed.

Lemma memory_answers t c : answers sim_view content t c (memory_env t c).
Proof using.
  destruct c; try done; cbn [answers memory_env ret data].
  - destruct (Z.testbit flags 4); [by right|]. case_match eqn:Hf; [right|by left]. intros a Ha. rewrite forallb_forall in Hf.
    apply negb_true_iff, Hf, list_elem_of_In. unfold zrange. apply elem_of_seqZ. apply within_spec in Ha. lia.
  - by intros bs ->.
Qed.
End sim_memory.

Definition sim_ctx : demo_ctx :=
  {| page_size := 16; region_size := 64; page_count := 4; memfd := 3; datafd := 4; uffd := 5; user_base := 1024; meta_ptr := 1;
     meta := (λ j, {| file_offset := j * 16; loaded := 0 |}) <$> seqZ 0 4 |}.

Lemma sim_fault : fault_at sim_ctx 1061 2.
Proof. split; try done; [by exists 4|by exists 64]. Qed.

Lemma sim_mapped mem : page_mapped sim_ctx 2 (sim_view mem []).
Proof. intros a Ha. apply within_spec in Ha. apply within_spec. unfold page_addr in Ha. simpl in Ha. lia. Qed.

(** The file ends in the middle of the page. *)
Lemma missing_loads_page_witness :
  let env := memory_env (λ _, None) (seqZ 0 40) in
  let view := sim_view (λ _, None) in
  let '(o, t') := run env (handle_missing_fault sim_ctx 1061) [] in
  match o with
  | Done ctx' =>
      load_bytes (view t') 1056 16 = Some (seqZ 32 8 ++ zreplicate 8 0) ∧
      (∀ a, within 1056 16 a = true → as_wp (view t') a = true ∧ as_private (view t') a = as_private (view []) a) ∧
      others_kept sim_ctx 2 (view []) (view t') ∧ fault_at ctx' 1061 2
  | Exit => died t'
  | Stuck => False
  end.
Proof.
  apply (missing_loads_page _ (seqZ 0 40) (ML := sim_memory_laws _) _ (memory_answers _ _) sim_ctx 1061 2 sim_fault []), sim_mapped.
Defined.

Lemma write_fault_isolates_witness :
  let env := memory_env Some [] in
  let view := sim_view Some in
  let '(o, t') := run env (handle_wp_fault sim_ctx 1061) [] in
  match o with
  | Done _ =>
      load_bytes (view t') 1056 16 = Some (seqZ 1056 16) ∧ writable (view t') 1056 16 = true ∧
      (∀ a, within 1056 16 a = true → as_private (view t') a = true) ∧ others_kept sim_ctx 2 (view []) (view t')
  | Exit => died t'
  | Stuck => False
  end.
Proof.
  apply (write_fault_isolates _ [] (ML := sim_memory_laws _) _ (memory_answers _ _) sim_ctx 1061 2 sim_fault []); [apply sim_mapped|done].
Defined.

(** Neither run ends the process. *)
Lemma sim_faults_served :
  (run (memory_env (λ _, None) (seqZ 0 40)) (handle_missing_fault sim_ctx 1061) []).1 = Done (set_loaded sim_ctx 2) ∧
  (run (memory_env Some []) (handle_wp_fault sim_ctx 1061) []).1 = Done tt.
Proof. vm_compute. done. Qed.

(** ** The loop of the handler *)
Section handler.
Context (base size : Z) (Hbase : 0 ≤ base ∧ base + size ≤ 2 ^ 64).

(** The descriptor was closed under the handler. *)
Definition closed (t : trace call) : Prop := ∃ c x, (c, x) ∈ t ∧ ret x < 0 ∧ errno x = EBADF.

(** Faults are in the region and the calls that serve them succeed; [poll] and [read] fail
    only when they are interrupted, have nothing to give, or the descriptor was closed,
    which [stop_fault_handler] does after it has set [stop_handler]. *)
Definition serves (t : trace call) (c : call) (x : answer) : Prop :=
  match c with
  | load_stop => closed t → ret x ≠ 0
  | poll _ _ _ => 0 ≤ ret x ∨ errno x = EINTR ∨ errno x = EBADF
  | read_event _ =>
      (ret x = 32 ∧ base ≤ nth 2 (data x) 0 < base + size) ∨ (ret x < 0 ∧ (errno x = EAGAIN ∨ errno x = EINTR ∨ errno x = EBADF))
  | mmap _ _ _ _ _ _ => ret x ≠ MAP_FAILED
  | munmap _ _ | pread _ _ _ _ | ioctl_copy _ _ _ _ _ | ioctl_writeprotect _ _ _ _ | ioctl_wake _ _ _ => 0 ≤ ret x
  | _ => True
  end.

Notation wp := (wp any serves).

Definition geometry (ctx : demo_ctx) : Prop :=
  user_base ctx = base ∧ 0 < page_size ctx ∧ size = page_count ctx * page_size ctx.

Lemma missing_serves ctx addr t :
  geometry ctx → base ≤ addr < base + size →
  wp (handle_missing_fault ctx addr) (λ o _, ∃ ctx', o = Done ctx' ∧ geometry ctx') t.
Proof using Hbase.
  intros Hg Ha. pose proof Hg as (Hb & Hp & Hs). unfold handle_missing_fault.
  assert (page_index_from_addr ctx addr < page_count ctx) as Hi.
  { unfold page_index_from_addr. rewrite Hb, to_u64_small by (unfold is_u64; lia). apply Z.div_lt_upper_bound; lia. }
  rewrite (proj2 (Z.leb_gt _ _) Hi). cbn [mbind prog_bind sys]. split; [done|]. intros q Hq. rewrite (proj2 (Z.eqb_neq _ _) Hq).
  split; [done|]. intros x0 _. split; [done|]. intros x1 H1. rewrite (proj2 (Z.ltb_ge _ _) H1).
  split; [done|]. intros u _. split; [done|]. intros x2 H2. rewrite (proj2 (Z.ltb_ge _ _) H2).
  split; [done|]. intros x3 H3. rewrite (proj2 (Z.ltb_ge _ _) H3). apply wp_ret. eexists. split; [done|]. exact Hg.
Qed.

Lemma write_serves ctx addr t : wp (handle_wp_fault ctx addr) (λ o _, o = Done tt) t.
Proof using.
  unfold handle_wp_fault. cbn [mbind prog_bind sys]. split; [done|]. intros q Hq. rewrite (proj2 (Z.eqb_neq _ _) Hq).
  split; [done|]. intros b _. split; [done|]. intros x0 _. split; [done|]. intros u _.
  split; [done|]. intros w Hw. rewrite (proj2 (Z.ltb_ge _ _) Hw). split; [done|]. intros p Hp. rewrite (proj2 (Z.eqb_neq _ _) Hp).
  split; [done|]. intros c _. split; [done|]. intros x1 _. split; [done|]. intros u' _.
  split; [done|]. intros k Hk. rewrite (proj2 (Z.ltb_ge _ _) Hk). split; [done|]. intros m Hm. by rewrite (proj2 (Z.ltb_ge _ _) Hm).
Qed.

(** A turn goes on, or ends the loop. *)
Definition turned (o : outcome (option demo_ctx)) (_ : trace call) : Prop :=
  ∃ o', o = Done o' ∧ ∀ ctx', o' = Some ctx' → geometry ctx'.

Lemma closed_turned c x t : ret x < 0 → errno x = EBADF → wp (closed_or_die (errno x)) turned ((c, x) :: t).
Proof using.
  intros Hx He. unfold closed_or_die. rewrite He, Z.eqb_refl. cbn [mbind prog_bind sys]. split; [done|]. intros s Hs.
  rewrite (proj2 (Z.eqb_neq (ret s) 0)); [by apply wp_ret; exists None|]. apply Hs. exists c, x. split; [by left|done].
Qed.

Lemma goes_on ctx t : geometry ctx → wp (mret (Done (Some ctx))) turned t.
Proof using. intros Hg. apply wp_ret. exists (Some ctx). split; [done|]. by intros ctx' [= <-]. Qed.

Lemma turn_serves ctx t : geometry ctx → wp (handler_turn ctx) turned t.
Proof using Hbase.
  intros Hg. unfold handler_turn. cbn [mbind prog_bind sys]. split; [done|]. intros u _. split; [done|]. intros r Hr.
  destruct (Z.ltb_spec (ret r) 0) as [Hneg|Hpos].
  { destruct (Z.eqb_spec (errno r) EINTR); [by apply goes_on|]. apply closed_turned; [done|]. simpl in Hr. naive_solver lia. }
  case_match; [by apply goes_on|]. split; [done|]. intros u' _. split; [done|]. intros n Hn.
  destruct (Z.ltb_spec (ret n) 0) as [Hneg|Hpos'].
  { case_match eqn:E; [by apply goes_on|]. apply orb_false_iff in E as [E1%Z.eqb_neq E2%Z.eqb_neq].
    apply closed_turned; [done|]. simpl in Hn. naive_solver lia. }
  destruct Hn as [[E Ha]|[? _]]; [|lia]. rewrite E. cbn [Z.eqb Pos.eqb negb]. case_match; [by apply goes_on|]. case_match; apply wp_bind.
  - eapply wp_mono; [apply write_serves|]. intros o t' ->. by apply goes_on.
  - eapply wp_mono; [by apply missing_serves|]. intros o t' (ctx' & -> & Hg'). by apply goes_on.
Qed.

(** The checks of [stop_handler] that found it clear. *)
Definition is_clear (e : call * answer) : bool := match e.1 with load_stop => ret e.2 =? 0 | _ => false end.
Definition clear_checks (t : trace call) : nat := length (filter is_clear t).

Lemma clear_suffix t t' : t `suffix_of` t' → (clear_checks t ≤ clear_checks t')%nat.
Proof using. intros [k ->]. unfold clear_checks. rewrite filter_app, length_app. lia. Qed.

Lemma handler_serves fuel ctx t :
  geometry ctx →
  wp (fault_handler_main fuel ctx) (λ o t', o = Done tt ∨ o = Stuck ∧ (clear_checks t + fuel ≤ clear_checks t')%nat) t.
Proof using Hbase.
  revert ctx t. induction fuel as [|fuel IH]; intros ctx t Hg; cbn [fault_handler_main].
  { apply wp_ret. right. split; [done|lia]. }
  cbn [mbind prog_bind sys]. split; [done|]. intros s _. destruct (ret s =? 0) eqn:Hs; cbn [negb]; [|by apply wp_ret; left].
  apply wp_bind. eapply wp_mono; [by apply wp_suffix, turn_serves|]. intros o t1 [(o' & -> & Ho) Hsuf%clear_suffix].
  assert (clear_checks ((load_stop, s) :: t) = S (clear_checks t)) as E.
  { unfold clear_checks. rewrite filter_cons_True; [done|]. unfold is_clear. cbn [fst snd]. by rewrite Hs. }
  destruct o' as [ctx'|]; [|by apply wp_ret; left]. eapply wp_mono; [by apply IH, Ho|].
  intros o2 t2 [?|[? ?]]; [by left|right]. split; [done|lia].
Qed.
End handler.

(** When the calls that serve faults succeed, the handler thread never ends the process,
    not even when its descriptor is closed while it polls or reads: it serves faults as long
    as it finds [stop_handler] clear, and then returns. *)
Theorem handler_survives env base size fuel ctx t :
  0 ≤ base → base + size ≤ 2 ^ 64 → (∀ t c, serves base size t c (env t c)) → geometry base size ctx →
  let '(o, t') := run env (fault_handler_main fuel ctx) t in
  o = Done tt ∨ o = Stuck ∧ (clear_checks t + fuel ≤ clear_checks t')%nat.
Proof.
  intros H1 H2 He Hg. pose proof (wp_sound _ _ env _ _ _ He (handler_serves base size (conj H1 H2) fuel ctx t Hg)) as H.
  by destruct (run env (fault_handler_main fuel ctx) t).
Qed.

(** Two faults, after which the descriptor is closed under the handler. *)
Definition stopping_env (t : trace call) (c : call) : answer :=
  let late := existsb (λ e : call * answer, errno e.2 =? EBADF) t in
  match c with
  | load_stop => {| ret := if late then 1 else 0; errno := 0; data := [] |}
  | poll _ _ _ => if (2 <=? clear_checks t)%nat then {| ret := -1; errno := EBADF; data := [] |} else {| ret := 1; errno := 0; data := [POLLIN] |}
  | read_event _ => {| ret := 32; errno := 0; data := [UFFD_EVENT_PAGEFAULT; 0; 1061] |}
  | mmap _ _ _ _ _ _ => {| ret := 4096; errno := 0; data := [] |}
  | _ => {| ret := 0; errno := 0; data := [] |}
  end.

Lemma handler_survives_witness :
  let '(o, t') := run stopping_env (fault_handler_main 5 sim_ctx) [] in
  o = Done tt ∨ o = Stuck ∧ (0 + 5 ≤ clear_checks t')%nat.
Proof.
  apply (handler_survives _ 1024 64); try done. intros t c. destruct c; try done; cbn.
  - case_match; simpl; [auto|left; lia].
  - by left.
  - intros (c & x & Hx & _ & E). assert (existsb (λ e : call * answer, errno e.2 =? EBADF) t = true) as ->; [|done].
    apply existsb_exists. exists (c, x). split; [by apply list_elem_of_In|]. simpl. by rewrite E.
Defined.

Lemma sim_handler_ends : (run stopping_env (fault_handler_main 5 sim_ctx) []).1 = Done tt.
Proof. vm_compute. done. Qed.

(** ** Resources and legal calls *)

Inductive resource := Fd (fd : Z) | Mapping (addr len : Z) | Mem (ptr : Z) | Thread | Stream (fp : Z).

Global Instance resource_dec : EqDecision resource.
Proof. solve_decision. Defined.

Definition effect_of (c : call) (x : answer) : list (resource * Z) :=
  match c with
  | open _ _ | memfd_create _ _ | userfaultfd _ => if ret x <? 0 then [] else [(Fd (ret x), 1)]
  | pipe => if ret x <? 0 then [] else [(Fd (nth 0 (data x) 0), 1); (Fd (nth 1 (data x) 0), 1)]
  | close fd => [(Fd fd, -1)]
  | mmap _ len _ _ _ _ => if ret x =? MAP_FAILED then [] else [(Mapping (ret x) len, 1)]
  | munmap addr len => [(Mapping addr len, -1)]
  | malloc _ | calloc _ _ => if ret x =? 0 then [] else [(Mem (ret x), 1)]
  | free p => if p =? 0 then [] else [(Mem p, -1)]
  | pthread_create => if ret x =? 0 then [(Thread, 1)] else []
  | pthread_join => [(Thread, -1)]
  | fopen _ => if ret x =? 0 then [] else [(Stream (ret x), 1)]
  | fclose fp => [(Stream fp, -1)]
  | _ => []
  end.

Global Instance demo_ledger : Ledger call resource := {| effect := effect_of |}.

(** A range of the region, which the process has mapped. *)
Definition inside (t : trace call) (addr size : Z) : Prop :=
  ∃ a, 1 ≤ held t (Mapping a REGION_SIZE) ∧ a ≤ addr ∧ addr + size ≤ a + REGION_SIZE.

(** Descriptors, memory, streams and the thread are used while they are held, and loads and
    stores stay in the region. *)
Definition legal (t : trace call) (c : call) : Prop :=
  match c with
  | close fd | write fd _ | read fd _ | fsync fd | ftruncate fd _ | mmap _ _ _ _ fd _ | pread fd _ _ _
  | ioctl_api fd _ | ioctl_register fd _ _ _ => 1 ≤ held t (Fd fd)
  | munmap addr len => 1 ≤ held t (Mapping addr len)
  | free p => 1 ≤ held t (Mem p)
  | load addr size => inside t addr size
  | store addr bs => inside t addr (zlen bs)
  | pthread_join => 1 ≤ held t Thread
  | read_lines fp | fclose fp => 1 ≤ held t (Stream fp)
  | _ => True
  end.

(** Pages of at most 4 KiB; a mapping is not at address 0. *)
Definition small_pages (t : trace call) (c : call) (x : answer) : Prop :=
  match c with
  | sysconf_pagesize => 1 ≤ ret x ≤ 4096
  | mmap _ _ _ _ _ _ => ret x ≠ 0
  | _ => True
  end.

Arguments create_sample_file : simpl never.
Arguments write_pages : simpl never.

Section releases.
Notation wp := (wp legal small_pages).

(** Only a function that returns has to keep its promise: the system takes back what a
    process held when it ended. *)
Definition after {A} (Q : A → trace call → Prop) (o : outcome A) (t : trace call) : Prop :=
  match o with Done a => Q a t | _ => True end.

Lemma wp_seq {A B} (p : exits A) (q : A → exits B) (Q : B → trace call → Prop) t :
  wp p (after (λ a, wp (q a) (after Q))) t → wp (a ⇐ p; q a) (after Q) t.
Proof. intros H. apply wp_bind. eapply wp_mono; [exact H|]. by intros [a| |] t' H'; [|apply wp_ret|apply wp_ret]. Qed.

Lemma wp_after {A} (p : exits A) (Q Q' : A → trace call → Prop) t :
  wp p (after Q) t → (∀ a t', Q a t' → Q' a t') → wp p (after Q') t.
Proof. intros H HQ. eapply wp_mono; [exact H|]. intros [a| |] t'; simpl; auto. Qed.

Lemma write_all_wp fuel fd buf t l : Fd fd ∈ l → owns t l → wp (write_all fuel fd buf) (after (λ _ t', owns t' l)) t.
Proof.
  intros Hl. revert buf t. induction fuel as [|fuel IH]; intros [|b buf] t O0; cbn [write_all]; try (by apply wp_ret).
  neutral x t1 O1. case_match; [case_match; [by apply IH|by apply wp_ret]|by apply IH].
Qed.

Lemma read_all_wp fuel fd len t l : Fd fd ∈ l → owns t l → wp (read_all fuel fd len) (after (λ _ t', owns t' l)) t.
Proof.
  intros Hl. revert len t. induction fuel as [|fuel IH]; intros len t O0; cbn [read_all]; case_match; try (by apply wp_ret).
  neutral x t1 O1. case_match; [case_match; [by apply IH|by apply wp_ret]|]. case_match; [by apply wp_ret|].
  apply wp_seq. eapply wp_after; [by apply IH|]. cbv beta. intros rest t2 O2. by apply wp_ret.
Qed.

Lemma write_pages_wp fuel fd sz i n t l : Fd fd ∈ l → owns t l → wp (write_pages fuel fd sz i n) (after (λ _ t', owns t' l)) t.
Proof.
  intros Hl. revert i t. induction n as [|n IH]; intros i t O0; cbn [write_pages]; [by apply wp_ret|].
  apply wp_seq. eapply wp_after; [by apply (write_all_wp _ _ _ _ l)|]. cbv beta. intros ? t1 O1. by apply IH.
Qed.

Lemma create_sample_file_wp fuel path sz n t l :
  owns t l → wp (create_sample_file fuel path sz n) (after (λ _ t', owns t' l)) t.
Proof.
  intros O0. unfold create_sample_file. acquire gets_fd (λ x, Fd (ret x)) fd t1 O1; destruct (Z.ltb_spec (ret fd) 0); try done; try lia.
  acquire (λ x, negb (ret x =? 0)) (λ x, Mem (ret x)) p t2 O2; destruct (Z.eqb_spec (ret p) 0); try done.
  apply wp_seq. eapply wp_after; [apply write_pages_wp; [|exact O2]; set_solver|]. cbv beta. intros ? t3 O3.
  cbn [mbind prog_bind sys]. eapply wp_release with (r := Mem (ret p)) (l' := Fd (ret fd) :: l); [exact O3|legal_tac| |done|].
  { intros x. cbn. by rewrite (proj2 (Z.eqb_neq _ _)). }
  intros ? t4 _ O4. neutral s t5 O5. case_match; [done|].
  eapply wp_release with (r := Fd (ret fd)) (l' := l); [exact O5|legal_tac|done|done|].
  intros c t6 _ O6. case_match; [done|by apply wp_ret].
Qed.

(** What a process holds of the demonstration. *)
Record ctx_ok (ctx : demo_ctx) : Prop := {
  co_region : region_size ctx = REGION_SIZE;
  co_page : 1 ≤ page_size ctx ≤ 4096;
  co_base : user_base ctx ≠ 0 ∧ user_base ctx ≠ MAP_FAILED;
  co_memfd : 0 ≤ memfd ctx;
  co_datafd : 0 ≤ datafd ctx;
  co_meta : meta_ptr ctx ≠ 0 }.

Definition region_resources (ctx : demo_ctx) : list resource :=
  [Mapping (user_base ctx) REGION_SIZE; Fd (memfd ctx); Fd (datafd ctx); Mem (meta_ptr ctx)].

Lemma init_demo_wp fuel path t l :
  owns t l →
  wp (init_demo fuel path) (after (λ ctx t', ctx_ok ctx ∧ uffd ctx = -1 ∧ owns t' (region_resources ctx ++ l))) t.
Proof.
  intros O0. unfold init_demo. cbn [mbind prog_bind sys]. eapply wp_neutral; [exact O0|exact I|done|].
  intros ps t1 Hps O1. simpl in Hps. rewrite to_u64_small by (unfold is_u64; lia). destruct (negb _); [done|].
  acquire (λ x, negb (ret x =? 0)) (λ x, Mem (ret x)) m t2 O2; destruct (Z.eqb_spec (ret m) 0); try done.
  apply wp_seq. eapply wp_after; [by apply create_sample_file_wp|]. cbv beta. intros ? t3 O3.
  acquire gets_fd (λ x, Fd (ret x)) d t4 O4; destruct (Z.ltb_spec (ret d) 0); try done; try lia.
  acquire gets_fd (λ x, Fd (ret x)) f t5 O5; destruct (Z.ltb_spec (ret f) 0); try done; try lia.
  neutral e t6 O6. case_match; [done|].
  acquire (λ x, negb (ret x =? MAP_FAILED)) (λ x, Mapping (ret x) REGION_SIZE) b t7 O7; destruct (Z.eqb_spec (ret b) MAP_FAILED); try done.
Qed.

Lemma cleanup_demo_wp ctx t l :
  ctx_ok ctx → uffd ctx < 0 → owns t (region_resources ctx ++ l) → wp (cleanup_demo ctx) (λ _ t', owns t' l) t.
Proof.
  intros [Hr Hp [Hb Hf] Hm Hd Hmp] Hu. unfold region_resources. set (b := user_base ctx) in *. intros O0. unfold cleanup_demo, when. fold b.
  rewrite (proj2 (Z.eqb_neq _ _) Hb), (proj2 (Z.eqb_neq _ _) Hf), (proj2 (Z.leb_le _ _) Hm), (proj2 (Z.leb_le _ _) Hd), (proj2 (Z.leb_gt _ _) Hu).
  cbn [negb andb mbind prog_bind sys mret prog_ret]. rewrite Hr.
  release (Mapping b REGION_SIZE) (Fd (memfd ctx) :: Fd (datafd ctx) :: Mem (meta_ptr ctx) :: l) t1 O1.
  release (Fd (memfd ctx)) (Fd (datafd ctx) :: Mem (meta_ptr ctx) :: l) t2 O2.
  release (Fd (datafd ctx)) (Mem (meta_ptr ctx) :: l) t3 O3.
  eapply wp_release with (r := Mem (meta_ptr ctx)) (l' := l); [exact O3|legal_tac| |done|].
  { intros x. cbn. by rewrite (proj2 (Z.eqb_neq _ _)). }
  intros ? t4 _ O4. by apply wp_ret.
Qed.

(** ** Loads and stores stay in the region *)

Lemma page_inside ctx i size t l :
  ctx_ok ctx → Mapping (user_base ctx) REGION_SIZE ∈ l → owns t l → 0 ≤ i ≤ 11 → 0 ≤ size ≤ PREVIEW_LEN →
  inside t (page_addr ctx i) size.
Proof.
  intros [_ Hp _ _ _ _] Hl O Hi Hs. exists (user_base ctx). split; [by apply (owns_held t l)|].
  unfold page_addr, PREVIEW_LEN, REGION_SIZE in *. nia.
Qed.

Section pages.
Context (ctx : demo_ctx) (l : list resource) (Hok : ctx_ok ctx) (Hl : Mapping (user_base ctx) REGION_SIZE ∈ l).

(** Step over a load or store of page [i]. *)
Ltac access i := cbn [mbind prog_bind sys]; eapply wp_neutral; [eassumption|by eapply (page_inside ctx i)|done|].

Lemma log_mapping_page_wp i t : 0 ≤ i ≤ 11 → owns t l → wp (log_mapping_page (page_addr ctx i)) (after (λ _ t', owns t' l)) t.
Proof using Hok Hl. intros Hi O0. unfold log_mapping_page. access i. intros x t1 _ O1. by apply wp_ret. Qed.

Lemma log_pages_wp pages t : Forall (λ i, 0 ≤ i ≤ 11) pages → owns t l → wp (log_pages ctx pages) (after (λ _ t', owns t' l)) t.
Proof using Hok Hl.
  intros Hf. revert t. induction Hf as [|i pages Hi Hf IH]; intros t O0; cbn [log_pages]; [by apply wp_ret|].
  apply wp_seq. eapply wp_after; [by apply log_mapping_page_wp|]. intros ? t1 O1. by apply IH.
Qed.

Lemma prefault_pages_wp pages t : Forall (λ i, 0 ≤ i ≤ 11) pages → owns t l → wp (prefault_pages ctx pages) (after (λ _ t', owns t' l)) t.
Proof using Hok Hl.
  intros Hf. revert t. induction Hf as [|i pages Hi Hf IH]; intros t O0; cbn [prefault_pages]; [by apply wp_ret|].
  access i. intros x t1 _ O1. apply wp_seq. eapply wp_after; [by apply log_mapping_page_wp|]. intros ? t2 O2. by apply IH.
Qed.

Lemma write_selected_wp v pages t : Forall (λ i, 0 ≤ i ≤ 11) pages → owns t l → wp (write_selected ctx v pages) (after (λ _ t', owns t' l)) t.
Proof using Hok Hl.
  intros Hf. revert v t. induction Hf as [|i pages Hi Hf IH]; intros v t O0; cbn [write_selected]; [by apply wp_ret|].
  access i. intros x t1 _ O1. by apply IH.
Qed.
End pages.

Lemma write_pages_in_region : Forall (λ i, 0 ≤ i ≤ 11) k_write_pages.
Proof. unfold k_write_pages. repeat constructor; lia. Qed.

Lemma setup_userfaultfd_wp ctx t l :
  owns t l → wp (setup_userfaultfd ctx) (after (λ ctx' t', ∃ u, ctx' = set_uffd u ctx ∧ 0 ≤ u ∧ owns t' (Fd u :: l))) t.
Proof.
  intros O0. unfold setup_userfaultfd. acquire gets_fd (λ x, Fd (ret x)) u t1 O1; destruct (Z.ltb_spec (ret u) 0); try done; try lia.
  neutral a t2 O2. repeat (case_match; [done|]). neutral r t3 O3. repeat (case_match; [done|]). apply wp_ret. by exists (ret u).
Qed.

Lemma expect_wp fuel fd tok t l : Fd fd ∈ l → owns t l → wp (expect fuel fd tok) (after (λ _ t', owns t' l)) t.
Proof.
  intros Hl O0. unfold expect. apply wp_seq. eapply wp_after; [by apply read_all_wp|]. cbv beta. intros b t1 O1. by case_decide; [apply wp_ret|].
Qed.

Lemma log_before_wp ctx i t l : Fd (datafd ctx) ∈ l → owns t l → wp (log_before_read_fault ctx i) (after (λ _ t', owns t' l)) t.
Proof. intros Hl O0. unfold log_before_read_fault. neutral x t1 O1. by case_match; [|apply wp_ret]. Qed.

Lemma dump_region_wp f pid t l : owns t l → wp (dump_region f pid) (after (λ _ t', owns t' l)) t.
Proof.
  intros O0. unfold dump_region. acquire (λ x, negb (ret x =? 0)) (λ x, Stream (ret x)) fp t1 O1; destruct (Z.eqb_spec (ret fp) 0); try done.
  neutral x t2 O2. release (Stream (ret fp)) l t3 O3. by apply wp_ret.
Qed.

Lemma page_0 ctx : page_addr ctx 0 = user_base ctx.
Proof. unfold page_addr. lia. Qed.

(** Step over a function that keeps what is held. *)
Tactic Notation "keeps" constr(lem) ident(t') ident(H) :=
  apply wp_seq; eapply wp_after; [eapply lem; first [eassumption | apply write_pages_in_region | lia | set_solver]|]; cbv beta; intros ? t' H.

Lemma child_process_wp fuel ctx nfd cfd t l :
  ctx_ok ctx → Mapping (user_base ctx) REGION_SIZE ∈ l → Fd (datafd ctx) ∈ l → Fd nfd ∈ l → Fd cfd ∈ l → owns t l →
  wp (child_process fuel ctx nfd cfd) (after (λ ctx' t', ctx' = set_uffd (-1) ctx ∧ owns t' l)) t.
Proof.
  intros Hok Hm Hd Hn Hc O0. unfold child_process. apply wp_seq. eapply wp_after; [by apply setup_userfaultfd_wp|].
  intros ctx1 t1 (u & -> & Hu & O1). set (ctx1 := set_uffd u ctx). assert (ctx_ok ctx1) as Hok1 by (by destruct Hok).
  assert (wp start_fault_handler (after (λ _ t', owns t' (Thread :: Fd u :: l))) t1) as Hstart.
  { unfold start_fault_handler. acquire (λ x, ret x =? 0) (λ _ : answer, Thread) r t2 O2; destruct (ret r =? 0); try done. }
  apply wp_seq. eapply wp_after; [exact Hstart|]. intros ? t2 O2. clear Hstart O1.
  assert (Mapping (user_base ctx1) REGION_SIZE ∈ Thread :: Fd u :: l ∧ Fd (datafd ctx1) ∈ Thread :: Fd u :: l ∧
          Fd nfd ∈ Thread :: Fd u :: l ∧ Fd cfd ∈ Thread :: Fd u :: l) as (Hm' & Hd' & Hn' & Hc') by (simpl; set_solver).
  assert (ctx1 = set_uffd u ctx) as E by done. clearbody ctx1. unfold send. set (l2 := Thread :: Fd u :: l) in *. rewrite <-(page_0 ctx1).
  keeps log_before_wp t3 O3. keeps write_all_wp t4 O4. keeps expect_wp t5 O5. keeps log_mapping_page_wp t6 O6.
  keeps write_all_wp t7 O7. keeps expect_wp t8 O8. keeps prefault_pages_wp t9 O9. keeps log_pages_wp t10 O10.
  keeps write_selected_wp t11 O11. keeps log_pages_wp t12 O12. keeps write_all_wp t13 O13. keeps expect_wp t14 O14.
  unfold stop_fault_handler, when. rewrite E. cbn [uffd set_uffd]. rewrite (proj2 (Z.leb_le _ _) Hu). unfold l2 in O14.
  neutral s t15 O15. release (Fd u) (Thread :: l) t16 O16. cbn [mbind prog_bind sys].
  eapply wp_release with (r := Thread) (l' := l); [exact O16|legal_tac|done|done|]. intros j t17 _ O17. case_match; [done|].
  by apply wp_ret.
Qed.

(** The list after a descriptor was closed. *)
Tactic Notation "closes" constr(fd) constr(m) ident(t') ident(H) :=
  cbn [mbind prog_bind sys]; eapply wp_release with (r := Fd fd) (l' := m);
  [eassumption|legal_tac|done|intros ?; simpl; lia|]; intros ? t' _ H.

Notation pipe_ends ps := [Fd (notify_read ps); Fd (notify_write ps); Fd (control_read ps); Fd (control_write ps)].

Definition ends_well (z : Z) (t : trace call) : Prop := z = 0 ∧ owns t [].

Lemma child_main_wp fuel ctx ps t :
  ctx_ok ctx → owns t (pipe_ends ps ++ region_resources ctx) → wp (child_main fuel ctx ps) (after ends_well) t.
Proof.
  intros Hok O0. unfold child_main. set (r := region_resources ctx) in *.
  closes (notify_read ps) (Fd (notify_write ps) :: Fd (control_read ps) :: Fd (control_write ps) :: r) t1 O1.
  closes (control_write ps) (Fd (notify_write ps) :: Fd (control_read ps) :: r) t2 O2.
  apply wp_seq. eapply wp_after; [eapply child_process_wp; [done|..|exact O2]; unfold r, region_resources; set_solver|].
  intros ctx' t3 [-> O3]. closes (notify_write ps) (Fd (control_read ps) :: r) t4 O4. closes (control_read ps) r t5 O5.
  apply wp_bind. eapply wp_mono; [apply (cleanup_demo_wp _ _ []); [by destruct Hok|done|by rewrite app_nil_r]|].
  intros ? t6 O6. by apply wp_ret.
Qed.

Lemma parent_main_wp fuel ctx ps child t :
  ctx_ok ctx → uffd ctx < 0 → owns t (pipe_ends ps ++ region_resources ctx) → wp (parent_main fuel ctx ps child) (after ends_well) t.
Proof.
  intros Hok Hu O0. unfold parent_main. set (r := region_resources ctx) in *.
  closes (notify_write ps) (Fd (notify_read ps) :: Fd (control_read ps) :: Fd (control_write ps) :: r) t1 O1.
  closes (control_read ps) (Fd (notify_read ps) :: Fd (control_write ps) :: r) t2 O2. set (l := Fd (notify_read ps) :: Fd (control_write ps) :: r) in *.
  assert (Mapping (user_base ctx) REGION_SIZE ∈ l ∧ Fd (datafd ctx) ∈ l) as [Hm Hd] by (unfold l, r, region_resources; set_solver).
  assert (Fd (notify_read ps) ∈ l ∧ Fd (control_write ps) ∈ l) as [Hn Hc] by (unfold l; rewrite !elem_of_cons; auto).
  unfold send. rewrite <-(page_0 ctx).
  keeps expect_wp t3 O3. keeps log_before_wp t4 O4. keeps write_all_wp t5 O5. keeps expect_wp t6 O6. keeps log_mapping_page_wp t7 O7.
  keeps write_all_wp t8 O8. keeps expect_wp t9 O9. keeps log_pages_wp t10 O10. neutral me t11 O11.
  keeps dump_region_wp t12 O12. keeps dump_region_wp t13 O13. neutral me' t14 O14. keeps dump_region_wp t15 O15.
  keeps dump_region_wp t16 O16. keeps write_all_wp t17 O17. neutral s t18 O18. repeat (case_match; [done|]).
  closes (notify_read ps) (Fd (control_write ps) :: r) t19 O19. closes (control_write ps) r t20 O20.
  apply wp_bind. eapply wp_mono; [apply (cleanup_demo_wp _ _ []); [done|done|by rewrite app_nil_r]|].
  intros ? t21 O21. by apply wp_ret.
Qed.

Lemma demo_main_wp fuel : wp (main fuel) (after ends_well) [].
Proof.
  unfold main. apply wp_seq. eapply wp_after; [apply (init_demo_wp _ _ _ []), owns_nil|]. rewrite ?app_nil_r.
  intros ctx t1 (Hok & Hu & O1). rewrite app_nil_r in O1. set (r := region_resources ctx) in *.
  assert (∀ t n l, owns t l → 0 ≤ ret n → owns ((pipe, n) :: t) (Fd (nth 0 (data n) 0) :: Fd (nth 1 (data n) 0) :: l)) as Hpipe.
  { intros t n l O Hn. eapply owns_step; [exact O|]. intros q. simpl. rewrite (proj2 (Z.ltb_ge _ _) Hn). simpl. lia. }
  cbn [mbind prog_bind sys]. split; [exact I|]. intros n _. destruct (Z.ltb_spec (ret n) 0) as [|Hn]; [done|].
  split; [exact I|]. intros c _. destruct (Z.ltb_spec (ret c) 0) as [|Hc]; [done|]. split; [exact I|]. intros f _. case_match; [done|].
  match goal with |- wp _ _ ?t' => assert (owns t' ([Fd (nth 0 (data n) 0); Fd (nth 1 (data n) 0); Fd (nth 0 (data c) 0); Fd (nth 1 (data c) 0)] ++ r)) as O4 end.
  { intros q. specialize (Hpipe _ _ _ (Hpipe _ _ _ O1 Hn) Hc q). simpl in *. lia. }
  case_match; [by apply child_main_wp|]. apply parent_main_wp; [done|lia|done].
Qed.
End releases.

(** On every system with pages of at most 4 KiB, every path through the parent and
    through the child, for every failure, uses and releases only what it holds, stays in the
    mapped region with its loads and stores, and gives back all descriptors, mappings,
    memory, streams and the thread when it returns. *)
Theorem demo_releases env fuel :
  (∀ t c, small_pages t c (env t c)) →
  let '(o, t) := run env (main fuel) [] in
  all_legal legal t ∧ ∀ status, o = Done status → status = 0 ∧ owns t [].
Proof.
  intros He. pose proof (demo_main_wp fuel) as Hwp. pose proof (wp_sound _ _ env _ _ _ He Hwp) as HQ.
  pose proof (wp_legal _ _ env _ _ [] He I Hwp) as Hl. destruct (run env (main fuel) []) as [o t]. split; [done|].
  intros s ->. apply HQ.
Qed.

(** ** A system to run on

    [pid] is what [fork] answers and [tokens] what arrives, byte by byte; descriptors and
    addresses are new ones. *)
Definition is_read_call (e : call * answer) : bool := match e.1 with read _ _ => true | _ => false end.
Definition reads_so_far (t : trace call) : nat := length (filter is_read_call t).

Definition sim_env (page pid : Z) (tokens : list Z) (t : trace call) (c : call) : answer :=
  let fresh := 3 + zlen t in
  match c with
  | sysconf_pagesize => {| ret := page; errno := 0; data := [] |}
  | open _ _ | memfd_create _ _ | userfaultfd _ | malloc _ | calloc _ _ | fopen _ => {| ret := fresh; errno := 0; data := [] |}
  | mmap _ _ _ _ _ _ => {| ret := fresh * 2 ^ 20; errno := 0; data := [] |}
  | write _ b => {| ret := zlen b; errno := 0; data := [] |}
  | read _ _ => {| ret := 1; errno := 0; data := [nth (reads_so_far t) tokens 0] |}
  | pipe => {| ret := 0; errno := 0; data := [fresh * 2; fresh * 2 + 1] |}
  | fork => {| ret := pid; errno := 0; data := [] |}
  | waitpid p => {| ret := p; errno := 0; data := [1; 0] |}
  | ioctl_api _ _ => {| ret := 0; errno := 0; data := [0x1fff] |}
  | ioctl_register _ _ _ _ => {| ret := 0; errno := 0; data := [0xff] |}
  | _ => {| ret := 0; errno := 0; data := [] |}
  end.

Lemma demo_releases_witness :
  let '(o, t) := run (sim_env 4096 0 [R; W; Q]) (main 3) [] in
  all_legal legal t ∧ ∀ status, o = Done status → status = 0 ∧ owns t [].
Proof. apply demo_releases. intros t []; try done; cbn; unfold zlen; lia. Defined.

(** Both processes come to their end on it. *)
Lemma sim_ends :
  (run (sim_env 4096 0 [R; W; Q]) (main 3) []).1 = Done 0 ∧ (run (sim_env 4096 100 [B; L; D]) (main 3) []).1 = Done 0.
Proof. vm_compute. done. Qed.

(** An access after the end of everything that was mapped. *)
Definition escapes (t : trace call) (e : call * answer) : bool :=
  match e.1 with
  | load a _ => forallb (λ m : call * answer, match m.1 with mmap _ len _ _ _ _ => ret m.2 + len <=? a | _ => true end) t
  | _ => false
  end.

(** With pages of 16 KiB the region is accepted, and the child loads beyond its end. *)
Lemma large_pages_escape :
  let '(o, t) := run (sim_env 16384 0 [R; W; Q]) (main 3) [] in o = Done 0 ∧ existsb (escapes t) t = true.
Proof. vm_compute. done. Qed.

(** ** The two processes together

    After [fork] both processes hold all four ends.  A pipe is a queue of bytes: a read
    waits for bytes and sees the end of file when no write end is open, a write fails when
    no read end is open.  Reads and writes may be interrupted, [budget] times in all.
    [waitpid] waits for the child to end.  The other calls succeed. *)
Inductive process := Parent | Child.
Inductive pipe_end := NotifyRead | NotifyWrite | ControlRead | ControlWrite.

Global Instance process_eq : EqDecision process.
Proof. solve_decision. Defined.
Global Instance pipe_end_eq : EqDecision pipe_end.
Proof. solve_decision. Defined.

Definition fd_of (ps : pipes) (e : pipe_end) : Z :=
  match e with
  | NotifyRead => notify_read ps
  | NotifyWrite => notify_write ps
  | ControlRead => control_read ps
  | ControlWrite => control_write ps
  end.

Record os := { notify : list Z; control : list Z; is_open : process → pipe_end → bool; budget : nat }.

(** The queue an end belongs to. *)
Definition queue (o : os) (e : pipe_end) : list Z :=
  match e with NotifyRead | NotifyWrite => notify o | _ => control o end.
Definition set_queue (e : pipe_end) (q : list Z) (o : os) : os :=
  match e with
  | NotifyRead | NotifyWrite => {| notify := q; control := control o; is_open := is_open o; budget := budget o |}
  | _ => {| notify := notify o; control := q; is_open := is_open o; budget := budget o |}
  end.
Definition set_budget (n : nat) (o : os) : os :=
  {| notify := notify o; control := control o; is_open := is_open o; budget := n |}.
Definition shut (me : process) (e : pipe_end) (o : os) : os :=
  {| notify := notify o; control := control o; budget := budget o;
     is_open p f := is_open o p f && negb (bool_decide (p = me ∧ f = e)) |}.

Definition is_read (e : pipe_end) : bool := match e with NotifyRead | ControlRead => true | _ => false end.
Definition other_end (e : pipe_end) : pipe_end :=
  match e with NotifyRead => NotifyWrite | NotifyWrite => NotifyRead | ControlRead => ControlWrite | ControlWrite => ControlRead end.
Definition peer_open (o : os) (e : pipe_end) : bool := is_open o Parent (other_end e) || is_open o Child (other_end e).

Definition eintr : answer := {| ret := -1; errno := EINTR; data := [] |}.

(** A call that is not about pipes or processes, and succeeds; a new descriptor is not one
    that is open. *)
Definition succeeds (in_use : Z → Prop) (c : call) (x : answer) : Prop :=
  match c with
  | write _ _ | read _ _ | close _ | waitpid _ => False
  | userfaultfd _ => 0 ≤ ret x ∧ ¬ in_use (ret x)
  | ioctl_api _ _ =>
      0 ≤ ret x ∧ Z.land (nth 0 (data x) 0) UFFD_FEATURE_MISSING_SHMEM ≠ 0 ∧
      Z.land (nth 0 (data x) 0) UFFD_FEATURE_PAGEFAULT_FLAG_WP ≠ 0 ∧ Z.land (nth 0 (data x) 0) UFFD_FEATURE_WP_HUGETLBFS_SHMEM ≠ 0
  | ioctl_register _ _ _ _ =>
      0 ≤ ret x ∧ uffdio_supported (nth 0 (data x) 0) UFFDIO_COPY_BIT = true ∧
      uffdio_supported (nth 0 (data x) 0) UFFDIO_WRITEPROTECT_BIT = true ∧ uffdio_supported (nth 0 (data x) 0) UFFDIO_WAKE_BIT = true
  | pread _ _ _ _ => 0 ≤ ret x
  | pthread_create | pthread_join => ret x = 0
  | fopen _ => ret x ≠ 0
  | _ => True
  end.

Definition exit_status (o : outcome Z) : option Z := match o with Done s => Some s | Exit => Some 1 | Stuck => None end.

(** The answer of a call of [me], when the other process is at [peer]. *)
Inductive os_answer (ps : pipes) (me : process) (peer : exits Z) (o : os) : call → answer → os → Prop :=
| os_intr c fd e n : (c = read fd 1 ∨ ∃ b, c = write fd b) → fd = fd_of ps e → budget o = S n →
    os_answer ps me peer o c eintr (set_budget n o)
| os_write fd e bs m : fd = fd_of ps e → is_read e = false → is_open o me e = true → peer_open o e = true → 1 ≤ m ≤ zlen bs →
    os_answer ps me peer o (write fd bs) {| ret := m; errno := 0; data := [] |} (set_queue e (queue o e ++ take (Z.to_nat m) bs) o)
| os_epipe fd e bs : fd = fd_of ps e → is_read e = false → peer_open o e = false →
    os_answer ps me peer o (write fd bs) {| ret := -1; errno := 32; data := [] |} o
| os_read fd e len m : fd = fd_of ps e → is_read e = true → is_open o me e = true → 1 ≤ m ≤ len → m ≤ zlen (queue o e) →
    os_answer ps me peer o (read fd len) {| ret := m; errno := 0; data := take (Z.to_nat m) (queue o e) |}
      (set_queue e (drop (Z.to_nat m) (queue o e)) o)
| os_eof fd e len : fd = fd_of ps e → is_read e = true → queue o e = [] → peer_open o e = false →
    os_answer ps me peer o (read fd len) {| ret := 0; errno := 0; data := [] |} o
| os_close_end fd e : fd = fd_of ps e → is_open o me e = true →
    os_answer ps me peer o (close fd) {| ret := 0; errno := 0; data := [] |} (shut me e o)
| os_close fd : (∀ e, is_open o me e = true → fd ≠ fd_of ps e) →
    os_answer ps me peer o (close fd) {| ret := 0; errno := 0; data := [] |} o
| os_wait pid r s : peer = Ret r → exit_status r = Some s →
    os_answer ps me peer o (waitpid pid) {| ret := pid; errno := 0; data := [1; s] |} o
| os_other c x : succeeds (λ fd, ∃ e, is_open o me e = true ∧ fd = fd_of ps e) c x → os_answer ps me peer o c x o.

Inductive step (ps : pipes) : exits Z → exits Z → os → exits Z → exits Z → os → Prop :=
| step_parent c k child o x o' : os_answer ps Parent child o c x o' → step ps (Call c k) child o (k x) child o'
| step_child c k parent o x o' : os_answer ps Child parent o c x o' → step ps parent (Call c k) o parent (k x) o'.

(** Whatever order the steps are taken in, both processes return 0. *)
Inductive completes (ps : pipes) : exits Z → exits Z → os → Prop :=
| completes_end o : notify o = [] → control o = [] → completes ps (Ret (Done 0)) (Ret (Done 0)) o
| completes_next p c o :
    (∃ p' c' o', step ps p c o p' c' o') → (∀ p' c' o', step ps p c o p' c' o' → completes ps p' c' o') → completes ps p c o.

(** ** What each process does to the pipes *)
Inductive act := Send (b : Z) | Recv (b : Z) | CloseEnd (e : pipe_end) | Wait.

Global Instance act_eq : EqDecision act.
Proof. solve_decision. Defined.

Definition parent_acts : list act :=
  [CloseEnd NotifyWrite; CloseEnd ControlRead; Recv B; Send R; Recv L; Send W; Recv D; Send Q; Wait; CloseEnd NotifyRead; CloseEnd ControlWrite].
Definition child_acts : list act :=
  [CloseEnd NotifyRead; CloseEnd ControlWrite; Send B; Recv R; Send L; Recv W; Send D; Recv Q; CloseEnd NotifyWrite; CloseEnd ControlRead].

Definition out_end (me : process) : pipe_end := match me with Parent => ControlWrite | Child => NotifyWrite end.
Definition in_end (me : process) : pipe_end := match me with Parent => NotifyRead | Child => ControlRead end.

(** Acts that are left, and what they mean for the queues. *)
Definition astate : Type := list act * list act * list Z * list Z.

Definition parent_moves (st : astate) : list astate :=
  let '(sp, sc, n, c) := st in
  match sp, n with
  | Send b :: s, _ => [(s, sc, n, c ++ [b])]
  | Recv _ :: s, _ :: n' => [(s, sc, n', c)]
  | CloseEnd _ :: s, _ => [(s, sc, n, c)]
  | Wait :: s, _ => if decide (sc = []) then [(s, sc, n, c)] else []
  | _, _ => []
  end.
Definition child_moves (st : astate) : list astate :=
  let '(sp, sc, n, c) := st in
  match sc, c with
  | Send b :: s, _ => [(sp, s, n ++ [b], c)]
  | Recv _ :: s, _ :: c' => [(sp, s, n, c')]
  | CloseEnd _ :: s, _ => [(sp, s, n, c)]
  | _, _ => []
  end.
Definition moves (st : astate) : list astate := parent_moves st ++ child_moves st.

Definition holds_end (s : list act) (e : pipe_end) : bool := bool_decide (CloseEnd e ∈ s).

(** The next act of a process with acts [s] cannot fail, when the other one has [s'] left. *)
Definition act_ok (me : process) (s s' : list act) (inq : list Z) : bool :=
  match s with
  | Send _ :: _ => holds_end s (out_end me) && (holds_end s (other_end (out_end me)) || holds_end s' (other_end (out_end me)))
  | Recv b :: _ =>
      holds_end s (in_end me) &&
      match inq with b' :: _ => b' =? b | [] => holds_end s (other_end (in_end me)) || holds_end s' (other_end (in_end me)) end
  | CloseEnd e :: s1 => negb (holds_end s1 e)
  | Wait :: _ => bool_decide (me = Parent)
  | [] => true
  end.

Definition state_ok (st : astate) : bool :=
  let '(sp, sc, n, c) := st in
  act_ok Parent sp sc n && act_ok Child sc sp c &&
  (if decide (moves st = []) then bool_decide (st = ([], [], [], [])) else true).

Fixpoint explore (fuel : nat) (seen todo : list astate) : list astate :=
  match fuel, todo with
  | S fuel', st :: todo' =>
      if bool_decide (st ∈ seen) then explore fuel' seen todo' else explore fuel' (st :: seen) (moves st ++ todo')
  | _, _ => seen
  end.
Definition reachable_states : list astate := explore 1000 [] [(parent_acts, child_acts, [], [])].

Lemma reachable_closed :
  bool_decide ((parent_acts, child_acts, [], []) ∈ reachable_states) = true ∧
  forallb (λ st, state_ok st && forallb (λ st', bool_decide (st' ∈ reachable_states)) (moves st)) reachable_states = true.
Proof. vm_compute. done. Qed.

Lemma reachable_inv st :
  st ∈ reachable_states → state_ok st = true ∧ ∀ st', st' ∈ moves st → st' ∈ reachable_states.
Proof.
  intros Hst. destruct reachable_closed as [_ H]. rewrite forallb_forall in H.
  specialize (H st (proj1 (list_elem_of_In _ _) Hst)). apply andb_true_iff in H as [Ho Hm]. split; [done|].
  intros st' Hst'. rewrite forallb_forall in Hm. eapply bool_decide_eq_true, Hm, list_elem_of_In, Hst'.
Qed.

(** ** Programs that perform acts *)
Section handshake.
Context (ps : pipes) (Hps : ∀ e e', fd_of ps e = fd_of ps e' → e = e').

Definition in_use (s : list act) (fd : Z) : Prop := ∃ e, holds_end s e = true ∧ fd = fd_of ps e.

(** [p] performs a prefix of the acts [s] while it is interrupted at most [n] times, and
    [Q] holds of what is left. *)
Fixpoint tracks {A} (me : process) (p : prog call A) (s : list act) (n : nat) (Q : A → list act → nat → Prop) : Prop :=
  match p with
  | Ret a => Q a s n
  | Call c k =>
      match c with
      | write fd bs => ∃ b s', s = Send b :: s' ∧ bs = [b] ∧ fd = fd_of ps (out_end me) ∧
          (∀ m, n = S m → tracks me (k eintr) s m Q) ∧ tracks me (k {| ret := 1; errno := 0; data := [] |}) s' n Q
      | read fd len => ∃ b s', s = Recv b :: s' ∧ len = 1 ∧ fd = fd_of ps (in_end me) ∧
          (∀ m, n = S m → tracks me (k eintr) s m Q) ∧ tracks me (k {| ret := 1; errno := 0; data := [b] |}) s' n Q
      | close fd =>
          (∃ e s', s = CloseEnd e :: s' ∧ fd = fd_of ps e ∧ ∀ x, tracks me (k x) s' n Q) ∨
          (¬ in_use s fd ∧ ∀ x, tracks me (k x) s n Q)
      | waitpid pid => ∃ s', s = Wait :: s' ∧ tracks me (k {| ret := pid; errno := 0; data := [1; 0] |}) s' n Q
      | _ => ∀ x, succeeds (in_use s) c x → tracks me (k x) s n Q
      end
  end.

Lemma tracks_bind {A B} me (p : prog call A) (f : A → prog call B) s n Q :
  tracks me p s n (λ a s' n', tracks me (f a) s' n' Q) → tracks me (p ≫= f) s n Q.
Proof using.
  revert s n. induction p as [a|c k IH]; intros s n; simpl; [done|].
  destruct c; try (intros H x Hx; apply IH, H, Hx).
  - intros [(e & s' & ? & ? & H)|[? H]]; [left|right]; [exists e, s'|]; split_and!; try done; intros x; apply IH, H.
  - intros (b & s' & ? & ? & ? & H1 & H2). exists b, s'. split_and!; try done; [intros m Hm|]; apply IH; auto.
  - intros (b & s' & ? & ? & ? & H1 & H2). exists b, s'. split_and!; try done; [intros m Hm|]; apply IH; auto.
  - intros (s' & ? & H). exists s'. split; [done|]. by apply IH.
Qed.

Lemma tracks_mono {A} me (p : prog call A) s n (Q Q' : A → list act → nat → Prop) :
  tracks me p s n Q → (∀ a s' n', Q a s' n' → Q' a s' n') → tracks me p s n Q'.
Proof using.
  intros Hp HQ. revert s n Hp. induction p as [a|c k IH]; intros s n; simpl; [auto|].
  destruct c; try (intros H x Hx; by apply IH, H).
  - intros [(e & s' & ? & ? & H)|[? H]]; [left|right]; [exists e, s'|]; split_and!; try done; intros x; apply IH, H.
  - intros (b & s' & ? & ? & ? & H1 & H2). exists b, s'. split_and!; try done; [intros m Hm|]; apply IH; auto.
  - intros (b & s' & ? & ? & ? & H1 & H2). exists b, s'. split_and!; try done; [intros m Hm|]; apply IH; auto.
  - intros (s' & ? & H). exists s'. split; [done|]. by apply IH.
Qed.

Lemma tracks_then {A B} me (p : exits A) (q : A → exits B) s n Q :
  tracks me p s n (λ o s' n', ∃ a, o = Done a ∧ tracks me (q a) s' n' Q) → tracks me (a ⇐ p; q a) s n Q.
Proof using. intros H. apply tracks_bind. eapply tracks_mono; [exact H|]. by intros o s' n' (a & -> & H'). Qed.

Lemma tracks_send me fuel b s n (Q : outcome unit → list act → nat → Prop) :
  (n < fuel)%nat → (∀ m, (m ≤ n)%nat → Q (Done tt) s m) → tracks me (send fuel (fd_of ps (out_end me)) b) (Send b :: s) n Q.
Proof using.
  revert n. induction fuel as [|fuel IH]; intros n Hn HQ; [lia|]. exists b, s. split_and!; try done.
  - intros m ->. apply IH; [lia|]. intros m' Hm. apply HQ. lia.
  - assert (write_all fuel (fd_of ps (out_end me)) [] = returns) as E by (by destruct fuel).
    cbn [Z.ltb Z.compare ret mbind prog_bind sys]. change (drop (Z.to_nat 1) [b]) with (@nil Z). rewrite E. by apply HQ.
Qed.

Lemma tracks_expect me fuel b s n (Q : outcome unit → list act → nat → Prop) :
  (n < fuel)%nat → (∀ m, (m ≤ n)%nat → Q (Done tt) s m) → tracks me (expect fuel (fd_of ps (in_end me)) b) (Recv b :: s) n Q.
Proof using.
  intros Hn HQ. apply tracks_then. revert n Hn HQ. induction fuel as [|fuel IH]; intros n Hn HQ; [lia|]. exists b, s. split_and!; try done.
  - intros m ->. apply IH; [lia|]. intros m' Hm. apply HQ. lia.
  - assert (read_all fuel (fd_of ps (in_end me)) 0 = mret (Done [])) as E by (by destruct fuel).
    cbn [Z.ltb Z.eqb Z.compare ret data mbind prog_bind sys]. change (1 - 1) with 0. rewrite E. exists [b]. split; [done|].
    rewrite decide_True by done. apply HQ. lia.
Qed.

(** Programs that leave the pipes alone. *)
Definition plain (c : call) : bool := match c with write _ _ | read _ _ | close _ | waitpid _ => false | _ => true end.

Lemma tracks_call {A} me c (k : answer → prog call A) s n Q :
  plain c = true → (∀ x, succeeds (in_use s) c x → tracks me (k x) s n Q) → tracks me (Call c k) s n Q.
Proof using. by destruct c. Qed.

Definition quiet {A} me (p : exits A) (R : A → Prop) s n := tracks me p s n (λ o s' n', s' = s ∧ n' = n ∧ ∃ a, o = Done a ∧ R a).

Lemma quiet_ret {A} me (a : A) (R : A → Prop) s n : R a → quiet me (mret (Done a)) R s n.
Proof using. intros Ha. split; [done|]. split; [done|]. by exists a. Qed.

Lemma tracks_quiet {A B} me (p : exits A) (R : A → Prop) (q : A → exits B) s n Q :
  quiet me p R s n → (∀ a, R a → tracks me (q a) s n Q) → tracks me (a ⇐ p; q a) s n Q.
Proof using.
  intros Hp Hq. apply tracks_then. eapply tracks_mono; [exact Hp|]. intros o s' n' (-> & -> & a & -> & Ha). eauto.
Qed.

Lemma tracks_close_end {A} me e (k : answer → prog call A) s n Q :
  (∀ x, tracks me (k x) s n Q) → tracks me (Call (close (fd_of ps e)) k) (CloseEnd e :: s) n Q.
Proof using. intros H. left. by exists e, s. Qed.

Lemma tracks_close {A} me fd (k : answer → prog call A) s n Q :
  ¬ in_use s fd → (∀ x, tracks me (k x) s n Q) → tracks me (Call (close fd) k) s n Q.
Proof using. intros Hf H. by right. Qed.

Ltac plain_call x H := cbn [mbind prog_bind sys]; apply tracks_call; [done|]; intros x H; cbn [succeeds] in H.
Ltac quietly l := eapply tracks_quiet; [apply l|]; intros ? ?.
Notation top := (λ _, True).

Lemma quiet_log_before me ctx i s n : quiet me (log_before_read_fault ctx i) top s n.
Proof using. plain_call x Hx. destruct (Z.ltb_spec (ret x) 0); [lia|]. by apply quiet_ret. Qed.

Lemma quiet_log_page me p s n : quiet me (log_mapping_page p) top s n.
Proof using. plain_call x Hx. by apply quiet_ret. Qed.

Lemma quiet_log_pages me ctx l s n : quiet me (log_pages ctx l) top s n.
Proof using. induction l as [|i l IH]; [by apply quiet_ret|]. cbn [log_pages]. quietly quiet_log_page. apply IH. Qed.

Lemma quiet_prefault me ctx l s n : quiet me (prefault_pages ctx l) top s n.
Proof using.
  induction l as [|i l IH]; [by apply quiet_ret|]. cbn [prefault_pages]. plain_call x Hx. quietly quiet_log_page. apply IH.
Qed.

Lemma quiet_write me ctx v l s n : quiet me (write_selected ctx v l) top s n.
Proof using. revert v. induction l as [|i l IH]; intros v; [by apply quiet_ret|]. cbn [write_selected]. plain_call x Hx. apply IH. Qed.

Lemma quiet_dump me f pid s n : quiet me (dump_region f pid) top s n.
Proof using.
  unfold dump_region. plain_call x Hx. destruct (Z.eqb_spec (ret x) 0); [done|]. plain_call y Hy. plain_call z Hz. by apply quiet_ret.
Qed.

Lemma quiet_start me s n : quiet me start_fault_handler top s n.
Proof using. unfold start_fault_handler. plain_call x Hx. rewrite Hx. by apply quiet_ret. Qed.

Lemma quiet_setup me ctx s n :
  quiet me (setup_userfaultfd ctx) (λ ctx', ∃ u, ctx' = set_uffd u ctx ∧ 0 ≤ u ∧ ¬ in_use s u) s n.
Proof using.
  unfold setup_userfaultfd. plain_call u Hu. destruct Hu as [Hu Hfree], (Z.ltb_spec (ret u) 0); [lia|].
  plain_call a Ha. destruct Ha as (Ha & H1 & H2 & H3), (Z.ltb_spec (ret a) 0); [lia|].
  repeat (rewrite (proj2 (Z.eqb_neq _ _)) by done). plain_call r Hr. destruct Hr as (Hr & H4 & H5 & H6), (Z.ltb_spec (ret r) 0); [lia|].
  rewrite H4, H5, H6. cbn [negb]. apply quiet_ret. by exists (ret u).
Qed.

Lemma in_use_nil fd : ¬ in_use [] fd.
Proof using. intros (e & He & _). done. Qed.

Lemma tracks_cleanup {A} me ctx n (a : A) : tracks me (_ ← cleanup_demo ctx; mret a) [] n (λ a' s' _, s' = [] ∧ a' = a).
Proof using.
  unfold cleanup_demo, when. repeat case_match; cbn [mbind prog_bind sys mret prog_ret];
    repeat first [apply tracks_close; [apply in_use_nil|]; intros ? | apply tracks_call; [done|]; intros ? _]; done.
Qed.

(** Both programs perform their acts. *)
Definition finishes (o : outcome Z) (s : list act) (_ : nat) : Prop := s = [] ∧ o = Done 0.

Ltac sends := apply tracks_then, tracks_send; [lia|]; intros ? ?; eexists; split; [done|].
Ltac expects := apply tracks_then, tracks_expect; [lia|]; intros ? ?; eexists; split; [done|].

Lemma parent_tracks fuel ctx child n :
  (n < fuel)%nat → 0 ≤ child → tracks Parent (parent_main fuel ctx ps child) parent_acts n finishes.
Proof using.
  intros Hn Hc. unfold parent_main, parent_acts. cbn [mbind prog_bind sys].
  apply (tracks_close_end Parent NotifyWrite). intros ?. apply (tracks_close_end Parent ControlRead). intros ?.
  expects. quietly quiet_log_before. sends. expects. quietly quiet_log_page. sends. expects. quietly quiet_log_pages.
  plain_call me Hme. quietly quiet_dump. quietly quiet_dump. plain_call me' Hme'. quietly quiet_dump. quietly quiet_dump. sends.
  cbn [mbind prog_bind sys]. eexists. split; [done|]. cbn [ret data nth]. destruct (Z.ltb_spec child 0); [lia|]. cbn [Z.eqb orb negb].
  apply (tracks_close_end Parent NotifyRead). intros ?. apply (tracks_close_end Parent ControlWrite). intros ?. apply tracks_cleanup.
Qed.

Lemma child_tracks fuel ctx n : (n < fuel)%nat → tracks Child (child_main fuel ctx ps) child_acts n finishes.
Proof using.
  intros Hn. unfold child_main, child_acts. cbn [mbind prog_bind sys].
  apply (tracks_close_end Child NotifyRead). intros ?. apply (tracks_close_end Child ControlWrite). intros ?.
  apply tracks_then. unfold child_process. eapply tracks_quiet; [apply quiet_setup|]. intros ctx1 (u & -> & Hu & Hfree).
  quietly quiet_start. quietly quiet_log_before. sends. expects. quietly quiet_log_page. sends. expects.
  quietly quiet_prefault. quietly quiet_log_pages. quietly quiet_write. quietly quiet_log_pages. sends. expects.
  unfold stop_fault_handler, when. cbn [uffd set_uffd]. destruct (Z.leb_spec 0 u); [|lia].
  plain_call st0 Hst0. apply tracks_close.
  { intros (e & He & ->). apply Hfree. exists e. split; [|done]. by destruct e. }
  intros ?. plain_call j Hj. rewrite Hj. cbn [Z.eqb negb]. eexists. split; [done|]. cbn [mbind prog_bind sys].
  apply (tracks_close_end Child NotifyWrite). intros ?. apply (tracks_close_end Child ControlRead). intros ?. apply tracks_cleanup.
Qed.

(** ** The two programs and the pipes *)

Definition other (me : process) : process := match me with Parent => Child | Child => Parent end.

(** What the queues become when the acts [s] of [me] become [s1]. *)
Definition moved (me : process) (peer : exits Z) (s s1 : list act) (o o' : os) : Prop :=
  let inq o := queue o (in_end me) in
  let outq o := queue o (out_end me) in
  (s1 = s ∧ inq o' = inq o ∧ outq o' = outq o) ∨
  (∃ b, s = Send b :: s1 ∧ inq o' = inq o ∧ outq o' = outq o ++ [b]) ∨
  (∃ b q, s = Recv b :: s1 ∧ inq o = b :: q ∧ inq o' = q ∧ outq o' = outq o) ∨
  (∃ e, s = CloseEnd e :: s1 ∧ inq o' = inq o ∧ outq o' = outq o) ∨
  (s = Wait :: s1 ∧ (∃ r, peer = Ret r) ∧ inq o' = inq o ∧ outq o' = outq o).

(** The two processes from the side of [me]. *)
Record side (me : process) (p : exits Z) (s s' : list act) (n : nat) (o : os) : Prop := {
  side_tracks : tracks me p s n finishes;
  side_budget : (budget o ≤ n)%nat;
  side_mine : ∀ e, is_open o me e = holds_end s e;
  side_other : ∀ e, is_open o (other me) e = holds_end s' e;
  side_ok : act_ok me s s' (queue o (in_end me)) = true }.

Lemma succeeds_weaken (P P' : Z → Prop) c x : (∀ fd, P' fd → P fd) → succeeds P c x → succeeds P' c x.
Proof using. intros HP. destruct c; try done. simpl. naive_solver. Qed.

Lemma tracks_other {A} me c (k : answer → prog call A) s n Q x :
  tracks me (Call c k) s n Q → succeeds (in_use s) c x → tracks me (k x) s n Q.
Proof using. destruct c; simpl; try done; intros H Hx; by apply H. Qed.

Lemma holds_shut s e f : holds_end s e = false → holds_end (CloseEnd e :: s) f && negb (bool_decide (f = e)) = holds_end s f.
Proof using.
  unfold holds_end. rewrite !bool_decide_eq_false. intros He. apply eq_true_iff_eq.
  rewrite andb_true_iff, negb_true_iff, bool_decide_eq_false, !bool_decide_eq_true, elem_of_cons. naive_solver.
Qed.

Lemma holds_skip a s f : match a with CloseEnd _ => False | _ => True end → holds_end (a :: s) f = holds_end s f.
Proof using. intros Ha. apply bool_decide_ext. rewrite elem_of_cons. destruct a; naive_solver. Qed.

Lemma queue_set_same e q o : queue (set_queue e q o) e = q.
Proof using. by destruct e. Qed.
Lemma queue_set_in_out me q o : queue (set_queue (out_end me) q o) (in_end me) = queue o (in_end me).
Proof using. by destruct me. Qed.
Lemma queue_set_out_in me q o : queue (set_queue (in_end me) q o) (out_end me) = queue o (out_end me).
Proof using. by destruct me. Qed.
Lemma set_queue_open e q o p f : is_open (set_queue e q o) p f = is_open o p f.
Proof using. by destruct e. Qed.
Lemma set_queue_budget e q o : budget (set_queue e q o) = budget o.
Proof using. by destruct e. Qed.

Lemma side_peer_open me p s s' n o e :
  side me p s s' n o → peer_open o e = holds_end s (other_end e) || holds_end s' (other_end e).
Proof using.
  intros [_ _ Hm Ho _]. rewrite <-Hm, <-Ho. unfold peer_open. destruct me; simpl; [done|]. apply orb_comm.
Qed.

Lemma one_step me c k peer o x o' s s' n :
  side me (Call c k) s s' n o → (∀ r, peer = Ret r → r = Done 0) → os_answer ps me peer o c x o' →
  ∃ s1 n1, tracks me (k x) s1 n1 finishes ∧ (budget o' ≤ n1)%nat ∧ (budget o' ≤ budget o)%nat ∧
    (∀ e, is_open o' me e = holds_end s1 e) ∧ (∀ e, is_open o' (other me) e = holds_end s' e) ∧ moved me peer s s1 o o'.
Proof using Hps.
  intros Hs Hpeer. pose proof (side_peer_open _ _ _ _ _ _ (out_end me) Hs) as Hout.
  pose proof (side_peer_open _ _ _ _ _ _ (in_end me) Hs) as Hin. destruct Hs as [HT Hb Hm Ho Hok].
  destruct 1 as [c fd e m Hc Hfd Hm0|fd e bs m Hfd He Hopen Hpo Hlen|fd e bs Hfd He Hpo|fd e len m Hfd He Hopen Hlen Hq
                |fd e len Hfd He Hq Hpo|fd e Hfd Hopen|fd Hfd|pid r z Hr Hz|c x Hx].
  - destruct Hc as [->|[bs ->]]; destruct HT as (b & s1 & -> & _ & _ & Hi & _);
      eexists _, (pred n); (split; [apply Hi; lia|]); split_and!; simpl; try done; try lia; left; by destruct me.
  - destruct HT as (b & s1 & -> & -> & E & _ & HT). rewrite Hfd in E. apply Hps in E as ->.
    assert (m = 1) as -> by (unfold zlen in Hlen; simpl in Hlen; lia). exists s1, n. rewrite set_queue_budget.
    split_and!; try done; [by intros f; rewrite set_queue_open, Hm, holds_skip|by intros f; rewrite set_queue_open|].
    right; left. exists b. split_and!; [done|by rewrite queue_set_in_out|by rewrite queue_set_same].
  - destruct HT as (b & s1 & -> & -> & E & _). rewrite Hfd in E. apply Hps in E as ->. rewrite Hpo in Hout.
    simpl in Hok. by rewrite <-Hout, andb_false_r in Hok.
  - destruct HT as (b & s1 & -> & -> & E & _ & HT). rewrite Hfd in E. apply Hps in E as ->. simpl in Hok.
    destruct (queue o (in_end me)) as [|b' q] eqn:Eq; [unfold zlen in Hq; simpl in Hq; lia|].
    apply andb_true_iff in Hok as [_ ->%Z.eqb_eq]. assert (m = 1) as -> by lia. exists s1, n. rewrite set_queue_budget.
    split_and!; try done; [by intros f; rewrite set_queue_open, Hm, holds_skip|by intros f; rewrite set_queue_open|].
    right; right; left. exists b, q. split_and!; [done|done|by rewrite queue_set_same|by rewrite queue_set_out_in].
  - destruct HT as (b & s1 & -> & -> & E & _). rewrite Hfd in E. apply Hps in E as ->. rewrite Hpo in Hin.
    simpl in Hok. rewrite Hq in Hok. by rewrite <-Hin, andb_false_r in Hok.
  - destruct HT as [(e' & s1 & -> & E & HT)|[Hn _]]; [|destruct Hn; exists e; by rewrite <-Hm].
    rewrite Hfd in E. apply Hps in E as <-. simpl in Hok. apply negb_true_iff in Hok. exists s1, n.
    split_and!; try done.
    + intros f. simpl. rewrite Hm, <-(holds_shut _ e f Hok). f_equal. f_equal. apply bool_decide_ext. naive_solver.
    + intros f. simpl. rewrite <-Ho. rewrite bool_decide_false by (by destruct me; intros [? ?]). by rewrite andb_true_r.
    + right; right; right; left. exists e. by destruct me.
  - destruct HT as [(e' & s1 & -> & E & HT)|[Hn HT]].
    { destruct (Hfd e'); [|done]. rewrite Hm. apply bool_decide_eq_true. by left. }
    exists s, n. split_and!; try done. by left.
  - destruct HT as (s1 & -> & HT). rewrite (Hpeer r Hr) in Hz. simplify_eq/=. exists s1, n. split_and!; try done; [by intros f; rewrite Hm, holds_skip|].
    do 4 right. split; [done|]. split; [by eexists|done].
  - exists s, n. split_and!; try done; [|by left]. eapply tracks_other; [done|]. eapply succeeds_weaken; [|done].
    intros fd (e & He & ->). exists e. by rewrite Hm.
Qed.

Definition inv (p c : exits Z) (o : os) : Prop :=
  ∃ sp sc n1 n2, (sp, sc, notify o, control o) ∈ reachable_states ∧ side Parent p sp sc n1 o ∧ side Child c sc sp n2 o.

Lemma side_intro me p s s' n o :
  tracks me p s n finishes → (budget o ≤ n)%nat → (∀ e, is_open o me e = holds_end s e) →
  (∀ e, is_open o (other me) e = holds_end s' e) → act_ok me s s' (queue o (in_end me)) = true → side me p s s' n o.
Proof using. by split. Qed.

Lemma reachable_acts sp sc n c :
  (sp, sc, n, c) ∈ reachable_states → act_ok Parent sp sc n = true ∧ act_ok Child sc sp c = true.
Proof using. intros H. apply reachable_inv in H as [H _]. simpl in H. by repeat (apply andb_true_iff in H as [H ?]). Qed.

Lemma side_returned me r s s' n o : side me (Ret r) s s' n o → r = Done 0 ∧ s = [].
Proof using. intros [[-> ->] _ _ _ _]. done. Qed.

Lemma inv_parent c k child o x o' : inv (Call c k) child o → os_answer ps Parent child o c x o' → inv (k x) child o'.
Proof using Hps.
  intros (sp & sc & n1 & n2 & HR & Hp & Hc) Hx. 
  destruct (one_step Parent c k child o x o' sp sc n1 Hp) as (s1 & m & HT & Hb & Hb' & Hm & Ho & Hmv); [|done|].
  { intros r ->. by apply side_returned in Hc as [-> _]. }
  assert ((s1, sc, notify o', control o') ∈ reachable_states) as HR'.
  { pose proof (reachable_inv _ HR) as [_ Hmoves].
    destruct Hmv as [(-> & E1 & E2)|[(b & -> & E1 & E2)|[(b & q & -> & E0 & E1 & E2)|[(e & -> & E1 & E2)|(-> & [r ->] & E1 & E2)]]]];
      simpl in *; rewrite E1, E2; [done|apply Hmoves, elem_of_app; left; simpl..].
    - by left.
    - rewrite E0. by left.
    - by left.
    - apply side_returned in Hc as [_ ->]. by left. }
  pose proof (reachable_acts _ _ _ _ HR') as [Hok1 Hok2]. destruct Hc as [HTc Hbc _ _ _].
  exists s1, sc, m, n2. split_and!; [done|by apply side_intro|apply side_intro; try done; lia].
Qed.

Lemma inv_child c k parent o x o' : inv parent (Call c k) o → os_answer ps Child parent o c x o' → inv parent (k x) o'.
Proof using Hps.
  intros (sp & sc & n1 & n2 & HR & Hp & Hc) Hx. 
  destruct (one_step Child c k parent o x o' sc sp n2 Hc) as (s1 & m & HT & Hb & Hb' & Hm & Ho & Hmv); [|done|].
  { intros r ->. by apply side_returned in Hp as [-> _]. }
  assert ((sp, s1, notify o', control o') ∈ reachable_states) as HR'.
  { pose proof (reachable_inv _ HR) as [_ Hmoves].
    destruct Hmv as [(-> & E1 & E2)|[(b & -> & E1 & E2)|[(b & q & -> & E0 & E1 & E2)|[(e & -> & E1 & E2)|(-> & [r ->] & E1 & E2)]]]];
      simpl in *; rewrite E1, E2; [done|apply Hmoves, elem_of_app; right; simpl..].
    - by left.
    - rewrite E0. by left.
    - by left.
    - apply (side_ok _ _ _ _ _ _) in Hc. done. }
  pose proof (reachable_acts _ _ _ _ HR') as [Hok1 Hok2]. destruct Hp as [HTc Hbc _ _ _].
  exists sp, s1, n1, m. split_and!; [done|apply side_intro; try done; lia|by apply side_intro].
Qed.

(** ** Progress *)

Lemma plain_succeeds (P : Z → Prop) c :
  plain c = true → (∃ fd, 0 ≤ fd ∧ ¬ P fd) → ∃ x, succeeds P c x.
Proof using.
  intros Hc (fd & Hfd & HP). destruct c; try done; try (by exists {| ret := 0; errno := 0; data := [] |});
    try (by exists {| ret := 1; errno := 0; data := [] |}).
  - by exists {| ret := fd; errno := 0; data := [] |}.
  - by exists {| ret := 0; errno := 0; data := [Z.lor (Z.lor UFFD_FEATURE_MISSING_SHMEM UFFD_FEATURE_PAGEFAULT_FLAG_WP) UFFD_FEATURE_WP_HUGETLBFS_SHMEM] |}.
  - by exists {| ret := 0; errno := 0; data := [0x4c] |}.
Qed.

Lemma fresh_fd (P : pipe_end → Prop) : ∃ fd, 0 ≤ fd ∧ ¬ ∃ e, P e ∧ fd = fd_of ps e.
Proof using.
  exists (1 + Z.abs (notify_read ps) + Z.abs (notify_write ps) + Z.abs (control_read ps) + Z.abs (control_write ps)).
  split; [lia|]. intros (e & _ & E). destruct e; simpl in E; lia.
Qed.

(** A process can take a step, or waits for the other one. *)
Definition waits (me : process) (peer : exits Z) (s : list act) (o : os) : Prop :=
  (∃ b s1, s = Recv b :: s1 ∧ queue o (in_end me) = []) ∨ (∃ s1, s = Wait :: s1 ∧ ∀ r, peer ≠ Ret r).

Lemma can_act me c k peer o s s' n :
  side me (Call c k) s s' n o → (∀ r, peer = Ret r → r = Done 0) →
  (∃ x o', os_answer ps me peer o c x o') ∨ waits me peer s o.
Proof using.
  intros Hs Hpeer. pose proof (side_peer_open _ _ _ _ _ _ (out_end me) Hs) as Hout. destruct Hs as [HT Hb Hm Ho Hok].
  destruct (plain c) eqn:Hc.
  { left. destruct (plain_succeeds _ c Hc (fresh_fd (λ e, is_open o me e = true))) as [x Hx]. eexists _, _. by apply os_other. }
  destruct c; try done.
  - left. destruct HT as [(e & s1 & -> & -> & _)|[Hn _]]; eexists _, _.
    + apply (os_close_end _ _ _ _ _ e); [done|]. rewrite Hm. apply bool_decide_eq_true. by left.
    + apply os_close. intros e He ->. apply Hn. exists e. by rewrite <-Hm.
  - left. destruct HT as (b & s1 & -> & -> & -> & _). simpl in Hok. apply andb_true_iff in Hok as [Hok1 Hok2]. eexists _, _.
    apply (os_write _ _ _ _ _ (out_end me) _ 1); [done|by destruct me|by rewrite Hm|by rewrite Hout|done].
  - destruct HT as (b & s1 & -> & -> & -> & _). simpl in Hok. apply andb_true_iff in Hok as [Hok1 _].
    destruct (queue o (in_end me)) as [|b' q] eqn:Eq; [right; left; by exists b, s1|]. left. eexists _, _.
    apply (os_read _ _ _ _ _ (in_end me) _ 1); [done|by destruct me|by rewrite Hm|done|]. rewrite Eq. unfold zlen. simpl. lia.
  - destruct HT as (s1 & -> & _). destruct peer as [r|c' k'].
    + left. rewrite (Hpeer r eq_refl). eexists _, _. by apply (os_wait _ _ _ _ _ (Done 0) 0).
    + right; right. by exists s1.
Qed.

Lemma inv_progress p c o :
  inv p c o → (∃ p' c' o', step ps p c o p' c' o') ∨ (p = Ret (Done 0) ∧ c = Ret (Done 0) ∧ notify o = [] ∧ control o = []).
Proof using.
  intros (sp & sc & n1 & n2 & HR & Hp & Hc).
  assert (∀ r, p = Ret r → r = Done 0) as Hrp by (intros r ->; by apply side_returned in Hp as [-> _]).
  assert (∀ r, c = Ret r → r = Done 0) as Hrc by (intros r ->; by apply side_returned in Hc as [-> _]).
  pose proof (reachable_inv _ HR) as [Hok _]. simpl in Hok. apply andb_true_iff in Hok as [_ Hend].
  assert ((∃ p' c' o', step ps p c o p' c' o') ∨ waits Parent c sp o ∨ (∃ r, p = Ret r)) as [?|Hwp].
  { destruct p as [r|cp kp]; [eauto|]. destruct (can_act _ _ _ _ _ _ _ _ Hp Hrc) as [(x & o' & H)|?]; [|eauto].
    left. eexists _, _, _. by apply step_parent. }
  { by left. }
  assert ((∃ p' c' o', step ps p c o p' c' o') ∨ waits Child p sc o ∨ (∃ r, c = Ret r)) as [?|Hwc].
  { destruct c as [r|cc kc]; [eauto|]. destruct (can_act _ _ _ _ _ _ _ _ Hc Hrp) as [(x & o' & H)|?]; [|eauto].
    left. eexists _, _, _. by apply step_child. }
  { by left. }
  assert (moves (sp, sc, notify o, control o) = []) as Hmv.
  { unfold moves, parent_moves, child_moves. 
    destruct Hwp as [[(b & s1 & -> & E)|(s1 & -> & Hn)]|[r ->]], Hwc as [[(b' & s1' & -> & E')|(s1' & -> & Hn')]|[r' ->]];
      try (apply side_returned in Hc as [-> ->]); try (apply side_returned in Hp as [-> ->]); simpl in *;
      try rewrite E; try rewrite E'; try done; try (by destruct (Hn (Done 0))); try (by destruct (Hn' (Done 0)));
      try (by apply side_ok in Hc). }
  rewrite decide_True in Hend by done. apply bool_decide_eq_true in Hend. injection Hend as -> -> En Ec. right.
  destruct Hwp as [[(? & ? & ? & _)|(? & ? & _)]|[r ->]]; [done..|]. destruct Hwc as [[(? & ? & ? & _)|(? & ? & _)]|[r' ->]]; [done..|].
  rewrite (Hrp r eq_refl), (Hrc r' eq_refl). done.
Qed.

Lemma inv_completes p c o : inv p c o → completes ps p c o.
Proof using Hps.
  revert c o. induction p as [r|cp kp IHp]; intros c; induction c as [r'|cc kc IHc]; intros o Hinv;
    (destruct (inv_progress _ _ _ Hinv) as [Hs|(E1 & E2 & E3 & E4)]; [|try done; simplify_eq; by apply completes_end]);
    apply completes_next; try done; intros p' c' o' Hstep; inversion Hstep; subst.
  - apply IHc. by eapply inv_child.
  - apply IHp. by eapply inv_parent.
  - apply IHp. by eapply inv_parent.
  - apply IHc. by eapply inv_child.
Qed.
End handshake.

(** C25: whatever order the steps of parent and child are taken in, and however their reads
    and writes are interrupted (fewer times than the loops may turn), when no other call
    fails and faults are answered both processes come to their end and return 0, with the pipes empty: none waits
    for ever, reads a wrong token or the end of file, or writes to a closed pipe. *)
Theorem handshake_completes ps fuel ctx child interruptions :
  (∀ e e', fd_of ps e = fd_of ps e' → e = e') → 0 ≤ child → (interruptions < fuel)%nat →
  completes ps (parent_main fuel ctx ps child) (child_main fuel ctx ps)
    {| notify := []; control := []; is_open _ _ := true; budget := interruptions |}.
Proof.
  intros Hps Hc Hn. apply inv_completes; [done|]. exists parent_acts, child_acts, interruptions, interruptions.
  split; [eapply bool_decide_eq_true, reachable_closed|].
  split; apply side_intro; try done; try (by intros []); [by apply parent_tracks|by apply child_tracks].
Qed.

Lemma handshake_completes_witness :
  let ps := {| notify_read := 5; notify_write := 6; control_read := 7; control_write := 8 |} in
  let ctx := {| page_size := 4096; region_size := REGION_SIZE; page_count := 16; memfd := 4; datafd := 3; uffd := -1;
                user_base := 2 ^ 20; meta_ptr := 1; meta := [] |} in
  completes ps (parent_main 3 ctx ps 100) (child_main 3 ctx ps) {| notify := []; control := []; is_open _ _ := true; budget := 2 |}.
Proof. intros ps ctx. apply handshake_completes; [|done|lia]. intros [] []; done. Defined.

End CowDemo.
