(* ===== verification/DeviceBus.v ===== *)
(** * The device bus

    Model of [vm-device/src/bus.rs]: the table of address ranges that routes accesses of the
    guest to devices.  The table is a [BTreeMap] keyed by the base of a range, here the list
    of its entries in order.  A device is a number; the bus only has weak references, so
    whether a device is [alive] is an argument.  [bus_routes] says what the operations of one
    thread do to the routing; [insert_race] shows two threads that both insert a range, since
    [insert] takes its lock twice. *)

From S2P Require Import Prelude.

Module DeviceBus.

Inductive Error := Overlap | ZeroSizedRange | MissingAddressRange.

Record BusRange := { base : Z; len : Z }.

Definition overlaps (r : BusRange) (b l : Z) : res Error bool :=
  e ← uadd b l;
  if base r <? e then e' ← uadd (base r) (len r); Ok (b <? e') else Ok false.

Notation device := Z.
Notation Bus := (list (BusRange * device)).

Definition new : Bus := [].

(** [BTreeMap::insert] keeps the key that is there and replaces its value. *)
Fixpoint btree_insert (r : BusRange) (d : device) (bus : Bus) : bool * Bus :=
  match bus with
  | [] => (false, [(r, d)])
  | (r', d') :: bus' =>
      if base r <? base r' then (false, (r, d) :: bus)
      else if base r =? base r' then (true, (r', d) :: bus')
      else let '(b, bus2) := btree_insert r d bus' in (b, (r', d') :: bus2)
  end.

Fixpoint btree_remove (b : Z) (bus : Bus) : option Bus :=
  match bus with
  | [] => None
  | (r, d) :: bus' => if base r =? b then Some bus' else cons (r, d) <$> btree_remove b bus'
  end.

Fixpoint any_overlap (bus : Bus) (b l : Z) : res Error bool :=
  match bus with
  | [] => Ok false
  | (r, _) :: bus' => o ← overlaps r b l; if o : bool then Ok true else any_overlap bus' b l
  end.

(** The first look at the table, under the lock for reading. *)
Definition insert_check (bus : Bus) (b l : Z) : res Error unit :=
  if l =? 0 then Err ZeroSizedRange
  else o ← any_overlap bus b l; if o : bool then Err Overlap else Ok tt.

(** The change of the table, under the lock for writing. *)
Definition insert_commit (d : device) (b l : Z) (bus : Bus) : res Error unit * Bus :=
  let '(replaced, bus') := btree_insert {| base := b; len := l |} d bus in
  (if replaced : bool then Err Overlap else Ok tt, bus').

Definition insert (d : device) (b l : Z) : M Bus Error unit :=
  bus ← get; _ ← lift (insert_check bus b l); insert_commit d b l.

Definition remove (b l : Z) : M Bus Error unit := λ bus,
  if l =? 0 then (Err ZeroSizedRange, bus)
  else match btree_remove b bus with None => (Err MissingAddressRange, bus) | Some bus' => (Ok tt, bus') end.

Section alive.
Context (alive : device → bool).

(** The last entry that starts at [addr] or before. *)
Definition first_before (bus : Bus) (addr : Z) : option (BusRange * device) :=
  e ← last (filter (λ e : BusRange * device, base e.1 ≤ addr) bus);
  if alive e.2 then Some e else None.

Definition resolve (bus : Bus) (addr : Z) : option (Z * Z * device) :=
  match first_before bus addr with
  | Some (range, dev) => let offset := addr - base range in if offset <? len range then Some (base range, offset, dev) else None
  | None => None
  end.

(** The keys of the entries of a device; a dead one anywhere in the table is a panic. *)
Fixpoint keys_of (d : device) (bus : Bus) : res Error (list Z) :=
  match bus with
  | [] => Ok []
  | (r, d') :: bus' => if alive d' then ks ← keys_of d bus'; Ok (if d' =? d then base r :: ks else ks) else Panic
  end.

Definition remove_by_device (d : device) : M Bus Error unit := λ bus,
  match keys_of d bus with
  | Ok ks => (Ok tt, foldl (λ bus b, default bus (btree_remove b bus)) bus ks)
  | _ => (Panic, bus)
  end.

Definition update_range (old_base old_len new_base new_len : Z) : M Bus Error unit :=
  bus ← get;
  match resolve bus old_base with
  | None => fail MissingAddressRange
  | Some (_, _, dev) => _ ← remove old_base old_len; insert dev new_base new_len
  end.

(** Devices are reached through their own locks; [World] is what they keep. *)
Context {World Barrier : Type}.
Context (dev_read : device → Z → Z → list Z → World → list Z * World).
Context (dev_write : device → Z → Z → list Z → World → option Barrier * World).

Definition read (bus : Bus) (addr : Z) (data : list Z) : M World Error (list Z) :=
  match resolve bus addr with
  | Some (b, offset, dev) => λ w, let '(data', w') := dev_read dev b offset data w in (Ok data', w')
  | None => fail MissingAddressRange
  end.

Definition write (bus : Bus) (addr : Z) (data : list Z) : M World Error (option Barrier) :=
  match resolve bus addr with
  | Some (b, offset, dev) => λ w, let '(r, w') := dev_write dev b offset data w in (Ok r, w')
  | None => fail MissingAddressRange
  end.
End alive.

(** ** Threads that insert

    The two looks at the table are two steps of a thread. *)
Inductive thread := Start (d : device) (b l : Z) | Checked (d : device) (b l : Z) | Finished (r : res Error unit).

Definition step_thread (th : thread) (bus : Bus) : thread * Bus :=
  match th with
  | Start d b l => (match insert_check bus b l with Ok _ => Checked d b l | r => Finished r end, bus)
  | Checked d b l => let '(r, bus') := insert_commit d b l bus in (Finished r, bus')
  | Finished r => (th, bus)
  end.

(** A schedule names the thread that takes the next step. *)
Fixpoint schedule (order : list nat) (ths : list thread) (bus : Bus) : list thread * Bus :=
  match order with
  | [] => (ths, bus)
  | i :: order' =>
      match ths !! i with
      | Some th => let '(th', bus') := step_thread th bus in schedule order' (<[i := th']> ths) bus'
      | None => schedule order' ths bus
      end
  end.

(** ** Well-formed tables *)

Definition ends (e : BusRange * device) : Z := base e.1 + len e.1.

(** Ranges are in order, not empty, do not overlap and end below 2^64. *)
Fixpoint wf_from (lo : Z) (bus : Bus) : Prop :=
  match bus with
  | [] => True
  | e :: bus' => lo ≤ base e.1 ∧ 0 < len e.1 ∧ ends e < 2 ^ 64 ∧ wf_from (ends e) bus'
  end.
Definition wf (bus : Bus) : Prop := wf_from 0 bus.

Definition contains (e : BusRange * device) (a : Z) : bool := (base e.1 <=? a) && (a <? ends e).

(** The specification: the entry that an address belongs to. *)
Definition owner (bus : Bus) (a : Z) : option (BusRange * device) := List.find (λ e, contains e a) bus.

Lemma contains_spec e a : contains e a = true ↔ base e.1 ≤ a < ends e.
Proof. unfold contains. rewrite andb_true_iff, Z.leb_le, Z.ltb_lt. done. Qed.

Lemma wf_from_mono lo lo' bus : lo' ≤ lo → wf_from lo bus → wf_from lo' bus.
Proof. intros Hle. destruct bus; simpl; [done|]. naive_solver lia. Qed.

Lemma wf_from_base lo bus e : wf_from lo bus → e ∈ bus → lo ≤ base e.1 ∧ 0 < len e.1 ∧ ends e < 2 ^ 64.
Proof.
  revert lo. induction bus as [|e' bus IH]; intros lo; simpl; [by intros _ ?%not_elem_of_nil|].
  intros (H1 & H2 & H3 & H4) [->|He]%elem_of_cons; [done|]. destruct (IH _ H4 He) as (? & ? & ?). unfold ends in *. lia.
Qed.

(** An address below the first range has no owner. *)
Lemma owner_below lo bus a : wf_from lo bus → a < lo → owner bus a = None.
Proof.
  revert lo. induction bus as [|e bus IH]; intros lo; [done|]. intros (H1 & H2 & H3 & H4) Ha. unfold owner. simpl.
  destruct (contains e a) eqn:E; [apply contains_spec in E; lia|]. apply (IH (ends e)); [done|]. unfold ends. lia.
Qed.

Lemma last_cons_default {A} (x : A) l : last (x :: l) = Some (default x (last l)).
Proof. revert x. induction l as [|y l IH]; intros x; [done|]. change (last (x :: y :: l)) with (last (y :: l)). by rewrite IH. Qed.

Lemma filter_later a lo bus : wf_from lo bus → a < lo → filter (λ e : BusRange * device, base e.1 ≤ a) bus = [].
Proof.
  revert lo. induction bus as [|e bus IH]; intros lo; [done|]. intros (H1 & H2 & H3 & H4) Ha.
  rewrite filter_cons_False by lia. apply (IH (ends e)); [done|]. unfold ends. lia.
Qed.

(** The last range that starts at or before [a] is the only one that can contain it. *)
Lemma last_before lo bus a :
  wf_from lo bus →
  match last (filter (λ e : BusRange * device, base e.1 ≤ a) bus) with
  | Some e => base e.1 ≤ a ∧ owner bus a = if a <? ends e then Some e else None
  | None => owner bus a = None
  end.
Proof.
  revert lo. induction bus as [|e bus IH]; intros lo; [done|]. intros (H1 & H2 & H3 & H4).
  unfold owner. simpl. destruct (contains e a) eqn:E.
  - apply contains_spec in E as [Ea Eb]. rewrite filter_cons_True, (filter_later a (ends e)) by done. simpl.
    split; [done|]. by rewrite (proj2 (Z.ltb_lt _ _) Eb).
  - destruct (Z.le_gt_cases (base e.1) a) as [Ha|Ha].
    + rewrite filter_cons_True by done. rewrite last_cons_default. specialize (IH _ H4). unfold owner in IH.
      destruct (last (filter _ bus)) as [e'|]; simpl; [done|]. split; [done|]. rewrite IH.
      destruct (Z.ltb_spec a (ends e)); [|done]. by rewrite (proj2 (contains_spec e a)) in E.
    + rewrite filter_cons_False, (filter_later a (ends e)) by (done || unfold ends; lia). simpl.
      apply (owner_below (ends e)); [done|]. unfold ends. lia.
Qed.

Lemma resolve_owner alive bus a :
  wf bus → resolve alive bus a = (e ← owner bus a; if alive e.2 then Some (base e.1, a - base e.1, e.2) else None).
Proof.
  intros Hwf. pose proof (last_before 0 bus a Hwf) as H. unfold resolve, first_before.
  destruct (last _) as [[r d]|]; [|by rewrite H]. destruct H as [Ha ->]. unfold ends. simpl. destruct (alive d) eqn:Ed.
  - replace (a - base r <? len r) with (a <? base r + len r) by (zcases; lia). destruct (a <? _); simpl; by rewrite ?Ed.
  - destruct (a <? _); simpl; by rewrite ?Ed.
Qed.

(** ** Inserting *)

Lemma any_overlap_run lo bus b l :
  wf_from lo bus → 0 ≤ lo → 0 ≤ b → 0 ≤ l → b + l < 2 ^ 64 →
  any_overlap bus b l = Ok (existsb (λ e, (base e.1 <? b + l) && (b <? ends e)) bus).
Proof.
  intros Hwf Hlo Hb Hl Hu. revert lo Hwf Hlo. induction bus as [|[r d] bus IH]; intros lo; [done|].
  intros (H1 & H2 & H3 & H4) Hlo. cbn [any_overlap existsb]. simpl in H1, H2. unfold ends in H3. simpl in H3.
  assert (overlaps r b l = Ok ((base r <? b + l) && (b <? base r + len r))) as ->.
  { unfold overlaps. unfold uadd, in_u64. rewrite (proj2 (Z.leb_le 0 (b + l))), (proj2 (Z.ltb_lt (b + l) _)) by lia. simpl.
    destruct (base r <? b + l); [|done]. rewrite (proj2 (Z.leb_le 0 (base r + len r))), (proj2 (Z.ltb_lt (base r + len r) _)) by lia. done. }
  simpl. unfold ends at 1. simpl. destruct (_ && _); [done|]. simpl. apply (IH _ H4). unfold ends. simpl. lia.
Qed.

(** Nothing overlaps the range [b .. b + l). *)
Definition free (bus : Bus) (b l : Z) : Prop := ∀ e, e ∈ bus → b + l ≤ base e.1 ∨ ends e ≤ b.

Lemma insert_free lo bus d b l :
  wf_from lo bus → lo ≤ b → 0 < l → b + l < 2 ^ 64 → free bus b l →
  let e := ({| base := b; len := l |}, d) in
  ∃ bus', btree_insert e.1 d bus = (false, bus') ∧ wf_from lo bus' ∧
    ∀ a, owner bus' a = if contains e a then Some e else owner bus a.
Proof.
  intros Hwf Hlo Hl Hu Hf e. revert lo Hwf Hlo. induction bus as [|[r d'] bus IH]; intros lo Hwf Hlo; cbn [btree_insert].
  { eexists. split; [done|]. split; [done|]. intros a. unfold owner. simpl. done. }
  destruct Hwf as (H1 & H2 & H3 & H4). simpl in H1, H2. unfold ends in H3, H4. simpl in H3, H4.
  assert (b + l ≤ base r ∨ base r + len r ≤ b) as Hr by (apply (Hf (r, d')); by left).
  cbn [fst base e]. destruct (Z.ltb_spec b (base r)).
  { eexists. split; [done|]. split; [|done]. simpl. unfold ends. simpl. split_and!; try done; lia. }
  destruct (Z.eqb_spec b (base r)); [lia|].
  destruct (IH (λ e' He', Hf e' (proj2 (elem_of_cons _ _ _) (or_intror He'))) (base r + len r) H4) as (bus' & E & Hw & Ho); [lia|].
  cbn [fst e] in E. rewrite E. eexists. split; [done|]. split; [done|]. intros a. unfold owner. simpl.
  destruct (contains (r, d') a) eqn:Er; [|apply Ho].
  destruct (contains e a) eqn:Ee; [|done]. apply contains_spec in Er, Ee. unfold ends in *. simpl in *. lia.
Qed.

(** An address that two ranges share is owned. *)
Lemma owner_Some bus e a : e ∈ bus → contains e a = true → is_Some (owner bus a).
Proof.
  intros He Ha. unfold owner. destruct (List.find _ bus) eqn:E; [done|].
  apply list_elem_of_In, (List.find_none _ _ E) in He. by rewrite Ha in He.
Qed.

Lemma owner_elem bus a e : owner bus a = Some e → e ∈ bus ∧ contains e a = true.
Proof. unfold owner. intros H. apply List.find_some in H as [? ?]. split; [by apply list_elem_of_In|done]. Qed.

Definition inserted (d : device) (b l : Z) (bus : Bus) (r : res Error unit) (bus' : Bus) : Prop :=
  match r with
  | Ok _ => 0 < l ∧ (∀ a, b ≤ a < b + l → owner bus a = None) ∧
      ∀ a, owner bus' a = if (b <=? a) && (a <? b + l) then Some ({| base := b; len := l |}, d) else owner bus a
  | Err e => bus' = bus ∧ (e = ZeroSizedRange ∧ l = 0 ∨ e = Overlap ∧ ∃ a, b ≤ a < b + l ∧ is_Some (owner bus a))
  | _ => False
  end.

Lemma insert_run d b l bus :
  wf bus → 0 ≤ b → 0 ≤ l → b + l < 2 ^ 64 → ∃ r bus', insert d b l bus = (r, bus') ∧ wf bus' ∧ inserted d b l bus r bus'.
Proof.
  intros Hwf Hb Hl Hu. unfold insert, mbind, M_bind, get, lift, insert_check.
  destruct (Z.eqb_spec l 0) as [->|Hl0]; [eexists _, _; split; [done|]; split; [done|]; by split; [|left]|].
  rewrite (any_overlap_run 0) by done. simpl. destruct (existsb _ bus) eqn:E.
  - eexists _, _. split; [done|]. split; [done|]. split; [done|]. right. split; [done|].
    apply existsb_exists in E as (e & He & [H1%Z.ltb_lt H2%Z.ltb_lt]%andb_true_iff). apply list_elem_of_In in He.
    pose proof (wf_from_base 0 bus e Hwf He). exists (Z.max b (base e.1)). split; [unfold ends in *; lia|].
    apply (owner_Some bus e); [done|]. apply contains_spec. unfold ends in *. lia.
  - assert (free bus b l) as Hf.
    { intros e He. destruct ((base e.1 <? b + l) && (b <? ends e)) eqn:Ee; [|apply andb_false_iff in Ee as [?%Z.ltb_ge|?%Z.ltb_ge]; lia].
      assert (existsb (λ e, (base e.1 <? b + l) && (b <? ends e)) bus = true) as Hx; [|by rewrite Hx in E].
      apply existsb_exists. exists e. split; [by apply list_elem_of_In|done]. }
    destruct (insert_free 0 bus d b l) as (bus' & Ei & Hw & Ho); try done; [lia|]. unfold insert_commit. cbn [fst] in Ei. rewrite Ei.
    eexists _, _. split; [done|]. split; [done|]. split_and!; [lia| |done]. intros a Ha. destruct (owner bus a) as [e|] eqn:Eo; [|done].
    apply owner_elem in Eo as [He Hc]. apply contains_spec in Hc. destruct (Hf e He); lia.
Qed.
(** ** Removing *)

Lemma remove_entry lo bus b bus' :
  wf_from lo bus → btree_remove b bus = Some bus' →
  ∃ e, e ∈ bus ∧ base e.1 = b ∧ wf_from lo bus' ∧ ∀ a, owner bus' a = if contains e a then None else owner bus a.
Proof.
  revert lo bus'. induction bus as [|[r d] bus IH]; intros lo bus'; [done|]. intros (H1 & H2 & H3 & H4). cbn [btree_remove].
  simpl in H1, H2. destruct (Z.eqb_spec (base r) b) as [E|E].
  - intros [= <-]. exists (r, d). split; [by left|]. split; [done|]. split.
    + eapply wf_from_mono; [|exact H4]. unfold ends. simpl. lia.
    + intros a. unfold owner. simpl. destruct (contains (r, d) a) eqn:Ea; [|done]. apply contains_spec in Ea.
      apply (owner_below (ends (r, d))); [done|lia].
  - destruct (btree_remove b bus) as [bus2|] eqn:Eb; [|done]. intros [= <-].
    destruct (IH _ _ H4 eq_refl) as (e & He & Hb & Hw & Ho). exists e. split; [by right|]. split; [done|]. split; [done|].
    intros a. unfold owner in *. simpl. destruct (contains (r, d) a) eqn:Ea; [|apply Ho].
    destruct (contains e a) eqn:Ee; [|done]. apply contains_spec in Ea, Ee.
    destruct (wf_from_base _ _ _ H4 He) as (? & _). lia.
Qed.

Lemma remove_missing lo bus b : wf_from lo bus → btree_remove b bus = None → ∀ e, e ∈ bus → base e.1 ≠ b.
Proof.
  intros _. induction bus as [|[r d] bus IH]; [by intros _ ? ?%not_elem_of_nil|]. cbn [btree_remove].
  destruct (Z.eqb_spec (base r) b); [done|]. destruct (btree_remove b bus); [done|]. intros _ e [->|He]%elem_of_cons; [done|auto].
Qed.

(** Only one range contains an address. *)
Lemma owner_unique lo bus e a : wf_from lo bus → e ∈ bus → contains e a = true → owner bus a = Some e.
Proof.
  revert lo. induction bus as [|e' bus IH]; intros lo; [by intros _ ?%not_elem_of_nil|].
  intros (H1 & H2 & H3 & H4) [->|He]%elem_of_cons Ha; unfold owner; simpl; [by rewrite Ha|].
  destruct (contains e' a) eqn:E; [|by apply (IH (ends e'))]. apply contains_spec in E, Ha.
  destruct (wf_from_base _ _ _ H4 He) as (? & _). lia.
Qed.

Lemma contains_base lo bus e : wf_from lo bus → e ∈ bus → contains e (base e.1) = true.
Proof. intros Hwf He. destruct (wf_from_base _ _ _ Hwf He) as (_ & ? & _). apply contains_spec. unfold ends. lia. Qed.

Definition removed (b l : Z) (bus : Bus) (r : res Error unit) (bus' : Bus) : Prop :=
  match r with
  | Ok _ => 0 < l ∧ ∃ e, owner bus b = Some e ∧ base e.1 = b ∧ ∀ a, owner bus' a = if contains e a then None else owner bus a
  | Err e => bus' = bus ∧ (e = ZeroSizedRange ∧ l = 0 ∨ e = MissingAddressRange ∧ ∀ e', e' ∈ bus → base e'.1 ≠ b)
  | _ => False
  end.

Lemma remove_run b l bus :
  wf bus → 0 ≤ l → ∃ r bus', remove b l bus = (r, bus') ∧ wf bus' ∧ removed b l bus r bus'.
Proof.
  intros Hwf Hl. unfold remove. destruct (Z.eqb_spec l 0) as [->|Hl0].
  { eexists _, _. split; [done|]. split; [done|]. split; [done|]. by left. }
  destruct (btree_remove b bus) as [bus'|] eqn:E; eexists _, _; (split; [done|]).
  - destruct (remove_entry 0 _ _ _ Hwf E) as (e & He & Hb & Hw & Ho). split; [done|]. split; [lia|]. exists e.
    rewrite <-Hb. split; [|done]. apply (owner_unique 0); [done|done|]. by apply (contains_base 0 bus).
  - split; [done|]. split; [done|]. right. split; [done|]. by apply (remove_missing 0).
Qed.

(** C28: in a table whose ranges are in order and disjoint an address is resolved to the live
    device whose range contains it and to its offset there; inserting succeeds exactly when
    the range is not empty and no address of it is taken, and routes these addresses and no
    others to the device; removing takes away the one range that starts at the base. *)
Theorem bus_routes alive bus :
  wf bus →
  (∀ a, resolve alive bus a = (e ← owner bus a; if alive e.2 then Some (base e.1, a - base e.1, e.2) else None)) ∧
  (∀ d b l, 0 ≤ b → 0 ≤ l → b + l < 2 ^ 64 → ∃ r bus', insert d b l bus = (r, bus') ∧ wf bus' ∧ inserted d b l bus r bus') ∧
  (∀ b l, 0 ≤ l → ∃ r bus', remove b l bus = (r, bus') ∧ wf bus' ∧ removed b l bus r bus').
Proof.
  intros Hwf. split_and!; [intros a; by apply resolve_owner|intros; by apply insert_run|intros; by apply remove_run].
Qed.

Definition sim_bus : Bus := [({| base := 16; len := 16 |}, 1); ({| base := 64; len := 4 |}, 2)].

Lemma bus_routes_witness :
  (∀ a, resolve (λ _, true) sim_bus a = (e ← owner sim_bus a; if true then Some (base e.1, a - base e.1, e.2) else None)) ∧
  (∀ d b l, 0 ≤ b → 0 ≤ l → b + l < 2 ^ 64 → ∃ r bus', insert d b l sim_bus = (r, bus') ∧ wf bus' ∧ inserted d b l sim_bus r bus') ∧
  (∀ b l, 0 ≤ l → ∃ r bus', remove b l sim_bus = (r, bus') ∧ wf bus' ∧ removed b l sim_bus r bus').
Proof. apply (bus_routes (λ _, true)). by repeat split. Defined.

(** ** Removing a device *)

(** A device that was dropped without being removed makes it panic. *)
Lemma dead_device_panics alive d bus e :
  e ∈ bus → alive e.2 = false → remove_by_device alive d bus = (Panic, bus).
Proof.
  intros He Ha. unfold remove_by_device. assert (keys_of alive d bus = Panic) as ->; [|done].
  induction bus as [|[r d'] bus IH]; [by apply not_elem_of_nil in He|]. cbn [keys_of].
  apply elem_of_cons in He as [->|He]; [simpl in Ha; by rewrite Ha|]. rewrite (IH He). by destruct (alive d').
Qed.

(** ** Moving a range *)

(** Moving a device to a range that overlaps another device reports the overlap and has
    removed the device from the bus. *)
Lemma update_range_loses alive bus ob ol nb nl d a :
  wf bus → 0 < ol → 0 ≤ nb → 0 ≤ nl → nb + nl < 2 ^ 64 →
  owner bus ob = Some ({| base := ob; len := ol |}, d) → alive d = true →
  nb ≤ a < nb + nl → (∃ e, owner bus a = Some e ∧ base e.1 ≠ ob) →
  ∃ bus', update_range alive ob ol nb nl bus = (Err Overlap, bus') ∧ wf bus' ∧ resolve alive bus' ob = None.
Proof.
  intros Hwf Hol Hnb Hnl Hu Ho Hd Ha (e & He & Hne). unfold update_range, mbind, M_bind, get. rewrite (resolve_owner alive bus ob Hwf), Ho. simpl. rewrite Hd.
  destruct (remove_run ob ol bus Hwf) as (r1 & bus1 & E1 & Hw1 & R1); [lia|]. rewrite E1.
  destruct r1 as [[]|x| |]; [|destruct R1 as [_ [[_ ?]|[_ Hx]]]; [lia|by destruct (Hx _ (proj1 (owner_elem _ _ _ Ho)))]|done..].
  destruct R1 as (_ & e1 & Ho1 & Hb1 & Hr). rewrite Ho in Ho1. injection Ho1 as <-.
  destruct (insert_run d nb nl bus1 Hw1 Hnb Hnl Hu) as (r2 & bus2 & E2 & Hw2 & R2). rewrite E2. 
  assert (owner bus1 a = Some e) as Hoa.
  { rewrite Hr. destruct (contains _ a) eqn:Ec; [|done]. apply owner_elem in Ho as [Ho _].
    rewrite (owner_unique 0 bus _ a Hwf Ho Ec) in He. by injection He as <-. }
  destruct r2 as [[]|x| |]; [destruct R2 as (_ & Hn & _); by rewrite (Hn a Ha) in Hoa| |done..].
  destruct R2 as [-> [[_ ->]|[-> _]]]; [lia|]. exists bus1. split; [done|]. split; [done|].
  rewrite (resolve_owner alive bus1 ob Hw1), Hr. by rewrite (proj2 (contains_spec _ ob)) by (unfold ends; simpl; lia).
Qed.

(** ** Two threads *)

(** [insert] looks at the table and changes it under two locks, so two threads can both
    insert a range although the ranges overlap, and both are told that they succeeded. *)
Theorem insert_race :
  ∃ order, let '(ths, bus) := schedule order [Start 1 16 16; Start 2 24 16] new in
  ths = [Finished (Ok tt); Finished (Ok tt)] ∧ ¬ wf bus ∧
  resolve (λ _, true) bus 20 = Some (16, 4, 1) ∧ resolve (λ _, true) bus 30 = Some (24, 6, 2).
Proof.
  exists [0; 1; 0; 1]%nat. vm_compute. split_and!; try done. intros (_ & _ & _ & H & _). by destruct H.
Qed.

(** With the same base the second insert takes over the range of the first and then reports
    an overlap. *)
Lemma insert_takes_over :
  let '(ths, bus) := schedule [0; 1; 0; 1]%nat [Start 1 16 16; Start 2 16 4] new in
  ths = [Finished (Ok tt); Finished (Err Overlap)] ∧ bus = [({| base := 16; len := 16 |}, 2)].
Proof. vm_compute. done. Qed.

End DeviceBus.
