(* ===== verification/Msix.v ===== *)
(** * Message-signalled interrupts

    Model of [pci/src/msix.rs]: the MSI-X table and its pending bits, the registers through
    which the guest reaches them, and the capability.  The interrupt source group that sends
    the messages is the class [InterruptSourceGroup].  [set_msg_ctl_spec] and
    [write_table_spec] say which methods of the group a write of the guest calls,
    [no_interrupt_lost] what that means for the interrupts of a virtio device
    ([virtio-devices/src/transport/pci_device.rs]); [table_roundtrip] and [cap_layout] are
    about the registers; [high_vector_panics] says that the mask of a pending bit is
    computed with 32 bits. *)

From S2P Require Import Prelude.

Module Msix.

Definition MAX_MSIX_VECTORS_PER_DEVICE : Z := 2048.
Definition FUNCTION_MASK_BIT : Z := 14.
Definition MSIX_ENABLE_BIT : Z := 15.

(** The errors of the group are not told apart. *)
Inductive Error := EnableInterruptRoute | UpdateInterruptRoute.

Record MsixTableEntry := { msg_addr_lo : Z; msg_addr_hi : Z; msg_data : Z; vector_ctl : Z }.

Global Instance entry_eq : EqDecision MsixTableEntry.
Proof. solve_decision. Defined.

Definition entry_masked (e : MsixTableEntry) : bool := Z.land (vector_ctl e) 1 =? 1.
Definition entry_default : MsixTableEntry := {| msg_addr_lo := 0; msg_addr_hi := 0; msg_data := 0; vector_ctl := 1 |}.

Record MsixConfigState := { s_table : list MsixTableEntry; s_pba : list Z; s_masked : bool; s_enabled : bool }.

(** [devid] is part of every message. *)
Record MsixConfig := { table_entries : list MsixTableEntry; pba_entries : list Z; devid : Z; masked : bool; enabled : bool }.

(** ** The interrupt source group *)
Record MsiIrqSourceConfig := { high_addr : Z; low_addr : Z; irq_data : Z; irq_devid : Z }.

(** [InterruptSourceGroup], on the state [G] of a group: whether a method succeeds, and the
    state after it.  [enable] and [disable] do nothing unless a group defines them. *)
Class InterruptSourceGroup (G : Type) := {
  g_enable : G → bool * G;
  g_disable : G → bool * G;
  g_trigger : Z → G → bool * G;
  g_update : Z → MsiIrqSourceConfig → bool → bool → G → bool * G;
  g_set_gsi : G → bool * G }.

Definition default_method {G} (g : G) : bool * G := (true, g).

(** [MaybeMutInterruptSourceGroup] forwards the methods its macro names; [enable] and
    [disable] are not among them. *)
Definition maybe_mut {G} `{InterruptSourceGroup G} : InterruptSourceGroup G :=
  {| g_enable := default_method; g_disable := default_method; g_trigger := g_trigger; g_update := g_update;
     g_set_gsi := g_set_gsi |}.

Section group.
Context {G : Type} {group_methods : InterruptSourceGroup G}.

(** The configuration and its group. *)
Record device := { config : MsixConfig; group : G }.

Definition call {E} (method : G → bool * G) : M device E bool := λ d,
  let '(ok, g) := method (group d) in (Ok ok, {| config := config d; group := g |}).

Definition source_config (devid : Z) (e : MsixTableEntry) : MsiIrqSourceConfig :=
  {| high_addr := msg_addr_hi e; low_addr := msg_addr_lo e; irq_data := msg_data e; irq_devid := devid |}.

(** ** Creating *)

Fixpoint restore_routes (devid idx : Z) (masked : bool) (entries : list MsixTableEntry) (g : G) : res Error unit * G :=
  match entries with
  | [] => (Ok tt, g)
  | e :: entries' =>
      if entry_masked e then restore_routes devid (idx + 1) masked entries' g
      else
        let '(ok, g1) := g_update (InterruptSourceGroup := maybe_mut) idx (source_config devid e) masked true g in
        if ok : bool then
          let '(ok', g2) := g_enable (InterruptSourceGroup := maybe_mut) g1 in
          if ok' : bool then restore_routes devid (idx + 1) masked entries' g2 else (Err EnableInterruptRoute, g2)
        else (Err UpdateInterruptRoute, g1)
  end.

Definition new (msix_vectors devid : Z) (state : option MsixConfigState) (g : G) : res Error MsixConfig * G :=
  if MAX_MSIX_VECTORS_PER_DEVICE <? msix_vectors then (Panic, g)
  else match state with
  | Some s =>
      let '(r, g') := if s_enabled s && negb (s_masked s) then restore_routes devid 0 (s_masked s) (s_table s) g else (Ok tt, g) in
      (_ ← r; Ok {| table_entries := s_table s; pba_entries := s_pba s; devid := devid; masked := s_masked s; enabled := s_enabled s |}, g')
  | None =>
      (Ok {| table_entries := zreplicate msix_vectors entry_default; pba_entries := zreplicate (msix_vectors / 64 + 1) 0;
             devid := devid; masked := true; enabled := false |}, g)
  end.

Definition state (c : MsixConfig) : MsixConfigState :=
  {| s_table := table_entries c; s_pba := pba_entries c; s_masked := masked c; s_enabled := enabled c |}.

(** ** Pending bits *)

Definition set_config (f : MsixConfig → MsixConfig) : device → device := λ d, {| config := f (config d); group := group d |}.
Definition set_pba (l : list Z) (c : MsixConfig) : MsixConfig :=
  {| table_entries := table_entries c; pba_entries := l; devid := devid c; masked := masked c; enabled := enabled c |}.
Definition set_table (l : list MsixTableEntry) (c : MsixConfig) : MsixConfig :=
  {| table_entries := l; pba_entries := pba_entries c; devid := devid c; masked := masked c; enabled := enabled c |}.

(** [(1 << shift) as u64]: the literal is an [i32], so that a shift of 32 or more overflows
    and one of 31 gives a negative number, which the cast extends. *)
Definition pba_mask {E} (shift : Z) : res E Z :=
  if shift <? 31 then Ok (2 ^ shift) else if shift =? 31 then Ok (2 ^ 64 - 2 ^ 31) else Panic.

Definition set_pba_bit {E} (vector : Z) (reset : bool) : M device E unit :=
  if MAX_MSIX_VECTORS_PER_DEVICE <=? vector then lift Panic
  else
    d ← get;
    mask ← lift (pba_mask (vector mod 64));
    w ← lift (vget (pba_entries (config d)) (vector / 64));
    modify (set_config (set_pba (zset (pba_entries (config d)) (vector / 64)
      (if reset then Z.land w (unot mask) else Z.lor w mask)))).

Definition get_pba_bit {E} (c : MsixConfig) (vector : Z) : res E Z :=
  if MAX_MSIX_VECTORS_PER_DEVICE <=? vector then Panic
  else w ← vget (pba_entries c) (vector / 64); Ok (Z.land (Z.shiftr w (vector mod 64)) 1).

Definition inject_msix_and_clear_pba {E} (vector : Z) : M device E unit := _ ← call (g_trigger (InterruptSourceGroup := maybe_mut) vector); set_pba_bit (vector mod 2 ^ 16) true.

(** ** The message control register *)

Fixpoint update_routes {E} (idx : Z) (entries : list MsixTableEntry) : M device E unit :=
  match entries with
  | [] => mret tt
  | e :: entries' =>
      d ← get; _ ← call (g_update (InterruptSourceGroup := maybe_mut) idx (source_config (devid (config d)) e) (entry_masked e) true); update_routes (idx + 1) entries'
  end.

Fixpoint inject_pending {E} (index : Z) (entries : list MsixTableEntry) : M device E unit :=
  match entries with
  | [] => mret tt
  | e :: entries' =>
      _ ← (if entry_masked e then mret tt
           else d ← get; b ← lift (get_pba_bit (config d) (index mod 2 ^ 16)); if b =? 1 then inject_msix_and_clear_pba index else mret tt);
      inject_pending (index + 1) entries'
  end.

Definition set_msg_ctl {E} (reg : Z) : M device E unit :=
  d ← get;
  let old := config d in
  let masked' := Z.land (Z.shiftr reg FUNCTION_MASK_BIT) 1 =? 1 in
  let enabled' := Z.land (Z.shiftr reg MSIX_ENABLE_BIT) 1 =? 1 in
  _ ← modify (set_config (λ c, {| table_entries := table_entries c; pba_entries := pba_entries c; devid := devid c;
                                   masked := masked'; enabled := enabled' |}));
  _ ← (if negb (Bool.eqb (masked old) masked') || negb (Bool.eqb (enabled old) enabled') then
         if enabled' && negb masked' then update_routes 0 (table_entries old)
         else if enabled old || negb (masked old) then _ ← call (g_disable (InterruptSourceGroup := maybe_mut)); mret tt
         else mret tt
       else mret tt);
  if masked old && negb masked' then inject_pending 0 (table_entries old) else mret tt.

(** ** Accesses of the guest *)

(** The bytes that a read leaves in a buffer of [n] bytes. *)
Definition read_table {E} (c : MsixConfig) (offset n : Z) : res E (list Z) :=
  if negb ((n =? 4) || (n =? 8)) then Panic
  else
    let index := offset / 16 in
    let o := offset mod 16 in
    match znth (table_entries c) index with
    | None => Ok (zreplicate n 0xff)
    | Some e =>
        if n =? 4 then
          Ok (le_bytes 4 (if o =? 0 then msg_addr_lo e else if o =? 4 then msg_addr_hi e
                          else if o =? 8 then msg_data e else if o =? 12 then vector_ctl e else 0))
        else
          Ok (le_bytes 8 (if o =? 0 then Z.lor (Z.shiftl (msg_addr_hi e) 32) (msg_addr_lo e)
                          else if o =? 8 then Z.lor (Z.shiftl (vector_ctl e) 32) (msg_data e) else 0))
    end.

(** The entry after the bytes were stored. *)
Definition written (e : MsixTableEntry) (o : Z) (data : list Z) : MsixTableEntry :=
  let v := of_le_bytes data in
  if zlen data =? 4 then
    {| msg_addr_lo := if o =? 0 then v else msg_addr_lo e; msg_addr_hi := if o =? 4 then v else msg_addr_hi e;
       msg_data := if o =? 8 then v else msg_data e; vector_ctl := if o =? 12 then v else vector_ctl e |}
  else if o =? 0 then
    {| msg_addr_lo := Z.land v 0xffffffff; msg_addr_hi := Z.shiftr v 32; msg_data := msg_data e; vector_ctl := vector_ctl e |}
  else if o =? 8 then
    {| msg_addr_lo := msg_addr_lo e; msg_addr_hi := msg_addr_hi e; msg_data := Z.land v 0xffffffff; vector_ctl := Z.shiftr v 32 |}
  else e.

Definition write_table {E} (offset : Z) (data : list Z) : M device E unit :=
  if negb ((zlen data =? 4) || (zlen data =? 8)) then lift Panic
  else
    d ← get;
    let index := offset / 16 in
    match znth (table_entries (config d)) index with
    | None => mret tt
    | Some old =>
        let e := written old (offset mod 16) data in
        _ ← modify (set_config (set_table (zset (table_entries (config d)) index e)));
        if decide (old = e) then mret tt
        else
          let on := enabled (config d) && negb (masked (config d)) in
          _ ← (if on && negb (entry_masked e) then
                 _ ← call (g_update (InterruptSourceGroup := maybe_mut) index (source_config (devid (config d)) e) (entry_masked e) true); mret tt
               else mret tt);
          if on && entry_masked old && negb (entry_masked e) then
            d' ← get; b ← lift (get_pba_bit (config d') (index mod 2 ^ 16)); if b =? 1 then inject_msix_and_clear_pba index else mret tt
          else mret tt
    end.

Definition read_pba {E} (c : MsixConfig) (offset n : Z) : res E (list Z) :=
  if negb ((n =? 4) || (n =? 8)) then Panic
  else
    let o := offset mod 8 in
    match znth (pba_entries c) (offset / 8) with
    | None => Ok (zreplicate n 0xff)
    | Some w =>
        if n =? 4 then Ok (le_bytes 4 (if o =? 0 then Z.land w 0xffffffff else if o =? 4 then Z.shiftr w 32 else 0))
        else Ok (le_bytes 8 (if o =? 0 then w else 0))
    end.

(** ** Interrupts of a virtio device *)

(** [VirtioInterruptMsix]; the group it holds is the group of the configuration. *)
Record VirtioInterruptMsix := { config_vector : Z; queues_vectors : list Z }.

Inductive VirtioInterruptType := Config | Queue (index : Z).

Definition VIRTQ_MSI_NO_VECTOR : Z := 0xffff.

Definition trigger (v : VirtioInterruptMsix) (int_type : VirtioInterruptType) : M device unit unit :=
  vector ← lift (match int_type with Config => Ok (config_vector v) | Queue i => vget (queues_vectors v) i end);
  if vector =? VIRTQ_MSI_NO_VECTOR then mret tt
  else
    d ← get;
    entry ← lift (vget (table_entries (config d)) vector);
    if masked (config d) || entry_masked entry then set_pba_bit vector false
    else ok ← call (g_trigger (InterruptSourceGroup := maybe_mut) vector); if ok : bool then mret tt else lift (Err tt).
End group.
Arguments device : clear implicits.

(** ** The capability *)
Record MsixCap := { msg_ctl : Z; table : Z; pba : Z }.

Definition u16_add {E} (x y : Z) : res E Z := if x + y <? 2 ^ 16 then Ok (x + y) else Panic.
Definition u16_sub {E} (x y : Z) : res E Z := if y <=? x then Ok (x - y) else Panic.
Definition u32_add {E} (x y : Z) : res E Z := if x + y <? 2 ^ 32 then Ok (x + y) else Panic.

Definition cap_new {E} (table_pci_bar table_size table_off pba_pci_bar pba_off : Z) : res E MsixCap :=
  if MAX_MSIX_VECTORS_PER_DEVICE <=? table_size then Panic
  else
    s ← u16_add 0x8000 table_size;
    ctl ← u16_sub s 1;
    Ok {| msg_ctl := ctl; table := Z.lor (Z.land table_off 0xfffffff8) (Z.land table_pci_bar 7);
          pba := Z.lor (Z.land pba_off 0xfffffff8) (Z.land pba_pci_bar 7) |}.

Definition CTL_MASK : Z := Z.lor (Z.shiftl 1 FUNCTION_MASK_BIT) (Z.shiftl 1 MSIX_ENABLE_BIT).
Definition cap_set_msg_ctl (data : Z) (c : MsixCap) : MsixCap :=
  {| msg_ctl := Z.lor (Z.land (msg_ctl c) (2 ^ 16 - 1 - CTL_MASK)) (Z.land data CTL_MASK); table := table c; pba := pba c |}.
Definition cap_masked (c : MsixCap) : bool := Z.land (Z.shiftr (msg_ctl c) FUNCTION_MASK_BIT) 1 =? 1.
Definition cap_enabled (c : MsixCap) : bool := Z.land (Z.shiftr (msg_ctl c) MSIX_ENABLE_BIT) 1 =? 1.
Definition table_offset (c : MsixCap) : Z := Z.land (table c) 0xfffffff8.
Definition pba_offset (c : MsixCap) : Z := Z.land (pba c) 0xfffffff8.
Definition table_set_offset {E} (addr : Z) (c : MsixCap) : res E MsixCap :=
  t ← u32_add (Z.land (table c) 7) addr; Ok {| msg_ctl := msg_ctl c; table := t; pba := pba c |}.
Definition pba_set_offset {E} (addr : Z) (c : MsixCap) : res E MsixCap :=
  t ← u32_add (Z.land (pba c) 7) addr; Ok {| msg_ctl := msg_ctl c; table := table c; pba := t |}.
Definition table_bir (c : MsixCap) : Z := Z.land (table c) 7.
Definition pba_bir (c : MsixCap) : Z := Z.land (pba c) 7.
Definition table_size (c : MsixCap) : Z := Z.land (msg_ctl c) 0x7ff + 1.
Definition table_range (c : MsixCap) : Z * Z := (table_offset c, table_size c * 16).
Definition pba_range (c : MsixCap) : Z * Z := (pba_offset c, (table_size c / 64 + 1) * 8).

(** ** What the writes of the guest do *)

(** The calls of a group, in the order they are made. *)
Inductive group_call :=
| CallUpdate (index : Z) (c : MsiIrqSourceConfig) (masked : bool)
| CallTrigger (index : Z).

Definition run_call {G} `{InterruptSourceGroup G} (c : group_call) (g : G) : G :=
  match c with CallUpdate i c m => (g_update i c m true g).2 | CallTrigger i => (g_trigger i g).2 end.

Fixpoint run_calls {G} `{InterruptSourceGroup G} (l : list group_call) (g : G) : G :=
  match l with [] => g | c :: l' => run_calls l' (run_call c g) end.

Definition pending (c : MsixConfig) (i : Z) : bool :=
  match znth (pba_entries c) (i / 64) with Some w => Z.testbit w (i mod 64) | None => false end.

(** The vectors that are not masked and that [pend] says are pending. *)
Fixpoint deliverable (pend : Z → bool) (index : Z) (entries : list MsixTableEntry) : list Z :=
  match entries with
  | [] => []
  | e :: entries' => (if negb (entry_masked e) && pend index then [index] else []) ++ deliverable pend (index + 1) entries'
  end.

Fixpoint updates (devid index : Z) (entries : list MsixTableEntry) : list group_call :=
  match entries with
  | [] => []
  | e :: entries' => CallUpdate index (source_config devid e) (entry_masked e) :: updates devid (index + 1) entries'
  end.

(** The table and its pending bits have the sizes that [new] gives them; a vector whose
    pending bit is above the 31st of its word is never to be delivered. *)
Record well_sized (c : MsixConfig) : Prop := {
  ws_table : zlen (table_entries c) ≤ MAX_MSIX_VECTORS_PER_DEVICE;
  ws_pba : zlen (pba_entries c) = zlen (table_entries c) / 64 + 1 }.

Definition low_pending (c : MsixConfig) : Prop := ∀ i, 0 ≤ i < zlen (table_entries c) → pending c i = true → i mod 64 < 31.

(** [c'] is [c] without the pending bits of [delivered]. *)
Record cleared (delivered : list Z) (c c' : MsixConfig) : Prop := {
  cl_table : table_entries c' = table_entries c;
  cl_devid : devid c' = devid c;
  cl_masked : masked c' = masked c;
  cl_enabled : enabled c' = enabled c;
  cl_size : zlen (pba_entries c') = zlen (pba_entries c);
  cl_pending : ∀ i, 0 ≤ i → pending c' i = pending c i && negb (bool_decide (i ∈ delivered)) }.

Definition with_ctl (reg : Z) (c : MsixConfig) : MsixConfig :=
  {| table_entries := table_entries c; pba_entries := pba_entries c; devid := devid c;
     masked := Z.testbit reg FUNCTION_MASK_BIT; enabled := Z.testbit reg MSIX_ENABLE_BIT |}.

(** ** Interrupts over time *)

(** A group that records, newest first, the vectors the device raises and those it sends. *)
Inductive item := Raised (vector : Z) | Sent (vector : Z).

#[local] Instance recorder : InterruptSourceGroup (list item) :=
  {| g_enable := default_method; g_disable := default_method; g_trigger := λ v l, (true, Sent v :: l);
     g_update := λ _ _ _ _ l, (true, l); g_set_gsi := default_method |}.

(** A vector is owed when it was raised after it was last sent. *)
Fixpoint owed (v : Z) (l : list item) : bool :=
  match l with
  | [] => false
  | Raised v' :: l' => if v =? v' then true else owed v l'
  | Sent v' :: l' => if v =? v' then false else owed v l'
  end.

(** What the device and the guest do. *)
Inductive event :=
| Raise (v : VirtioInterruptMsix) (ty : VirtioInterruptType)
| WriteCtl (reg : Z)
| WriteTable (offset : Z) (data : list Z).

Definition vector_of (v : VirtioInterruptMsix) (ty : VirtioInterruptType) : option Z :=
  match ty with Config => Some (config_vector v) | Queue i => znth (queues_vectors v) i end.

Definition note_raised (v : VirtioInterruptMsix) (ty : VirtioInterruptType) (d : device (list item)) : device (list item) :=
  match vector_of v ty with
  | Some i => if i =? VIRTQ_MSI_NO_VECTOR then d else {| config := config d; group := Raised i :: group d |}
  | None => d
  end.

Definition step (e : event) (d : device (list item)) : res unit unit * device (list item) :=
  match e with
  | Raise v ty => trigger v ty (note_raised v ty d)
  | WriteCtl reg => set_msg_ctl reg d
  | WriteTable offset data => write_table offset data d
  end.

Fixpoint run (l : list event) (d : device (list item)) : res unit unit * device (list item) :=
  match l with
  | [] => (Ok tt, d)
  | e :: l' => match step e d with (Ok _, d') => run l' d' | r => r end
  end.

(** The device raises vectors of its table of [n] entries, whose pending bit is not above the
    31st of its word, and the guest writes 4 or 8 bytes. *)
Definition ordinary (n : Z) (e : event) : Prop :=
  match e with
  | Raise v ty => ∃ i, vector_of v ty = Some i ∧ (i = VIRTQ_MSI_NO_VECTOR ∨ 0 ≤ i < n ∧ i mod 64 < 31)
  | WriteCtl _ => True
  | WriteTable _ data => zlen data = 4 ∨ zlen data = 8
  end.

(** The entries that the guest writes while MSI-X is off and the function is not masked. *)
Definition writes_off (e : event) (d : device (list item)) : list Z :=
  match e with
  | WriteTable offset _ => if enabled (config d) || masked (config d) then [] else [offset / 16]
  | _ => []
  end.

Fixpoint written_off (l : list event) (d : device (list item)) : list Z :=
  match l with [] => [] | e :: l' => writes_off e d ++ written_off l' (step e d).2 end.

(** What holds when the entries of [off] were written while MSI-X was off. *)
Record exact (n : Z) (off : list Z) (d : device (list item)) : Prop := {
  ex_table : zlen (table_entries (config d)) = n;
  ex_sized : well_sized (config d);
  ex_kept : ∀ v, 0 ≤ v → owed v (group d) = true → pending (config d) v = true;
  ex_owed : ∀ v, 0 ≤ v → v ∉ off → pending (config d) v = owed v (group d);
  ex_low : low_pending (config d);
  ex_held : ∀ v e, v ∉ off → pending (config d) v = true → masked (config d) = false →
            znth (table_entries (config d)) v = Some e → entry_masked e = true }.

Section delivery.
Context {G : Type} `{InterruptSourceGroup G} {E : Type}.
Implicit Types (d : device G) (c : MsixConfig).

Lemma run_calls_app l1 l2 (g : G) : run_calls (l1 ++ l2) g = run_calls l2 (run_calls l1 g).
Proof. revert g. induction l1 as [|x l1 IH]; intros g; [done|apply IH]. Qed.

Lemma call_run {E'} (m : G → bool * G) d :
  call (E := E') m d = (Ok (m (group d)).1, {| config := config d; group := (m (group d)).2 |}).
Proof. unfold call. by destruct (m (group d)). Qed.

Lemma word_of c i : well_sized c → 0 ≤ i < zlen (table_entries c) → ∃ w, znth (pba_entries c) (i / 64) = Some w.
Proof.
  intros [Ht Hp] Hi. apply znth_is_Some. rewrite Hp.
  pose proof (Z.div_le_mono i (zlen (table_entries c)) 64). pose proof (Z.div_pos i 64). lia.
Qed.

Lemma bit_value w k : 0 ≤ k → Z.land (Z.shiftr w k) 1 = Z.b2z (Z.testbit w k).
Proof.
  intros Hk. rewrite Z.testbit_spec', Z.shiftr_div_pow2 by done.
  change 1 with (Z.ones 1) at 1. by rewrite Z.land_ones by lia.
Qed.

Lemma bit_set w k : 0 ≤ k → (Z.land (Z.shiftr w k) 1 =? 1) = Z.testbit w k.
Proof. intros Hk. rewrite bit_value by done. by destruct (Z.testbit w k). Qed.

Lemma get_pba_bit_pending c i :
  well_sized c → 0 ≤ i < zlen (table_entries c) → @get_pba_bit E c i = Ok (Z.b2z (pending c i)).
Proof.
  intros Hw Hi. destruct (word_of c i Hw Hi) as [w Hwd]. pose proof (ws_table _ Hw).
  unfold get_pba_bit, pending. rewrite (proj2 (Z.leb_gt _ _)) by lia.
  unfold vget. rewrite Hwd. cbn. by rewrite bit_value by (apply Z.mod_pos_bound; lia).
Qed.

Lemma testbit_cleared w k j :
  0 ≤ k < 63 → 0 ≤ j < 64 → Z.testbit (Z.land w (unot (2 ^ k))) j = Z.testbit w j && negb (k =? j).
Proof.
  intros Hk Hj. rewrite Z.land_spec. f_equal.
  replace (unot (2 ^ k)) with (Z.ldiff (Z.ones 64) (2 ^ k)).
  - rewrite Z.ldiff_spec, Z.ones_spec_low, Z.pow2_bits_eqb by lia. done.
  - rewrite <-Z.sub_nocarry_ldiff; [unfold unot, U64_MAX; rewrite Z.ones_equiv; lia|].
    apply Z.bits_inj'. intros n Hn. rewrite Z.ldiff_spec, Z.pow2_bits_eqb, Z.bits_0 by lia.
    destruct (Z.eqb_spec k n); [|done]. rewrite Z.ones_spec_low by lia. done.
Qed.

Lemma set_pba_bit_run d i reset w :
  well_sized (config d) → 0 ≤ i < zlen (table_entries (config d)) → i mod 64 < 31 →
  znth (pba_entries (config d)) (i / 64) = Some w →
  set_pba_bit (E := E) i reset d =
    (Ok tt, {| config := set_pba (zset (pba_entries (config d)) (i / 64)
                 (if reset then Z.land w (unot (2 ^ (i mod 64))) else Z.lor w (2 ^ (i mod 64)))) (config d);
               group := group d |}).
Proof.
  intros Hw Hi Hl Hwd. pose proof (ws_table _ Hw).
  assert (@pba_mask E (i mod 64) = Ok (2 ^ (i mod 64))) as Hm by (unfold pba_mask; by rewrite (proj2 (Z.ltb_lt _ _)) by lia).
  assert (@vget E _ (pba_entries (config d)) (i / 64) = Ok w) as Hv by (by apply vget_Ok).
  unfold set_pba_bit. rewrite (proj2 (Z.leb_gt _ _)) by lia.
  erewrite m_bind_run by reflexivity. rewrite Hm. erewrite m_bind_run by reflexivity.
  rewrite Hv. erewrite m_bind_run by reflexivity. done.
Qed.

(** A pending bit after its word was written. *)
Lemma pending_set c i w j :
  znth (pba_entries c) (i / 64) = Some w → 0 ≤ i → 0 ≤ j →
  ∀ w', pending (set_pba (zset (pba_entries c) (i / 64) w') c) j =
        if i / 64 =? j / 64 then Z.testbit w' (j mod 64) else pending c j.
Proof.
  intros Hwd Hi Hj w'. unfold pending. cbn. rewrite znth_zset by (by eapply znth_Some_lt).
  by destruct (i / 64 =? j / 64).
Qed.

Lemma same_bit i j : 0 ≤ i → 0 ≤ j → i / 64 = j / 64 → (i mod 64 =? j mod 64) = (j =? i).
Proof.
  intros Hi Hj Hq. pose proof (Z.div_mod i 64). pose proof (Z.div_mod j 64).
  destruct (Z.eqb_spec (i mod 64) (j mod 64)), (Z.eqb_spec j i); congruence || lia.
Qed.

Lemma set_pba_bit_clears d i :
  well_sized (config d) → 0 ≤ i < zlen (table_entries (config d)) → i mod 64 < 31 →
  ∃ c', set_pba_bit (E := E) i true d = (Ok tt, {| config := c'; group := group d |}) ∧ cleared [i] (config d) c'.
Proof.
  intros Hw Hi Hl. destruct (word_of _ i Hw Hi) as [w Hwd]. rewrite (set_pba_bit_run d i true w) by done.
  eexists. split; [reflexivity|]. split; cbn; try done; [apply zlen_zset|]. intros j Hj.
  pose proof (Z.mod_pos_bound i 64). pose proof (Z.mod_pos_bound j 64).
  rewrite (bool_decide_ext (j ∈ [i]) (j = i)) by apply list_elem_of_singleton.
  replace (bool_decide (j = i)) with (j =? i) by (destruct (Z.eqb_spec j i); by case_bool_decide).
  rewrite (pending_set _ i w) by (done || lia). destruct (Z.eqb_spec (i / 64) (j / 64)) as [Hq|Hq].
  - rewrite testbit_cleared, same_bit by (done || lia). unfold pending. by rewrite <-Hq, Hwd.
  - replace (j =? i) with false by (symmetry; apply Z.eqb_neq; congruence). by rewrite andb_true_r.
Qed.

Lemma cleared_refl c : cleared [] c c.
Proof. split; try done. intros i _. by rewrite andb_true_r. Qed.

Lemma cleared_trans l1 l2 c1 c2 c3 : cleared l1 c1 c2 → cleared l2 c2 c3 → cleared (l1 ++ l2) c1 c3.
Proof.
  intros H1 H2. split; try (etrans; [apply H2|apply H1]).
  intros i Hi. rewrite (cl_pending _ _ _ H2), (cl_pending _ _ _ H1), <-andb_assoc by done. f_equal.
  rewrite <-negb_orb. f_equal.
  destruct (decide (i ∈ l1)), (decide (i ∈ l2)); repeat case_bool_decide; set_solver.
Qed.

Lemma cleared_sized l c c' : cleared l c c' → well_sized c → well_sized c'.
Proof. intros [Ht _ _ _ Hs _] [H1 H2]. split; [by rewrite Ht|by rewrite Hs, Ht]. Qed.

Lemma cleared_low l c c' : cleared l c c' → low_pending c → low_pending c'.
Proof.
  intros Hc Hl i Hi. rewrite (cl_table _ _ _ Hc) in Hi. rewrite (cl_pending _ _ _ Hc) by lia.
  intros [Hp _]%andb_prop. auto.
Qed.

Lemma deliverable_ext (p1 p2 : Z → bool) k l : (∀ i, k ≤ i → p1 i = p2 i) → deliverable p1 k l = deliverable p2 k l.
Proof.
  revert k. induction l as [|e l IH]; intros k Hp; [done|]. cbn. rewrite (Hp k) by lia. f_equal.
  apply IH. intros i Hi. apply Hp. lia.
Qed.

(** One vector: sent and cleared when it is pending. *)
Lemma inject_vector d i :
  well_sized (config d) → 0 ≤ i < zlen (table_entries (config d)) → pending (config d) i = true → i mod 64 < 31 →
  ∃ c', inject_msix_and_clear_pba (E := E) i d = (Ok tt, {| config := c'; group := run_call (CallTrigger i) (group d) |})
        ∧ cleared [i] (config d) c'.
Proof.
  intros Hw Hi Hp Hl. pose proof (ws_table _ Hw). unfold MAX_MSIX_VECTORS_PER_DEVICE in *.
  unfold inject_msix_and_clear_pba. rewrite (Z.mod_small i) by lia.
  erewrite m_bind_run by apply call_run. cbn [g_trigger maybe_mut].
  apply (set_pba_bit_clears {| config := config d; group := (g_trigger i (group d)).2 |} i); done.
Qed.

Lemma inject_pending_spec entries k d :
  well_sized (config d) → low_pending (config d) → 0 ≤ k → k + zlen entries ≤ zlen (table_entries (config d)) →
  let l := deliverable (pending (config d)) k entries in
  ∃ c', inject_pending (E := E) k entries d = (Ok tt, {| config := c'; group := run_calls (CallTrigger <$> l) (group d) |})
        ∧ cleared l (config d) c'.
Proof.
  revert k d. induction entries as [|e entries IH]; intros k d Hw Hl Hk Hlen; cbn [deliverable inject_pending].
  { exists (config d). split; [by destruct d|apply cleared_refl]. }
  rewrite zlen_cons in Hlen. pose proof (zlen_nonneg entries). pose proof (ws_table _ Hw).
  unfold MAX_MSIX_VECTORS_PER_DEVICE in *.
  destruct (entry_masked e) eqn:He; cbn [negb andb app].
  { erewrite m_bind_run by reflexivity. apply IH; [done..|lia|lia]. }
  destruct (pending (config d) k) eqn:Hp; cbn [app].
  - destruct (inject_vector d k) as (c1 & Hr & Hc); [done|lia|done|apply Hl; [lia|done]|].
    erewrite m_bind_run.
    2:{ erewrite m_bind_run by reflexivity. rewrite Z.mod_small, get_pba_bit_pending, Hp by (done || lia).
        erewrite m_bind_run by reflexivity. exact Hr. }
    destruct (IH (k + 1) {| config := c1; group := run_call (CallTrigger k) (group d) |}) as (c2 & Hr2 & Hc2); cbn.
    { by eapply cleared_sized. } { by eapply cleared_low. } { lia. } { rewrite (cl_table _ _ _ Hc). lia. }
    cbn in Hr2, Hc2.
    assert (deliverable (pending c1) (k + 1) entries = deliverable (pending (config d)) (k + 1) entries) as Hd.
    { apply deliverable_ext. intros i Hi. rewrite (cl_pending _ _ _ Hc) by lia.
      rewrite bool_decide_eq_false_2; [by rewrite andb_true_r|]. intros Hb%list_elem_of_singleton. lia. }
    rewrite Hd in Hr2, Hc2. exists c2. split; [exact Hr2|]. exact (cleared_trans [k] _ _ _ _ Hc Hc2).
  - erewrite m_bind_run.
    2:{ erewrite m_bind_run by reflexivity. rewrite Z.mod_small, get_pba_bit_pending, Hp by (done || lia).
        erewrite m_bind_run by reflexivity. reflexivity. }
    apply IH; [done..|lia|lia].
Qed.

Lemma update_routes_spec entries k d :
  update_routes (E := E) k entries d =
    (Ok tt, {| config := config d; group := run_calls (updates (devid (config d)) k entries) (group d) |}).
Proof.
  revert k d. induction entries as [|e entries IH]; intros k d; cbn [update_routes updates]; [by destruct d|].
  erewrite m_bind_run by reflexivity.
  erewrite m_bind_run by apply call_run.
  rewrite IH. done.
Qed.

(** A write of the message control register updates the routes of all vectors when it
    switches MSI-X on, and sends the pending vectors that are not masked when it clears the
    function mask.  Switching MSI-X off calls nothing. *)
Lemma set_msg_ctl_spec reg d :
  well_sized (config d) → low_pending (config d) →
  let c := config d in
  let c' := with_ctl reg c in
  let u := if negb (Bool.eqb (masked c) (masked c') && Bool.eqb (enabled c) (enabled c')) && (enabled c' && negb (masked c'))
           then updates (devid c) 0 (table_entries c) else [] in
  let l := if masked c && negb (masked c') then deliverable (pending c) 0 (table_entries c) else [] in
  ∃ c'', set_msg_ctl (E := E) reg d = (Ok tt, {| config := c''; group := run_calls (u ++ (CallTrigger <$> l)) (group d) |})
         ∧ cleared l c' c''.
Proof.
  intros Hw Hl c c' u l. unfold set_msg_ctl. erewrite m_bind_run by reflexivity.
  rewrite !bit_set by (unfold FUNCTION_MASK_BIT, MSIX_ENABLE_BIT; lia).
  set (d1 := {| config := c'; group := group d |}).
  erewrite m_bind_run with (a := tt) (s' := d1) by reflexivity.
  change (Z.testbit reg FUNCTION_MASK_BIT) with (masked c'). change (Z.testbit reg MSIX_ENABLE_BIT) with (enabled c').
  fold c. rewrite <-negb_andb.
  erewrite m_bind_run with (a := tt) (s' := {| config := c'; group := run_calls u (group d) |}).
  - rewrite run_calls_app. destruct (masked c && negb (masked c')) eqn:Hm; subst l; [|].
    + apply (inject_pending_spec (table_entries c) 0 {| config := c'; group := run_calls u (group d) |}); try done.
      by destruct Hw.
    + exists c'. split; [done|apply cleared_refl].
  - subst u. destruct (negb (Bool.eqb (masked c) (masked c') && Bool.eqb (enabled c) (enabled c'))); [|done].
    cbn [andb]. destruct (enabled c' && negb (masked c')); [apply (update_routes_spec _ _ d1)|].
    destruct (enabled c || negb (masked c)); [|done]. done.
Qed.

(** A write of a table entry updates its route when the entry is not masked afterwards, and
    sends its vector when the write unmasks it while it is pending. *)
Lemma write_table_spec offset data d old :
  well_sized (config d) → low_pending (config d) → zlen data = 4 ∨ zlen data = 8 →
  let c := config d in
  let i := offset / 16 in
  znth (table_entries c) i = Some old →
  let e := written old (offset mod 16) data in
  let on := enabled c && negb (masked c) in
  let u := if on && negb (bool_decide (old = e)) && negb (entry_masked e) then [CallUpdate i (source_config (devid c) e) false] else [] in
  let l := if on && entry_masked old && negb (entry_masked e) && pending c i then [i] else [] in
  ∃ c', write_table (E := E) offset data d = (Ok tt, {| config := c'; group := run_calls (u ++ (CallTrigger <$> l)) (group d) |})
        ∧ cleared l (set_table (zset (table_entries c) i e) c) c'.
Proof.
  intros Hw Hl Hn c i Hold e on u l. pose proof (znth_Some_lt _ _ _ Hold) as Hi. pose proof (ws_table _ Hw : zlen (table_entries c) ≤ _) as Ht.
  unfold write_table. replace ((zlen data =? 4) || (zlen data =? 8)) with true by (destruct Hn as [-> | ->]; done).
  cbn [negb]. erewrite m_bind_run by reflexivity. fold c i. rewrite Hold. fold e.
  set (c1 := set_table (zset (table_entries c) i e) c).
  erewrite m_bind_run with (a := tt) (s' := {| config := c1; group := group d |}) by reflexivity.
  subst u l. destruct (decide (old = e)) as [Heq|Hne].
  { rewrite bool_decide_eq_true_2 by done. rewrite <-Heq.
    replace (on && entry_masked old && negb (entry_masked old)) with false by (destruct on, (entry_masked old); done).
    cbn [negb]. rewrite !andb_false_r. cbn [andb app fmap list_fmap]. exists c1. split; [done|apply cleared_refl]. }
  rewrite bool_decide_eq_false_2 by done. cbn [negb]. rewrite andb_true_r. fold on.
  set (u := if on && negb (entry_masked e) then [CallUpdate _ _ _] else []).
  erewrite m_bind_run with (a := tt) (s' := {| config := c1; group := run_calls u (group d) |}).
  2:{ subst u. destruct (on && negb (entry_masked e)) eqn:Ho; [|done]. apply andb_prop in Ho as [_ ->%negb_true_iff].
      erewrite m_bind_run by apply call_run. done. }
  rewrite run_calls_app.
  destruct (on && entry_masked old && negb (entry_masked e)) eqn:Hf; cbn [andb].
  2:{ exists c1. split; [done|apply cleared_refl]. }
  assert (well_sized c1) as Hw1 by (split; cbn; rewrite !zlen_zset; apply Hw).
  assert (0 ≤ i < zlen (table_entries c1)) as Hi1 by (cbn; by rewrite zlen_zset).
  unfold MAX_MSIX_VECTORS_PER_DEVICE in *.
  erewrite m_bind_run by reflexivity. rewrite Z.mod_small by lia.
  cbn [config]. rewrite get_pba_bit_pending by done. erewrite m_bind_run by reflexivity.
  change (pending c1 i) with (pending c i). destruct (pending c i) eqn:Hp; cbn [Z.b2z Z.eqb Pos.eqb].
  - apply (inject_vector {| config := c1; group := run_calls u (group d) |} i); [done..|]. by apply Hl.
  - exists c1. split; [done|apply cleared_refl].
Qed.

(** *** The calls of an operation, whatever its result *)
Definition calls_only {E' A} (m : M (device G) E' A) : Prop := ∀ d, ∃ l, group (m d).2 = run_calls l (group d).

Lemma calls_none {E' A} (m : M (device G) E' A) : (∀ d, group (m d).2 = group d) → calls_only m.
Proof. intros Hm d. exists []. apply Hm. Qed.

Lemma calls_bind {E' A B} (m : M (device G) E' A) (f : A → M (device G) E' B) :
  calls_only m → (∀ a, calls_only (f a)) → calls_only (m ≫= f).
Proof.
  intros Hm Hf d. destruct (Hm d) as [l Hl]. unfold mbind, M_bind. destruct (m d) as [[a| | |] d1]; cbn in Hl |- *; eauto.
  destruct (Hf a d1) as [l' Hl']. exists (l ++ l'). by rewrite run_calls_app, <-Hl.
Qed.

Lemma calls_trigger {E'} i : calls_only (E' := E') (call (g_trigger (InterruptSourceGroup := maybe_mut) i)).
Proof. intros d. exists [CallTrigger i]. by rewrite call_run. Qed.

Lemma calls_update {E'} i (c : MsiIrqSourceConfig) m : calls_only (E' := E') (call (g_update (InterruptSourceGroup := maybe_mut) i c m true)).
Proof. intros d. exists [CallUpdate i c m]. by rewrite call_run. Qed.

Lemma calls_set_pba_bit {E'} v reset : calls_only (E' := E') (set_pba_bit v reset).
Proof.
  unfold set_pba_bit. destruct (_ <=? _); [by apply calls_none|].
  repeat (apply calls_bind; [by apply calls_none|intros ?]). by apply calls_none.
Qed.

Lemma calls_inject {E'} v : calls_only (E' := E') (inject_msix_and_clear_pba v).
Proof. apply calls_bind; [apply calls_trigger|intros _; apply calls_set_pba_bit]. Qed.

Lemma calls_set_msg_ctl {E'} reg : calls_only (E' := E') (set_msg_ctl reg).
Proof.
  assert (∀ es k, calls_only (E' := E') (update_routes k es)) as Hu.
  { induction es as [|e es IH]; intros k; [by apply calls_none|].
    apply calls_bind; [by apply calls_none|]. intros d. apply calls_bind; [apply calls_update|intros _; apply IH]. }
  assert (∀ es k, calls_only (E' := E') (inject_pending k es)) as Hi.
  { induction es as [|e es IH]; intros k; [by apply calls_none|].
    apply calls_bind; [|intros _; apply IH]. destruct (entry_masked e); [by apply calls_none|].
    do 2 (apply calls_bind; [by apply calls_none|intros ?]). destruct (_ =? 1); [apply calls_inject|by apply calls_none]. }
  unfold set_msg_ctl. do 2 (apply calls_bind; [by apply calls_none|intros ?]).
  apply calls_bind; [|intros _]; repeat case_match; auto; try (by apply calls_none).
Qed.

Lemma calls_write_table {E'} offset data : calls_only (E' := E') (write_table offset data).
Proof.
  unfold write_table. destruct (negb _); [by apply calls_none|]. apply calls_bind; [by apply calls_none|]. intros d.
  destruct (znth _ _) as [old|]; [|by apply calls_none]. apply calls_bind; [by apply calls_none|]. intros _.
  destruct (decide _); [by apply calls_none|]. apply calls_bind.
  - destruct (_ && _); [|by apply calls_none]. apply calls_bind; [apply calls_update|]. intros _. by apply calls_none.
  - intros _. destruct (_ && _); [|by apply calls_none].
    do 2 (apply calls_bind; [by apply calls_none|intros ?]). destruct (_ =? 1); [apply calls_inject|by apply calls_none].
Qed.

Lemma calls_virtio_trigger v ty : calls_only (trigger v ty).
Proof.
  unfold trigger. apply calls_bind; [by apply calls_none|]. intros i. destruct (_ =? _); [by apply calls_none|].
  do 2 (apply calls_bind; [by apply calls_none|intros ?]).
  destruct (_ || _); [apply calls_set_pba_bit|]. apply calls_bind; [apply calls_trigger|].
  intros []; by apply calls_none.
Qed.

Lemma calls_new n devid st (g : G) : ∃ l, (new n devid st g).2 = run_calls l g.
Proof.
  assert (∀ es k m g, ∃ l, (restore_routes devid k m es g).2 = run_calls l g) as Hr.
  { induction es as [|e es IH]; intros k m g'; [by exists []|]. cbn [restore_routes].
    destruct (entry_masked e); [apply IH|]. cbn [g_update g_enable maybe_mut default_method].
    destruct (g_update k (source_config devid e) m true g') as [ok g1] eqn:Hu.
    assert (g1 = run_calls [CallUpdate k (source_config devid e) m] g') as -> by (cbn; by rewrite Hu).
    destruct ok; [|eauto]. edestruct IH as [l Hl]. eexists (_ :: l). exact Hl. }
  unfold new. destruct (_ <? _); [by exists []|]. destruct st as [s|]; [|by exists []].
  destruct (s_enabled s && negb (s_masked s)); [|by exists []].
  specialize (Hr (s_table s) 0 (s_masked s) g). by destruct (restore_routes _ _ _ _ _).
Qed.
End delivery.

Section over_time.
Implicit Types d : device (list item).

Lemma testbit_set w k j : 0 ≤ k → 0 ≤ j → Z.testbit (Z.lor w (2 ^ k)) j = Z.testbit w j || (k =? j).
Proof. intros. by rewrite Z.lor_spec, Z.pow2_bits_eqb. Qed.

Lemma set_pba_bit_sets d i :
  well_sized (config d) → 0 ≤ i < zlen (table_entries (config d)) → i mod 64 < 31 →
  ∃ l, set_pba_bit (E := unit) i false d = (Ok tt, {| config := set_pba l (config d); group := group d |})
       ∧ zlen l = zlen (pba_entries (config d))
       ∧ ∀ j, 0 ≤ j → pending (set_pba l (config d)) j = pending (config d) j || (j =? i).
Proof.
  intros Hw Hi Hl. destruct (word_of _ i Hw Hi) as [w Hwd]. rewrite (set_pba_bit_run d i false w) by done.
  eexists. split; [reflexivity|]. split; [apply zlen_zset|]. intros j Hj.
  pose proof (Z.mod_pos_bound i 64). pose proof (Z.mod_pos_bound j 64).
  rewrite (pending_set _ i w) by (done || lia). destruct (Z.eqb_spec (i / 64) (j / 64)) as [Hq|Hq].
  - rewrite testbit_set, same_bit by (done || lia). unfold pending. by rewrite <-Hq, Hwd.
  - replace (j =? i) with false by (symmetry; apply Z.eqb_neq; congruence). by rewrite orb_false_r.
Qed.

Lemma owed_sent v l (g : list item) :
  owed v (run_calls (CallTrigger <$> l) g) = owed v g && negb (bool_decide (v ∈ l)).
Proof.
  revert g. induction l as [|x l IH]; intros g; [by rewrite andb_true_r|].
  change (run_calls (CallTrigger <$> x :: l) g) with (run_calls (CallTrigger <$> l) (Sent x :: g)).
  rewrite IH. cbn [owed]. destruct (Z.eqb_spec v x) as [->|Hne]; [rewrite (bool_decide_eq_true_2 (x ∈ x :: l)) by (by left); by rewrite andb_false_r|].
  f_equal. f_equal. apply bool_decide_ext. rewrite elem_of_cons. naive_solver.
Qed.

Lemma updates_silent devid k es (g : list item) : run_calls (updates devid k es) g = g.
Proof. revert k. induction es; intros k; [done|apply IHes]. Qed.

(** Sending what [cleared] clears keeps the record exact. *)
Lemma cleared_owed l c c' (g : list item) (off : list Z) :
  (∀ v, 0 ≤ v → v ∉ off → pending c v = owed v g) → cleared l c c' →
  ∀ v, 0 ≤ v → v ∉ off → pending c' v = owed v (run_calls (CallTrigger <$> l) g).
Proof. intros Ho Hc v Hv Hn. by rewrite (cl_pending _ _ _ Hc), owed_sent, Ho. Qed.

Lemma cleared_kept l c c' (g : list item) :
  (∀ v, 0 ≤ v → owed v g = true → pending c v = true) → cleared l c c' →
  ∀ v, 0 ≤ v → owed v (run_calls (CallTrigger <$> l) g) = true → pending c' v = true.
Proof.
  intros Ho Hc v Hv. rewrite (cl_pending _ _ _ Hc), owed_sent by done. intros [Hx ->]%andb_prop. by rewrite Ho.
Qed.

Lemma elem_of_deliverable p k es v e :
  k ≤ v → znth es (v - k) = Some e → entry_masked e = false → p v = true → v ∈ deliverable p k es.
Proof.
  revert k. induction es as [|x es IH]; intros k Hk He Hm Hp; [by rewrite znth_None in He by (unfold zlen; cbn; lia)|].
  cbn. destruct (decide (v = k)) as [->|Hne].
  - replace (k - k) with 0 in He by lia. injection He as ->. rewrite Hm, Hp. set_solver.
  - apply elem_of_app. right. apply IH; try done; [lia|].
    replace (v - k) with (v - (k + 1) + 1) in He by lia. by rewrite znth_cons in He by lia.
Qed.

Lemma step_ctl n off d reg : exact n off d → ∃ d', step (WriteCtl reg) d = (Ok tt, d') ∧ exact n off d'.
Proof.
  intros [Hlen Hw Hk Ho Hl Hh]. destruct (set_msg_ctl_spec (E := unit) reg d Hw Hl) as (c'' & Hr & Hc).
  eexists. split; [exact Hr|]. rewrite run_calls_app.
  assert (∀ b : bool, run_calls (if b then updates (devid (config d)) 0 (table_entries (config d)) else []) (group d) = group d)
    as Hs by (intros []; [apply updates_silent|done]).
  rewrite Hs. clear Hr Hs. set (l := if masked (config d) && _ then _ else _) in *.
  assert (well_sized (with_ctl reg (config d))) as Hw1 by (by destruct Hw).
  split; cbn [config group].
  - rewrite (cl_table _ _ _ Hc). done.
  - by eapply cleared_sized.
  - eapply cleared_kept; [|exact Hc]. exact Hk.
  - eapply cleared_owed; [|exact Hc]. exact Ho.
  - by eapply cleared_low.
  - intros v e Hoff Hp Hm He.
    assert (0 ≤ v) as Hv by (apply znth_Some_lt in He; lia).
    rewrite (cl_table _ _ _ Hc) in He. rewrite (cl_masked _ _ _ Hc) in Hm.
    rewrite (cl_pending _ _ _ Hc) in Hp by done. apply andb_prop in Hp as [Hp Hn].
    apply negb_true_iff, bool_decide_eq_false in Hn. change (pending (config d) v = true) in Hp.
    subst l. rewrite Hm in Hn. destruct (masked (config d)) eqn:Hmd; cbn in Hn; [|by apply (Hh v)].
    destruct (entry_masked e) eqn:Hem; [done|]. exfalso. apply Hn.
    eapply elem_of_deliverable; [done| |exact Hem|done]. by rewrite Z.sub_0_r.
Qed.

Lemma exact_mono n off off' d : exact n off d → off ⊆ off' → exact n off' d.
Proof. intros [? ? ? Ho ? Hh] Hs. split; try done; [intros v ? ?; apply Ho|intros v e ?; apply Hh]; try done; set_solver. Qed.

Lemma step_table n off d offset data : exact n off d → ordinary n (WriteTable offset data) →
  ∃ d', step (WriteTable offset data) d = (Ok tt, d') ∧ exact n (off ++ writes_off (WriteTable offset data) d) d'.
Proof.
  intros Hex Hn. pose proof (exact_mono n off (off ++ writes_off (WriteTable offset data) d) d Hex ltac:(set_solver)) as [Hlen Hw Hk Ho Hl Hh].
  cbn [step ordinary writes_off] in *.
  destruct (znth (table_entries (config d)) (offset / 16)) as [old|] eqn:Hold.
  2:{ exists d. split; [|by split]. unfold write_table.
      replace ((zlen data =? 4) || (zlen data =? 8)) with true by (destruct Hn as [-> | ->]; done). cbn [negb].
      erewrite m_bind_run by reflexivity. by rewrite Hold. }
  destruct (write_table_spec (E := unit) offset data d old Hw Hl Hn Hold) as (c' & Hr & Hc).
  eexists. split; [exact Hr|]. rewrite run_calls_app. clear Hr.
  match goal with |- context [run_calls (if ?b then [?u] else []) ?g] =>
    replace (run_calls (if b then [u] else []) g) with g by (by destruct b) end.
  pose proof (znth_Some_lt _ _ _ Hold) as Hi. set (i := offset / 16) in *. set (e' := written _ _ _) in *.
  set (l := if _ && pending _ _ then _ else _) in *. set (c1 := set_table _ _) in *.
  assert (well_sized c1) as Hw1 by (split; cbn; rewrite !zlen_zset; apply Hw).
  assert (low_pending c1) as Hl1 by (intros v; cbn; rewrite zlen_zset; apply Hl).
  split; cbn [config group].
  - rewrite (cl_table _ _ _ Hc). cbn. by rewrite zlen_zset.
  - by eapply cleared_sized.
  - eapply cleared_kept; [|exact Hc]. exact Hk.
  - eapply cleared_owed; [|exact Hc]. exact Ho.
  - by eapply cleared_low.
  - intros v e Hoff Hp Hm He.
    assert (0 ≤ v) as Hv by (apply znth_Some_lt in He; lia).
    rewrite (cl_table _ _ _ Hc) in He. rewrite (cl_masked _ _ _ Hc) in Hm. cbn in He, Hm.
    rewrite (cl_pending _ _ _ Hc) in Hp by done. apply andb_prop in Hp as [Hp Hnd].
    apply negb_true_iff, bool_decide_eq_false in Hnd. change (pending (config d) v = true) in Hp.
    rewrite znth_zset in He by done. destruct (Z.eqb_spec i v) as [<-|Hne]; [|by eapply Hh].
    injection He as <-. assert (enabled (config d) = true) as Hem.
    { rewrite Hm, orb_false_r in Hoff. destruct (enabled (config d)); [done|]. set_solver. }
    subst l. rewrite (Hh i old Hoff Hp Hm Hold), Hm, Hp, Hem in Hnd.
    destruct (entry_masked e'); [done|]. cbn in Hnd. set_solver.
Qed.

Lemma step_raise n off d vi ty : exact n off d → ordinary n (Raise vi ty) → ∃ d', step (Raise vi ty) d = (Ok tt, d') ∧ exact n off d'.
Proof.
  intros [Hlen Hw Hk Ho Hl Hh] (i & Hi & Hcase). rewrite <-Hlen in Hcase. cbn [step]. unfold note_raised, trigger. rewrite Hi.
  assert (match ty with Config => Ok (config_vector vi) | Queue q => vget (queues_vectors vi) q end = @Ok unit Z i) as Hv.
  { destruct ty; cbn in Hi; [by injection Hi as ->|by apply vget_Ok]. }
  rewrite Hv. erewrite m_bind_run by reflexivity.
  destruct Hcase as [->|[Hr Hlow]]; [exists d; done|]. pose proof (ws_table _ Hw) as Hs.
  unfold MAX_MSIX_VECTORS_PER_DEVICE in Hs.
  destruct (Z.eqb_spec i VIRTQ_MSI_NO_VECTOR) as [Hx|_]; [unfold VIRTQ_MSI_NO_VECTOR in Hx; lia|].
  erewrite m_bind_run by reflexivity. cbn [config]. destruct (znth_is_Some _ _ Hr) as [e He].
  rewrite (proj2 (vget_Ok _ _ _) He). erewrite m_bind_run by reflexivity.
  destruct (masked (config d) || entry_masked e) eqn:Hm.
  - destruct (set_pba_bit_sets {| config := config d; group := Raised i :: group d |} i Hw Hr Hlow) as (l & Hrun & Hsz & Hp).
    cbn [config group] in Hsz, Hp. eexists. split; [exact Hrun|]. split; cbn [config group]; [done|..].
    + destruct Hw. split; cbn; congruence.
    + intros v Hv'. rewrite Hp by done. cbn [owed]. destruct (v =? i); [by rewrite orb_true_r|]. rewrite orb_false_r. by apply Hk.
    + intros v Hv' Hoff. rewrite Hp by done. cbn [owed]. rewrite Ho by done. destruct (v =? i); [by rewrite orb_true_r|by rewrite orb_false_r].
    + intros v Hv' Hpv. rewrite Hp in Hpv by lia. apply orb_prop in Hpv as [Hpv|Hpv%Z.eqb_eq]; [by apply Hl|by subst].
    + intros v e' Hoff Hpv Hmk He'. rewrite Hp in Hpv by (apply znth_Some_lt in He'; lia). cbn in Hmk, He'.
      apply orb_prop in Hpv as [Hpv|Hpv%Z.eqb_eq]; [by eapply Hh|]. subst v. rewrite Hmk in Hm. cbn in Hm. congruence.
  - erewrite m_bind_run by apply call_run. cbn. eexists. split; [reflexivity|].
    apply orb_false_elim in Hm as [Hm Hem]. split; cbn [config group]; try done.
    { intros v Hv'. cbn [owed]. destruct (Z.eqb_spec v i) as [->|]; [done|]. by apply Hk. }
    intros v Hv' Hoff. cbn [owed]. rewrite Ho by done. destruct (Z.eqb_spec v i) as [->|]; [|done].
    rewrite <-Ho by done. destruct (pending (config d) i) eqn:Hp; [|done]. by rewrite (Hh i e Hoff Hp Hm He) in Hem.
Qed.

Lemma run_exact n l off d :
  exact n off d → Forall (ordinary n) l → ∃ d', run l d = (Ok tt, d') ∧ exact n (off ++ written_off l d) d'.
Proof.
  intros Hd Hl. revert off d Hd. induction Hl as [|e l He _ IH]; intros off d Hd; [exists d; cbn; by rewrite app_nil_r|]. cbn [run written_off].
  assert (∃ d', step e d = (Ok tt, d') ∧ exact n (off ++ writes_off e d) d') as (d' & Hs & Hd').
  { destruct e; cbn [writes_off]; rewrite ?app_nil_r; [by apply step_raise|by apply step_ctl|by apply step_table]. }
  rewrite Hs. cbn [snd]. rewrite (assoc_L (++)). by apply IH.
Qed.

Lemma new_exact n devid c :
  0 ≤ n → new (G := list item) n devid None [] = (Ok c, []) → exact n [] {| config := c; group := [] |}.
Proof.
  intros Hn. unfold new. destruct (Z.ltb_spec MAX_MSIX_VECTORS_PER_DEVICE n) as [|Hle]; [done|]. intros [= <-].
  assert (∀ v, pending {| table_entries := zreplicate n entry_default; pba_entries := zreplicate (n / 64 + 1) 0;
                          devid := devid; masked := true; enabled := false |} v = false) as Hp.
  { intros v. unfold pending. cbn [pba_entries]. destruct (znth _ _) as [w|] eqn:Hw; [|done].
    pose proof (znth_Some_lt _ _ _ Hw) as Hb. rewrite zlen_zreplicate in Hb by (pose proof (Z.div_pos n 64); lia).
    rewrite znth_zreplicate in Hw by done. injection Hw as <-. apply Z.bits_0. }
  split; cbn [config group].
  - cbn. by rewrite zlen_zreplicate.
  - split; cbn [table_entries pba_entries]; rewrite !zlen_zreplicate by (pose proof (Z.div_pos n 64); lia); lia.
  - done.
  - intros v _ _. by rewrite Hp.
  - intros v _. by rewrite Hp.
  - intros v e _. by rewrite Hp.
Qed.
End over_time.

(** C7: on every run in which the device raises vectors of its table with a number modulo 64
    below 31 and the guest writes the control register and, with 4 or 8 bytes, the table,
    nothing panics and no interrupt is lost: a vector that was raised after it was last sent
    is pending.  A vector whose entry the guest never writes while MSI-X is off and the
    function is not masked is pending only then, and as long as it is pending the function
    or its entry is masked. *)
Theorem no_interrupt_lost n devid c l :
  0 ≤ n → new (G := list item) n devid None [] = (Ok c, []) → Forall (ordinary n) l →
  let d0 := {| config := c; group := [] |} in
  ∃ d, run l d0 = (Ok tt, d) ∧
       ∀ v, 0 ≤ v < n →
         (owed v (group d) = true → pending (config d) v = true) ∧
         (v ∉ written_off l d0 →
          pending (config d) v = owed v (group d) ∧
          (owed v (group d) = true → masked (config d) = true ∨
             ∃ e, znth (table_entries (config d)) v = Some e ∧ entry_masked e = true)).
Proof.
  intros Hn Hc Hl d0. destruct (run_exact n l [] _ (new_exact n devid c Hn Hc) Hl) as (d & Hr & [Hlen _ Hk Ho _ Hh]).
  exists d. split; [done|]. intros v Hv. split; [apply Hk; lia|]. intros Hoff. split; [apply Ho; [lia|done]|].
  rewrite <-Ho by (done || lia). intros Hp. destruct (masked (config d)) eqn:Hm; [by left|right].
  destruct (znth_is_Some (table_entries (config d)) v) as [e He]; [lia|]. exists e. split; [done|]. by apply (Hh v).
Qed.

(** Two vectors: the device raises both while MSI-X is off; the guest switches it on with the
    function masked, unmasks the first entry and the function. *)
Definition demo_events : list event :=
  let vi := {| config_vector := 0; queues_vectors := [1] |} in
  [Raise vi Config; Raise vi (Queue 0); WriteCtl 0xc001; WriteTable 12 [0; 0; 0; 0]; WriteCtl 0x8001; Raise vi Config].

Lemma no_interrupt_lost_witness :
  ∃ c d, new (G := list item) 2 5 None [] = (Ok c, []) ∧
         run demo_events {| config := c; group := [] |} = (Ok tt, d) ∧
         group d = [Sent 0; Raised 0; Sent 0; Raised 1; Raised 0] ∧ pending (config d) 1 = true ∧
         (pending (config d) 1 = owed 1 (group d)).
Proof.
  set (c := {| table_entries := [entry_default; entry_default]; pba_entries := [0]; devid := 5; masked := true; enabled := false |}).
  exists c. destruct (no_interrupt_lost 2 5 c demo_events) as (d & Hr & Hp); [lia|reflexivity| |].
  { repeat (apply Forall_cons; split); try exact I; try (by left); try apply Forall_nil_2;
      eexists; (split; [reflexivity|]); right; done. }
  exists d. split; [reflexivity|]. split; [exact Hr|]. destruct (Hp 1) as [_ Hp1]; [lia|].
  destruct Hp1 as [Hp1 _]; [vm_compute; intros H; inversion H|].
  rewrite Hp1. vm_compute in Hr. injection Hr as <-. done.
Defined.

(** Unmasking a pending entry while MSI-X is off and the function is not masked leaves the
    vector pending when MSI-X is switched on again, although nothing masks it. *)
Lemma unmasked_while_off :
  let vi := {| config_vector := 0; queues_vectors := [] |} in
  ∃ c d, new (G := list item) 1 5 None [] = (Ok c, []) ∧
    run [WriteCtl 0x8000; Raise vi Config; WriteCtl 0; WriteTable 12 [0; 0; 0; 0]; WriteCtl 0x8000] {| config := c; group := [] |} = (Ok tt, d) ∧
    pending (config d) 0 = true ∧ owed 0 (group d) = true ∧ enabled (config d) = true ∧ masked (config d) = false ∧
    table_entries (config d) = [{| msg_addr_lo := 0; msg_addr_hi := 0; msg_data := 0; vector_ctl := 0 |}].
Proof. eexists _, _. repeat split. Qed.

(** ** Bytes of the table *)

Lemma le_bytes_of (l : list Z) : Forall is_u8 l → le_bytes (length l) (of_le_bytes l) = l.
Proof.
  induction 1 as [|b l Hb _ IH]; [done|]. cbn [length le_bytes of_le_bytes]. unfold is_u8 in Hb.
  rewrite (Z.mul_comm 256), Z.mod_add, Z.mod_small, Z.div_add, Z.div_small, Z.add_0_l by lia. by rewrite IH.
Qed.

Lemma of_le_bytes_bound (l : list Z) : Forall is_u8 l → 0 ≤ of_le_bytes l < 256 ^ zlen l.
Proof.
  induction 1 as [|b l Hb _ IH]; [done|]. rewrite zlen_cons, Z.pow_add_r by (done || apply zlen_nonneg).
  cbn [of_le_bytes]. unfold is_u8 in Hb. lia.
Qed.

Lemma halves v : 0 ≤ v → Z.lor (Z.shiftl (Z.shiftr v 32) 32) (Z.land v 0xffffffff) = v.
Proof.
  intros Hv. change 0xffffffff with (Z.ones 32). apply Z.bits_inj'. intros n Hn.
  rewrite Z.lor_spec, Z.land_spec, Z.testbit_ones_nonneg by lia.
  destruct (Z.ltb_spec n 32).
  - rewrite Z.shiftl_spec_low by lia. by rewrite andb_true_r.
  - rewrite Z.shiftl_spec, Z.shiftr_spec by lia. rewrite andb_false_r, orb_false_r. f_equal. lia.
Qed.

(** An access of the table by the guest, aligned to its size. *)
Definition aligned (offset n : Z) : Prop := n = 4 ∧ offset mod 4 = 0 ∨ n = 8 ∧ offset mod 8 = 0.

Lemma mod_16_cases offset n : 0 ≤ offset → aligned offset n →
  let o := offset mod 16 in
  n = 4 ∧ (o = 0 ∨ o = 4 ∨ o = 8 ∨ o = 12) ∨ n = 8 ∧ (o = 0 ∨ o = 8).
Proof.
  intros Ho Ha o. pose proof (Z.div_mod offset 16). pose proof (Z.mod_pos_bound offset 16).
  destruct Ha as [[-> Ha]|[-> Ha]]; [left|right]; (split; [done|]); subst o.
  - pose proof (Z.div_mod offset 4). lia.
  - pose proof (Z.div_mod offset 8). lia.
Qed.

Lemma read_written c e i o data :
  Forall is_u8 data → znth (table_entries c) i = Some (written e o data) → 0 ≤ i →
  zlen data = 4 ∧ (o = 0 ∨ o = 4 ∨ o = 8 ∨ o = 12) ∨ zlen data = 8 ∧ (o = 0 ∨ o = 8) →
  read_table (E := unit) c (i * 16 + o) (zlen data) = Ok data.
Proof.
  intros Hb He Hi Hc. assert (0 ≤ o < 16) as Ho by lia. pose proof (of_le_bytes_bound _ Hb) as Hv.
  pose proof (le_bytes_of _ Hb) as Hl.
  unfold read_table. replace ((i * 16 + o) / 16) with i by (rewrite Z.div_add_l, Z.div_small; lia).
  replace ((i * 16 + o) mod 16) with o by (rewrite Z.add_comm, Z.mod_add, Z.mod_small; lia). rewrite He.
  unfold written. destruct Hc as [[Hn Hc]|[Hn Hc]]; rewrite Hn in *.
  - replace (length data) with 4%nat in Hl by (unfold zlen in Hn; lia).
    destruct Hc as [->|[->|[->| ->]]]; cbn -[le_bytes of_le_bytes]; by rewrite Hl.
  - replace (length data) with 8%nat in Hl by (unfold zlen in Hn; lia).
    destruct Hc as [->| ->]; cbn -[le_bytes of_le_bytes Z.land Z.shiftr Z.shiftl Z.lor]; by rewrite halves, Hl by lia.
Qed.

(** The words of an entry that the write does not cover. *)
Lemma read_unwritten c c' e i o data x :
  znth (table_entries c) i = Some e → znth (table_entries c') i = Some (written e o data) → 0 ≤ i →
  zlen data = 4 ∧ (o = 0 ∨ o = 4 ∨ o = 8 ∨ o = 12) ∨ zlen data = 8 ∧ (o = 0 ∨ o = 8) →
  x = 0 ∨ x = 4 ∨ x = 8 ∨ x = 12 → x + 4 ≤ o ∨ o + zlen data ≤ x →
  read_table (E := unit) c' (i * 16 + x) 4 = read_table c (i * 16 + x) 4.
Proof.
  intros He He' Hi Hc Hx Hd. assert (0 ≤ x < 16) as Hx' by lia.
  unfold read_table. replace ((i * 16 + x) / 16) with i by (rewrite Z.div_add_l, Z.div_small; lia).
  replace ((i * 16 + x) mod 16) with x by (rewrite Z.add_comm, Z.mod_add, Z.mod_small; lia). rewrite He, He'.
  unfold written. destruct Hc as [[Hn Hc]|[Hn Hc]]; rewrite Hn in *.
  - destruct Hc as [->|[->|[->| ->]]], Hx as [->|[->|[->| ->]]]; cbn -[le_bytes of_le_bytes]; done || lia.
  - destruct Hc as [->| ->], Hx as [->|[->|[->| ->]]]; cbn -[le_bytes of_le_bytes Z.land Z.shiftr]; done || lia.
Qed.

(** What the guest writes into the MSI-X table it reads back, and a write leaves every
    other word of the table as it was, also when it sends a pending interrupt. *)
Theorem table_roundtrip {G} `{InterruptSourceGroup G} offset data (d : device G) :
  well_sized (config d) → low_pending (config d) → Forall is_u8 data → aligned offset (zlen data) →
  0 ≤ offset → offset / 16 < zlen (table_entries (config d)) →
  ∃ d', write_table (E := unit) offset data d = (Ok tt, d') ∧
        read_table (E := unit) (config d') offset (zlen data) = Ok data ∧
        ∀ x, 0 ≤ x → x mod 4 = 0 → x + 4 ≤ offset ∨ offset + zlen data ≤ x →
             read_table (E := unit) (config d') x 4 = read_table (config d) x 4.
Proof.
  intros Hw Hl Hb Ha Ho Hr. destruct (znth_is_Some (table_entries (config d)) (offset / 16)) as [old Hold].
  { pose proof (Z.div_pos offset 16). lia. }
  pose proof (znth_Some_lt _ _ _ Hold) as Hi. pose proof (mod_16_cases _ _ Ho Ha) as Hm. cbv zeta in Hm.
  destruct (write_table_spec (E := unit) offset data d old Hw Hl) as (c' & Hr' & Hc); [destruct Ha; lia|done|].
  eexists. split; [exact Hr'|]. cbn [config].
  pose proof (cl_table _ _ _ Hc) as Ht. cbn [set_table table_entries] in Ht.
  assert (znth (table_entries c') (offset / 16) = Some (written old (offset mod 16) data)) as He.
  { rewrite Ht, znth_zset, Z.eqb_refl by done. done. }
  assert (offset = offset / 16 * 16 + offset mod 16) as Hoff by (pose proof (Z.div_mod offset 16); lia).
  split; [rewrite Hoff at 1; by eapply read_written; [..|lia|]|].
  intros x Hx Hx4 Hd. destruct (decide (x / 16 = offset / 16)) as [Hq|Hq].
  - assert (x = offset / 16 * 16 + x mod 16) as -> by (pose proof (Z.div_mod x 16); lia).
    destruct (mod_16_cases x 4 Hx) as [[_ Hxm]|[Hxm _]]; [by left| |lia]. cbv zeta in Hxm.
    apply (read_unwritten _ _ old _ (offset mod 16) data); [done|done|lia|done|done|].
    pose proof (Z.div_mod x 16). lia.
  - unfold read_table. rewrite Ht, znth_zset by done. by rewrite (proj2 (Z.eqb_neq (offset / 16) (x / 16))) by congruence.
Qed.

Lemma table_roundtrip_witness :
  let c := {| table_entries := [entry_default; entry_default]; pba_entries := [2]; devid := 5; masked := false; enabled := true |} in
  ∃ d', write_table (G := list item) (group_methods := recorder) (E := unit) 24 [1; 2; 3; 4; 0; 0; 0; 0] {| config := c; group := [] |} = (Ok tt, d') ∧
        group d' = [Sent 1] ∧ read_table (E := unit) (config d') 24 8 = Ok [1; 2; 3; 4; 0; 0; 0; 0].
Proof.
  intros c. destruct (@table_roundtrip (list item) recorder 24 [1; 2; 3; 4; 0; 0; 0; 0] {| config := c; group := [] |})
    as (d' & Hr & Hd & _).
  - by split.
  - intros i Hi. assert (i = 0 ∨ i = 1) as [-> | ->] by (change (zlen _) with 2 in Hi; lia); done.
  - repeat constructor; done.
  - by right.
  - done.
  - done.
  - exists d'. split; [exact Hr|]. split; [|exact Hd]. vm_compute in Hr. by injection Hr as <-.
Defined.

(** The pending bit of a vector above the 31st of its word cannot be set or cleared. *)
Lemma high_vector_panics {G E} (d : device G) vector reset :
  0 ≤ vector < MAX_MSIX_VECTORS_PER_DEVICE → 32 ≤ vector mod 64 → (set_pba_bit (E := E) vector reset d).1 = Panic.
Proof.
  intros Hv Hm. unfold set_pba_bit. rewrite (proj2 (Z.leb_gt _ _)) by lia.
  erewrite m_bind_run by reflexivity. unfold pba_mask.
  rewrite (proj2 (Z.ltb_ge _ _)), (proj2 (Z.eqb_neq _ _)) by lia. done.
Qed.

(** ** The capability *)

Lemma land_high x : 0 ≤ x < 2 ^ 32 → Z.land x 0xfffffff8 = 8 * (x / 8).
Proof.
  intros Hx. change 0xfffffff8 with (Z.shiftl (Z.ones 29) 3). change 8 with (2 ^ 3).
  rewrite (Z.mul_comm (2 ^ 3)), <-Z.shiftl_mul_pow2, <-Z.shiftr_div_pow2 by lia.
  apply Z.bits_inj'. intros n Hn. rewrite Z.land_spec, !Z.shiftl_spec by done.
  destruct (Z.ltb_spec n 3); [rewrite !(Z.testbit_neg_r _ (n - 3)) by lia; apply andb_false_r|].
  rewrite Z.shiftr_spec, Z.sub_add, Z.testbit_ones_nonneg by lia.
  destruct (Z.ltb_spec (n - 3) 29); [apply andb_true_r|]. rewrite andb_false_r. symmetry.
  destruct (Z.eq_dec x 0) as [->|]; [apply Z.bits_0|]. apply Z.bits_above_log2; [lia|].
  apply Z.log2_lt_pow2; [lia|]. pose proof (Z.pow_le_mono_r 2 32 n). lia.
Qed.

Lemma land_low x : Z.land x 7 = x mod 8.
Proof. change 7 with (Z.ones 3). by rewrite Z.land_ones. Qed.

Lemma lor_parts k b : 0 ≤ k → 0 ≤ b < 8 → Z.lor (8 * k) b = 8 * k + b.
Proof.
  intros Hk Hb. rewrite <-Z.add_lor_land. replace (Z.land (8 * k) b) with 0; [lia|]. symmetry.
  rewrite <-(Z.mod_small b 8), <-land_low, Z.land_assoc, (Z.land_comm _ b), Z.land_comm by lia.
  rewrite (Z.land_comm b), Z.land_assoc, (Z.land_comm 7), land_low, Z.mul_comm, Z.mod_mul by lia. done.
Qed.

Lemma register_high k b : 0 ≤ b < 8 → 8 * ((8 * k + b) / 8) = 8 * k.
Proof. intros Hb. rewrite (Z.mul_comm 8 k), Z.div_add_l, Z.div_small by lia. lia. Qed.

Lemma register_low k b : 0 ≤ b < 8 → (8 * k + b) mod 8 = b.
Proof. intros Hb. by rewrite Z.add_comm, (Z.mul_comm 8), Z.mod_add, Z.mod_small by lia. Qed.

Lemma register_word b k : 0 ≤ b < 8 → 0 ≤ k < 2 ^ 29 → Z.lor (Z.land (8 * k) 0xfffffff8) (Z.land b 7) = 8 * k + b.
Proof.
  intros Hb Hk. rewrite land_high, land_low, Z.mod_small by lia. pose proof (register_high k 0) as Hr.
  rewrite Z.add_0_r in Hr. rewrite Hr by lia. apply lor_parts; lia.
Qed.

(** The capability that a device publishes describes its table and its pending bits, and
    keeps doing so when the guest writes the message control register, whose mask and enable
    bits it stores. *)
Lemma cap_layout E bar size k pbar pk data :
  0 ≤ bar < 8 → 0 ≤ pbar < 8 → 1 ≤ size < MAX_MSIX_VECTORS_PER_DEVICE → 0 ≤ k < 2 ^ 29 → 0 ≤ pk < 2 ^ 29 →
  ∃ c, cap_new (E := E) bar size (8 * k) pbar (8 * pk) = Ok c ∧
    let c' := cap_set_msg_ctl data c in
    table_range c' = (8 * k, size * 16) ∧ table_bir c' = bar ∧
    pba_range c' = (8 * pk, (size / 64 + 1) * 8) ∧ pba_bir c' = pbar ∧
    cap_masked c' = Z.testbit data FUNCTION_MASK_BIT ∧ cap_enabled c' = Z.testbit data MSIX_ENABLE_BIT.
Proof.
  unfold MAX_MSIX_VECTORS_PER_DEVICE. intros Hb Hpb Hs Hk Hpk.
  unfold cap_new, u16_add, u16_sub. unfold MAX_MSIX_VECTORS_PER_DEVICE.
  rewrite (proj2 (Z.leb_gt _ _)), (proj2 (Z.ltb_lt _ _)) by lia. cbn [mbind res_bind].
  rewrite (proj2 (Z.leb_le _ _)) by lia. cbn [mbind res_bind].
  eexists. split; [reflexivity|]. rewrite !register_word by done.
  assert (∀ t p, table_size (cap_set_msg_ctl data {| msg_ctl := 32768 + size - 1; table := t; pba := p |}) = size) as Hsize.
  { intros t p. unfold table_size. cbn [msg_ctl cap_set_msg_ctl].
    rewrite Z.land_lor_distr_l, <-!Z.land_assoc. change (Z.land CTL_MASK 2047) with 0.
    change (Z.land (2 ^ 16 - 1 - CTL_MASK) 2047) with (Z.ones 11).
    rewrite Z.land_0_r, Z.lor_0_r, Z.land_ones by lia. replace (32768 + size - 1) with (size - 1 + 16 * 2 ^ 11) by lia.
    rewrite Z.mod_add, Z.mod_small by lia. lia. }
  unfold table_range, pba_range, table_bir, pba_bir, table_offset, pba_offset, cap_masked, cap_enabled.
  cbv zeta. rewrite Hsize, !bit_set by done. cbn [table pba msg_ctl cap_set_msg_ctl].
  rewrite !land_high, !land_low, !register_high, !register_low, !Z.lor_spec, !Z.land_spec by lia.
  cbn [Z.testbit Pos.testbit CTL_MASK].
  change (Z.testbit (2 ^ 16 - 1 - CTL_MASK) FUNCTION_MASK_BIT) with false.
  change (Z.testbit (2 ^ 16 - 1 - CTL_MASK) MSIX_ENABLE_BIT) with false.
  change (Z.testbit CTL_MASK FUNCTION_MASK_BIT) with true. change (Z.testbit CTL_MASK MSIX_ENABLE_BIT) with true.
  by rewrite !andb_false_r, !andb_true_r.
Qed.

End Msix.
