(* ===== verification/MsiRoutes.v ===== *)
(** * Routes of interrupts in KVM

    Model of [vmm/src/interrupt.rs] (module [Routes]: the interrupt source groups of message
    signalled interrupts, which give each vector an interrupt number and keep KVM's routing
    table and its irqfds), of the construction of a routing entry in
    [hypervisor/src/kvm/mod.rs], and of [pci/src/msi.rs] (module [Msi]: the MSI capability,
    a client of the groups).  The calls to KVM are recorded with their results, which an
    argument gives.  The source's comments require that an irqfd is assigned only after its
    interrupt number is in the routing table, and that a number leaves the table only after
    its irqfd is deassigned, since some kernels panic otherwise: [legal].  [irqfds_routed]
    proves this for any number of MSI-X devices sharing the table; [masked_vector_assigned]
    and [restore_assigns_first] show that it fails for MSI. *)

From stdpp Require Import gmap.
From S2P Require Import Prelude Allocators Msix.
Import Allocators Msix.

Module Routes.

(** ** Routing entries *)

(** A [kvm_irq_routing_entry] of an MSI route. *)
Record IrqRoutingEntry := { e_gsi : Z; address_lo : Z; address_hi : Z; e_data : Z; e_devid : option Z }.

Definition REMAPPABLE_FORMAT_BIT_MASK : Z := 0x10.
Definition EXT_ID_MASK : Z := 0xfe0.
Definition EXT_ID_SHIFT : Z := 3.

Definition translate_msi_ext_dest_id (lo hi : Z) : Z * Z :=
  if (hi =? 0) && (Z.land lo REMAPPABLE_FORMAT_BIT_MASK =? 0) then
    let ext_id := Z.land lo EXT_ID_MASK in
    (Z.land lo (2 ^ 32 - 1 - EXT_ID_MASK), Z.lor hi (Z.shiftl ext_id EXT_ID_SHIFT))
  else (lo, hi).

(** [devid_cap]: whether KVM has the capability [MsiDevid]. *)
Definition make_routing_entry (devid_cap : bool) (gsi : Z) (cfg : MsiIrqSourceConfig) : IrqRoutingEntry :=
  let '(lo, hi) := translate_msi_ext_dest_id (low_addr cfg) (high_addr cfg) in
  {| e_gsi := gsi; address_lo := lo; address_hi := hi; e_data := irq_data cfg;
     e_devid := if devid_cap then Some (Z.lor (Z.shiftr (Z.land (irq_devid cfg) 0x00ff0000) 8) (Z.land (irq_devid cfg) 0xff)) else None |}.

(** ** State *)

Record InterruptRoute := { gsi : option Z; irq_fd : option Z; registered : bool }.
Record RoutingEntry := { route : IrqRoutingEntry; e_masked : bool }.

(** The calls that leave the program. *)
Inductive sys_call :=
| EventfdNew
| EventfdWrite (fd : Z)
| RegisterIrqfd (fd gsi : Z)
| UnregisterIrqfd (fd gsi : Z)
| SetGsiRouting (entries : list IrqRoutingEntry).

(** [gsi_msi_routes] and [allocator] are shared by all groups; the routes of the groups are
    kept together, by group and index.  The trace is newest first. *)
Record world := {
  gsi_msi_routes : gmap Z RoutingEntry;
  irq_routes : gmap (Z * Z) InterruptRoute;
  allocator : SystemAllocator;
  next_fd : Z;
  trace : list (sys_call * bool) }.

Definition set_trace (t : list (sys_call * bool)) (w : world) : world :=
  {| gsi_msi_routes := gsi_msi_routes w; irq_routes := irq_routes w; allocator := allocator w; next_fd := next_fd w; trace := t |}.
Definition set_route (k : Z * Z) (r : InterruptRoute) (w : world) : world :=
  {| gsi_msi_routes := gsi_msi_routes w; irq_routes := <[k := r]> (irq_routes w); allocator := allocator w; next_fd := next_fd w; trace := trace w |}.
Definition set_entry (g : Z) (e : RoutingEntry) (w : world) : world :=
  {| gsi_msi_routes := <[g := e]> (gsi_msi_routes w); irq_routes := irq_routes w; allocator := allocator w; next_fd := next_fd w; trace := trace w |}.
Definition set_allocator (a : SystemAllocator) (w : world) : world :=
  {| gsi_msi_routes := gsi_msi_routes w; irq_routes := irq_routes w; allocator := a; next_fd := next_fd w; trace := trace w |}.
Definition next_eventfd (w : world) : world :=
  {| gsi_msi_routes := gsi_msi_routes w; irq_routes := irq_routes w; allocator := allocator w; next_fd := next_fd w + 1; trace := trace w |}.

Section calls.
(** The result of a call, given the calls before it; the capabilities of KVM. *)
Context (answer : list (sys_call * bool) → sys_call → bool) (devid_cap : bool).

Definition sys (c : sys_call) : M world unit unit := λ w,
  let b := answer (trace w) c in (if b then Ok tt else Err tt, set_trace ((c, b) :: trace w) w).

(** A call whose error is only logged. *)
Definition ignoring (m : M world unit unit) : M world unit unit := λ w, (Ok tt, (m w).2).

(** ** Routes *)

Definition route_new : M world unit InterruptRoute :=
  _ ← sys EventfdNew; w ← get; _ ← modify next_eventfd;
  mret {| gsi := None; irq_fd := Some (next_fd w); registered := false |}.

(** A route is locked by its group while it is used: [k] is its key. *)
Definition locked {A} (k : Z * Z) (f : InterruptRoute → M world unit A) : M world unit A :=
  w ← get; match irq_routes w !! k with Some r => f r | None => lift (Err tt) end.

Definition route_allocate_gsi (k : Z * Z) (r : InterruptRoute) : M world unit Z :=
  match gsi r with
  | Some existing => mret existing
  | None =>
      w ← get;
      let '(o, a) := sys_allocate_gsi (allocator w) in
      _ ← modify (set_allocator a);
      match o with
      | Ok (Some new_gsi) => _ ← modify (set_route k {| gsi := Some new_gsi; irq_fd := irq_fd r; registered := registered r |}); mret new_gsi
      | _ => lift (Err tt)
      end
  end.

Definition route_enable (k : Z * Z) (r : InterruptRoute) : M world unit unit :=
  match gsi r with
  | None => mret tt
  | Some g =>
      if registered r then mret tt
      else
        _ ← (match irq_fd r with Some fd => sys (RegisterIrqfd fd g) | None => mret tt end);
        modify (set_route k {| gsi := gsi r; irq_fd := irq_fd r; registered := true |})
  end.

Definition route_disable (k : Z * Z) (r : InterruptRoute) : M world unit unit :=
  match gsi r with
  | None => mret tt
  | Some g =>
      if registered r then
        _ ← (match irq_fd r with Some fd => sys (UnregisterIrqfd fd g) | None => mret tt end);
        modify (set_route k {| gsi := gsi r; irq_fd := irq_fd r; registered := false |})
      else mret tt
  end.

Definition route_trigger (r : InterruptRoute) : M world unit unit :=
  match irq_fd r with Some fd => sys (EventfdWrite fd) | None => mret tt end.

Definition route_set_notifier (k : Z * Z) (r : InterruptRoute) (eventfd : option Z) : M world unit unit :=
  _ ← modify (set_route k {| gsi := gsi r; irq_fd := eventfd; registered := registered r |});
  if registered r then
    match gsi r with
    | None => lift Panic
    | Some g =>
        _ ← (match eventfd with Some fd => sys (RegisterIrqfd fd g) | None => mret tt end);
        match irq_fd r with
        | Some old => ignoring (sys (UnregisterIrqfd old g))
        | None => mret tt
        end
    end
  else mret tt.

(** ** Groups *)

(** The order in which a [HashMap] is iterated is not specified; it is [map_to_list]'s here. *)
Definition unmasked_entries (m : gmap Z RoutingEntry) : list IrqRoutingEntry :=
  omap (λ '(_, e), if e_masked e then None else Some (route e)) (map_to_list m).

Definition set_gsi_routes : M world unit unit := w ← get; sys (SetGsiRouting (unmasked_entries (gsi_msi_routes w))).

Definition group_keys (id : Z) (w : world) : list (Z * Z) :=
  filter (λ k, k.1 = id) (map_to_list (irq_routes w)).*1.

Definition enable (id : Z) : M world unit unit := w ← get; for_ (group_keys id w) (λ k, locked k (route_enable k)).
Definition disable (id : Z) : M world unit unit := w ← get; for_ (group_keys id w) (λ k, locked k (route_disable k)).
Definition trigger (id index : Z) : M world unit unit := locked (id, index) route_trigger.

Definition notifier (id index : Z) (w : world) : option Z := r ← irq_routes w !! (id, index); irq_fd r.

Definition update (id index : Z) (config : MsiIrqSourceConfig) (masked set_gsi : bool) : M world unit unit :=
  let k := (id, index) in
  locked k (λ r,
    o ← (if masked then mret (gsi r) else g ← route_allocate_gsi k r; mret (Some g));
    match o with
    | None => mret tt
    | Some g =>
        _ ← (if masked then locked k (route_disable k) else mret tt);
        _ ← modify (set_entry g {| route := make_routing_entry devid_cap g config; e_masked := masked |});
        _ ← (if set_gsi then set_gsi_routes else mret tt);
        if masked then mret tt else locked k (route_enable k)
    end).

Definition set_gsi : M world unit unit := set_gsi_routes.

Definition set_notifier (id index : Z) (eventfd : option Z) : M world unit unit :=
  w ← get; match irq_routes w !! (id, index) with Some r => route_set_notifier (id, index) r eventfd | None => mret tt end.

(** The group [id] of a device is an [InterruptSourceGroup]. *)
Definition method (m : M world unit unit) (w : world) : bool * world :=
  let '(r, w') := m w in (match r with Ok _ => true | _ => false end, w').

Definition msi_group (id : Z) : InterruptSourceGroup world :=
  {| g_enable := method (enable id); g_disable := method (disable id); g_trigger := λ i, method (trigger id i);
     g_update := λ i c m s, method (update id i c m s); g_set_gsi := method set_gsi |}.

(** [create_group]; the new group is [id]. *)
Fixpoint new_routes (l : list Z) : M world unit (list (Z * InterruptRoute)) :=
  match l with
  | [] => mret []
  | i :: l' => r ← route_new; rs ← new_routes l'; mret ((i, r) :: rs)
  end.

Definition create_group (id base count : Z) : M world unit unit :=
  rs ← new_routes (seqZ base count); for_ rs (λ '(i, r), modify (set_route (id, i) r)).

End calls.

(** ** MSI-X devices that share the routes *)

(** Each device has a group of its own. *)
Record system := { shared : world; devices : gmap Z MsixConfig; next_id : Z }.

(** What happens to the devices: one is plugged in, possibly with the state of a snapshot; the
    guest writes a message control register or a table; a device raises an interrupt. *)
Inductive system_event :=
| Plug (msix_vectors devid : Z) (state : option MsixConfigState)
| Ctl (id reg : Z)
| Table (id offset : Z) (data : list Z)
| Interrupt (id : Z) (v : VirtioInterruptMsix) (ty : VirtioInterruptType).

Section system.
Context (answer : list (sys_call * bool) → sys_call → bool) (devid_cap : bool).

Definition on_device (id : Z) (op : InterruptSourceGroup world → M (device world) unit unit) (s : system) : system :=
  match devices s !! id with
  | None => s
  | Some c =>
      let d := (op (msi_group answer devid_cap id) {| config := c; group := shared s |}).2 in
      {| shared := group d; devices := <[id := config d]> (devices s); next_id := next_id s |}
  end.

Definition plug (n devid : Z) (st : option MsixConfigState) (s : system) : system :=
  let id := next_id s in
  match create_group answer id 0 n (shared s) with
  | (Ok _, w1) =>
      let '(r, w2) := new (group_methods := msi_group answer devid_cap id) n devid st w1 in
      {| shared := w2; devices := match r with Ok c => <[id := c]> (devices s) | _ => devices s end; next_id := id + 1 |}
  | (_, w1) => {| shared := w1; devices := devices s; next_id := id + 1 |}
  end.

Definition system_step (s : system) (e : system_event) : system :=
  match e with
  | Plug n devid st => plug n devid st s
  | Ctl id reg => on_device id (λ G, set_msg_ctl (group_methods := G) reg) s
  | Table id offset data => on_device id (λ G, write_table (group_methods := G) offset data) s
  | Interrupt id v ty => on_device id (λ G, Msix.trigger (group_methods := G) v ty) s
  end.

Definition system_new (a : SystemAllocator) : system :=
  {| shared := {| gsi_msi_routes := ∅; irq_routes := ∅; allocator := a; next_fd := 0; trace := [] |}; devices := ∅; next_id := 0 |}.
Definition system_run (a : SystemAllocator) (l : list system_event) : system := foldl system_step (system_new a) l.
End system.

(** ** What KVM requires *)

(** The irqfds that are assigned, and the routing table, after the calls. *)
Fixpoint assigned (t : list (sys_call * bool)) : gset (Z * Z) :=
  match t with
  | [] => ∅
  | (RegisterIrqfd fd g, true) :: t' => {[(fd, g)]} ∪ assigned t'
  | (UnregisterIrqfd fd g, true) :: t' => assigned t' ∖ {[(fd, g)]}
  | _ :: t' => assigned t'
  end.

Fixpoint routing (t : list (sys_call * bool)) : list IrqRoutingEntry :=
  match t with
  | [] => []
  | (SetGsiRouting es, true) :: _ => es
  | _ :: t' => routing t'
  end.

(** An irqfd is assigned after its number is routed, and a number is routed as long as an
    irqfd is assigned to it. *)
Definition call_legal (t : list (sys_call * bool)) (c : sys_call) : Prop :=
  match c with
  | RegisterIrqfd fd g => g ∈ e_gsi <$> routing t
  | SetGsiRouting es => ∀ fd g, (fd, g) ∈ assigned t → g ∈ e_gsi <$> es
  | _ => True
  end.

Fixpoint legal (t : list (sys_call * bool)) : Prop :=
  match t with [] => True | (c, _) :: t' => call_legal t' c ∧ legal t' end.

(** The routes agree with the table and with what KVM was told. *)
Record consistent (w : world) : Prop := {
  co_legal : legal (trace w);
  co_bound : ∀ k r g, irq_routes w !! k = Some r → gsi r = Some g → g < next_gsi (gsi_allocator (allocator w));
  co_own : ∀ k1 k2 r1 r2 g, irq_routes w !! k1 = Some r1 → irq_routes w !! k2 = Some r2 →
           gsi r1 = Some g → gsi r2 = Some g → k1 = k2;
  co_entry : ∀ g e, gsi_msi_routes w !! g = Some e → e_gsi (route e) = g;
  co_registered : ∀ k r, irq_routes w !! k = Some r → registered r = true →
                  ∃ g e, gsi r = Some g ∧ gsi_msi_routes w !! g = Some e ∧ e_masked e = false;
  co_assigned : ∀ fd g, (fd, g) ∈ assigned (trace w) →
                ∃ k r, irq_routes w !! k = Some r ∧ registered r = true ∧ irq_fd r = Some fd ∧ gsi r = Some g }.

(** The groups are below [n]. *)
Definition below (n : Z) (w : world) : Prop := ∀ k r, irq_routes w !! k = Some r → k.1 < n.

Section proofs.
Context (answer : list (sys_call * bool) → sys_call → bool) (devid_cap : bool).

Lemma legal_routed t : legal t → ∀ fd g, (fd, g) ∈ assigned t → g ∈ e_gsi <$> routing t.
Proof.
  induction t as [|[c b] t IH]; intros Hl fd g Ha; [set_solver|]. destruct Hl as [Hc Hl]. specialize (IH Hl fd g).
  destruct c as [|?|fd' g'|fd' g'|es], b; cbn in *; auto.
  - apply elem_of_union in Ha as [Ha|Ha]; [|auto]. apply elem_of_singleton in Ha. by injection Ha as -> ->.
  - apply IH. set_solver.
  - by eapply Hc.
Qed.

Lemma elem_of_unmasked m g e : m !! g = Some e → e_masked e = false → route e ∈ unmasked_entries m.
Proof.
  intros Hm He. apply list_elem_of_omap. exists (g, e). split; [by apply elem_of_map_to_list|]. by rewrite He.
Qed.

(** Under the invariant, the table that is handed to KVM may be. *)
Lemma routes_legal w : consistent w → call_legal (trace w) (SetGsiRouting (unmasked_entries (gsi_msi_routes w))).
Proof.
  intros Hw fd g Ha. destruct (co_assigned _ Hw _ _ Ha) as (k & r & Hk & Hr & _ & Hg).
  destruct (co_registered _ Hw _ _ Hk Hr) as (g' & e & Hg' & He & Hm).
  assert (g' = g) as -> by congruence.
  apply list_elem_of_fmap. exists (route e). split; [symmetry; by apply (co_entry _ Hw)|by eapply elem_of_unmasked].
Qed.

Lemma consistent_call c b w :
  consistent w → call_legal (trace w) c → assigned ((c, b) :: trace w) ⊆ assigned (trace w) →
  consistent (set_trace ((c, b) :: trace w) w).
Proof. intros [] Hc Ha. split; try done. intros fd g Hf. set_solver. Qed.

(** Writing a route whose number does not change, after calls that assign or deassign no
    irqfd but its own. *)
Lemma consistent_change k r reg t w :
  consistent w → irq_routes w !! k = Some r → legal t →
  (reg = true → ∃ g e, gsi r = Some g ∧ gsi_msi_routes w !! g = Some e ∧ e_masked e = false) →
  (∀ fd g, (fd, g) ∈ assigned t →
     reg = true ∧ irq_fd r = Some fd ∧ gsi r = Some g ∨
     (fd, g) ∈ assigned (trace w) ∧ ¬ (irq_fd r = Some fd ∧ gsi r = Some g)) →
  consistent (set_route k {| gsi := gsi r; irq_fd := irq_fd r; registered := reg |} (set_trace t w)).
Proof.
  intros [Hl Hb Ho He Hr Ha] Hk Ht Hex Has. split; cbn; try done.
  - intros k' r' g Hk' Hg'. apply lookup_insert_Some in Hk' as [[<- <-]|[_ Hk']]; cbn in Hg'; eauto.
  - intros k1 k2 r1 r2 g H1 H2 Hg1 Hg2.
    apply lookup_insert_Some in H1 as [[<- <-]|[Hn1 H1]], H2 as [[<- <-]|[Hn2 H2]]; cbn in *; eauto.
  - intros k' r' Hk' Hr'. apply lookup_insert_Some in Hk' as [[<- <-]|[_ Hk']]; [by apply Hex|by eapply Hr].
  - intros fd g [(Hreg & Hfd & Hg)|[Hf Hn]]%Has.
    + eexists k, _. rewrite lookup_insert_eq. by split.
    + destruct (Ha fd g Hf) as (k' & r' & Hk' & Hr' & Hfd & Hg).
      destruct (decide (k = k')) as [<-|Hne]; [|exists k', r'; by rewrite lookup_insert_ne].
      assert (r' = r) as -> by congruence. tauto.
Qed.

(** An irqfd that is assigned belongs to the route that has its number. *)
Lemma assigned_own k r w fd g :
  consistent w → irq_routes w !! k = Some r → gsi r = Some g → (fd, g) ∈ assigned (trace w) → irq_fd r = Some fd ∧ registered r = true.
Proof.
  intros Hw Hk Hg Ha. destruct (co_assigned _ Hw fd g Ha) as (k' & r' & Hk' & Hr' & Hfd & Hg').
  assert (k' = k) as -> by (by eapply (co_own _ Hw)). by assert (r' = r) as -> by congruence.
Qed.

Lemma consistent_entry g e w :
  consistent w → e_gsi (route e) = g →
  (e_masked e = true → ∀ k r, irq_routes w !! k = Some r → gsi r = Some g → registered r = false) →
  consistent (set_entry g e w).
Proof.
  intros [Hl Hb Ho He Hr Ha] Hg Hm. split; cbn; try done.
  - intros g' e' Hg'. apply lookup_insert_Some in Hg' as [[<- <-]|[_ Hg']]; [done|by apply He].
  - intros k r Hk Hreg. destruct (Hr k r Hk Hreg) as (g' & e' & Hg' & He' & Hm').
    destruct (decide (g = g')) as [->|Hne]; [|exists g', e'; by rewrite lookup_insert_ne].
    exists g', e. rewrite lookup_insert_eq. split_and!; [done..|]. destruct (e_masked e); [|done].
    by rewrite (Hm eq_refl k r Hk Hg') in Hreg.
Qed.

(** Deassigning the irqfd of a route. *)
Lemma disable_consistent k r w r' w' :
  consistent w → irq_routes w !! k = Some r → route_disable answer k r w = (r', w') →
  consistent w' ∧ gsi_msi_routes w' = gsi_msi_routes w ∧
  (r' = Ok tt → gsi r ≠ None → ∃ r1, irq_routes w' !! k = Some r1 ∧ gsi r1 = gsi r ∧ registered r1 = false).
Proof.
  intros Hw Hk. unfold route_disable. destruct (gsi r) as [g|] eqn:Hg; [|by intros [= <- <-]].
  destruct (registered r) eqn:Hr; [|intros [= <- <-]; split_and!; [done..|intros _ _; by exists r]].
  assert (∀ t, legal t → assigned t ⊆ assigned (trace w) →
    (∀ fd, irq_fd r = Some fd → (fd, g) ∉ assigned t) →
    consistent (set_route k {| gsi := gsi r; irq_fd := irq_fd r; registered := false |} (set_trace t w))) as Hc.
  { intros t Hlt Hsub Hno. apply consistent_change; [done..|]. intros fd g' Hf. right. split; [set_solver|].
    intros [Hfd Hg']. assert (g' = g) as -> by congruence. by apply (Hno fd). }
  rewrite Hg in Hc. pose proof (co_legal _ Hw) as Hl.
  destruct (irq_fd r) as [fd|] eqn:Hfd; cbn.
  - unfold sys. unfold mbind, M_bind. destruct (answer (trace w) (UnregisterIrqfd fd g)); intros [= <- <-].
    + split_and!; [apply Hc; [done|set_solver|]|done|].
      * intros fd' [= <-]. set_solver.
      * intros _ _. eexists. cbn. by rewrite lookup_insert_eq.
    + split_and!; [by apply consistent_call|done..].
  - intros [= <- <-]. split_and!; [|done|].
    + specialize (Hc (trace w)). destruct w. by apply Hc.
    + intros _ _. eexists. cbn. by rewrite lookup_insert_eq.
Qed.

(** Assigning it, when its number is routed. *)
Lemma enable_consistent k r w :
  consistent w → irq_routes w !! k = Some r →
  (∀ g, gsi r = Some g → g ∈ e_gsi <$> routing (trace w) ∧ ∃ e, gsi_msi_routes w !! g = Some e ∧ e_masked e = false) →
  consistent (route_enable answer k r w).2.
Proof.
  intros Hw Hk Hrt. unfold route_enable. destruct (gsi r) as [g|] eqn:Hg; [|done].
  destruct (registered r) eqn:Hr; [done|]. destruct (Hrt g eq_refl) as (Hin & e & He & Hm).
  pose proof (co_legal _ Hw) as Hl. rewrite <-Hg.
  assert (∀ t, legal t → (∀ fd' g', (fd', g') ∈ assigned t → irq_fd r = Some fd' ∧ g' = g ∨ (fd', g') ∈ assigned (trace w)) →
    consistent (set_route k {| gsi := gsi r; irq_fd := irq_fd r; registered := true |} (set_trace t w))) as Hc.
  { intros t Hlt Hsub. apply consistent_change; [done..|intros _; by exists g, e|].
    intros fd g' [[Hfd ->]|Hf]%Hsub; [by left|]. destruct (decide (g' = g)) as [->|Hne]; [|right; split; [done|intros [_ ?]; congruence]].
    destruct (assigned_own k r w fd g Hw Hk Hg Hf). congruence. }
  destruct (irq_fd r) as [fd|] eqn:Hfd.
  - unfold sys, mbind, M_bind. destruct (answer (trace w) (RegisterIrqfd fd g)); cbn.
    + apply Hc; [done|]. cbn. intros fd' g' [Hx%elem_of_singleton|Hx]%elem_of_union; [left|by right]. by injection Hx as -> ->.
    + by apply consistent_call.
  - specialize (Hc (trace w) Hl). destruct w. apply Hc. by right.
Qed.

Lemma allocate_consistent k r w r' w' :
  consistent w → irq_routes w !! k = Some r → route_allocate_gsi k r w = (r', w') →
  consistent w' ∧ ∀ g, r' = Ok g → ∃ r1, irq_routes w' !! k = Some r1 ∧ gsi r1 = Some g.
Proof.
  intros Hw Hk. unfold route_allocate_gsi. destruct (gsi r) as [g|] eqn:Hg.
  { intros [= <- <-]. split; [done|]. intros g' [= <-]. by exists r. }
  unfold mbind, M_bind, get, modify, sys_allocate_gsi, on_gsi, allocate_gsi. cbn.
  destruct Hw as [Hl Hb Ho He Hr Ha].
  assert (∀ fd g, (fd, g) ∈ assigned (trace w) → ∃ k' r', k' ≠ k ∧ irq_routes w !! k' = Some r' ∧
    registered r' = true ∧ irq_fd r' = Some fd ∧ gsi r' = Some g) as Ha'.
  { intros fd g Hf. destruct (Ha fd g Hf) as (k' & r2 & ?). exists k', r2. split; [|done]. naive_solver congruence. }
  destruct (next_gsi _ + 1 <=? U32_MAX) eqn:Hn; intros [= <- <-].
  - split; [|intros g [= <-]; eexists; cbn; by rewrite lookup_insert_eq]. split; cbn; try done.
    + intros k' r2 g Hk' Hg'. apply lookup_insert_Some in Hk' as [[<- <-]|[_ Hk']]; cbn in Hg'; [injection Hg' as <-; lia|].
      pose proof (Hb _ _ _ Hk' Hg'). lia.
    + intros k1 k2 r1 r2 g H1 H2 Hg1 Hg2.
      apply lookup_insert_Some in H1 as [[<- <-]|[Hn1 H1]], H2 as [[<- <-]|[Hn2 H2]]; cbn in *; eauto.
      * injection Hg1 as <-. pose proof (Hb _ _ _ H2 Hg2). lia.
      * injection Hg2 as <-. pose proof (Hb _ _ _ H1 Hg1). lia.
    + intros k' r2 Hk' Hr2. apply lookup_insert_Some in Hk' as [[<- <-]|[_ Hk']]; [|by eapply Hr].
      cbn in Hr2. destruct (Hr k r Hk Hr2) as (g & e & Hg' & _). congruence.
    + intros fd g Hf. destruct (Ha' fd g Hf) as (k' & r2 & Hne & ?). exists k', r2. by rewrite lookup_insert_ne.
  - split; [|done]. by split.
Qed.

Lemma set_routes_consistent w :
  consistent w → consistent (set_gsi_routes answer w).2 ∧
  ∀ r, (set_gsi_routes answer w).1 = Ok r → routing (trace (set_gsi_routes answer w).2) = unmasked_entries (gsi_msi_routes w).
Proof.
  intros Hw. unfold set_gsi_routes, mbind, M_bind, get, sys. cbn. split.
  - apply consistent_call; [done|by apply routes_legal|]. by destruct (answer _ _).
  - by destruct (answer _ _).
Qed.

Lemma set_routes_frame w :
  irq_routes (set_gsi_routes answer w).2 = irq_routes w ∧ gsi_msi_routes (set_gsi_routes answer w).2 = gsi_msi_routes w.
Proof. done. Qed.

Lemma bind_consistent {A B} (m : M world unit A) (f : A → M world unit B) w :
  consistent (m w).2 → (∀ a w1, m w = (Ok a, w1) → consistent w1 → consistent (f a w1).2) → consistent ((m ≫= f) w).2.
Proof. intros Hm Hf. unfold mbind, M_bind. destruct (m w) as [[] ?]; cbn in *; auto. Qed.

Lemma locked_run {A} k (f : InterruptRoute → M world unit A) w r :
  irq_routes w !! k = Some r → locked k f w = f r w.
Proof. intros Hk. unfold locked, mbind, M_bind, get. cbn. by rewrite Hk. Qed.

(** An update of a route that also hands the table to KVM. *)
Lemma update_consistent id i cfg masked w :
  consistent w → consistent (update answer devid_cap id i cfg masked true w).2.
Proof.
  intros Hw. unfold update. destruct (irq_routes w !! (id, i)) as [r|] eqn:Hk.
  2:{ unfold locked, mbind, M_bind, get. cbn. by rewrite Hk. }
  rewrite (locked_run _ _ _ _ Hk). destruct masked.
  - erewrite m_bind_run by reflexivity. destruct (gsi r) as [g|] eqn:Hg; [|done].
    destruct (route_disable answer (id, i) r w) as [o w1] eqn:Hd.
    destruct (disable_consistent _ _ _ _ _ Hw Hk Hd) as (Hw1 & _ & Hun).
    apply bind_consistent; rewrite (locked_run _ _ _ _ Hk), Hd; [done|]. intros [] w1' [= -> <-] _.
    destruct Hun as (r1 & Hk1 & Hg1 & Hr1); [done|congruence|].
    apply bind_consistent; [|intros [] w2 [= <-] Hw2].
    + cbn. apply consistent_entry; [done|by cbn; unfold make_routing_entry; destruct (translate_msi_ext_dest_id _ _)|].
      intros _ k r2 Hk2 Hg2. assert (k = (id, i)) as -> by (eapply (co_own _ Hw1); eauto; congruence). congruence.
    + apply bind_consistent; [by apply set_routes_consistent|done].
  - destruct (route_allocate_gsi (id, i) r w) as [o w1] eqn:Hd.
    destruct (allocate_consistent _ _ _ _ _ Hw Hk Hd) as [Hw1 Hal].
    apply bind_consistent; unfold mbind at 1, M_bind at 1; rewrite Hd; [by destruct o|].
    destruct o as [g| | |]; [|done..]. intros ? ? [= <- <-] _. destruct (Hal g eq_refl) as (r1 & Hk1 & Hg1).
    erewrite m_bind_run by reflexivity.
    apply bind_consistent; [|intros [] w2 [= <-] Hw2].
    + cbn. apply consistent_entry; [done|by cbn; unfold make_routing_entry; destruct (translate_msi_ext_dest_id _ _)|done].
    + destruct (set_routes_consistent _ Hw2) as [Hw3 Hrt].
      apply bind_consistent; [done|]. intros [] w3 Hs _. rewrite Hs in Hw3, Hrt. specialize (Hrt tt eq_refl).
      match type of Hs with set_gsi_routes _ ?w' = _ => pose proof (set_routes_frame w') as [Hi Hgr] end.
      rewrite Hs in Hi, Hgr. cbn [snd irq_routes gsi_msi_routes set_entry] in Hi, Hgr, Hw3, Hrt.
      rewrite (locked_run _ _ _ r1) by (by rewrite Hi). apply enable_consistent; [done|by rewrite Hi|].
      intros g' Hg'. assert (g' = g) as -> by congruence. rewrite Hgr, Hrt, lookup_insert_eq. split; [|by eexists].
      apply list_elem_of_fmap. eexists. split; [|eapply elem_of_unmasked; [apply lookup_insert_eq|done]].
      cbn. unfold make_routing_entry. by destruct (translate_msi_ext_dest_id _ _).
Qed.

Lemma sys_consistent c w :
  consistent w → match c with EventfdNew | EventfdWrite _ => True | _ => False end → consistent (sys answer c w).2.
Proof. intros Hw Hc. unfold sys. cbn. destruct c; try done; by apply consistent_call; [..|destruct (answer _ _)]. Qed.

Lemma trigger_consistent id i w : consistent w → consistent (trigger answer id i w).2.
Proof.
  intros Hw. unfold trigger, locked. apply bind_consistent; [done|]. intros ? ? [= <- <-] _.
  destruct (irq_routes w !! (id, i)) as [r|]; [|done]. unfold route_trigger.
  destruct (irq_fd r); [by apply sys_consistent|done].
Qed.

(** *** Groups *)

Lemma below_route n k r w : below n w → k.1 < n → below n (set_route k r w).
Proof. intros Hb Hk k' r' Hk'. cbn in Hk'. apply lookup_insert_Some in Hk' as [[<- _]|[_ Hk']]; eauto. Qed.

Definition keeps {A} (P : world → Prop) (m : M world unit A) : Prop := ∀ w, P w → P (m w).2.

Lemma keeps_seq {A B} P (m : M world unit A) (f : A → M world unit B) : keeps P m → (∀ a, keeps P (f a)) → keeps P (m ≫= f).
Proof. intros Hm Hf w Hw. specialize (Hm w Hw). unfold mbind, M_bind. destruct (m w) as [[a| | |] w1]; [by apply Hf|done..]. Qed.

Lemma keeps_locked {A} P k (f : InterruptRoute → M world unit A) : (∀ r, keeps P (f r)) → keeps P (locked k f).
Proof. intros Hf. apply keeps_seq; [by intros w|]. intros w. destruct (_ !! _); [done|by intros ?]. Qed.

Lemma update_below n id i cfg masked set_gsi : id < n → keeps (below n) (update answer devid_cap id i cfg masked set_gsi).
Proof.
  intros Hid. assert (∀ r, keeps (below n) (modify (E := unit) (set_route (id, i) r))) as Hset.
  { intros r w Hw. by apply below_route. }
  assert (∀ (o : option Z) c, keeps (below n) (match o with Some fd => sys answer (c fd) | None => mret tt end)) as Hsys
    by (intros [] c w Hw; done).
  apply keeps_locked. intros r. apply keeps_seq.
  - destruct masked; [by intros w|]. apply keeps_seq; [|by intros g w]. unfold route_allocate_gsi.
    destruct (gsi r); [by intros w|]. intros w Hw.
    unfold mbind, M_bind, get, modify, sys_allocate_gsi, on_gsi, allocate_gsi. cbn.
    destruct (_ <=? _); cbn; [|done]. by apply below_route.
  - intros [g|]; [|by intros w].
    apply keeps_seq; [destruct masked; [|by intros w]; apply keeps_locked; intros r1; unfold route_disable;
      destruct (gsi r1); [|by intros w]; destruct (registered r1); [|by intros w]; by apply keeps_seq; [apply Hsys|]|].
    intros _. apply keeps_seq; [by intros w|]. intros _. apply keeps_seq; [by destruct set_gsi; intros w|]. intros _.
    destruct masked; [by intros w|]. apply keeps_locked. intros r1. unfold route_enable.
    destruct (gsi r1); [|by intros w]. destruct (registered r1); [by intros w|]. by apply keeps_seq; [apply Hsys|].
Qed.

Lemma run_calls_consistent n id l w :
  id < n → consistent w ∧ below n w →
  let w' := run_calls (H := msi_group answer devid_cap id) l w in consistent w' ∧ below n w'.
Proof.
  intros Hid. revert w. induction l as [|c l IH]; intros w Hw; [done|]. cbn [run_calls]. apply IH. destruct Hw as [Hw Hb].
  assert (∀ m, (method m w).2 = (m w).2) as Hm by (intros m; unfold method; by destruct (m w)).
  destruct c as [i cfg m|i]; cbn; rewrite Hm.
  - split; [by apply update_consistent|by apply (update_below n)].
  - split; [by apply trigger_consistent|]. apply (keeps_locked (below n)); [|done].
    intros r w' Hw'. unfold route_trigger. by destruct (irq_fd r).
Qed.

(** *** A new group *)

Lemma route_new_keeps n : keeps (λ w, consistent w ∧ below n w) (route_new answer).
Proof.
  apply keeps_seq; [intros w [Hw Hb]; split; [by apply sys_consistent|done]|]. intros _.
  apply keeps_seq; [by intros w|]. intros w0. apply keeps_seq; [|by intros ? w].
  intros w [[] Hb]. by split.
Qed.

Lemma new_routes_keeps n l : keeps (λ w, consistent w ∧ below n w) (new_routes answer l).
Proof.
  induction l as [|i l IH]; [by intros w|]. apply keeps_seq; [apply route_new_keeps|]. intros r.
  apply keeps_seq; [done|]. by intros ? w.
Qed.

(** The routes of a new group have no number. *)
Definition unused (r : InterruptRoute) : Prop := gsi r = None ∧ registered r = false.

Lemma new_routes_unused l w rs w' : new_routes answer l w = (Ok rs, w') → Forall (λ p, unused p.2) rs.
Proof.
  revert w rs w'. induction l as [|i l IH]; intros w rs w'; cbn [new_routes]; [by intros [= <- _]|].
  intros (r & w1 & Hr & Hrs)%m_bind_ok. apply m_bind_ok in Hrs as (rs' & w2 & Hl & [= <- _]).
  constructor; [|by eapply IH]. unfold route_new in Hr. apply m_bind_ok in Hr as (? & ? & _ & Hr).
  by injection Hr as <- _.
Qed.

Lemma consistent_unused k r w :
  consistent w → (∀ r', irq_routes w !! k = Some r' → unused r') → unused r → consistent (set_route k r w).
Proof.
  intros [Hl Hb Ho He Hr Ha] Hk [Hg Hreg]. split; cbn; try done.
  - intros k' r' g Hk' Hg'. apply lookup_insert_Some in Hk' as [[<- <-]|[_ Hk']]; [congruence|eauto].
  - intros k1 k2 r1 r2 g H1 H2 Hg1 Hg2.
    apply lookup_insert_Some in H1 as [[<- <-]|[Hn1 H1]], H2 as [[<- <-]|[Hn2 H2]]; cbn in *; eauto; congruence.
  - intros k' r' Hk' Hr'. apply lookup_insert_Some in Hk' as [[<- <-]|[_ Hk']]; [congruence|eauto].
  - intros fd g Hf. destruct (Ha fd g Hf) as (k' & r' & Hk' & Hr' & ?).
    destruct (decide (k = k')) as [<-|Hne]; [destruct (Hk r' Hk'); congruence|exists k', r'; by rewrite lookup_insert_ne].
Qed.

Lemma create_group_consistent n m w :
  consistent w ∧ below n w →
  let w' := (create_group answer n 0 m w).2 in consistent w' ∧ below (n + 1) w'.
Proof.
  intros Hw w'. subst w'. unfold create_group, mbind, M_bind. pose proof (new_routes_keeps n (seqZ 0 m) w Hw) as Hn.
  destruct (new_routes answer (seqZ 0 m) w) as [o w1] eqn:Hnew. destruct Hn as [Hw1 Hb1].
  assert (below (n + 1) w1) as Hb by (intros k r Hk; pose proof (Hb1 _ _ Hk); lia).
  destruct o as [rs| | |]; [|done..]. pose proof (new_routes_unused _ _ _ _ Hnew) as Hrs.
  assert (∀ k r, irq_routes w1 !! k = Some r → k.1 = n → unused r) as Hfresh.
  { intros k r Hk <-. pose proof (Hb1 _ _ Hk). lia. }
  clear Hnew Hw Hb1. revert w1 Hw1 Hb Hfresh. induction Hrs as [|[i r] rs Hr _ IH]; intros w1 Hw1 Hb Hfresh; [done|].
  cbn. apply IH.
  - apply consistent_unused; [done| |done]. intros r' Hr'. by eapply Hfresh.
  - apply below_route; [done|cbn; lia].
  - intros k r' Hk Hkn. cbn in Hk. apply lookup_insert_Some in Hk as [[<- <-]|[_ Hk]]; [done|by eapply Hfresh].
Qed.

(** *** The system *)

Record sound (s : system) : Prop := {
  so_shared : consistent (shared s) ∧ below (next_id s) (shared s);
  so_ids : ∀ id c, devices s !! id = Some c → id < next_id s }.

Lemma on_device_sound id op s :
  sound s → (∀ d, ∃ l, group (op (msi_group answer devid_cap id) d).2 = run_calls (H := msi_group answer devid_cap id) l (group d)) →
  sound (on_device answer devid_cap id op s).
Proof.
  intros [Hw Hids] Hop. unfold on_device. destruct (devices s !! id) as [c|] eqn:Hc; [|done].
  destruct (Hop {| config := c; group := shared s |}) as [l Hl]. split; cbn in *.
  - rewrite Hl. apply run_calls_consistent; [by eapply Hids|done].
  - intros id' c'. intros [[<- _]|[_ Hc']]%lookup_insert_Some; by eapply Hids.
Qed.

Lemma plug_sound n devid st s : sound s → sound (plug answer devid_cap n devid st s).
Proof.
  intros [Hw Hids]. unfold plug. pose proof (create_group_consistent (next_id s) n (shared s) Hw) as Hc. cbv zeta in Hc.
  assert (∀ id c, devices s !! id = Some c → id < next_id s + 1) as Hids' by (intros id c Hid; pose proof (Hids _ _ Hid); lia).
  destruct (create_group answer (next_id s) 0 n (shared s)) as [[[]| | |] w1]; [|by split..].
  destruct (calls_new (H := msi_group answer devid_cap (next_id s)) n devid st w1) as [l Hl].
  destruct (new n devid st w1) as [r w2]. cbn in Hl. subst w2.
  split; cbn; [apply run_calls_consistent; [lia|done]|]. intros id c.
  destruct r; [|by apply Hids'..]. intros [[<- _]|[_ Hid]]%lookup_insert_Some; [lia|by eapply Hids'].
Qed.

Lemma system_new_sound a : sound (system_new a).
Proof.
  split; cbn; [split; [split|]|]; cbn; try done.
  all: try (intros *; rewrite lookup_empty; done).
Qed.

Lemma system_step_sound s e : sound s → sound (system_step answer devid_cap s e).
Proof.
  intros Hs. destruct e as [n devid st|id reg|id offset data|id v ty]; cbn [system_step]; [by apply plug_sound|..];
    apply on_device_sound; try done; intros d;
    [apply calls_set_msg_ctl|apply calls_write_table|apply calls_virtio_trigger].
Qed.
End proofs.

(** C6: however the guests of MSI-X devices that share the routing table write their message
    control registers and tables, whatever the devices raise and whichever calls fail, an
    irqfd is assigned only after its number was routed and stays routed while it is
    assigned. *)
Theorem irqfds_routed answer devid_cap a l :
  let t := trace (shared (system_run answer devid_cap a l)) in
  legal t ∧ ∀ fd g, (fd, g) ∈ assigned t → g ∈ e_gsi <$> routing t.
Proof.
  intros t. assert (sound (system_run answer devid_cap a l)) as [[Hw _] _].
  { induction l as [|e l IH] using rev_ind; [apply system_new_sound|].
    unfold system_run. rewrite foldl_app. apply system_step_sound, IH. }
  split; [apply Hw|]. intros fd g. apply legal_routed, Hw.
Qed.

(** Two devices with two vectors each: the guest switches both on and unmasks an entry of
    each; masking one of them again deassigns its irqfd and takes its number out of the table. *)
Definition demo_allocator : SystemAllocator :=
  let none := {| base := 0; end_ := 0; ranges := [] |} in
  {| io_address_space := none; platform_mmio_address_space := none;
     gsi_allocator := {| apics := [(5, 19)]; next_irq := 5; next_gsi := 24 |} |}.

Definition demo_run : list system_event :=
  [Plug 2 8 None; Plug 2 16 None; Ctl 0 0x8001; Ctl 1 0x8001; Table 0 12 [0; 0; 0; 0]; Table 1 28 [0; 0; 0; 0];
   Ctl 0 0xc001; Table 0 12 [1; 0; 0; 0]; Ctl 0 0x8001].

Lemma demo_routed :
  let t l := trace (shared (system_run (λ _ _, true) false demo_allocator l)) in
  assigned (t (take 6 demo_run)) = {[(0, 24); (3, 25)]} ∧ e_gsi <$> routing (t (take 6 demo_run)) = [25; 24] ∧
  assigned (t demo_run) = {[(3, 25)]} ∧ e_gsi <$> routing (t demo_run) = [25].
Proof. vm_compute. repeat split. Qed.

End Routes.

(** ** The MSI capability *)
Module Msi.
Import Routes.

Definition MSI_CTL_ENABLE : Z := 0x1.
Definition MSI_CTL_MULTI_MSG_ENABLE : Z := 0x70.
Definition MSI_CTL_64_BITS : Z := 0x80.
Definition MSI_CTL_PER_VECTOR : Z := 0x100.
Definition MSI_MSG_CTL_OFFSET : Z := 0x2.
Definition MSI_MSG_ADDR_LO_OFFSET : Z := 0x4.
Definition MSI_MSG_ADDR_LO_MASK : Z := 0xfffffffc.

Definition msi_num_enabled_vectors (msg_ctl : Z) : Z :=
  let field := Z.land (Z.shiftr msg_ctl 4) 0x7 in if 5 <? field then 0 else Z.shiftl 1 field.

Record MsiCap := { m_ctl : Z; m_addr_lo : Z; m_addr_hi : Z; m_data : Z; mask_bits : Z; pending_bits : Z }.

Definition addr_64_bits (c : MsiCap) : bool := Z.land (m_ctl c) MSI_CTL_64_BITS =? MSI_CTL_64_BITS.
Definition per_vector_mask (c : MsiCap) : bool := Z.land (m_ctl c) MSI_CTL_PER_VECTOR =? MSI_CTL_PER_VECTOR.
Definition msi_enabled (c : MsiCap) : bool := Z.land (m_ctl c) MSI_CTL_ENABLE =? MSI_CTL_ENABLE.
Definition num_enabled_vectors (c : MsiCap) : Z := msi_num_enabled_vectors (m_ctl c).
Definition vector_masked (c : MsiCap) (vector : Z) : bool :=
  if per_vector_mask c then Z.land (Z.shiftr (mask_bits c) vector) 1 =? 1 else false.
Definition size (c : MsiCap) : Z := 0xa + (if addr_64_bits c then 0x4 else 0) + (if per_vector_mask c then 0xa else 0).

(** The bits of the control register that the guest may write. *)
Definition CTL_WRITABLE : Z := Z.lor MSI_CTL_ENABLE MSI_CTL_MULTI_MSG_ENABLE.
Definition with_m_ctl (v : Z) (c : MsiCap) : MsiCap :=
  {| m_ctl := Z.lor (Z.land (m_ctl c) (2 ^ 16 - 1 - CTL_WRITABLE)) (Z.land v CTL_WRITABLE); m_addr_lo := m_addr_lo c;
     m_addr_hi := m_addr_hi c; m_data := m_data c; mask_bits := mask_bits c; pending_bits := pending_bits c |}.
Definition with_m_data (v : Z) (c : MsiCap) : MsiCap :=
  {| m_ctl := m_ctl c; m_addr_lo := m_addr_lo c; m_addr_hi := m_addr_hi c; m_data := v; mask_bits := mask_bits c; pending_bits := pending_bits c |}.
Definition with_addr_lo (v : Z) (c : MsiCap) : MsiCap :=
  {| m_ctl := m_ctl c; m_addr_lo := v; m_addr_hi := m_addr_hi c; m_data := m_data c; mask_bits := mask_bits c; pending_bits := pending_bits c |}.
Definition with_addr_hi (v : Z) (c : MsiCap) : MsiCap :=
  {| m_ctl := m_ctl c; m_addr_lo := m_addr_lo c; m_addr_hi := v; m_data := m_data c; mask_bits := mask_bits c; pending_bits := pending_bits c |}.
Definition with_mask_bits (v : Z) (c : MsiCap) : MsiCap :=
  {| m_ctl := m_ctl c; m_addr_lo := m_addr_lo c; m_addr_hi := m_addr_hi c; m_data := m_data c; mask_bits := v; pending_bits := pending_bits c |}.

Definition cap_update (offset : Z) (data : list Z) (c : MsiCap) : MsiCap :=
  let '(msg_data_offset, addr_hi_offset, mask_bits_offset) :=
    if addr_64_bits c then (0xc, Some 0x8, if per_vector_mask c then Some 0x10 else None)
    else (0x8, None, if per_vector_mask c then Some 0xc else None) in
  let value := of_le_bytes data in
  if zlen data =? 2 then
    if offset =? MSI_MSG_CTL_OFFSET then with_m_ctl value c
    else if offset =? msg_data_offset then with_m_data value c else c
  else if zlen data =? 4 then
    if offset =? 0 then with_m_ctl (Z.shiftr value 16) c
    else if offset =? MSI_MSG_ADDR_LO_OFFSET then with_addr_lo (Z.land value MSI_MSG_ADDR_LO_MASK) c
    else if offset =? msg_data_offset then with_m_data (value mod 2 ^ 16) c
    else if bool_decide (addr_hi_offset = Some offset) then with_addr_hi value c
    else if bool_decide (mask_bits_offset = Some offset) then with_mask_bits value c else c
  else c.

Section group.
Context {G : Type} {group_methods : InterruptSourceGroup G}.

Definition msi_source (c : MsiCap) : MsiIrqSourceConfig :=
  {| high_addr := m_addr_hi c; low_addr := m_addr_lo c; irq_data := m_data c; irq_devid := 0 |}.

Fixpoint restore_vectors (c : MsiCap) (l : list Z) (g : G) : bool * G :=
  match l with
  | [] => (true, g)
  | idx :: l' =>
      let '(ok, g1) := g_update idx (msi_source c) (vector_masked c idx) false g in
      if ok : bool then restore_vectors c l' g1 else (false, g1)
  end.

Definition msi_new (ctl : Z) (state : option MsiCap) (g : G) : res Error MsiCap * G :=
  match state with
  | None => (Ok {| m_ctl := ctl; m_addr_lo := 0; m_addr_hi := 0; m_data := 0; mask_bits := 0; pending_bits := 0 |}, g)
  | Some c =>
      if msi_enabled c then
        let '(ok1, g1) := restore_vectors c (seqZ 0 (num_enabled_vectors c)) g in
        if ok1 : bool then
          let '(ok2, g2) := g_set_gsi g1 in
          if ok2 : bool then let '(ok3, g3) := g_enable g2 in (if ok3 : bool then Ok c else Err EnableInterruptRoute, g3)
          else (Err EnableInterruptRoute, g2)
        else (Err UpdateInterruptRoute, g1)
      else (Ok c, g)
  end.

Definition msi_update (offset : Z) (data : list Z) (c : MsiCap) (g : G) : MsiCap * G :=
  let c' := cap_update offset data c in
  let g' :=
    if msi_enabled c' then
      let g1 := foldl (λ g idx, (g_update idx (msi_source c') (vector_masked c' idx) true g).2) g (seqZ 0 (num_enabled_vectors c')) in
      if negb (msi_enabled c) then (g_enable g1).2 else g1
    else if msi_enabled c then (g_disable g).2 else g in
  (c', g').
End group.

(** ** Vectors with masks *)

Definition demo_world (count : Z) : world :=
  (create_group (λ _ _, true) 0 0 count (shared (system_new demo_allocator))).2.

Definition writes (l : list (Z * list Z)) (c : MsiCap) (w : world) : MsiCap * world :=
  foldl (λ '(c, w) '(o, d), msi_update (group_methods := msi_group (λ _ _, true) false 0) o d c w) (c, w) l.

(** The guest enables MSI with one vector, masks the vector, disables MSI and enables it
    again: the irqfd of the masked vector is assigned, although its number is not in the
    routing table. *)
Lemma masked_vector_assigned :
  let c := {| m_ctl := MSI_CTL_PER_VECTOR; m_addr_lo := 0; m_addr_hi := 0; m_data := 0; mask_bits := 0; pending_bits := 0 |} in
  let '(c', w) := writes [(2, [1; 0]); (12, [1; 0; 0; 0]); (2, [0; 0]); (2, [1; 0])] c (demo_world 1) in
  vector_masked c' 0 = true ∧ assigned (trace w) = {[(0, 24)]} ∧ routing (trace w) = [] ∧ ¬ legal (trace w).
Proof.
  cbv zeta. destruct (writes _ _ _) as [c' w] eqn:Hw. vm_compute in Hw. injection Hw as <- <-.
  split_and!; [reflexivity..|]. cbn. set_solver.
Qed.

(** Restoring an enabled vector assigns its irqfd before the routing table is set. *)
Lemma restore_assigns_first :
  let c := {| m_ctl := MSI_CTL_ENABLE; m_addr_lo := 0; m_addr_hi := 0; m_data := 0; mask_bits := 0; pending_bits := 0 |} in
  ∃ w e, msi_new (group_methods := msi_group (λ _ _, true) false 0) 0 (Some c) (demo_world 1) = (Ok c, w) ∧
         trace w = [(SetGsiRouting [e], true); (RegisterIrqfd 0 24, true); (EventfdNew, true)] ∧ ¬ legal (trace w).
Proof. eexists _, _. split_and!; [reflexivity..|]. cbn. set_solver. Qed.

End Msi.
