(* ===== verification/VsockPacket.v ===== *)
(** * Packets of a vsock device

    Model of [virtio-devices/src/vsock/packet.rs]: a packet is taken from a chain of
    descriptors, with its header copied and its data either borrowed from guest memory or
    gathered into a buffer.  Guest memory, its mapping and the translation of addresses are
    arguments.  [tx_data] says that the data of a packet with data descriptors is what they
    hold; [short_packet] exhibits a packet whose buffer is smaller than the length in its
    header, which is accepted when header and data share a descriptor. *)

From S2P Require Import Prelude.

Module Packet.

Definition VSOCK_PKT_HDR_SIZE : Z := 44.
Definition MAX_PKT_BUF_SIZE : Z := 64 * 1024.

Inductive VsockError :=
| BufDescTooSmall | BufDescMissing | GuestMemory | HdrDescTooSmall (len : Z) | HdrDescMissing | InvalidPktLen (len : Z)
| NoData | PktBufMissing | UnreadableDescriptor | UnwritableDescriptor.

(** ** The header *)
Record header := {
  src_cid : Z; dst_cid : Z; src_port : Z; dst_port : Z; h_len : Z; type_ : Z; op : Z; flags : Z; buf_alloc : Z; fwd_cnt : Z }.

(** The accessors of the header, which read it at fixed offsets. *)
Definition decode_hdr (l : list Z) : header :=
  let field off n := of_le_bytes (slice l off n) in
  {| src_cid := field 0 8; dst_cid := field 8 8; src_port := field 16 4; dst_port := field 20 4; h_len := field 24 4;
     type_ := field 28 2; op := field 30 2; flags := field 32 4; buf_alloc := field 36 4; fwd_cnt := field 40 4 |}.

Definition encode_hdr (h : header) : list Z :=
  le_bytes 8 (src_cid h) ++ le_bytes 8 (dst_cid h) ++ le_bytes 4 (src_port h) ++ le_bytes 4 (dst_port h) ++
  le_bytes 4 (h_len h) ++ le_bytes 2 (type_ h) ++ le_bytes 2 (op h) ++ le_bytes 4 (flags h) ++
  le_bytes 4 (buf_alloc h) ++ le_bytes 4 (fwd_cnt h).

(** ** Packets *)
Inductive PacketBuffer := Borrowed (ptr len : Z) | Owned (data : list Z).

Record VsockPacket := { guest_hdr_addr : Z; hdr : header; pkt_buf : option PacketBuffer }.

Definition is_empty (p : VsockPacket) : bool := h_len (hdr p) =? 0.

(** A descriptor; [has_next] is its flag. *)
Record descriptor := { d_addr : Z; d_len : Z; write_only : bool; has_next : bool }.

Section memory.
(** The byte at an address of guest memory, whether a range is mapped, and the translation of
    the address of a range by the IOMMU. *)
Context (mem : Z → Z) (mapped : Z → Z → bool) (translate_gva : Z → Z → option Z).

Definition bytes_at (a n : Z) : list Z := mem <$> seqZ a n.

Definition translated (a n : Z) : res VsockError Z := match translate_gva a n with Some a' => Ok a' | None => Err GuestMemory end.
Definition read_slice (a n : Z) : res VsockError (list Z) := if mapped a n then Ok (bytes_at a n) else Err GuestMemory.
Definition get_host_address_range (a n : Z) : res VsockError Z := if mapped a n then Ok a else Err GuestMemory.

(** [desc_chain.next()], on the descriptors that are left. *)
Definition next (e : VsockError) (chain : list descriptor) : res VsockError (descriptor * list descriptor) :=
  match chain with [] => Err e | d :: chain' => Ok (d, chain') end.

(** The loop over the data descriptors; [owned] is what was gathered so far, its length is
    [offset]. *)
Definition copy_desc (total_len : Z) (owned : list Z) (cur : descriptor) : res VsockError (list Z) :=
  if (0 <? d_len cur) && (zlen owned <? total_len) then
    let to_copy := Z.min (d_len cur) (total_len - zlen owned) in
    a ← translated (d_addr cur) (d_len cur);
    l ← read_slice a to_copy;
    Ok (owned ++ l)
  else Ok owned.

Fixpoint gather (total_len : Z) (owned : list Z) (cur : descriptor) (chain : list descriptor) : res VsockError (list Z) :=
  if write_only cur then Err UnreadableDescriptor
  else
    owned' ← copy_desc total_len owned cur;
    if has_next cur then
      match chain with [] => Err BufDescMissing | d :: chain' => gather total_len owned' d chain' end
    else Ok owned'.

Definition borrow (a n : Z) : res VsockError PacketBuffer :=
  a' ← translated a n; p ← get_host_address_range a' n; Ok (Borrowed p n).

Definition checked_add (a n : Z) : res VsockError Z := if a + n <? 2 ^ 64 then Ok (a + n) else Err GuestMemory.

(** The header, copied from the first descriptor. *)
Definition read_hdr (head : descriptor) : res VsockError (Z * header) :=
  if d_len head <? VSOCK_PKT_HDR_SIZE then Err (HdrDescTooSmall (d_len head))
  else
    a ← translated (d_addr head) VSOCK_PKT_HDR_SIZE;
    l ← read_slice a VSOCK_PKT_HDR_SIZE;
    Ok (a, decode_hdr l).

Definition from_tx_virtq_head (chain : list descriptor) : res VsockError VsockPacket :=
  '(head, chain1) ← next HdrDescMissing chain;
  if write_only head then Err UnreadableDescriptor
  else
    '(a, h) ← read_hdr head;
    let pkt b := {| guest_hdr_addr := a; hdr := h; pkt_buf := b |} in
    if is_empty (pkt None) then Ok (pkt None)
    else if MAX_PKT_BUF_SIZE <? h_len h then Err (InvalidPktLen (h_len h))
    else if negb (has_next head) then
      d ← checked_add (d_addr head) VSOCK_PKT_HDR_SIZE;
      b ← borrow d (d_len head - VSOCK_PKT_HDR_SIZE);
      Ok (pkt (Some b))
    else
      '(buf_desc, chain2) ← next BufDescMissing chain1;
      if write_only buf_desc then Err UnreadableDescriptor
      else if has_next buf_desc then
        l ← gather (h_len h) [] buf_desc chain2;
        if zlen l <? h_len h then Err BufDescTooSmall else Ok (pkt (Some (Owned l)))
      else if d_len buf_desc <? h_len h then Err BufDescTooSmall
      else b ← borrow (d_addr buf_desc) (d_len buf_desc); Ok (pkt (Some b)).

Definition from_rx_virtq_head (chain : list descriptor) : res VsockError VsockPacket :=
  '(head, chain1) ← next HdrDescMissing chain;
  if negb (write_only head) then Err UnwritableDescriptor
  else
    '(a, h) ← read_hdr head;
    let pkt b := {| guest_hdr_addr := a; hdr := h; pkt_buf := Some b |} in
    if has_next head then
      '(buf_desc, _) ← next BufDescMissing chain1;
      if has_next buf_desc then Err BufDescTooSmall
      else b ← borrow (d_addr buf_desc) (d_len buf_desc); Ok (pkt b)
    else
      d ← checked_add (d_addr head) VSOCK_PKT_HDR_SIZE;
      b ← borrow d (d_len head - VSOCK_PKT_HDR_SIZE);
      Ok (pkt b).

(** The bytes that [commit_hdr] writes, and where. *)
Definition commit_hdr (p : VsockPacket) : res VsockError (Z * list Z) :=
  if MAX_PKT_BUF_SIZE <? h_len (hdr p) then Err (InvalidPktLen (h_len (hdr p)))
  else if mapped (guest_hdr_addr p) VSOCK_PKT_HDR_SIZE then Ok (guest_hdr_addr p, encode_hdr (hdr p)) else Err GuestMemory.

Definition buf (p : VsockPacket) : option (list Z) :=
  match pkt_buf p with
  | None => None
  | Some (Owned l) => Some l
  | Some (Borrowed ptr len) => Some (bytes_at ptr len)
  end.

(** ** The data of a packet *)

(** The descriptors that belong to the packet, and what one holds. *)
Fixpoint used (cur : descriptor) (chain : list descriptor) : list descriptor :=
  cur :: (if has_next cur then match chain with [] => [] | d :: chain' => used d chain' end else []).

Definition data_of (d : descriptor) : list Z :=
  match translate_gva (d_addr d) (d_len d) with Some a => bytes_at a (d_len d) | None => [] end.

Lemma zlen_bytes_at a n : 0 ≤ n → zlen (bytes_at a n) = n.
Proof. intros Hn. unfold bytes_at. by rewrite zlen_fmap, zlen_seqZ. Qed.

Lemma take_bytes_at a m n : 0 ≤ m ≤ n → take (Z.to_nat m) (bytes_at a n) = bytes_at a m.
Proof.
  intros Hm. unfold bytes_at. replace n with (m + (n - m)) by lia.
  rewrite seqZ_app, fmap_app by lia. apply take_app_length'. rewrite length_fmap, length_seqZ. done.
Qed.

Lemma copy_desc_spec total owned cur l :
  0 ≤ d_len cur → 0 ≤ total → zlen owned ≤ total → copy_desc total owned cur = Ok l →
  zlen l ≤ total ∧ l = take (Z.to_nat total) (owned ++ data_of cur).
Proof.
  intros Hc Ht Ho. unfold copy_desc, data_of, translated, read_slice. pose proof (zlen_nonneg owned).
  destruct (Z.ltb_spec 0 (d_len cur)) as [Hp|Hp], (Z.ltb_spec (zlen owned) total) as [Hq|Hq]; cbn [andb].
  - destruct (translate_gva _ _) as [a|]; [|done]. cbn [mbind res_bind]. destruct (mapped a _); [|done]. intros [= <-].
    rewrite zlen_app, zlen_bytes_at by lia. split; [lia|]. rewrite take_app. f_equal.
    + symmetry. apply take_ge. unfold zlen in *. lia.
    + replace (Z.to_nat total - length owned)%nat with (Z.to_nat (total - zlen owned)) by (unfold zlen; lia).
      destruct (Z.min_spec (d_len cur) (total - zlen owned)) as [[? ->]|[? ->]]; [|symmetry; apply take_bytes_at; lia].
      symmetry. apply take_ge. unfold bytes_at. rewrite length_fmap, length_seqZ. lia.
  - intros [= <-]. split; [lia|]. symmetry. rewrite take_app_le by (unfold zlen in *; lia). apply take_ge. unfold zlen in *. lia.
  - intros [= <-]. split; [lia|]. symmetry.
    replace (match translate_gva _ _ with Some a => _ | None => _ end) with (@nil Z)
      by (replace (d_len cur) with 0 by lia; by destruct (translate_gva _ _)).
    rewrite app_nil_r. apply take_ge. unfold zlen in *. lia.
  - intros [= <-]. split; [lia|]. symmetry. rewrite take_app_le by (unfold zlen in *; lia). apply take_ge. unfold zlen in *. lia.
Qed.

(** The loop gathers the first [total_len] bytes of the descriptors. *)
Lemma gather_spec total chain owned cur l :
  Forall (λ d, 0 ≤ d_len d) (cur :: chain) → 0 ≤ total → zlen owned ≤ total → gather total owned cur chain = Ok l →
  l = take (Z.to_nat total) (owned ++ concat (data_of <$> used cur chain)).
Proof.
  assert (∀ (x y z : list Z) n, take n (take n (x ++ y) ++ z) = take n (x ++ y ++ z)) as Htake.
  { intros x y z n. rewrite (assoc_L (++) x y z). set (xy := x ++ y). rewrite !take_app, take_take, Nat.min_id. f_equal.
    rewrite length_take. destruct (decide (n ≤ length xy)%nat); [|by rewrite Nat.min_r by lia].
    by replace (n - length xy)%nat with 0%nat by lia; replace (n - n `min` length xy)%nat with 0%nat by lia. }
  revert owned cur l. induction chain as [|d chain IH]; intros owned cur l Hd Ht Ho Hg;
    inversion Hd as [|? ? Hc Hd']; subst; cbn [gather used] in *; destruct (write_only cur); try done;
    apply bind_ok in Hg as (owned' & Hcp & Hg); apply copy_desc_spec in Hcp as [Hlen ->]; try done.
  - destruct (has_next cur); [done|]. injection Hg as <-. cbn. by rewrite app_nil_r.
  - destruct (has_next cur).
    + apply IH in Hg; try done. rewrite Hg. apply Htake.
    + injection Hg as <-. cbn. by rewrite app_nil_r.
Qed.

Lemma of_le_nonneg l : Forall is_u8 l → 0 ≤ of_le_bytes l.
Proof. induction 1 as [|b l Hb _ IH]; [done|]. cbn [of_le_bytes]. unfold is_u8 in Hb. lia. Qed.

Lemma read_hdr_len head a h : (∀ x, is_u8 (mem x)) → read_hdr head = Ok (a, h) → 0 ≤ h_len h.
Proof.
  intros Hm. unfold read_hdr, read_slice. destruct (_ <? _); [done|].
  intros (a' & _ & (l & Hl & [= <- <-])%bind_ok)%bind_ok. destruct (mapped _ _); [|done]. injection Hl as <-.
  cbn [decode_hdr h_len]. apply of_le_nonneg, Forall_take, Forall_drop. unfold bytes_at. apply Forall_fmap, Forall_true, Hm.
Qed.

(** A borrowed buffer is the memory of its descriptor. *)
Lemma borrow_data d b : borrow (d_addr d) (d_len d) = Ok b → ∃ a, b = Borrowed a (d_len d) ∧ data_of d = bytes_at a (d_len d).
Proof.
  unfold borrow, translated, get_host_address_range, data_of. destruct (translate_gva _ _) as [a|]; [|done].
  cbn [mbind res_bind]. destruct (mapped a _); [|done]. intros [= <-]. by exists a.
Qed.
End memory.

(** The data of a packet that the guest sends with data descriptors of its own is what
    the descriptors hold, in their order and cut at the length in the header, and the buffer
    holds at least that many bytes. *)
Theorem tx_data mem mapped tr head ds p :
  (∀ x, is_u8 (mem x)) → Forall (λ d, 0 ≤ d_len d) (head :: ds) → has_next head = true →
  from_tx_virtq_head mem mapped tr (head :: ds) = Ok p → is_empty p = false →
  ∃ d ds' l, ds = d :: ds' ∧ buf mem p = Some l ∧ h_len (hdr p) ≤ zlen l ∧
    take (Z.to_nat (h_len (hdr p))) l = take (Z.to_nat (h_len (hdr p))) (concat (data_of mem tr <$> used d ds')).
Proof.
  intros Hm Hd Hn Htx Hne. unfold from_tx_virtq_head in Htx. cbn [next mbind res_bind] in Htx.
  destruct (write_only head); [done|]. apply bind_ok in Htx as ([a h] & Hr & Htx).
  pose proof (read_hdr_len _ _ _ _ _ _ Hm Hr) as Hlen. rewrite Hn in Htx. cbn [negb] in Htx. unfold is_empty in *. cbn [hdr] in Htx.
  destruct (Z.eqb_spec (h_len h) 0) as [Hz|Hz]; [injection Htx as <-; cbn in Hne; by rewrite Hz in Hne|].
  destruct (_ <? h_len h); [done|]. apply bind_ok in Htx as ([d ds'] & Hnx & Htx).
  destruct ds as [|d0 ds0]; [done|]. injection Hnx as -> ->. inversion Hd as [|? ? _ Hd']; subst.
  destruct (write_only d); [done|]. destruct (has_next d) eqn:Hdn.
  - apply bind_ok in Htx as (l & Hg & Htx). apply gather_spec in Hg; [|done..].
    destruct (Z.ltb_spec (zlen l) (h_len h)); [done|]. injection Htx as <-. exists d, ds', l. cbn in *.
    split_and!; [done..|]. rewrite Hg. by rewrite take_take, Nat.min_id.
  - destruct (Z.ltb_spec (d_len d) (h_len h)); [done|]. apply bind_ok in Htx as (b & Hb & [= <-]).
    destruct (borrow_data mem _ _ _ _ Hb) as (a' & -> & Hdat). exists d, ds', (bytes_at mem a' (d_len d)). cbn [hdr].
    split_and!; [done|done|rewrite zlen_bytes_at; lia|].
    assert (used d ds' = [d]) as -> by (destruct ds'; cbn [used]; by rewrite Hdn). cbn. by rewrite app_nil_r, Hdat.
Qed.

(** Every byte of memory holds the low byte of its address; the header, at 0, says 24 bytes,
    which lie in two descriptors. *)
Definition demo_mem (x : Z) : Z := if x <? 44 then (if x =? 24 then 24 else 0) else x mod 256.
Definition demo_chain : list descriptor :=
  [{| d_addr := 0; d_len := 44; write_only := false; has_next := true |};
   {| d_addr := 100; d_len := 4; write_only := false; has_next := true |};
   {| d_addr := 200; d_len := 50; write_only := false; has_next := false |}].

Lemma tx_data_witness :
  ∃ p l, from_tx_virtq_head demo_mem (λ _ _, true) (λ a _, Some a) demo_chain = Ok p ∧ buf demo_mem p = Some l ∧
         take 24 l = take 24 (bytes_at demo_mem 100 4 ++ bytes_at demo_mem 200 50).
Proof.
  destruct (from_tx_virtq_head demo_mem (λ _ _, true) (λ a _, Some a) demo_chain) as [p| | |] eqn:Hp; try (vm_compute in Hp; done).
  destruct (tx_data demo_mem (λ _ _, true) (λ a _, Some a) (nth 0 demo_chain (nth 0 demo_chain {| d_addr := 0; d_len := 0; write_only := false; has_next := false |}))
              (drop 1 demo_chain) p) as (d & ds' & l & Hds & Hb & _ & Ht).
  - intros x. unfold demo_mem, is_u8. pose proof (Z.mod_pos_bound x 256). destruct (x <? 44), (x =? 24); lia.
  - repeat constructor; done.
  - done.
  - exact Hp.
  - vm_compute in Hp. injection Hp as <-. done.
  - exists p, l. split; [done|]. split; [done|]. injection Hds as <- <-.
    assert (h_len (hdr p) = 24) as Hh by (vm_compute in Hp; by injection Hp as <-). rewrite Hh in Ht. exact Ht.
Defined.

(** A header that announces 100 bytes in a descriptor that holds nothing else is accepted. *)
Lemma short_packet :
  let mem x := if x =? 24 then 100 else 0 in
  ∃ p, from_tx_virtq_head mem (λ _ _, true) (λ a _, Some a)
         [{| d_addr := 0; d_len := 44; write_only := false; has_next := false |}] = Ok p ∧
       h_len (hdr p) = 100 ∧ buf mem p = Some [].
Proof. eexists. split_and!; reflexivity. Qed.

(** The second descriptor of a received packet need not be writable. *)
Lemma rx_unwritable :
  ∃ p, from_rx_virtq_head (λ _, 0) (λ _ _, true) (λ a _, Some a)
         [{| d_addr := 0; d_len := 44; write_only := true; has_next := true |};
          {| d_addr := 100; d_len := 8; write_only := false; has_next := false |}] = Ok p.
Proof. eexists. reflexivity. Qed.

(** ** The header's bytes *)

Record hdr_ok (h : header) : Prop := {
  ok_src : 0 ≤ src_cid h < 2 ^ 64; ok_dst : 0 ≤ dst_cid h < 2 ^ 64; ok_sport : 0 ≤ src_port h < 2 ^ 32;
  ok_dport : 0 ≤ dst_port h < 2 ^ 32; ok_len : 0 ≤ h_len h < 2 ^ 32; ok_type : 0 ≤ type_ h < 2 ^ 16;
  ok_op : 0 ≤ op h < 2 ^ 16; ok_flags : 0 ≤ flags h < 2 ^ 32; ok_alloc : 0 ≤ buf_alloc h < 2 ^ 32; ok_fwd : 0 ≤ fwd_cnt h < 2 ^ 32 }.

Lemma field_at n x (pre post : list Z) : 0 ≤ x < 256 ^ Z.of_nat n →
  of_le_bytes (slice (pre ++ le_bytes n x ++ post) (zlen pre) (Z.of_nat n)) = x.
Proof.
  intros Hx. unfold slice, zlen. rewrite !Nat2Z.id, drop_app_length.
  rewrite take_app_length' by (pose proof (zlen_le_bytes n x); unfold zlen in *; lia). by apply of_le_bytes_le_bytes.
Qed.

(** The setters and getters of the fields of a header do not interfere. *)
Lemma hdr_roundtrip h : hdr_ok h → decode_hdr (encode_hdr h) = h.
Proof.
  intros [H1 H2 H3 H4 H5 H6 H7 H8 H9 H10]. destruct h as [a b c d e f g i j k]. cbn in *. unfold decode_hdr. cbv zeta. f_equal.
  - exact (field_at 8 a [] _ H1).
  - exact (field_at 8 b (le_bytes 8 a) _ H2).
  - exact (field_at 4 c (le_bytes 8 a ++ le_bytes 8 b) _ H3).
  - exact (field_at 4 d (le_bytes 8 a ++ le_bytes 8 b ++ le_bytes 4 c) _ H4).
  - exact (field_at 4 e (le_bytes 8 a ++ le_bytes 8 b ++ le_bytes 4 c ++ le_bytes 4 d) _ H5).
  - exact (field_at 2 f (le_bytes 8 a ++ le_bytes 8 b ++ le_bytes 4 c ++ le_bytes 4 d ++ le_bytes 4 e) _ H6).
  - exact (field_at 2 g (le_bytes 8 a ++ le_bytes 8 b ++ le_bytes 4 c ++ le_bytes 4 d ++ le_bytes 4 e ++ le_bytes 2 f) _ H7).
  - exact (field_at 4 i (le_bytes 8 a ++ le_bytes 8 b ++ le_bytes 4 c ++ le_bytes 4 d ++ le_bytes 4 e ++ le_bytes 2 f ++ le_bytes 2 g) _ H8).
  - exact (field_at 4 j (le_bytes 8 a ++ le_bytes 8 b ++ le_bytes 4 c ++ le_bytes 4 d ++ le_bytes 4 e ++ le_bytes 2 f ++ le_bytes 2 g ++ le_bytes 4 i) _ H9).
  - exact (field_at 4 k (le_bytes 8 a ++ le_bytes 8 b ++ le_bytes 4 c ++ le_bytes 4 d ++ le_bytes 4 e ++ le_bytes 2 f ++ le_bytes 2 g ++ le_bytes 4 i ++ le_bytes 4 j) [] H10).
Qed.

End Packet.
