(* ===== verification/VsockConn.v ===== *)
(** * Connections of a vsock device

    Model of [virtio-devices/src/vsock/csm/]: the ring buffer of [txbuf.rs] (module [TxBuf])
    and the connection of [connection.rs] with the helpers of [mod.rs] (module [Connection]).
    The host's end of a connection is a stream whose results are given by a script.
    [ring_push_spec] and [ring_flush_spec] say that the ring buffer is a queue of bytes;
    [stream_integrity] that each side gets the other's bytes in their order, whatever the
    stream and the multiplexer do; [credit_respected] that a guest which keeps to its credit never loses its
    connection to a full buffer and is told of its room; [recv_pkt_delivery] that a data
    packet fits the guest's credit; and [guest_panics_device] that a malformed packet makes
    the device panic. *)

From S2P Require Import Prelude Bitmap VsockPacket.
Import Packet.

(** ** The host's stream *)
Module Stream.

Inductive write_result := Accept (n : Z) | WouldBlockW | FailW.
Inductive read_result := Data (l : list Z) | Eof | WouldBlockR | FailR.

(** What was written, and the results of the writes and reads to come; a stream without a
    result would block. *)
Record stream := { out : list Z; writes : list write_result; reads : list read_result }.

Inductive io_error := WouldBlock | Other.

(** A write takes a part of the bytes, from the start. *)
Definition write {E} (wrap : io_error → E) (l : list Z) : M stream E Z := λ s,
  match writes s with
  | [] => (Err (wrap WouldBlock), s)
  | w :: ws =>
      let s' := {| out := out s; writes := ws; reads := reads s |} in
      match w with
      | Accept n =>
          let k := Z.max 0 (Z.min n (zlen l)) in
          (Ok k, {| out := out s ++ take (Z.to_nat k) l; writes := ws; reads := reads s |})
      | WouldBlockW => (Err (wrap WouldBlock), s')
      | FailW => (Err (wrap Other), s')
      end
  end.

(** A read of at most [n] bytes; what does not fit stays in the stream. *)
Definition read (n : Z) : M stream io_error (list Z) := λ s,
  match reads s with
  | [] => (Err WouldBlock, s)
  | r :: rs =>
      let s' := {| out := out s; writes := writes s; reads := rs |} in
      match r with
      | Data l =>
          let rest := drop (Z.to_nat n) l in
          (Ok (take (Z.to_nat n) l), {| out := out s; writes := writes s; reads := if decide (rest = []) then rs else Data rest :: rs |})
      | Eof => (Ok [], s')
      | WouldBlockR => (Err WouldBlock, s')
      | FailR => (Err Other, s')
      end
  end.

Lemma stream_write_spec {E} (wrap : io_error → E) l s :
  (∃ k s', write wrap l s = (Ok k, s') ∧ 0 ≤ k ≤ zlen l ∧ out s' = out s ++ take (Z.to_nat k) l ∧ reads s' = reads s ∧ writes s' ⊆ writes s) ∨
  (∃ e s', write wrap l s = (Err (wrap e), s') ∧ out s' = out s ∧ reads s' = reads s ∧ writes s' ⊆ writes s ∧
           (e = Other → FailW ∈ writes s)).
Proof.
  unfold write. pose proof (zlen_nonneg l). destruct (writes s) as [|[n| |] ws] eqn:Hw; [right|left|right|right].
  - eexists _, s. by rewrite Hw.
  - eexists _, _. split; [reflexivity|]. cbn. split_and!; [lia|lia|done..|set_solver].
  - eexists _, _. split; [reflexivity|]. cbn. split_and!; [done..|set_solver|done].
  - eexists _, _. split; [reflexivity|]. cbn. split_and!; [done..|set_solver|set_solver].
Qed.
End Stream.
Import Stream.

(** ** The ring buffer *)
Module TxBuf.

Inductive Error := TxBufFull | TxBufFlush (e : io_error) | StreamWrite (e : io_error).

Definition W32 : Z := 2 ^ 32.

(** [data] is allocated by the first push. *)
Record TxBuf := { data : option (list Z); head : Z; tail : Z }.

Definition new : TxBuf := {| data := None; head := 0; tail := 0 |}.
Definition len (b : TxBuf) : Z := (head b - tail b) mod W32.
Definition is_empty (b : TxBuf) : bool := len b =? 0.

Section size.
Context (SIZE : Z).

(** [l[i .. i + |src|].copy_from_slice(src)] *)
Definition copy_at (l : list Z) (i : Z) (src : list Z) : list Z :=
  take (Z.to_nat i) l ++ src ++ drop (Z.to_nat (i + zlen src)) l.

Definition push (src : list Z) (b : TxBuf) : res Error TxBuf :=
  if SIZE <? len b + zlen src then Err TxBufFull
  else
    let d := default (zreplicate SIZE 0) (data b) in
    let head_ofs := head b mod SIZE in
    let n := Z.min (SIZE - head_ofs) (zlen src) in
    let d1 := copy_at d head_ofs (take (Z.to_nat n) src) in
    let d2 := if n <? zlen src then copy_at d1 0 (drop (Z.to_nat n) src) else d1 in
    Ok {| data := Some d2; head := (head b + zlen src) mod W32; tail := tail b |}.

(** The second call of [flush_to] writes what is left after the wrap-around, and the third
    finds the buffer empty. *)
Fixpoint flush_to (fuel : nat) : M (TxBuf * stream) Error Z :=
  match fuel with
  | O => lift Hang
  | S fuel' => λ '(b, s),
      if is_empty b then (Ok 0, (b, s))
      else
        let tail_ofs := tail b mod SIZE in
        let len_to_write := Z.min (SIZE - tail_ofs) (len b) in
        match data b with
        | None => (Panic, (b, s))
        | Some d =>
            match write TxBufFlush (slice d tail_ofs len_to_write) s with
            | (Ok written, s1) =>
                let b1 := {| data := data b; head := head b; tail := (tail b + written) mod W32 |} in
                if written <? len_to_write then (Ok written, (b1, s1))
                else
                  match flush_to fuel' (b1, s1) with
                  | (Ok n, bs) => (Ok (written + n), bs)
                  | (Err _, bs) => (Ok written, bs)
                  | (Panic, bs) => (Panic, bs)
                  | (Hang, bs) => (Hang, bs)
                  end
            | (Err e, s1) => (Err e, (b, s1))
            | (Panic, s1) => (Panic, (b, s1))
            | (Hang, s1) => (Hang, (b, s1))
            end
        end
  end.

(** *** The bytes that were pushed and not yet flushed *)
Definition contents (b : TxBuf) : list Z :=
  match data b with
  | None => []
  | Some d => (λ j, default 0 (znth d ((tail b + j) mod SIZE))) <$> seqZ 0 (len b)
  end.

Record wf (b : TxBuf) : Prop := {
  wf_head : 0 ≤ head b < W32;
  wf_tail : 0 ≤ tail b < W32;
  wf_len : len b ≤ SIZE;
  wf_data : match data b with Some d => zlen d = SIZE | None => head b = tail b end }.

(** Offsets stay right when [head] and [tail] wrap around. *)
Context (size_pos : 0 < SIZE) (size_small : SIZE < W32) (size_div : (SIZE | W32)).

Lemma wrap_mod x : (x mod W32) mod SIZE = x mod SIZE.
Proof using size_div. by apply Z.mod_mod_divide. Qed.

Lemma len_none b : wf b → data b = None → len b = 0.
Proof. intros Hb Hd. pose proof (wf_data _ Hb) as Hw. rewrite Hd in Hw. unfold len. by rewrite Hw, Z.sub_diag. Qed.

Lemma zlen_contents b : wf b → zlen (contents b) = len b.
Proof using size_pos.
  intros Hb. pose proof (Z.mod_pos_bound (head b - tail b) W32). unfold contents. destruct (data b) as [d|] eqn:Hd.
  - unfold len in *. rewrite zlen_fmap, zlen_seqZ; [done|]. apply H. done.
  - by rewrite len_none.
Qed.

Lemma znth_contents b d j : data b = Some d → 0 ≤ j < len b → znth (contents b) j = Some (default 0 (znth d ((tail b + j) mod SIZE))).
Proof. intros Hd Hj. unfold contents. rewrite Hd, znth_fmap, znth_seqZ by done. done. Qed.

Lemma len_bounds b : 0 ≤ len b < W32.
Proof. apply Z.mod_pos_bound. done. Qed.

Lemma zlen_copy_at l i src : 0 ≤ i → i + zlen src ≤ zlen l → zlen (copy_at l i src) = zlen l.
Proof.
  intros Hi Hl. unfold copy_at, zlen in *. rewrite !length_app, length_take, length_drop. lia.
Qed.

Lemma znth_copy_at l i src p :
  0 ≤ i → i + zlen src ≤ zlen l → 0 ≤ p →
  znth (copy_at l i src) p = if (i <=? p) && (p <? i + zlen src) then znth src (p - i) else znth l p.
Proof.
  intros Hi Hl Hp. pose proof (zlen_nonneg src). unfold copy_at.
  assert (zlen (take (Z.to_nat i) l) = i) as Ht by (unfold zlen in *; rewrite length_take; lia).
  rewrite znth_app, Ht by done. destruct (Z.leb_spec i p) as [Hip|Hip].
  - rewrite (proj2 (Z.ltb_ge _ _)) by lia. cbn [andb]. rewrite znth_app by lia.
    destruct (Z.ltb_spec (p - i) (zlen src)), (Z.ltb_spec p (i + zlen src)); try lia; [done|].
    unfold znth. rewrite !(proj2 (Z.ltb_ge _ _)) by lia. rewrite lookup_drop. f_equal. lia.
  - rewrite (proj2 (Z.ltb_lt _ _)) by lia. cbn [andb]. unfold znth. rewrite (proj2 (Z.ltb_ge _ _)) by lia.
    apply lookup_take_lt. lia.
Qed.

(** The buffer after the copies of [push]. *)
Lemma znth_pushed d ofs src p :
  zlen d = SIZE → 0 ≤ ofs < SIZE → zlen src ≤ SIZE → 0 ≤ p < SIZE →
  let n := Z.min (SIZE - ofs) (zlen src) in
  let d1 := copy_at d ofs (take (Z.to_nat n) src) in
  let d2 := if n <? zlen src then copy_at d1 0 (drop (Z.to_nat n) src) else d1 in
  zlen d2 = SIZE ∧
  znth d2 p = let r := (p - ofs) mod SIZE in if r <? zlen src then znth src r else znth d p.
Proof using size_pos.
  intros Hd Ho Hs Hp n d1 d2. pose proof (zlen_nonneg src).
  assert (zlen (take (Z.to_nat n) src) = n) as Ht by (unfold zlen in *; rewrite length_take; lia).
  assert (zlen (drop (Z.to_nat n) src) = zlen src - n) as Hdr by (unfold zlen in *; rewrite length_drop; lia).
  assert (zlen d1 = SIZE) as Hd1 by (unfold d1; rewrite zlen_copy_at; lia).
  assert (∀ k, 0 ≤ k < n → znth (take (Z.to_nat n) src) k = znth src k) as Hst.
  { intros k Hk. unfold znth. rewrite (proj2 (Z.ltb_ge _ _)) by lia. apply lookup_take_lt. lia. }
  assert (znth d1 p = if (ofs <=? p) && (p <? ofs + n) then znth src (p - ofs) else znth d p) as H1.
  { unfold d1. rewrite znth_copy_at, Ht by lia. destruct (Z.leb_spec ofs p), (Z.ltb_spec p (ofs + n)); cbn [andb]; try done.
    apply Hst. lia. }
  assert ((p - ofs) mod SIZE = if ofs <=? p then p - ofs else p - ofs + SIZE) as Hr.
  { destruct (Z.leb_spec ofs p); [apply Z.mod_small; lia|]. rewrite <-(Z.mod_add _ 1), Z.mod_small by lia. lia. }
  subst d2. cbv zeta. rewrite Hr. destruct (Z.ltb_spec n (zlen src)) as [Hn|Hn].
  - split; [rewrite zlen_copy_at; lia|]. rewrite znth_copy_at, Hdr, H1 by lia. cbn [andb Z.leb].
    rewrite (proj2 (Z.leb_le 0 p)) by lia. cbn [andb].
    destruct (Z.ltb_spec p (0 + (zlen src - n))), (Z.leb_spec ofs p), (Z.ltb_spec p (ofs + n)); cbn [andb]; try lia;
      repeat match goal with |- context [?a <? ?b] => destruct (Z.ltb_spec a b); try lia end; try done.
    unfold znth. rewrite !(proj2 (Z.ltb_ge _ _)) by lia. rewrite lookup_drop. f_equal. lia.
  - split; [done|]. rewrite H1. destruct (Z.leb_spec ofs p), (Z.ltb_spec p (ofs + n)); cbn [andb]; try lia;
      repeat match goal with |- context [?a <? ?b] => destruct (Z.ltb_spec a b); try lia end; done.
Qed.

(** A push appends, or leaves the buffer alone when there is no room. *)
Lemma ring_push_spec src b :
  wf b →
  if SIZE <? len b + zlen src then push src b = Err TxBufFull
  else ∃ b', push src b = Ok b' ∧ wf b' ∧ contents b' = contents b ++ src.
Proof using size_pos size_small size_div.
  intros Hb. unfold push. destruct (Z.ltb_spec SIZE (len b + zlen src)) as [|Hfit]; [done|].
  eexists. split; [reflexivity|]. pose proof (len_bounds b) as Hlen. pose proof (zlen_nonneg src) as Hsrc.
  set (d := default (zreplicate SIZE 0) (data b)).
  assert (zlen d = SIZE) as Hd.
  { subst d. pose proof (wf_data _ Hb) as Hw. destruct (data b); [done|]. cbn. apply zlen_zreplicate. lia. }
  assert (0 ≤ head b mod SIZE < SIZE) as Hofs by (by apply Z.mod_pos_bound).
  set (d2 := if _ <? zlen src then _ else _).
  assert (∀ p, 0 ≤ p < SIZE → zlen d2 = SIZE ∧ znth d2 p = let r := (p - head b mod SIZE) mod SIZE in
    if r <? zlen src then znth src r else znth d p) as Hd2 by (intros p Hp; apply znth_pushed; lia || done).
  set (b' := {| data := Some d2; head := _; tail := _ |}).
  assert (len b' = len b + zlen src) as Hlen'.
  { unfold len in *. cbn [b' head tail]. rewrite Zminus_mod_idemp_l.
    replace (head b + zlen src - tail b) with (head b - tail b + zlen src) by lia.
    rewrite <-Zplus_mod_idemp_l, Z.mod_small; [done|]. lia. }
  assert (wf b') as Hb'.
  { split; cbn; [by apply Z.mod_pos_bound|apply Hb|lia|by apply (Hd2 0)]. }
  split; [done|]. apply znth_ext.
  { rewrite zlen_app, !zlen_contents by done. done. }
  intros j Hj. rewrite zlen_contents, Hlen' in Hj by done. rewrite (znth_contents b' d2) by (done || lia).
  rewrite znth_app, zlen_contents by (done || lia). cbn [b' tail].
  assert (0 ≤ (tail b + j) mod SIZE < SIZE) as Hp by (by apply Z.mod_pos_bound).
  destruct (Hd2 _ Hp) as [_ ->]. cbv zeta.
  assert (((tail b + j) mod SIZE - head b mod SIZE) mod SIZE = (j - len b) mod SIZE) as ->.
  { unfold len. rewrite <-Zminus_mod, <-(Zminus_mod_idemp_r j), wrap_mod, Zminus_mod_idemp_r. f_equal. lia. }
  destruct (Z.ltb_spec j (len b)) as [Hl|Hl].
  - rewrite <-(Z.mod_add _ 1), Z.mod_small by lia. rewrite (proj2 (Z.ltb_ge _ _)) by lia.
    subst d. destruct (data b) as [d|] eqn:Hdb.
    + by rewrite (znth_contents b d) by (done || lia).
    + rewrite (len_none b) in Hl by done. lia.
  - rewrite Z.mod_small, (proj2 (Z.ltb_lt _ _)) by lia. destruct (znth_is_Some src (j - len b)) as [x Hx]; [lia|]. by rewrite Hx.
Qed.

(** What a flush writes first. *)
Lemma slice_contents b d :
  wf b → data b = Some d →
  let n := Z.min (SIZE - tail b mod SIZE) (len b) in
  slice d (tail b mod SIZE) n = take (Z.to_nat n) (contents b).
Proof using size_pos.
  intros Hb Hd n. pose proof (len_bounds b) as Hl. assert (0 ≤ tail b mod SIZE < SIZE) as Ho by (by apply Z.mod_pos_bound).
  pose proof (wf_data _ Hb) as Hw. rewrite Hd in Hw.
  assert (zlen (take (Z.to_nat n) (contents b)) = n) as Ht.
  { pose proof (zlen_contents _ Hb) as Hc. unfold zlen in *. rewrite length_take. lia. }
  assert (zlen (slice d (tail b mod SIZE) n) = n) as Hs by (apply zlen_slice; lia).
  apply znth_ext; [by rewrite Hs, Ht|]. intros j Hj. rewrite Hs in Hj. rewrite znth_slice by lia.
  transitivity (znth (contents b) j).
  - rewrite (znth_contents b d) by (done || lia). rewrite <-Zplus_mod_idemp_l, (Z.mod_small (_ + j)) by lia.
    destruct (znth_is_Some d (tail b mod SIZE + j)) as [x Hx]; [lia|]. by rewrite Hx.
  - unfold znth. rewrite (proj2 (Z.ltb_ge _ _)) by lia. symmetry. apply lookup_take_lt. lia.
Qed.

(** The buffer after bytes have left it. *)
Lemma advance_spec b n :
  wf b → 0 ≤ n ≤ len b →
  let b' := {| data := data b; head := head b; tail := (tail b + n) mod W32 |} in
  (data b = None → n = 0) → wf b' ∧ len b' = len b - n ∧ contents b' = drop (Z.to_nat n) (contents b).
Proof using size_pos size_div.
  intros Hb Hn b' Hd0. pose proof (len_bounds b) as Hl.
  assert (len b' = len b - n) as Hlen.
  { unfold len in *. cbn [b' head tail]. rewrite Zminus_mod_idemp_r.
    replace (head b - (tail b + n)) with (head b - tail b - n) by lia. rewrite <-Zminus_mod_idemp_l, Z.mod_small; lia. }
  assert (wf b') as Hb'.
  { split; cbn; [apply Hb|by apply Z.mod_pos_bound|pose proof (wf_len _ Hb); lia|]. pose proof (wf_data _ Hb) as Hw.
    destruct (data b); [done|]. rewrite Hd0, Z.add_0_r by done. rewrite Z.mod_small; [done|]. apply Hb. }
  split; [done|]. split; [done|]. apply znth_ext.
  { rewrite zlen_contents by done. pose proof (zlen_contents _ Hb) as Hc. unfold zlen in *. rewrite length_drop. lia. }
  intros j Hj. rewrite zlen_contents, Hlen in Hj by done. destruct (data b) as [d|] eqn:Hd; [|specialize (Hd0 eq_refl)].
  - rewrite (znth_contents b' d) by (done || lia). cbn [b' tail].
    transitivity (znth (contents b) (n + j)).
    + rewrite (znth_contents b d) by (done || lia). do 2 f_equal. f_equal. rewrite <-Zplus_mod_idemp_l, wrap_mod, Zplus_mod_idemp_l. f_equal. lia.
    + unfold znth. rewrite !(proj2 (Z.ltb_ge _ _)) by lia. rewrite lookup_drop. f_equal. lia.
  - rewrite (len_none b) in Hj by done. lia.
Qed.

(** The calls of [flush_to] that a buffer needs. *)
Definition passes (b : TxBuf) : nat :=
  if len b =? 0 then 1 else if tail b mod SIZE + len b <=? SIZE then 2 else 3.

(** [n] bytes moved from the buffer to the stream. *)
Definition moved (b b' : TxBuf) (s s' : stream) (n : Z) : Prop :=
  0 ≤ n ≤ len b ∧ wf b' ∧ out s' = out s ++ take (Z.to_nat n) (contents b) ∧
  contents b' = drop (Z.to_nat n) (contents b) ∧ reads s' = reads s ∧ writes s' ⊆ writes s.

Lemma moved_trans b1 b2 b3 s1 s2 s3 n m :
  wf b1 → len b2 = len b1 - n → moved b1 b2 s1 s2 n → moved b2 b3 s2 s3 m → moved b1 b3 s1 s3 (n + m).
Proof.
  intros Hb Hlen (Hn & Hw2 & Ho2 & Hc2 & Hr2 & Hs2) (Hm & Hw3 & Ho3 & Hc3 & Hr3 & Hs3).
  split_and!; try done; try lia; try congruence.
  - rewrite Ho3, Ho2, Hc2, <-assoc_L by apply _. f_equal. rewrite Z2Nat.inj_add by lia. symmetry.
    rewrite <-(take_drop (Z.to_nat n) (contents b1)) at 1. apply take_app_add'.
    rewrite length_take. pose proof (zlen_contents _ Hb) as Hc. unfold zlen in Hc. lia.
  - rewrite Hc3, Hc2, drop_drop. f_equal. lia.
  - by etrans.
Qed.

(** A flush moves bytes from the front of the buffer to the stream, says how many, and fails
    only when it moved none. *)
Lemma ring_flush_spec fuel b s :
  wf b → (passes b ≤ fuel)%nat →
  ∃ r n b' s', flush_to fuel (b, s) = (r, (b', s')) ∧ moved b b' s s' n ∧
               (r = Ok n ∨ n = 0 ∧ b' = b ∧ ∃ e, r = Err (TxBufFlush e) ∧ (e = Other → FailW ∈ writes s)).
Proof using size_pos size_small size_div.
  revert b s. induction fuel as [|fuel IH]; intros b s Hb Hf.
  { exfalso. unfold passes in Hf. repeat case_match; lia. }
  pose proof (len_bounds b) as Hl. pose proof (Z.mod_pos_bound (tail b) SIZE size_pos) as Ho.
  cbn [flush_to]. unfold is_empty, passes in *. destruct (Z.eqb_spec (len b) 0) as [Hz|Hz].
  { eexists _, 0, b, s. split; [done|]. split; [|by left]. split_and!; try done; [lia|]. by rewrite app_nil_r. }
  destruct (data b) as [d|] eqn:Hd; [|by rewrite len_none in Hz]. rewrite (slice_contents b d) by done.
  set (n := Z.min _ _) in *. pose proof (zlen_contents _ Hb) as Hc.
  assert (zlen (take (Z.to_nat n) (contents b)) = n) as Ht by (unfold zlen in *; rewrite length_take; lia).
  destruct (stream_write_spec TxBufFlush (take (Z.to_nat n) (contents b)) s) as [(k & s1 & -> & Hk & Ho1 & Hr1 & Hs1)|(e & s1 & -> & Ho1 & Hr1 & Hs1 & He)].
  2:{ eexists _, 0, b, s1. split; [done|]. split; [|right; eauto 6]. split_and!; try done; [lia|]. by rewrite Ho1, app_nil_r. }
  rewrite Ht in Hk. rewrite take_take in Ho1. replace (Z.to_nat k `min` Z.to_nat n)%nat with (Z.to_nat k) in Ho1 by lia.
  destruct (advance_spec b k Hb) as (Hb1 & Hlen1 & Hc1); [lia|by rewrite Hd|]. rewrite Hd in *.
  set (b1 := {| data := Some d; head := head b; tail := (tail b + k) mod W32 |}) in *.
  assert (moved b b1 s s1 k) as Hm1 by (split_and!; try done; lia).
  destruct (Z.ltb_spec k n) as [Hkn|Hkn]; [by eexists _, k, b1, s1; split; [done|]; split; [done|left]|].
  destruct (IH b1 s1 Hb1) as (r & m & b2 & s2 & -> & Hm2 & Hr2).
  { unfold passes. rewrite Hlen1. destruct (Z.leb_spec (tail b mod SIZE + len b) SIZE).
    - replace (len b - k) with 0 by lia. cbn. lia.
    - destruct (_ =? 0); [lia|]. assert ((tail b1) mod SIZE = 0) as ->; [|rewrite (proj2 (Z.leb_le _ _)); pose proof (wf_len _ Hb); lia].
      cbn [b1 tail]. rewrite wrap_mod. replace k with (SIZE - tail b mod SIZE) by lia.
      replace (tail b + (SIZE - tail b mod SIZE)) with (tail b - tail b mod SIZE + 1 * SIZE) by lia.
      rewrite Z.mod_add, Zminus_mod, Z.mod_mod, Z.sub_diag by lia. done. }
  pose proof (moved_trans _ _ _ _ _ _ _ _ Hb Hlen1 Hm1 Hm2) as Hm.
  destruct Hr2 as [->|(-> & -> & e & -> & _)].
  - by eexists _, (k + m), b2, s2; split; [done|]; split; [done|left].
  - rewrite Z.add_0_r in Hm. by eexists _, k, b1, s2; split; [done|]; split; [done|left].
Qed.

Lemma passes_bound b : (passes b ≤ 3)%nat.
Proof. unfold passes. repeat case_match; lia. Qed.
End size.
End TxBuf.

(** ** The connection *)
Module Connection.

Definition CONN_TX_BUF_SIZE : Z := 64 * 1024.
Definition CONN_CREDIT_UPDATE_THRESHOLD : Z := 4 * 1024.
Definition CONN_REQUEST_TIMEOUT_MS : Z := 2000.
Definition CONN_SHUTDOWN_TIMEOUT_MS : Z := 2000.

Definition VSOCK_OP_REQUEST : Z := 1.
Definition VSOCK_OP_RESPONSE : Z := 2.
Definition VSOCK_OP_RST : Z := 3.
Definition VSOCK_OP_SHUTDOWN : Z := 4.
Definition VSOCK_OP_RW : Z := 5.
Definition VSOCK_OP_CREDIT_UPDATE : Z := 6.
Definition VSOCK_OP_CREDIT_REQUEST : Z := 7.
Definition VSOCK_FLAGS_SHUTDOWN_RCV : Z := 1.
Definition VSOCK_FLAGS_SHUTDOWN_SEND : Z := 2.
Definition VSOCK_TYPE_STREAM : Z := 1.

Inductive ConnState := LocalInit | PeerInit | Established | LocalClosed | PeerClosed (recv_off send_off : bool) | Killed.

Global Instance conn_state_eq : EqDecision ConnState.
Proof. solve_decision. Defined.

(** *** Indications *)
Inductive PendingRx := Request | Response | Rst | Rw | CreditUpdate.

Definition into_mask (it : PendingRx) : Z :=
  Z.shiftl 1 (match it with Request => 0 | Response => 1 | Rst => 2 | Rw => 3 | CreditUpdate => 4 end).

(** A [PendingRxSet] is its bits. *)
Definition rx_insert (it : PendingRx) (set : Z) : Z := Z.lor set (into_mask it).
Definition rx_contains (it : PendingRx) (set : Z) : bool := negb (Z.land set (into_mask it) =? 0).
Definition rx_remove (it : PendingRx) (set : Z) : bool * Z := (rx_contains it set, Z.land set (2 ^ 16 - 1 - into_mask it)).
Definition rx_is_empty (set : Z) : bool := set =? 0.

Record VsockConnection := {
  state : ConnState; local_cid : Z; peer_cid : Z; local_port : Z; peer_port : Z; host : stream; tx_buf : TxBuf.TxBuf;
  c_fwd_cnt : Z; peer_buf_alloc : Z; peer_fwd_cnt : Z; rx_cnt : Z; last_fwd_cnt_to_peer : Z; pending_rx : Z; expiry : option Z }.

Definition with_state (x : ConnState) (c : VsockConnection) : VsockConnection :=
  {| state := x; local_cid := local_cid c; peer_cid := peer_cid c; local_port := local_port c; peer_port := peer_port c; host := host c;
     tx_buf := tx_buf c; c_fwd_cnt := c_fwd_cnt c; peer_buf_alloc := peer_buf_alloc c; peer_fwd_cnt := peer_fwd_cnt c;
     rx_cnt := rx_cnt c; last_fwd_cnt_to_peer := last_fwd_cnt_to_peer c; pending_rx := pending_rx c; expiry := expiry c |}.
Definition with_io (b : TxBuf.TxBuf) (s : stream) (n : Z) (c : VsockConnection) : VsockConnection :=
  {| state := state c; local_cid := local_cid c; peer_cid := peer_cid c; local_port := local_port c; peer_port := peer_port c; host := s;
     tx_buf := b; c_fwd_cnt := (c_fwd_cnt c + n) mod TxBuf.W32; peer_buf_alloc := peer_buf_alloc c; peer_fwd_cnt := peer_fwd_cnt c;
     rx_cnt := rx_cnt c; last_fwd_cnt_to_peer := last_fwd_cnt_to_peer c; pending_rx := pending_rx c; expiry := expiry c |}.
Definition with_peer (alloc fwd : Z) (c : VsockConnection) : VsockConnection :=
  {| state := state c; local_cid := local_cid c; peer_cid := peer_cid c; local_port := local_port c; peer_port := peer_port c; host := host c;
     tx_buf := tx_buf c; c_fwd_cnt := c_fwd_cnt c; peer_buf_alloc := alloc; peer_fwd_cnt := fwd;
     rx_cnt := rx_cnt c; last_fwd_cnt_to_peer := last_fwd_cnt_to_peer c; pending_rx := pending_rx c; expiry := expiry c |}.
Definition with_rx (s : stream) (n : Z) (c : VsockConnection) : VsockConnection :=
  {| state := state c; local_cid := local_cid c; peer_cid := peer_cid c; local_port := local_port c; peer_port := peer_port c; host := s;
     tx_buf := tx_buf c; c_fwd_cnt := c_fwd_cnt c; peer_buf_alloc := peer_buf_alloc c; peer_fwd_cnt := peer_fwd_cnt c;
     rx_cnt := (rx_cnt c + n) mod TxBuf.W32; last_fwd_cnt_to_peer := last_fwd_cnt_to_peer c; pending_rx := pending_rx c; expiry := expiry c |}.
(** [last_fwd_cnt_to_peer = fwd_cnt] *)
Definition told (c : VsockConnection) : VsockConnection :=
  {| state := state c; local_cid := local_cid c; peer_cid := peer_cid c; local_port := local_port c; peer_port := peer_port c; host := host c;
     tx_buf := tx_buf c; c_fwd_cnt := c_fwd_cnt c; peer_buf_alloc := peer_buf_alloc c; peer_fwd_cnt := peer_fwd_cnt c;
     rx_cnt := rx_cnt c; last_fwd_cnt_to_peer := c_fwd_cnt c; pending_rx := pending_rx c; expiry := expiry c |}.
Definition with_pending (x : Z) (c : VsockConnection) : VsockConnection :=
  {| state := state c; local_cid := local_cid c; peer_cid := peer_cid c; local_port := local_port c; peer_port := peer_port c; host := host c;
     tx_buf := tx_buf c; c_fwd_cnt := c_fwd_cnt c; peer_buf_alloc := peer_buf_alloc c; peer_fwd_cnt := peer_fwd_cnt c;
     rx_cnt := rx_cnt c; last_fwd_cnt_to_peer := last_fwd_cnt_to_peer c; pending_rx := x; expiry := expiry c |}.
Definition with_expiry (x : option Z) (c : VsockConnection) : VsockConnection :=
  {| state := state c; local_cid := local_cid c; peer_cid := peer_cid c; local_port := local_port c; peer_port := peer_port c; host := host c;
     tx_buf := tx_buf c; c_fwd_cnt := c_fwd_cnt c; peer_buf_alloc := peer_buf_alloc c; peer_fwd_cnt := peer_fwd_cnt c;
     rx_cnt := rx_cnt c; last_fwd_cnt_to_peer := last_fwd_cnt_to_peer c; pending_rx := pending_rx c; expiry := x |}.
Definition pend (it : PendingRx) (c : VsockConnection) : VsockConnection := with_pending (rx_insert it (pending_rx c)) c.

(** *** Creating *)
Definition new_conn (st : ConnState) (s : stream) (lcid pcid lport pport alloc : Z) (it : PendingRx) : VsockConnection :=
  {| state := st; local_cid := lcid; peer_cid := pcid; local_port := lport; peer_port := pport; host := s; tx_buf := TxBuf.new;
     c_fwd_cnt := 0; peer_buf_alloc := alloc; peer_fwd_cnt := 0; rx_cnt := 0; last_fwd_cnt_to_peer := 0;
     pending_rx := into_mask it; expiry := None |}.
Definition new_peer_init (s : stream) (lcid pcid lport pport alloc : Z) : VsockConnection :=
  new_conn PeerInit s lcid pcid lport pport alloc Response.
Definition new_local_init (s : stream) (lcid pcid lport pport : Z) : VsockConnection :=
  new_conn LocalInit s lcid pcid lport pport 0 Request.

Definition will_expire (now : Z) (c : VsockConnection) : bool := match expiry c with None => false | Some t => now <? t end.
Definition has_expired (now : Z) (c : VsockConnection) : bool := match expiry c with None => false | Some t => t <=? now end.
Definition kill (c : VsockConnection) : VsockConnection := pend Rst (with_state Killed c).
Definition has_pending_rx (c : VsockConnection) : bool := negb (rx_is_empty (pending_rx c)).

(** *** Credit *)
Definition peer_needs_credit_update (c : VsockConnection) : bool :=
  (CONN_TX_BUF_SIZE - (c_fwd_cnt c - last_fwd_cnt_to_peer c)) mod TxBuf.W32 <? CONN_CREDIT_UPDATE_THRESHOLD.
Definition peer_avail_credit (c : VsockConnection) : Z := (peer_buf_alloc c - (rx_cnt c - peer_fwd_cnt c)) mod TxBuf.W32.
Definition need_credit_update_from_peer (c : VsockConnection) : bool := peer_avail_credit c =? 0.

(** *** Packets to the guest *)
Definition init_pkt (c : VsockConnection) : header :=
  {| src_cid := local_cid c; dst_cid := peer_cid c; src_port := local_port c; dst_port := peer_port c; h_len := 0;
     type_ := VSOCK_TYPE_STREAM; op := 0; flags := 0; buf_alloc := CONN_TX_BUF_SIZE; fwd_cnt := c_fwd_cnt c |}.
Definition set_op (x : Z) (h : header) : header :=
  {| src_cid := src_cid h; dst_cid := dst_cid h; src_port := src_port h; dst_port := dst_port h; h_len := h_len h;
     type_ := type_ h; op := x; flags := flags h; buf_alloc := buf_alloc h; fwd_cnt := fwd_cnt h |}.
Definition set_flag (x : Z) (h : header) : header :=
  {| src_cid := src_cid h; dst_cid := dst_cid h; src_port := src_port h; dst_port := dst_port h; h_len := h_len h;
     type_ := type_ h; op := op h; flags := Z.lor (flags h) x; buf_alloc := buf_alloc h; fwd_cnt := fwd_cnt h |}.
Definition set_len (x : Z) (h : header) : header :=
  {| src_cid := src_cid h; dst_cid := dst_cid h; src_port := src_port h; dst_port := dst_port h; h_len := x;
     type_ := type_ h; op := op h; flags := flags h; buf_alloc := buf_alloc h; fwd_cnt := fwd_cnt h |}.

Definition take_pending (it : PendingRx) (c : VsockConnection) : bool * VsockConnection :=
  let '(b, p) := rx_remove it (pending_rx c) in (b, with_pending p c).

(** The header and the data of the packet; [buf_size] is the size of its buffer, if it has
    one, and [now] the time in milliseconds. *)
Definition pkt_result : Type := res VsockError (header * list Z) * VsockConnection.

Definition recv_credit_update (h : header) (c : VsockConnection) : pkt_result :=
  let '(b, c1) := take_pending CreditUpdate c in
  if b && negb (has_pending_rx c1) then (Ok (set_op VSOCK_OP_CREDIT_UPDATE h, []), told c1) else (Err NoData, c1).

Definition recv_data (now : Z) (buf_size : option Z) (h : header) (c : VsockConnection) : pkt_result :=
  if need_credit_update_from_peer c then (Ok (set_op VSOCK_OP_CREDIT_REQUEST h, []), told c)
  else match buf_size with
  | None => (Err PktBufMissing, c)
  | Some n =>
      match read (Z.min n (peer_avail_credit c)) (host c) with
      | (Ok [], s) =>
          (Ok (set_flag VSOCK_FLAGS_SHUTDOWN_SEND (set_flag VSOCK_FLAGS_SHUTDOWN_RCV (set_op VSOCK_OP_SHUTDOWN h)), []),
           told (with_expiry (Some (now + CONN_SHUTDOWN_TIMEOUT_MS)) (with_state LocalClosed (with_rx s 0 c))))
      | (Ok l, s) => (Ok (set_len (zlen l) (set_op VSOCK_OP_RW h), l), told (with_rx s (zlen l) c))
      | (Err WouldBlock, s) => recv_credit_update h (with_rx s 0 c)
      | (Err Other, s) => (Ok (set_op VSOCK_OP_RST h, []), told (with_rx s 0 c))
      | (Panic, s) => (Panic, with_rx s 0 c)
      | (Hang, s) => (Hang, with_rx s 0 c)
      end
  end.

Definition recv_pkt (now : Z) (buf_size : option Z) (c : VsockConnection) : pkt_result :=
  let h := init_pkt c in
  let '(rst, c1) := take_pending Rst c in
  if rst then (Ok (set_op VSOCK_OP_RST h, []), c1)
  else
    let '(response, c2) := take_pending Response c1 in
    if response then (Ok (set_op VSOCK_OP_RESPONSE h, []), with_state Established c2)
    else
      let '(request, c3) := take_pending Request c2 in
      if request then (Ok (set_op VSOCK_OP_REQUEST h, []), with_expiry (Some (now + CONN_REQUEST_TIMEOUT_MS)) c3)
      else
        let '(rw, c4) := take_pending Rw c3 in
        if rw then
          match state c4 with
          | Established | PeerClosed false _ => recv_data now buf_size h c4
          | _ => (Ok (set_op VSOCK_OP_RST h, []), c4)
          end
        else recv_credit_update h c4.

(** *** Packets from the guest *)

Definition send_bytes_raw (l : list Z) (c : VsockConnection) : res TxBuf.Error Z * VsockConnection :=
  let '(r, s) := write TxBuf.StreamWrite l (host c) in (r, with_rx s 0 c).

(** Push into the buffer; the stream and the counter stay as they are. *)
Definition push_bytes (l : list Z) (c : VsockConnection) : res TxBuf.Error unit * VsockConnection :=
  match TxBuf.push CONN_TX_BUF_SIZE l (tx_buf c) with
  | Ok b => (Ok tt, with_io b (host c) 0 c)
  | Err e => (Err e, c)
  | Panic => (Panic, c)
  | Hang => (Hang, c)
  end.

Definition send_bytes (l : list Z) (c : VsockConnection) : res TxBuf.Error unit * VsockConnection :=
  if negb (TxBuf.is_empty (tx_buf c)) then push_bytes l c
  else
    let continue written s :=
      let c1 := with_io (tx_buf c) s written c in
      if written <? zlen l then push_bytes (drop (Z.to_nat written) l) c1 else (Ok tt, c1) in
    match write TxBuf.StreamWrite l (host c) with
    | (Ok cnt, s) => continue cnt s
    | (Err (TxBuf.StreamWrite WouldBlock), s) => continue 0 s
    | (Err e, s) => (Err e, with_io (tx_buf c) s 0 c)
    | (Panic, s) => (Panic, with_io (tx_buf c) s 0 c)
    | (Hang, s) => (Hang, with_io (tx_buf c) s 0 c)
    end.

Definition has_flag (h : header) (f : Z) : bool := negb (Z.land (flags h) f =? 0).

(** [h] is the packet's header and [b] its buffer. *)
Definition send_data (h : header) (b : option (list Z)) (c : VsockConnection) : res VsockError unit * VsockConnection :=
  match b with
  | None => (Ok tt, c)
  | Some l =>
      if zlen l <? h_len h then (Panic, c)
      else
        match send_bytes (take (Z.to_nat (h_len h)) l) c with
        | (Ok _, c1) => (Ok tt, if peer_needs_credit_update c1 then pend CreditUpdate c1 else c1)
        | (Err _, c1) => (Ok tt, kill c1)
        | (Panic, c1) => (Panic, c1)
        | (Hang, c1) => (Hang, c1)
        end
  end.

Definition send_pkt (now : Z) (h : header) (b : option (list Z)) (c0 : VsockConnection) : res VsockError unit * VsockConnection :=
  let c := with_peer (buf_alloc h) (fwd_cnt h) c0 in
  let o := op h in
  match state c with
  | Established =>
      if o =? VSOCK_OP_RW then send_data h b c
      else if o =? VSOCK_OP_SHUTDOWN then
        let recv_off := has_flag h VSOCK_FLAGS_SHUTDOWN_RCV in
        let send_off := has_flag h VSOCK_FLAGS_SHUTDOWN_SEND in
        let c1 := with_state (PeerClosed recv_off send_off) c in
        (Ok tt, if recv_off && send_off then
                  if TxBuf.is_empty (tx_buf c1) then pend Rst c1 else with_expiry (Some (now + CONN_SHUTDOWN_TIMEOUT_MS)) c1
                else c1)
      else if o =? VSOCK_OP_CREDIT_REQUEST then (Ok tt, pend CreditUpdate c)
      else (Ok tt, c)
  | PeerClosed recv_off0 send_off0 =>
      if (o =? VSOCK_OP_RW) && negb send_off0 then send_data h b c
      else if o =? VSOCK_OP_SHUTDOWN then
        let recv_off := recv_off0 || has_flag h VSOCK_FLAGS_SHUTDOWN_RCV in
        let send_off := send_off0 || has_flag h VSOCK_FLAGS_SHUTDOWN_SEND in
        let c1 := with_state (PeerClosed recv_off send_off) c in
        (Ok tt, if recv_off && send_off && TxBuf.is_empty (tx_buf c1) then pend Rst c1 else c1)
      else if (o =? VSOCK_OP_CREDIT_REQUEST) && negb send_off0 then (Ok tt, pend CreditUpdate c)
      else (Ok tt, c)
  | LocalInit => (Ok tt, if o =? VSOCK_OP_RESPONSE then with_state Established (with_expiry None c) else c)
  | PeerInit => (Ok tt, if o =? VSOCK_OP_CREDIT_REQUEST then pend CreditUpdate c else c)
  | LocalClosed | Killed => (Ok tt, c)
  end.

(** *** Events of the stream *)

(** The events the connection wants: EPOLLIN, EPOLLOUT. *)
Definition get_polled_evset (c : VsockConnection) : bool * bool :=
  (match state c with
   | Killed | LocalClosed | PeerClosed true _ => false
   | _ => negb (need_credit_update_from_peer c)
   end, negb (TxBuf.is_empty (tx_buf c))).

Definition notify (epollin epollout : bool) (c0 : VsockConnection) : res VsockError unit * VsockConnection :=
  let c := if epollin then pend Rw c0 else c0 in
  if negb epollout then (Ok tt, c)
  else if TxBuf.is_empty (tx_buf c) then (Ok tt, c)
  else
    let finish c2 :=
      (Ok tt, if bool_decide (state c2 = PeerClosed true true) && TxBuf.is_empty (tx_buf c2) then pend Rst c2
              else if peer_needs_credit_update c2 then pend CreditUpdate c2 else c2) in
    match TxBuf.flush_to CONN_TX_BUF_SIZE 3 (tx_buf c, host c) with
    | (Ok flushed, (b, s)) => finish (with_io b s flushed c)
    | (Err (TxBuf.TxBufFlush WouldBlock), (b, s)) => finish (with_io b s 0 c)
    | (Err _, (b, s)) => finish (kill (with_io b s 0 c))
    | (Panic, (b, s)) => (Panic, with_io b s 0 c)
    | (Hang, (b, s)) => (Hang, with_io b s 0 c)
    end.

(** ** A connection over time *)

Inductive event :=
| Send (now : Z) (h : header) (b : option (list Z))
| Recv (now : Z) (buf_size : option Z)
| Notify (epollin epollout : bool).

(** The bytes of a packet that the connection forwards to the host. *)
Definition forwarded (c : VsockConnection) (h : header) (b : option (list Z)) : list Z :=
  if (op h =? VSOCK_OP_RW) && (match state c with Established | PeerClosed _ false => true | _ => false end)
  then match b with Some l => take (Z.to_nat (h_len h)) l | None => [] end else [].

(** What the guest sent, how many bytes the host's stream had when the guest was last told,
    what the guest received, whether the connection was reset, and the bytes that the stream
    took from [send_bytes_raw]. *)
Record ghost := { sent : list Z; seen : Z; got : list Z; over : bool; raw : list Z }.

(** The packets that tell the guest, and are noted as such. *)
Definition informs (h : header) : bool :=
  (op h =? VSOCK_OP_RW) || (op h =? VSOCK_OP_SHUTDOWN) || (op h =? VSOCK_OP_CREDIT_UPDATE) || (op h =? VSOCK_OP_CREDIT_REQUEST).

Definition after_recv (h : header) (l : list Z) (c' : VsockConnection) (g : ghost) : ghost :=
  {| sent := sent g; seen := if informs h then zlen (out (host c')) else seen g; got := got g ++ l;
     over := over g || (op h =? VSOCK_OP_RST); raw := raw g |}.

Definition after_send (l : list Z) (g : ghost) : ghost :=
  {| sent := sent g ++ l; seen := seen g; got := got g; over := over g; raw := raw g |}.

Definition after_raw (l : list Z) (g : ghost) : ghost :=
  {| sent := sent g; seen := seen g; got := got g; over := over g; raw := raw g ++ l |}.

Definition step (e : event) (g : ghost) (c : VsockConnection) : res unit (ghost * VsockConnection) :=
  match e with
  | Send now h b =>
      match send_pkt now h b c with
      | (Ok _, c') | (Err _, c') => Ok (after_send (forwarded c h b) g, c')
      | (Panic, _) => Panic
      | (Hang, _) => Hang
      end
  | Recv now n =>
      match recv_pkt now n c with
      | (Ok (h, l), c') => Ok (after_recv h l c' g, c')
      | (Err _, c') => Ok (g, c')
      | (Panic, _) => Panic
      | (Hang, _) => Hang
      end
  | Notify i o =>
      match notify i o c with
      | (Ok _, c') | (Err _, c') => Ok (g, c')
      | (Panic, _) => Panic
      | (Hang, _) => Hang
      end
  end.

Fixpoint run (l : list event) (g : ghost) (c : VsockConnection) : res unit (ghost * VsockConnection) :=
  match l with [] => Ok (g, c) | e :: l' => '(g', c') ← step e g c; run l' g' c' end.

(** A packet's buffer holds what its header says. *)
Definition event_ok (e : event) : Prop :=
  match e with Send _ h b => ∀ l, b = Some l → 0 ≤ h_len h ≤ zlen l | _ => True end.

(** What the multiplexer does with a connection: the events, and the calls that bypass the
    state machine. *)
Inductive action := Event (e : event) | SendRaw (l : list Z) | Kill.

Definition act (a : action) (g : ghost) (c : VsockConnection) : res unit (ghost * VsockConnection) :=
  match a with
  | Event e => step e g c
  | SendRaw l =>
      match send_bytes_raw l c with
      | (Ok n, c') => Ok (after_raw (take (Z.to_nat n) l) g, c')
      | (Err _, c') => Ok (g, c')
      | (Panic, _) => Panic
      | (Hang, _) => Hang
      end
  | Kill => Ok (g, kill c)
  end.

Fixpoint acts (l : list action) (g : ghost) (c : VsockConnection) : res unit (ghost * VsockConnection) :=
  match l with [] => Ok (g, c) | a :: l' => '(g', c') ← act a g c; acts l' g' c' end.

(** A data packet that announces more bytes than its buffer holds. *)
Definition oversized (a : action) : Prop :=
  match a with Event (Send _ h (Some l)) => op h = VSOCK_OP_RW ∧ zlen l < h_len h | _ => False end.

(** [m] consists of the bytes of [w] and of [r], each in their order. *)
Inductive riffle : list Z → list Z → list Z → Prop :=
| riffle_nil : riffle [] [] []
| riffle_left w r m x : riffle w r m → riffle (w ++ x) r (m ++ x)
| riffle_right w r m x : riffle w r m → riffle w (r ++ x) (m ++ x).

Lemma riffle_plain w r m : riffle w r m → r = [] → m = w.
Proof.
  induction 1 as [|w r m x _ IH|w r m x _ IH]; intros E; [done|by rewrite IH|].
  apply app_nil in E as [-> ->]. rewrite app_nil_r. auto.
Qed.

(** The bytes the host's stream got from the connection, after the [pre] it had before. *)
Record integrity (pre : list Z) (g : ghost) (c : VsockConnection) : Prop := {
  in_wf : TxBuf.wf CONN_TX_BUF_SIZE (tx_buf c);
  in_data : ∃ w m lost, out (host c) = pre ++ m ∧ riffle w (raw g) m ∧
              w ++ TxBuf.contents CONN_TX_BUF_SIZE (tx_buf c) ++ lost = sent g ∧
              (state c ≠ Killed → lost = []) ∧ c_fwd_cnt c = zlen w mod TxBuf.W32;
  in_response : rx_contains Response (pending_rx c) = true → (state c = PeerInit ∨ state c = Killed) ∧ sent g = [];
  in_init : state c = PeerInit → sent g = [] }.

(** The bytes that the stream still has for the guest. *)
Definition unread (rs : list read_result) : list Z := concat ((λ r, match r with Data l => l | _ => [] end) <$> rs).

(** The bytes the guest got, before those the stream still has. *)
Record delivery (total : list Z) (g : ghost) (c : VsockConnection) : Prop := {
  de_data : got g ++ unread (reads (host c)) = total;
  de_count : rx_cnt c = zlen (got g) mod TxBuf.W32 }.

Definition fresh (s : stream) (c : VsockConnection) : Prop :=
  ∃ lcid pcid lport pport alloc, c = new_peer_init s lcid pcid lport pport alloc ∨ c = new_local_init s lcid pcid lport pport.

Definition ghost_new (s : stream) : ghost := {| sent := []; seen := zlen (out s); got := []; over := false; raw := [] |}.

Lemma contains_bit it s :
  rx_contains it s = Z.testbit s (match it with Request => 0 | Response => 1 | Rst => 2 | Rw => 3 | CreditUpdate => 4 end).
Proof. unfold rx_contains, into_mask. apply Bitmap.mask_testbit. by destruct it. Qed.

Lemma contains_insert it it' s : rx_contains it (rx_insert it' s) = rx_contains it s || rx_contains it (into_mask it').
Proof. rewrite !contains_bit. unfold rx_insert. by rewrite Z.lor_spec. Qed.

Lemma contains_remove it it' s :
  rx_contains it (rx_remove it' s).2 = rx_contains it s && negb (rx_contains it (into_mask it')).
Proof. rewrite !contains_bit. cbn [rx_remove snd]. rewrite Z.land_spec. f_equal. by destruct it, it'. Qed.

Lemma size_facts : 0 < CONN_TX_BUF_SIZE ∧ CONN_TX_BUF_SIZE < TxBuf.W32 ∧ (CONN_TX_BUF_SIZE | TxBuf.W32).
Proof. split_and!; [done..|]. by exists (2 ^ 16). Qed.

(** *** Sending *)

Lemma with_io_twice b b' s s' m n c : with_io b s m (with_io b' s' n c) = with_io b s (n + m) c.
Proof. unfold with_io. cbn. f_equal. rewrite Zplus_mod_idemp_l. f_equal. lia. Qed.

Lemma with_io_same c : 0 ≤ c_fwd_cnt c < TxBuf.W32 → with_io (tx_buf c) (host c) 0 c = c.
Proof. intros Hf. destruct c. unfold with_io. cbn in *. by rewrite Z.add_0_r, Z.mod_small. Qed.

#[local] Notation SZ := CONN_TX_BUF_SIZE.

Lemma is_empty_contents b : TxBuf.wf SZ b → TxBuf.is_empty b = true → TxBuf.contents SZ b = [] ∧ TxBuf.len b = 0.
Proof.
  intros Hb He. apply Z.eqb_eq in He. split; [|done]. apply zlen_nil_inv.
  rewrite (TxBuf.zlen_contents SZ); [done|apply size_facts|done].
Qed.

(** The bytes [l] go to the stream or, in their order, behind those of the buffer; bytes are
    lost only when the buffer is full or the stream fails. *)
Definition bytes_sent (l : list Z) (c : VsockConnection) (r : res TxBuf.Error unit) (c1 : VsockConnection) : Prop :=
  ∃ b s w lost, c1 = with_io b s (zlen w) c ∧ TxBuf.wf SZ b ∧ out s = out (host c) ++ w ∧
    w ++ TxBuf.contents SZ b ++ lost = TxBuf.contents SZ (tx_buf c) ++ l ∧ reads s = reads (host c) ∧ writes s ⊆ writes (host c) ∧
    (r = Ok tt ∧ lost = [] ∨ ∃ e, r = Err e ∧ (SZ < TxBuf.len (tx_buf c) + zlen l ∨ FailW ∈ writes (host c))).

Lemma push_bytes_spec n s l c :
  TxBuf.wf SZ (tx_buf c) →
  ∃ r b lost, push_bytes l (with_io (tx_buf c) s n c) = (r, with_io b s n c) ∧ TxBuf.wf SZ b ∧
    TxBuf.contents SZ b ++ lost = TxBuf.contents SZ (tx_buf c) ++ l ∧
    (r = Ok tt ∧ lost = [] ∨ r = Err TxBuf.TxBufFull ∧ SZ < TxBuf.len (tx_buf c) + zlen l).
Proof.
  intros Hb. destruct size_facts as (Hp & Hs & Hd). unfold push_bytes. cbn [tx_buf with_io host].
  pose proof (TxBuf.ring_push_spec SZ Hp Hs Hd l (tx_buf c) Hb) as H.
  destruct (Z.ltb_spec SZ (TxBuf.len (tx_buf c) + zlen l)).
  - rewrite H. exists (Err TxBuf.TxBufFull), (tx_buf c), l. split_and!; [done..|right; by split].
  - destruct H as (b' & -> & Hb' & Hc'). exists (Ok tt), b', []. rewrite with_io_twice, Z.add_0_r, app_nil_r.
    split_and!; [done..|by left].
Qed.

(** What follows a write of [k] bytes when the buffer is empty. *)
Lemma send_rest_spec l c k s :
  TxBuf.wf SZ (tx_buf c) → TxBuf.is_empty (tx_buf c) = true → 0 ≤ k ≤ zlen l → out s = out (host c) ++ take (Z.to_nat k) l →
  reads s = reads (host c) → writes s ⊆ writes (host c) →
  let '(r, c1) := if k <? zlen l then push_bytes (drop (Z.to_nat k) l) (with_io (tx_buf c) s k c) else (Ok tt, with_io (tx_buf c) s k c) in
  bytes_sent l c r c1.
Proof.
  intros Hb He Hk Ho Hr Hw. destruct (is_empty_contents _ Hb He) as [Hc0 Hl0].
  assert (zlen (take (Z.to_nat k) l) = k) as Hz by (unfold zlen in *; rewrite length_take; lia).
  destruct (Z.ltb_spec k (zlen l)) as [Hlt|Hge].
  - destruct (push_bytes_spec k s (drop (Z.to_nat k) l) c Hb) as (r & b & lost & -> & Hb' & Hc & Hor).
    exists b, s, (take (Z.to_nat k) l), lost. rewrite Hz. split_and!; try done.
    + rewrite Hc, Hc0. cbn [app]. apply take_drop.
    + destruct Hor as [|[-> Hfull]]; [by left|right; eexists; split; [done|left]].
      assert (zlen (drop (Z.to_nat k) l) ≤ zlen l) by (unfold zlen; rewrite length_drop; lia). lia.
  - exists (tx_buf c), s, (take (Z.to_nat k) l), []. rewrite Hz. split_and!; try done; [|by left].
    rewrite Hc0. cbn. rewrite app_nil_r. apply take_ge. unfold zlen in *. lia.
Qed.

Lemma send_bytes_spec l c :
  TxBuf.wf SZ (tx_buf c) → 0 ≤ c_fwd_cnt c < TxBuf.W32 → let '(r, c1) := send_bytes l c in bytes_sent l c r c1.
Proof.
  intros Hb Hf. unfold send_bytes. destruct (TxBuf.is_empty (tx_buf c)) eqn:He; cbn [negb].
  2:{ destruct (push_bytes_spec 0 (host c) l c Hb) as (r & b & lost & Hr & Hb' & Hc & Hor). rewrite with_io_same in Hr by done.
      rewrite Hr. exists b, (host c), [], lost. rewrite app_nil_r. split_and!; [done..|].
      destruct Hor as [|[-> ?]]; [by left|right; eauto]. }
  destruct (stream_write_spec TxBuf.StreamWrite l (host c)) as [(k & s1 & -> & Hk & Ho1 & Hr1 & Hs1)|(e & s1 & -> & Ho1 & Hr1 & Hs1 & Hfail)].
  - by apply send_rest_spec.
  - destruct e.
    + apply send_rest_spec; [done|done|pose proof (zlen_nonneg l); lia|by rewrite app_nil_r|done..].
    + exists (tx_buf c), s1, [], l. split_and!; try done; [by rewrite app_nil_r|]. right. eexists. split; [done|right]. by apply Hfail.
Qed.

(** *** The invariant *)

(** Operations that leave the streams, the buffer and the counter alone. *)
Lemma integrity_frame pre g g' c c' :
  integrity pre g c → tx_buf c' = tx_buf c → out (host c') = out (host c) → c_fwd_cnt c' = c_fwd_cnt c → sent g' = sent g → raw g' = raw g →
  (state c = Killed → state c' = Killed ∨ sent g = []) →
  (rx_contains Response (pending_rx c') = true → (state c' = PeerInit ∨ state c' = Killed) ∧ sent g = []) →
  (state c' = PeerInit → sent g = []) →
  integrity pre g' c'.
Proof.
  intros [Hw (w & m & lost & Ho & Hm & Hd & Hl & Hf) Hr Hi] Ht Ho' Hf' Hs Hg Hk Hr' Hi'.
  split; [by rewrite Ht| |by rewrite Hs|by rewrite Hs].
  exists w, m, lost. rewrite Ho', Ht, Hf', Hs, Hg. split_and!; try done. intros Hnk. destruct (decide (state c = Killed)) as [Hkd|]; [|by apply Hl].
  destruct (Hk Hkd) as [|Hnil]; [done|]. rewrite Hnil in Hd. apply app_nil in Hd as [_ Hd]. by apply app_nil in Hd as [_ ->].
Qed.

Lemma fwd_range pre g c : integrity pre g c → 0 ≤ c_fwd_cnt c < TxBuf.W32.
Proof. intros [_ (w & m & lost & _ & _ & _ & _ & ->) _ _]. by apply Z.mod_pos_bound. Qed.

Lemma send_data_integrity pre g c h b l :
  integrity pre g c → state c ≠ Killed → state c ≠ PeerInit → (∀ l, b = Some l → h_len h ≤ zlen l) →
  l = match b with Some l => take (Z.to_nat (h_len h)) l | None => [] end →
  ∃ c', send_data h b c = (Ok tt, c') ∧ integrity pre (after_send l g) c'.
Proof.
  intros Hi Hk Hp Hb ->. unfold send_data. destruct b as [l|].
  2:{ exists c. split; [done|]. 
      apply (integrity_frame pre g _ c); try done; [cbn; by rewrite app_nil_r|apply Hi..]. }
  rewrite (proj2 (Z.ltb_ge _ _)) by (by apply Hb). set (d := take _ _).
  pose proof (send_bytes_spec d c (in_wf _ _ _ Hi) (fwd_range _ _ _ Hi)) as Hs.
  destruct (send_bytes d c) as [r c1]. destruct Hs as (b' & s' & w1 & lost1 & -> & Hb' & Ho' & Hd' & Hr' & _ & Hres).
  destruct Hi as [Hw (w & m & lost & Ho & Hm & Hd & Hl & Hf) Hresp Hinit]. rewrite Hl in Hd by done. rewrite app_nil_r in Hd.
  assert (∀ (st : ConnState) c2, tx_buf c2 = b' → host c2 = s' → c_fwd_cnt c2 = (c_fwd_cnt c + zlen w1) mod TxBuf.W32 →
    (state c2 ≠ Killed → lost1 = []) → rx_contains Response (pending_rx c2) = rx_contains Response (pending_rx c) →
    state c2 ≠ PeerInit → integrity pre (after_send d g) c2) as Hfin.
  { intros st c2 H1 H2 H3 H4 H5 H6. split; [by rewrite H1| |rewrite H5; intros [[] _]%Hresp; done|done].
    exists (w ++ w1), (m ++ w1), lost1. split_and!; [by rewrite H2, Ho', Ho, <-assoc_L by apply _|by apply riffle_left| |done|].
    2:{ by rewrite H3, Hf, zlen_app, Zplus_mod_idemp_l. }
    rewrite H1. cbn [sent after_send].
    by rewrite <-Hd, <-!assoc_L, Hd' by apply _. }
  destruct Hres as [[-> ->]|(e & -> & _)].
  - eexists. split; [done|]. apply (Hfin Established); destruct (peer_needs_credit_update _); try done.
    cbn. by rewrite contains_insert, orb_false_r.
  - eexists. split; [done|]. apply (Hfin Killed); try done. cbn. by rewrite contains_insert, orb_false_r.
Qed.

(** The effect of an operation that moves no byte to the host. *)
Record quiet (c c' : VsockConnection) : Prop := {
  qu_buf : tx_buf c' = tx_buf c;
  qu_out : out (host c') = out (host c);
  qu_fwd : c_fwd_cnt c' = c_fwd_cnt c;
  qu_response : rx_contains Response (pending_rx c') = true → rx_contains Response (pending_rx c) = true ∧ state c' = state c;
  qu_state : state c' = state c ∨ state c' ≠ PeerInit ∧ state c' ≠ Killed ∧ (state c = Killed → rx_contains Response (pending_rx c) = true) }.

Lemma integrity_quiet pre g g' c c' : integrity pre g c → quiet c c' → sent g' = sent g → raw g' = raw g → integrity pre g' c'.
Proof.
  intros Hi [Hb Ho Hf Hr Hs] Hg Hraw. apply (integrity_frame pre g g' c c'); try done.
  - intros Hk. destruct Hs as [->|(_ & _ & Hs)]; [by left|right]. by apply (in_response _ _ _ Hi), Hs.
  - intros [Hc ->]%Hr. by apply (in_response _ _ _ Hi).
  - intros Hp. destruct Hs as [Hs|[? _]]; [|done]. apply (in_init _ _ _ Hi). congruence.
Qed.

(** Solves the goals about the indications after insertions and removals. *)
Ltac rx_simpl :=
  repeat (rewrite contains_insert || rewrite contains_remove);
  change (rx_contains Response (into_mask Rst)) with false; change (rx_contains Response (into_mask CreditUpdate)) with false;
  change (rx_contains Response (into_mask Rw)) with false; change (rx_contains Response (into_mask Request)) with false;
  change (rx_contains Response (into_mask Response)) with true;
  rewrite ?orb_false_r, ?andb_true_r, ?andb_false_r.

Lemma send_pkt_integrity pre g c now h b :
  integrity pre g c →
  (send_pkt now h b c).1 = Panic ∧ oversized (Event (Send now h b)) ∨
  ∃ c', send_pkt now h b c = (Ok tt, c') ∧ integrity pre (after_send (forwarded c h b) g) c'.
Proof.
  intros Hi. set (c1 := with_peer (buf_alloc h) (fwd_cnt h) c).
  assert (integrity pre g c1) as Hi1 by (by apply (integrity_quiet pre g g c); [|split; auto|..]).
  assert (∀ c', quiet c1 c' → integrity pre (after_send [] g) c') as Hq.
  { intros c' Hc'. apply (integrity_quiet pre g _ c1); [done..| |done]. cbn. by rewrite app_nil_r. }
  assert (∀ it, it = Rst ∨ it = CreditUpdate → ∀ c', quiet c1 c' → quiet c1 (pend it c')) as Hpend.
  { intros it Hit c' [Hb Ho Hf Hr Hs]. split; try done. cbn. destruct Hit as [-> | ->]; rx_simpl; done. }
  assert (∀ st, state c ≠ Killed → state c ≠ PeerInit → st ≠ PeerInit → st ≠ Killed → quiet c1 (with_state st c1)) as Hst.
  { intros st Hk Hp Hn1 Hn2. split; try done; [|by right; split_and!]. cbn. intros Hr.
    by destruct (in_response _ _ _ Hi Hr) as [[] _]. }
  assert (quiet c1 c1) as Hrefl by (by split; auto).
  assert (∀ x c', quiet c1 c' → quiet c1 (with_expiry x c')) as Hexp by (by intros x c' []; split).
  assert (∀ l, op h = VSOCK_OP_RW → state c ≠ Killed → state c ≠ PeerInit → l = match b with Some l => take (Z.to_nat (h_len h)) l | None => [] end →
    (send_data h b c1).1 = Panic ∧ oversized (Event (Send now h b)) ∨
    ∃ c', send_data h b c1 = (Ok tt, c') ∧ integrity pre (after_send l g) c') as Hdata.
  { intros l Hop Hk Hp Hl. destruct b as [x|]; [destruct (Z.ltb_spec (zlen x) (h_len h)) as [Hlt|]|].
    - left. unfold send_data. by rewrite (proj2 (Z.ltb_lt _ _)).
    - right. apply send_data_integrity; try done. by intros ? [= <-].
    - right. by apply send_data_integrity. }
  unfold send_pkt. fold c1. unfold forwarded. change (state c1) with (state c).
  destruct (state c) as [| | | |r0 s0|] eqn:Hstate; rewrite ?andb_false_r.
  - right. eexists. split; [done|]. apply Hq. destruct (_ =? _); [|done].
    assert (quiet c1 (with_state Established c1)) as [] by (by apply Hst). by split.
  - right. eexists. split; [done|]. apply Hq. destruct (_ =? _); [|done]. apply Hpend; auto.
  - rewrite andb_true_r. destruct (Z.eqb_spec (op h) VSOCK_OP_RW); [by apply Hdata|].
    destruct (op h =? VSOCK_OP_SHUTDOWN); [|destruct (op h =? VSOCK_OP_CREDIT_REQUEST)]; right; eexists; (split; [done|]); apply Hq; auto.
    repeat case_match; auto.
  - right. eexists. split; [done|]. by apply Hq.
  - destruct (Z.eqb_spec (op h) VSOCK_OP_RW), s0; cbn [andb negb]; try (by apply Hdata).
    all: repeat case_match; right; eexists; (split; [done|]); apply Hq; auto.
  - right. eexists. split; [done|]. by apply Hq.
Qed.

Lemma take_pending_quiet it c b c' :
  take_pending it c = (b, c') → quiet c c' ∧ b = rx_contains it (pending_rx c) ∧ state c' = state c.
Proof.
  intros [= <- <-]. split; [|done]. split; try done; [|by left].
  change (rx_contains Response (rx_remove it (pending_rx c)).2 = true → rx_contains Response (pending_rx c) = true ∧ state c = state c).
  rewrite contains_remove. by intros [? _]%andb_prop.
Qed.

Lemma quiet_then c1 c2 c3 : quiet c1 c2 → state c2 = state c1 → quiet c2 c3 → quiet c1 c3.
Proof.
  intros [? ? ? Hr2 Hs2] Hst [? ? ? Hr3 Hs3]. split; try congruence.
  - intros [Hc3 Hst3]%Hr3. apply Hr2 in Hc3 as [? ?]. split; congruence.
  - destruct Hs3 as [->|(? & ? & Hk)]; [by left|right]. split_and!; [done..|]. rewrite <-Hst. intros Hkk. by apply Hr2, Hk.
Qed.

(** A read changes only what is left to read. *)
Lemma read_quiet n c : quiet c (with_rx (read n (host c)).2 0 c) ∧ ∀ k, quiet c (with_rx (read n (host c)).2 k c).
Proof.
  assert (out (read n (host c)).2 = out (host c)) as Ho by (unfold read; by destruct (reads (host c)) as [|[] ?]).
  split; [|intros k]; split; try done; by left.
Qed.

(** The result of an operation that returns. *)
Definition returned {E A} (r : res E A) : Prop := match r with Ok _ | Err _ => True | _ => False end.

Lemma recv_credit_update_quiet h c : quiet c (recv_credit_update h c).2 ∧ returned (recv_credit_update h c).1.
Proof.
  unfold recv_credit_update. destruct (take_pending CreditUpdate c) as [b c1] eqn:Ht.
  destruct (take_pending_quiet _ _ _ _ Ht) as ([] & _ & _). by destruct (b && negb (has_pending_rx c1)).
Qed.

Lemma recv_data_quiet now n h c :
  rx_contains Response (pending_rx c) = false → state c ≠ Killed →
  quiet c (recv_data now n h c).2 ∧ returned (recv_data now n h c).1.
Proof.
  intros Hr Hk. assert (quiet c c) as Hc by (by split; auto).
  assert (∀ c', quiet c c' → quiet c (told c')) as Ht by (by intros ? []; split).
  unfold recv_data. destruct (need_credit_update_from_peer c); [split; [by apply Ht|done]|].
  destruct n as [n|]; [|done]. destruct (read_quiet (Z.min n (peer_avail_credit c)) c) as [H0 Hrd].
  unfold read in *. destruct (reads (host c)) as [|[l| | |] rs]; cbn [snd] in *; try (split; [apply Ht|]; done).
  - destruct (recv_credit_update_quiet h (with_rx (host c) 0 c)) as [Hq Hret]. split; [|done]. by eapply quiet_then.
  - destruct (take _ _) as [|x l'] eqn:Hl; [|split; [by apply Ht, Hrd|done]].
    split; [|done]. destruct (Hrd 0) as [? ? ? Hx _]. apply Ht. split; try done; [|by right; split_and!].
    cbn in *. by rewrite Hr.
  - split; [|done]. apply Ht. destruct H0. split; try done; [|by right; split_and!]. cbn in *. by rewrite Hr.
  - match goal with |- context [recv_credit_update h ?c'] => destruct (recv_credit_update_quiet h c') as [Hq Hret] end.
    split; [|done]. by eapply quiet_then.
Qed.

Lemma recv_pkt_quiet now n c : quiet c (recv_pkt now n c).2 ∧ returned (recv_pkt now n c).1.
Proof.
  unfold recv_pkt.
  destruct (take_pending Rst c) as [b1 c1] eqn:H1. destruct (take_pending_quiet _ _ _ _ H1) as (Hq1 & _ & Hs1).
  destruct b1; [done|].
  destruct (take_pending Response c1) as [b2 c2] eqn:H2. destruct (take_pending_quiet _ _ _ _ H2) as (Hq2 & Hb2 & Hs2).
  pose proof (quiet_then _ _ _ Hq1 Hs1 Hq2) as Hq12.
  assert (rx_contains Response (pending_rx c2) = false) as Hr2.
  { injection H2 as _ <-. change (rx_contains Response (rx_remove Response (pending_rx c1)).2 = false). rewrite contains_remove. apply andb_false_r. }
  destruct b2.
  { split; [|done]. destruct Hq12 as [? ? ? ? ?]. split; try done; [cbn; by rewrite Hr2|].
    right. split_and!; [done..|]. intros _. by apply (qu_response _ _ Hq1). }
  destruct (take_pending Request c2) as [b3 c3] eqn:H3. destruct (take_pending_quiet _ _ _ _ H3) as (Hq3 & _ & Hs3).
  assert (quiet c c3) as Hq13 by (eapply quiet_then; [exact Hq12|congruence|done]).
  assert (∀ c', quiet c2 c' → rx_contains Response (pending_rx c') = false) as Hno.
  { intros c' Hc'. destruct (rx_contains Response (pending_rx c')) eqn:Hc; [|done]. apply (qu_response _ _ Hc') in Hc as [Hc _]. congruence. }
  destruct b3; [split; [|done]; destruct Hq13; by split|].
  destruct (take_pending Rw c3) as [b4 c4] eqn:H4. destruct (take_pending_quiet _ _ _ _ H4) as (Hq4 & _ & Hs4).
  assert (quiet c c4) as Hq14 by (eapply quiet_then; [exact Hq13|congruence|done]).
  assert (rx_contains Response (pending_rx c4) = false) as Hr4 by (apply Hno; eapply quiet_then; [exact Hq3|done|done]).
  destruct b4.
  - destruct (state c4) as [| | | |[] ?|] eqn:Hst; try done.
    + destruct (recv_data_quiet now n (init_pkt c) c4 Hr4) as [Hq Hret]; [congruence|]. split; [|done].
      eapply quiet_then; [exact Hq14|congruence|done].
    + destruct (recv_data_quiet now n (init_pkt c) c4 Hr4) as [Hq Hret]; [congruence|]. split; [|done].
      eapply quiet_then; [exact Hq14|congruence|done].
  - destruct (recv_credit_update_quiet (init_pkt c) c4) as [Hq Hret]. split; [|done]. eapply quiet_then; [exact Hq14|congruence|done].
Qed.

(** Bytes that leave the buffer for the stream. *)
Lemma moved_integrity pre g c b s n c' :
  integrity pre g c → TxBuf.moved SZ (tx_buf c) b (host c) s n → state c ≠ PeerInit →
  state c' = state c ∨ state c' = Killed → tx_buf c' = b → host c' = s → c_fwd_cnt c' = (c_fwd_cnt c + n) mod TxBuf.W32 →
  rx_contains Response (pending_rx c') = rx_contains Response (pending_rx c) → integrity pre g c'.
Proof.
  intros [Hw (w & m & lost & Ho & Hm & Hd & Hl & Hf) Hr Hi] (Hn & Hb & Ho' & Hc & _ & _) Hnp Hst Htx Hh Hfwd Hresp.
  split; [by rewrite Htx| |rewrite Hresp; intros [[] ?]%Hr; [done|]; split; [right|done]; destruct Hst; congruence|intros Hp; destruct Hst; congruence].
  set (x := take (Z.to_nat n) (TxBuf.contents SZ (tx_buf c))). exists (w ++ x), (m ++ x), lost. subst x.
  rewrite Htx, Hh, Hfwd, Ho', Hc, Ho, Hf, zlen_app, <-!assoc_L by apply _. split_and!.
  - done.
  - by apply riffle_left.
  - rewrite (assoc_L (++) (take _ _)), take_drop by apply _. done.
  - intros Hk. apply Hl. destruct Hst; congruence.
  - rewrite Zplus_mod_idemp_l. do 2 f_equal. pose proof (TxBuf.zlen_contents SZ ltac:(apply size_facts) _ Hw) as Hz.
    unfold zlen in *. rewrite length_take. lia.
Qed.

Lemma buffered_started pre g c : integrity pre g c → TxBuf.is_empty (tx_buf c) = false → state c ≠ PeerInit.
Proof.
  intros Hi He Hp. pose proof (in_init _ _ _ Hi Hp) as Hs. destruct (in_data _ _ _ Hi) as (w & m & lost & _ & _ & Hd & _).
  rewrite Hs in Hd. apply app_nil in Hd as [_ Hd]. apply app_nil in Hd as [Hd _].
  pose proof (TxBuf.zlen_contents SZ ltac:(apply size_facts) _ (in_wf _ _ _ Hi)) as Hz. rewrite Hd in Hz.
  unfold TxBuf.is_empty in He. by rewrite <-Hz in He.
Qed.

(** The buffer is flushed by the events of the stream. *)
Lemma notify_integrity pre g c i o :
  integrity pre g c → ∃ c', notify i o c = (Ok tt, c') ∧ integrity pre g c'.
Proof.
  intros Hi. unfold notify. set (c1 := if i then _ else _).
  assert (integrity pre g c1) as Hi1.
  { subst c1. destruct i; [|done]. apply (integrity_quiet pre g g c); [done| |done..]. split; try done; [cbn; by rx_simpl|by left]. }
  destruct o; [|by exists c1]. cbn [negb]. destruct (TxBuf.is_empty (tx_buf c1)) eqn:He; [by exists c1|].
  destruct size_facts as (Hp & Hs & Hd).
  destruct (TxBuf.ring_flush_spec SZ Hp Hs Hd 3 (tx_buf c1) (host c1) (in_wf _ _ _ Hi1) (TxBuf.passes_bound _ _))
    as (r & n & b & s & Hfl & Hm & Hr). rewrite Hfl.
  pose proof (buffered_started _ _ _ Hi1 He) as Hnp.
  assert (∀ c2, (state c2 = state c1 ∨ state c2 = Killed) → tx_buf c2 = b → host c2 = s → c_fwd_cnt c2 = (c_fwd_cnt c1 + n) mod TxBuf.W32 →
    rx_contains Response (pending_rx c2) = rx_contains Response (pending_rx c1) →
    integrity pre g (if bool_decide (state c2 = PeerClosed true true) && TxBuf.is_empty (tx_buf c2) then pend Rst c2
                     else if peer_needs_credit_update c2 then pend CreditUpdate c2 else c2)) as Hfin.
  { intros c2 H1 H2 H3 H4 H5. apply (moved_integrity pre g c1 b s n); try done; repeat case_match; cbn; rx_simpl; done. }
  destruct Hr as [->|(-> & -> & e & -> & _)]; [|destruct e]; eexists; (split; [reflexivity|]); apply Hfin; try done; auto.
  cbn. by rx_simpl.
Qed.

Lemma step_integrity pre g c e :
  integrity pre g c →
  step e g c = Panic ∧ oversized (Event e) ∨ ∃ g' c', step e g c = Ok (g', c') ∧ integrity pre g' c'.
Proof.
  intros Hi. destruct e as [now h b|now n|i o]; cbn [step].
  - destruct (send_pkt_integrity pre g c now h b Hi) as [[Hp Ho]|(c' & -> & Hc')]; [left|right; eauto].
    by destruct (send_pkt now h b c) as [[] ?].
  - right. destruct (recv_pkt_quiet now n c) as [Hq Hr]. destruct (recv_pkt now n c) as [[[h l]| | |] c']; try done; cbn in Hq;
      (eexists _, _; split; [done|]); by apply (integrity_quiet pre g _ c).
  - right. destruct (notify_integrity pre g c i o Hi) as (c' & -> & Hc'). eauto.
Qed.

Lemma fresh_integrity s c : fresh s c → integrity (out s) (ghost_new s) c.
Proof.
  intros (lcid & pcid & lport & pport & alloc & [-> | ->]).
  all: split; [by split|exists [], [], []; rewrite app_nil_r; split_and!; [done|apply riffle_nil|done..]|vm_compute; by auto|done].
Qed.

(** *** Receiving *)

Lemma read_unread n s :
  match read n s with
  | (Ok l, s') => l ++ unread (reads s') = unread (reads s) ∧ zlen l ≤ Z.max 0 n
  | (Err _, s') => unread (reads s') = unread (reads s)
  | _ => False
  end.
Proof.
  unfold read. destruct (reads s) as [|[l| | |] rs] eqn:Hs; cbn [reads]; [by rewrite Hs| |split; [done|unfold zlen; cbn; lia]|done..].
  split; [|unfold zlen; rewrite length_take; lia].
  unfold unread. destruct (decide _) as [Hd|Hd]; cbn; [|by rewrite (assoc_L (++)), take_drop].
  rewrite <-(take_drop (Z.to_nat n) l) at 2. by rewrite Hd, app_nil_r.
Qed.

Lemma recv_credit_update_frame h c :
  host (recv_credit_update h c).2 = host c ∧ rx_cnt (recv_credit_update h c).2 = rx_cnt c ∧
  match (recv_credit_update h c).1 with Ok (_, l) => l = [] | _ => True end.
Proof.
  unfold recv_credit_update, take_pending. destruct (rx_remove CreditUpdate (pending_rx c)) as [b p].
  by destruct (b && _).
Qed.

(** A data packet carries the stream's next bytes, no more than the guest has room for. *)
Lemma recv_data_delivery total g c now n h :
  delivery total g c →
  match recv_data now n h c with
  | (Ok (h', l), c') => delivery total (after_recv h' l c' g) c' ∧ zlen l ≤ peer_avail_credit c
  | (_, c') => delivery total g c'
  end.
Proof.
  intros [Hd Hn]. pose proof (Z.mod_pos_bound (peer_buf_alloc c - (rx_cnt c - peer_fwd_cnt c)) TxBuf.W32 eq_refl) as Hcr.
  fold (peer_avail_credit c) in Hcr.
  assert (rx_cnt c = (rx_cnt c + 0) mod TxBuf.W32) as Hn0 by (rewrite Z.add_0_r, Hn, Z.mod_mod by done; done).
  unfold recv_data. destruct (need_credit_update_from_peer c).
  { split; [split; cbn; by rewrite ?app_nil_r|change (zlen []) with 0; lia]. }
  destruct n as [n|]; [|by split].
  pose proof (read_unread (Z.min n (peer_avail_credit c)) (host c)) as Hr.
  destruct (read (Z.min n (peer_avail_credit c)) (host c)) as [[l|e| |] s]; try done.
  - destruct Hr as [Hr Hl]. assert (zlen l ≤ peer_avail_credit c) as Hfit by lia. rewrite <-Hr in Hd.
    destruct l as [|x l]; (split; [|done]); split; cbn [after_recv got told with_rx host rx_cnt with_state with_expiry reads].
    + by rewrite app_nil_r.
    + by rewrite app_nil_r, Z.add_0_r, Hn, Z.mod_mod by done.
    + by rewrite <-(assoc_L (++)).
    + by rewrite zlen_app, Hn, Zplus_mod_idemp_l.
  - destruct e.
    + destruct (recv_credit_update_frame h (with_rx s 0 c)) as (Hh & Hx & Hl).
      destruct (recv_credit_update h (with_rx s 0 c)) as [[[h' l]| | |] c']; cbn in Hh, Hx, Hl.
      1: rewrite Hl; split; [|change (zlen []) with 0; lia].
      all: split; cbn; rewrite ?app_nil_r, ?Hh, ?Hr, ?Hx; done || congruence.
    + split; [|change (zlen []) with 0; lia]. split; cbn; rewrite ?app_nil_r, ?Hr; done || congruence.
Qed.

(** *** The other operations leave the bytes for the guest alone *)
Definition rx_same (c c' : VsockConnection) : Prop := reads (host c') = reads (host c) ∧ rx_cnt c' = rx_cnt c.

Lemma write_reads {E} (wrap : io_error → E) l s : reads (write wrap l s).2 = reads s.
Proof. unfold write. by destruct (writes s) as [|[]]. Qed.

Lemma flush_reads fuel b s : reads (TxBuf.flush_to SZ fuel (b, s)).2.2 = reads s.
Proof.
  revert b s. induction fuel as [|fuel IH]; intros b s; [done|]. cbn [TxBuf.flush_to]. destruct (TxBuf.is_empty b); [done|].
  destruct (TxBuf.data b) as [d|]; [|done]. pose proof (write_reads TxBuf.TxBufFlush (slice d (TxBuf.tail b mod SZ) (Z.min (SZ - TxBuf.tail b mod SZ) (TxBuf.len b))) s) as Hw.
  destruct (write _ _ s) as [[k| | |] s1]; try done. destruct (k <? _); [done|]. cbn in Hw. rewrite <-Hw.
  match goal with |- context [TxBuf.flush_to SZ fuel (?b1, s1)] => specialize (IH b1 s1) end.
  by destruct (TxBuf.flush_to SZ fuel _) as [[] [b2 s2]].
Qed.

Lemma push_bytes_rx l c : rx_same c (push_bytes l c).2.
Proof. unfold push_bytes. by destruct (TxBuf.push _ _ _). Qed.

Lemma send_bytes_rx l c : rx_same c (send_bytes l c).2.
Proof.
  unfold send_bytes. destruct (negb _); [apply push_bytes_rx|]. pose proof (write_reads TxBuf.StreamWrite l (host c)) as Hw.
  assert (∀ k s, reads s = reads (host c) → rx_same c (if k <? zlen l then push_bytes (drop (Z.to_nat k) l) (with_io (tx_buf c) s k c)
    else (Ok tt, with_io (tx_buf c) s k c)).2) as Hk.
  { intros k s Hs. destruct (k <? zlen l); [|done].
    destruct (push_bytes_rx (drop (Z.to_nat k) l) (with_io (tx_buf c) s k c)) as [H1 H2]. split; [by rewrite H1|by rewrite H2]. }
  destruct (write _ l (host c)) as [[k|[|e|[]]| |] s]; cbn in Hw; try (by apply Hk); done.
Qed.

Lemma send_data_rx h b c : rx_same c (send_data h b c).2.
Proof.
  unfold send_data. destruct b as [l|]; [|done]. destruct (_ <? _); [done|].
  pose proof (send_bytes_rx (take (Z.to_nat (h_len h)) l) c) as Hs. destruct (send_bytes _ c) as [[] c1]; try done.
  cbn in *. by destruct (peer_needs_credit_update c1).
Qed.

Lemma send_pkt_rx now h b c : rx_same c (send_pkt now h b c).2.
Proof.
  pose proof (send_data_rx h b (with_peer (buf_alloc h) (fwd_cnt h) c)) as Hd.
  unfold send_pkt. destruct (state _); repeat case_match; done.
Qed.

Lemma notify_rx i o c : rx_same c (notify i o c).2.
Proof.
  unfold notify. set (c1 := if i then _ else _). assert (rx_same c c1) as H1 by (by destruct i). destruct o; [|done]. cbn [negb].
  destruct (TxBuf.is_empty (tx_buf c1)); [done|]. pose proof (flush_reads 3 (tx_buf c1) (host c1)) as Hf.
  destruct (TxBuf.flush_to SZ 3 (tx_buf c1, host c1)) as [r [b s]]. cbn [snd] in Hf. destruct H1 as [H1 H2].
  assert (∀ c2, host c2 = s → rx_cnt c2 = rx_cnt c1 →
    rx_same c (if bool_decide (state c2 = PeerClosed true true) && TxBuf.is_empty (tx_buf c2) then pend Rst c2
               else if peer_needs_credit_update c2 then pend CreditUpdate c2 else c2)) as Hfin.
  { intros c2 H3 H4. split; repeat case_match; cbn; congruence. }
  destruct r as [n|[|[]|]| |]; cbn [snd]; try (by apply Hfin); split; cbn; congruence.
Qed.

Lemma delivery_same total g g' c c' : delivery total g c → rx_same c c' → got g' = got g → delivery total g' c'.
Proof. intros [] [Hr Hn] Hg. split; congruence. Qed.

Lemma recv_pkt_delivery total g c now n :
  delivery total g c →
  match recv_pkt now n c with
  | (Ok (h, l), c') => delivery total (after_recv h l c' g) c' ∧ zlen l ≤ peer_avail_credit c
  | (_, c') => delivery total g c'
  end.
Proof.
  intros Hd. pose proof (Z.mod_pos_bound (peer_buf_alloc c - (rx_cnt c - peer_fwd_cnt c)) TxBuf.W32 eq_refl) as Hcr.
  assert (∀ h c', rx_same c c' → delivery total (after_recv h [] c' g) c' ∧ zlen (@nil Z) ≤ peer_avail_credit c) as Hnil.
  { intros h c' Hc'. split; [apply (delivery_same total g _ c); [done..|]; cbn; apply app_nil_r|apply Hcr]. }
  unfold recv_pkt, take_pending. repeat case_match; simplify_eq/=; try (by apply Hnil).
  all: try (match goal with H : recv_data _ _ _ ?c4 = _ |- _ =>
    pose proof (recv_data_delivery total g c4 now n (init_pkt c)) as Hr; rewrite H in Hr; apply Hr; by apply (delivery_same total g g c) end).
  all: match goal with H : recv_credit_update _ ?c4 = _ |- _ =>
    destruct (recv_credit_update_frame (init_pkt c) c4) as (Hh & Hx & Hl); rewrite H in Hh, Hx, Hl; cbn in Hh, Hx, Hl end.
  all: first [rewrite Hl; apply Hnil|apply (delivery_same total g g c); [done| |done]]; split; by rewrite ?Hh, ?Hx.
Qed.

Lemma step_delivery total g c e g' c' : delivery total g c → step e g c = Ok (g', c') → delivery total g' c'.
Proof.
  intros Hd. destruct e as [now h b|now n|i o]; cbn [step].
  - pose proof (send_pkt_rx now h b c) as Hr. destruct (send_pkt now h b c) as [[] c1]; intros [= <- <-];
      by apply (delivery_same total g _ c).
  - pose proof (recv_pkt_delivery total g c now n Hd) as Hr. destruct (recv_pkt now n c) as [[[h l]| | |] c1]; intros [= <- <-]; [apply Hr|done].
  - pose proof (notify_rx i o c) as Hr. destruct (notify i o c) as [[] c1]; intros [= <- <-]; by apply (delivery_same total g _ c).
Qed.

Lemma raw_integrity pre g c l :
  integrity pre g c → ∃ g' c', act (SendRaw l) g c = Ok (g', c') ∧ integrity pre g' c'.
Proof.
  intros Hi. cbn [act]. unfold send_bytes_raw. destruct (stream_write_spec TxBuf.StreamWrite l (host c)) as
    [(k & s' & -> & Hk & Ho & _)|(e & s' & -> & Ho & _)]; (eexists _, _; split; [reflexivity|]).
  - destruct Hi as [Hw (w & m & lost & Ho' & Hm & Hd) Hr Hp]. split; [done| |done|done].
    exists w, (m ++ take (Z.to_nat k) l), lost. split_and!; [|by apply riffle_right|apply Hd..].
    cbn. by rewrite Ho, Ho', <-(assoc_L (++)).
  - apply (integrity_quiet pre g g c); try done. split; auto.
Qed.

Lemma kill_integrity pre g c : integrity pre g c → integrity pre g (kill c).
Proof.
  intros Hi. apply (integrity_frame pre g g c); try done; [by left|]. cbn. rx_simpl. intros Hr. split; [by right|]. by apply (in_response _ _ _ Hi).
Qed.

Lemma act_integrity pre total a g c :
  integrity pre g c → delivery total g c →
  act a g c = Panic ∧ oversized a ∨ ∃ g' c', act a g c = Ok (g', c') ∧ integrity pre g' c' ∧ delivery total g' c'.
Proof.
  intros Hi Hd. destruct a as [e|l|].
  - destruct (step_integrity pre g c e Hi) as [?|(g1 & c1 & Hs & Hi1)]; [by left|right].
    exists g1, c1. split_and!; [done|done|]. by eapply step_delivery.
  - right. destruct (raw_integrity pre g c l Hi) as (g1 & c1 & Hs & Hi1). exists g1, c1. split_and!; [done|done|].
    cbn [act] in Hs. unfold send_bytes_raw in Hs. pose proof (write_reads TxBuf.StreamWrite l (host c)) as Hr. destruct Hd as [Hd Hn].
    destruct (write _ l (host c)) as [[] s']; simplify_eq/=; (split; cbn; [by rewrite Hr|by rewrite Z.add_0_r, Hn, Z.mod_mod by done]).
  - right. exists g, (kill c). split_and!; [done|by apply kill_integrity|]. by apply (delivery_same total g g c).
Qed.

Lemma acts_integrity pre total l g c :
  integrity pre g c → delivery total g c →
  acts l g c = Panic ∧ Exists oversized l ∨ ∃ g' c', acts l g c = Ok (g', c') ∧ integrity pre g' c' ∧ delivery total g' c'.
Proof.
  revert g c. induction l as [|a l IH]; intros g c Hi Hd; [right; by exists g, c|]. cbn [acts].
  destruct (act_integrity pre total a g c Hi Hd) as [[-> Ho]|(g1 & c1 & -> & Hi1 & Hd1)]; [left; split; [done|by left]|].
  cbn. destruct (IH g1 c1 Hi1 Hd1) as [[-> He]|?]; [left; split; [done|by right]|by right].
Qed.

Lemma fresh_delivery s c : fresh s c → delivery (unread (reads s)) (ghost_new s) c.
Proof. intros (lcid & pcid & lport & pport & alloc & [-> | ->]); by split. Qed.

(** C5: whatever the host's stream does, and in whatever order the multiplexer passes on the
    guest's packets, asks for packets, passes on events, writes raw bytes and kills: either
    the device panics, and some data packet announced more bytes than its buffer holds, or
    each side gets the other side's bytes.  The stream has got the bytes of the guest's
    packets in their order, up to those that the buffer still holds, between the raw bytes;
    none is missing unless the connection is killed.  The guest has got the stream's bytes
    in their order, up to those that the stream still has.  Both counters of the flow
    control are right. *)
Theorem stream_integrity s c0 l :
  fresh s c0 →
  (acts l (ghost_new s) c0 = Panic ∧ Exists oversized l) ∨
  ∃ g c, acts l (ghost_new s) c0 = Ok (g, c) ∧
    (∃ w m lost, out (host c) = out s ++ m ∧ riffle w (raw g) m ∧
                 w ++ TxBuf.contents CONN_TX_BUF_SIZE (tx_buf c) ++ lost = sent g ∧
                 (state c ≠ Killed → lost = []) ∧ c_fwd_cnt c = zlen w mod 2 ^ 32) ∧
    got g ++ unread (reads (host c)) = unread (reads s) ∧ rx_cnt c = zlen (got g) mod 2 ^ 32.
Proof.
  intros Hf. destruct (acts_integrity (out s) (unread (reads s)) l (ghost_new s) c0) as [?|(g & c & Hr & [_ Hd _ _] & [])];
    [by apply fresh_integrity|by apply fresh_delivery|by left|right].
  by exists g, c.
Qed.

(** The stream takes two of four bytes, blocks, and then takes the rest; it has three bytes
    for the guest. *)
Definition demo_stream : stream := {| out := [79; 75]; writes := [Accept 2; WouldBlockW; Accept 9]; reads := [Data [7; 8; 9]] |}.
Definition demo_hdr (o n alloc : Z) : header :=
  {| src_cid := 3; dst_cid := 2; src_port := 9; dst_port := 5; h_len := n; type_ := 1; op := o; flags := 0; buf_alloc := alloc; fwd_cnt := 0 |}.
Definition demo_events : list event :=
  [Recv 0 None; Send 0 (demo_hdr VSOCK_OP_RW 4 2) (Some [1; 2; 3; 4; 0]); Notify true true; Notify false true; Recv 0 (Some 100); Notify true false; Recv 0 (Some 100)].

(** The multiplexer writes two bytes of its own in between, of which the stream takes one. *)
Definition demo_actions : list action :=
  [Event (Recv 0 None); Event (Send 0 (demo_hdr VSOCK_OP_RW 4 2) (Some [1; 2; 3; 4; 0])); Event (Notify true true); SendRaw [88; 89];
   Event (Notify false true); Event (Recv 0 (Some 100)); Event (Notify true false); Event (Recv 0 (Some 100)); Kill].
Definition raw_stream : stream :=
  {| out := [79; 75]; writes := [Accept 2; WouldBlockW; Accept 1; Accept 9]; reads := [Data [7; 8; 9]] |}.

Lemma stream_integrity_witness :
  ∃ g c, acts demo_actions (ghost_new raw_stream) (new_peer_init raw_stream 2 3 5 9 2) = Ok (g, c) ∧
    out (host c) = [79; 75; 1; 2; 88; 3; 4] ∧ sent g = [1; 2; 3; 4] ∧ raw g = [88] ∧ got g = [7; 8] ∧ c_fwd_cnt c = 4 ∧
    got g ++ unread (reads (host c)) = unread (reads raw_stream).
Proof.
  destruct (stream_integrity raw_stream (new_peer_init raw_stream 2 3 5 9 2) demo_actions) as [[Hp _]|(g & c & Hr & _ & Hu & _)].
  - exists 2, 3, 5, 9, 2. by left.
  - assert (match acts demo_actions (ghost_new raw_stream) (new_peer_init raw_stream 2 3 5 9 2) with Panic => False | _ => True end) as Hn
      by (vm_compute; exact I).
    rewrite Hp in Hn. destruct Hn.
  - exists g, c. split; [exact Hr|].
    assert (match acts demo_actions (ghost_new raw_stream) (new_peer_init raw_stream 2 3 5 9 2) with
            | Ok (g, c) => (out (host c), sent g, raw g, got g, c_fwd_cnt c) = ([79; 75; 1; 2; 88; 3; 4], [1; 2; 3; 4], [88], [7; 8], 4)
            | _ => False end) as Hv by (vm_compute; reflexivity).
    rewrite Hr in Hv. injection Hv as Ho Hs Hw Hg Hc. split_and!; [exact Ho|exact Hs|exact Hw|exact Hg|exact Hc|exact Hu].
Defined.

(** ** Flow control *)

(** The guest keeps to its credit: what it has sent and the stream had not got when the guest
    was last told fits the buffer. *)
Definition respects (pre : list Z) (g : ghost) (c : VsockConnection) (e : event) : Prop :=
  match e with
  | Send _ h b => zlen pre + zlen (sent g) + zlen (forwarded c h b) - seen g ≤ CONN_TX_BUF_SIZE
  | _ => True
  end.

Fixpoint respectful (pre : list Z) (l : list event) (g : ghost) (c : VsockConnection) : Prop :=
  match l with
  | [] => True
  | e :: l' => respects pre g c e ∧ match step e g c with Ok (g', c') => respectful pre l' g' c' | _ => True end
  end.

(** An indication is pending that will tell the guest of its room, or end the connection. *)
Definition will_tell (c : VsockConnection) : Prop :=
  rx_contains CreditUpdate (pending_rx c) = true ∨ rx_contains Rst (pending_rx c) = true.

Record fair (pre : list Z) (g : ghost) (c : VsockConnection) : Prop := {
  fa_int : integrity pre g c;
  fa_raw : raw g = [];
  fa_script : FailW ∉ writes (host c);
  fa_alive : state c ≠ Killed;
  fa_room : zlen pre + zlen (sent g) - seen g ≤ CONN_TX_BUF_SIZE;
  fa_bits : 0 ≤ pending_rx c < 32;
  fa_last : ∃ told_at, seen g ≤ told_at ≤ zlen (out (host c)) ∧ last_fwd_cnt_to_peer c = (told_at - zlen pre) mod TxBuf.W32 ∧
    (over g = false → told_at = seen g ∧
       (CONN_TX_BUF_SIZE - CONN_CREDIT_UPDATE_THRESHOLD < zlen (out (host c)) - told_at → will_tell c)) }.

Lemma bits_check (P : Z → bool) p : forallb P (seqZ 0 32) = true → 0 ≤ p < 32 → P p = true.
Proof. intros Hf Hp. rewrite forallb_forall in Hf. apply Hf. apply list_elem_of_In, elem_of_seqZ. lia. Qed.

Lemma insert_bits it p : 0 ≤ p < 32 → 0 ≤ rx_insert it p < 32.
Proof.
  intros Hp. pose proof (bits_check (λ p, (0 <=? rx_insert it p) && (rx_insert it p <? 32)) p) as Hb.
  destruct (andb_prop _ _ (Hb ltac:(by destruct it) Hp)). lia.
Qed.

Lemma remove_bits it p : 0 ≤ p < 32 → 0 ≤ (rx_remove it p).2 < 32.
Proof.
  intros Hp. pose proof (bits_check (λ p, (0 <=? (rx_remove it p).2) && ((rx_remove it p).2 <? 32)) p) as Hb.
  destruct (andb_prop _ _ (Hb ltac:(by destruct it) Hp)). lia.
Qed.

(** Without the other indications, removing a credit update leaves nothing. *)
Lemma only_credit p :
  0 ≤ p < 32 → rx_contains Rst p = false → rx_contains Response p = false → rx_contains Request p = false → rx_contains Rw p = false →
  (rx_remove CreditUpdate p).2 = 0.
Proof.
  intros Hp H1 H2 H3 H4.
  pose proof (bits_check (λ p, rx_contains Rst p || rx_contains Response p || rx_contains Request p || rx_contains Rw p ||
                              ((rx_remove CreditUpdate p).2 =? 0)) p eq_refl Hp) as Hb. cbv beta in Hb.
  rewrite H1, H2, H3, H4 in Hb. by apply Z.eqb_eq in Hb.
Qed.

(** What the guest was last told, compared without wrapping around. *)
Lemma needs_credit pre c told_at w :
  out (host c) = pre ++ w → c_fwd_cnt c = zlen w mod TxBuf.W32 → last_fwd_cnt_to_peer c = (told_at - zlen pre) mod TxBuf.W32 →
  told_at ≤ zlen (out (host c)) ≤ told_at + CONN_TX_BUF_SIZE →
  peer_needs_credit_update c = (CONN_TX_BUF_SIZE - CONN_CREDIT_UPDATE_THRESHOLD <? zlen (out (host c)) - told_at).
Proof.
  intros Ho Hf Hl Hb. unfold peer_needs_credit_update. rewrite Hf, Hl.
  rewrite <-(Zminus_mod_idemp_r CONN_TX_BUF_SIZE (_ - _)), <-Zminus_mod, Zminus_mod_idemp_r.
  rewrite Ho, zlen_app in *. pose proof (zlen_nonneg w).
  rewrite Z.mod_small by (unfold CONN_TX_BUF_SIZE, TxBuf.W32 in *; lia).
  unfold CONN_TX_BUF_SIZE, CONN_CREDIT_UPDATE_THRESHOLD in *.
  match goal with |- (?a <? ?b) = (?x <? ?y) => destruct (Z.ltb_spec a b), (Z.ltb_spec x y); lia || done end.
Qed.

(** Without raw bytes. *)
Lemma plain_data pre g c :
  integrity pre g c → raw g = [] →
  ∃ w lost, out (host c) = pre ++ w ∧ w ++ TxBuf.contents CONN_TX_BUF_SIZE (tx_buf c) ++ lost = sent g ∧
            (state c ≠ Killed → lost = []) ∧ c_fwd_cnt c = zlen w mod TxBuf.W32.
Proof. intros [_ (w & m & lost & Ho & Hm & Hd) _ _] Hg. rewrite (riffle_plain _ _ _ Hm Hg) in Ho. eauto. Qed.

(** An operation after which the connection is as fair as before. *)
Lemma fair_frame pre g g' c c' :
  fair pre g c → integrity pre g' c' → writes (host c') = writes (host c) → state c' ≠ Killed → out (host c') = out (host c) →
  last_fwd_cnt_to_peer c' = last_fwd_cnt_to_peer c → 0 ≤ pending_rx c' < 32 → sent g' = sent g → seen g' = seen g → raw g' = raw g →
  (over g' = false → over g = false ∧ (will_tell c → will_tell c')) → fair pre g' c'.
Proof.
  intros [Hi Hg Hw Ha Hr Hb (L & HL & Hlast & Hov)] Hi' Hw' Ha' Ho' Hl' Hb' Hs Hse Hraw Hover.
  split; [done|congruence|by rewrite Hw'|done|by rewrite Hs, Hse|done|].
  exists L. rewrite Hse, Ho', Hl'. split_and!; [lia..|done|]. intros [Hog Htell]%Hover. destruct (Hov Hog) as [-> Hp]. auto.
Qed.

(** An operation after which the guest has been told, or was reset. *)
Lemma fair_told pre g g' c c' :
  fair pre g c → integrity pre g' c' → writes (host c') = writes (host c) → state c' ≠ Killed → out (host c') = out (host c) →
  last_fwd_cnt_to_peer c' = c_fwd_cnt c' → 0 ≤ pending_rx c' < 32 → sent g' = sent g → raw g' = raw g →
  seen g' = zlen (out (host c)) ∨ seen g' = seen g ∧ over g' = true → fair pre g' c'.
Proof.
  intros [Hi Hg Hw Ha Hr Hb (L & HL & Hlast & Hov)] Hi' Hw' Ha' Ho' Hl' Hb' Hs Hraw Hse. rewrite Hg in Hraw.
  destruct (plain_data _ _ _ Hi' Hraw) as (w & lost & Hout & Hd & _ & Hf).
  assert (zlen (out (host c)) = zlen pre + zlen w) as Hz by (rewrite <-Ho', Hout, zlen_app; done).
  split; [done|done|by rewrite Hw'|done|rewrite Hs; destruct Hse as [->|[-> _]]; lia|done|].
  exists (zlen (out (host c))). rewrite Ho', Hl', Hf, Hz. split_and!; [destruct Hse as [->|[-> _]]; lia|lia|f_equal; lia|].
  intros Hog. destruct Hse as [->|[_ Hse]]; [|congruence]. split; [done|]. unfold CONN_TX_BUF_SIZE, CONN_CREDIT_UPDATE_THRESHOLD. lia.
Qed.

(** How a packet for the guest relates to what the guest is told. *)
Definition recv_shape (c : VsockConnection) (res_c : pkt_result) : Prop :=
  let '(r, c') := res_c in
  writes (host c') = writes (host c) ∧ state c' ≠ Killed ∧ 0 ≤ pending_rx c' < 32 ∧
  match r with
  | Ok (h, _) => (informs h = true ∨ op h = VSOCK_OP_RST) ∧ last_fwd_cnt_to_peer c' = c_fwd_cnt c' ∨
                 informs h = false ∧ last_fwd_cnt_to_peer c' = last_fwd_cnt_to_peer c ∧ (op h = VSOCK_OP_RST ∨ (will_tell c → will_tell c'))
  | Err _ => last_fwd_cnt_to_peer c' = last_fwd_cnt_to_peer c ∧ (will_tell c → will_tell c')
  | _ => False
  end.

Lemma read_writes n s : writes (read n s).2 = writes s.
Proof. unfold read. by destruct (reads s) as [|[]]. Qed.

(** The parts of a shape that follow by computation. *)
Ltac shape_easy :=
  split_and!;
  cbn [host state pending_rx last_fwd_cnt_to_peer c_fwd_cnt with_pending with_state with_expiry with_rx told];
  try done; try lia; try congruence; auto.

Section shape.
Context (c : VsockConnection) (Hbits : 0 ≤ pending_rx c < 32) (Halive : state c ≠ Killed).
Context (H1 : rx_contains Rst (pending_rx c) = false) (H2 : rx_contains Response (pending_rx c) = false).
Context (H3 : rx_contains Request (pending_rx c) = false) (H4 : rx_contains Rw (pending_rx c) = false).

Lemma recv_credit_update_shape h c1 :
  writes (host c1) = writes (host c) → state c1 = state c → pending_rx c1 = pending_rx c →
  last_fwd_cnt_to_peer c1 = last_fwd_cnt_to_peer c → recv_shape c (recv_credit_update h c1).
Proof using All.
  intros Hs Hst Hp Hl. unfold recv_credit_update, take_pending. rewrite Hp.
  pose proof (only_credit _ Hbits H1 H2 H3 H4) as Hz.
  destruct (rx_remove CreditUpdate (pending_rx c)) as [b p] eqn:Hrm. cbn in Hz. subst p.
  assert (b = rx_contains CreditUpdate (pending_rx c)) as -> by (by injection Hrm).
  unfold has_pending_rx. cbn. destruct (rx_contains CreditUpdate (pending_rx c)) eqn:Hc; cbn; split_and!; try done; try congruence.
  - left. split; [left|]; done.
  - intros [?|?]; congruence.
Qed.

Lemma recv_data_shape now n h : recv_shape c (recv_data now n h c).
Proof using All.
  unfold recv_data. destruct (need_credit_update_from_peer c); [shape_easy|].
  destruct n as [n|]; [|shape_easy].
  pose proof (read_writes (Z.min n (peer_avail_credit c)) (host c)) as Hw. pose proof (read_unread (Z.min n (peer_avail_credit c)) (host c)) as Hr.
  destruct (read _ (host c)) as [[l|[]| |] s]; try done; cbn in Hw.
  - destruct l; shape_easy.
  - by apply recv_credit_update_shape.
  - shape_easy.
Qed.
End shape.

(** A shape seen after indications were taken that tell the guest nothing. *)
Lemma shape_before c c1 rc :
  recv_shape c1 rc → writes (host c1) = writes (host c) → last_fwd_cnt_to_peer c1 = last_fwd_cnt_to_peer c →
  (will_tell c → will_tell c1) → recv_shape c rc.
Proof.
  destruct rc as [r c']. intros (Hw & Hk & Hb & Hr) Hw1 Hl1 Ht. split_and!; try done; [congruence|lia..|].
  destruct r as [[h l]|e| |]; try done; [|rewrite <-Hl1; naive_solver].
  rewrite <-Hl1. naive_solver.
Qed.

Lemma recv_pkt_shape now n c : 0 ≤ pending_rx c < 32 → state c ≠ Killed → recv_shape c (recv_pkt now n c).
Proof.
  intros Hbits Halive. unfold recv_pkt, take_pending.
  assert (∀ it c, rx_remove it (pending_rx c) = (rx_contains it (pending_rx c), (rx_remove it (pending_rx c)).2)) as Hrm by done.
  rewrite Hrm. set (p1 := (rx_remove Rst (pending_rx c)).2). pose proof (remove_bits Rst _ Hbits : 0 ≤ p1 < 32) as Hp1.
  destruct (rx_contains Rst (pending_rx c)) eqn:Hrst; [shape_easy|].
  cbn [pending_rx with_pending]. set (c1 := with_pending p1 c).
  change (rx_remove Response p1) with (rx_contains Response p1, (rx_remove Response p1).2).
  set (p2 := (rx_remove Response p1).2). pose proof (remove_bits Response _ Hp1 : 0 ≤ p2 < 32) as Hp2.
  assert (∀ p, rx_contains CreditUpdate p = rx_contains CreditUpdate (pending_rx c) → ∀ c', pending_rx c' = p → will_tell c → will_tell c') as Htell.
  { intros p Hp c' Hc' [Hx|Hx]; [|congruence]. left. by rewrite Hc', Hp. }
  assert (∀ it p, it ≠ CreditUpdate → rx_contains CreditUpdate (rx_remove it p).2 = rx_contains CreditUpdate p) as Hkeep.
  { intros it p Hit. rewrite contains_remove. by destruct it; rewrite ?andb_true_r. }
  assert (rx_contains CreditUpdate p2 = rx_contains CreditUpdate (pending_rx c)) as Hc2 by (unfold p2, p1; by rewrite !Hkeep).
  destruct (rx_contains Response p1) eqn:Hresp; [do 3 (split; [done|]); right; do 2 (split; [done|]); right; by apply (Htell p2)|].
  cbn [pending_rx with_pending]. change (rx_remove Request p2) with (rx_contains Request p2, (rx_remove Request p2).2).
  set (p3 := (rx_remove Request p2).2). pose proof (remove_bits Request _ Hp2 : 0 ≤ p3 < 32) as Hp3.
  assert (rx_contains CreditUpdate p3 = rx_contains CreditUpdate (pending_rx c)) as Hc3 by (unfold p3; by rewrite Hkeep).
  destruct (rx_contains Request p2) eqn:Hreq; [do 3 (split; [done|]); right; do 2 (split; [done|]); right; by apply (Htell p3)|].
  cbn [pending_rx with_pending]. change (rx_remove Rw p3) with (rx_contains Rw p3, (rx_remove Rw p3).2).
  set (p4 := (rx_remove Rw p3).2). pose proof (remove_bits Rw _ Hp3 : 0 ≤ p4 < 32) as Hp4.
  assert (rx_contains CreditUpdate p4 = rx_contains CreditUpdate (pending_rx c)) as Hc4 by (unfold p4; by rewrite Hkeep).
  assert (∀ it, it ≠ CreditUpdate → rx_contains it p4 = false) as Hno.
  { intros it Hit. unfold p4, p3. rewrite !contains_remove. destruct it; try done;
      rewrite ?Hreq, ?andb_false_r, ?andb_true_r; try done; unfold p2; rewrite contains_remove, ?andb_false_r; try done;
      unfold p1; rewrite contains_remove, Hrst; done. }
  assert (∀ rc, recv_shape (with_pending p4 c) rc → recv_shape c rc) as Hbefore.
  { intros rc Hrc. apply (shape_before c (with_pending p4 c)); [done..|]. by apply (Htell p4). }
  assert (recv_shape c (Ok (set_op VSOCK_OP_RST (init_pkt c), []), with_pending p4 c)) as Hreset.
  { do 3 (split; [done|]). right. do 2 (split; [done|]). by left. }
  destruct (rx_contains Rw p3) eqn:Hrw.
  - change (state (with_pending p4 _)) with (state c). destruct (state c) as [| | | |[] ?|] eqn:Hst; try exact Hreset.
    all: apply Hbefore, recv_data_shape; try (by apply Hno); cbn; congruence || done.
  - apply Hbefore, recv_credit_update_shape; try (by apply Hno); done.
Qed.

Lemma recv_fair pre g c now n g' c' : fair pre g c → step (Recv now n) g c = Ok (g', c') → fair pre g' c'.
Proof.
  intros Hf Hstep. cbn [step] in Hstep. destruct (recv_pkt_quiet now n c) as [Hq _].
  pose proof (recv_pkt_shape now n c (fa_bits _ _ _ Hf) (fa_alive _ _ _ Hf)) as Hs.
  destruct (recv_pkt now n c) as [[[h l]|e| |] c1]; try done; injection Hstep as <- <-; cbn in Hq; destruct Hs as (Hw & Hk & Hb & Hs).
  - assert (integrity pre (after_recv h l c1 g) c1) as Hi by (by apply (integrity_quiet pre g _ c); [apply Hf|..]).
    destruct Hs as [[Hin Hl]|(Hin & Hl & Hop)].
    + apply (fair_told pre g _ c); try done; [apply Hq|]. cbn. rewrite (qu_out _ _ Hq).
      destruct (informs h); [by left|right]. destruct Hin as [| ->]; [done|]. split; [done|]. by rewrite orb_true_r.
    + apply (fair_frame pre g _ c); try done; [apply Hq|cbn; by rewrite Hin|]. cbn. intros [Ho Hne]%orb_false_elim.
      split; [done|]. destruct Hop as [Hop|]; [by rewrite Hop in Hne|auto].
  - assert (integrity pre g c1) as Hi by (by apply (integrity_quiet pre g _ c); [apply Hf|..]).
    destruct Hs as [Hl Ht]. apply (fair_frame pre g g c); try done. apply Hq.
Qed.

(** A packet without data for the host. *)
Record control (c c' : VsockConnection) : Prop := {
  ct_host : host c' = host c;
  ct_last : last_fwd_cnt_to_peer c' = last_fwd_cnt_to_peer c;
  ct_bits : 0 ≤ pending_rx c < 32 → 0 ≤ pending_rx c' < 32;
  ct_tell : will_tell c → will_tell c';
  ct_alive : state c ≠ Killed → state c' ≠ Killed }.

Lemma control_pend it c c' : control c c' → control c (pend it c').
Proof.
  intros [Hh Hl Hb Ht Ha]. split; try done.
  - intros Hx. cbn [pending_rx pend with_pending]. by apply insert_bits, Hb.
  - intros [Hx|Hx]%Ht; [left|right]; cbn [pending_rx pend with_pending]; by rewrite contains_insert, Hx.
Qed.

Lemma send_pkt_cases now h b c :
  send_pkt now h b c = send_data h b (with_peer (buf_alloc h) (fwd_cnt h) c) ∧
    forwarded c h b = (match b with Some l => take (Z.to_nat (h_len h)) l | None => [] end) ∨
  ∃ c', send_pkt now h b c = (Ok tt, c') ∧ forwarded c h b = [] ∧ control c c'.
Proof.
  unfold send_pkt, forwarded. set (c1 := with_peer (buf_alloc h) (fwd_cnt h) c). change (state c1) with (state c).
  assert (control c c1) as H1 by (by split).
  assert (∀ st, st ≠ Killed → control c (with_state st c1)) as Hst by (intros st Hst; by split).
  assert (∀ x c', control c c' → control c (with_expiry x c')) as Hexp by (intros x c' []; by split).
  destruct (state c) as [| | | |r0 s0|] eqn:Hstate; rewrite ?andb_false_r, ?andb_true_r.
  - right. eexists. split_and!; [done..|]. destruct (_ =? _); [|done]. destruct (Hst Established); [done|]. by split.
  - right. eexists. split_and!; [done..|]. destruct (_ =? _); [by apply control_pend|done].
  - destruct (op h =? VSOCK_OP_RW); [by left|right].
    destruct (op h =? VSOCK_OP_SHUTDOWN), (op h =? VSOCK_OP_CREDIT_REQUEST); eexists; (split_and!; [done..|]);
      repeat case_match; auto using control_pend.
  - right. by eexists.
  - destruct (op h =? VSOCK_OP_RW), s0; cbn [andb negb]; try (by left); right.
    all: repeat case_match; eexists; (split_and!; [done..|]); auto using control_pend.
  - right. by eexists.
Qed.

(** After bytes went to the stream, the guest is told when it has little room left. *)
Lemma fair_moved pre g g' c c1 c' :
  fair pre g c → integrity pre g' c1 → integrity pre g' c' → writes (host c') ⊆ writes (host c) → state c' ≠ Killed →
  out (host c') = out (host c1) → zlen (out (host c)) ≤ zlen (out (host c1)) →
  last_fwd_cnt_to_peer c1 = last_fwd_cnt_to_peer c → last_fwd_cnt_to_peer c' = last_fwd_cnt_to_peer c → 0 ≤ pending_rx c' < 32 →
  zlen pre + zlen (sent g') - seen g ≤ CONN_TX_BUF_SIZE → seen g' = seen g → over g' = over g → raw g' = raw g →
  (peer_needs_credit_update c1 = true → will_tell c') → fair pre g' c'.
Proof.
  intros [Hi Hg Hw Ha Hr Hb (L & HL & Hlast & Hov)] Hi1 Hi' Hw' Ha' Ho' Hmono Hl1 Hl' Hb' Hroom Hse Hover Hraw Hneed. rewrite Hg in Hraw.
  destruct (plain_data _ _ _ Hi1 Hraw) as (w & lost & Hout & Hd & _ & Hf).
  assert (zlen (out (host c1)) ≤ zlen pre + zlen (sent g')) as Hle.
  { rewrite Hout, <-Hd, !zlen_app. pose proof (zlen_nonneg (TxBuf.contents CONN_TX_BUF_SIZE (tx_buf c1))). pose proof (zlen_nonneg lost). lia. }
  split; [done|done|set_solver|done|by rewrite Hse|done|]. exists L. rewrite Ho', Hl', Hse, Hover. split_and!; [lia..|done|].
  intros Hog. destruct (Hov Hog) as [-> _]. split; [done|]. intros Hlt. apply Hneed.
  rewrite (needs_credit pre c1 (seen g) w); [by apply Z.ltb_lt|done|done|congruence|lia].
Qed.

Lemma send_fair pre g c now h b g' c' :
  fair pre g c → event_ok (Send now h b) → respects pre g c (Send now h b) → step (Send now h b) g c = Ok (g', c') → fair pre g' c'.
Proof.
  intros Hf Hok Hres Hstep. pose proof (fa_int _ _ _ Hf) as Hi. cbn [step respects] in *.
  destruct (send_pkt_integrity pre g c now h b Hi) as [[Hp _]|(c2 & Hc2 & Hi2)].
  { by destruct (send_pkt now h b c) as [[] ?]. }
  rewrite Hc2 in Hstep. injection Hstep as <- <-.
  destruct (send_pkt_cases now h b c) as [[Hs Hfw]|(c3 & Hs & Hfw & [Hh Hl Hb Ht Ha])].
  2:{ rewrite Hs in Hc2. injection Hc2 as <-. rewrite Hfw in *.
      apply (fair_frame pre g _ c); try done; [by rewrite Hh|by apply Ha, Hf|by rewrite Hh|by apply Hb, Hf|cbn; by rewrite app_nil_r]. }
  rewrite Hs in Hc2. set (c1 := with_peer (buf_alloc h) (fwd_cnt h) c) in *. unfold send_data in Hc2.
  destruct b as [l|].
  2:{ injection Hc2 as <-. rewrite Hfw in *. apply (fair_frame pre g _ c); try done; [apply Hf|apply Hf|cbn; by rewrite app_nil_r]. }
  rewrite (proj2 (Z.ltb_ge _ _)) in Hc2 by (by apply Hok). rewrite <-Hfw in Hc2. set (d := forwarded c h (Some l)) in *.
  pose proof (send_bytes_spec d c1 (in_wf _ _ _ Hi) (fwd_range _ _ _ Hi)) as Hb.
  destruct (send_bytes d c1) as [r c3]. destruct Hb as (b' & s' & w & lost & -> & Hb' & Ho' & Hd' & _ & Hw' & Hr).
  destruct (plain_data _ _ _ Hi (fa_raw _ _ _ Hf)) as (w0 & lost0 & Hout & Hd & Hlost & Hfwd). rewrite (Hlost (fa_alive _ _ _ Hf)), app_nil_r in Hd.
  destruct (fa_last _ _ _ Hf) as (L & HL & _).
  assert (TxBuf.len (tx_buf c) + zlen d ≤ CONN_TX_BUF_SIZE) as Hroom.
  { pose proof (TxBuf.zlen_contents SZ ltac:(apply size_facts) _ (in_wf _ _ _ Hi)) as Hz. rewrite <-Hz.
    rewrite <-Hd, zlen_app in Hres. rewrite Hout, zlen_app in HL. lia. }
  destruct Hr as [[-> ->]|(e & -> & [Hfull|Hfail])]; [|cbn in Hfull; lia|by apply (fa_script _ _ _ Hf) in Hfail].
  set (c3 := with_io b' s' (zlen w) c1) in *. injection Hc2 as Hc2.
  assert (quiet c2 c3) as Hq.
  { rewrite <-Hc2. destruct (peer_needs_credit_update c3); split; try done; try (by left); cbn; by rx_simpl. }
  assert (0 ≤ pending_rx c < 32) as Hbits by apply Hf.
  apply (fair_moved pre g _ c c3); try done; try (rewrite <-Hc2; by destruct (peer_needs_credit_update c3)).
  - by apply (integrity_quiet pre (after_send d g) _ c2).
  - rewrite <-Hc2. destruct (peer_needs_credit_update c3); apply Hf.
  - cbn. rewrite Ho', zlen_app. pose proof (zlen_nonneg w). cbn. lia.
  - rewrite <-Hc2. destruct (peer_needs_credit_update c3); [by apply insert_bits|done].
  - cbn. rewrite zlen_app. lia.
  - rewrite <-Hc2. intros ->. left. cbn [pending_rx pend with_pending]. by rewrite contains_insert, orb_true_r.
Qed.

(** The end of [notify] after [n] bytes were flushed. *)
Lemma flushed_fair pre g c b s n :
  fair pre g c → TxBuf.moved SZ (tx_buf c) b (host c) s n → TxBuf.is_empty (tx_buf c) = false →
  let x := with_io b s n c in
  fair pre g (if bool_decide (state x = PeerClosed true true) && TxBuf.is_empty (tx_buf x) then pend Rst x
              else if peer_needs_credit_update x then pend CreditUpdate x else x).
Proof.
  intros Hf Hm He x. pose proof (fa_int _ _ _ Hf) as Hi. pose proof (buffered_started _ _ _ Hi He) as Hnp.
  assert (integrity pre g x) as Hix by (apply (moved_integrity pre g c b s n); auto).
  assert (control x x) as Hx by (by split).
  match goal with |- fair _ _ ?y => set (c' := y) end.
  assert (control x c' ∧ tx_buf c' = tx_buf x ∧ c_fwd_cnt c' = c_fwd_cnt x ∧ state c' = state x) as (Hc & Htx & Hfw & Hst).
  { subst c'. repeat case_match; (split; [auto using control_pend|done]). }
  assert (rx_contains Response (pending_rx c') = rx_contains Response (pending_rx x)) as Hresp.
  { subst c'. repeat case_match; cbn; by rx_simpl. }
  assert (quiet x c') as Hq by (split; try done; [by rewrite (ct_host _ _ Hc)|rewrite Hresp; by intros|by left]).
  destruct Hm as (Hn & Hb & Ho & Hct & _ & Hw).
  apply (fair_moved pre g g c x); try done.
  - by apply (integrity_quiet pre g g x).
  - by rewrite (ct_host _ _ Hc).
  - rewrite Hst. apply Hf.
  - by rewrite (ct_host _ _ Hc).
  - cbn [host x with_io]. rewrite Ho, zlen_app. pose proof (zlen_nonneg (take (Z.to_nat n) (TxBuf.contents SZ (tx_buf c)))). lia.
  - by rewrite (ct_last _ _ Hc).
  - apply Hc, Hf.
  - apply Hf.
  - intros Hneed. subst c'. rewrite Hneed. destruct (bool_decide _ && _); [right|left]; cbn [pending_rx pend with_pending];
      by rewrite contains_insert, orb_true_r.
Qed.

Lemma notify_fair pre g c i o g' c' : fair pre g c → step (Notify i o) g c = Ok (g', c') → fair pre g' c'.
Proof.
  intros Hf Hstep. cbn [step] in Hstep. unfold notify in Hstep. set (c1 := if i then _ else _) in *.
  assert (fair pre g c1) as Hf1.
  { subst c1. destruct i; [|done]. assert (control c (pend Rw c)) as [] by (apply control_pend; by split).
    apply (fair_frame pre g g c); try done; [|apply Hf|by apply ct_bits0, Hf].
    apply (integrity_quiet pre g g c); [apply Hf| |done..]. split; try done; [cbn; by rx_simpl|by left]. }
  clearbody c1. destruct (negb o); [by injection Hstep as <- <-|].
  destruct (TxBuf.is_empty (tx_buf c1)) eqn:He; [by injection Hstep as <- <-|]. destruct size_facts as (Hp & Hs & Hd).
  destruct (TxBuf.ring_flush_spec SZ Hp Hs Hd 3 (tx_buf c1) (host c1) (in_wf _ _ _ (fa_int _ _ _ Hf1)) (TxBuf.passes_bound _ _))
    as (r & n & b & s & Hfl & Hm & Hr). rewrite Hfl in Hstep. pose proof (flushed_fair pre g c1 b s n Hf1 Hm He) as Hfin.
  destruct Hr as [->|(-> & -> & e & -> & Hfail)]; [by injection Hstep as <- <-|].
  destruct e; [by injection Hstep as <- <-|]. destruct (fa_script _ _ _ Hf1). by apply Hfail.
Qed.

Lemma run_fair pre l g c :
  fair pre g c → Forall event_ok l → respectful pre l g c → ∃ g' c', run l g c = Ok (g', c') ∧ fair pre g' c'.
Proof.
  intros Hf Hl. revert g c Hf. induction Hl as [|e l He _ IH]; intros g c Hf Hres; [by exists g, c|]. cbn [run].
  destruct Hres as [Hr Hres]. destruct (step_integrity pre g c e (fa_int _ _ _ Hf)) as [[_ Ho]|(g1 & c1 & Hs & _)].
  { destruct e as [? h [x|]| |]; try done. destruct Ho as [_ Ho]. specialize (He x eq_refl). lia. }
  rewrite Hs in *. apply IH; [|done]. destruct e; [by eapply send_fair|by eapply recv_fair|by eapply notify_fair].
Qed.

Lemma fresh_fair s c : fresh s c → FailW ∉ writes s → fair (out s) (ghost_new s) c.
Proof.
  intros Hfr Hw. pose proof (fresh_integrity _ _ Hfr) as Hi. destruct Hfr as (lcid & pcid & lport & pport & alloc & [-> | ->]).
  all: split; try done; [cbn; unfold CONN_TX_BUF_SIZE; change (zlen []) with 0; lia|].
  all: exists (zlen (out s)); cbn; rewrite Z.sub_diag; split_and!; try done; try lia.
  all: intros _; split; [done|]; unfold CONN_TX_BUF_SIZE, CONN_CREDIT_UPDATE_THRESHOLD; lia.
Qed.



(** A guest whose data packet has no data descriptor and announces more bytes than its only
    descriptor holds makes the device panic. *)
Lemma guest_panics_device :
  let mem x := if x =? 24 then 100 else if x =? 30 then VSOCK_OP_RW else 0 in
  ∃ p, from_tx_virtq_head mem (λ _ _, true) (λ a _, Some a) [{| d_addr := 0; d_len := 44; write_only := false; has_next := false |}] = Ok p ∧
       ∀ now c, state c = Established → (send_pkt now (hdr p) (buf mem p) c).1 = Panic.
Proof.
  eexists. split; [reflexivity|]. intros now c Hc. unfold send_pkt. cbn [state with_peer]. by rewrite Hc.
Qed.
End Connection.
